(* ===== verification/_CoqProject ===== *)
-Q . S2P
Prelude.v
PagedKv.v
PagedKvInv.v
PagedKvOps.v
PagedKvProps.v
LlmRuntime.v
Taint.v
TaintProps.v
Storage.v
StorageProps.v
Memory.v
MemoryHeap.v
MemoryPages.v
MemoryPool.v
MemoryPoolOps.v
MemoryPoolBind.v
MemoryPoolClean.v
MemoryPoolReach.v
MemoryPoolProps.v
Tensor.v
TensorProps.v
TensorStrides.v
FusionGraph.v
FusionSets.v
FusionDag.v
FusionReach.v
FusionLifetime.v
FusionSearch.v
FusionSearchInv.v
FusionRegister.v
FusionPlan.v
FusionOptimize.v
FusionRelative.v
FusionRelativeProps.v
FusionStore.v
FusionPolicy.v
FusionQueue.v
FusionRename.v
FusionRun.v
FusionExplore.v
FusionProcessor.v
AutodiffGraph.v
AutodiffCheckpoint.v
AutodiffCounts.v
AutodiffServe.v
AutodiffRetrieve.v
AutodiffMemory.v
AutodiffMemoryProps.v
AutodiffServer.v
AutodiffAdjoint.v
AutodiffOps.v
AutodiffInv.v
AutodiffForward.v
AutodiffRun.v
AutodiffTape.v
AutodiffBackward.v
AutodiffGradients.v
AutodiffSession.v
AutodiffProps.v
AutodiffLocator.v
AutodiffClient.v
PrefixCache.v
PrefixCacheInv.v
PrefixCacheTiers.v
PrefixCacheOps.v
PrefixCacheLookup.v
PrefixCachePrefill.v
PrefixCacheProps.v
PagedKvClient.v
Scheduler.v
SchedulerDevice.v
SchedulerInv.v
SchedulerPlan.v
SchedulerSchedule.v
SchedulerCommit.v
SchedulerVerify.v
SchedulerLife.v
SchedulerSession.v
SchedulerProps.v
Fenced.v
