(* ===== verification/Prelude.v ===== *)
(** * RUDA: a verification development of the core of the RUDA stack

    RUDA is a GPU computing stack in Rust: a kernel language and its compilers, a
    runtime that owns device memory and streams, a tensor library with fusion and
    automatic differentiation, numerical libraries and an LLM engine.  This
    library models the parts of it that carry state and index arithmetic, and
    proves what the rest of the stack relies on.

    ** Parts and files

    - _Rust code_ ([Prelude]).  A pure function returns [res E A]: [Ok], [Err] or
      [Panic].  A method on [&mut self] is an action of the monad [M S E A], which
      keeps the state on every outcome, so that an error that leaves a half-done
      update is visible.  Unsigned integers are [N] with their width written out:
      [uadd], [umul] and [usub] panic or wrap on overflow according to the build
      profile (class [Profile]: [overflow_checks], [debug_assertions]), and every
      theorem holds for both unless it says otherwise.  [wp] is the weakest
      precondition of an action; it excludes panics.
    - _Paged KV cache_ ([PagedKv]: [ruLLM/src/paged_kv.rs]).  The manager of the
      pages of all live sequences: free list, reference counts, the prefix cache
      and the reserve/commit/cancel protocol of appends, one definition per
      method.  [PagedKvInv] is its invariant, [PagedKvOps] the effect of every
      operation, [PagedKvProps] the theorems over all interleavings: pages are
      conserved, pages being written belong to one sequence, an error changes
      nothing, admission ([can_append]) is exact, begin then cancel is the
      identity on what is observable, the longest cached prefix is found.
    - _Continuous batching_ ([Scheduler]: [ruLLM/src/continuous_batch.rs],
      [continuous_batch/lifecycle.rs], [sampling.rs]).  Requests wait, are admitted,
      prefilled in chunks, decoded one token or verified one draft at a time, preempted,
      finished and cancelled; one definition per method, on a state that contains the
      manager above, of which [PagedKvClient] has the laws a client uses.
      [SchedulerDevice] is the device: cells of keys and values behind the block tables,
      and a causal model ([CausalModel]) that reads and writes them.  [SchedulerInv] is
      the invariant; [SchedulerPlan] (rows of a batch), [SchedulerSchedule] (admission,
      buckets, preemption), [SchedulerCommit] (running, completing and failing a batch),
      [SchedulerVerify] (drafts) and [SchedulerLife] (submission, cancellation, limits,
      look-ahead, selection, progress) specify every operation.  [SchedulerSession] is
      the transition system of callers, scheduler and device; [SchedulerProps] has the
      theorems over all its sessions: each greedy generation is what decoding the prompt
      alone gives, no call panics and a failing call changes nothing, rows write cells
      nobody else reads, the invariant, a batch exists whenever requests wait under
      reserved admission, schedule then fail is the identity on requests, and submission
      is refused exactly for the documented reasons.  Two defects are proved: a draft
      count of [usize::MAX] ([unbounded_drafts_panic]) and unverified drafts committed by
      the plain completion ([complete_batch_commits_drafts]).
    - _LLM layouts and budgets_ ([LlmRuntime]: [ruLLM/src/runtime/shape.rs],
      [memory.rs]).  A validated layout stays inside its storage, contiguous
      layouts are row-major, the number of pages sized from a budget fits it, the
      shared budget accounts for every live reservation.  It sizes the pages that
      the manager above hands out.
    - _Failure taint_ ([Taint]: [ruda-runtime/src/runtime/memory_management/]
      [taint.rs], [error_graph.rs]).  Which failure left which bytes of an
      allocation unwritten, as interval lists, with failure roots shared between
      allocations.  [TaintProps] refines the lists to a map from bytes to
      failures and proves the claim counts of the roots.
    - _Storage_ ([Storage]: [ruda-runtime/src/runtime/storage/base.rs],
      [bytes_cpu.rs]).  The [ComputeStorage] trait is a class with its laws
      ([ComputeStorageLaws]); the memory pools are proved against the laws and
      [StorageProps] shows that the CPU storage satisfies them.  Its byte-range
      leases are exclusive or shared-read.
    - _Memory pool_ ([Memory]: [ruda-runtime/src/runtime/memory_management/]
      [memory_pool/handle.rs], [base.rs], [memory_page.rs], [sliced_pool.rs], and
      [page_guard.rs]).  Handles, pages cut into slices, and the pool of pages.
      Shared descriptors and page references live in an explicit heap with strong
      counts, since a slice is free when its count says so; each descriptor
      carries the taint of its allocation.  [MemoryHeap], [MemoryPages],
      [MemoryPool], [MemoryPoolOps], [MemoryPoolBind], [MemoryPoolClean] build the
      invariant bottom up, [MemoryPoolReach] the reachable states of a pool and
      its clients, [MemoryPoolProps] the theorems: no panic, no overlap between
      live slices, live allocations never move, a reservation nobody else holds, a
      refusal only when no page has room, exact counts, cleanup and lookup.
    - _Tensor metadata_ ([Tensor]: [ruda-core/src/tensor/shape.rs], [slice/],
      [indexing/wrapping.rs], [striding/], [strides.rs], [metadata.rs]).  Shapes,
      broadcasting, reshape inference, slices, strides and the decision whether a
      reshape needs a copy.  [TensorProps] and [TensorStrides] compare them with
      reference definitions: least common expansion, described shapes, addressed
      indices, and the address of the [n]-th element in row-major order.
    - _Fusion graphs_ ([FusionGraph]: [ruda-fusion/src/search/graph/]).  Bit sets of
      nodes, the data flow of operations and blocks, the dependency graph with its
      topological order and reachability, and the check of execution orders.
      [FusionSets] refines the bit sets to finite sets, [FusionDag] and [FusionReach]
      prove order, cycle test, reachability and contraction exact, [FusionLifetime]
      gives operations a meaning (values, releases, ordered effects) and proves that
      every order the check accepts computes what program order computes.
    - _Fusion search_ ([FusionSearch]: [ruda-fusion/src/search/block.rs],
      [merging.rs], [optimization/]).  Blocks offered to fusers, merging them, and the
      plan for a prefix of the stream with its holes filled and its order repaired.
      The fusers of the back end are a class [Fuser] with one law, [FuserLaws].
      [FusionSearchInv], [FusionRegister], [FusionPlan] are its invariants, and
      [FusionOptimize] the theorems: a plan always comes out, covers its operations
      once and computes the same.
    - _Relative operations_ ([FusionRelative]: [ruda-fusion/src/stream/context.rs]).
      The form of operations that plans are cached by.  [FusionRelativeProps]: it can
      be undone, and two lists share it exactly when they are renamings.
    - _Plans and policy_ ([FusionStore]: [ruda-fusion/src/stream/store/],
      [execution/validator.rs], [policy.rs]).  The store of plans with its index,
      triggers and cached sequences, and the policy that follows which plans the
      operations can still become.  [FusionPolicy] proves it exact for every store
      the program can build.
    - _Processor_ ([FusionQueue]: [ruda-fusion/src/stream/queue/],
      [execution/ordering.rs], [explorer.rs], [processor.rs]).  The queue of a stream,
      running strategies out of order, and the loop that finds, makes, stores and runs
      plans.  [FusionRename] transfers the validity of orders from relative to original
      operations, [FusionRun] follows what is run, [FusionExplore] what is left after it
      and the explorer, and [FusionProcessor] composes them: on a device whose streams
      share the store, no operation sequence panics, a synchronization empties the
      queue, everything runs once and computes what program order computes, and cached
      sequences match every queue they are used for.
    - _Automatic differentiation_ ([ruda-autodiff/src/]).  [AutodiffGraph] models nodes,
      requirements and the traversals of the graph ([graph/]); [AutodiffCheckpoint] the
      checkpointer, its counters and the builder ([checkpoint/]); [AutodiffMemory] which
      nodes of the graph are kept ([runtime/memory_management.rs]); [AutodiffServer] the
      gradient container ([grads.rs]), backward steps with one or two inputs
      ([ops/backward.rs], [ops/base.rs]) and the server that builds, schedules and runs a
      tape ([runtime/server.rs]); [AutodiffOps] strategies, tensors and the preparation of
      operations ([checkpoint/strategy.rs], [tensor.rs], [ops/base.rs]).  The backend is a
      class [Backend] with no laws, so that gradients are compared bit for bit; the order
      of iteration over a hash map is a class [HashOrder].  [AutodiffCounts],
      [AutodiffServe] and [AutodiffRetrieve] show that the counters are exact and every
      request gets the output of the forward pass; [AutodiffMemoryProps] that exactly the
      useless nodes are freed; [AutodiffAdjoint] that running a schedule solves the chain
      rule; [AutodiffInv], [AutodiffForward] and [AutodiffRun] are the invariant of a graph
      and its preservation by the forward pass for every [LawfulStrategy]; [AutodiffTape],
      [AutodiffBackward] and [AutodiffGradients] follow a backward pass; [AutodiffSession]
      puts the operations of a program in any order, and [AutodiffProps] has the theorems.
      [AutodiffLocator] models how nodes find their graph and graphs are merged, and the
      client ([runtime/graph.rs]); [AutodiffClient] proves that merging joins the graphs of
      all parents and loses no step, and shows two defects: an origin that a second merge
      leaves behind ([merged_origin_stranded]) and a lock order that can deadlock
      ([merge_backward_deadlock]).  The sessions above run on one graph.
    - _Prefix cache of the LLM engine_ ([PrefixCache]: [ruLLM/src/prefix_cache.rs], with the
      element types of [ruda-core/src/tensor/dtype/mod.rs]).  Completed prompt prefixes in
      device, host and disk tiers, one definition per method and per loop body.  The model,
      the tensors and MessagePack are a class [PrefixModel] with laws [PrefixLaws]; the file
      system is part of the state, and the class [Host] decides which calls fail.
      [PrefixCacheInv] has the laws and what serialization keeps, [PrefixCacheTiers] the
      invariant and the disk tier, [PrefixCacheOps] spilling, [PrefixCacheLookup] insertion
      and lookup, [PrefixCachePrefill] prefill and opening, [PrefixCacheProps] the theorems
      over all sessions: prefills are exact whatever the tiers do, lookups find the longest
      stored prefix, budgets hold, what was inserted is found, hand-offs and reopening; and
      a defect, the leak of disk budget ([lookup_leaks_disk_budget]).

    ** Bounds and fuel

    Loops over a list are structural recursions.  The block loops of the prefix
    cache count down the range of blocks the code iterates over.  The walk of a
    failure report has as many steps as there are records, and each record found
    lies strictly before the previous one.  The topological loops have one more step
    than nodes, the reachability fixpoint [n * n + 1] sweeps, merging blocks as many
    levels as blocks, filling holes as many turns as holes; the search for holes
    recurses on fewer operations, so [S (length ops)] levels are enough, and each turn
    of the processor that does not end it runs an operation, so one more than the
    queue is long; all are proved to be enough.  The loops over the autodiff graph are
    bounded by its edges: each node is expanded once.  The loops of the prefix cache remove
    an entry on each turn, or try a file name that is in use.  Admission takes one waiting
    request per turn and scheduling preempts one request per turn, so one turn more than
    there are waiting and active requests is enough, and proved to be.  [slice_collect]
    has fuel of its own, and one more than the output size is proved to be
    enough.  Integer hypotheses (element counts below [usize_max], sizes
    below [isize_max]) are those an allocated tensor meets.

    ** Outside the model

    [DefaultHasher] is a parameter, as its algorithm is not specified.  Locks are
    the atomicity of one step.  Raw pointers, error texts, [Display] and [FromStr]
    are not modelled.  The fusers, what an operation does to its handles and the two
    hashes of the plan store are parameters: a fuser that is ready makes a fused
    operation of at least one operation ([FuserLaws]) and of no more than it was given,
    as many before and after it runs ([RuntimeLaws]).  The fusion theorems are about
    operations that have a tensor: without one the search plans an operation twice
    ([tensorless_operation_doubles]).  Not covered yet, in the order planned: the
    streams of a device and the tensors they share
    ([ruda-fusion/src/stream/multi.rs], [shared_tensors.rs]), the other memory pools
    and the memory manager, the batch prefix store and the swapping of active requests of
    [ruLLM].  The samplers of the scheduler are opaque and its counters of admissions and
    preemptions are assumed not to reach [2^64]; the executors that run a batch on a
    device are the change of device memory that a completion or failure step of a session
    comes with, arbitrary where the device is not trusted.
    Of
    [ruda-autodiff] the distributed feature, contexts, quantized tensors and backward
    steps with more than two inputs are left out; the strong count of a node is a
    parameter of each call, and a panic ends a session.  GPU kernels, code generators,
    drivers, bindings and numerical libraries are outside its scope. *)

From stdpp Require Export base tactics numbers list gmap sorting strings.

(** ** Outcomes of Rust code

    A Rust function either returns, returns [Err], or panics.  [res E A] is the
    outcome of a pure function, [M S E A] that of a method on [&mut self]: the
    state reached is kept on every outcome, so that what a failing method has
    already written is visible. *)

Inductive res (E A : Type) : Type :=
| Ok (a : A)
| Err (e : E)
| Panic.
Arguments Ok {E A} a.
Arguments Err {E A} e.
Arguments Panic {E A}.

Definition res_bind {E A B} (m : res E A) (k : A → res E B) : res E B :=
  match m with
  | Ok a => k a
  | Err e => Err e
  | Panic => Panic
  end.

Lemma res_bind_Ok {E A B} (m : res E A) (k : A → res E B) b :
  res_bind m k = Ok b ↔ ∃ a, m = Ok a ∧ k a = Ok b.
Proof. destruct m; naive_solver. Qed.

Definition M (S E A : Type) : Type := S → res E A * S.

Definition ret {S E A} (a : A) : M S E A := λ s, (Ok a, s).
Definition throw {S E A} (e : E) : M S E A := λ s, (Err e, s).
Definition panic {S E A} : M S E A := λ s, (Panic, s).
Definition bind {S E A B} (m : M S E A) (k : A → M S E B) : M S E B := λ s,
  match m s with
  | (Ok a, s') => k a s'
  | (Err e, s') => (Err e, s')
  | (Panic, s') => (Panic, s')
  end.
Definition gets {S E A} (f : S → A) : M S E A := λ s, (Ok (f s), s).
Definition modify {S E} (f : S → S) : M S E unit := λ s, (Ok tt, f s).
Definition lift {S E A} (r : res E A) : M S E A := λ s, (r, s).

Declare Scope rust_scope.
Delimit Scope rust_scope with rust.
Notation "'let?' x := m 'in' k" := (res_bind m (λ x, k))
  (at level 10, x pattern, m at level 200, k at level 200) : rust_scope.
Notation "'let!' x := m 'in' k" := (bind m (λ x, k))
  (at level 10, x pattern, m at level 200, k at level 200) : rust_scope.
Open Scope rust_scope.

(** [option.expect(..)] / [option.ok_or(..)?] *)
Definition expect {S E A} (o : option A) : M S E A :=
  match o with Some a => ret a | None => panic end.
Definition ok_or {S E A} (o : option A) (e : E) : M S E A :=
  match o with Some a => ret a | None => throw e end.
Definition when {S E} (b : bool) (m : M S E unit) : M S E unit :=
  if b then m else ret tt.

(** [for x in xs { body }] *)
Fixpoint for_each {S E A} (xs : list A) (body : A → M S E unit) : M S E unit :=
  match xs with
  | [] => ret tt
  | x :: xs => let! _ := body x in for_each xs body
  end.

(** [while cond { body }], with fuel for its turns *)
Fixpoint while {S E} (fuel : nat) (cond : S → bool) (body : M S E unit) : M S E unit :=
  match fuel with
  | O => panic
  | Datatypes.S fuel => λ s, if cond s then (let! _ := body in while fuel cond body) s else (Ok tt, s)
  end.

(** [xs.iter().map(body).collect()] with an effectful body *)
Fixpoint map_each {S E A B} (xs : list A) (body : A → M S E B) : M S E (list B) :=
  match xs with
  | [] => ret []
  | x :: xs =>
      let! y := body x in
      let! ys := map_each xs body in
      ret (y :: ys)
  end.

(** ** Machine integers

    Unsigned integers are [N], [isize] is [Z].  An unchecked operation that
    overflows its width panics when the crate is built with overflow checks and
    wraps otherwise; [Profile] is the build profile, and every theorem holds for
    each of its values. *)

Class Profile := {
  overflow_checks : bool;
  debug_assertions : bool
}.

Definition u8_max : N := (2 ^ 8 - 1)%N.
Definition u16_max : N := (2 ^ 16 - 1)%N.
Definition u32_max : N := (2 ^ 32 - 1)%N.
Definition u64_max : N := (2 ^ 64 - 1)%N.
(** The targets are 64 bit: [usize] is [u64]. *)
Definition usize_max : N := u64_max.

Section arith.
Context {P : Profile} {E : Type}.

Definition overflowing (max r wrapped : N) : res E N :=
  if (r <=? max)%N then Ok r
  else if overflow_checks then Panic else Ok wrapped.

(** [a + b], [a * b] and [a - b] at the width whose maximum is [max]. *)
Definition uadd (max a b : N) : res E N :=
  overflowing max (a + b)%N ((a + b) mod (max + 1))%N.
Definition umul (max a b : N) : res E N :=
  overflowing max (a * b)%N ((a * b) mod (max + 1))%N.
Definition usub (max a b : N) : res E N :=
  if (b <=? a)%N then Ok (a - b)%N
  else if overflow_checks then Panic else Ok ((a + (max + 1) - b) mod (max + 1))%N.

Lemma uadd_ok max a b : (a + b ≤ max)%N → uadd max a b = Ok (a + b)%N.
Proof. intros. unfold uadd, overflowing. by rewrite (proj2 (N.leb_le _ _)). Qed.
Lemma umul_ok max a b : (a * b ≤ max)%N → umul max a b = Ok (a * b)%N.
Proof. intros. unfold umul, overflowing. by rewrite (proj2 (N.leb_le _ _)). Qed.
Lemma usub_ok max a b : (b ≤ a)%N → usub max a b = Ok (a - b)%N.
Proof. intros. unfold usub. by rewrite (proj2 (N.leb_le _ _)). Qed.
End arith.

Definition debug_assert {P : Profile} {S E} (b : bool) : M S E unit :=
  if debug_assertions then (if b then ret tt else panic) else ret tt.

(** [checked_add], [checked_sub], [saturating_sub], [div_ceil] *)
Definition checked_add (max a b : N) : option N :=
  if (a + b <=? max)%N then Some (a + b)%N else None.
Definition checked_mul (max a b : N) : option N :=
  if (a * b <=? max)%N then Some (a * b)%N else None.
Definition checked_sub (a b : N) : option N :=
  if (b <=? a)%N then Some (a - b)%N else None.
Definition saturating_add (max a b : N) : N := N.min max (a + b)%N.
Definition saturating_sub (a b : N) : N := (a - b)%N.
Definition div_ceil (a b : N) : N :=
  if (a mod b =? 0)%N then (a / b)%N else (a / b + 1)%N.

Definition len {A} (l : list A) : N := N.of_nat (length l).

(** [0..n] *)
Definition range (n : N) : list N := N.of_nat <$> seq 0 (N.to_nat n).

(** [v[i]] and [v[i] = x]: out of range is a panic. *)
Definition index {S E A} (l : list A) (i : N) : M S E A := expect (l !! N.to_nat i).

(** ** Weakest preconditions

    [wp m s Q R]: run from [s], [m] does not panic, every normal return
    satisfies [Q] and every [Err] satisfies [R]. *)

Definition wp {S E A} (m : M S E A) (s : S)
    (Q : A → S → Prop) (R : E → S → Prop) : Prop :=
  match m s with
  | (Ok a, s') => Q a s'
  | (Err e, s') => R e s'
  | (Panic, _) => False
  end.

Section wp.
Context {S E : Type}.
Implicit Types (s : S).

Lemma wp_ret {A} (a : A) s Q (R : E → S → Prop) : Q a s → wp (ret a) s Q R.
Proof. done. Qed.
Lemma wp_throw {A} e s (Q : A → S → Prop) (R : E → S → Prop) :
  R e s → wp (throw e) s Q R.
Proof. done. Qed.
Lemma wp_bind {A B} (m : M S E A) (k : A → M S E B) s Q R :
  wp m s (λ a s', wp (k a) s' Q R) R → wp (bind m k) s Q R.
Proof. unfold wp, bind. by destruct (m s) as [[] ?]. Qed.
Lemma wp_bind_inv {A B} (m : M S E A) (k : A → M S E B) s Q R :
  wp (bind m k) s Q R → wp m s (λ a s', wp (k a) s' Q R) R.
Proof. unfold wp, bind. by destruct (m s) as [[] ?]. Qed.
Lemma wp_gets {A} (f : S → A) s Q (R : E → S → Prop) :
  Q (f s) s → wp (gets f) s Q R.
Proof. done. Qed.
Lemma wp_modify f s Q (R : E → S → Prop) :
  Q tt (f s) → wp (modify f) s Q R.
Proof. done. Qed.
Lemma wp_expect {A} (o : option A) a s Q (R : E → S → Prop) :
  o = Some a → Q a s → wp (expect o) s Q R.
Proof. by intros ->. Qed.
Lemma wp_index {A} (l : list A) i a s Q (R : E → S → Prop) :
  l !! N.to_nat i = Some a → Q a s → wp (index l i) s Q R.
Proof. intros. by eapply wp_expect. Qed.
Lemma wp_ok_or {A} (o : option A) e s Q (R : E → S → Prop) :
  (∀ a, o = Some a → Q a s) → (o = None → R e s) → wp (ok_or o e) s Q R.
Proof. destruct o; naive_solver. Qed.
Lemma wp_lift_ok {A} (r : res E A) a s Q R :
  r = Ok a → Q a s → wp (lift r) s Q R.
Proof. by intros ->. Qed.
Lemma wp_debug_assert `{Profile} b s Q (R : E → S → Prop) :
  b = true → Q tt s → wp (debug_assert b) s Q R.
Proof. intros ->. unfold debug_assert. by destruct debug_assertions. Qed.
Lemma wp_wand {A} (m : M S E A) s (Q Q' : A → S → Prop) (R R' : E → S → Prop) :
  wp m s Q R → (∀ a s', Q a s' → Q' a s') → (∀ e s', R e s' → R' e s') →
  wp m s Q' R'.
Proof. unfold wp. destruct (m s) as [[] ?]; naive_solver. Qed.

Lemma wp_mono {A} (m : M S E A) s (Q Q' : A → S → Prop) (R : E → S → Prop) :
  wp m s Q R → (∀ a s', Q a s' → Q' a s') → wp m s Q' R.
Proof. intros. by eapply wp_wand. Qed.

(** What never returns [Err]. *)
Lemma wp_total {A} (m : M S E A) s Q (R : E → S → Prop) :
  wp m s Q (λ _ _, False) → wp m s Q R.
Proof. intros. by eapply wp_wand. Qed.
(** Loop rule: [I] holds of what is still to be visited. *)
Lemma wp_for_each {A} (xs : list A) (body : A → M S E unit)
    (I : list A → S → Prop) (R : E → S → Prop) s :
  I xs s →
  (∀ x xs s, I (x :: xs) s → wp (body x) s (λ _ s', I xs s') R) →
  wp (for_each xs body) s (λ _ s', I [] s') R.
Proof.
  intros HI Hstep. revert s HI. induction xs as [|x xs IH]; intros s HI; [done|].
  simpl. apply wp_bind. eapply wp_wand; [by apply Hstep| |done].
  simpl. intros _ s' HI'. by apply IH.
Qed.

(** Loop rule: every turn keeps [I] and decreases [measure], which is below the fuel. *)
Lemma wp_while (fuel : nat) (cond : S → bool) (body : M S E unit)
    (I : S → Prop) (measure : S → nat) (R : E → S → Prop) s :
  I s → measure s < fuel →
  (∀ s, I s → cond s = true → wp body s (λ _ s', I s' ∧ measure s' < measure s) R) →
  wp (while fuel cond body) s (λ _ s', I s' ∧ cond s' = false) R.
Proof.
  intros HI Hf Hbody. revert s HI Hf. induction fuel as [|fuel IH]; intros s HI Hf; [lia|].
  unfold wp at 1. simpl. destruct (cond s) eqn:Hc; [|done].
  change (wp (bind body (λ _, while fuel cond body)) s (λ _ s', I s' ∧ cond s' = false) R).
  apply wp_bind. eapply wp_wand; [by apply Hbody| |done].
  intros _ s' [HI' Hm]. apply IH; [done|lia].
Qed.

Lemma wp_conj {A} (m : M S E A) s (Q Q' : A → S → Prop) (R R' : E → S → Prop) :
  wp m s Q R → wp m s Q' R' → wp m s (λ a s', Q a s' ∧ Q' a s') (λ e s', R e s' ∧ R' e s').
Proof. unfold wp. by destruct (m s) as [[] ?]. Qed.
Lemma wp_ok {A} (m : M S E A) s s' a Q R :
  wp m s Q R → m s = (Ok a, s') → Q a s'.
Proof. unfold wp. by intros H Hm; rewrite Hm in H. Qed.
Lemma wp_err {A} (m : M S E A) s s' e Q R :
  wp m s Q R → m s = (Err e, s') → R e s'.
Proof. unfold wp. by intros H Hm; rewrite Hm in H. Qed.
End wp.

Create HintDb rust.
#[export] Hint Resolve wp_ret wp_throw wp_gets wp_modify : rust.

(** One step of symbolic execution of a method body. *)
Ltac wp_step :=
  lazymatch goal with
  | |- wp (bind _ _) _ _ _ => apply wp_bind
  | |- wp (ret _) _ _ _ => apply wp_ret
  | |- wp (throw _) _ _ _ => apply wp_throw
  | |- wp (gets _) _ _ _ => apply wp_gets
  | |- wp (modify _) _ _ _ => apply wp_modify
  | |- wp (when ?b _) _ _ _ => unfold when; destruct b eqn:?
  | |- wp (if ?b then _ else _) _ _ _ => destruct b eqn:?
  | |- wp (match ?o with _ => _ end) _ _ _ => destruct o eqn:?
  end; cbn beta.
Ltac wp_steps := simpl; repeat (wp_step; simpl).

(** ** Ordered containers

    [BTreeMap]/[BTreeSet] over integer keys are [gmap N]/[gset N]; what depends
    on the order goes through the ascending list of entries. *)

Definition key_le {A} (x y : N * A) : Prop := (x.1 ≤ y.1)%N.
#[export] Instance key_le_dec {A} (x y : N * A) : Decision (key_le x y).
Proof. unfold key_le. apply _. Defined.
#[export] Instance key_le_total {A} : Total (@key_le A).
Proof. intros x y. unfold key_le. lia. Qed.
#[export] Instance key_le_trans {A} : Transitive (@key_le A).
Proof. intros x y z. unfold key_le. lia. Qed.

Definition entries {A} (m : gmap N A) : list (N * A) :=
  merge_sort key_le (map_to_list m).
Definition pop_first {A} (m : gmap N A) : option (N * A * gmap N A) :=
  match entries m with
  | [] => None
  | (k, v) :: _ => Some (k, v, delete k m)
  end.
Definition set_entries (X : gset N) : list N := merge_sort N.le (elements X).
Definition set_pop_first (X : gset N) : option (N * gset N) :=
  match set_entries X with
  | [] => None
  | x :: _ => Some (x, X ∖ {[x]})
  end.

Section btree.
Context {A : Type}.
Implicit Types (m : gmap N A) (X : gset N).

Lemma entries_perm m : entries m ≡ₚ map_to_list m.
Proof. apply merge_sort_Permutation. Qed.
Lemma elem_of_entries m k v : (k, v) ∈ entries m ↔ m !! k = Some v.
Proof. by rewrite entries_perm, elem_of_map_to_list. Qed.
Lemma entries_nodup m : NoDup (entries m).*1.
Proof. rewrite entries_perm. apply NoDup_fst_map_to_list. Qed.
Lemma entries_sorted m : StronglySorted key_le (entries m).
Proof. apply StronglySorted_merge_sort; apply _. Qed.
Lemma length_entries m : length (entries m) = size m.
Proof. by rewrite entries_perm, length_map_to_list. Qed.

Lemma pop_first_Some m k v m' :
  pop_first m = Some (k, v, m') →
  m !! k = Some v ∧ m' = delete k m ∧ ∀ k' v', m !! k' = Some v' → (k ≤ k')%N.
Proof.
  unfold pop_first. destruct (entries m) as [|[k0 v0] l] eqn:He; [done|].
  intros [= -> -> <-]. split; [|split; [done|]].
  - apply elem_of_entries. rewrite He. by left.
  - intros k' v' Hk'%elem_of_entries. pose proof (entries_sorted m) as Hs.
    rewrite He in Hk', Hs. inversion Hs as [|?? _ Hall]; subst.
    apply elem_of_cons in Hk' as [[= -> ->]|Hk']; [done|].
    rewrite Forall_forall in Hall. apply (Hall _ Hk').
Qed.
Lemma pop_first_None m : pop_first m = None → m = ∅.
Proof.
  unfold pop_first. destruct (entries m) as [|[]] eqn:He; [|done]. intros _.
  apply map_size_empty_iff. by rewrite <-length_entries, He.
Qed.

Lemma elem_of_set_entries X x : x ∈ set_entries X ↔ x ∈ X.
Proof. unfold set_entries. by rewrite merge_sort_Permutation, elem_of_elements. Qed.
Lemma set_pop_first_Some X x X' :
  set_pop_first X = Some (x, X') →
  x ∈ X ∧ X' = X ∖ {[x]} ∧ ∀ y, y ∈ X → (x ≤ y)%N.
Proof.
  unfold set_pop_first. destruct (set_entries X) as [|x0 l] eqn:He; [done|].
  intros [= -> <-]. split; [|split; [done|]].
  - apply elem_of_set_entries. rewrite He. by left.
  - intros y Hy%elem_of_set_entries.
    assert (StronglySorted N.le (set_entries X)) as Hs.
    { apply StronglySorted_merge_sort; [intros ???; lia | intros ??; lia]. }
    rewrite He in Hy, Hs. inversion Hs as [|?? _ Hall]; subst.
    apply elem_of_cons in Hy as [->|Hy]; [done|].
    rewrite Forall_forall in Hall. by apply Hall.
Qed.
Lemma set_pop_first_None X : set_pop_first X = None → X = ∅.
Proof.
  unfold set_pop_first. destruct (set_entries X) eqn:He; [|done]. intros _.
  apply set_eq. intros x. rewrite <-elem_of_set_entries, He. set_solver.
Qed.
End btree.

(** ** Hash containers

    [HashMap]/[HashSet] iterate in an arbitrary order, which may differ from one
    iteration to the next.  [hash_iter k X] is the order of the [k]-th iteration
    over the keys [X]; every theorem holds for each such order. *)

Class HashOrder := {
  hash_iter : nat → gset N → list N;
  hash_iter_perm k X : hash_iter k X ≡ₚ elements X
}.

Section hash.
Context {H : HashOrder}.

Definition map_iter {A} (k : nat) (m : gmap N A) : list (N * A) :=
  omap (λ i, (λ a, (i, a)) <$> m !! i) (hash_iter k (dom m)).

Lemma elem_of_hash_iter k X x : x ∈ hash_iter k X ↔ x ∈ X.
Proof. by rewrite hash_iter_perm, elem_of_elements. Qed.
Lemma hash_iter_nodup k X : NoDup (hash_iter k X).
Proof. rewrite hash_iter_perm. apply NoDup_elements. Qed.
Lemma elem_of_map_iter {A} k (m : gmap N A) i a : (i, a) ∈ map_iter k m ↔ m !! i = Some a.
Proof.
  unfold map_iter. rewrite list_elem_of_omap. split.
  - intros (j & _ & Hj). destruct (m !! j) eqn:Hm; naive_solver.
  - intros Hi. exists i. rewrite elem_of_hash_iter, Hi. split; [by apply elem_of_dom_2 in Hi|done].
Qed.
End hash.

(** ** Filters and binds *)

Lemma filter_nil_iff {A} (Q : A → Prop) `{∀ x, Decision (Q x)} (l : list A) :
  Forall (λ x, ¬ Q x) l → filter Q l = [].
Proof. induction 1 as [|x l Hx _ IH]; [done|]. by rewrite filter_cons_False. Qed.
Lemma filter_all {A} (Q : A → Prop) `{∀ x, Decision (Q x)} (l : list A) : Forall Q l → filter Q l = l.
Proof. induction 1 as [|x l Hx _ IH]; [done|]. by rewrite filter_cons_True, IH. Qed.
Lemma bind_nil {A C} (f : A → list C) (l : list A) : Forall (λ x, f x = []) l → l ≫= f = [].
Proof. induction 1 as [|x l Hx _ IH]; [done|]. cbn. by rewrite Hx, IH. Qed.

(** ** Vectors indexed by [N] *)

Lemma lookup_up {A} (l : list A) (p q : N) x :
  (p < len l)%N →
  <[N.to_nat p := x]> l !! N.to_nat q = if decide (q = p) then Some x else l !! N.to_nat q.
Proof.
  intros Hp. unfold len in Hp. case_decide; subst.
  - apply list_lookup_insert_eq. lia.
  - apply list_lookup_insert_ne. lia.
Qed.
Lemma len_up {A} (l : list A) (i : nat) x : len (<[i := x]> l) = len l.
Proof. unfold len. by rewrite length_insert. Qed.
Lemma lookup_len {A} (l : list A) (p : N) x : l !! N.to_nat p = Some x → (p < len l)%N.
Proof. intros H%lookup_lt_Some. unfold len. lia. Qed.
Lemma lookup_lt_len {A} (l : list A) (p : N) :
  (p < len l)%N → ∃ x, l !! N.to_nat p = Some x.
Proof. intros H. apply lookup_lt_is_Some. unfold len in H. lia. Qed.
Lemma len_app {A} (l k : list A) : len (l ++ k) = (len l + len k)%N.
Proof. unfold len. rewrite length_app. lia. Qed.
Lemma elem_of_range x n : x ∈ range n ↔ (x < n)%N.
Proof.
  unfold range. rewrite list_elem_of_fmap. split.
  - intros (y & -> & Hy%elem_of_seq). lia.
  - intros Hx. exists (N.to_nat x). rewrite elem_of_seq. lia.
Qed.
Lemma len_range n : len (range n) = n.
Proof. unfold len, range. rewrite length_fmap, length_seq. lia. Qed.

(** [occ p l] is the number of times [p] occurs in [l]. *)
Definition occ (p : N) (l : list N) : N := N.of_nat (length (filter (p =.) l)).
Lemma occ_nil p : occ p [] = 0%N.
Proof. done. Qed.
Lemma occ_cons p x l : occ p (x :: l) = ((if decide (p = x) then 1 else 0) + occ p l)%N.
Proof. unfold occ. rewrite filter_cons. case_decide; simpl; lia. Qed.
Lemma occ_app p l k : occ p (l ++ k) = (occ p l + occ p k)%N.
Proof. unfold occ. rewrite filter_app, length_app. lia. Qed.
Lemma occ_pos p l : (0 < occ p l)%N ↔ p ∈ l.
Proof.
  induction l as [|x l IH]; [rewrite occ_nil, elem_of_nil; lia|].
  rewrite occ_cons, elem_of_cons. case_decide; subst; [split; [auto|lia]|].
  rewrite N.add_0_l, IH. tauto.
Qed.
Lemma occ_not_in p l : p ∉ l → occ p l = 0%N.
Proof. intros Hp. assert (¬ (0 < occ p l)%N) by (by rewrite occ_pos). lia. Qed.
Lemma occ_perm p l l' : l ≡ₚ l' → occ p l = occ p l'.
Proof. intros Hl. unfold occ. by rewrite Hl. Qed.
Lemma occ_len p l : (occ p l ≤ len l)%N.
Proof. unfold occ, len. pose proof (length_filter (p =.) l). lia. Qed.
Lemma occ_reverse p l : occ p (reverse l) = occ p l.
Proof. unfold occ. by rewrite reverse_Permutation. Qed.
Lemma occ_split p l n : (occ p (take n l) + occ p (drop n l))%N = occ p l.
Proof. by rewrite <-occ_app, take_drop. Qed.
Lemma occ_two p l i j : i ≠ j → l !! i = Some p → l !! j = Some p → (2 ≤ occ p l)%N.
Proof.
  revert i j. induction l as [|x l IH]; intros i j Hij Hi Hj; [done|].
  rewrite occ_cons. destruct i as [|i], j as [|j]; simplify_eq/=; try done.
  - apply list_elem_of_lookup_2, occ_pos in Hj. rewrite decide_True by done. lia.
  - apply list_elem_of_lookup_2, occ_pos in Hi. rewrite decide_True by done. lia.
  - pose proof (IH i j ltac:(lia) Hi Hj). lia.
Qed.

Section div.
Local Open Scope N_scope.
(** Euclidean division as two fresh variables, in the form [lia] and [nia] use. *)
Lemma div_mod_vars a b :
  0 < b → ∃ q m, a / b = q ∧ a mod b = m ∧ a = b * q + m ∧ m < b.
Proof.
  intros Hb. exists (a / b), (a mod b). assert (b ≠ 0) as Hb0 by lia.
  pose proof (N.div_mod a b Hb0). pose proof (N.mod_lt a b Hb0). done.
Qed.
Lemma div_ceil_spec a b : 0 < b → b * (div_ceil a b) < a + b ∧ a ≤ b * div_ceil a b.
Proof.
  intros Hb. unfold div_ceil. destruct (div_mod_vars a b Hb) as (q & m & -> & -> & -> & Hm).
  destruct (N.eqb_spec m 0); nia.
Qed.
Lemma div_ceil_mono a a' b : 0 < b → a ≤ a' → div_ceil a b ≤ div_ceil a' b.
Proof.
  intros Hb Ha. pose proof (div_ceil_spec a b Hb). pose proof (div_ceil_spec a' b Hb). nia.
Qed.
Lemma div_ceil_mul a b : 0 < b → div_ceil (a * b) b = a.
Proof. intros Hb. pose proof (div_ceil_spec (a * b) b Hb). nia. Qed.
Lemma div_le_div_ceil a b : 0 < b → a / b ≤ div_ceil a b.
Proof. intros. unfold div_ceil. destruct (_ =? _); lia. Qed.
End div.

(** ** Sums over a map *)

Section msum.
Local Open Scope N_scope.
Context `{Countable K} {A : Type} (g : A → N).
Implicit Types (m : gmap K A).

Definition msum m : N := map_fold (λ _ a acc, g a + acc) 0 m.

Lemma msum_empty : msum ∅ = 0.
Proof. unfold msum. by rewrite map_fold_empty. Qed.
Lemma msum_insert_new m k a : m !! k = None → msum (<[k := a]> m) = g a + msum m.
Proof. intros. unfold msum. rewrite map_fold_insert_L; [done| |done]. intros. lia. Qed.
Lemma msum_delete m k a : m !! k = Some a → msum m = g a + msum (delete k m).
Proof.
  intros. rewrite <-(msum_insert_new _ k) by apply lookup_delete_eq.
  by rewrite insert_delete_id.
Qed.
Lemma msum_insert m k a a' :
  m !! k = Some a → msum (<[k := a']> m) + g a = g a' + msum m.
Proof.
  intros Hk. rewrite (msum_delete m k a Hk), <-insert_delete_eq.
  rewrite msum_insert_new by apply lookup_delete_eq. lia.
Qed.
Lemma msum_le m k a : m !! k = Some a → g a ≤ msum m.
Proof. intros Hk. rewrite (msum_delete _ _ _ Hk). lia. Qed.
Lemma msum_le_two m k k' a a' :
  k ≠ k' → m !! k = Some a → m !! k' = Some a' → g a + g a' ≤ msum m.
Proof.
  intros Hne Hk Hk'. rewrite (msum_delete _ _ _ Hk).
  assert (delete k m !! k' = Some a') as Hd by by rewrite lookup_delete_ne.
  pose proof (msum_le _ _ _ Hd). lia.
Qed.
Lemma msum_pos m : 0 < msum m → ∃ k a, m !! k = Some a ∧ 0 < g a.
Proof.
  induction m as [|k a m Hk IH] using map_ind; [by rewrite msum_empty|].
  rewrite msum_insert_new by done. intros Hp. destruct (decide (g a = 0)) as [Ha|Ha].
  - destruct IH as (k' & a' & Hk' & Ha'); [lia|]. exists k', a'.
    split; [|done]. rewrite lookup_insert_ne; [done|]. congruence.
  - exists k, a. rewrite lookup_insert_eq. split; [done|lia].
Qed.
Lemma msum_size m : (∀ a, g a ≤ 1) → msum m ≤ N.of_nat (size m).
Proof.
  intros Hg. induction m as [|k a m Hk IH] using map_ind; [by rewrite msum_empty|].
  rewrite msum_insert_new, map_size_insert_None by done. specialize (Hg a). lia.
Qed.
End msum.

Section left_total.
Local Open Scope N_scope.
Context {A : Type} (g : A → N).
Implicit Types (m : gmap N A).

(** The weight of the entries whose key is not in [visited]: the measure of a
    search that expands every key once. *)
Definition left_total m (visited : gset N) : N := msum g (filter (λ x, x.1 ∉ visited) m).
Lemma left_total_none m visited k :
  m !! k = None → left_total m ({[k]} ∪ visited) = left_total m visited.
Proof.
  intros Hn. unfold left_total. f_equal. apply map_filter_ext. intros i x Hi. simpl.
  rewrite not_elem_of_union, not_elem_of_singleton. naive_solver.
Qed.
Lemma left_total_some m visited k a :
  m !! k = Some a → k ∉ visited → left_total m visited = g a + left_total m ({[k]} ∪ visited).
Proof.
  intros Hn Hv. unfold left_total.
  rewrite (msum_delete g (filter (λ x, x.1 ∉ visited) m) k a) by by apply map_lookup_filter_Some.
  replace (filter (λ x, x.1 ∉ {[k]} ∪ visited) m) with (delete k (filter (λ x, x.1 ∉ visited) m)); [done|].
  apply map_eq. intros i. destruct (decide (i = k)) as [->|Hi].
  - rewrite lookup_delete_eq. symmetry. apply map_lookup_filter_None. right. set_solver.
  - rewrite lookup_delete_ne by done. apply option_eq. intros x.
    rewrite !map_lookup_filter_Some. set_solver.
Qed.
Lemma left_total_empty m : left_total m ∅ = msum g m.
Proof. unfold left_total. f_equal. apply map_filter_id. set_solver. Qed.
Lemma left_total_mono m visited k : left_total m ({[k]} ∪ visited) ≤ left_total m visited.
Proof.
  destruct (decide (k ∈ visited)) as [Hk|Hk].
  { replace ({[k]} ∪ visited) with visited by set_solver. done. }
  destruct (m !! k) as [a|] eqn:Ha.
  - rewrite (left_total_some m visited k a) by done. lia.
  - by rewrite left_total_none.
Qed.
End left_total.

(** ** Dimensions and strides

    The number of elements of a shape, and the offset of a coordinate tuple. *)
Definition volume (l : list N) : N := foldr N.mul 1%N l.
Fixpoint dot (coords strides : list N) : N :=
  match coords, strides with
  | c :: coords, s :: strides => (c * s + dot coords strides)%N
  | _, _ => 0%N
  end.
