(* ===== verification/PagedKv.v ===== *)
(** * Paged KV cache manager ([ruLLM/src/paged_kv.rs])

    The manager owns the page metadata of every live KV sequence: the free
    pages, a reference count per page, the prefix cache that publishes full
    blocks under a chain key, and the reserve/commit protocol of appends.

    [DefaultHasher] does not specify its algorithm, so [chain] is a parameter of
    the two operations that hash; nothing is assumed of it unless said. *)

From S2P Require Import Prelude.
Open Scope N_scope.

(** ** Data *)

(** [RequestId], [KvPageId] and [KvReservationId] are newtypes of integers. *)
Abbreviation RequestId := N (only parsing).
Abbreviation KvPageId := N (only parsing).
Abbreviation KvReservationId := N (only parsing).

Record PagedKvCacheConfig := mkConfig {
  block_size : N;
  num_pages : N;
  max_sequence_length : N
}.

(** One constructor per message of [PagedKvError(String)]. *)
Inductive PagedKvError :=
| ZeroConfig
| PageCountExceedsU32
| SequenceAlreadyExists (r : RequestId)
| SequenceDoesNotExist (r : RequestId)
| EmptyAppend
| AlreadyPending (r : RequestId) (reservation : KvReservationId)
| SequenceLengthOverflow
| AboveCapacity (r : RequestId) (context_length capacity : N)
| NotEnoughPages (needed available : N)
| ReservationIdOverflow
| ReservationDoesNotExist (id : KvReservationId)
| RemovedSequence
| NotPendingOwner (id : KvReservationId) (r : RequestId)
| InconsistentReservation (id : KvReservationId)
| CommittedLengthOverflow
| DuplicateReservation (id : KvReservationId)
| LookaheadCountOverflow
| LookaheadContextOverflow
| LookaheadExceedsCapacity
| InsufficientLookaheadPages
| InvalidConsumedPrefix
| PartialCommitOutside (token_count max : N)
| RemoveWhilePending (r : RequestId) (reservation : KvReservationId).

Record PagedKvAppendReservation := mkAppendReservation {
  ar_id : KvReservationId;
  ar_request_id : RequestId;
  ar_start_position : N;
  ar_token_count : N;
  ar_context_length : N;
  ar_newly_allocated_pages : list KvPageId;
  ar_block_table : list KvPageId
}.

Record PagedKvSequenceSnapshot := mkSequenceSnapshot {
  snap_request_id : RequestId;
  snap_committed_tokens : N;
  snap_block_table : list KvPageId;
  snap_pending_reservation : option KvReservationId
}.

Record PagedKvCacheSnapshot := mkCacheSnapshot {
  snap_block_size : N;
  snap_total_pages : N;
  snap_free_pages : N;
  snap_sequences : list PagedKvSequenceSnapshot
}.

Record SequenceState := mkSequence {
  committed_tokens : N;
  pages : list KvPageId;
  pending : option KvReservationId;
  registered_blocks : N;
  chain_hash : N
}.

Record ReservationState := mkReservation {
  rs_request_id : RequestId;
  previous_page_count : N;
  start_position : N;
  token_count : N
}.

(** The chain hash of the preceding blocks and the block's own tokens ([i32]). *)
Abbreviation BlockKey := (N * list Z)%type (only parsing).

Record CachedBlock := mkCachedBlock {
  key : BlockKey;
  lru_tick : option N
}.

Record PagedKvCacheManager := mkManager {
  config : PagedKvCacheConfig;
  free_pages : gset N;
  page_refs : list N;
  page_blocks : list (option CachedBlock);
  block_index : gmap BlockKey N;
  evictable : gmap N N;
  next_tick : N;
  prefix_caching : bool;
  reused_tokens : N;
  sequences : gmap N SequenceState;
  reservations : gmap N ReservationState;
  next_reservation : N
}.

(** Field assignments of the manager. *)
Definition set_free_pages v s := mkManager (config s) v (page_refs s) (page_blocks s)
  (block_index s) (evictable s) (next_tick s) (prefix_caching s) (reused_tokens s)
  (sequences s) (reservations s) (next_reservation s).
Definition set_page_refs v s := mkManager (config s) (free_pages s) v (page_blocks s)
  (block_index s) (evictable s) (next_tick s) (prefix_caching s) (reused_tokens s)
  (sequences s) (reservations s) (next_reservation s).
Definition set_page_blocks v s := mkManager (config s) (free_pages s) (page_refs s) v
  (block_index s) (evictable s) (next_tick s) (prefix_caching s) (reused_tokens s)
  (sequences s) (reservations s) (next_reservation s).
Definition set_block_index v s := mkManager (config s) (free_pages s) (page_refs s)
  (page_blocks s) v (evictable s) (next_tick s) (prefix_caching s) (reused_tokens s)
  (sequences s) (reservations s) (next_reservation s).
Definition set_evictable v s := mkManager (config s) (free_pages s) (page_refs s)
  (page_blocks s) (block_index s) v (next_tick s) (prefix_caching s) (reused_tokens s)
  (sequences s) (reservations s) (next_reservation s).
Definition set_next_tick v s := mkManager (config s) (free_pages s) (page_refs s)
  (page_blocks s) (block_index s) (evictable s) v (prefix_caching s) (reused_tokens s)
  (sequences s) (reservations s) (next_reservation s).
Definition set_caching v s := mkManager (config s) (free_pages s) (page_refs s)
  (page_blocks s) (block_index s) (evictable s) (next_tick s) v (reused_tokens s)
  (sequences s) (reservations s) (next_reservation s).
Definition set_reused_tokens v s := mkManager (config s) (free_pages s) (page_refs s)
  (page_blocks s) (block_index s) (evictable s) (next_tick s) (prefix_caching s) v
  (sequences s) (reservations s) (next_reservation s).
Definition set_sequences v s := mkManager (config s) (free_pages s) (page_refs s)
  (page_blocks s) (block_index s) (evictable s) (next_tick s) (prefix_caching s)
  (reused_tokens s) v (reservations s) (next_reservation s).
Definition set_reservations v s := mkManager (config s) (free_pages s) (page_refs s)
  (page_blocks s) (block_index s) (evictable s) (next_tick s) (prefix_caching s)
  (reused_tokens s) (sequences s) v (next_reservation s).
Definition set_next_reservation v s := mkManager (config s) (free_pages s) (page_refs s)
  (page_blocks s) (block_index s) (evictable s) (next_tick s) (prefix_caching s)
  (reused_tokens s) (sequences s) (reservations s) v.

Abbreviation Kv := (M PagedKvCacheManager PagedKvError).

Definition CHAIN_ROOT : N := 5941765652423770113.

(** ** Operations *)

Section operations.
Context {P : Profile}.
Context (chain : N → list Z → N).

Definition validate (c : PagedKvCacheConfig) : res PagedKvError unit :=
  if (block_size c =? 0) || (num_pages c =? 0) || (max_sequence_length c =? 0)
  then Err ZeroConfig
  else if u32_max <? num_pages c then Err PageCountExceedsU32
  else Ok tt.

Definition new (c : PagedKvCacheConfig) : res PagedKvError PagedKvCacheManager :=
  let? _ := validate c in
  Ok (mkManager c
        (list_to_set (range (num_pages c)))
        (replicate (N.to_nat (num_pages c)) 0)
        (replicate (N.to_nat (num_pages c)) None)
        ∅ ∅ 0 false 0 ∅ ∅ 1).

Definition available_pages (s : PagedKvCacheManager) : N :=
  N.of_nat (size (free_pages s)) + N.of_nat (size (evictable s)).
Definition free_page_count (s : PagedKvCacheManager) : N := available_pages s.
Definition allocated_page_count (s : PagedKvCacheManager) : res PagedKvError N :=
  usub usize_max (num_pages (config s)) (available_pages s).
Definition cached_page_count (s : PagedKvCacheManager) : N := N.of_nat (size (evictable s)).
Definition sequence_count (s : PagedKvCacheManager) : N := N.of_nat (size (sequences s)).
Definition reservation_count (s : PagedKvCacheManager) : N :=
  N.of_nat (size (reservations s)).

Definition sequence (r : RequestId) : Kv SequenceState :=
  let! m := gets sequences in
  ok_or (m !! r) (SequenceDoesNotExist r).

(** [self.sequences.get_mut(&r)] followed by a write of the whole entry. *)
Definition put_sequence (r : RequestId) (q : SequenceState) : Kv unit :=
  modify (λ s, set_sequences (<[r := q]> (sequences s)) s).

Definition drop_cached_block (page : KvPageId) : Kv unit :=
  let! blocks := gets page_blocks in
  let! slot := index blocks page in
  match slot with
  | None => ret tt
  | Some block =>
      let! _ := modify (set_page_blocks (<[N.to_nat page := None]> blocks)) in
      let! idx := gets block_index in
      when (bool_decide (idx !! key block = Some page))
        (modify (set_block_index (delete (key block) idx)))
  end.

Definition set_prefix_caching (enabled : bool) : Kv unit :=
  let! _ := modify (set_caching enabled) in
  when (negb enabled)
    (let! ev := gets evictable in
     let! _ := modify (set_evictable ∅) in
     for_each (entries ev).*2 (λ page,
       let! _ := drop_cached_block page in
       modify (λ s, set_free_pages ({[page]} ∪ free_pages s) s))).

Definition allocate_page : Kv KvPageId :=
  let! free := gets free_pages in
  let! page :=
    match set_pop_first free with
    | Some (page, free') =>
        let! _ := modify (set_free_pages free') in ret page
    | None =>
        let! ev := gets evictable in
        let! popped := expect (pop_first ev) in
        let! _ := modify (set_evictable (popped.2)) in
        let! _ := drop_cached_block popped.1.2 in
        ret popped.1.2
    end in
  let! refs := gets page_refs in
  let! count := index refs page in
  let! _ := debug_assert (count =? 0) in
  let! _ := modify (set_page_refs (<[N.to_nat page := 1]> refs)) in
  ret page.

Definition acquire_cached (page : KvPageId) : Kv unit :=
  let! refs := gets page_refs in
  let! count := index refs page in
  let! _ :=
    when (count =? 0)
      (let! blocks := gets page_blocks in
       let! slot := index blocks page in
       let! block := expect slot in
       match lru_tick block with
       | None => ret tt
       | Some tick =>
           let! _ := modify (set_page_blocks
             (<[N.to_nat page := Some (mkCachedBlock (key block) None)]> blocks)) in
           modify (λ s, set_evictable (delete tick (evictable s)) s)
       end) in
  let! count' := lift (uadd u32_max count 1) in
  modify (λ s, set_page_refs (<[N.to_nat page := count']> (page_refs s)) s).

Definition release_page (page : KvPageId) : Kv unit :=
  let! refs := gets page_refs in
  let! count := index refs page in
  let! _ := debug_assert (0 <? count) in
  let! count' := lift (usub u32_max count 1) in
  let! _ := modify (set_page_refs (<[N.to_nat page := count']> refs)) in
  if negb (count' =? 0) then ret tt
  else
    let! caching := gets prefix_caching in
    let! blocks := gets page_blocks in
    let! slot := index blocks page in
    match (if caching then slot else None) with
    | Some block =>
        let! tick := gets next_tick in
        let! tick' := lift (uadd u64_max tick 1) in
        let! _ := modify (set_next_tick tick') in
        let! _ := modify (set_page_blocks
          (<[N.to_nat page := Some (mkCachedBlock (key block) (Some tick))]> blocks)) in
        modify (λ s, set_evictable (<[tick := page]> (evictable s)) s)
    | None =>
        let! _ := drop_cached_block page in
        let! free := gets free_pages in
        let! _ := modify (set_free_pages ({[page]} ∪ free)) in
        debug_assert (bool_decide (page ∉ free))
    end.

Definition create_sequence (r : RequestId) : Kv unit :=
  let! m := gets sequences in
  match m !! r with
  | Some _ => throw (SequenceAlreadyExists r)
  | None => put_sequence r (mkSequence 0 [] None 0 CHAIN_ROOT)
  end.

(** [&tokens[block * block_size..(block + 1) * block_size]]; both callers iterate
    over whole blocks of [tokens], so the slice is always in bounds. *)
Definition block_tokens (tokens : list Z) (bs block : N) : list Z :=
  take (N.to_nat bs) (drop (N.to_nat (block * bs)) tokens).

(** The matching loop: [fuel] is the number of blocks still to try. *)
Fixpoint match_prefix (fuel : nat) (bs block : N) (tokens : list Z) (parent : N)
    (acc : list KvPageId) : Kv (list KvPageId * N) :=
  match fuel with
  | O => ret (acc, parent)
  | S fuel =>
      let btoks := block_tokens tokens bs block in
      let! idx := gets block_index in
      match idx !! (parent, btoks) with
      | None => ret (acc, parent)
      | Some page =>
          let! _ := acquire_cached page in
          match_prefix fuel bs (block + 1) tokens (chain parent btoks) (acc ++ [page])
      end
  end.

Definition create_sequence_with_prefix (r : RequestId) (tokens : list Z) : Kv N :=
  let! _ := create_sequence r in
  let! caching := gets prefix_caching in
  if negb caching || (len tokens <=? 1) then ret 0
  else
    let! c := gets config in
    let bs := block_size c in
    let usable_blocks := (len tokens - 1) / bs in
    let! matched_pages := match_prefix (N.to_nat usable_blocks) bs 0 tokens CHAIN_ROOT [] in
    let! matched := lift (umul usize_max (len matched_pages.1) bs) in
    let! m := gets sequences in
    let! q := expect (m !! r) in
    let! _ := put_sequence r
      (mkSequence matched matched_pages.1 (pending q) (len matched_pages.1) matched_pages.2) in
    let! reused := gets reused_tokens in
    let! reused' := lift (uadd u64_max reused matched) in
    let! _ := modify (set_reused_tokens reused') in
    ret matched.

(** The publishing loop, [block..complete]. *)
Fixpoint publish (fuel : nat) (bs block : N) (tokens : list Z) (parent : N)
    (ps : list KvPageId) : Kv N :=
  match fuel with
  | O => ret parent
  | S fuel =>
      let btoks := block_tokens tokens bs block in
      let! page := index ps block in
      let! idx := gets block_index in
      let! blocks := gets page_blocks in
      let! _ :=
        match idx !! (parent, btoks) with
        | Some _ => ret tt
        | None =>
            let! slot := index blocks page in
            match slot with
            | Some _ => ret tt
            | None =>
                let! _ := modify (set_block_index (<[(parent, btoks) := page]> idx)) in
                modify (set_page_blocks
                  (<[N.to_nat page := Some (mkCachedBlock (parent, btoks) None)]> blocks))
            end
        end in
      publish fuel bs (block + 1) tokens (chain parent btoks) ps
  end.

Definition register_prefix (r : RequestId) (tokens : list Z) : Kv unit :=
  let! caching := gets prefix_caching in
  if negb caching then ret tt
  else
    let! c := gets config in
    let bs := block_size c in
    let! q := sequence r in
    let committed := N.min (committed_tokens q) (len tokens) in
    let complete := committed / bs in
    let block := registered_blocks q in
    let! parent := publish (N.to_nat (complete - block)) bs block tokens (chain_hash q) (pages q) in
    let! m := gets sequences in
    let! q' := expect (m !! r) in
    put_sequence r (mkSequence (committed_tokens q') (pages q') (pending q')
      (N.max block complete) parent).

Definition contains_sequence (r : RequestId) (s : PagedKvCacheManager) : bool :=
  bool_decide (is_Some (sequences s !! r)).
Definition committed_tokens_of (r : RequestId) : Kv N :=
  let! q := sequence r in ret (committed_tokens q).
Definition block_table (r : RequestId) : Kv (list KvPageId) :=
  let! q := sequence r in ret (pages q).

Definition can_append (r : RequestId) (count : N) : Kv bool :=
  if count =? 0 then ret false
  else
    let! q := sequence r in
    match pending q with
    | Some _ => ret false
    | None =>
        match checked_add usize_max (committed_tokens q) count with
        | None => ret false
        | Some end_ =>
            let! c := gets config in
            if max_sequence_length c <? end_ then ret false
            else
              let required_pages := div_ceil end_ (block_size c) in
              let! available := gets available_pages in
              ret (saturating_sub required_pages (len (pages q)) <=? available)
        end
    end.

(** [for _ in 0..n { v.push(self.allocate_page()) }] *)
Definition allocate_pages (n : N) : Kv (list KvPageId) :=
  map_each (range n) (λ _, allocate_page).

Definition begin_append (r : RequestId) (count : N) : Kv PagedKvAppendReservation :=
  if count =? 0 then throw EmptyAppend
  else
    let! q := sequence r in
    match pending q with
    | Some reservation => throw (AlreadyPending r reservation)
    | None =>
        let start := committed_tokens q in
        let! context_length := ok_or (checked_add usize_max start count) SequenceLengthOverflow in
        let! c := gets config in
        if max_sequence_length c <? context_length
        then throw (AboveCapacity r context_length (max_sequence_length c))
        else
          let previous := len (pages q) in
          let required_pages := div_ceil context_length (block_size c) in
          let additional := saturating_sub required_pages previous in
          let! available := gets available_pages in
          if available <? additional then throw (NotEnoughPages additional available)
          else
            let! id := gets next_reservation in
            let! next := ok_or (checked_add u64_max id 1) ReservationIdOverflow in
            let! _ := modify (set_next_reservation next) in
            let! fresh := allocate_pages additional in
            let! m := gets sequences in
            let! q := expect (m !! r) in
            let table := pages q ++ fresh in
            let! _ := put_sequence r (mkSequence (committed_tokens q) table (Some id)
              (registered_blocks q) (chain_hash q)) in
            let! _ := modify (λ s, set_reservations
              (<[id := mkReservation r previous start count]> (reservations s)) s) in
            ret (mkAppendReservation id r start count context_length fresh table)
    end.

Definition validate_reservation (id : KvReservationId) : Kv unit :=
  let! rs := gets reservations in
  let! rv := ok_or (rs !! id) (ReservationDoesNotExist id) in
  let! q := sequence (rs_request_id rv) in
  if negb (bool_decide (pending q = Some id))
     || negb (committed_tokens q =? start_position rv)
     || (len (pages q) <? previous_page_count rv)
  then throw (InconsistentReservation id)
  else
    let! _ := ok_or (checked_add usize_max (start_position rv) (token_count rv))
                CommittedLengthOverflow in
    ret tt.

Definition take_reservation (id : KvReservationId) : Kv ReservationState :=
  let! rs := gets reservations in
  let! _ := modify (set_reservations (delete id rs)) in
  ok_or (rs !! id) (ReservationDoesNotExist id).

Definition commit_append (id : KvReservationId) : Kv N :=
  let! _ := validate_reservation id in
  let! rv := take_reservation id in
  let! m := gets sequences in
  let! q := ok_or (m !! rs_request_id rv) RemovedSequence in
  if negb (bool_decide (pending q = Some id))
  then throw (NotPendingOwner id (rs_request_id rv))
  else
    let! context_length := ok_or (checked_add usize_max (start_position rv) (token_count rv))
                             CommittedLengthOverflow in
    let! _ := put_sequence (rs_request_id rv) (mkSequence context_length (pages q) None
      (registered_blocks q) (chain_hash q)) in
    ret context_length.

Definition extend_append (id : KvReservationId) (extra : N) : Kv PagedKvAppendReservation :=
  let! _ := validate_reservation id in
  let! rs := gets reservations in
  let! rv := expect (rs !! id) in
  let r := rs_request_id rv in
  let start := start_position rv in
  let! count := ok_or (checked_add usize_max (token_count rv) extra) LookaheadCountOverflow in
  let! end_ := ok_or (checked_add usize_max start count) LookaheadContextOverflow in
  let! c := gets config in
  if max_sequence_length c <? end_ then throw LookaheadExceedsCapacity
  else
    let! m := gets sequences in
    let! q := expect (m !! r) in
    let current := len (pages q) in
    let additional := saturating_sub (div_ceil end_ (block_size c)) current in
    let! available := gets available_pages in
    if available <? additional then throw InsufficientLookaheadPages
    else
      let! fresh := allocate_pages additional in
      let! m := gets sequences in
      let! q := expect (m !! r) in
      let table := pages q ++ fresh in
      let! _ := put_sequence r (mkSequence (committed_tokens q) table (pending q)
        (registered_blocks q) (chain_hash q)) in
      let! _ := modify (λ s, set_reservations
        (<[id := mkReservation r (previous_page_count rv) start count]> (reservations s)) s) in
      ret (mkAppendReservation id r start count end_ fresh table).

(** The checks of [validate_reservations]: [seen] is the [BTreeSet]. *)
Fixpoint validate_each (seen : gset N) (ids : list KvReservationId) : Kv unit :=
  match ids with
  | [] => ret tt
  | id :: ids =>
      if bool_decide (id ∈ seen) then throw (DuplicateReservation id)
      else
        let! _ := validate_reservation id in
        validate_each ({[id]} ∪ seen) ids
  end.
Definition validate_reservations (ids : list KvReservationId) : Kv unit := validate_each ∅ ids.

(** [v.split_off(at)]: panics when [at] is beyond the length. *)
Definition split_off (l : list N) (at_ : N) : Kv (list N * list N) :=
  if len l <? at_ then panic
  else ret (take (N.to_nat at_) l, drop (N.to_nat at_) l).

Definition check_consumed (rows : list (KvReservationId * N)) : Kv unit :=
  for_each rows (λ row,
    let! rs := gets reservations in
    let! rv := expect (rs !! row.1) in
    if (row.2 =? 0) || (token_count rv <? row.2) then throw InvalidConsumedPrefix
    else ret tt).

Definition commit_prefix_row (row : KvReservationId * N) : Kv N :=
  let! rs := gets reservations in
  let! rv := expect (rs !! row.1) in
  let! _ := modify (set_reservations (delete row.1 rs)) in
  let! m := gets sequences in
  let! q := expect (m !! rs_request_id rv) in
  let! position := lift (uadd usize_max (start_position rv) row.2) in
  let! c := gets config in
  let! split := split_off (pages q) (div_ceil position (block_size c)) in
  let! _ := put_sequence (rs_request_id rv) (mkSequence position split.1 None
    (registered_blocks q) (chain_hash q)) in
  let! _ := for_each split.2 release_page in
  ret position.

Definition commit_append_prefixes (rows : list (KvReservationId * N)) : Kv (list N) :=
  let! _ := validate_reservations rows.*1 in
  let! _ := check_consumed rows in
  map_each rows commit_prefix_row.

Definition commit_append_partial (id : KvReservationId) (count : N) : Kv N :=
  let! rs := gets reservations in
  let! rv := ok_or (rs !! id) (ReservationDoesNotExist id) in
  if (count =? 0) || (token_count rv <? count)
  then throw (PartialCommitOutside count (token_count rv))
  else
    let r := rs_request_id rv in
    let! context_length := lift (uadd usize_max (start_position rv) count) in
    let! c := gets config in
    let needed_pages := div_ceil context_length (block_size c) in
    let! committed := commit_append id in
    let! m := gets sequences in
    let! q := expect (m !! r) in
    let! _ := debug_assert (context_length <=? committed) in
    let keep := if needed_pages <? len (pages q) then take (N.to_nat needed_pages) (pages q)
                else pages q in
    let released := if needed_pages <? len (pages q) then drop (N.to_nat needed_pages) (pages q)
                    else [] in
    let! _ := put_sequence r (mkSequence context_length keep (pending q)
      (registered_blocks q) (chain_hash q)) in
    let! _ := for_each released release_page in
    ret context_length.

Definition cancel_append (id : KvReservationId) : Kv unit :=
  let! _ := validate_reservation id in
  let! rv := take_reservation id in
  let! m := gets sequences in
  let! q := ok_or (m !! rs_request_id rv) RemovedSequence in
  if negb (bool_decide (pending q = Some id))
  then throw (NotPendingOwner id (rs_request_id rv))
  else
    let! split := split_off (pages q) (previous_page_count rv) in
    let! _ := put_sequence (rs_request_id rv) (mkSequence (committed_tokens q) split.1 None
      (registered_blocks q) (chain_hash q)) in
    for_each split.2 release_page.

(** [result.expect(..)]: an [Err] becomes a panic. *)
Definition unwrap {A} (m : Kv A) : Kv A := λ s,
  match m s with
  | (Err _, s') => (Panic, s')
  | o => o
  end.

Definition commit_appends (ids : list KvReservationId) : Kv (list N) :=
  let! _ := validate_reservations ids in
  map_each ids (λ id, unwrap (commit_append id)).

Definition cancel_appends (ids : list KvReservationId) : Kv unit :=
  let! _ := validate_reservations ids in
  for_each ids (λ id, unwrap (cancel_append id)).

Definition remove_sequence (r : RequestId) : Kv unit :=
  let! q := sequence r in
  match pending q with
  | Some reservation => throw (RemoveWhilePending r reservation)
  | None =>
      let! _ := modify (λ s, set_sequences (delete r (sequences s)) s) in
      for_each (reverse (pages q)) release_page
  end.

Definition snapshot (s : PagedKvCacheManager) : PagedKvCacheSnapshot :=
  mkCacheSnapshot (block_size (config s)) (num_pages (config s)) (available_pages s)
    ((λ '(r, q), mkSequenceSnapshot r (committed_tokens q) (pages q) (pending q))
       <$> entries (sequences s)).
End operations.
