(* ===== verification/PagedKvInv.v ===== *)
(** * Invariant of the paged KV manager

    [pages_ok] is the accounting of physical pages against an abstract
    reference count [held]; [wf] instantiates it with the occurrences of a page
    in the block tables and adds the shape of sequences and reservations.  The
    lemmas here say what each page primitive does to the accounting. *)

From S2P Require Import Prelude PagedKv.
Open Scope N_scope.

(** ** Page accounting *)

Record pages_ok (np : N) (free : gset N) (refs : list N)
    (blocks : list (option CachedBlock)) (idx : gmap (N * list Z) N) (ev : gmap N N)
    (tick : N) (held : N → N) : Prop := {
  po_refs_len : len refs = np;
  po_blocks_len : len blocks = np;
  po_refs : ∀ p c, refs !! N.to_nat p = Some c → c = held p;
  po_held : ∀ p, 0 < held p → p < np;
  po_free : ∀ p, p ∈ free → p < np ∧ held p = 0 ∧ blocks !! N.to_nat p = Some None;
  po_ev : ∀ t p, ev !! t = Some p ↔
    ∃ k, blocks !! N.to_nat p = Some (Some (mkCachedBlock k (Some t)));
  po_ev_held : ∀ t p, ev !! t = Some p → held p = 0 ∧ t < tick;
  po_noleak : ∀ p, p < np → held p = 0 → p ∈ free ∨ ∃ t, ev !! t = Some p;
  po_idx : ∀ k p, idx !! k = Some p ↔
    ∃ t, blocks !! N.to_nat p = Some (Some (mkCachedBlock k t))
}.

Definition set_held (held : N → N) (p c : N) : N → N := λ q, if decide (q = p) then c else held q.

Lemma pages_ok_ext np free refs blocks idx ev tick held held' :
  (∀ p, held' p = held p) →
  pages_ok np free refs blocks idx ev tick held →
  pages_ok np free refs blocks idx ev tick held'.
Proof.
  intros He []. split; intros; rewrite ?He in *; eauto.
Qed.

Section accounting.
Context (np : N) (free : gset N) (refs : list N) (blocks : list (option CachedBlock))
  (idx : gmap (N * list Z) N) (ev : gmap N N) (tick : N) (held : N → N).
Context (Hok : pages_ok np free refs blocks idx ev tick held).

Lemma po_lookup_refs p : p < np → refs !! N.to_nat p = Some (held p).
Proof using Hok.
  intros Hp. rewrite <-(po_refs_len _ _ _ _ _ _ _ _ Hok) in Hp.
  destruct (lookup_lt_len _ _ Hp) as [c Hc]. rewrite Hc. f_equal. by eapply po_refs.
Qed.
Lemma po_lookup_blocks p : p < np → ∃ b, blocks !! N.to_nat p = Some b.
Proof using Hok.
  intros Hp. rewrite <-(po_blocks_len _ _ _ _ _ _ _ _ Hok) in Hp. by apply lookup_lt_len.
Qed.
Lemma po_ev_lt t p : ev !! t = Some p → p < np.
Proof using Hok.
  intros [k Hk]%(po_ev _ _ _ _ _ _ _ _ Hok). apply lookup_len in Hk.
  by rewrite <-(po_blocks_len _ _ _ _ _ _ _ _ Hok).
Qed.
Lemma po_ev_inj t t' p : ev !! t = Some p → ev !! t' = Some p → t = t'.
Proof using Hok.
  intros [k Hk]%(po_ev _ _ _ _ _ _ _ _ Hok) [k' Hk']%(po_ev _ _ _ _ _ _ _ _ Hok).
  congruence.
Qed.
Lemma po_free_ev t p : p ∈ free → ev !! t = Some p → False.
Proof using Hok.
  intros (_ & _ & Hb)%(po_free _ _ _ _ _ _ _ _ Hok) [k Hk]%(po_ev _ _ _ _ _ _ _ _ Hok).
  congruence.
Qed.
Lemma po_block_idx p k t :
  blocks !! N.to_nat p = Some (Some (mkCachedBlock k t)) → idx !! k = Some p.
Proof using Hok. intros H. apply (po_idx _ _ _ _ _ _ _ _ Hok). eauto. Qed.
Lemma po_unique_key p p' k t t' :
  blocks !! N.to_nat p = Some (Some (mkCachedBlock k t)) →
  blocks !! N.to_nat p' = Some (Some (mkCachedBlock k t')) → p = p'.
Proof using Hok. intros H%po_block_idx H'%po_block_idx. congruence. Qed.

(** Taking a free page. *)
Lemma po_take_free p :
  p ∈ free →
  pages_ok np (free ∖ {[p]}) (<[N.to_nat p := 1]> refs) blocks idx ev tick (set_held held p 1).
Proof using Hok.
  intros Hp. destruct (po_free _ _ _ _ _ _ _ _ Hok p Hp) as (Hlt & Hh & Hb).
  pose proof Hok as []. unfold set_held. split; try done.
  - by rewrite len_up.
  - intros q c. rewrite lookup_up by lia. case_decide; [congruence|eauto].
  - intros q. case_decide as Hd; [subst q|]; eauto.
  - intros q [Hq Hne]%elem_of_difference. rewrite decide_False by set_solver. eauto.
  - intros t q Ht. rewrite decide_False; [eauto|]. intros ->. by eapply po_free_ev.
  - intros q Hq. case_decide; [lia|]. intros Hq0.
    destruct (po_noleak0 q Hq Hq0); [left; set_solver|eauto].
Qed.

(** Evicting a cached page: its block leaves the index. *)
Lemma po_evict t p k :
  ev !! t = Some p →
  blocks !! N.to_nat p = Some (Some (mkCachedBlock k (Some t))) →
  pages_ok np free (<[N.to_nat p := 1]> refs) (<[N.to_nat p := None]> blocks) (delete k idx)
    (delete t ev) tick (set_held held p 1).
Proof using Hok.
  intros Ht Hk. pose proof (po_ev_lt _ _ Ht) as Hlt.
  destruct (po_ev_held _ _ _ _ _ _ _ _ Hok _ _ Ht) as [Hh _].
  pose proof Hok as []. unfold set_held. split.
  - by rewrite len_up.
  - by rewrite len_up.
  - intros q c. rewrite lookup_up by lia. case_decide; [congruence|eauto].
  - intros q. case_decide as Hd; [subst q|]; eauto.
  - intros q Hq. assert (q ≠ p) by (intros ->; by eapply po_free_ev).
    rewrite lookup_up by lia. rewrite !decide_False by done. eauto.
  - intros u q. rewrite lookup_delete_Some, po_ev0, lookup_up by lia.
    case_decide as Hd; [subst q|]; split.
    + intros [? [? ?]]. congruence.
    + intros [? ?]. congruence.
    + by intros [_ ?].
    + intros [k' Hk']. split; [|eauto]. intros <-.
      assert (ev !! t = Some q) by (apply po_ev0; eauto). congruence.
  - intros u q [? Hu]%lookup_delete_Some. rewrite decide_False; [eauto|].
    intros ->. by pose proof (po_ev_inj _ _ _ Ht Hu).
  - intros q Hq. case_decide; [lia|]. intros Hq0.
    destruct (po_noleak0 q Hq Hq0) as [?|[u Hu]]; [by left|].
    right. exists u. rewrite lookup_delete_ne; [done|]. intros <-. congruence.
  - intros k' q. rewrite lookup_delete_Some, po_idx0, lookup_up by lia.
    case_decide as Hd; [subst q|]; split.
    + intros [? [? ?]]. congruence.
    + intros [? ?]. congruence.
    + by intros [_ ?].
    + intros [u Hu]. split; [|eauto]. intros <-. by pose proof (po_unique_key _ _ _ _ _ Hu Hk).
Qed.

(** One more reference to a page already referenced. *)
Lemma po_incr p c :
  0 < held p → c = held p + 1 →
  pages_ok np free (<[N.to_nat p := c]> refs) blocks idx ev tick (set_held held p c).
Proof using Hok.
  intros Hp ->. pose proof Hok as []. pose proof (po_held0 p Hp). unfold set_held.
  split; try done.
  - by rewrite len_up.
  - intros q c. rewrite lookup_up by lia. case_decide; [congruence|eauto].
  - intros q. case_decide as Hd; [subst q|]; eauto.
  - intros q Hq. destruct (po_free0 q Hq) as (? & ? & ?). rewrite decide_False; [done|].
    intros ->. lia.
  - intros t q Ht. destruct (po_ev_held0 _ _ Ht). rewrite decide_False; [done|].
    intros ->. lia.
  - intros q Hq. case_decide; [lia|]. eauto.
Qed.

(** Reviving an unreferenced cached page: it leaves the eviction order. *)
Lemma po_revive t p k :
  ev !! t = Some p →
  blocks !! N.to_nat p = Some (Some (mkCachedBlock k (Some t))) →
  pages_ok np free (<[N.to_nat p := 1]> refs)
    (<[N.to_nat p := Some (mkCachedBlock k None)]> blocks) idx
    (delete t ev) tick (set_held held p 1).
Proof using Hok.
  intros Ht Hk. pose proof (po_ev_lt _ _ Ht) as Hlt.
  pose proof Hok as []. unfold set_held. split.
  - by rewrite len_up.
  - by rewrite len_up.
  - intros q c. rewrite lookup_up by lia. case_decide; [congruence|eauto].
  - intros q. case_decide as Hd; [subst q|]; eauto.
  - intros q Hq. assert (q ≠ p) by (intros ->; by eapply po_free_ev).
    rewrite lookup_up by lia. rewrite !decide_False by done. eauto.
  - intros u q. rewrite lookup_delete_Some, po_ev0, lookup_up by lia.
    case_decide as Hd; [subst q|]; split.
    + intros [? [? ?]]. congruence.
    + intros [? ?]. congruence.
    + by intros [_ ?].
    + intros [k' Hk']. split; [|eauto]. intros <-.
      assert (ev !! t = Some q) by (apply po_ev0; eauto). congruence.
  - intros u q [? Hu]%lookup_delete_Some. rewrite decide_False; [eauto|].
    intros ->. by pose proof (po_ev_inj _ _ _ Ht Hu).
  - intros q Hq. case_decide; [lia|]. intros Hq0.
    destruct (po_noleak0 q Hq Hq0) as [?|[u Hu]]; [by left|].
    right. exists u. rewrite lookup_delete_ne; [done|]. intros <-. congruence.
  - intros k' q. rewrite po_idx0, lookup_up by lia.
    case_decide as Hd; [subst q|done]. rewrite Hk. split; intros [? [= -> ?]]; eauto.
Qed.

(** Dropping a reference that is not the last one. *)
Lemma po_decr p c :
  0 < c → held p = c + 1 →
  pages_ok np free (<[N.to_nat p := c]> refs) blocks idx ev tick (set_held held p c).
Proof using Hok.
  intros Hc Hp. pose proof Hok as []. pose proof (po_held0 p ltac:(lia)). unfold set_held.
  split; try done.
  - by rewrite len_up.
  - intros q c'. rewrite lookup_up by lia. case_decide; [congruence|eauto].
  - intros q. case_decide as Hd; [subst q|]; eauto.
  - intros q Hq. destruct (po_free0 q Hq) as (? & ? & ?). rewrite decide_False; [done|].
    intros ->. lia.
  - intros t q Ht. destruct (po_ev_held0 _ _ Ht). rewrite decide_False; [done|].
    intros ->. lia.
  - intros q Hq. case_decide; [lia|]. eauto.
Qed.

(** Dropping the last reference of a published page: it becomes evictable. *)
Lemma po_cache p k t0 :
  held p = 1 → blocks !! N.to_nat p = Some (Some (mkCachedBlock k t0)) →
  pages_ok np free (<[N.to_nat p := 0]> refs)
    (<[N.to_nat p := Some (mkCachedBlock k (Some tick))]> blocks) idx
    (<[tick := p]> ev) (tick + 1) (set_held held p 0).
Proof using Hok.
  intros Hp Hk. pose proof Hok as []. pose proof (po_held0 p ltac:(lia)) as Hlt.
  assert (ev !! tick = None) as Hfresh.
  { destruct (ev !! tick) eqn:Ht; [|done]. destruct (po_ev_held0 _ _ Ht). lia. }
  assert (t0 = None) as ->.
  { destruct t0 as [t|]; [|done]. destruct (po_ev_held0 t p); [apply po_ev0; eauto|lia]. }
  unfold set_held. split.
  - by rewrite len_up.
  - by rewrite len_up.
  - intros q c'. rewrite lookup_up by lia. case_decide; [congruence|eauto].
  - intros q. case_decide; [lia|]. eauto.
  - intros q Hq. destruct (po_free0 q Hq) as (? & ? & ?).
    assert (q ≠ p) by (intros ->; lia). rewrite lookup_up by lia.
    rewrite !decide_False by done. done.
  - intros u q. rewrite lookup_insert_Some, lookup_up by lia. case_decide as Hd; [subst q|]; split.
    + intros [[<- _]|[Hne Hu]]; [eauto|]. apply po_ev0 in Hu as [??]. congruence.
    + intros [? [= <- <-]]. by left.
    + intros [[? ?]|[Hne Hu]]; [congruence|]. by apply po_ev0.
    + intros Hu. right. rewrite po_ev0. split; [|done]. intros <-.
      apply po_ev0 in Hu. congruence.
  - intros u q. rewrite lookup_insert_Some. intros [[<- <-]|[Hne Hu]].
    + rewrite decide_True by done. split; lia.
    + destruct (po_ev_held0 _ _ Hu). case_decide as Hd; [subst q|]; split; lia.
  - intros q Hq. case_decide as Hd; [subst q|]; intros Hq0.
    + right. exists tick. by rewrite lookup_insert_eq.
    + destruct (po_noleak0 q Hq Hq0) as [?|[u Hu]]; [by left|]. right. exists u.
      rewrite lookup_insert_ne; [done|]. intros <-. congruence.
  - intros k' q. rewrite po_idx0, lookup_up by lia.
    case_decide as Hd; [subst q|done]. rewrite Hk. split; intros [? [= -> ?]]; eauto.
Qed.

(** Dropping the last reference of a page that returns to the free set; its
    block, if any, leaves the index. *)
Lemma po_to_free p ob :
  held p = 1 → blocks !! N.to_nat p = Some ob →
  pages_ok np ({[p]} ∪ free) (<[N.to_nat p := 0]> refs) (<[N.to_nat p := None]> blocks)
    (match ob with Some b => delete (key b) idx | None => idx end) ev tick (set_held held p 0).
Proof using Hok.
  intros Hp Hb. pose proof Hok as []. pose proof (po_held0 p ltac:(lia)) as Hlt.
  assert (∀ t, ev !! t ≠ Some p) as Hne.
  { intros t Ht. destruct (po_ev_held0 _ _ Ht). lia. }
  unfold set_held. split.
  - by rewrite len_up.
  - by rewrite len_up.
  - intros q c'. rewrite lookup_up by lia. case_decide; [congruence|eauto].
  - intros q. case_decide; [lia|]. eauto.
  - intros q Hq. rewrite lookup_up by lia.
    case_decide as Hd; [by subst q|]. apply po_free0. set_solver.
  - intros u q. rewrite lookup_up by lia. case_decide as Hd; [subst q|done].
    split; [by intros ?%Hne|by intros [? ?]].
  - intros u q Hu. destruct (po_ev_held0 _ _ Hu). by case_decide.
  - intros q Hq. case_decide as Hd; [subst q|]; intros Hq0; [left; set_solver|].
    destruct (po_noleak0 q Hq Hq0); [left; set_solver|eauto].
  - intros k' q. rewrite lookup_up by lia. destruct ob as [[k t]|]; simpl.
    + rewrite lookup_delete_Some, po_idx0. case_decide as Hd; [subst q|]; split.
      * intros [? [? ?]]. congruence.
      * by intros [? ?].
      * by intros [_ ?].
      * intros [u Hu]. split; [|eauto]. intros <-. by pose proof (po_unique_key _ _ _ _ _ Hu Hb).
    + rewrite po_idx0. case_decide as Hd; [subst q|done]. rewrite Hb. split; by intros [? ?].
Qed.

(** Publishing a referenced page under a fresh key. *)
Lemma po_publish p k :
  0 < held p → blocks !! N.to_nat p = Some None → idx !! k = None →
  pages_ok np free refs (<[N.to_nat p := Some (mkCachedBlock k None)]> blocks)
    (<[k := p]> idx) ev tick held.
Proof using Hok.
  intros Hp Hb Hk. pose proof Hok as []. pose proof (po_held0 p Hp) as Hlt.
  split; try done.
  - by rewrite len_up.
  - intros q Hq. destruct (po_free0 q Hq) as (? & ? & ?).
    rewrite lookup_up, decide_False by (lia || (intros ->; lia)). done.
  - intros u q. rewrite lookup_up by lia. case_decide as Hd; [subst q|done].
    rewrite po_ev0, Hb. split; by intros [? ?].
  - intros k' q. rewrite lookup_insert_Some, lookup_up by lia. case_decide as Hd; [subst q|]; split.
    + intros [[<- _]|[_ Hq]]; [eauto|]. apply po_idx0 in Hq as [? ?]. congruence.
    + intros [? [= <- <-]]. by left.
    + intros [[? ?]|[_ Hq]]; [congruence|]. by apply po_idx0.
    + intros Hq. right. rewrite po_idx0. split; [|done]. intros <-.
      apply po_idx0 in Hq. congruence.
Qed.

(** Returning an evictable page to the free set. *)
Lemma po_drain t p k :
  ev !! t = Some p →
  blocks !! N.to_nat p = Some (Some (mkCachedBlock k (Some t))) →
  pages_ok np ({[p]} ∪ free) refs (<[N.to_nat p := None]> blocks) (delete k idx)
    (delete t ev) tick held.
Proof using Hok.
  intros Ht Hk. pose proof (po_ev_lt _ _ Ht) as Hlt.
  destruct (po_ev_held _ _ _ _ _ _ _ _ Hok _ _ Ht) as [Hh _].
  pose proof Hok as []. split; try done.
  - by rewrite len_up.
  - intros q Hq. rewrite lookup_up by lia. case_decide as Hd; [by subst q|].
    apply po_free0. set_solver.
  - intros u q. rewrite lookup_delete_Some, po_ev0, lookup_up by lia.
    case_decide as Hd; [subst q|]; split.
    + intros [? [? ?]]. congruence.
    + intros [? ?]. congruence.
    + by intros [_ ?].
    + intros [k' Hk']. split; [|eauto]. intros <-.
      assert (ev !! t = Some q) by (apply po_ev0; eauto). congruence.
  - intros u q [? Hu]%lookup_delete_Some. eauto.
  - intros q Hq Hq0. destruct (po_noleak0 q Hq Hq0) as [?|[u Hu]]; [left; set_solver|].
    destruct (decide (u = t)) as [->|]; [left; set_solver|].
    right. exists u. by rewrite lookup_delete_ne.
  - intros k' q. rewrite lookup_delete_Some, po_idx0, lookup_up by lia.
    case_decide as Hd; [subst q|]; split.
    + intros [? [? ?]]. congruence.
    + intros [? ?]. congruence.
    + by intros [_ ?].
    + intros [u Hu]. split; [|eauto]. intros <-. by pose proof (po_unique_key _ _ _ _ _ Hu Hk).
Qed.

(** Free, evictable and referenced pages partition the pool. *)
Lemma po_partition :
  N.of_nat (size free) + N.of_nat (size ev) +
    len (filter (λ p, 0 < held p) (range np)) = np.
Proof using Hok.
  pose proof Hok as [].
  assert (elements free ++ (map_to_list ev).*2 ++ filter (λ p, 0 < held p) (range np)
    ≡ₚ range np) as Hperm.
  { apply NoDup_Permutation.
    - apply NoDup_app. split; [apply NoDup_elements|]. split.
      + intros p Hp%elem_of_elements [Hin|[? ?]%list_elem_of_filter]%elem_of_app.
        * apply list_elem_of_fmap in Hin as ([t q] & -> & Hin%elem_of_map_to_list).
          by eapply po_free_ev.
        * destruct (po_free0 p Hp) as (_ & ? & _). lia.
      + apply NoDup_app. split; [|split].
        * apply NoDup_fmap_2_strong; [|apply NoDup_map_to_list].
          intros [t p] [t' p'] H1%elem_of_map_to_list H2%elem_of_map_to_list Heq. simpl in Heq.
          subst p'. f_equal. by eapply po_ev_inj.
        * intros p Hin [? ?]%list_elem_of_filter.
          apply list_elem_of_fmap in Hin as ([t q] & -> & Hin%elem_of_map_to_list).
          destruct (po_ev_held0 _ _ Hin). simpl in *. lia.
        * apply NoDup_filter. unfold range. apply NoDup_fmap; [apply _|]. apply NoDup_seq.
    - unfold range. apply NoDup_fmap; [apply _|]. apply NoDup_seq.
    - intros p. rewrite !elem_of_app, elem_of_elements, list_elem_of_fmap, list_elem_of_filter,
        elem_of_range. split.
      + intros [Hp|[([t q] & -> & Hin%elem_of_map_to_list)|[_ ?]]]; [| |done].
        * by apply po_free0.
        * by eapply po_ev_lt.
      + intros Hp. destruct (decide (0 < held p)); [naive_solver|].
        destruct (po_noleak0 p Hp ltac:(lia)) as [?|[t Ht]]; [by left|]. right. left.
        exists (t, p). by rewrite elem_of_map_to_list. }
  apply Permutation_length in Hperm. rewrite !length_app, length_fmap, length_map_to_list in Hperm.
  pose proof (len_range np) as Hr. unfold len in *. rewrite <-Hperm in Hr.
  change (length (elements free)) with (size free) in Hr. lia.
Qed.
End accounting.

(** ** The invariant *)

(** Occurrences of a page in the block tables of all sequences. *)
Definition total (p : N) (m : gmap N SequenceState) : N := msum (λ q, occ p (pages q)) m.

Lemma total_empty p : total p ∅ = 0.
Proof. apply msum_empty. Qed.
Lemma total_insert_new p m r q :
  m !! r = None → total p (<[r := q]> m) = occ p (pages q) + total p m.
Proof. apply (msum_insert_new (λ q, occ p (pages q))). Qed.
Lemma total_delete p m r q :
  m !! r = Some q → total p m = occ p (pages q) + total p (delete r m).
Proof. apply (msum_delete (λ q, occ p (pages q))). Qed.
Lemma total_insert p m r q q' :
  m !! r = Some q → total p (<[r := q']> m) + occ p (pages q) = occ p (pages q') + total p m.
Proof. apply (msum_insert (λ q, occ p (pages q))). Qed.
Lemma total_le p m r q : m !! r = Some q → occ p (pages q) ≤ total p m.
Proof. apply (msum_le (λ q, occ p (pages q))). Qed.
Lemma total_le_two p m r r' q q' :
  r ≠ r' → m !! r = Some q → m !! r' = Some q' →
  occ p (pages q) + occ p (pages q') ≤ total p m.
Proof. apply (msum_le_two (λ q, occ p (pages q))). Qed.

(** Entries of all block tables. *)
Definition table_entries (m : gmap N SequenceState) : N :=
  msum (λ q, len (pages q)) m.

Lemma total_entries p m : total p m ≤ table_entries m.
Proof.
  induction m as [|r q m Hr IH] using map_ind; [done|].
  rewrite total_insert_new by done. unfold table_entries in *. rewrite msum_insert_new by done.
  assert (occ p (pages q) ≤ len (pages q)).
  { pose proof (length_filter (p =.) (pages q)). unfold occ, len. lia. }
  lia.
Qed.

(** References to a page when [hand] is allocated but not yet in a block table
    (or already removed from one and not yet released). *)
Definition held (s : PagedKvCacheManager) (hand : list N) (p : N) : N :=
  total p (sequences s) + occ p hand.

Definition accounted (s : PagedKvCacheManager) (hand : list N) : Prop :=
  pages_ok (num_pages (config s)) (free_pages s) (page_refs s) (page_blocks s)
    (block_index s) (evictable s) (next_tick s) (held s hand).

Definition unpublished (s : PagedKvCacheManager) (p : N) : Prop :=
  page_blocks s !! N.to_nat p = Some None.

(** The pages that hold uncommitted positions belong to one sequence, once, and
    are not in the prefix cache. *)
Definition tails_exclusive (s : PagedKvCacheManager) (hand : list N) : Prop :=
  ∀ r q i p, sequences s !! r = Some q → pages q !! i = Some p →
    committed_tokens q / block_size (config s) ≤ N.of_nat i →
    held s hand p = 1 ∧ unpublished s p.

Definition config_ok (c : PagedKvCacheConfig) : Prop :=
  0 < block_size c ∧ 0 < num_pages c ≤ u32_max ∧ 0 < max_sequence_length c ≤ usize_max.

Definition seq_ok (c : PagedKvCacheConfig) (rsv : gmap N ReservationState) (r : N)
    (q : SequenceState) : Prop :=
  registered_blocks q * block_size c ≤ committed_tokens q ∧
  match pending q with
  | None => len (pages q) = div_ceil (committed_tokens q) (block_size c)
  | Some id => ∃ rv, rsv !! id = Some rv ∧ rs_request_id rv = r ∧
      start_position rv = committed_tokens q ∧
      previous_page_count rv = div_ceil (start_position rv) (block_size c) ∧
      0 < token_count rv ∧ start_position rv + token_count rv ≤ max_sequence_length c ∧
      len (pages q) = div_ceil (start_position rv + token_count rv) (block_size c)
  end.

Definition seqs_ok (s : PagedKvCacheManager) : Prop :=
  ∀ r q, sequences s !! r = Some q → seq_ok (config s) (reservations s) r q.

Definition resv_ok (s : PagedKvCacheManager) : Prop :=
  ∀ id rv, reservations s !! id = Some rv →
    id < next_reservation s ∧
    ∃ q, sequences s !! rs_request_id rv = Some q ∧ pending q = Some id.

Record wf_hand (s : PagedKvCacheManager) (hand : list N) : Prop := {
  wf_config : config_ok (config s);
  wf_pages : accounted s hand;
  wf_seqs : seqs_ok s;
  wf_resv : resv_ok s;
  wf_tails : tails_exclusive s hand
}.
Abbreviation wf s := (wf_hand s []).

(** What the page primitives leave alone. *)
Definition frame (s s' : PagedKvCacheManager) : Prop :=
  config s' = config s ∧ sequences s' = sequences s ∧ reservations s' = reservations s ∧
  next_reservation s' = next_reservation s ∧ prefix_caching s' = prefix_caching s ∧
  reused_tokens s' = reused_tokens s ∧ ∀ p, unpublished s p → unpublished s' p.

#[export] Instance frame_refl : Reflexive frame.
Proof. intros s. unfold frame. naive_solver. Qed.
#[export] Instance frame_trans : Transitive frame.
Proof. intros s1 s2 s3. unfold frame. intros (?&?&?&?&?&?&?) (?&?&?&?&?&?&?).
  repeat split; try congruence. auto.
Qed.

Lemma held_frame s s' hand p : frame s s' → held s' hand p = held s hand p.
Proof. unfold held. by intros (_ & -> & _). Qed.

Lemma frame_wf s s' hand hand' :
  frame s s' → wf_hand s hand → accounted s' hand' →
  (∀ p, unpublished s p → held s hand p = 1 → 0 < total p (sequences s) →
     held s hand' p = 1) →
  wf_hand s' hand'.
Proof.
  intros Hf Hwf Ha Hh. pose proof Hf as (Hc & Hs & Hr & Hn & _ & _ & Hu).
  destruct Hwf as [Hcfg _ Hseqs Hrsv Ht].
  split; unfold seqs_ok, resv_ok, tails_exclusive in *; rewrite ?Hc, ?Hs, ?Hr, ?Hn; auto.
  intros r q i p Hq Hi Hle. rewrite (held_frame _ _ _ _ Hf).
  destruct (Ht r q i p Hq Hi Hle) as [H1 Hup]. split; [|auto]. apply Hh; [done..|].
  apply list_elem_of_lookup_2, occ_pos in Hi. pose proof (total_le p _ _ _ Hq). lia.
Qed.

(** ** Page primitives *)

Section primitives.
Context {P : Profile} {R : PagedKvError → PagedKvCacheManager → Prop}.

Lemma drop_cached_block_none s p Q :
  page_blocks s !! N.to_nat p = Some None → Q tt s → wp (drop_cached_block p) s Q R.
Proof.
  intros Hb HQ. unfold drop_cached_block. wp_steps. eapply wp_index; [done|]. by wp_steps.
Qed.
Lemma drop_cached_block_some s p b Q :
  page_blocks s !! N.to_nat p = Some (Some b) → block_index s !! key b = Some p →
  Q tt (set_block_index (delete (key b) (block_index s))
          (set_page_blocks (<[N.to_nat p := None]> (page_blocks s)) s)) →
  wp (drop_cached_block p) s Q R.
Proof.
  intros Hb Hi HQ. unfold drop_cached_block. wp_steps. eapply wp_index; [done|]. wp_steps.
  - exact HQ.
  - by apply bool_decide_eq_false in Heqb0.
Qed.

Lemma allocate_page_spec s hand :
  accounted s hand → 0 < available_pages s →
  wp allocate_page s (λ p s',
    accounted s' (p :: hand) ∧ frame s s' ∧ held s hand p = 0 ∧ unpublished s' p ∧
    available_pages s' + 1 = available_pages s) R.
Proof.
  intros Ha Hav. unfold allocate_page. wp_steps.
  - (* a free page *)
    apply set_pop_first_Some in Heqo as (Hp & -> & _). simpl.
    destruct (po_free _ _ _ _ _ _ _ _ Ha _ Hp) as (Hlt & Hh & Hb).
    eapply wp_index; [by eapply po_lookup_refs|]. wp_steps.
    apply wp_debug_assert; [by rewrite Hh|]. wp_steps. split; [|split; [|split; [|split]]].
    + unfold accounted; simpl. eapply pages_ok_ext; [|by apply po_take_free].
      intros q. unfold held, set_held in *; simpl. rewrite occ_cons.
      case_decide; subst; simpl in *; lia.
    + by repeat split.
    + done.
    + done.
    + unfold available_pages; simpl. rewrite size_difference by set_solver.
      rewrite size_singleton. assert (size (free_pages s) ≠ 0%nat); [|lia].
      apply size_non_empty_iff. set_solver.
  - (* an evicted page *)
    apply set_pop_first_None in Heqo.
    destruct (pop_first (evictable s)) as [[[t p] ev']|] eqn:Hpop; cycle 1.
    { apply pop_first_None in Hpop. unfold available_pages in Hav.
      rewrite Heqo, Hpop, map_size_empty, size_empty in Hav. lia. }
    eapply wp_expect; [done|]. wp_steps.
    apply pop_first_Some in Hpop as (Ht & -> & _).
    pose proof Ht as [k Hk]%(po_ev _ _ _ _ _ _ _ _ Ha).
    eapply drop_cached_block_some; [exact Hk|by eapply po_block_idx|]. wp_steps.
    pose proof (po_ev_lt _ _ _ _ _ _ _ _ Ha _ _ Ht) as Hlt.
    destruct (po_ev_held _ _ _ _ _ _ _ _ Ha _ _ Ht) as [Hh _].
    eapply wp_index; [by eapply po_lookup_refs|]. wp_steps.
    apply wp_debug_assert; [by rewrite Hh|]. wp_steps. split; [|split; [|split; [|split]]].
    + unfold accounted; simpl. eapply pages_ok_ext; [|by apply po_evict].
      intros q. unfold held, set_held in *; simpl. rewrite occ_cons.
      case_decide; subst; simpl in *; lia.
    + repeat split. intros q. unfold unpublished; simpl.
      rewrite lookup_up by by apply lookup_len in Hk. by case_decide.
    + done.
    + unfold unpublished; simpl. rewrite lookup_up by by apply lookup_len in Hk.
      by rewrite decide_True.
    + unfold available_pages; simpl. rewrite Heqo. erewrite map_size_delete_Some by done.
      assert (size (evictable s) ≠ 0%nat); [|lia]. apply map_size_non_empty_iff.
      intros He. by rewrite He in Ht.
Qed.

Lemma release_page_spec s hand p :
  accounted s (p :: hand) → next_tick s < u64_max →
  wp (release_page p) s (λ _ s',
    accounted s' hand ∧ frame s s' ∧ next_tick s' ≤ next_tick s + 1) R.
Proof.
  intros Ha Htick. unfold release_page.
  assert (held s (p :: hand) p = 1 + held s hand p) as Hhp.
  { unfold held. rewrite occ_cons, decide_True by done. lia. }
  assert (∀ c, c = held s hand p → ∀ q, held s hand q = set_held (held s (p :: hand)) p c q) as Hset.
  { intros c -> q. unfold set_held, held. rewrite occ_cons. case_decide; subst; lia. }
  pose proof (po_held _ _ _ _ _ _ _ _ Ha p ltac:(lia)) as Hlt.
  wp_steps. eapply wp_index; [by eapply po_lookup_refs|]. wp_steps.
  apply wp_debug_assert; [apply N.ltb_lt; lia|]. wp_steps.
  eapply wp_lift_ok; [apply usub_ok; lia|]. wp_steps.
  { (* still referenced *)
    apply negb_true_iff, N.eqb_neq in Heqb. split; [|split; [by repeat split|lia]].
    unfold accounted; simpl. eapply pages_ok_ext; [|eapply po_decr; [done| |]].
    - intros q. rewrite <-Hset; [done|lia].
    - lia.
    - lia. }
  apply negb_false_iff, N.eqb_eq in Heqb.
  destruct (po_lookup_blocks _ _ _ _ _ _ _ _ Ha p Hlt) as [slot Hslot].
  eapply wp_index; [exact Hslot|]. destruct (if prefix_caching s then slot else None) eqn:Hc.
  - assert (slot = Some c) as -> by (by destruct (prefix_caching s)).
    wp_steps. eapply wp_lift_ok; [apply uadd_ok; lia|]. wp_steps.
    destruct c as [k t0]. split; [|split; [|lia]].
    + unfold accounted; simpl. rewrite Heqb.
      eapply pages_ok_ext; [|eapply po_cache; [done| |exact Hslot]].
      * intros q. rewrite <-Hset; [done|lia].
      * lia.
    + repeat split. intros q. unfold unpublished; simpl.
      rewrite lookup_up by by apply lookup_len in Hslot. case_decide; subst; [congruence|done].
  - wp_steps.
    assert (pages_ok (num_pages (config s)) ({[p]} ∪ free_pages s)
      (<[N.to_nat p := held s (p :: hand) p - 1]> (page_refs s))
      (<[N.to_nat p := None]> (page_blocks s))
      (match slot with Some b => delete (key b) (block_index s) | None => block_index s end)
      (evictable s) (next_tick s) (held s hand)) as Hok'.
    { rewrite Heqb. eapply pages_ok_ext; [|eapply po_to_free; [done| |exact Hslot]].
      - intros q. rewrite <-Hset; [done|lia].
      - lia. }
    assert (p ∉ free_pages s) as Hnf.
    { intros Hf%(po_free _ _ _ _ _ _ _ _ Ha). lia. }
    destruct slot as [b|].
    + eapply drop_cached_block_some; [exact Hslot| |].
      { destruct b as [k t]. by eapply po_block_idx. }
      wp_steps. apply wp_debug_assert; [by apply bool_decide_true|].
      split; [done|]. split; [|simpl; lia]. repeat split. intros q. unfold unpublished; simpl.
      rewrite lookup_up by by apply lookup_len in Hslot. by case_decide.
    + eapply drop_cached_block_none; [exact Hslot|]. wp_steps.
      apply wp_debug_assert; [by apply bool_decide_true|].
      rewrite (list_insert_id (page_blocks s)) in Hok' by done.
      split; [done|]. split; [by repeat split|simpl; lia].
Qed.

Lemma acquire_cached_spec s hand p k :
  accounted s hand → block_index s !! k = Some p → held s hand p < u32_max →
  wp (acquire_cached p) s (λ _ s',
    accounted s' (p :: hand) ∧ frame s s' ∧ next_tick s' = next_tick s ∧
    block_index s' = block_index s) R.
Proof.
  intros Ha Hk Hmax. unfold acquire_cached.
  pose proof Hk as [t Hb]%(po_idx _ _ _ _ _ _ _ _ Ha).
  assert (p < num_pages (config s)) as Hlt.
  { rewrite <-(po_blocks_len _ _ _ _ _ _ _ _ Ha). by eapply lookup_len. }
  assert (∀ c, c = held s hand p + 1 →
    ∀ q, held s (p :: hand) q = set_held (held s hand) p c q) as Hset.
  { intros c -> q. unfold set_held, held. rewrite occ_cons. case_decide; subst; lia. }
  wp_steps. eapply wp_index; [by eapply po_lookup_refs|]. wp_steps.
  - apply N.eqb_eq in Heqb. eapply wp_index; [exact Hb|]. apply wp_bind. eapply wp_expect; [done|].
    simpl. destruct t as [t|].
    + wp_steps. eapply wp_lift_ok; [apply uadd_ok; lia|]. wp_steps.
      split; [|split; [|done]].
      * unfold accounted; simpl. eapply pages_ok_ext; [by apply Hset|].
        rewrite Heqb. eapply po_revive; [done| |done]. apply (po_ev _ _ _ _ _ _ _ _ Ha). eauto.
      * repeat split. intros q. unfold unpublished; simpl.
        rewrite lookup_up by by apply lookup_len in Hb. case_decide; subst; [congruence|done].
    + exfalso. destruct (po_noleak _ _ _ _ _ _ _ _ Ha p Hlt Heqb) as [Hf|[t Ht]].
      * destruct (po_free _ _ _ _ _ _ _ _ Ha p Hf) as (_ & _ & ?). congruence.
      * apply (po_ev _ _ _ _ _ _ _ _ Ha) in Ht as [??]. congruence.
  - apply N.eqb_neq in Heqb. eapply wp_lift_ok; [apply uadd_ok; lia|]. wp_steps.
    split; [|split; [by repeat split|done]]. unfold accounted; simpl.
    eapply pages_ok_ext; [by apply Hset|]. apply po_incr; [done|lia|done].
Qed.
End primitives.

(** ** Loops over pages *)

Section loops.
Context {P : Profile} {R : PagedKvError → PagedKvCacheManager → Prop}.

Lemma allocate_each_spec (xs : list N) s hand :
  accounted s hand → len xs ≤ available_pages s →
  wp (map_each xs (λ _, allocate_page)) s (λ ps s',
    accounted s' (ps ++ hand) ∧ frame s s' ∧ len ps = len xs ∧ NoDup ps ∧
    (∀ p, p ∈ ps → held s hand p = 0 ∧ unpublished s' p) ∧
    available_pages s' + len xs = available_pages s) R.
Proof.
  revert s hand. induction xs as [|x xs IH]; intros s hand Ha Hav.
  { apply wp_ret. split; [done|]. split; [done|]. split; [done|].
    split; [constructor|]. split; [set_solver|]. unfold len; simpl; lia. }
  change (len (x :: xs)) with (len ([x] ++ xs)) in *. rewrite len_app in *.
  change (len [x]) with 1 in *. cbn [map_each].
  apply wp_bind. eapply wp_wand; [apply allocate_page_spec; [done|lia]| |done].
  cbn beta. intros p s1 (Ha1 & Hf1 & Hp0 & Hup & Hav1).
  apply wp_bind. eapply wp_wand; [apply (IH s1 (p :: hand)); [done|lia]| |done].
  cbn beta. intros ps s2 (Ha2 & Hf2 & Hlen & Hnd & Hps & Hav2). apply wp_ret.
  assert (∀ y, held s1 (p :: hand) y = held s hand y + (if decide (y = p) then 1 else 0)) as Hheld.
  { intros y. rewrite (held_frame _ _ _ _ Hf1). unfold held. rewrite occ_cons. lia. }
  split; [|split; [by etrans|split; [|split; [|split]]]].
  - unfold accounted in *. eapply pages_ok_ext; [|exact Ha2]. intros y. unfold held.
    simpl. rewrite occ_cons, !occ_app, occ_cons. lia.
  - change (p :: ps) with ([p] ++ ps). rewrite len_app. change (len [p]) with 1. lia.
  - constructor; [|done]. intros Hin%Hps. destruct Hin as [Hin _].
    rewrite Hheld, decide_True in Hin by done. lia.
  - intros y [->|Hy]%elem_of_cons.
    + split; [done|]. by apply Hf2.
    + destruct (Hps y Hy) as [Hy0 ?]. rewrite Hheld in Hy0. split; [lia|done].
  - lia.
Qed.

Lemma allocate_pages_spec n s hand :
  accounted s hand → n ≤ available_pages s →
  wp (allocate_pages n) s (λ ps s',
    accounted s' (ps ++ hand) ∧ frame s s' ∧ len ps = n ∧ NoDup ps ∧
    (∀ p, p ∈ ps → held s hand p = 0 ∧ unpublished s' p) ∧
    available_pages s' + n = available_pages s) R.
Proof.
  intros Ha Hn. pose proof (allocate_each_spec (range n) s hand Ha) as H.
  rewrite len_range in H. by apply H.
Qed.

Lemma release_pages_spec ps s hand :
  accounted s (ps ++ hand) → next_tick s + len ps ≤ u64_max →
  wp (for_each ps release_page) s (λ _ s',
    accounted s' hand ∧ frame s s' ∧ next_tick s' ≤ next_tick s + len ps) R.
Proof.
  revert s. induction ps as [|p ps IH]; intros s Ha Ht.
  { apply wp_ret. split; [done|]. split; [done|]. unfold len; simpl; lia. }
  change (len (p :: ps)) with (len ([p] ++ ps)) in *. rewrite len_app in *.
  change (len [p]) with 1 in *. simpl. apply wp_bind.
  eapply wp_wand; [apply (release_page_spec s (ps ++ hand)); [done|lia]| |done].
  cbn beta. intros _ s1 (Ha1 & Hf1 & Ht1). eapply wp_wand; [apply (IH s1); [done|lia]| |done].
  cbn beta. intros _ s2 (Ha2 & Hf2 & Ht2). split; [done|]. split; [by etrans|lia].
Qed.

Lemma wf_release_pages ps s :
  wf_hand s ps → next_tick s + len ps ≤ u64_max →
  wp (for_each ps release_page) s
    (λ _ s', wf s' ∧ frame s s' ∧ next_tick s' ≤ next_tick s + len ps) R.
Proof.
  intros Hwf Ht. eapply wp_wand; [apply (release_pages_spec _ _ []); [|done]| |done].
  - rewrite app_nil_r. apply Hwf.
  - cbn beta. intros _ s' (Ha & Hf & ?). split; [|done]. eapply frame_wf; [done..|].
    intros p _. unfold held. rewrite occ_nil. lia.
Qed.
End loops.

(** ** Replacing a block table *)

Definition same_pages (s s' : PagedKvCacheManager) : Prop :=
  config s' = config s ∧ free_pages s' = free_pages s ∧ page_refs s' = page_refs s ∧
  page_blocks s' = page_blocks s ∧ block_index s' = block_index s ∧
  evictable s' = evictable s ∧ next_tick s' = next_tick s.

Lemma wf_put s s' r q q' hand hand' :
  wf_hand s hand → sequences s !! r = Some q →
  same_pages s s' → sequences s' = <[r := q']> (sequences s) →
  (∀ p, occ p (pages q') + occ p hand' = occ p (pages q) + occ p hand) →
  seq_ok (config s) (reservations s') r q' →
  (∀ id rv, reservations s !! id = Some rv → rs_request_id rv ≠ r →
     reservations s' !! id = Some rv) →
  resv_ok s' →
  (∀ i p, pages q' !! i = Some p → committed_tokens q' / block_size (config s) ≤ N.of_nat i →
     held s hand p = 1 ∧ unpublished s p) →
  wf_hand s' hand'.
Proof.
  intros Hwf Hq (Hc & Hf & Hr & Hb & Hi & He & Ht) Hs Hocc Hsq Hrs Hrv Htail.
  assert (∀ p, held s' hand' p = held s hand p) as Hheld.
  { intros p. unfold held. rewrite Hs. pose proof (total_insert p _ _ _ q' Hq).
    pose proof (Hocc p). lia. }
  split.
  - rewrite Hc. apply Hwf.
  - unfold accounted. rewrite Hc, Hf, Hr, Hb, Hi, He, Ht.
    eapply pages_ok_ext; [exact Hheld|]. apply Hwf.
  - intros r0 q0. rewrite Hs, Hc, lookup_insert_Some. intros [[<- <-]|[Hne Hq0]]; [done|].
    destruct (wf_seqs _ _ Hwf _ _ Hq0) as [H1 H2]. split; [done|].
    destruct (pending q0) as [id|]; [|done]. destruct H2 as (rv & Hl & Hid & ?).
    exists rv. split; [|done]. apply Hrs; congruence.
  - done.
  - intros r0 q0 i p. unfold unpublished. rewrite Hs, Hb, Hheld, Hc, lookup_insert_Some.
    intros [[<- <-]|[Hne Hq0]]; [apply Htail|]. intros Hi0 Hle.
    exact (wf_tails _ _ Hwf _ _ _ _ Hq0 Hi0 Hle).
Qed.

(** A page at a given place of a block table is referenced. *)
Lemma wf_page_held s hand r q i p :
  wf_hand s hand → sequences s !! r = Some q → pages q !! i = Some p → 0 < held s hand p.
Proof.
  intros Hwf Hq Hi. apply list_elem_of_lookup_2, occ_pos in Hi.
  pose proof (total_le p _ _ _ Hq). unfold held. lia.
Qed.
