(* ===== verification/PagedKvOps.v ===== *)
(** * Operations of the paged KV manager

    For each public operation: run from a well-formed manager it does not panic,
    keeps the manager well formed, and has the stated effect; an [Err] leaves the
    manager as it was. *)

From S2P Require Import Prelude PagedKv PagedKvInv.
Open Scope N_scope.

Lemma occ_nodup p l : NoDup l → p ∈ l → occ p l = 1.
Proof.
  induction 1 as [|x l Hx Hnd IH]; [set_solver|]. rewrite occ_cons, elem_of_cons.
  case_decide as Hd; subst.
  - intros _. assert (¬ 0 < occ x l) by (by rewrite occ_pos). lia.
  - intros [?|?]; [done|]. by rewrite IH.
Qed.

Lemma len_take {A} (l : list A) n : n ≤ len l → len (take (N.to_nat n) l) = n.
Proof. unfold len. intros. rewrite length_take. lia. Qed.

(** A pending reservation and its sequence determine each other. *)
Lemma wf_reservation s hand id rv :
  wf_hand s hand → reservations s !! id = Some rv →
  ∃ q, sequences s !! rs_request_id rv = Some q ∧ pending q = Some id ∧
    start_position rv = committed_tokens q ∧
    previous_page_count rv = div_ceil (start_position rv) (block_size (config s)) ∧
    0 < token_count rv ∧
    start_position rv + token_count rv ≤ max_sequence_length (config s) ∧
    len (pages q) = div_ceil (start_position rv + token_count rv) (block_size (config s)) ∧
    registered_blocks q * block_size (config s) ≤ committed_tokens q.
Proof.
  intros Hwf Hrv. destruct (wf_resv _ _ Hwf id rv Hrv) as (_ & q & Hq & Hp). exists q.
  destruct (wf_seqs _ _ Hwf _ _ Hq) as [Hreg Hs]. rewrite Hp in Hs.
  destruct Hs as (rv' & Hrv' & _ & ? & ? & ? & ? & ?). simplify_eq. done.
Qed.

Lemma wf_max_len s hand : wf_hand s hand → max_sequence_length (config s) ≤ usize_max.
Proof. intros Hwf. by destruct (wf_config _ _ Hwf) as (_ & _ & _ & ?). Qed.
Lemma wf_bs s hand : wf_hand s hand → 0 < block_size (config s).
Proof. intros Hwf. by destruct (wf_config _ _ Hwf). Qed.

(** Removing a reservation and clearing its sequence's [pending]. *)
Lemma resv_ok_close s s' hand id rv q' :
  wf_hand s hand → reservations s !! id = Some rv →
  sequences s' = <[rs_request_id rv := q']> (sequences s) →
  reservations s' = delete id (reservations s) →
  next_reservation s' = next_reservation s → resv_ok s'.
Proof.
  intros Hwf Hrv Hs Hr Hn id0 rv0. rewrite Hr, Hs, Hn, lookup_delete_Some. intros [Hne Hrv0].
  destruct (wf_reservation _ _ _ _ Hwf Hrv) as (q & Hq & Hp & _).
  destruct (wf_resv _ _ Hwf _ _ Hrv0) as (Hlt & q0 & Hq0 & Hp0). split; [done|].
  exists q0. rewrite lookup_insert_ne; [done|]. congruence.
Qed.
Lemma resv_keep_close s hand id rv id0 rv0 :
  wf_hand s hand → reservations s !! id = Some rv → reservations s !! id0 = Some rv0 →
  rs_request_id rv0 ≠ rs_request_id rv → delete id (reservations s) !! id0 = Some rv0.
Proof. intros Hwf Hrv Hrv0 Hne. rewrite lookup_delete_ne; [done|]. congruence. Qed.

(** Keeping a prefix of a table whose uncommitted part was exclusive. *)
Lemma tails_take s hand r q q' (n : nat) :
  wf_hand s hand → sequences s !! r = Some q →
  pages q' = take n (pages q) → committed_tokens q ≤ committed_tokens q' →
  ∀ i p, pages q' !! i = Some p → committed_tokens q' / block_size (config s) ≤ N.of_nat i →
    held s hand p = 1 ∧ unpublished s p.
Proof.
  intros Hwf Hq Hp Hc i p. rewrite Hp, lookup_take_Some. intros [Hi _] Hle.
  pose proof (wf_bs _ _ Hwf).
  eapply (wf_tails _ _ Hwf); [done..|]. etrans; [|exact Hle]. by apply N.Div0.div_le_mono.
Qed.

(** Attaching freshly allocated pages to a block table. *)
Lemma wf_grow s s1 s' r q q' fresh :
  wf s → accounted s1 fresh → frame s s1 → NoDup fresh →
  (∀ p, p ∈ fresh → held s [] p = 0 ∧ unpublished s1 p) →
  sequences s !! r = Some q → same_pages s1 s' →
  sequences s' = <[r := q']> (sequences s) → pages q' = pages q ++ fresh →
  committed_tokens q' = committed_tokens q → seq_ok (config s) (reservations s') r q' →
  (∀ id rv, reservations s !! id = Some rv → rs_request_id rv ≠ r →
     reservations s' !! id = Some rv) →
  resv_ok s' → wf s'.
Proof.
  intros Hwf Ha1 Hf1 Hnd Hfresh Hq Hsame Hs Hp Hc Hsq Hrk Hrv.
  pose proof Hf1 as (Hc1 & Hs1 & Hr1 & _).
  assert (∀ p, p ∈ fresh → total p (sequences s) = 0) as Htot.
  { intros p [Hp0 _]%Hfresh. unfold held in Hp0. lia. }
  assert (wf_hand s1 fresh) as Hwf1.
  { eapply (frame_wf _ _ [] fresh Hf1); [done|done|]. intros p _. unfold held.
    intros Hp1 Hp2. rewrite occ_not_in; [lia|]. intros ?%Htot. lia. }
  eapply (wf_put s1 _ r q q' fresh []); [done|by rewrite Hs1|done|by rewrite Hs1|..].
  - intros p. rewrite Hp, occ_app, occ_nil. lia.
  - by rewrite Hc1.
  - intros id rv. rewrite Hr1. apply Hrk.
  - done.
  - intros i p. rewrite Hp, Hc, Hc1. intros Hi Hle. apply lookup_app_Some in Hi as [Hi|[_ Hi]].
    + by eapply (wf_tails _ _ Hwf1); [rewrite Hs1|..|rewrite Hc1].
    + apply list_elem_of_lookup_2 in Hi. unfold held. rewrite Hs1, Htot by done.
      split; [by rewrite occ_nodup|]. by apply Hfresh.
Qed.

Section specs.
Context {P : Profile}.

Lemma sequence_spec r s (Q : SequenceState → PagedKvCacheManager → Prop) R :
  (∀ q, sequences s !! r = Some q → Q q s) →
  (sequences s !! r = None → R (SequenceDoesNotExist r) s) →
  wp (sequence r) s Q R.
Proof. intros HQ HR. unfold sequence. wp_steps. apply wp_ok_or; naive_solver. Qed.

(** In a well-formed manager validation fails only on unknown reservations. *)
Lemma validate_reservation_spec id s hand Q (R : PagedKvError → PagedKvCacheManager → Prop) :
  wf_hand s hand →
  (∀ rv, reservations s !! id = Some rv → Q tt s) →
  (reservations s !! id = None → R (ReservationDoesNotExist id) s) →
  wp (validate_reservation id) s Q R.
Proof.
  intros Hwf HQ HR. unfold validate_reservation. wp_steps. apply wp_ok_or; [|done].
  intros rv Hrv. destruct (wf_reservation _ _ _ _ Hwf Hrv) as
    (q & Hq & Hp & Hst & Hpp & Hc & Hmax & Hlen & _).
  wp_steps. apply sequence_spec; [|congruence]. intros q' Hq'. simplify_eq.
  pose proof (wf_bs _ _ Hwf). pose proof (wf_max_len _ _ Hwf).
  assert (previous_page_count rv ≤ len (pages q)).
  { rewrite Hpp, Hlen. apply div_ceil_mono; lia. }
  rewrite bool_decide_true, Hst, N.eqb_refl, (proj2 (N.ltb_ge _ _)) by done. simpl.
  wp_steps. unfold checked_add. rewrite <-Hst, (proj2 (N.leb_le _ _)) by lia.
  by eapply HQ.
Qed.

Lemma create_sequence_spec r s :
  wf s →
  wp (create_sequence r) s
    (λ _ s', wf s' ∧ sequences s !! r = None ∧
       s' = set_sequences (<[r := mkSequence 0 [] None 0 CHAIN_ROOT]> (sequences s)) s)
    (λ e s', s' = s ∧ e = SequenceAlreadyExists r ∧ is_Some (sequences s !! r)).
Proof.
  intros Hwf. unfold create_sequence, put_sequence. wp_steps; [by eauto|].
  split; [|done]. destruct Hwf as [Hc Ha Hs Hr Ht]. split; simpl; [done|..].
  - unfold accounted; simpl. eapply pages_ok_ext; [|exact Ha]. intros p.
    unfold held; simpl. by rewrite total_insert_new.
  - intros r0 q0; simpl. rewrite lookup_insert_Some. intros [[<- <-]|[_ Hq]]; [|by apply Hs].
    split; simpl; [lia|]. unfold div_ceil. by rewrite N.Div0.mod_0_l, N.Div0.div_0_l.
  - intros id rv Hrv; simpl in *. destruct (Hr _ _ Hrv) as (? & q & Hq & ?).
    split; [done|]. exists q. rewrite lookup_insert_ne; [done|]. congruence.
  - intros r0 q0 i p; simpl. rewrite lookup_insert_Some. intros [[<- <-]|[_ Hq]]; [done|].
    unfold held, unpublished; simpl. rewrite total_insert_new by done. by apply (Ht r0).
Qed.

(** The state after a successful [begin_append]. *)
Definition begun (s s' : PagedKvCacheManager) (r n : N) (rv : PagedKvAppendReservation) : Prop :=
  ∃ q fresh, sequences s !! r = Some q ∧ pending q = None ∧
    rv = mkAppendReservation (next_reservation s) r (committed_tokens q) n
           (committed_tokens q + n) fresh (pages q ++ fresh) ∧
    config s' = config s ∧ prefix_caching s' = prefix_caching s ∧
    sequences s' = <[r := mkSequence (committed_tokens q) (pages q ++ fresh)
      (Some (next_reservation s)) (registered_blocks q) (chain_hash q)]> (sequences s) ∧
    reservations s' = <[next_reservation s :=
      mkReservation r (len (pages q)) (committed_tokens q) n]> (reservations s) ∧
    next_reservation s' = next_reservation s + 1 ∧
    len (pages q ++ fresh) = div_ceil (committed_tokens q + n) (block_size (config s)) ∧
    NoDup fresh ∧ (∀ p, p ∈ fresh → total p (sequences s) = 0) ∧
    available_pages s' + len fresh = available_pages s.

Lemma begin_append_spec r n s :
  wf s →
  wp (begin_append r n) s (λ rv s', wf s' ∧ begun s s' r n rv) (λ _ s', s' = s).
Proof.
  intros Hwf. pose proof (wf_bs _ _ Hwf) as Hbs. unfold begin_append.
  wp_step; [by apply wp_throw|]. apply N.eqb_neq in Heqb.
  wp_step. apply sequence_spec; [|done]. intros q Hq.
  destruct (wf_seqs _ _ Hwf _ _ Hq) as [Hreg Hpend].
  destruct (pending q) as [id0|] eqn:Hpq; [by apply wp_throw|].
  wp_step. apply wp_ok_or; [|done]. intros ctx Hctx. wp_step. wp_step.
  wp_step; [by apply wp_throw|]. apply N.ltb_ge in Heqb0.
  unfold checked_add in Hctx. destruct (N.leb_spec (committed_tokens q + n) usize_max); [|done].
  simplify_eq. wp_step. wp_step. wp_step; [by apply wp_throw|]. apply N.ltb_ge in Heqb1.
  wp_step. wp_step. wp_step. apply wp_ok_or; [|done]. intros next Hnext.
  unfold checked_add in Hnext. destruct (N.leb_spec (next_reservation s + 1) u64_max); [|done].
  simplify_eq. wp_step. wp_step. wp_step. unfold saturating_sub in *.
  set (add := div_ceil (committed_tokens q + n) (block_size (config s)) - len (pages q)) in *.
  eapply wp_mono; [apply (allocate_pages_spec add _ []); [apply Hwf|done]|].
  cbn beta. intros fresh s1 (Ha1 & Hf1 & Hlen & Hnd & Hfresh & Hav1).
  rewrite app_nil_r in Ha1. pose proof Hf1 as (Hc1 & Hs1 & Hr1 & Hn1 & Hpc1 & _ & _).
  simpl in *. wp_step. wp_step. wp_step.
  eapply wp_expect; [by rewrite Hs1|]. cbn beta. wp_step. unfold put_sequence. wp_step.
  wp_step. wp_step. wp_step.
  assert (len (pages q ++ fresh) = div_ceil (committed_tokens q + n) (block_size (config s))) as Hl.
  { rewrite len_app, Hlen. unfold add. pose proof (div_ceil_mono (committed_tokens q)
      (committed_tokens q + n) _ Hbs). lia. }
  split.
  - eapply (wf_grow (set_next_reservation (next_reservation s + 1) s) s1 _ r q);
      [|done|done|done|done|done|done|by simpl; rewrite Hs1|done|done|..]; simpl.
    + destruct Hwf as [? ? ? Hr ?]. split; try done. intros id rv Hrv. simpl in *.
      destruct (Hr _ _ Hrv). split; [lia|done].
    + split; [done|]. simpl. eexists. rewrite lookup_insert_eq. split; [done|].
      simpl. repeat (split; [done || lia|]). done.
    + intros id rv Hrv _. rewrite lookup_insert_ne, Hr1; [done|].
      destruct (wf_resv _ _ Hwf _ _ Hrv). intros <-. lia.
    + intros id rv. simpl. rewrite lookup_insert_Some, Hn1, Hs1, Hr1.
      intros [[<- <-]|[Hne Hrv]]; simpl.
      * split; [lia|]. eexists. by rewrite lookup_insert_eq.
      * destruct (wf_resv _ _ Hwf _ _ Hrv) as (? & q0 & Hq0 & ?). split; [lia|].
        exists q0. rewrite lookup_insert_ne; [done|]. congruence.
  - exists q, fresh. simpl. rewrite Hs1, Hr1, Hn1, Hc1, Hpc1.
    assert (available_pages s1 + add = available_pages s) as Hav by exact Hav1.
    unfold available_pages in *; simpl. rewrite Hlen.
    do 10 (split; [done|]). split; [|done]. intros p [Hp _]%Hfresh. unfold held in Hp.
    simpl in Hp. lia.
Qed.

(** The state after a reservation is closed at [position] with [keep] pages. *)
Definition closed (s s' : PagedKvCacheManager) (id : N) (rv : ReservationState)
    (q : SequenceState) (position : N) (keep : nat) : Prop :=
  config s' = config s ∧ prefix_caching s' = prefix_caching s ∧
  sequences s' = <[rs_request_id rv := mkSequence position (take keep (pages q)) None
    (registered_blocks q) (chain_hash q)]> (sequences s) ∧
  reservations s' = delete id (reservations s) ∧
  next_reservation s' = next_reservation s.

Lemma closed_frame s s1 s' id rv q position keep :
  closed s s1 id rv q position keep → frame s1 s' → closed s s' id rv q position keep.
Proof.
  intros (Hc & Hp & Hs & Hr & Hn) (Hc1 & Hs1 & Hr1 & Hn1 & Hp1 & _ & _).
  unfold closed. rewrite Hc1, Hs1, Hr1, Hn1, Hp1. done.
Qed.

(** Closing a reservation at a position between its start and its end leaves the
    cut pages in hand. *)
Lemma wf_close s s' id rv q position :
  wf s → reservations s !! id = Some rv → sequences s !! rs_request_id rv = Some q →
  start_position rv ≤ position ≤ start_position rv + token_count rv →
  same_pages s s' →
  closed s s' id rv q position (N.to_nat (div_ceil position (block_size (config s)))) →
  wf_hand s' (drop (N.to_nat (div_ceil position (block_size (config s)))) (pages q)).
Proof.
  intros Hwf Hrv Hq Hpos Hsame (Hc & Hp & Hs & Hr & Hn).
  destruct (wf_reservation _ _ _ _ Hwf Hrv) as
    (q0 & Hq0 & Hpq & Hst & _ & _ & Hmax & Hlen & Hreg). simplify_eq.
  pose proof (wf_bs _ _ Hwf) as Hbs.
  eapply (wf_put s _ _ q); [done|done|done|exact Hs|..].
  - intros p. simpl. rewrite occ_split, occ_nil. lia.
  - split; simpl; [lia|]. apply len_take. rewrite Hlen. apply div_ceil_mono; lia.
  - intros id0 rv0 Hrv0 Hne. rewrite Hr. by eapply resv_keep_close.
  - by eapply resv_ok_close.
  - eapply tails_take; [done|done|done|simpl; lia].
Qed.

Lemma commit_append_spec id s rv :
  wf s → reservations s !! id = Some rv →
  wp (commit_append id) s
    (λ n s', wf s' ∧ n = start_position rv + token_count rv ∧ same_pages s s' ∧
       ∃ q, sequences s !! rs_request_id rv = Some q ∧ pending q = Some id ∧
         closed s s' id rv q n (length (pages q)))
    (λ _ _, False).
Proof.
  intros Hwf Hrv. destruct (wf_reservation _ _ _ _ Hwf Hrv) as
    (q & Hq & Hp & Hst & Hprev & Hc & Hmax & Hlen & Hreg).
  pose proof (wf_max_len _ _ Hwf). pose proof (wf_bs _ _ Hwf) as Hbs.
  unfold commit_append. wp_step. eapply validate_reservation_spec; [done| |congruence].
  intros _ _. unfold take_reservation. wp_steps. rewrite Hrv. simpl. apply wp_ret.
  wp_steps. rewrite Hq. simpl. apply wp_ret. rewrite bool_decide_true by done. simpl.
  wp_steps. unfold checked_add. rewrite (proj2 (N.leb_le _ _)) by lia. simpl. apply wp_ret.
  unfold put_sequence. wp_steps.
  assert (drop (N.to_nat (div_ceil (start_position rv + token_count rv) (block_size (config s))))
    (pages q) = []) as Hdrop.
  { rewrite <-Hlen. apply drop_ge. unfold len. lia. }
  assert (closed s (set_sequences (<[rs_request_id rv :=
      mkSequence (start_position rv + token_count rv) (pages q) None (registered_blocks q)
        (chain_hash q)]> (sequences s)) (set_reservations (delete id (reservations s)) s))
      id rv q (start_position rv + token_count rv) (length (pages q))) as Hcl.
  { repeat split. simpl. by rewrite firstn_all. }
  split; [|split; [done|split; [done|by exists q]]].
  rewrite <-Hdrop. eapply (wf_close s _ id rv q); [done..|lia|done|].
  rewrite <-Hlen. unfold len. by rewrite Nat2N.id.
Qed.

Lemma extend_append_spec id extra s :
  wf s →
  wp (extend_append id extra) s
    (λ a s', wf s' ∧ ∃ rv q fresh, reservations s !! id = Some rv ∧
       sequences s !! rs_request_id rv = Some q ∧
       a = mkAppendReservation id (rs_request_id rv) (start_position rv) (token_count rv + extra)
             (start_position rv + (token_count rv + extra)) fresh (pages q ++ fresh) ∧
       config s' = config s ∧
       sequences s' = <[rs_request_id rv := mkSequence (committed_tokens q) (pages q ++ fresh)
         (pending q) (registered_blocks q) (chain_hash q)]> (sequences s) ∧
       reservations s' = <[id := mkReservation (rs_request_id rv) (previous_page_count rv)
         (start_position rv) (token_count rv + extra)]> (reservations s) ∧
       len (pages q ++ fresh) = div_ceil (start_position rv + (token_count rv + extra))
                                  (block_size (config s)))
    (λ _ s', s' = s).
Proof.
  intros Hwf. pose proof (wf_bs _ _ Hwf) as Hbs. unfold extend_append.
  wp_step. eapply validate_reservation_spec; [done| |done]. intros rv Hrv.
  destruct (wf_reservation _ _ _ _ Hwf Hrv) as
    (q & Hq & Hp & Hst & Hprev & Hcnt & Hmax & Hlen & Hreg).
  wp_steps. rewrite Hrv. simpl. apply wp_ret.
  wp_step. apply wp_ok_or; [|done]. intros count Hcount. wp_step.
  apply wp_ok_or; [|done]. intros end_ Hend. wp_step. wp_step. wp_step; [done|].
  apply N.ltb_ge in Heqb. unfold checked_add in *.
  destruct (N.leb_spec (token_count rv + extra) usize_max); simplify_eq.
  destruct (N.leb_spec (start_position rv + (token_count rv + extra)) usize_max); simplify_eq.
  wp_step. wp_step. wp_step. eapply wp_expect; [exact Hq|]. cbn beta.
  wp_step. wp_step. wp_step; [done|]. apply N.ltb_ge in Heqb0. unfold saturating_sub in *.
  set (add := div_ceil _ _ - len (pages q)) in *. wp_step.
  eapply wp_mono; [apply (allocate_pages_spec add _ []); [apply Hwf|done]|].
  cbn beta. intros fresh s1 (Ha1 & Hf1 & Hlf & Hnd & Hfresh & Hav1).
  rewrite app_nil_r in Ha1. pose proof Hf1 as (Hc1 & Hs1 & Hr1 & Hn1 & _ & _ & _).
  wp_step. wp_step. wp_step. eapply wp_expect; [by rewrite Hs1|]. cbn beta.
  unfold put_sequence. do 5 wp_step.
  assert (len (pages q ++ fresh) = div_ceil (start_position rv + (token_count rv + extra))
            (block_size (config s))) as Hl.
  { rewrite len_app, Hlf. unfold add. pose proof (div_ceil_mono
      (start_position rv + token_count rv) (start_position rv + (token_count rv + extra)) _ Hbs).
    lia. }
  split; [|exists rv, q, fresh; simpl; rewrite Hs1, Hr1, Hc1; done].
  eapply (wf_grow s s1 _ _ q); [done|done|done|done|done|done|done|by simpl; rewrite Hs1|done|done|..]; simpl.
  - split; simpl; [done|]. rewrite Hp. eexists. rewrite lookup_insert_eq.
    split; [done|]. simpl. repeat (split; [done || lia|]). done.
  - intros id0 rv0 Hrv0 Hne. rewrite lookup_insert_ne, Hr1; [done|]. congruence.
  - intros id0 rv0. simpl. rewrite lookup_insert_Some, Hn1, Hs1, Hr1.
    destruct (wf_resv _ _ Hwf _ _ Hrv) as [? _].
    intros [[<- <-]|[Hne Hrv0]]; simpl.
    + split; [done|]. eexists. by rewrite lookup_insert_eq.
    + destruct (wf_resv _ _ Hwf _ _ Hrv0) as (? & q0 & Hq0 & ?). split; [done|].
      exists q0. rewrite lookup_insert_ne; [done|]. congruence.
Qed.

(** Releasing the pages that closing a reservation cut off. *)
Lemma close_release s s1 id rv q position keep R :
  wf_hand s1 (drop keep (pages q)) → closed s s1 id rv q position keep →
  next_tick s1 + len (pages q) ≤ u64_max →
  wp (for_each (drop keep (pages q)) release_page) s1
    (λ _ s', wf s' ∧ closed s s' id rv q position keep ∧
       next_tick s' + len (take keep (pages q)) ≤ next_tick s1 + len (pages q)) R.
Proof.
  intros Hwf Hcl Ht. eapply wp_mono; [apply wf_release_pages; [done|]|].
  - unfold len in *. rewrite length_drop. lia.
  - cbn beta. intros _ s' (Hwf' & Hf & Htick). split; [done|]. split; [by eapply closed_frame|].
    unfold len in *. rewrite length_drop in Htick. rewrite length_take. lia.
Qed.

(** Room left in the eviction clock for the release of [n] pages. *)
Definition tick_room (s : PagedKvCacheManager) (n : N) : Prop := next_tick s + n ≤ u64_max.

(** Pages of a reservation's sequence. *)
Definition reservation_pages (s : PagedKvCacheManager) (id : N) : N :=
  match reservations s !! id with
  | Some rv => div_ceil (start_position rv + token_count rv) (block_size (config s))
  | None => 0
  end.

Lemma cancel_append_spec id s rv :
  wf s → reservations s !! id = Some rv → tick_room s (reservation_pages s id) →
  wp (cancel_append id) s
    (λ _ s', wf s' ∧ ∃ q, sequences s !! rs_request_id rv = Some q ∧
       closed s s' id rv q (committed_tokens q) (N.to_nat (previous_page_count rv)) ∧
       next_tick s' + len (take (N.to_nat (previous_page_count rv)) (pages q))
         ≤ next_tick s + reservation_pages s id)
    (λ _ _, False).
Proof.
  intros Hwf Hrv Ht. destruct (wf_reservation _ _ _ _ Hwf Hrv) as
    (q & Hq & Hp & Hst & Hprev & Hc & Hmax & Hlen & Hreg).
  pose proof (wf_bs _ _ Hwf) as Hbs.
  unfold cancel_append. wp_step. eapply validate_reservation_spec; [done| |congruence].
  intros _ _. unfold take_reservation. wp_steps. rewrite Hrv. simpl. apply wp_ret.
  wp_steps. rewrite Hq. simpl. apply wp_ret. rewrite bool_decide_true by done. simpl.
  wp_step. unfold split_off.
  assert (previous_page_count rv ≤ len (pages q)).
  { rewrite Hprev, Hlen. apply div_ceil_mono; lia. }
  rewrite (proj2 (N.ltb_ge _ _)) by done. apply wp_ret. unfold put_sequence. wp_step. wp_step.
  set (s1 := set_sequences _ _). simpl.
  assert (closed s s1 id rv q (committed_tokens q) (N.to_nat (previous_page_count rv))) as Hcl
    by by repeat split.
  eapply wp_mono; [apply (close_release s); [|exact Hcl|]|].
  - rewrite Hprev, Hst. eapply (wf_close s _ id rv q); [done..|lia|done|].
    by rewrite Hprev, Hst in Hcl.
  - unfold tick_room, reservation_pages in Ht. rewrite Hrv in Ht. simpl. lia.
  - cbn beta. intros _ s' (Hwf' & Hcl' & Htick). split; [done|]. exists q.
    split; [done|]. split; [done|]. unfold reservation_pages. rewrite Hrv, <-Hlen. exact Htick.
Qed.

Lemma commit_prefix_row_spec id n s rv :
  wf s → reservations s !! id = Some rv → 0 < n ≤ token_count rv →
  tick_room s (reservation_pages s id) →
  wp (commit_prefix_row (id, n)) s
    (λ m s', wf s' ∧ m = start_position rv + n ∧ ∃ q, sequences s !! rs_request_id rv = Some q ∧
       closed s s' id rv q m (N.to_nat (div_ceil m (block_size (config s)))) ∧
       next_tick s' + len (take (N.to_nat (div_ceil m (block_size (config s)))) (pages q))
         ≤ next_tick s + reservation_pages s id)
    (λ _ _, False).
Proof.
  intros Hwf Hrv Hn Ht. destruct (wf_reservation _ _ _ _ Hwf Hrv) as
    (q & Hq & Hp & Hst & Hprev & Hc & Hmax & Hlen & Hreg).
  pose proof (wf_bs _ _ Hwf) as Hbs. pose proof (wf_max_len _ _ Hwf).
  unfold commit_prefix_row. wp_steps. rewrite Hrv. simpl. apply wp_ret. wp_steps. rewrite Hq.
  simpl. apply wp_ret. wp_step. eapply wp_lift_ok; [apply uadd_ok; lia|]. cbn beta.
  wp_step. wp_step. wp_step. unfold split_off.
  assert (div_ceil (start_position rv + n) (block_size (config s)) ≤ len (pages q)).
  { rewrite Hlen. apply div_ceil_mono; lia. }
  rewrite (proj2 (N.ltb_ge _ _)) by done. apply wp_ret. unfold put_sequence. wp_step. wp_step.
  set (s1 := set_sequences _ _). simpl.
  set (k := div_ceil (start_position rv + n) (block_size (config s))) in *.
  assert (closed s s1 id rv q (start_position rv + n) (N.to_nat k)) as Hcl by by repeat split.
  wp_step. eapply wp_mono; [apply (close_release s); [|exact Hcl|]|].
  - eapply (wf_close s _ id rv q); [done..|lia|done|exact Hcl].
  - unfold tick_room, reservation_pages in Ht. rewrite Hrv in Ht. simpl. lia.
  - cbn beta. intros _ s' (Hwf' & Hcl' & Htick). apply wp_ret. split; [done|].
    split; [done|]. exists q. split; [done|]. split; [done|].
    unfold reservation_pages. rewrite Hrv, <-Hlen. exact Htick.
Qed.

Lemma commit_append_partial_spec id n s :
  wf s → tick_room s (reservation_pages s id) →
  wp (commit_append_partial id n) s
    (λ m s', wf s' ∧ ∃ rv q, reservations s !! id = Some rv ∧ 0 < n ≤ token_count rv ∧
       m = start_position rv + n ∧ sequences s !! rs_request_id rv = Some q ∧
       closed s s' id rv q m (N.to_nat (div_ceil m (block_size (config s)))) ∧
       next_tick s' + len (take (N.to_nat (div_ceil m (block_size (config s)))) (pages q))
         ≤ next_tick s + len (pages q))
    (λ _ s', s' = s ∧ ∀ rv, reservations s !! id = Some rv → ¬ 0 < n ≤ token_count rv).
Proof.
  intros Hwf Ht. pose proof (wf_bs _ _ Hwf) as Hbs. pose proof (wf_max_len _ _ Hwf).
  unfold commit_append_partial. wp_step. wp_step. wp_step.
  apply wp_ok_or; [|intros Hn; split; [done|intros rv ?; congruence]].
  intros rv Hrv. wp_step.
  { apply wp_throw. split; [done|]. intros rv' ?. simplify_eq.
    apply orb_true_iff in Heqb as [?%N.eqb_eq|?%N.ltb_lt]; lia. }
  apply orb_false_iff in Heqb as [Hn0 Hn1].
  apply N.eqb_neq in Hn0. apply N.ltb_ge in Hn1.
  destruct (wf_reservation _ _ _ _ Hwf Hrv) as
    (q & Hq & Hp & Hst & Hprev & Hc & Hmax & Hlen & Hreg).
  wp_step. eapply wp_lift_ok; [apply uadd_ok; lia|]. cbn beta. wp_step. wp_step. wp_step.
  eapply wp_wand; [by apply commit_append_spec| |done]. cbn beta.
  intros m s1 (Hwf1 & -> & Hsame & q1 & Hq1 & Hp1 & Hcl1).
  assert (q1 = q) as -> by congruence.
  pose proof Hcl1 as (Hc1 & Hpc1 & Hs1 & Hr1 & Hn1').
  wp_step. wp_step. wp_step.
  eapply wp_expect; [by rewrite Hs1, lookup_insert_eq|]. cbn beta. simpl.
  rewrite firstn_all. wp_step. apply wp_debug_assert; [apply N.leb_le; lia|].
  unfold put_sequence. wp_step. wp_step.
  set (k := div_ceil (start_position rv + n) (block_size (config s))) in *.
  assert (k ≤ len (pages q)) by (rewrite Hlen; apply div_ceil_mono; lia).
  replace (if k <? len (pages q) then take (N.to_nat k) (pages q) else pages q)
    with (take (N.to_nat k) (pages q)); cycle 1.
  { destruct (N.ltb_spec k (len (pages q))); [done|]. apply take_ge. unfold len in *. lia. }
  replace (if k <? len (pages q) then drop (N.to_nat k) (pages q) else [])
    with (drop (N.to_nat k) (pages q)); cycle 1.
  { destruct (N.ltb_spec k (len (pages q))); [done|]. apply drop_ge. unfold len in *. lia. }
  set (s2 := set_sequences _ _).
  assert (closed s s2 id rv q (start_position rv + n) (N.to_nat k)) as Hcl.
  { unfold closed; simpl. rewrite Hs1, insert_insert_eq. done. }
  wp_step. eapply wp_mono; [apply (close_release s); [|exact Hcl|]|].
  - eapply (wf_close s _ id rv q); [done|done|done|lia|done|exact Hcl].
  - simpl. destruct Hsame as (_ & _ & _ & _ & _ & _ & ->).
    unfold tick_room, reservation_pages in Ht. rewrite Hrv in Ht. simpl. lia.
  - cbn beta. intros _ s' (Hwf' & Hcl' & Htick). apply wp_ret. split; [done|]. exists rv, q.
    split; [done|]. split; [lia|]. do 2 (split; [done|]). split; [done|].
    destruct Hsame as (_ & _ & _ & _ & _ & _ & Hts). simpl in Htick. by rewrite Hts in Htick.
Qed.

Lemma remove_sequence_spec r s :
  wf s → (∀ q, sequences s !! r = Some q → tick_room s (len (pages q))) →
  wp (remove_sequence r) s
    (λ _ s', wf s' ∧ ∃ q, sequences s !! r = Some q ∧ pending q = None ∧
       config s' = config s ∧ reservations s' = reservations s ∧
       sequences s' = delete r (sequences s) ∧ prefix_caching s' = prefix_caching s ∧
       next_tick s' ≤ next_tick s + len (pages q))
    (λ _ s', s' = s ∧ ∀ q, sequences s !! r = Some q → is_Some (pending q)).
Proof.
  intros Hwf Ht. unfold remove_sequence. wp_step. apply sequence_spec; [|intros Hn; split; [done|intros q ?; congruence]].
  intros q Hq. destruct (pending q) eqn:Hp.
  { apply wp_throw. split; [done|]. intros q' ?. simplify_eq. rewrite Hp. eauto. } wp_step. wp_step.
  set (s1 := set_sequences _ _).
  assert (wf_hand s1 (reverse (pages q))) as Hwf1.
  { assert (∀ p, held s1 (reverse (pages q)) p = held s [] p) as Hheld.
    { intros p. unfold held. simpl. rewrite (total_delete _ _ _ _ Hq), occ_reverse, occ_nil. lia. }
    destruct Hwf as [Hc Ha Hs Hr Htl]. split; [done|..].
    - unfold accounted. simpl. by eapply pages_ok_ext.
    - intros r0 q0 Hq0. change (sequences s1) with (delete r (sequences s)) in Hq0. apply lookup_delete_Some in Hq0 as [_ Hq0]. by apply Hs.
    - intros id rv Hrv. destruct (Hr _ _ Hrv) as (? & q0 & Hq0 & ?). split; [done|].
      exists q0. simpl. rewrite lookup_delete_ne; [done|]. congruence.
    - intros r0 q0 i p Hq0 Hi Hle. change (sequences s1) with (delete r (sequences s)) in Hq0.
      apply lookup_delete_Some in Hq0 as [_ Hq0]. rewrite Hheld.
      exact (Htl _ _ _ _ Hq0 Hi Hle). }
  eapply wp_mono; [apply wf_release_pages; [done|]|].
  - specialize (Ht q Hq). unfold tick_room, len in *. rewrite length_reverse. done.
  - cbn beta. intros _ s' (Hwf' & (Hc & Hs & Hr & _ & Hpc & _) & Htick). split; [done|]. exists q.
    simpl in *. rewrite Hc, Hs, Hr. do 6 (split; [done|]). unfold len in *.
    rewrite length_reverse in Htick. done.
Qed.

Lemma validate_each_spec seen ids s :
  wf s →
  wp (validate_each seen ids) s
    (λ _ s', s' = s ∧ NoDup ids ∧ (∀ id, id ∈ ids → id ∉ seen ∧ is_Some (reservations s !! id)))
    (λ _ s', s' = s).
Proof.
  intros Hwf. revert seen. induction ids as [|id ids IH]; intros seen.
  { apply wp_ret. split; [done|]. split; [constructor|set_solver]. }
  simpl. wp_step; [done|]. apply bool_decide_eq_false in Heqb. wp_step.
  eapply validate_reservation_spec; [done| |done]. intros rv Hrv.
  eapply wp_mono; [apply IH|]. cbn beta. intros _ s' (-> & Hnd & Hids). split; [done|].
  split.
  - constructor; [|done]. intros [Hin _]%Hids. by apply Hin, elem_of_union_l, elem_of_singleton.
  - intros id0 [->|[Hin ?]%Hids]%elem_of_cons; [by eauto|]. split; [|done].
    intros ?. by apply Hin, elem_of_union_r.
Qed.

(** Group operations: validated members are handled one by one. *)
Lemma wp_unwrap {A} (m : Kv A) s Q R :
  wp m s Q (λ _ _, False) → wp (unwrap m) s Q R.
Proof. unfold wp, unwrap. by destruct (m s) as [[] ?]. Qed.

Lemma closed_resv s s' id rv q pos keep id0 :
  closed s s' id rv q pos keep → id0 ≠ id → reservations s' !! id0 = reservations s !! id0.
Proof. intros (_ & _ & _ & -> & _) Hne. by rewrite lookup_delete_ne. Qed.

Lemma commit_each_spec ids s :
  wf s → NoDup ids → (∀ id, id ∈ ids → is_Some (reservations s !! id)) →
  wp (map_each ids (λ id, unwrap (commit_append id))) s
    (λ ns s', wf s' ∧ config s' = config s ∧
       (∀ i id rv, ids !! i = Some id → reservations s !! id = Some rv →
          ns !! i = Some (start_position rv + token_count rv)) ∧
       length ns = length ids ∧
       (∀ id, reservations s' !! id = if decide (id ∈ ids) then None else reservations s !! id))
    (λ _ s', False).
Proof.
  revert s. induction ids as [|id ids IH]; intros s Hwf Hnd Hids.
  { apply wp_ret. done. }
  inversion Hnd as [|?? Hnin Hnd']; subst. destruct (Hids id) as [rv Hrv]; [by left|].
  cbn [map_each]. wp_step. apply wp_unwrap. eapply wp_wand; [by apply commit_append_spec| |done].
  cbn beta. intros n s1 (Hwf1 & -> & _ & q & Hq & _ & Hcl). wp_step.
  assert (∀ id0, id0 ≠ id → reservations s1 !! id0 = reservations s !! id0) as Hsame
    by (intros; by eapply closed_resv).
  eapply wp_mono; [apply IH; [done..|]|].
  { intros id0 Hin. rewrite Hsame; [apply Hids; by right|]. congruence. }
  cbn beta. intros ns s' (Hwf' & Hc' & Hns & Hlen & Hr'). apply wp_ret. split; [done|].
  split; [rewrite Hc'; apply Hcl|]. split; [|split; [simpl; lia|]].
  - intros [|i] id0 rv0; simpl; intros Hi Hrv0; simplify_eq; [done|].
    apply Hns with id0; [done|]. rewrite Hsame; [done|].
    apply list_elem_of_lookup_2 in Hi. congruence.
  - intros id0. rewrite Hr'. destruct (decide (id0 = id)) as [->|Hne].
    + rewrite decide_False by done. rewrite decide_True by by left.
      destruct Hcl as (_ & _ & _ & -> & _). apply lookup_delete_eq.
    + destruct (decide (id0 ∈ ids)).
      * by rewrite decide_True by by right.
      * rewrite decide_False by set_solver. by apply Hsame.
Qed.

(** Releasing pages of a group: the clock advances by at most one per page. *)
Definition group_pages (s : PagedKvCacheManager) (ids : list N) : N :=
  foldr (λ id acc, reservation_pages s id + acc) 0 ids.

Lemma group_pages_ext s s' ids :
  config s' = config s → (∀ id, id ∈ ids → reservations s' !! id = reservations s !! id) →
  group_pages s' ids = group_pages s ids.
Proof.
  intros Hc Hr. induction ids as [|id ids IH]; [done|]. simpl.
  rewrite IH by (intros; apply Hr; by right). unfold reservation_pages.
  by rewrite Hr, Hc by by left.
Qed.

Lemma cancel_each_spec ids s :
  wf s → NoDup ids → (∀ id, id ∈ ids → is_Some (reservations s !! id)) →
  tick_room s (group_pages s ids) →
  wp (for_each ids (λ id, unwrap (cancel_append id))) s
    (λ _ s', wf s' ∧ config s' = config s ∧
       (∀ id, reservations s' !! id = if decide (id ∈ ids) then None else reservations s !! id))
    (λ _ s', False).
Proof.
  unfold tick_room. revert s. induction ids as [|id ids IH]; intros s Hwf Hnd Hids Ht.
  { apply wp_ret. done. }
  inversion Hnd as [|?? Hnin Hnd']; subst. destruct (Hids id) as [rv Hrv]; [by left|].
  simpl in Ht. cbn [for_each]. wp_step. apply wp_unwrap.
  eapply wp_wand; [apply cancel_append_spec; [done..|unfold tick_room; lia]| |done].
  cbn beta. intros _ s1 (Hwf1 & q & Hq & Hcl & Htick).
  assert (∀ id0, id0 ≠ id → reservations s1 !! id0 = reservations s !! id0) as Hsame
    by (intros; by eapply closed_resv).
  assert (∀ id0, id0 ∈ ids → id0 ≠ id) as Hne by congruence.
  eapply wp_mono; [apply IH; [done|done| |]|].
  - intros id0 Hin. rewrite Hsame by auto. apply Hids. by right.
  - rewrite (group_pages_ext s s1); [lia|apply Hcl|auto].
  - cbn beta. intros _ s' (Hwf' & Hc' & Hr'). split; [done|].
    split; [rewrite Hc'; apply Hcl|]. intros id0. rewrite Hr'. destruct (decide (id0 = id)) as [->|Hne0].
    + rewrite decide_False by done. rewrite decide_True by by left.
      destruct Hcl as (_ & _ & _ & -> & _). apply lookup_delete_eq.
    + destruct (decide (id0 ∈ ids)).
      * by rewrite decide_True by by right.
      * rewrite decide_False; [by apply Hsame|]. by intros [?|?]%elem_of_cons.
Qed.

Lemma check_consumed_spec rows s :
  (∀ row, row ∈ rows → is_Some (reservations s !! row.1)) →
  wp (check_consumed rows) s
    (λ _ s', s' = s ∧ ∀ id n rv, (id, n) ∈ rows → reservations s !! id = Some rv →
       0 < n ≤ token_count rv)
    (λ _ s', s' = s).
Proof.
  unfold check_consumed. induction rows as [|[id n] rows IH]; intros Hrows.
  { apply wp_ret. split; [done|]. by intros ??? ?%elem_of_nil. }
  destruct (Hrows (id, n)) as [rv Hrv]; [by left|]. simpl in *. wp_step. wp_step. wp_step. wp_step.
  eapply wp_expect; [exact Hrv|]. cbn beta. wp_step; [done|]. wp_step.
  apply orb_false_iff in Heqb as [Hn0 Hn1]. apply N.eqb_neq in Hn0. apply N.ltb_ge in Hn1.
  eapply wp_mono; [apply IH; intros; apply Hrows; by right|]. cbn beta.
  intros _ s' [-> Hall]. split; [done|].
  intros id0 n0 rv0 [[= -> ->]|Hin]%elem_of_cons Hrv0; [simplify_eq; lia|eauto].
Qed.

Lemma commit_rows_spec rows s :
  wf s → NoDup rows.*1 →
  (∀ id n, (id, n) ∈ rows → ∃ rv, reservations s !! id = Some rv ∧ 0 < n ≤ token_count rv) →
  tick_room s (group_pages s rows.*1) →
  wp (map_each rows commit_prefix_row) s
    (λ ns s', wf s' ∧ config s' = config s ∧ length ns = length rows ∧
       (∀ i id n rv, rows !! i = Some (id, n) → reservations s !! id = Some rv →
          ns !! i = Some (start_position rv + n)))
    (λ _ s', False).
Proof.
  unfold tick_room. revert s. induction rows as [|[id n] rows IH]; intros s Hwf Hnd Hrows Ht.
  { apply wp_ret. done. }
  rewrite fmap_cons in Hnd, Ht. simpl in Hnd, Ht.
  inversion Hnd as [|?? Hnin Hnd']; subst. destruct (Hrows id n) as (rv & Hrv & Hn); [by left|].
  cbn [map_each]. wp_step.
  eapply wp_wand; [apply commit_prefix_row_spec; [done..|unfold tick_room; lia]| |done].
  cbn beta. intros m s1 (Hwf1 & -> & q & Hq & Hcl & Htick). wp_step.
  assert (∀ id0 n0, (id0, n0) ∈ rows → id0 ≠ id) as Hne.
  { intros id0 n0 Hin ->. apply Hnin. by apply (list_elem_of_fmap_2 fst) in Hin. }
  assert (∀ id0, id0 ≠ id → reservations s1 !! id0 = reservations s !! id0) as Hsame
    by (intros; by eapply closed_resv).
  eapply wp_mono; [apply IH; [done|done| |]|].
  - intros id0 n0 Hin. rewrite Hsame by eauto. apply Hrows. by right.
  - rewrite (group_pages_ext s s1); [lia|apply Hcl|]. intros id0 Hin.
    apply Hsame. congruence.
  - cbn beta. intros ns s' (Hwf' & Hc' & Hlen & Hns). apply wp_ret. split; [done|].
    split; [rewrite Hc'; apply Hcl|]. split; [simpl; lia|]. intros [|i] id0 n0 rv0; simpl; intros Hi Hrv0; simplify_eq; [done|].
    eapply Hns; [done|]. rewrite Hsame; [done|]. apply list_elem_of_lookup_2 in Hi. eauto.
Qed.

(** *** Prefix cache *)

(** Extending the hand never makes a live page less referenced. *)
Lemma match_prefix_spec chain fuel bs block tokens parent acc s :
  accounted s acc →
  (∀ p, held s acc p + N.of_nat fuel ≤ u32_max) →
  wp (match_prefix chain fuel bs block tokens parent acc) s
    (λ out s', accounted s' out.1 ∧ frame s s' ∧ block_index s' = block_index s ∧
       next_tick s' = next_tick s ∧ ∃ found, out.1 = acc ++ found ∧ (length found ≤ fuel)%nat ∧
         ∀ p, p ∈ found → ¬ unpublished s p)
    (λ _ _, False).
Proof.
  revert block parent acc s. induction fuel as [|fuel IH]; intros block parent acc s Ha Hroom.
  { apply wp_ret. simpl. split; [done|]. split; [done|]. split; [done|]. split; [done|].
    exists []. rewrite app_nil_r. split; [done|]. split; [done|]. by intros ? ?%elem_of_nil. }
  simpl. wp_step. wp_step. wp_step; cycle 1.
  { wp_step. simpl. split; [done|]. split; [done|]. split; [done|]. split; [done|].
    exists []. rewrite app_nil_r. split; [done|]. split; [simpl; lia|]. by intros ? ?%elem_of_nil. }
  wp_step. eapply wp_mono; [eapply acquire_cached_spec; [done..|]|].
  { specialize (Hroom n). lia. }
  cbn beta. intros _ s1 (Ha1 & Hf1 & Ht1 & Hi1).
  assert (∀ p, held s1 (acc ++ [n]) p = held s1 (n :: acc) p) as Hperm.
  { intros p. unfold held. rewrite occ_app, !occ_cons, occ_nil. lia. }
  eapply wp_mono; [apply IH|].
  - by eapply pages_ok_ext.
  - intros p. rewrite Hperm, (held_frame _ _ _ _ Hf1). specialize (Hroom p).
    unfold held in *. rewrite occ_cons. case_decide; lia.
  - cbn beta. intros out s' (Ha' & Hf' & Hi' & Ht' & found & Hout & Hlen & Hpub).
    split; [done|]. split; [by etrans|]. split; [congruence|]. split; [congruence|].
    exists (n :: found). rewrite Hout, <-app_assoc. split; [done|]. split; [simpl; lia|].
    intros p [->|Hp]%elem_of_cons Hup.
    + apply (po_idx _ _ _ _ _ _ _ _ Ha) in Heqo as [t Ht]. unfold unpublished in Hup. congruence.
    + apply (Hpub p Hp). by apply Hf1.
Qed.

(** Room for one more reference per usable block of a prompt. *)
Definition ref_room (s : PagedKvCacheManager) (n : N) : Prop :=
  ∀ p, total p (sequences s) + n ≤ u32_max.

Lemma create_sequence_with_prefix_spec chain r tokens s :
  wf s → len tokens ≤ usize_max → ref_room s (len tokens) →
  reused_tokens s + len tokens ≤ u64_max →
  wp (create_sequence_with_prefix chain r tokens) s
    (λ matched s', wf s' ∧ sequences s !! r = None ∧
       matched mod block_size (config s) = 0 ∧ (matched = 0 ∨ matched < len tokens) ∧
       config s' = config s ∧ reservations s' = reservations s ∧
       reused_tokens s' = reused_tokens s + matched ∧
       ∃ q, sequences s' = <[r := q]> (sequences s) ∧ committed_tokens q = matched ∧
         pending q = None ∧ len (pages q) * block_size (config s) = matched)
    (λ e s', s' = s ∧ e = SequenceAlreadyExists r ∧ is_Some (sequences s !! r)).
Proof.
  intros Hwf Hlen Hroom Hreused. pose proof (wf_bs _ _ Hwf) as Hbs.
  unfold create_sequence_with_prefix. wp_step.
  eapply wp_wand; [by apply create_sequence_spec| |naive_solver]. cbn beta.
  intros _ s1 (Hwf1 & Hnone & ->). wp_step. wp_step. wp_step.
  { wp_step. split; [done|]. split; [done|]. split; [by rewrite N.Div0.mod_0_l|].
    split; [by left|]. simpl. rewrite N.add_0_r. do 3 (split; [done|]). by eexists. }
  apply orb_false_iff in Heqb as [_ Htok]. apply N.leb_gt in Htok.
  wp_step. wp_step. simpl. set (s1 := set_sequences _ s) in *.
  pose proof (N.Div0.mul_div_le (len tokens - 1) (block_size (config s))) as Hdiv.
  set (usable := (len tokens - 1) / block_size (config s)) in *.
  assert (usable ≤ len tokens) as Hu by nia.
  wp_step. eapply wp_wand; [apply match_prefix_spec; [apply Hwf1|]| |done].
  { intros p. unfold held. simpl. rewrite total_insert_new by done. simpl.
    rewrite !occ_nil, N2Nat.id. specialize (Hroom p). lia. }
  cbn beta. intros [ps parent] s2 (Ha2 & Hf2 & _ & _ & found & Hfound & Hfl & Hpub). simpl in *.
  subst found. assert (len ps ≤ usable) as Hps by (unfold len; lia).
  wp_step. eapply wp_lift_ok; [apply umul_ok; nia|]. cbn beta.
  pose proof Hf2 as (Hc2 & Hs2 & Hr2 & Hn2 & _ & Hru2 & Hu2). simpl in *.
  wp_step. wp_step. wp_step. eapply wp_expect; [by rewrite Hs2, lookup_insert_eq|]. cbn beta.
  unfold put_sequence. wp_step. wp_step. wp_step. wp_step. simpl.
  wp_step. eapply wp_lift_ok; [apply uadd_ok; rewrite Hru2; nia|]. cbn beta.
  wp_step. wp_step. wp_step.
  assert (wf_hand s2 ps) as Hwf2.
  { eapply (frame_wf s1 s2 [] ps Hf2 Hwf1 Ha2). intros p Hup. unfold held. rewrite occ_nil.
    intros Hp _. rewrite occ_not_in; [done|]. intros Hin. by apply (Hpub p). }
  split.
  - eapply (wf_put s2 _ r (mkSequence 0 [] None 0 CHAIN_ROOT) _ ps []); [done| |done|done|..].
    + by rewrite Hs2, lookup_insert_eq.
    + intros p. simpl. rewrite !occ_nil. lia.
    + split; simpl; rewrite Hc2; [done|]. by rewrite div_ceil_mul.
    + done.
    + intros id rv. simpl. rewrite Hr2, Hn2, Hs2, insert_insert_eq. intros Hrv.
      destruct (wf_resv _ _ Hwf _ _ Hrv) as (? & q0 & Hq0 & ?). split; [done|].
      exists q0. rewrite lookup_insert_ne; [done|]. congruence.
    + simpl. rewrite Hc2, N.div_mul by lia. intros i p Hi%lookup_lt_Some ?. unfold len in *. lia.
  - simpl. rewrite Hs2, Hc2, Hr2, Hru2, insert_insert_eq. split; [done|].
    split; [by rewrite N.Div0.mod_mul|]. split; [right; nia|]. do 3 (split; [done|]). by eexists.
Qed.

(** A page that holds a committed full block is not in anybody's tail. *)
Lemma committed_not_tail s r q i p r0 q0 i0 :
  wf s → sequences s !! r = Some q → pages q !! i = Some p →
  N.of_nat i < committed_tokens q / block_size (config s) →
  sequences s !! r0 = Some q0 → pages q0 !! i0 = Some p →
  committed_tokens q0 / block_size (config s) ≤ N.of_nat i0 → False.
Proof.
  intros Hwf Hq Hi Hlt Hq0 Hi0 Hle.
  destruct (wf_tails _ _ Hwf _ _ _ _ Hq0 Hi0 Hle) as [Hone _]. unfold held in Hone.
  rewrite occ_nil in Hone. destruct (decide (r = r0)) as [->|Hne].
  - simplify_eq. assert (2 ≤ occ p (pages q)) by (eapply (occ_two p _ i i0); [lia|done..]).
    pose proof (total_le p _ _ _ Hq). lia.
  - pose proof (total_le_two p _ _ _ _ _ Hne Hq Hq0).
    apply list_elem_of_lookup_2, occ_pos in Hi, Hi0. lia.
Qed.

Lemma wf_publish s r q i p k :
  wf s → sequences s !! r = Some q → pages q !! i = Some p →
  N.of_nat i < committed_tokens q / block_size (config s) →
  unpublished s p → block_index s !! k = None →
  wf (set_page_blocks (<[N.to_nat p := Some (mkCachedBlock k None)]> (page_blocks s))
        (set_block_index (<[k := p]> (block_index s)) s)).
Proof.
  intros Hwf Hq Hi Hlt Hup Hk. pose proof (wf_page_held _ _ _ _ _ _ Hwf Hq Hi) as Hheld.
  split; [apply Hwf| |apply Hwf|apply Hwf|].
  - unfold accounted. simpl. apply po_publish; [apply Hwf|done..].
  - intros r0 q0 i0 p0 Hq0 Hi0 Hle. simpl in *.
    destruct (wf_tails _ _ Hwf _ _ _ _ Hq0 Hi0 Hle) as [? Hup0]. split; [done|].
    unfold unpublished in *. simpl. rewrite lookup_up by by eapply lookup_len.
    rewrite decide_False; [done|]. intros ->. by eapply (committed_not_tail s r q i).
Qed.

Lemma publish_spec chain fuel block tokens parent r q s :
  wf s → sequences s !! r = Some q →
  block + N.of_nat fuel ≤ committed_tokens q / block_size (config s) →
  wp (publish chain fuel (block_size (config s)) block tokens parent (pages q)) s
    (λ _ s', wf s' ∧ config s' = config s ∧ sequences s' = sequences s ∧
       reservations s' = reservations s ∧ next_reservation s' = next_reservation s ∧
       free_pages s' = free_pages s ∧ evictable s' = evictable s ∧
       prefix_caching s' = prefix_caching s ∧ reused_tokens s' = reused_tokens s ∧
       next_tick s' = next_tick s)
    (λ _ _, False).
Proof.
  revert block parent s. induction fuel as [|fuel IH]; intros block parent s Hwf Hq Hle.
  { apply wp_ret. split; [done|]. by repeat split. }
  assert (block < len (pages q)) as Hlt.
  { pose proof (wf_bs _ _ Hwf) as Hbs.
    pose proof (div_le_div_ceil (committed_tokens q) _ Hbs).
    destruct (wf_seqs _ _ Hwf _ _ Hq) as [_ Hs]. destruct (pending q) as [id|]; [|lia].
    destruct Hs as (rv & _ & _ & Hst & _ & _ & _ & ->).
    pose proof (div_ceil_mono (committed_tokens q) (start_position rv + token_count rv) _ Hbs).
    lia. }
  destruct (lookup_lt_len _ _ Hlt) as [p Hp].
  simpl. wp_step. eapply wp_index; [exact Hp|]. cbn beta. wp_step. wp_step. wp_step. wp_step.
  wp_step. wp_step.
  { wp_step. apply IH; [done..|lia]. }
  pose proof (wf_page_held _ _ _ _ _ _ Hwf Hq Hp) as Hheld.
  pose proof (po_held _ _ _ _ _ _ _ _ (wf_pages _ _ Hwf) p Hheld) as Hpn.
  destruct (po_lookup_blocks _ _ _ _ _ _ _ _ (wf_pages _ _ Hwf) p Hpn) as [slot Hslot].
  wp_step. eapply wp_index; [exact Hslot|]. cbn beta.
  destruct slot as [b|]; [wp_step; apply IH; [done..|lia]|].
  wp_step. wp_step. wp_step.
  set (btoks := block_tokens tokens (block_size (config s)) block) in *.
  set (s1 := set_page_blocks _ (set_block_index _ _)).
  assert (wf s1) as Hwf1.
  { eapply (wf_publish s r q (N.to_nat block)); [done..|lia|done|done]. }
  eapply wp_mono; [apply (IH (block + 1) (chain parent btoks) s1); [done..|simpl; lia]|].
  cbn beta. done.
Qed.

Lemma register_prefix_spec chain r tokens s :
  wf s →
  wp (register_prefix chain r tokens) s
    (λ _ s', wf s' ∧ config s' = config s ∧ reservations s' = reservations s ∧
       evictable s' = evictable s ∧ free_pages s' = free_pages s ∧
       ∀ r0, pages <$> sequences s' !! r0 = pages <$> sequences s !! r0)
    (λ e s', s' = s ∧ e = SequenceDoesNotExist r).
Proof.
  intros Hwf. unfold register_prefix. wp_step. wp_step. wp_step; [by wp_step|].
  wp_step. wp_step. wp_step. apply sequence_spec; [|done]. intros q Hq.
  pose proof (wf_bs _ _ Hwf) as Hbs. destruct (wf_seqs _ _ Hwf _ _ Hq) as [Hreg _].
  set (complete := N.min (committed_tokens q) (len tokens) / block_size (config s)).
  assert (complete ≤ committed_tokens q / block_size (config s)) as Hc
    by (apply N.Div0.div_le_mono; lia).
  assert (registered_blocks q ≤ committed_tokens q / block_size (config s)) as Hr.
  { apply N.div_le_lower_bound; lia. }
  wp_step. eapply wp_wand; [apply (publish_spec chain _ _ _ _ r q); [done..|lia]| |done].
  cbn beta. intros parent s1 (Hwf1 & Hc1 & Hs1 & Hr1 & Hn1 & Hf1 & He1 & _ & _ & Ht1).
  wp_step. wp_step. wp_step. eapply wp_expect; [by rewrite Hs1|]. cbn beta.
  unfold put_sequence. wp_step. split.
  - eapply (wf_put s1 _ r q _ [] []); [done|by rewrite Hs1|done|done|done|..]; simpl.
    + destruct (wf_seqs _ _ Hwf1 r q) as [_ Hs]; [by rewrite Hs1|]. split; simpl; [|done].
      rewrite Hc1. pose proof (N.Div0.mul_div_le (committed_tokens q) (block_size (config s))). nia.
    + done.
    + intros id rv. simpl. rewrite Hr1, Hn1, Hs1. intros Hrv.
      destruct (wf_resv _ _ Hwf _ _ Hrv) as (? & q0 & Hq0 & ?). split; [done|].
      destruct (decide (rs_request_id rv = r)) as [Hid|Hne].
      * rewrite Hid in *. simplify_eq. eexists. rewrite lookup_insert_eq. by split.
      * exists q0. by rewrite lookup_insert_ne.
    + intros i p Hi Hle. by eapply (wf_tails _ _ Hwf1); [rewrite Hs1|..].
  - simpl. rewrite Hc1, Hr1, Hf1, He1, Hs1. do 4 (split; [done|]). intros r0.
    rewrite lookup_insert. case_decide; subst; [|done]. by rewrite Hq.
Qed.

Lemma drain_spec (l : list (N * N)) s hand :
  NoDup l.*1 → evictable s = ∅ →
  pages_ok (num_pages (config s)) (free_pages s) (page_refs s) (page_blocks s) (block_index s)
    (list_to_map l) (next_tick s) (held s hand) →
  wp (for_each l.*2 (λ page,
       let! _ := drop_cached_block page in
       modify (λ s, set_free_pages ({[page]} ∪ free_pages s) s))) s
    (λ _ s', accounted s' hand ∧ frame s s' ∧ evictable s' = ∅)
    (λ _ _, False).
Proof.
  revert s. induction l as [|[t p] l IH]; intros s Hnd Hev Ha.
  { apply wp_ret. unfold accounted. by rewrite Hev. }
  rewrite fmap_cons in Hnd. inversion Hnd as [|?? Hnin Hnd']; subst.
  assert (list_to_map (M := gmap N N) ((t, p) :: l) !! t = Some p) as Ht
    by apply lookup_insert_eq.
  pose proof Ht as [k Hk]%(po_ev _ _ _ _ _ _ _ _ Ha). cbn [fmap list_fmap for_each].
  wp_step. wp_step. eapply drop_cached_block_some; [exact Hk|by eapply po_block_idx|].
  wp_step. eapply wp_mono; [apply IH; [done|done|]|].
  - simpl. pose proof (po_drain _ _ _ _ _ _ _ _ Ha t p k Ht Hk) as Hd. simpl in Hd.
    rewrite delete_insert_id in Hd; [done|]. by apply not_elem_of_list_to_map_1.
  - cbn beta. intros _ s' (Ha' & Hf' & He'). split; [done|]. split; [|done]. etrans; [|exact Hf'].
    repeat split. intros q. unfold unpublished. simpl.
    rewrite lookup_up by by eapply lookup_len. by case_decide.
Qed.

Lemma set_prefix_caching_spec enabled s :
  wf s →
  wp (set_prefix_caching enabled) s
    (λ _ s', wf s' ∧ config s' = config s ∧ sequences s' = sequences s ∧
       reservations s' = reservations s ∧ prefix_caching s' = enabled ∧
       (enabled = false → evictable s' = ∅))
    (λ _ _, False).
Proof.
  intros Hwf. unfold set_prefix_caching. wp_step. wp_step.
  assert (wf (set_caching enabled s)) as Hwf0 by by destruct Hwf.
  destruct enabled; simpl; [by wp_step|].
  wp_step. wp_step. wp_step. wp_step. simpl.
  eapply wp_mono; [apply (drain_spec _ _ [])|].
  - apply entries_nodup.
  - done.
  - simpl. pose proof (wf_pages _ _ Hwf) as Ha. unfold accounted in Ha.
    replace (list_to_map (entries (evictable s))) with (evictable s); [done|].
    rewrite <-(list_to_map_to_list (evictable s)) at 1. apply list_to_map_proper.
    + apply NoDup_fst_map_to_list.
    + by rewrite entries_perm.
  - cbn beta. intros _ s' (Ha' & Hf' & He'). pose proof Hf' as (Hc & Hs & Hr & Hn & Hp & _).
    simpl in *. split; [|done].
    eapply (frame_wf (set_caching false s) s' [] []); [exact Hf'|done|done|by intros].
Qed.

(** *** Groups, validation included *)

Lemma commit_appends_spec ids s :
  wf s →
  wp (commit_appends ids) s
    (λ ns s', wf s' ∧ config s' = config s ∧ NoDup ids ∧ length ns = length ids ∧
       (∀ i id, ids !! i = Some id → ∃ rv, reservations s !! id = Some rv ∧
          ns !! i = Some (start_position rv + token_count rv)) ∧
       (∀ id, reservations s' !! id = if decide (id ∈ ids) then None else reservations s !! id))
    (λ _ s', s' = s).
Proof.
  intros Hwf. unfold commit_appends. wp_step. eapply wp_mono; [by apply validate_each_spec|].
  cbn beta. intros _ s' (-> & Hnd & Hids).
  eapply wp_wand; [apply commit_each_spec; [done..|by intros id [_ ?]%Hids]| |done].
  cbn beta. intros ns s' (Hwf' & Hc & Hns & Hlen & Hr). do 4 (split; [done|]). split; [|done].
  intros i id Hi. destruct (Hids id) as [_ [rv Hrv]]; [by eapply list_elem_of_lookup_2|]. eauto.
Qed.

Lemma cancel_appends_spec ids s :
  wf s → tick_room s (group_pages s ids) →
  wp (cancel_appends ids) s
    (λ _ s', wf s' ∧ config s' = config s ∧ NoDup ids ∧
       (∀ id, reservations s' !! id = if decide (id ∈ ids) then None else reservations s !! id))
    (λ _ s', s' = s).
Proof.
  intros Hwf Ht. unfold cancel_appends. wp_step. eapply wp_mono; [by apply validate_each_spec|].
  cbn beta. intros _ s' (-> & Hnd & Hids).
  eapply wp_wand; [apply cancel_each_spec; [done|done|by intros id [_ ?]%Hids|done]| |done].
  naive_solver.
Qed.

Lemma commit_append_prefixes_spec rows s :
  wf s → tick_room s (group_pages s rows.*1) →
  wp (commit_append_prefixes rows) s
    (λ ns s', wf s' ∧ config s' = config s ∧ NoDup rows.*1 ∧ length ns = length rows ∧
       (∀ i id n, rows !! i = Some (id, n) → ∃ rv, reservations s !! id = Some rv ∧
          0 < n ≤ token_count rv ∧ ns !! i = Some (start_position rv + n)))
    (λ _ s', s' = s).
Proof.
  intros Hwf Ht. unfold commit_append_prefixes. wp_step.
  eapply wp_mono; [by apply validate_each_spec|]. cbn beta. intros _ s' (-> & Hnd & Hids).
  assert (∀ id n, (id, n) ∈ rows → is_Some (reservations s !! id)) as Hex.
  { intros id n Hin. apply Hids. by apply (list_elem_of_fmap_2 fst) in Hin. }
  wp_step. eapply wp_mono; [apply check_consumed_spec; by intros [id n] Hin%Hex|].
  cbn beta. intros _ s' [-> Hn]. eapply wp_wand; [apply commit_rows_spec; [done..| |done]| |done].
  - intros id n Hin. destruct (Hex _ _ Hin) as [rv Hrv]. exists rv. split; [done|].
    exact (Hn _ _ _ Hin Hrv).
  - cbn beta. intros ns s' (Hwf' & Hc' & Hlen & Hns). do 4 (split; [done|]).
    intros i id n Hi. pose proof (list_elem_of_lookup_2 _ _ _ Hi) as Hin.
    destruct (Hex _ _ Hin) as [rv Hrv]. exists rv. split; [done|].
    split; [exact (Hn _ _ _ Hin Hrv)|by eapply Hns].
Qed.

Lemma commit_append_total id s :
  wf s →
  wp (commit_append id) s
    (λ n s', wf s' ∧ ∃ rv q, reservations s !! id = Some rv ∧
       n = start_position rv + token_count rv ∧ sequences s !! rs_request_id rv = Some q ∧
       closed s s' id rv q n (length (pages q)))
    (λ e s', s' = s ∧ e = ReservationDoesNotExist id ∧ reservations s !! id = None).
Proof.
  intros Hwf. destruct (reservations s !! id) as [rv|] eqn:Hrv.
  - eapply wp_wand; [by apply commit_append_spec| |done]. cbn beta.
    intros n s' (? & ? & _ & q & ? & _ & ?). eauto 10.
  - unfold commit_append. wp_step. by eapply validate_reservation_spec; [|rewrite Hrv|].
Qed.

Lemma cancel_append_total id s :
  wf s → tick_room s (reservation_pages s id) →
  wp (cancel_append id) s
    (λ _ s', wf s' ∧ ∃ rv q, reservations s !! id = Some rv ∧
       sequences s !! rs_request_id rv = Some q ∧
       closed s s' id rv q (committed_tokens q) (N.to_nat (previous_page_count rv)))
    (λ e s', s' = s ∧ e = ReservationDoesNotExist id ∧ reservations s !! id = None).
Proof.
  intros Hwf Ht. destruct (reservations s !! id) as [rv|] eqn:Hrv.
  - eapply wp_wand; [by apply cancel_append_spec| |done]. cbn beta.
    intros n s' (? & q & ? & ? & _). eauto 10.
  - unfold cancel_append. wp_step. by eapply validate_reservation_spec; [|rewrite Hrv|].
Qed.

(** *** Admission of appends *)

Definition appendable (s : PagedKvCacheManager) (r n : N) : Prop :=
  0 < n ∧ ∃ q, sequences s !! r = Some q ∧ pending q = None ∧
    committed_tokens q + n ≤ usize_max ∧
    committed_tokens q + n ≤ max_sequence_length (config s) ∧
    div_ceil (committed_tokens q + n) (block_size (config s)) - len (pages q)
      ≤ available_pages s.

Lemma begin_append_admission r n s :
  wf s → next_reservation s < u64_max →
  wp (begin_append r n) s (λ _ _, appendable s r n) (λ _ _, ¬ appendable s r n).
Proof.
  intros Hwf Hnext. unfold begin_append, appendable.
  wp_step; [wp_step; apply N.eqb_eq in Heqb; lia|]. apply N.eqb_neq in Heqb.
  wp_step. apply sequence_spec; [|naive_solver]. intros q Hq. wp_step; [wp_step; naive_solver|].
  wp_step. unfold checked_add. destruct (N.leb_spec (committed_tokens q + n) usize_max);
    [|apply wp_throw; intros (_ & q' & ? & _ & ? & _); simplify_eq; lia].
  simpl. apply wp_ret. wp_step. wp_step. wp_step.
  { apply N.ltb_lt in Heqb0. wp_step. intros (_ & q' & ? & _ & _ & ? & _). simplify_eq. lia. }
  apply N.ltb_ge in Heqb0. wp_step. wp_step. wp_step.
  { apply N.ltb_lt in Heqb1. wp_step. intros (_ & q' & ? & _ & _ & _ & ?). simplify_eq.
    unfold saturating_sub in *. lia. }
  apply N.ltb_ge in Heqb1. wp_step. wp_step. wp_step. rewrite (proj2 (N.leb_le _ _)) by lia.
  simpl. apply wp_ret. wp_step. wp_step. wp_step.
  eapply wp_mono; [apply (allocate_pages_spec _ _ []); [apply Hwf|done]|].
  cbn beta. intros fresh s1 (_ & (_ & Hs1 & _) & _). unfold put_sequence. wp_step. wp_step.
  wp_step. eapply wp_expect; [by rewrite Hs1|]. cbn beta. do 5 wp_step.
  split; [lia|]. exists q. done.
Qed.

Lemma can_append_admission r n s :
  wp (can_append r n) s (λ b s', s' = s ∧ (b = true ↔ appendable s r n))
    (λ _ s', s' = s ∧ ¬ appendable s r n).
Proof.
  unfold can_append, appendable. wp_step.
  { wp_step. apply N.eqb_eq in Heqb. split; [done|]. split; [done|lia]. }
  apply N.eqb_neq in Heqb. wp_step. apply sequence_spec; [|naive_solver]. intros q Hq.
  wp_step; [wp_step; naive_solver|]. unfold checked_add.
  destruct (N.leb_spec (committed_tokens q + n) usize_max); cycle 1.
  { wp_step. split; [done|]. split; [done|].
    intros (_ & q' & ? & _ & ? & _). simplify_eq. lia. }
  wp_step. wp_step. wp_step.
  { apply N.ltb_lt in Heqb0. wp_step. split; [done|]. split; [done|].
    intros (_ & q' & ? & _ & _ & ? & _). simplify_eq. lia. }
  apply N.ltb_ge in Heqb0. do 3 wp_step. split; [done|]. rewrite N.leb_le.
  unfold saturating_sub. split.
  - intros ?. split; [lia|]. exists q. done.
  - intros (_ & q' & ? & _ & _ & _ & ?). by simplify_eq.
Qed.

(** *** Longest cached prefix *)

(** Chain hash of the first [n] blocks of a token list. *)
Fixpoint chain_prefix (chain : N → list Z → N) (tokens : list Z) (bs : N) (n : nat) : N :=
  match n with
  | O => CHAIN_ROOT
  | S n => chain (chain_prefix chain tokens bs n) (block_tokens tokens bs (N.of_nat n))
  end.

(** What the index says of the [i]-th block of [tokens]. *)
Definition cached_block (chain : N → list Z → N) (idx : gmap (N * list Z) N) (tokens : list Z)
    (bs : N) (i : nat) : option N :=
  idx !! (chain_prefix chain tokens bs i, block_tokens tokens bs (N.of_nat i)).

Lemma match_prefix_hits chain fuel bs b tokens acc s :
  accounted s acc → (∀ p, held s acc p + N.of_nat fuel ≤ u32_max) →
  wp (match_prefix chain fuel bs (N.of_nat b) tokens (chain_prefix chain tokens bs b) acc) s
    (λ out _, ∃ found, out.1 = acc ++ found ∧
       out.2 = chain_prefix chain tokens bs (b + length found) ∧
       (∀ j, (j < length found)%nat →
          cached_block chain (block_index s) tokens bs (b + j) = found !! j) ∧
       (length found ≤ fuel)%nat ∧
       (length found = fuel ∨
          cached_block chain (block_index s) tokens bs (b + length found) = None))
    (λ _ _, False).
Proof.
  revert b acc s. induction fuel as [|fuel IH]; intros b acc s Ha Hroom.
  { apply wp_ret. exists []. simpl. rewrite app_nil_r, Nat.add_0_r.
    do 2 (split; [done|]). split; [lia|]. auto. }
  cbn [match_prefix]. wp_step. wp_step. wp_step; cycle 1.
  { wp_step. exists []. simpl. rewrite app_nil_r, Nat.add_0_r.
    do 2 (split; [done|]). split; [lia|]. split; [lia|]. auto. }
  wp_step. eapply wp_mono; [eapply acquire_cached_spec; [done..|]|].
  { specialize (Hroom n). lia. }
  cbn beta. intros _ s1 (Ha1 & Hf1 & Ht1 & Hi1).
  assert (∀ p, held s1 (acc ++ [n]) p = held s1 (n :: acc) p) as Hperm.
  { intros p. unfold held. rewrite occ_app, !occ_cons, occ_nil. lia. }
  replace (N.of_nat b + 1) with (N.of_nat (S b)) by lia.
  change (chain (chain_prefix chain tokens bs b) (block_tokens tokens bs (N.of_nat b)))
    with (chain_prefix chain tokens bs (S b)).
  eapply wp_mono; [apply IH|].
  - by eapply pages_ok_ext.
  - intros p. rewrite Hperm, (held_frame _ _ _ _ Hf1). specialize (Hroom p).
    unfold held in *. rewrite occ_cons. case_decide; lia.
  - cbn beta. rewrite Hi1. intros out _ (found & Hout & Hpar & Hhits & Hle & Hend).
    exists (n :: found). simpl. rewrite Hout, <-app_assoc, <-Nat.add_succ_comm.
    split; [done|]. split; [done|]. split.
    + intros [|j] Hj; [by rewrite Nat.add_0_r|]. simpl. rewrite <-Nat.add_succ_comm.
      apply Hhits. lia.
    + split; [lia|]. destruct Hend; [left; lia|by right].
Qed.

Lemma create_with_prefix_longest chain r tokens s :
  wf s → len tokens ≤ usize_max → ref_room s (len tokens) →
  reused_tokens s + len tokens ≤ u64_max → prefix_caching s = true → 1 < len tokens →
  wp (create_sequence_with_prefix chain r tokens) s
    (λ matched s', ∃ q, sequences s' !! r = Some q ∧
       let bs := block_size (config s) in
       let n := length (pages q) in
       matched = N.of_nat n * bs ∧ N.of_nat n ≤ (len tokens - 1) / bs ∧
       registered_blocks q = N.of_nat n ∧ chain_hash q = chain_prefix chain tokens bs n ∧
       (∀ i, (i < n)%nat → cached_block chain (block_index s) tokens bs i = pages q !! i) ∧
       (N.of_nat n = (len tokens - 1) / bs ∨
          cached_block chain (block_index s) tokens bs n = None))
    (λ _ _, True).
Proof.
  intros Hwf Hlen Hroom Hreused Hcache Htok. pose proof (wf_bs _ _ Hwf) as Hbs.
  unfold create_sequence_with_prefix. wp_step.
  eapply wp_wand; [by apply create_sequence_spec| |done]. cbn beta.
  intros _ s1 (Hwf1 & Hnone & ->). wp_step. wp_step. simpl. rewrite Hcache. simpl.
  rewrite (proj2 (N.leb_gt _ _)) by done. wp_step. wp_step. simpl. set (s1 := set_sequences _ s) in *.
  pose proof (N.Div0.mul_div_le (len tokens - 1) (block_size (config s))) as Hdiv.
  set (usable := (len tokens - 1) / block_size (config s)) in *.
  assert (usable ≤ len tokens) as Hu by nia.
  assert (∀ p, held s1 [] p + N.of_nat (N.to_nat usable) ≤ u32_max) as Hr.
  { intros p. unfold held. simpl. rewrite total_insert_new by done. simpl.
    rewrite !occ_nil, N2Nat.id. specialize (Hroom p). lia. }
  wp_step. eapply wp_wand; [apply (wp_conj _ _ _ _ _ _
    (match_prefix_spec chain _ (block_size (config s)) 0 tokens CHAIN_ROOT [] s1 (wf_pages _ _ Hwf1) Hr)
    (match_prefix_hits chain _ (block_size (config s)) 0 tokens [] s1 (wf_pages _ _ Hwf1) Hr))| |naive_solver].
  cbn beta. intros [ps parent] s2 ((_ & Hf2 & _) & found & Hfound & Hpar & Hhits & Hle & Hend).
  simpl in *. subst found parent. pose proof Hf2 as (_ & Hs2 & _ & _ & _ & Hru2 & _). simpl in *.
  wp_step. eapply wp_lift_ok; [apply umul_ok; unfold len in *; nia|]. cbn beta.
  wp_step. wp_step. wp_step. eapply wp_expect; [by rewrite Hs2, lookup_insert_eq|]. cbn beta.
  unfold put_sequence. do 4 wp_step. simpl.
  wp_step. eapply wp_lift_ok; [apply uadd_ok; rewrite Hru2; unfold len in *; nia|]. cbn beta.
  do 3 wp_step. simpl. eexists. rewrite lookup_insert_eq. split; [done|]. simpl.
  split; [done|]. split; [lia|]. do 2 (split; [done|]). split; [done|].
  destruct Hend as [->|?]; [left; lia|by right].
Qed.
End specs.

(** ** Construction *)

Lemma new_wf c s : max_sequence_length c ≤ usize_max → new c = Ok s → wf s.
Proof.
  unfold new, validate. intros Hmax. destruct (_ || _) eqn:Hz; [done|].
  destruct (N.ltb_spec u32_max (num_pages c)); [done|]. intros [= <-].
  rewrite !orb_false_iff, !N.eqb_neq in Hz. destruct Hz as [[? ?] ?].
  split; simpl.
  - unfold config_ok. lia.
  - unfold accounted; simpl. unfold held; simpl.
    assert (∀ (A : Type) (x : A) p, p < num_pages c →
      replicate (N.to_nat (num_pages c)) x !! N.to_nat p = Some x) as Hrep.
    { intros A x p Hp. apply lookup_replicate_2. lia. }
    split.
    + unfold len. rewrite length_replicate. lia.
    + unfold len. rewrite length_replicate. lia.
    + intros p x [-> _]%lookup_replicate_1. by rewrite total_empty.
    + intros p. rewrite total_empty, occ_nil. lia.
    + intros p Hp%elem_of_list_to_set%elem_of_range. rewrite total_empty. auto.
    + intros t p. rewrite lookup_empty. split; [done|].
      by intros [k [? _]%lookup_replicate_1].
    + done.
    + intros p Hp _. left. by apply elem_of_list_to_set, elem_of_range.
    + intros k p. rewrite lookup_empty. split; [done|].
      by intros [t [? _]%lookup_replicate_1].
  - done.
  - done.
  - done.
Qed.
