(* ===== verification/PagedKvProps.v ===== *)
(** * Properties of the paged KV manager

    Operations are interleaved arbitrarily ([reachable]); the properties are
    stated of the managers such interleavings reach. *)

From S2P Require Import Prelude PagedKv PagedKvInv PagedKvOps.
Open Scope N_scope.

(** ** Interleavings of operations *)

Inductive op :=
| OpSetPrefixCaching (enabled : bool)
| OpCreate (r : N)
| OpCreateWithPrefix (r : N) (tokens : list Z)
| OpRegisterPrefix (r : N) (tokens : list Z)
| OpBegin (r n : N)
| OpExtend (id extra : N)
| OpCommit (id : N)
| OpCommitPartial (id n : N)
| OpCommitPrefixes (rows : list (N * N))
| OpCommits (ids : list N)
| OpCancel (id : N)
| OpCancels (ids : list N)
| OpRemove (r : N).

Definition void {A} (m : Kv A) : Kv unit := let! _ := m in ret tt.

Lemma wp_void {A} (m : Kv A) s Q R : wp m s (λ _, Q) R → wp (void m) s (λ _, Q) R.
Proof. intros H. apply wp_bind. exact H. Qed.

Section props.
Context {P : Profile} (chain : N → list Z → N).

Definition run_op (o : op) : Kv unit :=
  match o with
  | OpSetPrefixCaching enabled => set_prefix_caching enabled
  | OpCreate r => create_sequence r
  | OpCreateWithPrefix r tokens => void (create_sequence_with_prefix chain r tokens)
  | OpRegisterPrefix r tokens => register_prefix chain r tokens
  | OpBegin r n => void (begin_append r n)
  | OpExtend id extra => void (extend_append id extra)
  | OpCommit id => void (commit_append id)
  | OpCommitPartial id n => void (commit_append_partial id n)
  | OpCommitPrefixes rows => void (commit_append_prefixes rows)
  | OpCommits ids => void (commit_appends ids)
  | OpCancel id => cancel_append id
  | OpCancels ids => cancel_appends ids
  | OpRemove r => remove_sequence r
  end.

(** The 64-bit eviction clock and token counter and the 32-bit reference counts
    have room for the operation. *)
Definition room (s : PagedKvCacheManager) (o : op) : Prop :=
  match o with
  | OpCreateWithPrefix _ tokens =>
      len tokens ≤ usize_max ∧ ref_room s (len tokens) ∧ reused_tokens s + len tokens ≤ u64_max
  | OpCommitPartial id _ | OpCancel id => tick_room s (reservation_pages s id)
  | OpCommitPrefixes rows => tick_room s (group_pages s rows.*1)
  | OpCancels ids => tick_room s (group_pages s ids)
  | OpRemove r => ∀ q, sequences s !! r = Some q → tick_room s (len (pages q))
  | _ => True
  end.

Lemma run_op_spec o s :
  wf s → room s o →
  wp (run_op o) s (λ _ s', wf s' ∧ config s' = config s) (λ _ s', s' = s).
Proof.
  intros Hwf Hroom. destruct o; simpl in *; try apply wp_void.
  - eapply wp_wand; [by apply set_prefix_caching_spec|naive_solver|done].
  - eapply wp_wand; [by apply create_sequence_spec| |naive_solver].
    intros ? s' (? & _ & ->). done.
  - destruct Hroom as (? & ? & ?).
    eapply wp_wand; [by apply create_sequence_with_prefix_spec|naive_solver|naive_solver].
  - eapply wp_wand; [by apply register_prefix_spec|naive_solver|naive_solver].
  - eapply wp_mono; [by apply begin_append_spec|].
    intros ? s' [? (? & ? & ? & ? & ? & ? & ?)]. done.
  - eapply wp_mono; [by apply extend_append_spec|].
    intros ? s' [? (? & ? & ? & ? & ? & ? & ? & ?)]. done.
  - eapply wp_wand; [by apply commit_append_total| |naive_solver].
    intros ? s' (? & ? & ? & _ & _ & _ & ? & _). done.
  - eapply wp_wand; [by apply commit_append_partial_spec| |naive_solver].
    intros ? s' (? & ? & ? & ? & ? & ? & ? & [? _] & _). done.
  - eapply wp_mono; [by apply commit_append_prefixes_spec|]. naive_solver.
  - eapply wp_mono; [by apply commit_appends_spec|]. naive_solver.
  - eapply wp_wand; [by apply cancel_append_total| |naive_solver].
    intros ? s' (? & ? & ? & _ & _ & ? & _). done.
  - eapply wp_mono; [by apply cancel_appends_spec|]. naive_solver.
  - eapply wp_wand; [by apply remove_sequence_spec|naive_solver|naive_solver].
Qed.

(** Managers reached from [new] by any sequence of operations, failing ones
    included.  The configuration fields are [usize] values. *)
Inductive reachable (c : PagedKvCacheConfig) : PagedKvCacheManager → Prop :=
| reach_new s : max_sequence_length c ≤ usize_max → new c = Ok s → reachable c s
| reach_step s o out s' :
    reachable c s → room s o → run_op o s = (out, s') → out ≠ Panic → reachable c s'.

Lemma reachable_wf c s : reachable c s → wf s ∧ config s = c.
Proof.
  induction 1 as [s Hmax Hn|s o out s' Hs [Hwf Hc] Hroom Hrun Hout].
  - split; [by eapply new_wf|]. unfold new in Hn. destruct (validate c); simplify_eq/=. done.
  - pose proof (run_op_spec o s Hwf Hroom) as Hspec. unfold wp in Hspec.
    rewrite Hrun in Hspec. destruct out as [u|e|]; [|by subst|done].
    destruct Hspec as [? ->]. done.
Qed.

(** ** Executable runs

    [run_ops] replays a trace and gives up where an operation would lack room
    or panic, so that the states it returns are reachable. *)

Definition room_ok (s : PagedKvCacheManager) (o : op) : bool :=
  match o with
  | OpCreateWithPrefix _ tokens =>
      (len tokens <=? usize_max) && (table_entries (sequences s) + len tokens <=? u32_max)
        && (reused_tokens s + len tokens <=? u64_max)
  | OpCommitPartial id _ | OpCancel id => next_tick s + reservation_pages s id <=? u64_max
  | OpCommitPrefixes rows => next_tick s + group_pages s rows.*1 <=? u64_max
  | OpCancels ids => next_tick s + group_pages s ids <=? u64_max
  | OpRemove r =>
      match sequences s !! r with
      | Some q => next_tick s + len (pages q) <=? u64_max
      | None => true
      end
  | _ => true
  end.

Lemma room_ok_sound s o : room_ok s o = true → room s o.
Proof.
  destruct o; simpl; try done; rewrite ?andb_true_iff, ?N.leb_le; try done.
  - intros [[? Hr] ?]. split; [done|]. split; [|done]. intros p.
    pose proof (total_entries p (sequences s)). lia.
  - intros Hr q Hq. rewrite Hq in Hr. by apply N.leb_le.
Qed.

Fixpoint run_ops (ops : list op) (s : PagedKvCacheManager) : option PagedKvCacheManager :=
  match ops with
  | [] => Some s
  | o :: ops =>
      if room_ok s o then
        match run_op o s with
        | (Panic, _) => None
        | (_, s') => run_ops ops s'
        end
      else None
  end.

Lemma run_ops_reachable c ops s s' :
  reachable c s → run_ops ops s = Some s' → reachable c s'.
Proof.
  revert s. induction ops as [|o ops IH]; simpl; intros s Hs Hrun; [by simplify_eq|].
  destruct (room_ok s o) eqn:Hr; [|done]. apply room_ok_sound in Hr.
  destruct (run_op o s) as [out s1] eqn:Ho. assert (out ≠ Panic) by (by destruct out).
  apply (IH s1); [by eapply reach_step|by destruct out].
Qed.

(** ** Claims *)

(** C8. Every manager reached by interleaving the operations is well formed
    (accounting, sequence and reservation tables, exclusive tails), and from it
    no operation panics: every [expect], index, [split_off] and arithmetic step
    of the sources succeeds, in debug and release builds. *)
Theorem kv_interleavings_safe c s :
  reachable c s → wf s ∧ ∀ o, room s o → (run_op o s).1 ≠ Panic.
Proof.
  intros [Hwf _]%reachable_wf. split; [done|]. intros o Hroom.
  pose proof (run_op_spec o s Hwf Hroom) as Hspec. unfold wp in Hspec.
  by destruct (run_op o s) as [[] ?].
Qed.

(** C9. An operation that returns [Err] leaves the whole manager unchanged;
    in particular the group operations are all or nothing. *)
Theorem kv_error_atomic c s o e s' :
  reachable c s → room s o → run_op o s = (Err e, s') → s' = s.
Proof.
  intros [Hwf _]%reachable_wf Hroom Hrun. exact (wp_err _ _ _ _ _ _ (run_op_spec o s Hwf Hroom) Hrun).
Qed.

(** C34. [can_append] predicts [begin_append]: it answers [true] exactly when a
    reservation of that size would succeed (as long as reservation ids last). *)
Theorem kv_can_append_sound c s r n :
  reachable c s → next_reservation s < u64_max →
  (∃ rv s', begin_append r n s = (Ok rv, s')) ↔ can_append r n s = (Ok true, s).
Proof.
  intros [Hwf _]%reachable_wf Hnext.
  pose proof (begin_append_admission r n s Hwf Hnext) as Hb.
  pose proof (can_append_admission r n s) as Hc. unfold wp in *.
  destruct (begin_append r n s) as [[rv|e|] s1], (can_append r n s) as [[b|e'|] s2];
    try done; split; try naive_solver.
Qed.

(** A successful [begin_append] reserves exactly the pages the new context
    length needs, all of them previously unreferenced, changes no other
    sequence, and reports the new block table. *)
Theorem kv_begin_append_effect c s r n rv s' :
  reachable c s → begin_append r n s = (Ok rv, s') → begun s s' r n rv.
Proof.
  intros [Hwf _]%reachable_wf Hrun.
  exact (proj2 (wp_ok _ _ _ _ _ _ (begin_append_spec r n s Hwf) Hrun)).
Qed.

(** C11. Pages are conserved: each reference count is the number of block-table
    entries that name the page, and free, cached and referenced pages add up to
    the pool. *)
Theorem kv_pages_conserved c s :
  reachable c s →
  (∀ p, p < num_pages c → page_refs s !! N.to_nat p = Some (total p (sequences s))) ∧
  available_pages s + len (filter (λ p, 0 < total p (sequences s)) (range (num_pages c)))
    = num_pages c.
Proof.
  intros [Hwf <-]%reachable_wf. pose proof (wf_pages _ _ Hwf) as Ha.
  assert (∀ p, held s [] p = total p (sequences s)) as Hh.
  { intros p. unfold held. rewrite occ_nil. lia. }
  split.
  - intros p Hp. rewrite <-Hh. by eapply po_lookup_refs.
  - pose proof (po_partition _ _ _ _ _ _ _ _ Ha) as Hpart. unfold available_pages.
    rewrite (list_filter_iff _ (λ p, 0 < held s [] p)); [done|]. intros p. by rewrite Hh.
Qed.

(** C10. Shared pages are never written: every position of a pending append lies
    on a page of the block table that has one reference and is not published in
    the prefix cache. *)
Theorem kv_writes_exclusive c s id rv q pos :
  reachable c s → reservations s !! id = Some rv →
  sequences s !! rs_request_id rv = Some q →
  start_position rv ≤ pos < start_position rv + token_count rv →
  ∃ p, pages q !! N.to_nat (pos / block_size c) = Some p ∧
    page_refs s !! N.to_nat p = Some 1 ∧ page_blocks s !! N.to_nat p = Some None.
Proof.
  intros [Hwf <-]%reachable_wf Hrv Hq Hpos.
  destruct (wf_reservation _ _ _ _ Hwf Hrv) as
    (q' & Hq' & _ & Hst & _ & _ & _ & Hlen & _). simplify_eq.
  pose proof (wf_bs _ _ Hwf) as Hbs.
  assert (pos / block_size (config s) < len (pages q)) as Hlt.
  { rewrite Hlen. pose proof (div_ceil_spec (start_position rv + token_count rv) _ Hbs).
    apply N.Div0.div_lt_upper_bound. lia. }
  destruct (lookup_lt_len _ _ Hlt) as [p Hp]. exists p. split; [done|].
  destruct (wf_tails _ _ Hwf _ _ _ _ Hq Hp) as [Hone Hup].
  { rewrite N2Nat.id. apply N.Div0.div_le_mono. lia. }
  split; [|done]. rewrite <-Hone. eapply po_lookup_refs; [apply Hwf|].
  apply (po_held _ _ _ _ _ _ _ _ (wf_pages _ _ Hwf)). lia.
Qed.

(** Reserving and cancelling is the identity on every block table and on
    the reservation table, and gives every page back. *)
Theorem kv_begin_cancel_roundtrip c s r n rv s' :
  reachable c s → begin_append r n s = (Ok rv, s') →
  tick_room s' (reservation_pages s' (ar_id rv)) →
  ∃ s'', cancel_append (ar_id rv) s' = (Ok tt, s'') ∧ sequences s'' = sequences s ∧
    reservations s'' = reservations s ∧ available_pages s'' = available_pages s.
Proof.
  intros [Hwf _]%reachable_wf Hrun Ht.
  destruct (wp_ok _ _ _ _ _ _ (begin_append_spec r n s Hwf) Hrun) as [Hwf' Hb].
  destruct Hb as (q & fresh & Hq & Hp & -> & Hc & _ & Hs & Hr & _). simpl in *.
  pose proof (cancel_append_total (next_reservation s) s' Hwf' Ht) as Hcan. unfold wp in Hcan.
  destruct (cancel_append _ s') as [[[]|e|] s''] eqn:Hrun'; [| |done]; cycle 1.
  { destruct Hcan as (_ & _ & Hn). by rewrite Hr, lookup_insert_eq in Hn. }
  exists s''. split; [done|]. destruct Hcan as (Hwf'' & rv & q' & Hrv & Hq' & Hcl).
  rewrite Hr, lookup_insert_eq in Hrv. simplify_eq. simpl in Hq', Hcl.
  rewrite Hs, lookup_insert_eq in Hq'. simplify_eq.
  destruct Hcl as (Hc'' & _ & Hs'' & Hr'' & _). simpl in *.
  assert (sequences s'' = sequences s) as Hseq.
  { rewrite Hs'', Hs, insert_insert_eq. apply insert_id. rewrite Hq. f_equal.
    destruct q; simpl in *; subst. f_equal. unfold len. by rewrite Nat2N.id, take_app_length. }
  assert (reservations s !! next_reservation s = None) as Hnone.
  { destruct (reservations s !! _) eqn:Hx; [|done]. destruct (wf_resv _ _ Hwf _ _ Hx). lia. }
  split; [done|]. split; [by rewrite Hr'', Hr, delete_insert_id|].
  pose proof (po_partition _ _ _ _ _ _ _ _ (wf_pages _ _ Hwf)) as H1.
  pose proof (po_partition _ _ _ _ _ _ _ _ (wf_pages _ _ Hwf'')) as H2.
  rewrite Hc'', Hc in H2. unfold available_pages.
  rewrite (list_filter_iff _ (λ p, 0 < held s [] p)) in H2; [lia|].
  intros p. unfold held. by rewrite Hseq.
Qed.

(** Committing an accepted prefix of a reservation advances the sequence to
    exactly that position, keeps exactly the pages the position needs, closes
    the reservation and touches no other sequence. *)
Theorem kv_commit_partial_effect c s id n m s' :
  reachable c s → tick_room s (reservation_pages s id) →
  commit_append_partial id n s = (Ok m, s') →
  ∃ rv q, reservations s !! id = Some rv ∧ 0 < n ≤ token_count rv ∧
    sequences s !! rs_request_id rv = Some q ∧ m = start_position rv + n ∧
    reservations s' = delete id (reservations s) ∧
    sequences s' = <[rs_request_id rv := mkSequence m
      (take (N.to_nat (div_ceil m (block_size c))) (pages q)) None
      (registered_blocks q) (chain_hash q)]> (sequences s).
Proof.
  intros [Hwf <-]%reachable_wf Ht Hrun.
  destruct (wp_ok _ _ _ _ _ _ (commit_append_partial_spec id n s Hwf Ht) Hrun)
    as (_ & rv & q & Hrv & Hn & -> & Hq & (_ & _ & Hs & Hr & _) & _).
  exists rv, q. done.
Qed.

(** A group commit returns, for each reservation in order, its committed
    length, and closes exactly the reservations of the group. *)
Theorem kv_group_commit_effect c s ids ns s' :
  reachable c s → commit_appends ids s = (Ok ns, s') →
  NoDup ids ∧ length ns = length ids ∧
  (∀ i id, ids !! i = Some id → ∃ rv, reservations s !! id = Some rv ∧
     ns !! i = Some (start_position rv + token_count rv)) ∧
  (∀ id, reservations s' !! id = if decide (id ∈ ids) then None else reservations s !! id).
Proof.
  intros [Hwf _]%reachable_wf Hrun.
  destruct (wp_ok _ _ _ _ _ _ (commit_appends_spec ids s Hwf) Hrun) as (_ & _ & ?). done.
Qed.

(** Prefix reuse maps the longest cached prefix: the new block table is
    exactly the run of index hits along the hash chain of the prompt, it stops
    at the first miss or so that one token is left to compute, and the stored
    chain hash is that of the mapped blocks. *)
Theorem kv_longest_cached_prefix c s r tokens matched s' :
  reachable c s → room s (OpCreateWithPrefix r tokens) →
  prefix_caching s = true → 1 < len tokens →
  create_sequence_with_prefix chain r tokens s = (Ok matched, s') →
  matched < len tokens ∧ ∃ q, sequences s' !! r = Some q ∧
    let n := length (pages q) in
    matched = N.of_nat n * block_size c ∧
    chain_hash q = chain_prefix chain tokens (block_size c) n ∧
    (∀ i, (i < n)%nat →
       cached_block chain (block_index s) tokens (block_size c) i = pages q !! i) ∧
    (N.of_nat n = (len tokens - 1) / block_size c ∨
       cached_block chain (block_index s) tokens (block_size c) n = None).
Proof.
  intros [Hwf <-]%reachable_wf (Hl & Hr & Hu) Hcache Htok Hrun.
  destruct (wp_ok _ _ _ _ _ _
    (create_with_prefix_longest chain r tokens s Hwf Hl Hr Hu Hcache Htok) Hrun)
    as (q & Hq & Hm & Hle & _ & Hch & Hhits & Hend).
  split; [|by exists q]. subst matched.
  pose proof (N.Div0.mul_div_le (len tokens - 1) (block_size (config s))). nia.
Qed.
End props.

(** ** Witnesses *)

Definition demo_profile : Profile :=
  {| overflow_checks := true; debug_assertions := true |}.
#[local] Existing Instance demo_profile.
Definition demo_chain (parent : N) (tokens : list Z) : N :=
  foldl (λ h z, (h * 31 + Z.to_N z + 7) mod 1000003) (parent mod 1000003) tokens.
Definition demo_config : PagedKvCacheConfig := mkConfig 2 8 16.
Definition demo_new : PagedKvCacheManager :=
  mkManager demo_config (list_to_set (range 8)) (replicate 8 0) (replicate 8 None)
    ∅ ∅ 0 false 0 ∅ ∅ 1.
Definition demo (ops : list op) : PagedKvCacheManager :=
  default demo_new (run_ops demo_chain ops demo_new).

Lemma demo_reachable ops :
  is_Some (run_ops demo_chain ops demo_new) → reachable demo_chain demo_config (demo ops).
Proof.
  intros [s Hs]. unfold demo. rewrite Hs. eapply run_ops_reachable; [|done].
  by apply reach_new.
Qed.
Ltac demo_run := apply demo_reachable; vm_compute; eexists; reflexivity.

(** Two requests share a published four-token prefix; request 3 has a pending
    append and request 2 was removed again. *)
Definition demo_prompt : list Z := [1; 2; 3; 4; 5]%Z.
Definition demo_trace : list op :=
  [OpSetPrefixCaching true; OpCreate 1; OpBegin 1 5; OpCommit 1;
   OpRegisterPrefix 1 demo_prompt; OpCreateWithPrefix 2 demo_prompt;
   OpCreateWithPrefix 3 demo_prompt; OpBegin 3 3; OpRemove 2].
Definition demo_state : PagedKvCacheManager := demo demo_trace.

Lemma kv_interleavings_safe_witness :
  wf demo_state ∧ (run_op demo_chain (OpCommit 2) demo_state).1 ≠ Panic.
Proof.
  destruct (kv_interleavings_safe demo_chain demo_config demo_state) as [Hwf Hsafe].
  - demo_run.
  - split; [done|]. by apply Hsafe.
Defined.

Lemma kv_error_atomic_witness :
  run_op demo_chain (OpRemove 3) demo_state = (Err (RemoveWhilePending 3 2), demo_state) ∧
  demo_state = demo_state.
Proof.
  assert (run_op demo_chain (OpRemove 3) demo_state = (Err (RemoveWhilePending 3 2), demo_state))
    as Hrun by (vm_compute; reflexivity).
  split; [done|].
  apply (kv_error_atomic demo_chain demo_config demo_state (OpRemove 3) _ _) in Hrun;
    [done|demo_run|].
  apply room_ok_sound. vm_compute. reflexivity.
Defined.

Lemma kv_can_append_sound_witness :
  (∃ rv s', begin_append 1 4 demo_state = (Ok rv, s')) ↔
  can_append 1 4 demo_state = (Ok true, demo_state).
Proof.
  apply (kv_can_append_sound demo_chain demo_config); [demo_run|by vm_compute].
Defined.

Definition demo_append : PagedKvAppendReservation :=
  mkAppendReservation 3 1 5 4 9 [5; 6] [0; 1; 2; 5; 6].
Lemma kv_begin_append_effect_witness :
  begun demo_state (begin_append 1 4 demo_state).2 1 4 demo_append.
Proof.
  apply (kv_begin_append_effect demo_chain demo_config); [demo_run|vm_compute; reflexivity].
Defined.

Lemma kv_pages_conserved_witness :
  page_refs demo_state !! 0%nat = Some (total 0 (sequences demo_state)) ∧
  available_pages demo_state = 3.
Proof.
  destruct (kv_pages_conserved demo_chain demo_config demo_state) as [H _]; [demo_run|].
  split; [by apply (H 0)|vm_compute; reflexivity].
Defined.

Lemma kv_writes_exclusive_witness :
  ∃ p, [0; 1; 3; 4] !! N.to_nat (6 / 2) = Some p ∧
    page_refs demo_state !! N.to_nat p = Some 1 ∧ page_blocks demo_state !! N.to_nat p = Some None.
Proof.
  apply (kv_writes_exclusive demo_chain demo_config demo_state 2 (mkReservation 3 2 4 3)
    (mkSequence 4 [0; 1; 3; 4] (Some 2) 2 (demo_chain (demo_chain CHAIN_ROOT [1; 2]%Z) [3; 4]%Z)) 6);
    [demo_run|vm_compute; reflexivity|vm_compute; reflexivity|simpl; lia].
Defined.

Lemma kv_begin_cancel_roundtrip_witness :
  ∃ s'', cancel_append 3 (begin_append 1 4 demo_state).2 = (Ok tt, s'') ∧
    sequences s'' = sequences demo_state ∧ reservations s'' = reservations demo_state ∧
    available_pages s'' = available_pages demo_state.
Proof.
  apply (kv_begin_cancel_roundtrip demo_chain demo_config demo_state 1 4 demo_append);
    [demo_run|vm_compute; reflexivity|vm_compute; discriminate].
Defined.

Lemma kv_commit_partial_effect_witness :
  ∃ rv q, reservations demo_state !! 2 = Some rv ∧ 0 < 2 ≤ token_count rv ∧
    sequences demo_state !! rs_request_id rv = Some q ∧ 6 = start_position rv + 2 ∧
    reservations (commit_append_partial 2 2 demo_state).2 = delete 2 (reservations demo_state) ∧
    sequences (commit_append_partial 2 2 demo_state).2 = <[rs_request_id rv := mkSequence 6
      (take (N.to_nat (div_ceil 6 2)) (pages q)) None
      (registered_blocks q) (chain_hash q)]> (sequences demo_state).
Proof.
  apply (kv_commit_partial_effect demo_chain demo_config demo_state 2 2 6);
    [demo_run|vm_compute; discriminate|vm_compute; reflexivity].
Defined.

Definition demo_group : PagedKvCacheManager := demo (demo_trace ++ [OpBegin 1 4]).
Lemma kv_group_commit_effect_witness :
  NoDup [3; 2] ∧
  ∀ id, reservations (commit_appends [3; 2] demo_group).2 !! id =
    if decide (id ∈ [3; 2]) then None else reservations demo_group !! id.
Proof.
  destruct (kv_group_commit_effect demo_chain demo_config demo_group [3; 2] [9; 7]
    (commit_appends [3; 2] demo_group).2) as (? & _ & _ & ?);
    [demo_run|vm_compute; reflexivity|done].
Defined.

Lemma kv_longest_cached_prefix_witness :
  4 < len demo_prompt ∧ ∃ q,
    sequences (create_sequence_with_prefix demo_chain 9 demo_prompt demo_state).2 !! 9 = Some q ∧
    4 = N.of_nat (length (pages q)) * 2.
Proof.
  destruct (kv_longest_cached_prefix demo_chain demo_config demo_state 9 demo_prompt 4
    (create_sequence_with_prefix demo_chain 9 demo_prompt demo_state).2)
    as (Hlt & q & Hq & Hm & _);
    [demo_run|apply room_ok_sound; vm_compute; reflexivity|vm_compute; reflexivity
    |by vm_compute|vm_compute; reflexivity|].
  split; [exact Hlt|]. exists q. split; [exact Hq|exact Hm].
Defined.
