(* ===== verification/LlmRuntime.v ===== *)
(** * Layouts and memory budgets of the LLM runtime

    [ruLLM/src/runtime/shape.rs] (storage layouts and their element types),
    [ruLLM/src/runtime/memory.rs] (sizing of the KV pages and the logical device
    budget) and [PagedKvCacheConfig::from_memory_budget] of
    [ruLLM/src/paged_kv.rs].  Locks are never poisoned here: no code that runs
    under the budget lock panics. *)

From S2P Require Import Prelude PagedKv.
Open Scope N_scope.

Inductive RuntimeErrorKind :=
| InvalidInput | Unsupported | DriverIncompatible | OutOfMemory | QueueFull | Cancelled
| Numerical | DeviceLost | Synchronization | WorkerPanicked | Closed | Internal.
Record RuntimeError := mkRuntimeError { kind : RuntimeErrorKind; message : string }.
Definition invalid (msg : string) : RuntimeError := mkRuntimeError InvalidInput msg.

Definition or_else {A} (o : option A) (e : RuntimeError) : res RuntimeError A :=
  match o with Some a => Ok a | None => Err e end.

(** [iter.try_fold(init, f)] *)
Fixpoint try_fold {A B} (f : B → A → res RuntimeError B) (b : B) (l : list A)
    : res RuntimeError B :=
  match l with
  | [] => Ok b
  | x :: l => let? b' := f b x in try_fold f b' l
  end.

(** ** Element types *)

Inductive TensorDType := F16 | BF16 | F32 | F64 | I8 | I4.

Definition bits (d : TensorDType) : N :=
  match d with F16 | BF16 => 16 | F32 => 32 | F64 => 64 | I8 => 8 | I4 => 4 end.
Definition dtype_storage_bytes (d : TensorDType) (elements : N) : res RuntimeError N :=
  let? b := or_else (checked_mul u64_max elements (bits d)) (invalid "tensor bit count overflow") in
  Ok (b / 8 + (if b mod 8 =? 0 then 0 else 1)).
Definition is_float (d : TensorDType) : bool :=
  match d with F16 | BF16 | F32 | F64 => true | _ => false end.

(** ** Layouts *)

Record TensorLayout := mkLayout {
  shape : list N;
  strides : list N;
  offset_elements : N
}.

Definition has_zero (l : list N) : bool := bool_decide (0 ∈ l).

Definition elements (v : TensorLayout) : res RuntimeError N :=
  if has_zero (shape v) then Ok 0
  else try_fold (λ n d, or_else (checked_mul usize_max n d)
                  (invalid "tensor element count overflow")) 1 (shape v).

Definition span_step (n : N) (ds : N * N) : res RuntimeError N :=
  or_else
    (span ← checked_mul usize_max (ds.1 - 1) ds.2; checked_add usize_max n span)
    (invalid "tensor storage span overflow").
Definition storage_span_elements (v : TensorLayout) : res RuntimeError N :=
  if has_zero (shape v) then Ok 0
  else
    let? last := try_fold span_step (offset_elements v) (zip (shape v) (strides v)) in
    or_else (checked_add usize_max last 1) (invalid "tensor last offset overflow").

Definition layout_new (sh st : list N) (off : N) : res RuntimeError TensorLayout :=
  if negb (len sh =? len st) then Err (invalid "shape/stride rank mismatch")
  else
    let v := mkLayout sh st off in
    let? _ := elements v in
    let? _ := storage_span_elements v in
    Ok v.

(** The loop of [contiguous], from the last dimension: the strides written so
    far and the next stride. *)
Fixpoint contiguous_strides (sh : list N) : res RuntimeError (list N * N) :=
  match sh with
  | [] => Ok ([], 1)
  | d :: sh =>
      let? acc := contiguous_strides sh in
      let? next := or_else (checked_mul usize_max acc.2 d)
                     (invalid "contiguous stride overflow") in
      Ok (acc.2 :: acc.1, next)
  end.
Definition contiguous (sh : list N) : res RuntimeError TensorLayout :=
  let? st :=
    if has_zero sh then Ok (replicate (length sh) 0)
    else let? acc := contiguous_strides sh in Ok acc.1 in
  layout_new sh st 0.

(** The reverse loop of [is_contiguous]: the expected stride, or [None] where
    the code returns [false]. *)
Fixpoint expected_stride (ds : list (N * N)) : option N :=
  match ds with
  | [] => Some 1
  | (d, s) :: ds =>
      e ← expected_stride ds;
      if (1 <? d) && negb (s =? e) then None else checked_mul usize_max e d
  end.
Definition is_contiguous (v : TensorLayout) : bool :=
  if has_zero (shape v) then true
  else bool_decide (is_Some (expected_stride (zip (shape v) (strides v)))).

Definition layout_storage_bytes (v : TensorLayout) (d : TensorDType) : res RuntimeError N :=
  let? span := storage_span_elements v in dtype_storage_bytes d span.
Definition validate_storage (v : TensorLayout) (d : TensorDType) (available : N)
    : res RuntimeError unit :=
  let? needed := layout_storage_bytes v d in
  if available <? needed then Err (invalid "tensor view exceeds its storage allocation")
  else Ok tt.

Record AttentionShape := mkAttention {
  batch : N; query_heads : N; kv_heads : N; query_tokens : N; cached_tokens : N;
  head_dimension : N
}.
Definition attention_validate (a : AttentionShape) : res RuntimeError unit :=
  if has_zero [batch a; query_heads a; kv_heads a; query_tokens a; cached_tokens a;
               head_dimension a]
     || negb (query_heads a mod kv_heads a =? 0) || (cached_tokens a <? query_tokens a)
  then Err (invalid "invalid attention dimensions or grouped-query head ratio")
  else
    let? _ := contiguous [batch a; query_heads a; query_tokens a; head_dimension a] in
    let? _ := contiguous [batch a; kv_heads a; cached_tokens a; head_dimension a] in
    Ok tt.

(** ** KV page sizing *)

Record KvMemoryGeometry := mkGeometry {
  layers : N; geo_kv_heads : N; geo_head_dimension : N; tokens_per_page : N;
  dtype : TensorDType
}.

Definition bytes_per_page (g : KvMemoryGeometry) : res RuntimeError N :=
  let dimensions := [layers g; geo_kv_heads g; geo_head_dimension g; tokens_per_page g] in
  if has_zero dimensions || negb (is_float (dtype g))
  then Err (invalid "dense KV geometry requires positive dimensions and a floating dtype")
  else
    let? elts := try_fold (λ n d, or_else (checked_mul u64_max n d)
                            (invalid "KV page size overflow")) 2 dimensions in
    dtype_storage_bytes (dtype g) elts.

Definition page_capacity (g : KvMemoryGeometry) (available workspace headroom : N)
    : res RuntimeError N :=
  let? page := bytes_per_page g in
  let? usable := or_else (n ← checked_sub available workspace; checked_sub n headroom)
    (mkRuntimeError OutOfMemory "workspace and headroom exceed available memory") in
  let count := usable / page in
  if count =? 0 then Err (mkRuntimeError OutOfMemory "no complete KV page fits")
  else Ok (N.min count u32_max).

(** The error is the runtime's, or the one of [PagedKvCacheConfig::validate]. *)
Definition from_memory_budget (g : KvMemoryGeometry) (available workspace headroom max_seq : N)
    : res (RuntimeError + PagedKvError) PagedKvCacheConfig :=
  match page_capacity g available workspace headroom with
  | Err e => Err (inl e)
  | Panic => Panic
  | Ok pages =>
      let config := mkConfig (tokens_per_page g) pages max_seq in
      match validate config with
      | Err e => Err (inr e)
      | Panic => Panic
      | Ok _ => Ok config
      end
  end.

(** ** The logical device budget *)

Record BudgetState := mkBudget { limit : N; reserved : N; peak : N }.

Definition budget_new (capacity headroom : N) : res RuntimeError BudgetState :=
  match checked_sub capacity headroom with
  | Some l => if 0 <? l then Ok (mkBudget l 0 0)
              else Err (invalid "memory headroom leaves no usable capacity")
  | None => Err (invalid "memory headroom leaves no usable capacity")
  end.

(** A [MemoryReservation] is the number of bytes its drop gives back. *)
Definition try_reserve (bytes : N) : M BudgetState RuntimeError N :=
  if bytes =? 0 then throw (invalid "memory reservation must be nonzero")
  else
    let! s := gets (λ s, s) in
    match checked_add u64_max (reserved s) bytes with
    | Some r =>
        if r <=? limit s then
          let! _ := modify (λ s, mkBudget (limit s) r (N.max (peak s) r)) in
          ret bytes
        else throw (mkRuntimeError OutOfMemory "logical device budget exhausted")
    | None => throw (mkRuntimeError OutOfMemory "logical device budget exhausted")
    end.

Definition drop_reservation (bytes : N) : M BudgetState RuntimeError unit :=
  modify (λ s, mkBudget (limit s) (saturating_sub (reserved s) bytes) (peak s)).

(** ** Layouts: addresses *)

Fixpoint row_major (sh idx : list N) : N :=
  match sh, idx with
  | _ :: sh, i :: idx => i * volume sh + row_major sh idx
  | _, _ => 0
  end.
(** Element address of a multi-index. *)
Definition address (v : TensorLayout) (idx : list N) : N :=
  offset_elements v + dot idx (strides v).
Definition in_bounds (idx sh : list N) : Prop := Forall2 N.lt idx sh.

Lemma checked_add_Some max a b c : checked_add max a b = Some c ↔ a + b ≤ max ∧ c = a + b.
Proof. unfold checked_add. destruct (N.leb_spec (a + b) max); naive_solver lia. Qed.
Lemma checked_mul_Some max a b c : checked_mul max a b = Some c ↔ a * b ≤ max ∧ c = a * b.
Proof. unfold checked_mul. destruct (N.leb_spec (a * b) max); naive_solver lia. Qed.
Lemma checked_sub_Some a b c : checked_sub a b = Some c ↔ b ≤ a ∧ c = a - b.
Proof. unfold checked_sub. destruct (N.leb_spec b a); naive_solver lia. Qed.

Lemma or_else_Ok {A} (o : option A) e a : or_else o e = Ok a ↔ o = Some a.
Proof. destruct o; naive_solver. Qed.

Lemma in_bounds_no_zero idx sh : in_bounds idx sh → has_zero sh = false.
Proof.
  intros H. apply bool_decide_eq_false_2. induction H as [|i d idx sh Hi _ IH].
  - apply not_elem_of_nil.
  - rewrite not_elem_of_cons. split; [lia|done].
Qed.

(** The largest address of a non-empty view is what the span loop computes. *)
Lemma span_fold_bound sh st idx n last :
  in_bounds idx sh → length st = length sh →
  try_fold span_step n (zip sh st) = Ok last → n + dot idx st ≤ last.
Proof.
  intros H. revert st n. induction H as [|i d idx sh Hi H IH]; intros st n Hlen Hf.
  - destruct st; simplify_eq/=. lia.
  - destruct st as [|s st]; [done|]. simplify_eq/=.
    apply res_bind_Ok in Hf as (n' & Hn' & Hf). unfold span_step in Hn'.
    apply or_else_Ok, bind_Some in Hn' as (sp & Hsp & Hn').
    apply checked_mul_Some in Hsp as [_ ->]. apply checked_add_Some in Hn' as [_ ->].
    apply IH in Hf; [|done]. simpl in Hf. assert (i * s ≤ (d - 1) * s); nia.
Qed.

Lemma span_bound v idx span :
  in_bounds idx (shape v) → length (strides v) = length (shape v) →
  storage_span_elements v = Ok span → address v idx < span.
Proof.
  intros Hin Hlen. unfold storage_span_elements. rewrite (in_bounds_no_zero _ _ Hin).
  intros (last & Hl & Hspan)%res_bind_Ok.
  apply or_else_Ok, checked_add_Some in Hspan as [_ ->].
  pose proof (span_fold_bound _ _ _ _ _ Hin Hlen Hl). unfold address. lia.
Qed.

Lemma dtype_storage_bytes_covers d n b :
  dtype_storage_bytes d n = Ok b → n * bits d ≤ 8 * b < n * bits d + 8.
Proof.
  intros (x & Hx & Hb)%res_bind_Ok. apply or_else_Ok, checked_mul_Some in Hx as [_ ->].
  injection Hb as <-. generalize (n * bits d). clear. intros x.
  destruct (div_mod_vars x 8) as (q & m & -> & -> & -> & Hm); [lia|].
  destruct (N.eqb_spec m 0); lia.
Qed.

Lemma volume_pos sh : has_zero sh = false → 0 < volume sh.
Proof.
  unfold has_zero. rewrite bool_decide_eq_false. induction sh as [|d sh IH]; simpl; [lia|].
  rewrite not_elem_of_cons. intros [? ?]. specialize (IH ltac:(done)). nia.
Qed.
Lemma volume_zero sh : has_zero sh = true → volume sh = 0.
Proof.
  unfold has_zero. rewrite bool_decide_eq_true. induction sh as [|d sh IH]; simpl.
  - by intros ?%not_elem_of_nil.
  - intros [<-|H]%elem_of_cons; [lia|]. rewrite (IH H). lia.
Qed.
Lemma has_zero_cons d sh : has_zero (d :: sh) = false → 0 < d ∧ has_zero sh = false.
Proof. unfold has_zero. rewrite !bool_decide_eq_false, not_elem_of_cons. intros []. split; [lia|done]. Qed.
Lemma volume_tail d sh : has_zero (d :: sh) = false → volume sh ≤ volume (d :: sh).
Proof. intros [? ?]%has_zero_cons. simpl. nia. Qed.

Lemma row_major_bound sh idx : in_bounds idx sh → row_major sh idx < volume sh.
Proof. induction 1 as [|i d idx sh Hi H IH]; simpl; [lia|]. nia. Qed.

(** A layout that passes the contiguity test addresses elements in row-major
    order; unit dimensions may carry any stride. *)
Lemma expected_stride_volume sh st e :
  length st = length sh → expected_stride (zip sh st) = Some e → e = volume sh.
Proof.
  revert st e. induction sh as [|d sh IH]; intros [|s st] e Hlen He; simplify_eq/=; [done|].
  apply bind_Some in He as (e' & He' & He). apply IH in He' as ->; [|done].
  destruct (_ && _); [done|]. apply checked_mul_Some in He as [_ ->]. lia.
Qed.
Lemma expected_stride_dot sh st e idx :
  in_bounds idx sh → length st = length sh → expected_stride (zip sh st) = Some e →
  dot idx st = row_major sh idx.
Proof.
  intros Hin. revert st e. induction Hin as [|i d idx sh Hi Hin IH]; intros [|s st] e Hlen He;
    simplify_eq/=; [done|].
  apply bind_Some in He as (e' & He' & He).
  rewrite (IH st e') by done. apply expected_stride_volume in He' as ->; [|done].
  destruct (N.ltb_spec 1 d); simpl in He; [|replace i with 0 by lia; lia].
  destruct (N.eqb_spec s (volume sh)); simplify_eq/=. lia.
Qed.

Lemma contiguous_strides_ok sh :
  has_zero sh = false → volume sh ≤ usize_max →
  ∃ st, contiguous_strides sh = Ok (st, volume sh) ∧ length st = length sh ∧
    expected_stride (zip sh st) = Some (volume sh).
Proof.
  induction sh as [|d sh IH]; intros Hz Hv; [by exists []|].
  pose proof (volume_tail _ _ Hz). apply has_zero_cons in Hz as [Hd Hz].
  destruct IH as (st & Hst & Hlen & He); [done|lia|].
  assert (checked_mul usize_max (volume sh) d = Some (volume (d :: sh))) as Hm.
  { apply checked_mul_Some. simpl in *. lia. }
  exists (volume sh :: st). simpl. rewrite Hst. simpl. rewrite Hm. simpl.
  split; [done|]. split; [lia|]. rewrite He. simpl.
  by rewrite N.eqb_refl, andb_false_r, Hm.
Qed.

Lemma elements_fold_ok sh n :
  n * volume sh ≤ usize_max → has_zero sh = false →
  try_fold (λ n d, or_else (checked_mul usize_max n d)
    (invalid "tensor element count overflow")) n sh = Ok (n * volume sh).
Proof.
  revert n. induction sh as [|d sh IH]; simpl; intros n Hn Hz; [f_equal; lia|].
  apply has_zero_cons in Hz as [Hd Hz]. pose proof (volume_pos _ Hz).
  rewrite (proj2 (checked_mul_Some _ n d (n * d))); simpl; [|split; [nia|done]].
  rewrite IH; [f_equal; lia|lia|done].
Qed.

(** The span of row-major strides: every partial sum is below the volume. *)
Lemma span_fold_contiguous sh st n :
  has_zero sh = false → contiguous_strides sh = Ok (st, volume sh) →
  n + volume sh ≤ usize_max + 1 →
  try_fold span_step n (zip sh st) = Ok (n + volume sh - 1).
Proof.
  revert st n. induction sh as [|d sh IH]; intros st n Hz Hst Hn.
  { simplify_eq/=. f_equal. lia. }
  apply has_zero_cons in Hz as [Hd Hz]. pose proof (volume_pos _ Hz).
  apply res_bind_Ok in Hst as ([st' v'] & Hst & Hst').
  apply res_bind_Ok in Hst' as (nx & Hnx & Hst'). simplify_eq/=.
  apply or_else_Ok, checked_mul_Some in Hnx as [_ Hnx].
  assert (v' = volume sh) as -> by nia.
  unfold span_step at 1. simpl.
  rewrite (proj2 (checked_mul_Some _ (d - 1) (volume sh) ((d - 1) * volume sh)));
    [|split; [nia|done]]. simpl.
  rewrite (proj2 (checked_add_Some _ n ((d - 1) * volume sh) (n + (d - 1) * volume sh)));
    [|split; [nia|done]]. simpl.
  rewrite IH; [|done|done|nia]. f_equal. nia.
Qed.

Lemma contiguous_ok sh :
  volume sh ≤ usize_max → has_zero sh = false →
  ∃ st, contiguous sh = Ok (mkLayout sh st 0) ∧ length st = length sh ∧
    expected_stride (zip sh st) = Some (volume sh).
Proof.
  intros Hv Hz. destruct (contiguous_strides_ok sh Hz Hv) as (st & Hst & Hlen & He).
  exists st. split; [|done]. unfold contiguous. rewrite Hz, Hst. simpl.
  unfold layout_new. unfold len at 1 2. rewrite Hlen, N.eqb_refl. simpl.
  pose proof (volume_pos _ Hz).
  unfold elements, storage_span_elements. simpl. rewrite Hz.
  rewrite (elements_fold_ok sh 1) by (done || lia). simpl.
  rewrite (span_fold_contiguous sh st 0) by (done || lia). simpl.
  by rewrite (proj2 (checked_add_Some _ _ 1 (volume sh))) by lia.
Qed.
Lemma contiguous_empty sh :
  has_zero sh = true → contiguous sh = Ok (mkLayout sh (replicate (length sh) 0) 0).
Proof.
  intros Hz. unfold contiguous. rewrite Hz. simpl. unfold layout_new, len.
  rewrite length_replicate, N.eqb_refl. simpl.
  unfold elements, storage_span_elements. simpl. by rewrite Hz.
Qed.

(** A view accepted by [validate_storage] never reads past its allocation:
    every multi-index in bounds addresses an element whose bits lie inside the
    available bytes. *)
Theorem validated_view_in_storage sh st off v d available idx :
  layout_new sh st off = Ok v → validate_storage v d available = Ok tt →
  in_bounds idx sh → (address v idx + 1) * bits d ≤ 8 * available.
Proof.
  unfold layout_new. destruct (N.eqb_spec (len sh) (len st)) as [Hlen|]; simpl; [|done].
  intros (? & _ & (? & _ & Hv)%res_bind_Ok)%res_bind_Ok. injection Hv as <-.
  unfold validate_storage, layout_storage_bytes.
  intros (need & (span & Hspan & Hb)%res_bind_Ok & Hn)%res_bind_Ok Hin.
  destruct (N.ltb_spec available need); [done|].
  pose proof (span_bound (mkLayout sh st off) _ _ Hin ltac:(unfold len in Hlen; simpl; lia) Hspan).
  pose proof (dtype_storage_bytes_covers _ _ _ Hb). nia.
Qed.

(** [contiguous] succeeds on every shape whose element count fits [usize];
    the layout passes [is_contiguous] and addresses elements in row-major order,
    below the element count. *)
Theorem contiguous_row_major sh :
  volume sh ≤ usize_max →
  ∃ v, contiguous sh = Ok v ∧ shape v = sh ∧ elements v = Ok (volume sh) ∧
    is_contiguous v = true ∧
    ∀ idx, in_bounds idx sh → address v idx = row_major sh idx ∧ address v idx < volume sh.
Proof.
  intros Hv. destruct (has_zero sh) eqn:Hz.
  - exists (mkLayout sh (replicate (length sh) 0) 0).
    pose proof (volume_zero _ Hz) as Hv0.
    unfold elements, is_contiguous. simpl. rewrite Hz, contiguous_empty, Hv0 by done.
    repeat split; try done; apply in_bounds_no_zero in H; congruence.
  - destruct (contiguous_ok sh Hv Hz) as (st & Hc & Hlen & He).
    exists (mkLayout sh st 0). unfold elements, is_contiguous. simpl.
    rewrite Hz, He, (elements_fold_ok sh 1) by (done || lia).
    split; [done|]. split; [done|]. split; [f_equal; lia|]. split; [done|].
    intros idx Hin. unfold address. simpl. rewrite (expected_stride_dot _ _ _ _ Hin Hlen He).
    split; [lia|]. rewrite N.add_0_l. by apply row_major_bound.
Qed.

Lemma validate_Ok c :
  validate c = Ok tt ↔
    0 < block_size c ∧ 0 < num_pages c ≤ u32_max ∧ 0 < max_sequence_length c.
Proof.
  unfold validate. destruct (N.eqb_spec (block_size c) 0), (N.eqb_spec (num_pages c) 0),
    (N.eqb_spec (max_sequence_length c) 0); simpl; try (split; [done|lia]).
  destruct (N.ltb_spec u32_max (num_pages c)); split; try done; lia.
Qed.

Lemma mul_fold_Ok max e l n r :
  try_fold (λ n d, or_else (checked_mul max n d) e) n l = Ok r → r = n * volume l.
Proof.
  revert n. induction l as [|d l IH]; simpl; intros n H; [injection H as <-; lia|].
  apply res_bind_Ok in H as (n' & [_ ->]%or_else_Ok%checked_mul_Some & ->%IH). lia.
Qed.

Lemma page_capacity_Ok g available workspace headroom n :
  page_capacity g available workspace headroom = Ok n →
  ∃ page, bytes_per_page g = Ok page ∧ 0 < tokens_per_page g ∧ 0 < n ≤ u32_max ∧
    workspace + headroom + n * page ≤ available ∧
    (n < u32_max → available < workspace + headroom + (n + 1) * page).
Proof.
  intros (page & Hpage & H)%res_bind_Ok. exists page. split; [done|].
  assert (0 < tokens_per_page g ∧ 0 < page) as [Ht Hp].
  { unfold bytes_per_page in Hpage. destruct (has_zero _) eqn:Hz; [done|].
    destruct (is_float (dtype g)) eqn:Hf; [|done].
    apply res_bind_Ok in Hpage as (n1 & ->%mul_fold_Ok & Hpage%dtype_storage_bytes_covers).
    pose proof (volume_pos _ Hz). do 4 apply has_zero_cons in Hz as [? Hz].
    split; [done|]. assert (0 < bits (dtype g)) by (by destruct (dtype g)). nia. }
  apply res_bind_Ok in H as (usable & Hu & H).
  apply or_else_Ok, bind_Some in Hu as (a & [? ->]%checked_sub_Some & [? ->]%checked_sub_Some).
  destruct (div_mod_vars (available - workspace - headroom) page Hp) as (q & m & Hq & _ & He & Hm).
  rewrite Hq in H. cbv zeta in H. destruct (N.eqb_spec q 0); [done|]. injection H as <-.
  split; [done|]. split; [unfold u32_max; lia|]. nia.
Qed.

(** C39. Sizing the cache from a memory budget yields a configuration the manager
    accepts, with the largest page count (up to the 32-bit page ids) that fits
    beside the workspace and the headroom. *)
Theorem from_memory_budget_fits g available workspace headroom max_seq c :
  from_memory_budget g available workspace headroom max_seq = Ok c →
  (∃ s, new c = Ok s) ∧ block_size c = tokens_per_page g ∧ max_sequence_length c = max_seq ∧
  ∃ page, bytes_per_page g = Ok page ∧
    workspace + headroom + num_pages c * page ≤ available ∧
    (num_pages c < u32_max → available < workspace + headroom + (num_pages c + 1) * page).
Proof.
  unfold from_memory_budget. destruct (page_capacity _ _ _ _) as [n| |] eqn:Hn; [|done|done].
  destruct (validate _) as [[]| |] eqn:Hval; [|done|done]. intros [= <-].
  destruct (page_capacity_Ok _ _ _ _ _ Hn) as (page & ? & _ & _ & ? & ?).
  split; [unfold new; rewrite Hval; simpl; by eexists|].
  split; [done|]. split; [done|]. by exists page.
Qed.

(** ** Interleavings of reservations and drops *)

(** The live reservations beside the shared state: a drop consumes one. *)
Inductive budget_reach (l : N) : BudgetState → list N → Prop :=
| budget_start capacity headroom s :
    budget_new capacity headroom = Ok s → limit s = l → budget_reach l s []
| budget_reserve s live bytes out s' :
    budget_reach l s live → try_reserve bytes s = (out, s') →
    budget_reach l s' (match out with Ok b => b :: live | _ => live end)
| budget_drop s live i b s' :
    budget_reach l s live → live !! i = Some b → drop_reservation b s = (Ok tt, s') →
    budget_reach l s' (delete i live).

Definition sum (l : list N) : N := foldr N.add 0 l.
Lemma sum_delete l i b : l !! i = Some b → sum l = b + sum (delete i l).
Proof.
  revert i. induction l as [|x l IH]; intros [|i] H; simplify_eq/=; [done|].
  rewrite (IH i) by done. lia.
Qed.

Lemma try_reserve_cases bytes s :
  try_reserve bytes s =
    if (0 <? bytes) && (reserved s + bytes <=? N.min u64_max (limit s))
    then (Ok bytes, mkBudget (limit s) (reserved s + bytes) (N.max (peak s) (reserved s + bytes)))
    else (Err (if bytes =? 0 then invalid "memory reservation must be nonzero"
               else mkRuntimeError OutOfMemory "logical device budget exhausted"), s).
Proof.
  unfold try_reserve, bind, gets, modify, ret, throw, checked_add.
  destruct (N.eqb_spec bytes 0), (N.ltb_spec 0 bytes); try lia; simpl; [done|].
  destruct (N.leb_spec (reserved s + bytes) u64_max), (N.leb_spec (reserved s + bytes) (limit s)),
    (N.leb_spec (reserved s + bytes) (N.min u64_max (limit s))); try lia; done.
Qed.

(** Under every interleaving of reservations and drops the reserved bytes
    are the sum of the live reservations, never above the limit (so no drop
    saturates), and the peak bounds them; a reservation succeeds exactly when it
    is non-zero and fits in what is left. *)
Theorem budget_accounting l s live :
  budget_reach l s live →
  limit s = l ∧ reserved s = sum live ∧ reserved s ≤ peak s ≤ l ∧
  ∀ bytes, bytes ≤ u64_max →
    (∃ s', try_reserve bytes s = (Ok bytes, s')) ↔
      0 < bytes ∧ sum live + bytes ≤ N.min u64_max l.
Proof.
  intros Hr. assert (limit s = l ∧ reserved s = sum live ∧ reserved s ≤ peak s ≤ l) as Hinv.
  { induction Hr as [c h s Hn <-|s live b out s' _ IH Ht|s live i b s' _ IH Hi Hd].
    - unfold budget_new in Hn. destruct (checked_sub c h); [|done].
      destruct (N.ltb_spec 0 n); [|done]. injection Hn as <-. simpl. lia.
    - rewrite try_reserve_cases in Ht. destruct (_ && _) eqn:Hb; simplify_eq; [|done].
      rewrite andb_true_iff, N.ltb_lt, N.leb_le in Hb. simpl. lia.
    - unfold drop_reservation, modify in Hd. simplify_eq. simpl. unfold saturating_sub.
      pose proof (sum_delete _ _ _ Hi). lia. }
  destruct Hinv as (Hl & Hs & Hp). split; [done|]. split; [done|]. split; [done|].
  intros bytes _. rewrite try_reserve_cases, Hs, Hl.
  destruct (N.ltb_spec 0 bytes), (N.leb_spec (sum live + bytes) (N.min u64_max l)); simpl;
    (split; [intros [s' ?]|intros ?]); try done; try lia. by eexists.
Qed.

(** ** Witnesses *)

Lemma validated_view_in_storage_witness : (address (mkLayout [2; 3] [3; 1] 1) [1; 2] + 1) * 16 ≤ 8 * 14.
Proof.
  apply (validated_view_in_storage [2; 3] [3; 1] 1 (mkLayout [2; 3] [3; 1] 1) F16 14 [1; 2]).
  - vm_compute. reflexivity.
  - vm_compute. reflexivity.
  - repeat constructor.
Defined.
Lemma contiguous_row_major_witness : ∃ v, contiguous [2; 3; 4] = Ok v ∧ is_contiguous v = true.
Proof.
  destruct (contiguous_row_major [2; 3; 4]) as (v & ? & _ & _ & ? & _); [by vm_compute|by exists v].
Defined.
Definition demo_geometry : KvMemoryGeometry := mkGeometry 2 4 8 16 F16.
Lemma from_memory_budget_fits_witness : 100 + 50 + 4 * 4096 ≤ 20000.
Proof.
  destruct (from_memory_budget_fits demo_geometry 20000 100 50 64 (mkConfig 16 4 64))
    as (_ & _ & _ & page & Hp & Hfit & _); [vm_compute; reflexivity|].
  vm_compute in Hp. injection Hp as <-. exact Hfit.
Defined.
Lemma budget_accounting_witness : reserved (mkBudget 90 30 70) = sum [30].
Proof.
  apply (budget_accounting 90 (mkBudget 90 30 70) [30]).
  apply (budget_drop 90 (mkBudget 90 70 70) [40; 30] 0 40); [|done|done].
  apply (budget_reserve 90 (mkBudget 90 30 30) [30] 40 (Ok 40)); [|done].
  apply (budget_reserve 90 (mkBudget 90 0 0) [] 30 (Ok 30)); [|done].
  by apply (budget_start 90 100 10).
Defined.
