(* ===== verification/Taint.v ===== *)
(** * Failed contents: byte-range taint and failure roots

    [ruda-runtime/src/runtime/memory_management/taint.rs] tracks, per
    allocation, which failure left which bytes unwritten;
    [ruda-runtime/src/runtime/memory_management/error_graph.rs] holds the failure
    roots those entries share.  A root is a shared object ([Arc<Root>]): the
    model keeps the roots in a store indexed by failure id, and a [Tainted] entry
    names its root.  Dropping an entry untags its root.

    The abstract view of a taint is [owner]: the failure that holds a byte. *)

From S2P Require Import Prelude.
Open Scope N_scope.

(** ** Ranges of bytes *)

(** [Range<u64>]: start and end. *)
Abbreviation Range := (N * N)%type (only parsing).

Definition range_is_empty (r : Range) : bool := r.2 <=? r.1.
Definition overlaps (a b : Range) : bool := N.max a.1 b.1 <? N.min a.2 b.2.

(** The scan of [ranges.retain]: [new] grows by every range it touches. *)
Fixpoint add_scan (new : Range) (held : list Range) : Range * list Range :=
  match held with
  | [] => (new, [])
  | h :: held =>
      if (h.1 <=? new.2) && (new.1 <=? h.2)
      then add_scan (N.min new.1 h.1, N.max new.2 h.2) held
      else
        let '(new', kept) := add_scan new held in (new', h :: kept)
  end.
(** [insert] at the first range that starts after [new] ends. *)
Fixpoint insert_before (new : Range) (held : list Range) : list Range :=
  match held with
  | [] => [new]
  | h :: held => if new.2 <? h.1 then new :: h :: held else h :: insert_before new held
  end.
Definition add (ranges : list Range) (new : Range) : list Range :=
  let '(new', kept) := add_scan new ranges in insert_before new' kept.

Fixpoint subtract (ranges : list Range) (cut : Range) : list Range :=
  match ranges with
  | [] => []
  | held :: ranges =>
      if negb (overlaps held cut) then held :: subtract ranges cut
      else
        let left := (held.1, N.min cut.1 held.2) in
        let right := (N.max cut.2 held.1, held.2) in
        match range_is_empty left, range_is_empty right with
        | true, true => subtract ranges cut
        | false, true => left :: subtract ranges cut
        | true, false => right :: subtract ranges cut
        | false, false => left :: right :: subtract ranges cut
        end
  end.

(** ** Failure roots *)

Record Skipped := mkSkipped { kernel : string; needed : N; produced : list N }.

(** [FailureId] is a positive 64-bit integer. *)
Record Root (SE : Type) := mkRoot {
  error : SE;
  claimed : N;
  skipped : list Skipped;
  skipped_total : N
}.
Arguments mkRoot {SE}.
Arguments error {SE}.
Arguments claimed {SE}.
Arguments skipped {SE}.
Arguments skipped_total {SE}.
Abbreviation Roots SE := (gmap N (Root SE)) (only parsing).

Definition MAX_SKIPPED : N := 16.

(** [ServerError::Unwritten] without its backtrace; a link of the chain names
    the skipped kernel and what it needed. *)
Record Report (SE : Type) := mkReport {
  report_failure : N;
  report_claimed : N;
  report_chain : list (string * N);
  report_dropped : option N;
  report_root : SE
}.
Arguments mkReport {SE}.
Arguments report_chain {SE}.

Section roots.
Context {P : Profile} {SE E : Type}.
Abbreviation Rt := (M (Roots SE) E).

Definition set_claimed (c : N) (r : Root SE) : Root SE :=
  mkRoot (error r) c (skipped r) (skipped_total r).

(** A root reached through an [Arc] exists. *)
Definition root (f : N) : Rt (Root SE) :=
  let! rs := gets (λ rs, rs) in expect (rs !! f).
Definition put_root (f : N) (r : Root SE) : Rt unit := modify (λ rs, <[f := r]> rs).

Definition tag (f : N) : Rt unit :=
  let! r := root f in
  let! c := expect (checked_add u32_max (claimed r) 1) in
  put_root f (set_claimed c r).
Definition untag (f : N) : Rt unit :=
  let! r := root f in
  let! _ := debug_assert (0 <? claimed r) in
  put_root f (set_claimed (saturating_sub (claimed r) 1) r).

(** [ErrorGraph::new]: [minted] is the static counter. *)
Definition mint (minted : N) (e : SE) : Rt N :=
  let! id := expect (checked_add u64_max minted 1) in
  let! _ := put_root id (mkRoot e 0 [] 0) in
  ret id.
Definition replace (f : N) (e : SE) : Rt unit :=
  let! r := root f in
  put_root f (mkRoot e (claimed r) (skipped r) (skipped_total r)).
Definition skipped_record (f : N) (record : Skipped) : Rt unit :=
  let! r := root f in
  let log := if len (skipped r) =? MAX_SKIPPED then tail (skipped r) else skipped r in
  put_root f (mkRoot (error r) (claimed r) (log ++ [record])
    (saturating_add u64_max (skipped_total r) 1)).
End roots.

(** [iter().rposition(..)]: the last index satisfying the test. *)
Fixpoint rposition {A} (f : A → bool) (l : list A) : option nat :=
  match l with
  | [] => None
  | x :: l =>
      match rposition f l with
      | Some i => Some (S i)
      | None => if f x then Some O else None
      end
  end.

(** The walk of [report]: each record found lies strictly before the previous
    one, so [length records] steps are enough. *)
Fixpoint walk (fuel : nat) (records : list Skipped) (target : N) : list (string * N) :=
  match fuel with
  | O => []
  | S fuel =>
      match rposition (λ r, bool_decide (target ∈ produced r)) records with
      | None => []
      | Some i =>
          match records !! i with
          | None => []
          | Some r => (kernel r, needed r) :: walk fuel (take i records) (needed r)
          end
      end
  end.
Definition report {SE} (f : N) (r : Root SE) (memory : N) : Report SE :=
  let chain := walk (length (skipped r)) (skipped r) memory in
  let dropped := saturating_sub (skipped_total r) (len (skipped r)) in
  mkReport f (claimed r) chain
    (match chain with [] => None | _ => if 0 <? dropped then Some dropped else None end)
    (error r).

(** ** Taint of one allocation *)

Record Tainted := mkTainted {
  failure : N;
  ranges : list Range;
  unallocated : bool
}.
Abbreviation Taint := (list Tainted) (only parsing).

Section taint.
Context {P : Profile} {SE E : Type}.
Abbreviation Rt := (M (Roots SE) E).

(** [entries.retain_mut(f)]: a removed entry is dropped, which untags its root. *)
Fixpoint retain_mut (f : Tainted → Tainted * bool) (t : Taint) : Rt Taint :=
  match t with
  | [] => ret []
  | e :: t =>
      let '(e', keep) := f e in
      let! _ := when (negb keep) (untag (failure e')) in
      let! t' := retain_mut f t in
      ret (if keep then e' :: t' else t')
  end.
(** [entries.clear()], and the drop of a whole taint. *)
Definition clear (t : Taint) : Rt unit := for_each t (λ e, untag (failure e)).

Definition holds_any (e : Tainted) : bool := negb (match ranges e with [] => true | _ => false end).

Definition claim (range : Range) (f : N) (t : Taint) : Rt Taint :=
  if range_is_empty range then ret t
  else
    let! t' := retain_mut (λ e,
      let e' := if negb (failure e =? f)
                then mkTainted (failure e) (subtract (ranges e) range) (unallocated e) else e in
      (e', unallocated e' || holds_any e')) t in
    match list_find (λ e, failure e = f) t' with
    | Some (i, e) =>
        ret (<[i := mkTainted (failure e) (add (ranges e) range) (unallocated e)]> t')
    | None =>
        let! _ := tag f in
        ret (t' ++ [mkTainted f [range] false])
    end.

Definition claim_unallocated (f : N) (t : Taint) : Rt Taint :=
  let! _ := clear t in
  let! _ := tag f in
  ret [mkTainted f [] true].

Definition clear_unallocated (t : Taint) : Rt Taint :=
  retain_mut (λ e,
    let e' := mkTainted (failure e) (ranges e) false in (e', holds_any e')) t.

Definition failures (t : Taint) (range : Range) : list N :=
  failure <$> filter (λ e, unallocated e || existsb (λ held, overlaps held range) (ranges e)) t.

Definition written (range : Range) (t : Taint) : Rt Taint :=
  if range_is_empty range then ret t
  else retain_mut (λ e,
    let e' := mkTainted (failure e) (subtract (ranges e) range) (unallocated e) in
    (e', unallocated e' || holds_any e')) t.

Definition release (range : Range) (f : N) (t : Taint) : Rt Taint :=
  retain_mut (λ e,
    let e' := if failure e =? f
              then mkTainted (failure e) (subtract (ranges e) range) false else e in
    (e', unallocated e' || holds_any e')) t.
End taint.
