(* ===== verification/TaintProps.v ===== *)
(** * Properties of the taint of an allocation

    Range arithmetic against the bytes it covers, the invariant of a taint
    (one entry per failure, disjoint canonical ranges), its abstract view
    [owner], and the ledger between entries and the claim counts of the roots. *)

From S2P Require Import Prelude Taint.
Open Scope N_scope.

(** ** Bytes covered by ranges *)

Definition in_range (b : N) (r : N * N) : bool := (r.1 <=? b) && (b <? r.2).
Definition covers (rs : list (N * N)) (b : N) : bool := existsb (in_range b) rs.
Definition before (x y : N * N) : Prop := x.2 < y.1.
(** Ordered, non-empty, and neither overlapping nor adjacent. *)
Definition canonical (rs : list (N * N)) : Prop :=
  StronglySorted before rs ∧ Forall (λ r, r.1 < r.2) rs.

Arguments in_range : simpl never.
Arguments covers : simpl never.
Arguments overlaps : simpl never.

Lemma in_range_true b r : in_range b r = true ↔ r.1 ≤ b < r.2.
Proof. unfold in_range. rewrite andb_true_iff, N.leb_le, N.ltb_lt. done. Qed.
Lemma bool_iff (x y : bool) : (x = true ↔ y = true) → x = y.
Proof. destruct x, y; naive_solver. Qed.
Lemma covers_cons r rs b : covers (r :: rs) b = in_range b r || covers rs b.
Proof. done. Qed.
Lemma covers_true rs b : covers rs b = true ↔ ∃ r, r ∈ rs ∧ r.1 ≤ b < r.2.
Proof.
  unfold covers. rewrite existsb_exists. setoid_rewrite in_range_true.
  by setoid_rewrite list_elem_of_In.
Qed.

Lemma overlaps_true x y : overlaps x y = true ↔ x.1 < x.2 ∧ y.1 < y.2 ∧ x.1 < y.2 ∧ y.1 < x.2.
Proof. unfold overlaps. rewrite N.ltb_lt. lia. Qed.

(** Subtracting removes exactly the bytes of the cut. *)
Lemma subtract_piece held cut b :
  overlaps held cut = true →
  in_range b held && negb (in_range b cut) =
    in_range b (held.1, N.min cut.1 held.2) || in_range b (N.max cut.2 held.1, held.2).
Proof.
  intros H%overlaps_true. apply bool_iff.
  rewrite andb_true_iff, negb_true_iff, orb_true_iff, <-not_true_iff_false, !in_range_true.
  simpl. lia.
Qed.
Lemma empty_in_range r b : range_is_empty r = true → in_range b r = false.
Proof.
  unfold range_is_empty. rewrite N.leb_le, <-not_true_iff_false, in_range_true. lia.
Qed.
Lemma range_nonempty r : range_is_empty r = false ↔ r.1 < r.2.
Proof. apply N.leb_gt. Qed.
Lemma subtract_covers rs cut b :
  covers (subtract rs cut) b = covers rs b && negb (in_range b cut).
Proof.
  induction rs as [|held rs IH]; [done|]. rewrite covers_cons. simpl.
  destruct (overlaps held cut) eqn:Ho; simpl.
  - pose proof (subtract_piece held cut b Ho) as Hp.
    rewrite andb_orb_distrib_l, Hp, <-IH.
    destruct (range_is_empty (_, N.min _ _)) eqn:Hl, (range_is_empty (N.max _ _, _)) eqn:Hr;
      rewrite ?covers_cons, ?(empty_in_range _ b Hl), ?(empty_in_range _ b Hr), ?orb_false_r,
        ?orb_assoc; done.
  - rewrite covers_cons, IH, andb_orb_distrib_l. f_equal. apply bool_iff.
    rewrite andb_true_iff, negb_true_iff, <-(not_true_iff_false (in_range b cut)), !in_range_true.
    rewrite <-not_true_iff_false, overlaps_true in Ho. lia.
Qed.

Lemma subtract_within rs cut x :
  x ∈ subtract rs cut → ∃ r, r ∈ rs ∧ r.1 ≤ x.1 ∧ x.2 ≤ r.2.
Proof.
  induction rs as [|held rs IH]; simpl; [by intros ?%elem_of_nil|].
  assert (∀ y : N * N, x = y → held.1 ≤ y.1 → y.2 ≤ held.2 →
    ∃ r, r ∈ held :: rs ∧ r.1 ≤ x.1 ∧ x.2 ≤ r.2) as Hhere.
  { intros y -> ? ?. exists held. split; [by left|done]. }
  assert (x ∈ subtract rs cut → ∃ r, r ∈ held :: rs ∧ r.1 ≤ x.1 ∧ x.2 ≤ r.2) as Hrest.
  { intros (r & ? & ?)%IH. exists r. split; [by right|done]. }
  destruct (negb _); [rewrite elem_of_cons; intros [Hx|Hx]; [by apply (Hhere held)|auto]|].
  destruct (range_is_empty _), (range_is_empty _); rewrite ?elem_of_cons;
    intros Hx; destruct_or? Hx; auto; apply (Hhere _ Hx); simpl; lia.
Qed.

Lemma canonical_nil : canonical [].
Proof. split; constructor. Qed.
Lemma canonical_cons r rs :
  canonical (r :: rs) ↔ r.1 < r.2 ∧ Forall (before r) rs ∧ canonical rs.
Proof.
  unfold canonical. split.
  - intros [Hs Hf]. inversion Hs; inversion Hf; subst. done.
  - intros (? & ? & ? & ?). split; by constructor.
Qed.
Lemma canonical_cons_within r r' rs rs' :
  canonical (r :: rs) → r'.1 < r'.2 → r'.2 ≤ r.2 → canonical rs' →
  (∀ x, x ∈ rs' → ∃ y, y ∈ rs ∧ y.1 ≤ x.1 ∧ x.2 ≤ y.2) → canonical (r' :: rs').
Proof.
  rewrite !canonical_cons. intros (? & Hb & ?) ? ? ? Hin. split; [done|]. split; [|done].
  rewrite Forall_forall in Hb |- *. intros x (y & Hy & ?)%Hin. specialize (Hb y Hy).
  unfold before in *. lia.
Qed.
Lemma subtract_canonical rs cut : canonical rs → canonical (subtract rs cut).
Proof.
  induction rs as [|held rs IH]; [done|]. intros Hc. simpl.
  pose proof Hc as (Hne & Hb & Hc')%canonical_cons. specialize (IH Hc').
  assert (∀ x, x ∈ subtract rs cut → ∃ y, y ∈ rs ∧ y.1 ≤ x.1 ∧ x.2 ≤ y.2) as Hin
    by apply subtract_within.
  destruct (overlaps held cut) eqn:Ho; simpl;
    [|by apply (canonical_cons_within held held rs)].
  apply overlaps_true in Ho.
  destruct (range_is_empty (_, N.min _ _)) eqn:Hl, (range_is_empty (N.max _ _, _)) eqn:Hr;
    try apply range_nonempty in Hl; try apply range_nonempty in Hr; simpl in Hl, Hr;
    [done| | |].
  - apply (canonical_cons_within held _ rs); simpl; [done|lia|lia|done|done].
  - apply (canonical_cons_within held _ rs); simpl; [done|lia|lia|done|done].
  - assert (canonical ((cut.2 `max` held.1, held.2) :: subtract rs cut)) as Hright
      by (apply (canonical_cons_within held _ rs); simpl; [done|lia|lia|done|done]).
    apply canonical_cons. split; [simpl; lia|]. split; [|done].
    constructor; [unfold before; simpl; lia|].
    apply canonical_cons in Hright as (_ & Hf & _).
    eapply Forall_impl; [exact Hf|]. unfold before. simpl. intros x Hx. lia.
Qed.

(** Adding covers exactly the bytes of the new range besides. *)
Lemma add_scan_covers new held new' kept b :
  new.1 < new.2 → Forall (λ r, r.1 < r.2) held → add_scan new held = (new', kept) →
  in_range b new' || covers kept b = in_range b new || covers held b.
Proof.
  intros Hn Hf. revert new new' kept Hn. induction Hf as [|h held Hh Hf IH]; simpl;
    intros new new' kept Hn Heq; [by simplify_eq|].
  destruct (_ && _) eqn:Ht.
  - rewrite andb_true_iff, !N.leb_le in Ht. apply IH in Heq; [|simpl; lia].
    rewrite Heq, covers_cons, orb_assoc. f_equal. apply bool_iff.
    rewrite orb_true_iff, !in_range_true. simpl. lia.
  - destruct (add_scan new held) as [n k] eqn:Hs. simplify_eq.
    rewrite !covers_cons. specialize (IH _ _ _ Hn Hs).
    destruct (in_range b h); rewrite ?orb_true_r; [done|]. by rewrite !orb_false_l.
Qed.
Lemma add_scan_lower lo new held :
  lo < new.1 → Forall (λ h, lo < h.1) held → lo < (add_scan new held).1.1.
Proof.
  intros Hn Hf. revert new Hn. induction Hf as [|h held Hh Hf IH]; simpl; intros new Hn; [done|].
  destruct (_ && _); [apply IH; simpl; lia|].
  specialize (IH new Hn). by destruct (add_scan new held).
Qed.
Lemma add_scan_above new held :
  Forall (λ h, new.2 < h.1) held → add_scan new held = (new, held).
Proof.
  induction 1 as [|h held Hh Hf IH]; simpl; [done|].
  destruct (N.leb_spec h.1 new.2); [lia|]. simpl. by rewrite IH.
Qed.
Lemma add_scan_spec new held new' kept :
  new.1 < new.2 → canonical held → add_scan new held = (new', kept) →
  new'.1 < new'.2 ∧ canonical kept ∧ Forall (λ h, h.2 < new'.1 ∨ new'.2 < h.1) kept ∧
  (∀ x, x ∈ kept → x ∈ held).
Proof.
  revert new new' kept. induction held as [|h held IH]; simpl; intros new new' kept Hn Hc Heq.
  { simplify_eq. done. }
  apply canonical_cons in Hc as (Hh & Hb & Hc). destruct (_ && _) eqn:Ht.
  - apply IH in Heq as (? & ? & ? & Hin); [|simpl; lia|done].
    do 3 (split; [done|]). intros x Hx. right. by apply Hin.
  - destruct (add_scan new held) as [n k] eqn:Hs. simplify_eq.
    destruct (IH _ _ _ Hn Hc Hs) as (Hn' & Hk & Hsep & Hin).
    split; [done|]. split; [|split].
    + apply canonical_cons. split; [done|]. split; [|done].
      rewrite Forall_forall in Hb |- *. auto.
    + constructor; [|done].
      rewrite andb_false_iff, !N.leb_gt in Ht. destruct Ht as [Ht|Ht]; [right|left].
      * rewrite (add_scan_above new held) in Hs; [by simplify_eq|].
        eapply Forall_impl; [exact Hb|]. unfold before. simpl. intros. lia.
      * replace new' with (add_scan new held).1 by (by rewrite Hs).
        by apply add_scan_lower.
    + intros x [->|Hx]%elem_of_cons; [by left|]. right. by apply Hin.
Qed.

Lemma insert_before_perm new held : insert_before new held ≡ₚ new :: held.
Proof.
  induction held as [|h held IH]; simpl; [done|]. destruct (_ <? _); [done|].
  rewrite IH. constructor.
Qed.
Lemma covers_perm l k b : l ≡ₚ k → covers l b = covers k b.
Proof.
  intros H. apply bool_iff. rewrite !covers_true. by setoid_rewrite H.
Qed.
Lemma insert_before_canonical new held :
  new.1 < new.2 → canonical held → Forall (λ h, h.2 < new.1 ∨ new.2 < h.1) held →
  canonical (insert_before new held).
Proof.
  intros Hn. induction held as [|h held IH]; intros Hc Hf; simpl.
  { apply canonical_cons. done. }
  pose proof Hc as (Hh & Hb & Hc')%canonical_cons. inversion_clear Hf as [|?? Hs Hf'].
  destruct (N.ltb_spec new.2 h.1).
  - apply canonical_cons. split; [done|]. split; [|done].
    constructor; [done|]. eapply Forall_impl; [exact Hb|]. unfold before. intros. lia.
  - apply canonical_cons. split; [done|]. split; [|by apply IH].
    rewrite insert_before_perm. constructor; [unfold before; lia|done].
Qed.

Lemma add_canonical rs new : new.1 < new.2 → canonical rs → canonical (add rs new).
Proof.
  intros Hn Hc. unfold add. destruct (add_scan new rs) as [n k] eqn:Hs.
  destruct (add_scan_spec _ _ _ _ Hn Hc Hs) as (? & ? & ? & _).
  by apply insert_before_canonical.
Qed.
Lemma add_covers rs new b :
  new.1 < new.2 → canonical rs → covers (add rs new) b = covers rs b || in_range b new.
Proof.
  intros Hn Hc. unfold add. destruct (add_scan new rs) as [n k] eqn:Hs.
  rewrite (covers_perm _ _ _ (insert_before_perm n k)), covers_cons.
  rewrite (add_scan_covers _ _ _ _ _ Hn (proj2 Hc) Hs). apply orb_comm.
Qed.
Lemma canonical_covers rs : canonical rs → rs ≠ [] → ∃ b, covers rs b = true.
Proof.
  destruct rs as [|r rs]; [done|]. intros (? & _)%canonical_cons _. exists r.1.
  apply covers_true. exists r. split; [by left|lia].
Qed.

(** ** Ledger: claim counts against the entries that carry a failure *)

Section ledger.
Context {P : Profile} {SE E : Type}.
Implicit Types (rs : gmap N (Root SE)) (l k : list N).

Definition claimed_of rs (f : N) : N := from_option claimed 0 (rs !! f).
(** Only claim counts move: by the entries [l] removed and [k] added. *)
Definition moved rs rs' l k : Prop :=
  set_claimed 0 <$> rs' = set_claimed 0 <$> rs ∧
  ∀ f, claimed_of rs' f + occ f l = claimed_of rs f + occ f k.
Definition backed rs l : Prop := ∀ f, occ f l ≤ claimed_of rs f.

Lemma moved_refl rs l : moved rs rs l l.
Proof. done. Qed.
Lemma moved_trans rs1 rs2 rs3 l1 k1 l2 k2 :
  moved rs1 rs2 l1 k1 → moved rs2 rs3 l2 k2 → moved rs1 rs3 (l1 ++ l2) (k1 ++ k2).
Proof.
  intros [Hm1 H1] [Hm2 H2]. split; [congruence|]. intros f. rewrite !occ_app.
  specialize (H1 f). specialize (H2 f). lia.
Qed.
Lemma backed_cons rs f l : backed rs (f :: l) → backed rs l.
Proof. intros H g. specialize (H g). rewrite occ_cons in H. lia. Qed.
Lemma backed_root rs f l : backed rs l → f ∈ l → ∃ r, rs !! f = Some r ∧ 0 < claimed r.
Proof.
  intros H Hf%occ_pos. specialize (H f). unfold claimed_of in H.
  destruct (rs !! f) as [r|]; simpl in H; [|lia]. exists r. split; [done|lia].
Qed.

Lemma put_claimed_moved rs f r c l k :
  rs !! f = Some r → (∀ g, g ≠ f → occ g l = occ g k) →
  c + occ f l = claimed r + occ f k → moved rs (<[f := set_claimed c r]> rs) l k.
Proof.
  intros Hr Hg Hc. split.
  - rewrite fmap_insert. apply insert_id. by rewrite lookup_fmap, Hr.
  - intros g. unfold claimed_of. destruct (decide (g = f)) as [->|Hne].
    + by rewrite lookup_insert_eq, Hr.
    + rewrite lookup_insert_ne by done. by rewrite Hg.
Qed.
Lemma occ_single f g : occ g [f] = if decide (g = f) then 1 else 0.
Proof. rewrite occ_cons, occ_nil. lia. Qed.

Lemma untag_spec rs f :
  backed rs [f] → wp (E:=E) (untag f) rs (λ _ rs', moved rs rs' [f] []) (λ _ _, False).
Proof.
  intros Hb. destruct (backed_root _ f _ Hb) as (r & Hr & Hpos); [by left|].
  unfold untag, root, put_root. wp_steps. rewrite Hr. wp_steps.
  apply wp_debug_assert; [by apply N.ltb_lt|]. wp_steps.
  apply put_claimed_moved; [done| |].
  - intros g Hg. rewrite occ_single, decide_False by done. done.
  - rewrite occ_single, decide_True, occ_nil by done. unfold saturating_sub. lia.
Qed.
Lemma tag_spec rs f r :
  rs !! f = Some r → claimed r < u32_max →
  wp (E:=E) (tag f) rs (λ _ rs', moved rs rs' [] [f]) (λ _ _, False).
Proof.
  intros Hr Hc. unfold tag, root, put_root, checked_add. wp_steps. rewrite Hr. wp_steps.
  rewrite (proj2 (N.leb_le _ _)) by lia. wp_steps. apply put_claimed_moved; [done| |].
  - intros g Hg. rewrite occ_single, decide_False by done. done.
  - rewrite occ_single, decide_True, occ_nil by done. lia.
Qed.

Lemma moved_room rs rs' l k f r :
  moved rs rs' l k → rs !! f = Some r → claimed r < u32_max → f ∉ k →
  ∃ r', rs' !! f = Some r' ∧ claimed r' < u32_max.
Proof.
  intros [Hmeta Hcount] Hr Hc Hk. apply (f_equal (.!! f)) in Hmeta.
  rewrite !lookup_fmap, Hr in Hmeta. apply fmap_Some in Hmeta as (r' & Hr' & _).
  exists r'. split; [done|]. specialize (Hcount f). unfold claimed_of in Hcount.
  rewrite Hr, Hr' in Hcount. simpl in Hcount.
  assert (¬ 0 < occ f k) by by rewrite occ_pos. lia.
Qed.
Lemma backed_moved rs rs' l k m : moved rs rs' l k → backed rs (l ++ m) → backed rs' (k ++ m).
Proof.
  intros [_ Hm] Hb f. specialize (Hm f). specialize (Hb f). rewrite occ_app in *. lia.
Qed.

Definition retain (f : Tainted → Tainted * bool) (t : list Tainted) : list Tainted :=
  omap (λ e, if (f e).2 then Some (f e).1 else None) t.

Lemma retain_mut_spec f t rs :
  (∀ e, failure (f e).1 = failure e) → backed rs (failure <$> t) →
  wp (E:=E) (retain_mut f t) rs
    (λ t' rs', t' = retain f t ∧ moved rs rs' (failure <$> t) (failure <$> t')) (λ _ _, False).
Proof.
  intros Hf. revert rs. induction t as [|e t IH]; intros rs Hb; simpl; [done|].
  specialize (Hf e) as He. destruct (f e) as [e' keep]. simpl in *.
  apply wp_bind. apply wp_mono with (Q := λ _ rs',
    moved rs rs' [failure e] (if keep then [failure e] else [])).
  - destruct keep; simpl; [apply wp_ret, moved_refl|]. rewrite He. apply untag_spec.
    intros g. specialize (Hb g). rewrite occ_cons in Hb. rewrite occ_single. lia.
  - intros _ rs1 Hm1. apply wp_bind. eapply wp_mono.
    + apply IH. apply (backed_moved _ _ _ _ (failure <$> t) Hm1) in Hb.
      destruct keep; [by apply backed_cons in Hb|done].
    + simpl. intros t' rs2 [-> Hm2]. apply wp_ret. split; [by destruct keep|].
      pose proof (moved_trans _ _ _ _ _ _ _ Hm1 Hm2) as Hm. destruct keep; [|done].
      simpl in *. by rewrite He.
Qed.

Lemma clear_spec t rs :
  backed rs (failure <$> t) →
  wp (E:=E) (clear t) rs (λ _ rs', moved rs rs' (failure <$> t) []) (λ _ _, False).
Proof.
  unfold clear. revert rs. induction t as [|e t IH]; intros rs Hb; simpl; [done|].
  apply wp_bind. eapply wp_mono.
  - apply untag_spec. intros g. specialize (Hb g). simpl in Hb. rewrite occ_cons in Hb.
    rewrite occ_single. lia.
  - intros ? rs1 Hm1. eapply wp_mono; [apply IH|].
    + exact (backed_moved _ _ _ _ (failure <$> t) Hm1 Hb).
    + intros ? rs2 Hm2. exact (moved_trans _ _ _ _ _ _ _ Hm1 Hm2).
Qed.
End ledger.

(** ** The invariant of a taint and its abstract view *)

Definition holds (e : Tainted) (b : N) : bool := covers (ranges e) b.
Definition entry_ok (e : Tainted) : Prop :=
  canonical (ranges e) ∧ (unallocated e || holds_any e) = true.
Definition taint_ok (t : list Tainted) : Prop :=
  NoDup (failure <$> t) ∧ Forall entry_ok t ∧
  ∀ e e' b, e ∈ t → e' ∈ t → holds e b = true → holds e' b = true → e = e'.

(** The failure that holds a byte. *)
Definition owner (t : list Tainted) (b : N) : option N :=
  failure <$> (list_find (λ e, holds e b = true) t ≫= λ ie, Some ie.2).

Lemma owner_Some t b f :
  taint_ok t → owner t b = Some f ↔ ∃ e, e ∈ t ∧ failure e = f ∧ holds e b = true.
Proof.
  intros (_ & _ & Hdis). unfold owner. split.
  - intros (e & He & ->)%fmap_Some. apply bind_Some in He as ([i e'] & Hf & [= <-]).
    apply list_find_Some in Hf as (Hi & Hb & _). exists e'. split; [|done].
    by eapply list_elem_of_lookup_2.
  - intros (e & He & <- & Hb).
    destruct (list_find_elem_of (λ e, holds e b = true) t e He Hb) as [[i e'] Hf].
    rewrite Hf. simpl. apply list_find_Some in Hf as (Hi%list_elem_of_lookup_2 & Hb' & _).
    by rewrite (Hdis e e' b).
Qed.
Lemma taint_failure_inj t e e' :
  taint_ok t → e ∈ t → e' ∈ t → failure e = failure e' → e = e'.
Proof.
  intros [Hnd _]. clear -Hnd. induction t as [|x t IH]; [by intros ?%elem_of_nil|].
  inversion_clear Hnd as [|? ? Hx Hnd']. rewrite !elem_of_cons.
  intros [->|He] [->|He'] Heq; [done| | |by apply IH]; exfalso; apply Hx;
    apply list_elem_of_fmap; eauto.
Qed.

(** What a retaining operation may do: entries keep their failure, keep
    canonical ranges, and hold only bytes they already held. *)
Definition shrinking (f : Tainted → Tainted * bool) : Prop :=
  ∀ e, entry_ok e → failure (f e).1 = failure e ∧ canonical (ranges (f e).1) ∧
    (∀ b, holds (f e).1 b = true → holds e b = true) ∧
    (f e).2 = (unallocated (f e).1 || holds_any (f e).1).

Lemma elem_of_retain f t e' :
  e' ∈ retain f t ↔ ∃ e, e ∈ t ∧ (f e).2 = true ∧ e' = (f e).1.
Proof.
  unfold retain. rewrite list_elem_of_omap. split; intros (e & He & H); exists e.
  - destruct (f e).2; simplify_eq. done.
  - destruct H as [-> ->]. done.
Qed.
Lemma retain_failures f t :
  shrinking f → Forall entry_ok t →
  failure <$> retain f t `sublist_of` failure <$> t.
Proof.
  intros Hs Hok. induction Hok as [|e t He Hok IH]; simpl; [done|].
  destruct (Hs e He) as (Hf & _). destruct (f e).2; simpl; [rewrite Hf; by constructor|by constructor].
Qed.
Lemma retain_ok f t : shrinking f → taint_ok t → taint_ok (retain f t).
Proof.
  intros Hs (Hnd & Hok & Hdis). split; [|split].
  - eapply sublist_NoDup; [exact Hnd|by apply retain_failures].
  - apply Forall_forall. intros e' (e & He & Hk & ->)%elem_of_retain.
    rewrite Forall_forall in Hok. destruct (Hs e (Hok e He)) as (_ & Hc & _ & Hk').
    split; [done|]. by rewrite <-Hk', Hk.
  - intros e1' e2' b (e1 & He1 & _ & ->)%elem_of_retain (e2 & He2 & _ & ->)%elem_of_retain H1 H2.
    rewrite Forall_forall in Hok.
    destruct (Hs e1 (Hok e1 He1)) as (_ & _ & Hb1 & _), (Hs e2 (Hok e2 He2)) as (_ & _ & Hb2 & _).
    by rewrite (Hdis e1 e2 b); auto.
Qed.
(** A byte of a kept entry keeps it alive, so retaining acts byte by byte. *)
Lemma retain_owner f t b g :
  shrinking f → taint_ok t →
  owner (retain f t) b = Some g ↔ ∃ e, e ∈ t ∧ failure e = g ∧ holds (f e).1 b = true.
Proof.
  intros Hs Hok. rewrite owner_Some by (by apply retain_ok). destruct Hok as (_ & Hok & _).
  rewrite Forall_forall in Hok. split.
  - intros (e' & (e & He & Hk & ->)%elem_of_retain & <- & Hb). exists e.
    destruct (Hs e (Hok e He)) as (-> & _). done.
  - intros (e & He & <- & Hb). destruct (Hs e (Hok e He)) as (Hf & _ & _ & Hk).
    exists (f e).1. split; [|done]. apply elem_of_retain. exists e. split; [done|].
    split; [|done]. rewrite Hk. unfold holds_any. unfold holds, covers in Hb.
    destruct (ranges (f e).1); [done|]. by rewrite orb_true_r.
Qed.

(** ** The operations refine an abstract byte map

    [Claim] and the others are the mutating methods of [Taint]; the abstract
    state is the owner of each byte and the failures that taint the allocation
    as a whole (claimed before it had a location). *)

Inductive taint_op :=
| Claim (range : N * N) (f : N)
| ClaimUnallocated (f : N)
| ClearUnallocated
| Written (range : N * N)
| Release (range : N * N) (f : N).

Definition flagged (t : list Tainted) (f : N) : Prop :=
  ∃ e, e ∈ t ∧ failure e = f ∧ unallocated e = true.

Definition abs_owner (o : taint_op) (own : N → option N) (b : N) : option N :=
  match o with
  | Claim r f => if in_range b r then Some f else own b
  | ClaimUnallocated _ => None
  | ClearUnallocated => own b
  | Written r => if in_range b r then None else own b
  | Release r f => if in_range b r && bool_decide (own b = Some f) then None else own b
  end.
Definition abs_flagged (o : taint_op) (fl : N → Prop) (g : N) : Prop :=
  match o with
  | Claim _ _ | Written _ => fl g
  | ClaimUnallocated f => g = f
  | ClearUnallocated => False
  | Release _ f => fl g ∧ g ≠ f
  end.

Section taint_ops.
Context {P : Profile} {SE E : Type}.
Abbreviation Rt := (M (gmap N (Root SE)) E).

Implicit Types (rs : gmap N (Root SE)) (t : list Tainted).

Definition run_taint (o : taint_op) (t : list Tainted) : Rt (list Tainted) :=
  match o with
  | Claim r f => claim r f t
  | ClaimUnallocated f => claim_unallocated f t
  | ClearUnallocated => clear_unallocated t
  | Written r => written r t
  | Release r f => release r f t
  end.

(** The claiming failure is alive and its 32-bit claim count has room. *)
Definition taint_room (rs : gmap N (Root SE)) (o : taint_op) : Prop :=
  match o with
  | Claim _ f | ClaimUnallocated f => ∃ r, rs !! f = Some r ∧ claimed r < u32_max
  | _ => True
  end.

Definition refined (o : taint_op) (t t' : list Tainted) : Prop :=
  (∀ b, owner t' b = abs_owner o (owner t) b) ∧ ∀ g, flagged t' g ↔ abs_flagged o (flagged t) g.

Lemma in_range_empty r b : range_is_empty r = true → in_range b r = false.
Proof. apply empty_in_range. Qed.

Lemma owner_None t b :
  taint_ok t → owner t b = None ↔ ∀ e, e ∈ t → holds e b = false.
Proof.
  intros Hok. split.
  - intros Hn e He. destruct (holds e b) eqn:Hb; [|done].
    assert (owner t b = Some (failure e)) by (apply owner_Some; eauto). congruence.
  - intros Hn. destruct (owner t b) as [f|] eqn:Ho; [|done].
    apply owner_Some in Ho as (e & He & _ & Hb); [|done]. by rewrite Hn in Hb.
Qed.
Lemma owner_ext (t' : list Tainted) b (own : option N) :
  (∀ g, owner t' b = Some g ↔ own = Some g) → owner t' b = own.
Proof. intros H. destruct (owner t' b) as [g|], own as [g'|]; naive_solver. Qed.

(** Each entry loses the bytes of [cut] when [sel] selects it, and its flag when
    [unflag] does. *)
Definition trim (sel : N → bool) (cut : N * N) (unflag : N → bool) (e : Tainted) : Tainted * bool :=
  let e' := mkTainted (failure e) (if sel (failure e) then subtract (ranges e) cut else ranges e)
              (if unflag (failure e) then false else unallocated e) in
  (e', unallocated e' || holds_any e').

Lemma trim_shrinking sel cut unflag : shrinking (trim sel cut unflag).
Proof.
  intros e [Hc _]. split; [done|]. simpl. split; [|split].
  - destruct (sel _); [by apply subtract_canonical|done].
  - intros b. unfold holds. simpl. destruct (sel _); [|done].
    rewrite subtract_covers, andb_true_iff. naive_solver.
  - done.
Qed.
Lemma trim_holds sel cut unflag e b :
  holds (trim sel cut unflag e).1 b = holds e b && negb (sel (failure e) && in_range b cut).
Proof.
  unfold holds. simpl. destruct (sel _); simpl; [apply subtract_covers|]. by rewrite andb_true_r.
Qed.
Lemma trim_spec sel cut unflag t rs :
  taint_ok t → backed rs (failure <$> t) →
  wp (E:=E) (retain_mut (trim sel cut unflag) t) rs (λ t' rs',
    taint_ok t' ∧ moved rs rs' (failure <$> t) (failure <$> t') ∧
    t' = retain (trim sel cut unflag) t ∧
    (∀ b g, owner t' b = Some g ↔ owner t b = Some g ∧ negb (sel g && in_range b cut) = true) ∧
    (∀ g, flagged t' g ↔ flagged t g ∧ unflag g = false)) (λ _ _, False).
Proof.
  intros Hok Hb. pose proof (trim_shrinking sel cut unflag) as Hs.
  eapply wp_mono; [by apply retain_mut_spec|]. intros t' rs' [-> Hm].
  split; [by apply retain_ok|]. split; [done|]. split; [done|]. split.
  - intros b g. rewrite retain_owner, owner_Some by done. split.
    + intros (e & He & <- & H). rewrite trim_holds, andb_true_iff in H. naive_solver.
    + intros [(e & He & <- & H) Hg]. exists e. rewrite trim_holds, andb_true_iff. done.
  - intros g. split.
    + intros (e' & (e & He & _ & ->)%elem_of_retain & <- & H). simpl in *.
      destruct (unflag _); [done|]. split; [by exists e|done].
    + intros [(e & He & <- & H) Hg]. exists (trim sel cut unflag e).1. split; [|split; [done|]].
      * apply elem_of_retain. exists e. simpl. by rewrite Hg, H.
      * simpl. by rewrite Hg.
Qed.

(** The source's closures are instances of [trim]. *)
Lemma retain_mut_ext f g t :
  (∀ e, f e = g e) → retain_mut (P:=P) (SE:=SE) (E:=E) f t = retain_mut g t.
Proof. intros H. induction t as [|e t IH]; simpl; [done|]. by rewrite H, IH. Qed.
Lemma tainted_eta e : mkTainted (failure e) (ranges e) (unallocated e) = e.
Proof. by destruct e. Qed.

Lemma written_spec r t rs :
  taint_ok t → backed rs (failure <$> t) →
  wp (E:=E) (written r t) rs (λ t' rs', taint_ok t' ∧ moved rs rs' (failure <$> t) (failure <$> t') ∧
    refined (Written r) t t') (λ _ _, False).
Proof.
  intros Hok Hb. unfold written. destruct (range_is_empty r) eqn:Hr.
  - apply wp_ret. split; [done|]. split; [apply moved_refl|]. split; [|done].
    intros b. simpl. by rewrite in_range_empty.
  - rewrite (retain_mut_ext _ (trim (λ _, true) r (λ _, false))) by done.
    eapply wp_mono; [by apply trim_spec|]. intros t' rs' (? & ? & _ & Ho & Hf).
    split; [done|]. split; [done|]. split; [|intros g; rewrite Hf; simpl; naive_solver].
    intros b. apply owner_ext. intros g. rewrite Ho. simpl. destruct (in_range b r); naive_solver.
Qed.

Lemma release_spec r f t rs :
  taint_ok t → backed rs (failure <$> t) →
  wp (E:=E) (release r f t) rs (λ t' rs', taint_ok t' ∧ moved rs rs' (failure <$> t) (failure <$> t') ∧
    refined (Release r f) t t') (λ _ _, False).
Proof.
  intros Hok Hb. unfold release.
  rewrite (retain_mut_ext _ (trim (λ g, g =? f) r (λ g, g =? f))).
  2:{ intros e. unfold trim. destruct (_ =? _); [done|]. by rewrite tainted_eta. }
  eapply wp_mono; [by apply trim_spec|]. intros t' rs' (? & ? & _ & Ho & Hf).
  split; [done|]. split; [done|]. split.
  - intros b. apply owner_ext. intros g. rewrite Ho. simpl. destruct (in_range b r); simpl.
    + rewrite andb_true_r, negb_true_iff, N.eqb_neq. case_bool_decide; naive_solver.
    + rewrite andb_false_r. naive_solver.
  - intros g. rewrite Hf. simpl. by rewrite N.eqb_neq.
Qed.

Lemma clear_unallocated_spec t rs :
  taint_ok t → backed rs (failure <$> t) →
  wp (E:=E) (clear_unallocated t) rs (λ t' rs', taint_ok t' ∧
    moved rs rs' (failure <$> t) (failure <$> t') ∧ refined ClearUnallocated t t') (λ _ _, False).
Proof.
  intros Hok Hb. unfold clear_unallocated.
  rewrite (retain_mut_ext _ (trim (λ _, false) (0, 0) (λ _, true))) by done.
  eapply wp_mono; [by apply trim_spec|]. intros t' rs' (? & ? & _ & Ho & Hf).
  split; [done|]. split; [done|]. split; [|intros g; rewrite Hf; simpl; naive_solver].
  intros b. apply owner_ext. intros g. rewrite Ho. simpl. naive_solver.
Qed.

Lemma claim_unallocated_spec f t rs :
  taint_ok t → backed rs (failure <$> t) → taint_room rs (ClaimUnallocated f) →
  wp (E:=E) (claim_unallocated f t) rs (λ t' rs', taint_ok t' ∧
    moved rs rs' (failure <$> t) (failure <$> t') ∧ refined (ClaimUnallocated f) t t')
    (λ _ _, False).
Proof.
  intros Hok Hb (r & Hr & Hc). unfold claim_unallocated. apply wp_bind.
  eapply wp_mono; [by apply clear_spec|]. intros ? rs1 Hm1.
  destruct (moved_room _ _ _ _ _ _ Hm1 Hr Hc) as (r1 & Hr1 & Hc1); [apply not_elem_of_nil|].
  apply wp_bind. eapply wp_mono; [by eapply tag_spec|]. intros ? rs2 Hm2. apply wp_ret.
  split; [|split].
  - split; [apply NoDup_singleton|]. split.
    + constructor; [|done]. split; [|done]. split; [constructor|done].
    + intros e e' b ->%list_elem_of_singleton ->%list_elem_of_singleton. done.
  - pose proof (moved_trans _ _ _ _ _ _ _ Hm1 Hm2) as Hm. by rewrite app_nil_r in Hm.
  - split; [done|]. intros g. split.
    + intros (e & ->%list_elem_of_singleton & <- & _). done.
    + intros ->. exists (mkTainted f [] true). split; [by left|done].
Qed.

(** The second half of [claim]: the entry of the claiming failure takes a range
    that no other entry holds any more. *)
Section claim_own.
Context (t : list Tainted) (r : N * N) (i : nat) (e : Tainted).
Context (Hok : taint_ok t) (Hr : r.1 < r.2) (Hi : t !! i = Some e).
Context (Hdis : ∀ x b, x ∈ t → failure x ≠ failure e → in_range b r = true → holds x b = false).

Definition grown : Tainted := mkTainted (failure e) (add (ranges e) r) (unallocated e).
Abbreviation t' := (<[i := grown]> t).

Lemma grown_ids : failure <$> t' = failure <$> t.
Proof.
  rewrite list_fmap_insert. apply list_insert_id. by rewrite list_lookup_fmap, Hi.
Qed.
Lemma grown_elem x : x ∈ t' ↔ x = grown ∨ (x ∈ t ∧ failure x ≠ failure e).
Proof.
  pose proof (proj1 Hok) as Hnd. pose proof (lookup_lt_Some _ _ _ Hi) as Hlt.
  rewrite !list_elem_of_lookup. split.
  - intros [j Hj]. destruct (decide (j = i)) as [->|Hne].
    + rewrite list_lookup_insert_eq in Hj by done. left. by simplify_eq.
    + rewrite list_lookup_insert_ne in Hj by done. right. split; [by exists j|].
      intros Heq. apply Hne. eapply NoDup_lookup; [exact Hnd| |];
        rewrite list_lookup_fmap, ?Hj, ?Hi; simpl; by rewrite ?Heq.
  - intros [->|[[j Hj] Hne]].
    + exists i. by apply list_lookup_insert_eq.
    + exists j. rewrite list_lookup_insert_ne; [done|]. intros ->. by simplify_eq.
Qed.
Lemma grown_holds b : holds grown b = holds e b || in_range b r.
Proof.
  apply add_covers; [done|]. destruct Hok as (_ & Hall & _).
  exact (proj1 (Forall_lookup_1 _ _ _ _ Hall Hi)).
Qed.
Lemma grown_entry_ok : entry_ok grown.
Proof.
  destruct Hok as (_ & Hall & _). pose proof (proj1 (Forall_lookup_1 _ _ _ _ Hall Hi)) as Hc.
  split; [by apply add_canonical|]. unfold holds_any. simpl.
  assert (covers (add (ranges e) r) r.1 = true) as Hcov.
  { rewrite add_covers by done. apply orb_true_iff. right. apply in_range_true. lia. }
  destruct (add _ _); [done|]. by rewrite orb_true_r.
Qed.
Lemma grown_ok : taint_ok t'.
Proof.
  pose proof Hok as (Hnd & Hall & Hown). split; [by rewrite grown_ids|]. split.
  - apply Forall_forall. intros x [->|[Hx _]]%grown_elem; [apply grown_entry_ok|].
    by eapply Forall_forall in Hx.
  - assert (∀ x b, x ∈ t → failure x ≠ failure e → holds x b = true → holds grown b = true → False)
      as Hcross.
    { intros x b Hx Hne H1 H2. rewrite grown_holds, orb_true_iff in H2. destruct H2 as [H2|H2].
      - apply Hne. rewrite (Hown x e b); [done|done| |done|done]. by eapply list_elem_of_lookup_2.
      - by rewrite (Hdis x b) in H1. }
    intros x y b [->|[Hx Hxf]]%grown_elem [->|[Hy Hyf]]%grown_elem H1 H2; [done| | |by eapply Hown].
    + exfalso. by apply (Hcross y b).
    + exfalso. by apply (Hcross x b).
Qed.
(** An entry of [t] with a given property survives as itself or as [grown]. *)
Lemma grown_survives x : x ∈ t → x = e ∨ x ∈ t'.
Proof.
  intros Hx. destruct (decide (failure x = failure e)) as [Heq|Hne].
  - left. apply (taint_failure_inj t); [done|done| |done]. by eapply list_elem_of_lookup_2.
  - right. apply grown_elem. auto.
Qed.
Lemma grown_owner b g :
  owner t' b = Some g ↔ (in_range b r = true ∧ g = failure e) ∨ owner t b = Some g.
Proof.
  pose proof (list_elem_of_lookup_2 _ _ _ Hi) as He.
  assert (grown ∈ t') as Hg by (apply grown_elem; auto).
  rewrite !owner_Some by (done || apply grown_ok). split.
  - intros (x & [->|[Hx _]]%grown_elem & <- & H); [|right; by exists x].
    rewrite grown_holds, orb_true_iff in H. destruct H as [H|H]; [right; by exists e|by left].
  - intros [[H ->]|(x & Hx & <- & H)].
    + exists grown. rewrite grown_holds, H, orb_true_r. done.
    + destruct (grown_survives x Hx) as [->|Hx']; [|by exists x].
      exists grown. rewrite grown_holds, H. done.
Qed.
Lemma grown_flagged g : flagged t' g ↔ flagged t g.
Proof.
  pose proof (list_elem_of_lookup_2 _ _ _ Hi) as He.
  assert (grown ∈ t') as Hg by (apply grown_elem; auto). split.
  - intros (x & [->|[Hx _]]%grown_elem & <- & H); [by exists e|by exists x].
  - intros (x & Hx & <- & H). destruct (grown_survives x Hx) as [->|Hx']; [|by exists x].
    by exists grown.
Qed.
End claim_own.

(** ... or a new entry is pushed. *)
Lemma push_ok t f r :
  taint_ok t → r.1 < r.2 → f ∉ failure <$> t →
  (∀ x b, x ∈ t → in_range b r = true → holds x b = false) →
  taint_ok (t ++ [mkTainted f [r] false]).
Proof.
  intros (Hnd & Hall & Hown) Hr Hf Hdis. split; [|split].
  - rewrite fmap_app. apply NoDup_app. split; [done|]. split; [|apply NoDup_singleton].
    intros x Hx ->%list_elem_of_singleton. done.
  - apply Forall_app. split; [done|]. constructor; [|done].
    split; [|done]. apply canonical_cons. split; [done|]. split; [done|apply canonical_nil].
  - assert (∀ x b, x ∈ t → holds x b = true → holds (mkTainted f [r] false) b = true → False)
      as Hcross.
    { intros x b Hx H1 H2. unfold holds in H2. simpl in H2.
      rewrite covers_cons, orb_false_r in H2. by rewrite (Hdis x b) in H1. }
    intros x y b Hx Hy H1 H2. rewrite elem_of_app, list_elem_of_singleton in Hx, Hy.
    destruct Hx as [Hx| ->], Hy as [Hy| ->]; [by eapply Hown| | |done].
    + exfalso. by apply (Hcross x b).
    + exfalso. by apply (Hcross y b).
Qed.
Lemma push_owner t f r b g :
  taint_ok t → taint_ok (t ++ [mkTainted f [r] false]) →
  owner (t ++ [mkTainted f [r] false]) b = Some g ↔
    (in_range b r = true ∧ g = f) ∨ owner t b = Some g.
Proof.
  intros Hok Hok'. rewrite !owner_Some by done. split.
  - intros (x & [Hx|Hx]%elem_of_app & <- & H); [right; by exists x|].
    apply list_elem_of_singleton in Hx as ->.
    left. unfold holds in H. simpl in H. by rewrite covers_cons, orb_false_r in H.
  - intros [[H ->]|(x & Hx & <- & H)].
    + exists (mkTainted f [r] false). split; [apply elem_of_app; right; by left|].
      split; [done|]. unfold holds. simpl. by rewrite covers_cons, H.
    + exists x. rewrite elem_of_app. auto.
Qed.

(** What [claim] does once the other failures have given up the range. *)
Section claim.
Context (r : N * N) (f : N) (t t1 : list Tainted).
Context (Hok : taint_ok t) (Hok1 : taint_ok t1) (Hr : r.1 < r.2).
Context (Ho : ∀ b g, owner t1 b = Some g ↔
  owner t b = Some g ∧ negb (negb (g =? f) && in_range b r) = true).

Lemma others_cut x b : x ∈ t1 → failure x ≠ f → in_range b r = true → holds x b = false.
Proof.
  intros Hx Hne Hin. destruct (holds x b) eqn:Hxb; [|done].
  assert (owner t1 b = Some (failure x)) as Hox by (apply owner_Some; eauto).
  apply Ho in Hox as [_ Hneg]. by rewrite Hin, (proj2 (N.eqb_neq _ _) Hne) in Hneg.
Qed.
Lemma claim_abs own b :
  (∀ g, own = Some g ↔ (in_range b r = true ∧ g = f) ∨ owner t1 b = Some g) →
  own = abs_owner (Claim r f) (owner t) b.
Proof.
  intros Hown. simpl. destruct (in_range b r) eqn:Hin; [apply Hown; by left|].
  destruct (owner t b) as [g|] eqn:Hob.
  - apply Hown. right. apply Ho. by rewrite Hin, andb_false_r.
  - destruct own as [g|]; [|done]. destruct (proj1 (Hown g) eq_refl) as [[? _]|Hg]; [done|].
    apply Ho in Hg as [? _]. congruence.
Qed.
End claim.

Lemma claim_spec r f t rs :
  taint_ok t → backed rs (failure <$> t) → taint_room rs (Claim r f) →
  wp (E:=E) (claim r f t) rs (λ t' rs', taint_ok t' ∧
    moved rs rs' (failure <$> t) (failure <$> t') ∧ refined (Claim r f) t t') (λ _ _, False).
Proof.
  intros Hok Hb (r0 & Hr0 & Hc0). unfold claim. destruct (range_is_empty r) eqn:Hr.
  { apply wp_ret. split; [done|]. split; [apply moved_refl|]. split; [|done].
    intros b. simpl. by rewrite in_range_empty. }
  apply range_nonempty in Hr.
  rewrite (retain_mut_ext _ (trim (λ g, negb (g =? f)) r (λ _, false))).
  2:{ intros e. unfold trim. destruct (negb _); [done|]. by rewrite tainted_eta. }
  apply wp_bind. eapply wp_mono; [by apply trim_spec|].
  intros t1 rs1 (Hok1 & Hm1 & _ & Ho & Hf).
  pose proof (others_cut r f t t1 Hok1 Ho) as Hdis. pose proof (claim_abs r f t t1 Ho) as Habs.
  assert (∀ g, flagged t1 g ↔ flagged t g) as Hf1 by (intros g; rewrite Hf; naive_solver).
  destruct (list_find _ t1) as [[i e]|] eqn:Hfind.
  - apply list_find_Some in Hfind as (Hi & <- & _). apply wp_ret.
    change (mkTainted (failure e) (add (ranges e) r) (unallocated e)) with (grown r e).
    split; [by apply grown_ok|]. split; [by rewrite grown_ids|]. split.
    + intros b. apply Habs. intros g. by apply grown_owner.
    + intros g. simpl. rewrite <-Hf1. by apply grown_flagged.
  - apply list_find_None in Hfind. rewrite Forall_forall in Hfind.
    assert (f ∉ failure <$> t1) as Hnew.
    { intros (x & -> & Hx)%list_elem_of_fmap. by destruct (Hfind x Hx). }
    destruct (moved_room _ _ _ _ _ _ Hm1 Hr0 Hc0 Hnew) as (r1 & Hr1 & Hc1).
    apply wp_bind. eapply wp_mono; [by eapply tag_spec|]. intros ? rs2 Hm2. apply wp_ret.
    assert (taint_ok (t1 ++ [mkTainted f [r] false])) as Hok2.
    { apply push_ok; [done|done|done|]. intros x b Hx. apply Hdis; [done|]. by apply Hfind. }
    split; [done|]. split; [|split].
    + rewrite fmap_app. pose proof (moved_trans _ _ _ _ _ _ _ Hm1 Hm2) as Hm.
      by rewrite app_nil_r in Hm.
    + intros b. apply Habs. intros g. by apply push_owner.
    + intros g. simpl. rewrite <-Hf1. split.
      * intros (x & [Hx|Hx]%elem_of_app & ? & ?); [by exists x|].
        by apply list_elem_of_singleton in Hx as ->.
      * intros (x & Hx & ?). exists x. rewrite elem_of_app. auto.
Qed.

Lemma run_taint_spec o t rs :
  taint_ok t → backed rs (failure <$> t) → taint_room rs o →
  wp (run_taint o t) rs (λ t' rs', taint_ok t' ∧
    moved rs rs' (failure <$> t) (failure <$> t') ∧ refined o t t') (λ _ _, False).
Proof.
  intros. destruct o; simpl.
  - by apply claim_spec.
  - by apply claim_unallocated_spec.
  - by apply clear_unallocated_spec.
  - by apply written_spec.
  - by apply release_spec.
Qed.

End taint_ops.

(** ** Allocations sharing failure roots *)

Section world.
Context {P : Profile} {SE : Type}.

Record world := mkWorld { roots : gmap N (Root SE); taints : gmap N (list Tainted) }.

Inductive event :=
| Mint (minted : N) (e : SE)
| NewAllocation (d : N)
| OnAllocation (d : N) (o : taint_op)
| DropAllocation (d : N).

(** One event; [None] where the code panics. *)
Definition step (w : world) (ev : event) : option world :=
  match ev with
  | Mint minted e =>
      match mint (E:=Empty_set) minted e (roots w) with
      | (Ok _, rs) => Some (mkWorld rs (taints w))
      | _ => None
      end
  | NewAllocation d => Some (mkWorld (roots w) (<[d := []]> (taints w)))
  | OnAllocation d o =>
      t ← taints w !! d;
      match run_taint (E:=Empty_set) o t (roots w) with
      | (Ok t', rs) => Some (mkWorld rs (<[d := t']> (taints w)))
      | _ => None
      end
  | DropAllocation d =>
      t ← taints w !! d;
      match clear (E:=Empty_set) t (roots w) with
      | (Ok _, rs) => Some (mkWorld rs (delete d (taints w)))
      | _ => None
      end
  end.
(** Ids are minted once and allocated once; a used allocation exists. *)
Definition enabled (w : world) (ev : event) : Prop :=
  match ev with
  | Mint minted _ => minted < u64_max ∧ roots w !! (minted + 1) = None
  | NewAllocation d => taints w !! d = None
  | OnAllocation d o => is_Some (taints w !! d) ∧ taint_room (roots w) o
  | DropAllocation d => is_Some (taints w !! d)
  end.
Inductive taint_reach : world → Prop :=
| taint_init : taint_reach (mkWorld ∅ ∅)
| taint_next w ev w' : taint_reach w → enabled w ev → step w ev = Some w' → taint_reach w'.

Definition carriers (w : world) (f : N) : N :=
  msum (λ t, occ f (failure <$> t)) (taints w).
Definition world_ok (w : world) : Prop :=
  map_Forall (λ _ t, taint_ok t) (taints w) ∧ ∀ f, claimed_of (roots w) f = carriers w f.

Lemma world_backed w d t : world_ok w → taints w !! d = Some t → backed (roots w) (failure <$> t).
Proof.
  intros [_ Hc] Ht f. rewrite Hc. apply (msum_le (λ t, occ f (failure <$> t)) _ _ _ Ht).
Qed.

Lemma step_spec w ev :
  world_ok w → enabled w ev → ∃ w', step w ev = Some w' ∧ world_ok w'.
Proof.
  intros [Hok Hc] Hen. destruct ev as [minted e|d|d o|d]; simpl in Hen.
  - destruct Hen as [Hm Hnew]. simpl. unfold mint, checked_add, bind, put_root, modify, ret, expect.
    rewrite (proj2 (N.leb_le _ _)) by lia. simpl. eexists. split; [done|]. split; [done|].
    intros f. simpl. transitivity (carriers w f); [|done]. rewrite <-Hc. unfold claimed_of.
    destruct (decide (f = minted + 1)) as [->|].
    + by rewrite lookup_insert_eq, Hnew.
    + by rewrite lookup_insert_ne by done.
  - eexists. split; [done|]. split; simpl.
    + apply map_Forall_insert_2; [|done]. split; [constructor|]. split; [constructor|].
      by intros e e' b ?%elem_of_nil.
    + intros f. rewrite Hc. unfold carriers. simpl. by rewrite msum_insert_new.
  - destruct Hen as [[t Ht] Hroom]. simpl. rewrite Ht. simpl.
    pose proof (run_taint_spec (E:=Empty_set) o t (roots w) (Hok _ _ Ht) (world_backed _ _ _ (conj Hok Hc) Ht) Hroom)
      as Hspec. unfold wp in Hspec.
    destruct (run_taint o t (roots w)) as [[t'|[]|] rs]; [|done].
    destruct Hspec as (Hok' & [_ Hm] & _). eexists. split; [done|]. split; simpl.
    + by apply map_Forall_insert_2.
    + intros f. specialize (Hm f). rewrite Hc in Hm. unfold carriers in *. simpl.
      pose proof (msum_insert (λ t, occ f (failure <$> t)) _ _ _ t' Ht). simpl in *. lia.
  - destruct Hen as [t Ht]. simpl. rewrite Ht. simpl.
    pose proof (clear_spec (E:=Empty_set) t (roots w) (world_backed _ _ _ (conj Hok Hc) Ht)) as Hspec.
    unfold wp in Hspec. destruct (clear t (roots w)) as [[t'|[]|] rs]; [|done].
    destruct Hspec as [_ Hm]. eexists. split; [done|]. split; simpl.
    + by apply map_Forall_delete.
    + intros f. specialize (Hm f). rewrite Hc, occ_nil in Hm. unfold carriers in *. simpl.
      pose proof (msum_delete (λ t, occ f (failure <$> t)) _ _ _ Ht). simpl in *. lia.
Qed.
Lemma taint_reach_ok w : taint_reach w → world_ok w.
Proof.
  induction 1 as [|w ev w' _ IH Hen Hs].
  - split; [apply map_Forall_empty|]. intros f. simpl. unfold carriers, claimed_of. simpl.
    by rewrite lookup_empty, msum_empty.
  - destruct (step_spec w ev IH Hen) as (w2 & Hs2 & ?). congruence.
Qed.

(** C35. Every reachable taint refines the abstract byte map: no operation
    panics, each acts on the owner of every byte and on the whole-allocation
    flags exactly as its abstract counterpart, and the invariant (one entry per
    failure, canonical disjoint ranges) is kept. *)
Theorem taint_refines_byte_map w d t o :
  taint_reach w → taints w !! d = Some t → taint_room (roots w) o →
  ∃ t' rs', run_taint (E:=Empty_set) o t (roots w) = (Ok t', rs') ∧ taint_ok t' ∧ refined o t t'.
Proof.
  intros Hw Ht Hroom. apply taint_reach_ok in Hw. pose proof Hw as [Hok _].
  pose proof (run_taint_spec (E:=Empty_set) o t (roots w) (Hok _ _ Ht) (world_backed _ _ _ Hw Ht) Hroom) as Hspec.
  unfold wp in Hspec. destruct (run_taint o t (roots w)) as [[t'|[]|] rs]; [|done].
  exists t', rs. naive_solver.
Qed.

(** [failures] reports exactly the failures that hold a byte of the range or
    taint the whole allocation, each once. *)
Theorem failures_exact w d t range :
  taint_reach w → taints w !! d = Some t →
  NoDup (failures t range) ∧
  ∀ g, g ∈ failures t range ↔
    flagged t g ∨ ∃ b, in_range b range = true ∧ owner t b = Some g.
Proof.
  intros [Hall _]%taint_reach_ok Ht. specialize (Hall _ _ Ht). pose proof Hall as (Hnd & Hok & _).
  rewrite Forall_forall in Hok. split.
  { eapply sublist_NoDup; [exact Hnd|]. apply fmap_sublist, sublist_filter. }
  intros g. unfold failures. rewrite list_elem_of_fmap. setoid_rewrite list_elem_of_filter.
  setoid_rewrite owner_Some; [|done]. split.
  - intros (e & -> & H & He). rewrite Is_true_true, orb_true_iff, existsb_exists in H.
    destruct H as [H|(h & Hh%list_elem_of_In & H%overlaps_true)]; [left; by exists e|right].
    exists (N.max h.1 range.1). split; [apply in_range_true; lia|]. exists e. split; [done|].
    split; [done|]. apply covers_true. exists h. split; [done|lia].
  - intros [(e & He & <- & H)|(b & Hb%in_range_true & e & He & <- & H)]; exists e; split; try done;
      split; try done; rewrite Is_true_true, orb_true_iff; [by left|right].
    apply covers_true in H as (h & Hh & H). apply existsb_exists. exists h.
    split; [by apply list_elem_of_In|]. apply overlaps_true. lia.
Qed.

(** C36. The claim count of a failure root is the number of allocations that
    carry it, whatever the interleaving of claims, writes, releases and drops;
    so it reaches zero exactly when the last carrier is gone. *)
Theorem root_claims_exact w f r :
  taint_reach w → roots w !! f = Some r →
  claimed r = N.of_nat (size (filter (λ '(_, t), f ∈ failure <$> t) (taints w))).
Proof.
  intros [Hall Hc]%taint_reach_ok Hr. specialize (Hc f). unfold claimed_of in Hc.
  rewrite Hr in Hc. simpl in Hc. rewrite Hc. unfold carriers. clear -Hall.
  induction (taints w) as [|d t m Hd IH] using map_ind; [done|].
  apply map_Forall_insert in Hall as [Ht Hall]; [|done].
  rewrite msum_insert_new by done. rewrite IH by done.
  destruct (decide (f ∈ failure <$> t)) as [Hin|Hin].
  - rewrite map_filter_insert_True by done. rewrite map_size_insert_None.
    2:{ apply map_lookup_filter_None. by left. }
    assert (occ f (failure <$> t) = 1); [|lia]. destruct Ht as [Hnd _]. clear -Hnd Hin.
    induction Hnd as [|x l Hx Hnd IH]; [by apply elem_of_nil in Hin|]. rewrite occ_cons.
    apply elem_of_cons in Hin as [->|Hin].
    + rewrite decide_True by done. rewrite <-occ_pos in Hx. lia.
    + rewrite decide_False by (by intros ->). by rewrite IH.
  - rewrite map_filter_insert_False by done. rewrite delete_id by done.
    rewrite <-occ_pos in Hin. lia.
Qed.
End world.

(** ** The dependency path of a report *)

(** A chain explains a buffer when each link is the latest record, among those
    before the previous link, that should have produced what is missing, and the
    last link needs something no earlier record produces. *)
Inductive explains : list Skipped → N → list (string * N) → Prop :=
| explains_root records target :
    (∀ r, r ∈ records → target ∉ produced r) → explains records target []
| explains_link records target i r chain :
    records !! i = Some r → target ∈ produced r →
    (∀ j r', (i < j)%nat → records !! j = Some r' → target ∉ produced r') →
    explains (take i records) (needed r) chain →
    explains records target ((kernel r, needed r) :: chain).

Lemma rposition_Some {A} (f : A → bool) l i :
  rposition f l = Some i →
  (∃ x, l !! i = Some x ∧ f x = true) ∧ ∀ j x, (i < j)%nat → l !! j = Some x → f x = false.
Proof.
  revert i. induction l as [|y l IH]; intros i; simpl; [done|].
  assert (rposition f l = None → ∀ j x, l !! j = Some x → f x = false) as Hnone.
  { clear. induction l as [|y l IH]; simpl; [done|]. destruct (rposition f l); [done|].
    destruct (f y) eqn:Hy; [done|]. intros _ [|j] x Hx; simplify_eq/=; [done|]. by eapply IH. }
  destruct (rposition f l) as [k|].
  - intros [= <-]. destruct (IH k eq_refl) as [Hx Hl]. split; [done|].
    intros [|j] x Hj Hx'; [lia|]. apply (Hl j); [lia|done].
  - destruct (f y) eqn:Hy; [|done]. intros [= <-]. split; [by exists y|].
    intros [|j] x Hj Hx'; [lia|]. by eapply Hnone.
Qed.
Lemma rposition_None {A} (f : A → bool) l x : rposition f l = None → x ∈ l → f x = false.
Proof.
  induction l as [|y l IH]; simpl; [by intros _ ?%elem_of_nil|].
  destruct (rposition f l); [done|]. destruct (f y) eqn:Hy; [done|].
  intros _ [->|Hx]%elem_of_cons; auto.
Qed.

Lemma walk_explains fuel records target :
  (length records ≤ fuel)%nat → explains records target (walk fuel records target).
Proof.
  revert records target. induction fuel as [|fuel IH]; intros records target Hl; simpl.
  { destruct records; [|simpl in Hl; lia]. constructor. by intros r ?%elem_of_nil. }
  destruct (rposition _ records) as [i|] eqn:Hp.
  - apply rposition_Some in Hp as [(r & Hr & Hin) Hlast]. rewrite Hr.
    apply bool_decide_eq_true in Hin. eapply explains_link; [done|done| |].
    + intros j r' Hj Hr'. specialize (Hlast j r' Hj Hr'). by apply bool_decide_eq_false in Hlast.
    + apply IH. apply lookup_lt_Some in Hr. rewrite length_take. lia.
  - constructor. intros r Hr. pose proof (rposition_None _ _ _ Hp Hr) as Hf.
    by apply bool_decide_eq_false in Hf.
Qed.

(** The walk of [report] terminates and its chain is the dependency path of
    the buffer through the skip log: always the latest producer before the
    previous link, ending where nothing earlier produces what is missing. *)
Theorem report_explains {SE} f (r : Root SE) memory :
  explains (skipped r) memory (report_chain (report f r memory)).
Proof. apply walk_explains. lia. Qed.

(** ** Witnesses *)

Definition taint_profile : Profile := {| overflow_checks := true; debug_assertions := true |}.
#[local] Existing Instance taint_profile.

(** Executable guard and replay of a sequence of events. *)
Definition room_b (rs : gmap N (Root string)) (o : taint_op) : bool :=
  match o with
  | Claim _ f | ClaimUnallocated f => from_option (λ r, claimed r <? u32_max) false (rs !! f)
  | _ => true
  end.
Definition enabled_b (w : world (SE:=string)) (ev : event (SE:=string)) : bool :=
  match ev with
  | Mint minted _ => (minted <? u64_max) && bool_decide (roots w !! (minted + 1) = None)
  | NewAllocation d => bool_decide (taints w !! d = None)
  | OnAllocation d o => bool_decide (is_Some (taints w !! d)) && room_b (roots w) o
  | DropAllocation d => bool_decide (is_Some (taints w !! d))
  end.
Lemma room_b_sound rs o : room_b rs o = true → taint_room rs o.
Proof.
  destruct o; simpl; try done; destruct (rs !! f) as [r|]; simpl; try done;
    intros ?%N.ltb_lt; by exists r.
Qed.
Lemma enabled_b_sound w ev : enabled_b w ev = true → enabled w ev.
Proof.
  destruct ev; simpl; rewrite ?andb_true_iff, ?bool_decide_eq_true, ?N.ltb_lt; try done.
  intros [? ?%room_b_sound]. done.
Qed.
Fixpoint replay (w : world (SE:=string)) (evs : list (event (SE:=string))) : option (world (SE:=string)) :=
  match evs with
  | [] => Some w
  | ev :: evs => if enabled_b w ev then w' ← step w ev; replay w' evs else None
  end.
Lemma replay_reach w evs w' : taint_reach w → replay w evs = Some w' → taint_reach w'.
Proof.
  revert w. induction evs as [|ev evs IH]; simpl; intros w Hw Hr; [by simplify_eq|].
  destruct (enabled_b w ev) eqn:He; [|done]. apply bind_Some in Hr as (w1 & Hs & Hr).
  apply (IH w1); [|done]. eapply taint_next; [done|by apply enabled_b_sound|done].
Qed.

(** Two failures on allocation 7, one of them also on allocation 8. *)
Definition taint_demo_events : list (event (SE:=string)) :=
  [Mint 0 "launch"%string; Mint 1 "copy"%string; NewAllocation 7; NewAllocation 8;
   OnAllocation 7 (Claim (0, 10) 1); OnAllocation 7 (Claim (4, 6) 2);
   OnAllocation 8 (ClaimUnallocated 1)].
Definition taint_demo : world (SE:=string) := default (mkWorld ∅ ∅) (replay (mkWorld ∅ ∅) taint_demo_events).
Definition taint_demo_7 : list Tainted :=
  [mkTainted 1 [(0, 4); (6, 10)] false; mkTainted 2 [(4, 6)] false].
Lemma taint_demo_reach : taint_reach taint_demo.
Proof.
  unfold taint_demo. destruct (replay _ _) as [w|] eqn:Hr; [|apply taint_init].
  eapply replay_reach; [apply taint_init|exact Hr].
Qed.

Lemma taint_refines_byte_map_witness :
  ∃ t' rs', run_taint (E:=Empty_set) (Written (2, 5)) taint_demo_7 (roots taint_demo) = (Ok t', rs') ∧
    taint_ok t' ∧ refined (Written (2, 5)) taint_demo_7 t'.
Proof.
  apply (taint_refines_byte_map taint_demo 7); [apply taint_demo_reach|vm_compute; reflexivity|done].
Defined.
Lemma failures_exact_witness :
  failures taint_demo_7 (3, 5) = [1; 2] ∧ NoDup (failures taint_demo_7 (3, 5)).
Proof.
  split; [vm_compute; reflexivity|].
  apply (failures_exact taint_demo 7); [apply taint_demo_reach|vm_compute; reflexivity].
Defined.
Lemma root_claims_exact_witness :
  claimed (mkRoot "launch"%string 2 [] 0) =
    N.of_nat (size (filter (λ '(_, t), 1 ∈ failure <$> t) (taints taint_demo))).
Proof.
  apply (root_claims_exact taint_demo 1); [apply taint_demo_reach|vm_compute; reflexivity].
Defined.
