(* ===== verification/Storage.v ===== *)
(** * Device storage and the CPU byte storage

    [ruda-runtime/src/runtime/storage/base.rs]: handles into storage and the
    [ComputeStorage] trait, here a class of operations with the laws the memory
    pools rely on.  [ruda-runtime/src/runtime/storage/bytes_cpu.rs]: the CPU
    implementation, whose range registry mediates every safe access; it is an
    instance of the class.

    An allocation is a shared object ([Arc<AllocatedBytes>]) that outlives its
    removal from the storage while a resource or a lease holds it; the model
    keeps allocations in a store keyed by their storage id and the ids still
    looked up in [memory].  [StorageId::new] draws from a process-wide counter,
    which is part of the state. *)

From S2P Require Import Prelude.
Open Scope N_scope.

Record StorageUtilization := mkUtil { offset : N; size : N }.
(** [StorageId] is a newtype of [usize]. *)
Record StorageHandle := mkHandle { id : N; utilization : StorageUtilization }.

Definition handle_size (h : StorageHandle) : N := size (utilization h).
Definition handle_offset (h : StorageHandle) : N := offset (utilization h).

Definition offset_start {E} (h : StorageHandle) (bytes : N) : res E StorageHandle :=
  match checked_add u64_max (handle_offset h) bytes, checked_sub (handle_size h) bytes with
  | Some o, Some s => Ok (mkHandle (id h) (mkUtil o s))
  | _, _ => Panic
  end.
Definition offset_end {E} (h : StorageHandle) (bytes : N) : res E StorageHandle :=
  match checked_sub (handle_size h) bytes with
  | Some s => Ok (mkHandle (id h) (mkUtil (handle_offset h) s))
  | None => Panic
  end.

(** [IoError] without backtraces. *)
Inductive IoError :=
| BufferTooBig (size : N)
| NotFound (reason : string)
| Unknown (description : string)
| UnsupportedIoOperation.

(** ** The trait *)

(** The storage with the counter of [StorageId::new]. *)
Record Device (S : Type) := mkDevice { ids : N; store : S }.
Arguments mkDevice {S}.
Arguments ids {S}.
Arguments store {S}.

Definition new_storage_id {S E} : M (Device S) E N :=
  let! v := gets ids in
  let! _ := modify (λ d, mkDevice (v + 1) (store d)) in
  if v =? usize_max then panic else ret v.

Class ComputeStorage (S : Type) := {
  alloc : N → M (Device S) IoError StorageHandle;
  dealloc : N → S → S;
  flush : S → S
}.

(** What a pool relies on: [live] maps the ids that can be looked up to the size
    of their allocation. *)
Class ComputeStorageLaws (S : Type) `{ComputeStorage S} := {
  live : S → gmap N N;
  (** Only ids already drawn are live. *)
  storage_inv : Device S → Prop;
  inv_fresh d i n : storage_inv d → live (store d) !! i = Some n → i < ids d;
  inv_draw d : storage_inv d → storage_inv (mkDevice (ids d + 1) (store d));
  alloc_law n d : storage_inv d → ids d < usize_max →
    wp (alloc n) d
      (λ h d', storage_inv d' ∧ h = mkHandle (ids d) (mkUtil 0 n) ∧ ids d' = ids d + 1 ∧
        live (store d') = <[ids d := n]> (live (store d)))
      (λ _ d', storage_inv d' ∧ ids d ≤ ids d' ∧ live (store d') = live (store d));
  dealloc_law i d : storage_inv d →
    storage_inv (mkDevice (ids d) (dealloc i (store d))) ∧
    live (dealloc i (store d)) = delete i (live (store d));
  flush_law d : storage_inv d →
    storage_inv (mkDevice (ids d) (flush (store d))) ∧ live (flush (store d)) = live (store d)
}.

(** ** The CPU storage *)

Record BorrowRegion := mkRegion { range : N * N; writable : bool }.
#[export] Instance BorrowRegion_eq_dec : EqDecision BorrowRegion.
Proof. solve_decision. Defined.

(** Contents are bytes; the layout size is the length. *)
Record AllocatedBytes := mkAllocated { contents : list N; borrows : list BorrowRegion }.
Record BytesStorage := mkBytes { memory : gset N; allocations : gmap N AllocatedBytes }.

Inductive BytesAccessError :=
| UnknownStorage (i : N)
| InvalidRange (offset size allocation_size : N)
| BorrowConflict (requested existing : N * N).

(** A resource or lease owns its allocation; here it names it. *)
Record BytesResource := mkResource { allocation : N; res_range : N * N }.
Record BorrowLease := mkLease { lease_allocation : N; region : BorrowRegion }.

Abbreviation By := (M BytesStorage BytesAccessError).

Definition try_get (h : StorageHandle) : By BytesResource :=
  let! s := gets (λ s, s) in
  match (if decide (id h ∈ memory s) then allocations s !! id h else None) with
  | None => throw (UnknownStorage (id h))
  | Some a =>
      let invalid := InvalidRange (handle_offset h) (handle_size h) (len (contents a)) in
      let! end_ := ok_or (checked_add u64_max (handle_offset h) (handle_size h)) invalid in
      if (usize_max <? handle_offset h) || (usize_max <? end_) || (len (contents a) <? end_)
      then throw invalid
      else ret (mkResource (id h) (handle_offset h, end_))
  end.

Definition conflicts (r existing : BorrowRegion) : bool :=
  let overlap := negb ((range r).2 <=? (range r).1) && negb ((range existing).2 <=? (range existing).1)
    && ((range r).1 <? (range existing).2) && ((range existing).1 <? (range r).2) in
  overlap && (writable r || writable existing).

Definition set_borrows (i : N) (bs : list BorrowRegion) (a : AllocatedBytes) : By unit :=
  modify (λ s, mkBytes (memory s) (<[i := mkAllocated (contents a) bs]> (allocations s))).

Definition acquire (r : BytesResource) (w : bool) : By BorrowLease :=
  let! s := gets (λ s, s) in
  let! a := expect (allocations s !! allocation r) in
  let reg := mkRegion (res_range r) w in
  match list_find (λ existing, conflicts reg existing = true) (borrows a) with
  | Some (_, existing) => throw (BorrowConflict (range reg) (range existing))
  | None =>
      let! _ := set_borrows (allocation r) (borrows a ++ [reg]) a in
      ret (mkLease (allocation r) reg)
  end.

(** [swap_remove(i)]: the last element takes the place of the removed one. *)
Definition swap_remove {A} (l : list A) (i : nat) : list A :=
  match last l with
  | None => l
  | Some x =>
      if decide (S i = length l) then take i l
      else <[i := x]> (take (length l - 1) l)
  end.
Definition drop_lease (l : BorrowLease) : By unit :=
  let! s := gets (λ s, s) in
  let! a := expect (allocations s !! lease_allocation l) in
  let! found := expect (list_find (λ r, r = region l) (borrows a)) in
  set_borrows (lease_allocation l) (swap_remove (borrows a) found.1) a.

Definition try_read (r : BytesResource) : By BorrowLease := acquire r false.
Definition try_write (r : BytesResource) : By BorrowLease := acquire r true.

(** The bytes a lease sees, and a write through a writable lease. *)
Definition lease_bytes (l : BorrowLease) (s : BytesStorage) : option (list N) :=
  a ← allocations s !! lease_allocation l;
  Some (take (N.to_nat ((range (region l)).2 - (range (region l)).1))
          (drop (N.to_nat (range (region l)).1) (contents a))).
Definition copy_from_slice (l : BorrowLease) (bytes : list N) : By unit :=
  let! s := gets (λ s, s) in
  let! a := expect (allocations s !! lease_allocation l) in
  let start := N.to_nat (range (region l)).1 in
  if len bytes =? (range (region l)).2 - (range (region l)).1
  then
    modify (λ s, mkBytes (memory s)
      (<[lease_allocation l := mkAllocated
           (take start (contents a) ++ bytes ++ drop (start + length bytes) (contents a))
           (borrows a)]> (allocations s)))
  else panic.

(** [relocation_copy]: both guards are held for the copy and dropped at its end,
    the write guard first; a refused write still drops the read guard. *)
Definition relocation_copy (source target : StorageHandle) : By unit :=
  let! src := try_get source in
  let! dst := try_get target in
  let! rd := try_read src in
  λ s, match try_write dst s with
  | (Ok wr, s) =>
      (let! bytes := gets (lease_bytes rd) in
       let! bytes := expect bytes in
       let! _ := copy_from_slice wr bytes in
       let! _ := drop_lease wr in
       drop_lease rd) s
  | (Err e, s) => (let! _ := drop_lease rd in throw e) s
  | (Panic, s) => (Panic, s)
  end.

Section bytes_storage.
(** Whether the system allocator serves a request of that size. *)
Context (os_alloc : N → bool).

(** [Layout::from_size_align(size, 4)] fails when the rounded size exceeds [isize]. *)
Definition layout_ok (n : N) : bool := n + 3 <=? 2 ^ 63 - 1.
Definition bytes_alloc (n : N) : M (Device BytesStorage) IoError StorageHandle :=
  if negb (n <=? usize_max) || negb (layout_ok n) then throw (BufferTooBig n)
  else
    let! i := new_storage_id in
    if negb (n =? 0) && negb (os_alloc n) then throw (BufferTooBig n)
    else
      let! _ := modify (λ d, mkDevice (ids d) (mkBytes ({[i]} ∪ memory (store d))
        (<[i := mkAllocated (replicate (N.to_nat n) 0) []]> (allocations (store d))))) in
      ret (mkHandle i (mkUtil 0 n)).
Definition bytes_dealloc (i : N) (s : BytesStorage) : BytesStorage :=
  mkBytes (memory s ∖ {[i]}) (allocations s).

#[local] Instance bytes_storage : ComputeStorage BytesStorage :=
  {| alloc := bytes_alloc; dealloc := bytes_dealloc; flush := λ s, s |}.

Definition bytes_live (s : BytesStorage) : gmap N N :=
  filter (λ '(i, _), i ∈ memory s) ((λ a, len (contents a)) <$> allocations s).
Definition bytes_inv (d : Device BytesStorage) : Prop :=
  ∀ i a, allocations (store d) !! i = Some a → i < ids d.
End bytes_storage.
