(* ===== verification/StorageProps.v ===== *)
(** * Properties of the CPU byte storage

    The storage satisfies the laws of the [ComputeStorage] class, and its range
    registry gives every lease exclusive or shared-read access for as long as it
    is held, whatever the interleaving. *)

From S2P Require Import Prelude Storage.
Open Scope N_scope.

(** ** The laws of the trait *)

Section laws.
Context (os_alloc : N → bool).
#[local] Existing Instance bytes_storage.

Lemma bytes_live_lookup s i n :
  bytes_live s !! i = Some n ↔
    i ∈ memory s ∧ ∃ a, allocations s !! i = Some a ∧ len (contents a) = n.
Proof.
  unfold bytes_live. rewrite map_lookup_filter_Some, lookup_fmap, fmap_Some. naive_solver.
Qed.
Lemma bytes_live_alloc s i n :
  allocations s !! i = None →
  bytes_live (mkBytes ({[i]} ∪ memory s)
    (<[i := mkAllocated (replicate (N.to_nat n) 0) []]> (allocations s))) = <[i := n]> (bytes_live s).
Proof.
  intros Hi. apply map_eq. intros j. apply option_eq. intros m.
  rewrite bytes_live_lookup. simpl. rewrite elem_of_union, elem_of_singleton.
  destruct (decide (j = i)) as [->|Hne].
  - rewrite !lookup_insert_eq. unfold len.
    split; [intros (_ & a & [= <-] & <-)|intros [= <-]; split; [by left|eexists; split; [done|]]];
      simpl; rewrite length_replicate; [f_equal|]; lia.
  - rewrite !lookup_insert_ne, bytes_live_lookup by done. naive_solver.
Qed.
Lemma bytes_live_dealloc s i : bytes_live (bytes_dealloc i s) = delete i (bytes_live s).
Proof.
  apply map_eq. intros j. apply option_eq. intros m.
  rewrite lookup_delete_Some, !bytes_live_lookup. simpl.
  rewrite elem_of_difference, elem_of_singleton. naive_solver.
Qed.

Lemma new_storage_id_spec {S E} (d : Device S) Q (R : E → Device S → Prop) :
  ids d < usize_max → Q (ids d) (mkDevice (ids d + 1) (store d)) → wp new_storage_id d Q R.
Proof.
  intros Hids HQ. unfold new_storage_id. wp_steps; [|done].
  match goal with H : (_ =? _) = true |- _ => apply N.eqb_eq in H; lia end.
Qed.

Lemma bytes_alloc_spec n d :
  bytes_inv d → ids d < usize_max →
  wp (bytes_alloc os_alloc n) d
    (λ h d', bytes_inv d' ∧ h = mkHandle (ids d) (mkUtil 0 n) ∧ ids d' = ids d + 1 ∧
      bytes_live (store d') = <[ids d := n]> (bytes_live (store d)))
    (λ _ d', bytes_inv d' ∧ ids d ≤ ids d' ∧ bytes_live (store d') = bytes_live (store d)).
Proof.
  intros Hinv Hids. unfold bytes_alloc. wp_step; [by wp_step; split|].
  apply wp_bind, new_storage_id_spec; [done|]. wp_step.
  - wp_step. simpl. split; [|split; [lia|done]]. intros i a Ha. specialize (Hinv i a Ha). simpl. lia.
  - wp_steps. assert (allocations (store d) !! ids d = None) as Hnew.
    { destruct (allocations (store d) !! ids d) eqn:Ha; [|done]. specialize (Hinv _ _ Ha). lia. }
    split; [|split; [done|split; [done|by apply bytes_live_alloc]]].
    intros i a. simpl. rewrite lookup_insert_Some. intros [[<- _]|[_ Ha]]; [lia|].
    specialize (Hinv _ _ Ha). lia.
Qed.

#[export] Program Instance bytes_storage_laws :
    @ComputeStorageLaws BytesStorage (bytes_storage os_alloc) :=
  {| live := bytes_live; storage_inv := bytes_inv |}.
Next Obligation.
  intros d i n Hinv (_ & a & Ha & _)%bytes_live_lookup. by eapply Hinv.
Qed.
Next Obligation. intros d Hinv i a Ha. specialize (Hinv i a Ha). simpl. lia. Qed.
Next Obligation. intros n d Hinv Hids. by apply bytes_alloc_spec. Qed.
Next Obligation. intros i d Hinv. split; [done|apply bytes_live_dealloc]. Qed.
Next Obligation. done. Qed.
End laws.

(** ** Leases *)

(** Events of the clients of one storage: the leases they hold are kept in the
    order of acquisition. *)
Inductive lease_event :=
| EvAlloc (n : N)
| EvDealloc (i : N)
| EvAcquire (h : StorageHandle) (w : bool)
| EvDrop (k : nat)
| EvWrite (k : nat) (bytes : list N).

Section leases.
Context (os_alloc : N → bool).

Definition lease_step (d : Device BytesStorage) (ls : list BorrowLease) (ev : lease_event)
    : option (Device BytesStorage * list BorrowLease) :=
  let keep {A} (o : res BytesAccessError A * BytesStorage) (f : A → list BorrowLease) :=
    match o with
    | (Ok a, s) => Some (mkDevice (ids d) s, f a)
    | (Err _, s) => Some (mkDevice (ids d) s, ls)
    | (Panic, _) => None
    end in
  match ev with
  | EvAlloc n =>
      match bytes_alloc os_alloc n d with
      | (Panic, _) => None
      | (_, d') => Some (d', ls)
      end
  | EvDealloc i => Some (mkDevice (ids d) (bytes_dealloc i (store d)), ls)
  | EvAcquire h w =>
      keep ((let! r := try_get h in acquire r w) (store d)) (λ l, ls ++ [l])
  | EvDrop k =>
      l ← ls !! k; keep (drop_lease l (store d)) (λ _, delete k ls)
  | EvWrite k bytes =>
      l ← ls !! k; keep (copy_from_slice l bytes (store d)) (λ _, ls)
  end.
(** A holder drops or writes through a lease it has, writes through a writable
    one, and writes exactly its length. *)
Definition lease_enabled (d : Device BytesStorage) (ls : list BorrowLease) (ev : lease_event) : Prop :=
  match ev with
  | EvAlloc _ => ids d < usize_max
  | EvDealloc _ | EvAcquire _ _ => True
  | EvDrop k => is_Some (ls !! k)
  | EvWrite k bytes => ∃ l, ls !! k = Some l ∧ writable (region l) = true ∧
      len bytes = (range (region l)).2 - (range (region l)).1
  end.
Inductive lease_reach : Device BytesStorage → list BorrowLease → Prop :=
| lease_init : lease_reach (mkDevice 0 (mkBytes ∅ ∅)) []
| lease_next d ls ev d' ls' :
    lease_reach d ls → lease_enabled d ls ev → lease_step d ls ev = Some (d', ls') →
    lease_reach d' ls'.

Definition on (i : N) (ls : list BorrowLease) : list BorrowRegion :=
  region <$> filter (λ l, lease_allocation l = i) ls.
Definition registered (s : BytesStorage) (ls : list BorrowLease) : Prop :=
  (∀ i a, allocations s !! i = Some a → borrows a ≡ₚ on i ls) ∧
  Forall (λ l, ∃ a, allocations s !! lease_allocation l = Some a ∧
    (range (region l)).1 ≤ (range (region l)).2 ≤ len (contents a)) ls.
Definition compatible (l l' : BorrowLease) : Prop :=
  lease_allocation l = lease_allocation l' → conflicts (region l) (region l') = false.
Definition leases_ok (d : Device BytesStorage) (ls : list BorrowLease) : Prop :=
  bytes_inv d ∧ registered (store d) ls ∧
  ∀ i j l l', i ≠ j → ls !! i = Some l → ls !! j = Some l' → compatible l l'.

Lemma conflicts_sym r r' : conflicts r r' = conflicts r' r.
Proof.
  unfold conflicts.
  destruct ((range r).2 <=? (range r).1), ((range r').2 <=? (range r').1),
    ((range r).1 <? (range r').2), ((range r').1 <? (range r).2), (writable r), (writable r'); done.
Qed.
Lemma conflicts_overlap r r' b :
  conflicts r r' = false → (range r).1 ≤ b < (range r).2 → (range r').1 ≤ b < (range r').2 →
  writable r = false ∧ writable r' = false.
Proof.
  unfold conflicts. intros Hc Hb Hb'.
  destruct (N.leb_spec (range r).2 (range r).1), (N.leb_spec (range r').2 (range r').1),
    (N.ltb_spec (range r).1 (range r').2), (N.ltb_spec (range r').1 (range r).2); simpl in *; try lia.
  by apply orb_false_iff.
Qed.

Lemma swap_remove_perm {A} (l : list A) i x :
  l !! i = Some x → x :: swap_remove l i ≡ₚ l.
Proof.
  intros Hi. destruct l as [|y l' _] using rev_ind; [done|].
  unfold swap_remove. rewrite last_snoc, length_app. simpl.
  pose proof (lookup_lt_Some _ _ _ Hi) as Hlt. rewrite length_app in Hlt. simpl in Hlt.
  case_decide as Hd.
  - assert (i = length l') as -> by lia. rewrite lookup_app_r, Nat.sub_diag in Hi by lia.
    simplify_eq/=. rewrite take_app_length. by rewrite Permutation_app_comm.
  - replace (length l' + 1 - 1)%nat with (length l') by lia. rewrite take_app_length.
    rewrite lookup_app_l in Hi by lia.
    rewrite <-(take_drop_middle l' i x Hi) at 2. rewrite insert_take_drop by lia.
    rewrite <-!app_assoc. simpl. rewrite (Permutation_middle (take i l')).
    apply Permutation_app_head. constructor. apply Permutation_cons_append.
Qed.

Lemma on_app i ls l :
  on i (ls ++ [l]) = on i ls ++ if decide (lease_allocation l = i) then [region l] else [].
Proof.
  unfold on. rewrite filter_app, fmap_app. f_equal. rewrite filter_cons, filter_nil.
  by case_decide.
Qed.
Lemma on_delete i ls k l :
  ls !! k = Some l →
  on i ls ≡ₚ (if decide (lease_allocation l = i) then [region l] else []) ++ on i (delete k ls).
Proof.
  intros Hk. unfold on. rewrite (delete_Permutation _ _ _ Hk) at 1. rewrite filter_cons.
  by case_decide.
Qed.
Lemma elem_of_on i ls r : r ∈ on i ls ↔ ∃ l, l ∈ ls ∧ lease_allocation l = i ∧ region l = r.
Proof.
  unfold on. rewrite list_elem_of_fmap. setoid_rewrite list_elem_of_filter. naive_solver.
Qed.

(** Leases only depend on the allocations, by their sizes and registries. *)
Lemma registered_insert s ls i a a' :
  registered s ls → allocations s !! i = Some a → len (contents a') = len (contents a) →
  borrows a' = borrows a →
  registered (mkBytes (memory s) (<[i := a']> (allocations s))) ls.
Proof.
  intros [Hr Hf] Hi Hlen Hbor. split.
  - intros j b. simpl. rewrite lookup_insert_Some. intros [[<- <-]|[_ Hj]]; [|by apply Hr].
    rewrite Hbor. by apply Hr.
  - eapply Forall_impl; [exact Hf|]. intros l (b & Hb & Hrange). simpl.
    destruct (decide (lease_allocation l = i)) as [Heq|Hne].
    + exists a'. rewrite Heq, lookup_insert_eq in *. split; [done|].
      rewrite Hlen. by simplify_eq.
    + exists b. by rewrite lookup_insert_ne by done.
Qed.

Lemma try_get_spec h s :
  wp (try_get h) s (λ r s', s' = s ∧ ∃ a, allocations s !! allocation r = Some a ∧
    (res_range r).1 ≤ (res_range r).2 ≤ len (contents a)) (λ _ s', s' = s).
Proof.
  unfold try_get. apply wp_bind, wp_gets.
  destruct (if decide _ then _ else _) as [a|] eqn:Ha; [|by wp_step].
  assert (allocations s !! id h = Some a) as Ha' by (by destruct (decide (id h ∈ memory s))).
  apply wp_bind. apply wp_ok_or; [|done]. intros e He.
  unfold checked_add in He. destruct (N.leb_spec (handle_offset h + handle_size h) u64_max); [|done].
  simplify_eq. destruct (_ || _) eqn:Hb; [by wp_step|]. wp_step. split; [done|].
  exists a. split; [done|]. simpl. rewrite !orb_false_iff, !N.ltb_ge in Hb. lia.
Qed.

Lemma acquire_spec r w s ls a :
  registered s ls → allocations s !! allocation r = Some a →
  (res_range r).1 ≤ (res_range r).2 ≤ len (contents a) →
  wp (acquire r w) s (λ l s', registered s' (ls ++ [l]) ∧
      (∀ l', l' ∈ ls → compatible l l') ∧
      s' = mkBytes (memory s) (<[allocation r := mkAllocated (contents a) (borrows a ++ [region l])]>
             (allocations s)))
    (λ _ s', s' = s).
Proof.
  intros [Hr Hf] Ha Hrange. unfold acquire, set_borrows. wp_steps. rewrite Ha. wp_steps; [done|].
  match goal with H : list_find _ _ = None |- _ => rename H into Hnone end.
  apply list_find_None in Hnone. split; [split|split; [|done]].
  - intros j b. simpl. rewrite on_app. simpl. rewrite lookup_insert_Some.
    intros [[<- <-]|[Hne Hj]].
    + rewrite decide_True by done. simpl. by rewrite Hr by done.
    + rewrite decide_False by done. rewrite app_nil_r. by apply Hr.
  - simpl. assert (∀ l, (∃ b, allocations s !! lease_allocation l = Some b ∧
        (range (region l)).1 ≤ (range (region l)).2 ≤ len (contents b)) →
      ∃ b, <[allocation r := mkAllocated (contents a) (borrows a ++ [mkRegion (res_range r) w])]>
        (allocations s) !! lease_allocation l = Some b ∧
        (range (region l)).1 ≤ (range (region l)).2 ≤ len (contents b)) as Hup.
    { intros l (b & Hb & Hl). destruct (decide (lease_allocation l = allocation r)) as [Heq|Hne].
      - rewrite Heq in *. rewrite lookup_insert_eq. eexists. split; [done|]. simplify_eq. done.
      - rewrite lookup_insert_ne by done. by exists b. }
    apply Forall_app. split; [eapply Forall_impl; [exact Hf|exact Hup]|].
    constructor; [|done]. apply Hup. exists a. done.
  - intros l' Hl'. unfold compatible. simpl. intros Heq.
    assert (region l' ∈ borrows a) as Hin.
    { rewrite (Hr _ _ Ha). apply elem_of_on. exists l'. auto. }
    rewrite Forall_forall in Hnone. specialize (Hnone _ Hin).
    by apply not_true_is_false in Hnone.
Qed.

Lemma drop_lease_spec s ls k l :
  registered s ls → ls !! k = Some l →
  wp (drop_lease l) s (λ _ s', registered s' (delete k ls)) (λ _ _, False).
Proof.
  intros [Hr Hf] Hk.
  pose proof (Forall_lookup_1 _ _ _ _ Hf Hk) as (a & Ha & _).
  unfold drop_lease, set_borrows. wp_steps. rewrite Ha. wp_steps.
  assert (region l ∈ borrows a) as Hin.
  { rewrite (Hr _ _ Ha). apply elem_of_on. exists l. split; [|done].
    by eapply list_elem_of_lookup_2. }
  destruct (list_find_elem_of (λ r, r = region l) _ _ Hin eq_refl) as [[i r] Hfind].
  rewrite Hfind. apply list_find_Some in Hfind as (Hi & -> & _). wp_steps. split; simpl.
  - intros j b. rewrite lookup_insert_Some. intros [[<- <-]|[Hne Hj]].
    + simpl. pose proof (on_delete (lease_allocation l) ls k l Hk) as Hon.
      rewrite decide_True in Hon by done. simpl in Hon.
      apply (Permutation_cons_inv (a:=region l)). rewrite <-Hon, swap_remove_perm by done.
      by apply Hr.
    + pose proof (on_delete j ls k l Hk) as Hon. rewrite decide_False in Hon by done.
      simpl in Hon. rewrite <-Hon. by apply Hr.
  - apply Forall_delete. eapply Forall_impl; [exact Hf|]. intros l' (b & Hb & Hl').
    destruct (decide (lease_allocation l' = lease_allocation l)) as [Heq|Hne].
    + rewrite Heq in *. rewrite lookup_insert_eq. eexists. split; [done|]. simpl. by simplify_eq.
    + rewrite lookup_insert_ne by done. by exists b.
Qed.

(** Bytes seen by a lease after a write of [bytes] at [start]. *)
Definition overwrite (start : nat) (bytes l : list N) : list N :=
  take start l ++ bytes ++ drop (start + length bytes) l.
Lemma overwrite_length start bytes l :
  (start + length bytes ≤ length l)%nat → length (overwrite start bytes l) = length l.
Proof. intros. unfold overwrite. rewrite !length_app, length_take, length_drop. lia. Qed.
Lemma overwrite_lookup start bytes l i :
  (start + length bytes ≤ length l)%nat →
  overwrite start bytes l !! i =
    if decide (start ≤ i < start + length bytes)%nat then bytes !! (i - start)%nat else l !! i.
Proof.
  intros Hl. unfold overwrite. case_decide as Hi.
  - rewrite lookup_app_r by (rewrite length_take; lia).
    rewrite length_take, lookup_app_l by lia. f_equal. lia.
  - destruct (decide (i < start)%nat).
    + rewrite lookup_app_l by (rewrite length_take; lia). by apply lookup_take_lt.
    + rewrite !lookup_app_r by (rewrite ?length_take; lia).
      rewrite lookup_drop. f_equal. rewrite length_take. lia.
Qed.
Lemma slice_overwrite_disjoint a n start bytes l :
  (start + length bytes ≤ length l)%nat →
  (a + n ≤ start ∨ start + length bytes ≤ a ∨ n = 0 ∨ length bytes = 0)%nat →
  take n (drop a (overwrite start bytes l)) = take n (drop a l).
Proof.
  intros Hl Hd. apply list_eq. intros i. destruct (decide (i < n)%nat).
  - rewrite !lookup_take_lt, !lookup_drop, overwrite_lookup by lia.
    rewrite decide_False by lia. done.
  - by rewrite !lookup_take_ge by lia.
Qed.
Lemma slice_overwrite_same start bytes l :
  (start + length bytes ≤ length l)%nat →
  take (length bytes) (drop start (overwrite start bytes l)) = bytes.
Proof.
  intros Hl. unfold overwrite. rewrite drop_app_length' by (rewrite length_take; lia).
  by rewrite take_app_length.
Qed.

Lemma copy_spec s ls k l bytes :
  registered s ls → ls !! k = Some l →
  len bytes = (range (region l)).2 - (range (region l)).1 →
  ∃ a, allocations s !! lease_allocation l = Some a ∧
    (N.to_nat (range (region l)).1 + length bytes ≤ length (contents a))%nat ∧
    copy_from_slice l bytes s = (Ok tt, mkBytes (memory s)
      (<[lease_allocation l := mkAllocated
          (overwrite (N.to_nat (range (region l)).1) bytes (contents a)) (borrows a)]>
        (allocations s))).
Proof.
  intros [_ Hf] Hk Hlen. pose proof (Forall_lookup_1 _ _ _ _ Hf Hk) as (a & Ha & Hrange).
  exists a. split; [done|]. split; [unfold len in *; lia|].
  unfold copy_from_slice, bind, gets, expect, modify. rewrite Ha. simpl.
  by rewrite (proj2 (N.eqb_eq _ _) Hlen).
Qed.

(** Overlapping leases are both readers. *)
Lemma ok_overlap d ls i j l l' b :
  leases_ok d ls → i ≠ j → ls !! i = Some l → ls !! j = Some l' →
  lease_allocation l = lease_allocation l' →
  (range (region l)).1 ≤ b < (range (region l)).2 →
  (range (region l')).1 ≤ b < (range (region l')).2 →
  writable (region l) = false ∧ writable (region l') = false.
Proof.
  intros (_ & _ & Hc) Hij Hi Hj Heq. apply conflicts_overlap. by apply (Hc i j).
Qed.
Lemma write_disjoint d ls i j l l' :
  leases_ok d ls → i ≠ j → ls !! i = Some l → ls !! j = Some l' →
  lease_allocation l = lease_allocation l' → writable (region l') = true →
  (range (region l)).2 ≤ (range (region l')).1 ∨ (range (region l')).2 ≤ (range (region l)).1 ∨
  (range (region l)).2 - (range (region l)).1 = 0 ∨
  (range (region l')).2 - (range (region l')).1 = 0.
Proof.
  intros Hok Hij Hi Hj Heq Hw.
  destruct (decide (N.max (range (region l)).1 (range (region l')).1 <
    N.min (range (region l)).2 (range (region l')).2)) as [Hlt|Hge]; [|lia].
  destruct (ok_overlap d ls i j l l' (N.max (range (region l)).1 (range (region l')).1)
    Hok Hij Hi Hj Heq) as [_ Hw']; [lia|lia|congruence].
Qed.

Lemma compatible_app (ls : list BorrowLease) l :
  (∀ i j x y, i ≠ j → ls !! i = Some x → ls !! j = Some y → compatible x y) →
  (∀ x, x ∈ ls → compatible l x) →
  ∀ i j x y, i ≠ j → (ls ++ [l]) !! i = Some x → (ls ++ [l]) !! j = Some y → compatible x y.
Proof.
  intros Hc Hl i j x y Hij. rewrite !lookup_snoc_Some.
  intros [[? Hi]|[-> <-]] [[? Hj]|[-> <-]]; [by eapply Hc| | |done].
  - intros Heq. rewrite conflicts_sym. apply Hl; [by eapply list_elem_of_lookup_2|done].
  - apply Hl. by eapply list_elem_of_lookup_2.
Qed.
Lemma compatible_delete (ls : list BorrowLease) (k : nat) :
  (∀ i j x y, i ≠ j → ls !! i = Some x → ls !! j = Some y → compatible x y) →
  ∀ i j x y, i ≠ j → delete k ls !! i = Some x → delete k ls !! j = Some y → compatible x y.
Proof.
  intros Hc i j x y Hij. rewrite !list_lookup_delete.
  apply Hc. repeat case_decide; lia.
Qed.

Lemma registered_memory s ls m : registered s ls → registered (mkBytes m (allocations s)) ls.
Proof. done. Qed.

Lemma registered_new s ls i n m :
  registered s ls → allocations s !! i = None →
  registered (mkBytes m (<[i := mkAllocated (replicate (N.to_nat n) 0) []]> (allocations s))) ls.
Proof.
  intros [Hr Hf] Hi. assert (∀ l, l ∈ ls → lease_allocation l ≠ i) as Hno.
  { intros l Hl <-. rewrite Forall_forall in Hf. destruct (Hf l Hl) as (a & Ha & _). congruence. }
  split; simpl.
  - intros j b. rewrite lookup_insert_Some. intros [[<- <-]|[_ Hj]]; [|by apply Hr].
    simpl. unfold on. assert (filter (λ l, lease_allocation l = i) ls = []) as ->; [|done].
    destruct (filter _ ls) as [|l ?] eqn:Hfl; [done|].
    assert (l ∈ filter (λ l, lease_allocation l = i) ls) as Hin by (rewrite Hfl; by left).
    apply list_elem_of_filter in Hin as [? Hl]. by destruct (Hno l Hl).
  - rewrite Forall_forall in Hf |- *. intros l Hl. rewrite lookup_insert_ne by (by apply not_eq_sym, Hno).
    by apply Hf.
Qed.
Lemma bytes_alloc_cases n d :
  ids d < usize_max →
  wp (bytes_alloc os_alloc n) d
    (λ _ d', d' = mkDevice (ids d + 1) (mkBytes ({[ids d]} ∪ memory (store d))
      (<[ids d := mkAllocated (replicate (N.to_nat n) 0) []]> (allocations (store d)))))
    (λ _ d', store d' = store d ∧ ids d ≤ ids d').
Proof.
  intros Hids. unfold bytes_alloc. wp_step; [by wp_step|].
  apply wp_bind, new_storage_id_spec; [done|]. wp_step; wp_steps; [|done]. split; [done|lia].
Qed.

(** What a step leaves alone: the bytes under every lease but the one written
    through. *)
Definition undisturbed (d d' : Device BytesStorage) (ls : list BorrowLease) (ev : lease_event) : Prop :=
  ∀ k l, ls !! k = Some l → (∀ bytes, ev ≠ EvWrite k bytes) →
    lease_bytes l (store d') = lease_bytes l (store d).

Lemma lease_bytes_put l s i a bs m :
  allocations s !! i = Some a →
  lease_bytes l (mkBytes m (<[i := mkAllocated (contents a) bs]> (allocations s))) = lease_bytes l s.
Proof.
  intros Ha. unfold lease_bytes. simpl. destruct (decide (lease_allocation l = i)) as [->|Hne].
  - by rewrite lookup_insert_eq, Ha.
  - by rewrite lookup_insert_ne.
Qed.

Lemma step_alloc d ls n :
  leases_ok d ls → ids d < usize_max →
  ∃ d', lease_step d ls (EvAlloc n) = Some (d', ls) ∧ leases_ok d' ls ∧
    undisturbed d d' ls (EvAlloc n).
Proof.
  intros (Hinv & Hr & Hc) Hids. simpl. pose proof (bytes_alloc_cases n d Hids) as Hs.
  assert (allocations (store d) !! ids d = None) as Hnew.
  { destruct (allocations (store d) !! ids d) eqn:Ha; [|done]. specialize (Hinv _ _ Ha). lia. }
  unfold wp in Hs. destruct (bytes_alloc os_alloc n d) as [[h|e|] d']; [| |done].
  - subst d'. eexists. split; [done|]. split; [split; [|split; [by apply registered_new|done]]|].
    + intros i a. simpl. rewrite lookup_insert_Some. intros [[<- _]|[_ Ha]]; [lia|].
      specialize (Hinv _ _ Ha). lia.
    + intros k l Hk _. destruct Hr as [_ Hf].
      pose proof (Forall_lookup_1 _ _ _ _ Hf Hk) as (a & Ha & _).
      unfold lease_bytes. simpl. rewrite lookup_insert_ne; [done|]. congruence.
  - destruct Hs as [Hst Hle]. exists d'. split; [done|]. unfold leases_ok, undisturbed, bytes_inv.
    rewrite Hst. split; [|done]. split; [|done]. intros i a Ha. specialize (Hinv _ _ Ha). lia.
Qed.
Lemma step_acquire d ls h w :
  leases_ok d ls →
  ∃ d' ls', lease_step d ls (EvAcquire h w) = Some (d', ls') ∧ leases_ok d' ls' ∧
    undisturbed d d' ls (EvAcquire h w).
Proof.
  intros (Hinv & Hr & Hc). simpl.
  assert (wp (let! r := try_get h in acquire r w) (store d) (λ l s', registered s' (ls ++ [l]) ∧
      (∀ l', l' ∈ ls → compatible l l') ∧ ∃ i a bs, allocations (store d) !! i = Some a ∧
      s' = mkBytes (memory (store d)) (<[i := mkAllocated (contents a) bs]> (allocations (store d))))
      (λ _ s', s' = store d)) as Hs.
  { apply wp_bind. eapply wp_mono; [apply try_get_spec|]. intros r s' (-> & a & Ha & Hrange).
    eapply wp_mono; [by eapply acquire_spec|]. intros l s' (? & ? & ->). eauto 10. }
  unfold wp in Hs. destruct (bind _ _ _) as [[l|e|] s']; [| |done].
  - destruct Hs as (Hr' & Hl & i & a & bs & Ha & ->). do 2 eexists. split; [done|].
    split; [split; [|split; [done|by apply compatible_app]]|].
    + intros j b. simpl. rewrite lookup_insert_Some. intros [[<- _]|[_ Hj]]; by eapply Hinv.
    + intros k x Hk _. by apply lease_bytes_put.
  - subst s'. do 2 eexists. split; [done|]. done.
Qed.
Lemma step_drop d ls k :
  leases_ok d ls → is_Some (ls !! k) →
  ∃ d', lease_step d ls (EvDrop k) = Some (d', delete k ls) ∧ leases_ok d' (delete k ls) ∧
    undisturbed d d' ls (EvDrop k).
Proof.
  intros (Hinv & Hr & Hc) [l Hk]. simpl. rewrite Hk. simpl.
  pose proof (drop_lease_spec _ _ _ _ Hr Hk) as Hs.
  destruct Hr as [_ Hf]. pose proof (Forall_lookup_1 _ _ _ _ Hf Hk) as (a & Ha & _).
  assert (∀ o s', drop_lease l (store d) = (o, s') → o ≠ Panic → ∃ bs, s' = mkBytes (memory (store d))
    (<[lease_allocation l := mkAllocated (contents a) bs]> (allocations (store d)))) as Hput.
  { intros o s'. unfold drop_lease, bind, gets, expect, set_borrows, modify. rewrite Ha. simpl.
    destruct (list_find _ _) as [p|]; simpl; intros Heq ?; [|by simplify_eq].
    injection Heq as <- <-. by eexists. }
  unfold wp in Hs. destruct (drop_lease l (store d)) as [[[]|e|] s'] eqn:Hd; [|done|done].
  destruct (Hput _ _ eq_refl) as [bs ->]; [done|]. eexists. split; [done|].
  split; [split; [|split; [done|by apply compatible_delete]]|].
  - intros j b. simpl. rewrite lookup_insert_Some. intros [[<- _]|[_ Hj]]; by eapply Hinv.
  - intros j x Hj _. by apply lease_bytes_put.
Qed.
Lemma step_write d ls k bytes :
  leases_ok d ls → lease_enabled d ls (EvWrite k bytes) →
  ∃ d', lease_step d ls (EvWrite k bytes) = Some (d', ls) ∧ leases_ok d' ls ∧
    undisturbed d d' ls (EvWrite k bytes).
Proof.
  intros Hok (l & Hk & Hw & Hlen). pose proof Hok as (Hinv & Hr & Hc).
  destruct (copy_spec _ _ _ _ _ Hr Hk Hlen) as (a & Ha & Hfit & Hcopy).
  simpl. rewrite Hk. simpl. rewrite Hcopy. eexists. split; [done|]. split; [split; [|split; [|done]]|].
  - intros j b. simpl. rewrite lookup_insert_Some. intros [[<- _]|[_ Hj]]; by eapply Hinv.
  - apply (registered_insert _ _ _ a); [done|done| |done]. simpl. unfold len.
    by rewrite overwrite_length.
  - intros j x Hj Hne. assert (j ≠ k) as Hjk by (intros ->; by destruct (Hne bytes)).
    unfold lease_bytes. simpl. destruct (decide (lease_allocation x = lease_allocation l)) as [Heq|].
    2:{ by rewrite lookup_insert_ne. }
    rewrite Heq, lookup_insert_eq, Ha. simpl. f_equal. apply slice_overwrite_disjoint; [done|].
    pose proof (write_disjoint _ _ _ _ _ _ Hok Hjk Hj Hk Heq Hw) as Hd.
    destruct Hr as [_ Hf]. pose proof (Forall_lookup_1 _ _ _ _ Hf Hj) as (b & _ & Hx).
    pose proof (Forall_lookup_1 _ _ _ _ Hf Hk) as (c & _ & Hl). unfold len in *. lia.
Qed.

Lemma lease_step_spec d ls ev :
  leases_ok d ls → lease_enabled d ls ev →
  ∃ d' ls', lease_step d ls ev = Some (d', ls') ∧ leases_ok d' ls' ∧ undisturbed d d' ls ev.
Proof.
  intros Hok Hen. destruct ev.
  - destruct (step_alloc _ _ n Hok Hen) as (d' & ?). eauto.
  - do 2 eexists. split; [done|]. destruct Hok as (? & ? & ?). done.
  - by apply step_acquire.
  - destruct (step_drop _ _ _ Hok Hen) as (d' & ?). eauto.
  - destruct (step_write _ _ _ _ Hok Hen) as (d' & ?). eauto.
Qed.
Lemma lease_reach_ok d ls : lease_reach d ls → leases_ok d ls.
Proof.
  induction 1 as [|d ls ev d' ls' _ IH Hen Hs].
  - split; [|split; [split|]]; [by intros i a|by intros i a|done|by intros i j l l' _].
  - destruct (lease_step_spec _ _ _ IH Hen) as (d2 & ls2 & Hs2 & ? & _). simplify_eq. congruence.
Qed.

(** C37. Whatever the interleaving of allocations, removals, lookups, borrows,
    writes and drops: no step panics, a byte covered by two live leases is only
    read by both, and every lease lies inside its allocation, even after the
    storage dropped it. *)
Theorem leases_exclusive d ls :
  lease_reach d ls →
  (∀ ev, lease_enabled d ls ev → is_Some (lease_step d ls ev)) ∧
  (∀ k l, ls !! k = Some l → ∃ a, allocations (store d) !! lease_allocation l = Some a ∧
     (range (region l)).2 ≤ len (contents a)) ∧
  ∀ i j l l' b, i ≠ j → ls !! i = Some l → ls !! j = Some l' →
    lease_allocation l = lease_allocation l' →
    (range (region l)).1 ≤ b < (range (region l)).2 →
    (range (region l')).1 ≤ b < (range (region l')).2 →
    writable (region l) = false ∧ writable (region l') = false.
Proof.
  intros Hok%lease_reach_ok. split; [|split].
  - intros ev Hen. destruct (lease_step_spec _ _ _ Hok Hen) as (d' & ls' & -> & _). done.
  - intros k l Hk. destruct Hok as (_ & [_ Hf] & _).
    pose proof (Forall_lookup_1 _ _ _ _ Hf Hk) as (a & Ha & ?). exists a. split; [done|lia].
  - intros i j l l' b. by apply (ok_overlap d ls).
Qed.

(** The bytes under a held lease are stable: no event of any client changes
    them, except a write through that very lease. *)
Theorem lease_bytes_stable d ls ev d' ls' k l :
  lease_reach d ls → lease_enabled d ls ev → lease_step d ls ev = Some (d', ls') →
  ls !! k = Some l → (∀ bytes, ev ≠ EvWrite k bytes) →
  lease_bytes l (store d') = lease_bytes l (store d).
Proof.
  intros Hok%lease_reach_ok Hen Hs.
  destruct (lease_step_spec _ _ _ Hok Hen) as (d2 & ls2 & Hs2 & _ & Hun). simplify_eq.
  apply Hun.
Qed.
End leases.

(** ** Witnesses *)

Definition lease_demo_device : Device BytesStorage :=
  mkDevice 1 (mkBytes {[0]} {[0 := mkAllocated (replicate 8 0) [mkRegion (0, 4) true; mkRegion (4, 8) false]]}).
Definition lease_demo : list BorrowLease :=
  [mkLease 0 (mkRegion (0, 4) true); mkLease 0 (mkRegion (4, 8) false)].
Lemma lease_demo_reach : lease_reach (λ _, true) lease_demo_device lease_demo.
Proof.
  apply (lease_next _ (mkDevice 1 (mkBytes {[0]} {[0 := mkAllocated (replicate 8 0) [mkRegion (0, 4) true]]}))
    [mkLease 0 (mkRegion (0, 4) true)] (EvAcquire (mkHandle 0 (mkUtil 4 4)) false));
    [|done|vm_compute; reflexivity].
  apply (lease_next _ (mkDevice 1 (mkBytes {[0]} {[0 := mkAllocated (replicate 8 0) []]}))
    [] (EvAcquire (mkHandle 0 (mkUtil 0 4)) true)); [|done|vm_compute; reflexivity].
  apply (lease_next _ (mkDevice 0 (mkBytes ∅ ∅)) [] (EvAlloc 8)); [|by vm_compute|vm_compute; reflexivity].
  apply lease_init.
Qed.
Lemma leases_exclusive_witness :
  is_Some (lease_step (λ _, true) lease_demo_device lease_demo (EvWrite 0 [1; 2; 3; 4])).
Proof.
  apply (leases_exclusive (λ _, true) lease_demo_device lease_demo); [apply lease_demo_reach|].
  by exists (mkLease 0 (mkRegion (0, 4) true)).
Defined.
Lemma lease_bytes_stable_witness :
  ∃ d', lease_step (λ _, true) lease_demo_device lease_demo (EvWrite 0 [1; 2; 3; 4])
    = Some (d', lease_demo) ∧
  lease_bytes (mkLease 0 (mkRegion (4, 8) false)) (store d') =
    lease_bytes (mkLease 0 (mkRegion (4, 8) false)) (store lease_demo_device).
Proof.
  eexists. split; [vm_compute; reflexivity|].
  apply (lease_bytes_stable (λ _, true) lease_demo_device lease_demo (EvWrite 0 [1; 2; 3; 4]) _ lease_demo 1).
  - apply lease_demo_reach.
  - by exists (mkLease 0 (mkRegion (0, 4) true)).
  - vm_compute. reflexivity.
  - reflexivity.
  - intros bytes. discriminate.
Defined.
