(* ===== verification/Memory.v ===== *)
(** * Memory handles, pages and the sliced pool

    [ruda-runtime/src/runtime/memory_management/memory_pool/]: [handle.rs]
    (handles, bindings, descriptors and locations), [base.rs] (slices),
    [memory_page.rs] (one storage buffer cut into slices) and [sliced_pool.rs]
    (a pool of such pages), with [page_guard.rs] and the usage counters of
    [memory_management/base.rs].

    Descriptors and page references are shared objects ([Arc]): the model keeps
    them in a [Heap], a handle names its descriptor, and cloning or dropping a
    handle changes the strong count that [is_free] reads.  A descriptor whose
    last handle is dropped leaves the heap and drops its taint.  Methods on
    [&mut self] take the page or pool and return the new one; the heap and the
    device are the state of the monad. *)

From S2P Require Import Prelude Taint Storage.
Open Scope N_scope.

(** ** Locations *)

Record MemoryLocation := mkLocation { pool : N; page : N; slice : N; init : N }.

Definition new_location (pool page slice : N) : MemoryLocation := mkLocation pool page slice 1.
Definition dedicated_location (slice : N) : MemoryLocation := mkLocation 0 0 slice 2.
Definition is_dedicated (l : MemoryLocation) : bool := init l =? 2.
Definition uninit : MemoryLocation := mkLocation 0 0 0 0.

(** [x as u8], [x as u16], [x as u32] *)
Definition as_u8 (n : N) : N := N.land n u8_max.
Definition as_u16 (n : N) : N := N.land n u16_max.
Definition as_u32 (n : N) : N := N.land n u32_max.

Definition to_bits (l : MemoryLocation) : N :=
  N.lor (N.lor (N.lor (pool l) (N.shiftl (page l) 8)) (N.shiftl (slice l) 24))
    (N.shiftl (init l) 56).
Definition from_bits (bits : N) : MemoryLocation :=
  mkLocation (as_u8 bits) (as_u16 (N.shiftr bits 8)) (as_u32 (N.shiftr bits 24))
    (as_u8 (N.shiftr bits 56)).

Definition with_slice (s : N) (l : MemoryLocation) : MemoryLocation :=
  mkLocation (pool l) (page l) s (init l).
Definition with_page (p : N) (l : MemoryLocation) : MemoryLocation :=
  mkLocation (pool l) p (slice l) (init l).

(** ** Shared objects *)

(** The location is stored as such; on targets with 64-bit atomics it is stored
    as [to_bits], which is the same by the round trip of the two functions.
    [strong] counts the handles and bindings, [handles] the handles alone. *)
Record ManagedMemoryDescriptor := mkDescriptor {
  location : MemoryLocation;
  strong : N;
  handles : N;
  pins : N;
  revision : N;
  failures_of : list Tainted
}.

Record Heap (SE : Type) := mkHeap {
  descriptors : gmap N ManagedMemoryDescriptor;
  next_id : N;
  guards : gmap N N;
  next_guard : N;
  roots : gmap N (Root SE)
}.
Arguments mkHeap {SE}.
Arguments descriptors {SE}.
Arguments next_id {SE}.
Arguments guards {SE}.
Arguments next_guard {SE}.
Arguments roots {SE}.

(** The state of a memory method: heap, device, and the dry-run flag that
    [PageMapping::current] reads. *)
Record Env (SE S : Type) := mkEnv { heap : Heap SE; device : Device S; dry_run : bool }.
Arguments mkEnv {SE S}.
Arguments heap {SE S}.
Arguments device {SE S}.
Arguments dry_run {SE S}.

(** A [ManagedMemoryHandle], [ManagedMemoryBinding] or [PageRef] by the object it
    points to. *)
Abbreviation Handle := N (only parsing).
Abbreviation PageRef := N (only parsing).

Section handles.
Context {P : Profile} {SE S : Type} {CS : ComputeStorage S}.
Abbreviation Mem := (M (Env SE S) IoError).

Definition set_heap (h : Heap SE) (e : Env SE S) : Env SE S := mkEnv h (device e) (dry_run e).
Definition set_descriptors (m : gmap N ManagedMemoryDescriptor) (h : Heap SE) : Heap SE :=
  mkHeap m (next_id h) (guards h) (next_guard h) (roots h).

(** An object reached through a handle exists. *)
Definition descriptor (h : Handle) : Mem ManagedMemoryDescriptor :=
  let! e := gets (λ e, e) in expect (descriptors (heap e) !! h).
Definition put_descriptor (h : Handle) (d : ManagedMemoryDescriptor) : Mem unit :=
  modify (λ e, set_heap (set_descriptors (<[h := d]> (descriptors (heap e))) (heap e)) e).

Definition on_roots {A} (m : M (gmap N (Root SE)) IoError A) : Mem A := λ e,
  let h := heap e in
  let '(o, rs) := m (roots h) in
  (o, set_heap (mkHeap (descriptors h) (next_id h) (guards h) (next_guard h) rs) e).
Definition on_device {A} (m : M (Device S) IoError A) : Mem A := λ e,
  let '(o, d) := m (device e) in (o, mkEnv (heap e) d (dry_run e)).

(** [ManagedMemoryHandle::new] *)
Definition new_handle : Mem Handle :=
  let! e := gets (λ e, e) in
  let v := next_id (heap e) in
  let! _ := modify (λ e, set_heap (mkHeap
    (<[v := mkDescriptor uninit 1 1 0 0 []]> (descriptors (heap e))) (v + 1)
    (guards (heap e)) (next_guard (heap e)) (roots (heap e))) e) in
  if v =? usize_max then panic else ret v.

Definition set_location (l : MemoryLocation) (d : ManagedMemoryDescriptor) : ManagedMemoryDescriptor :=
  mkDescriptor l (strong d) (handles d) (pins d) (revision d) (failures_of d).
Definition set_counts (s n : N) (d : ManagedMemoryDescriptor) : ManagedMemoryDescriptor :=
  mkDescriptor (location d) s n (pins d) (revision d) (failures_of d).
Definition set_pins (p r : N) (d : ManagedMemoryDescriptor) : ManagedMemoryDescriptor :=
  mkDescriptor (location d) (strong d) (handles d) p r (failures_of d).
Definition set_failures (t : list Tainted) (d : ManagedMemoryDescriptor) : ManagedMemoryDescriptor :=
  mkDescriptor (location d) (strong d) (handles d) (pins d) (revision d) t.

(** [Arc::clone] and drop of the descriptor; [n] is the change of the handle count. *)
Definition retain_ref (h : Handle) (n : N) : Mem unit :=
  let! d := descriptor h in put_descriptor h (set_counts (strong d + 1) (handles d + n) d).
Definition release_ref (h : Handle) (n : N) : Mem unit :=
  let! d := descriptor h in
  if strong d <=? 1 then
    let! _ := on_roots (clear (failures_of d)) in
    modify (λ e, set_heap (set_descriptors (delete h (descriptors (heap e))) (heap e)) e)
  else put_descriptor h (set_counts (strong d - 1) (handles d - n) d).

Definition clone_handle (h : Handle) : Mem Handle := let! _ := retain_ref h 1 in ret h.
Definition drop_handle (h : Handle) : Mem unit := release_ref h 1.
(** [handle.binding()] consumes the handle: the descriptor keeps its count. *)
Definition binding (h : Handle) : Mem Handle :=
  let! d := descriptor h in
  let! _ := put_descriptor h (set_counts (strong d) (handles d - 1) d) in ret h.
Definition clone_binding (h : Handle) : Mem Handle := let! _ := retain_ref h 0 in ret h.
Definition drop_binding (h : Handle) : Mem unit := release_ref h 0.
(** [WeakMemoryBinding::upgrade] *)
Definition upgrade (h : Handle) : Mem (option Handle) :=
  let! e := gets (λ e, e) in
  match descriptors (heap e) !! h with
  | None => ret None
  | Some _ => let! _ := retain_ref h 0 in ret (Some h)
  end.

Definition can_mut (h : Handle) : Mem bool := let! d := descriptor h in ret (handles d <=? 2).
Definition handle_is_free (h : Handle) : Mem bool := let! d := descriptor h in ret (strong d <=? 1).
Definition is_pinned (h : Handle) : Mem bool := let! d := descriptor h in ret (negb (pins d =? 0)).

Definition update_location (h : Handle) (l : MemoryLocation) : Mem unit :=
  let! d := descriptor h in
  let! _ := put_descriptor h (set_location l d) in
  when (negb (init l =? 0))
    (let! t := on_roots (clear_unallocated (failures_of d)) in
     put_descriptor h (set_failures t (set_location l d))).
Definition update_slice (h : Handle) (s : N) : Mem unit :=
  let! d := descriptor h in put_descriptor h (set_location (with_slice s (location d)) d).
Definition update_page (h : Handle) (p : N) : Mem unit :=
  let! d := descriptor h in put_descriptor h (set_location (with_page p (location d)) d).
Definition location_of (h : Handle) : Mem MemoryLocation := let! d := descriptor h in ret (location d).

(** [pin_changed]: the revision moves once observed, and stops at its maximum. *)
Definition pin_changed (d : ManagedMemoryDescriptor) : N :=
  if negb (revision d =? 0) && negb (revision d =? usize_max) then revision d + 1 else revision d.
(** [pin_revision]: the first observation makes it non-zero. *)
Definition pin_revision (h : Handle) : Mem N :=
  let! d := descriptor h in
  if revision d =? 0 then let! _ := put_descriptor h (set_pins (pins d) 1 d) in ret 1
  else ret (revision d).
(** [fetch_add] and [fetch_sub] wrap at [usize]. *)
Definition pin (h : Handle) : Mem Handle :=
  let! d := descriptor h in
  let! _ := put_descriptor h (set_pins ((pins d + 1) mod (usize_max + 1)) (pin_changed d) d) in
  clone_binding h.
Definition drop_pin (h : Handle) : Mem unit :=
  let! d := descriptor h in
  let! _ := put_descriptor h
    (set_pins ((pins d + usize_max) mod (usize_max + 1)) (pin_changed d) d) in
  drop_binding h.

(** Failures attached to a binding. *)
Definition is_allocated (h : Handle) : Mem bool :=
  let! d := descriptor h in ret (negb (init (location d) =? 0)).
Definition binding_failures (h : Handle) (start end_ : N) : Mem (list N) :=
  let! d := descriptor h in
  let! a := is_allocated h in
  ret (failures (failures_of d) (if a then (start, end_) else (0, u64_max))).
Definition binding_claim (h : Handle) (start end_ f : N) : Mem unit :=
  let! d := descriptor h in
  let! a := is_allocated h in
  let! t := on_roots (if a then claim (start, end_) f (failures_of d)
                      else claim_unallocated f (failures_of d)) in
  put_descriptor h (set_failures t d).
Definition clear_failure (h : Handle) (start end_ : N) : Mem unit :=
  let! d := descriptor h in
  let! t := on_roots (written (start, end_) (failures_of d)) in
  put_descriptor h (set_failures t d).
Definition release_failure (h : Handle) (start end_ f : N) : Mem unit :=
  let! d := descriptor h in
  let! t := on_roots (release (start, end_) f (failures_of d)) in
  put_descriptor h (set_failures t d).

(** Page references ([page_guard.rs]). *)
Definition new_page_ref : Mem PageRef :=
  let! e := gets (λ e, e) in
  let g := next_guard (heap e) in
  let! _ := modify (λ e, set_heap (mkHeap (descriptors (heap e)) (next_id (heap e))
    (<[g := 0]> (guards (heap e))) (g + 1) (roots (heap e))) e) in
  ret g.
Definition guarded (g : PageRef) : Mem bool :=
  let! e := gets (λ e, e) in
  let! n := expect (guards (heap e) !! g) in ret (negb (n =? 0)).
Definition set_guard (g : PageRef) (n : N) : Mem unit :=
  modify (λ e, set_heap (mkHeap (descriptors (heap e)) (next_id (heap e))
    (<[g := n]> (guards (heap e))) (next_guard (heap e)) (roots (heap e))) e).
Definition guard (g : PageRef) : Mem PageRef :=
  let! e := gets (λ e, e) in
  let! n := expect (guards (heap e) !! g) in
  let! _ := set_guard g ((n + 1) mod (usize_max + 1)) in ret g.
Definition drop_guard (g : PageRef) : Mem unit :=
  let! e := gets (λ e, e) in
  let! n := expect (guards (heap e) !! g) in
  set_guard g ((n + usize_max) mod (usize_max + 1)).
End handles.

(** ** Slices *)

Inductive PageMapping := Eager | Lazy.
Definition is_mapped (m : PageMapping) : bool := match m with Eager => true | Lazy => false end.

Record Slice := mkSlice {
  mapped : bool;
  page_ref : PageRef;
  storage : StorageHandle;
  handle : Handle;
  padding : N;
  cursor : N
}.

(** [%] by zero panics. *)
Definition calculate_padding {E} (size memory_alignment : N) : res E N :=
  if memory_alignment =? 0 then Panic
  else
    let remainder := size mod memory_alignment in
    Ok (if negb (remainder =? 0) then memory_alignment - remainder else 0).

Section slices.
Context {P : Profile} {SE S : Type} {CS : ComputeStorage S}.
Abbreviation Mem := (M (Env SE S) IoError).

Definition current_mapping : Mem PageMapping :=
  let! e := gets (λ e, e) in ret (if dry_run e then Lazy else Eager).
Definition allocate (m : PageMapping) (n : N) : Mem StorageHandle :=
  match m with
  | Eager => on_device (alloc n)
  | Lazy => let! i := on_device new_storage_id in ret (mkHandle i (mkUtil 0 n))
  end.

Definition slice_new (st : StorageHandle) (pad : N) : Mem Slice :=
  let! g := new_page_ref in
  let! h := new_handle in
  ret (mkSlice true g st h pad 0).
Definition slice_materialize (s : Slice) (allocation_size : N) : Mem Slice :=
  if mapped s then ret s
  else
    let! real := on_device (alloc allocation_size) in
    ret (mkSlice true (page_ref s) (mkHandle (id real) (utilization (storage s))) (handle s)
      (padding s) (cursor s)).
Definition slice_is_free (s : Slice) : Mem bool :=
  let! f := handle_is_free (handle s) in
  if f then let! g := guarded (page_ref s) in ret (negb g) else ret false.
Definition effective_size (s : Slice) : Mem N :=
  lift (uadd u64_max (handle_size (storage s)) (padding s)).

(** Field updates. *)
Definition set_slice_util (u : StorageUtilization) (pad : N) (s : Slice) : Slice :=
  mkSlice (mapped s) (page_ref s) (mkHandle (id (storage s)) u) (handle s) pad (cursor s).
Definition set_slice_page (m : bool) (g : PageRef) (s : Slice) : Slice :=
  mkSlice m g (storage s) (handle s) (padding s) (cursor s).
Definition set_slice_handle (h : Handle) (c : N) (s : Slice) : Slice :=
  mkSlice (mapped s) (page_ref s) (storage s) h (padding s) c.
End slices.

Record MemoryUsage := mkUsage {
  number_allocs : N; bytes_in_use : N; bytes_padding : N; bytes_reserved : N
}.
Definition no_usage : MemoryUsage := mkUsage 0 0 0 0.

Section usage.
Context {P : Profile} {E : Type}.
Definition combine (a b : MemoryUsage) : res E MemoryUsage :=
  let? n := uadd u64_max (number_allocs a) (number_allocs b) in
  let? u := uadd u64_max (bytes_in_use a) (bytes_in_use b) in
  let? p := uadd u64_max (bytes_padding a) (bytes_padding b) in
  let? r := uadd u64_max (bytes_reserved a) (bytes_reserved b) in
  Ok (mkUsage n u p r).
End usage.

(** ** Memory pages *)

(** [slices_tmp] is empty between calls and is a local list here. *)
Record MemoryPage := mkPage {
  page_mapped : bool;
  page_guard : PageRef;
  page_storage : StorageHandle;
  slices : list Slice;
  alignment : N;
  location_base : MemoryLocation
}.
Definition set_slices (l : list Slice) (p : MemoryPage) : MemoryPage :=
  mkPage (page_mapped p) (page_guard p) (page_storage p) l (alignment p) (location_base p).

Record MemoryPageSummary := mkSummary {
  blocks : list (bool * N);
  amount_free : N; amount_full : N; amount_total : N;
  num_free : N; num_full : N; num_total : N
}.
Record RelocationPage := mkRelocationPage {
  reloc_mapped : bool;
  reloc_allocations : list (Handle * StorageHandle * N);
  live_bytes : N
}.

Section pages.
Context {P : Profile} {SE S : Type} {CS : ComputeStorage S}.
Abbreviation Mem := (M (Env SE S) IoError).

Definition page_new_with_mapping (st : StorageHandle) (align : N) (base : MemoryLocation)
    (mapping : PageMapping) : Mem MemoryPage :=
  let! g := new_page_ref in
  let! s := slice_new st 0 in
  let s := set_slice_page (is_mapped mapping) g s in
  let! _ := update_location (handle s) (with_slice 0 base) in
  ret (mkPage (is_mapped mapping) g st [s] align base).

Definition page_materialize (p : MemoryPage) : Mem (MemoryPage * N) :=
  if page_mapped p then ret (p, id (page_storage p))
  else
    let! real := on_device (alloc (handle_size (page_storage p))) in
    let ss := (λ s, mkSlice true (page_ref s) (mkHandle (id real) (utilization (storage s)))
                      (handle s) (padding s) (cursor s)) <$> slices p in
    ret (mkPage true (page_guard p) real ss (alignment p) (location_base p), id real).

(** [reserved] and the slice's previous handle are dropped. *)
Definition page_bind (p : MemoryPage) (reserved new : Handle) (cur : N) : Mem MemoryPage :=
  let! l := location_of reserved in
  let! s := index (slices p) (slice l) in
  let! l := location_of reserved in
  let! _ := update_location new l in
  let! _ := drop_handle (handle s) in
  let! _ := drop_handle reserved in
  ret (set_slices (<[N.to_nat (slice l) := set_slice_handle new cur s]> (slices p)) p).

Fixpoint add_usage (l : list Slice) (u : MemoryUsage) : Mem MemoryUsage :=
  match l with
  | [] => ret u
  | s :: l =>
      let! n := effective_size s in
      let! r := lift (uadd u64_max (bytes_reserved u) n) in
      let! free := slice_is_free s in
      if free then add_usage l (mkUsage (number_allocs u) (bytes_in_use u) (bytes_padding u) r)
      else
        let! a := lift (uadd u64_max (number_allocs u) 1) in
        let! b := lift (uadd u64_max (bytes_in_use u) (handle_size (storage s))) in
        let! c := lift (uadd u64_max (bytes_padding u) (padding s)) in
        add_usage l (mkUsage a b c r)
  end.
Definition page_memory_usage (p : MemoryPage) : Mem MemoryUsage := add_usage (slices p) no_usage.

Fixpoint summarise (memory_blocks : bool) (l : list Slice) (m : MemoryPageSummary)
    : Mem MemoryPageSummary :=
  match l with
  | [] => ret m
  | s :: l =>
      let! free := slice_is_free s in
      let! n := effective_size s in
      let bs := if memory_blocks then blocks m ++ [(free, n)] else blocks m in
      if free then
        let! a := lift (uadd u64_max (amount_free m) n) in
        summarise memory_blocks l (mkSummary bs a (amount_full m) (amount_total m)
          (num_free m + 1) (num_full m) (num_total m))
      else
        let! a := lift (uadd u64_max (amount_full m) n) in
        summarise memory_blocks l (mkSummary bs (amount_free m) a (amount_total m)
          (num_free m) (num_full m + 1) (num_total m))
  end.
Definition summary (memory_blocks : bool) (p : MemoryPage) : Mem MemoryPageSummary :=
  let! m := summarise memory_blocks (slices p) (mkSummary [] 0 0 0 0 0 0) in
  ret (mkSummary (blocks m) (amount_free m) (amount_full m) (handle_size (page_storage p))
    (num_free m) (num_full m) (len (slices p))).

(** The scan of [try_reserve]: the first slice that is large enough and free,
    with its available size. *)
Fixpoint find_slot (needed : N) (i : nat) (l : list Slice) : Mem (option (nat * Slice * N)) :=
  match l with
  | [] => ret None
  | s :: l =>
      let! available := effective_size s in
      let! free := (if needed <=? available then handle_is_free (handle s) else ret false) in
      if free then ret (Some (i, s, available)) else find_slot needed (i + 1) l
  end.

(** [for (index, slice) in iter().enumerate().skip(i) { update_slice(index) }] *)
Fixpoint renumber (i : nat) (l : list Slice) : Mem unit :=
  match l with
  | [] => ret tt
  | s :: l =>
      let! _ := update_slice (handle s) (as_u32 (N.of_nat i)) in renumber (i + 1) l
  end.
Definition add_new_slice (p : MemoryPage) (i : nat) (reserved_size : N) (new : Slice) : Mem MemoryPage :=
  let! s := expect (slices p !! i) in
  let s := set_slice_util (mkUtil (handle_offset (storage s)) reserved_size) (padding s) s in
  let! _ := update_location (handle new)
    (with_slice (as_u32 (N.of_nat (i + 1))) (location_base p)) in
  let rest := drop (i + 1) (slices p) in
  let! _ := renumber (i + 2) rest in
  ret (set_slices (take i (slices p) ++ s :: new :: rest) p).

Definition page_try_reserve (p : MemoryPage) (size : N) : Mem (MemoryPage * option Handle) :=
  let! g := guarded (page_guard p) in
  if g then ret (p, None)
  else
    let! pad := lift (calculate_padding size (alignment p)) in
    let! needed := lift (uadd u64_max size pad) in
    let! found := find_slot needed 0 (slices p) in
    match found with
    | None => ret (p, None)
    | Some (i, s, available) =>
        let! h := clone_handle (handle s) in
        let storage_old := mkHandle (id (storage s)) (mkUtil (handle_offset (storage s)) available) in
        let s := set_slice_util (mkUtil (handle_offset (storage s)) size) pad s in
        let p := set_slices (<[i := s]> (slices p)) p in
        if needed <? available then
          let! st := lift (offset_start storage_old needed) in
          let! new := slice_new st 0 in
          let! p := add_new_slice p i size (set_slice_page (page_mapped p) (page_guard p) new) in
          ret (p, Some h)
        else ret (p, Some h)
    end.

Fixpoint run_of_free (needed free : N) (l : list Slice) : Mem bool :=
  match l with
  | [] => ret false
  | s :: l =>
      let! is_free := slice_is_free s in
      let! free := (if is_free then let! n := effective_size s in ret (saturating_add u64_max free n)
                    else ret 0) in
      if needed <=? free then ret true else run_of_free needed free l
  end.
Definition page_can_reserve (p : MemoryPage) (size : N) : Mem bool :=
  let! g := guarded (page_guard p) in
  if g then ret false
  else
    let! pad := lift (calculate_padding size (alignment p)) in
    match checked_add u64_max size pad with
    | None => ret false
    | Some needed => run_of_free needed 0 (slices p)
    end.

Definition page_find_at (p : MemoryPage) (l : MemoryLocation) : Mem Slice :=
  ok_or (slices p !! N.to_nat (slice l)) (NotFound "Memory slice doesn't exist").

Definition page_update_page (p : MemoryPage) (pos : N) : Mem MemoryPage :=
  let! _ := for_each (slices p) (λ s, update_page (handle s) pos) in
  ret (mkPage (page_mapped p) (page_guard p) (page_storage p) (slices p) (alignment p)
    (with_page pos (location_base p))).

(** [windows(2).any(..)] *)
Fixpoint adjacent_free (l : list Slice) : Mem bool :=
  match l with
  | [] | [_] => ret false
  | s :: ((s' :: _) as rest) =>
      let! a := slice_is_free s in
      let! b := (if a then slice_is_free s' else ret false) in
      if b then ret true else adjacent_free rest
  end.

(** The closure [flush_run]: a run of one slice is kept, a longer one becomes a
    new slice and its first slice is dropped. *)
Definition flush_run (p : MemoryPage) (first : Slice) (size count : N) (out : list Slice)
    : Mem (list Slice) :=
  let! s :=
    (if 1 <? count then
       let! merged := slice_new (mkHandle (id (page_storage p))
         (mkUtil (handle_offset (storage first)) size)) 0 in
       ret (set_slice_page (mapped first) (page_ref first) merged)
     else ret first) in
  let! _ := update_location (handle s) (with_slice (as_u32 (len out)) (location_base p)) in
  let! _ := when (1 <? count) (drop_handle (handle first)) in
  ret (out ++ [s]).

(** The loop of [coalesce]; a free slice that is not the first of its run is
    dropped at the end of its iteration. *)
Fixpoint coalesce_loop (p : MemoryPage) (i : N) (l : list Slice) (pending : option Slice)
    (size count : N) (out : list Slice) : Mem (list Slice) :=
  match l with
  | [] =>
      match pending with
      | Some first => flush_run p first size count out
      | None => ret out
      end
  | s :: l =>
      let! free := slice_is_free s in
      if free then
        let! n := effective_size s in
        let! size := lift (uadd u64_max size n) in
        match pending with
        | None => coalesce_loop p (i + 1) l (Some s) size (count + 1) out
        | Some first =>
            let! _ := drop_handle (handle s) in
            coalesce_loop p (i + 1) l (Some first) size (count + 1) out
        end
      else
        let! out_size_count :=
          match pending with
          | Some first => let! out := flush_run p first size count out in ret (out, 0, 0)
          | None => ret (out, size, count)
          end in
        let '(out, size, count) := out_size_count in
        let! _ := when (negb (i =? len out)) (update_slice (handle s) (as_u32 (len out))) in
        coalesce_loop p (i + 1) l None size count (out ++ [s])
  end.
Definition coalesce (p : MemoryPage) : Mem MemoryPage :=
  let! any := adjacent_free (slices p) in
  if negb any then ret p
  else
    let! out := coalesce_loop p 0 (slices p) None 0 0 [] in
    ret (set_slices out p).

(** Relocation: what a page may move, and the release of a moved allocation. *)
Fixpoint any_pinned (l : list Slice) : Mem bool :=
  match l with
  | [] => ret false
  | s :: l =>
      let! free := slice_is_free s in
      let! b := (if free then ret false else is_pinned (handle s)) in
      if b then ret true else any_pinned l
  end.
Fixpoint live_allocations (l : list Slice) (acc : list (Handle * StorageHandle * N)) (bytes : N)
    : Mem (list (Handle * StorageHandle * N) * N) :=
  match l with
  | [] => ret (acc, bytes)
  | s :: l =>
      let! free := slice_is_free s in
      if free then live_allocations l acc bytes
      else
        let! bytes := lift (uadd u64_max bytes (handle_size (storage s))) in
        let! h := clone_handle (handle s) in
        live_allocations l (acc ++ [(h, storage s, cursor s)]) bytes
  end.
Definition relocation_page (p : MemoryPage) : Mem (option RelocationPage) :=
  let! g := guarded (page_guard p) in
  if g then ret None
  else
    let! pinned := any_pinned (slices p) in
    if pinned then ret None
    else
      let! l := live_allocations (slices p) [] 0 in
      match l.1 with
      | [] => ret None
      | _ => ret (Some (mkRelocationPage (page_mapped p) l.1 l.2))
      end.
Definition release_relocated (p : MemoryPage) (allocation : Handle) : Mem MemoryPage :=
  let! l := location_of allocation in
  let! s := ok_or (slices p !! N.to_nat (slice l)) (NotFound "Relocation source slice does not exist") in
  if negb (handle s =? allocation) then throw (NotFound "Relocation source identity changed")
  else
    let! replacement := new_handle in
    let! _ := update_location replacement l in
    let! _ := drop_handle (handle s) in
    ret (set_slices (<[N.to_nat (slice l) := set_slice_handle replacement 0 s]> (slices p)) p).
End pages.

(** ** The sliced pool *)

Record SlicedPool := mkSliced {
  pages : list (MemoryPage * N);
  page_size : N;
  pool_alignment : N;
  max_alloc_size : N;
  pool_base : MemoryLocation
}.
Definition set_pages (l : list (MemoryPage * N)) (p : SlicedPool) : SlicedPool :=
  mkSliced l (page_size p) (pool_alignment p) (max_alloc_size p) (pool_base p).

Section sliced.
Context {P : Profile} {SE S : Type} {CS : ComputeStorage S}.
Abbreviation Mem := (M (Env SE S) IoError).

Definition sliced_new (psize max_slice align pos : N) : SlicedPool :=
  mkSliced [] psize align max_slice (new_location pos 0 0).

Definition sliced_accept (p : SlicedPool) (size : N) : res IoError bool :=
  if size <=? max_alloc_size p then Ok true
  else
    match checked_sub (page_size p) size with
    | Some diff => let? d := umul u64_max diff 5 in Ok (d <? page_size p)
    | None => Ok false
    end.

Fixpoint any_page (f : MemoryPage → Mem bool) (l : list (MemoryPage * N)) : Mem bool :=
  match l with
  | [] => ret false
  | (p, _) :: l => let! b := f p in if b then ret true else any_page f l
  end.
Definition sliced_can_reserve (p : SlicedPool) (size : N) : Mem bool :=
  any_page (λ pg, page_can_reserve pg size) (pages p).

Definition sliced_find_at (p : SlicedPool) (l : MemoryLocation) : Mem Slice :=
  let! pg := index (pages p) (page l) in page_find_at pg.1 l.
Definition sliced_find (p : SlicedPool) (b : Handle) : Mem Slice :=
  let! l := location_of b in sliced_find_at p l.

Definition sliced_materialize (p : SlicedPool) (b : Handle) : Mem SlicedPool :=
  let! _ := sliced_find p b in
  let! l := location_of b in
  let! pg := index (pages p) (page l) in
  let! pg' := page_materialize pg.1 in
  ret (set_pages (<[N.to_nat (page l) := pg']> (pages p)) p).

(** The pages visited by [try_reserve] are coalesced, the rest are left alone. *)
Fixpoint reserve_in (size : N) (l : list (MemoryPage * N))
    : Mem (list (MemoryPage * N) * option Handle) :=
  match l with
  | [] => ret ([], None)
  | (pg, i) :: l =>
      let! pg := coalesce pg in
      let! r := page_try_reserve pg size in
      match r.2 with
      | Some h => ret ((r.1, i) :: l, Some h)
      | None => let! r' := reserve_in size l in ret ((r.1, i) :: r'.1, r'.2)
      end
  end.
Definition sliced_try_reserve (p : SlicedPool) (size : N) : Mem (SlicedPool * option Handle) :=
  let! r := reserve_in size (pages p) in
  ret (set_pages r.1 p, r.2).

Definition sliced_alloc (p : SlicedPool) (size : N) : Mem (SlicedPool * Handle) :=
  if u16_max <? len (pages p) then throw (Unknown "Sliced pool page index capacity exhausted")
  else
    let! mapping := current_mapping in
    let! st := allocate mapping (page_size p) in
    let! pg := page_new_with_mapping st (pool_alignment p)
      (with_page (len (pages p)) (pool_base p)) mapping in
    let! r := page_try_reserve pg size in
    let p := set_pages (pages p ++ [(r.1, id st)]) p in
    let! h := expect r.2 in
    ret (p, h).

Fixpoint sum_usage (l : list (MemoryPage * N)) (u : MemoryUsage) : Mem MemoryUsage :=
  match l with
  | [] => ret u
  | (pg, _) :: l =>
      let! c := page_memory_usage pg in
      let! u := lift (combine u c) in
      sum_usage l u
  end.
Definition sliced_memory_usage (p : SlicedPool) : Mem MemoryUsage := sum_usage (pages p) no_usage.

(** The loop of [cleanup]; [kept] is [pages_tmp].  A page that is not kept is
    dropped with its slices. *)
Fixpoint cleanup_loop (i : N) (l kept : list (MemoryPage * N)) : Mem (list (MemoryPage * N)) :=
  match l with
  | [] => ret kept
  | (pg, sid) :: l =>
      let! pg := coalesce pg in
      let! m := summary false pg in
      if amount_free m =? amount_total m then
        let! _ := when (page_mapped pg)
          (modify (λ e, mkEnv (heap e) (mkDevice (ids (device e)) (dealloc sid (store (device e))))
                          (dry_run e))) in
        let! _ := for_each (slices pg) (λ s, drop_handle (handle s)) in
        cleanup_loop (i + 1) l kept
      else
        let pos := as_u16 (len kept) in
        let! pg := (if negb (i =? pos) then page_update_page pg pos else ret pg) in
        cleanup_loop (i + 1) l (kept ++ [(pg, sid)])
  end.
Definition sliced_cleanup (p : SlicedPool) (explicit : bool) : Mem SlicedPool :=
  if negb explicit then ret p
  else let! l := cleanup_loop 0 (pages p) [] in ret (set_pages l p).

Definition sliced_bind (p : SlicedPool) (reserved assigned : Handle) (cur : N) : Mem SlicedPool :=
  let! l := location_of reserved in
  let! pg := index (pages p) (page l) in
  let! pg' := page_bind pg.1 reserved assigned cur in
  ret (set_pages (<[N.to_nat (page l) := (pg', pg.2)]> (pages p)) p).

Definition sliced_release_relocated (p : SlicedPool) (allocation : Handle) : Mem SlicedPool :=
  let! l := location_of allocation in
  let! pg := index (pages p) (page l) in
  let! pg' := release_relocated pg.1 allocation in
  ret (set_pages (<[N.to_nat (page l) := (pg', pg.2)]> (pages p)) p).
End sliced.
