(* ===== verification/MemoryHeap.v ===== *)
(** * Invariant of the heap of descriptors

    [env_ok]: every descriptor was allocated, has a holder, and its taint is
    backed by the claim counts of the failure roots.  [vd] is the part of the
    heap the pools depend on, the location and strong count of each descriptor;
    the primitives of [Memory] are specified by their effect on it. *)

From S2P Require Import Prelude Taint TaintProps Storage Memory.
Open Scope N_scope.

Section heap.
Context {P : Profile} {SE S : Type} {CS : ComputeStorage S}.
Abbreviation Mem := (M (Env SE S) IoError).
Implicit Types (e : Env SE S) (d : ManagedMemoryDescriptor).

Definition entry d : MemoryLocation * N := (location d, strong d).
Definition vd e : gmap N (MemoryLocation * N) := entry <$> descriptors (heap e).

Definition heap_ok (h : Heap SE) : Prop :=
  map_Forall (λ i d, i < next_id h ∧ 1 ≤ strong d ∧ taint_ok (failures_of d)) (descriptors h) ∧
  (∀ f, claimed_of (roots h) f = msum (λ d, occ f (failure <$> failures_of d)) (descriptors h)) ∧
  map_Forall (λ g _, g < next_guard h) (guards h).
Definition env_ok e : Prop := heap_ok (heap e).

(** What the descriptor primitives leave alone. *)
Definition same e e' : Prop :=
  next_id (heap e') = next_id (heap e) ∧ guards (heap e') = guards (heap e) ∧
  next_guard (heap e') = next_guard (heap e) ∧ device e' = device e ∧ dry_run e' = dry_run e.

Lemma same_refl e : same e e.
Proof. done. Qed.
Lemma same_trans e1 e2 e3 : same e1 e2 → same e2 e3 → same e1 e3.
Proof.
  intros (? & ? & ? & ? & ?) (? & ? & ? & ? & ?). unfold same. repeat split; congruence.
Qed.

Lemma vd_lookup e h l s :
  vd e !! h = Some (l, s) ↔ ∃ d, descriptors (heap e) !! h = Some d ∧ location d = l ∧ strong d = s.
Proof.
  unfold vd. rewrite lookup_fmap, fmap_Some. unfold entry.
  split; intros (d & Hd & H1); exists d; naive_solver.
Qed.
Lemma env_ok_fresh e h l s : env_ok e → vd e !! h = Some (l, s) → h < next_id (heap e) ∧ 1 ≤ s.
Proof.
  intros (Hall & _) (d & Hd & _ & <-)%vd_lookup. destruct (Hall _ _ Hd) as (? & ? & _). done.
Qed.

(** Replacing a descriptor by one with the same failures keeps the heap. *)
Lemma env_ok_put e h d d' :
  env_ok e → descriptors (heap e) !! h = Some d → failures_of d' = failures_of d →
  1 ≤ strong d' →
  env_ok (set_heap (set_descriptors (<[h := d']> (descriptors (heap e))) (heap e)) e).
Proof.
  intros (Hall & Hled & Hg) Hd Hf Hs. split; [|split; [|done]]; simpl.
  - apply map_Forall_insert_2; [|done]. destruct (Hall _ _ Hd) as (? & ? & ?). by rewrite Hf.
  - intros f. rewrite Hled.
    pose proof (msum_insert (λ d, occ f (failure <$> failures_of d)) _ _ _ d' Hd) as Hm.
    simpl in Hm. rewrite Hf in Hm. lia.
Qed.
Lemma env_ok_backed e h d :
  env_ok e → descriptors (heap e) !! h = Some d →
  backed (roots (heap e)) (failure <$> failures_of d).
Proof.
  intros (_ & Hled & _) Hd f. rewrite Hled.
  apply (msum_le (λ d, occ f (failure <$> failures_of d)) _ _ _ Hd).
Qed.

Lemma wp_descriptor h e d Q (R : IoError → Env SE S → Prop) :
  descriptors (heap e) !! h = Some d → Q d e → wp (descriptor h) e Q R.
Proof. intros Hd HQ. unfold descriptor. apply wp_bind, wp_gets. by eapply wp_expect. Qed.

Lemma wp_put h e d Q (R : IoError → Env SE S → Prop) :
  Q tt (set_heap (set_descriptors (<[h := d]> (descriptors (heap e))) (heap e)) e) →
  wp (put_descriptor h d) e Q R.
Proof. intros HQ. by apply wp_modify. Qed.
Lemma vd_put e h d :
  vd (set_heap (set_descriptors (<[h := d]> (descriptors (heap e))) (heap e)) e)
    = <[h := entry d]> (vd e).
Proof. unfold vd. simpl. by rewrite fmap_insert. Qed.

Lemma on_roots_spec {A} (m : M (gmap N (Root SE)) IoError A) e Q :
  wp m (roots (heap e)) (λ a rs, Q a (set_heap (mkHeap (descriptors (heap e)) (next_id (heap e))
    (guards (heap e)) (next_guard (heap e)) rs) e)) (λ _ _, False) →
  wp (on_roots m) e Q (λ _ _, False).
Proof. unfold wp, on_roots. by destruct (m (roots (heap e))) as [[] rs]. Qed.

(** ** Primitives by their effect on [vd]

    Each specification gives the caller the new environment through [env_ok],
    [same] and [vd]. *)

Lemma location_spec h e l s Q (R : IoError → Env SE S → Prop) :
  vd e !! h = Some (l, s) → Q l e → wp (location_of h) e Q R.
Proof.
  intros (d & Hd & <- & <-)%vd_lookup HQ. unfold location_of.
  apply wp_bind. eapply wp_descriptor; [done|]. by apply wp_ret.
Qed.
Lemma handle_is_free_spec h e l s Q (R : IoError → Env SE S → Prop) :
  vd e !! h = Some (l, s) → Q (s <=? 1) e → wp (handle_is_free h) e Q R.
Proof.
  intros (d & Hd & <- & <-)%vd_lookup HQ. unfold handle_is_free.
  apply wp_bind. eapply wp_descriptor; [done|]. by apply wp_ret.
Qed.

Lemma update_slice_spec h n e l s Q (R : IoError → Env SE S → Prop) :
  env_ok e → vd e !! h = Some (l, s) →
  (∀ e', env_ok e' → same e e' → vd e' = <[h := (with_slice n l, s)]> (vd e) → Q tt e') →
  wp (update_slice h n) e Q R.
Proof.
  intros Hok (d & Hd & <- & <-)%vd_lookup HQ. unfold update_slice.
  apply wp_bind. eapply wp_descriptor; [done|]. apply wp_put.
  assert (1 ≤ strong d) by (destruct Hok as [Hall _]; by destruct (Hall _ _ Hd) as (_ & ? & _)).
  apply HQ; [by eapply env_ok_put|done|by rewrite vd_put].
Qed.
Lemma update_page_spec h n e l s Q (R : IoError → Env SE S → Prop) :
  env_ok e → vd e !! h = Some (l, s) →
  (∀ e', env_ok e' → same e e' → vd e' = <[h := (with_page n l, s)]> (vd e) → Q tt e') →
  wp (update_page h n) e Q R.
Proof.
  intros Hok (d & Hd & <- & <-)%vd_lookup HQ. unfold update_page.
  apply wp_bind. eapply wp_descriptor; [done|]. apply wp_put.
  assert (1 ≤ strong d) by (destruct Hok as [Hall _]; by destruct (Hall _ _ Hd) as (_ & ? & _)).
  apply HQ; [by eapply env_ok_put|done|by rewrite vd_put].
Qed.

Lemma update_location_spec h l e l0 s Q :
  env_ok e → vd e !! h = Some (l0, s) →
  (∀ e', env_ok e' → same e e' → vd e' = <[h := (l, s)]> (vd e) → Q tt e') →
  wp (update_location h l) e Q (λ _ _, False).
Proof.
  intros Hok (d & Hd & <- & <-)%vd_lookup HQ. unfold update_location.
  pose proof Hok as (Hall & Hled & Hg). destruct (Hall _ _ Hd) as (Hid & Hs & Ht).
  apply wp_bind. eapply wp_descriptor; [done|]. apply wp_bind, wp_put.
  unfold when. destruct (negb (init l =? 0)).
  2:{ apply wp_ret. apply HQ; [by eapply env_ok_put|done|by rewrite vd_put]. }
  apply wp_bind. apply on_roots_spec. eapply wp_wand.
  - apply (clear_unallocated_spec (E:=IoError)); [done|]. by eapply (env_ok_backed e).
  - simpl. intros t rs (Ht' & [Hmeta Hcount] & _). apply wp_put. simpl. apply HQ.
    + split; [|split; [|done]]; simpl.
      * rewrite insert_insert_eq. by apply map_Forall_insert_2.
      * intros f. rewrite insert_insert_eq. specialize (Hcount f). simpl in Hcount.
        rewrite Hled in Hcount.
        pose proof (msum_insert (λ d, occ f (failure <$> failures_of d)) _ _ _
          (set_failures t (set_location l d)) Hd) as Hm. simpl in Hm. lia.
    + done.
    + unfold vd. simpl. by rewrite insert_insert_eq, fmap_insert.
  - done.
Qed.

Lemma retain_ref_spec h n e l s Q (R : IoError → Env SE S → Prop) :
  env_ok e → vd e !! h = Some (l, s) →
  (∀ e', env_ok e' → same e e' → vd e' = <[h := (l, s + 1)]> (vd e) → Q tt e') →
  wp (retain_ref h n) e Q R.
Proof.
  intros Hok (d & Hd & <- & <-)%vd_lookup HQ. unfold retain_ref.
  apply wp_bind. eapply wp_descriptor; [done|]. apply wp_put.
  apply HQ; [eapply env_ok_put; [done|done|done|simpl; lia]|done|by rewrite vd_put].
Qed.
Lemma clone_handle_spec h e l s Q (R : IoError → Env SE S → Prop) :
  env_ok e → vd e !! h = Some (l, s) →
  (∀ e', env_ok e' → same e e' → vd e' = <[h := (l, s + 1)]> (vd e) → Q h e') →
  wp (clone_handle h) e Q R.
Proof.
  intros Hok Hd HQ. unfold clone_handle. apply wp_bind. eapply retain_ref_spec; [done|done|].
  intros e' ???. apply wp_ret. by apply HQ.
Qed.

Definition released (h : N) (l : MemoryLocation) (s : N) (m : gmap N (MemoryLocation * N)) :=
  if s <=? 1 then delete h m else <[h := (l, s - 1)]> m.
Lemma release_ref_spec h n e l s Q :
  env_ok e → vd e !! h = Some (l, s) →
  (∀ e', env_ok e' → same e e' → vd e' = released h l s (vd e) → Q tt e') →
  wp (release_ref h n) e Q (λ _ _, False).
Proof.
  intros Hok (d & Hd & <- & <-)%vd_lookup HQ. unfold release_ref, released in *.
  pose proof Hok as (Hall & Hled & Hg).
  apply wp_bind. eapply wp_descriptor; [done|]. destruct (N.leb_spec (strong d) 1).
  - apply wp_bind, on_roots_spec. eapply wp_wand.
    + apply clear_spec. by eapply (env_ok_backed e).
    + simpl. intros _ rs [Hmeta Hcount]. apply wp_modify. simpl. apply HQ.
      * split; [|split; [|done]]; simpl; [by apply map_Forall_delete|].
        intros f. specialize (Hcount f). simpl in Hcount. rewrite occ_nil, Hled in Hcount.
        pose proof (msum_delete (λ d, occ f (failure <$> failures_of d)) _ _ _ Hd) as Hm.
        simpl in Hm. lia.
      * done.
      * unfold vd. simpl. by rewrite fmap_delete.
    + done.
  - apply wp_put. apply HQ; [eapply env_ok_put; [done|done|done|simpl; lia]|done|by rewrite vd_put].
Qed.
Lemma drop_handle_spec h e l s Q :
  env_ok e → vd e !! h = Some (l, s) →
  (∀ e', env_ok e' → same e e' → vd e' = released h l s (vd e) → Q tt e') →
  wp (drop_handle h) e Q (λ _ _, False).
Proof. apply release_ref_spec. Qed.

(** Allocation of a handle and of a page reference. *)
Definition grown_env e e' : Prop :=
  next_id (heap e) ≤ next_id (heap e') ∧ next_guard (heap e) ≤ next_guard (heap e') ∧
  (∀ g n, guards (heap e) !! g = Some n → guards (heap e') !! g = Some n) ∧
  dry_run e' = dry_run e.

Lemma new_handle_spec e Q :
  env_ok e → next_id (heap e) < usize_max →
  (∀ e', env_ok e' → next_id (heap e') = next_id (heap e) + 1 → guards (heap e') = guards (heap e) →
    next_guard (heap e') = next_guard (heap e) → device e' = device e → dry_run e' = dry_run e →
    vd e' = <[next_id (heap e) := (uninit, 1)]> (vd e) → Q (next_id (heap e)) e') →
  wp new_handle e Q (λ _ _, False).
Proof.
  intros (Hall & Hled & Hg) Hid HQ. unfold new_handle. wp_steps.
  { match goal with H : (_ =? _) = true |- _ => apply N.eqb_eq in H; lia end. }
  assert (descriptors (heap e) !! next_id (heap e) = None) as Hnew.
  { destruct (descriptors (heap e) !! next_id (heap e)) eqn:Hd; [|done].
    destruct (Hall _ _ Hd) as [? _]. lia. }
  apply HQ; try done.
  - split; [|split; [|done]]; simpl.
    + apply map_Forall_insert_2.
      * split; [lia|]. split; [done|]. split; [constructor|]. split; [constructor|].
        by intros ? ? ? ?%elem_of_nil.
      * eapply map_Forall_impl; [exact Hall|]. intros i d (? & ? & ?). split; [lia|done].
    + intros f. rewrite Hled, msum_insert_new by done. simpl. rewrite occ_nil. lia.
  - unfold vd. simpl. by rewrite fmap_insert.
Qed.
Lemma new_page_ref_spec e Q :
  env_ok e →
  (∀ e', env_ok e' → next_id (heap e') = next_id (heap e) →
    guards (heap e') = <[next_guard (heap e) := 0]> (guards (heap e)) →
    next_guard (heap e') = next_guard (heap e) + 1 → device e' = device e →
    dry_run e' = dry_run e → vd e' = vd e → Q (next_guard (heap e)) e') →
  wp new_page_ref e Q (λ _ _, False).
Proof.
  intros (Hall & Hled & Hg) HQ. unfold new_page_ref. wp_steps.
  apply HQ; try done. split; [done|]. split; [done|]. simpl.
  apply map_Forall_insert_2; [lia|]. eapply map_Forall_impl; [exact Hg|]. simpl. intros. lia.
Qed.

(** [Slice::new]: a fresh descriptor with one holder. *)
Lemma slice_new_spec st pad e Q :
  env_ok e → next_id (heap e) < usize_max →
  (∀ e' g, env_ok e' → next_id (heap e') = next_id (heap e) + 1 →
    (∀ g n, guards (heap e) !! g = Some n → guards (heap e') !! g = Some n) →
    next_guard (heap e) ≤ next_guard (heap e') → device e' = device e → dry_run e' = dry_run e →
    vd e' = <[next_id (heap e) := (uninit, 1)]> (vd e) →
    Q (mkSlice true g st (next_id (heap e)) pad 0) e') →
  wp (slice_new st pad) e Q (λ _ _, False).
Proof.
  intros Hok Hid HQ. unfold slice_new. apply wp_bind. apply new_page_ref_spec; [done|].
  intros e1 Hok1 Hn1 Hg1 Hng1 Hd1 Hr1 Hv1. apply wp_bind. apply new_handle_spec; [done|lia|].
  intros e2 Hok2 Hn2 Hg2 Hng2 Hd2 Hr2 Hv2. apply wp_ret. rewrite Hn1, Hv1 in *.
  apply HQ; try congruence.
  - intros g n Hg. rewrite Hg2, Hg1, lookup_insert_ne; [done|].
    destruct Hok as (_ & _ & Hlt). pose proof (Hlt _ _ Hg) as Hgn. simpl in Hgn. lia.
  - lia.
Qed.

Lemma guarded_spec g e n Q (R : IoError → Env SE S → Prop) :
  guards (heap e) !! g = Some n → Q (negb (n =? 0)) e → wp (guarded g) e Q R.
Proof.
  intros Hg HQ. unfold guarded. apply wp_bind, wp_gets. apply wp_bind.
  eapply wp_expect; [done|]. by apply wp_ret.
Qed.
(** A slice is free when nobody holds it and its page is not guarded. *)
Lemma slice_is_free_spec s e l c n Q (R : IoError → Env SE S → Prop) :
  vd e !! handle s = Some (l, c) → guards (heap e) !! page_ref s = Some n →
  Q ((c <=? 1) && (n =? 0)) e → wp (slice_is_free s) e Q R.
Proof.
  intros Hs Hg HQ. unfold slice_is_free. apply wp_bind. eapply handle_is_free_spec; [done|].
  destruct (c <=? 1); simpl in HQ; [|by apply wp_ret].
  apply wp_bind. eapply guarded_spec; [done|]. apply wp_ret. by rewrite negb_involutive.
Qed.
Lemma effective_size_spec s e Q (R : IoError → Env SE S → Prop) :
  handle_size (storage s) + padding s ≤ u64_max →
  Q (handle_size (storage s) + padding s) e → wp (effective_size s) e Q R.
Proof. intros Hle HQ. unfold effective_size. eapply wp_lift_ok; [by apply uadd_ok|done]. Qed.
End heap.
