(* ===== verification/MemoryPages.v ===== *)
(** * Invariant of a memory page and of its operations

    The slices of a page tile its storage without gap or overlap, at aligned
    offsets, each with a descriptor of its own that records where it is.
    Coalescing and reserving keep this, and keep every live slice in place. *)

From S2P Require Import Prelude Taint TaintProps Storage Memory MemoryHeap.
Open Scope N_scope.

Section pages.
Context {P : Profile} {SE S : Type} {CS : ComputeStorage S}.
Abbreviation Mem := (M (Env SE S) IoError).
Implicit Types (e : Env SE S) (p : MemoryPage) (s : Slice) (l : list Slice).

(** ** Definitions *)

Definition start s : N := handle_offset (storage s).
Definition eff s : N := handle_size (storage s) + padding s.
Fixpoint tiles (off : N) l (fin : N) : Prop :=
  match l with
  | [] => off = fin
  | s :: l => start s = off ∧ tiles (off + eff s) l fin
  end.

Definition page_start p : N := handle_offset (page_storage p).
Definition page_end p : N := page_start p + handle_size (page_storage p).
Definition slice_ok p s : Prop :=
  page_ref s = page_guard p ∧ mapped s = page_mapped p ∧ id (storage s) = id (page_storage p) ∧
  (alignment p | start s).
(** Holders of a descriptor, zero when it is gone. *)
Definition refs e (h : N) : N := from_option snd 0 (vd e !! h).
Definition located e (base : MemoryLocation) (i : N) l : Prop :=
  ∀ k s, l !! k = Some s → ∃ c, vd e !! handle s = Some (with_slice (i + N.of_nat k) base, c).

Record page_ok e p : Prop := mkPageOk {
  ok_tiles : tiles (page_start p) (slices p) (page_end p);
  ok_slices : Forall (slice_ok p) (slices p);
  ok_located : located e (location_base p) 0 (slices p);
  ok_nodup : NoDup (handle <$> slices p);
  ok_count : len (slices p) ≤ u32_max + 1;
  ok_guard : is_Some (guards (heap e) !! page_guard p);
  ok_align : 0 < alignment p;
  ok_bound : page_end p ≤ u64_max
}.

(** Everything outside the handles [X] of a page is left alone. *)
Definition framed (X : list N) e e' : Prop :=
  (∀ h, h ∉ X → h < next_id (heap e) → vd e' !! h = vd e !! h) ∧ grown_env e e' ∧
  device e' = device e.
(** The slices with a holder besides the page. *)
Definition live e s : Prop := 1 < refs e (handle s).
#[export] Instance live_dec e s : Decision (live e s).
Proof. unfold live. apply _. Defined.

(** ** Tilings and locations *)

Lemma tiles_app a l k c : tiles a (l ++ k) c ↔ ∃ b, tiles a l b ∧ tiles b k c.
Proof.
  revert a. induction l as [|s l IH]; simpl; intros a.
  - split; [by exists a|]. by intros (b & <- & ?).
  - rewrite IH. split; [intros (? & b & ?)|intros (b & [? ?] & ?)]; naive_solver.
Qed.
Lemma tiles_le a l b : tiles a l b → a ≤ b.
Proof.
  revert a. induction l as [|s l IH]; simpl; intros a; [lia|]. intros [_ H%IH]. lia.
Qed.
Lemma tiles_lookup a l b k s : tiles a l b → l !! k = Some s → a ≤ start s ∧ start s + eff s ≤ b.
Proof.
  intros Ht Hk. rewrite <-(take_drop_middle l k s Hk) in Ht.
  apply tiles_app in Ht as (c & Hc%tiles_le & <- & Ht). simpl in Ht. apply tiles_le in Ht. lia.
Qed.
(** Slices at different positions do not overlap. *)
Lemma tiles_disjoint a l b i j s t :
  tiles a l b → (i < j)%nat → l !! i = Some s → l !! j = Some t → start s + eff s ≤ start t.
Proof.
  intros Ht Hij Hi Hj. rewrite <-(take_drop_middle l i s Hi) in Ht, Hj.
  apply tiles_app in Ht as (c & _ & <- & Ht).
  rewrite lookup_app_r in Hj by (rewrite length_take; lia).
  rewrite length_take in Hj. apply lookup_lt_Some in Hi.
  replace (j - i `min` length l)%nat with (Datatypes.S (j - i - 1)) in Hj by lia. simpl in Hj.
  by destruct (tiles_lookup _ _ _ _ _ Ht Hj).
Qed.

Lemma located_nil e b i : located e b i [].
Proof. intros k s. by rewrite lookup_nil. Qed.
Lemma located_cons e b i s l :
  located e b i (s :: l) ↔
    (∃ c, vd e !! handle s = Some (with_slice i b, c)) ∧ located e b (i + 1) l.
Proof.
  split.
  - intros Hl. split.
    + destruct (Hl 0%nat s eq_refl) as [c Hc]. exists c. by rewrite N.add_0_r in Hc.
    + intros k t Hk. destruct (Hl (Datatypes.S k) t Hk) as [c Hc]. exists c. rewrite Hc.
      do 3 f_equal. lia.
  - intros [[c Hc] Hl] [|k] t Hk; simplify_eq/=.
    + exists c. by rewrite N.add_0_r.
    + destruct (Hl k t Hk) as [c' Hc']. exists c'. rewrite Hc'. do 3 f_equal. lia.
Qed.
Lemma located_app e b i l k :
  located e b i (l ++ k) ↔ located e b i l ∧ located e b (i + len l) k.
Proof.
  revert i. induction l as [|s l IH]; simpl; intros i.
  - unfold len. simpl. rewrite N.add_0_r. split; [split; [apply located_nil|done]|naive_solver].
  - rewrite !located_cons, IH. unfold len. simpl.
    replace (i + 1 + N.of_nat (length l)) with (i + N.of_nat (Datatypes.S (length l))) by lia. tauto.
Qed.
Lemma located_ext e e' b i l :
  (∀ s, s ∈ l → vd e' !! handle s = vd e !! handle s) → located e b i l → located e' b i l.
Proof.
  intros Heq Hl k s Hk. rewrite Heq by (by eapply list_elem_of_lookup_2). by apply Hl.
Qed.
Lemma located_elem e b i l s :
  located e b i l → s ∈ l → ∃ loc c, vd e !! handle s = Some (loc, c).
Proof. intros Hl [k Hk]%list_elem_of_lookup. destruct (Hl k s Hk). eauto. Qed.

Lemma with_slice_slice a b (loc : MemoryLocation) :
  with_slice a (with_slice b loc) = with_slice a loc.
Proof. done. Qed.
Lemma as_u32_id n : n ≤ u32_max → as_u32 n = n.
Proof.
  intros Hn. unfold as_u32. change u32_max with (N.ones 32). rewrite N.land_ones.
  apply N.mod_small. unfold u32_max in Hn. lia.
Qed.

Lemma grown_env_refl e : grown_env e e.
Proof. split; [lia|]. split; [lia|]. done. Qed.
Lemma grown_env_trans e1 e2 e3 : grown_env e1 e2 → grown_env e2 e3 → grown_env e1 e3.
Proof.
  intros (? & ? & Hg1 & ?) (? & ? & Hg2 & ?). split; [lia|]. split; [lia|].
  split; [auto|congruence].
Qed.
Lemma same_grown e e' : same e e' → grown_env e e'.
Proof. intros (? & Hg & ? & _ & ?). split; [lia|]. split; [lia|]. by rewrite Hg. Qed.
Lemma framed_refl X e : framed X e e.
Proof. split; [done|]. split; [apply grown_env_refl|done]. Qed.
Lemma framed_trans X e1 e2 e3 : framed X e1 e2 → framed X e2 e3 → framed X e1 e3.
Proof.
  intros (Hv1 & Hg1 & Hd1) (Hv2 & Hg2 & Hd2). split; [|split; [by eapply grown_env_trans|congruence]].
  intros h Hh Hlt. rewrite Hv2; [by apply Hv1|done|]. destruct Hg1 as (? & _). lia.
Qed.
(** One descriptor of the page changed. *)
Lemma framed_put X e e' h v :
  same e e' → h ∈ X → vd e' = <[h := v]> (vd e) → framed X e e'.
Proof.
  intros Hs Hh Hv. split; [|split; [by apply same_grown|by destruct Hs as (_ & _ & _ & ? & _)]].
  intros g Hg _. rewrite Hv, lookup_insert_ne; [done|]. congruence.
Qed.

Lemma refs_insert e e' h (l : MemoryLocation) c g :
  vd e' = <[h := (l, c)]> (vd e) → refs e' g = if decide (g = h) then c else refs e g.
Proof.
  intros Hv. unfold refs. rewrite Hv. case_decide; subst.
  - by rewrite lookup_insert_eq.
  - by rewrite lookup_insert_ne.
Qed.
Lemma refs_lookup e h (l : MemoryLocation) c : vd e !! h = Some (l, c) → refs e h = c.
Proof. intros Hv. unfold refs. by rewrite Hv. Qed.

(** A page not touched by an operation stays as it was. *)
Lemma page_ok_framed X e e' p :
  env_ok e → page_ok e p → framed X e e' → (∀ h, h ∈ handle <$> slices p → h ∉ X) → page_ok e' p.
Proof.
  intros Hok [? ? Hl ? ? [n Hg] ? ?] (Hv & Hgr & _) Hdis. split; try done.
  - eapply located_ext; [|done]. intros s Hs. apply Hv.
    + apply Hdis. apply list_elem_of_fmap. by exists s.
    + destruct (located_elem _ _ _ _ _ Hl Hs) as (loc & c & Hc). by eapply env_ok_fresh.
  - destruct Hgr as (_ & _ & Hgr & _). exists n. by apply Hgr.
Qed.

(** ** Coalescing *)

(** No two neighbours without a holder. *)
Definition compact e l : Prop :=
  ∀ i s t, l !! i = Some s → l !! Datatypes.S i = Some t → live e s ∨ live e t.
Definition ends_live e l : Prop := ∀ s, last l = Some s → live e s.

Lemma compact_nil e : compact e [].
Proof. intros i s t. by rewrite lookup_nil. Qed.
Lemma compact_snoc e l s : compact e l → ends_live e l ∨ live e s → compact e (l ++ [s]).
Proof.
  intros Hc Hs i x y. rewrite !lookup_snoc_Some. intros [[Hi Hx]|[-> ->]] [[Hi' Hy]|[Hi' ->]];
    [by eapply Hc| |lia|lia].
  destruct Hs as [Hs|Hs]; [left|by right]. apply Hs. rewrite last_lookup.
  by replace (Init.Nat.pred (length l)) with i by lia.
Qed.

Lemma adjacent_free_spec e g n l Q (R : IoError → Env SE S → Prop) :
  guards (heap e) !! g = Some n →
  Forall (λ s, page_ref s = g ∧ ∃ loc c, vd e !! handle s = Some (loc, c)) l →
  (∀ b, (b = true → n = 0) → (b = false → n = 0 → compact e l) → Q b e) →
  wp (adjacent_free l) e Q R.
Proof.
  intros Hg. revert Q. induction l as [|s [|t l] IH]; intros Q Hf HQ.
  - apply wp_ret. apply HQ; [done|]. intros _ _. apply compact_nil.
  - apply wp_ret. apply HQ; [done|]. by intros _ _ [|i] x y; simpl; rewrite ?lookup_nil.
  - apply Forall_cons in Hf as [[Hp (l1 & c1 & H1)] Hf'].
    pose proof Hf' as [[Hp' (l2 & c2 & H2)] _]%Forall_cons.
    change (adjacent_free (s :: t :: l)) with
      (let! a := slice_is_free (SE:=SE) (S:=S) s in
       let! b := (if a then slice_is_free t else ret false) in
       if b then ret true else adjacent_free (t :: l)).
    apply wp_bind. eapply slice_is_free_spec; [done|by rewrite Hp|]. apply wp_bind.
    assert (∀ b, (b = true → n = 0) → (b = false → n = 0 → live e s ∨ live e t) →
      wp (if b then ret true else adjacent_free (t :: l)) e Q R) as Hnext.
    { intros [] Hb1 Hb2; [apply wp_ret, HQ; [auto|done]|]. apply IH; [done|].
      intros b Ht Hb. apply HQ; [done|]. intros -> -> [|i] x y Hx Hy; simplify_eq/=.
      - by apply Hb2.
      - by apply (Hb eq_refl eq_refl i). }
    destruct (N.leb_spec c1 1), (N.eqb_spec n 0) as [->|Hn]; cbn [andb].
    + eapply slice_is_free_spec; [done|by rewrite Hp'|]. rewrite andb_true_r.
      apply Hnext; [done|]. intros ?%N.leb_gt _. right. unfold live. by rewrite (refs_lookup _ _ _ _ H2).
    + apply wp_ret, (Hnext false); done.
    + apply wp_ret, (Hnext false); [done|]. intros _ _. left. unfold live. by rewrite (refs_lookup _ _ _ _ H1).
    + apply wp_ret, (Hnext false); done.
Qed.

Section coalesce.
Context (p : MemoryPage) (e0 : Env SE S).
Context (Hok0 : env_ok e0) (Hpage : page_ok e0 p).
Context (Hguard : guards (heap e0) !! page_guard p = Some 0).
Context (Hids : next_id (heap e0) + len (slices p) ≤ usize_max).
Abbreviation X := (handle <$> slices p).
Abbreviation base := (location_base p).

(** The run of free slices being gathered, as the slice it would become. *)
Definition run (f : Slice) (size : N) : Slice := set_slice_util (mkUtil (start f) size) 0 f.

(** A slice still to visit is one of the page, as held as before; a slice already
    out may also be new. *)
Definition original e s : Prop := handle s ∈ X ∧ refs e (handle s) = refs e0 (handle s).
Definition known e s : Prop :=
  original e s ∨ (next_id (heap e0) ≤ handle s ∧ refs e (handle s) = 1).

Record loop_inv e (i : N) l (pending : option Slice) (size count : N) (out : list Slice) : Prop := {
  li_env : env_ok e;
  li_frame : framed X e0 e;
  li_room : next_id (heap e) + len l + len (option_list pending)
    ≤ next_id (heap e0) + len (slices p);
  li_tiles :
    match pending with
    | None => size = 0 ∧ count = 0 ∧ tiles (page_start p) (out ++ l) (page_end p)
    | Some f => 1 ≤ count ∧ (count = 1 → size = eff f) ∧
        (∃ loc, vd e !! handle f = Some (loc, 1)) ∧
        tiles (page_start p) (out ++ run f size :: l) (page_end p)
    end;
  li_slices : Forall (slice_ok p) (out ++ option_list pending ++ l);
  li_out : located e base 0 out;
  li_rest : located e base i l;
  li_nodup : NoDup (handle <$> out ++ option_list pending ++ l);
  li_index : len out + len (option_list pending) ≤ i ∧ i + len l = len (slices p);
  li_known : Forall (known e) out;
  li_orig : Forall (original e) (option_list pending ++ l);
  li_live : filter (live e0) (out ++ l) = filter (live e0) (slices p)
}.

Lemma loop_guard e i l pending size count out :
  loop_inv e i l pending size count out → guards (heap e) !! page_guard p = Some 0.
Proof. intros Hi. destruct (li_frame _ _ _ _ _ _ _ Hi) as (_ & (_ & _ & Hg & _) & _). auto. Qed.
Lemma fresh_not_live e s : env_ok e → next_id (heap e) ≤ handle s → ¬ live e s.
Proof.
  clear Hids. intros Hok Hle. unfold live, refs. destruct (vd e !! handle s) as [[loc c]|] eqn:Hv; simpl; [|lia].
  apply env_ok_fresh in Hv; [lia|done].
Qed.
Lemma original_live e s : original e s → live e s ↔ live e0 s.
Proof. intros [_ Hr]. unfold live. by rewrite Hr. Qed.
Lemma known_live e s : known e s → live e s ↔ live e0 s.
Proof.
  clear Hids. intros [Hr|[Hf Hr]]; [by apply original_live|].
  pose proof (fresh_not_live e0 s Hok0 Hf) as Hn. unfold live in *. rewrite Hr. lia.
Qed.

(** Slices other than the changed ones keep their place. *)
Lemma original_ext e e' s :
  vd e' !! handle s = vd e !! handle s → original e s → original e' s.
Proof. intros Hv. unfold original, refs. by rewrite Hv. Qed.
Lemma known_ext e e' s :
  vd e' !! handle s = vd e !! handle s → known e s → known e' s.
Proof. intros Hv. unfold known, original, refs. by rewrite Hv. Qed.

Lemma filter_live_dead l s k :
  ¬ live e0 s → filter (live e0) (l ++ s :: k) = filter (live e0) (l ++ k).
Proof. intros Hs. rewrite !filter_app, filter_cons, decide_False by done. done. Qed.

Lemma nodup_apart l f k s :
  NoDup (handle <$> l ++ f :: k) → s ∈ l ++ k → handle s ≠ handle f.
Proof.
  rewrite fmap_app, fmap_cons, <-Permutation_middle, <-fmap_app.
  inversion_clear 1 as [|? ? Hf _]. intros Hs Heq. apply Hf. rewrite <-Heq.
  apply list_elem_of_fmap. by exists s.
Qed.
Lemma nodup_split l f k :
  NoDup (handle <$> l ++ f :: k) →
  NoDup (handle <$> k) ∧ handle f ∉ handle <$> k ∧ ∀ t, t ∈ l → handle t ∉ handle <$> k.
Proof.
  rewrite fmap_app, fmap_cons, NoDup_app, NoDup_cons. intros (_ & Hdis & Hf & Hnd).
  split; [done|]. split; [done|]. intros t Ht Hin. apply (Hdis (handle t)); [|by right].
  apply list_elem_of_fmap. by exists t.
Qed.
Lemma nodup_drop l f k : NoDup (handle <$> l ++ f :: k) → NoDup (handle <$> l ++ k).
Proof.
  rewrite fmap_app, fmap_cons, <-Permutation_middle, <-fmap_app. by inversion_clear 1.
Qed.
Lemma nodup_add l s k :
  NoDup (handle <$> l ++ k) → (∀ t, t ∈ l ++ k → handle t ≠ handle s) →
  NoDup (handle <$> l ++ s :: k).
Proof.
  intros Hnd Hs. rewrite fmap_app, fmap_cons, <-Permutation_middle, <-fmap_app.
  constructor; [|done]. intros (t & Heq & Ht)%list_elem_of_fmap. by apply (Hs t Ht).
Qed.
Lemma nodup_replace l f s k :
  NoDup (handle <$> l ++ f :: k) → (∀ t, t ∈ l ++ k → handle t ≠ handle s) →
  NoDup (handle <$> l ++ s :: k).
Proof. intros Hnd%nodup_drop. by apply nodup_add. Qed.

(** The flushed run, at the end of [out]: [s'] stands where the run was. *)
Lemma loop_flushed e e' i l f size count out s' :
  loop_inv e i l (Some f) size count out →
  env_ok e' → framed X e e' → next_id (heap e') ≤ next_id (heap e) + 1 →
  (∀ s, s ∈ out ++ l → handle s ≠ handle s' ∧ vd e' !! handle s = vd e !! handle s) →
  vd e' !! handle s' = Some (with_slice (len out) base, 1) →
  start s' = start f → eff s' = size → slice_ok p s' → known e' s' →
  loop_inv e' i l None 0 0 (out ++ [s']) ∧ ¬ live e0 s'.
Proof.
  intros [Henv Hfr Hroom (_ & _ & _ & Ht) Hsl Hout Hrest Hnd Hidx Hkn Hor Hlive] Henv' Hfr' Hnext
    Hother Hv' Hst Heff Hsok Hk'. simpl in *.
  apply Forall_cons in Hor as [_ Hor]. rewrite Forall_app, Forall_cons in Hsl.
  assert (¬ live e0 s') as Hdead.
  { rewrite <-(known_live e' s' Hk'). unfold live. rewrite (refs_lookup _ _ _ _ Hv'). lia. }
  assert (∀ s, s ∈ out → vd e' !! handle s = vd e !! handle s) as Ho1
    by (intros s Hs; apply Hother, elem_of_app; by left).
  assert (∀ s, s ∈ l → vd e' !! handle s = vd e !! handle s) as Ho2
    by (intros s Hs; apply Hother, elem_of_app; by right).
  split; [|done]. split; simpl; rewrite <-?app_assoc; simpl; try done.
  - by eapply framed_trans.
  - unfold len in *. simpl in *. lia.
  - split; [done|]. split; [done|]. apply tiles_app in Ht as (b & H1 & H2).
    apply tiles_app. exists b. split; [done|]. simpl in *. rewrite Hst, Heff.
    unfold run, start, eff in H2. simpl in H2. by rewrite N.add_0_r in H2.
  - rewrite Forall_app, Forall_cons. tauto.
  - apply located_app. split; [by eapply located_ext|]. apply located_cons.
    split; [|apply located_nil]. exists 1. by rewrite Hv'.
  - by eapply located_ext.
  - eapply nodup_replace; [exact Hnd|]. intros t Ht'. by apply Hother.
  - rewrite len_app. unfold len in *. simpl in *. lia.
  - apply Forall_app. split; [|by constructor]. rewrite Forall_forall in Hkn |- *.
    intros s Hs. eapply known_ext; [by apply Ho1|auto].
  - rewrite Forall_forall in Hor |- *. intros s Hs. eapply original_ext; [by apply Ho2|auto].
  - by rewrite filter_live_dead.
Qed.

(** [out] is shorter than the page, so its length is a slice index. *)
Lemma out_index e i l f size count out :
  loop_inv e i l (Some f) size count out → as_u32 (len out) = len out.
Proof.
  intros Hi. destruct (li_index _ _ _ _ _ _ _ Hi) as [H1 H2]. apply as_u32_id.
  pose proof (ok_count _ _ Hpage). unfold len in *. simpl in *. lia.
Qed.

Lemma flush_spec e i l f size count out :
  loop_inv e i l (Some f) size count out →
  wp (flush_run p f size count out) e (λ out' e', ∃ s', out' = out ++ [s'] ∧ ¬ live e0 s' ∧
    loop_inv e' i l None 0 0 out') (λ _ _, False).
Proof.
  intros Hinv. pose proof Hinv as [Henv Hfr Hroom (Hc & Hone & (loc & Hloc) & Ht) Hsl Hout Hrest
    Hnd Hidx Hkn Hor Hlive]. simpl in *.
  apply Forall_cons in Hor as [Hf _]. rewrite Forall_app, Forall_cons in Hsl.
  destruct Hsl as (_ & Hfok & _). pose proof (out_index _ _ _ _ _ _ _ Hinv) as Hix.
  assert (∀ s, s ∈ out ++ l → handle s < next_id (heap e)) as Hlt.
  { intros s [Hs|Hs]%elem_of_app; (eapply located_elem in Hs as (l' & c' & Hv); [|done]);
      by eapply env_ok_fresh. }
  unfold flush_run. rewrite Hix. destruct (N.ltb_spec 1 count) as [Hgt|Hle]; cbn [when].
  - apply wp_bind. apply wp_bind. apply slice_new_spec; [done|unfold len in *; simpl in *; lia|].
    intros e1 g Henv1 Hn1 Hg1 Hng1 Hd1 Hr1 Hv1. apply wp_ret. cbn [handle set_slice_page].
    apply wp_bind. eapply update_location_spec; [done|by rewrite Hv1, lookup_insert_eq|].
    intros e2 Henv2 Hsame2 Hv2. apply wp_bind.
    assert (handle f ≠ next_id (heap e)) as Hfn.
    { apply env_ok_fresh in Hloc; [lia|done]. }
    eapply (drop_handle_spec _ _ loc 1); [done| |].
    { by rewrite Hv2, Hv1, !lookup_insert_ne. }
    intros e3 Henv3 Hsame3 Hv3. unfold released in Hv3. simpl in Hv3. apply wp_ret.
    eexists. split; [done|]. apply and_comm.
    apply (loop_flushed e e3 i l f size count out); try done.
    + destruct Hsame2 as (? & Hg2 & ? & ? & ?), Hsame3 as (? & Hg3 & ? & ? & ?).
      split; [|split; [split; [lia|split; [lia|split; [|congruence]]]|congruence]].
      * intros h Hh Hlt'. rewrite Hv3, lookup_delete_ne by (intros <-; apply Hh, Hf).
        rewrite Hv2, Hv1, !lookup_insert_ne by lia. done.
      * intros g' n Hg'. rewrite Hg3, Hg2. by apply Hg1.
    + destruct Hsame2 as (? & _), Hsame3 as (? & _). lia.
    + intros s Hs. simpl. specialize (Hlt s Hs). split; [lia|].
      rewrite Hv3, lookup_delete_ne by (apply not_eq_sym; by eapply nodup_apart).
      rewrite Hv2, Hv1, !lookup_insert_ne by lia. done.
    + simpl. rewrite Hv3, lookup_delete_ne, Hv2, lookup_insert_eq by done. done.
    + unfold eff, handle_size. simpl. lia.
    + unfold slice_ok, start in *. simpl. naive_solver.
    + right. simpl. split; [destruct Hfr as (_ & (? & _) & _); lia|].
      eapply refs_lookup. by rewrite Hv3, lookup_delete_ne, Hv2, lookup_insert_eq.
  - assert (count = 1) as -> by lia. specialize (Hone eq_refl).
    apply wp_bind, wp_ret. apply wp_bind. eapply update_location_spec; [done|done|].
    intros e' Henv' Hsame Hv'. apply wp_bind, wp_ret, wp_ret.
    exists f. split; [done|]. apply and_comm.
    apply (loop_flushed e e' i l f size 1 out); try done.
    + eapply framed_put; [done|apply Hf|done].
    + destruct Hsame as (? & _). lia.
    + intros s Hs. assert (handle s ≠ handle f) by (by eapply nodup_apart). split; [done|].
      by rewrite Hv', lookup_insert_ne.
    + by rewrite Hv', lookup_insert_eq.
    + left. split; [apply Hf|]. destruct Hf as [_ <-].
      by rewrite (refs_insert _ _ _ _ _ _ Hv'), decide_True, (refs_lookup _ _ _ _ Hloc).
Qed.

(** A free slice opens a run ... *)
Lemma loop_open e i s l out :
  loop_inv e i (s :: l) None 0 0 out → ¬ live e0 s →
  loop_inv e (i + 1) l (Some s) (eff s) 1 out.
Proof.
  intros [Henv Hfr Hroom (_ & _ & Ht) Hsl Hout Hrest Hnd Hidx Hkn Hor Hlive] Hdead. simpl in *.
  apply located_cons in Hrest as [[c Hc] Hrest]. pose proof Hor as [Hs _]%Forall_cons.
  split; simpl; try done.
  - unfold len in *. simpl in *. lia.
  - split; [lia|]. split; [done|]. split.
    + exists (with_slice i base). rewrite Hc. apply (env_ok_fresh e) in Hc as Hc'; [|done].
      rewrite <-(original_live e s Hs) in Hdead. unfold live in Hdead.
      rewrite (refs_lookup _ _ _ _ Hc) in Hdead. do 2 f_equal. lia.
    + rewrite tiles_app in Ht |- *. destruct Ht as (b & ? & Hst & ?). exists b.
      split; [done|]. split; [done|]. unfold eff at 1. unfold run, handle_size. simpl.
      by rewrite N.add_0_r.
  - unfold len in *. simpl in *. lia.
  - by rewrite <-Hlive, filter_live_dead.
Qed.
(** ... or extends the one that is open, and is dropped. *)
Lemma loop_extend e e' i s l f size count out :
  loop_inv e i (s :: l) (Some f) size count out → ¬ live e0 s →
  env_ok e' → same e e' → vd e' = delete (handle s) (vd e) →
  loop_inv e' (i + 1) l (Some f) (size + eff s) (count + 1) out.
Proof.
  intros [Henv Hfr Hroom (Hc & _ & (loc & Hloc) & Ht) Hsl Hout Hrest Hnd Hidx Hkn Hor Hlive] Hdead
    Henv' Hsame Hv'. simpl in *.
  apply located_cons in Hrest as [_ Hrest]. apply Forall_cons in Hor as [Hf [Hs Hor]%Forall_cons].
  assert (∀ t, t ∈ out ++ f :: l → handle t ≠ handle s) as Hne.
  { intros t Ht'. eapply (nodup_apart (out ++ [f]) s l); rewrite <-app_assoc; done. }
  assert (∀ t, t ∈ out ++ f :: l → vd e' !! handle t = vd e !! handle t) as Hother.
  { intros t Ht'. rewrite Hv', lookup_delete_ne; [done|]. apply not_eq_sym. by apply Hne. }
  assert (f ∈ out ++ f :: l) as Hin by (apply elem_of_app; right; by left).
  assert (∀ t, t ∈ out → t ∈ out ++ f :: l) as Hin1 by (intros t ?; apply elem_of_app; by left).
  assert (∀ t, t ∈ l → t ∈ out ++ f :: l) as Hin2
    by (intros t ?; apply elem_of_app; right; by right).
  split; simpl; try done.
  - eapply framed_trans; [done|]. split; [|split; [by apply same_grown|]].
    + intros h Hh _. rewrite Hv', lookup_delete_ne; [done|]. intros <-. apply Hh, Hs.
    + by destruct Hsame as (_ & _ & _ & ? & _).
  - destruct Hsame as (-> & _). unfold len in *. simpl in *. lia.
  - split; [lia|]. split; [lia|]. split; [exists loc; by rewrite Hother|].
    rewrite tiles_app in Ht |- *. destruct Ht as (b & ? & Hst & Hst' & ?). exists b.
    split; [done|]. split; [done|]. unfold eff, run, handle_size, start in *. simpl in *.
    by replace (b + (size + (Storage.size (utilization (storage s)) + padding s) + 0))
      with (b + (size + 0) + (Storage.size (utilization (storage s)) + padding s)) by lia.
  - rewrite !Forall_app, !Forall_cons in *. tauto.
  - eapply located_ext; [|done]. auto.
  - eapply located_ext; [|done]. auto.
  - pose proof (nodup_drop (out ++ [f]) s l) as Hnd'. rewrite <-!app_assoc in Hnd'. by apply Hnd'.
  - unfold len in *. simpl in *. lia.
  - rewrite Forall_forall in Hkn |- *. intros t Ht'. eapply known_ext; [|by apply Hkn]. auto.
  - apply Forall_cons. split; [eapply original_ext; [|done]; auto|].
    rewrite Forall_forall in Hor |- *. intros t Ht'. eapply original_ext; [|by apply Hor]. auto.
  - by rewrite <-Hlive, filter_live_dead.
Qed.
(** A live slice is kept; it is renumbered when the slices before it shrank. *)
Lemma loop_push e e' i s l out :
  loop_inv e i (s :: l) None 0 0 out → env_ok e' → same e e' →
  (∃ c, vd e !! handle s = Some (with_slice i base, c) ∧
    vd e' = <[handle s := (with_slice (len out) base, c)]> (vd e)) →
  loop_inv e' (i + 1) l None 0 0 (out ++ [s]).
Proof.
  intros [Henv Hfr Hroom (_ & _ & Ht) Hsl Hout Hrest Hnd Hidx Hkn Hor Hlive] Henv' Hsame (c & Hc & Hv').
  simpl in *. apply located_cons in Hrest as [_ Hrest]. apply Forall_cons in Hor as [Hs Hor].
  assert (∀ t, t ∈ out ++ l → vd e' !! handle t = vd e !! handle t) as Hother.
  { intros t Ht'. rewrite Hv', lookup_insert_ne; [done|]. apply not_eq_sym. by eapply nodup_apart. }
  assert (∀ t, t ∈ out → t ∈ out ++ l) as Hin1 by (intros t ?; apply elem_of_app; by left).
  assert (∀ t, t ∈ l → t ∈ out ++ l) as Hin2 by (intros t ?; apply elem_of_app; by right).
  split; simpl; rewrite <-?app_assoc; simpl; try done.
  - eapply framed_trans; [done|]. eapply framed_put; [done|apply Hs|done].
  - destruct Hsame as (-> & _). unfold len in *. simpl in *. lia.
  - apply located_app. split; [eapply located_ext; [|done]; auto|]. apply located_cons.
    split; [|apply located_nil]. exists c. by rewrite Hv', lookup_insert_eq.
  - eapply located_ext; [|done]. auto.
  - rewrite len_app. unfold len in *. simpl in *. lia.
  - apply Forall_app. split.
    + rewrite Forall_forall in Hkn |- *. intros t Ht'. eapply known_ext; [|by apply Hkn]. auto.
    + constructor; [|done]. left. destruct Hs as [? Hr]. split; [done|]. rewrite <-Hr.
      by rewrite (refs_insert _ _ _ _ _ _ Hv'), decide_True, (refs_lookup _ _ _ _ Hc).
  - rewrite Forall_forall in Hor |- *. intros t Ht'. eapply original_ext; [|by apply Hor]. auto.
Qed.

(** What the loop establishes. *)
Record coalesced e (out : list Slice) : Prop := {
  co_env : env_ok e;
  co_frame : framed X e0 e;
  co_page : page_ok e (set_slices out p);
  co_known : Forall (known e) out;
  co_live : filter (live e0) out = filter (live e0) (slices p);
  co_compact : compact e0 out;
  co_next : next_id (heap e) ≤ next_id (heap e0) + len (slices p);
  co_len : len out ≤ len (slices p)
}.
Lemma loop_done e i out :
  loop_inv e i [] None 0 0 out → compact e0 out → coalesced e out.
Proof.
  intros Hinv Hc. pose proof Hinv as [Henv Hfr Hroom (_ & _ & Ht) Hsl Hout _ Hnd Hidx Hkn _ Hlive].
  simpl in *. rewrite !app_nil_r in *.
  split; try done; [|unfold len in *; simpl in *; lia..]. split; simpl; try done.
  - unfold len in *. simpl in *. pose proof (ok_count _ _ Hpage). unfold len in *. lia.
  - exists 0. by eapply loop_guard.
  - by apply Hpage.
  - by apply Hpage.
Qed.

Lemma loop_bound e i s l pending size count out :
  loop_inv e i (s :: l) pending size count out → size + eff s ≤ u64_max.
Proof.
  intros Hinv. pose proof (li_tiles _ _ _ _ _ _ _ Hinv) as Ht. pose proof (ok_bound _ _ Hpage).
  destruct pending as [f|].
  - destruct Ht as (_ & _ & _ & (b & _ & _ & Hst & Ht)%tiles_app). apply tiles_le in Ht.
    unfold run, eff, handle_size in *. simpl in *. lia.
  - destruct Ht as (-> & _ & (b & _ & _ & Ht)%tiles_app). apply tiles_le in Ht. lia.
Qed.

Lemma coalesce_loop_spec l e i pending size count out :
  loop_inv e i l pending size count out → compact e0 out → ends_live e0 out →
  wp (coalesce_loop p i l pending size count out) e (λ out' e', coalesced e' out') (λ _ _, False).
Proof.
  revert e i pending size count out. induction l as [|s l IH];
    intros e i pending size count out Hinv Hcomp Hends; cbn [coalesce_loop].
  - destruct pending as [f|].
    + eapply wp_mono; [by eapply flush_spec|]. intros out' e' (s' & -> & _ & Hinv').
      eapply loop_done; [done|]. apply compact_snoc; auto.
    + destruct (li_tiles _ _ _ _ _ _ _ Hinv) as (-> & -> & _). apply wp_ret. by eapply loop_done.
  - pose proof (li_rest _ _ _ _ _ _ _ Hinv) as [[c Hc] _]%located_cons.
    pose proof (li_orig _ _ _ _ _ _ _ Hinv) as Hor. pose proof (li_slices _ _ _ _ _ _ _ Hinv) as Hsl.
    apply Forall_app in Hor as [_ [Hs _]%Forall_cons].
    apply Forall_app in Hsl as [_ [_ [Hso _]%Forall_cons]%Forall_app].
    pose proof (li_env _ _ _ _ _ _ _ Hinv) as Henv.
    assert (live e0 s ↔ 1 < c) as Hl.
    { rewrite <-(original_live e s Hs). unfold live. by rewrite (refs_lookup _ _ _ _ Hc). }
    apply wp_bind. eapply slice_is_free_spec; [done| |].
    { destruct Hso as (-> & _). by eapply loop_guard. }
    pose proof (loop_bound _ _ _ _ _ _ _ _ Hinv) as Hbound.
    destruct (N.leb_spec c 1); cbn [andb N.eqb].
    + apply wp_bind, effective_size_spec; [fold (eff s); lia|]. fold (eff s).
      apply wp_bind. eapply wp_lift_ok; [by apply uadd_ok|].
      assert (¬ live e0 s) as Hdead by (rewrite Hl; lia).
      destruct pending as [f|].
      * apply wp_bind. eapply drop_handle_spec; [done|done|]. intros e' Henv' Hsame Hv'.
        unfold released in Hv'. rewrite (proj2 (N.leb_le _ _)) in Hv' by done.
        apply IH; [by eapply loop_extend|done|done].
      * destruct (li_tiles _ _ _ _ _ _ _ Hinv) as (-> & -> & _). rewrite N.add_0_l.
        apply IH; [by apply loop_open|done|done].
    + assert (live e0 s) as Hlive by (rewrite Hl; lia).
      assert (∀ e out, loop_inv e i (s :: l) None 0 0 out → compact e0 out →
        wp (let! _ := when (negb (i =? len out)) (update_slice (handle s) (as_u32 (len out))) in
            coalesce_loop p (i + 1) l None 0 0 (out ++ [s])) e
          (λ out' e', coalesced e' out') (λ _ _, False)) as Hpush.
      { clear -IH Hlive Hpage Hok0 Hguard Hids. intros e out Hinv Hcomp.
        pose proof (li_rest _ _ _ _ _ _ _ Hinv) as [[c Hc] _]%located_cons.
        pose proof (li_index _ _ _ _ _ _ _ Hinv) as [Hix Hcnt].
        pose proof (ok_count _ _ Hpage) as Hmax.
        assert (compact e0 (out ++ [s])) by (apply compact_snoc; auto).
        assert (ends_live e0 (out ++ [s])) by (intros t; rewrite last_snoc; by intros [= <-]).
        apply wp_bind. unfold when. destruct (N.eqb_spec i (len out)) as [->|Hne]; simpl.
        - apply wp_ret. apply IH; [|done|done].
          eapply loop_push; [done|apply Hinv|apply same_refl|]. exists c. split; [done|].
          by rewrite insert_id.
        - rewrite as_u32_id by (unfold len in *; simpl in *; lia).
          eapply update_slice_spec; [apply Hinv|done|]. intros e' Henv' Hsame Hv'.
          apply IH; [|done|done]. eapply loop_push; [done|done|done|]. by exists c. }
      apply wp_bind. destruct pending as [f|].
      * apply wp_bind. eapply wp_mono; [by eapply flush_spec|].
        intros out' e' (s' & -> & Hdead & Hinv'). apply wp_ret. cbn beta iota.
        apply Hpush; [done|]. apply compact_snoc; auto.
      * destruct (li_tiles _ _ _ _ _ _ _ Hinv) as (-> & -> & _). apply wp_ret. cbn beta iota.
        by apply Hpush.
Qed.

Lemma loop_start : loop_inv e0 0 (slices p) None 0 0 [].
Proof.
  pose proof Hpage as [? ? ? ? ? ? ? ?]. split; simpl; try done.
  - unfold len in *. simpl. lia.
  - rewrite Forall_forall. intros s Hs. split; [|done]. apply list_elem_of_fmap. by exists s.
Qed.
End coalesce.

(** [coalesce] keeps the page invariant, merges every run of free slices, and
    keeps every live slice as it is. *)
Lemma coalesce_spec p e n :
  env_ok e → page_ok e p → guards (heap e) !! page_guard p = Some n →
  next_id (heap e) + len (slices p) ≤ usize_max →
  wp (coalesce p) e (λ p' e', ∃ out, p' = set_slices out p ∧ env_ok e' ∧ page_ok e' p' ∧
    framed (handle <$> slices p) e e' ∧ Forall (known p e e') out ∧
    filter (live e) out = filter (live e) (slices p) ∧ (n = 0 → compact e out) ∧
    next_id (heap e') ≤ next_id (heap e) + len (slices p) ∧ len out ≤ len (slices p)) (λ _ _, False).
Proof.
  intros Hok Hp Hg Hroom. unfold coalesce. apply wp_bind.
  apply (adjacent_free_spec _ (page_guard p) n); [done| |].
  - rewrite Forall_forall. intros s Hs. split.
    + pose proof (ok_slices _ _ Hp) as Hsl. rewrite Forall_forall in Hsl. apply (Hsl s Hs).
    + eapply located_elem; [apply Hp|done].
  - intros [] Hb Hc; simpl.
    + rewrite (Hb eq_refl) in Hg. apply wp_bind. eapply wp_mono.
      * apply (coalesce_loop_spec p e Hok Hp Hg Hroom); [by apply loop_start|apply compact_nil|done].
      * intros out e' [? ? ? ? ? ? ? ?]. apply wp_ret. by exists out.
    + apply wp_ret. exists (slices p). destruct p; simpl in *. split; [done|].
      split; [done|]. split; [done|]. split; [apply framed_refl|].
      split; [|split; [done|split; [auto|split; lia]]].
      rewrite Forall_forall. intros s Hs. left. split; [|done]. apply list_elem_of_fmap. by exists s.
Qed.

(** ** Reserving *)

Definition padding_of (size align : N) : N :=
  if size mod align =? 0 then 0 else align - size mod align.
Lemma calculate_padding_ok {E} size align :
  0 < align →
  calculate_padding (E:=E) size align = Ok (padding_of size align) ∧
  padding_of size align < align ∧ (align | size + padding_of size align).
Proof.
  intros Ha. unfold calculate_padding, padding_of. destruct (N.eqb_spec align 0); [lia|].
  destruct (div_mod_vars size align Ha) as (q & m & _ & -> & Hq & Hm).
  destruct (N.eqb_spec m 0) as [->|]; cbn [negb]; (split; [done|]); (split; [lia|]).
  - exists q. lia.
  - exists (q + 1). lia.
Qed.

Lemma find_slot_spec e needed k l Q (R : IoError → Env SE S → Prop) :
  Forall (λ s, eff s ≤ u64_max ∧ ∃ loc c, vd e !! handle s = Some (loc, c)) l →
  (Forall (λ s, eff s < needed ∨ live e s) l → Q None e) →
  (∀ l1 s l2, l = l1 ++ s :: l2 → needed ≤ eff s → ¬ live e s →
    Forall (λ s, eff s < needed ∨ live e s) l1 → Q (Some ((k + length l1)%nat, s, eff s)) e) →
  wp (find_slot needed k l) e Q R.
Proof.
  revert k Q. induction l as [|s l IH]; intros k Q Hf Hnone Hsome; simpl; [by apply wp_ret, Hnone|].
  apply Forall_cons in Hf as [[Hb (loc & c & Hv)] Hf].
  apply wp_bind, effective_size_spec; [done|]. fold (eff s). apply wp_bind.
  assert ((eff s < needed ∨ live e s) → wp (find_slot needed (k + 1) l) e Q R) as Hnext.
  { intros Hs. apply IH; [done| |].
    - intros Hl. apply Hnone. by constructor.
    - intros l1 t l2 -> ? ? Hl1. replace (k + 1 + length l1)%nat with (k + length (s :: l1))%nat
        by (simpl; lia). apply (Hsome (s :: l1) t l2); [done|done|done|by constructor]. }
  destruct (N.leb_spec needed (eff s)).
  - eapply handle_is_free_spec; [done|]. destruct (N.leb_spec c 1).
    + apply wp_ret. replace k with (k + length (@nil Slice))%nat at 1 by (simpl; lia).
      apply (Hsome [] s l); [done|done| |done]. unfold live. rewrite (refs_lookup _ _ _ _ Hv). lia.
    + apply Hnext. right. unfold live. rewrite (refs_lookup _ _ _ _ Hv). lia.
  - apply wp_ret, Hnext. by left.
Qed.

(** Changes of locations only, among the handles of [l]. *)
Definition moved_within l e e' : Prop :=
  env_ok e' ∧ same e e' ∧ (∀ h, h ∉ handle <$> l → vd e' !! h = vd e !! h) ∧
  ∀ h, refs e' h = refs e h.
Lemma renumber_spec e b i l :
  env_ok e → NoDup (handle <$> l) → located e b (N.of_nat i) l →
  N.of_nat i + 1 + len l ≤ u32_max + 1 →
  wp (renumber (i + 1) l) e
    (λ _ e', moved_within l e e' ∧ located e' b (N.of_nat i + 1) l) (λ _ _, False).
Proof.
  revert e i. induction l as [|s l IH]; intros e i Hok Hnd Hl Hlen; simpl.
  { split; [done|apply located_nil]. }
  apply located_cons in Hl as [[c Hc] Hl]. inversion_clear Hnd as [|? ? Hs Hnd'].
  apply wp_bind. rewrite as_u32_id by (unfold len in *; simpl in *; lia).
  eapply update_slice_spec; [done|done|]. intros e1 Hok1 Hsame1 Hv1.
  replace (N.of_nat (i + 1)) with (N.of_nat i + 1) in Hv1 by lia. eapply wp_mono.
  - apply (IH e1 (i + 1)%nat); [done|done| |unfold len in *; simpl in *; lia].
    replace (N.of_nat (i + 1)) with (N.of_nat i + 1) by lia.
    eapply located_ext; [|exact Hl]. intros t Ht. rewrite Hv1, lookup_insert_ne; [done|].
    intros Heq. apply Hs. rewrite Heq. apply list_elem_of_fmap. by exists t.
  - intros ? e2 [(Hok2 & Hsame2 & Hv2 & Hr2) Hl2]. split; [split; [done|]; split; [|split]|].
    + by eapply same_trans.
    + intros h Hh. rewrite fmap_cons, not_elem_of_cons in Hh. destruct Hh as [Hne Hh].
      by rewrite Hv2, Hv1, lookup_insert_ne.
    + intros h. rewrite Hr2, (refs_insert _ _ _ _ _ h Hv1). case_decide; [|done]. subst h.
      by rewrite (refs_lookup _ _ _ _ Hc).
    + apply located_cons. split.
      * exists c. by rewrite Hv2, Hv1, lookup_insert_eq by done.
      * by replace (N.of_nat i + 1 + 1) with (N.of_nat (i + 1) + 1) by lia.
Qed.

Definition carve s (size pad : N) : Slice := set_slice_util (mkUtil (start s) size) pad s.

(** The outcome of a reservation in slice [s] of the page. *)
Record reserved_at p e (size : N) p' e' (h : N) l1 s (new : list Slice) l2 : Prop := {
  ra_before : slices p = l1 ++ s :: l2;
  ra_after : p' = set_slices (l1 ++ carve s size (padding_of size (alignment p)) :: new ++ l2) p;
  ra_handle : h = handle s;
  ra_free : ¬ live e s;
  ra_fits : size + padding_of size (alignment p) ≤ eff s;
  ra_first : Forall (λ t, eff t < size + padding_of size (alignment p) ∨ live e t) l1;
  ra_new : Forall (λ t, handle t = next_id (heap e) ∧ refs e' (handle t) = 1) new;
  ra_refs : ∀ t, t ∈ l1 ++ s :: l2 → refs e' (handle t) =
    if decide (handle t = h) then refs e (handle t) + 1 else refs e (handle t)
}.

(** The two ways a reservation rewrites the page. *)
Section reserve.
Context (p : MemoryPage) (e0 : Env SE S) (size : N) (l1 l2 : list Slice) (s : Slice).
Context (Hok0 : env_ok e0) (Hpage : page_ok e0 p) (Hsplit : slices p = l1 ++ s :: l2).
Abbreviation X := (handle <$> slices p).
Abbreviation pad := (padding_of size (alignment p)).
Abbreviation needed := (size + pad).
Context (Hfit : needed ≤ eff s).

Lemma carve_start : start (carve s size pad) = start s.
Proof. done. Qed.
Lemma carve_eff : eff (carve s size pad) = needed.
Proof. done. Qed.
Lemma carve_ok : slice_ok p (carve s size pad).
Proof.
  pose proof (ok_slices _ _ Hpage) as Hsl. rewrite Hsplit, Forall_app, Forall_cons in Hsl.
  destruct Hsl as (_ & Hs & _). exact Hs.
Qed.
Lemma page_tiles : ∃ b, tiles (page_start p) l1 b ∧ start s = b ∧ tiles (b + eff s) l2 (page_end p).
Proof.
  pose proof (ok_tiles _ _ Hpage) as Ht. rewrite Hsplit, tiles_app in Ht.
  destruct Ht as (b & ? & ? & ?). by exists b.
Qed.
Lemma located_split e :
  located e (location_base p) 0 (l1 ++ s :: l2) ↔
    located e (location_base p) 0 l1 ∧
    (∃ c, vd e !! handle s = Some (with_slice (len l1) (location_base p), c)) ∧
    located e (location_base p) (len l1 + 1) l2.
Proof. by rewrite located_app, located_cons, N.add_0_l. Qed.

(** An exact fit. *)
Lemma reserve_exact e c :
  eff s = needed → env_ok e → same e0 e →
  vd e0 !! handle s = Some (with_slice (len l1) (location_base p), c) →
  vd e = <[handle s := (with_slice (len l1) (location_base p), c + 1)]> (vd e0) →
  page_ok e (set_slices (l1 ++ carve s size pad :: l2) p) ∧ framed X e0 e.
Proof.
  intros Heq Hok Hsame Hc Hv. pose proof Hpage as [_ Hsl Hloc Hnd Hcnt Hgd Hal Hbd].
  rewrite Hsplit in Hsl, Hloc, Hnd, Hcnt. apply located_split in Hloc as (Hl1 & _ & Hl2).
  assert (handle s ∈ X) as Hin.
  { rewrite Hsplit, fmap_app. apply elem_of_app. right. by left. }
  split; [|by eapply framed_put]. rewrite !Forall_app, !Forall_cons in *.
  split; simpl; try done.
  - destruct page_tiles as (b & ? & Hst & ?). rewrite tiles_app. exists b. split; [done|].
    split; [done|]. by rewrite carve_eff, <-Heq.
  - rewrite Forall_app, Forall_cons. split; [tauto|]. split; [apply carve_ok|tauto].
  - rewrite located_app, located_cons, N.add_0_l.
    assert (∀ t, t ∈ l1 ++ l2 → vd e !! handle t = vd e0 !! handle t) as Hother.
    { intros t Ht. rewrite Hv, lookup_insert_ne; [done|]. apply not_eq_sym.
      by eapply nodup_apart. }
    split; [eapply located_ext; [|done]; intros t Ht; apply Hother, elem_of_app; by left|].
    split; [exists (c + 1); simpl; by rewrite Hv, lookup_insert_eq|].
    eapply located_ext; [|done]. intros t Ht. apply Hother, elem_of_app. by right.
  - rewrite fmap_app in *. done.
  - rewrite len_app in *. done.
  - destruct Hsame as (_ & -> & _). done.
Qed.

(** The remainder of a larger slice becomes a slice of its own. *)
Definition rest_slice : Slice :=
  mkSlice (page_mapped p) (page_guard p)
    (mkHandle (id (page_storage p)) (mkUtil (start s + needed) (eff s - needed)))
    (next_id (heap e0)) 0 0.
Lemma reserve_split e c :
  needed < eff s → env_ok e → grown_env e0 e → device e = device e0 →
  len (slices p) ≤ u32_max →
  (∀ t, t ∈ l1 → vd e !! handle t = vd e0 !! handle t) →
  vd e !! handle s = Some (with_slice (len l1) (location_base p), c) →
  vd e !! next_id (heap e0) = Some (with_slice (len l1 + 1) (location_base p), 1) →
  located e (location_base p) (len l1 + 2) l2 →
  (∀ h, h ∉ X → h < next_id (heap e0) → vd e !! h = vd e0 !! h) →
  page_ok e (set_slices (l1 ++ carve s size pad :: rest_slice :: l2) p) ∧ framed X e0 e.
Proof.
  intros Hlt Hok Hgr Hdev Hroom Hv1 Hvs Hvn Hl2' Hfr.
  pose proof Hpage as [_ Hsl Hloc Hnd Hcnt [n Hgd] Hal Hbd].
  rewrite Hsplit in Hsl, Hloc, Hnd, Hcnt, Hroom.
  pose proof Hloc as (Hl1 & _ & _)%located_split.
  destruct (calculate_padding_ok (E:=IoError) size _ Hal) as (_ & _ & Hdiv).
  rewrite !Forall_app, !Forall_cons in Hsl. destruct Hsl as (? & Hs & ?).
  split; [|done]. split; simpl; try done.
  - destruct page_tiles as (b & ? & <- & ?). rewrite tiles_app. exists (start s). split; [done|].
    split; [done|]. rewrite carve_eff. split; [done|]. unfold eff at 1. unfold handle_size. simpl.
    by replace (start s + needed + (eff s - needed + 0)) with (start s + eff s) by lia.
  - rewrite Forall_app, !Forall_cons. split; [done|]. split; [apply carve_ok|].
    split; [|done]. unfold slice_ok. simpl. split; [done|]. split; [done|]. split; [done|].
    apply N.divide_add_r; [apply Hs|done].
  - rewrite located_app, !located_cons, N.add_0_l. split; [by eapply located_ext|].
    split; [by exists c|]. split; [by exists 1|].
    by replace (len l1 + 1 + 1) with (len l1 + 2) by lia.
  - pose proof (nodup_add (l1 ++ [carve s size pad]) rest_slice l2) as Hadd.
    rewrite <-!app_assoc in Hadd. simpl in Hadd. apply Hadd.
    + by rewrite !fmap_app in *.
    + intros t Ht. assert (∃ loc k, vd e0 !! handle t = Some (loc, k)) as (loc & k & Hk).
      { rewrite elem_of_app, elem_of_cons in Ht. destruct Ht as [Ht|[->|Ht]].
        - apply (located_elem _ _ _ _ _ Hloc). apply elem_of_app. by left.
        - apply (located_elem _ _ _ _ s Hloc). apply elem_of_app. right. by left.
        - apply (located_elem _ _ _ _ _ Hloc). apply elem_of_app. right. by right. }
      apply env_ok_fresh in Hk; [simpl; lia|done].
  - rewrite len_app in *. unfold len in *. simpl in *. lia.
  - destruct Hgr as (_ & _ & Hg & _). exists n. by apply Hg.
Qed.

(** The code path that adds the remainder, from the environment [e1] in which
    the reserved slice has been handed out. *)
Lemma split_rest e1 c :
  needed < eff s → len (slices p) ≤ u32_max → next_id (heap e0) < usize_max →
  env_ok e1 → same e0 e1 →
  vd e0 !! handle s = Some (with_slice (len l1) (location_base p), c) →
  vd e1 = <[handle s := (with_slice (len l1) (location_base p), c + 1)]> (vd e0) →
  wp (let! st := lift (offset_start (mkHandle (id (storage s)) (mkUtil (start s) (eff s))) needed) in
      let! new := slice_new st 0 in
      add_new_slice (set_slices (l1 ++ carve s size pad :: l2) p) (length l1) size
        (set_slice_page (page_mapped p) (page_guard p) new)) e1
    (λ p' e', p' = set_slices (l1 ++ carve s size pad :: rest_slice :: l2) p ∧
      env_ok e' ∧ page_ok e' p' ∧ framed X e0 e' ∧ next_id (heap e') = next_id (heap e0) + 1 ∧
      refs e' (next_id (heap e0)) = 1 ∧
      ∀ h, h ≠ next_id (heap e0) → refs e' h = refs e1 h) (λ _ _, False).
Proof.
  intros Hlt Hlen Hid Hok1 Hsame1 Hc Hv1.
  pose proof (ok_located _ _ Hpage) as Hloc. pose proof (ok_nodup _ _ Hpage) as Hnd.
  rewrite Hsplit in Hloc, Hnd. pose proof Hloc as (Hl1 & _ & Hl2)%located_split.
  pose proof page_tiles as (b & _ & Hst & Ht2). apply tiles_le in Ht2.
  pose proof (ok_bound _ _ Hpage) as Hbd. apply wp_bind. eapply wp_lift_ok.
  { unfold offset_start. cbn [handle_offset handle_size utilization offset Storage.size id].
    unfold checked_add, checked_sub.
    rewrite (proj2 (N.leb_le _ _)) by lia. by rewrite (proj2 (N.leb_le _ _)) by lia. }
  assert (next_id (heap e1) = next_id (heap e0)) as Hn1 by apply Hsame1.
  apply wp_bind, slice_new_spec; [done|by rewrite Hn1|].
  intros e2 g Hok2 Hn2 Hg2 Hng2 Hd2 Hr2 Hv2. rewrite Hn1 in *.
  destruct carve_ok as (Hpr & Hmp & Hsid & _). cbn in Hsid. rewrite Hsid.
  unfold add_new_slice. cbn [slices set_slices].
  rewrite lookup_app_r, Nat.sub_diag by done. cbn [lookup list_lookup]. apply wp_bind, wp_ret.
  cbn [handle set_slice_page]. apply wp_bind.
  eapply update_location_spec; [done|by rewrite Hv2, lookup_insert_eq|].
  intros e3 Hok3 Hsame3 Hv3. apply wp_bind.
  rewrite drop_app_ge by lia. replace (length l1 + 1 - length l1)%nat with 1%nat by lia. simpl.
  rewrite drop_0, take_app_length. rewrite Hsplit, len_app in Hlen.
  rewrite as_u32_id in Hv3 by (unfold len in *; simpl in *; lia).
  assert (∀ h, h ≠ handle s → h < next_id (heap e0) → vd e3 !! h = vd e0 !! h) as Hother.
  { intros h Hne Hh. by rewrite Hv3, Hv2, Hv1, !lookup_insert_ne by lia. }
  assert (∀ t, t ∈ l1 ++ l2 → vd e3 !! handle t = vd e0 !! handle t) as Hrest.
  { intros t Ht. apply Hother; [by eapply nodup_apart|].
    apply elem_of_app in Ht as [Ht|Ht]; (eapply located_elem in Ht as (? & ? & ?); [|done]);
      by eapply env_ok_fresh. }
  replace (length l1 + 2)%nat with ((length l1 + 1) + 1)%nat by lia. eapply wp_mono.
  { apply (renumber_spec e3 (location_base p)); [done|by eapply nodup_split| |
      unfold len in *; simpl in *; lia].
    replace (N.of_nat (length l1 + 1)) with (len l1 + 1) by (unfold len; lia).
    eapply located_ext; [|exact Hl2]. intros t Ht. apply Hrest, elem_of_app. by right. }
  intros ? e4 [(Hok4 & Hsame4 & Hv4 & Hr4) Hl4]. apply wp_ret. split; [done|]. split; [done|].
  destruct (nodup_split _ _ _ Hnd) as (_ & Hs2 & Hl12).
  assert (handle s < next_id (heap e0)) as Hslt by (by eapply env_ok_fresh).
  assert (vd e4 !! next_id (heap e0) = Some (with_slice (len l1 + 1) (location_base p), 1)) as Hnew.
  { rewrite Hv4, Hv3, lookup_insert_eq.
    - do 3 f_equal. unfold len. lia.
    - intros (t & Heq & Ht)%list_elem_of_fmap.
      destruct (located_elem _ _ _ _ _ Hl2 Ht) as (? & ? & Ht'). apply env_ok_fresh in Ht'; [lia|done]. }
  destruct (reserve_split e4 (c + 1)) as [Hp4 Hfr4]; try done.
  - destruct Hsame1 as (? & Hg1 & ? & ? & ?), Hsame3 as (? & Hg3 & ? & ? & ?),
      Hsame4 as (? & Hg4 & ? & ? & ?).
    split; [lia|]. split; [lia|]. split; [|congruence]. intros g' m Hm.
    rewrite Hg4, Hg3. apply Hg2. by rewrite Hg1.
  - destruct Hsame1 as (_ & _ & _ & ? & _), Hsame3 as (_ & _ & _ & ? & _),
      Hsame4 as (_ & _ & _ & ? & _). congruence.
  - rewrite Hsplit, len_app. done.
  - intros t Ht. rewrite Hv4 by auto. apply Hrest, elem_of_app. by left.
  - by rewrite Hv4, Hv3, Hv2, Hv1, !lookup_insert_ne, lookup_insert_eq by (done || lia).
  - by replace (len l1 + 2) with (N.of_nat (length l1 + 1) + 1) by (unfold len; lia).
  - intros h Hh Hhlt. rewrite Hsplit, fmap_app, fmap_cons, not_elem_of_app, not_elem_of_cons in Hh.
    destruct Hh as (_ & Hne & Hh). rewrite Hv4 by done. by apply Hother.
  - split; [done|]. split; [done|]. split; [|split; [by eapply refs_lookup|]].
    { destruct Hsame3 as (? & _), Hsame4 as (? & _). lia. }
    intros h Hh. unfold refs. fold (refs e4 h). rewrite Hr4. unfold refs.
    by rewrite Hv3, Hv2, !lookup_insert_ne.
Qed.
End reserve.

Lemma page_slice_facts e p :
  page_ok e p →
  Forall (λ s, eff s ≤ u64_max ∧ ∃ loc c, vd e !! handle s = Some (loc, c)) (slices p).
Proof.
  intros Hp. rewrite Forall_forall. intros s Hs. split.
  - apply list_elem_of_lookup in Hs as [k Hk].
    destruct (tiles_lookup _ _ _ _ _ (ok_tiles _ _ Hp) Hk). pose proof (ok_bound _ _ Hp). lia.
  - eapply located_elem; [apply Hp|done].
Qed.
(** A page not being reserved from: guarded, or without a large enough free slice. *)
Definition refuses e p (n size : N) : Prop :=
  n ≠ 0 ∨ Forall (λ s, eff s < size + padding_of size (alignment p) ∨ live e s) (slices p).

Lemma page_try_reserve_spec p e n size :
  env_ok e → page_ok e p → guards (heap e) !! page_guard p = Some n →
  size + alignment p ≤ u64_max → next_id (heap e) < usize_max → len (slices p) ≤ u32_max →
  wp (page_try_reserve p size) e (λ r e', env_ok e' ∧ page_ok e' r.1 ∧
    framed (handle <$> slices p) e e' ∧ next_id (heap e') ≤ next_id (heap e) + 1 ∧
    len (slices r.1) ≤ len (slices p) + 1 ∧
    match r.2 with
    | None => r.1 = p ∧ e' = e ∧ refuses e p n size
    | Some h => n = 0 ∧ ∃ l1 s new l2, reserved_at p e size r.1 e' h l1 s new l2
    end) (λ _ _, False).
Proof.
  intros Hok Hp Hg Hsize Hid Hlen. pose proof (ok_align _ _ Hp) as Hal.
  destruct (calculate_padding_ok (E:=IoError) size _ Hal) as (Hpad & Hplt & _).
  unfold page_try_reserve. apply wp_bind. eapply guarded_spec; [done|].
  destruct (N.eqb_spec n 0) as [->|Hn]; cbn [negb].
  2:{ apply wp_ret. simpl. split; [done|]. split; [done|]. split; [apply framed_refl|].
      split; [lia|]. split; [lia|]. split; [done|]. split; [done|]. by left. }
  apply wp_bind. eapply wp_lift_ok; [exact Hpad|]. apply wp_bind.
  eapply wp_lift_ok; [apply uadd_ok; lia|]. apply wp_bind.
  apply find_slot_spec; [by apply page_slice_facts| |].
  { intros Hall. apply wp_ret. simpl. split; [done|]. split; [done|]. split; [apply framed_refl|].
    split; [lia|]. split; [lia|]. split; [done|]. split; [done|]. by right. }
  intros l1 s l2 Hsplit Hfit Hdead Hfirst. simpl.
  pose proof (ok_located _ _ Hp) as Hloc. pose proof (ok_nodup _ _ Hp) as Hnd.
  rewrite Hsplit in Hloc, Hnd. pose proof Hloc as (Hl1 & (c & Hc) & Hl2)%located_split.
  assert (∀ t, t ∈ l1 ++ l2 → handle t ≠ handle s) as Hapart by (intros t; by apply nodup_apart).
  apply wp_bind. eapply clone_handle_spec; [done|done|]. intros e1 Hok1 Hsame1 Hv1.
  assert (<[length l1 := carve s size (padding_of size (alignment p))]> (slices p)
    = l1 ++ carve s size (padding_of size (alignment p)) :: l2) as Hins.
  { rewrite Hsplit, insert_app_r_alt, Nat.sub_diag by done. done. }
  assert (∀ t, t ∈ l1 ++ s :: l2 → refs e1 (handle t) =
    if decide (handle t = handle s) then refs e (handle t) + 1 else refs e (handle t)) as Hrefs1.
  { intros t _. rewrite (refs_insert _ _ _ _ _ _ Hv1). case_decide as Heq; [|done].
    by rewrite Heq, (refs_lookup _ _ _ _ Hc). }
  change (set_slice_util _ _ s) with (carve s size (padding_of size (alignment p))). rewrite Hins.
  destruct (N.ltb_spec (size + padding_of size (alignment p)) (eff s)) as [Hlt|Hge].
  2:{ apply wp_ret. simpl. split; [done|].
      destruct (reserve_exact p e size l1 l2 s Hp Hsplit e1 c) as [Hp1 Hfr1]; [lia|done..|].
      split; [done|]. split; [done|]. split; [destruct Hsame1 as (-> & _); lia|].
      split; [rewrite Hsplit, !len_app; unfold len; simpl; lia|].
      split; [done|]. exists l1, s, [], l2. by split. }
  pose proof (split_rest p e size l1 l2 s Hok Hp Hsplit Hfit e1 c Hlt Hlen Hid Hok1 Hsame1 Hc Hv1)
    as Hspec%wp_bind_inv.
  apply wp_bind. eapply wp_mono; [exact Hspec|]. cbn beta. intros st e2 Hspec2%wp_bind_inv.
  apply wp_bind. eapply wp_mono; [exact Hspec2|]. cbn beta. intros nw e3 Hspec3.
  apply wp_bind. eapply wp_mono; [exact Hspec3|]. intros p' e' (-> & ? & ? & ? & Hnx & Hnew & Hold).
  apply wp_ret. simpl. split; [done|]. split; [done|]. split; [done|]. split; [lia|].
  split; [rewrite Hsplit, !len_app; unfold len; simpl; lia|]. split; [done|].
  exists l1, s, [rest_slice p e size s], l2. split; try done.
  - constructor; [|done]. done.
  - intros t Ht. rewrite <-Hrefs1 by done. apply Hold.
    destruct (located_elem _ _ _ _ _ Hloc Ht) as (? & ? & Ht'). apply env_ok_fresh in Ht'; [lia|done].
Qed.
End pages.
