(* ===== verification/MemoryPool.v ===== *)
(** * Invariant of the sliced pool

    Every page of the pool satisfies the page invariant at its own index, the
    pages are backed by distinct live storage of the pool's page size, and no
    descriptor belongs to two slices.  [slices_step] is what an operation keeps
    of the slices it works on; it composes along the pages of the pool. *)

From S2P Require Import Prelude Taint TaintProps Storage Memory MemoryHeap MemoryPages.
Open Scope N_scope.

Section pool.
Context {P : Profile} {SE S : Type} {CS : ComputeStorage S} {CL : ComputeStorageLaws S}.
Abbreviation Mem := (M (Env SE S) IoError).
Abbreviation hs l := (handle <$> l).
Abbreviation live := MemoryPages.live.
Implicit Types (e : Env SE S) (p : SlicedPool) (pg : MemoryPage) (s : Slice).
Implicit Types (ss : list Slice) (l : list (MemoryPage * N)).

Definition pool_slices l : list Slice := l ≫= λ x, slices x.1.

(** One page at index [i]. *)
Record page_in e p (i : N) pg (sid : N) : Prop := mkPageIn {
  pi_ok : page_ok e pg;
  pi_base : location_base pg = with_page i (pool_base p);
  pi_id : sid = id (page_storage pg);
  pi_align : alignment pg = pool_alignment p;
  pi_start : page_start pg = 0;
  pi_size : handle_size (page_storage pg) = page_size p;
  pi_drawn : sid < ids (device e);
  pi_mapped : page_mapped pg = true → Storage.live (store (device e)) !! sid = Some (page_size p)
}.
Definition pages_in e p (k : N) l : Prop :=
  ∀ i pg sid, l !! i = Some (pg, sid) → page_in e p (k + N.of_nat i) pg sid.

Record config_ok p : Prop := mkConfigOk {
  cf_align : 0 < pool_alignment p;
  cf_multiple : (pool_alignment p | page_size p);
  cf_size : 0 < page_size p;
  cf_bound : page_size p + pool_alignment p ≤ u64_max;
  cf_max : max_alloc_size p ≤ page_size p
}.
Record pool_ok e p : Prop := mkPoolOk {
  po_env : env_ok e;
  po_storage : storage_inv (device e);
  po_pages : pages_in e p 0 (pages p);
  po_handles : NoDup (hs (pool_slices (pages p)));
  po_ids : NoDup (pages p).*2;
  po_count : len (pages p) ≤ u16_max + 1;
  po_config : config_ok p
}.

Lemma pool_slices_cons pg sid l : pool_slices ((pg, sid) :: l) = slices pg ++ pool_slices l.
Proof. done. Qed.
Lemma pool_slices_app l l' : pool_slices (l ++ l') = pool_slices l ++ pool_slices l'.
Proof. apply bind_app. Qed.
Lemma elem_of_pool_slices l s :
  s ∈ pool_slices l ↔ ∃ i pg sid, l !! i = Some (pg, sid) ∧ s ∈ slices pg.
Proof.
  unfold pool_slices. rewrite list_elem_of_bind. split.
  - intros ([pg sid] & Hs & [i Hi]%list_elem_of_lookup). naive_solver.
  - intros (i & pg & sid & Hi & Hs). exists (pg, sid). split; [done|by eapply list_elem_of_lookup_2].
Qed.
Lemma elem_of_hs ss h : h ∈ hs ss ↔ ∃ s, s ∈ ss ∧ handle s = h.
Proof. rewrite list_elem_of_fmap. naive_solver. Qed.
Lemma elem_of_hs_2 ss s : s ∈ ss → handle s ∈ hs ss.
Proof. rewrite elem_of_hs. naive_solver. Qed.

Lemma pages_in_nil e p k : pages_in e p k [].
Proof. intros i pg sid. by rewrite lookup_nil. Qed.
Lemma pages_in_cons e p k pg sid l :
  pages_in e p k ((pg, sid) :: l) ↔ page_in e p k pg sid ∧ pages_in e p (k + 1) l.
Proof.
  split.
  - intros Hl. split.
    + specialize (Hl 0%nat pg sid eq_refl). by rewrite N.add_0_r in Hl.
    + intros i pg' sid' Hi. specialize (Hl (Datatypes.S i) pg' sid' Hi).
      by replace (k + 1 + N.of_nat i) with (k + N.of_nat (Datatypes.S i)) by lia.
  - intros [Hp Hl] [|i] pg' sid' Hi.
    + injection Hi as <- <-. by rewrite N.add_0_r.
    + replace (k + N.of_nat (Datatypes.S i)) with (k + 1 + N.of_nat i) by lia. by apply Hl.
Qed.
Lemma pages_in_app e p k l l' :
  pages_in e p k (l ++ l') ↔ pages_in e p k l ∧ pages_in e p (k + len l) l'.
Proof.
  revert k. induction l as [|[pg sid] l IH]; simpl; intros k.
  - unfold len. simpl. rewrite N.add_0_r. split; [split; [apply pages_in_nil|done]|naive_solver].
  - rewrite !pages_in_cons, IH. unfold len. simpl.
    replace (k + 1 + N.of_nat (length l)) with (k + N.of_nat (Datatypes.S (length l))) by lia. tauto.
Qed.

(** The invariant reads the pages and the fixed parameters of the pool. *)
Lemma pages_in_set e p k l l' : pages_in e p k l → pages_in e (set_pages l' p) k l.
Proof. intros Hl i pg sid Hi. by destruct (Hl i pg sid Hi). Qed.
Lemma pool_ok_set e p l :
  config_ok p → env_ok e → storage_inv (device e) → pages_in e p 0 l →
  NoDup (hs (pool_slices l)) → NoDup l.*2 → len l ≤ u16_max + 1 → pool_ok e (set_pages l p).
Proof. intros [] ? ? ? ? ? ?. split; try done. by apply pages_in_set. Qed.

(** A descriptor of a page or pool exists, so it is older than the next one. *)
Definition known_handles e ss : Prop := ∀ s, s ∈ ss → ∃ loc c, vd e !! handle s = Some (loc, c) ∧ 1 ≤ c.
Lemma page_ok_known e pg : env_ok e → page_ok e pg → known_handles e (slices pg).
Proof.
  intros Hok Hp s Hs. destruct (located_elem _ _ _ _ _ (ok_located _ _ Hp) Hs) as (loc & c & Hv).
  exists loc, c. split; [done|]. by eapply env_ok_fresh.
Qed.
Lemma pages_in_known e p k l : env_ok e → pages_in e p k l → known_handles e (pool_slices l).
Proof.
  intros Hok Hl s (i & pg & sid & Hi & Hs)%elem_of_pool_slices.
  by apply (page_ok_known e pg Hok); [apply (Hl _ _ _ Hi)|].
Qed.
Lemma known_fresh e ss h : env_ok e → known_handles e ss → h ∈ hs ss → h < next_id (heap e).
Proof.
  intros Hok Hk (s & Hs & <-)%elem_of_hs. destruct (Hk s Hs) as (? & ? & Hv & _).
  by eapply env_ok_fresh.
Qed.
Lemma known_dead e ss s : known_handles e ss → s ∈ ss → ¬ live e s → refs e (handle s) = 1.
Proof.
  intros Hk Hs Hl. destruct (Hk s Hs) as (? & ? & Hv & ?). unfold MemoryPages.live in Hl.
  rewrite (refs_lookup _ _ _ _ Hv) in *. lia.
Qed.

(** Everything outside the handles [X] is left alone, as far as the heap goes. *)
Definition framed0 (X : list N) e e' : Prop :=
  (∀ h, h ∉ X → h < next_id (heap e) → vd e' !! h = vd e !! h) ∧ grown_env e e'.
(** The device still has the storage [sid]. *)
Definition keeps e e' (sid : N) : Prop :=
  ids (device e) ≤ ids (device e') ∧
  ∀ n, Storage.live (store (device e)) !! sid = Some n →
       Storage.live (store (device e')) !! sid = Some n.
Lemma keeps_same e e' sid : device e' = device e → keeps e e' sid.
Proof. intros Hd. unfold keeps. by rewrite Hd. Qed.
#[local] Hint Resolve keeps_same : core.

(** A change confined to other handles and other storage keeps a page. *)
Lemma page_in_framed X e e' p k pg sid :
  env_ok e → framed0 X e e' → (∀ h, h ∈ hs (slices pg) → h ∉ X) → keeps e e' sid →
  page_in e p k pg sid → page_in e' p k pg sid.
Proof.
  intros Hok [Hv Hgr] Hdis [Hids Hkeep] [Hp ? ? ? ? ? ? ?]. split; try done; [|lia|auto].
  pose proof (page_ok_known _ _ Hok Hp) as Hkn.
  destruct Hp as [? ? Hl ? ? [n Hg] ? ?]. split; try done.
  - eapply located_ext; [|done]. intros s Hs. apply Hv; [by apply Hdis, elem_of_hs_2|].
    eapply known_fresh; [done|done|by apply elem_of_hs_2].
  - destruct Hgr as (_ & _ & Hgr & _). exists n. by apply Hgr.
Qed.
Lemma pages_in_framed X e e' p k l :
  env_ok e → framed0 X e e' → (∀ h, h ∈ hs (pool_slices l) → h ∉ X) →
  (∀ sid, sid ∈ l.*2 → keeps e e' sid) → pages_in e p k l → pages_in e' p k l.
Proof.
  intros Hok Hfr Hdis Hkeep Hl i pg sid Hi. eapply page_in_framed; [done|done| | |by apply Hl].
  - intros h (s & Hs & <-)%elem_of_hs. apply Hdis, elem_of_hs_2, elem_of_pool_slices. naive_solver.
  - apply Hkeep, list_elem_of_fmap. exists (pg, sid). split; [done|by eapply list_elem_of_lookup_2].
Qed.
(** Only the slices of a page changed. *)
Lemma page_in_slices e e' p k pg sid ss :
  page_in e p k pg sid → device e' = device e → page_ok e' (set_slices ss pg) →
  page_in e' p k (set_slices ss pg) sid.
Proof. intros [? ? ? ? ? ? ? ?] Hd Hp. split; simpl; rewrite ?Hd; done. Qed.

(** ** What an operation keeps of the slices it works on *)

(** Live slices stay as they are and as held as they were; every handle is old or
    new; a live slice was live before or is the one handed out. *)
Record slices_step e ss e' ss' (o : option N) : Prop := mkStep {
  ss_env : env_ok e';
  ss_frame : framed0 (hs ss) e e';
  ss_live : ∀ s, s ∈ ss → live e s → s ∈ ss' ∧ refs e' (handle s) = refs e (handle s);
  ss_handles : ∀ s, s ∈ ss' → handle s ∈ hs ss ∨ next_id (heap e) ≤ handle s < next_id (heap e');
  ss_new : ∀ s, s ∈ ss' → live e' s → (s ∈ ss ∧ live e s) ∨ o = Some (handle s)
}.
(** A slice of [size] bytes that nobody held before and one client holds now. *)
Definition handed e e' (size : N) ss' (h : N) : Prop :=
  refs e h ≤ 1 ∧ refs e' h = 2 ∧ ∃ s, s ∈ ss' ∧ handle s = h ∧ handle_size (storage s) = size.

Lemma framed_framed0 X e e' : framed X e e' → framed0 X e e'.
Proof. by intros (? & ? & _). Qed.
Lemma framed0_refl X e : framed0 X e e.
Proof. split; [done|apply grown_env_refl]. Qed.
Lemma framed0_mono X Y e e' : framed0 X e e' → (∀ h, h ∈ X → h ∈ Y) → framed0 Y e e'.
Proof. intros [Hv ?] Hsub. split; [|done]. intros h Hh. apply Hv. auto. Qed.
Lemma framed0_refs X e e' h : framed0 X e e' → h ∉ X → h < next_id (heap e) → refs e' h = refs e h.
Proof. intros [Hv _] Hh Hlt. unfold refs. by rewrite Hv. Qed.
Lemma framed0_next X e e' : framed0 X e e' → next_id (heap e) ≤ next_id (heap e').
Proof. by intros [_ (? & _)]. Qed.

Lemma step_refl e ss : env_ok e → slices_step e ss e ss None.
Proof.
  intros Hok. split; [done|apply framed0_refl|done| |by left].
  intros s Hs. left. by apply elem_of_hs_2.
Qed.
Lemma framed0_heap X e e' : heap e' = heap e → dry_run e' = dry_run e → framed0 X e e'.
Proof. intros Hh Hd. unfold framed0, grown_env, vd. rewrite Hh, Hd. done. Qed.
Lemma step_heap e e' ss : env_ok e → heap e' = heap e → dry_run e' = dry_run e → slices_step e ss e' ss None.
Proof.
  intros Hok Hh Hd. assert (vd e' = vd e) as Hv by (unfold vd; by rewrite Hh).
  split; [by unfold env_ok; rewrite Hh|by apply framed0_heap| | |].
  - intros s Hs _. unfold refs. by rewrite Hv.
  - intros s Hs. left. by apply elem_of_hs_2.
  - intros s Hs Hl. left. split; [done|]. unfold MemoryPages.live, refs in *. by rewrite <-Hv.
Qed.
(** Two steps on the same slices. *)
Lemma step_trans e1 ss1 e2 ss2 e3 ss3 o :
  slices_step e1 ss1 e2 ss2 None → slices_step e2 ss2 e3 ss3 o → slices_step e1 ss1 e3 ss3 o.
Proof.
  intros [Ho1 Hf1 Hl1 Hh1 Hn1] [Ho2 Hf2 Hl2 Hh2 Hn2].
  pose proof (framed0_next _ _ _ Hf1) as Hx1. pose proof (framed0_next _ _ _ Hf2) as Hx2.
  assert (∀ s, s ∈ ss1 → live e1 s → s ∈ ss2 ∧ live e2 s ∧ refs e2 (handle s) = refs e1 (handle s)) as Hkeep.
  { intros s Hs Hls. destruct (Hl1 s Hs Hls) as [? Hr]. split; [done|]. split; [|done].
    unfold MemoryPages.live. by rewrite Hr. }
  split; [done| | | |].
  - destruct Hf1 as [Hv1 Hg1], Hf2 as [Hv2 Hg2]. split; [|by eapply grown_env_trans].
    intros h Hh Hlt. rewrite Hv2; [by apply Hv1| |lia].
    intros (s & Hs & Heq)%elem_of_hs. destruct (Hh1 s Hs) as [?|[? _]]; [congruence|lia].
  - intros s Hs Hls. destruct (Hkeep s Hs Hls) as (Hs2 & Hls2 & <-). by apply Hl2.
  - intros s Hs. destruct (Hh2 s Hs) as [(t & Ht & Heq)%elem_of_hs|?]; [|right; lia].
    rewrite <-Heq. destruct (Hh1 t Ht) as [?|?]; [by left|right; lia].
  - intros s Hs Hls. destruct (Hn2 s Hs Hls) as [[Hs2 Hls2]|?]; [|by right].
    destruct (Hn1 s Hs2 Hls2) as [?|?]; [by left|done].
Qed.
(** Slices the step does not touch. *)
Lemma step_frame e ss1 e' ss1' o ssl ssr :
  env_ok e → known_handles e (ssl ++ ssr) → NoDup (hs (ssl ++ ss1 ++ ssr)) →
  slices_step e ss1 e' ss1' o →
  slices_step e (ssl ++ ss1 ++ ssr) e' (ssl ++ ss1' ++ ssr) o.
Proof.
  intros Hok Hk Hnd [Ho Hf Hl Hh Hn].
  assert (∀ s, s ∈ ssl ++ ssr → refs e' (handle s) = refs e (handle s)) as Hother.
  { intros s Hs. eapply framed0_refs; [done| |].
    - intros Hin. rewrite !fmap_app, (Permutation_app_swap_app (hs ssl)) in Hnd.
      apply NoDup_app in Hnd as (_ & Hdis & _). apply (Hdis _ Hin). rewrite <-fmap_app.
      by apply elem_of_hs_2.
    - eapply known_fresh; [done|done|by apply elem_of_hs_2]. }
  split; [done| | | |].
  - eapply framed0_mono; [done|]. intros h. rewrite !fmap_app, !elem_of_app. tauto.
  - intros s. rewrite !elem_of_app. intros [Hs|[Hs|Hs]] Hls.
    + split; [by left|]. apply Hother, elem_of_app. by left.
    + destruct (Hl s Hs Hls). tauto.
    + split; [tauto|]. apply Hother, elem_of_app. by right.
  - intros s. rewrite !fmap_app, !elem_of_app. intros [Hs|[Hs|Hs]].
    + left. left. by apply elem_of_hs_2.
    + destruct (Hh s Hs); tauto.
    + left. right. right. by apply elem_of_hs_2.
  - intros s. rewrite !elem_of_app. unfold MemoryPages.live. intros [Hs|[Hs|Hs]] Hls.
    + left. split; [tauto|]. rewrite <-Hother; [done|]. apply elem_of_app. by left.
    + destruct (Hn s Hs Hls); tauto.
    + left. split; [tauto|]. rewrite <-Hother; [done|]. apply elem_of_app. by right.
Qed.
(** The handles after a step are distinct from the untouched ones. *)
Lemma step_nodup e ss1 e' ss1' o ssl ssr :
  env_ok e → known_handles e (ssl ++ ssr) → NoDup (hs (ssl ++ ss1 ++ ssr)) →
  slices_step e ss1 e' ss1' o → NoDup (hs ss1') → NoDup (hs (ssl ++ ss1' ++ ssr)).
Proof.
  intros Hok Hk Hnd Hst Hnd'. rewrite !fmap_app, (Permutation_app_swap_app (hs ssl)) in *.
  apply NoDup_app in Hnd as (_ & Hdis & ?). apply NoDup_app. split; [done|]. split; [|done].
  intros h (s & Hs & <-)%elem_of_hs Hin. rewrite <-fmap_app in Hin.
  destruct (ss_handles _ _ _ _ _ Hst s Hs) as [Hold|[Hge _]].
  - apply (Hdis _ Hold). by rewrite <-fmap_app.
  - pose proof (known_fresh _ _ _ Hok Hk Hin). lia.
Qed.
(** Who is not held after a step was not held before it. *)
Lemma step_unheld e ss e' ss' o h :
  env_ok e → slices_step e ss e' ss' o → refs e' h ≤ 1 → refs e h ≤ 1.
Proof.
  intros Hok [_ Hf Hl _ _] Hr. destruct (decide (h ∈ hs ss)) as [(s & Hs & <-)%elem_of_hs|Hn].
  - destruct (decide (live e s)) as [Hls|Hls]; [|unfold MemoryPages.live in Hls; lia].
    destruct (Hl s Hs Hls). lia.
  - destruct (decide (h < next_id (heap e))) as [Hlt|Hge].
    + by rewrite <-(framed0_refs _ _ _ _ Hf Hn Hlt).
    + unfold refs. destruct (vd e !! h) as [[]|] eqn:Hv; [|simpl; lia].
      apply env_ok_fresh in Hv; [lia|done].
Qed.
Lemma handed_trans e ss e1 ss1 o e2 size ss2 h :
  env_ok e → slices_step e ss e1 ss1 o → handed e1 e2 size ss2 h → handed e e2 size ss2 h.
Proof. intros Hok Hst (Hr & Hr2 & Hs). split; [|done]. by eapply step_unheld. Qed.
Lemma handed_mono e e' size ss ss' h :
  handed e e' size ss h → (∀ s, s ∈ ss → s ∈ ss') → handed e e' size ss' h.
Proof. intros (? & ? & s & ? & ?) Hsub. split; [done|]. split; [done|]. exists s. auto. Qed.
End pool.
