(* ===== verification/MemoryPoolOps.v ===== *)
(** * Operations of the sliced pool

    Each operation of [SlicedPool], from a pool that satisfies [pool_ok], does
    not panic, re-establishes [pool_ok], and steps the slices of the pool. *)

From S2P Require Import Prelude Taint TaintProps Storage Memory MemoryHeap MemoryPages MemoryPool.
Open Scope N_scope.

Section ops.
Context {P : Profile} {SE S : Type} {CS : ComputeStorage S} {CL : ComputeStorageLaws S}.
Abbreviation Mem := (M (Env SE S) IoError).
Abbreviation hs l := (handle <$> l).
Abbreviation live := MemoryPages.live.
Implicit Types (e : Env SE S) (p : SlicedPool) (pg : MemoryPage) (s : Slice).
Implicit Types (ss : list Slice) (l : list (MemoryPage * N)).

(** ** One page *)

Record page_step e pg e' pg' (o : option N) : Prop := mkPageStep {
  ps_step : slices_step e (slices pg) e' (slices pg') o;
  ps_page : page_ok e' pg';
  ps_device : device e' = device e;
  ps_same : pg' = set_slices (slices pg') pg
}.
Lemma page_step_refl e pg : env_ok e → page_ok e pg → page_step e pg e pg None.
Proof. intros Hok Hp. split; [by apply step_refl|done|done|by destruct pg]. Qed.
Lemma page_step_trans e1 pg1 e2 pg2 e3 pg3 o :
  page_step e1 pg1 e2 pg2 None → page_step e2 pg2 e3 pg3 o → page_step e1 pg1 e3 pg3 o.
Proof.
  intros [Hs1 _ Hd1 He1] [Hs2 ? Hd2 He2]. split; [by eapply step_trans|done|congruence|].
  rewrite He2 at 1. by rewrite He1.
Qed.
Lemma page_step_in e pg e' pg' o p k sid :
  page_step e pg e' pg' o → page_in e p k pg sid → page_in e' p k pg' sid.
Proof.
  intros [Hs Hp Hd Heq] Hin. rewrite Heq in Hp |- *. by eapply page_in_slices.
Qed.

Lemma coalesce_step pg e :
  env_ok e → page_ok e pg → next_id (heap e) + len (slices pg) ≤ usize_max →
  wp (coalesce pg) e (λ pg' e', page_step e pg e' pg' None ∧
    next_id (heap e') ≤ next_id (heap e) + len (slices pg) ∧
    len (slices pg') ≤ len (slices pg) ∧
    (guards (heap e) !! page_guard pg = Some 0 → compact e' (slices pg')))
    (λ _ _, False).
Proof.
  intros Hok Hp Hids. destruct (ok_guard _ _ Hp) as [n Hg].
  eapply wp_mono; [by apply (coalesce_spec pg e n)|].
  intros pg' e' (out & -> & Hok' & Hp' & Hfr & Hkn & Hlive & Hcomp & Hnext & Hlen).
  rewrite Forall_forall in Hkn. simpl.
  assert (∀ s, s ∈ out → live e' s ↔ live e s) as Hl.
  { intros s Hs. eapply (known_live pg); [done..|by apply Hkn]. }
  assert (∀ s, s ∈ out ∧ live e s ↔ s ∈ slices pg ∧ live e s) as Hin.
  { intros s. pose proof (list_elem_of_filter (live e) out s) as H1.
    pose proof (list_elem_of_filter (live e) (slices pg) s) as H2. rewrite Hlive in H1. tauto. }
  split; [split; simpl; [split; [done|by apply framed_framed0| | |]|done|apply Hfr|done]|].
  - intros s Hs Hls. destruct (proj2 (Hin s) (conj Hs Hls)) as [Ho _]. split; [done|].
    destruct (Hkn s Ho) as [[_ ?]|[Hf _]]; [done|]. exfalso. by apply (fresh_not_live e s).
  - intros s Hs. destruct (Hkn s Hs) as [[? _]|[? Hr]]; [by left|right]. split; [done|].
    destruct (page_ok_known _ _ Hok' Hp' s Hs) as (? & ? & Hv & _). by eapply env_ok_fresh.
  - intros s Hs Hls. left. apply Hin. split; [done|]. by apply Hl.
  - split; [done|]. split; [done|].
    intros Hg0. rewrite Hg in Hg0. injection Hg0 as ->. intros i s t Hs Ht.
    rewrite !Hl by (by eapply list_elem_of_lookup_2). by eapply (Hcomp eq_refl).
Qed.

(** [reserved_at] as a step of the page's slices. *)
Lemma reserved_step pg e size pg' e' h (l1 : list Slice) s (new l2 : list Slice) :
  env_ok e → page_ok e pg → env_ok e' → page_ok e' pg' → framed (hs (slices pg)) e e' →
  reserved_at pg e size pg' e' h l1 s new l2 →
  page_step e pg e' pg' (Some h) ∧ handed e e' size (slices pg') h.
Proof.
  intros Hok Hp Hok' Hp' Hfr [Hb Ha -> Hfree Hfit _ Hnew Hrefs]. rewrite Forall_forall in Hnew.
  assert (∀ t, t ∈ slices pg → t ≠ s → handle t ≠ handle s) as Hne.
  { intros t Ht Hts. pose proof (ok_nodup _ _ Hp) as Hnd. rewrite Hb in Ht, Hnd.
    eapply nodup_apart; [done|]. set_solver. }
  assert (∀ t, t ∈ slices pg' → t = carve s size (padding_of size (alignment pg)) ∨
    (t ∈ slices pg ∧ t ≠ s) ∨ t ∈ new) as Hcases.
  { intros t. rewrite Ha. simpl. pose proof (ok_nodup _ _ Hp) as Hnd. rewrite Hb in Hnd |- *.
    rewrite !elem_of_app, elem_of_cons, elem_of_app. intros [Ht|[->|[Ht|Ht]]]; [|by left|tauto|].
    - right. left. split; [set_solver|]. intros ->.
      eapply (nodup_apart l1 s l2 s); [done|set_solver|done].
    - right. left. split; [set_solver|]. intros ->.
      eapply (nodup_apart l1 s l2 s); [done|set_solver|done]. }
  assert (s ∈ slices pg) as Hs by (rewrite Hb; set_solver).
  assert (refs e' (handle s) = 2) as Hr2.
  { rewrite Hrefs, decide_True by (done || by rewrite <-Hb).
    rewrite (known_dead e (slices pg)); [done|by apply page_ok_known|done|done]. }
  assert (∀ t, t ∈ slices pg → t ≠ s → refs e' (handle t) = refs e (handle t)) as Hkeep.
  { intros t Ht Hts. rewrite Hrefs, decide_False; [done|by apply Hne|by rewrite <-Hb]. }
  split; [split; [split; [done|by apply framed_framed0| | |]|done|apply Hfr|by rewrite Ha]|].
  - intros t Ht Hlt. assert (t ≠ s) as Hts by congruence. split; [|by apply Hkeep].
    rewrite Ha. simpl. rewrite Hb in Ht. set_solver.
  - intros t [->|[[Ht _]|Ht]]%Hcases; [left|left; by apply elem_of_hs_2|right].
    + simpl. by apply elem_of_hs_2.
    + destruct (Hnew t Ht) as [Heq Hr]. rewrite Heq in *. split; [done|].
      unfold refs in Hr. destruct (vd e' !! _) as [[]|] eqn:Hv; [|done]. by eapply env_ok_fresh.
  - intros t [->|[[Ht Hts]|Ht]]%Hcases Hlt; [by right| |].
    + left. split; [done|]. unfold MemoryPages.live in *. by rewrite <-Hkeep.
    + destruct (Hnew t Ht) as [_ Hr]. unfold MemoryPages.live in Hlt. lia.
  - split; [|split; [done|]].
    + rewrite (known_dead e (slices pg)); [done|by apply page_ok_known|done|done].
    + exists (carve s size (padding_of size (alignment pg))). rewrite Ha. simpl. set_solver.
Qed.

Lemma try_reserve_step pg e size :
  env_ok e → page_ok e pg → size + alignment pg ≤ u64_max → next_id (heap e) < usize_max →
  len (slices pg) ≤ u32_max →
  wp (page_try_reserve pg size) e (λ r e', page_step e pg e' r.1 r.2 ∧
    next_id (heap e') ≤ next_id (heap e) + 1 ∧ len (slices r.1) ≤ len (slices pg) + 1 ∧
    match r.2 with
    | None => r.1 = pg ∧ e' = e ∧ ∃ n, guards (heap e) !! page_guard pg = Some n ∧ refuses e pg n size
    | Some h => handed e e' size (slices r.1) h
    end) (λ _ _, False).
Proof.
  intros Hok Hp Hsz Hid Hlen. destruct (ok_guard _ _ Hp) as [n Hg].
  eapply wp_mono; [by apply (page_try_reserve_spec pg e n)|].
  intros [pg' [h|]] e' (Hok' & Hp' & Hfr & Hnx & Hln & Hres); simpl in *.
  - destruct Hres as (_ & l1 & s & new & l2 & Hra).
    destruct (reserved_step pg e size pg' e' h l1 s new l2) as [? ?]; done.
  - destruct Hres as (-> & -> & Href). split; [by apply page_step_refl|].
    split; [done|]. split; [done|]. split; [done|]. split; [done|]. by exists n.
Qed.

(** ** Reserving *)

(** After coalescing, a page refuses when it is guarded or when each slice is held
    or too small; neighbours are never both free. *)
Definition page_full e pg (size : N) : Prop :=
  (∃ n, guards (heap e) !! page_guard pg = Some n ∧ n ≠ 0) ∨
  compact e (slices pg) ∧
    Forall (λ s, eff s < size + padding_of size (alignment pg) ∨ live e s) (slices pg).

Lemma page_reserve_step pg e size Q :
  env_ok e → page_ok e pg → size + alignment pg ≤ u64_max →
  next_id (heap e) + len (slices pg) + 1 ≤ usize_max → len (slices pg) ≤ u32_max →
  (∀ r e', page_step e pg e' r.1 r.2 → next_id (heap e') ≤ next_id (heap e) + len (slices pg) + 1 →
    match r.2 with
    | None => page_full e' r.1 size
    | Some h => handed e e' size (slices r.1) h
    end → Q r e') →
  wp (coalesce pg) e (λ pg e, wp (page_try_reserve pg size) e Q (λ _ _, False)) (λ _ _, False).
Proof.
  intros Hok Hp Hsz Hid Hlen HQ. eapply wp_mono; [apply coalesce_step; [done|done|lia]|].
  intros pg1 e1 (Hst1 & Hn1 & Hl1 & Hc1). pose proof Hst1 as [Hs1 Hp1 _ Heq1].
  eapply wp_mono; [apply try_reserve_step; [apply Hs1|done|by rewrite Heq1|lia|lia]|].
  intros [pg2 o] e2 (Hst2 & Hn2 & Hl2 & Hres). apply HQ; [by eapply page_step_trans|lia|].
  destruct o as [h|]; simpl in *; [by eapply handed_trans|].
  destruct Hres as (-> & -> & n & Hg & Href). destruct (decide (n = 0)) as [->|Hn].
  - right. destruct Href as [?|Hall]; [done|]. split; [|done]. apply Hc1.
    destruct (ok_guard _ _ Hp) as [m Hm]. destruct (ss_frame _ _ _ _ _ Hs1) as [_ (_ & _ & Hgr & _)].
    pose proof (Hgr _ _ Hm) as Hm1. rewrite Heq1 in Hg. simpl in Hg. congruence.
  - left. by exists n.
Qed.

(** Room for the descriptors and slice indices an operation may need. *)
Definition room e l : Prop :=
  next_id (heap e) + len (pool_slices l) + len l ≤ usize_max ∧
  Forall (λ x, len (slices x.1) ≤ u32_max) l.
Lemma room_cons e pg sid l :
  room e ((pg, sid) :: l) → len (slices pg) ≤ u32_max ∧
    next_id (heap e) + len (slices pg) + 1 + len (pool_slices l) + len l ≤ usize_max ∧
    Forall (λ x, len (slices x.1) ≤ u32_max) l.
Proof.
  intros [Hn [Hl Hf]%Forall_cons]. rewrite pool_slices_cons, len_app in Hn.
  unfold len at 3 in Hn. simpl in Hn, Hl. fold (len l) in Hn. split; [done|]. split; [|done].
  unfold len in *. lia.
Qed.

(** What an operation keeps of a list of pages. *)
Record pages_step p k e l e' l' (o : option N) : Prop := mkPagesStep {
  pgs_step : slices_step e (pool_slices l) e' (pool_slices l') o;
  pgs_in : pages_in e' p k l';
  pgs_nodup : NoDup (hs (pool_slices l'));
  pgs_device : device e' = device e;
  pgs_ids : l'.*2 = l.*2
}.
(** The first page steps, the others are untouched. *)
Lemma pages_step_head p k e pg sid l e' pg' o :
  env_ok e → pages_in e p k ((pg, sid) :: l) → NoDup (hs (pool_slices ((pg, sid) :: l))) →
  page_step e pg e' pg' o → pages_step p k e ((pg, sid) :: l) e' ((pg', sid) :: l) o.
Proof.
  intros Hok [Hp Hl]%pages_in_cons Hnd Hst. rewrite pool_slices_cons in Hnd.
  pose proof (pages_in_known _ _ _ _ Hok Hl) as Hkn. pose proof Hst as [Hs Hpg Hd _].
  split; rewrite ?pool_slices_cons.
  - by apply (step_frame _ _ _ _ _ [] (pool_slices l)).
  - apply pages_in_cons. split; [by eapply page_step_in|].
    eapply pages_in_framed; [done|apply Hs| |by intros; apply keeps_same|done]. intros h Hh Hin.
    rewrite fmap_app in Hnd. apply NoDup_app in Hnd as (_ & Hdis & _). by apply (Hdis h).
  - eapply (step_nodup _ _ _ _ _ [] (pool_slices l) Hok Hkn Hnd Hs), ok_nodup; done.
  - done.
  - done.
Qed.
(** The other pages step, the first is untouched. *)
Lemma pages_step_tail p k e pg sid l e' l' o :
  env_ok e → pages_in e p k ((pg, sid) :: l) → NoDup (hs (pool_slices ((pg, sid) :: l))) →
  pages_step p (k + 1) e l e' l' o →
  pages_step p k e ((pg, sid) :: l) e' ((pg, sid) :: l') o.
Proof.
  intros Hok [Hp Hl]%pages_in_cons Hnd [Hs Hin Hnd' Hd Hids]. rewrite pool_slices_cons in Hnd.
  assert (known_handles e (slices pg ++ [])) as Hkn.
  { rewrite app_nil_r. apply page_ok_known; [done|apply Hp]. }
  split; rewrite ?pool_slices_cons.
  - pose proof (step_frame e (pool_slices l) e' (pool_slices l') o (slices pg) [] Hok Hkn) as Hf. rewrite !app_nil_r in Hf.
    by apply Hf.
  - apply pages_in_cons. split; [|done]. eapply page_in_framed; [done|apply Hs| |by apply keeps_same|done].
    intros h Hh Hhl. rewrite fmap_app in Hnd. apply NoDup_app in Hnd as (_ & Hdis & _).
    by apply (Hdis h).
  - pose proof (step_nodup e (pool_slices l) e' (pool_slices l') o (slices pg) [] Hok Hkn) as Hf. rewrite !app_nil_r in Hf.
    by eapply Hf.
  - done.
  - by rewrite !fmap_cons, Hids.
Qed.
Lemma pages_step_trans p k e1 l1 e2 l2 e3 l3 o :
  pages_step p k e1 l1 e2 l2 None → pages_step p k e2 l2 e3 l3 o → pages_step p k e1 l1 e3 l3 o.
Proof.
  intros [? _ _ ? Hi1] [? ? ? ? Hi2]. split; [by eapply step_trans|done|done|congruence|congruence].
Qed.

Lemma page_full_framed X e e' pg size :
  env_ok e → page_ok e pg → framed0 X e e' → (∀ h, h ∈ hs (slices pg) → h ∉ X) →
  page_full e pg size → page_full e' pg size.
Proof.
  intros Hok Hp Hfr Hdis.
  assert (∀ s, s ∈ slices pg → live e s → live e' s) as Hlive.
  { intros s Hs Hls. unfold MemoryPages.live in *. rewrite (framed0_refs _ _ _ _ Hfr); [done| |].
    - apply Hdis. by apply elem_of_hs_2.
    - eapply known_fresh; [done|by apply page_ok_known|by apply elem_of_hs_2]. }
  intros [(n & Hg & Hn)|[Hc Hf]].
  - left. exists n. split; [|done]. destruct Hfr as [_ (_ & _ & Hgr & _)]. by apply Hgr.
  - right. split.
    + intros i s t Hs Ht. pose proof (list_elem_of_lookup_2 _ _ _ Hs).
      pose proof (list_elem_of_lookup_2 _ _ _ Ht). destruct (Hc i s t Hs Ht); auto.
    + rewrite Forall_forall in *. intros s Hs. destruct (Hf s Hs); auto.
Qed.

Lemma reserve_in_spec p size l k e :
  env_ok e → pages_in e p k l → NoDup (hs (pool_slices l)) → room e l →
  size + pool_alignment p ≤ u64_max →
  wp (reserve_in size l) e (λ r e', pages_step p k e l e' r.1 r.2 ∧
    match r.2 with
    | None => Forall (λ x, page_full e' x.1 size) r.1
    | Some h => handed e e' size (pool_slices r.1) h
    end) (λ _ _, False).
Proof.
  intros Hok Hl Hnd Hroom Hsz. revert k e Hok Hl Hnd Hroom.
  induction l as [|[pg sid] l IH]; intros k e Hok Hl Hnd Hroom; simpl.
  { split; [|by constructor]. split; [by apply step_refl|apply pages_in_nil|done|done|done]. }
  pose proof Hl as [Hp Hl']%pages_in_cons. apply room_cons in Hroom as (Hr1 & Hr2 & Hr3).
  apply wp_bind. eapply wp_mono; [|intros pg0 e0 H0; apply wp_bind; exact H0].
  apply page_reserve_step; [done|apply Hp|by rewrite (pi_align _ _ _ _ _ Hp)|lia|done|].
  intros [pg1 o] e1 Hst1 Hn1 Hres1. simpl in *.
  pose proof (pages_step_head _ _ _ _ _ _ _ _ _ Hok Hl Hnd Hst1) as Hps1.
  destruct o as [h|].
  { apply wp_ret. split; [done|]. eapply handed_mono; [done|]. intros s Hs.
    change (s ∈ slices pg1 ++ pool_slices l). set_solver. }
  pose proof Hps1 as [Hs1 Hin1 Hnd1 _ _]. pose proof (ss_env _ _ _ _ _ Hs1) as Hok1.
  pose proof Hin1 as [Hp1 Hl1]%pages_in_cons. pose proof Hnd1 as Hndl.
  rewrite pool_slices_cons, fmap_app in Hndl. apply NoDup_app in Hndl as (_ & Hdis & Hndl).
  apply wp_bind. eapply wp_mono; [apply (IH (k + 1) e1); [done|done|done|split; [lia|done]]|].
  intros [l2 o] e2 [Hps2 Hres2]. apply wp_ret. simpl in *.
  pose proof (pages_step_tail _ _ _ _ _ _ _ _ _ Hok1 Hin1 Hnd1 Hps2) as Hps2'.
  split; [by eapply pages_step_trans|]. destruct o as [h|].
  - eapply handed_mono; [by eapply handed_trans|]. intros s Hs.
    change (s ∈ slices pg1 ++ pool_slices l2). set_solver.
  - constructor; [|done]. simpl. eapply page_full_framed; [done|apply Hp1|apply Hps2| |done].
    intros h Hh Hhl. by apply (Hdis h).
Qed.

(** ** The pool *)

Definition pool_step e p e' p' (o : option N) : Prop :=
  slices_step e (pool_slices (pages p)) e' (pool_slices (pages p')) o.

Lemma sliced_try_reserve_spec p size e :
  pool_ok e p → room e (pages p) → size + pool_alignment p ≤ u64_max →
  wp (sliced_try_reserve p size) e (λ r e', pool_ok e' r.1 ∧ pool_step e p e' r.1 r.2 ∧
    match r.2 with
    | None => Forall (λ x, page_full e' x.1 size) (pages r.1)
    | Some h => handed e e' size (pool_slices (pages r.1)) h
    end) (λ _ _, False).
Proof.
  intros [Hok Hst Hpg Hnd Hids Hcnt Hcf] Hroom Hsz. unfold sliced_try_reserve. apply wp_bind.
  eapply wp_mono; [by apply (reserve_in_spec p)|]. intros [l' o] e' [[Hs Hin Hnd' Hd Hids'] Hres].
  apply wp_ret. cbn [fst snd] in *. split; [|done].
  apply pool_ok_set; [done|apply Hs|by rewrite Hd|done|done|by rewrite Hids'|].
  - assert (length l' = length (pages p)) as Hlen.
    { rewrite <-(length_fmap snd l'), Hids'. apply length_fmap. }
    unfold len in *. by rewrite Hlen.
Qed.

(** ** A new page *)

Lemma on_device_spec {A} (m : M (Device S) IoError A) e Q R :
  wp m (device e) (λ a d, Q a (mkEnv (heap e) d (dry_run e)))
    (λ x d, R x (mkEnv (heap e) d (dry_run e))) →
  wp (on_device m) e Q R.
Proof. unfold wp, on_device. by destruct (m (device e)) as [[] d]. Qed.

(** Fresh storage of [n] bytes, mapped or only named; an allocation that fails
    changes no live storage. *)
Lemma allocate_spec m n e Q R :
  storage_inv (device e) → ids (device e) < usize_max →
  (∀ d, storage_inv d → ids d = ids (device e) + 1 →
    Storage.live (store d) = (if is_mapped m then <[ids (device e) := n]> else λ x, x)
      (Storage.live (store (device e))) →
    Q (mkHandle (ids (device e)) (mkUtil 0 n)) (mkEnv (heap e) d (dry_run e))) →
  (∀ x d, storage_inv d → ids (device e) ≤ ids d →
    Storage.live (store d) = Storage.live (store (device e)) →
    R x (mkEnv (heap e) d (dry_run e))) →
  wp (allocate m n) e Q R.
Proof.
  intros Hinv Hids HQ HR. destruct m; simpl.
  - apply on_device_spec. eapply wp_wand; [by apply (alloc_law n)| |].
    + intros h d (Hd & -> & ? & ?). by apply HQ.
    + intros x d (Hd & ? & ?). by apply HR.
  - apply wp_bind, on_device_spec. unfold new_storage_id. wp_steps.
    { match goal with H : (_ =? _) = true |- _ => apply N.eqb_eq in H; lia end. }
    apply HQ; [by apply inv_draw|done|done].
Qed.

Lemma page_new_spec st align base m e Q :
  env_ok e → next_id (heap e) < usize_max → 0 < align → handle_offset st = 0 →
  handle_size st ≤ u64_max →
  (∀ pg e', env_ok e' → page_ok e' pg → framed [] e e' →
    next_id (heap e') = next_id (heap e) + 1 →
    page_mapped pg = is_mapped m → page_storage pg = st → alignment pg = align →
    location_base pg = base → guards (heap e') !! page_guard pg = Some 0 →
    (∃ s, slices pg = [s] ∧ handle s = next_id (heap e) ∧ eff s = handle_size st ∧
      refs e' (handle s) = 1) →
    Q pg e') →
  wp (page_new_with_mapping st align base m) e Q (λ _ _, False).
Proof.
  intros Hok Hid Hal Hoff Hsz HQ. unfold page_new_with_mapping. apply wp_bind.
  apply new_page_ref_spec; [done|]. intros e1 Hok1 Hn1 Hg1 Hng1 Hd1 Hr1 Hv1.
  apply wp_bind, slice_new_spec; [done|lia|]. intros e2 g Hok2 Hn2 Hg2 Hng2 Hd2 Hr2 Hv2.
  rewrite Hn1, Hv1 in *. apply wp_bind. eapply update_location_spec; [done|by rewrite Hv2, lookup_insert_eq|].
  intros e3 Hok3 (Hs1 & Hs2 & Hs3 & Hs4 & Hs5) Hv3. apply wp_ret. rewrite Hv2, insert_insert_eq in Hv3.
  cbn [handle set_slice_page] in Hv3.
  assert (guards (heap e3) !! next_guard (heap e) = Some 0) as Hgd.
  { rewrite Hs2. apply Hg2. by rewrite Hg1, lookup_insert_eq. }
  apply HQ; simpl; try done; [| |lia|].
  - split; simpl; try done.
    + unfold page_end, page_start, start, eff. simpl. rewrite Hoff. split; [done|]. lia.
    + constructor; [|done]. unfold slice_ok, start. simpl. rewrite Hoff.
      split; [done|]. split; [done|]. split; [done|]. apply N.divide_0_r.
    + apply located_cons. split; [|apply located_nil]. exists 1. simpl. by rewrite Hv3, lookup_insert_eq.
    + apply NoDup_singleton.
    + unfold page_end, page_start. simpl. rewrite Hoff. lia.
  - split; [|split; [|congruence]].
    + intros h _ Hh. rewrite Hv3, lookup_insert_ne; [done|lia].
    + split; [lia|]. split; [lia|]. split; [|congruence]. intros g' n Hg'. rewrite Hs2. apply Hg2.
      rewrite Hg1, lookup_insert_ne; [done|]. destruct Hok as (_ & _ & Hlt).
      pose proof (Hlt _ _ Hg') as Hlt'. simpl in Hlt'. lia.
  - eexists. split; [done|]. split; [done|]. split; [by unfold eff; simpl; lia|].
    simpl. eapply refs_lookup. by rewrite Hv3, lookup_insert_eq.
Qed.

(** A request no larger than a page whose size is a multiple of the alignment fits
    with its padding. *)
Lemma padded_fits size align psize :
  0 < align → (align | psize) → size ≤ psize → size + padding_of size align ≤ psize.
Proof.
  intros Hal [m ->] Hle. destruct (calculate_padding_ok (E:=IoError) size _ Hal) as (_ & Hlt & [q Hq]).
  rewrite Hq. assert (q ≤ m); [|nia]. apply N.lt_succ_r. nia.
Qed.
Lemma sliced_accept_fits p size :
  config_ok p → sliced_accept p size = Ok true → size ≤ page_size p.
Proof.
  intros [_ _ _ _ Hmax]. unfold sliced_accept. destruct (N.leb_spec size (max_alloc_size p)); [lia|].
  unfold checked_sub. by destruct (N.leb_spec size (page_size p)).
Qed.
Lemma new_page_reserves pg e size s :
  env_ok e → page_ok e pg → next_id (heap e) < usize_max → size + alignment pg ≤ u64_max →
  guards (heap e) !! page_guard pg = Some 0 → slices pg = [s] → refs e (handle s) = 1 →
  size + padding_of size (alignment pg) ≤ eff s →
  wp (page_try_reserve pg size) e (λ r e', ∃ h, r.2 = Some h ∧ page_step e pg e' r.1 (Some h) ∧
    handed e e' size (slices r.1) h) (λ _ _, False).
Proof.
  intros Hok Hp Hid Hsz Hg Hsl Hr Hfit. eapply wp_mono.
  { apply try_reserve_step; try done. by rewrite Hsl. }
  intros [pg' [h|]] e' (Hst & _ & _ & Hres); simpl in *; [by exists h|].
  destruct Hres as (_ & _ & n & Hg' & Href). rewrite Hg in Hg'. injection Hg' as <-.
  destruct Href as [?|Hall]; [done|]. rewrite Hsl, Forall_singleton in Hall.
  unfold MemoryPages.live in Hall. lia.
Qed.

(** A page appended to the pool. *)
Lemma pages_in_snoc e p l pg sid :
  pages_in e p 0 l → page_in e p (len l) pg sid → pages_in e p 0 (l ++ [(pg, sid)]).
Proof.
  intros Hl Hp. apply pages_in_app. split; [done|]. apply pages_in_cons.
  split; [done|apply pages_in_nil].
Qed.
Lemma pages_drawn e p k l sid : pages_in e p k l → sid ∈ l.*2 → sid < ids (device e).
Proof.
  intros Hl ([pg sid'] & -> & [i Hi]%list_elem_of_lookup)%list_elem_of_fmap. apply (Hl _ _ _ Hi).
Qed.

(** The step of a pool that appends a page and reserves in it. *)
Lemma append_page p e e1 e2 l pg sid e3 pg3 o :
  env_ok e → heap e1 = heap e → dry_run e1 = dry_run e → pages_in e1 p 0 l →
  NoDup (hs (pool_slices l)) → slices_step e1 [] e2 (slices pg) None → device e2 = device e1 →
  page_in e2 p (len l) pg sid → page_step e2 pg e3 pg3 o →
  slices_step e (pool_slices l) e3 (pool_slices (l ++ [(pg3, sid)])) o ∧
  pages_in e3 p 0 (l ++ [(pg3, sid)]) ∧ NoDup (hs (pool_slices (l ++ [(pg3, sid)]))).
Proof.
  intros Hok Hh Hdr Hl Hnd Hs2 Hd2 Hin2 Hst3. pose proof Hst3 as [Hs3 Hp3 Hd3 _].
  assert (env_ok e1) as Hok1 by (unfold env_ok; by rewrite Hh).
  pose proof (ss_env _ _ _ _ _ Hs2) as Hok2.
  pose proof (pages_in_known _ _ _ _ Hok1 Hl) as Hk1.
  assert (pages_in e2 p 0 l) as Hl2.
  { eapply pages_in_framed; [exact Hok1|apply Hs2|set_solver|by intros; apply keeps_same|done]. }
  pose proof (pages_in_known _ _ _ _ Hok2 Hl2) as Hk2.
  assert (known_handles e1 (pool_slices l ++ []) ∧ known_handles e2 (pool_slices l ++ [])) as [Hk1' Hk2']
    by (by rewrite app_nil_r).
  assert (NoDup (hs (pool_slices l ++ [] ++ []))) as Hnd' by (by rewrite !app_nil_r).
  pose proof (step_frame _ _ _ _ _ (pool_slices l) [] Hok1 Hk1' Hnd' Hs2) as Hf2.
  pose proof (step_nodup _ _ _ _ _ (pool_slices l) [] Hok1 Hk1' Hnd' Hs2
    (ok_nodup _ _ (pi_ok _ _ _ _ _ Hin2))) as Hnd2.
  pose proof (step_frame _ _ _ _ _ (pool_slices l) [] Hok2 Hk2' Hnd2 Hs3) as Hf3.
  pose proof (step_nodup _ _ _ _ _ (pool_slices l) [] Hok2 Hk2' Hnd2 Hs3 (ok_nodup _ _ Hp3)) as Hnd3.
  rewrite !app_nil_r in Hf2, Hnd2, Hnd3. rewrite (app_nil_r (slices pg)) in Hf2, Hf3.
  rewrite (app_nil_r (slices pg3)) in Hf3.
  assert (pool_slices (l ++ [(pg3, sid)]) = pool_slices l ++ slices pg3) as ->.
  { by rewrite pool_slices_app, pool_slices_cons, app_nil_r. }
  split; [|split; [|done]].
  - eapply step_trans; [by apply (step_heap e e1)|]. by eapply step_trans.
  - apply pages_in_snoc; [|by eapply page_step_in].
    eapply pages_in_framed; [exact Hok2|apply Hs3| |by intros; apply keeps_same|done].
    intros h Hh1 Hh2. rewrite fmap_app in Hnd2. apply NoDup_app in Hnd2 as (_ & Hdis & _).
    by apply (Hdis h).
Qed.

Lemma sliced_alloc_spec p size e :
  pool_ok e p → size ≤ page_size p → next_id (heap e) + 2 ≤ usize_max →
  ids (device e) < usize_max →
  wp (sliced_alloc p size) e
    (λ r e', pool_ok e' r.1 ∧ pool_step e p e' r.1 (Some r.2) ∧
      handed e e' size (pool_slices (pages r.1)) r.2 ∧ len (pages r.1) = len (pages p) + 1)
    (λ _ e', pool_ok e' p ∧ heap e' = heap e ∧
      Storage.live (store (device e')) = Storage.live (store (device e))).
Proof.
  intros [Hok Hst Hpg Hnd Hids Hcnt Hcf] Hsz Hid Hdr. unfold sliced_alloc.
  destruct (N.ltb_spec u16_max (len (pages p))) as [|Hlen]; [by apply wp_throw|].
  apply wp_bind. unfold current_mapping. apply wp_bind, wp_gets, wp_ret.
  set (m := if dry_run e then Lazy else Eager). apply wp_bind. apply allocate_spec; [done|done| |].
  2:{ intros x d Hd Hids' Hlive. split; [|done]. split; try done. simpl.
      eapply (pages_in_framed []); [exact Hok|by apply framed0_heap|set_solver| |done].
      intros sid _. split; [done|]. simpl. by rewrite Hlive. }
  intros d Hd Hids' Hlive. set (e1 := mkEnv (heap e) d (dry_run e)). pose proof Hcf as [Hal Hmul Hps Hbd Hmx].
  assert (pages_in e1 p 0 (pages p)) as Hpg1.
  { eapply (pages_in_framed []); [exact Hok|by apply framed0_heap|set_solver| |done].
    intros sid Hsid. split; [simpl; lia|]. simpl. rewrite Hlive. intros n Hn.
    destruct (is_mapped m); [|done]. pose proof (pages_drawn _ _ _ _ _ Hpg Hsid).
    rewrite lookup_insert_ne; [done|lia]. }
  apply wp_bind, wp_total. apply page_new_spec; [exact Hok|simpl; lia|done|done|simpl; unfold handle_size; simpl; lia|].
  intros pg e2 Hok2 Hp2 Hfr2 Hn2 Hmp2 Hsto2 Hal2 Hb2 Hg2 (s & Hsl & Hhs & Heff & Hr2).
  apply wp_bind, wp_total. eapply wp_mono.
  { apply (new_page_reserves pg e2 size s); try done; [simpl in *; lia|rewrite Hal2; lia|].
    rewrite Heff, Hal2. by apply padded_fits. }
  intros [pg3 o] e3 (h & Ho & Hst3 & Hh3). simpl in Ho. subst o. cbn [fst snd] in *.
  apply wp_bind, wp_ret, wp_ret. cbn [fst snd].
  assert (page_in e2 p (len (pages p)) pg (ids (device e))) as Hin2.
  { destruct Hfr2 as (_ & _ & Hd2). split; rewrite ?Hsto2; try done.
    - by unfold page_start; rewrite Hsto2.
    - rewrite Hd2. simpl. lia.
    - rewrite Hmp2, Hd2. simpl. intros Hm. by rewrite Hlive, Hm, lookup_insert_eq. }
  assert (slices_step e1 [] e2 [s] None) as Hs2.
  { split; [done|by apply framed_framed0|by intros ? ?%elem_of_nil| |].
    - intros t ->%list_elem_of_singleton. right. rewrite Hhs. simpl in *. lia.
    - intros t ->%list_elem_of_singleton Hl. unfold MemoryPages.live in Hl. lia. }
  destruct (append_page p e e1 e2 (pages p) pg (ids (device e)) e3 pg3 (Some h))
    as (Hstep & Hin3 & Hnd3); try done; [by rewrite Hsl|apply Hfr2|].
  assert (device e3 = d) as Hd3 by (rewrite (ps_device _ _ _ _ _ Hst3); apply Hfr2).
  split; [|split; [done|split; [|cbn [pages set_pages]; by rewrite len_app]]].
  - apply pool_ok_set; [done|apply Hstep|by rewrite Hd3|done|done| |rewrite len_app; unfold len in *; simpl; lia].
    rewrite fmap_app, NoDup_app. split; [done|]. split; [|apply NoDup_singleton].
    intros sid Hsid ->%list_elem_of_singleton. pose proof (pages_drawn _ _ _ _ _ Hpg Hsid). simpl in *. lia.
  - eapply (handed_mono _ _ _ (slices pg3)).
    + apply (handed_trans e1 [] e2 [s] None e3 size (slices pg3) h Hok Hs2 Hh3).
    + intros t Ht. simpl. rewrite pool_slices_app, pool_slices_cons. set_solver.
Qed.
End ops.
