(* ===== verification/MemoryPoolBind.v ===== *)
(** * Lookup, binding, materialization and cleanup of the sliced pool *)

From S2P Require Import Prelude Taint TaintProps Storage Memory MemoryHeap MemoryPages MemoryPool MemoryPoolOps.
Open Scope N_scope.

Section bind.
Context {P : Profile} {SE S : Type} {CS : ComputeStorage S} {CL : ComputeStorageLaws S}.
Abbreviation Mem := (M (Env SE S) IoError).
Abbreviation hs l := (handle <$> l).
Abbreviation live := MemoryPages.live.
Implicit Types (e : Env SE S) (p : SlicedPool) (pg : MemoryPage) (s : Slice).

(** ** Lookup *)

(** A slice of the pool is where its descriptor says. *)
Record found e p s (i k : nat) pg (sid c : N) : Prop := mkFound {
  fd_page : pages p !! i = Some (pg, sid);
  fd_slice : slices pg !! k = Some s;
  fd_vd : vd e !! handle s = Some (with_slice (N.of_nat k) (with_page (N.of_nat i) (pool_base p)), c)
}.
Lemma pool_locate e p s :
  pool_ok e p → s ∈ pool_slices (pages p) → ∃ i k pg sid c, found e p s i k pg sid c.
Proof.
  intros Hok (i & pg & sid & Hi & [k Hk]%list_elem_of_lookup)%elem_of_pool_slices.
  pose proof (po_pages _ _ Hok _ _ _ Hi) as Hp.
  destruct (ok_located _ _ (pi_ok _ _ _ _ _ Hp) k s Hk) as [c Hc].
  rewrite (pi_base _ _ _ _ _ Hp), !N.add_0_l in Hc. by exists i, k, pg, sid, c.
Qed.
Lemma sliced_find_spec p s e Q (R : IoError → Env SE S → Prop) :
  pool_ok e p → s ∈ pool_slices (pages p) → Q s e → wp (sliced_find p (handle s)) e Q R.
Proof.
  intros Hok Hs HQ. destruct (pool_locate _ _ _ Hok Hs) as (i & k & pg & sid & c & [Hi Hk Hv]).
  unfold sliced_find. apply wp_bind. eapply location_spec; [done|]. unfold sliced_find_at.
  apply wp_bind. cbn [page slice with_slice with_page].
  eapply wp_index; [by rewrite Nat2N.id|]. unfold page_find_at. cbn [fst slice with_slice].
  rewrite Nat2N.id, Hk. by apply wp_ret.
Qed.

(** ** Replacing one slice of a page *)

Lemma tiles_replace a (l1 : list Slice) s s' (l2 : list Slice) b :
  start s' = start s → eff s' = eff s → tiles a (l1 ++ s :: l2) b → tiles a (l1 ++ s' :: l2) b.
Proof.
  intros Hs He. rewrite !tiles_app. intros (c & H1 & H2). exists c. split; [done|].
  simpl in *. by rewrite Hs, He.
Qed.
(** The slice [s] gets another handle. *)
Lemma page_ok_rehandle e e' pg (l1 : list Slice) s (l2 : list Slice) new cur c :
  page_ok e pg → slices pg = l1 ++ s :: l2 →
  vd e' !! new = Some (with_slice (len l1) (location_base pg), c) →
  (∀ t, t ∈ l1 ++ l2 → handle t ≠ new ∧ vd e' !! handle t = vd e !! handle t) →
  guards (heap e') = guards (heap e) →
  page_ok e' (set_slices (l1 ++ set_slice_handle new cur s :: l2) pg).
Proof.
  intros [Ht Hsl Hl Hnd Hc Hg Ha Hb] Heq Hnew Hother Hgd. rewrite Heq in *.
  split; simpl; try done.
  - by apply (tiles_replace _ l1 s).
  - rewrite !Forall_app, !Forall_cons in *. done.
  - rewrite located_app, located_cons in *. destruct Hl as (Hl1 & _ & Hl2).
    split; [|split; [by exists c|]].
    + eapply located_ext; [|done]. intros t Hin. apply Hother. set_solver.
    + eapply located_ext; [|done]. intros t Hin. apply Hother. set_solver.
  - eapply nodup_replace; [done|]. intros t Hin. by apply Hother.
  - rewrite len_app in *. done.
  - by rewrite Hgd.
Qed.

Lemma lookup_split {A} (l : list A) i x :
  l !! i = Some x → ∃ l1 l2, l = l1 ++ x :: l2 ∧ length l1 = i ∧ ∀ y, <[i := y]> l = l1 ++ y :: l2.
Proof.
  intros Hi. exists (take i l), (drop (Datatypes.S i) l). pose proof (lookup_lt_Some _ _ _ Hi).
  split; [by rewrite take_drop_middle|]. split; [rewrite length_take; lia|].
  intros y. by rewrite insert_take_drop.
Qed.

(** One page of the pool is replaced by one with the same storage. *)
Lemma pages_replace e e' p k l1 pg sid l2 pg' X :
  env_ok e → pages_in e p k (l1 ++ (pg, sid) :: l2) → framed0 X e e' → device e' = device e →
  (∀ h, h ∈ hs (pool_slices l1 ++ pool_slices l2) → h ∉ X) →
  page_ok e' pg' → pg' = set_slices (slices pg') pg →
  pages_in e' p k (l1 ++ (pg', sid) :: l2).
Proof.
  intros Hok Hl Hfr Hd Hdis Hp Heq. rewrite pages_in_app, pages_in_cons in *.
  destruct Hl as (Hl1 & Hpg & Hl2). rewrite fmap_app in Hdis. split; [|split].
  - eapply pages_in_framed; [done|done| |by intros; apply keeps_same|done]. set_solver.
  - rewrite Heq in Hp |- *. by eapply page_in_slices.
  - eapply pages_in_framed; [done|done| |by intros; apply keeps_same|done]. set_solver.
Qed.
Lemma pool_slices_split l1 pg sid l2 :
  pool_slices (l1 ++ (pg, sid) :: l2) = pool_slices l1 ++ slices pg ++ pool_slices l2.
Proof. by rewrite pool_slices_app, pool_slices_cons. Qed.

(** The pool after a slice got another handle. *)
Lemma pool_rehandle e e' p s i k pg sid c new cur c' :
  pool_ok e p → found e p s i k pg sid c → env_ok e' →
  framed0 [handle s; new] e e' → guards (heap e') = guards (heap e) → device e' = device e →
  vd e' !! new = Some (with_slice (N.of_nat k) (with_page (N.of_nat i) (pool_base p)), c') →
  new ∉ hs (pool_slices (pages p)) →
  let p' := set_pages (<[i := (set_slices (<[k := set_slice_handle new cur s]> (slices pg)) pg, sid)]>
    (pages p)) p in
  pool_ok e' p' ∧ ∃ l1 l2, pool_slices (pages p) = l1 ++ s :: l2 ∧
    pool_slices (pages p') = l1 ++ set_slice_handle new cur s :: l2.
Proof.
  intros [Hok Hst Hpg Hnd Hids Hcnt Hcf] [Hi Hk Hv] Hok' Hfr Hgd Hd Hnew Hnin. cbn zeta.
  pose proof (Hpg _ _ _ Hi) as Hp.
  destruct (lookup_split _ _ _ Hi) as (L1 & L2 & HL & Hlen & HLi).
  destruct (lookup_split _ _ _ Hk) as (l1 & l2 & Hl & Hlen' & Hli). rewrite Hli, HLi, HL in *.
  cbn [pages set_pages]. rewrite pool_slices_split, Hl in Hnd, Hnin |- *. rewrite pool_slices_split.
  cbn [slices set_slices].
  replace (pool_slices L1 ++ (l1 ++ s :: l2) ++ pool_slices L2)
    with ((pool_slices L1 ++ l1) ++ s :: (l2 ++ pool_slices L2)) in * by (by rewrite <-!app_assoc).
  assert (∀ t, t ∈ (pool_slices L1 ++ l1) ++ (l2 ++ pool_slices L2) →
    handle t ≠ handle s ∧ handle t ≠ new) as Hapart.
  { intros t Ht. split; [by eapply nodup_apart|]. intros <-. apply Hnin, elem_of_hs_2. set_solver. }
  assert (page_ok e' (set_slices (l1 ++ set_slice_handle new cur s :: l2) pg)) as Hp'.
  { eapply (page_ok_rehandle e); [apply Hp|done| | |done].
    - rewrite (pi_base _ _ _ _ _ Hp), Hnew, N.add_0_l. unfold len. by rewrite Hlen'.
    - intros t Ht. destruct (Hapart t) as [? ?]; [set_solver|]. split; [done|].
      apply Hfr; [set_solver|]. eapply known_fresh; [done|apply page_ok_known; [done|apply Hp]|].
      apply elem_of_hs_2. rewrite Hl. set_solver. }
  split.
  - apply pool_ok_set; [done|done|by rewrite Hd| | | |].
    + eapply (pages_replace e); [done|done|done|done| |done|done].
      intros h (t & Ht & <-)%elem_of_hs. destruct (Hapart t) as [? ?]; set_solver.
    + rewrite pool_slices_split. cbn [slices set_slices].
      replace (pool_slices L1 ++ (l1 ++ set_slice_handle new cur s :: l2) ++ pool_slices L2)
        with ((pool_slices L1 ++ l1) ++ set_slice_handle new cur s :: (l2 ++ pool_slices L2))
        by (by rewrite <-!app_assoc).
      eapply nodup_replace; [done|]. intros t Ht. by apply Hapart.
    + rewrite fmap_app, fmap_cons in *. done.
    + rewrite len_app in *. done.
  - exists (pool_slices L1 ++ l1), (l2 ++ pool_slices L2). split; [done|]. by rewrite <-!app_assoc.
Qed.

(** ** Binding *)

(** Two references dropped of a descriptor with at least two. *)
Lemma drop_twice h e l c Q :
  env_ok e → vd e !! h = Some (l, c) → 1 < c →
  (∀ e', env_ok e' → same e e' → (∀ h', h' ≠ h → vd e' !! h' = vd e !! h') →
    refs e' h = c - 2 → Q tt e') →
  wp (drop_handle h) e (λ _ e, wp (drop_handle h) e Q (λ _ _, False)) (λ _ _, False).
Proof.
  intros Hok Hv Hc HQ. eapply drop_handle_spec; [done|done|].
  intros e2 Hok2 Hsame2 Hv2. unfold released in Hv2. rewrite (proj2 (N.leb_gt _ _)) in Hv2 by lia.
  eapply drop_handle_spec; [done|by rewrite Hv2, lookup_insert_eq|]. intros e3 Hok3 Hsame3 Hv3.
  apply HQ; [done|by eapply same_trans| |].
  - intros h' Hh'. rewrite Hv3, Hv2. unfold released.
    destruct (c - 1 <=? 1); [rewrite lookup_delete_ne by done|rewrite lookup_insert_ne by done];
      by rewrite lookup_insert_ne.
  - unfold refs. rewrite Hv3. unfold released. destruct (N.leb_spec (c - 1) 1).
    + rewrite lookup_delete_eq. simpl. lia.
    + rewrite lookup_insert_eq. simpl. lia.
Qed.

(** The slice [s] reserved under [reserved] is given the handle [new]: the pool
    drops its old handle and the caller's. *)
Lemma sliced_bind_spec p e s new cur loc c :
  pool_ok e p → s ∈ pool_slices (pages p) → live e s →
  vd e !! new = Some (loc, c) → new ∉ hs (pool_slices (pages p)) →
  wp (sliced_bind p (handle s) new cur) e (λ p' e', pool_ok e' p' ∧
    next_id (heap e') = next_id (heap e) ∧ device e' = device e ∧ guards (heap e') = guards (heap e) ∧
    (∃ l1 l2, pool_slices (pages p) = l1 ++ s :: l2 ∧
      pool_slices (pages p') = l1 ++ set_slice_handle new cur s :: l2) ∧
    ∀ h, refs e' h = if decide (h = handle s) then refs e h - 2 else refs e h) (λ _ _, False).
Proof.
  intros Hpool Hs Hlive Hnew Hnin.
  destruct (pool_locate _ _ _ Hpool Hs) as (i & k & pg & sid & cs & [Hi Hk Hv]).
  unfold sliced_bind. apply wp_bind. eapply location_spec; [done|]. cbn [page with_slice with_page].
  apply wp_bind. eapply wp_index; [by rewrite Nat2N.id|]. cbn [fst snd]. apply wp_bind.
  unfold page_bind. apply wp_bind. eapply location_spec; [done|]. cbn [slice with_slice].
  apply wp_bind. eapply wp_index; [by rewrite Nat2N.id|]. apply wp_bind.
  eapply location_spec; [done|]. pose proof Hpool as [Hok Hst Hpg Hnd Hids Hcnt Hcf].
  assert (handle s ≠ new) as Hne by (intros <-; by apply Hnin, elem_of_hs_2).
  unfold MemoryPages.live in Hlive. rewrite (refs_lookup _ _ _ _ Hv) in Hlive.
  apply wp_bind. eapply update_location_spec; [done|done|]. intros e1 Hok1 Hsame1 Hv1.
  assert (vd e1 !! handle s = vd e !! handle s) as Hvs by (by rewrite Hv1, lookup_insert_ne).
  apply wp_bind. eapply wp_mono; [|intros ? e0 H0; apply wp_bind; exact H0].
  eapply drop_twice; [done|by rewrite Hvs|done|]. intros e3 Hok3 Hsame3 Hv3 Hr3.
  apply wp_ret, wp_ret. cbn [slice with_slice with_page]. rewrite !Nat2N.id.
  assert (same e e3) as Hsame by (by eapply same_trans).
  assert (∀ h, h ≠ handle s → h ≠ new → vd e3 !! h = vd e !! h) as Hother.
  { intros h Hh1 Hh2. by rewrite Hv3, Hv1, lookup_insert_ne. }
  destruct (pool_rehandle e e3 p s i k pg sid cs new cur c) as [Hpool' Hsl]; try done.
  - split; [|by apply same_grown]. intros h Hh _. apply Hother; set_solver.
  - apply Hsame.
  - apply Hsame.
  - by rewrite Hv3, Hv1, lookup_insert_eq.
  - split; [done|]. split; [apply Hsame|]. split; [apply Hsame|]. split; [apply Hsame|].
    split; [done|]. intros h. case_decide as Heq.
    + subst h. by rewrite Hr3, (refs_lookup _ _ _ _ Hv).
    + unfold refs. rewrite Hv3 by done. rewrite Hv1. destruct (decide (h = new)) as [->|Hhn].
      * by rewrite lookup_insert_eq, Hnew.
      * by rewrite lookup_insert_ne.
Qed.

(** ** Materialization *)

(** The same allocation, on real storage when it was only named. *)
Record backed_by s s' : Prop := mkBacked {
  bk_handle : handle s' = handle s;
  bk_range : utilization (storage s') = utilization (storage s);
  bk_padding : padding s' = padding s;
  bk_cursor : cursor s' = cursor s;
  bk_mapped : mapped s = true → s' = s
}.
Lemma backed_refl s : backed_by s s.
Proof. done. Qed.
Definition remap (sid : N) s : Slice :=
  mkSlice true (page_ref s) (mkHandle sid (utilization (storage s))) (handle s) (padding s) (cursor s).
Lemma tiles_remap sid a (l : list Slice) b : tiles a l b → tiles a (remap sid <$> l) b.
Proof. revert a. induction l as [|s l IH]; intros a; [done|]. simpl. intros [? ?]. split; [done|]. by apply IH. Qed.
Lemma hs_remap sid (l : list Slice) : hs (remap sid <$> l) = hs l.
Proof. rewrite <-list_fmap_compose. by apply list_fmap_ext. Qed.
Lemma located_remap sid e b i l : located e b i l → located e b i (remap sid <$> l).
Proof. intros Hl k s. rewrite list_lookup_fmap, fmap_Some. intros (t & Ht & ->). destruct (Hl k t Ht) as [c ?]. by exists c. Qed.

Definition materialized (real : StorageHandle) pg : MemoryPage :=
  mkPage true (page_guard pg) real (remap (id real) <$> slices pg) (alignment pg) (location_base pg).
Lemma materialized_in e e' p k pg sid :
  page_in e p k pg sid → heap e' = heap e → ids (device e) < ids (device e') →
  Storage.live (store (device e')) !! ids (device e) = Some (page_size p) →
  page_in e' p k (materialized (mkHandle (ids (device e)) (mkUtil 0 (page_size p))) pg) (ids (device e)).
Proof.
  intros [[Ht Hsl Hl Hnd Hc Hg Ha Hb] ? ? ? Hz Hsz ? ?] Hh Hids Hlive.
  assert (vd e' = vd e) as Hv by (unfold vd; by rewrite Hh).
  unfold page_end, page_start in *. rewrite Hsz, Hz in *.
  split; simpl; try done. split; simpl; rewrite ?hs_remap; try done.
  - by apply tiles_remap.
  - rewrite Forall_fmap. eapply Forall_impl; [done|]. intros s (? & ? & ? & ?). done.
  - apply located_remap. eapply located_ext; [|done]. intros. by rewrite Hv.
  - unfold len in *. by rewrite length_fmap.
  - by rewrite Hh.
Qed.

(** The pool after the page at index [i] got storage. *)
Lemma pool_materialized e d p i pg sid :
  pool_ok e p → pages p !! i = Some (pg, sid) → page_mapped pg = false → storage_inv d →
  ids d = ids (device e) + 1 →
  Storage.live (store d) = <[ids (device e) := page_size p]> (Storage.live (store (device e))) →
  let p' := set_pages (<[i := (materialized (mkHandle (ids (device e)) (mkUtil 0 (page_size p))) pg,
    ids (device e))]> (pages p)) p in
  pool_ok (mkEnv (heap e) d (dry_run e)) p' ∧
  Forall2 backed_by (pool_slices (pages p)) (pool_slices (pages p')).
Proof.
  intros [Hok Hst Hpg Hnd Hids Hcnt Hcf] Hi Hm Hd Hids' Hlive. cbn zeta.
  destruct (lookup_split _ _ _ Hi) as (L1 & L2 & HL & Hlen & HLi). rewrite HLi.
  pose proof Hpg as Hpg0. rewrite HL in Hpg, Hnd, Hids, Hcnt |- *.
  rewrite pages_in_app, pages_in_cons, N.add_0_l in Hpg. destruct Hpg as (Hl1 & Hp & Hl2).
  assert (∀ k l, pages_in e p k l → pages_in (mkEnv (heap e) d (dry_run e)) p k l) as Hkeep.
  { intros k l Hl. eapply (pages_in_framed []); [exact Hok|by apply framed0_heap|set_solver| |done].
    intros sid' Hsid. split; [simpl; lia|]. simpl. rewrite Hlive. intros n Hn.
    pose proof (pages_drawn _ _ _ _ _ Hl Hsid). rewrite lookup_insert_ne; [done|lia]. }
  split.
  - apply pool_ok_set; [done|done|done| | | |].
    + rewrite pages_in_app, pages_in_cons, N.add_0_l. split; [by apply Hkeep|]. split; [|by apply Hkeep].
      eapply materialized_in; [done|done|simpl; lia|]. simpl. by rewrite Hlive, lookup_insert_eq.
    + rewrite pool_slices_split in *. cbn [slices materialized]. rewrite !fmap_app in *.
      by rewrite hs_remap.
    + rewrite fmap_app, fmap_cons in *. cbn [snd] in *.
      rewrite <-Permutation_middle in Hids |- *. inversion_clear Hids as [|? ? _ Hids1].
      constructor; [|done]. rewrite elem_of_app. intros [Hin|Hin].
      * pose proof (pages_drawn _ _ _ _ _ Hl1 Hin). lia.
      * pose proof (pages_drawn _ _ _ _ _ Hl2 Hin). lia.
    + rewrite len_app in *. done.
  - cbn [pages set_pages]. rewrite !pool_slices_split. cbn [slices materialized].
    apply Forall2_app; [by apply Forall_Forall2_diag, Forall_forall|].
    apply Forall2_app; [|by apply Forall_Forall2_diag, Forall_forall].
    apply Forall2_fmap_r, Forall_Forall2_diag, Forall_forall. intros s Hs. split; try done.
    pose proof (ok_slices _ _ (pi_ok _ _ _ _ _ Hp)) as Hsl. rewrite Forall_forall in Hsl.
    destruct (Hsl s Hs) as (_ & Hms & _). by rewrite Hms, Hm.
Qed.

Lemma sliced_materialize_spec p e s :
  pool_ok e p → s ∈ pool_slices (pages p) → ids (device e) < usize_max →
  wp (sliced_materialize p (handle s)) e
    (λ p' e', pool_ok e' p' ∧ heap e' = heap e ∧
      Forall2 backed_by (pool_slices (pages p)) (pool_slices (pages p')) ∧
      ∃ s', s' ∈ pool_slices (pages p') ∧ handle s' = handle s ∧ mapped s' = true)
    (λ _ e', pool_ok e' p ∧ heap e' = heap e).
Proof.
  intros Hpool Hs Hdr. unfold sliced_materialize. apply wp_bind. apply sliced_find_spec; [done|done|].
  destruct (pool_locate _ _ _ Hpool Hs) as (i & k & pg & sid & c & [Hi Hk Hv]).
  apply wp_bind. eapply location_spec; [done|]. cbn [page with_slice with_page].
  apply wp_bind. eapply wp_index; [by rewrite Nat2N.id|]. cbn [fst]. apply wp_bind.
  pose proof Hpool as [Hok Hst Hpg Hnd Hids Hcnt Hcf]. pose proof (Hpg _ _ _ Hi) as Hp.
  pose proof Hp as [Hpok ? Hid ? ? Hsz ? ?]. unfold page_materialize. destruct (page_mapped pg) eqn:Hm.
  { apply wp_ret, wp_ret. rewrite Nat2N.id, <-Hid, list_insert_id by done.
    destruct p; cbn in *. split; [done|]. split; [done|]. split; [by apply Forall_Forall2_diag, Forall_forall|].
    exists s. split; [done|]. split; [done|]. pose proof (ok_slices _ _ Hpok) as Hsl.
    rewrite Forall_forall in Hsl. destruct (Hsl s) as (_ & Hms & _); [by eapply list_elem_of_lookup_2|].
    by rewrite Hms. }
  apply wp_bind, on_device_spec. eapply wp_wand; [by apply (alloc_law _ _ Hst)| |].
  2:{ intros x d (Hd & Hids' & Hlive). split; [|done]. split; try done. simpl.
      eapply (pages_in_framed []); [exact Hok|by apply framed0_heap|set_solver| |done].
      intros sid' _. split; [done|]. simpl. by rewrite Hlive. }
  intros h d (Hd & -> & Hids' & Hlive). apply wp_ret, wp_ret. cbn [id]. rewrite Nat2N.id, Hsz in *.
  destruct (pool_materialized e d p i pg sid) as [Hpool' Hbk]; try done.
  split; [done|]. split; [done|]. split; [done|].
  exists (remap (ids (device e)) s). split; [|done]. apply elem_of_pool_slices.
  eexists i, _, _. cbn [pages set_pages]. split; [apply list_lookup_insert_eq; by eapply lookup_lt_Some|].
  cbn [slices]. apply list_elem_of_fmap. exists s. split; [done|by eapply list_elem_of_lookup_2].
Qed.
End bind.
