(* ===== verification/MemoryPoolClean.v ===== *)
(** * Cleanup of the sliced pool

    [cleanup] gives back the pages nobody uses and renumbers the others.  The
    test in the code compares byte counts; it is exact when every held slice has
    a byte. *)

From S2P Require Import Prelude Taint TaintProps Storage Memory MemoryHeap MemoryPages MemoryPool MemoryPoolOps MemoryPoolBind.
Open Scope N_scope.

Section cleanup.
Context {P : Profile} {SE S : Type} {CS : ComputeStorage S} {CL : ComputeStorageLaws S}.
Abbreviation Mem := (M (Env SE S) IoError).
Abbreviation hs l := (handle <$> l).
Abbreviation live := MemoryPages.live.
Implicit Types (e : Env SE S) (p : SlicedPool) (pg : MemoryPage) (s : Slice) (ss : list Slice).

(** A page with a held slice or a guard. *)
Definition in_use e pg : Prop :=
  (∃ n, guards (heap e) !! page_guard pg = Some n ∧ n ≠ 0) ∨ Exists (live e) (slices pg).
#[export] Instance in_use_dec e pg : Decision (in_use e pg).
Proof.
  unfold in_use. apply or_dec; [|apply _].
  destruct (guards (heap e) !! page_guard pg) as [n|]; [destruct (decide (n = 0))|].
  - right. naive_solver.
  - left. naive_solver.
  - right. naive_solver.
Defined.

(** ** The byte counts *)

Definition sum_eff (f : Slice → bool) ss : N := foldr (λ s a, (if f s then eff s else 0) + a) 0 ss.
Lemma sum_eff_split f ss : sum_eff f ss + sum_eff (λ s, negb (f s)) ss = sum_eff (λ _, true) ss.
Proof. induction ss as [|s ss IH]; [done|]. simpl. destruct (f s); simpl; lia. Qed.
Lemma sum_eff_tiles a ss b : tiles a ss b → a + sum_eff (λ _, true) ss = b.
Proof.
  revert a. induction ss as [|s ss IH]; simpl; intros a; [lia|]. intros [_ Ht%IH]. lia.
Qed.
Lemma sum_eff_zero f ss : sum_eff f ss = 0 ↔ ∀ s, s ∈ ss → f s = true → eff s = 0.
Proof.
  induction ss as [|s ss IH]; simpl; [split; [by intros _ s ?%elem_of_nil|done]|].
  split.
  - intros Hz t [->|Ht]%elem_of_cons Hf; [rewrite Hf in Hz; lia|].
    apply IH; [destruct (f s); lia|done|done].
  - intros Hall. rewrite (proj2 IH) by (intros t Ht; apply Hall; by right).
    destruct (f s) eqn:Hf; [|done]. rewrite (Hall s); [done|by left|done].
Qed.
Definition unheld e (n : N) s : bool := (refs e (handle s) <=? 1) && (n =? 0).

Lemma summarise_spec b e g n ss m Q :
  guards (heap e) !! g = Some n →
  Forall (λ s, page_ref s = g ∧ ∃ loc c, vd e !! handle s = Some (loc, c)) ss →
  amount_free m + amount_full m + sum_eff (λ _, true) ss ≤ u64_max →
  (∀ m', amount_free m' = amount_free m + sum_eff (unheld e n) ss → Q m' e) →
  wp (summarise b ss m) e Q (λ _ _, False).
Proof.
  intros Hg. revert m. induction ss as [|s ss IH]; simpl; intros m Hf Hb HQ.
  { apply HQ. lia. }
  apply Forall_cons in Hf as [[Hpr (loc & c & Hc)] Hf]. apply wp_bind.
  eapply slice_is_free_spec; [done|by rewrite Hpr|]. apply wp_bind.
  apply effective_size_spec; [unfold eff in Hb; lia|]. fold (eff s).
  assert (unheld e n s = (c <=? 1) && (n =? 0)) as Hun.
  { unfold unheld. by rewrite (refs_lookup _ _ _ _ Hc). }
  rewrite Hun in HQ. destruct ((c <=? 1) && (n =? 0)); apply wp_bind;
    (eapply wp_lift_ok; [apply uadd_ok; lia|]); (apply IH; [done|simpl; lia|]);
    intros m' Hm'; apply HQ; simpl in *; lia.
Qed.
Lemma summary_spec e pg n Q :
  page_ok e pg → guards (heap e) !! page_guard pg = Some n →
  (∀ m, amount_free m = sum_eff (unheld e n) (slices pg) →
    amount_total m = handle_size (page_storage pg) → Q m e) →
  wp (summary false pg) e Q (λ _ _, False).
Proof.
  intros Hp Hg HQ. unfold summary. apply wp_bind. eapply summarise_spec; [done| | |].
  - pose proof (ok_slices _ _ Hp) as Hsl. rewrite Forall_forall in Hsl |- *. intros s Hs.
    split; [apply (Hsl s Hs)|]. eapply located_elem; [apply Hp|done].
  - pose proof (sum_eff_tiles _ _ _ (ok_tiles _ _ Hp)). pose proof (ok_bound _ _ Hp). simpl. lia.
  - intros m Hm. apply wp_ret. by apply HQ.
Qed.

(** The test of [cleanup] decides whether the page is in use. *)
Lemma all_free e pg n :
  page_ok e pg → guards (heap e) !! page_guard pg = Some n → 0 < handle_size (page_storage pg) →
  (∀ s, s ∈ slices pg → live e s → 0 < eff s) →
  sum_eff (unheld e n) (slices pg) = handle_size (page_storage pg) ↔ ¬ in_use e pg.
Proof.
  intros Hp Hg Hsz Hpos. pose proof (sum_eff_tiles _ _ _ (ok_tiles _ _ Hp)) as Ht.
  pose proof (sum_eff_split (unheld e n) (slices pg)) as Hsp. unfold page_end in Ht.
  assert (sum_eff (unheld e n) (slices pg) = handle_size (page_storage pg) ↔
    sum_eff (λ s, negb (unheld e n s)) (slices pg) = 0) as -> by lia.
  rewrite sum_eff_zero. unfold in_use. rewrite Exists_exists. unfold unheld. split.
  - intros Hall [(m & Hm & Hn)|(s & Hs & Hl)].
    + rewrite Hg in Hm. injection Hm as <-. apply N.eqb_neq in Hn.
      assert (sum_eff (λ _, true) (slices pg) = 0); [|lia].
      apply sum_eff_zero. intros s Hs _. apply Hall; [done|]. by rewrite Hn, andb_false_r.
    + specialize (Hpos s Hs Hl). unfold MemoryPages.live in Hl. rewrite (Hall s Hs) in Hpos; [lia|].
      by rewrite (proj2 (N.leb_gt _ _)).
  - intros Hno s Hs Hf. exfalso. apply Hno. destruct (N.eqb_spec n 0) as [->|Hn]; [|left; naive_solver].
    right. exists s. split; [done|]. unfold MemoryPages.live.
    rewrite andb_true_r, negb_true_iff, N.leb_gt in Hf. done.
Qed.

(** ** Dropping and renumbering one page *)

Lemma drop_all_spec ss e :
  env_ok e → NoDup (hs ss) → (∀ s, s ∈ ss → ∃ loc, vd e !! handle s = Some (loc, 1)) →
  wp (for_each ss (λ s, drop_handle (handle s))) e
    (λ _ e', env_ok e' ∧ same e e' ∧ ∀ h, h ∉ hs ss → vd e' !! h = vd e !! h) (λ _ _, False).
Proof.
  revert e. induction ss as [|s ss IH]; intros e Hok Hnd Hone; simpl.
  { apply wp_ret. done. }
  rewrite fmap_cons in Hnd. inversion_clear Hnd as [|? ? Hs Hnd'].
  destruct (Hone s ltac:(by left)) as [loc Hv]. apply wp_bind.
  eapply drop_handle_spec; [done|done|]. intros e1 Hok1 Hsame1 Hv1. unfold released in Hv1. simpl in Hv1.
  eapply wp_mono; [apply IH; [done|done|]|].
  - intros t Ht. rewrite Hv1, lookup_delete_ne; [apply Hone; by right|].
    intros Heq. apply Hs. rewrite Heq. by apply elem_of_hs_2.
  - intros _ e2 (Hok2 & Hsame2 & Hv2). split; [done|]. split; [by eapply same_trans|].
    intros h Hh. apply not_elem_of_cons in Hh as [Hne Hh].
    rewrite Hv2, Hv1, lookup_delete_ne; done.
Qed.
Lemma update_all_spec n ss e base i :
  env_ok e → NoDup (hs ss) → located e base i ss →
  wp (for_each ss (λ s, update_page (handle s) n)) e
    (λ _ e', moved_within ss e e' ∧ located e' (with_page n base) i ss) (λ _ _, False).
Proof.
  revert e i. induction ss as [|s ss IH]; intros e i Hok Hnd Hl; simpl.
  { apply wp_ret. split; [done|apply located_nil]. }
  rewrite fmap_cons in Hnd. inversion_clear Hnd as [|? ? Hs Hnd'].
  apply located_cons in Hl as [[c Hc] Hl]. apply wp_bind.
  eapply update_page_spec; [done|done|]. intros e1 Hok1 Hsame1 Hv1.
  eapply wp_mono; [apply (IH e1 (i + 1)); [done|done|]|].
  - eapply located_ext; [|exact Hl]. intros t Ht. rewrite Hv1, lookup_insert_ne; [done|].
    intros Heq. apply Hs. rewrite Heq. by apply elem_of_hs_2.
  - intros ? e2 [(Hok2 & Hsame2 & Hv2 & Hr2) Hl2]. split; [split; [done|]; split; [|split]|].
    + by eapply same_trans.
    + intros h Hh. rewrite fmap_cons, not_elem_of_cons in Hh. destruct Hh as [Hne Hh].
      by rewrite Hv2, Hv1, lookup_insert_ne.
    + intros h. rewrite Hr2, (refs_insert _ _ _ _ _ h Hv1). case_decide; [|done]. subst h.
      by rewrite (refs_lookup _ _ _ _ Hc).
    + apply located_cons. split; [|done]. exists c. by rewrite Hv2, Hv1, lookup_insert_eq by done.
Qed.

Lemma moved_step ss e e' : moved_within ss e e' → slices_step e ss e' ss None.
Proof.
  intros (Hok & Hsame & Hv & Hr). split; [done| | | |].
  - split; [auto|by apply same_grown].
  - intros s Hs _. done.
  - intros s Hs. left. by apply elem_of_hs_2.
  - intros s Hs Hl. left. split; [done|]. unfold MemoryPages.live in *. by rewrite <-Hr.
Qed.
Lemma dropped_step ss e e' :
  env_ok e' → same e e' → (∀ h, h ∉ hs ss → vd e' !! h = vd e !! h) →
  (∀ s, s ∈ ss → ¬ live e s) → slices_step e ss e' [] None.
Proof.
  intros Hok Hsame Hv Hd. split; [done| | | |].
  - split; [auto|by apply same_grown].
  - intros s Hs Hl. by destruct (Hd s Hs).
  - by intros s ?%elem_of_nil.
  - by intros s ?%elem_of_nil.
Qed.

(** The page moves to index [pos]. *)
Lemma update_page_in pg e p i sid pos Q :
  env_ok e → page_in e p i pg sid →
  (∀ pg' e', page_in e' p pos pg' sid → slices_step e (slices pg) e' (slices pg') None →
    device e' = device e → page_mapped pg' = page_mapped pg → slices pg' = slices pg →
    page_guard pg' = page_guard pg → guards (heap e') = guards (heap e) →
    next_id (heap e') = next_id (heap e) → Q pg' e') →
  wp (page_update_page pg pos) e Q (λ _ _, False).
Proof.
  intros Hok [[Ht Hsl Hl Hnd Hc Hg Ha Hb] Hbase ? ? ? ? ? ?] HQ. unfold page_update_page.
  apply wp_bind. eapply wp_mono; [by apply update_all_spec|]. intros _ e' [Hmv Hl'].
  apply wp_ret. pose proof Hmv as (Hok' & Hsame & Hv & Hr). pose proof Hsame as (Hs1 & Hs2 & _ & Hs4 & _).
  apply HQ; simpl; try done; [|by apply moved_step]. split; simpl; rewrite ?Hs4; try done.
  - split; simpl; try done. by rewrite Hs2.
  - by rewrite Hbase.
Qed.

(** ** Framing *)

Lemma in_use_framed X e e' pg :
  env_ok e → page_ok e pg → framed0 X e e' → (∀ h, h ∈ hs (slices pg) → h ∉ X) →
  in_use e' pg ↔ in_use e pg.
Proof.
  intros Hok Hp Hfr Hdis. unfold in_use. rewrite !Exists_exists.
  assert (∀ s, s ∈ slices pg → live e' s ↔ live e s) as Hl.
  { intros s Hs. unfold MemoryPages.live. rewrite (framed0_refs _ _ _ _ Hfr); [done| |].
    - by apply Hdis, elem_of_hs_2.
    - eapply known_fresh; [done|by apply page_ok_known|by apply elem_of_hs_2]. }
  destruct (ok_guard _ _ Hp) as [n Hg]. destruct Hfr as [_ (_ & _ & Hgr & _)].
  pose proof (Hgr _ _ Hg) as Hg'. rewrite Hg, Hg'. naive_solver.
Qed.
Lemma in_use_step e pg e' pg' :
  page_ok e pg → page_step e pg e' pg' None → in_use e' pg' ↔ in_use e pg.
Proof.
  intros Hp [[Hok Hfr Hl _ Hn] _ _ Heq]. unfold in_use. rewrite !Exists_exists.
  destruct (ok_guard _ _ Hp) as [n Hg]. destruct Hfr as [_ (_ & _ & Hgr & _)].
  pose proof (Hgr _ _ Hg) as Hg'. assert (page_guard pg' = page_guard pg) as -> by (by rewrite Heq).
  rewrite Hg, Hg'.
  assert ((∃ s, s ∈ slices pg' ∧ live e' s) ↔ ∃ s, s ∈ slices pg ∧ live e s) as ->; [|done].
  split.
  - intros (s & Hs & Hls). destruct (Hn s Hs Hls) as [?|?]; [by exists s|done].
  - intros (s & Hs & Hls). destruct (Hl s Hs Hls) as [? Hr]. exists s. split; [done|].
    unfold MemoryPages.live in *. by rewrite Hr.
Qed.

(** One page between the kept pages and the ones to visit. *)
Lemma middle_step e p i K pg R e' ss' :
  env_ok e → pages_in e p 0 K → pages_in e p i R →
  NoDup (hs (pool_slices K ++ slices pg ++ pool_slices R)) →
  slices_step e (slices pg) e' ss' None → NoDup (hs ss') →
  (∀ sid, sid ∈ K.*2 ++ R.*2 → keeps e e' sid) →
  slices_step e (pool_slices K ++ slices pg ++ pool_slices R) e'
    (pool_slices K ++ ss' ++ pool_slices R) None ∧
  NoDup (hs (pool_slices K ++ ss' ++ pool_slices R)) ∧ pages_in e' p 0 K ∧ pages_in e' p i R.
Proof.
  intros Hok HK HR Hnd Hst Hnd' Hkeep.
  assert (known_handles e (pool_slices K ++ pool_slices R)) as Hkn.
  { intros s [Hs|Hs]%elem_of_app; [exact (pages_in_known _ _ _ _ Hok HK s Hs)|
      exact (pages_in_known _ _ _ _ Hok HR s Hs)]. }
  pose proof Hnd as Hnd2. rewrite !fmap_app, (Permutation_app_swap_app (hs (pool_slices K))) in Hnd2.
  apply NoDup_app in Hnd2 as (_ & Hdis & _).
  split; [by apply step_frame|]. split; [by eapply step_nodup|]. split.
  - eapply pages_in_framed; [done|apply Hst| | |done]; [set_solver|].
    intros sid Hsid. apply Hkeep. set_solver.
  - eapply pages_in_framed; [done|apply Hst| | |done]; [set_solver|].
    intros sid Hsid. apply Hkeep. set_solver.
Qed.

(** ** The loop *)

Abbreviation store_live e := (Storage.live (store (device e))).
(** The storage of a page that is not in use is given back, if it has any. *)
Definition discarded e (x : MemoryPage * N) : Prop := ¬ in_use e x.1 ∧ page_mapped x.1 = true.

Lemma filter_ext_elem {A} (P1 P2 : A → Prop) `{∀ x, Decision (P1 x)} `{∀ x, Decision (P2 x)} (l : list A) :
  (∀ x, x ∈ l → P1 x ↔ P2 x) → filter P1 l = filter P2 l.
Proof.
  induction l as [|x l IH]; intros Hl; [done|]. rewrite !filter_cons.
  rewrite IH by (intros y Hy; apply Hl; by right). pose proof (Hl x ltac:(by left)).
  repeat case_decide; naive_solver.
Qed.

Record clean_post p e K l e' l' : Prop := mkClean {
  cp_step : slices_step e (pool_slices K ++ pool_slices l) e' (pool_slices l') None;
  cp_storage : storage_inv (device e');
  cp_pages : pages_in e' p 0 l';
  cp_nodup : NoDup (hs (pool_slices l'));
  cp_kept : l'.*2 = K.*2 ++ (filter (λ x, in_use e x.1) l).*2;
  cp_live : ∀ sid, store_live e' !! sid =
    if decide (sid ∈ (filter (discarded e) l).*2) then None else store_live e !! sid
}.
(** One page visited: it joins the kept ones or is discarded. *)
Lemma clean_next p e K pg sid l e1 K1 e' l' :
  env_ok e →
  slices_step e (pool_slices K ++ slices pg ++ pool_slices l) e1 (pool_slices K1 ++ pool_slices l) None →
  (∀ x, x ∈ l → in_use e1 x.1 ↔ in_use e x.1) →
  K1.*2 = K.*2 ++ (if decide (in_use e pg) then [sid] else []) →
  (∀ i, store_live e1 !! i =
    if decide (i = sid ∧ discarded e (pg, sid)) then None else store_live e !! i) →
  clean_post p e1 K1 l e' l' → clean_post p e K ((pg, sid) :: l) e' l'.
Proof.
  intros Hok Hst Huse HK1 Hlive [Hst' Hinv Hin Hnd Hkept Hlive'].
  assert (filter (λ x, in_use e1 x.1) l = filter (λ x, in_use e x.1) l) as Hf1
    by (by apply filter_ext_elem).
  assert (filter (discarded e1) l = filter (discarded e) l) as Hf2.
  { apply filter_ext_elem. intros x Hx. unfold discarded. by rewrite Huse. }
  split; try done.
  - rewrite pool_slices_cons. by eapply step_trans.
  - rewrite Hkept, HK1, Hf1, <-app_assoc, filter_cons. simpl. by repeat case_decide.
  - intros i. rewrite Hlive', Hf2, Hlive, filter_cons. destruct (decide (discarded e (pg, sid))) as [Hd|Hd].
    + rewrite fmap_cons. simpl. repeat case_decide; set_solver.
    + repeat case_decide; naive_solver.
Qed.

Lemma discard_page pg e p i sid Q :
  env_ok e → storage_inv (device e) → page_in e p i pg sid → ¬ in_use e pg →
  (∀ e', slices_step e (slices pg) e' [] None → storage_inv (device e') →
    ids (device e') = ids (device e) → next_id (heap e') = next_id (heap e) →
    (∀ j, store_live e' !! j =
      if decide (j = sid ∧ page_mapped pg = true) then None else store_live e !! j) → Q tt e') →
  wp (E:=IoError) (when (page_mapped pg)
        (modify (λ e, mkEnv (heap e) (mkDevice (ids (device e)) (dealloc sid (store (device e))))
                        (dry_run e)))) e
    (λ _ e1, wp (for_each (slices pg) (λ s, drop_handle (handle s))) e1 Q (λ _ _, False))
    (λ _ _, False).
Proof.
  intros Hok Hinv Hp Hno HQ. pose proof (pi_ok _ _ _ _ _ Hp) as Hpok.
  assert (∀ s, s ∈ slices pg → ¬ live e s) as Hdead.
  { intros s Hs Hl. apply Hno. right. apply Exists_exists. by exists s. }
  assert (∀ e1, heap e1 = heap e → dry_run e1 = dry_run e → storage_inv (device e1) →
    ids (device e1) = ids (device e) →
    (∀ j, store_live e1 !! j =
      if decide (j = sid ∧ page_mapped pg = true) then None else store_live e !! j) →
    wp (for_each (slices pg) (λ s, drop_handle (handle s))) e1 Q (λ _ _, False)) as Hgo.
  { intros e1 Hh Hdr Hinv1 Hids Hlive. assert (vd e1 = vd e) as Hv by (unfold vd; by rewrite Hh).
    assert (env_ok e1) as Hok1 by (unfold env_ok; by rewrite Hh).
    eapply wp_mono; [apply drop_all_spec; [done|by apply Hpok|]|].
    - intros s Hs. destruct (page_ok_known _ _ Hok Hpok s Hs) as (loc & c & Hc & _). exists loc.
      rewrite Hv, Hc. do 2 f_equal. rewrite <-(refs_lookup _ _ _ _ Hc).
      apply (known_dead e (slices pg)); [by apply page_ok_known|done|by apply Hdead].
    - intros [] e2 (Hok2 & Hsame & Hv2). pose proof Hsame as (Hs1 & _ & _ & Hs4 & _).
      apply HQ; rewrite ?Hs4, ?Hs1, ?Hh; try done.
      eapply step_trans; [by apply (step_heap e e1)|]. apply dropped_step; [done|done|done|].
      intros s Hs. unfold MemoryPages.live, refs. rewrite Hv. by apply Hdead. }
  unfold when. destruct (page_mapped pg) eqn:Hm.
  - apply wp_modify. destruct (dealloc_law sid (device e) Hinv) as [Hinv1 Hlive].
    apply Hgo; try done. intros j. simpl. rewrite Hlive.
    destruct (decide (j = sid ∧ true = true)) as [[-> _]|Hj].
    + apply lookup_delete_eq.
    + apply lookup_delete_ne. naive_solver.
  - apply wp_ret. apply Hgo; try done. intros j. by rewrite decide_False by naive_solver.
Qed.

Lemma as_u16_id n : n ≤ u16_max → as_u16 n = n.
Proof.
  intros Hn. unfold as_u16. change u16_max with (N.ones 16). rewrite N.land_ones.
  apply N.mod_small. unfold u16_max in Hn. lia.
Qed.

Record clean_inv p e (i : N) K l : Prop := mkCleanInv {
  ci_env : env_ok e;
  ci_storage : storage_inv (device e);
  ci_kept : pages_in e p 0 K;
  ci_rest : pages_in e p i l;
  ci_nodup : NoDup (hs (pool_slices K ++ pool_slices l));
  ci_ids : NoDup (K.*2 ++ l.*2);
  ci_index : len K ≤ i ∧ i + len l ≤ u16_max + 1;
  ci_room : next_id (heap e) + len (pool_slices l) ≤ usize_max;
  ci_bytes : ∀ s, s ∈ pool_slices l → live e s → 0 < eff s
}.

(** The invariant after the page [pg] became the slices of [K1] beyond [K]. *)
Lemma clean_inv_next p e i K pg sid l e1 K1 ss1 :
  clean_inv p e i K ((pg, sid) :: l) →
  slices_step e (slices pg) e1 ss1 None → NoDup (hs ss1) →
  storage_inv (device e1) → ids (device e1) = ids (device e) →
  (∀ j, j ≠ sid → store_live e1 !! j = store_live e !! j) →
  next_id (heap e1) ≤ next_id (heap e) + len (slices pg) →
  pool_slices K1 = pool_slices K ++ ss1 → (pages_in e1 p 0 K → pages_in e1 p 0 K1) →
  NoDup (K1.*2 ++ l.*2) → len K1 ≤ i + 1 →
  slices_step e (pool_slices K ++ slices pg ++ pool_slices l) e1 (pool_slices K1 ++ pool_slices l) None ∧
  (∀ x, x ∈ l → in_use e1 x.1 ↔ in_use e x.1) ∧ clean_inv p e1 (i + 1) K1 l.
Proof.
  intros [Hok Hinv HK Hl Hnd Hids [Hi1 Hi2] Hroom Hbytes] Hst Hnd1 Hinv1 Hdr Hlive Hnx HK1 HinK Hids1 Hlen.
  rewrite pool_slices_cons in *. apply pages_in_cons in Hl as [Hp Hl]. rewrite len_app in Hroom.
  destruct (middle_step e p (i + 1) K pg l e1 ss1) as (Hstep & Hnd2 & HK' & Hl'); try done.
  { rewrite fmap_cons in Hids. cbn [snd] in Hids. rewrite <-Permutation_middle in Hids.
    inversion_clear Hids as [|? ? Hsid _]. intros j Hj. split; [lia|]. intros n Hn.
    rewrite Hlive; [done|]. intros ->. done. }
  assert (∀ h, h ∈ hs (pool_slices l) → h ∉ hs (slices pg)) as Hdis.
  { rewrite !fmap_app in Hnd. apply NoDup_app in Hnd as (_ & _ & Hnd).
    apply NoDup_app in Hnd as (_ & Hdis & _). intros h H1 H2. by apply (Hdis h). }
  rewrite HK1, <-app_assoc. split; [done|]. split.
  - intros [pg' sid'] [k Hk]%list_elem_of_lookup. apply (in_use_framed (hs (slices pg))); [done| |apply Hst|].
    + apply (Hl _ _ _ Hk).
    + intros h (s & Hs & <-)%elem_of_hs. apply Hdis, elem_of_hs_2, elem_of_pool_slices. naive_solver.
  - split; rewrite ?HK1; try done.
    + apply Hst.
    + by apply HinK.
    + by rewrite <-app_assoc.
    + unfold len in *. simpl in *. lia.
    + lia.
    + intros s Hs Hls. destruct (ss_new _ _ _ _ _ Hstep s) as [[_ ?]|?]; [set_solver|done| |done].
      apply Hbytes; [set_solver|done].
Qed.

(** The page of a step, kept at index [pos]. *)
Lemma keep_page pg e p (i pos : N) sid Q :
  env_ok e → page_in e p i pg sid →
  (∀ pg' e', page_in e' p pos pg' sid → slices_step e (slices pg) e' (slices pg') None →
    device e' = device e → next_id (heap e') = next_id (heap e) → Q pg' e') →
  wp (if negb (i =? pos) then page_update_page pg pos else ret pg) e Q (λ _ _, False).
Proof.
  intros Hok Hp HQ. destruct (N.eqb_spec i pos) as [<-|Hne]; simpl.
  - apply wp_ret. apply HQ; try done. by apply step_refl.
  - eapply update_page_in; [done|done|]. intros. by apply HQ.
Qed.

Lemma cleanup_loop_spec p l i K e :
  config_ok p → clean_inv p e i K l →
  wp (cleanup_loop i l K) e (λ l' e', clean_post p e K l e' l') (λ _ _, False).
Proof.
  intros Hcf. revert i K e. induction l as [|[pg sid] l IH]; intros i K e Hci; simpl.
  { destruct Hci as [? ? ? _ ? ? _ _ _]. apply wp_ret.
    assert (pool_slices K ++ pool_slices [] = pool_slices K) as Heq by apply app_nil_r.
    split; rewrite ?Heq in *; try done; [by apply step_refl|].
    by rewrite app_nil_r. }
  pose proof Hci as [Hok Hinv HK Hl Hnd Hids [Hi1 Hi2] Hroom Hbytes].
  pose proof Hl as [Hp Hl']%pages_in_cons. rewrite pool_slices_cons, len_app in Hroom.
  apply wp_bind. eapply wp_mono; [apply coalesce_step; [done|apply Hp|lia]|].
  intros pg1 e1 (Hst1 & Hn1 & _ & _). pose proof Hst1 as [Hs1 Hp1 Hd1 Heq1].
  pose proof (page_step_in _ _ _ _ _ _ _ _ Hst1 Hp) as Hin1. pose proof (ss_env _ _ _ _ _ Hs1) as Hok1.
  destruct (ok_guard _ _ Hp1) as [n Hg]. apply wp_bind. eapply summary_spec; [done|done|].
  intros m Hfree Htot. pose proof (cf_size _ Hcf) as Hsz. pose proof (pi_size _ _ _ _ _ Hin1) as Hpsz.
  pose proof (in_use_step _ _ _ _ (pi_ok _ _ _ _ _ Hp) Hst1) as Hiu1.
  assert (amount_free m = amount_total m ↔ ¬ in_use e pg) as Htest.
  { rewrite Hfree, Htot, all_free; [|done|done|lia|].
    - by rewrite Hiu1.
    - intros s Hs Hls. destruct (ss_new _ _ _ _ _ Hs1 s Hs Hls) as [[? ?]|?]; [|done].
      apply Hbytes; [rewrite pool_slices_cons; set_solver|done]. }
  assert (page_mapped pg1 = page_mapped pg) as Hmp by (by rewrite Heq1).
  rewrite fmap_cons in Hids. cbn [snd] in Hids.
  destruct (N.eqb_spec (amount_free m) (amount_total m)) as [Heq|Hneq].
  - apply Htest in Heq. apply wp_bind. eapply wp_mono; [|intros ? e0 H0; apply wp_bind; exact H0].
    eapply discard_page; [done|by rewrite Hd1|done|by rewrite Hiu1|].
    intros e2 Hs2 Hinv2 Hids2 Hnx2 Hlive2. rewrite Hd1, Hmp in *.
    destruct (clean_inv_next p e i K pg sid l e2 K []) as (Hstep & Huse & Hci'); try done.
    + by eapply step_trans.
    + apply NoDup_nil_2.
    + intros j Hj. rewrite Hlive2, decide_False; [done|naive_solver].
    + lia.
    + by rewrite app_nil_r.
    + rewrite <-Permutation_middle in Hids. by inversion Hids.
    + lia.
    + eapply wp_mono; [by apply IH|]. intros l' e' Hpost. eapply clean_next; try done.
      * by rewrite decide_False, app_nil_r.
      * intros j. rewrite Hlive2. apply decide_ext. unfold discarded. simpl. tauto.
  - assert (in_use e pg) as Hiu by (destruct (decide (in_use e pg)); tauto).
    rewrite as_u16_id by (unfold len in *; simpl in *; lia).
    apply wp_bind. eapply keep_page; [done|done|]. intros pg2 e2 Hin2 Hs2 Hd2 Hnx2.
    rewrite Hd1 in Hd2.
    destruct (clean_inv_next p e i K pg sid l e2 (K ++ [(pg2, sid)]) (slices pg2))
      as (Hstep & Huse & Hci'); try done.
    + by eapply step_trans.
    + apply (ok_nodup _ _ (pi_ok _ _ _ _ _ Hin2)).
    + by rewrite Hd2.
    + by rewrite Hd2.
    + intros j _. by rewrite Hd2.
    + lia.
    + by rewrite pool_slices_app, pool_slices_cons, app_nil_r.
    + intros HK2. by apply pages_in_snoc.
    + rewrite fmap_app, <-app_assoc. done.
    + rewrite len_app. unfold len in *. simpl. lia.
    + eapply wp_mono; [by apply IH|]. intros l' e' Hpost. eapply clean_next; try done.
      * rewrite decide_True by done. by rewrite fmap_app.
      * intros j. rewrite Hd2, decide_False; [done|]. unfold discarded. naive_solver.
Qed.

Lemma sliced_cleanup_spec p e :
  pool_ok e p → room e (pages p) →
  (∀ s, s ∈ pool_slices (pages p) → live e s → 0 < eff s) →
  wp (sliced_cleanup p true) e (λ p' e', pool_ok e' p' ∧ pool_step e p e' p' None ∧
    (pages p').*2 = (filter (λ x, in_use e x.1) (pages p)).*2 ∧
    ∀ sid, store_live e' !! sid =
      if decide (sid ∈ (filter (discarded e) (pages p)).*2) then None else store_live e !! sid)
    (λ _ _, False).
Proof.
  intros [Hok Hst Hpg Hnd Hids Hcnt Hcf] [Hroom _] Hbytes. unfold sliced_cleanup. simpl. apply wp_bind.
  eapply wp_mono; [apply (cleanup_loop_spec p); [done|]|].
  - split; try done. unfold len in *. simpl. lia.
  - intros l' e' [Hs Hinv Hin Hnd' Hkept Hlive]. apply wp_ret. simpl in Hkept. split; [|done].
    apply pool_ok_set; [done|apply Hs|done|done|done| |].
    + rewrite Hkept. eapply sublist_NoDup; [exact Hids|].
      apply (fmap_sublist snd), sublist_filter.
    + apply (f_equal length) in Hkept. rewrite !length_fmap in Hkept.
      pose proof (length_filter (λ x, in_use e x.1) (pages p)). unfold len in *. lia.
Qed.
End cleanup.
