(* ===== verification/MemoryPoolReach.v ===== *)
(** * Reachable states of a sliced pool and its clients

    The clients of a pool hold handles; [held] lists them with multiplicity.  An
    event is an operation of the pool or of a client.  [pool_inv] holds in every
    reachable state: the pool is well formed and the strong count of every
    descriptor is the number of its holders, the pool included. *)

From S2P Require Import Prelude Taint TaintProps Storage Memory MemoryHeap MemoryPages MemoryPool MemoryPoolOps MemoryPoolBind MemoryPoolClean.
Open Scope N_scope.

Inductive PoolEvent :=
| EReserve (size : N)
| EAlloc (size : N)
| EBind (reserved new cur : N)
| EMaterialize (h : N)
| ECleanup (explicit : bool)
| ERelocate (h : N)
| ENew
| EClone (h : N)
| EDrop (h : N)
| EGuard (g : N)
| EUnguard (g : N).

(** A client gives up one of its handles. *)
Fixpoint return_one (h : N) (held : list N) : list N :=
  match held with
  | [] => []
  | x :: held => if h =? x then held else x :: return_one h held
  end.
Lemma occ_return_one h x held :
  occ x (return_one h held) = occ x held - (if decide (x = h) then 1 else 0).
Proof.
  induction held as [|y held IH]; simpl; [by destruct (decide (x = h))|].
  rewrite occ_cons. destruct (N.eqb_spec h y) as [<-|Hne].
  - destruct (decide (x = h)); lia.
  - rewrite occ_cons, IH. destruct (decide (x = h)), (decide (x = y)); subst; try lia; congruence.
Qed.
Lemma occ_zero h held : occ h held = 0 ↔ h ∉ held.
Proof. rewrite <-occ_pos. lia. Qed.

Section reach.
Context {P : Profile} {SE S : Type} {CS : ComputeStorage S} {CL : ComputeStorageLaws S}.
Abbreviation Mem := (M (Env SE S) IoError).
Abbreviation hs l := (handle <$> l).
Abbreviation live := MemoryPages.live.
Implicit Types (e : Env SE S) (p : SlicedPool) (pg : MemoryPage) (s : Slice) (L : list Slice) (held : list N).

Definition run_event (ev : PoolEvent) p held : Mem (SlicedPool * list N) :=
  match ev with
  | EReserve n => let! r := sliced_try_reserve p n in ret (r.1, option_list r.2 ++ held)
  | EAlloc n => let! r := sliced_alloc p n in ret (r.1, r.2 :: held)
  | EBind r n c => let! p := sliced_bind p r n c in ret (p, return_one n (return_one r held))
  | EMaterialize h => let! p := sliced_materialize p h in ret (p, held)
  | ECleanup x => let! p := sliced_cleanup p x in ret (p, held)
  | ERelocate h => let! p := sliced_release_relocated p h in ret (p, held)
  | ENew => let! h := new_handle in ret (p, h :: held)
  | EClone h => let! h := clone_handle h in ret (p, h :: held)
  | EDrop h => let! _ := drop_handle h in ret (p, return_one h held)
  | EGuard g => let! _ := guard g in ret (p, held)
  | EUnguard g => let! _ := drop_guard g in ret (p, held)
  end.

Definition has_page p (g : N) : Prop := ∃ pg, pg ∈ (pages p).*1 ∧ page_guard pg = g.
(** What the callers of the pool respect: they use handles they hold, ask [accept]
    before [alloc], and the counters of the process have room. *)
Definition enabled (ev : PoolEvent) e p held : Prop :=
  match ev with
  | EReserve n => room e (pages p) ∧ n + pool_alignment p ≤ u64_max
  | EAlloc n =>
      sliced_accept p n = Ok true ∧ next_id (heap e) + 2 ≤ usize_max ∧ ids (device e) < usize_max
  | EBind r n _ =>
      r ∈ held ∧ r ∈ hs (pool_slices (pages p)) ∧ n ∈ held ∧ n ∉ hs (pool_slices (pages p))
  | EMaterialize h => h ∈ hs (pool_slices (pages p)) ∧ ids (device e) < usize_max
  | ECleanup _ =>
      room e (pages p) ∧ ∀ s, s ∈ pool_slices (pages p) → handle s ∈ held → 0 < eff s
  | ERelocate h => h ∈ hs (pool_slices (pages p)) ∧ next_id (heap e) < usize_max
  | ENew => next_id (heap e) < usize_max
  | EClone h | EDrop h => h ∈ held
  | EGuard g | EUnguard g => has_page p g
  end.

Inductive pool_reach : Env SE S → SlicedPool → list N → Prop :=
| reach_new e psize max_slice align pos :
    env_ok e → storage_inv (device e) → config_ok (sliced_new psize max_slice align pos) →
    pool_reach e (sliced_new psize max_slice align pos) []
| reach_ok e p held ev e' p' held' :
    pool_reach e p held → enabled ev e p held →
    run_event ev p held e = (Ok (p', held'), e') → pool_reach e' p' held'
| reach_err e p held ev e' x :
    pool_reach e p held → enabled ev e p held →
    run_event ev p held e = (Err x, e') → pool_reach e' p held.

(** ** Accounting *)

Definition accounted e L held : Prop :=
  ∀ h, h ∈ held ∨ h ∈ hs L → refs e h = occ h held + (if decide (h ∈ hs L) then 1 else 0).
Definition pool_inv e p held : Prop := pool_ok e p ∧ accounted e (pool_slices (pages p)) held.

Lemma accounted_held e L held s : accounted e L held → s ∈ L → live e s ↔ handle s ∈ held.
Proof.
  intros Hacc Hs. unfold MemoryPages.live. rewrite Hacc by (right; by apply elem_of_hs_2).
  rewrite decide_True by (by apply elem_of_hs_2). rewrite <-occ_pos. lia.
Qed.
Lemma accounted_fresh e L held h : env_ok e → accounted e L held → h ∈ held → h < next_id (heap e).
Proof.
  intros Hok Hacc Hh. pose proof (Hacc h (or_introl Hh)) as Hr. pose proof (proj2 (occ_pos h held) Hh).
  unfold refs in Hr. destruct (vd e !! h) as [[]|] eqn:Hv; simpl in Hr; [|lia]. by eapply env_ok_fresh.
Qed.

(** The operations that only step the slices, with the handle they hand out. *)
Lemma accounted_step e L e' L' o held :
  env_ok e → accounted e L held → slices_step e L e' L' o → known_handles e' L' →
  (∀ h, o = Some h → refs e h ≤ 1 ∧ refs e' h = 2 ∧ h ∈ hs L') →
  accounted e' L' (option_list o ++ held).
Proof.
  intros Hok Hacc [Hok' Hfr Hl Hh Hn] Hkn Ho h Hin.
  assert (occ h (option_list o ++ held) = (if decide (o = Some h) then 1 else 0) + occ h held) as ->.
  { rewrite occ_app. destruct o as [g|]; simpl; [|done]. rewrite occ_cons, occ_nil.
    destruct (decide (h = g)), (decide (Some g = Some h)); try lia; congruence. }
  destruct (decide (h ∈ held)) as [Hheld|Hheld].
  - pose proof (Hacc h (or_introl Hheld)) as Hr. pose proof (proj2 (occ_pos h held) Hheld) as Hpos.
    destruct (decide (h ∈ hs L)) as [(s & Hs & <-)%elem_of_hs|HnL].
    + assert (live e s) as Hls by (unfold MemoryPages.live; lia). destruct (Hl s Hs Hls) as [Hs' Hr'].
      rewrite (decide_True (P:=handle s ∈ _)) by (by apply elem_of_hs_2).
      rewrite decide_False; [lia|]. intros Hoh. destruct (Ho _ Hoh). lia.
    + pose proof (accounted_fresh _ _ _ _ Hok Hacc Hheld) as Hlt.
      assert (h ∉ hs L') as HnL'.
      { intros (t & Ht & <-)%elem_of_hs. destruct (Hh t Ht) as [?|[? _]]; [done|lia]. }
      rewrite (framed0_refs _ _ _ _ Hfr HnL Hlt), Hr, (decide_False (P:=h ∈ hs L')) by done.
      rewrite decide_False; [lia|]. intros Hoh. by destruct (Ho _ Hoh) as (_ & _ & ?).
  - assert (h ∈ hs L') as HL'.
    { destruct Hin as [Hin|?]; [|done]. apply elem_of_app in Hin as [Hin|?]; [|done].
      destruct o as [g|]; simpl in Hin; [|by apply elem_of_nil in Hin].
      apply list_elem_of_singleton in Hin as ->. by destruct (Ho g eq_refl) as (_ & _ & ?). }
    rewrite (decide_True (P:=h ∈ hs L')) by done. rewrite (proj2 (occ_zero h held) Hheld).
    destruct (decide (o = Some h)) as [Hoh|Hoh]; [destruct (Ho h Hoh) as (_ & ? & _); lia|].
    apply elem_of_hs in HL' as (s & Hs & <-). rewrite (known_dead e' L'); [done|done|done|].
    intros Hls. destruct (Hn s Hs Hls) as [[Hs0 Hls0]|?]; [|done].
    by apply (accounted_held _ _ _ _ Hacc Hs0) in Hls0.
Qed.

(** ** Events *)

(** The slice whose handle an event replaces. *)
Definition rebinds (ev : PoolEvent) : option N :=
  match ev with
  | EBind r _ _ => Some r
  | ERelocate h => Some h
  | _ => None
  end.
(** Held allocations stay where they are. *)
Definition stable ev L held L' : Prop :=
  ∀ s, s ∈ L → handle s ∈ held → rebinds ev ≠ Some (handle s) → ∃ s', s' ∈ L' ∧ backed_by s s'.
Definition event_post ev e p held (r : SlicedPool * list N) e' : Prop :=
  pool_inv e' r.1 r.2 ∧ stable ev (pool_slices (pages p)) held (pool_slices (pages r.1)).

Lemma stable_refl ev L held : stable ev L held L.
Proof. intros s Hs _ _. exists s. split; [done|apply backed_refl]. Qed.
Lemma stable_step ev e L e' L' o held :
  accounted e L held → slices_step e L e' L' o → stable ev L held L'.
Proof.
  intros Hacc Hst s Hs Hheld _. exists s. split; [|apply backed_refl].
  apply (ss_live _ _ _ _ _ Hst s Hs). by eapply accounted_held.
Qed.
Lemma pool_known e p : pool_ok e p → known_handles e (pool_slices (pages p)).
Proof. intros [Hok _ Hpg _ _ _ _]. by eapply pages_in_known. Qed.

Lemma post_step ev e p held p' e' o :
  pool_inv e p held → pool_ok e' p' → pool_step e p e' p' o →
  (∀ h, o = Some h → refs e h ≤ 1 ∧ refs e' h = 2 ∧ h ∈ hs (pool_slices (pages p'))) →
  event_post ev e p held (p', option_list o ++ held) e'.
Proof.
  intros [Hok Hacc] Hok' Hst Ho. split; [split; [done|]|].
  - eapply accounted_step; [apply Hok|done|done|by apply pool_known|done].
  - by eapply stable_step.
Qed.
Lemma handed_fact e e' size L h : handed e e' size L h → refs e h ≤ 1 ∧ refs e' h = 2 ∧ h ∈ hs L.
Proof. intros (? & ? & s & Hs & <- & _). split; [done|]. split; [done|]. by apply elem_of_hs_2. Qed.

Lemma event_reserve e p held n :
  pool_inv e p held → enabled (EReserve n) e p held →
  wp (run_event (EReserve n) p held) e (event_post (EReserve n) e p held) (λ _ e', pool_inv e' p held).
Proof.
  intros Hinv [Hroom Hn]. apply wp_total. simpl. apply wp_bind.
  eapply wp_mono; [apply sliced_try_reserve_spec; [apply Hinv|done|done]|].
  intros [p' o] e' (Hok' & Hst & Hres). apply wp_ret. simpl in *. eapply post_step; [done|done|done|].
  intros h ->. by eapply handed_fact.
Qed.
Lemma heap_inv e e' p held : pool_inv e p held → pool_ok e' p → heap e' = heap e → pool_inv e' p held.
Proof.
  intros [_ Hacc] Hok' Hh. split; [done|]. intros h Hin. rewrite <-Hacc by done.
  unfold refs, vd. by rewrite Hh.
Qed.
Lemma event_alloc e p held n :
  pool_inv e p held → enabled (EAlloc n) e p held →
  wp (run_event (EAlloc n) p held) e (event_post (EAlloc n) e p held) (λ _ e', pool_inv e' p held).
Proof.
  intros Hinv (Hacc & Hid & Hdr). simpl. apply wp_bind. pose proof Hinv as [Hok _]. eapply wp_wand.
  - apply sliced_alloc_spec; [done| |done|done]. eapply sliced_accept_fits; [apply Hok|done].
  - intros [p' h] e' (Hok' & Hst & Hhd & _). apply wp_ret. simpl in *.
    apply (post_step _ e p held p' e' (Some h)); [done|done|done|]. intros h' [= <-]. by eapply handed_fact.
  - intros x e' (Hok' & Hh & _). by eapply heap_inv.
Qed.
Lemma event_cleanup e p held x :
  pool_inv e p held → enabled (ECleanup x) e p held →
  wp (run_event (ECleanup x) p held) e (event_post (ECleanup x) e p held) (λ _ e', pool_inv e' p held).
Proof.
  intros Hinv [Hroom Hpos]. apply wp_total. simpl. apply wp_bind. pose proof Hinv as [Hok Hacc].
  destruct x.
  - eapply wp_mono; [apply sliced_cleanup_spec; [done|done|]|].
    + intros s Hs Hl. apply Hpos; [done|]. by apply (accounted_held _ _ _ _ Hacc Hs).
    + intros p' e' (Hok' & Hst & _). apply wp_ret. by apply (post_step _ e p held p' e' None).
  - apply wp_ret, wp_ret. split; [done|apply stable_refl].
Qed.

(** Client operations keep the pool: only counts change. *)
Lemma pool_ok_counts e e' p :
  pool_ok e p → env_ok e' → device e' = device e →
  (∀ g, is_Some (guards (heap e) !! g) → is_Some (guards (heap e') !! g)) →
  (∀ h l c, h ∈ hs (pool_slices (pages p)) → vd e !! h = Some (l, c) →
    ∃ c', vd e' !! h = Some (l, c')) → pool_ok e' p.
Proof.
  intros [Hok Hst Hpg Hnd Hids Hcnt Hcf] Hok' Hd Hg Hv. split; try done; [by rewrite Hd|].
  intros i pg sid Hi. destruct (Hpg _ _ _ Hi) as [[? ? Hl ? ? ? ? ?] ? ? ? ? ? ? ?].
  split; rewrite ?Hd; try done. split; try done; [|by apply Hg].
  intros k s Hk. destruct (Hl k s Hk) as [c Hc]. eapply Hv; [|done].
  apply elem_of_hs_2, elem_of_pool_slices. exists i, pg, sid. split; [done|by eapply list_elem_of_lookup_2].
Qed.
Lemma event_new e p held :
  pool_inv e p held → enabled ENew e p held →
  wp (run_event ENew p held) e (event_post ENew e p held) (λ _ e', pool_inv e' p held).
Proof.
  intros [Hok Hacc] Hid. apply wp_total. simpl. apply wp_bind. pose proof (po_env _ _ Hok) as Henv.
  apply new_handle_spec; [done|done|]. intros e' Hok' Hn Hg _ Hd _ Hv. apply wp_ret.
  assert (∀ h, h ∈ held ∨ h ∈ hs (pool_slices (pages p)) → h < next_id (heap e)) as Hlt.
  { intros h [Hh|Hh]; [by eapply accounted_fresh|eapply known_fresh; [done|by apply pool_known|done]]. }
  split; [split|apply stable_refl]; simpl.
  - apply (pool_ok_counts e); [done|done|done|by rewrite Hg|]. intros h l c Hh Hc. exists c.
    rewrite Hv, lookup_insert_ne; [done|]. specialize (Hlt h (or_intror Hh)). lia.
  - intros h Hh. rewrite (refs_insert _ _ _ _ _ h Hv), occ_cons.
    destruct (decide (h = next_id (heap e))) as [->|Hne].
    + rewrite (proj2 (occ_zero _ _)), decide_False; [done| |]; intros Hin;
        [specialize (Hlt _ (or_intror Hin))|specialize (Hlt _ (or_introl Hin))]; lia.
    + rewrite Hacc; [lia|]. set_solver.
Qed.

Lemma held_descriptor e L held h :
  accounted e L held → h ∈ held → ∃ l c, vd e !! h = Some (l, c) ∧
    c = occ h held + (if decide (h ∈ hs L) then 1 else 0) ∧ 1 ≤ occ h held.
Proof.
  intros Hacc Hh. pose proof (Hacc h (or_introl Hh)) as Hr. pose proof (proj2 (occ_pos h held) Hh).
  unfold refs in Hr. destruct (vd e !! h) as [[l c]|] eqn:Hv; simpl in Hr; [|lia].
  exists l, c. split; [done|]. split; [done|lia].
Qed.
Lemma event_clone e p held h :
  pool_inv e p held → enabled (EClone h) e p held →
  wp (run_event (EClone h) p held) e (event_post (EClone h) e p held) (λ _ e', pool_inv e' p held).
Proof.
  intros [Hok Hacc] Hh. apply wp_total. simpl. apply wp_bind.
  destruct (held_descriptor _ _ _ _ Hacc Hh) as (l & c & Hv & Hc & _).
  eapply clone_handle_spec; [apply Hok|done|]. intros e' Hok' Hsame Hv'. apply wp_ret.
  split; [split|apply stable_refl]; simpl.
  - apply (pool_ok_counts e); [done|done|apply Hsame|by destruct Hsame as (_ & -> & _)|].
    intros h' l' c' _ Hv2. rewrite Hv'. destruct (decide (h' = h)) as [->|Hne].
    + rewrite Hv in Hv2. injection Hv2 as <- <-. rewrite lookup_insert_eq. eauto.
    + rewrite lookup_insert_ne by done. eauto.
  - intros h' Hh'. rewrite (refs_insert _ _ _ _ _ h' Hv'), occ_cons.
    destruct (decide (h' = h)) as [->|Hne]; [lia|]. rewrite Hacc; [lia|set_solver].
Qed.
Lemma elem_of_return_one h x held : x ∈ return_one h held → x ∈ held.
Proof. rewrite <-!occ_pos, occ_return_one. lia. Qed.
Lemma event_drop e p held h :
  pool_inv e p held → enabled (EDrop h) e p held →
  wp (run_event (EDrop h) p held) e (event_post (EDrop h) e p held) (λ _ e', pool_inv e' p held).
Proof.
  intros [Hok Hacc] Hh. apply wp_total. simpl. apply wp_bind.
  destruct (held_descriptor _ _ _ _ Hacc Hh) as (l & c & Hv & Hc & Hocc).
  eapply drop_handle_spec; [apply Hok|done|]. intros e' Hok' Hsame Hv'. apply wp_ret.
  assert (∀ h', refs e' h' = refs e h' - (if decide (h' = h) then 1 else 0)) as Hrefs.
  { intros h'. unfold refs. rewrite Hv'. unfold released. destruct (decide (h' = h)) as [->|Hne].
    - rewrite Hv. destruct (N.leb_spec c 1); [rewrite lookup_delete_eq|rewrite lookup_insert_eq]; simpl; lia.
    - destruct (c <=? 1); [rewrite lookup_delete_ne by done|rewrite lookup_insert_ne by done]; lia. }
  split; [split|apply stable_refl]; simpl.
  - apply (pool_ok_counts e); [done|done|apply Hsame|by destruct Hsame as (_ & -> & _)|].
    intros h' l' c' Hin Hv2. rewrite Hv'. unfold released. destruct (decide (h' = h)) as [->|Hne].
    + rewrite Hv in Hv2. injection Hv2 as <- <-. rewrite decide_True in Hc by done.
      rewrite (proj2 (N.leb_gt _ _)), lookup_insert_eq by lia. eauto.
    + destruct (c <=? 1); [rewrite lookup_delete_ne by done|rewrite lookup_insert_ne by done]; eauto.
  - intros h' Hin. rewrite Hrefs, Hacc by (destruct Hin as [?%elem_of_return_one|?]; tauto).
    rewrite occ_return_one. destruct (decide (h' = h)) as [->|]; [|lia]. destruct (decide (h ∈ _)); lia.
Qed.

Lemma guard_set e p held g n :
  pool_inv e p held → is_Some (guards (heap e) !! g) →
  pool_inv (set_heap (mkHeap (descriptors (heap e)) (next_id (heap e))
    (<[g := n]> (guards (heap e))) (next_guard (heap e)) (roots (heap e))) e) p held.
Proof.
  intros [Hok Hacc] [m Hg]. split; [|done]. apply (pool_ok_counts e); [done| |done| |by eauto].
  - destruct (po_env _ _ Hok) as (? & ? & Hgd). split; [done|]. split; [done|]. simpl.
    apply map_Forall_insert_2; [by eapply (Hgd g m)|done].
  - intros g' Hg'. simpl. destruct (decide (g' = g)) as [->|Hne].
    + rewrite lookup_insert_eq. eauto.
    + by rewrite lookup_insert_ne.
Qed.
Lemma page_guard_known e p g : pool_ok e p → has_page p g → is_Some (guards (heap e) !! g).
Proof.
  intros Hok (pg & ([pg' sid] & -> & [i Hi]%list_elem_of_lookup)%list_elem_of_fmap & <-).
  apply (ok_guard _ _ (pi_ok _ _ _ _ _ (po_pages _ _ Hok _ _ _ Hi))).
Qed.
Lemma event_guard e p held g :
  pool_inv e p held → enabled (EGuard g) e p held →
  wp (run_event (EGuard g) p held) e (event_post (EGuard g) e p held) (λ _ e', pool_inv e' p held).
Proof.
  intros Hinv Hg. apply wp_total. simpl. apply wp_bind. unfold guard.
  destruct (page_guard_known e p g (proj1 Hinv) Hg) as [m Hm]. apply wp_bind, wp_gets, wp_bind.
  eapply wp_expect; [done|]. apply wp_bind, wp_modify, wp_ret, wp_ret.
  split; [by apply guard_set|apply stable_refl].
Qed.
Lemma event_unguard e p held g :
  pool_inv e p held → enabled (EUnguard g) e p held →
  wp (run_event (EUnguard g) p held) e (event_post (EUnguard g) e p held) (λ _ e', pool_inv e' p held).
Proof.
  intros Hinv Hg. apply wp_total. simpl. apply wp_bind. unfold drop_guard.
  destruct (page_guard_known e p g (proj1 Hinv) Hg) as [m Hm]. apply wp_bind, wp_gets, wp_bind.
  eapply wp_expect; [done|]. apply wp_modify, wp_ret.
  split; [by apply guard_set|apply stable_refl].
Qed.
Lemma event_materialize e p held h :
  pool_inv e p held → enabled (EMaterialize h) e p held →
  wp (run_event (EMaterialize h) p held) e (event_post (EMaterialize h) e p held)
    (λ _ e', pool_inv e' p held).
Proof.
  intros Hinv [(s & Hs & <-)%elem_of_hs Hdr]. pose proof Hinv as [Hok Hacc]. simpl. apply wp_bind.
  eapply wp_wand; [by apply sliced_materialize_spec| |].
  - intros p' e' (Hok' & Hh & Hbk & _). apply wp_ret.
    assert (hs (pool_slices (pages p')) = hs (pool_slices (pages p))) as Heq.
    { clear -Hbk. induction Hbk as [|? ? ? ? [Hb _ _ _ _] _ IH]; [done|]. rewrite !fmap_cons. by rewrite Hb, IH. }
    split; [split; [done|]|]; simpl.
    + intros h. rewrite Heq. intros Hin. rewrite <-Hacc by done. unfold refs, vd. by rewrite Hh.
    + intros t [k Hk]%list_elem_of_lookup _ _. destruct (Forall2_lookup_l _ _ _ _ _ Hbk Hk) as (t' & Hk' & ?).
      exists t'. split; [by eapply list_elem_of_lookup_2|done].
  - intros x e' [Hok' Hh]. by eapply heap_inv.
Qed.

(** The slice [s] of the pool got the handle [new]. *)
Lemma stable_rehandle ev L held l1 l2 s new cur :
  L = l1 ++ s :: l2 → rebinds ev = Some (handle s) →
  stable ev L held (l1 ++ set_slice_handle new cur s :: l2).
Proof.
  intros -> Hev t Ht _ Hne. exists t. split; [|apply backed_refl].
  assert (t ≠ s) by (intros ->; congruence). set_solver.
Qed.
Lemma hs_rehandle l1 l2 s new cur h :
  NoDup (hs (l1 ++ s :: l2)) →
  h ∈ hs (l1 ++ set_slice_handle new cur s :: l2) ↔
    h = new ∨ (h ≠ handle s ∧ h ∈ hs (l1 ++ s :: l2)).
Proof.
  intros Hnd. rewrite !fmap_app, !fmap_cons, <-!Permutation_middle in *.
  rewrite !elem_of_cons. simpl. inversion_clear Hnd. split; [|naive_solver].
  intros [?|Hin]; [by left|]. right. split; [congruence|by right].
Qed.

Lemma event_bind e p held r n c :
  pool_inv e p held → enabled (EBind r n c) e p held →
  wp (run_event (EBind r n c) p held) e (event_post (EBind r n c) e p held) (λ _ e', pool_inv e' p held).
Proof.
  intros [Hok Hacc] (Hr & (s & Hs & <-)%elem_of_hs & Hn & Hnp). apply wp_total. simpl. apply wp_bind.
  destruct (held_descriptor _ _ _ _ Hacc Hn) as (l & cn & Hvn & Hcn & Hon).
  rewrite decide_False in Hcn by done.
  assert (handle s ≠ n) as Hne by (intros <-; by apply Hnp, elem_of_hs_2).
  assert (live e s) as Hls by (by apply (accounted_held _ _ _ _ Hacc Hs)).
  eapply wp_mono; [by eapply sliced_bind_spec|].
  intros p' e' (Hok' & _ & _ & _ & (l1 & l2 & Hl & Hl') & Hrefs). apply wp_ret.
  split; [split; [done|]|simpl; rewrite Hl'; by apply stable_rehandle]. simpl.
  intros h Hin. rewrite Hl' in Hin |- *. rewrite Hrefs.
  pose proof (po_handles _ _ Hok) as Hnd. rewrite Hl in Hnd, Hacc.
  pose proof (hs_rehandle l1 l2 s n c h Hnd) as Hmem.
  assert (handle s ∈ hs (l1 ++ s :: l2)) as Hsin by (apply elem_of_hs_2; set_solver).
  rewrite <-occ_pos in Hr, Hn. rewrite Hl in Hnp.
  rewrite !occ_return_one. destruct (decide (h = handle s)) as [->|Hhs].
  - rewrite Hacc by tauto. rewrite (decide_False (P:=handle s = n)) by done.
    rewrite (decide_True (P:=handle s ∈ hs (l1 ++ s :: l2))) by done.
    rewrite (decide_False (P:=handle s ∈ hs (l1 ++ set_slice_handle n c s :: l2))) by (rewrite Hmem; tauto).
    lia.
  - destruct (decide (h = n)) as [->|Hhn].
    + rewrite (decide_True (P:=n ∈ _)) by tauto.
      rewrite Hacc by (left; by rewrite <-occ_pos). rewrite decide_False by done. lia.
    + rewrite Hacc by (destruct Hin as [?%elem_of_return_one%elem_of_return_one|?]; tauto).
      destruct (decide (h ∈ hs (l1 ++ s :: l2))), (decide (h ∈ hs (l1 ++ set_slice_handle n c s :: l2)));
        try lia; tauto.
Qed.

(** The pool drops its reference to a moved allocation and takes a fresh handle. *)
Lemma sliced_release_relocated_spec p e s :
  pool_ok e p → s ∈ pool_slices (pages p) → next_id (heap e) < usize_max →
  wp (sliced_release_relocated p (handle s)) e (λ p' e', pool_ok e' p' ∧
    (∃ l1 l2, pool_slices (pages p) = l1 ++ s :: l2 ∧
      pool_slices (pages p') = l1 ++ set_slice_handle (next_id (heap e)) 0 s :: l2) ∧
    refs e' (next_id (heap e)) = 1 ∧
    ∀ h, h < next_id (heap e) → refs e' h = refs e h - (if decide (h = handle s) then 1 else 0))
    (λ _ _, False).
Proof.
  intros Hpool Hs Hid. pose proof (po_env _ _ Hpool) as Hok.
  destruct (pool_locate _ _ _ Hpool Hs) as (i & k & pg & sid & c & Hfd). pose proof Hfd as [Hi Hk Hv].
  assert (handle s < next_id (heap e)) as Hlt by (by eapply env_ok_fresh).
  unfold sliced_release_relocated. apply wp_bind. eapply location_spec; [done|].
  cbn [page with_slice with_page]. apply wp_bind. eapply wp_index; [by rewrite Nat2N.id|]. cbn [fst snd].
  apply wp_bind. unfold release_relocated. apply wp_bind. eapply location_spec; [done|].
  cbn [slice with_slice]. rewrite Nat2N.id, Hk. apply wp_bind, wp_ret. rewrite N.eqb_refl. simpl.
  apply wp_bind. apply new_handle_spec; [done|done|]. intros e1 Hok1 Hn1 Hg1 Hng1 Hd1 Hr1 Hv1.
  apply wp_bind. eapply update_location_spec; [done|by rewrite Hv1, lookup_insert_eq|].
  intros e2 Hok2 Hsame2 Hv2. rewrite Hv1, insert_insert_eq in Hv2.
  apply wp_bind. eapply drop_handle_spec; [done|rewrite Hv2, lookup_insert_ne by lia; done|].
  intros e3 Hok3 Hsame3 Hv3. apply wp_ret, wp_ret. rewrite !Nat2N.id.
  assert (∀ h, h ≠ handle s → vd e3 !! h = vd e2 !! h) as Hother.
  { intros h Hh. rewrite Hv3. unfold released. destruct (c <=? 1);
      [by rewrite lookup_delete_ne|by rewrite lookup_insert_ne]. }
  destruct Hsame2 as (Ha1 & Ha2 & Ha3 & Ha4 & Ha5), Hsame3 as (Hb1 & Hb2 & Hb3 & Hb4 & Hb5).
  assert (vd e3 !! next_id (heap e) = Some (with_slice (N.of_nat k)
    (with_page (N.of_nat i) (pool_base p)), 1)) as Hnew.
  { rewrite Hother, Hv2, lookup_insert_eq; [done|lia]. }
  destruct (pool_rehandle e e3 p s i k pg sid c (next_id (heap e)) 0 1) as [Hpool' Hsl];
    try done; try congruence.
  - split; [|split; [lia|split; [lia|split; [|congruence]]]].
    + intros h Hh Hhlt. rewrite Hother, Hv2, lookup_insert_ne; [done| |]; set_solver.
    + intros g n Hg. by rewrite Hb2, Ha2, Hg1.
  - intros Hin. pose proof (known_fresh _ _ _ Hok (pool_known _ _ Hpool) Hin). lia.
  - split; [done|]. split; [done|]. split; [by eapply refs_lookup|]. intros h Hh.
    destruct (decide (h = handle s)) as [->|Hne].
    + unfold refs. rewrite Hv3, Hv. unfold released. destruct (N.leb_spec c 1);
        [rewrite lookup_delete_eq|rewrite lookup_insert_eq]; simpl; lia.
    + unfold refs. rewrite Hother, Hv2, lookup_insert_ne; [lia|lia|done].
Qed.
Lemma event_relocate e p held h :
  pool_inv e p held → enabled (ERelocate h) e p held →
  wp (run_event (ERelocate h) p held) e (event_post (ERelocate h) e p held) (λ _ e', pool_inv e' p held).
Proof.
  intros [Hok Hacc] [(s & Hs & <-)%elem_of_hs Hid]. apply wp_total. simpl. apply wp_bind.
  eapply wp_mono; [by apply sliced_release_relocated_spec|].
  intros p' e' (Hok' & (l1 & l2 & Hl & Hl') & Hnew & Hrefs). apply wp_ret.
  split; [split; [done|]|simpl; rewrite Hl'; by apply stable_rehandle]. simpl.
  intros h Hin. rewrite Hl' in Hin |- *. pose proof (po_handles _ _ Hok) as Hnd.
  pose proof (pool_known _ _ Hok) as Hkn. pose proof (po_env _ _ Hok) as Henv.
  assert (∀ h, h ∈ held → h < next_id (heap e)) as Hlt by (intros; by eapply accounted_fresh).
  rewrite Hl in Hnd, Hacc, Hkn. pose proof (hs_rehandle l1 l2 s (next_id (heap e)) 0 h Hnd) as Hmem.
  assert (handle s ∈ hs (l1 ++ s :: l2)) as Hsin by (apply elem_of_hs_2; set_solver).
  destruct (decide (h = next_id (heap e))) as [->|Hhn].
  - rewrite Hnew, decide_True, (proj2 (occ_zero _ _)); [done| |tauto]. intros Hh%Hlt. lia.
  - assert (h < next_id (heap e)) as Hh.
    { destruct Hin as [?|[?|[_ ?]]%Hmem]; [by apply Hlt|done|by eapply known_fresh]. }
    rewrite Hrefs, Hacc by tauto. destruct (decide (h = handle s)) as [->|Hne].
    + rewrite (decide_True (P:=handle s ∈ hs (l1 ++ s :: l2))) by done. rewrite decide_False; [lia|tauto].
    + destruct (decide (h ∈ hs (l1 ++ s :: l2))),
        (decide (h ∈ hs (l1 ++ set_slice_handle (next_id (heap e)) 0 s :: l2))); try lia; tauto.
Qed.

Lemma event_spec ev e p held :
  pool_inv e p held → enabled ev e p held →
  wp (run_event ev p held) e (event_post ev e p held) (λ _ e', pool_inv e' p held).
Proof.
  destruct ev; auto using event_reserve, event_alloc, event_bind, event_materialize, event_cleanup,
    event_relocate, event_new, event_clone, event_drop, event_guard, event_unguard.
Qed.
Lemma pool_reach_inv e p held : pool_reach e p held → pool_inv e p held.
Proof.
  induction 1 as [e psize ms al pos Hok Hst Hcf|e p held ev e' p' held' _ IH Hen Hrun|
    e p held ev e' x _ IH Hen Hrun].
  - split.
    + split; try done; apply NoDup_nil_2.
    + by intros h [?%elem_of_nil|?%elem_of_nil].
  - pose proof (event_spec ev e p held IH Hen) as Hsp. by destruct (wp_ok _ _ _ _ _ _ Hsp Hrun).
  - pose proof (event_spec ev e p held IH Hen) as Hsp. by eapply wp_err in Hsp.
Qed.
End reach.
