(* ===== verification/MemoryPoolProps.v ===== *)
(** * Properties of the sliced pool

    Theorems about every reachable state of a pool with its clients, each with a
    concrete run as its witness. *)

From S2P Require Import Prelude Taint TaintProps Storage StorageProps Memory MemoryHeap MemoryPages MemoryPool MemoryPoolOps MemoryPoolBind MemoryPoolClean MemoryPoolReach.
Open Scope N_scope.

(** ** Locations *)

Definition location_ok (l : MemoryLocation) : Prop :=
  pool l ≤ u8_max ∧ page l ≤ u16_max ∧ slice l ≤ u32_max ∧ init l ≤ u8_max.

Lemma testbit_above x w i : x < 2 ^ w → w ≤ i → N.testbit x i = false.
Proof.
  intros Hx Hi. destruct (N.eq_dec x 0) as [->|Hx0]; [apply N.bits_0|].
  apply N.bits_above_log2. apply N.log2_lt_pow2; [lia|].
  eapply N.lt_le_trans; [done|]. apply N.pow_le_mono_r; lia.
Qed.
Lemma testbit_packed l i :
  location_ok l →
  N.testbit (to_bits l) i =
    if i <? 8 then N.testbit (pool l) i
    else if i <? 24 then N.testbit (page l) (i - 8)
    else if i <? 56 then N.testbit (slice l) (i - 24)
    else N.testbit (init l) (i - 56).
Proof.
  intros (H1 & H2 & H3 & H4). unfold u8_max, u16_max, u32_max in *. unfold to_bits.
  rewrite !N.lor_spec.
  assert (∀ x w k, x < 2 ^ w → N.testbit (N.shiftl x k) i =
    if i <? k then false else if i <? k + w then N.testbit x (i - k) else false) as Hsh.
  { intros x w k Hx. destruct (N.ltb_spec i k); [by apply N.shiftl_spec_low|].
    rewrite N.shiftl_spec_high' by done. destruct (N.ltb_spec i (k + w)); [done|].
    apply (testbit_above _ w); [done|lia]. }
  rewrite (Hsh (page l) 16 8), (Hsh (slice l) 32 24), (Hsh (init l) 8 56) by lia.
  destruct (N.ltb_spec i 8), (N.ltb_spec i 24), (N.ltb_spec i 56); try lia; cbn [orb];
    rewrite ?orb_false_r;
    repeat match goal with |- context [if ?a <? ?b then _ else _] => destruct (N.ltb_spec a b); try lia end;
    rewrite ?orb_false_r, ?orb_false_l;
    try (rewrite (testbit_above (pool l) 8) by lia); try done.
  symmetry. apply (testbit_above _ 8); lia.
Qed.
(** The bits of a masked and shifted word. *)
Lemma testbit_field x k w i :
  N.testbit (N.land (N.shiftr x k) (N.ones w)) i = if i <? w then N.testbit x (i + k) else false.
Proof.
  rewrite N.land_spec, N.shiftr_spec'. destruct (N.ltb_spec i w).
  - by rewrite N.ones_spec_low, andb_true_r.
  - by rewrite N.ones_spec_high, andb_false_r.
Qed.

(** Packing a location into 64 bits and unpacking it is the identity on every
    location whose fields fit their widths. *)
Theorem location_roundtrip l : location_ok l → from_bits (to_bits l) = l.
Proof.
  intros Hl. pose proof Hl as (H1 & H2 & H3 & H4). destruct l as [po pa sl ini]; simpl in *.
  unfold from_bits, as_u8, as_u16, as_u32. f_equal; apply N.bits_inj; intros i.
  - rewrite <-(N.shiftr_0_r (to_bits _)). change u8_max with (N.ones 8).
    rewrite testbit_field, N.add_0_r, testbit_packed by done. simpl.
    destruct (N.ltb_spec i 8); [done|]. symmetry. apply (testbit_above _ 8); unfold u8_max in *; lia.
  - change u16_max with (N.ones 16). rewrite testbit_field, testbit_packed by done. simpl.
    destruct (N.ltb_spec i 16).
    + destruct (N.ltb_spec (i + 8) 8); [lia|]. destruct (N.ltb_spec (i + 8) 24); [|lia]. f_equal. lia.
    + symmetry. apply (testbit_above _ 16); unfold u16_max in *; lia.
  - change u32_max with (N.ones 32). rewrite testbit_field, testbit_packed by done. simpl.
    destruct (N.ltb_spec i 32).
    + destruct (N.ltb_spec (i + 24) 8); [lia|]. destruct (N.ltb_spec (i + 24) 24); [lia|].
      destruct (N.ltb_spec (i + 24) 56); [|lia]. f_equal. lia.
    + symmetry. apply (testbit_above _ 32); unfold u32_max in *; lia.
  - change u8_max with (N.ones 8). rewrite testbit_field, testbit_packed by done. simpl.
    destruct (N.ltb_spec i 8).
    + destruct (N.ltb_spec (i + 56) 8); [lia|]. destruct (N.ltb_spec (i + 56) 24); [lia|].
      destruct (N.ltb_spec (i + 56) 56); [lia|]. f_equal. lia.
    + symmetry. apply (testbit_above _ 8); unfold u8_max in *; lia.
Qed.
Lemma location_roundtrip_witness :
  from_bits (to_bits (mkLocation 3 65535 70000 1)) = mkLocation 3 65535 70000 1.
Proof. apply location_roundtrip. unfold location_ok. simpl. vm_compute. done. Defined.

(** ** Reachable states *)

Section props.
Context {P : Profile} {SE S : Type} {CS : ComputeStorage S} {CL : ComputeStorageLaws S}.
Abbreviation hs l := (handle <$> l).
Implicit Types (e : Env SE S) (p : SlicedPool) (pg : MemoryPage) (s t : Slice) (held : list N).
Abbreviation allocs p := (pool_slices (pages p)).

(** C30. No operation of the pool or of its clients panics, in any reachable state
    and in any build profile, when the callers respect its contract. *)
Theorem pool_no_panic e p held ev :
  pool_reach e p held → enabled ev e p held → (run_event ev p held e).1 ≠ Panic.
Proof.
  intros Hr%pool_reach_inv Hen. pose proof (event_spec ev e p held Hr Hen) as Hsp. unfold wp in Hsp.
  by destruct (run_event ev p held e) as [[] ?].
Qed.

(** C31. Two allocations of a reachable pool that share a storage buffer occupy
    disjoint byte ranges, padding included. *)
Theorem pool_slices_disjoint e p held s t :
  pool_reach e p held → s ∈ allocs p → t ∈ allocs p → s ≠ t → id (storage s) = id (storage t) →
  start s + eff s ≤ start t ∨ start t + eff t ≤ start s.
Proof.
  intros [Hok _]%pool_reach_inv Hs Ht Hne Hid.
  destruct (pool_locate _ _ _ Hok Hs) as (i & k & pg & sid & c & [Hi Hk _]).
  destruct (pool_locate _ _ _ Hok Ht) as (j & m & pg' & sid' & c' & [Hj Hm _]).
  pose proof (po_pages _ _ Hok _ _ _ Hi) as Hp. pose proof (po_pages _ _ Hok _ _ _ Hj) as Hp'.
  assert (sid = sid') as <-.
  { rewrite (pi_id _ _ _ _ _ Hp), (pi_id _ _ _ _ _ Hp').
    pose proof (ok_slices _ _ (pi_ok _ _ _ _ _ Hp)) as Hsl. pose proof (ok_slices _ _ (pi_ok _ _ _ _ _ Hp')) as Hsl'.
    rewrite Forall_lookup in Hsl, Hsl'. destruct (Hsl _ _ Hk) as (_ & _ & <- & _).
    by destruct (Hsl' _ _ Hm) as (_ & _ & <- & _). }
  assert (i = j) as <-.
  { eapply NoDup_lookup; [apply (po_ids _ _ Hok)| |]; rewrite list_lookup_fmap;
      [by rewrite Hi|by rewrite Hj]. }
  rewrite Hi in Hj. injection Hj as <-. pose proof (ok_tiles _ _ (pi_ok _ _ _ _ _ Hp)) as Htl.
  destruct (decide (k = m)) as [<-|Hkm]; [congruence|]. destruct (decide (k < m)%nat).
  - left. by eapply tiles_disjoint.
  - right. eapply tiles_disjoint; [done| |done|done]. lia.
Qed.

(** Every allocation of a reachable pool starts at a multiple of the pool's
    alignment, lies inside its page, and is backed by live storage of the page
    size once it is mapped. *)
Theorem pool_slice_backed e p held s :
  pool_reach e p held → s ∈ allocs p →
  (pool_alignment p | start s) ∧ start s + eff s ≤ page_size p ∧
  (mapped s = true → Storage.live (store (device e)) !! id (storage s) = Some (page_size p)).
Proof.
  intros [Hok _]%pool_reach_inv Hs. destruct (pool_locate _ _ _ Hok Hs) as (i & k & pg & sid & c & [Hi Hk _]).
  destruct (po_pages _ _ Hok _ _ _ Hi) as [Hp _ Hid Hal Hst Hsz _ Hmap].
  pose proof (ok_slices _ _ Hp) as Hsl. rewrite Forall_lookup in Hsl.
  destruct (Hsl _ _ Hk) as (_ & Hms & Hids & Hdiv). split; [by rewrite <-Hal|]. split.
  - pose proof (tiles_lookup _ _ _ _ _ (ok_tiles _ _ Hp) Hk) as [_ Hle]. unfold page_end in Hle. lia.
  - rewrite Hms, Hids, <-Hid. done.
Qed.

(** [find] of the handle of an allocation returns that very allocation,
    whatever reservations, merges and page moves happened before. *)
Theorem pool_find_exact e p held s :
  pool_reach e p held → s ∈ allocs p → sliced_find p (handle s) e = (Ok s, e).
Proof.
  intros [Hok _]%pool_reach_inv Hs.
  pose proof (sliced_find_spec p s e (λ t e', t = s ∧ e' = e) (λ _ _, False) Hok Hs (conj eq_refl eq_refl)) as Hw.
  unfold wp in Hw. destruct (sliced_find p (handle s) e) as [[] ?]; naive_solver.
Qed.

(** The strong count of an allocation's descriptor is one for the pool plus the
    number of handles its clients hold, so [is_free] is true exactly of the
    allocations nobody holds. *)
Theorem pool_refcounts e p held s :
  pool_reach e p held → s ∈ allocs p →
  refs e (handle s) = 1 + occ (handle s) held ∧
  handle_is_free (handle s) e = (Ok (bool_decide (handle s ∉ held)), e).
Proof.
  intros [Hok Hacc]%pool_reach_inv Hs.
  assert (refs e (handle s) = 1 + occ (handle s) held) as Hr.
  { rewrite Hacc by (right; by apply elem_of_hs_2). rewrite decide_True by (by apply elem_of_hs_2). lia. }
  split; [done|]. destruct (pool_known _ _ Hok s Hs) as (loc & c & Hv & _).
  rewrite (refs_lookup _ _ _ _ Hv) in Hr. subst c.
  pose proof (handle_is_free_spec (handle s) e _ _
    (λ b e', b = bool_decide (handle s ∉ held) ∧ e' = e) (λ _ _, False) Hv) as Hw.
  unfold wp in Hw. destruct (handle_is_free (handle s) e) as [[] ?]; [|exfalso..].
  - destruct Hw as [-> ->]; [|done]. split; [|done]. apply eq_true_iff_eq.
    rewrite bool_decide_eq_true, N.leb_le, <-occ_zero. lia.
  - apply Hw. split; [|done]. apply eq_true_iff_eq. rewrite bool_decide_eq_true, N.leb_le, <-occ_zero. lia.
  - apply Hw. split; [|done]. apply eq_true_iff_eq. rewrite bool_decide_eq_true, N.leb_le, <-occ_zero. lia.
Qed.

(** C33. A reservation hands out memory nobody holds: the returned handle had no
    holder, it now has exactly one, its allocation has the requested size, and
    every allocation a client holds is untouched. *)
Theorem reserve_unheld e p held n e' p' h :
  pool_reach e p held → enabled (EReserve n) e p held →
  sliced_try_reserve p n e = (Ok (p', Some h), e') →
  h ∉ held ∧ (∃ s, s ∈ allocs p' ∧ handle s = h ∧ handle_size (storage s) = n) ∧ refs e' h = 2 ∧
  ∀ t, t ∈ allocs p → handle t ∈ held → t ∈ allocs p' ∧ refs e' (handle t) = refs e (handle t).
Proof.
  intros [Hok Hacc]%pool_reach_inv [Hroom Hn] Hrun.
  pose proof (wp_ok _ _ _ _ _ _ (sliced_try_reserve_spec p n e Hok Hroom Hn) Hrun) as (Hok' & Hst & Hh).
  simpl in *. assert (∀ t, t ∈ allocs p → handle t ∈ held →
    t ∈ allocs p' ∧ refs e' (handle t) = refs e (handle t)) as Hkeep.
  { intros t Ht Hh'. apply (ss_live _ _ _ _ _ Hst t Ht). by apply (accounted_held _ _ _ _ Hacc Ht). }
  destruct Hh as (Hr & Hr2 & s & Hs & <- & Hsz). split; [|split; [by exists s|done]].
  intros Hheld. pose proof (Hacc _ (or_introl Hheld)) as Hacc1. pose proof (proj2 (occ_pos _ _) Hheld).
  destruct (ss_handles _ _ _ _ _ Hst s Hs) as [Hin|[Hge _]].
  - rewrite decide_True in Hacc1 by done. lia.
  - pose proof (accounted_fresh _ _ _ _ (po_env _ _ Hok) Hacc Hheld). lia.
Qed.

(** A refusal is genuine: after [try_reserve] returns [None], in every page that
    is not guarded each stretch of adjacent allocations nobody holds is too
    small for the request and its padding. *)
Theorem reserve_refusal_genuine e p held n e' p' pg sid l1 run l2 :
  pool_reach e p held → enabled (EReserve n) e p held →
  sliced_try_reserve p n e = (Ok (p', None), e') →
  (pg, sid) ∈ pages p' → guards (heap e') !! page_guard pg = Some 0 →
  slices pg = l1 ++ run ++ l2 → run ≠ [] → Forall (λ s, handle s ∉ held) run →
  foldr (λ s a, eff s + a) 0 run < n + padding_of n (pool_alignment p).
Proof.
  intros Hinv%pool_reach_inv Hen Hrun Hpg Hg Hsl Hne Hun. pose proof Hinv as [Hok Hacc].
  pose proof Hen as [Hroom Hn].
  pose proof (wp_ok _ _ _ _ _ _ (sliced_try_reserve_spec p n e Hok Hroom Hn) Hrun) as (Hok' & Hst & Hfull).
  simpl in *. assert (accounted e' (allocs p') held) as Hacc'.
  { apply (accounted_step e (allocs p) e' (allocs p') None held); try done; [apply Hok|by apply pool_known]. }
  rewrite Forall_forall in Hfull. specialize (Hfull _ Hpg). simpl in Hfull.
  apply list_elem_of_lookup in Hpg as [i Hi]. pose proof (po_pages _ _ Hok' _ _ _ Hi) as Hp.
  assert (pool_alignment p' = pool_alignment p) as Hal.
  { unfold sliced_try_reserve, bind in Hrun. destruct (reserve_in n (pages p) e) as [[r| |] ?]; [|done..].
    unfold ret in Hrun. by simplify_eq. }
  unfold page_full in Hfull. rewrite (pi_align _ _ _ _ _ Hp), Hal in Hfull.
  assert (∀ s, s ∈ run → ¬ MemoryPages.live e' s) as Hdead.
  { intros s Hs. rewrite Forall_forall in Hun. rewrite (accounted_held _ _ _ s Hacc'); [by apply Hun|].
    apply elem_of_pool_slices. exists i, pg, sid. split; [done|]. rewrite Hsl. set_solver. }
  destruct Hfull as [(m & Hm & Hm0)|[Hc Hf]]; [congruence|]. rewrite Hsl in Hc, Hf.
  destruct run as [|s [|t run]]; [done| |].
  - rewrite !Forall_app, Forall_singleton in Hf. destruct Hf as (_ & [Hf|Hf] & _); [simpl; lia|].
    exfalso. by apply (Hdead s); [set_solver|].
  - exfalso. destruct (Hc (length l1) s t).
    + by rewrite lookup_app_r, Nat.sub_diag by done.
    + rewrite lookup_app_r by lia. by replace (Datatypes.S (length l1) - length l1)%nat with 1%nat by lia.
    + by apply (Hdead s); [set_solver|].
    + by apply (Hdead t); [set_solver|].
Qed.


(** Explicit cleanup keeps exactly the pages that are guarded or have a held
    allocation, in order, gives back the storage of the other mapped pages and
    touches no other storage. *)
Theorem cleanup_exact e p held e' p' :
  pool_reach e p held → enabled (ECleanup true) e p held →
  sliced_cleanup p true e = (Ok p', e') →
  (pages p').*2 = (filter (λ x, in_use e x.1) (pages p)).*2 ∧
  ∀ sid, Storage.live (store (device e')) !! sid =
    if decide (sid ∈ (filter (discarded e) (pages p)).*2) then None
    else Storage.live (store (device e)) !! sid.
Proof.
  intros [Hok Hacc]%pool_reach_inv [Hroom Hpos] Hrun.
  assert (∀ s, s ∈ allocs p → MemoryPages.live e s → 0 < eff s) as Hbytes.
  { intros s Hs Hl. apply Hpos; [done|]. by apply (accounted_held _ _ _ _ Hacc Hs). }
  pose proof (wp_ok _ _ _ _ _ _ (sliced_cleanup_spec p e Hok Hroom Hbytes) Hrun) as (_ & _ & ? & ?). done.
Qed.

(** Binding gives the reserved allocation its final handle and nothing else: the
    byte range is the same, the new handle finds it, and its holders are the
    pool and the remaining clients. *)
Theorem bind_exact e p held r n c e' p' s :
  pool_reach e p held → enabled (EBind r n c) e p held → s ∈ allocs p → handle s = r →
  sliced_bind p r n c e = (Ok p', e') →
  sliced_find p' n e' = (Ok (set_slice_handle n c s), e') ∧ refs e' n = refs e n ∧
  refs e' r = refs e r - 2.
Proof.
  intros [Hok Hacc]%pool_reach_inv (Hr & _ & Hn & Hnp) Hs <- Hrun.
  destruct (held_descriptor _ _ _ _ Hacc Hn) as (l & cn & Hvn & _ & _).
  assert (MemoryPages.live e s) as Hls by (by apply (accounted_held _ _ _ _ Hacc Hs)).
  pose proof (wp_ok _ _ _ _ _ _ (sliced_bind_spec p e s n c l cn Hok Hs Hls Hvn Hnp) Hrun)
    as (Hok' & _ & _ & _ & (l1 & l2 & _ & Hl') & Hrefs).
  assert (handle s ≠ n) as Hne by (intros <-; by apply Hnp, elem_of_hs_2).
  split; [|split; [by rewrite Hrefs, decide_False|by rewrite Hrefs, decide_True]].
  assert (set_slice_handle n c s ∈ allocs p') as Hin by (rewrite Hl'; set_solver).
  pose proof (sliced_find_spec p' _ e' (λ t e2, t = set_slice_handle n c s ∧ e2 = e') (λ _ _, False)
    Hok' Hin (conj eq_refl eq_refl)) as Hw.
  unfold wp in Hw. cbn [handle set_slice_handle] in Hw.
  destruct (sliced_find p' n e') as [[] ?]; naive_solver.
Qed.
End props.

(** ** A concrete pool

    A 64-byte page on the CPU storage: a first allocation of 10 bytes, a
    reservation of 8 bytes, and its binding to a new handle. *)

Definition demo_profile : Profile := {| overflow_checks := true; debug_assertions := true |}.
#[local] Existing Instance demo_profile.
#[local] Instance demo_storage : ComputeStorage BytesStorage := bytes_storage (λ _, true).
#[local] Instance demo_laws : ComputeStorageLaws BytesStorage := bytes_storage_laws (λ _, true).

Abbreviation DemoEnv := (Env unit BytesStorage).
Definition demo_env : DemoEnv :=
  mkEnv (mkHeap ∅ 0 ∅ 0 ∅) (mkDevice 0 (mkBytes ∅ ∅)) false.
Definition advance (ev : PoolEvent) (x : DemoEnv * SlicedPool * list N) : DemoEnv * SlicedPool * list N :=
  let '(e, p, held) := x in
  match run_event ev p held e with
  | (Ok (p', held'), e') => (e', p', held')
  | (_, e') => (e', p, held)
  end.
Definition reaches (x : DemoEnv * SlicedPool * list N) : Prop := pool_reach x.1.1 x.1.2 x.2.
Lemma reaches_advance ev x : reaches x → enabled ev x.1.1 x.1.2 x.2 → reaches (advance ev x).
Proof.
  destruct x as [[e p] held]. unfold reaches, advance. simpl. intros Hr Hen.
  pose proof (event_spec ev e p held (pool_reach_inv _ _ _ Hr) Hen) as Hsp. unfold wp in Hsp.
  destruct (run_event ev p held e) as [[[p' held']| |] e'] eqn:Hrun; [..|done].
  - by eapply reach_ok.
  - by eapply reach_err.
Qed.

Definition demo0 := (demo_env, sliced_new 64 64 4 0, @nil N).
Definition demo1 := advance (EAlloc 10) demo0.
Definition demo2 := advance (EReserve 8) demo1.
Definition demo3 := advance ENew demo2.
Definition demo4 := advance (EBind 1 3 7) demo3.
Lemma demo_values :
  ((λ s, (handle s, start s, handle_size (storage s), padding s)) <$> pool_slices (pages demo3.1.2))
    = [(0, 0, 10, 2); (1, 12, 8, 0); (2, 20, 44, 0)] ∧
  demo3.2 = [3; 1; 0] ∧ demo4.2 = [0] ∧
  (handle <$> pool_slices (pages demo4.1.2)) = [0; 3; 2].
Proof. vm_compute. done. Qed.

Ltac decided := apply (bool_decide_unpack _); vm_compute; exact I.
Lemma demo_reach : reaches demo1 ∧ reaches demo2 ∧ reaches demo3 ∧ reaches demo4.
Proof.
  assert (reaches demo0) as H0.
  { apply reach_new; [| |].
    - split; [by apply map_Forall_empty|]. split; [intros f; vm_compute; reflexivity|]. by apply map_Forall_empty.
    - intros i a. simpl. by rewrite lookup_empty.
    - split; try (vm_compute; done). exists 16. reflexivity. }
  assert (reaches demo1) as H1.
  { apply (reaches_advance (EAlloc 10) demo0 H0). split; [reflexivity|]. split; decided. }
  assert (reaches demo2) as H2.
  { apply (reaches_advance (EReserve 8) demo1 H1). split; [split|]; decided. }
  assert (reaches demo3) as H3.
  { apply (reaches_advance ENew demo2 H2). unfold enabled. decided. }
  split; [exact H1|]. split; [exact H2|]. split; [exact H3|].
  apply (reaches_advance (EBind 1 3 7) demo3 H3). unfold enabled. decided.
Qed.

Lemma demo2_reach : pool_reach demo2.1.1 demo2.1.2 demo2.2.
Proof. exact (proj1 (proj2 demo_reach)). Qed.
Lemma demo3_reach : pool_reach demo3.1.1 demo3.1.2 demo3.2.
Proof. exact (proj1 (proj2 (proj2 demo_reach))). Qed.
Lemma demo3_pool : demo3.1.2 = demo2.1.2.
Proof. vm_compute. reflexivity. Qed.
Lemma demo2_reserve n : n ≤ 1000 → enabled (EReserve n) demo2.1.1 demo2.1.2 demo2.2.
Proof.
  intros Hn. split; [split; decided|]. change (pool_alignment demo2.1.2) with 4. unfold u64_max. lia.
Qed.
Lemma demo2_cleanup : enabled (ECleanup true) demo2.1.1 demo2.1.2 demo2.2.
Proof.
  split; [split; decided|].
  refine (proj1 (Forall_forall (λ s, handle s ∈ demo2.2 → 0 < eff s) _) _). decided.
Qed.

Definition demo_slice (k : nat) : Slice :=
  default (mkSlice false 0 (mkHandle 0 (mkUtil 0 0)) 0 0 0) (pool_slices (pages demo2.1.2) !! k).
Definition demo_page : MemoryPage * N :=
  default (mkPage false 0 (mkHandle 0 (mkUtil 0 0)) [] 0 uninit, 0) (pages demo2.1.2 !! 0%nat).
Lemma demo_slices : pool_slices (pages demo2.1.2) = [demo_slice 0; demo_slice 1; demo_slice 2].
Proof. vm_compute. reflexivity. Qed.
Lemma demo_slice_in k : (k < 3)%nat → demo_slice k ∈ pool_slices (pages demo2.1.2).
Proof.
  intros Hk. rewrite demo_slices. destruct k as [|[|[|k]]]; [| | |lia]; rewrite !elem_of_cons; tauto.
Qed.

Lemma pool_no_panic_witness : (run_event (EReserve 8) demo2.1.2 demo2.2 demo2.1.1).1 ≠ Panic.
Proof. apply pool_no_panic; [exact demo2_reach|apply demo2_reserve; lia]. Defined.
Lemma pool_slices_disjoint_witness :
  start (demo_slice 0) + eff (demo_slice 0) ≤ start (demo_slice 1) ∨
  start (demo_slice 1) + eff (demo_slice 1) ≤ start (demo_slice 0).
Proof.
  apply (pool_slices_disjoint demo2.1.1 demo2.1.2 demo2.2); [exact demo2_reach|..|reflexivity].
  - apply demo_slice_in. lia.
  - apply demo_slice_in. lia.
  - vm_compute. discriminate.
Defined.
Lemma pool_slice_backed_witness :
  (pool_alignment demo2.1.2 | start (demo_slice 1)) ∧
  start (demo_slice 1) + eff (demo_slice 1) ≤ page_size demo2.1.2 ∧
  (mapped (demo_slice 1) = true →
    Storage.live (store (device demo2.1.1)) !! id (storage (demo_slice 1)) = Some (page_size demo2.1.2)).
Proof.
  apply (pool_slice_backed demo2.1.1 demo2.1.2 demo2.2); [exact demo2_reach|apply demo_slice_in; lia].
Defined.
Lemma pool_find_exact_witness :
  sliced_find demo2.1.2 (handle (demo_slice 1)) demo2.1.1 = (Ok (demo_slice 1), demo2.1.1).
Proof.
  apply (pool_find_exact demo2.1.1 demo2.1.2 demo2.2); [exact demo2_reach|apply demo_slice_in; lia].
Defined.
Lemma pool_refcounts_witness :
  refs demo2.1.1 (handle (demo_slice 1)) = 1 + occ (handle (demo_slice 1)) demo2.2 ∧
  handle_is_free (handle (demo_slice 1)) demo2.1.1
    = (Ok (bool_decide (handle (demo_slice 1) ∉ demo2.2)), demo2.1.1).
Proof. apply (pool_refcounts demo2.1.1 demo2.1.2 demo2.2); [exact demo2_reach|apply demo_slice_in; lia]. Defined.
Lemma reserve_unheld_witness :
  ∃ p' e', sliced_try_reserve demo2.1.2 8 demo2.1.1 = (Ok (p', Some 2), e') ∧ 2 ∉ demo2.2.
Proof.
  eexists _, _. split; [vm_compute; reflexivity|].
  refine (proj1 (reserve_unheld demo2.1.1 demo2.1.2 demo2.2 8 _ _ 2 demo2_reach _ _));
    [apply demo2_reserve; lia|]. vm_compute. reflexivity.
Defined.
Lemma reserve_refusal_genuine_witness :
  ∃ p' e', sliced_try_reserve demo2.1.2 50 demo2.1.1 = (Ok (p', None), e') ∧
    eff (demo_slice 2) + 0 < 50 + padding_of 50 4.
Proof.
  eexists _, _. split; [vm_compute; reflexivity|].
  eapply (reserve_refusal_genuine demo2.1.1 demo2.1.2 demo2.2 50 _ _ demo_page.1 demo_page.2
    [demo_slice 0; demo_slice 1] [demo_slice 2] []); [exact demo2_reach|apply demo2_reserve; lia|..].
  - vm_compute. reflexivity.
  - vm_compute. left.
  - vm_compute. reflexivity.
  - vm_compute. reflexivity.
  - discriminate.
  - decided.
Defined.
Lemma cleanup_exact_witness :
  ∃ p' e', sliced_cleanup demo2.1.2 true demo2.1.1 = (Ok p', e') ∧
    (pages p').*2 = (filter (λ x, in_use demo2.1.1 x.1) (pages demo2.1.2)).*2.
Proof.
  eexists _, _. split; [vm_compute; reflexivity|].
  refine (proj1 (cleanup_exact demo2.1.1 demo2.1.2 demo2.2 _ _ demo2_reach demo2_cleanup _)).
  vm_compute. reflexivity.
Defined.
Lemma bind_exact_witness :
  ∃ p' e', sliced_bind demo3.1.2 1 3 7 demo3.1.1 = (Ok p', e') ∧
    sliced_find p' 3 e' = (Ok (set_slice_handle 3 7 (demo_slice 1)), e').
Proof.
  eexists _, _. split; [vm_compute; reflexivity|].
  refine (proj1 (bind_exact demo3.1.1 demo3.1.2 demo3.2 1 3 7 _ _ (demo_slice 1) demo3_reach _ _ _ _)).
  - unfold enabled. decided.
  - rewrite demo3_pool. apply demo_slice_in. lia.
  - vm_compute. reflexivity.
  - vm_compute. reflexivity.
Defined.

(** ** Zero-byte allocations

    [cleanup_exact] asks that held allocations have at least one byte; without it
    the byte count of [cleanup] takes a page for free while a client holds it. *)

Definition empty_alloc := advance (EAlloc 0) demo0.
Definition empty_cleaned := advance (ECleanup true) empty_alloc.

(** A page whose only held allocation is empty is given back by [cleanup]: the
    client still holds the handle, the pool has no page left, and [find] of the
    handle panics. *)
Theorem empty_alloc_loses_page :
  empty_alloc.2 = [0] ∧ len (pages empty_alloc.1.2) = 1 ∧
  empty_cleaned.2 = [0] ∧ pages empty_cleaned.1.2 = [] ∧
  (sliced_find empty_cleaned.1.2 0 empty_cleaned.1.1).1 = Panic.
Proof. vm_compute. repeat split. Qed.
