(* ===== verification/Tensor.v ===== *)
(** * Tensor metadata: shapes, slices, strides

    [ruda-core/src/tensor/]: [shape.rs] (shapes and their inference rules),
    [slice/] (slice specifications), [indexing/wrapping.rs] (negative indices and
    row-major raveling), [striding/] (layout builders, validation and the reshape
    analysis), [strides.rs] and [metadata.rs].

    A [Shape] or [Strides] is its list of dimensions.  Arguments of a type that
    implements [AsIndex] are given by their [as_index] value.  Loops that run over
    a vector from its end are recursions whose tail is evaluated first. *)

From S2P Require Import Prelude.
Open Scope N_scope.

(** ** Signed machine integers *)

Definition isize_max : Z := (2 ^ 63 - 1)%Z.
Definition isize_min : Z := (- 2 ^ 63)%Z.
Definition isize_wrap (z : Z) : Z := ((z + 2 ^ 63) mod 2 ^ 64 - 2 ^ 63)%Z.
(** [n as isize] and [z as usize] *)
Definition as_isize (n : N) : Z := isize_wrap (Z.of_N n).
Definition as_usize (z : Z) : N := Z.to_N (z mod 2 ^ 64).

Section arith.
Context {P : Profile} {E : Type}.
Definition ioverflowing (z : Z) : res E Z :=
  if ((isize_min <=? z) && (z <=? isize_max))%Z then Ok z
  else if overflow_checks then Panic else Ok (isize_wrap z).
Definition iadd (a b : Z) : res E Z := ioverflowing (a + b).
Definition ineg (a : Z) : res E Z := ioverflowing (- a).

(** [v[i]] of a pure function, [iter().product()] and [iter().map(..).collect()]. *)
Definition at_ {A} (l : list A) (i : N) : res E A :=
  match l !! N.to_nat i with Some x => Ok x | None => Panic end.
Fixpoint product_from (acc : N) (l : list N) : res E N :=
  match l with
  | [] => Ok acc
  | d :: l => let? acc := umul usize_max acc d in product_from acc l
  end.
Definition product (l : list N) : res E N := product_from 1 l.
Fixpoint map_res {A B} (f : A → res E B) (l : list A) : res E (list B) :=
  match l with
  | [] => Ok []
  | x :: l => let? y := f x in let? ys := map_res f l in Ok (y :: ys)
  end.
Definition assert_ (b : bool) : res E unit := if b then Ok tt else Panic.
Definition debug_assert_ (b : bool) : res E unit :=
  if debug_assertions then assert_ b else Ok tt.
End arith.

(** ** Errors *)

Abbreviation Shape := (list N) (only parsing).
Abbreviation Strides := (list N) (only parsing).

(** The texts of [MetadataError::Invalid]. *)
Inductive InvalidReason :=
| ShapeIsEmpty
| RepeatedInfer
| NegativeDim
| SizeMismatch (current target : list N)
| CannotInfer (current : list N) (args : list Z).
Inductive MetadataError :=
| RankMismatch (left right : N)
| IncompatibleDims (left right dim : N)
| OutOfBounds (dim rank : N)
| IncompatibleShapes (left right : list N)
| Invalid (reason : InvalidReason).
Abbreviation Md := (res MetadataError).

Inductive IndexKind := Element | Dimension.
Inductive BoundsError := BoundsIndex (kind : IndexKind) (index : Z) (start end_ : Z).

(** ** Negative indices *)

Record IndexWrap := mkWrap { kind : IndexKind; wrap_scalar : bool }.
Definition wrap_element : IndexWrap := mkWrap Element false.
Definition wrap_dim : IndexWrap := mkWrap Dimension false.

Section indexing.
Context {P : Profile}.

Definition try_wrap (idx : Z) (size : N) (k : IndexKind) (scalar : bool) : res BoundsError N :=
  let? size :=
    (if 0 <? size then Ok size
     else if negb scalar then Err (BoundsIndex k idx 0 0) else Ok 1) in
  if (0 <=? idx)%Z && (as_usize idx <? size) then Ok (as_usize idx)
  else
    let? i := (if (idx <? 0)%Z then iadd idx (as_isize size) else Ok idx) in
    if (i <? 0)%Z || (size <=? as_usize i) then Err (BoundsIndex k idx 0 (as_isize size))
    else Ok (as_usize i).
Definition expect_wrap {E} (idx : Z) (size : N) (w : IndexWrap) : res E N :=
  match try_wrap idx size (kind w) (wrap_scalar w) with
  | Ok i => Ok i
  | _ => Panic
  end.
Definition wrap_index {E} (idx : Z) (size : N) : res E N :=
  if size =? 0 then Ok 0
  else if (as_isize size =? -1)%Z && (idx =? isize_min)%Z then Panic
  else
    let wrapped := Z.modulo idx (Z.abs (as_isize size)) in
    if (wrapped <? 0)%Z then let? w := iadd wrapped (as_isize size) in Ok (as_usize w)
    else Ok (as_usize wrapped).

(** The loop of [ravel_index]: the index and the stride of the dimensions to the
    right. *)
Fixpoint ravel_from {E} (indices : list Z) (shape : Shape) : res E (N * N) :=
  match indices, shape with
  | idx :: indices, dim :: shape =>
      let? r := ravel_from indices shape in
      let? coord := expect_wrap idx dim wrap_element in
      let? x := umul usize_max coord r.2 in
      let? ravel_idx := uadd usize_max r.1 x in
      let? stride := umul usize_max r.2 dim in
      Ok (ravel_idx, stride)
  | _, _ => Ok (0, 1)
  end.
Definition ravel_index {E} (indices : list Z) (shape : Shape) : res E N :=
  let? _ := assert_ (len shape =? len indices) in
  let? r := ravel_from indices shape in Ok r.1.
End indexing.

(** ** Shapes *)

Section shapes.
Context {P : Profile}.

Definition num_elements {E} (s : Shape) : res E N := product s.
Definition rank (s : Shape) : N := len s.
Definition flatten {E} (s : Shape) : res E Shape := let? n := num_elements s in Ok [n].
Definition flatten_dims {E} (s : Shape) (start_dim end_dim : Z) : res E Shape :=
  let? start := expect_wrap start_dim (rank s) wrap_dim in
  let? end_ := expect_wrap end_dim (rank s) wrap_dim in
  let? _ := assert_ (start <=? end_) in
  let? n := product (take (N.to_nat (end_ + 1 - start)) (drop (N.to_nat start) s)) in
  Ok (take (N.to_nat start) s ++ n :: drop (N.to_nat (end_ + 1)) s).
Definition into_ranges (s : Shape) : list (N * N) := (λ d, (0, d)) <$> s.

(** [SmallVec::insert] and [SmallVec::remove] panic out of range. *)
Definition insert_dim {E} (i size : N) (s : Shape) : res E Shape :=
  if i <=? len s then Ok (take (N.to_nat i) s ++ size :: drop (N.to_nat i) s) else Panic.
Definition remove_dim {E} (i : N) (s : Shape) : res E (Shape * N) :=
  let? d := at_ s i in Ok (delete (N.to_nat i) s, d).
Definition push_dim (size : N) (s : Shape) : Shape := s ++ [size].
Definition swap_dims {E} {A} (i j : N) (l : list A) : res E (list A) :=
  let? a := at_ l i in
  let? b := at_ l j in
  Ok (<[N.to_nat j := a]> (<[N.to_nat i := b]> l)).
Definition swapped (s : Shape) (dim1 dim2 : N) : Md Shape :=
  if rank s <=? dim1 then Err (OutOfBounds dim1 (rank s))
  else if rank s <=? dim2 then Err (OutOfBounds dim2 (rank s))
  else swap_dims dim1 dim2 s.
(** [Shape::permute] and [Strides::permute] *)
Definition permute (axes s : list N) : Md (list N) :=
  if negb (len axes =? len s) then Err (RankMismatch (len s) (len axes))
  else
    let? _ := debug_assert_ (forallb (λ i, i <? len s) axes) in
    map_res (at_ s) axes.
Definition repeat (s : Shape) (dim times : N) : Md Shape :=
  if rank s <=? dim then Err (OutOfBounds dim (rank s))
  else
    let? d := at_ s dim in
    let? d := umul usize_max d times in
    Ok (<[N.to_nat dim := d]> s).
Definition reduce (s : Shape) (dim : N) : Md Shape :=
  if rank s <=? dim then Err (OutOfBounds dim (rank s)) else Ok (<[N.to_nat dim := 1]> s).

Fixpoint cat_loop (shape : Shape) (dim : N) (l : list Shape) : Md Shape :=
  match l with
  | [] => Ok shape
  | s :: l =>
      if negb (rank s =? rank shape) then Err (RankMismatch (rank shape) (rank s))
      else if negb (bool_decide (take (N.to_nat dim) s = take (N.to_nat dim) shape)) ||
              negb (bool_decide (drop (N.to_nat (dim + 1)) s = drop (N.to_nat (dim + 1)) shape))
      then Err (IncompatibleShapes shape s)
      else
        let? a := at_ shape dim in
        let? b := at_ s dim in
        let? d := uadd usize_max a b in
        cat_loop (<[N.to_nat dim := d]> shape) dim l
  end.
Definition cat (shapes : list Shape) (dim : N) : Md Shape :=
  match shapes with
  | [] => Err (Invalid ShapeIsEmpty)
  | first :: rest =>
      if rank first <=? dim then Err (OutOfBounds dim (rank first)) else cat_loop first dim rest
  end.

(** One pair of dimensions, the dimensions of one shape, all shapes. *)
Definition broadcast_dim (dim lhs rhs : N) : Md N :=
  if lhs =? rhs then Ok lhs
  else if lhs =? 1 then Ok rhs
  else if rhs =? 1 then Ok lhs
  else Err (IncompatibleDims lhs rhs dim).
Fixpoint broadcast_dims (dim : N) (acc shape : Shape) : Md Shape :=
  match acc, shape with
  | a :: acc, b :: shape =>
      let? d := broadcast_dim dim a b in
      let? ds := broadcast_dims (dim + 1) acc shape in
      Ok (d :: ds)
  | _, _ => Ok acc
  end.
Fixpoint broadcast_loop (rk : N) (acc : Shape) (l : list Shape) : Md Shape :=
  match l with
  | [] => Ok acc
  | s :: l =>
      if negb (rank s =? rk) then Err (RankMismatch rk (rank s))
      else let? acc := broadcast_dims 0 acc s in broadcast_loop rk acc l
  end.
Definition broadcast_many (shapes : list Shape) : Md Shape :=
  match shapes with
  | [] => Err (Invalid ShapeIsEmpty)
  | first :: rest => broadcast_loop (rank first) first rest
  end.
Definition broadcast (s other : Shape) : Md Shape := broadcast_many [s; other].

(** The pairs [expand] checks run from the last dimension. *)
Fixpoint expand_check (target_rank i : N) (rtarget rself : list N) : Md unit :=
  match rtarget, rself with
  | t :: rtarget, d :: rself =>
      if negb (d =? t) && negb (d =? 1) then Err (IncompatibleDims d t (target_rank - i - 1))
      else expand_check target_rank (i + 1) rtarget rself
  | _, _ => Ok tt
  end.
Definition expand (s target : Shape) : Md Shape :=
  if rank target <? rank s then Err (RankMismatch (rank s) (rank target))
  else
    let? _ := expand_check (rank target) 0 (reverse target) (reverse s) in
    Ok target.

(** The loop of [reshape] over its arguments. *)
Fixpoint reshape_args (s : Shape) (idx : N) (args : list Z) (infer : option N) (dims : list N)
    (new_size : N) : Md (option N * list N * N) :=
  match args with
  | [] => Ok (infer, dims, new_size)
  | a :: args =>
      if (0 <? a)%Z then
        let d := as_usize a in
        let? n := umul usize_max new_size d in
        reshape_args s (idx + 1) args infer (dims ++ [d]) n
      else if (a =? 0)%Z then
        let? d := at_ s idx in
        let? n := umul usize_max new_size d in
        reshape_args s (idx + 1) args infer (dims ++ [d]) n
      else if (a =? -1)%Z then
        match infer with
        | None => reshape_args s (idx + 1) args (Some idx) (dims ++ [1]) new_size
        | Some _ => Err (Invalid RepeatedInfer)
        end
      else Err (Invalid NegativeDim)
  end.
(** [n.is_multiple_of(m)]; [/] by zero panics. *)
Definition is_multiple_of (n m : N) : bool := if m =? 0 then n =? 0 else n mod m =? 0.
Definition udiv {E} (n m : N) : res E N := if m =? 0 then Panic else Ok (n / m).
Definition reshape (s : Shape) (args : list Z) : Md Shape :=
  let? r := reshape_args s 0 args None [] 1 in
  let '(infer, dims, new_size) := r in
  let? source_size := num_elements s in
  match infer with
  | None =>
      if negb (source_size =? new_size) then Err (Invalid (SizeMismatch s dims)) else Ok dims
  | Some idx =>
      if negb (is_multiple_of source_size new_size) then Err (Invalid (CannotInfer s args))
      else let? d := udiv source_size new_size in Ok (<[N.to_nat idx := d]> dims)
  end.

Definition calculate_matmul_output (lhs rhs : Shape) : Md Shape :=
  let rk := rank lhs in
  if negb (rk =? rank rhs) then Err (RankMismatch rk (rank rhs))
  else
    let? r1 := usub usize_max rk 1 in
    let? a := at_ lhs r1 in
    let? r2 := usub usize_max rk 2 in
    let? b := at_ rhs r2 in
    if negb (a =? b) then Err (IncompatibleShapes lhs rhs)
    else
      let? shape := (if 2 <? rk
        then broadcast (take (N.to_nat (rk - 2)) lhs) (take (N.to_nat (rk - 2)) rhs) else Ok []) in
      let? m := at_ lhs r2 in
      let? n := at_ rhs r1 in
      Ok (shape ++ [m; n]).
End shapes.

(** ** Slices *)

Record Slice := mkSlice { start : Z; end_ : option Z; step : Z }.

Section slices.
Context {P : Profile}.

Definition convert_signed_index {E} (index : Z) (size : N) : res E N :=
  if (index <? 0)%Z then let? i := iadd (as_isize size) index in Ok (as_usize (Z.max i 0))
  else Ok (N.min (as_usize index) size).
Definition handle_signed_inclusive_end {E} (e : Z) : res E (option Z) :=
  if (e =? -1)%Z then Ok None else let? e := iadd e 1 in Ok (Some e).

Definition slice_new {E} (start : Z) (e : option Z) (step : Z) : res E Slice :=
  let? _ := assert_ (negb (step =? 0)%Z) in Ok (mkSlice start e step).
Definition slice_full : Slice := mkSlice 0 None 1.
Definition slice_index {E} (idx : Z) : res E Slice :=
  let? e := handle_signed_inclusive_end idx in Ok (mkSlice idx e 1).
Definition is_reversed (s : Slice) : bool := (step s <? 0)%Z.
Definition bound_to {E} (s : Slice) (size : N) : res E Slice :=
  let bounds := as_isize size in
  let? b :=
    match end_ s with
    | Some e =>
        if (0 <? e)%Z then Ok (Z.min e bounds)
        else let? b := iadd bounds 1 in let? b := ineg b in Ok (Z.max e b)
    | None =>
        if is_reversed s then let? b := iadd bounds 1 in ineg b else Ok bounds
    end in
  Ok (mkSlice (start s) (Some b) (step s)).
Definition from_range_stepped {E} (r : Slice) (st : Z) : res E Slice :=
  let? _ := assert_ (negb (st =? 0)%Z) in Ok (mkSlice (start r) (end_ r) st).
Definition to_range {E} (s : Slice) (size : N) : res E (N * N) :=
  let? a := convert_signed_index (start s) size in
  let? b := match end_ s with Some e => convert_signed_index e size | None => Ok size end in
  Ok (a, b).
Definition to_range_and_step {E} (s : Slice) (size : N) : res E (N * N * Z) :=
  let? r := to_range s size in Ok (r, step s).
Definition output_size {E} (s : Slice) (dim_size : N) : res E N :=
  let? r := to_range s dim_size in
  if r.2 <=? r.1 then Ok 0
  else
    let n := r.2 - r.1 in
    if Z.abs_N (step s) =? 1 then Ok n
    else if Z.abs_N (step s) =? 0 then Panic else Ok (div_ceil n (Z.abs_N (step s))).

(** Conversions from ranges. *)
Definition from_range (a b : Z) : Slice := mkSlice a (Some b) 1.
Definition from_range_inclusive {E} (a b : Z) : res E Slice :=
  let? e := handle_signed_inclusive_end b in Ok (mkSlice a e 1).
Definition from_range_from (a : Z) : Slice := mkSlice a None 1.
Definition from_range_to (b : Z) : Slice := mkSlice 0 (Some b) 1.
Definition from_range_to_inclusive {E} (b : Z) : res E Slice :=
  let? e := handle_signed_inclusive_end b in Ok (mkSlice 0 e 1).

(** [SliceIter]: the slice and the current index. *)
Record SliceIter := mkIter { iter_slice : Slice; current : Z }.
Definition slice_into_iter (s : Slice) : SliceIter := mkIter s (start s).
Definition slice_next {E} (it : SliceIter) : res E (option Z * SliceIter) :=
  let next := current it in
  let? c := iadd (current it) (step (iter_slice it)) in
  let it := mkIter (iter_slice it) c in
  match end_ (iter_slice it) with
  | Some e =>
      if (if is_reversed (iter_slice it) then next <=? e else e <=? next)%Z then Ok (None, it)
      else Ok (Some next, it)
  | None => Ok (Some next, it)
  end.
(** [collect], for at most [fuel] elements; [None] when the fuel is used up. *)
Fixpoint slice_collect {E} (fuel : nat) (it : SliceIter) : res E (option (list Z)) :=
  match fuel with
  | O => Ok None
  | S fuel =>
      let? r := slice_next it in
      match r.1 with
      | None => Ok (Some [])
      | Some z => let? l := slice_collect fuel r.2 in Ok ((λ l, z :: l) <$> l)
      end
  end.
Definition into_vec {E} (fuel : nat) (s : Slice) : res E (option (list Z)) :=
  let? _ := assert_ (bool_decide (is_Some (end_ s))) in slice_collect fuel (slice_into_iter s).

(** [SliceArg::into_slices]: one clamped slice per dimension. *)
Fixpoint into_slices_from {E} (slices : list Slice) (shape : Shape) : res E (list Slice) :=
  match shape with
  | [] => Ok []
  | dim_size :: shape =>
      let s := match slices with [] => slice_full | s :: _ => s end in
      let? r := to_range s dim_size in
      let? c := slice_new (as_isize r.1) (Some (as_isize r.2)) (step s) in
      let? rest := into_slices_from (tail slices) shape in
      Ok (c :: rest)
  end.
Definition into_slices {E} (slices : list Slice) (shape : Shape) : res E (list Slice) :=
  let? _ := assert_ (len slices <=? len shape) in into_slices_from slices shape.
Fixpoint slice_dims {E} (slices : list Slice) (shape : Shape) : res E Shape :=
  match slices, shape with
  | s :: slices, d :: shape =>
      let? n := output_size s d in let? ns := slice_dims slices shape in Ok (n :: ns)
  | _, _ => Ok shape
  end.
Definition shape_slice (shape : Shape) (slices : list Slice) : Md Shape :=
  if rank shape <? len slices then Err (RankMismatch (rank shape) (len slices))
  else slice_dims slices shape.
End slices.

(** ** Strides *)

Inductive StrideError :=
| MalformedRanks (shape strides : list N)
| UnsupportedRank (rank : N) (shape strides : list N)
| InvalidStrides (shape strides : list N).

Inductive ReshapeAction :=
| UpdateStrides (strides : list N)
| Recompute
| ActionNoChange.
Inductive ReshapeAnalysis := IsContiguous | HighlyPermuted | Broadcasted | Split | SmallerRank | NoChange.

Section strides.
Context {P : Profile} {E : Type}.

(** [strides[i] = strides[i + 1] * shape[i + 1]], from the last dimension. *)
Fixpoint row_major_contiguous_strides (shape : Shape) : res E Strides :=
  match shape with
  | [] => Ok []
  | _ :: [] => Ok [1]
  | _ :: ((d :: _) as rest) =>
      let? st := row_major_contiguous_strides rest in
      let? s := at_ st 0 in
      let? s := umul usize_max s d in
      Ok (s :: st)
  end.

Definition try_check_matching_ranks (shape strides : list N) : res StrideError N :=
  if negb (len strides =? len shape) then Err (MalformedRanks shape strides) else Ok (len shape).

(** [for i in 0..n { if strides[i] != shape[i + 1] * strides[i + 1] { false } }] for
    the first [n] positions of the two vectors. *)
Fixpoint chained {E'} (n : nat) (shape strides : list N) : res E' bool :=
  match n, shape, strides with
  | S n, _ :: ((d :: _) as shape), s :: ((s' :: _) as strides) =>
      let? x := umul usize_max d s' in
      if negb (s =? x) then Ok false else chained n shape strides
  | _, _, _ => Ok true
  end.
Definition try_check_contiguous_row_major_strides (shape strides : list N) : res StrideError unit :=
  let? rk := try_check_matching_ranks shape strides in
  if rk =? 0 then Err (UnsupportedRank rk shape strides)
  else
    let? last := at_ strides (rk - 1) in
    let? valid := (if (last =? 1) && (1 <? rk) then chained (N.to_nat (rk - 1)) shape strides
                   else Ok (last =? 1)) in
    if valid : bool then Ok tt else Err (InvalidStrides shape strides).
Definition try_check_pitched_row_major_strides (shape strides : list N) : res StrideError unit :=
  let? rk := try_check_matching_ranks shape strides in
  if rk =? 0 then Err (UnsupportedRank rk shape strides)
  else
    let? last := at_ strides (rk - 1) in
    let valid := (last =? 1) && forallb (λ s, negb (s =? 0)) strides in
    let? valid :=
      (if valid && (1 <? rk) then
         let? pitch := at_ strides (rk - 2) in
         let? row := at_ shape (rk - 1) in
         let? ch := chained (N.to_nat (rk - 2)) shape strides in
         Ok (negb (pitch <? row) && ch)
       else Ok valid) in
    if valid : bool then Ok tt else Err (InvalidStrides shape strides).
Definition stride_bool (r : res StrideError unit) : res E bool :=
  match r with
  | Ok _ => Ok true
  | Err (InvalidStrides _ _) => Ok false
  | _ => Panic
  end.
Definition has_contiguous_row_major_strides (shape strides : list N) : res E bool :=
  stride_bool (try_check_contiguous_row_major_strides shape strides).
Definition has_pitched_row_major_strides (shape strides : list N) : res E bool :=
  stride_bool (try_check_pitched_row_major_strides shape strides).

(** ** Reshaping by strides *)

(** [strides[i] = current; current *= dim], from the last dimension. *)
Fixpoint contiguous_from (shape : Shape) : res E (Strides * N) :=
  match shape with
  | [] => Ok ([], 1)
  | dim :: shape =>
      let? r := contiguous_from shape in
      let? current := umul usize_max r.2 dim in
      Ok (r.2 :: r.1, current)
  end.
Definition contiguous_strides (shape : Shape) : res E Strides :=
  let? r := contiguous_from shape in Ok r.1.
Fixpoint zip_eq (a b : list N) : bool :=
  match a, b with
  | x :: a, y :: b => if negb (x =? y) then false else zip_eq a b
  | _, _ => true
  end.
Definition is_contiguous (shape strides : list N) : res E bool :=
  match shape with
  | [] => Ok true
  | _ => let? cs := contiguous_strides shape in Ok (zip_eq cs strides)
  end.

Fixpoint set_from (i : nat) (l acc : list N) : res E (list N) :=
  match l with
  | [] => Ok acc
  | s :: l => if decide (i < length acc)%nat then set_from (i + 1) l (<[i := s]> acc) else Panic
  end.
Definition broadcast_strides (n_new_batch rank_prev num_elems : N) (strides : Strides) : res E Strides :=
  set_from (N.to_nat n_new_batch) strides (replicate (N.to_nat (rank_prev + n_new_batch)) num_elems).

(** [while old_idx > 0 && shape[old_idx] == 1 { old_idx -= 1 }] *)
Fixpoint skip_units (shape : Shape) (old_idx : nat) : res E nat :=
  match old_idx with
  | O => Ok O
  | S i => let? d := at_ shape (N.of_nat old_idx) in if d =? 1 then skip_units shape i else Ok old_idx
  end.
(** The loop of [split_strides]: the strides so far, [old_idx], [current_stride]
    and [dim_prod]. *)
Fixpoint split_from (shape strides shape_new : list N) : res E (list N * nat * N * N) :=
  match shape_new with
  | [] =>
      let? last := usub usize_max (len shape) 1 in
      let? old_idx := skip_units shape (N.to_nat last) in
      let? current := at_ strides (N.of_nat old_idx) in
      Ok ([], old_idx, current, 1)
  | dim :: shape_new =>
      let? r := split_from shape strides shape_new in
      let '(out, old_idx, current, dim_prod) := r in
      let? dim_prod := umul usize_max dim_prod dim in
      let out := current :: out in
      if dim =? 1 then Ok (out, old_idx, current, dim_prod)
      else
        let? old := at_ shape (N.of_nat old_idx) in
        if dim_prod =? old then
          let? old_idx := skip_units shape (old_idx - 1) in
          let? current := at_ strides (N.of_nat old_idx) in
          Ok (out, old_idx, current, 1)
        else
          let? current := umul usize_max current dim in
          Ok (out, old_idx, current, dim_prod)
  end.
Definition split_strides (shape strides shape_new : list N) : res E Strides :=
  let? r := split_from shape strides shape_new in Ok r.1.1.1.

(** [while old_idx < rank && shape[old_idx] == 1 { old_idx += 1 }]: what remains. *)
Fixpoint drop_units (old : list N) : list N :=
  match old with
  | d :: rest => if d =? 1 then drop_units rest else old
  | [] => []
  end.
(** The loop of [reshape_analysis]; [old] is [shape[old_idx..]]. *)
Fixpoint split_analysis (dim_prod : N) (old shape_new : list N) : res E ReshapeAnalysis :=
  match shape_new with
  | [] => Ok Split
  | dim :: shape_new =>
      let? dim_prod := umul usize_max dim_prod dim in
      if dim =? 1 then split_analysis dim_prod old shape_new
      else
        match drop_units old with
        | [] => Ok HighlyPermuted
        | d :: rest =>
            if dim_prod =? d then split_analysis 1 rest shape_new
            else if d <? dim_prod then Ok HighlyPermuted
            else split_analysis dim_prod (d :: rest) shape_new
        end
  end.
Definition reshape_analysis (shape : Shape) (strides : option Strides) (shape_new : Shape)
    : res E ReshapeAnalysis :=
  let? contiguous := match strides with Some st => is_contiguous shape st | None => Ok false end in
  if contiguous : bool then Ok IsContiguous
  else if len shape_new <? len shape then Ok SmallerRank
  else
    let n_new_batch := len shape_new - len shape in
    if 0 <? n_new_batch then
      if bool_decide (shape = drop (N.to_nat n_new_batch) shape_new) &&
         forallb (λ d, d =? 1) (take (N.to_nat n_new_batch) shape_new)
      then Ok Broadcasted
      else split_analysis 1 shape shape_new
    else if bool_decide (shape = shape_new) then Ok NoChange
    else Ok HighlyPermuted.
Definition action (a : ReshapeAnalysis) (shape strides shape_new : list N) : res E ReshapeAction :=
  match a with
  | IsContiguous => let? st := contiguous_strides shape_new in Ok (UpdateStrides st)
  | NoChange => Ok ActionNoChange
  | HighlyPermuted | SmallerRank => Ok Recompute
  | Broadcasted =>
      let? n_new_batch := usub usize_max (len shape_new) (len shape) in
      let? num_elems := product shape in
      let? st := broadcast_strides n_new_batch (len shape) num_elems strides in
      Ok (UpdateStrides st)
  | Split => let? st := split_strides shape strides shape_new in Ok (UpdateStrides st)
  end.
Definition reshape_action (shape strides shape_new : list N) : res E ReshapeAction :=
  let? a := reshape_analysis shape (Some strides) shape_new in action a shape strides shape_new.
End strides.

(** ** Metadata *)

Record Metadata := mkMetadata { shape : list N; strides : list N }.

Section metadata.
Context {P : Profile} {E : Type}.
Definition metadata_new (sh st : list N) : res E Metadata :=
  let? _ := debug_assert_ (rank sh =? len st) in Ok (mkMetadata sh st).

(** The methods that change metadata in place. *)
Definition set_shape (sh : list N) (m : Metadata) : Metadata := mkMetadata sh (strides m).
Definition set_strides (st : list N) (m : Metadata) : Metadata := mkMetadata (shape m) st.
Definition metadata_swap (dim0 dim1 : N) : M Metadata E unit :=
  let! m := gets id in
  let! _ := lift (debug_assert_ (dim0 <? rank (shape m))) in
  let! _ := lift (debug_assert_ (dim1 <? rank (shape m))) in
  let! sh := lift (swap_dims dim0 dim1 (shape m)) in
  let! _ := modify (set_shape sh) in
  let! st := lift (swap_dims dim0 dim1 (strides m)) in
  modify (set_strides st).
Definition metadata_permute (axes : list N) : M Metadata MetadataError unit :=
  let! m := gets id in
  let! sh := lift (permute axes (shape m)) in
  let! _ := modify (set_shape sh) in
  let! st := lift (permute axes (strides m)) in
  modify (set_strides st).
Definition metadata_insert (i sh st : N) : M Metadata E unit :=
  let! m := gets id in
  let! a := lift (insert_dim i sh (shape m)) in
  let! _ := modify (set_shape a) in
  let! b := lift (insert_dim i st (strides m)) in
  modify (set_strides b).
Definition metadata_remove (i : N) : M Metadata E (N * N) :=
  let! m := gets id in
  let! a := lift (remove_dim i (shape m)) in
  let! _ := modify (set_shape a.1) in
  let! b := lift (remove_dim i (strides m)) in
  let! _ := modify (set_strides b.1) in
  ret (a.2, b.2).
Definition metadata_push (sh st : N) : M Metadata E unit :=
  let! _ := modify (λ m, set_shape (push_dim sh (shape m)) m) in
  modify (λ m, set_strides (push_dim st (strides m)) m).
End metadata.

(** ** Element addresses

    The offset of the [n]-th element in row-major order: the reference the layout
    functions are compared with. *)
Fixpoint address (shape strides : list N) (n : N) : N :=
  match shape, strides with
  | d :: shape, s :: strides => (n / volume shape) mod d * s + address shape strides n
  | _, _ => 0
  end.
