(* ===== verification/TensorProps.v ===== *)
(** * Properties of shapes and slices

    Broadcasting computes the least common target of [expand], reshaping infers
    the one shape its arguments describe, slices address exactly the indices
    their output size counts. *)

From S2P Require Import Prelude Tensor.
Open Scope N_scope.

(** ** Broadcasting *)

(** A dimension that [expand] accepts for a target dimension. *)
Definition fits (d t : N) : Prop := d = t ∨ d = 1.

Section broadcast.
Context {P : Profile}.
Implicit Types (s acc : list N).

Lemma expand_check_ok rk i rt rs :
  length rs = length rt → expand_check rk i rt rs = Ok tt ↔ Forall2 fits rs rt.
Proof.
  revert i rs. induction rt as [|t rt IH]; intros i [|d rs] Hl; simpl in *; try lia.
  { split; [constructor|done]. }
  rewrite Forall2_cons, <-(IH (i + 1) rs) by lia. unfold fits.
  destruct (N.eqb_spec d t), (N.eqb_spec d 1); simpl; subst; try tauto.
  split; [done|]. intros [[?|?] _]; done.
Qed.
Lemma expand_ok s t : length s = length t → expand s t = Ok t ↔ Forall2 fits s t.
Proof.
  intros Hl. unfold expand, rank, len. rewrite Hl, N.ltb_irrefl.
  assert (Forall2 fits s t ↔ Forall2 fits (reverse s) (reverse t)) as ->.
  { split; intros H%Forall2_reverse; [done|]. by rewrite !reverse_involutive in H. }
  rewrite <-(expand_check_ok (N.of_nat (length t)) 0) by (by rewrite !length_reverse).
  destruct (expand_check _ _ _ _) as [[]| |]; simpl; naive_solver.
Qed.

Lemma broadcast_dim_ok k a b d :
  broadcast_dim k a b = Ok d → fits a d ∧ fits b d ∧ ∀ t, fits a t → fits b t → fits d t.
Proof.
  unfold broadcast_dim, fits.
  destruct (N.eqb_spec a b), (N.eqb_spec a 1), (N.eqb_spec b 1); intros [= <-]; subst; naive_solver.
Qed.
Lemma broadcast_dim_total k a b t : fits a t → fits b t → ∃ d, broadcast_dim k a b = Ok d.
Proof.
  unfold broadcast_dim, fits.
  destruct (N.eqb_spec a b), (N.eqb_spec a 1), (N.eqb_spec b 1); naive_solver.
Qed.
Lemma broadcast_dims_ok k acc s r :
  length acc = length s → broadcast_dims k acc s = Ok r →
  Forall2 fits acc r ∧ Forall2 fits s r ∧
  ∀ t, Forall2 fits acc t → Forall2 fits s t → Forall2 fits r t.
Proof.
  revert k s r. induction acc as [|a acc IH]; intros k [|b s] r Hl; simpl in *; try lia.
  { intros [= <-]. done. }
  destruct (broadcast_dim k a b) as [d| |] eqn:Hd; [|done..]. simpl.
  destruct (broadcast_dims (k + 1) acc s) as [ds| |] eqn:Hds; [|done..]. intros [= <-].
  apply broadcast_dim_ok in Hd as (? & ? & Hd). assert (length acc = length s) as Hl2 by lia.
  destruct (IH _ _ _ Hl2 Hds) as (? & ? & Hl').
  split; [by constructor|]. split; [by constructor|].
  intros t Ha Hb. inversion Ha; subst. inversion Hb; subst. constructor; auto.
Qed.
Lemma broadcast_dims_total k acc s t :
  Forall2 fits acc t → Forall2 fits s t → ∃ r, broadcast_dims k acc s = Ok r.
Proof.
  intros Ha. revert k s. induction Ha as [|a u acc t Hau Ha IH]; intros k s Hs; [by eexists|].
  inversion Hs as [|b ? s' ? Hbu Hs']; subst. simpl.
  destruct (broadcast_dim_total k a b u Hau Hbu) as [d ->].
  destruct (IH (k + 1) s' Hs') as [ds ->]. simpl. eauto.
Qed.

Lemma fits_trans a b c : fits a b → fits b c → fits a c.
Proof. unfold fits. naive_solver. Qed.
Lemma all_fits_trans a b c : Forall2 fits a b → Forall2 fits b c → Forall2 fits a c.
Proof. intros Hab. revert c. induction Hab; inversion 1; subst; constructor; eauto using fits_trans. Qed.
Lemma all_fits_refl a : Forall2 fits a a.
Proof. apply Forall_Forall2_diag, Forall_forall. by left. Qed.

Lemma broadcast_loop_ok acc l r :
  broadcast_loop (rank acc) acc l = Ok r →
  Forall2 fits acc r ∧ Forall (λ s, Forall2 fits s r) l ∧
  ∀ t, Forall2 fits acc t → Forall (λ s, Forall2 fits s t) l → Forall2 fits r t.
Proof.
  revert acc. induction l as [|s l IH]; simpl; intros acc.
  { intros [= <-]. split; [apply all_fits_refl|]. split; [constructor|auto]. }
  unfold rank. destruct (N.eqb_spec (len s) (len acc)) as [Hl|]; [|done]. simpl.
  destruct (broadcast_dims 0 acc s) as [acc'| |] eqn:Hd; [|done..]. simpl. intros Hr.
  assert (length acc = length s) as Hlen by (unfold len in Hl; lia).
  destruct (broadcast_dims_ok _ _ _ _ Hlen Hd) as (Ha & Hs & Hleast).
  assert (len acc = len acc') as Hl' by (unfold len; by rewrite (Forall2_length _ _ _ Ha)).
  rewrite Hl' in Hr. destruct (IH _ Hr) as (Har & Hall & Hmin).
  split; [by eapply all_fits_trans|]. split; [constructor; [by eapply all_fits_trans|done]|].
  intros t Hat [Hst Hlt]%Forall_cons. apply Hmin; auto.
Qed.
Lemma broadcast_loop_total acc l t :
  Forall2 fits acc t → Forall (λ s, Forall2 fits s t) l → ∃ r, broadcast_loop (rank acc) acc l = Ok r.
Proof.
  revert acc. induction l as [|s l IH]; simpl; intros acc Ha Hall; [by eexists|].
  apply Forall_cons in Hall as [Hs Hall]. unfold rank.
  assert (len s = len acc) as -> by
    (unfold len; by rewrite (Forall2_length _ _ _ Ha), (Forall2_length _ _ _ Hs)).
  rewrite N.eqb_refl. simpl. destruct (broadcast_dims_total 0 acc s t Ha Hs) as [acc' Hd]. rewrite Hd. simpl.
  assert (length acc = length s) as Hlen
    by (by rewrite (Forall2_length _ _ _ Ha), (Forall2_length _ _ _ Hs)).
  destruct (broadcast_dims_ok _ _ _ _ Hlen Hd) as (Haa & _ & Hleast).
  assert (len acc = len acc') as -> by (unfold len; by rewrite (Forall2_length _ _ _ Haa)).
  apply IH; auto.
Qed.

(** [t] is a shape of their rank to which all of [shapes] expand. *)
Definition common_target (shapes : list (list N)) t : Prop :=
  ∀ s, s ∈ shapes → length s = length t ∧ expand s t = Ok t.
Lemma common_target_fits shapes t : common_target shapes t ↔ Forall (λ s, Forall2 fits s t) shapes.
Proof.
  rewrite Forall_forall. split; intros H s Hs.
  - destruct (H s Hs) as [Hl He]. by apply expand_ok.
  - pose proof (H s Hs) as Hf. pose proof (Forall2_length _ _ _ Hf) as Hl. split; [done|]. by apply expand_ok.
Qed.

(** [broadcast_many] succeeds exactly when the shapes have a common expansion of
    their rank, and then returns the least one: every input expands to it, and
    it expands to every other common target. *)
Theorem broadcast_least shapes :
  shapes ≠ [] →
  ((∃ r, broadcast_many shapes = Ok r) ↔ ∃ t, common_target shapes t) ∧
  ∀ r, broadcast_many shapes = Ok r →
    common_target shapes r ∧
    ∀ t, common_target shapes t → length r = length t ∧ expand r t = Ok t.
Proof.
  destruct shapes as [|s l]; [done|]. intros _. simpl.
  assert (∀ r, broadcast_loop (rank s) s l = Ok r → common_target (s :: l) r ∧
    ∀ t, common_target (s :: l) t → length r = length t ∧ expand r t = Ok t) as Hok.
  { intros r (Ha & Hall & Hleast)%broadcast_loop_ok. rewrite common_target_fits. split; [by constructor|].
    intros t [Hs Hl]%common_target_fits%Forall_cons. pose proof (Hleast t Hs Hl) as Hr.
    pose proof (Forall2_length _ _ _ Hr). split; [done|]. by apply expand_ok. }
  split; [split|done].
  - intros [r Hr]. exists r. by apply Hok.
  - intros [t [Hs Hl]%common_target_fits%Forall_cons]. by eapply broadcast_loop_total.
Qed.
End broadcast.

(** ** Reshaping *)

Lemma volume_app l k : volume (l ++ k) = volume l * volume k.
Proof. induction l as [|d l IH]; simpl; [lia|]. unfold volume in *. rewrite IH. lia. Qed.
Lemma volume_cons d l : volume (d :: l) = d * volume l.
Proof. done. Qed.
Lemma volume_insert l k x d : l !! k = Some x → volume (<[k := d]> l) * x = volume l * d.
Proof.
  intros Hk. pose proof (lookup_lt_Some _ _ _ Hk). rewrite insert_take_drop by done.
  rewrite <-(take_drop_middle l k x Hk) at 3. rewrite !volume_app, !volume_cons. lia.
Qed.
Lemma volume_perm l k : l ≡ₚ k → volume l = volume k.
Proof. induction 1; rewrite ?volume_cons in *; lia. Qed.
Lemma volume_positive l : 0 < volume l ↔ Forall (λ d, 0 < d) l.
Proof.
  induction l as [|d l IH]; [split; [constructor|done]|]. rewrite volume_cons, Forall_cons, <-IH. nia.
Qed.
Section reshape.
Context {P : Profile}.
Implicit Types (s : list N) (args : list Z).

Lemma umul_checked {E} max a b c :
  overflow_checks = true → umul (E:=E) max a b = Ok c → c = a * b.
Proof. intros Hc. unfold umul, overflowing. rewrite Hc. destruct (_ <=? _); naive_solver. Qed.
Lemma product_from_checked {E} acc l n :
  overflow_checks = true → product_from (E:=E) acc l = Ok n → n = acc * volume l.
Proof.
  intros Hc. revert acc. induction l as [|d l IH]; simpl; intros acc; [intros [= <-]; simpl; lia|].
  intros (x & Hx%umul_checked & Hn%IH)%res_bind_Ok; [|done]. subst. lia.
Qed.
Lemma product_from_ok {E} acc l :
  Forall (λ d, 0 < d) l → acc * volume l ≤ usize_max → product_from (E:=E) acc l = Ok (acc * volume l).
Proof.
  intros Hl. revert acc. induction Hl as [|d l Hd Hl IH]; simpl; intros acc Hb; [f_equal; lia|].
  assert (0 < volume l) as Hv by (by apply volume_positive). fold (volume l) in *.
  rewrite umul_ok by nia. simpl. rewrite IH by nia. f_equal. lia.
Qed.
Lemma as_usize_id z : (0 ≤ z < 2 ^ 64)%Z → as_usize z = Z.to_N z.
Proof. intros Hz. unfold as_usize. by rewrite Z.mod_small. Qed.
Lemma at_Some {E A} (l : list A) i x : at_ (E:=E) l i = Ok x ↔ l !! N.to_nat i = Some x.
Proof. unfold at_. destruct (l !! N.to_nat i); naive_solver. Qed.

(** The dimension [d] is what the argument [a] at position [i] asks for. *)
Definition describes s (i : nat) (a : Z) (d : N) : Prop :=
  (0 < a ∧ a = Z.of_N d)%Z ∨ (a = 0%Z ∧ s !! i = Some d) ∨ a = (-1)%Z.
Fixpoint matches s (i : nat) args (dims : list N) : Prop :=
  match args, dims with
  | [], [] => True
  | a :: args, d :: dims => describes s i a d ∧ matches s (i + 1) args dims
  | _, _ => False
  end.
Definition one_infer args : Prop :=
  ∀ i j, args !! i = Some (-1)%Z → args !! j = Some (-1)%Z → i = j.
(** The shape [r] is one the arguments describe, with the elements of [s]. *)
Definition described s args (r : list N) : Prop :=
  matches s 0 args r ∧ one_infer args ∧ volume r = volume s.

Lemma matches_insert s i args r k d :
  matches s i args r → args !! k = Some (-1)%Z → matches s i args (<[k := d]> r).
Proof.
  revert i r k. induction args as [|a args IH]; intros i [|x r] [|k]; simpl; try done.
  - intros [_ ?] [= ->]. split; [by right; right|done].
  - intros [? ?] Hk. split; [done|]. by apply IH.
Qed.

(** The loop, when it returns: [out] has 1 where a dimension is to be inferred. *)
Definition inferred (idx : N) args (out : list N) (inf inf' : option N) : Prop :=
  (inf' = inf ∧ (-1)%Z ∉ args) ∨
  (inf = None ∧ ∃ k, inf' = Some (idx + N.of_nat k) ∧ args !! k = Some (-1)%Z ∧ out !! k = Some 1 ∧
    ∀ j, args !! j = Some (-1)%Z → j = k).
Lemma inferred_cons idx a args d out inf inf' :
  a ≠ (-1)%Z → inferred (idx + 1) args out inf inf' → inferred idx (a :: args) (d :: out) inf inf'.
Proof.
  intros Ha [[-> Hn]|(-> & k & -> & Hk & Ho & Hu)]; [left; set_solver|right]. split; [done|].
  exists (S k). split; [f_equal; lia|]. split; [done|]. split; [done|].
  intros [|j] Hj; [naive_solver|]. by rewrite (Hu j Hj).
Qed.
Lemma reshape_args_ok s idx args inf ds n inf' ds' n' :
  overflow_checks = true → Forall (λ a, a ≤ isize_max)%Z args →
  reshape_args s idx args inf ds n = Ok (inf', ds', n') →
  ∃ out, ds' = ds ++ out ∧ matches s (N.to_nat idx) args out ∧ n' = n * volume out ∧
    inferred idx args out inf inf'.
Proof.
  intros Hc Hr. revert idx inf ds n. induction Hr as [|a args Ha Hr IH]; simpl; intros idx inf ds n.
  { intros [= -> -> ->]. exists []. rewrite app_nil_r. split; [done|]. split; [done|].
    split; [simpl; lia|]. left. split; [done|]. apply not_elem_of_nil. }
  assert (∀ d n2, describes s (N.to_nat idx) a d → a ≠ (-1)%Z →
    umul (E:=MetadataError) usize_max n d = Ok n2 →
    reshape_args s (idx + 1) args inf (ds ++ [d]) n2 = Ok (inf', ds', n') →
    ∃ out, ds' = ds ++ out ∧ (matches s (N.to_nat idx) (a :: args) out) ∧ n' = n * volume out ∧
      inferred idx (a :: args) out inf inf') as Hstep.
  { intros d n2 Hd Hne Hm%umul_checked Hrest; [|done]. destruct (IH _ _ _ _ Hrest) as (out & -> & Hmt & -> & Hinf).
    exists (d :: out). rewrite <-app_assoc. split; [done|].
    replace (N.to_nat (idx + 1)) with (N.to_nat idx + 1)%nat in Hmt by lia. split; [done|].
    split; [rewrite volume_cons; lia|]. by apply inferred_cons. }
  destruct (Z.ltb_spec 0 a) as [Hpos|Hnp].
  { intros (n2 & Hm & Hrest)%res_bind_Ok. eapply Hstep; [|lia|done|done]. left.
    rewrite as_usize_id by (unfold isize_max in *; lia). lia. }
  destruct (Z.eqb_spec a 0) as [->|Hnz].
  { intros (d & Hd%at_Some & (n2 & Hm & Hrest)%res_bind_Ok)%res_bind_Ok. eapply Hstep; [|lia|done|done].
    right. by left. }
  destruct (Z.eqb_spec a (-1)) as [->|]; [|done]. destruct inf; [done|]. intros Hrest.
  destruct (IH _ _ _ _ Hrest) as (out & -> & Hmt & -> & Hinf). exists (1 :: out). rewrite <-app_assoc.
  split; [done|]. replace (N.to_nat (idx + 1)) with (N.to_nat idx + 1)%nat in Hmt by lia.
  split; [split; [by right; right|done]|]. split; [rewrite volume_cons; lia|]. right. split; [done|].
  destruct Hinf as [[-> Hn]|(? & _)]; [|done]. exists 0%nat. split; [f_equal; lia|]. split; [done|].
  split; [done|]. intros [|j] Hj; [done|]. exfalso. apply Hn. by eapply list_elem_of_lookup_2.
Qed.

Definition known_dims args (r : list N) : list N :=
  zip_with (λ a d, if (a =? -1)%Z then 1 else d) args r.
Lemma reshape_args_total s idx args inf ds n r :
  matches s (N.to_nat idx) args r → Forall (λ d, 0 < d) r → 0 < n → n * volume r ≤ usize_max →
  Forall (λ a, a ≤ isize_max)%Z args → one_infer args → (inf = None ∨ (-1)%Z ∉ args) →
  ∃ inf', reshape_args s idx args inf ds n
    = Ok (inf', ds ++ known_dims args r, n * volume (known_dims args r)) ∧
    inferred idx args (known_dims args r) inf inf'.
Proof.
  revert idx inf ds n r. induction args as [|a args IH]; intros idx inf ds n [|d r]; simpl; try done.
  { intros _ _ _ _ _ _ _. exists inf. rewrite app_nil_r, N.mul_1_r. split; [done|]. left.
    split; [done|apply not_elem_of_nil]. }
  intros [Hd Hm] [Hpos Hall]%Forall_cons Hn Hb [Ha Hr]%Forall_cons Hone Hinf.
  assert (0 < volume r) as Hv by (by apply volume_positive).
  change (d * foldr N.mul 1 r) with (d * volume r) in Hb.
  assert (one_infer args) as Hone'.
  { intros i j Hi Hj. specialize (Hone (S i) (S j) Hi Hj). lia. }
  replace (N.to_nat idx + 1)%nat with (N.to_nat (idx + 1)) in Hm by lia.
  assert (a ≠ (-1)%Z → (inf = None ∨ (-1)%Z ∉ args) ∧
    ∃ inf', (let? n0 := umul usize_max n d in reshape_args s (idx + 1) args inf (ds ++ [d]) n0)
      = Ok (inf', ds ++ d :: known_dims args r, n * (d * volume (known_dims args r))) ∧
    inferred idx (a :: args) (d :: known_dims args r) inf inf') as Hgo.
  { intros Hne. assert (inf = None ∨ (-1)%Z ∉ args) as Hi by set_solver. split; [done|].
    rewrite umul_ok by nia. simpl.
    destruct (IH (idx + 1) inf (ds ++ [d]) (n * d) r) as (inf' & -> & Hin); try done; [nia|nia|].
    exists inf'. rewrite <-app_assoc. split; [do 2 f_equal; lia|]. by apply inferred_cons. }
  destruct (Z.ltb_spec 0 a) as [Ha0|Ha0].
  { destruct Hgo as (_ & Hgo); [lia|]. rewrite (proj2 (Z.eqb_neq _ _)) by lia.
    assert (as_usize a = d) as ->; [|done]. rewrite as_usize_id by (unfold isize_max in *; lia).
    destruct Hd as [[_ ->]|[[? _]|?]]; [by rewrite N2Z.id|lia|lia]. }
  destruct (Z.eqb_spec a 0) as [->|Hnz].
  { destruct Hgo as (_ & Hgo); [lia|]. destruct Hd as [[? _]|[[_ Hd]|?]]; [lia| |lia].
    apply (at_Some (E:=MetadataError)) in Hd. rewrite Hd. simpl. exact Hgo. }
  destruct Hd as [[? _]|[[? _]|Hd]]; [lia|lia|]. subst a. simpl.
  destruct inf as [x|]; [destruct Hinf as [?|Hn']; [done|]; exfalso; apply Hn'; by left|].
  assert ((-1)%Z ∉ args) as Hno.
  { intros [j Hj]%list_elem_of_lookup. by specialize (Hone 0%nat (S j) eq_refl Hj). }
  destruct (IH (idx + 1) (Some idx) (ds ++ [1]) n r) as (inf' & -> & Hin); try done; [nia|by right|].
  exists inf'. rewrite <-app_assoc. split; [do 2 f_equal; fold (volume (known_dims args r)); lia|].
  destruct Hin as [[-> _]|[? _]]; [|done]. right. split; [done|]. exists 0%nat.
  split; [f_equal; lia|]. split; [done|]. split; [done|]. intros [|j] Hj; [done|].
  exfalso. apply Hno. by eapply list_elem_of_lookup_2.
Qed.
Lemma known_dims_all args r :
  length args = length r → (-1)%Z ∉ args → known_dims args r = r.
Proof.
  revert r. induction args as [|a args IH]; intros [|d r] Hl Hn; simpl in *; try lia; [done|].
  rewrite not_elem_of_cons in Hn. destruct Hn as [Hne Hn]. rewrite (proj2 (Z.eqb_neq _ _)) by done.
  f_equal. apply IH; [lia|done].
Qed.
Lemma known_dims_one args r k :
  length args = length r → args !! k = Some (-1)%Z → (∀ j, args !! j = Some (-1)%Z → j = k) →
  known_dims args r = <[k := 1]> r.
Proof.
  intros Hl Hk Hu. apply list_eq. intros i. unfold known_dims. rewrite lookup_zip_with.
  destruct (args !! i) as [a|] eqn:Hi.
  - destruct (lookup_lt_is_Some_2 r i) as [d Hd]; [rewrite <-Hl; by eapply lookup_lt_Some|].
    simpl. rewrite Hd. simpl. destruct (Z.eqb_spec a (-1)) as [->|Hne].
    + rewrite (Hu i Hi), list_lookup_insert_eq; [done|]. rewrite <-Hl. by eapply lookup_lt_Some.
    + rewrite list_lookup_insert_ne; [done|]. intros ->. congruence.
  - simpl. symmetry. apply lookup_ge_None. rewrite length_insert, <-Hl. by apply lookup_ge_None.
Qed.
Lemma matches_length s i args r : matches s i args r → length args = length r.
Proof.
  revert i r. induction args as [|a args IH]; intros i [|d r]; simpl; try done. intros [_ ?%IH]. lia.
Qed.

(** With overflow checks, every shape [reshape] returns is described by its
    arguments (positive sizes as given, zeros copied from the source, at most
    one inferred size) and has as many elements as the source; and in every
    build, when the source is not empty, a described shape is found. *)
Theorem reshape_exact s args r :
  Forall (λ a, a ≤ isize_max)%Z args →
  (overflow_checks = true → reshape s args = Ok r → described s args r) ∧
  (0 < volume s ≤ usize_max → described s args r → reshape s args = Ok r).
Proof.
  intros Hr. split.
  - intros Hc. unfold reshape. intros ([[inf dims] n] & Hargs & (src & Hsrc & Hfin)%res_bind_Ok)%res_bind_Ok.
    unfold num_elements, product in Hsrc. apply product_from_checked in Hsrc; [|done].
    destruct (reshape_args_ok _ _ _ _ _ _ _ _ _ Hc Hr Hargs) as (out & -> & Hm & -> & Hinf). simpl in *.
    rewrite !N.mul_1_l in *. subst src. destruct Hinf as [[-> Hno]|(_ & k & -> & Hk & Ho & Hu)].
    + destruct (N.eqb_spec (volume s) (volume out)) as [Heq|]; [|done]. simpl in Hfin. injection Hfin as <-.
      split; [done|]. split; [|done]. intros i j Hi. exfalso. apply Hno. by eapply list_elem_of_lookup_2.
    + rewrite N.add_0_l in Hfin. destruct (is_multiple_of _ _) eqn:Hmul; [|done]. simpl in Hfin.
      apply res_bind_Ok in Hfin as (d & Hd & [= <-]). rewrite Nat2N.id. unfold udiv in Hd.
      destruct (N.eqb_spec (volume out) 0) as [|Hnz]; [done|]. injection Hd as <-.
      unfold is_multiple_of in Hmul. rewrite (proj2 (N.eqb_neq _ _)) in Hmul by done.
      apply N.eqb_eq in Hmul. split; [by apply matches_insert|]. split; [intros i j Hi Hj; by rewrite (Hu i Hi), (Hu j Hj)|].
      pose proof (volume_insert out k 1 (volume s / volume out) Ho) as Hv.
      pose proof (N.div_mod (volume s) (volume out) Hnz) as Hdm. rewrite Hmul in Hdm. lia.
  - intros [Hpos Hb] (Hm & Hone & Hv). pose proof (matches_length _ _ _ _ Hm) as Hlen.
    assert (Forall (λ d, 0 < d) r) as Hrp by (apply volume_positive; lia).
    assert (Forall (λ d, 0 < d) s) as Hsp by (by apply volume_positive).
    destruct (reshape_args_total s 0 args None [] 1 r) as (inf' & Hargs & Hinf); try done; [lia|by left|].
    unfold reshape. rewrite Hargs, N.mul_1_l. cbn [res_bind app]. unfold num_elements, product.
    rewrite product_from_ok by (done || lia). rewrite N.mul_1_l. cbn [res_bind].
    destruct Hinf as [[-> Hno]|(_ & k & -> & Hk & Ho & Hu)].
    + rewrite known_dims_all by done. by rewrite <-Hv, N.eqb_refl.
    + rewrite (known_dims_one args r k) in * by done. rewrite N.add_0_l, Nat2N.id.
      assert (is_Some (r !! k)) as [d Hd] by (apply lookup_lt_is_Some; rewrite <-Hlen; by eapply lookup_lt_Some).
      pose proof (volume_insert r k d 1 Hd) as Hvi. rewrite N.mul_1_r, Hv in Hvi.
      assert (0 < d) as Hd0 by (rewrite Forall_lookup in Hrp; by eapply Hrp).
      assert (0 < volume (<[k:=1]> r)) as Hnz by nia.
      unfold is_multiple_of, udiv. rewrite (proj2 (N.eqb_neq _ _)) by lia.
      rewrite <-Hvi, (N.mul_comm _ d), N.Div0.mod_mul, N.eqb_refl. simpl.
      rewrite N.div_mul by lia. by rewrite list_insert_insert_eq, list_insert_id.
Qed.

(** The size to infer next to a zero dimension of an empty tensor makes [reshape]
    divide by zero: it panics in every build instead of returning an error. *)
Theorem reshape_empty_infer_panics d : reshape [0; d] [0; -1]%Z = Panic.
Proof.
  unfold reshape. simpl. unfold umul, overflowing, num_elements, product. simpl. reflexivity.
Qed.
End reshape.

(** ** Slices *)

Section slices.
Context {P : Profile}.
Implicit Types (s c : Slice).

Definition in_isize (z : Z) : Prop := (isize_min ≤ z ≤ isize_max)%Z.
(** A forward slice whose fields are machine integers, with room for the iterator
    to step past a dimension of size [d]. *)
Definition forward s (d : N) : Prop :=
  in_isize (start s) ∧ (∀ e, end_ s = Some e → in_isize e) ∧
  (0 < step s ∧ Z.of_N d + 2 * step s ≤ isize_max)%Z.

Lemma as_isize_id n : (Z.of_N n ≤ isize_max)%Z → as_isize n = Z.of_N n.
Proof. intros Hn. unfold as_isize, isize_wrap, isize_max in *. rewrite Z.mod_small; lia. Qed.
Lemma iadd_ok {E} a b : in_isize (a + b) → iadd (E:=E) a b = Ok (a + b)%Z.
Proof.
  unfold in_isize, iadd, ioverflowing. intros [H1 H2].
  by rewrite (proj2 (Z.leb_le _ _) H1), (proj2 (Z.leb_le _ _) H2).
Qed.
(** Clamping an index into a dimension. *)
Definition clamp (i : Z) (d : N) : N :=
  if (i <? 0)%Z then Z.to_N (Z.of_N d + i) else N.min (Z.to_N i) d.
Lemma clamp_le i d : clamp i d ≤ d.
Proof. unfold clamp. destruct (Z.ltb_spec i 0); lia. Qed.
Lemma clamp_id (n d : N) : n ≤ d → clamp (Z.of_N n) d = n.
Proof. intros Hn. unfold clamp. destruct (Z.ltb_spec (Z.of_N n) 0); lia. Qed.
Lemma convert_ok {E} i d :
  in_isize i → (Z.of_N d ≤ isize_max)%Z → convert_signed_index (E:=E) i d = Ok (clamp i d).
Proof.
  unfold in_isize, convert_signed_index, clamp, isize_min, isize_max. intros Hi Hd.
  destruct (Z.ltb_spec i 0).
  - rewrite as_isize_id, iadd_ok by (unfold in_isize, isize_min, isize_max; lia). simpl.
    rewrite as_usize_id by lia. f_equal. lia.
  - by rewrite as_usize_id by lia.
Qed.
Definition range_of s (d : N) : N * N :=
  (clamp (start s) d, match end_ s with Some e => clamp e d | None => d end).
Lemma to_range_ok {E} s d : forward s d → to_range (E:=E) s d = Ok (range_of s d).
Proof.
  intros (Hs & He & Hst & Hd). assert (Z.of_N d ≤ isize_max)%Z by lia. unfold to_range, range_of.
  rewrite convert_ok by done. simpl. destruct (end_ s) as [e|]; [|done].
  by rewrite convert_ok by auto.
Qed.
Lemma range_of_le s d : (range_of s d).1 ≤ d ∧ (range_of s d).2 ≤ d.
Proof. unfold range_of. simpl. split; [apply clamp_le|]. destruct (end_ s); [apply clamp_le|lia]. Qed.

Definition count_of s (d : N) : N :=
  let '(a, b) := range_of s d in if b <=? a then 0 else div_ceil (b - a) (Z.to_N (step s)).
Lemma count_spec s d :
  (0 < step s)%Z → let '(a, b) := range_of s d in
  b ≤ a + count_of s d * Z.to_N (step s) ∧
  ∀ k, k < count_of s d → a + k * Z.to_N (step s) < b.
Proof.
  intros Hst. unfold count_of. destruct (range_of s d) as [a b].
  destruct (N.leb_spec b a) as [Hle|Hlt]; [split; lia|].
  pose proof (div_ceil_spec (b - a) (Z.to_N (step s)) ltac:(lia)) as Hdc.
  generalize dependent (div_ceil (b - a) (Z.to_N (step s))). intros q Hq. split; [lia|].
  intros k Hk. nia.
Qed.
Lemma output_size_ok {E} s d : forward s d → output_size (E:=E) s d = Ok (count_of s d).
Proof.
  intros Hf. unfold output_size. rewrite to_range_ok by done. cbn [res_bind]. unfold count_of.
  destruct Hf as (_ & _ & Hst & _). destruct (range_of s d) as [a b]. simpl.
  destruct (N.leb_spec b a); [done|].
  assert (Z.abs_N (step s) = Z.to_N (step s)) as -> by lia.
  destruct (N.eqb_spec (Z.to_N (step s)) 1) as [->|]; [by rewrite <-(N.mul_1_r (b - a)) at 2; rewrite div_ceil_mul|].
  by destruct (N.eqb_spec (Z.to_N (step s)) 0); [lia|].
Qed.
(** The slice of [into_slices] for one dimension. *)
Definition clamped s (d : N) : Slice :=
  mkSlice (Z.of_N (range_of s d).1) (Some (Z.of_N (range_of s d).2)) (step s).
Lemma clamped_forward s d : forward s d → forward (clamped s d) d.
Proof.
  intros (_ & _ & Hst & Hd). pose proof (range_of_le s d). unfold forward, in_isize, isize_min, isize_max in *.
  unfold clamped. cbn [start end_ step]. split; [lia|]. split; [|lia].
  intros e He. assert (e = Z.of_N (range_of s d).2) as -> by congruence. lia.
Qed.
Lemma clamped_range s d : range_of (clamped s d) d = range_of s d.
Proof.
  pose proof (range_of_le s d) as [Ha Hb]. unfold range_of at 1, clamped. cbn [start end_]. rewrite !clamp_id by done.
  by destruct (range_of s d).
Qed.
Lemma clamped_count s d : count_of (clamped s d) d = count_of s d.
Proof. unfold count_of. by rewrite clamped_range. Qed.

(** The indices a slice addresses in a dimension of size [d]. *)
Definition indices_of s (d : N) : list Z :=
  (λ k, Z.of_N (range_of s d).1 + Z.of_nat k * step s)%Z <$> seq 0 (N.to_nat (count_of s d)).
Lemma collect_S {E} fuel it :
  slice_collect (E:=E) (S fuel) it =
    let? r := slice_next it in
    match r.1 with
    | None => Ok (Some [])
    | Some z => let? l := slice_collect fuel r.2 in Ok ((λ l, z :: l) <$> l)
    end.
Proof. done. Qed.
Lemma collect_ok {E} s e n z :
  end_ s = Some e → (0 < step s)%Z → (isize_min ≤ z)%Z → (e + 2 * step s ≤ isize_max)%Z →
  (z + step s ≤ isize_max)%Z →
  (e ≤ z + Z.of_nat n * step s)%Z → (∀ k, (k < n)%nat → z + Z.of_nat k * step s < e)%Z →
  slice_collect (E:=E) (S n) (mkIter s z)
    = Ok (Some ((λ k, z + Z.of_nat k * step s)%Z <$> seq 0 n)).
Proof.
  intros He Hst. revert z. induction n as [|n IH]; intros z Hz Hb Hzs Hend Hk.
  - cbn [slice_collect]. unfold slice_next. simpl. rewrite iadd_ok by (unfold in_isize; lia). simpl.
    rewrite He. unfold is_reversed. rewrite (proj2 (Z.ltb_ge _ _)) by lia.
    rewrite (proj2 (Z.leb_le _ _)) by lia. done.
  - pose proof (Hk 0%nat ltac:(lia)) as H0.
    assert (slice_next (E:=E) (mkIter s z) = Ok (Some z, mkIter s (z + step s)%Z)) as Hnext.
    { unfold slice_next. cbn [current iter_slice]. rewrite iadd_ok by (unfold in_isize; lia).
      cbn [res_bind iter_slice]. rewrite He. unfold is_reversed. rewrite (proj2 (Z.ltb_ge _ _)) by lia.
      by rewrite (proj2 (Z.leb_gt _ _)) by lia. }
    rewrite collect_S, Hnext. cbn [res_bind fst snd]. rewrite IH; [|lia|lia|lia|lia|].
    + cbn [res_bind]. simpl. do 3 f_equal; [lia|]. rewrite <-seq_shift, <-list_fmap_compose.
      apply list_fmap_ext. intros _ k _. simpl. lia.
    + intros k Hkn. specialize (Hk (S k) ltac:(lia)). lia.
Qed.
Lemma clamped_collect {E} s d :
  forward s d → into_vec (E:=E) (S (N.to_nat (count_of s d))) (clamped s d) = Ok (Some (indices_of s d)).
Proof.
  intros Hf. pose proof Hf as (_ & _ & Hst & Hd). pose proof (count_spec s d Hst) as Hc.
  pose proof (range_of_le s d) as [Ha Hb]. unfold indices_of, into_vec, slice_into_iter, clamped in *.
  destruct (range_of s d) as [a b]. destruct Hc as [Hc1 Hc2]. simpl in *.
  apply (collect_ok (mkSlice (Z.of_N a) (Some (Z.of_N b)) (step s)) (Z.of_N b)); simpl;
    unfold isize_min; [done|done|lia|lia|lia|lia|].
  intros k Hk. specialize (Hc2 (N.of_nat k) ltac:(lia)). nia.
Qed.
Lemma indices_in_range s d z : (0 < step s)%Z → z ∈ indices_of s d → (0 ≤ z < Z.of_N d)%Z.
Proof.
  intros Hst (k & -> & Hk%elem_of_seq)%list_elem_of_fmap. pose proof (count_spec s d Hst) as Hc.
  pose proof (range_of_le s d) as [_ Hb]. destruct (range_of s d) as [a b]. destruct Hc as [_ Hc]. simpl in *.
  specialize (Hc (N.of_nat k) ltac:(lia)). nia.
Qed.

(** A forward slice of a dimension of size [d] addresses [z]. *)
Definition addresses s (d : N) (z : Z) : Prop :=
  ∃ k : nat, z = (Z.of_N (range_of s d).1 + Z.of_nat k * step s)%Z ∧ (z < Z.of_N (range_of s d).2)%Z.
Lemma elem_of_indices s d z : (0 < step s)%Z → z ∈ indices_of s d ↔ addresses s d z.
Proof.
  intros Hst. pose proof (count_spec s d Hst) as Hc. unfold addresses, indices_of.
  destruct (range_of s d) as [a b]. destruct Hc as [Hc1 Hc2]. cbn [fst snd] in *.
  rewrite list_elem_of_fmap. split; intros (k & -> & Hk); exists k; (split; [done|]).
  - apply elem_of_seq in Hk. specialize (Hc2 (N.of_nat k) ltac:(lia)). nia.
  - apply elem_of_seq. split; [lia|]. destruct (decide (k < N.to_nat (count_of s d))%nat); [lia|]. nia.
Qed.

Lemma full_forward d : (Z.of_N d + 2 ≤ isize_max)%Z → forward slice_full d.
Proof. intros Hd. unfold forward, in_isize, isize_min, isize_max in *. simpl. split; [lia|]. split; [done|lia]. Qed.
Lemma full_count d : count_of slice_full d = d.
Proof.
  unfold count_of, range_of, clamp. simpl. rewrite N.min_l by lia. destruct (N.leb_spec d 0); [lia|].
  rewrite N.sub_0_r. change (Z.to_N 1) with 1. rewrite <-(N.mul_1_r d) at 1. by apply div_ceil_mul.
Qed.
Lemma indices_nodup s d : (0 < step s)%Z → NoDup (indices_of s d).
Proof. intros Hst. apply NoDup_fmap_2; [intros i j; nia|apply NoDup_seq]. Qed.
Lemma indices_length s d : len (indices_of s d) = count_of s d.
Proof. unfold len, indices_of. rewrite length_fmap, length_seq. lia. Qed.

(** The slices that [slices] means for a shape, and the sizes they leave. *)
Fixpoint padded (slices : list Slice) (shape : list N) : list (Slice * N) :=
  match shape with
  | [] => []
  | d :: shape => (match slices with [] => slice_full | s :: _ => s end, d) :: padded (tail slices) shape
  end.
Lemma into_slices_padded {E} slices shape :
  Forall (λ x, forward x.1 x.2) (padded slices shape) →
  into_slices_from (E:=E) slices shape = Ok ((λ x, clamped x.1 x.2) <$> padded slices shape).
Proof.
  revert slices. induction shape as [|d shape IH]; intros slices; [done|].
  cbn [padded into_slices_from]. intros [Hs Hf]%Forall_cons. cbn [fst snd] in Hs.
  set (s := match slices with [] => slice_full | s :: _ => s end) in *. rewrite to_range_ok by done.
  cbn [res_bind]. pose proof Hs as (_ & _ & Hst & Hd). pose proof (range_of_le s d).
  rewrite !as_isize_id by lia. unfold slice_new, assert_.
  rewrite (proj2 (Z.eqb_neq _ _)) by lia. cbn [negb res_bind]. rewrite IH by done. done.
Qed.
Lemma slice_dims_padded {E} slices shape :
  Forall (λ x, forward x.1 x.2) (padded slices shape) →
  slice_dims (E:=E) slices shape = Ok ((λ x, count_of x.1 x.2) <$> padded slices shape).
Proof.
  revert slices. induction shape as [|d shape IH]; intros [|s slices]; try done.
  - intros _. cbn [slice_dims]. f_equal. clear. cbn [padded tail]. rewrite fmap_cons. f_equal.
    + cbn [fst snd]. by rewrite full_count.
    + induction shape as [|d' shape IH]; [done|]. cbn [padded tail]. rewrite fmap_cons, <-IH.
      cbn [fst snd]. by rewrite full_count.
  - cbn [padded tail slice_dims]. intros [Hs Hf]%Forall_cons. cbn [fst snd] in Hs.
    rewrite output_size_ok by done. cbn [res_bind]. by rewrite IH.
Qed.
Lemma padded_lookup slices shape i s d :
  padded slices shape !! i = Some (s, d) →
  shape !! i = Some d ∧ s = default slice_full (slices !! i).
Proof.
  revert slices i. induction shape as [|d' shape IH]; intros slices [|i]; simpl; try done.
  - intros [= <- <-]. split; [done|]. by destruct slices.
  - intros [Hd ->]%IH. split; [done|]. by destruct slices.
Qed.
Lemma padded_clamped slices shape :
  padded ((λ x, clamped x.1 x.2) <$> padded slices shape) shape
    = (λ x, (clamped x.1 x.2, x.2)) <$> padded slices shape.
Proof. revert slices. induction shape as [|d shape IH]; intros slices; [done|]. simpl. f_equal. apply IH. Qed.
Lemma length_padded slices shape : length (padded slices shape) = length shape.
Proof. revert slices. induction shape; intros slices; simpl; auto. Qed.

(** For forward slices of a shape, [into_slices] clamps each one to its
    dimension, missing ones being full; clamping does not change the sliced
    shape, and iterating a clamped slice gives exactly as many indices as the
    output size says, all different and inside the dimension: those from the
    clamped start, by the step, before the clamped end of the given slice. *)
Theorem slices_exact {E} slices shape :
  len slices ≤ len shape →
  (∀ i s d, slices !! i = Some s → shape !! i = Some d → forward s d) →
  Forall (λ d, Z.of_N d + 2 ≤ isize_max)%Z shape →
  ∃ cs r, into_slices (E:=E) slices shape = Ok cs ∧ shape_slice shape slices = Ok r ∧
    shape_slice shape cs = Ok r ∧ length cs = length shape ∧ length r = length shape ∧
    ∀ i c d n, cs !! i = Some c → shape !! i = Some d → r !! i = Some n →
      ∃ l, into_vec (E:=E) (S (N.to_nat n)) c = Ok (Some l) ∧ len l = n ∧ NoDup l ∧
        Forall (λ z, 0 ≤ z < Z.of_N d)%Z l ∧
        ∀ z, z ∈ l ↔ addresses (default slice_full (slices !! i)) d z.
Proof.
  intros Hlen Hfw Hall.
  assert (Forall (λ x, forward x.1 x.2) (padded slices shape)) as Hf.
  { apply Forall_lookup. intros i [s d] [Hd ->]%padded_lookup.
    destruct (slices !! i) as [s|] eqn:Hs; [by eapply Hfw|]. apply full_forward. rewrite Forall_lookup in Hall. by apply (Hall i). }
  exists ((λ x, clamped x.1 x.2) <$> padded slices shape), ((λ x, count_of x.1 x.2) <$> padded slices shape).
  rewrite !length_fmap, !length_padded. unfold into_slices, assert_, shape_slice, rank.
  assert (len ((λ x, clamped x.1 x.2) <$> padded slices shape) = len shape) as Hl2
    by (unfold len; by rewrite length_fmap, length_padded).
  rewrite (proj2 (N.leb_le _ _) Hlen), Hl2, N.ltb_irrefl. cbn [res_bind].
  rewrite (proj2 (N.ltb_ge _ _) Hlen), into_slices_padded, slice_dims_padded by done.
  split; [done|]. split; [done|]. split; [|split; [done|split; [done|]]].
  - rewrite slice_dims_padded; rewrite padded_clamped.
    + f_equal. rewrite <-list_fmap_compose. apply list_fmap_ext. intros i [s d] _. simpl.
      apply clamped_count.
    + apply Forall_fmap. eapply Forall_impl; [done|]. intros [s d] Hs. by apply clamped_forward.
  - intros i c d n. rewrite !list_lookup_fmap. destruct (padded slices shape !! i) as [[s d']|] eqn:Hi; [|done].
    simpl. intros [= <-] Hd [= <-]. pose proof (padded_lookup _ _ _ _ _ Hi) as [Hd' _].
    rewrite Hd in Hd'. injection Hd' as <-. rewrite Forall_lookup in Hf. pose proof (Hf _ _ Hi) as Hs.
    pose proof Hs as (_ & _ & Hst & _). exists (indices_of s d). split; [by apply clamped_collect|].
    split; [apply indices_length|]. split; [by apply indices_nodup|].
    split; [apply Forall_forall; intros z; by apply indices_in_range|].
    pose proof (padded_lookup _ _ _ _ _ Hi) as [_ <-]. intros z. by apply elem_of_indices.
Qed.
End slices.

(** ** Witnesses *)

Definition checked_build : Profile := {| overflow_checks := true; debug_assertions := true |}.
#[local] Existing Instance checked_build.

Lemma broadcast_least_witness :
  common_target [[2; 1; 3]; [1; 4; 3]] [2; 4; 3] ∧
  ∀ t, common_target [[2; 1; 3]; [1; 4; 3]] t → length [2; 4; 3] = length t ∧ expand [2; 4; 3] t = Ok t.
Proof.
  apply (proj2 (broadcast_least [[2; 1; 3]; [1; 4; 3]] ltac:(discriminate))). reflexivity.
Defined.

Lemma reshape_exact_witness :
  reshape [2; 3; 4] [0; -1; 2]%Z = Ok [2; 6; 2] ∧ described [2; 3; 4] [0; -1; 2]%Z [2; 6; 2].
Proof.
  assert (reshape [2; 3; 4] [0; -1; 2]%Z = Ok [2; 6; 2]) as Hr by reflexivity.
  split; [exact Hr|]. apply (reshape_exact [2; 3; 4] [0; -1; 2]%Z [2; 6; 2]); [|reflexivity|exact Hr].
  repeat constructor; discriminate.
Defined.

Lemma slices_exact_witness :
  ∃ cs r, into_slices (E:=MetadataError) [mkSlice (-5) (Some (-1)%Z) 2] [7; 3] = Ok cs ∧
    shape_slice [7; 3] [mkSlice (-5) (Some (-1)%Z) 2] = Ok r ∧
    shape_slice [7; 3] cs = Ok r ∧ length cs = 2%nat ∧ length r = 2%nat.
Proof.
  destruct (slices_exact (E:=MetadataError) [mkSlice (-5) (Some (-1)%Z) 2] [7; 3])
    as (cs & r & H1 & H2 & H3 & H4 & H5 & _).
  - vm_compute. discriminate.
  - intros [|i] s d Hs Hd; [|discriminate Hs]. injection Hs as <-. injection Hd as <-.
    unfold forward, in_isize, isize_min, isize_max. cbn [start end_ step]. split; [lia|]. split; [|lia].
    intros e He. injection He as <-. lia.
  - repeat constructor; vm_compute; discriminate.
  - exists cs, r. auto.
Defined.
