(* ===== verification/TensorStrides.v ===== *)
(** * Properties of strides

    Row-major raveling against the reference [address], and the soundness of the
    reshape analysis: new strides address the same element of the buffer at every
    position.  Permuting metadata relabels coordinates. *)

From S2P Require Import Prelude Tensor TensorProps.
Open Scope N_scope.

(** ** Addresses *)

Definition positive (l : list N) : Prop := Forall (λ d, 0 < d) l.
(** The strides of a dense tensor. *)
Fixpoint row_major (shape : list N) : list N :=
  match shape with [] => [] | _ :: shape => volume shape :: row_major shape end.
Lemma length_row_major shape : length (row_major shape) = length shape.
Proof. induction shape; simpl; auto. Qed.

Lemma address_shift shape strides a n :
  positive shape → address shape strides (a * volume shape + n) = address shape strides n.
Proof.
  intros Hp. revert strides a. induction Hp as [|d shape Hd Hp IH]; intros [|s strides] a; [done..|].
  simpl. fold (volume shape). assert (0 < volume shape) by (by apply volume_positive).
  replace (a * (d * volume shape) + n) with ((a * d) * volume shape + n) by lia.
  rewrite IH, N.div_add_l, N.add_comm, (N.add_comm (a * d)), N.Div0.mod_add by lia. lia.
Qed.
Lemma dot_bound coords shape :
  Forall2 N.lt coords shape → dot coords (row_major shape) < volume shape.
Proof.
  induction 1 as [|c d coords shape Hc Hall IH]; [done|]. simpl. fold (volume shape). nia.
Qed.
(** The element at row-major position [n] is the one at the coordinates of [n]. *)
Lemma address_coords coords shape strides :
  Forall2 N.lt coords shape → length strides = length shape →
  address shape strides (dot coords (row_major shape)) = dot coords strides.
Proof.
  intros Hc. revert strides. induction Hc as [|c d coords shape Hcd Hall IH]; intros [|s strides] Hl;
    simpl in *; try lia.
  fold (volume shape). pose proof (dot_bound _ _ Hall) as Hb.
  assert (positive shape) as Hp.
  { clear -Hall. induction Hall; constructor; [lia|done]. }
  rewrite N.div_add_l, N.div_small, N.add_0_r, N.mod_small by lia.
  by rewrite address_shift, IH by (done || lia).
Qed.
Lemma address_row_major shape n :
  positive shape → address shape (row_major shape) n = n mod volume shape.
Proof.
  induction 1 as [|d shape Hd Hp IH]; [simpl; by rewrite N.mod_1_r|]. simpl. fold (volume shape).
  rewrite IH, (N.mul_comm d), N.Div0.mod_mul_r. lia.
Qed.
Lemma volume_ge d l : positive l → d ∈ l → d ≤ volume l.
Proof.
  induction 1 as [|x l Hx Hp IH]; [by intros ?%elem_of_nil|]. assert (0 < volume l) by (by apply volume_positive).
  rewrite volume_cons. intros [->|Hd%IH]%elem_of_cons; nia.
Qed.

(** ** Raveling *)

Section ravel.
Context {P : Profile} {E : Type}.

Lemma contiguous_from_ok shape :
  positive shape → volume shape ≤ usize_max →
  contiguous_from (E:=E) shape = Ok (row_major shape, volume shape).
Proof.
  induction 1 as [|d shape Hd Hp IH]; [done|]. simpl. fold (volume shape). intros Hb.
  assert (0 < volume shape) by (by apply volume_positive). rewrite IH by nia. simpl.
  rewrite umul_ok by lia. simpl. by rewrite N.mul_comm.
Qed.
Lemma row_major_strides_ok shape :
  positive shape → volume shape ≤ usize_max →
  row_major_contiguous_strides (E:=E) shape = Ok (row_major shape).
Proof.
  induction 1 as [|d shape Hd Hp IH]; [done|]. intros Hb. rewrite volume_cons in Hb.
  assert (0 < volume shape) by (by apply volume_positive).
  destruct shape as [|d' shape]; [done|]. rewrite volume_cons in *.
  change (row_major_contiguous_strides (E:=E) (d :: d' :: shape)) with
    (let? st := row_major_contiguous_strides (E:=E) (d' :: shape) in
     let? s := at_ st 0 in let? s := umul usize_max s d' in Ok (s :: st)).
  rewrite IH by nia. cbn [res_bind]. rewrite (proj2 (at_Some _ _ (volume shape))) by done.
  cbn [res_bind]. rewrite umul_ok by nia. cbn [res_bind row_major]. by rewrite volume_cons, (N.mul_comm d').
Qed.
Lemma expect_wrap_ok c d : c < d → d ≤ usize_max → expect_wrap (E:=E) (Z.of_N c) d wrap_element = Ok c.
Proof.
  unfold usize_max, u64_max. intros Hc Hd. unfold expect_wrap, try_wrap.
  rewrite (proj2 (N.ltb_lt 0 d)) by lia. cbn [res_bind].
  rewrite as_usize_id, N2Z.id by lia. rewrite (proj2 (Z.leb_le _ _)) by lia.
  by rewrite (proj2 (N.ltb_lt c d)) by lia.
Qed.
Lemma ravel_from_ok coords shape :
  Forall2 N.lt coords shape → volume shape ≤ usize_max →
  ravel_from (E:=E) (Z.of_N <$> coords) shape = Ok (dot coords (row_major shape), volume shape).
Proof.
  induction 1 as [|c d coords shape Hcd Hall IH]; [done|]. rewrite volume_cons. intros Hb.
  assert (positive shape) as Hp.
  { clear -Hall. induction Hall; constructor; [lia|done]. }
  assert (0 < volume shape) by (by apply volume_positive). pose proof (dot_bound _ _ Hall) as Hdot.
  rewrite fmap_cons. cbn [ravel_from]. rewrite IH by nia. cbn [res_bind fst snd].
  rewrite expect_wrap_ok by nia. cbn [res_bind]. rewrite umul_ok by nia. cbn [res_bind].
  rewrite uadd_ok by nia. cbn [res_bind]. rewrite umul_ok by nia. cbn [res_bind dot row_major].
  f_equal. f_equal; lia.
Qed.

(** Both contiguous stride builders agree, [ravel_index] of valid coordinates is
    their dot product with those strides, a position below the number of
    elements, and under any strides the reference address of that position is
    the offset of the coordinates. *)
Theorem ravel_row_major shape coords :
  Forall2 N.lt coords shape → volume shape ≤ usize_max →
  ∃ st n, contiguous_strides (E:=E) shape = Ok st ∧
    row_major_contiguous_strides (E:=E) shape = Ok st ∧
    ravel_index (E:=E) (Z.of_N <$> coords) shape = Ok n ∧ n = dot coords st ∧ n < volume shape ∧
    address shape st n = n ∧
    ∀ strides, length strides = length shape → address shape strides n = dot coords strides.
Proof.
  intros Hc Hb. assert (positive shape) as Hp.
  { clear -Hc. induction Hc; constructor; [lia|done]. }
  exists (row_major shape), (dot coords (row_major shape)).
  pose proof (dot_bound _ _ Hc) as Hn. pose proof (Forall2_length _ _ _ Hc) as Hl.
  split; [unfold contiguous_strides; by rewrite contiguous_from_ok|].
  split; [by apply row_major_strides_ok|]. split.
  { unfold ravel_index, assert_, len. rewrite length_fmap, Hl, N.eqb_refl. cbn [res_bind].
    by rewrite ravel_from_ok. }
  split; [done|]. split; [done|]. split; [by rewrite address_row_major, N.mod_small|].
  intros strides. by apply address_coords.
Qed.
End ravel.

(** ** Splitting dimensions

    Dimensions of size one carry no address.  A reshape splits dimensions when the
    remaining new dimensions fall into groups whose products are the remaining
    old dimensions, in order. *)

Definition nonunit (l : list N) : list N := filter (λ d, d ≠ 1) l.
Lemma nonunit_cons_1 l : nonunit (1 :: l) = nonunit l.
Proof. unfold nonunit. by rewrite filter_cons_False by auto. Qed.
Lemma nonunit_cons d l : d ≠ 1 → nonunit (d :: l) = d :: nonunit l.
Proof. intros. unfold nonunit. by rewrite filter_cons_True. Qed.
Lemma nonunit_app l k : nonunit (l ++ k) = nonunit l ++ nonunit k.
Proof. apply filter_app. Qed.
Lemma nonunit_drop l : nonunit (drop_units l) = nonunit l.
Proof.
  induction l as [|d l IH]; [done|]. simpl. destruct (N.eqb_spec d 1) as [->|]; [|done].
  by rewrite nonunit_cons_1.
Qed.
Lemma drop_units_head l d rest : drop_units l = d :: rest → d ≠ 1.
Proof.
  induction l as [|x l IH]; [done|]. simpl. destruct (N.eqb_spec x 1); [done|]. by intros [= -> _].
Qed.
Lemma volume_nonunit l : volume (nonunit l) = volume l.
Proof.
  induction l as [|d l IH]; [done|]. destruct (decide (d = 1)) as [->|Hd].
  - rewrite nonunit_cons_1, IH, volume_cons. lia.
  - by rewrite nonunit_cons, !volume_cons, IH.
Qed.
Lemma positive_drop l : positive l → positive (drop_units l).
Proof. induction 1 as [|d l Hd Hl IH]; [constructor|]. simpl. destruct (_ =? _); [done|by constructor]. Qed.

Definition grouped (old new : list N) : Prop :=
  ∃ groups, nonunit old = volume <$> groups ∧ nonunit new = concat groups ∧ Forall (λ g, g ≠ []) groups.

Section split.
Context {P : Profile} {E : Type}.

(** [pre] are the dimensions already gathered for the current old dimension. *)
Lemma split_analysis_ok new pre old :
  positive new → positive old → positive pre → volume pre * volume new = volume old →
  volume old ≤ usize_max →
  (pre ≠ [] → ∃ d rest, old = d :: rest ∧ d ≠ 1 ∧ volume pre < d) →
  ∃ a, split_analysis (E:=E) (volume pre) old new = Ok a ∧ (a = Split ∨ a = HighlyPermuted) ∧
    (a = Split → ∃ groups, nonunit old = volume <$> groups ∧ pre ++ nonunit new = concat groups ∧
      Forall (λ g, g ≠ []) groups).
Proof.
  intros Hnew. revert pre old. induction Hnew as [|dim new Hdim Hnew IH]; intros pre old Hold Hpre Hv Hb Hcur.
  { exists Split. split; [done|]. split; [by left|]. intros _. rewrite N.mul_1_r in Hv. destruct pre as [|x pre].
    - exists []. split; [|done]. clear -Hv Hold. simpl in Hv. induction Hold as [|d old Hd Hold IH]; [done|].
      rewrite volume_cons in Hv. assert (0 < volume old) by (by apply volume_positive).
      assert (d = 1) as -> by nia. rewrite nonunit_cons_1. apply IH. lia.
    - destruct Hcur as (d & rest & -> & _ & Hlt); [done|]. inversion_clear Hold as [|? ? Hd Hrest].
      assert (0 < volume rest) by (by apply volume_positive). rewrite (volume_cons d rest) in Hv. nia. }
  assert (0 < volume new) as Hvn by (by apply volume_positive).
  assert (0 < volume pre) as Hvp by (by apply volume_positive). rewrite volume_cons in Hv.
  cbn [split_analysis]. rewrite umul_ok by nia. cbn [res_bind].
  destruct (N.eqb_spec dim 1) as [->|Hne].
  { rewrite N.mul_1_r, nonunit_cons_1. apply IH; [done|done|lia|done|done]. }
  rewrite nonunit_cons by done.
  assert (pre ≠ [] → ∃ d rest, drop_units old = d :: rest ∧ volume pre < d) as Hcur'.
  { intros Hp. destruct (Hcur Hp) as (d & rest & -> & Hd & Hlt). exists d, rest. simpl.
    by rewrite (proj2 (N.eqb_neq _ _)). }
  assert (volume (drop_units old) = volume old) as Hvd
    by (by rewrite <-(volume_nonunit (drop_units old)), nonunit_drop, volume_nonunit).
  pose proof (positive_drop _ Hold) as Hold'. rewrite <-(nonunit_drop old).
  destruct (drop_units old) as [|d rest] eqn:Hdr.
  { exists HighlyPermuted. split; [done|]. split; [by right|done]. }
  pose proof (drop_units_head _ _ _ Hdr) as Hd1. inversion_clear Hold' as [|? ? Hd0 Hrest].
  rewrite volume_cons in Hvd. assert (0 < volume rest) as Hvr by (by apply volume_positive).
  assert (volume (pre ++ [dim]) = volume pre * dim) as Hpd by (rewrite volume_app; simpl; lia).
  destruct (N.eqb_spec (volume pre * dim) d) as [Heq|Hneq].
  - assert (volume [] * volume new = volume rest) as Hvr'.
    { change (volume []) with 1. rewrite N.mul_1_l. apply (N.mul_cancel_l _ _ d); [lia|].
      rewrite Hvd, <-Hv, <-Heq. lia. }
    destruct (IH [] rest) as (a & Ha & Hcase & Hsplit); [done|constructor|done|nia|done|].
    exists a. split; [done|]. split; [done|]. intros (groups & Hg1 & Hg2 & Hg3)%Hsplit.
    exists ((pre ++ [dim]) :: groups). simpl. rewrite <-Hg2, <-app_assoc, nonunit_cons by done.
    split; [rewrite Hg1; f_equal; change (foldr N.mul 1 (pre ++ [dim])) with (volume (pre ++ [dim])); lia|].
    split; [done|]. constructor; [by destruct pre|done].
  - destruct (N.ltb_spec d (volume pre * dim)).
    { exists HighlyPermuted. split; [done|]. split; [by right|done]. }
    rewrite <-Hpd. destruct (IH (pre ++ [dim]) (d :: rest)) as (a & Ha & Hcase & Hsplit).
    + by constructor.
    + apply Forall_app. split; [done|]. by apply Forall_singleton.
    + rewrite volume_cons, Hpd. nia.
    + rewrite volume_cons. lia.
    + intros _. exists d, rest. split; [done|]. split; [done|]. lia.
    + exists a. split; [done|]. split; [done|]. intros (groups & Hg1 & Hg2 & Hg3)%Hsplit.
      exists groups. by rewrite <-Hg2, <-app_assoc.
Qed.

(** A dimension of size one does not move the address. *)
Lemma address_unit shape strides t n : address (1 :: shape) (t :: strides) n = address shape strides n.
Proof. simpl. by rewrite N.mod_1_r. Qed.
Lemma nonunit_all l : Forall (λ d, d ≠ 1) (nonunit l).
Proof. apply Forall_forall. intros d Hd. by apply list_elem_of_filter in Hd as [? _]. Qed.
Lemma nonunit_volume_1 l : Forall (λ d, d ≠ 1) l → volume l = 1 → l = [].
Proof. destruct 1 as [|d l Hd _]; [done|]. by intros [-> _]%N.eq_mul_1. Qed.
Lemma nonunit_snoc l d : d ≠ 1 → nonunit (l ++ [d]) = nonunit l ++ [d].
Proof. intros. by rewrite nonunit_app, nonunit_cons. Qed.
Lemma nonunit_snoc_1 l : nonunit (l ++ [1]) = nonunit l.
Proof. by rewrite nonunit_app, nonunit_cons_1, app_nil_r. Qed.

Section strides_of.
Context (shape strides : list N).
Context (Hlen : length strides = length shape).

(** What the loop finds when it moves on to the first [k] old dimensions. *)
Definition next_dim (k i : nat) : Prop :=
  (nonunit (take k shape) = [] ∧ volume shape = volume (drop k shape) ∧
    ∀ n, address shape strides n = address (drop k shape) (drop k strides) n) ∨
  (∃ d, shape !! i = Some d ∧ d ≠ 1 ∧ nonunit (take k shape) = nonunit (take i shape) ++ [d] ∧
    volume (drop (S i) shape) = volume (drop k shape) ∧
    ∀ n, address (drop (S i) shape) (drop (S i) strides) n = address (drop k shape) (drop k strides) n).

Lemma next_dim_here k d :
  shape !! k = Some d → d ≠ 1 → next_dim (S k) k.
Proof.
  intros Hd Hne. right. exists d. split; [done|]. split; [done|].
  by rewrite (take_S_r _ _ _ Hd), nonunit_snoc.
Qed.
Lemma next_dim_unit k i u :
  shape !! k = Some 1 → strides !! k = Some u → next_dim k i → next_dim (S k) i.
Proof.
  intros Hd Hu. unfold next_dim. rewrite (take_S_r _ _ _ Hd), nonunit_snoc_1, (drop_S _ _ _ Hd), (drop_S _ _ _ Hu).
  rewrite volume_cons, N.mul_1_l.
  intros [(H1 & H2 & H3)|(d & H0 & H1 & H2 & H3 & H4)]; [left|right; exists d];
    repeat split; try done; intros n; rewrite ?H3, ?H4; apply address_unit.
Qed.
Lemma skip_units_ok k :
  (k ≤ length shape)%nat → shape ≠ [] →
  ∃ i t, skip_units (E:=E) shape (k - 1) = Ok i ∧ strides !! i = Some t ∧ next_dim k i.
Proof.
  intros Hk Hne. induction k as [|k IH].
  { destruct (lookup_lt_is_Some_2 strides 0) as [t Ht]; [destruct shape; simpl in *; [done|lia]|].
    exists 0%nat, t. split; [done|]. split; [done|]. by left. }
  destruct (lookup_lt_is_Some_2 shape k) as [d Hd]; [lia|].
  destruct (lookup_lt_is_Some_2 strides k) as [u Hu]; [lia|].
  replace (S k - 1)%nat with k by lia. destruct (decide (d = 1)) as [->|Hd1].
  - destruct IH as (i & t & Hi & Ht & Hnext); [lia|]. exists i, t. split; [|split; [done|]].
    + destruct k as [|k]; [done|]. replace (S k - 1)%nat with k in Hi by lia. cbn [skip_units].
      rewrite (proj2 (at_Some _ _ 1)) by (by rewrite Nat2N.id). done.
    + by apply next_dim_unit with u.
  - exists k, u. split; [|split; [done|by apply next_dim_here with d]].
    destruct k as [|k]; [done|]. cbn [skip_units].
    rewrite (proj2 (at_Some _ _ d)) by (by rewrite Nat2N.id). cbn [res_bind].
    by rewrite (proj2 (N.eqb_neq _ _)).
Qed.

(** The state of [split_strides] after the new dimensions [new], with [pre] to go:
    in the middle of old dimension [oi], of which [q] elements are addressed, or
    past the first old dimension. *)
Definition splitting (pre new out : list N) (oi : nat) (cur q d t : N) (Gs : list (list N)) (g : list N) : Prop :=
  shape !! oi = Some d ∧ strides !! oi = Some t ∧ nonunit (take oi shape) = volume <$> Gs ∧
  Forall (λ g, g ≠ []) Gs ∧ nonunit pre = concat Gs ++ g ∧ g ≠ [] ∧ volume g * q = d ∧ cur = t * q ∧
  volume new = volume (drop (S oi) shape) * q ∧
  ∀ n, address new out n = address (drop (S oi) shape) (drop (S oi) strides) n +
                           (n / volume (drop (S oi) shape)) mod q * t.
Definition split_done (pre new out : list N) (q : N) : Prop :=
  nonunit pre = [] ∧ q = 1 ∧ volume new = volume shape ∧ ∀ n, address new out n = address shape strides n.
Definition split_inv (pre new : list N) (st : list N * nat * N * N) : Prop :=
  let '(out, oi, cur, q) := st in
  length out = length new ∧
  (split_done pre new out q ∨ ∃ d t Gs g, splitting pre new out oi cur q d t Gs g).

Lemma split_next pre new out k i t Gs :
  next_dim k i → strides !! i = Some t → nonunit (take k shape) = volume <$> Gs →
  Forall (λ g, g ≠ []) Gs → nonunit pre = concat Gs → volume new = volume (drop k shape) →
  (∀ n, address new out n = address (drop k shape) (drop k strides) n) → length out = length new →
  split_inv pre new (out, i, t, 1).
Proof.
  intros Hnext Ht Hgs Hne Hpre Hvol Haddr Hl. split; [done|].
  destruct Hnext as [(H1 & H2 & H3)|(d & H0 & H1 & H2 & H3 & H4)].
  - left. rewrite H1 in Hgs. symmetry in Hgs. apply fmap_nil_inv in Hgs as ->.
    split; [done|]. split; [done|]. split; [lia|]. intros n. by rewrite Haddr, H3.
  - right. rewrite H2 in Hgs. symmetry in Hgs.
    apply fmap_app_inv in Hgs as (Gs' & gs & Hgs' & Hd & ->).
    symmetry in Hd. apply fmap_cons_inv in Hd as (g & gs' & Hg & Hnil & ->).
    symmetry in Hnil. apply fmap_nil_inv in Hnil as ->.
    apply Forall_app in Hne as [Hne1 Hne2]. apply (proj1 (Forall_singleton _ _)) in Hne2.
    exists d, t, Gs', g. split; [done|]. split; [done|]. split; [done|]. split; [done|].
    split; [rewrite Hpre, concat_app; simpl; by rewrite app_nil_r|]. split; [done|].
    split; [lia|]. split; [lia|]. split; [lia|]. intros n. by rewrite Haddr, N.mod_1_r, H4, N.add_0_r.
Qed.

Context (Hpos : positive shape).
Context (Hvol : volume shape ≤ usize_max).
Context (Hfit : Forall2 (λ d s, d * s ≤ usize_max) shape strides).

Lemma splitting_dim_1 pre new out oi cur q :
  split_inv (pre ++ [1]) new (out, oi, cur, q) → split_inv pre (1 :: new) (cur :: out, oi, cur, q).
Proof.
  intros [Hl Hcase]. split; [simpl; lia|]. unfold split_done, splitting in *.
  rewrite nonunit_snoc_1 in Hcase. rewrite volume_cons, N.mul_1_l.
  destruct Hcase as [(H1 & H2 & H3 & H4)|(d & t & Gs & g & H1 & H2 & H3 & H4 & H5 & H6 & H7 & H8 & H9 & H10)];
    [left|right; exists d, t, Gs, g]; repeat split; try done; intros n; by rewrite address_unit.
Qed.
(** One more new dimension extends the run of elements within an old dimension. *)
Lemma split_address new out oi q t dim n :
  volume new = volume (drop (S oi) shape) * q →
  (∀ n, address new out n = address (drop (S oi) shape) (drop (S oi) strides) n +
                            (n / volume (drop (S oi) shape)) mod q * t) →
  address (dim :: new) (t * q :: out) n =
    address (drop (S oi) shape) (drop (S oi) strides) n +
    (n / volume (drop (S oi) shape)) mod (q * dim) * t.
Proof.
  intros Hv Ha. cbn [address]. rewrite Ha, Hv, <-N.Div0.div_div, N.Div0.mod_mul_r. lia.
Qed.
Lemma splitting_bound pre new out oi cur q d t Gs g :
  splitting pre new out oi cur q d t Gs g →
  0 < volume g ∧ 0 < q ∧ d ≤ usize_max ∧ d * t ≤ usize_max.
Proof.
  intros (Hd & Ht & _ & _ & _ & _ & Hg & _).
  pose proof (proj1 (Forall_lookup _ _) Hpos _ _ Hd) as Hd0. simpl in Hd0.
  pose proof (volume_ge _ _ Hpos (list_elem_of_lookup_2 _ _ _ Hd)) as Hdv.
  pose proof (Forall2_lookup_lr _ _ _ _ _ _ Hfit Hd Ht) as Hdt. simpl in Hdt.
  split; [nia|]. split; [nia|]. split; [lia|done].
Qed.
Lemma split_inv_bound pre new out oi cur q : split_inv pre new (out, oi, cur, q) → q ≤ usize_max.
Proof.
  intros [_ [(_ & -> & _)|(d & t & Gs & g & Hs)]]; [done|].
  destruct (splitting_bound _ _ _ _ _ _ _ _ _ _ Hs) as (H1 & H2 & H3 & H4).
  destruct Hs as (_ & _ & _ & _ & _ & _ & Hg & _). nia.
Qed.

(** One step of the loop at a dimension that is not one. *)
Lemma split_step pre dim new out oi cur q d t Gs g :
  splitting (pre ++ [dim]) new out oi cur q d t Gs g → dim ≠ 1 →
  ∃ g', nonunit pre = concat Gs ++ g' ∧ volume g' * (q * dim) = d ∧ (q * dim = d ↔ g' = []).
Proof.
  intros Hs Hd1. pose proof (splitting_bound _ _ _ _ _ _ _ _ _ _ Hs) as (Hg0 & Hq0 & _ & _).
  destruct Hs as (_ & _ & _ & _ & Hpre & Hg & Hgq & _). rewrite nonunit_snoc in Hpre by done.
  destruct g as [|x g' _] using rev_ind; [done|]. rewrite app_assoc in Hpre.
  apply app_inj_tail in Hpre as [Hpre <-]. exists g'. rewrite volume_app in Hgq, Hg0.
  change (volume [dim]) with (dim * 1) in *. split; [done|]. split; [nia|]. split; [|intros ->].
  - intros Heq. apply nonunit_volume_1; [|nia].
    pose proof (nonunit_all pre) as Hall. rewrite Hpre in Hall. by apply Forall_app in Hall as [_ Hall].
  - change (volume []) with 1 in Hgq. lia.
Qed.
Lemma split_from_ok new pre Gs :
  positive new → nonunit shape = volume <$> Gs → nonunit (pre ++ new) = concat Gs →
  Forall (λ g, g ≠ []) Gs → shape ≠ [] →
  ∃ st, split_from (E:=E) shape strides new = Ok st ∧ split_inv pre new st.
Proof.
  intros Hnew. revert pre. induction Hnew as [|dim new Hdim Hnew IH]; intros pre Hgs Hpre Hne Hsh.
  { rewrite app_nil_r in Hpre. cbn [split_from].
    destruct (skip_units_ok (length shape)) as (i & t & Hi & Ht & Hnext); [lia|done|].
    rewrite usub_ok by (destruct shape; [done|unfold len; simpl; lia]). cbn [res_bind].
    replace (N.to_nat (len shape - 1)) with (length shape - 1)%nat by (unfold len; lia).
    rewrite Hi. cbn [res_bind]. rewrite (proj2 (at_Some _ _ t)) by (by rewrite Nat2N.id). cbn [res_bind].
    eexists. split; [done|]. apply split_next with (length shape) Gs; try done.
    - by rewrite take_ge.
    - by rewrite drop_ge.
    - intros n. by rewrite !drop_ge by lia. }
  destruct (IH (pre ++ [dim])) as ([[[out oi] cur] q] & Hst & Hinv); [done|by rewrite <-app_assoc|done|done|].
  cbn [split_from]. rewrite Hst. cbn [res_bind]. destruct (N.eqb_spec dim 1) as [->|Hd1].
  { pose proof (split_inv_bound _ _ _ _ _ _ Hinv). rewrite umul_ok by lia. cbn [res_bind]. rewrite N.mul_1_r.
    eexists. split; [done|]. by apply splitting_dim_1. }
  destruct Hinv as [Hl [[Hnil _]|(d & t & Gs' & g & Hs)]].
  { rewrite nonunit_snoc in Hnil by done. by apply app_nil in Hnil as [_ ?]. }
  destruct (split_step _ _ _ _ _ _ _ _ _ _ _ Hs Hd1) as (g' & Hpre' & Hg' & Hdone).
  pose proof (splitting_bound _ _ _ _ _ _ _ _ _ _ Hs) as (Hg0 & Hq0 & Hdm & Hdt).
  destruct Hs as (Hd & Ht & Htake & Hne' & _ & _ & Hgq & -> & Hvn & Haddr).
  assert (0 < volume g') as Hg'0 by nia.
  rewrite umul_ok by nia. cbn [res_bind]. rewrite (proj2 (at_Some _ _ d)) by (by rewrite Nat2N.id). cbn [res_bind].
  pose proof (λ n, split_address _ _ _ _ _ dim n Hvn Haddr) as Haddr'.
  destruct (N.eqb_spec (q * dim) d) as [Heq|Hneq].
  - destruct (skip_units_ok oi) as (i & t' & Hi & Ht' & Hnext); [apply lookup_lt_Some in Hd; lia|done|].
    rewrite Hi. cbn [res_bind]. rewrite (proj2 (at_Some _ _ t')) by (by rewrite Nat2N.id). cbn [res_bind].
    eexists. split; [done|]. rewrite (proj1 Hdone Heq), app_nil_r in Hpre'.
    apply split_next with oi Gs'; try done; [| |simpl; lia].
    + rewrite (drop_S _ _ _ Hd), !volume_cons. nia.
    + intros n. rewrite Haddr', (drop_S _ _ _ Hd), (drop_S _ _ _ Ht), Heq. cbn [address]. lia.
  - rewrite umul_ok by nia. cbn [res_bind]. eexists. split; [done|]. split; [simpl; lia|]. right.
    exists d, t, Gs', g'. do 5 (split; [done|]). split; [by rewrite <-Hdone|].
    split; [done|]. split; [lia|]. split; [rewrite volume_cons, Hvn; lia|done].
Qed.
Lemma split_strides_ok new :
  positive new → shape ≠ [] → grouped shape new → 
  ∃ st, split_strides (E:=E) shape strides new = Ok st ∧ length st = length new ∧
    ∀ n, address new st n = address shape strides n.
Proof.
  intros Hnew Hsh (Gs & Hgs & Hcat & Hne).
  destruct (split_from_ok new [] Gs) as ([[[out oi] cur] q] & Hst & Hl & Hcase); [done..|].
  exists out. unfold split_strides. rewrite Hst. split; [done|]. split; [done|].
  destruct Hcase as [(_ & _ & _ & Ha)|(d & t & Gs' & g & _ & _ & _ & _ & Hpre & Hg & _)]; [done|].
  symmetry in Hpre. by apply app_nil in Hpre as [_ ?].
Qed.
End strides_of.
End split.

(** ** Reshape by strides *)

Section action.
Context {P : Profile} {E : Type}.

Lemma zip_eq_true a b : length a = length b → zip_eq a b = true ↔ a = b.
Proof.
  revert b. induction a as [|x a IH]; intros [|y b] Hl; simpl in *; try done.
  destruct (N.eqb_spec x y) as [->|Hne]; simpl.
  - rewrite IH by lia. split; [by intros ->|by intros [= ->]].
  - split; [done|by intros [= -> _]].
Qed.
Lemma is_contiguous_ok shape strides :
  positive shape → volume shape ≤ usize_max → length strides = length shape →
  ∃ b, is_contiguous (E:=E) shape strides = Ok b ∧ (b = true ↔ strides = row_major shape).
Proof.
  intros Hp Hv Hl. destruct shape as [|d shape].
  { exists true. split; [done|]. by destruct strides. }
  unfold is_contiguous, contiguous_strides. rewrite contiguous_from_ok by done. cbn [res_bind fst].
  eexists. split; [done|]. rewrite zip_eq_true by (by rewrite length_row_major). done.
Qed.
Lemma set_from_ok a b l :
  length b = length l → set_from (E:=E) (length a) l (a ++ b) = Ok (a ++ l).
Proof.
  revert a b. induction l as [|s l IH]; intros a [|x b] Hl; try done.
  cbn [set_from]. rewrite decide_True by (rewrite length_app; simpl; lia).
  rewrite insert_app_r_alt, Nat.sub_diag by lia. cbn [insert list_insert].
  change (s :: b) with ([s] ++ b). rewrite app_assoc.
  replace (length a + 1)%nat with (length (a ++ [s])) by (rewrite length_app; simpl; lia).
  simpl in Hl. rewrite IH by lia. by rewrite <-app_assoc.
Qed.
Lemma broadcast_strides_ok k num (shape strides : list N) :
  length strides = length shape →
  broadcast_strides (E:=E) k (len shape) num strides = Ok (replicate (N.to_nat k) num ++ strides).
Proof.
  intros Hl. unfold broadcast_strides, len.
  replace (N.to_nat (N.of_nat (length shape) + k)) with (N.to_nat k + length shape)%nat by lia.
  rewrite replicate_add. rewrite <-(length_replicate (N.to_nat k) num) at 1.
  by rewrite set_from_ok by (by rewrite length_replicate).
Qed.
Lemma address_units k num shape strides n :
  address (replicate k 1 ++ shape) (replicate k num ++ strides) n = address shape strides n.
Proof. induction k as [|k IH]; [done|]. cbn [replicate app]. by rewrite address_unit. Qed.
Lemma all_units l : forallb (λ d, d =? 1) l = true → l = replicate (length l) 1.
Proof.
  induction l as [|d l IH]; [done|]. simpl. intros [->%N.eqb_eq Hl]%andb_true_iff. by rewrite <-IH.
Qed.

(** What an action on a reshape from [shape], [strides] to [shape_new] must satisfy. *)
Definition sound_action (shape strides shape_new : list N) (a : ReshapeAction) : Prop :=
  match a with
  | UpdateStrides st => length st = length shape_new ∧
      ∀ n, n < volume shape → address shape_new st n = address shape strides n
  | Recompute => strides ≠ row_major shape ∧ shape ≠ shape_new
  | ActionNoChange => shape_new = shape
  end.

(** C38. Reshaping without copying is sound: for shapes of the same positive number of
    elements, [reshape_action] returns without panic; strides it proposes have
    one entry per new dimension and address, at every row-major position, the
    element the old shape and strides address there; no change is answered only
    for the same shape, and recomputing the buffer only for a tensor that is not
    contiguous and changes shape. *)
Theorem reshape_action_sound shape strides shape_new :
  length strides = length shape → positive shape → positive shape_new →
  volume shape_new = volume shape → volume shape ≤ usize_max →
  Forall2 (λ d s, d * s ≤ usize_max) shape strides →
  ∃ a, reshape_action (E:=E) shape strides shape_new = Ok a ∧ sound_action shape strides shape_new a.
Proof.
  intros Hl Hp Hp' Hv Hmax Hfit. unfold reshape_action, reshape_analysis.
  destruct (is_contiguous_ok _ _ Hp Hmax Hl) as (c & -> & Hc). cbn [res_bind]. destruct c.
  { cbn [res_bind action]. unfold contiguous_strides. rewrite contiguous_from_ok by lia || done.
    cbn [res_bind fst]. eexists. split; [done|]. split; [apply length_row_major|]. intros n Hn.
    by rewrite (proj1 Hc eq_refl), !address_row_major, Hv by done. }
  assert (strides ≠ row_major shape) as Hnc by (intros ?%Hc; done).
  destruct (N.ltb_spec (len shape_new) (len shape)) as [Hr|Hr].
  { exists Recompute. split; [done|]. split; [done|]. intros ->. lia. }
  destruct (N.ltb_spec 0 (len shape_new - len shape)) as [Hb|Hb].
  2:{ case_bool_decide as Hs; cbn [res_bind action]; eexists; (split; [done|]); done. }
  assert (shape ≠ shape_new) as Hne by (intros ->; lia).
  destruct (bool_decide _ && _) eqn:Hbr.
  { apply andb_true_iff in Hbr as [Hsuf%bool_decide_eq_true Hones%all_units]. cbn [res_bind action].
    rewrite usub_ok by lia. cbn [res_bind]. unfold product. rewrite product_from_ok by (done || lia). cbn [res_bind].
    rewrite broadcast_strides_ok by done. cbn [res_bind]. eexists. split; [done|].
    set (k := N.to_nat (len shape_new - len shape)) in *.
    assert (shape_new = replicate k 1 ++ shape) as Hnew.
    { rewrite <-(take_drop k shape_new), <-Hsuf, Hones. do 2 f_equal. rewrite length_take. unfold len in *. lia. }
    rewrite Hnew. split; [by rewrite !length_app, !length_replicate, Hl|]. intros n _. apply address_units. }
  destruct (split_analysis_ok (E:=E) shape_new [] shape) as (a & Ha & Hcase & Hsplit); try done.
  { constructor. }
  { rewrite <-Hv. apply N.mul_1_l. }
  change (volume []) with 1 in Ha. rewrite Ha. cbn [res_bind]. destruct Hcase as [-> | ->].
  2:{ exists Recompute. done. }
  destruct (split_strides_ok (E:=E) shape strides Hl Hp Hmax Hfit shape_new) as (st & Hst & Hls & Haddr); [done| |by apply Hsplit|].
  { intros ->. destruct strides; done. }
  cbn [action]. rewrite Hst. exists (UpdateStrides st). split; [done|]. split; [done|]. intros n _. apply Haddr.
Qed.
End action.

(** ** Permuting *)

Definition pick (l : list N) (axes : list N) : list N := omap (λ a, l !! N.to_nat a) axes.
Lemma pick_range l : pick l (range (len l)) = l.
Proof.
  unfold pick, range, len. rewrite Nat2N.id. transitivity (take (length l) l); [|by rewrite take_ge].
  assert (∀ n, (n ≤ length l)%nat →
    omap (λ a, l !! N.to_nat a) (N.of_nat <$> seq 0 n) = take n l) as Hn; [|by apply Hn].
  induction n as [|n IH]; [done|]. intros Hn. rewrite seq_S, fmap_app, omap_app, IH by lia.
  destruct (lookup_lt_is_Some_2 l n) as [x Hx]; [lia|]. rewrite (take_S_r _ _ _ Hx). f_equal.
  simpl. by rewrite Nat2N.id, Hx.
Qed.
Lemma pick_perm l axes : axes ≡ₚ range (len l) → pick l axes ≡ₚ l.
Proof. intros Hp. rewrite <-(pick_range l) at 2. unfold pick. by rewrite Hp. Qed.
Lemma dot_sum coords strides : dot coords strides = foldr N.add 0 (zip_with N.mul coords strides).
Proof. revert strides. induction coords as [|c coords IH]; intros [|s strides]; simpl; auto. by rewrite IH. Qed.
Lemma sum_perm (l k : list N) : l ≡ₚ k → foldr N.add 0 l = foldr N.add 0 k.
Proof. induction 1; simpl; lia. Qed.
Lemma pick_zip (l k axes : list N) (f : N → N → N) :
  length l = length k → zip_with f (pick l axes) (pick k axes) = pick (zip_with f l k) axes.
Proof.
  intros Hl. unfold pick. induction axes as [|a axes IH]; [done|]. cbn [omap list_omap].
  rewrite lookup_zip_with. destruct (l !! N.to_nat a) as [x|] eqn:Hx, (k !! N.to_nat a) as [y|] eqn:Hy; simpl.
  - f_equal. apply IH.
  - apply lookup_lt_Some in Hx. apply lookup_ge_None in Hy. lia.
  - apply lookup_lt_Some in Hy. apply lookup_ge_None in Hx. lia.
  - apply IH.
Qed.
Lemma dot_pick coords strides axes :
  length coords = length strides → axes ≡ₚ range (len strides) →
  dot (pick coords axes) (pick strides axes) = dot coords strides.
Proof.
  intros Hl Hp. rewrite !dot_sum, pick_zip by done. apply sum_perm, pick_perm.
  rewrite Hp. unfold len. rewrite length_zip_with, Hl. by rewrite Nat.min_id.
Qed.

Lemma pick_lookup l axes k a :
  Forall (λ a, a < len l) axes → axes !! k = Some a → pick l axes !! k = l !! N.to_nat a.
Proof.
  intros Hall. revert k. induction Hall as [|b axes Hb Hall IH]; intros [|k] Hk; try done;
    apply lookup_lt_len in Hb as [x Hx]; unfold pick; cbn [omap list_omap]; rewrite Hx.
  - by injection Hk as <-.
  - by apply IH.
Qed.
Lemma pick_Forall2 (R : N → N → Prop) l k axes :
  Forall2 R l k → Forall2 R (pick l axes) (pick k axes).
Proof.
  intros HR. unfold pick. induction axes as [|a axes IH]; [constructor|]. cbn [omap list_omap].
  pose proof (proj1 (Forall2_lookup _ _ _) HR (N.to_nat a)) as Ha. inversion Ha as [x y Hxy|]; [by constructor|done].
Qed.
Lemma axes_bound axes n : axes ≡ₚ range n → Forall (λ a, a < n) axes.
Proof. intros Hp. rewrite Hp. apply Forall_forall. intros a. apply elem_of_range. Qed.

Section permute.
Context {P : Profile}.
Lemma map_res_pick {E} axes l :
  Forall (λ a, a < len l) axes → map_res (at_ (E:=E) l) axes = Ok (pick l axes).
Proof.
  induction 1 as [|a axes Ha Hall IH]; [done|]. apply lookup_lt_len in Ha as [x Hx].
  cbn [map_res pick omap list_omap]. rewrite (proj2 (at_Some _ _ x)) by done. cbn [res_bind].
  rewrite IH. cbn [res_bind]. by rewrite Hx.
Qed.
Lemma permute_ok axes l : axes ≡ₚ range (len l) → permute axes l = Ok (pick l axes).
Proof.
  intros Hp. pose proof (axes_bound _ _ Hp) as Hall.
  unfold permute. replace (len axes) with (len l) by (rewrite <-(len_range (len l)); unfold len at 1 3; by rewrite Hp).
  rewrite N.eqb_refl. cbn [negb]. unfold debug_assert_, assert_.
  replace (forallb _ axes) with true.
  - destruct debug_assertions; cbn [res_bind]; by apply map_res_pick.
  - symmetry. apply forallb_forall. intros a Ha. apply N.ltb_lt.
    by apply (proj1 (Forall_forall _ _) Hall), list_elem_of_In.
Qed.

(** Permuting metadata relabels coordinates: for axes that are a permutation of
    the dimensions it succeeds, keeps the number of elements, and maps every valid
    coordinate tuple to a valid permuted one that addresses the same element. *)
Theorem permute_relabels m axes :
  length (strides m) = length (shape m) → axes ≡ₚ range (len (shape m)) →
  ∃ m', metadata_permute axes m = (Ok tt, m') ∧
    length (strides m') = length (shape m') ∧
    volume (shape m') = volume (shape m) ∧
    (∀ k a, axes !! k = Some a → shape m' !! k = shape m !! N.to_nat a ∧ strides m' !! k = strides m !! N.to_nat a) ∧
    ∀ coords, Forall2 N.lt coords (shape m) →
      Forall2 N.lt (pick coords axes) (shape m') ∧
      dot (pick coords axes) (strides m') = dot coords (strides m).
Proof.
  destruct m as [sh st]. cbn [shape strides]. intros Hl Hp.
  assert (axes ≡ₚ range (len st)) as Hp' by (unfold len in *; by rewrite Hl).
  unfold metadata_permute, bind, gets, lift, modify. cbn [id shape strides]. rewrite !permute_ok by done.
  exists (mkMetadata (pick sh axes) (pick st axes)). split; [done|]. cbn [shape strides].
  split; [by rewrite !pick_perm|].
  split; [by apply volume_perm, pick_perm|]. split.
  - intros k a Hk. split; apply pick_lookup; done || by apply axes_bound.
  - intros coords Hc. split; [by apply pick_Forall2|]. apply dot_pick; [|done].
    rewrite Hl. by apply Forall2_length in Hc.
Qed.
End permute.

(** ** Checking strides *)

Section checks.
Context {P : Profile}.

(** The chain of products above the stride [p]. *)
Definition scaled (p : N) (shape : list N) : list N := N.mul p <$> row_major shape.
Lemma chained_ok {E} sh st rest rest' p :
  length st = length sh → last st = Some p → Forall2 (λ d s, d * s ≤ usize_max) sh st →
  ∃ b, chained (E':=E) (length sh - 1) (sh ++ rest) (st ++ rest') = Ok b ∧ (b = true ↔ st = scaled p sh).
Proof.
  intros Hl Hlast Hfit. revert Hl Hlast. induction Hfit as [|d s sh st Hds Hfit IH]; [done|]. intros Hl Hlast.
  destruct Hfit as [|d' s' sh st Hds' Hfit].
  { exists true. split; [done|]. injection Hlast as ->. split; [|done]. intros _. unfold scaled. simpl. by rewrite N.mul_1_r. }
  destruct IH as (b & Hb & Hiff); [simpl in *; lia|done|].
  change (length (d :: d' :: sh) - 1)%nat with (S (length sh)). simpl in Hb. rewrite Nat.sub_0_r in Hb.
  cbn [chained app]. rewrite umul_ok by done. cbn [res_bind]. destruct (N.eqb_spec s (d' * s')) as [->|Hne].
  - exists b. split; [done|]. rewrite Hiff. unfold scaled. cbn [row_major]. rewrite !fmap_cons, volume_cons.
    split; [|by intros [= _ -> ->]]. intros [= -> ->]. f_equal. lia.
  - exists false. split; [done|]. split; [done|]. unfold scaled. cbn [row_major].
    rewrite !fmap_cons, volume_cons. intros [= -> -> _]. destruct Hne. lia.
Qed.
Lemma last_at {E} (l : list N) p : last l = Some p → at_ (E:=E) l (len l - 1) = Ok p.
Proof. rewrite last_lookup. intros Hp. apply at_Some. rewrite <-Hp. f_equal. unfold len. lia. Qed.
Lemma at_app {E A} (l k : list A) i : i < len l → at_ (E:=E) (l ++ k) i = at_ l i.
Proof. intros Hi. unfold at_. rewrite lookup_app_l; [done|]. unfold len in Hi. lia. Qed.
Lemma scaled_1 shape : scaled 1 shape = row_major shape.
Proof. unfold scaled. rewrite <-(list_fmap_id (row_major shape)) at 2. apply list_fmap_ext. intros. simpl. lia. Qed.
Lemma last_row_major shape d : last (row_major (shape ++ [d])) = Some 1.
Proof.
  induction shape as [|x shape IH]; [done|]. cbn [app row_major]. rewrite last_cons, IH. done.
Qed.
Lemma last_scaled p shape d : last (scaled p (shape ++ [d])) = Some p.
Proof. unfold scaled. rewrite fmap_last, last_row_major. simpl. by rewrite N.mul_1_r. Qed.
Lemma row_major_snoc shape d : row_major (shape ++ [d]) = scaled d shape ++ [1].
Proof.
  unfold scaled. induction shape as [|x shape IH]; [done|]. cbn [app row_major].
  rewrite IH, fmap_cons, volume_app, volume_cons. cbn [app]. f_equal. change (volume []) with 1. lia.
Qed.
Lemma scaled_pos p shape : 0 < p → positive shape → forallb (λ s, negb (s =? 0)) (scaled p shape) = true.
Proof.
  intros Hp. induction 1 as [|d shape Hd Hall IH]; [done|]. unfold scaled in *. cbn [row_major].
  rewrite fmap_cons. cbn [forallb]. rewrite IH. assert (0 < volume shape) by (by apply volume_positive).
  by rewrite (proj2 (N.eqb_neq _ _)) by nia.
Qed.

Lemma contiguous_check_ok {E} shape strides :
  shape ≠ [] → length strides = length shape → Forall2 (λ d s, d * s ≤ usize_max) shape strides →
  ∃ c, has_contiguous_row_major_strides (E:=E) shape strides = Ok c ∧ (c = true ↔ strides = row_major shape).
Proof.
  intros Hne Hl Hfit.
  destruct (last strides) as [p|] eqn:Hlast; [|apply last_None in Hlast as ->; by destruct shape].
  assert (len strides = len shape) as Hlen by (unfold len; lia).
  assert (0 < len shape) as Hpos by (destruct shape; [done|unfold len; simpl; lia]).
  assert (strides = row_major shape → p = 1) as Hp1.
  { intros ->. destruct shape as [|d sh _] using rev_ind; [done|]. rewrite last_row_major in Hlast. congruence. }
  unfold has_contiguous_row_major_strides, try_check_contiguous_row_major_strides, try_check_matching_ranks.
  rewrite Hlen, N.eqb_refl. cbn [negb res_bind]. rewrite (proj2 (N.eqb_neq _ _)) by lia.
  pose proof (last_at (E:=StrideError) _ _ Hlast) as Hat. rewrite Hlen in Hat. rewrite Hat. cbn [res_bind].
  destruct (N.eqb_spec p 1) as [->|Hp]; cbn [andb]; [|exists false; cbn; split; [done|]; split; [done|tauto]].
  destruct (chained_ok (E:=StrideError) _ _ [] [] _ Hl Hlast Hfit) as (b & Hb & Hiff). rewrite !app_nil_r in Hb.
  rewrite scaled_1 in Hiff. destruct (N.ltb_spec 1 (len shape)) as [H1|H1].
  - replace (N.to_nat (len shape - 1)) with (length shape - 1)%nat by (unfold len; lia). rewrite Hb.
    cbn [res_bind]. exists b. by destruct b.
  - replace (length shape - 1)%nat with 0%nat in Hb by (unfold len in *; lia). cbn in Hb. injection Hb as <-.
    exists true. done.
Qed.
Lemma pitched_check_ok {E} sh row st l :
  positive (sh ++ [row]) → length st = length sh →
  Forall2 (λ d s, d * s ≤ usize_max) sh st →
  ∃ c, has_pitched_row_major_strides (E:=E) (sh ++ [row]) (st ++ [l]) = Ok c ∧
    (c = true ↔ ∃ pitch, row ≤ pitch ∧ st ++ [l] = scaled pitch sh ++ [1]).
Proof.
  intros [Hsh Hrow]%Forall_app Hl Hfit. inversion_clear Hrow as [|? ? Hrow0 _].
  unfold has_pitched_row_major_strides, try_check_pitched_row_major_strides, try_check_matching_ranks.
  rewrite !len_app. change (len [row]) with 1. change (len [l]) with 1.
  assert (len st = len sh) as Hlen by (unfold len; lia). rewrite Hlen, N.eqb_refl. cbn [negb res_bind].
  rewrite (proj2 (N.eqb_neq _ _)) by lia. rewrite N.add_sub.
  rewrite (proj2 (at_Some _ _ l)) by (rewrite <-Hlen; unfold len; by rewrite Nat2N.id, list_lookup_middle).
  cbn [res_bind]. destruct ((l =? 1) && _) eqn:Hvalid.
  2:{ exists false. cbn. split; [done|]. split; [done|]. intros (pitch & Hpitch & Heq). rewrite Heq in Hvalid.
      apply app_inj_tail in Heq as [_ ->]. rewrite forallb_app, scaled_pos in Hvalid by (done || lia). done. }
  apply andb_true_iff in Hvalid as [->%N.eqb_eq _]. cbn [andb].
  destruct (N.ltb_spec 1 (len sh + 1)) as [H1|H1].
  2:{ destruct sh, st; try (unfold len in *; simpl in *; lia). exists true. split; [done|]. split; [|done].
      intros _. by exists row. }
  destruct (last st) as [p|] eqn:Hlast; [|apply last_None in Hlast as ->; unfold len in *; simpl in *; lia].
  replace (len sh + 1 - 2) with (len st - 1) by lia. rewrite at_app by (rewrite last_lookup in Hlast; by apply lookup_lt_Some in Hlast; unfold len; lia).
  rewrite (last_at _ _ Hlast). cbn [res_bind].
  rewrite (proj2 (at_Some _ _ row)) by (unfold len; by rewrite Nat2N.id, list_lookup_middle). cbn [res_bind].
  replace (N.to_nat (len st - 1)) with (length sh - 1)%nat by (unfold len in *; lia).
  destruct (chained_ok (E:=StrideError) _ _ [row] [1] _ Hl Hlast Hfit) as (b & -> & Hiff). cbn [res_bind].
  exists (negb (p <? row) && b). split; [by destruct (negb _ && b)|].
  rewrite andb_true_iff, negb_true_iff, N.ltb_ge, Hiff. split; [intros [Hp Hst]; exists p; by rewrite <-Hst|].
  intros (pitch & Hpitch & Heq%app_inj_tail). destruct Heq as [Heq _].
  destruct sh as [|d sh _] using rev_ind; [unfold len in *; simpl in *; lia|].
  rewrite Heq, last_scaled in Hlast. injection Hlast as ->. done.
Qed.

(** The stride checks are exact: on strides of the right rank both
    [has_contiguous_row_major_strides] and [is_contiguous] accept exactly the
    row-major strides, [has_pitched_row_major_strides] accepts exactly the
    row-major strides above some row pitch at least the row size, and every
    contiguous layout is a pitched one. *)
Theorem stride_checks_exact {E} sh row strides :
  length strides = length (sh ++ [row]) → positive (sh ++ [row]) → volume (sh ++ [row]) ≤ usize_max →
  Forall2 (λ d s, d * s ≤ usize_max) (sh ++ [row]) strides →
  ∃ c p, has_contiguous_row_major_strides (E:=E) (sh ++ [row]) strides = Ok c ∧
    is_contiguous (E:=E) (sh ++ [row]) strides = Ok c ∧ (c = true ↔ strides = row_major (sh ++ [row])) ∧
    has_pitched_row_major_strides (E:=E) (sh ++ [row]) strides = Ok p ∧
    (p = true ↔ ∃ pitch, row ≤ pitch ∧ strides = scaled pitch sh ++ [1]) ∧ (c = true → p = true).
Proof.
  intros Hl Hp Hv Hfit.
  destruct (contiguous_check_ok (E:=E) (sh ++ [row]) strides) as (c & Hc & Hciff); [by destruct sh|done|done|].
  destruct (is_contiguous_ok (E:=E) _ _ Hp Hv Hl) as (c' & Hc' & Hciff').
  assert (c' = c) as -> by (destruct c, c'; naive_solver).
  destruct strides as [|l st _] using rev_ind; [by destruct sh|].
  apply Forall2_app_inv in Hfit as [Hfit _]; [|rewrite !length_app in Hl; simpl in Hl; lia].
  destruct (pitched_check_ok (E:=E) sh row st l Hp) as (p & Hpit & Hpiff);
    [rewrite !length_app in Hl; simpl in Hl; lia|done|].
  exists c, p. do 5 (split; [done|]). rewrite Hciff, Hpiff. intros ->. exists row. by rewrite row_major_snoc.
Qed.
End checks.

(** ** Witnesses *)

#[local] Existing Instance checked_build.

Lemma ravel_row_major_witness :
  ∃ st n, contiguous_strides (E:=MetadataError) [2; 3; 4] = Ok st ∧
    ravel_index (E:=MetadataError) (Z.of_N <$> [1; 2; 3]) [2; 3; 4] = Ok n ∧ n < volume [2; 3; 4].
Proof.
  destruct (ravel_row_major (E:=MetadataError) [2; 3; 4] [1; 2; 3])
    as (st & n & H1 & _ & H2 & _ & H3 & _); [repeat constructor|vm_compute; discriminate|].
  exists st, n. auto.
Defined.

(** A transposed matrix, both dimensions split. *)
Lemma reshape_action_sound_witness :
  reshape_action (E:=MetadataError) [4; 6] [1; 4] [2; 2; 3; 2] = Ok (UpdateStrides [2; 1; 8; 4]) ∧
  sound_action [4; 6] [1; 4] [2; 2; 3; 2] (UpdateStrides [2; 1; 8; 4]).
Proof.
  destruct (reshape_action_sound (E:=MetadataError) [4; 6] [1; 4] [2; 2; 3; 2]) as (a & Ha & Hs);
    [reflexivity|repeat constructor|repeat constructor|reflexivity|vm_compute; discriminate| |].
  - repeat constructor; vm_compute; discriminate.
  - assert (reshape_action (E:=MetadataError) [4; 6] [1; 4] [2; 2; 3; 2] = Ok (UpdateStrides [2; 1; 8; 4])) as Hr
      by reflexivity.
    split; [exact Hr|]. rewrite Hr in Ha. injection Ha as Ha. rewrite <-Ha in Hs. exact Hs.
Defined.

Lemma permute_relabels_witness :
  ∃ m', metadata_permute [2; 0; 1] (mkMetadata [2; 3; 4] [12; 4; 1]) = (Ok tt, m') ∧
    volume (shape m') = 24 ∧ dot (pick [1; 2; 3] [2; 0; 1]) (strides m') = 23.
Proof.
  destruct (permute_relabels (mkMetadata [2; 3; 4] [12; 4; 1]) [2; 0; 1])
    as (m' & H1 & _ & H2 & _ & H3); [reflexivity| |].
  - apply (bool_decide_unpack _). vm_compute. exact I.
  - exists m'. split; [exact H1|]. split; [exact H2|]. apply (proj2 (H3 [1; 2; 3] ltac:(repeat constructor))).
Defined.

(** Rows of three elements at a pitch of four. *)
Lemma stride_checks_exact_witness :
  ∃ c p, has_contiguous_row_major_strides (E:=MetadataError) [2; 3] [4; 1] = Ok c ∧
    has_pitched_row_major_strides (E:=MetadataError) [2; 3] [4; 1] = Ok p ∧
    (c = true ↔ [4; 1] = row_major [2; 3]) ∧ (c = true → p = true).
Proof.
  destruct (stride_checks_exact (E:=MetadataError) [2] 3 [4; 1])
    as (c & p & H1 & _ & H2 & H3 & _ & H4);
    [reflexivity|repeat constructor|vm_compute; discriminate|repeat constructor; vm_compute; discriminate|].
  exists c, p. auto.
Defined.
