(* ===== verification/FusionGraph.v ===== *)
(** * Dependency graphs of the fusion search

    [ruda-fusion/src/search/graph/]: [subgraph.rs] (sets of node indices as bit
    words), [node.rs] (the data flow of a node), [tensor.rs] (the data flow of one
    operation and of a block), [dag.rs] (the dependency graph, its linearization
    and reachability) and [lifetime.rs] (which orders of execution are valid).

    Positions and indices are positions in lists and are [nat].  [OperationIr] is
    used through the tensors it reads and writes, whether it is a [Drop] and
    whether it has an effect that must stay in order, hence a class.  Hash maps are
    finite maps; nothing here depends on their iteration order. *)

From S2P Require Import Prelude.

(** ** Operations *)

Inductive TensorStatus := ReadOnly | ReadWrite | NotInit.
#[export] Instance TensorStatus_eq_dec : EqDecision TensorStatus.
Proof. solve_decision. Defined.

Record TensorIr := mkTensor {
  tensor_id : N;
  tensor_shape : list N;
  status : TensorStatus;
  dtype : N
}.
#[export] Instance TensorIr_eq_dec : EqDecision TensorIr.
Proof. solve_decision. Defined.

Class OperationIr (Op : Type) := {
  op_eq_dec :: EqDecision Op;
  inputs : Op → list TensorIr;
  outputs : Op → list TensorIr;
  is_drop : Op → bool;
  ordered_effect : Op → bool
}.

(** ** Sets of nodes *)

Module SubGraph.
Record t := mk { word0 : N; spill : list N }.
Definition BITS : nat := 64.

Definition empty : t := mk 0 [].
Definition is_empty (s : t) : bool := (word0 s =? 0)%N && bool_decide (spill s = []).

(** [u64::count_ones] and [u64::trailing_zeros] of a word that is not zero *)
Fixpoint count_ones_pos (p : positive) : nat :=
  match p with
  | xH => 1
  | xO p => count_ones_pos p
  | xI p => S (count_ones_pos p)
  end.
Definition count_ones (w : N) : nat := match w with N0 => 0 | Npos p => count_ones_pos p end.
Fixpoint trailing_zeros_pos (p : positive) : nat :=
  match p with xO p => S (trailing_zeros_pos p) | _ => 0 end.
Definition trailing_zeros (w : N) : nat := match w with N0 => 64 | Npos p => trailing_zeros_pos p end.

Definition len (s : t) : nat :=
  count_ones (word0 s) + foldr (λ w n, count_ones w + n) 0 (spill s).

Definition resize (n : nat) (l : list N) : list N := take n l ++ replicate (n - length l) 0%N.
Definition bit (i : nat) : N := N.shiftl 1 (N.of_nat i).
Definition insert (node : nat) (s : t) : t :=
  if node <? BITS then mk (N.lor (word0 s) (bit node)) (spill s)
  else
    let word := node / BITS - 1 in
    let sp := if length (spill s) <=? word then resize (word + 1) (spill s) else spill s in
    mk (word0 s) (alter (λ w, N.lor w (bit (node mod BITS))) word sp).
Definition single (node : nat) : t := insert node empty.

(** [for (word, other) in self.spill.iter_mut().zip(&other.spill) { .. }] *)
Fixpoint zip_words (f : N → N → N) (l k : list N) : list N :=
  match l, k with
  | x :: l, y :: k => f x y :: zip_words f l k
  | l, _ => l
  end.
Definition union_with (s other : t) : t :=
  let sp := if length (spill s) <? length (spill other)
            then resize (length (spill other)) (spill s) else spill s in
  mk (N.lor (word0 s) (word0 other)) (zip_words N.lor sp (spill other)).
(** [while self.spill.last() == Some(&0) { self.spill.pop(); }] *)
Fixpoint trim (l : list N) : list N :=
  match l with
  | [] => []
  | w :: l => match trim l with [] => if (w =? 0)%N then [] else [w] | l' => w :: l' end
  end.
Definition intersect_with (s other : t) : t :=
  mk (N.land (word0 s) (word0 other))
    (trim (zip_words N.land (take (length (spill other)) (spill s)) (spill other))).
Definition subtract (s other : t) : t :=
  mk (N.ldiff (word0 s) (word0 other)) (trim (zip_words N.ldiff (spill s) (spill other))).

(** The bits of one word, lowest first: [bits &= bits - 1] clears the lowest. *)
Fixpoint word_bits (fuel : nat) (bits : N) : list nat :=
  match fuel with
  | O => []
  | S fuel =>
      if (bits =? 0)%N then []
      else trailing_zeros bits :: word_bits fuel (N.land bits (bits - 1))
  end.
Definition iter (s : t) : list nat :=
  concat (imap (λ i w, (λ b, i * BITS + b) <$> word_bits BITS w) (word0 s :: spill s)).
End SubGraph.

(** ** Data flow of nodes *)

Class GraphNode (Nd : Type) := {
  produced : Nd → list N;
  read : Nd → list N;
  freed : Nd → list N;
  produces : Nd → N → bool;
  reads : Nd → N → bool;
  position : Nd → nat;
  read_position : Nd → N → nat;
  produces_before : Nd → N → nat → bool;
  ordered_range : Nd → option (nat * nat)
}.

Section nodes.
Context `{OperationIr Op}.

Record OperationNode := mkNode { node_op : Op; node_pos : nat }.

(** The methods a node does not override have the trait's default bodies. *)
#[export] Instance operation_node : GraphNode OperationNode := {
  produced n := tensor_id <$> outputs (node_op n);
  read n := tensor_id <$> inputs (node_op n);
  freed n := tensor_id <$> filter (λ t, is_drop (node_op n) ∨ status t = ReadWrite) (inputs (node_op n));
  produces n r := bool_decide (r ∈ tensor_id <$> outputs (node_op n));
  reads n r := bool_decide (r ∈ tensor_id <$> inputs (node_op n));
  position n := node_pos n;
  read_position n _ := node_pos n;
  produces_before n r p := bool_decide (r ∈ tensor_id <$> outputs (node_op n)) && (node_pos n <? p);
  ordered_range n := if ordered_effect (node_op n) then Some (node_pos n, node_pos n) else None
}.

(** [None] for [flow_position] stands for [usize::MAX]. *)
Record TensorFlow := mkFlow {
  flow_produced : gmap N nat;
  flow_read : gmap N nat;
  flow_freed : gset N;
  flow_position : option nat;
  effects : option (nat * nat)
}.
Definition flow_new : TensorFlow := mkFlow ∅ ∅ ∅ None None.
Definition flow_contains (f : TensorFlow) (r : N) : bool :=
  bool_decide (is_Some (flow_produced f !! r)) || bool_decide (is_Some (flow_read f !! r)).
Definition flow_is_empty (f : TensorFlow) : bool :=
  bool_decide (flow_produced f = ∅) && bool_decide (flow_read f = ∅).

Definition min_position (p : option nat) (q : nat) : option nat :=
  Some (match p with Some p => p `min` q | None => q end).
Definition register_input (op : Op) (pos : nat) (f : TensorFlow) (t : TensorIr) : TensorFlow :=
  let rd := if bool_decide (is_Some (flow_produced f !! tensor_id t)) then flow_read f
            else <[tensor_id t := match flow_read f !! tensor_id t with
                                  | Some last => last `max` pos
                                  | None => pos
                                  end]> (flow_read f) in
  let fr := if bool_decide (status t = ReadWrite) || is_drop op
            then {[tensor_id t]} ∪ flow_freed f else flow_freed f in
  mkFlow (flow_produced f) rd fr (flow_position f) (effects f).
Definition register_output (pos : nat) (f : TensorFlow) (t : TensorIr) : TensorFlow :=
  mkFlow (<[tensor_id t := match flow_produced f !! tensor_id t with
                           | Some first => first `min` pos
                           | None => pos
                           end]> (flow_produced f))
    (delete (tensor_id t) (flow_read f)) (flow_freed f) (flow_position f) (effects f).
Definition flow_register (op : Op) (pos : nat) (f : TensorFlow) : TensorFlow :=
  let eff := if ordered_effect op
             then Some (match effects f with
                        | Some (first, last) => (first `min` pos, last `max` pos)
                        | None => (pos, pos)
                        end)
             else effects f in
  let f := mkFlow (flow_produced f) (flow_read f) (flow_freed f) (min_position (flow_position f) pos) eff in
  foldl (register_output pos) (foldl (register_input op pos) f (inputs op)) (outputs op).

(** [read_position] is only asked for a resource of [read]. *)
#[export] Instance tensor_flow : GraphNode TensorFlow := {
  produced f := (map_to_list (flow_produced f)).*1;
  read f := (map_to_list (flow_read f)).*1;
  freed f := elements (flow_freed f);
  produces f r := bool_decide (is_Some (flow_produced f !! r));
  reads f r := bool_decide (is_Some (flow_read f !! r));
  position f := default 0 (flow_position f);
  read_position f r := default 0 (flow_read f !! r);
  produces_before f r p := match flow_produced f !! r with Some q => q <? p | None => false end;
  ordered_range f := effects f
}.
End nodes.
Arguments OperationNode Op : clear implicits.

(** ** The dependency graph *)

Record Dag := mkDag {
  dependencies : list SubGraph.t;
  dependents : list SubGraph.t;
  positions : list nat
}.
Record Reachability := mkReach { ancestors : list SubGraph.t; descendants : list SubGraph.t }.

Section dag.
Context {E : Type}.

(** [v[i]] and [v[i] -= 1] for vectors of a pure function. *)
Definition get {A} (l : list A) (i : nat) : res E A :=
  match l !! i with Some x => Ok x | None => Panic end.
Definition decrement (l : list nat) (i : nat) : res E (nat * list nat) :=
  match l !! i with
  | Some (S k) => Ok (k, <[i := k]> l)
  | _ => Panic
  end.

Definition depends_on `{GraphNode Nd} (node other : Nd) : bool :=
  existsb (λ r, produces_before other r (read_position node r)) (read node)
  || existsb (λ r, reads other r) (freed node)
  || match ordered_range node, ordered_range other with
     | Some (_, last), Some (first, _) => first <? last
     | _, _ => false
     end.

Definition dag_len (d : Dag) : nat := length (dependencies d).

(** The two loops of [Dag::new]. *)
Definition add_edge `{GraphNode Nd} (i : nat) (node : Nd) (g : list SubGraph.t * list SubGraph.t)
    (j : nat) (other : Nd) : list SubGraph.t * list SubGraph.t :=
  if negb (i =? j) && depends_on node other
  then (alter (SubGraph.insert j) i g.1, alter (SubGraph.insert i) j g.2)
  else g.
Fixpoint add_edges `{GraphNode Nd} (i : nat) (node : Nd) (j : nat) (others : list Nd)
    (g : list SubGraph.t * list SubGraph.t) : list SubGraph.t * list SubGraph.t :=
  match others with
  | [] => g
  | other :: others => add_edges i node (S j) others (add_edge i node g j other)
  end.
Fixpoint add_nodes `{GraphNode Nd} (all : list Nd) (i : nat) (nodes : list Nd)
    (g : list SubGraph.t * list SubGraph.t) : list SubGraph.t * list SubGraph.t :=
  match nodes with
  | [] => g
  | node :: nodes => add_nodes all (S i) nodes (add_edges i node 0 all g)
  end.
Definition dag_new `{GraphNode Nd} (nodes : list Nd) : Dag :=
  let n := length nodes in
  let g := add_nodes nodes 0 nodes (replicate n SubGraph.empty, replicate n SubGraph.empty) in
  mkDag g.1 g.2 (position <$> nodes).

(** The heap of ready nodes keyed by [(position, index)]: [pop] takes the least. *)
Definition key_leb (x y : nat * nat) : bool := (x.1 <? y.1) || ((x.1 =? y.1) && (x.2 <=? y.2)).
Fixpoint pop_min (l : list (nat * nat)) : option ((nat * nat) * list (nat * nat)) :=
  match l with
  | [] => None
  | x :: l =>
      match pop_min l with
      | None => Some (x, [])
      | Some (y, l') => if key_leb x y then Some (x, l) else Some (y, x :: l')
      end
  end.
Fixpoint release (positions : list nat) (ds pending : list nat) (ready : list (nat * nat))
    : res E (list nat * list (nat * nat)) :=
  match ds with
  | [] => Ok (pending, ready)
  | d :: ds =>
      let? r := decrement pending d in
      if r.1 =? 0 then
        let? p := get positions d in release positions ds r.2 ((p, d) :: ready)
      else release positions ds r.2 ready
  end.
Fixpoint topological_loop (d : Dag) (fuel : nat) (pending : list nat) (ready : list (nat * nat))
    (order : list nat) : res E (option (list nat)) :=
  match fuel with
  | O => Ok None
  | S fuel =>
      match pop_min ready with
      | None => Ok (Some order)
      | Some ((_, i), ready) =>
          let? ds := get (dependents d) i in
          let? r := release (positions d) (SubGraph.iter ds) pending ready in
          topological_loop d fuel r.1 r.2 (order ++ [i])
      end
  end.
Fixpoint ready_nodes (positions : list nat) (i : nat) (pending : list nat) : res E (list (nat * nat)) :=
  match pending with
  | [] => Ok []
  | k :: pending =>
      let? rest := ready_nodes positions (S i) pending in
      if k =? 0 then let? p := get positions i in Ok ((p, i) :: rest) else Ok rest
  end.
(** Every node becomes ready at most once: [n + 1] turns of the loop are enough. *)
Definition topological_order (d : Dag) : res E (option (list nat)) :=
  let n := dag_len d in
  let pending := SubGraph.len <$> dependencies d in
  let? ready := ready_nodes (positions d) 0 pending in
  let? o := topological_loop d (S n) pending ready [] in
  match o with
  | Some order => Ok (if length order =? n then Some order else None)
  | None => Panic
  end.

(** The same count with a stack of ready nodes. *)
Fixpoint release_stack (ds pending ready : list nat) : res E (list nat * list nat) :=
  match ds with
  | [] => Ok (pending, ready)
  | d :: ds =>
      let? r := decrement pending d in
      release_stack ds r.2 (if r.1 =? 0 then ready ++ [d] else ready)
  end.
Fixpoint acyclic_loop (d : Dag) (fuel : nat) (pending ready : list nat) (visited : nat)
    : res E (option nat) :=
  match fuel with
  | O => Ok None
  | S fuel =>
      match last ready with
      | None => Ok (Some visited)
      | Some i =>
          let? ds := get (dependents d) i in
          let? r := release_stack (SubGraph.iter ds) pending (removelast ready) in
          acyclic_loop d fuel r.1 r.2 (S visited)
      end
  end.
Definition is_acyclic (d : Dag) : res E bool :=
  let n := dag_len d in
  let pending := SubGraph.len <$> dependencies d in
  let ready := filter (λ i, pending !! i = Some 0) (seq 0 n) in
  let? v := acyclic_loop d (S n) pending ready 0 in
  match v with
  | Some visited => Ok (visited =? n)
  | None => Panic
  end.

(** One node absorbs the ancestors of its direct dependencies. *)
Fixpoint absorb (anc : list SubGraph.t) (acc : SubGraph.t) (js : list nat) : res E SubGraph.t :=
  match js with
  | [] => Ok acc
  | j :: js => let? a := get anc j in absorb anc (SubGraph.union_with acc a) js
  end.
Definition relax (d : Dag) (anc : list SubGraph.t) (i : nat) : res E (list SubGraph.t) :=
  let? acc := get anc i in
  let? ds := get (dependencies d) i in
  let? acc := absorb (<[i := SubGraph.empty]> anc) acc (SubGraph.iter ds) in
  Ok (<[i := acc]> anc).
Fixpoint relax_all (d : Dag) (anc : list SubGraph.t) (idx : list nat) : res E (list SubGraph.t) :=
  match idx with
  | [] => Ok anc
  | i :: idx => let? anc := relax d anc i in relax_all d anc idx
  end.
(** A sweep of the defensive loop, and whether it changed a set. *)
Fixpoint relax_sweep (d : Dag) (anc : list SubGraph.t) (changed : bool) (idx : list nat)
    : res E (list SubGraph.t * bool) :=
  match idx with
  | [] => Ok (anc, changed)
  | i :: idx =>
      let? before := get anc i in
      let? anc := relax d anc i in
      let? after := get anc i in
      relax_sweep d anc (changed || negb (SubGraph.len after =? SubGraph.len before)) idx
  end.
Fixpoint relax_fixpoint (d : Dag) (fuel : nat) (anc : list SubGraph.t) : res E (option (list SubGraph.t)) :=
  match fuel with
  | O => Ok None
  | S fuel =>
      let? r := relax_sweep d anc false (seq 0 (dag_len d)) in
      if r.2 : bool then relax_fixpoint d fuel r.1 else Ok (Some r.1)
  end.
Fixpoint transpose_row (i : nat) (js : list nat) (desc : list SubGraph.t) : res E (list SubGraph.t) :=
  match js with
  | [] => Ok desc
  | j :: js => let? _ := get desc j in transpose_row i js (alter (SubGraph.insert i) j desc)
  end.
Fixpoint transpose_rows (i : nat) (anc desc : list SubGraph.t) : res E (list SubGraph.t) :=
  match anc with
  | [] => Ok desc
  | a :: anc => let? desc := transpose_row i (SubGraph.iter a) desc in transpose_rows (S i) anc desc
  end.
(** A sweep that changes something adds an ancestor: [n * n + 1] sweeps are enough. *)
Definition reachability (d : Dag) : res E Reachability :=
  let n := dag_len d in
  let? o := topological_order d in
  let? anc :=
    match o with
    | Some order => relax_all d (dependencies d) order
    | None =>
        let? r := relax_fixpoint d (n * n + 1) (dependencies d) in
        match r with Some anc => Ok anc | None => Panic end
    end in
  let? desc := transpose_rows 0 anc (replicate n SubGraph.empty) in
  Ok (mkReach anc desc).

Fixpoint union_rows (rows : list SubGraph.t) (acc : SubGraph.t) (idx : list nat) : res E SubGraph.t :=
  match idx with
  | [] => Ok acc
  | i :: idx => let? r := get rows i in union_rows rows (SubGraph.union_with acc r) idx
  end.
Definition can_contract (r : Reachability) (a b : SubGraph.t) : res E bool :=
  if SubGraph.is_empty a || SubGraph.is_empty b then Ok false
  else
    let union := SubGraph.union_with a b in
    let? anc := union_rows (ancestors r) SubGraph.empty (SubGraph.iter union) in
    let? desc := union_rows (descendants r) SubGraph.empty (SubGraph.iter union) in
    Ok (SubGraph.is_empty (SubGraph.subtract (SubGraph.intersect_with anc desc) union)).
End dag.

(** ** Valid orders of execution *)

Section lifetime.
Context `{GraphNode Nd}.

(** The first pass: the producer of each resource, and all of them when there are
    several. *)
Record Producers := mkProducers { producers : gmap N nat; repeated : gmap N (list nat) }.
Definition add_producer (pos : nat) (ps : Producers) (r : N) : Producers :=
  match producers ps !! r with
  | None => mkProducers (<[r := pos]> (producers ps)) (repeated ps)
  | Some q =>
      if negb (q =? pos)
      then mkProducers (producers ps) (<[r := default [q] (repeated ps !! r) ++ [pos]]> (repeated ps))
      else ps
  end.
(** [Vec::dedup], and [partition_point(|&position| position < pos)] of a sorted vector. *)
Fixpoint dedup (l : list nat) : list nat :=
  match l with
  | x :: ((y :: _) as l') => if x =? y then dedup l' else x :: dedup l'
  | l => l
  end.
Fixpoint partition_point (pos : nat) (l : list nat) : nat :=
  match l with
  | q :: l => if q <? pos then S (partition_point pos l) else 0
  | [] => 0
  end.
Definition collect_producers (order : list Nd) : Producers :=
  let ps := foldl (λ ps n, foldl (add_producer (position n)) ps (produced n)) (mkProducers ∅ ∅) order in
  mkProducers (producers ps) ((λ l, dedup (merge_sort le l)) <$> repeated ps).
Definition expected_producer (ps : Producers) (pos : nat) (r : N) : option nat :=
  match repeated ps !! r with
  | Some l => match partition_point pos l with O => None | S k => l !! k end
  | None =>
      match producers ps !! r with
      | Some q => if q <? pos then Some q else None
      | None => None
      end
  end.

Record Lifetime := mkLifetime { current : gmap N nat; dead : gset N; last_effect : option nat }.
Definition node_step (ps : Producers) (st : Lifetime) (n : Nd) : option Lifetime :=
  let effect :=
    match ordered_range n with
    | Some (first, last) =>
        if (match last_effect st with Some previous => first <? previous | None => false end)
        then None else Some (Some last)
    | None => Some (last_effect st)
    end in
  match effect with
  | None => None
  | Some eff =>
      if forallb (λ r, negb (bool_decide (r ∈ dead st)) &&
                       bool_decide (current st !! r = expected_producer ps (position n) r)) (read n)
      then
        let d := foldl (λ d r, {[r]} ∪ d) (dead st) (freed n) in
        Some (mkLifetime (foldl (λ c r, <[r := position n]> c) (current st) (produced n))
          (foldl (λ d r, d ∖ {[r]}) d (produced n)) eff)
      else None
  end.
Fixpoint lifetime_loop (ps : Producers) (st : Lifetime) (order : list Nd) : bool :=
  match order with
  | [] => true
  | n :: order =>
      match node_step ps st n with
      | None => false
      | Some st => lifetime_loop ps st order
      end
  end.
Definition is_valid_execution_order (order : list Nd) : bool :=
  lifetime_loop (collect_producers order) (mkLifetime ∅ ∅ None) order.
End lifetime.
