(* ===== verification/FusionSets.v ===== *)
(** * The bit sets of the dependency graphs refine finite sets *)

From S2P Require Import Prelude FusionGraph.
Import SubGraph.

(** ** Bits of one word *)

Lemma sorted_nodup (l : list nat) : StronglySorted lt l → NoDup l.
Proof.
  induction 1 as [|x l Hl IH Hx]; constructor; [|done]. intros Hin.
  by apply (proj1 (Forall_forall _ _) Hx), Nat.lt_irrefl in Hin.
Qed.

Definition clear_lowest (p : positive) : N :=
  (fix go p := match p with xH => 0 | xI p => Npos (xO p) | xO p => N.double (go p) end)%N p.
Lemma land_double_succ a b : N.land (N.double a) (N.succ_double b) = N.double (N.land a b).
Proof. by destruct a, b. Qed.
Lemma land_pred p : N.land (Npos p) (Npos p - 1) = clear_lowest p.
Proof.
  rewrite N.sub_1_r. induction p as [p IH|p IH|]; [|simpl clear_lowest|done].
  - change (N.double (N.land (Npos p) (Npos p)) = Npos p~0). by rewrite N.land_diag.
  - fold (clear_lowest p). rewrite <-IH, <-land_double_succ. f_equal.
    destruct p; reflexivity.
Qed.
Fixpoint bits_pos (p : positive) : list nat :=
  match p with
  | xH => [0]
  | xO p => S <$> bits_pos p
  | xI p => 0 :: (S <$> bits_pos p)
  end.
Definition bits_of (w : N) : list nat := match w with N0 => [] | Npos p => bits_pos p end.
Lemma bits_of_double w : bits_of (N.double w) = S <$> bits_of w.
Proof. by destruct w. Qed.
Lemma bits_lowest p : bits_pos p = trailing_zeros_pos p :: bits_of (clear_lowest p).
Proof.
  induction p as [p IH|p IH|]; [done| |done]. simpl. fold (clear_lowest p).
  by rewrite bits_of_double, IH.
Qed.
Lemma length_bits w : length (bits_of w) = count_ones w.
Proof.
  destruct w as [|p]; [done|]. simpl. induction p as [p IH|p IH|]; simpl; [..|done]; by rewrite length_fmap, IH.
Qed.
Lemma word_bits_fuel fuel w : count_ones w ≤ fuel → word_bits fuel w = bits_of w.
Proof.
  rewrite <-length_bits. revert w. induction fuel as [|fuel IH]; intros w Hw.
  - by destruct (bits_of w); simpl in *; [|lia].
  - destruct w as [|p]; [done|]. cbn [word_bits N.eqb trailing_zeros bits_of] in *. rewrite land_pred.
    rewrite bits_lowest in Hw |- *. simpl in Hw. by rewrite IH by lia.
Qed.
Lemma elem_of_bits w i : i ∈ bits_of w ↔ N.testbit w (N.of_nat i) = true.
Proof.
  destruct w as [|p]; [cbn [bits_of]; rewrite N.bits_0; by split; [intros ?%elem_of_nil|]|]. cbn [bits_of].
  revert i. induction p as [p IH|p IH|]; intros [|i]; cbn [bits_pos];
    rewrite ?elem_of_cons, ?list_elem_of_fmap, ?Nat2N.inj_succ.
  - split; [done|by left].
  - change (N.pos p~1) with (2 * N.pos p + 1)%N. rewrite N.testbit_odd_succ by lia. rewrite <-IH. naive_solver.
  - split; [naive_solver|done].
  - change (N.pos p~0) with (2 * N.pos p)%N. rewrite N.testbit_even_succ by lia. rewrite <-IH. naive_solver.
  - split; [done|by left].
  - rewrite <-(N.add_0_l 1), <-(N.mul_0_r 2), N.testbit_odd_succ, N.bits_0 by lia. rewrite elem_of_nil. naive_solver.
Qed.
Lemma bits_sorted w : StronglySorted lt (bits_of w).
Proof.
  assert (∀ l, StronglySorted lt l → StronglySorted lt (S <$> l)) as HS.
  { induction 1 as [|x l Hl IH Hx]; [constructor|]. simpl. constructor; [done|].
    apply Forall_fmap. eapply Forall_impl; [done|]. simpl. lia. }
  destruct w as [|p]; [constructor|]. simpl. induction p as [p IH|p IH|]; simpl; [|by apply HS|].
  - constructor; [by apply HS|]. apply Forall_fmap, Forall_true. simpl. lia.
  - constructor; constructor.
Qed.
Definition word_ok (w : N) : Prop := (w < 2 ^ 64)%N.
Lemma testbit_word w i : word_ok w → N.testbit w i = true → (i < 64)%N.
Proof.
  intros Hw Hi. destruct (N.lt_ge_cases i 64) as [|Hge]; [done|]. exfalso.
  unfold word_ok in Hw. rewrite N.testbit_true in Hi.
  rewrite N.div_small in Hi; [done|]. eapply N.lt_le_trans; [done|]. apply N.pow_le_mono_r; lia.
Qed.
Lemma word_ok_bits w : (∀ i, N.testbit w i = true → (i < 64)%N) → word_ok w.
Proof.
  intros Hw. unfold word_ok. destruct (N.eq_dec w 0%N) as [->|Hnz]; [done|].
  apply N.log2_lt_pow2; [lia|]. apply Hw. by apply N.bit_log2.
Qed.
Lemma count_word w : word_ok w → count_ones w ≤ 64.
Proof.
  intros Hw. rewrite <-length_bits. change 64 with (length (seq 0 64)). apply submseteq_length.
  apply NoDup_submseteq.
  - apply sorted_nodup, bits_sorted.
  - intros i Hi%elem_of_bits. apply (testbit_word _ _ Hw) in Hi. apply elem_of_seq. lia.
Qed.

(** ** Words of a set *)

Definition word_at (l : list N) (i : nat) : N := default 0%N (l !! i).
Definition words (s : t) : list N := word0 s :: spill s.
Definition mem (s : t) (n : nat) : bool := N.testbit (word_at (words s) (n / 64)) (N.of_nat (n mod 64)).
(** No trailing zero word, so that equal sets are equal values. *)
Definition canonical (l : list N) : Prop := trim l = l.
Definition wf (s : t) : Prop := Forall word_ok (words s) ∧ canonical (spill s).

Lemma word_at_trim l i : word_at (trim l) i = word_at l i.
Proof.
  unfold word_at. revert i. induction l as [|w l IH]; [done|]. intros i. cbn [trim].
  destruct (trim l) as [|w' l'] eqn:Ht.
  - destruct (N.eqb_spec w 0) as [->|]; destruct i as [|i]; try done; cbn; by rewrite <-IH.
  - destruct i as [|i]; [done|]. cbn. apply IH.
Qed.
Lemma trim_trim l : trim (trim l) = trim l.
Proof.
  induction l as [|w l IH]; [done|]. cbn [trim]. destruct (trim l) as [|w' l'] eqn:Ht.
  - destruct (w =? 0)%N eqn:Hw; [done|]. cbn. by rewrite Hw.
  - cbn [trim] in *. by rewrite IH.
Qed.
Lemma trim_ext l k : (∀ i, word_at l i = word_at k i) → trim l = trim k.
Proof.
  revert k. induction l as [|w l IH]; intros k Heq.
  - symmetry. induction k as [|w k IHk]; [done|]. cbn [trim]. rewrite IHk.
    + specialize (Heq 0). cbn in Heq. by rewrite <-Heq.
    + intros i. apply (Heq (S i)).
  - destruct k as [|w' k].
    + cbn [trim]. rewrite (IH []) by (intros i; apply (Heq (S i))). specialize (Heq 0). cbn in Heq.
      by rewrite Heq.
    + cbn [trim]. rewrite (IH k) by (intros i; apply (Heq (S i))). specialize (Heq 0). cbn in Heq. by rewrite Heq.
Qed.
Lemma trim_incl l : trim l ⊆ l.
Proof.
  induction l as [|w l IH]; [done|]. cbn [trim]. destruct (trim l) as [|w' l'].
  - destruct (_ =? _)%N; [apply list_subseteq_nil|]. by apply list_subseteq_skip, list_subseteq_nil.
  - by apply list_subseteq_skip.
Qed.
Lemma trim_length l : length (trim l) ≤ length l.
Proof.
  induction l as [|w l IH]; [done|]. cbn [trim]. destruct (trim l); [destruct (_ =? _)%N|]; simpl in *; lia.
Qed.
Lemma word_ok_trim l : Forall word_ok l → Forall word_ok (trim l).
Proof. rewrite !Forall_forall. intros Hl w Hw. by apply Hl, trim_incl. Qed.
Lemma canonical_last l w : w ≠ 0%N → canonical (l ++ [w]).
Proof.
  intros Hw. unfold canonical. induction l as [|x l IH]; cbn [trim app].
  - by rewrite (proj2 (N.eqb_neq _ _)).
  - rewrite IH. by destruct l.
Qed.
Lemma canonical_not_zero l w : canonical (l ++ [w]) → w ≠ 0%N.
Proof.
  unfold canonical. intros Hc ->. assert (trim (l ++ [0%N]) = trim l) as Ht.
  { apply trim_ext. intros i. unfold word_at. destruct (decide (i < length l)).
    - by rewrite lookup_app_l.
    - rewrite lookup_app_r, (lookup_ge_None_2 l) by lia. by destruct (i - length l) as [|[|]]. }
  rewrite Hc in Ht. pose proof (trim_length l) as Hl. apply (f_equal length) in Ht. rewrite length_app in Ht. simpl in Ht. lia.
Qed.

Lemma word_at_resize n l i : length l ≤ n → word_at (resize n l) i = word_at l i.
Proof.
  intros Hn. unfold word_at, resize. rewrite take_ge by done. destruct (decide (i < length l)).
  - by rewrite lookup_app_l.
  - rewrite lookup_app_r, (lookup_ge_None_2 l) by lia.
    destruct (replicate _ _ !! _) as [w|] eqn:Hw; [|done]. by apply lookup_replicate in Hw as [-> _].
Qed.
Lemma word_at_zip f l k i :
  (length k ≤ length l ∨ ∀ w, f 0%N w = 0%N) → (length l ≤ length k ∨ ∀ w, f w 0%N = w) → f 0%N 0%N = 0%N →
  word_at (zip_words f l k) i = f (word_at l i) (word_at k i).
Proof.
  unfold word_at. intros Hk Hl H0. revert k i Hk Hl. induction l as [|w l IH]; intros [|w' k] i Hk Hl;
    simpl in *; try done.
  - destruct Hk as [|Hk]; [lia|]. by rewrite Hk.
  - destruct Hl as [|Hl]; [lia|]. by rewrite Hl.
  - destruct i as [|i]; [done|]. cbn. apply IH; [destruct Hk|destruct Hl]; auto with lia.
Qed.
Lemma zip_words_length f l k : length (zip_words f l k) = length l.
Proof. revert k. induction l as [|w l IH]; intros [|w' k]; simpl; auto. Qed.
Lemma word_ok_at l i : Forall word_ok l → word_ok (word_at l i).
Proof.
  intros Hl. unfold word_at. destruct (l !! i) as [w|] eqn:Hw; [|done].
  by apply (proj1 (Forall_lookup _ _) Hl _ _ Hw).
Qed.
Lemma word_ok_zip f l k :
  (∀ x y, word_ok x → word_ok y → word_ok (f x y)) → Forall word_ok l → Forall word_ok k →
  Forall word_ok (zip_words f l k).
Proof.
  intros Hf Hl. revert k. induction Hl as [|w l Hw Hl IH]; intros k Hk; [constructor|].
  destruct Hk as [|w' k Hw' Hk]; constructor; auto.
Qed.
Lemma word_ok_lor x y : word_ok x → word_ok y → word_ok (N.lor x y).
Proof.
  intros Hx Hy. apply word_ok_bits. intros i. rewrite N.lor_spec.
  intros [Hb|Hb]%orb_true_iff; [by apply (testbit_word _ _ Hx)|by apply (testbit_word _ _ Hy)].
Qed.
Lemma word_ok_land x y : word_ok x → word_ok y → word_ok (N.land x y).
Proof.
  intros Hx _. apply word_ok_bits. intros i. rewrite N.land_spec. intros [Hb _]%andb_true_iff. by apply (testbit_word _ _ Hx).
Qed.
Lemma word_ok_ldiff x y : word_ok x → word_ok y → word_ok (N.ldiff x y).
Proof.
  intros Hx _. apply word_ok_bits. intros i. rewrite N.ldiff_spec. intros [Hb _]%andb_true_iff. by apply (testbit_word _ _ Hx).
Qed.
Lemma testbit_bit i j : N.testbit (bit i) (N.of_nat j) = bool_decide (i = j).
Proof.
  unfold bit. rewrite N.shiftl_1_l, N.pow2_bits_eqb. case_bool_decide as Hij.
  - subst. apply N.eqb_refl.
  - apply N.eqb_neq. lia.
Qed.
Lemma word_ok_bit i : i < 64 → word_ok (bit i).
Proof.
  intros Hi. apply word_ok_bits. intros j Hj. destruct (N.lt_ge_cases j 64) as [|Hge]; [done|].
  rewrite <-(N2Nat.id j), testbit_bit in Hj. apply bool_decide_eq_true in Hj. lia.
Qed.

(** The words of the results of the operations. *)
Lemma words_insert k s i :
  word_at (words (insert k s)) i =
    if decide (i = k / 64) then N.lor (word_at (words s) i) (bit (k mod 64)) else word_at (words s) i.
Proof.
  unfold insert, BITS, words. destruct (Nat.ltb_spec k 64) as [Hk|Hk].
  - rewrite Nat.div_small, Nat.mod_small by done. destruct i as [|i]; cbn; by repeat case_decide.
  - assert (1 ≤ k / 64) as Hd by (apply Nat.div_le_lower_bound; lia).
    destruct i as [|i]; cbn [word0 spill word_at lookup list_lookup].
    { rewrite decide_False by lia. done. }
    set (sp := if length (spill s) <=? k / 64 - 1 then _ else _).
    assert (k / 64 - 1 < length sp ∧ ∀ j, word_at sp j = word_at (spill s) j) as [Hlen Hsp].
    { subst sp. destruct (Nat.leb_spec (length (spill s)) (k / 64 - 1)) as [Hle|]; [|done].
      split; [unfold resize; rewrite take_ge, length_app, length_replicate by lia; lia|].
      intros j. apply word_at_resize. lia. }
    change (word_at (alter (λ w, N.lor w (bit (k mod 64))) (k / 64 - 1) sp) i =
      if decide (S i = k / 64) then N.lor (word_at (spill s) i) (bit (k mod 64)) else word_at (spill s) i).
    rewrite <-Hsp. unfold word_at. destruct (decide (S i = k / 64)) as [Hi|Hi].
    + replace (k / 64 - 1) with i in * by lia. rewrite list_lookup_alter_eq.
      destruct (lookup_lt_is_Some_2 sp i Hlen) as [w Hw]. by rewrite Hw.
    + rewrite list_lookup_alter_ne by lia. done.
Qed.
Lemma words_union s s' i :
  word_at (words (union_with s s')) i = N.lor (word_at (words s) i) (word_at (words s') i).
Proof.
  unfold union_with, words. destruct i as [|i]; [done|].
  cbn [word0 spill]. change (word_at (?w :: ?l) (S i)) with (word_at l i).
  destruct (Nat.ltb_spec (length (spill s)) (length (spill s'))) as [Hl|Hl].
  - rewrite word_at_zip, word_at_resize; [done|lia| | |done].
    + left. unfold resize. rewrite take_ge, length_app, length_replicate by lia. lia.
    + right. intros w. apply N.lor_0_r.
  - rewrite word_at_zip; [done|by left| |done]. right. intros w. apply N.lor_0_r.
Qed.
Lemma words_intersect s s' i :
  word_at (words (intersect_with s s')) i = N.land (word_at (words s) i) (word_at (words s') i).
Proof.
  unfold intersect_with, words. destruct i as [|i]; [done|].
  cbn [word0 spill]. change (word_at (?w :: ?l) (S i)) with (word_at l i).
  rewrite word_at_trim, word_at_zip; [|right; intros; apply N.land_0_l|left; rewrite length_take; lia|done].
  unfold word_at. destruct (decide (i < length (spill s'))) as [Hi|Hi].
  - by rewrite lookup_take_lt.
  - rewrite (lookup_ge_None_2 (spill s')) by lia. by rewrite !N.land_0_r.
Qed.
Lemma words_subtract s s' i :
  word_at (words (subtract s s')) i = N.ldiff (word_at (words s) i) (word_at (words s') i).
Proof.
  unfold subtract, words. destruct i as [|i]; [done|].
  cbn [word0 spill]. change (word_at (?w :: ?l) (S i)) with (word_at l i).
  by rewrite word_at_trim, word_at_zip; [|right; intros; apply N.ldiff_0_l|right; intros; apply N.ldiff_0_r|].
Qed.

(** ** Well-formed sets *)

Lemma words_ok_iff l : Forall word_ok l ↔ ∀ i, word_ok (word_at l i).
Proof.
  split; [intros Hl i; by apply word_ok_at|]. intros Hl. apply Forall_lookup. intros i w Hw.
  specialize (Hl i). unfold word_at in Hl. by rewrite Hw in Hl.
Qed.
Lemma canonical_iff l : canonical l ↔ l = [] ∨ word_at l (length l - 1) ≠ 0%N.
Proof.
  destruct l as [|w l _] using rev_ind; [by split; [left|]|]. rewrite length_app. simpl. rewrite Nat.add_sub.
  unfold word_at. rewrite list_lookup_middle by done. simpl. split.
  - intros Hw%canonical_not_zero. by right.
  - intros [Hnil|Hw]; [by destruct l|]. by apply canonical_last.
Qed.
Lemma canonical_words l i : canonical l → l ≠ [] → i = length l - 1 → word_at l i ≠ 0%N.
Proof. intros Hc Hl ->. apply canonical_iff in Hc as [|]; done. Qed.

Lemma wf_insert k s : wf s → wf (insert k s).
Proof.
  intros [Hok Hc]. split.
  - apply words_ok_iff. intros i. rewrite words_insert. apply words_ok_iff with (i := i) in Hok.
    case_decide; [|done]. apply word_ok_lor; [done|]. apply word_ok_bit. by apply Nat.mod_upper_bound.
  - unfold insert, BITS. destruct (Nat.ltb_spec k 64) as [|Hk]; [done|]. cbn [spill].
    set (sp := if length (spill s) <=? k / 64 - 1 then _ else _). apply canonical_iff. right.
    rewrite length_alter. unfold word_at. destruct (decide (k / 64 - 1 = length sp - 1)) as [->|Hne].
    + rewrite list_lookup_alter_eq. destruct (lookup_lt_is_Some_2 sp (length sp - 1)) as [w Hw].
      { subst sp. destruct (Nat.leb_spec (length (spill s)) (k / 64 - 1)); [|lia].
        unfold resize. rewrite length_app, length_replicate, length_take. lia. }
      rewrite Hw. cbn. intros [_ H0]%N.lor_eq_0_iff. unfold bit in H0. apply N.shiftl_eq_0_iff in H0. done.
    + rewrite list_lookup_alter_ne by done. subst sp.
      destruct (Nat.leb_spec (length (spill s)) (k / 64 - 1)) as [Hle|Hlt].
      { exfalso. apply Hne. unfold resize. rewrite length_app, length_replicate, length_take. lia. }
      apply canonical_words; [done| |done]. intros Hnil. rewrite Hnil in Hlt. simpl in Hlt. lia.
Qed.
Lemma union_spill_length s s' : length (spill (union_with s s')) = length (spill s) `max` length (spill s').
Proof.
  unfold union_with. cbn [spill]. rewrite zip_words_length. destruct (Nat.ltb_spec (length (spill s)) (length (spill s'))).
  - unfold resize. rewrite length_app, length_replicate, length_take. lia.
  - lia.
Qed.
Lemma wf_union s s' : wf s → wf s' → wf (union_with s s').
Proof.
  intros [Hok Hc] [Hok' Hc']. split.
  - apply words_ok_iff. intros i. rewrite words_union. by apply word_ok_lor; apply words_ok_iff.
  - apply canonical_iff. destruct (decide (spill (union_with s s') = [])) as [|Hne]; [by left|]. right.
    pose proof (union_spill_length s s') as Hlen. rewrite Hlen.
    assert (spill (union_with s s') ≠ [] → length (spill (union_with s s')) ≠ 0) as Hn0
      by (intros Hx Hy; by apply Hx, nil_length_inv).
    pose proof (words_union s s' (S (length (spill s) `max` length (spill s') - 1))) as Hw.
    unfold words in Hw. change (word_at (?w :: ?l) (S ?i)) with (word_at l i) in Hw. rewrite Hw.
    specialize (Hn0 Hne). intros [H1 H2]%N.lor_eq_0_iff.
    destruct (Nat.max_spec (length (spill s)) (length (spill s'))) as [[_ Hm]|[_ Hm]]; rewrite Hm in *.
    + apply (canonical_words (spill s') (length (spill s') - 1)); try done. intros Hnil. rewrite Hnil in *. simpl in *. lia.
    + apply (canonical_words (spill s) (length (spill s) - 1)); try done. intros Hnil. rewrite Hnil in *. simpl in *. lia.
Qed.
Lemma wf_intersect s s' : wf s → wf s' → wf (intersect_with s s').
Proof.
  intros [Hok Hc] [Hok' Hc']. split; [|apply trim_trim].
  apply words_ok_iff. intros i. rewrite words_intersect. by apply word_ok_land; apply words_ok_iff.
Qed.
Lemma wf_subtract s s' : wf s → wf s' → wf (subtract s s').
Proof.
  intros [Hok Hc] [Hok' Hc']. split; [|apply trim_trim].
  apply words_ok_iff. intros i. rewrite words_subtract. by apply word_ok_ldiff; apply words_ok_iff.
Qed.
Lemma wf_empty : wf empty.
Proof. split; [|done]. by repeat constructor. Qed.

(** ** Membership *)

Lemma mem_empty n : mem empty n = false.
Proof. unfold mem, words, word_at. by destruct (n / 64) as [|k]. Qed.
Lemma mem_insert k s n : mem (insert k s) n = bool_decide (n = k) || mem s n.
Proof.
  unfold mem. rewrite words_insert. pose proof (Nat.div_mod_eq n 64) as Hn. pose proof (Nat.div_mod_eq k 64) as Hk.
  case_decide as Hd.
  - rewrite N.lor_spec, testbit_bit, orb_comm. f_equal. apply bool_decide_ext. lia.
  - rewrite bool_decide_false; [done|]. intros ->. done.
Qed.
Lemma mem_union s s' n : mem (union_with s s') n = mem s n || mem s' n.
Proof. unfold mem. by rewrite words_union, N.lor_spec. Qed.
Lemma mem_intersect s s' n : mem (intersect_with s s') n = mem s n && mem s' n.
Proof. unfold mem. by rewrite words_intersect, N.land_spec. Qed.
Lemma mem_subtract s s' n : mem (subtract s s') n = mem s n && negb (mem s' n).
Proof. unfold mem. by rewrite words_subtract, N.ldiff_spec. Qed.

(** Two well-formed sets with the same members are the same value. *)
Lemma wf_ext s s' : wf s → wf s' → (∀ n, mem s n = mem s' n) → s = s'.
Proof.
  intros [Hok Hc] [Hok' Hc'] Hm.
  assert (∀ i, word_at (words s) i = word_at (words s') i) as Hw.
  { intros i. apply N.bits_inj. intros b. destruct (N.lt_ge_cases b 64) as [Hb|Hb].
    - specialize (Hm (i * 64 + N.to_nat b)). unfold mem in Hm.
      rewrite Nat.div_add_l, Nat.div_small, Nat.add_0_r in Hm by lia.
      rewrite Nat.add_comm, Nat.Div0.mod_add, Nat.mod_small, N2Nat.id in Hm by lia. done.
    - destruct (N.testbit (word_at (words s) i) b) eqn:H1.
      { apply testbit_word in H1; [lia|by apply word_ok_at]. }
      destruct (N.testbit (word_at (words s') i) b) eqn:H2; [|done].
      apply testbit_word in H2; [lia|by apply word_ok_at]. }
  destruct s as [w l], s' as [w' l']. cbn [spill words word0] in *. f_equal; [apply (Hw 0)|].
  rewrite <-Hc, <-Hc'. apply trim_ext. intros i. apply (Hw (S i)).
Qed.
Lemma is_empty_spec s : wf s → is_empty s = true ↔ ∀ n, mem s n = false.
Proof.
  intros Hwf. unfold is_empty. rewrite andb_true_iff, N.eqb_eq, bool_decide_eq_true. split.
  - destruct s as [w l]. cbn. intros [-> ->]. apply mem_empty.
  - intros Hn. rewrite (wf_ext s empty); [done|done|apply wf_empty|]. intros n. by rewrite Hn, mem_empty.
Qed.

(** ** Iteration *)

(** The rows of [iter] from word [k] on. *)
Definition rows (k : nat) (l : list N) : list nat :=
  concat (imap (λ i w, (λ b, (k + i) * 64 + b) <$> bits_of w) l).
Lemma rows_cons k w l : rows k (w :: l) = ((λ b, k * 64 + b) <$> bits_of w) ++ rows (S k) l.
Proof.
  unfold rows. rewrite imap_cons. cbn [concat]. rewrite Nat.add_0_r. f_equal. f_equal.
  apply imap_ext. intros i x _. unfold compose. by rewrite Nat.add_succ_r.
Qed.
Lemma iter_rows s : wf s → iter s = rows 0 (words s).
Proof.
  intros [Hok _]. unfold iter, rows. f_equal. apply imap_ext. intros i w Hw. unfold words in Hok.
  rewrite Nat.add_0_l, word_bits_fuel; [done|]. apply count_word. by apply (proj1 (Forall_lookup _ _) Hok i).
Qed.
Lemma bits_word w b : word_ok w → b ∈ bits_of w → b < 64.
Proof. intros Hw Hb%elem_of_bits. apply (testbit_word _ _ Hw) in Hb. lia. Qed.
Lemma rows_ge k l n : n ∈ rows k l → k * 64 ≤ n.
Proof.
  revert k. induction l as [|w l IH]; intros k; [by intros ?%elem_of_nil|]. rewrite rows_cons.
  intros [(b & -> & _)%list_elem_of_fmap|Hn%IH]%elem_of_app; lia.
Qed.
Lemma elem_of_rows k l n :
  Forall word_ok l → n ∈ rows k l ↔ k * 64 ≤ n ∧ N.testbit (word_at l (n / 64 - k)) (N.of_nat (n mod 64)) = true.
Proof.
  intros Hl. revert k. induction Hl as [|w l Hw Hl IH]; intros k.
  { unfold rows. cbn [imap concat]. split; [by intros ?%elem_of_nil|]. intros [_ Hb]. done. }
  rewrite rows_cons, elem_of_app, IH, list_elem_of_fmap. pose proof (Nat.div_mod_eq n 64) as Hn.
  pose proof (Nat.mod_upper_bound n 64 ltac:(lia)) as Hm. split.
  - intros [(b & -> & Hb)|[Hk Hb]].
    + pose proof (bits_word _ _ Hw Hb). split; [lia|].
      rewrite Nat.div_add_l, Nat.div_small, Nat.add_0_r, Nat.sub_diag by lia.
      rewrite Nat.add_comm, Nat.Div0.mod_add, Nat.mod_small by lia. by apply elem_of_bits.
    + split; [lia|]. assert (k < n / 64) by nia.
      replace (n / 64 - k) with (S (n / 64 - S k)) by lia. done.
  - intros [Hk Hb]. destruct (decide (n / 64 = k)) as [Heq|Hne].
    + left. exists (n mod 64). split; [lia|]. rewrite Heq, Nat.sub_diag in Hb. by apply elem_of_bits.
    + right. assert (k < n / 64) by nia. split; [nia|].
      replace (n / 64 - k) with (S (n / 64 - S k)) in Hb by lia. done.
Qed.
Lemma rows_sorted k l : Forall word_ok l → StronglySorted lt (rows k l).
Proof.
  intros Hl. revert k. induction Hl as [|w l Hw Hl IH]; intros k; [constructor|]. rewrite rows_cons.
  assert (∀ n, n ∈ (λ b, k * 64 + b) <$> bits_of w → n < S k * 64) as Hlt.
  { intros n (b & -> & Hb)%list_elem_of_fmap. pose proof (bits_word _ _ Hw Hb). lia. }
  assert (StronglySorted lt ((λ b, k * 64 + b) <$> bits_of w)) as Hs.
  { pose proof (bits_sorted w) as Hb. induction Hb as [|x b Hb IHb Hx]; [constructor|]. simpl. constructor.
    - apply IHb. intros n Hn. apply Hlt. simpl. by right.
    - apply Forall_fmap. eapply Forall_impl; [done|]. simpl. lia. }
  revert Hlt Hs. generalize ((λ b, k * 64 + b) <$> bits_of w). intros l' Hlt Hs.
  induction Hs as [|x l' Hs IHs Hx]; [apply IH|]. simpl. constructor.
  - apply IHs. intros n Hn. apply Hlt. by right.
  - apply Forall_app. split; [done|]. apply Forall_forall. intros n Hn%rows_ge.
    specialize (Hlt x ltac:(by left)). lia.
Qed.
Lemma length_rows k l : length (rows k l) = foldr (λ w n, count_ones w + n) 0 l.
Proof.
  revert k. induction l as [|w l IH]; intros k; [done|]. rewrite rows_cons, length_app, length_fmap, length_bits, IH. done.
Qed.

Lemma elem_of_iter s n : wf s → n ∈ iter s ↔ mem s n = true.
Proof.
  intros Hwf. rewrite iter_rows, elem_of_rows by (done || apply Hwf). rewrite Nat.sub_0_r. unfold mem.
  split; [by intros [_ ?]|]. intros. split; [lia|done].
Qed.
Lemma iter_sorted s : wf s → StronglySorted lt (iter s).
Proof. intros Hwf. rewrite iter_rows by done. apply rows_sorted, Hwf. Qed.
Lemma iter_nodup s : wf s → NoDup (iter s).
Proof. intros Hwf. by apply sorted_nodup, iter_sorted. Qed.
Lemma length_iter s : wf s → length (iter s) = len s.
Proof. intros Hwf. by rewrite iter_rows, length_rows by done. Qed.

(** ** Refinement *)

(** A well-formed bit set stands for the set [X]. *)
Definition repr (s : t) (X : gset nat) : Prop := wf s ∧ ∀ n, mem s n = true ↔ n ∈ X.
Lemma repr_iter s X n : repr s X → n ∈ iter s ↔ n ∈ X.
Proof. intros [Hwf Hm]. by rewrite elem_of_iter, Hm. Qed.
Lemma repr_set s X : repr s X → list_to_set (iter s) = X.
Proof. intros Hr. apply set_eq. intros n. by rewrite elem_of_list_to_set, (repr_iter _ _ _ Hr). Qed.
Lemma wf_repr s : wf s → repr s (list_to_set (iter s)).
Proof. intros Hwf. split; [done|]. intros n. by rewrite elem_of_list_to_set, elem_of_iter. Qed.

Lemma repr_empty : repr empty ∅.
Proof. split; [apply wf_empty|]. intros n. by rewrite mem_empty. Qed.
Lemma repr_insert n s X : repr s X → repr (insert n s) ({[n]} ∪ X).
Proof.
  intros [Hwf Hm]. split; [by apply wf_insert|]. intros k.
  by rewrite mem_insert, orb_true_iff, bool_decide_eq_true, Hm, elem_of_union, elem_of_singleton.
Qed.
Lemma repr_single n : repr (single n) {[n]}.
Proof. pose proof (repr_insert n _ _ repr_empty) as Hn. by rewrite (right_id_L ∅ (∪)) in Hn. Qed.
Lemma repr_union s s' X Y : repr s X → repr s' Y → repr (union_with s s') (X ∪ Y).
Proof.
  intros [Hwf Hm] [Hwf' Hm']. split; [by apply wf_union|]. intros n.
  by rewrite mem_union, orb_true_iff, Hm, Hm', elem_of_union.
Qed.
Lemma repr_intersect s s' X Y : repr s X → repr s' Y → repr (intersect_with s s') (X ∩ Y).
Proof.
  intros [Hwf Hm] [Hwf' Hm']. split; [by apply wf_intersect|]. intros n.
  by rewrite mem_intersect, andb_true_iff, Hm, Hm', elem_of_intersection.
Qed.
Lemma repr_subtract s s' X Y : repr s X → repr s' Y → repr (subtract s s') (X ∖ Y).
Proof.
  intros [Hwf Hm] [Hwf' Hm']. split; [by apply wf_subtract|]. intros n.
  by rewrite mem_subtract, andb_true_iff, negb_true_iff, <-not_true_iff_false, Hm, Hm', elem_of_difference.
Qed.
Lemma repr_len s X : repr s X → len s = size X.
Proof.
  intros Hr. pose proof (proj1 Hr) as Hwf. rewrite <-length_iter, <-(repr_set _ _ Hr) by done.
  by rewrite size_list_to_set by (by apply iter_nodup).
Qed.
Lemma repr_is_empty s X : repr s X → is_empty s = true ↔ X = ∅.
Proof.
  intros [Hwf Hm]. rewrite is_empty_spec by done. split.
  - intros Hn. apply set_eq. intros n. rewrite <-Hm, Hn, elem_of_empty. done.
  - intros -> n. apply not_true_iff_false. rewrite Hm. apply not_elem_of_empty.
Qed.
Lemma repr_unique s s' X : repr s X → repr s' X → s = s'.
Proof.
  intros [Hwf Hm] [Hwf' Hm']. apply wf_ext; try done. intros n. apply eq_true_iff_eq. by rewrite Hm, Hm'.
Qed.

(** The bit sets of the fusion search refine finite sets of node indices: every
    operation on representatives acts as its counterpart on sets and keeps the
    canonical form, [iter] lists the members once in ascending order, [len] and
    [is_empty] are exact, and a set has one representative, so the derived
    equality is set equality. *)
Theorem subgraph_refines_set s s' (X Y : gset nat) :
  repr s X → repr s' Y →
  repr empty ∅ ∧ (∀ n, repr (single n) {[n]} ∧ repr (insert n s) ({[n]} ∪ X)) ∧
  repr (union_with s s') (X ∪ Y) ∧ repr (intersect_with s s') (X ∩ Y) ∧ repr (subtract s s') (X ∖ Y) ∧
  StronglySorted lt (iter s) ∧ list_to_set (iter s) = X ∧ len s = size X ∧
  (is_empty s = true ↔ X = ∅) ∧ (X = Y ↔ s = s').
Proof.
  intros Hs Hs'. split; [apply repr_empty|].
  split; [intros n; split; [apply repr_single|by apply repr_insert]|].
  split; [by apply repr_union|]. split; [by apply repr_intersect|]. split; [by apply repr_subtract|].
  split; [apply iter_sorted, Hs|]. split; [by apply repr_set|]. split; [by apply repr_len|].
  split; [by apply repr_is_empty|]. split; intros Heq.
  - rewrite <-Heq in Hs'. by apply (repr_unique _ _ X).
  - rewrite <-Heq in Hs'. by rewrite <-(repr_set _ _ Hs), <-(repr_set _ _ Hs').
Qed.
Lemma subgraph_refines_set_witness :
  repr (union_with (single 3) (single 200)) ({[3]} ∪ {[200]}) ∧ iter (union_with (single 3) (single 200)) = [3; 200].
Proof.
  split; [|vm_compute; reflexivity].
  exact (proj1 (proj2 (proj2 (subgraph_refines_set (single 3) (single 200) {[3]} {[200]}
    (repr_single 3) (repr_single 200))))).
Defined.
