(* ===== verification/FusionDag.v ===== *)
(** * Linearization and reachability of dependency graphs *)

From S2P Require Import Prelude FusionGraph FusionSets.
Import SubGraph.
Open Scope nat_scope.

(** ** Edges *)

(** Node [i] depends directly on node [j]. *)
Definition edge (d : Dag) (i j : nat) : Prop := ∃ s, dependencies d !! i = Some s ∧ j ∈ iter s.
#[export] Instance edge_dec d i j : Decision (edge d i j).
Proof.
  refine (match dependencies d !! i as o return dependencies d !! i = o → Decision (edge d i j) with
          | Some s => λ Hs, cast_if (decide (j ∈ iter s))
          | None => λ Hs, right _
          end eq_refl); unfold edge; rewrite Hs; naive_solver.
Defined.
Definition dag_ok (d : Dag) : Prop :=
  length (dependents d) = dag_len d ∧ length (positions d) = dag_len d ∧
  Forall wf (dependencies d) ∧ Forall wf (dependents d) ∧
  (∀ i j, edge d i j → j < dag_len d ∧ i ≠ j) ∧
  (∀ j s i, dependents d !! j = Some s → i ∈ iter s ↔ edge d i j).

Lemma iter_insert_wf s n k : wf s → k ∈ iter (insert n s) ↔ k = n ∨ k ∈ iter s.
Proof.
  intros Hwf. rewrite !elem_of_iter by (done || by apply wf_insert).
  by rewrite mem_insert, orb_true_iff, bool_decide_eq_true.
Qed.
Lemma edge_lt d i j : edge d i j → i < dag_len d.
Proof. intros (s & Hs & _). by apply lookup_lt_Some in Hs. Qed.

Section new.
Context `{GraphNode Nd}.
Implicit Types (nodes : list Nd) (g : list t * list t).

(** The edges [(i, j)] recorded so far are those of [P]. *)
Definition edges_are (n : nat) g (P : nat → nat → Prop) : Prop :=
  length g.1 = n ∧ length g.2 = n ∧ Forall wf g.1 ∧ Forall wf g.2 ∧
  (∀ i s j, g.1 !! i = Some s → j ∈ iter s ↔ P i j) ∧
  (∀ j s i, g.2 !! j = Some s → i ∈ iter s ↔ P i j).
Lemma edges_are_ext n g P Q : (∀ i j, P i j ↔ Q i j) → edges_are n g P → edges_are n g Q.
Proof.
  intros Hpq (H1 & H2 & H3 & H4 & H5 & H6). do 4 (split; [done|]).
  split; intros ? ? ? Hs; rewrite <-Hpq; [by apply H5|by apply H6].
Qed.
Lemma alter_insert_wf (l : list t) i k : Forall wf l → Forall wf (alter (insert k) i l).
Proof. intros Hl. apply Forall_alter; [done|]. intros x _ Hx. by apply wf_insert. Qed.
Lemma alter_insert_iter (l : list t) i k m s j :
  Forall wf l → alter (insert k) i l !! m = Some s →
  ∃ s', l !! m = Some s' ∧ (j ∈ iter s ↔ (m = i ∧ j = k) ∨ j ∈ iter s').
Proof.
  intros Hl. destruct (decide (m = i)) as [->|Hne].
  - rewrite list_lookup_alter_eq. intros (s' & Hs' & ->)%fmap_Some. exists s'. split; [done|].
    rewrite iter_insert_wf by (by apply (proj1 (Forall_lookup _ _) Hl _ _ Hs')). tauto.
  - rewrite list_lookup_alter_ne by done. intros Hs. exists s. split; [done|]. tauto.
Qed.
Lemma add_edge_ok n i node g j other P :
  edges_are n g P →
  edges_are n (add_edge i node g j other)
    (λ a b, P a b ∨ (a = i ∧ b = j ∧ i ≠ j ∧ depends_on node other = true)).
Proof.
  intros Hg. unfold add_edge. destruct (Nat.eqb_spec i j) as [->|Hij]; cbn [negb andb].
  { eapply edges_are_ext; [|done]. intros a b. simpl. tauto. }
  destruct (depends_on node other) eqn:Hd; [|eapply edges_are_ext; [|done]; intros a b; simpl; naive_solver].
  destruct Hg as (H1 & H2 & H3 & H4 & H5 & H6). unfold edges_are. cbn [fst snd]. rewrite !length_alter.
  split; [done|]. split; [done|]. split; [by apply alter_insert_wf|]. split; [by apply alter_insert_wf|]. split.
  - intros a s b Ha. destruct (alter_insert_iter _ _ _ _ _ b H3 Ha) as (s' & Hs' & ->). rewrite (H5 _ _ _ Hs'). naive_solver.
  - intros b s a Hb. destruct (alter_insert_iter _ _ _ _ _ a H4 Hb) as (s' & Hs' & ->). rewrite (H6 _ _ _ Hs'). naive_solver.
Qed.
Lemma add_edges_ok n i node j others g P :
  edges_are n g P →
  edges_are n (add_edges i node j others g)
    (λ a b, P a b ∨ (a = i ∧ i ≠ b ∧ ∃ o, others !! (b - j) = Some o ∧ j ≤ b ∧ depends_on node o = true)).
Proof.
  revert j g P. induction others as [|o others IH]; intros j g P Hg; cbn [add_edges].
  { eapply edges_are_ext; [|done]. intros a b. simpl. split; [by left|]. intros [?|(_ & _ & o & Ho & _)]; done. }
  eapply edges_are_ext; [|apply IH, add_edge_ok, Hg]. intros a b. simpl. split.
  - intros [[HP|(-> & -> & Hij & Hd)]|(-> & Hib & o' & Ho' & Hjb & Hd)]; [by left|right..].
    + split; [done|]. split; [done|]. exists o. by rewrite Nat.sub_diag.
    + split; [done|]. split; [done|]. exists o'. replace (b - j) with (S (b - S j)) by lia. split; [done|]. split; [lia|done].
  - intros [HP|(-> & Hib & o' & Ho' & Hjb & Hd)]; [by left; left|]. destruct (decide (b = j)) as [->|Hne].
    + left. right. rewrite Nat.sub_diag in Ho'. injection Ho' as ->. done.
    + right. split; [done|]. split; [done|]. exists o'. replace (b - j) with (S (b - S j)) in Ho' by lia.
      split; [done|]. split; [lia|done].
Qed.
Lemma add_nodes_ok n all i nodes g P :
  edges_are n g P →
  edges_are n (add_nodes all i nodes g)
    (λ a b, P a b ∨ (a ≠ b ∧ i ≤ a ∧ ∃ x o, nodes !! (a - i) = Some x ∧ all !! b = Some o ∧ depends_on x o = true)).
Proof.
  revert i g P. induction nodes as [|x nodes IH]; intros i g P Hg; cbn [add_nodes].
  { eapply edges_are_ext; [|done]. intros a b. simpl. split; [by left|]. intros [?|(_ & _ & x & o & Hx & _)]; done. }
  eapply edges_are_ext; [|apply IH, add_edges_ok, Hg]. intros a b. simpl. setoid_rewrite Nat.sub_0_r. split.
  - intros [[HP|(-> & Hib & o & Ho & _ & Hd)]|(Hab & Hia & y & o & Hy & Ho & Hd)]; [by left|right..].
    + split; [done|]. split; [lia|]. exists x, o. by rewrite Nat.sub_diag.
    + split; [done|]. split; [lia|]. exists y, o. by replace (a - i) with (S (a - S i)) by lia.
  - intros [HP|(Hab & Hia & y & o & Hy & Ho & Hd)]; [by left; left|]. destruct (decide (a = i)) as [->|Hne].
    + left. right. rewrite Nat.sub_diag in Hy. injection Hy as ->. split; [done|]. split; [done|]. exists o. split; [done|]. split; [lia|done].
    + right. split; [done|]. split; [lia|]. exists y, o. by replace (a - i) with (S (a - S i)) in Hy by lia.
Qed.

(** The graph of a list of nodes has exactly the edges of [depends_on]. *)
Lemma dag_new_ok nodes :
  dag_ok (dag_new nodes) ∧ dag_len (dag_new nodes) = length nodes ∧
  positions (dag_new nodes) = position <$> nodes ∧
  ∀ i j, edge (dag_new nodes) i j ↔
    i ≠ j ∧ ∃ x o, nodes !! i = Some x ∧ nodes !! j = Some o ∧ depends_on x o = true.
Proof.
  set (n := length nodes).
  assert (edges_are n (replicate n empty, replicate n empty) (λ _ _, False)) as H0.
  { split; [apply length_replicate|]. split; [apply length_replicate|].
    split; [apply Forall_replicate, wf_empty|]. split; [apply Forall_replicate, wf_empty|].
    split; intros i s j [-> _]%lookup_replicate; rewrite elem_of_iter, mem_empty by apply wf_empty; done. }
  pose proof (add_nodes_ok n nodes 0 nodes _ _ H0) as (H1 & H2 & H3 & H4 & H5 & H6).
  assert (∀ i j, edge (dag_new nodes) i j ↔
    i ≠ j ∧ ∃ x o, nodes !! i = Some x ∧ nodes !! j = Some o ∧ depends_on x o = true) as Hedge.
  { intros i j. unfold edge, dag_new. cbn [dependencies]. setoid_rewrite Nat.sub_0_r in H5. split.
    - intros (s & Hs & Hj). apply (H5 _ _ _ Hs) in Hj as [[]|(Hij & _ & Hx)]. done.
    - intros (Hij & x & o & Hx & Ho & Hd).
      destruct (lookup_lt_is_Some_2 (add_nodes nodes 0 nodes (replicate n empty, replicate n empty)).1 i) as [s Hs].
      { rewrite H1. by apply lookup_lt_Some in Hx. }
      exists s. split; [done|]. apply (H5 _ _ _ Hs). right. split; [done|]. split; [lia|]. eauto. }
  assert (dag_len (dag_new nodes) = n) as Hn by exact H1.
  split; [|split; [done|split; [done|done]]]. unfold dag_ok. rewrite Hn.
  split; [exact H2|]. split; [apply length_fmap|]. split; [exact H3|]. split; [exact H4|]. split.
  - intros i j (Hij & x & o & _ & Ho & _)%Hedge. split; [|done]. by apply lookup_lt_Some in Ho.
  - intros j s i Hs. rewrite (H6 _ _ _ Hs). setoid_rewrite Nat.sub_0_r. rewrite Hedge. split; [intros [[]|(? & _ & ?)]; done|].
    intros (? & ?). right. split; [done|]. split; [lia|done].
Qed.
End new.

(** ** Kahn's algorithm *)

Section kahn.
Context (d : Dag) (Hd : dag_ok d).
Abbreviation n := (dag_len d).

Definition pre (i : nat) : list nat :=
  match dependencies d !! i with Some s => iter s | None => [] end.
Lemma edge_pre i j : edge d i j ↔ j ∈ pre i.
Proof.
  unfold edge, pre. destruct (dependencies d !! i) as [s|]; [naive_solver|].
  split; [naive_solver|by intros ?%elem_of_nil].
Qed.
Lemma pre_nodup i : NoDup (pre i).
Proof.
  unfold pre. destruct (dependencies d !! i) as [s|] eqn:Hs; [|constructor]. apply iter_nodup.
  destruct Hd as (_ & _ & Hwf & _). by apply (proj1 (Forall_lookup _ _) Hwf _ _ Hs).
Qed.
Definition unmet (order : list nat) (i : nat) : list nat := filter (.∉ order) (pre i).
Definition dependencies_first (order : list nat) : Prop :=
  ∀ l1 i l2, order = l1 ++ i :: l2 → ∀ j, edge d i j → j ∈ l1.
Record kahn (order pending ready : list nat) : Prop := {
  kahn_nodup : NoDup order;
  kahn_lt : ∀ i, i ∈ order → i < n;
  kahn_len : length pending = n;
  kahn_pending : ∀ k, k < n → pending !! k = Some (length (unmet order k));
  kahn_ready_nodup : NoDup ready;
  kahn_ready : ∀ k, k ∈ ready ↔ k < n ∧ k ∉ order ∧ unmet order k = [];
  kahn_first : dependencies_first order
}.

Lemma unmet_app order i k : unmet (order ++ [i]) k = filter (.≠ i) (unmet order k).
Proof.
  unfold unmet. rewrite list_filter_filter. apply list_filter_iff. intros x.
  rewrite not_elem_of_app, list_elem_of_singleton. tauto.
Qed.
Lemma unmet_length order i k :
  i ∉ order → length (unmet (order ++ [i]) k) = length (unmet order k) - (if bool_decide (edge d k i) then 1 else 0).
Proof.
  intros Hi. rewrite unmet_app. assert (NoDup (unmet order k)) as Hnd by apply NoDup_filter, pre_nodup.
  assert (i ∈ unmet order k ↔ edge d k i) as Hin.
  { unfold unmet. rewrite list_elem_of_filter, edge_pre. naive_solver. }
  case_bool_decide as He.
  - apply Hin, list_elem_of_split in He as (l1 & l2 & Heq). rewrite Heq in *.
    apply NoDup_app in Hnd as (_ & Hx & Hnd2). apply NoDup_cons in Hnd2 as [Hx2 _].
    rewrite filter_app, filter_cons_False, !length_app by (intros Hc; by apply Hc).
    rewrite !filter_all; [simpl; lia| |].
    + apply Forall_forall. intros x Hxl ->. done.
    + apply Forall_forall. intros x Hxl ->. apply (Hx i); [done|by left].
  - rewrite filter_all; [lia|]. apply Forall_forall. intros x Hx ->. by apply He, Hin.
Qed.
Lemma dependencies_first_snoc order i :
  dependencies_first order → (∀ j, edge d i j → j ∈ order) → dependencies_first (order ++ [i]).
Proof.
  intros Ho Hi l1 k l2 Heq j Hj. destruct l2 as [|x l2 _] using rev_ind.
  - apply app_inj_tail in Heq as [-> ->]. by apply Hi.
  - rewrite app_comm_cons, app_assoc in Heq. apply app_inj_tail in Heq as [-> _]. by apply (Ho l1 k l2).
Qed.

(** Executing the ready node [i]. *)
Lemma kahn_step order pending ready R i pending' Z :
  kahn order pending ready → ready ≡ₚ i :: R →
  length pending' = length pending →
  (∀ k, k < n → pending' !! k = if bool_decide (edge d k i) then pred <$> pending !! k else pending !! k) →
  NoDup Z → (∀ k, k ∈ Z ↔ edge d k i ∧ pending !! k = Some 1) →
  kahn (order ++ [i]) pending' (Z ++ R).
Proof.
  intros HK HR Hl Hp HZ Hin. assert (i ∈ ready) as Hi by (rewrite HR; left).
  pose proof (kahn_ready_nodup _ _ _ HK) as Hnd. rewrite HR in Hnd. apply NoDup_cons in Hnd as [HiR HndR].
  apply (kahn_ready _ _ _ HK) in Hi as (Hin' & Hio & Hiu).
  assert (∀ k, k < n → pending' !! k = Some (length (unmet (order ++ [i]) k))) as Hp'.
  { intros k Hk. rewrite (Hp k Hk), (kahn_pending _ _ _ HK k Hk), unmet_length by done.
    case_bool_decide; [simpl; f_equal; lia|f_equal; lia]. }
  assert (∀ k, k ∈ Z → k < n ∧ k ∉ order ∧ k ≠ i ∧ unmet (order ++ [i]) k = []) as HZ'.
  { intros k [Hki Hk1]%Hin. pose proof (edge_lt _ _ _ Hki) as Hk. split; [done|]. split.
    - intros (l1 & l2 & ->)%list_elem_of_split. apply Hio.
      apply elem_of_app. left. by apply (kahn_first _ _ _ HK l1 k l2 eq_refl i).
    - split; [intros ->; destruct Hd as (_ & _ & _ & _ & He & _); by apply He in Hki as [_ ?]|].
      apply nil_length_inv. rewrite unmet_length by done. rewrite (kahn_pending _ _ _ HK k Hk) in Hk1.
      injection Hk1 as ->. by rewrite bool_decide_true. }
  constructor.
  - apply NoDup_app. split; [apply HK|]. split; [|apply NoDup_singleton]. intros x Hx ->%list_elem_of_singleton. done.
  - intros k [Hk| ->%list_elem_of_singleton]%elem_of_app; [by apply HK|done].
  - rewrite Hl. apply HK.
  - exact Hp'.
  - apply NoDup_app. split; [done|]. split; [|done]. intros k [Hki Hk1]%Hin HkR.
    assert (k ∈ ready) as Hkr by (rewrite HR; by right). apply (kahn_ready _ _ _ HK) in Hkr as (Hk & _ & Hu).
    rewrite (kahn_pending _ _ _ HK k Hk), Hu in Hk1. done.
  - intros k. rewrite elem_of_app, not_elem_of_app, list_elem_of_singleton. split.
    + intros [Hk|Hk]; [destruct (HZ' k Hk) as (? & ? & ? & ?); auto|].
      assert (k ∈ ready) as Hkr by (rewrite HR; by right). apply (kahn_ready _ _ _ HK) in Hkr as (Hkn & Hko & Hu).
      split; [done|]. split; [split; [done|]|by rewrite unmet_app, Hu]. intros ->. done.
    + intros (Hk & [Hko Hki] & Hu). destruct (decide (unmet order k = [])) as [He|He].
      { right. assert (k ∈ ready) as Hkr by (apply HK; auto). rewrite HR in Hkr. apply elem_of_cons in Hkr as [|]; done. }
      left. apply Hin. rewrite (kahn_pending _ _ _ HK k Hk). pose proof (unmet_length order i k Hio) as Hul.
      rewrite Hu in Hul. simpl in Hul. destruct (unmet order k) as [|x [|y l]]; [done| |];
        case_bool_decide; simpl in Hul; [done|lia|lia|lia].
  - apply dependencies_first_snoc; [apply HK|]. intros j Hj. destruct (decide (j ∈ order)) as [|Hjo]; [done|].
    exfalso. assert (j ∈ unmet order i) as Hju by (apply list_elem_of_filter; by rewrite <-edge_pre).
    rewrite Hiu in Hju. by apply elem_of_nil in Hju.
Qed.

Section loops.
Context {E : Type}.

(** Decrementing the counts of distinct nodes, none of which is zero. *)
Definition decremented (ds pending pending' : list nat) : Prop :=
  length pending' = length pending ∧
  ∀ k, pending' !! k = if bool_decide (k ∈ ds) then pred <$> pending !! k else pending !! k.
Definition positive_at (ds pending : list nat) : Prop := ∀ k, k ∈ ds → ∃ m, pending !! k = Some (S m).
Lemma decremented_cons k ds pending pending' m :
  NoDup (k :: ds) → pending !! k = Some (S m) → positive_at ds pending →
  decremented ds (<[k := m]> pending) pending' →
  decremented (k :: ds) pending pending' ∧ positive_at ds (<[k := m]> pending).
Proof.
  intros [Hk Hnd]%NoDup_cons Hm Hpos [Hl Hp]. rewrite length_insert in Hl. split.
  - split; [done|]. intros x. rewrite Hp. destruct (decide (x = k)) as [->|Hne].
    + rewrite bool_decide_false, bool_decide_true by (done || by left).
      rewrite list_lookup_insert_eq, Hm by (by apply lookup_lt_Some in Hm). done.
    + rewrite list_lookup_insert_ne by done. erewrite bool_decide_ext; [done|]. rewrite elem_of_cons. naive_solver.
  - intros x Hx. rewrite list_lookup_insert_ne; [by apply Hpos|]. intros ->. done.
Qed.
Lemma decrement_ok pending k m :
  pending !! k = Some (S m) → decrement (E:=E) pending k = Ok (m, <[k := m]> pending).
Proof. intros Hm. unfold decrement. by rewrite Hm. Qed.
Lemma positive_insert k ds pending m :
  k ∉ ds → positive_at ds pending → positive_at ds (<[k := m]> pending).
Proof. intros Hk Hp x Hx. rewrite list_lookup_insert_ne; [by apply Hp|]. intros ->. done. Qed.

Definition keyed (k : nat) : nat * nat := (default 0 (positions d !! k), k).
Definition last_count (ds pending : list nat) : list nat := filter (λ k, pending !! k = Some 1) ds.
Lemma last_count_insert k ds pending m :
  k ∉ ds → last_count ds (<[k := m]> pending) = last_count ds pending.
Proof.
  unfold last_count. induction ds as [|x ds IH]; [done|]. intros [Hne Hk]%not_elem_of_cons.
  rewrite !filter_cons, IH by done. rewrite list_lookup_insert_ne by done. done.
Qed.
Lemma release_ok ds pending ready :
  NoDup ds → positive_at ds pending → Forall (λ k, k < length (positions d)) ds →
  ∃ pending', release (E:=E) (positions d) ds pending ready
      = Ok (pending', (keyed <$> reverse (last_count ds pending)) ++ ready) ∧
    decremented ds pending pending'.
Proof.
  revert pending ready. induction ds as [|k ds IH]; intros pending ready Hnd Hpos Hlt.
  { exists pending. split; [done|]. split; [done|]. intros k. by rewrite bool_decide_false by apply not_elem_of_nil. }
  pose proof (proj1 (NoDup_cons _ _) Hnd) as [Hk Hnd']. apply Forall_cons in Hlt as [Hkl Hlt].
  destruct (Hpos k) as [m Hm]; [by left|]. assert (positive_at ds pending) as Hpos' by (intros x Hx; apply Hpos; by right).
  destruct (lookup_lt_is_Some_2 _ _ Hkl) as [p Hp].
  assert (keyed k = (p, k)) as Hkey by (unfold keyed; by rewrite Hp).
  cbn [release]. rewrite (decrement_ok _ _ _ Hm). cbn [res_bind fst snd].
  assert (∀ r, ∃ pending', release (E:=E) (positions d) ds (<[k := m]> pending) r
      = Ok (pending', (keyed <$> reverse (last_count ds pending)) ++ r) ∧ decremented (k :: ds) pending pending') as Hrec.
  { intros r. destruct (IH (<[k := m]> pending) r) as (pending' & Hr & Hdec); [done|by apply positive_insert|done|].
    rewrite last_count_insert in Hr by done. exists pending'. split; [done|]. by eapply decremented_cons. }
  destruct (Nat.eqb_spec m 0) as [->|Hne].
  - unfold get. rewrite Hp. cbn [res_bind]. destruct (Hrec ((p, k) :: ready)) as (pending' & -> & Hdec).
    exists pending'. split; [|done]. unfold last_count. rewrite filter_cons_True by done.
    by rewrite reverse_cons, fmap_app, <-app_assoc, <-Hkey.
  - destruct (Hrec ready) as (pending' & -> & Hdec). exists pending'. split; [|done].
    unfold last_count. rewrite filter_cons_False; [done|]. rewrite Hm. naive_solver.
Qed.
Lemma release_stack_ok ds pending ready :
  NoDup ds → positive_at ds pending →
  ∃ pending', release_stack (E:=E) ds pending ready = Ok (pending', ready ++ last_count ds pending) ∧
    decremented ds pending pending'.
Proof.
  revert pending ready. induction ds as [|k ds IH]; intros pending ready Hnd Hpos.
  { exists pending. split; [simpl; by rewrite app_nil_r|]. split; [done|].
    intros k. by rewrite bool_decide_false by apply not_elem_of_nil. }
  pose proof (proj1 (NoDup_cons _ _) Hnd) as [Hk Hnd'].
  destruct (Hpos k) as [m Hm]; [by left|]. assert (positive_at ds pending) as Hpos' by (intros x Hx; apply Hpos; by right).
  cbn [release_stack]. rewrite (decrement_ok _ _ _ Hm). cbn [res_bind fst snd].
  destruct (IH (<[k := m]> pending) (if m =? 0 then ready ++ [k] else ready)) as (pending' & Hr & Hdec);
    [done|by apply positive_insert|]. rewrite Hr, last_count_insert by done. exists pending'. split.
  - do 2 f_equal. unfold last_count. destruct (Nat.eqb_spec m 0) as [->|Hne].
    + by rewrite filter_cons_True, <-app_assoc by done.
    + rewrite filter_cons_False; [done|]. rewrite Hm. naive_solver.
  - by eapply decremented_cons.
Qed.

(** A node and those that wait for it. *)
Definition waiting (i : nat) : list nat :=
  match dependents d !! i with Some s => iter s | None => [] end.
Lemma waiting_ok order pending ready i :
  kahn order pending ready → i ∈ ready →
  (∃ s, dependents d !! i = Some s ∧ iter s = waiting i) ∧
  NoDup (waiting i) ∧ positive_at (waiting i) pending ∧ Forall (λ k, k < n) (waiting i) ∧
  ∀ k, k ∈ waiting i ↔ edge d k i.
Proof.
  intros HK Hi. apply (kahn_ready _ _ _ HK) in Hi as (Hin & Hio & _).
  destruct Hd as (Hl & _ & _ & Hwf & _ & Hr). destruct (lookup_lt_is_Some_2 (dependents d) i) as [s Hs]; [by rewrite Hl|].
  unfold waiting. rewrite Hs. assert (∀ k, k ∈ iter s ↔ edge d k i) as Hk by (intros k; by apply Hr).
  split; [eauto|]. split; [by apply iter_nodup, (proj1 (Forall_lookup _ _) Hwf _ _ Hs)|]. split; [|split; [|done]].
  - intros k Hki%Hk. pose proof (edge_lt _ _ _ Hki) as Hkn. rewrite (kahn_pending _ _ _ HK k Hkn).
    assert (i ∈ unmet order k) as Hu by (apply list_elem_of_filter; by rewrite <-edge_pre).
    destruct (unmet order k) as [|x l]; [by apply elem_of_nil in Hu|]. by exists (length l).
  - apply Forall_forall. intros k Hki%Hk. by eapply edge_lt.
Qed.
Lemma kahn_decremented order pending ready R i pending' Z :
  kahn order pending ready → ready ≡ₚ i :: R →
  decremented (waiting i) pending pending' → Z ≡ₚ last_count (waiting i) pending →
  kahn (order ++ [i]) pending' (Z ++ R).
Proof.
  intros HK HR [Hl Hp] HZ. assert (i ∈ ready) as Hi by (rewrite HR; left).
  destruct (waiting_ok _ _ _ _ HK Hi) as (_ & Hnd & _ & _ & Hw). eapply kahn_step; [done..| | |].
  - intros k Hk. rewrite Hp. erewrite bool_decide_ext; [done|apply Hw].
  - rewrite HZ. by apply NoDup_filter.
  - intros k. rewrite HZ. unfold last_count. rewrite list_elem_of_filter, Hw. tauto.
Qed.
Lemma kahn_bound order pending ready : kahn order pending ready → length order ≤ n.
Proof.
  intros HK. rewrite <-(length_seq n 0). apply submseteq_length, NoDup_submseteq; [apply HK|].
  intros i Hi%HK. apply elem_of_seq. lia.
Qed.
Lemma kahn_full order pending ready : kahn order pending ready → length order = n → order ≡ₚ seq 0 n.
Proof.
  intros HK Hl. apply submseteq_length_Permutation; [|rewrite length_seq; lia].
  apply NoDup_submseteq; [apply HK|]. intros i Hi%HK. apply elem_of_seq. lia.
Qed.
Lemma kahn_grows order pending ready i :
  kahn order pending ready → i ∈ ready → length order < n.
Proof.
  intros HK (Hi & Hio & _)%(kahn_ready _ _ _ HK). rewrite <-(length_seq n 0).
  assert (NoDup (order ++ [i])) as Hnd.
  { apply NoDup_app. split; [apply HK|]. split; [|apply NoDup_singleton]. intros x Hx ->%list_elem_of_singleton. done. }
  enough (length (order ++ [i]) ≤ length (seq 0 n)) as He by (rewrite length_app in He; simpl in He; lia).
  apply submseteq_length, NoDup_submseteq; [done|]. intros x [Hx%HK|Hx%list_elem_of_singleton]%elem_of_app; apply elem_of_seq; lia.
Qed.
End loops.
End kahn.

(** ** Cycles *)

Lemma tc_tc {A} (R : relation A) x y : tc (λ a b, tc R a b) x y → tc R x y.
Proof. induction 1 as [x y Hxy|x y z Hxy _ IH]; [done|by trans y]. Qed.
(** In a finite non-empty set in which every element has a successor there is a cycle. *)
Lemma cycle_exists (R : relation nat) (l : list nat) :
  l ≠ [] → (∀ x, x ∈ l → ∃ y, y ∈ l ∧ R x y) → ∃ x, tc R x x.
Proof.
  revert R. induction l as [|x l IH]; intros R Hl Hs; [done|]. destruct (Hs x) as (z & Hz & Hxz); [by left|].
  apply elem_of_cons in Hz as [->|Hz]; [exists x; by apply tc_once|].
  destruct (IH (λ a b, tc R a b)) as [y Hy].
  - intros ->. by apply elem_of_nil in Hz.
  - intros a Ha. destruct (Hs a) as (b & Hb & Hab); [by right|]. apply elem_of_cons in Hb as [->|Hb].
    + exists z. split; [done|]. eapply tc_l; [done|by apply tc_once].
    + exists b. split; [done|by apply tc_once].
  - exists y. by apply tc_tc.
Qed.

Section order.
Context (d : Dag) (Hd : dag_ok d).

(** In an order that puts dependencies first, so are the indirect ones. *)
Lemma dependencies_first_tc order l1 i l2 j :
  dependencies_first d order → order = l1 ++ i :: l2 → tc (edge d) i j → j ∈ l1.
Proof.
  intros Ho Heq Ht. revert l1 l2 Heq. induction Ht as [i j Hij|i k j Hik _ IH]; intros l1 l2 Heq.
  - by eapply Ho.
  - pose proof (Ho _ _ _ Heq _ Hik) as (a & b & ->)%list_elem_of_split.
    apply elem_of_app. left. apply (IH a (b ++ i :: l2)). by rewrite Heq, <-app_assoc.
Qed.
Lemma dependencies_first_acyclic order i :
  NoDup order → dependencies_first d order → i ∈ order → ¬ tc (edge d) i i.
Proof.
  intros Hnd Ho (l1 & l2 & ->)%list_elem_of_split Ht.
  pose proof (dependencies_first_tc _ _ _ _ _ Ho eq_refl Ht) as Hi.
  apply NoDup_app in Hnd as (_ & Hx & _). apply (Hx i); [done|by left].
Qed.
Lemma tc_edge_lt i j : tc (edge d) i j → i < dag_len d ∧ j < dag_len d.
Proof.
  induction 1 as [i j Hij|i k j Hik _ [_ IH]]; (split; [by eapply edge_lt|]); [|done].
  destruct Hd as (_ & _ & _ & _ & He & _). by apply He in Hij as [? _].
Qed.
Definition acyclic : Prop := ∀ i, ¬ tc (edge d) i i.
Lemma full_acyclic order : order ≡ₚ seq 0 (dag_len d) → dependencies_first d order → acyclic.
Proof.
  intros Hp Ho i Ht. destruct (tc_edge_lt _ _ Ht) as [Hi _]. eapply dependencies_first_acyclic; [|done| |done].
  - rewrite Hp. apply NoDup_seq.
  - rewrite Hp. apply elem_of_seq. lia.
Qed.

(** When no node is ready, the nodes that remain hold a cycle. *)
Lemma kahn_stuck order pending :
  kahn d order pending [] → length order = dag_len d ∨ ∃ i, tc (edge d) i i.
Proof.
  intros HK. pose proof (kahn_bound _ _ _ _ HK) as Hb.
  destruct (decide (filter (.∉ order) (seq 0 (dag_len d)) = [])) as [Hnil|Hne]; [left|right].
  - enough (dag_len d ≤ length order) by lia. rewrite <-(length_seq (dag_len d) 0) at 1.
    apply submseteq_length, NoDup_submseteq; [apply NoDup_seq|]. intros x Hx.
    destruct (decide (x ∈ order)) as [|Hxo]; [done|]. exfalso.
    assert (x ∈ filter (.∉ order) (seq 0 (dag_len d))) as Hf by (by apply list_elem_of_filter).
    rewrite Hnil in Hf. by apply elem_of_nil in Hf.
  - eapply cycle_exists; [exact Hne|]. intros x [Hxo Hx]%list_elem_of_filter. apply elem_of_seq in Hx as [_ Hx].
    destruct (unmet d order x) as [|y l] eqn:Hu.
    { assert (x ∈ ([] : list nat)) as Hn; [|by apply elem_of_nil in Hn]. apply (kahn_ready _ _ _ _ HK). done. }
    assert (y ∈ unmet d order x) as Hy by (rewrite Hu; by left).
    apply list_elem_of_filter in Hy as [Hyo Hy]. apply edge_pre in Hy. exists y. split; [|done].
    apply list_elem_of_filter. split; [done|]. apply elem_of_seq.
    destruct Hd as (_ & _ & _ & _ & He & _). apply He in Hy as [? _]. lia.
Qed.
Lemma kahn_exact order pending :
  kahn d order pending [] → length order = dag_len d ↔ acyclic.
Proof.
  intros HK. split; [intros Hl|intros Ha].
  - eapply full_acyclic; [by eapply kahn_full|apply HK].
  - destruct (kahn_stuck _ _ HK) as [|[i Hi]]; [done|]. by apply Ha in Hi.
Qed.

(** The loops start with the nodes that have no dependency. *)
Lemma kahn_start R :
  NoDup R → (∀ k, k ∈ R ↔ k < dag_len d ∧ pre d k = []) → kahn d [] (len <$> dependencies d) R.
Proof.
  intros HR Hin. assert (∀ k, unmet d [] k = pre d k) as Hu.
  { intros k. apply filter_all, Forall_forall. intros x _. apply not_elem_of_nil. }
  constructor; [constructor|by intros i ?%elem_of_nil|by rewrite length_fmap| |done| |].
  - intros k Hk. rewrite Hu, list_lookup_fmap. unfold pre. destruct (lookup_lt_is_Some_2 _ _ Hk) as [s Hs].
    rewrite Hs. simpl. f_equal. symmetry. apply length_iter.
    destruct Hd as (_ & _ & Hwf & _). by apply (proj1 (Forall_lookup _ _) Hwf _ _ Hs).
  - intros k. rewrite Hin, Hu. split; [intros [? ?]; split; [done|split; [apply not_elem_of_nil|done]]|tauto].
  - intros l1 i l2 Heq. destruct l1; discriminate.
Qed.
End order.

(** ** Linearization *)

Lemma key_leb_total x y : key_leb x y = false → key_leb y x = true.
Proof.
  unfold key_leb. rewrite orb_false_iff, orb_true_iff, andb_false_iff, andb_true_iff, Nat.ltb_lt, Nat.ltb_ge,
    Nat.eqb_eq, Nat.eqb_neq, Nat.leb_le, Nat.leb_gt. lia.
Qed.
Lemma key_leb_trans x y z : key_leb x y = true → key_leb y z = true → key_leb x z = true.
Proof.
  unfold key_leb. rewrite !orb_true_iff, !andb_true_iff, !Nat.ltb_lt, !Nat.eqb_eq, !Nat.leb_le. lia.
Qed.
Lemma key_leb_refl x : key_leb x x = true.
Proof. unfold key_leb. by rewrite Nat.eqb_refl, Nat.leb_refl, orb_true_r. Qed.
Lemma pop_min_ok l :
  match pop_min l with
  | None => l = []
  | Some (x, l') => l ≡ₚ x :: l' ∧ ∀ y, y ∈ l → key_leb x y = true
  end.
Proof.
  induction l as [|x l IH]; [done|]. cbn [pop_min]. destruct (pop_min l) as [[y l']|].
  - destruct IH as [Hp Hm]. destruct (key_leb x y) eqn:Hxy.
    + split; [done|]. intros z [->|Hz]%elem_of_cons; [apply key_leb_refl|]. eapply key_leb_trans; [done|by apply Hm].
    + split; [rewrite Hp; constructor|]. intros z [->|Hz]%elem_of_cons; [by apply key_leb_total|by apply Hm].
  - subst l. split; [done|]. intros z ->%list_elem_of_singleton. apply key_leb_refl.
Qed.

Section linearize.
Context {E : Type} (d : Dag) (Hd : dag_ok d).

(** Every node of the order was, among the nodes whose dependencies had all been
    taken, the one with the least position, the least index among equals. *)
Definition earliest_first (order : list nat) : Prop :=
  ∀ l1 i l2, order = l1 ++ i :: l2 →
    ∀ k, k < dag_len d → k ∉ l1 → (∀ j, edge d k j → j ∈ l1) → key_leb (keyed d i) (keyed d k) = true.
Lemma earliest_first_snoc order i :
  earliest_first order →
  (∀ k, k < dag_len d → k ∉ order → (∀ j, edge d k j → j ∈ order) → key_leb (keyed d i) (keyed d k) = true) →
  earliest_first (order ++ [i]).
Proof.
  intros Ho Hi l1 k l2 Heq. destruct l2 as [|x l2 _] using rev_ind.
  - apply app_inj_tail in Heq as [-> ->]. done.
  - rewrite app_comm_cons, app_assoc in Heq. apply app_inj_tail in Heq as [-> _]. by apply (Ho l1 k l2).
Qed.
Lemma unmet_nil order k : unmet d order k = [] ↔ ∀ j, edge d k j → j ∈ order.
Proof.
  unfold unmet. split.
  - intros Hf j Hj%edge_pre. destruct (decide (j ∈ order)) as [|Hjo]; [done|].
    assert (j ∈ filter (.∉ order) (pre d k)) as Hx by (by apply list_elem_of_filter).
    rewrite Hf in Hx. by apply elem_of_nil in Hx.
  - intros Hj. destruct (filter (.∉ order) (pre d k)) as [|j l] eqn:Hf; [done|].
    assert (j ∈ filter (.∉ order) (pre d k)) as Hx by (rewrite Hf; by left).
    apply list_elem_of_filter in Hx as [Hjo Hjk%edge_pre]. by apply Hj in Hjk.
Qed.

Lemma topological_loop_ok fuel pending R order :
  dag_len d - length order < fuel → kahn d order pending R → earliest_first order →
  ∃ order' pending', topological_loop (E:=E) d fuel pending (keyed d <$> R) order = Ok (Some order') ∧
    kahn d order' pending' [] ∧ earliest_first order'.
Proof.
  revert pending R order. induction fuel as [|fuel IH]; intros pending R order Hf HK He; [lia|]. cbn [topological_loop].
  pose proof (pop_min_ok (keyed d <$> R)) as Hpop. destruct (pop_min (keyed d <$> R)) as [[[p i] l']|].
  2:{ apply fmap_nil_inv in Hpop as ->. eauto. }
  destruct Hpop as [Hp Hm]. symmetry in Hp. destruct (Permutation_map_inv _ _ Hp) as (R' & HR' & HR).
  destruct R' as [|i' R']; [done|]. cbn [map] in HR'. injection HR' as Hp0 -> Hl'.
  rename i' into i. assert ((p, i) = keyed d i) as Heq by (unfold keyed; congruence). subst l'.
  change (map (keyed d) R') with (keyed d <$> R').
  assert (i ∈ R) as Hi by (rewrite HR; left). destruct (waiting_ok _ Hd _ _ _ _ HK Hi) as ((s & Hs & Hw) & Hnd & Hpos & Hlt & _).
  unfold get. rewrite Hs. cbn [res_bind]. rewrite Hw.
  destruct (release_ok (E:=E) d (waiting d i) pending (keyed d <$> R')) as (pending' & Hr & Hdec); [done|done| |].
  { destruct Hd as (_ & -> & _). done. }
  rewrite Hr. cbn [res_bind fst snd]. rewrite <-fmap_app.
  pose proof (kahn_grows _ _ _ _ _ HK Hi) as Hg.
  apply IH; [rewrite length_app; simpl; lia| |].
  - eapply kahn_decremented; [done..|apply reverse_Permutation].
  - apply earliest_first_snoc; [done|]. intros k Hk Hko Hkd. rewrite <-Heq. apply Hm.
    apply list_elem_of_fmap_2, (kahn_ready _ _ _ _ HK). by rewrite unmet_nil.
Qed.

Lemma ready_nodes_ok i pending :
  i + length pending ≤ length (positions d) →
  ready_nodes (E:=E) (positions d) i pending =
    Ok (keyed d <$> filter (λ k, pending !! (k - i) = Some 0) (seq i (length pending))).
Proof.
  revert i. induction pending as [|k pending IH]; intros i Hi; [done|]. cbn [ready_nodes length seq] in *.
  rewrite IH by lia. cbn [res_bind]. rewrite filter_cons, Nat.sub_diag.
  assert (filter (λ j, (k :: pending) !! (j - i) = Some 0) (seq (S i) (length pending)) =
          filter (λ j, pending !! (j - S i) = Some 0) (seq (S i) (length pending))) as ->.
  { clear. assert (Forall (λ j, i < j) (seq (S i) (length pending))) as Hf.
    { apply Forall_forall. intros j Hj%elem_of_seq. lia. }
    induction Hf as [|j l Hj Hl IHl]; [done|]. rewrite !filter_cons, IHl.
    replace (j - i) with (S (j - S i)) by lia. done. }
  destruct (Nat.eqb_spec k 0) as [->|Hk].
  - destruct (lookup_lt_is_Some_2 (positions d) i) as [p Hp]; [lia|]. unfold get. rewrite Hp. cbn [res_bind].
    rewrite decide_True by done. cbn [fmap list_fmap]. do 2 f_equal. unfold keyed. by rewrite Hp.
  - rewrite decide_False; [done|]. simpl. congruence.
Qed.
Definition sources : list nat := filter (λ k, (len <$> dependencies d) !! k = Some 0) (seq 0 (dag_len d)).
Lemma kahn_sources : kahn d [] (len <$> dependencies d) sources.
Proof.
  apply kahn_start; [done|apply NoDup_filter, NoDup_seq|]. intros k. unfold sources.
  rewrite list_elem_of_filter, elem_of_seq, list_lookup_fmap. unfold pre. destruct Hd as (_ & _ & Hwf & _).
  destruct (dependencies d !! k) as [s|] eqn:Hs; simpl.
  - pose proof (length_iter s (proj1 (Forall_lookup _ _) Hwf _ _ Hs)) as Hl.
    rewrite <-length_zero_iff_nil, Hl. split; [intros [[= ->] ?]; lia|intros [? ->]; split; [done|lia]].
  - split; [by intros [? _]|]. intros [Hk _]. apply lookup_ge_None in Hs. unfold dag_len in Hk. lia.
Qed.
(** The linearization returns, with an order exactly when there is no cycle. *)
Lemma topological_order_ok :
  ∃ order pending, kahn d order pending [] ∧ earliest_first order ∧
    topological_order (E:=E) d = Ok (if length order =? dag_len d then Some order else None).
Proof.
  unfold topological_order. rewrite ready_nodes_ok by (rewrite length_fmap; destruct Hd as (_ & -> & _); done).
  cbn [res_bind]. rewrite length_fmap.
  assert (filter (λ k, (len <$> dependencies d) !! (k - 0) = Some 0) (seq 0 (length (dependencies d))) = sources) as ->.
  { apply list_filter_iff. intros k. by rewrite Nat.sub_0_r. }
  destruct (topological_loop_ok (S (dag_len d)) (len <$> dependencies d) sources []) as (order & pending & -> & HK & He).
  - simpl. lia.
  - apply kahn_sources.
  - intros l1 i l2 Heq. destruct l1; discriminate.
  - exists order, pending. done.
Qed.

Lemma acyclic_loop_ok fuel pending R order :
  dag_len d - length order < fuel → kahn d order pending R →
  ∃ order' pending', acyclic_loop (E:=E) d fuel pending R (length order) = Ok (Some (length order')) ∧
    kahn d order' pending' [].
Proof.
  revert pending R order. induction fuel as [|fuel IH]; intros pending R order Hf HK; [lia|]. cbn [acyclic_loop].
  destruct R as [|i R _] using rev_ind; [simpl; eauto|].
  rewrite last_snoc. assert (i ∈ R ++ [i]) as Hi by (apply elem_of_app; right; by left).
  destruct (waiting_ok _ Hd _ _ _ _ HK Hi) as ((s & Hs & Hw) & Hnd & Hpos & _ & _).
  unfold get. rewrite Hs. cbn [res_bind]. rewrite Hw, removelast_last.
  destruct (release_stack_ok (E:=E) (waiting d i) pending R) as (pending' & -> & Hdec); [done|done|].
  cbn [res_bind fst snd]. pose proof (kahn_grows _ _ _ _ _ HK Hi) as Hg.
  destruct (IH pending' (R ++ last_count (waiting d i) pending) (order ++ [i])) as (order' & p' & Hl & HK').
  - rewrite length_app. simpl. lia.
  - assert (kahn d (order ++ [i]) pending' (last_count (waiting d i) pending ++ R)) as HK'.
    { eapply kahn_decremented; [done|done| |done|done]. by rewrite Permutation_app_comm. }
    destruct HK'. constructor; [done..| | |done].
    + by rewrite Permutation_app_comm.
    + intros k. by rewrite Permutation_app_comm.
  - exists order', p'. split; [|done]. rewrite <-Hl. f_equal. rewrite length_app. simpl. lia.
Qed.
Lemma is_acyclic_ok : ∃ b : bool, is_acyclic (E:=E) d = Ok b ∧ (b = true ↔ acyclic d).
Proof.
  unfold is_acyclic. destruct (acyclic_loop_ok (S (dag_len d)) (len <$> dependencies d) sources [])
    as (order & pending & Hl & HK); [simpl; lia|apply kahn_sources|].
  unfold sources in Hl. cbn [length] in Hl. rewrite Hl. cbn [res_bind]. eexists. split; [done|].
  rewrite Nat.eqb_eq. by eapply kahn_exact.
Qed.
End linearize.

Lemma topological_order_perm {E} `{GraphNode Nd} (nodes : list Nd) :
  ∃ o, topological_order (E:=E) (dag_new nodes) = Ok o ∧ ∀ order, o = Some order → order ≡ₚ seq 0 (length nodes).
Proof.
  destruct (dag_new_ok nodes) as (Hd & Hn & _). destruct (topological_order_ok (E:=E) _ Hd) as (order & pending & HK & _ & ->).
  eexists. split; [done|]. intros o Ho. destruct (Nat.eqb_spec (length order) (dag_len (dag_new nodes))) as [Hl|]; [|done].
  injection Ho as <-. rewrite <-Hn. by eapply kahn_full.
Qed.
(** The linearization of a graph of nodes never panics and terminates.  It
    returns an order exactly when the relation of [depends_on] has no cycle, which
    [is_acyclic] decides with its own stack; the order lists every node once, after
    everything it depends on, and always takes the ready node with the least
    position, the least index among equals. *)
Theorem topological_order_exact {E} `{GraphNode Nd} (nodes : list Nd) :
  let d := dag_new nodes in
  ∃ o b, topological_order (E:=E) d = Ok o ∧ is_acyclic (E:=E) d = Ok b ∧
    (∀ i j, edge d i j ↔
      i ≠ j ∧ ∃ x y, nodes !! i = Some x ∧ nodes !! j = Some y ∧ depends_on x y = true) ∧
    (b = true ↔ ∀ i, ¬ tc (edge d) i i) ∧ b = bool_decide (is_Some o) ∧
    ∀ order, o = Some order →
      order ≡ₚ seq 0 (length nodes) ∧ dependencies_first d order ∧ earliest_first d order.
Proof.
  intros d. destruct (dag_new_ok nodes) as (Hd & Hn & _ & He).
  destruct (topological_order_ok (E:=E) d Hd) as (order & pending & HK & Hfirst & Ho).
  destruct (is_acyclic_ok (E:=E) d Hd) as (b & Hb & Hbd). eexists _, b. split; [exact Ho|]. split; [done|].
  split; [done|]. split; [exact Hbd|]. 
  assert (length order = dag_len d ↔ b = true) as Hex by (etrans; [exact (kahn_exact d Hd _ _ HK)|by symmetry]).
  destruct (Nat.eqb_spec (length order) (dag_len d)) as [Hl|Hl]; split.
  - apply Hex in Hl as ->. by rewrite bool_decide_true by eauto.
  - intros ? [= <-]. split; [|split; [apply HK|done]]. rewrite <-Hn. by eapply kahn_full.
  - rewrite bool_decide_false by (intros [? ?]; done). destruct b; [|done]. exfalso. by apply Hl, Hex.
  - done.
Qed.
