(* ===== verification/FusionReach.v ===== *)
(** * Reachability and contraction of dependency graphs

    What [Dag::reachability] computes, by one pass in topological order and by the
    loop to a fixed point, and what [Reachability::can_contract] decides. *)

From S2P Require Import Prelude FusionGraph FusionSets FusionDag.
Import SubGraph.
Open Scope nat_scope.

Section relax.
Context {E : Type} (d : Dag) (Hd : dag_ok d).
Abbreviation n := (dag_len d).
Implicit Types anc : list t.

(** Row [i] holds [k]. *)
Definition row anc (i k : nat) : Prop := ∃ s, anc !! i = Some s ∧ k ∈ iter s.
Definition table anc : Prop := length anc = n ∧ Forall wf anc.
Lemma row_lookup anc i s k : anc !! i = Some s → row anc i k ↔ k ∈ iter s.
Proof. intros Hs. unfold row. rewrite Hs. naive_solver. Qed.
Lemma row_insert anc i s j k : i < length anc → row (<[i := s]> anc) j k ↔ if decide (j = i) then k ∈ iter s else row anc j k.
Proof.
  intros Hi. case_decide as Hji; [subst j|].
  - apply row_lookup. by rewrite list_lookup_insert_eq.
  - unfold row. by rewrite list_lookup_insert_ne.
Qed.
Lemma row_edge i k : row (dependencies d) i k ↔ edge d i k.
Proof. done. Qed.
Lemma iter_union s s' k : wf s → wf s' → k ∈ iter (union_with s s') ↔ k ∈ iter s ∨ k ∈ iter s'.
Proof. intros Hs Hs'. by rewrite !elem_of_iter, mem_union, orb_true_iff by (done || by apply wf_union). Qed.
Lemma table_wf anc i s : table anc → anc !! i = Some s → wf s.
Proof. intros [_ Hwf] Hs. by apply (proj1 (Forall_lookup _ _) Hwf _ _ Hs). Qed.
Lemma table_get anc i : table anc → i < n → ∃ s, anc !! i = Some s ∧ get (E:=E) anc i = Ok s ∧ wf s.
Proof.
  intros Ht Hi. destruct (lookup_lt_is_Some_2 anc i) as [s Hs]; [by rewrite (proj1 Ht)|].
  exists s. unfold get. rewrite Hs. split; [done|]. split; [done|by eapply table_wf].
Qed.
Lemma table_insert anc i s : table anc → wf s → table (<[i := s]> anc).
Proof. intros [Hl Hwf] Hs. split; [by rewrite length_insert|by apply Forall_insert]. Qed.
Lemma table_dependencies : table (dependencies d).
Proof. destruct Hd as (_ & _ & Hwf & _). done. Qed.

Lemma absorb_ok anc acc js :
  table anc → wf acc → Forall (λ j, j < n) js →
  ∃ acc', absorb (E:=E) anc acc js = Ok acc' ∧ wf acc' ∧
    ∀ k, k ∈ iter acc' ↔ k ∈ iter acc ∨ ∃ j, j ∈ js ∧ row anc j k.
Proof.
  intros Ht. revert acc. induction js as [|j js IH]; intros acc Hacc Hjs; cbn [absorb].
  { exists acc. split; [done|]. split; [done|]. intros k. split; [by left|].
    intros [|(j & Hj%elem_of_nil & _)]; done. }
  apply Forall_cons in Hjs as [Hj Hjs]. destruct (table_get anc j Ht Hj) as (s & Hs & -> & Hwf). cbn [res_bind].
  destruct (IH (union_with acc s)) as (acc' & -> & Hwf' & Hk); [by apply wf_union|done|].
  exists acc'. split; [done|]. split; [done|]. intros k. rewrite Hk, iter_union by done.
  rewrite <-(row_lookup anc j s k Hs). setoid_rewrite elem_of_cons. naive_solver.
Qed.
Lemma relax_ok anc i :
  table anc → i < n →
  ∃ s s', anc !! i = Some s ∧ relax (E:=E) d anc i = Ok (<[i := s']> anc) ∧ wf s' ∧
    ∀ k, k ∈ iter s' ↔ row anc i k ∨ ∃ j, edge d i j ∧ row anc j k.
Proof.
  intros Ht Hi. unfold relax. destruct (table_get anc i Ht Hi) as (s & Hs & -> & Hwf). cbn [res_bind].
  destruct (table_get _ i table_dependencies Hi) as (ds & Hds & -> & _). cbn [res_bind].
  assert (∀ j, j ∈ iter ds ↔ edge d i j) as Hj by (intros j; rewrite <-row_edge; symmetry; by apply row_lookup).
  destruct Hd as (_ & _ & _ & _ & He & _).
  destruct (absorb_ok (<[i := empty]> anc) s (iter ds)) as (s' & -> & Hwf' & Hk).
  { apply table_insert; [done|apply wf_empty]. } { done. }
  { apply Forall_forall. intros j [? _]%Hj%He. done. }
  exists s, s'. split; [done|]. split; [done|]. split; [done|]. intros k. rewrite Hk, (row_lookup anc i s k Hs).
  assert (i < length anc) as Hil by (by rewrite (proj1 Ht)). apply or_iff_compat_l. split.
  - intros (j & Hji%Hj & Hr). rewrite row_insert in Hr by done. apply He in Hji as Hne.
    rewrite decide_False in Hr by naive_solver. eauto.
  - intros (j & Hji & Hr). exists j. split; [by apply Hj|]. rewrite row_insert by done. apply He in Hji as Hne.
    rewrite decide_False by naive_solver. done.
Qed.

(** ** The pass in topological order *)

Lemma tc_edge_inv i k : tc (edge d) i k ↔ edge d i k ∨ ∃ j, edge d i j ∧ tc (edge d) j k.
Proof.
  split; [intros Ht; inversion Ht; subst; eauto|]. intros [He|(j & He & Ht)]; [by apply tc_once|by eapply tc_l].
Qed.
Lemma relax_all_ok order done_ rest anc :
  order = done_ ++ rest → NoDup order → (∀ i, i ∈ order → i < n) → dependencies_first d order → table anc →
  (∀ i k, row anc i k ↔ if decide (i ∈ done_) then tc (edge d) i k else edge d i k) →
  ∃ anc', relax_all (E:=E) d anc rest = Ok anc' ∧ table anc' ∧
    ∀ i k, row anc' i k ↔ if decide (i ∈ order) then tc (edge d) i k else edge d i k.
Proof.
  intros Ho Hnd Hlt Hf. revert done_ anc Ho. induction rest as [|i rest IH]; intros done_ anc Ho Ht Hrow; cbn [relax_all].
  { rewrite app_nil_r in Ho. subst done_. eauto. }
  assert (i < n) as Hi by (apply Hlt; rewrite Ho; apply elem_of_app; right; by left).
  destruct (relax_ok anc i Ht Hi) as (s & s' & Hs & -> & Hwf & Hk). cbn [res_bind].
  apply (IH (done_ ++ [i])); [by rewrite <-app_assoc|by apply table_insert|]. intros a k.
  rewrite row_insert by (by rewrite (proj1 Ht)). destruct (decide (a = i)) as [->|Hne].
  - rewrite decide_True by (apply elem_of_app; right; by left). rewrite Hk, tc_edge_inv.
    assert (i ∉ done_) as Hid.
    { intros Hid. rewrite Ho in Hnd. apply NoDup_app in Hnd as (_ & Hx & _). apply (Hx i); [done|by left]. }
    rewrite (Hrow i k), decide_False by done. apply or_iff_compat_l.
    split; intros (j & Hij & Hjk); exists j; (split; [done|]); rewrite (Hrow j k) in *;
      rewrite decide_True in * by (by eapply Hf); done.
  - rewrite (Hrow a k). apply reflexive_eq. apply decide_ext. rewrite elem_of_app, list_elem_of_singleton. tauto.
Qed.

(** ** The loop to a fixed point *)

Definition total anc : nat := sum_list_with len anc.
(** Between the direct dependencies and all of them. *)
Definition between anc : Prop :=
  table anc ∧ (∀ i k, edge d i k → row anc i k) ∧ (∀ i k, row anc i k → tc (edge d) i k).
Lemma iter_incl_len s s' :
  wf s → wf s' → (∀ k, k ∈ iter s → k ∈ iter s') →
  len s ≤ len s' ∧ (len s' = len s → ∀ k, k ∈ iter s' → k ∈ iter s).
Proof.
  intros Hs Hs' Hk. rewrite <-!length_iter by done.
  assert (iter s ⊆+ iter s') as Hsub by (apply NoDup_submseteq; [by apply iter_nodup|exact Hk]).
  split; [by apply submseteq_length|]. intros Hl k Hk'.
  rewrite (submseteq_length_Permutation _ _ Hsub) by lia. done.
Qed.
Lemma ancestors_total_insert anc i s s' : anc !! i = Some s → total (<[i := s']> anc) + len s = total anc + len s'.
Proof.
  unfold total. revert i. induction anc as [|x anc IH]; intros [|i] Hs; try done.
  - injection Hs as ->. change (<[0 := s']> (s :: anc)) with (s' :: anc). cbn [sum_list_with]. lia.
  - change (<[S i := s']> (x :: anc)) with (x :: <[i := s']> anc). cbn [sum_list_with]. pose proof (IH i Hs). lia.
Qed.
Lemma total_bound anc : between anc → total anc ≤ n * n.
Proof.
  intros [[Hl Hwf] [_ Htc]]. rewrite <-Hl at 1. unfold total.
  assert (∀ i s, anc !! i = Some s → len s ≤ n) as Hb.
  { intros i s Hs. pose proof (proj1 (Forall_lookup _ _) Hwf _ _ Hs) as Hws. rewrite <-length_iter by done.
    rewrite <-(length_seq n 0). apply submseteq_length, NoDup_submseteq; [by apply iter_nodup|].
    intros k Hk. apply elem_of_seq. split; [lia|]. simpl.
    apply (tc_edge_lt d Hd i k), Htc. by exists s. }
  clear -Hb. induction anc as [|x anc IH]; [simpl; lia|]. cbn [sum_list_with length].
  pose proof (Hb 0 x eq_refl). specialize (IH (λ i, Hb (S i))). lia.
Qed.
Lemma relax_between anc i :
  between anc → i < n →
  ∃ s s', anc !! i = Some s ∧ relax (E:=E) d anc i = Ok (<[i := s']> anc) ∧ between (<[i := s']> anc) ∧
    len s ≤ len s' ∧
    (len s' = len s → (∀ a k, row (<[i := s']> anc) a k ↔ row anc a k) ∧
                      ∀ j k, edge d i j → row anc j k → row anc i k).
Proof.
  intros (Ht & Hlo & Hhi) Hi. destruct (relax_ok anc i Ht Hi) as (s & s' & Hs & Hr & Hwf & Hk).
  exists s, s'. split; [done|]. split; [done|]. assert (i < length anc) as Hil by (by rewrite (proj1 Ht)).
  destruct (iter_incl_len s s') as [Hle Heq]; [by eapply table_wf|done| |].
  { intros k Hks. apply Hk. left. by rewrite (row_lookup anc i s). }
  split; [split; [by apply table_insert|split; intros a k; rewrite row_insert by done; case_decide; subst; auto]|].
  - intros He. apply Hk. left. by apply Hlo.
  - intros [Hr'|(j & He & Hr')]%Hk; [by apply Hhi|]. eapply tc_l; [done|by apply Hhi].
  - split; [done|]. intros Hl. specialize (Heq Hl). split.
    + intros a k. rewrite row_insert by done. case_decide; [subst a|done]. rewrite (row_lookup anc i s) by done.
      split; [by apply Heq|]. intros Hks. apply Hk. left. by rewrite (row_lookup anc i s).
    + intros j k He Hj. rewrite (row_lookup anc i s) by done. apply Heq, Hk. eauto.
Qed.
Lemma relax_sweep_ok anc c idx :
  between anc → (∀ i, i ∈ idx → i < n) →
  ∃ anc' c', relax_sweep (E:=E) d anc c idx = Ok (anc', c') ∧ between anc' ∧ total anc ≤ total anc' ∧
    (c' = true → c = true ∨ total anc < total anc') ∧
    (c' = false → c = false ∧ (∀ a k, row anc' a k ↔ row anc a k) ∧
                  ∀ i j k, i ∈ idx → edge d i j → row anc j k → row anc i k).
Proof.
  revert anc c. induction idx as [|i idx IH]; intros anc c Hb Hlt; cbn [relax_sweep].
  { exists anc, c. split; [done|]. split; [done|]. split; [done|]. split; [by left|].
    intros Hc. split; [done|]. split; [done|]. by intros i j k ?%elem_of_nil. }
  destruct (relax_between anc i Hb) as (s & s' & Hs & Hr & Hb' & Hle & Heq); [apply Hlt; by left|].
  unfold get at 1. rewrite Hs. cbn [res_bind]. rewrite Hr. cbn [res_bind]. unfold get.
  rewrite list_lookup_insert_eq by (by apply lookup_lt_Some in Hs). cbn [res_bind].
  destruct (IH (<[i := s']> anc) (c || negb (len s' =? len s))) as (anc' & c' & -> & Hb'' & Htot & Hch & Hsame);
    [done|intros j Hj; apply Hlt; by right|]. pose proof (ancestors_total_insert anc i s s' Hs) as Hti.
  exists anc', c'. split; [done|]. split; [done|]. split; [lia|]. split.
  - intros [Hc|Hc]%Hch; [|right; lia]. apply orb_true_iff in Hc as [->|Hc]; [by left|].
    right. apply negb_true_iff, Nat.eqb_neq in Hc. lia.
  - intros Hc. destruct (Hsame Hc) as ([Hc0 Hl]%orb_false_iff & Hrow & Hcl). split; [done|].
    apply negb_false_iff, Nat.eqb_eq in Hl. destruct (Heq Hl) as [Hrow' Hcl']. split.
    + intros a k. by rewrite Hrow, Hrow'.
    + intros a j k [->|Ha]%elem_of_cons He Hj; [by eapply Hcl'|]. rewrite <-Hrow' in Hj |- *. by eapply Hcl.
Qed.
Lemma relax_fixpoint_ok fuel anc :
  between anc → n * n - total anc < fuel →
  ∃ anc', relax_fixpoint (E:=E) d fuel anc = Ok (Some anc') ∧ table anc' ∧
    ∀ i k, row anc' i k ↔ tc (edge d) i k.
Proof.
  revert anc. induction fuel as [|fuel IH]; intros anc Hb Hf; [lia|]. cbn [relax_fixpoint].
  destruct (relax_sweep_ok anc false (seq 0 n)) as (anc' & c' & -> & Hb' & Htot & Hch & Hsame); [done| |].
  { intros i Hi%elem_of_seq. lia. }
  cbn [res_bind fst snd]. pose proof (total_bound _ Hb'). destruct c'.
  { apply IH; [done|]. destruct (Hch eq_refl) as [|]; [done|lia]. }
  exists anc'. split; [done|]. split; [apply Hb'|]. destruct (Hsame eq_refl) as (_ & Hrow & Hcl).
  destruct Hb' as (_ & Hlo & Hhi). intros i k. split; [apply Hhi|]. induction 1 as [i k He|i j k He _ IHt]; [by apply Hlo|].
  rewrite Hrow in IHt |- *. eapply Hcl; [|done|done]. apply elem_of_seq. apply edge_lt in He. lia.
Qed.
Lemma between_dependencies : between (dependencies d).
Proof. split; [apply table_dependencies|]. split; [done|]. intros i k He. by apply tc_once. Qed.

(** ** Transposition *)

Lemma transpose_row_ok i js desc :
  table desc → Forall (λ j, j < n) js →
  ∃ desc', transpose_row (E:=E) i js desc = Ok desc' ∧ table desc' ∧
    ∀ j k, row desc' j k ↔ row desc j k ∨ (k = i ∧ j ∈ js).
Proof.
  intros Ht Hjs. revert desc Ht. induction Hjs as [|j js Hj Hjs IH]; intros desc Ht; cbn [transpose_row].
  { exists desc. split; [done|]. split; [done|]. intros j k. split; [by left|]. intros [|[_ ?%elem_of_nil]]; done. }
  destruct (table_get desc j Ht Hj) as (s & Hs & -> & Hwf). cbn [res_bind].
  destruct (IH (alter (insert i) j desc)) as (desc' & -> & Ht' & Hrow).
  { destruct Ht as [Hl Hf]. split; [by rewrite length_alter|by apply alter_insert_wf]. }
  exists desc'. split; [done|]. split; [done|]. intros a k. rewrite Hrow, elem_of_cons. unfold row at 1.
  split.
  - intros [(s' & Hs' & Hk)|[? ?]]; [|auto].
    destruct (alter_insert_iter _ _ _ _ _ k (proj2 Ht) Hs') as (s0 & Hs0 & Hiff). destruct (proj1 Hiff Hk) as [[-> ->]|Hk0]; [auto|].
    left. by exists s0.
  - intros [(s' & Hs' & Hk)|[-> [->|Ha]]]; [|left|auto].
    + left. destruct (lookup_lt_is_Some_2 (alter (insert i) j desc) a) as [s1 Hs1].
      { rewrite length_alter. by apply lookup_lt_Some in Hs'. }
      exists s1. split; [done|]. destruct (alter_insert_iter _ _ _ _ _ k (proj2 Ht) Hs1) as (s0 & Hs0 & ->).
      right. congruence.
    + destruct (lookup_lt_is_Some_2 (alter (insert i) j desc) j) as [s1 Hs1].
      { rewrite length_alter. by apply lookup_lt_Some in Hs. }
      exists s1. split; [done|]. destruct (alter_insert_iter _ _ _ _ _ i (proj2 Ht) Hs1) as (s0 & Hs0 & ->). by left.
Qed.
Lemma transpose_rows_ok i anc desc :
  Forall wf anc → Forall (λ s, ∀ k, k ∈ iter s → k < n) anc → table desc →
  ∃ desc', transpose_rows (E:=E) i anc desc = Ok desc' ∧ table desc' ∧
    ∀ j k, row desc' j k ↔ row desc j k ∨ (i ≤ k ∧ row anc (k - i) j).
Proof.
  intros Hwf Hlt. revert i desc. induction anc as [|a anc IH]; intros i desc Ht; cbn [transpose_rows].
  { exists desc. split; [done|]. split; [done|]. intros j k. split; [by left|]. intros [|[_ (s & Hs & _)]]; done. }
  apply Forall_cons in Hwf as [Ha Hwf]. apply Forall_cons in Hlt as [Hal Hlt].
  destruct (transpose_row_ok i (iter a) desc Ht) as (desc1 & -> & Ht1 & Hrow1); [by apply Forall_forall|].
  cbn [res_bind]. destruct (IH Hwf Hlt (S i) desc1 Ht1) as (desc' & -> & Ht' & Hrow).
  exists desc'. split; [done|]. split; [done|]. intros j k. rewrite Hrow, Hrow1. unfold row at 2 4. split.
  - intros [[Hd'|[-> Hj]]|[Hik (s & Hs & Hj)]]; [by left|right..].
    + split; [done|]. rewrite Nat.sub_diag. by exists a.
    + split; [lia|]. exists s. by replace (k - i) with (S (k - S i)) by lia.
  - intros [Hd'|[Hik (s & Hs & Hj)]]; [by left; left|]. destruct (decide (k = i)) as [->|Hne].
    + rewrite Nat.sub_diag in Hs. injection Hs as ->. left. by right.
    + right. split; [lia|]. exists s. by replace (k - i) with (S (k - S i)) in Hs by lia.
Qed.

(** The rows of a reachability: everything a node depends on, and everything that
    depends on it. *)
Definition reach_ok (r : Reachability) : Prop :=
  table (ancestors r) ∧ table (descendants r) ∧
  (∀ i k, row (ancestors r) i k ↔ tc (edge d) i k) ∧ (∀ i k, row (descendants r) i k ↔ tc (edge d) k i).
Lemma reachability_ok : ∃ r, reachability (E:=E) d = Ok r ∧ reach_ok r.
Proof.
  unfold reachability. destruct (topological_order_ok (E:=E) d Hd) as (order & pending & HK & _ & ->). cbn [res_bind].
  assert (∃ anc, (match (if length order =? n then Some order else None) with
      | Some order => relax_all (E:=E) d (dependencies d) order
      | None => let? r := relax_fixpoint d (n * n + 1) (dependencies d) in
                match r with Some anc => Ok anc | None => Panic end
      end) = Ok anc ∧ table anc ∧ ∀ i k, row anc i k ↔ tc (edge d) i k) as (anc & -> & Ht & Hrow).
  { destruct (Nat.eqb_spec (length order) n) as [Hl|Hl].
    - destruct (relax_all_ok order [] order (dependencies d)) as (anc & Ha & Ht & Hrow);
        [done|apply HK|apply HK|apply HK|apply table_dependencies|done|].
      exists anc. split; [done|]. split; [done|]. intros i k. rewrite Hrow. case_decide as Hio; [done|].
      split; [by intros He; apply tc_once|]. intros Ht'. exfalso. apply Hio. rewrite (kahn_full _ _ _ _ HK Hl).
      apply elem_of_seq. apply tc_edge_lt in Ht'; [lia|done].
    - destruct (relax_fixpoint_ok (n * n + 1) (dependencies d)) as (anc & -> & Ht & Hrow);
        [apply between_dependencies|lia|]. simpl. eauto. }
  cbn [res_bind]. assert (table (replicate n empty)) as Ht0.
  { split; [apply length_replicate|apply Forall_replicate, wf_empty]. }
  destruct (transpose_rows_ok 0 anc (replicate n empty)) as (desc & -> & Htd & Hdesc); [apply Ht| |done|].
  { apply Forall_forall. intros s (i & Hs)%list_elem_of_lookup k Hk.
    apply (tc_edge_lt d Hd i k), Hrow. by exists s. }
  cbn [res_bind]. eexists. split; [done|]. split; [done|]. split; [done|]. split; [done|].
  intros i k. cbn [descendants]. rewrite Hdesc, Nat.sub_0_r, Hrow. split; [|intros ?; right; split; [lia|done]].
  intros [(s & [-> _]%lookup_replicate & Hk)|[_ ?]]; [|done].
  rewrite elem_of_iter, mem_empty in Hk by apply wf_empty. done.
Qed.
End relax.

(** ** Contraction *)

(** The graph in which the nodes of [U] have become one, [None]. *)
Definition contracted (U : gset nat) (k : nat) : option nat := if decide (k ∈ U) then None else Some k.
Definition contracted_edge (d : Dag) (U : gset nat) (x y : option nat) : Prop :=
  x ≠ y ∧ ∃ i j, contracted U i = x ∧ contracted U j = y ∧ edge d i j.
(** No path leaves [U] and comes back to it. *)
Definition convex (d : Dag) (U : gset nat) : Prop :=
  ∀ i k j, i ∈ U → j ∈ U → tc (edge d) i k → tc (edge d) k j → k ∈ U.

Section contract.
Context (d : Dag) (U : gset nat).
Abbreviation cedge := (contracted_edge d U).
Abbreviation rep := (contracted U).
Lemma contracted_None k : rep k = None ↔ k ∈ U.
Proof. unfold contracted. case_decide; naive_solver. Qed.
Lemma contracted_Some k a : rep k = Some a ↔ k = a ∧ a ∉ U.
Proof. unfold contracted. case_decide; naive_solver. Qed.
Lemma contracted_rtc i j : tc (edge d) i j → rtc cedge (rep i) (rep j).
Proof.
  induction 1 as [i j He|i j k He _ IH].
  - destruct (decide (rep i = rep j)) as [->|Hne]; [done|]. apply rtc_once. split; [done|]. eauto.
  - destruct (decide (rep i = rep j)) as [->|Hne]; [done|]. eapply rtc_l; [|done]. split; [done|]. eauto.
Qed.
Definition linked (x y : option nat) : Prop := ∃ i j, rep i = x ∧ rep j = y ∧ tc (edge d) i j.
Lemma linked_trans x k y : linked x (Some k) → linked (Some k) y → linked x y.
Proof.
  intros (i & j & Hi & [-> _]%contracted_Some & H1) (i' & j' & [-> _]%contracted_Some & Hj & H2).
  exists i, j'. split; [done|]. split; [done|]. by etrans.
Qed.
Lemma contracted_tc x y : tc cedge x y → linked x y ∨ (linked x None ∧ linked None y).
Proof.
  induction 1 as [x y (_ & i & j & Hi & Hj & He)|x z y (_ & i & j & Hi & Hj & He) _ IH].
  { left. exists i, j. auto using tc_once. }
  assert (linked x z) as Hxz by (exists i, j; auto using tc_once). destruct z as [k|].
  - destruct IH as [IH|[IH1 IH2]]; [left|right; split; [|done]]; by eapply linked_trans.
  - right. split; [done|]. destruct IH as [|[_ ?]]; done.
Qed.
Lemma convex_linked k : convex d U → linked None (Some k) → linked (Some k) None → False.
Proof.
  intros Hc (i & k1 & Hi%contracted_None & [-> Hk]%contracted_Some & H1)
    (k2 & j & [-> _]%contracted_Some & Hj%contracted_None & H2). apply Hk. by apply (Hc i k j).
Qed.
Lemma contraction_acyclic : acyclic d → convex d U ↔ ∀ x, ¬ tc cedge x x.
Proof.
  intros Ha. split.
  - intros Hc [k|] Ht.
    + destruct (contracted_tc _ _ Ht) as [(i & j & [-> _]%contracted_Some & [-> _]%contracted_Some & H1)|[H1 H2]];
        [by apply Ha in H1|by eapply convex_linked].
    + inversion Ht as [? ? [Hne _]|? [k|] ? He Ht']; subst; [done| |by destruct He as [Hne _]].
      apply (convex_linked k Hc).
      * destruct He as (_ & i & j & Hi & Hj & He). exists i, j. auto using tc_once.
      * destruct (contracted_tc _ _ Ht') as [|[? _]]; done.
  - intros Hn i k j Hi%contracted_None Hj%contracted_None H1%contracted_rtc H2%contracted_rtc.
    destruct (decide (k ∈ U)) as [|Hk]; [done|]. exfalso. rewrite Hi in H1. rewrite Hj in H2.
    assert (rep k = Some k) as Hrk by (by apply contracted_Some). rewrite Hrk in *.
    apply rtc_tc in H1 as [?|H1]; [done|]. apply (Hn None). by eapply tc_rtc_r.
Qed.
End contract.

Section can_contract.
Context {E : Type} (d : Dag) (r : Reachability) (Hr : reach_ok d r).

Lemma union_rows_ok rows acc idx :
  table d rows → wf acc → (∀ i, i ∈ idx → i < dag_len d) →
  ∃ s, union_rows (E:=E) rows acc idx = Ok s ∧ wf s ∧ ∀ k, k ∈ iter s ↔ k ∈ iter acc ∨ ∃ i, i ∈ idx ∧ row rows i k.
Proof.
  intros Ht. revert acc. induction idx as [|i idx IH]; intros acc Hacc Hlt; cbn [union_rows].
  { exists acc. split; [done|]. split; [done|]. intros k. split; [by left|]. intros [|(i & ?%elem_of_nil & _)]; done. }
  destruct (table_get (E:=E) d rows i Ht) as (s & Hs & -> & Hwf); [apply Hlt; by left|]. cbn [res_bind].
  destruct (IH (union_with acc s)) as (s' & -> & Hwf' & Hk); [by apply wf_union|intros j Hj; apply Hlt; by right|].
  exists s'. split; [done|]. split; [done|]. intros k. rewrite Hk, iter_union by done.
  rewrite <-(row_lookup rows i s k Hs). setoid_rewrite elem_of_cons. naive_solver.
Qed.
Lemma can_contract_ok a b (A B : gset nat) :
  repr a A → repr b B → (∀ k, k ∈ A ∪ B → k < dag_len d) →
  ∃ c, can_contract (E:=E) r a b = Ok c ∧ (c = true ↔ A ≠ ∅ ∧ B ≠ ∅ ∧ convex d (A ∪ B)).
Proof.
  intros Ha Hb Hlt. pose proof (repr_is_empty _ _ Ha) as Hea. pose proof (repr_is_empty _ _ Hb) as Heb. unfold can_contract.
  destruct (is_empty a) eqn:Hia; [eexists; split; [done|]; split; [done|]; intros [? _]; naive_solver|].
  destruct (is_empty b) eqn:Hib; [eexists; split; [done|]; split; [done|]; intros (_ & ? & _); naive_solver|].
  cbn [orb]. pose proof (repr_union _ _ _ _ Ha Hb) as Hu. set (U := A ∪ B) in *.
  destruct Hr as (Hta & Htd & Hra & Hrd).
  assert (∀ i, i ∈ iter (union_with a b) → i < dag_len d) as Hil by (intros i Hi; by apply Hlt, (repr_iter _ _ _ Hu)).
  destruct (union_rows_ok (ancestors r) empty (iter (union_with a b)) Hta wf_empty Hil) as (sa & -> & Hwa & Hka).
  cbn [res_bind].
  destruct (union_rows_ok (descendants r) empty (iter (union_with a b)) Htd wf_empty Hil) as (sd & -> & Hwd & Hkd).
  cbn [res_bind]. eexists. split; [done|].
  rewrite (repr_is_empty _ _ (repr_subtract _ _ _ _ (repr_intersect _ _ _ _ (wf_repr _ Hwa) (wf_repr _ Hwd)) Hu)).
  assert (∀ k, k ∉ iter empty) as Hne by (intros k; rewrite elem_of_iter, mem_empty by apply wf_empty; done).
  split.
  - intros Hs. split; [naive_solver|]. split; [naive_solver|]. intros i k j Hi Hj H1 H2.
    destruct (decide (k ∈ U)) as [|Hk]; [done|]. exfalso. apply (not_elem_of_empty (C:=gset nat) k). rewrite <-Hs.
    apply elem_of_difference. split; [|done]. apply elem_of_intersection. rewrite !elem_of_list_to_set. split.
    + apply Hka. right. exists i. split; [by apply (repr_iter _ _ _ Hu)|by apply Hra].
    + apply Hkd. right. exists j. split; [by apply (repr_iter _ _ _ Hu)|by apply Hrd].
  - intros (_ & _ & Hc). apply set_eq. intros k. split; [|by intros ?%not_elem_of_empty].
    intros [[H1%elem_of_list_to_set H2%elem_of_list_to_set]%elem_of_intersection Hk]%elem_of_difference. exfalso. apply Hk.
    apply Hka in H1 as [?%Hne|(i & Hi & H1)]; [done|]. apply Hkd in H2 as [?%Hne|(j & Hj & H2)]; [done|].
    apply (repr_iter _ _ _ Hu) in Hi. apply (repr_iter _ _ _ Hu) in Hj. apply Hra in H1. apply Hrd in H2.
    by apply (Hc i k j).
Qed.
End can_contract.

(** The reachability of a graph of nodes never panics and terminates, with a
    cycle or without: row [i] of [ancestors] holds exactly the nodes [i] depends on,
    directly or not, and [descendants] is the converse.  On two sets of nodes
    [can_contract] answers true exactly when both have a member and no node outside
    their union lies on a path between members of it, that is, in a graph without
    cycles, exactly when merging them into one node leaves no cycle. *)
Theorem can_contract_exact {E} `{GraphNode Nd} (nodes : list Nd) a b (A B : gset nat) :
  repr a A → repr b B → A ∪ B ⊆ set_seq 0 (length nodes) →
  let d := dag_new nodes in
  ∃ r c, reachability (E:=E) d = Ok r ∧ can_contract (E:=E) r a b = Ok c ∧
    (∀ i k, row (ancestors r) i k ↔ tc (edge d) i k) ∧
    (∀ i k, row (descendants r) i k ↔ tc (edge d) k i) ∧
    (c = true ↔ A ≠ ∅ ∧ B ≠ ∅ ∧ convex d (A ∪ B)) ∧
    (acyclic d → convex d (A ∪ B) ↔ ∀ x, ¬ tc (contracted_edge d (A ∪ B)) x x).
Proof.
  intros Ha Hb Hsub d. destruct (dag_new_ok nodes) as (Hd & Hn & _ & _).
  destruct (reachability_ok (E:=E) d Hd) as (r & Hr & Hok).
  destruct (can_contract_ok (E:=E) d r Hok a b A B Ha Hb) as (c & Hc & Hiff).
  { intros k Hk%Hsub. apply elem_of_set_seq in Hk. fold d in Hn. lia. }
  exists r, c. destruct Hok as (_ & _ & Hra & Hrd). split; [done|]. split; [done|]. split; [done|]. split; [done|].
  split; [done|]. apply contraction_acyclic.
Qed.
Definition chain : list TensorFlow :=
  [mkFlow {[1%N := 0]} ∅ ∅ (Some 0) None; mkFlow {[2%N := 1]} {[1%N := 1]} ∅ (Some 1) None;
   mkFlow ∅ {[2%N := 2]} ∅ (Some 2) None].
Lemma can_contract_exact_witness :
  (let? r := reachability (E:=unit) (dag_new chain) in can_contract r (single 0) (single 2)) = Ok false ∧
  (let? r := reachability (E:=unit) (dag_new chain) in can_contract r (single 0) (single 1)) = Ok true ∧
  ∃ r c, reachability (E:=unit) (dag_new chain) = Ok r ∧ can_contract (E:=unit) r (single 0) (single 2) = Ok c ∧
    (c = true ↔ ({[0]} : gset nat) ≠ ∅ ∧ ({[2]} : gset nat) ≠ ∅ ∧ convex (dag_new chain) ({[0]} ∪ {[2]})).
Proof.
  split; [vm_compute; reflexivity|]. split; [vm_compute; reflexivity|].
  destruct (can_contract_exact (E:=unit) chain (single 0) (single 2) {[0]} {[2]}
    (repr_single 0) (repr_single 2)) as (r & c & H1 & H2 & _ & _ & H3 & _).
  - intros k Hk. apply elem_of_set_seq. simpl. apply elem_of_union in Hk.
    rewrite !elem_of_singleton in Hk. lia.
  - exists r, c. auto.
Defined.
