(* ===== verification/FusionLifetime.v ===== *)
(** * What a valid order of execution preserves

    The producer [is_valid_execution_order] expects for a read is the latest one
    before it in the source; a run of the operations in an order it accepts reads
    and writes the same values as the run in source order. *)

From S2P Require Import Prelude FusionGraph.
Open Scope nat_scope.

(** ** The expected producer *)

(** The greatest of some positions below [pos]. *)
Definition latest (l : list nat) (pos : nat) : option nat :=
  foldr (λ q acc, if q <? pos then Some (q `max` default 0 acc) else acc) None l.
Definition is_latest (l : list nat) (pos : nat) (o : option nat) : Prop :=
  match o with
  | Some q => q ∈ l ∧ q < pos ∧ ∀ x, x ∈ l → x < pos → x ≤ q
  | None => ∀ x, x ∈ l → pos ≤ x
  end.
Lemma latest_ok l pos : is_latest l pos (latest l pos).
Proof.
  induction l as [|x l IH]; [by intros x ?%elem_of_nil|]. cbn [latest foldr]. fold (latest l pos).
  destruct (Nat.ltb_spec x pos) as [Hx|Hx].
  - destruct (latest l pos) as [q|]; simpl in *.
    + destruct IH as (Hq & Hlt & Hmax). destruct (Nat.max_spec x q) as [[Hm ->]|[Hm ->]].
      * split; [by right|]. split; [done|]. intros y [->|Hy]%elem_of_cons Hyp; [lia|by apply Hmax].
      * split; [by left|]. split; [done|]. intros y [->|Hy]%elem_of_cons Hyp; [lia|]. specialize (Hmax y Hy Hyp). lia.
    + rewrite Nat.max_0_r. split; [by left|]. split; [done|].
      intros y [->|Hy]%elem_of_cons Hyp; [lia|]. specialize (IH y Hy). lia.
  - destruct (latest l pos) as [q|]; simpl in *.
    + destruct IH as (Hq & Hlt & Hmax). split; [by right|]. split; [done|].
      intros y [->|Hy]%elem_of_cons Hyp; [lia|by apply Hmax].
    + intros y [->|Hy]%elem_of_cons; [done|by apply IH].
Qed.
Lemma is_latest_unique l pos o o' : is_latest l pos o → is_latest l pos o' → o = o'.
Proof.
  destruct o as [q|], o' as [q'|]; simpl; [|intros (H1 & H2 & _) H|intros H (H1 & H2 & _)|done].
  - intros (H1 & H2 & H3) (H1' & H2' & H3'). f_equal. apply Nat.le_antisymm; auto.
  - specialize (H _ H1). lia.
  - specialize (H _ H1). lia.
Qed.
Lemma is_latest_ext l l' pos o : (∀ x, x ∈ l ↔ x ∈ l') → is_latest l pos o → is_latest l' pos o.
Proof. intros Hl. destruct o; simpl; intros H; naive_solver. Qed.

Lemma dedup_cons2 a b l : dedup (a :: b :: l) = if a =? b then dedup (b :: l) else a :: dedup (b :: l).
Proof. done. Qed.
Lemma dedup_elem l x : x ∈ dedup l ↔ x ∈ l.
Proof.
  induction l as [|a l IH]; [done|]. destruct l as [|b l]; [done|]. rewrite dedup_cons2.
  destruct (Nat.eqb_spec a b) as [->|_]; [rewrite IH, !elem_of_cons; naive_solver|by rewrite elem_of_cons, IH, (elem_of_cons (b :: l))].
Qed.
Lemma dedup_sorted l : StronglySorted le l → StronglySorted le (dedup l).
Proof.
  induction l as [|a l IH]; [done|]. intros Hs. inversion_clear Hs as [|? ? Hs' Ha]. destruct l as [|b l]; [repeat constructor|].
  rewrite dedup_cons2. destruct (Nat.eqb_spec a b) as [->|_]; [by apply IH|]. constructor; [by apply IH|].
  rewrite Forall_forall in Ha |- *. intros x Hx. by apply Ha, dedup_elem.
Qed.
Lemma partition_latest l pos :
  StronglySorted le l →
  is_latest l pos (match partition_point pos l with O => None | S k => l !! k end).
Proof.
  induction 1 as [|a l Hs IH Ha]; [by intros x ?%elem_of_nil|]. cbn [partition_point].
  pose proof (proj1 (Forall_forall _ _) Ha) as Hle.
  destruct (Nat.ltb_spec a pos) as [Hap|Hap].
  - destruct (partition_point pos l) as [|k] eqn:Hk.
    + split; [by left|]. split; [done|]. intros x [->|Hx]%elem_of_cons Hxp; [done|]. specialize (IH x Hx). lia.
    + cbn [lookup list_lookup]. destruct (l !! k) as [q|] eqn:Hq.
      * destruct IH as (H1 & H2 & H3). split; [by right|]. split; [done|].
        intros x [->|Hx]%elem_of_cons Hxp; [by apply Hle|by apply H3].
      * exfalso. clear -Hk Hq. revert k Hk Hq. induction l as [|b l IHl]; intros k; cbn [partition_point]; [done|].
        destruct (b <? pos); [|done]. intros [= <-]. destruct (partition_point pos l); [done|]. by apply IHl.
  - intros x [->|Hx]%elem_of_cons; [done|]. etrans; [done|by apply Hle].
Qed.

Section producers.
Context `{GraphNode Nd}.
Implicit Types order : list Nd.

(** The positions of the nodes that produce [r]. *)
Definition makers order (r : N) : list nat := position <$> filter (λ n, r ∈ produced n) order.
Lemma elem_of_makers order r p : p ∈ makers order r ↔ ∃ n, n ∈ order ∧ r ∈ produced n ∧ position n = p.
Proof. unfold makers. rewrite list_elem_of_fmap. setoid_rewrite list_elem_of_filter. naive_solver. Qed.

(** The maps after the producers [P] of a resource have been seen. *)
Definition collected (q : option nat) (rep : option (list nat)) (P : nat → Prop) : Prop :=
  match q with
  | None => rep = None ∧ ∀ x, ¬ P x
  | Some q => P q ∧ match rep with Some l => ∀ x, x ∈ l ↔ P x | None => ∀ x, P x → x = q end
  end.
Lemma collected_ext q rep (P Q : nat → Prop) : (∀ x, P x ↔ Q x) → collected q rep P → collected q rep Q.
Proof. intros Hpq. destruct q, rep; simpl; naive_solver. Qed.
Lemma add_producer_ok pos ps r r' P :
  collected (producers ps !! r') (repeated ps !! r') P →
  collected (producers (add_producer pos ps r) !! r') (repeated (add_producer pos ps r) !! r')
    (λ x, P x ∨ (r' = r ∧ x = pos)).
Proof.
  intros Hc. destruct (decide (r' = r)) as [->|Hne].
  - unfold add_producer. destruct (producers ps !! r) as [q|] eqn:Hq.
    + destruct Hc as [HPq Hc]. destruct (Nat.eqb_spec q pos) as [->|Hqp]; cbn [negb].
      * rewrite Hq. split; [by left|]. destruct (repeated ps !! r) as [l|]; naive_solver.
      * cbn [producers repeated]. rewrite Hq, lookup_insert_eq. split; [by left|]. intros x.
        rewrite elem_of_app, list_elem_of_singleton. destruct (repeated ps !! r) as [l|]; simpl.
        -- rewrite Hc. naive_solver.
        -- rewrite list_elem_of_singleton. naive_solver.
    + destruct Hc as [Hrep Hc]. cbn [producers repeated]. rewrite lookup_insert_eq, Hrep. split; [by right|]. naive_solver.
  - assert (producers (add_producer pos ps r) !! r' = producers ps !! r' ∧
            repeated (add_producer pos ps r) !! r' = repeated ps !! r') as [-> ->].
    { unfold add_producer. destruct (producers ps !! r) as [q|]; [destruct (q =? pos)|]; cbn [negb producers repeated];
        rewrite ?lookup_insert_ne by done; done. }
    eapply collected_ext; [|done]. naive_solver.
Qed.
Lemma add_producers_ok pos ps rs r' P :
  collected (producers ps !! r') (repeated ps !! r') P →
  let ps' := foldl (add_producer pos) ps rs in
  collected (producers ps' !! r') (repeated ps' !! r') (λ x, P x ∨ (r' ∈ rs ∧ x = pos)).
Proof.
  revert ps P. induction rs as [|r rs IH]; intros ps P Hc; cbn [foldl].
  - eapply collected_ext; [|done]. intros x. split; [by left|]. intros [|[?%elem_of_nil _]]; done.
  - eapply collected_ext; [|apply IH, add_producer_ok, Hc]. intros x. simpl. rewrite elem_of_cons. naive_solver.
Qed.
Lemma collected_ok order ps r' P :
  collected (producers ps !! r') (repeated ps !! r') P →
  let ps' := foldl (λ ps n, foldl (add_producer (position n)) ps (produced n)) ps order in
  collected (producers ps' !! r') (repeated ps' !! r') (λ x, P x ∨ x ∈ makers order r').
Proof.
  revert ps P. induction order as [|n order IH]; intros ps P Hc; cbn [foldl].
  - eapply collected_ext; [|done]. intros x. split; [by left|]. intros [|?%elem_of_nil]; done.
  - eapply collected_ext; [|apply IH, add_producers_ok, Hc]. intros x. simpl. unfold makers. rewrite filter_cons.
    case_decide; rewrite ?fmap_cons, ?elem_of_cons; naive_solver.
Qed.
(** The expected producer is the latest one before the reader in source order. *)
Lemma expected_producer_ok order pos r :
  is_latest (makers order r) pos (expected_producer (collect_producers order) pos r).
Proof.
  assert (collected (producers (mkProducers ∅ ∅) !! r) (repeated (mkProducers ∅ ∅) !! r) (λ _, False)) as H0.
  { cbn [producers repeated]. rewrite !lookup_empty. split; [done|]. by intros x []. }
  pose proof (collected_ok order (mkProducers ∅ ∅) r (λ _, False) H0) as Hc. cbv zeta in Hc.
  unfold expected_producer, collect_producers. cbn [producers repeated].
  set (ps := foldl _ _ _) in *. rewrite lookup_fmap. destruct (producers ps !! r) as [q|]; simpl in Hc.
  - destruct Hc as [Hq Hc]. destruct (repeated ps !! r) as [l|]; cbn [fmap option_fmap option_map].
    + eapply is_latest_ext; [|apply partition_latest, dedup_sorted, StronglySorted_merge_sort; apply _].
      intros x. rewrite dedup_elem, merge_sort_Permutation, Hc. naive_solver.
    + destruct (Nat.ltb_spec q pos) as [Hqp|Hqp]; simpl.
      * split; [naive_solver|]. split; [done|]. intros x Hx _. rewrite (Hc x); [done|by right].
      * intros x Hx. rewrite (Hc x); [done|by right].
  - destruct Hc as [-> Hc]. cbn [fmap option_fmap option_map]. intros x Hx. exfalso. apply (Hc x). by right.
Qed.
Lemma expected_producer_latest order pos r :
  expected_producer (collect_producers order) pos r = latest (makers order r) pos.
Proof. eapply is_latest_unique; [apply expected_producer_ok|apply latest_ok]. Qed.
End producers.

(** One step of the check. *)
Section step.
Context `{GraphNode Nd}.
Lemma node_step_inv ps st (n : Nd) st' :
  node_step ps st n = Some st' →
  (∀ first last, ordered_range n = Some (first, last) → ∀ q, last_effect st = Some q → q ≤ first) ∧
  last_effect st' = (match ordered_range n with Some (_, last) => Some last | None => last_effect st end) ∧
  (∀ r, r ∈ read n → r ∉ dead st ∧ current st !! r = expected_producer ps (position n) r) ∧
  (∀ r, current st' !! r = if decide (r ∈ produced n) then Some (position n) else current st !! r) ∧
  (∀ r, r ∈ dead st' ↔ r ∉ produced n ∧ (r ∈ dead st ∨ r ∈ freed n)).
Proof.
  unfold node_step. intros Hs.
  destruct (match ordered_range n with
            | Some (first, last) => if match last_effect st with Some q => first <? q | None => false end
                                    then None else Some (Some last)
            | None => Some (last_effect st) end) as [eff|] eqn:Heff; [|done].
  destruct (forallb _ (read n)) eqn:Hread; [|done]. injection Hs as <-. cbn [last_effect current dead].
  split; [|split; [|split; [|split]]].
  - intros first last Hr q Hq. rewrite Hr, Hq in Heff. destruct (Nat.ltb_spec first q); [done|lia].
  - destruct (ordered_range n) as [[first last]|]; [|congruence]. case_match; [case_match|]; congruence.
  - intros r Hr. rewrite forallb_forall in Hread. specialize (Hread r (proj1 (list_elem_of_In _ _) Hr)).
    apply andb_true_iff in Hread as [H1 H2]. apply negb_true_iff, bool_decide_eq_false in H1.
    by apply bool_decide_eq_true in H2.
  - intros r. generalize (current st). induction (produced n) as [|x l IH]; intros c; cbn [foldl]; [done|].
    rewrite IH. destruct (decide (r ∈ l)) as [Hl|Hl].
    + by rewrite decide_True by (by right).
    + destruct (decide (r = x)) as [->|Hne]; [rewrite lookup_insert_eq, decide_True by (by left); done|].
      rewrite lookup_insert_ne, decide_False by (done || by rewrite elem_of_cons; naive_solver). done.
  - intros r. assert (∀ l (d : gset N), r ∈ foldl (λ d r, {[r]} ∪ d) d l ↔ r ∈ d ∨ r ∈ l) as Hu.
    { induction l as [|x l IH]; intros d; cbn [foldl]; [rewrite elem_of_nil; tauto|].
      rewrite IH, elem_of_cons, elem_of_union, elem_of_singleton. tauto. }
    assert (∀ l (d : gset N), r ∈ foldl (λ d r, d ∖ {[r]}) d l ↔ r ∉ l ∧ r ∈ d) as Hd.
    { induction l as [|x l IH]; intros d; cbn [foldl]; [rewrite elem_of_nil; tauto|].
      rewrite IH, elem_of_cons, elem_of_difference, elem_of_singleton. tauto. }
    by rewrite Hd, Hu.
Qed.
Lemma node_step_ok ps st (n : Nd) :
  (∀ first last, ordered_range n = Some (first, last) → ∀ q, last_effect st = Some q → q ≤ first) →
  (∀ r, r ∈ read n → r ∉ dead st ∧ current st !! r = expected_producer ps (position n) r) →
  ∃ st', node_step ps st n = Some st'.
Proof.
  intros Heff Hread. unfold node_step.
  assert (∃ eff, match ordered_range n with
            | Some (first, last) => if match last_effect st with Some q => first <? q | None => false end
                                    then None else Some (Some last)
            | None => Some (last_effect st) end = Some eff) as [eff ->].
  { destruct (ordered_range n) as [[first last]|]; [|eauto]. destruct (last_effect st) as [q|]; [|eauto].
    specialize (Heff _ _ eq_refl _ eq_refl). destruct (Nat.ltb_spec first q); [lia|eauto]. }
  rewrite (proj2 (forallb_forall _ _)); [eauto|]. intros r Hr%list_elem_of_In. destruct (Hread r Hr) as [H1 H2].
  by rewrite bool_decide_false, bool_decide_true.
Qed.
End step.

(** ** Running operations *)

(** What running an operation at a position did: the values it read, the tensors it
    wrote, and the state of the world it left when its effects are ordered. *)
Record Entry V W := mkEntry { seen : list V; made : gmap N V; world : option W }.
Record RunState V W := mkRun { env : gmap N V; wd : W; log : gmap nat (Entry V W) }.
Arguments mkEntry {V W}.
Arguments seen {V W}.
Arguments made {V W}.
Arguments world {V W}.
Arguments mkRun {V W}.
Arguments env {V W}.
Arguments wd {V W}.
Arguments log {V W}.

Section run.
Context `{OperationIr Op} {V W : Type}.
(** The [k]-th output of an operation, from the values of its inputs and, for one
    whose effects are ordered, the world. *)
Context (pure : Op → list V → nat → V) (effect : Op → list V → W → (nat → V) * W).
Abbreviation Nd := (OperationNode Op).

Definition perform (op : Op) (vals : list V) (w : W) : Entry V W :=
  let write f := list_to_map (imap (λ k t, (tensor_id t, f k)) (outputs op)) in
  if ordered_effect op
  then let r := effect op vals w in mkEntry vals (write r.1) (Some r.2)
  else mkEntry vals (write (pure op vals)) None.
(** Running a node reads its inputs, releases those it is the last to use and
    binds its outputs; a tensor that is not there makes the run fail. *)
Definition run_node (s : RunState V W) (n : Nd) : option (RunState V W) :=
  vals ← mapM (λ t, env s !! tensor_id t) (inputs (node_op n));
  let e := perform (node_op n) vals (wd s) in
  Some (mkRun (made e ∪ filter (λ kv, kv.1 ∉ freed n) (env s)) (default (wd s) (world e))
          (<[node_pos n := e]> (log s))).
Fixpoint run (s : RunState V W) (l : list Nd) : option (RunState V W) :=
  match l with
  | [] => Some s
  | n :: l => s' ← run_node s n; run s' l
  end.

Lemma run_app s l k : run s (l ++ k) = s' ← run s l; run s' k.
Proof. revert s. induction l as [|n l IH]; intros s; [done|]. simpl. destruct (run_node s n); [apply IH|done]. Qed.
Lemma perform_made op vals w r : is_Some (made (perform op vals w) !! r) ↔ r ∈ tensor_id <$> outputs op.
Proof.
  assert (∀ f : nat → V, is_Some ((list_to_map (imap (λ k t, (tensor_id t, f k)) (outputs op)) : gmap N V) !! r)
            ↔ r ∈ tensor_id <$> outputs op) as Hf.
  { intros f. rewrite <-elem_of_dom, dom_list_to_map, elem_of_list_to_set.
    enough ((imap (λ k t, (tensor_id t, f k)) (outputs op)).*1 = tensor_id <$> outputs op) as -> by done.
    rewrite fmap_imap. assert (∀ (g : nat → TensorIr → N) l, (∀ k t, g k t = tensor_id t) → imap g l = tensor_id <$> l) as Hg.
    { intros g l. revert g. induction l as [|t l IH]; intros g Hg; [done|]. rewrite imap_cons, fmap_cons, Hg.
      f_equal. apply IH. intros k t'. apply Hg. }
    by apply Hg. }
  unfold perform. destruct (ordered_effect op); apply Hf.
Qed.
Lemma perform_world op vals w : is_Some (world (perform op vals w)) ↔ ordered_effect op = true.
Proof. unfold perform, is_Some. destruct (ordered_effect op); simpl; naive_solver. Qed.

(** ** The equations of the source run *)

Definition effects_of (all : list Nd) : list nat := node_pos <$> filter (λ n, ordered_effect (node_op n) = true) all.
Definition value_of (e0 : gmap N V) (L : gmap nat (Entry V W)) (r : N) (q : option nat) : option V :=
  match q with Some q => e ← L !! q; made e !! r | None => e0 !! r end.
Definition world_of (w0 : W) (L : gmap nat (Entry V W)) (q : option nat) : W :=
  match q with Some q => default w0 (e ← L !! q; world e) | None => w0 end.
Definition explained (s0 : RunState V W) (all : list Nd) (L : gmap nat (Entry V W)) (n : Nd) : Prop :=
  ∃ vals, mapM (λ t, value_of (env s0) L (tensor_id t) (latest (makers all (tensor_id t)) (node_pos n)))
      (inputs (node_op n)) = Some vals ∧
    L !! node_pos n = Some (perform (node_op n) vals (world_of (wd s0) L (latest (effects_of all) (node_pos n)))).

(** Where a run stands after the nodes [l1], as the check sees it: [L] is what every
    node does in the whole run. *)
Section sim.
Context (s0 : RunState V W) (L : gmap nat (Entry V W)).
Definition is_newest (l : list nat) (o : option nat) : Prop :=
  match o with Some q => q ∈ l ∧ ∀ x, x ∈ l → x ≤ q | None => l = [] end.
Record sim (l1 : list Nd) (st : Lifetime) (s : RunState V W) : Prop := {
  sim_env : ∀ r, env s !! r = if decide (r ∈ dead st) then None else value_of (env s0) L r (current st !! r);
  sim_world : wd s = world_of (wd s0) L (last_effect st);
  sim_effects : is_newest (effects_of l1) (last_effect st);
  sim_log : ∀ p, log s !! p = if decide (p ∈ node_pos <$> l1) then L !! p else log s0 !! p
}.
Lemma mapM_ext_in {A B} (f g : A → option B) l : (∀ x, x ∈ l → f x = g x) → mapM f l = mapM g l.
Proof.
  induction l as [|x l IH]; intros Hfg; [done|]. cbn. rewrite (Hfg x) by (by left).
  rewrite IH by (intros y Hy; apply Hfg; by right). done.
Qed.
Lemma mapM_elem {A B} (f : A → option B) l k x : mapM f l = Some k → x ∈ l → is_Some (f x).
Proof.
  revert k. induction l as [|y l IH]; intros k Hm Hx; [by apply elem_of_nil in Hx|]. cbn in Hm.
  apply bind_Some in Hm as (v & Hv & Hm). apply bind_Some in Hm as (vs & Hvs & _).
  apply elem_of_cons in Hx as [->|Hx]; eauto.
Qed.
Lemma effects_of_app l k : effects_of (l ++ k) = effects_of l ++ effects_of k.
Proof. unfold effects_of. by rewrite filter_app, fmap_app. Qed.
Lemma elem_of_effects l x : x ∈ effects_of l → x ∈ node_pos <$> l.
Proof. unfold effects_of. intros (n & -> & [_ Hn]%list_elem_of_filter)%list_elem_of_fmap. by apply list_elem_of_fmap_2. Qed.
Lemma effects_of_cons n l :
  effects_of (n :: l) = (if ordered_effect (node_op n) then [node_pos n] else []) ++ effects_of l.
Proof.
  unfold effects_of. rewrite filter_cons. destruct (ordered_effect (node_op n)); [by rewrite decide_True|].
  by rewrite decide_False.
Qed.
Lemma env_step e (n : Nd) st st' (s : RunState V W) r :
  (∀ r, is_Some (made e !! r) ↔ r ∈ produced n) → L !! node_pos n = Some e →
  (∀ r, current st' !! r = if decide (r ∈ produced n) then Some (position n) else current st !! r) →
  (∀ r, r ∈ dead st' ↔ r ∉ produced n ∧ (r ∈ dead st ∨ r ∈ freed n)) →
  (∀ r, env s !! r = if decide (r ∈ dead st) then None else value_of (env s0) L r (current st !! r)) →
  (made e ∪ filter (λ kv, kv.1 ∉ freed n) (env s)) !! r =
    if decide (r ∈ dead st') then None else value_of (env s0) L r (current st' !! r).
Proof.
  intros Hm Hn Hcur Hdead Henv. rewrite Hcur. destruct (decide (r ∈ produced n)) as [Hr|Hr].
  - rewrite decide_False by (rewrite Hdead; naive_solver). cbn [value_of]. change (position n) with (node_pos n). rewrite Hn.
    cbn [mbind option_bind]. destruct (proj2 (Hm r) Hr) as [v Hv']. rewrite Hv'. by apply lookup_union_Some_l.
  - assert (made e !! r = None) as Hnone by (apply eq_None_not_Some; by rewrite Hm).
    rewrite lookup_union_r, map_lookup_filter, Henv by done.
    destruct (decide (r ∈ dead st)) as [Hd|Hd]; [by rewrite decide_True by (rewrite Hdead; auto)|].
    destruct (decide (r ∈ freed n)) as [Hf|Hf].
    + rewrite (decide_True (P:=r ∈ dead st')) by (rewrite Hdead; auto).
      destruct (value_of _ _ _ _); [|done]. cbn. by rewrite option_guard_False by (simpl; tauto).
    + rewrite (decide_False (P:=r ∈ dead st')) by (rewrite Hdead; tauto).
      destruct (value_of _ _ _ _); [|done]. cbn. by rewrite option_guard_True by (simpl; tauto).
Qed.
Lemma sim_next l1 n st s ps st' vals :
  sim l1 st s → node_step ps st n = Some st' →
  mapM (λ t, env s !! tensor_id t) (inputs (node_op n)) = Some vals →
  L !! node_pos n = Some (perform (node_op n) vals (wd s)) →
  ∃ s', run_node s n = Some s' ∧ sim (l1 ++ [n]) st' s'.
Proof.
  intros Hs (Heff & Hlast & _ & Hcur & Hdead)%node_step_inv Hv Hn. unfold run_node. rewrite Hv. cbn [mbind option_bind].
  set (e := perform _ _ _) in *. eexists. split; [done|]. constructor; cbn [env wd log].
  - intros r. eapply env_step; [apply perform_made|done|done|done|apply Hs].
  - rewrite Hlast. pose proof (perform_world (node_op n) vals (wd s)) as Hw. fold e in Hw.
    cbn [ordered_range operation_node]. destruct (ordered_effect (node_op n)).
    + destruct (proj2 Hw eq_refl) as [w Hw']. cbn [world_of]. rewrite Hn. cbn [mbind option_bind]. by rewrite Hw'.
    + assert (world e = None) as -> by (apply eq_None_not_Some; by rewrite Hw). apply Hs.
  - rewrite Hlast, effects_of_app, effects_of_cons. cbn [ordered_range operation_node] in *. pose proof (sim_effects _ _ _ Hs) as Hne.
    change (effects_of []) with (@nil nat). destruct (ordered_effect (node_op n)); [|by rewrite !app_nil_r].
    split; [apply elem_of_app; right; by left|]. intros x [Hx|Hx]%elem_of_app; [|apply list_elem_of_singleton in Hx; lia].
    destruct (last_effect st) as [q|] eqn:Hq; simpl in Hne; [|rewrite Hne in Hx; by apply elem_of_nil in Hx].
    destruct Hne as [_ Hmax]. etrans; [by apply Hmax|]. by eapply Heff.
  - intros p. rewrite fmap_app. destruct (decide (p = node_pos n)) as [->|Hne].
    + rewrite lookup_insert_eq, decide_True by (apply elem_of_app; right; by left). done.
    + rewrite lookup_insert_ne, (sim_log _ _ _ Hs) by done. apply decide_ext.
      change (node_pos <$> [n]) with [node_pos n]. rewrite elem_of_app, list_elem_of_singleton. naive_solver.
Qed.
Lemma sim_start : sim [] (mkLifetime ∅ ∅ None) s0.
Proof. constructor; [intros r|done|done|intros p]; cbn; by rewrite decide_False by set_solver. Qed.
End sim.

Fixpoint lifetime_run ps st (l : list Nd) : option Lifetime :=
  match l with
  | [] => Some st
  | n :: l => st' ← node_step ps st n; lifetime_run ps st' l
  end.
Lemma lifetime_loop_run ps st l : lifetime_loop ps st l = true ↔ is_Some (lifetime_run ps st l).
Proof.
  revert st. induction l as [|n l IH]; intros st; simpl; [split; eauto|].
  destruct (node_step ps st n); simpl; [apply IH|]. split; [done|]. by intros [? ?].
Qed.
Lemma lifetime_run_effects ps st l st' q x :
  lifetime_run ps st l = Some st' → last_effect st = Some q → x ∈ effects_of l → q ≤ x.
Proof.
  revert st q. induction l as [|n l IH]; intros st q Hr Hq Hx; [by apply elem_of_nil in Hx|]. cbn [lifetime_run] in Hr.
  apply bind_Some in Hr as (st1 & Hn & Hr). apply node_step_inv in Hn as (Heff & Hlast & _).
  rewrite effects_of_cons in Hx. cbn [ordered_range operation_node] in *. destruct (ordered_effect (node_op n)).
  - specialize (Heff _ _ eq_refl _ Hq). apply elem_of_app in Hx as [->%list_elem_of_singleton|Hx]; [done|].
    etrans; [done|]. by eapply IH.
  - rewrite Hq in Hlast. by eapply IH.
Qed.

(** A run in another order follows the equations. *)
Section order.
Context (s0 : RunState V W) (all : list Nd) (HN : NoDup (node_pos <$> all)).
Context (L : gmap nat (Entry V W)) (HL : ∀ n, n ∈ all → explained s0 all L n).

Lemma sim_previous l1 n l2 o :
  is_newest (effects_of l1) o → all ≡ₚ l1 ++ n :: l2 → (∀ q, o = Some q → q ≤ node_pos n) →
  (∀ x, x ∈ effects_of l2 → node_pos n < x) → o = latest (effects_of all) (node_pos n).
Proof.
  intros Ho Hall Hle Hlater. eapply is_latest_unique; [|apply latest_ok].
  assert (∀ x, x ∈ effects_of all → x < node_pos n → x ∈ effects_of l1) as Hx.
  { intros x. unfold effects_of at 1. rewrite Hall. fold (effects_of (l1 ++ n :: l2)).
    rewrite effects_of_app, effects_of_cons, !elem_of_app. intros [Hx|[Hx|Hx]] Hlt; [done| |].
    - destruct (ordered_effect (node_op n)); [apply list_elem_of_singleton in Hx; lia|by apply elem_of_nil in Hx].
    - specialize (Hlater x Hx). lia. }
  destruct o as [q|]; simpl in *.
  - destruct Ho as [Hq Hmax]. split; [|split; [|auto]].
    + unfold effects_of. rewrite Hall. fold (effects_of (l1 ++ n :: l2)). rewrite effects_of_app. apply elem_of_app. by left.
    + specialize (Hle q eq_refl). enough (q ≠ node_pos n) by lia. intros ->. rewrite Hall, fmap_app, fmap_cons in HN.
      apply NoDup_app in HN as (_ & Hd & _). apply (Hd (node_pos n)); [by apply elem_of_effects|by left].
  - intros x Hxa. destruct (Nat.lt_ge_cases x (node_pos n)) as [Hlt|]; [|done].
    specialize (Hx x Hxa Hlt). rewrite Ho in Hx. by apply elem_of_nil in Hx.
Qed.
Lemma sim_run l1 l2 st s st' :
  sim s0 L l1 st s → all ≡ₚ l1 ++ l2 → lifetime_run (collect_producers all) st l2 = Some st' →
  ∃ s', run s l2 = Some s' ∧ sim s0 L (l1 ++ l2) st' s'.
Proof.
  revert l1 st s. induction l2 as [|n l2 IH]; intros l1 st s Hs Hall Hr.
  { injection Hr as <-. exists s. by rewrite app_nil_r. }
  cbn [lifetime_run] in Hr. apply bind_Some in Hr as (st1 & Hn & Hr).
  pose proof Hn as (Heff & Hlast & Hread & _)%node_step_inv.
  destruct (HL n) as (vals & Hvals & HLn); [rewrite Hall; apply elem_of_app; right; by left|].
  destruct (sim_next s0 L l1 n st s _ st1 vals Hs Hn) as (s1 & Hs1 & Hsim).
  - rewrite <-Hvals. apply mapM_ext_in. intros t Ht.
    assert (tensor_id t ∈ read n) as Hr' by (by apply list_elem_of_fmap_2).
    destruct (Hread _ Hr') as [Hd Hc]. rewrite (sim_env _ _ _ _ _ Hs), decide_False, Hc, expected_producer_latest by done. done.
  - rewrite HLn. f_equal. destruct (ordered_effect (node_op n)) eqn:Ho; [|unfold perform; by rewrite Ho]. f_equal.
    rewrite (sim_world _ _ _ _ _ Hs). f_equal. cbn [ordered_range operation_node] in *. rewrite Ho in *. symmetry.
    eapply sim_previous; [apply Hs|done|intros q Hq; by eapply Heff|]. intros x Hx.
    pose proof (lifetime_run_effects _ _ _ _ _ _ Hr Hlast Hx) as Hle. enough (x ≠ node_pos n) by lia. intros ->.
    rewrite Hall, fmap_app, fmap_cons in HN. apply NoDup_app in HN as (_ & _ & [Hni _]%NoDup_cons). by apply Hni, elem_of_effects.
  - destruct (IH (l1 ++ [n]) st1 s1) as (s' & Hs' & Hsim'); [done|by rewrite <-app_assoc|done|].
    exists s'. cbn [run]. rewrite Hs1. cbn [mbind option_bind]. rewrite <-app_assoc in Hsim'. done.
Qed.
End order.

(** The run in source order satisfies the equations, and the check accepts it. *)
Definition in_source_order (src : list Nd) : Prop := StronglySorted (λ a b, node_pos a < node_pos b) src.
Lemma source_split l1 n l2 :
  in_source_order (l1 ++ n :: l2) →
  (∀ m, m ∈ l1 → node_pos m < node_pos n) ∧ (∀ m, m ∈ l2 → node_pos n < node_pos m).
Proof.
  induction l1 as [|a l1 IH]; intros Hs; inversion_clear Hs as [|? ? Hs' Ha].
  - split; [by intros m ?%elem_of_nil|]. by apply Forall_forall.
  - destruct (IH Hs') as [H1 H2]. split; [|done]. intros m [->|Hm]%elem_of_cons; [|by apply H1].
    rewrite Forall_forall in Ha. apply Ha, elem_of_app. right. by left.
Qed.
Lemma source_nodup src : in_source_order src → NoDup (node_pos <$> src).
Proof.
  induction 1 as [|n l Hs IH Hn]; [constructor|]. rewrite fmap_cons. constructor; [|done].
  intros (m & Heq & Hm)%list_elem_of_fmap. rewrite Forall_forall in Hn. specialize (Hn m Hm). lia.
Qed.
Lemma newest_latest l k pos o :
  is_newest l o → (∀ x, x ∈ l → x < pos) → (∀ x, x ∈ k → pos ≤ x) → is_latest (l ++ k) pos o.
Proof.
  intros Ho Hl Hk. destruct o as [q|]; simpl in *.
  - destruct Ho as [Hq Hmax]. split; [apply elem_of_app; by left|]. split; [by apply Hl|].
    intros x [Hx|Hx]%elem_of_app Hxp; [by apply Hmax|]. specialize (Hk x Hx). lia.
  - subst l. exact Hk.
Qed.
Lemma run_log s l s' p : run s l = Some s' → p ∉ node_pos <$> l → log s' !! p = log s !! p.
Proof.
  revert s. induction l as [|n l IH]; intros s Hr Hp; [by injection Hr as <-|]. rewrite fmap_cons in Hp.
  apply not_elem_of_cons in Hp as [Hne Hp]. cbn [run] in Hr. apply bind_Some in Hr as (s1 & Hn & Hr).
  rewrite (IH s1 Hr Hp). unfold run_node in Hn. apply bind_Some in Hn as (vals & _ & [= <-]).
  cbn [log]. by rewrite lookup_insert_ne.
Qed.
Lemma makers_app (l k : list Nd) r : makers (l ++ k) r = makers l r ++ makers k r.
Proof. unfold makers. by rewrite filter_app, fmap_app. Qed.
Lemma makers_pos (l : list Nd) r x : x ∈ makers l r → ∃ m, m ∈ l ∧ node_pos m = x.
Proof. intros (m & Hm & _ & Hx)%elem_of_makers. eauto. Qed.
Lemma effects_pos l x : x ∈ effects_of l → ∃ m, m ∈ l ∧ node_pos m = x.
Proof. intros (m & -> & Hm)%elem_of_effects%list_elem_of_fmap. eauto. Qed.

Section source.
Context (s0 s1 : RunState V W) (src : list Nd) (Hsrc : in_source_order src).
Abbreviation L := (log s1).
Lemma source_latest (f : list Nd → list nat) l1 n l2 o :
  (∀ l k, f (l ++ k) = f l ++ f k) → (∀ l x, x ∈ f l → ∃ m, m ∈ l ∧ node_pos m = x) →
  src = l1 ++ n :: l2 → is_newest (f l1) o → o = latest (f src) (node_pos n).
Proof.
  intros Happ Hpos Heq Ho. destruct (source_split l1 n l2) as [H1 H2]; [by rewrite <-Heq|].
  eapply is_latest_unique; [|apply latest_ok]. rewrite Heq, Happ. apply newest_latest; [done| |].
  - intros x (m & Hm & <-)%Hpos. by apply H1.
  - intros x (m & Hm & <-)%Hpos. apply elem_of_cons in Hm as [->|Hm]; [done|]. apply Nat.lt_le_incl. by apply H2.
Qed.
Lemma source_run l1 l2 st s :
  src = l1 ++ l2 → sim s0 L l1 st s → (∀ r, is_newest (makers l1 r) (current st !! r)) → run s l2 = Some s1 →
  (∀ n, n ∈ l2 → explained s0 src L n) ∧
  ∃ st', lifetime_run (collect_producers src) st l2 = Some st' ∧ sim s0 L src st' s1.
Proof.
  revert l1 st s. induction l2 as [|n l2 IH]; intros l1 st s Heq Hs Hcur Hr.
  { rewrite app_nil_r in Heq. subst l1. injection Hr as ->. split; [by intros n ?%elem_of_nil|]. eauto. }
  cbn [run] in Hr. apply bind_Some in Hr as (s' & Hn & Hr). pose proof Hn as Hn'. unfold run_node in Hn'.
  apply bind_Some in Hn' as (vals & Hv & [= Hs']). destruct (source_split l1 n l2) as [Hbefore Hafter]; [by rewrite <-Heq|].
  assert (∀ r, current st !! r = latest (makers src r) (node_pos n)) as Hexp.
  { intros r. apply (source_latest (λ l, makers l r) l1 n l2); [intros; apply makers_app|intros; by eapply makers_pos|done|apply Hcur]. }
  assert (last_effect st = latest (effects_of src) (node_pos n)) as Hle.
  { apply (source_latest effects_of l1 n l2); [apply effects_of_app|apply effects_pos|done|apply Hs]. }
  assert (L !! node_pos n = Some (perform (node_op n) vals (wd s))) as HLn.
  { rewrite (run_log _ _ _ _ Hr), <-Hs'; [by cbn [log]; rewrite lookup_insert_eq|].
    intros (m & Hnm & Hm)%list_elem_of_fmap. specialize (Hafter m Hm). lia. }
  destruct (node_step_ok (collect_producers src) st n) as [st' Hst'].
  { intros first last Hor q Hq. cbn [ordered_range operation_node] in Hor. destruct (ordered_effect (node_op n)); [|done].
    injection Hor as <- <-. pose proof (latest_ok (effects_of src) (node_pos n)) as Hl. rewrite <-Hle, Hq in Hl. destruct Hl as (_ & ? & _). lia. }
  { intros r (t & -> & Ht)%list_elem_of_fmap. split; [|by rewrite expected_producer_latest].
    intros Hd. destruct (mapM_elem _ _ _ _ Hv Ht) as [v Hv']. rewrite (sim_env _ _ _ _ _ Hs), decide_True in Hv'; done. }
  pose proof (node_step_inv _ _ _ _ Hst') as (_ & _ & _ & Hcur' & _).
  destruct (sim_next s0 L l1 n st s _ st' vals Hs Hst' Hv HLn) as (s2 & Hs2 & Hsim).
  rewrite Hn in Hs2. injection Hs2 as <-.
  destruct (IH (l1 ++ [n]) st' s') as (Hex & st'' & Hst'' & Hsim''); [by rewrite <-app_assoc|done| |done|].
  { intros r. rewrite Hcur', makers_app. unfold makers at 2. cbn [filter list_filter].
    destruct (decide (r ∈ produced n)) as [Hrn|Hrn]; [|rewrite app_nil_r; apply Hcur]. split; [apply elem_of_app; right; by left|].
    intros x [(m & Hm & <-)%makers_pos|Hx]%elem_of_app; [apply Nat.lt_le_incl, Hbefore, Hm|]. apply list_elem_of_singleton in Hx. by subst. }
  split; [|exists st''; split; [cbn [lifetime_run]; by rewrite Hst'|done]].
  intros m [->|Hm]%elem_of_cons; [|by apply Hex]. exists vals. split.
  - rewrite <-Hv. apply mapM_ext_in. intros t Ht. rewrite <-Hexp, (sim_env _ _ _ _ _ Hs).
    pose proof (node_step_inv _ _ _ _ Hst') as (_ & _ & Hread & _). destruct (Hread (tensor_id t)) as [Hd _]; [by apply list_elem_of_fmap_2|].
    by rewrite decide_False.
  - rewrite HLn, <-Hle, (sim_world _ _ _ _ _ Hs). done.
Qed.
End source.

(** What is alive at the end does not depend on the order when no tensor has two
    producers. *)
Definition one_producer (all : list Nd) : Prop :=
  ∀ r m m', m ∈ all → m' ∈ all → r ∈ produced m → r ∈ produced m' → m = m'.
Definition bound_to (l : list Nd) (r : N) (p : nat) : Prop := p ∈ makers l r.
Definition released_in (l : list Nd) (r : N) : Prop :=
  ∃ n, n ∈ l ∧ r ∈ freed n ∧ ∀ m, m ∈ l → r ∈ produced m → node_pos m < node_pos n.
Section final.
Context (all : list Nd) (HN : NoDup (node_pos <$> all)) (Hone : one_producer all).
Record final (l1 : list Nd) (st : Lifetime) : Prop := {
  final_current : ∀ r p, current st !! r = Some p ↔ bound_to l1 r p;
  final_dead : ∀ r, r ∈ dead st ↔ released_in l1 r;
  final_before : ∀ r n m, n ∈ l1 → r ∈ freed n → m ∈ all → r ∈ produced m → node_pos m < node_pos n → m ∈ l1
}.
Lemma freed_read (n : Nd) r : r ∈ freed n → r ∈ read n.
Proof. cbn. intros (t & -> & [_ Ht]%list_elem_of_filter)%list_elem_of_fmap. by apply list_elem_of_fmap_2. Qed.
Lemma bound_snoc l1 n r p : bound_to (l1 ++ [n]) r p ↔ bound_to l1 r p ∨ (r ∈ produced n ∧ p = node_pos n).
Proof.
  unfold bound_to. rewrite makers_app, elem_of_app. apply or_iff_compat_l. rewrite elem_of_makers. split.
  - intros (m & ->%list_elem_of_singleton & Hr & <-). done.
  - intros [Hr ->]. exists n. split; [by left|done].
Qed.
Lemma final_freed l1 (n : Nd) st r m :
  final l1 st → (∀ k, k ∈ l1 → k ∈ all) → current st !! r = latest (makers all r) (node_pos n) →
  m ∈ all → r ∈ produced m → node_pos m < node_pos n ↔ m ∈ l1.
Proof.
  intros Hf Hin Hc Hm Hrm. pose proof (latest_ok (makers all r) (node_pos n)) as Hl. rewrite <-Hc in Hl.
  assert (node_pos m ∈ makers all r) as Hma by (apply elem_of_makers; eauto). split.
  - intros Hlt. destruct (current st !! r) as [q|] eqn:Hq; [|specialize (Hl _ Hma); lia].
    apply (final_current _ _ Hf), elem_of_makers in Hq as (m' & Hm' & Hrm' & _).
    rewrite (Hone r m m'); [done|done|by apply Hin|done|done].
  - intros Hm1. assert (current st !! r = Some (node_pos m)) as Hq.
    { apply (final_current _ _ Hf), elem_of_makers. eauto. }
    rewrite Hq in Hl. by destruct Hl as (_ & ? & _).
Qed.
Lemma final_step l1 n l2 st st' :
  final l1 st → all = l1 ++ n :: l2 → node_step (collect_producers all) st n = Some st' → final (l1 ++ [n]) st'.
Proof.
  intros Hf Hall (_ & _ & Hread & Hcur & Hdead)%node_step_inv.
  assert (∀ m, m ∈ l1 ++ [n] → m ∈ all) as Hin by (intros m Hm; rewrite Hall; set_solver).
  assert (n ∉ l1) as Hnl1.
  { intros Hn. rewrite Hall, fmap_app, fmap_cons in HN. apply NoDup_app in HN as (_ & Hd & _).
    apply (Hd (node_pos n)); [by apply list_elem_of_fmap_2|by left]. }
  assert (∀ r m, m ∈ l1 → r ∈ produced m → r ∉ produced n) as Hx.
  { intros r m Hm Hrm Hrn. rewrite (Hone r m n) in Hm; [done|apply Hin; set_solver|apply Hin; set_solver|done|done]. }
  assert (∀ r m, r ∈ freed n → m ∈ all → r ∈ produced m → node_pos m < node_pos n ↔ m ∈ l1) as Hfr.
  { intros r m Hrf Hm Hrm. eapply final_freed; [done|intros; apply Hin; set_solver| |done|done].
    destruct (Hread r (freed_read _ _ Hrf)) as [_ Hc]. by rewrite <-expected_producer_latest. }
  constructor.
  - intros r p. rewrite Hcur, bound_snoc, <-(final_current _ _ Hf). destruct (decide (r ∈ produced n)) as [Hr|Hr]; [|naive_solver].
    split; [naive_solver|]. intros [Hp|[_ ->]]; [|done].
    apply (final_current _ _ Hf), elem_of_makers in Hp as (m & Hm & Hrm & _). by destruct (Hx r m Hm Hrm).
  - intros r. rewrite Hdead, (final_dead _ _ Hf). split.
    + intros [Hrn [(k & Hk & Hkf & Hkm)|Hrf]].
      * exists k. split; [set_solver|]. split; [done|]. intros m [Hm| ->%list_elem_of_singleton]%elem_of_app Hrm; [by apply Hkm|done].
      * exists n. split; [set_solver|]. split; [done|]. intros m Hm Hrm. apply (Hfr r); [done|by apply Hin|done|].
        apply elem_of_app in Hm as [|Hm]; [done|]. apply list_elem_of_singleton in Hm as ->. done.
    + intros (k & Hk & Hkf & Hkm). assert (r ∉ produced n) as Hrn.
      { intros Hrn. assert (node_pos n < node_pos k) as Hlt by (apply Hkm; [set_solver|done]).
        apply elem_of_app in Hk as [Hk|Hk]; [|apply list_elem_of_singleton in Hk as ->; lia].
        apply Hnl1. apply (final_before _ _ Hf r k); [done|done|apply Hin; set_solver|done|done]. }
      split; [done|]. apply elem_of_app in Hk as [Hk|Hk]; [left|right; apply list_elem_of_singleton in Hk as ->; done].
      exists k. split; [done|]. split; [done|]. intros m Hm. apply Hkm. set_solver.
  - intros r k m [Hk|Hk]%elem_of_app Hkf Hm Hrm Hlt; [apply elem_of_app; left; by eapply (final_before _ _ Hf)|].
    apply list_elem_of_singleton in Hk as ->. apply elem_of_app. left. by apply (Hfr r).
Qed.
Lemma final_run l1 l2 st st' :
  final l1 st → all = l1 ++ l2 → lifetime_run (collect_producers all) st l2 = Some st' → final all st'.
Proof.
  revert l1 st. induction l2 as [|n l2 IH]; intros l1 st Hf Hall Hr.
  { rewrite app_nil_r in Hall. subst l1. by injection Hr as <-. }
  cbn [lifetime_run] in Hr. apply bind_Some in Hr as (st1 & Hn & Hr).
  apply (IH (l1 ++ [n]) st1); [by eapply final_step|by rewrite <-app_assoc|done].
Qed.
Lemma final_start : final [] (mkLifetime ∅ ∅ None).
Proof.
  constructor; cbn.
  - intros r p. unfold bound_to. split; [done|]. by intros ?%elem_of_nil.
  - intros r. split; [set_solver|]. by intros (n & ?%elem_of_nil & _).
  - by intros r n m ?%elem_of_nil.
Qed.
End final.

Lemma final_perm all all' r p :
  all ≡ₚ all' → (bound_to all r p ↔ bound_to all' r p) ∧ (released_in all r ↔ released_in all' r).
Proof.
  intros Hp. split; [unfold bound_to, makers; by rewrite Hp|]. unfold released_in. by setoid_rewrite Hp.
Qed.
Lemma explained_perm s0 all all' L n : all ≡ₚ all' → explained s0 all L n → explained s0 all' L n.
Proof.
  intros Hp (vals & Hv & Hn). exists vals.
  assert (∀ f : list Nd → list nat, (∀ l k, l ≡ₚ k → f l ≡ₚ f k) →
            ∀ pos, latest (f all') pos = latest (f all) pos) as Hf.
  { intros f Hf pos. eapply is_latest_unique; [apply latest_ok|]. eapply is_latest_ext; [|apply latest_ok].
    intros x. by rewrite (Hf _ _ Hp). }
  split.
  - rewrite <-Hv. apply mapM_ext_in. intros t _. f_equal. apply (Hf (λ l, makers l (tensor_id t))).
    intros l k Hlk. unfold makers. by rewrite Hlk.
  - rewrite Hn, (Hf effects_of); [done|]. intros l k Hlk. unfold effects_of. by rewrite Hlk.
Qed.
Lemma valid_run order : is_valid_execution_order order = true →
  ∃ st, lifetime_run (collect_producers order) (mkLifetime ∅ ∅ None) order = Some st.
Proof. unfold is_valid_execution_order. by intros ?%lifetime_loop_run. Qed.
Lemma is_newest_unique l o o' : is_newest l o → is_newest l o' → o = o'.
Proof.
  destruct o as [q|], o' as [q'|]; simpl; [|intros [H1 _] ->; by apply elem_of_nil in H1
    |intros -> [H1 _]; by apply elem_of_nil in H1|done].
  intros [H1 H2] [H1' H2']. f_equal. apply Nat.le_antisymm; auto.
Qed.
End run.

Lemma valid_order_same_run `{OperationIr Op} {V W} (pure : Op → list V → nat → V)
    (effect : Op → list V → W → (nat → V) * W) (src order : list (OperationNode Op)) e0 w0 s1 :
  in_source_order src → order ≡ₚ src → run pure effect (mkRun e0 w0 ∅) src = Some s1 →
  is_valid_execution_order src = true ∧
  (is_valid_execution_order order = true →
   ∃ s2, run pure effect (mkRun e0 w0 ∅) order = Some s2 ∧ log s2 = log s1 ∧ wd s2 = wd s1 ∧
     (one_producer src → env s2 = env s1)).
Proof.
  intros Hsrc Hp Hrun.
  destruct (source_run pure effect (mkRun e0 w0 ∅) s1 src Hsrc [] src _ _ eq_refl (sim_start _ _)) as (Hex & st1 & Hst1 & Hsim1); [|done|].
  { intros r. done. }
  assert (is_valid_execution_order src = true) as Hv1 by (apply lifetime_loop_run; eauto). split; [done|].
  intros [st2 Hst2]%valid_run. assert (NoDup (node_pos <$> order)) as HN by (rewrite Hp; by apply source_nodup).
  destruct (sim_run pure effect (mkRun e0 w0 ∅) order HN (log s1)) with ([] : list (OperationNode Op)) order
    (mkLifetime ∅ ∅ None) (mkRun e0 w0 (∅ : gmap nat (Entry V W))) st2 as (s2 & Hs2 & Hsim2); [|apply sim_start|done|done|].
  { intros n Hn. eapply explained_perm; [symmetry; exact Hp|]. apply Hex. by rewrite <-Hp. }
  exists s2. split; [done|]. split; [|split].
  - apply map_eq. intros p. rewrite (sim_log _ _ _ _ _ Hsim2). case_decide as Hd; [done|].
    rewrite (sim_log _ _ _ _ _ Hsim1), decide_False by (by rewrite <-Hp). done.
  - rewrite (sim_world _ _ _ _ _ Hsim2), (sim_world _ _ _ _ _ Hsim1). f_equal.
    eapply is_newest_unique; [apply Hsim2|]. pose proof (sim_effects _ _ _ _ _ Hsim1) as He.
    cbn [app]. assert (effects_of order ≡ₚ effects_of src) as Hpe by (unfold effects_of; by rewrite Hp).
    destruct (last_effect st1) as [q|]; simpl in *; [|by apply Permutation_nil_r; rewrite Hpe, He].
    rewrite Hpe. destruct He as [? He]. split; [done|]. intros x. rewrite Hpe. apply He.
  - intros Hone. assert (one_producer order) as Hone'.
    { intros r m m'. rewrite Hp. apply Hone. }
    pose proof (final_run src (source_nodup _ Hsrc) Hone [] src _ _ (final_start _ (source_nodup _ Hsrc) Hone) eq_refl Hst1) as F1.
    pose proof (final_run order HN Hone' [] order _ _ (final_start _ HN Hone') eq_refl Hst2) as F2.
    apply map_eq. intros r. rewrite (sim_env _ _ _ _ _ Hsim2), (sim_env _ _ _ _ _ Hsim1).
    assert (current st2 !! r = current st1 !! r) as ->.
    { apply option_eq. intros p. rewrite (final_current _ _ _ F2), (final_current _ _ _ F1). by apply final_perm. }
    apply decide_ext. rewrite (final_dead _ _ _ F2), (final_dead _ _ _ F1). by apply (final_perm _ _ r 0).
Qed.
Lemma valid_run_preserved `{OperationIr Op} {V W} (pure : Op → list V → nat → V)
    (effect : Op → list V → W → (nat → V) * W) (src order : list (OperationNode Op)) e0 w0 s1 :
  in_source_order src → order ≡ₚ src → run pure effect (mkRun e0 w0 ∅) src = Some s1 →
  is_valid_execution_order order = true →
  ∃ s2, run pure effect (mkRun e0 w0 ∅) order = Some s2 ∧ log s2 = log s1 ∧ wd s2 = wd s1 ∧
    (one_producer src → env s2 = env s1).
Proof. intros Hsrc Hp Hrun. by apply (valid_order_same_run _ _ _ _ _ _ _ Hsrc Hp Hrun). Qed.


(** Operations given by what the graph sees of them. *)
Record PlainOp := mkPlain { plain_in : list TensorIr; plain_out : list TensorIr; plain_drop : bool; plain_effect : bool }.
#[export] Instance PlainOp_eq_dec : EqDecision PlainOp.
Proof. solve_decision. Defined.
#[export] Instance plain_operation : OperationIr PlainOp :=
  { inputs := plain_in; outputs := plain_out; is_drop := plain_drop; ordered_effect := plain_effect }.
Definition tensor (i : N) (st : TensorStatus) : TensorIr := mkTensor i [4%N] st 0.
Definition three_ops : list (OperationNode PlainOp) :=
  [mkNode (mkPlain [] [tensor 1 NotInit] false false) 0;
   mkNode (mkPlain [tensor 7 ReadOnly] [tensor 2 NotInit] false true) 1;
   mkNode (mkPlain [tensor 1 ReadWrite; tensor 2 ReadOnly] [tensor 3 NotInit] false false) 2].
