(* ===== verification/FusionSearch.v ===== *)
(** * Search for fused blocks

    [ruda-fusion/src/search/]: [block.rs] (a block of operations offered to the
    fusers), [merging.rs] (merging blocks), [optimization/blocks.rs] (from blocks to
    a strategy) and [optimization/stream.rs] (registering a stream of operations, and
    the plan for a prefix of it).

    The fusers are trait objects supplied by a back end: a class.  [usize::MAX] as
    the start of an empty block is [None].  The logging is left out. *)

From S2P Require Import Prelude FusionGraph.
Open Scope nat_scope.

(** [OperationFuser<O>] and [NumOperations]: [closed] is the status
    [FuserStatus::Closed], [ready] and [score] are the properties.  [clone_dyn] is the
    identity. *)
Class Fuser (Op F Opt : Type) := {
  fuse : Op → F → F;
  finish : F → Opt;
  reset : F → F;
  closed : F → bool;
  ready : F → bool;
  score : F → N;
  num_operations : Opt → nat
}.

(** [ExecutionStrategy] of [stream/store/base.rs]. *)
Inductive ExecutionStrategy (Opt : Type) :=
  | Optimization (opt : Opt) (ordering : list nat) (score : N)
  | Operations (ordering : list nat)
  | Composed (items : list (ExecutionStrategy Opt)).
Arguments Optimization {Opt}.
Arguments Operations {Opt}.
Arguments Composed {Opt}.

Record BlockOptimization Opt := mkOptimization { strategy : ExecutionStrategy Opt; opt_ordering : list nat }.
Arguments mkOptimization {Opt}.
Arguments strategy {Opt}.
Arguments opt_ordering {Opt}.

Record Block (Op F : Type) := mkBlock {
  builders : list F;
  operations : list Op;
  flow : TensorFlow;
  constituents : SubGraph.t;
  ordering : list nat;
  closed_at : list (option nat);
  start_pos : option nat;
  end_pos : nat
}.
Arguments mkBlock {Op F}.
Arguments builders {Op F}.
Arguments operations {Op F}.
Arguments flow {Op F}.
Arguments constituents {Op F}.
Arguments ordering {Op F}.
Arguments closed_at {Op F}.
Arguments start_pos {Op F}.
Arguments end_pos {Op F}.

Section res_list.
Context {E A B : Type}.
Fixpoint res_mapM (f : A → res E B) (l : list A) : res E (list B) :=
  match l with
  | [] => Ok []
  | x :: l => let? y := f x in let? ys := res_mapM f l in Ok (y :: ys)
  end.
Fixpoint res_foldl (f : B → A → res E B) (b : B) (l : list A) : res E B :=
  match l with
  | [] => Ok b
  | x :: l => let? b := f b x in res_foldl f b l
  end.
End res_list.

(** The forwarding instances: a block and a chunk are nodes through their flow. *)
#[export] Instance block_node {Op F} : GraphNode (Block Op F) := {
  produced b := produced (flow b);
  read b := read (flow b);
  freed b := freed (flow b);
  produces b := produces (flow b);
  reads b := reads (flow b);
  position b := default 0 (start_pos b);
  read_position b := read_position (flow b);
  produces_before b := produces_before (flow b);
  ordered_range b := ordered_range (flow b)
}.

(** ** Blocks *)

Section block.
Context {E Op F Opt : Type} `{!OperationIr Op, !Fuser Op F Opt}.
Implicit Types b : Block Op F.

Definition seed_constituent (index : nat) b : Block Op F :=
  mkBlock (builders b) (operations b) (flow b) (SubGraph.single index) (ordering b) (closed_at b)
    (start_pos b) (end_pos b).
Definition block_new (bs : list F) : Block Op F :=
  mkBlock bs [] flow_new SubGraph.empty [] (replicate (length bs) None) None 0.

(** [blocks.sort_by_key(|a| a.start_pos)], which is stable. *)
Definition start_leb (a b : Block Op F) : bool :=
  match start_pos a, start_pos b with
  | Some p, Some q => p <=? q
  | Some _, None => true
  | None, None => true
  | None, Some _ => false
  end.
Fixpoint sort_insert b (l : list (Block Op F)) : list (Block Op F) :=
  match l with
  | [] => [b]
  | x :: l => if start_leb b x then b :: x :: l else x :: sort_insert b l
  end.
Definition block_sort (l : list (Block Op F)) : list (Block Op F) := foldr sort_insert [] l.

(** [find_best_optimization_index] *)
Fixpoint find_best (i : nat) (best : option (nat * N)) (best_score : N) (bs : list F) : option (nat * N) :=
  match bs with
  | [] => best
  | x :: bs =>
      if ready x && (best_score <? score x)%N
      then find_best (S i) (Some (i, score x)) (score x) bs
      else find_best (S i) best best_score bs
  end.
Definition find_best_optimization_index (bs : list F) : option (nat * N) := find_best 0 None 0 bs.

(** Whether a fresh copy of a builder gets ready on the operations. *)
Fixpoint probe_wants (probe : F) (ops : list Op) : bool :=
  match ops with
  | [] => false
  | op :: ops =>
      let probe := fuse op probe in
      if ready probe && (0 <? score probe)%N then true
      else if closed probe then false
      else probe_wants probe ops
  end.
(** [while settled < self.operations.len() { if wanted { break; } settled += 1 }] *)
Fixpoint settle (bs : list F) (settled : nat) (rest : list Op) : nat :=
  match rest with
  | [] => settled
  | _ :: rest' => if existsb (λ x, probe_wants (reset x) rest) bs then settled else settle bs (S settled) rest'
  end.
Definition max_settled (n : nat) (l : list (option nat)) : nat :=
  match l with
  | [] => n
  | _ => foldr (λ c m, (match c with Some index => index + 1 | None => n end) `max` m) 0 l
  end.
Definition block_optimize b : res E (BlockOptimization Opt) :=
  match find_best_optimization_index (builders b) with
  | Some (index, sc) =>
      let? x := get (builders b) index in
      let opt := finish x in
      let ord := if num_operations opt <? length (operations b)
                 then take (num_operations opt) (ordering b) else ordering b in
      Ok (mkOptimization (Optimization opt ord sc) ord)
  | None =>
      let settled := max_settled (length (operations b)) (closed_at b) in
      let settled := settle (builders b) settled (drop settled (operations b)) in
      let ord := take settled (ordering b) in
      Ok (mkOptimization (Operations ord) ord)
  end.

Definition contains_operation_tensors b (op : Op) : bool :=
  existsb (λ t, flow_contains (flow b) (tensor_id t)) (inputs op ++ outputs op).
Definition operation_nodes b : list (OperationNode Op) := zip_with mkNode (operations b) (ordering b).
Definition can_append b (other : Block Op F) : bool :=
  is_valid_execution_order (operation_nodes b ++ operation_nodes other).
Definition has_ready_optimization b : bool := existsb ready (builders b).
Definition still_optimizing b : bool := length (filter (λ x, closed x = true) (builders b)) <? length (builders b).

Definition register_op (op : Op) (pos : nat) b : Block Op F :=
  let index := length (operations b) in
  let bs := fuse op <$> builders b in
  let cl := zip_with (λ x c, match c with
                             | None => if closed x then Some index else None
                             | Some _ => c
                             end) bs (closed_at b) in
  mkBlock bs (operations b ++ [op]) (flow_register op pos (flow b)) (constituents b) (ordering b ++ [pos]) cl
    (Some (match start_pos b with Some s => if pos <? s then pos else s | None => pos end))
    (if end_pos b <? pos + 1 then pos + 1 else end_pos b).
(** [register]: the block, and whether the operation was accepted. *)
Definition block_register (op : Op) (order : nat) (force : bool) b : Block Op F * bool :=
  if flow_is_empty (flow b) then (register_op op order b, true)
  else if negb (contains_operation_tensors b op) && negb force then (b, false)
  else (register_op op order b, true).
Definition merge_validated b (other : Block Op F) : Block Op F * bool :=
  let self_ready := has_ready_optimization b in
  let other_ready := has_ready_optimization other in
  let b := mkBlock (builders b) (operations b) (flow b)
             (SubGraph.union_with (constituents b) (constituents other)) (ordering b) (closed_at b)
             (start_pos b) (end_pos b) in
  let b := foldl (λ b p, (block_register p.1 p.2 true b).1) b (zip (operations other) (ordering other)) in
  (b, if still_optimizing b then true
      else negb self_ready && negb other_ready && has_ready_optimization b).
Definition merge b (other : Block Op F) : Block Op F * bool :=
  if can_append b other then merge_validated b other else (b, false).

(** [mapping[*i]] for every position of a strategy. *)
Fixpoint map_strategy (mapping : list nat) (s : ExecutionStrategy Opt) : res E (ExecutionStrategy Opt) :=
  match s with
  | Optimization opt ord sc => let? ord := res_mapM (get mapping) ord in Ok (Optimization opt ord sc)
  | Operations ord => let? ord := res_mapM (get mapping) ord in Ok (Operations ord)
  | Composed items => let? items := res_mapM (map_strategy mapping) items in Ok (Composed items)
  end.
Definition map_ordering (mapping : list nat) (o : BlockOptimization Opt) : res E (BlockOptimization Opt) :=
  let? ord := res_mapM (get mapping) (opt_ordering o) in
  let? s := map_strategy mapping (strategy o) in
  Ok (mkOptimization s ord).
End block.

(** ** Merging *)

Inductive MergeBlocksResult (Op F : Type) :=
  | Full (block : Block Op F)
  | Partial (merged failed : list (Block Op F))
  | Fail_.
Arguments Full {Op F}.
Arguments Partial {Op F}.
Arguments Fail_ {Op F}.
Record MergeBlockStep1 (Op F : Type) := mkStep1 {
  full : list (Block Op F);
  partial : list (Block Op F);
  failed : list (Block Op F)
}.
Arguments mkStep1 {Op F}.
Arguments full {Op F}.
Arguments partial {Op F}.
Arguments failed {Op F}.

Section merging.
Context {E Op F Opt : Type} `{!OperationIr Op, !Fuser Op F Opt}.
Abbreviation B := (Block Op F).
Implicit Types (b : B) (l : list B) (guard : Reachability) (s : MergeBlockStep1 Op F).

Definition merge_two guard a b : res E (option B) :=
  let? c := can_contract guard (constituents a) (constituents b) in
  if negb c then Ok None
  else
    let first := if can_append a b then merge_validated a b else (a, false) in
    if snd first then Ok (Some (fst first))
    else
      let second := if can_append b a then merge_validated b a else (b, false) in
      Ok (if snd second then Some (fst second) else None).

Fixpoint accumulate guard base (merged_failed : list B) (merged_success : bool) l
    : res E (B * list B * bool) :=
  match l with
  | [] => Ok (base, merged_failed, merged_success)
  | b :: l =>
      let? m := merge_two guard base b in
      match m with
      | None => accumulate guard base (merged_failed ++ [b]) merged_success l
      | Some merged => accumulate guard merged merged_failed true l
      end
  end.
Definition merge_accumulator guard base l : res E (MergeBlocksResult Op F) :=
  let? r := accumulate guard base [] false l in
  let '(base, merged_failed, success) := r in
  Ok (if success : bool
      then (match merged_failed with [] => Full base | _ => Partial [base] merged_failed end)
      else Fail_).

(** [&v[0]] and [&v[1..]] of a vector that is not empty. *)
Definition accumulate_all guard l : res E (MergeBlocksResult Op F) :=
  match l with [] => Panic | base :: l => merge_accumulator guard base l end.
(** The five attempts of [merge_blocks_step2], each on some of the three vectors. *)
Definition merge_partial guard s : res E (MergeBlockStep1 Op F) :=
  let? r := accumulate_all guard (partial s) in
  Ok (match r with
      | Full b => mkStep1 (full s) [b] (failed s)
      | Partial merged f => mkStep1 (full s) merged (failed s ++ f)
      | Fail_ => s
      end).
Definition merge_full guard s : res E (MergeBlockStep1 Op F) :=
  let? r := accumulate_all guard (full s) in
  Ok (match r with
      | Full b => mkStep1 [b] (partial s) (failed s)
      | Partial merged f => mkStep1 merged (partial s) (failed s ++ f)
      | Fail_ => s
      end).
Definition merge_blocks_step2 guard s : res E (MergeBlocksResult Op F) :=
  let? s := if 1 <? length (partial s) then merge_partial guard s else Ok s in
  let? s := match failed s with
            | [] => Ok s
            | _ => merge_partial guard (mkStep1 (full s) (partial s ++ failed s) [])
            end in
  let? s := if 1 <? length (full s) then merge_full guard s else Ok s in
  let? s := match full s with
            | [] => Ok s
            | _ => merge_full guard (mkStep1 (full s ++ failed s) (partial s) [])
            end in
  let? s := match full s, partial s with
            | [], [] => Ok s
            | _, _ => merge_full guard (mkStep1 (full s ++ partial s) [] (failed s))
            end in
  Ok (match full s, failed s with
      | [], _ => Fail_
      | [b], [] => Full b
      | _, [] => Partial (full s) []
      | _, _ => Partial (full s) (failed s)
      end).

(** The slices [&blocks[start..end]] of [merge_blocks_step1]. *)
Definition slices (step : nat) l : list (list B) :=
  (λ i, take step (drop (i * step) l)) <$> seq 0 ((length l + step - 1) / step).
Fixpoint merge_slices (rec : list B → res E (MergeBlocksResult Op F)) s (ls : list (list B))
    : res E (MergeBlockStep1 Op F) :=
  match ls with
  | [] => Ok s
  | l :: ls =>
      let? r := rec l in
      merge_slices rec (match r with
                        | Full b => mkStep1 (full s ++ [b]) (partial s) (failed s)
                        | Partial m f => mkStep1 (full s) (partial s ++ m) (failed s ++ f)
                        | Fail_ => mkStep1 (full s) (partial s) (failed s ++ l)
                        end) ls
  end.
Definition sort_result (r : MergeBlocksResult Op F) : MergeBlocksResult Op F :=
  match r with
  | Full b => Full b
  | Partial m f => Partial (block_sort m) (block_sort f)
  | Fail_ => Fail_
  end.
(** Every slice is shorter than the list: its length is enough fuel. *)
Fixpoint merge_blocks_with_guard (fuel : nat) guard l (sorted : bool) : res E (MergeBlocksResult Op F) :=
  match fuel with
  | O => Panic
  | S fuel =>
      match l with
      | [] => Ok Fail_
      | [b] => Ok (Full b)
      | [a; b] =>
          let? m := merge_two guard a b in
          Ok (match m with Some b => Full b | None => Fail_ end)
      | _ =>
          let? s := merge_slices (λ l, merge_blocks_with_guard fuel guard l false) (mkStep1 [] [] [])
                      (slices (length l / 2) l) in
          match full s, partial s, failed s with
          | [b], [], [] => Ok (Full b)
          | [], [b], [] => Ok (Full b)
          | _, _, _ =>
              let? r := merge_blocks_step2 guard s in
              Ok (if sorted then sort_result r else r)
          end
      end
  end.
(** The blocks are numbered, and the graph of the numbered blocks guards the merges. *)
Definition seed_all l : list B := imap seed_constituent l.
Definition merge_blocks l (sorted : bool) : res E (MergeBlocksResult Op F) :=
  let l := seed_all l in
  let? guard := reachability (dag_new l) in
  merge_blocks_with_guard (S (length l)) guard l sorted.
End merging.

(** ** From blocks to a strategy *)

Record BlocksOptimizer (Op F : Type) := mkBlocks { opt_blocks : list (Block Op F); num_ops : nat }.
Arguments mkBlocks {Op F}.
Arguments opt_blocks {Op F}.
Arguments num_ops {Op F}.
Inductive BlocksOptimizerResult (Opt : Type) :=
  | FullStream (optimization : BlockOptimization Opt)
  | WithHoles (strategies : list (ExecutionStrategy Opt)) (ordering holes : list nat).
Arguments FullStream {Opt}.
Arguments WithHoles {Opt}.

Section blocks_optimizer.
Context {E Op F Opt : Type} `{!OperationIr Op, !Fuser Op F Opt}.
Abbreviation B := (Block Op F).

Definition blocks_optimizer_new (l : list B) : res E (BlocksOptimizer Op F) :=
  match l with
  | [] => Panic
  | _ => Ok (mkBlocks l (foldr (λ b m, end_pos b `max` m) 0 l))
  end.
Definition merging_pass (s : BlocksOptimizer Op F) : res E (BlocksOptimizer Op F) :=
  if length (opt_blocks s) =? 1 then Ok s
  else
    let l := seed_all (block_sort (opt_blocks s)) in
    let? guard := reachability (dag_new l) in
    let? r := merge_blocks_with_guard (S (length l)) guard l false in
    Ok (match r with
        | Full b => mkBlocks [b] (num_ops s)
        | Partial merged f => mkBlocks (block_sort (merged ++ f)) (num_ops s)
        | Fail_ => mkBlocks l (num_ops s)
        end).
(** [slots[index].take().expect(..)] for every index. *)
Fixpoint take_slots {A} (slots : list (option A)) (order : list nat) : res E (list A) :=
  match order with
  | [] => Ok []
  | i :: order =>
      let? o := get slots i in
      match o with
      | None => Panic
      | Some x => let? xs := take_slots (<[i := None]> slots) order in Ok (x :: xs)
      end
  end.
Definition order_blocks (l : list B) : res E (list B) :=
  if 1 <? length l then
    let? o := topological_order (dag_new l) in
    match o with
    | Some order => if bool_decide (order = seq 0 (length order)) then Ok l else take_slots (Some <$> l) order
    | None => Ok l
    end
  else Ok l.
Definition set_resolved (resolved : list bool) (pos : nat) : res E (list bool) :=
  let? _ := get resolved pos in Ok (<[pos := true]> resolved).
Fixpoint optimize_blocks (strategies : list (ExecutionStrategy Opt)) (ord : list nat) (resolved : list bool)
    (l : list B) : res E (list (ExecutionStrategy Opt) * list nat * list bool) :=
  match l with
  | [] => Ok (strategies, ord, resolved)
  | b :: l =>
      let? o := block_optimize b in
      let? resolved := res_foldl set_resolved resolved (opt_ordering o) in
      optimize_blocks (strategies ++ [strategy o]) (ord ++ opt_ordering o) resolved l
  end.
(** [resolved.iter().rposition(|&r| r).map(|i| i + 1).unwrap_or(0)] *)
Fixpoint last_resolved_end (resolved : list bool) : nat :=
  match resolved with
  | [] => 0
  | r :: resolved =>
      match last_resolved_end resolved with
      | O => if r : bool then 1 else 0
      | S k => S (S k)
      end
  end.
Definition blocks_optimize (s : BlocksOptimizer Op F) : res E (BlocksOptimizerResult Opt) :=
  let? s := merging_pass s in
  let? l := order_blocks (opt_blocks s) in
  let? r := optimize_blocks [] [] (replicate (num_ops s) false) l in
  let '(strategies, ord, resolved) := r in
  let holes := filter (λ i, resolved !! i = Some false) (seq 0 (last_resolved_end resolved)) in
  match holes with
  | [] =>
      match strategies with
      | [] => Panic
      | [x] => Ok (FullStream (mkOptimization x ord))
      | _ => Ok (FullStream (mkOptimization (Composed strategies) ord))
      end
  | _ => Ok (WithHoles strategies ord holes)
  end.
End blocks_optimizer.

(** ** Repairing the order *)

Record Chunk := mkChunk { chunk_positions : list nat; chunk_flow : TensorFlow }.
#[export] Instance chunk_node : GraphNode Chunk := {
  produced c := produced (chunk_flow c);
  read c := read (chunk_flow c);
  freed c := freed (chunk_flow c);
  produces c := produces (chunk_flow c);
  reads c := reads (chunk_flow c);
  position c := position (chunk_flow c);
  read_position c := read_position (chunk_flow c);
  produces_before c := produces_before (chunk_flow c);
  ordered_range c := ordered_range (chunk_flow c)
}.

Section repair.
Context {E Op Opt : Type} `{!OperationIr Op}.
Implicit Types (ops : list Op) (s : ExecutionStrategy Opt).

Definition chunk_new (positions : list nat) ops : res E Chunk :=
  let? f := res_foldl (λ f p, let? op := get ops p in Ok (flow_register op p f)) flow_new positions in
  Ok (mkChunk positions f).
Definition ordering_is_valid (ord : list nat) ops : res E bool :=
  let? nodes := res_mapM (λ p, let? op := get ops p in Ok (mkNode op p)) ord in
  Ok (is_valid_execution_order nodes).
Definition unfused_stream_order (ord : list nat) : BlockOptimization Opt :=
  let ord := merge_sort le ord in mkOptimization (Operations ord) ord.
Fixpoint flatten_strategy s : list (ExecutionStrategy Opt) :=
  match s with
  | Composed items => concat (flatten_strategy <$> items)
  | s => [s]
  end.
Definition flatten_strategies (items : list (ExecutionStrategy Opt)) : list (ExecutionStrategy Opt) :=
  concat (flatten_strategy <$> items).
Fixpoint strategy_len s : nat :=
  match s with
  | Optimization _ ord _ | Operations ord => length ord
  | Composed items => sum_list (strategy_len <$> items)
  end.
(** [ordering[offset..offset + len]] for each strategy in turn. *)
Fixpoint cut_chunks ops (ord : list nat) (l : list (ExecutionStrategy Opt)) : res E (list Chunk) :=
  match l with
  | [] => Ok []
  | s :: l =>
      if length ord <? strategy_len s then Panic
      else
        let? c := chunk_new (take (strategy_len s) ord) ops in
        let? cs := cut_chunks ops (drop (strategy_len s) ord) l in
        Ok (c :: cs)
  end.
Definition assemble (l : list (ExecutionStrategy Opt)) (chunks : list Chunk) (order : list nat) ops
    : res E (BlockOptimization Opt) :=
  let? strategies := take_slots (Some <$> l) order in
  let? cs := res_mapM (get chunks) order in
  let ord := concat (chunk_positions <$> cs) in
  let? v := ordering_is_valid ord ops in
  Ok (if v : bool then mkOptimization (Composed strategies) ord else unfused_stream_order ord).
(** Strategies that are not fused are split into single operations. *)
Fixpoint split_chunks ops (l : list (ExecutionStrategy Opt * Chunk))
    : res E (list (ExecutionStrategy Opt) * list Chunk) :=
  match l with
  | [] => Ok ([], [])
  | (s, c) :: l =>
      let? one := match s with
                  | Operations _ =>
                      let? cs := res_mapM (λ p, chunk_new [p] ops) (chunk_positions c) in
                      Ok ((λ p, Operations [p]) <$> chunk_positions c, cs)
                  | _ => Ok ([s], [c])
                  end in
      let? rest := split_chunks ops l in
      Ok (one.1 ++ rest.1, one.2 ++ rest.2)
  end.
Definition repair_order (o : BlockOptimization Opt) ops : res E (BlockOptimization Opt) :=
  let? v := ordering_is_valid (opt_ordering o) ops in
  if v : bool then Ok o
  else
    match strategy o with
    | Composed items =>
        let flattened := flatten_strategies items in
        let? chunks := cut_chunks ops (opt_ordering o) flattened in
        let? order := topological_order (dag_new chunks) in
        match order with
        | Some order => assemble flattened chunks order ops
        | None =>
            let? r := split_chunks ops (zip flattened chunks) in
            let? order := topological_order (dag_new r.2) in
            match order with
            | Some order => assemble r.1 r.2 order ops
            | None => Ok (unfused_stream_order (concat (chunk_positions <$> r.2)))
            end
        end
    | _ => Ok (unfused_stream_order (opt_ordering o))
    end.
End repair.

(** ** Streams *)

Record StreamOptimizer (Op F : Type) := mkStream {
  st_builders : list F;
  blocks : list (Block Op F);
  st_length : nat;
  stopped : bool;
  max_blocks : option nat
}.
Arguments mkStream {Op F}.
Arguments st_builders {Op F}.
Arguments blocks {Op F}.
Arguments st_length {Op F}.
Arguments stopped {Op F}.
Arguments max_blocks {Op F}.
Inductive MergeBlockStep := StepFull | StepPartial | StepFail | StepNoNeed.
#[export] Instance MergeBlockStep_eq_dec : EqDecision MergeBlockStep.
Proof. solve_decision. Defined.

Section stream.
Context {E Op F Opt : Type} `{!OperationIr Op, !Fuser Op F Opt}.
(** [config().fusion.beam_search.max_blocks] *)
Context (beam : nat).
Implicit Types (s : StreamOptimizer Op F) (op : Op).
Abbreviation B := (Block Op F).

Definition stream_new (bs : list F) : StreamOptimizer Op F := mkStream bs [] 0 false (Some beam).
Definition with_blocks s (l : list B) : StreamOptimizer Op F :=
  mkStream (st_builders s) l (st_length s) (stopped s) (max_blocks s).
Definition with_length s (n : nat) : StreamOptimizer Op F :=
  mkStream (st_builders s) (blocks s) n (stopped s) (max_blocks s).
Definition stop s : StreamOptimizer Op F :=
  mkStream (st_builders s) (blocks s) (st_length s) true (max_blocks s).

(** The blocks that [merge_blocks] selects, with whether each is selected: removing
    their indices from the back leaves the others in place. *)
Definition selects (op : Op) (all : bool) (b : B) : bool :=
  all || contains_operation_tensors b op ||
  (ordered_effect op && match ordered_range b with Some _ => true | None => false end).
Definition stream_merge_blocks s op (all : bool) : res E (StreamOptimizer Op F * MergeBlockStep) :=
  if length (filter (λ b, selects op all b = true) (blocks s)) <=? 1 then Ok (s, StepNoNeed)
  else
    let l := seed_all (blocks s) in
    let? guard := reachability (dag_new l) in
    let chosen := filter (λ b, selects op all b = true) l in
    let others := filter (λ b, selects op all b = false) l in
    let? r := merge_blocks_with_guard (S (length chosen)) guard chosen false in
    Ok (match r with
        | Full b => (with_blocks s (block_sort (others ++ [b])), StepFull)
        | Partial merged f => (with_blocks s (block_sort (others ++ merged ++ f)), StepPartial)
        | Fail_ => (with_blocks s l, StepFail)
        end).
Definition new_block s op : B := (block_register op (st_length s) true (block_new (st_builders s))).1.
Definition on_new_block s op : StreamOptimizer Op F := with_blocks s (blocks s ++ [new_block s op]).
Definition on_dependent_op s op : res E (StreamOptimizer Op F) :=
  let? s :=
    match max_blocks s with
    | Some m =>
        if m <=? length (blocks s) then
          let? r := stream_merge_blocks s op true in
          Ok (if m <=? length (blocks r.1) then stop r.1 else r.1)
        else Ok s
    | None => Ok s
    end in
  if stopped s then Ok s
  else
    let s' := on_new_block s op in
    let? a := is_acyclic (dag_new (blocks s')) in
    Ok (if a : bool then s' else stop s).
(** [register_inner] with the number of blocks that accepted. *)
Definition register_inner s op (force : bool) : StreamOptimizer Op F * nat :=
  let l := block_register op (st_length s) force <$> blocks s in
  (with_blocks s l.*1, length (filter (λ a, a = true) l.*2)).
Definition register_max_block s op (m : nat) : res E (StreamOptimizer Op F * bool) :=
  if m =? 1 then Ok ((register_inner s op true).1, true)
  else
    let r := register_inner s op false in
    if 0 <? r.2 then Ok (r.1, true)
    else if (r.2 =? 0) && (length (blocks r.1) <? m) then Ok (on_new_block r.1 op, true)
    else
      let? t := stream_merge_blocks r.1 op true in
      if m <=? length (blocks t.1) then Ok (stop t.1, false)
      else
        let r := register_inner t.1 op false in
        Ok (if r.2 =? 0 then on_new_block r.1 op else r.1, true).
Definition register s op : res E (StreamOptimizer Op F) :=
  if stopped s then Ok s
  else if bool_decide (blocks s = []) then Ok (with_length (on_new_block s op) (st_length s + 1))
  else
    let? r := stream_merge_blocks s op false in
    match r.2 with
    | StepFail | StepPartial =>
        let? s := on_dependent_op r.1 op in
        Ok (if stopped s then s else with_length s (st_length s + 1))
    | StepFull | StepNoNeed =>
        let s := r.1 in
        match max_blocks s with
        | Some m =>
            let? t := register_max_block s op m in
            Ok (if t.2 : bool then with_length t.1 (st_length t.1 + 1) else stop t.1)
        | None =>
            let t := register_inner s op false in
            let s := if t.2 =? 0 then on_new_block t.1 op else t.1 in
            Ok (with_length s (st_length s + 1))
        end
    end.

Definition new_empty_search s : StreamOptimizer Op F := stream_new (reset <$> st_builders s).
Definition stream_reset s : StreamOptimizer Op F :=
  mkStream (reset <$> st_builders s) [] 0 false (max_blocks s).
Definition stream_still_optimizing s : bool :=
  if stopped s then false
  else if bool_decide (blocks s = []) then true
  else length (filter (λ b, still_optimizing b = false) (blocks s)) <? length (blocks s).

(** The loop of [optimize]: every turn covers a hole, the number of holes is enough. *)
Fixpoint fill_holes (optimize : StreamOptimizer Op F → list Op → res E (BlockOptimization Opt)) s
    (ops : list Op) (turns : nat) (strategies : list (ExecutionStrategy Opt)) (ord holes : list nat)
    : res E (BlockOptimization Opt) :=
  match turns with
  | O => Panic
  | S turns =>
      let? hole_ops := res_mapM (get ops) holes in
      let? search := res_foldl register (new_empty_search s) hole_ops in
      let? o := optimize search hole_ops in
      let? o := map_ordering holes o in
      if length holes <? length (opt_ordering o) then Panic
      else
        let strategies := strategies ++ [strategy o] in
        let ord := ord ++ opt_ordering o in
        match drop (length (opt_ordering o)) holes with
        | [] => Ok (mkOptimization (Composed strategies) ord)
        | holes => fill_holes optimize s ops turns strategies ord holes
        end
  end.
(** The search for the holes has fewer operations: their number bounds the depth. *)
Fixpoint optimize (fuel : nat) s (ops : list Op) : res E (BlockOptimization Opt) :=
  match fuel with
  | O => Panic
  | S fuel =>
      let? bo := blocks_optimizer_new (blocks s) in
      let? r := blocks_optimize bo in
      let? o := match r with
                | FullStream o => Ok o
                | WithHoles strategies ord holes =>
                    fill_holes (optimize fuel) s ops (length holes) strategies ord holes
                end in
      repair_order o ops
  end.
End stream.
