(* ===== verification/FusionSearchInv.v ===== *)
(** * Blocks keep their operations

    The invariant of a block, and that merging blocks conserves their operations. *)

From S2P Require Import Prelude FusionGraph FusionSets FusionDag FusionReach FusionSearch.
Import SubGraph(iter, single, union_with).
Open Scope nat_scope.

(** ** Counting positions *)

Definition tally (p : nat) (l : list nat) : nat := length (filter (p =.) l).
Lemma tally_app p l k : tally p (l ++ k) = tally p l + tally p k.
Proof. unfold tally. by rewrite filter_app, length_app. Qed.
Lemma tally_cons p x l : tally p (x :: l) = (if decide (p = x) then 1 else 0) + tally p l.
Proof. unfold tally. rewrite filter_cons. by case_decide. Qed.
Lemma tally_pos p l : 0 < tally p l ↔ p ∈ l.
Proof.
  induction l as [|x l IH]; [split; [cbn; lia|by intros ?%elem_of_nil]|]. rewrite tally_cons, elem_of_cons.
  case_decide; naive_solver lia.
Qed.
Lemma tally_nodup l : NoDup l ↔ ∀ p, tally p l ≤ 1.
Proof.
  induction l as [|x l IH]; [split; [intros _ p; cbn; lia|constructor]|]. rewrite NoDup_cons, IH. split.
  - intros [Hx Hl] p. rewrite tally_cons. case_decide; [subst|by apply Hl].
    rewrite <-tally_pos in Hx. lia.
  - intros Hp. split.
    + rewrite <-tally_pos. specialize (Hp x). rewrite tally_cons, decide_True in Hp by done. lia.
    + intros p. specialize (Hp p). rewrite tally_cons in Hp. lia.
Qed.
Lemma tally_perm l k : (∀ p, tally p l = tally p k) → NoDup k → l ≡ₚ k.
Proof.
  intros Ht Hk. apply NoDup_Permutation; [|done|].
  - rewrite tally_nodup in Hk |- *. intros p. by rewrite Ht.
  - intros p. by rewrite <-!tally_pos, Ht.
Qed.
Lemma tally_perm_inv l k p : l ≡ₚ k → tally p l = tally p k.
Proof. intros Hp. unfold tally. by rewrite Hp. Qed.
Lemma tally_seq p n : tally p (seq 0 n) = if decide (p < n) then 1 else 0.
Proof.
  pose proof (proj1 (tally_nodup _) (NoDup_seq 0 n) p) as Hle. case_decide as Hp.
  - assert (0 < tally p (seq 0 n)) by (apply tally_pos, elem_of_seq; lia). lia.
  - destruct (tally p (seq 0 n)) eqn:Ht; [done|]. exfalso. apply Hp.
    assert (p ∈ seq 0 n) as Hin by (apply tally_pos; lia). apply elem_of_seq in Hin. lia.
Qed.

(** ** The flow of an operation with tensors *)

Section flow.
Context `{!OperationIr Op}.
Implicit Types (f : TensorFlow) (op : Op) (t : TensorIr).

Lemma flow_contains_iff f r : flow_contains f r = true ↔ is_Some (flow_produced f !! r) ∨ is_Some (flow_read f !! r).
Proof. unfold flow_contains. by rewrite orb_true_iff, !bool_decide_eq_true. Qed.
Lemma flow_contains_empty f r : flow_contains f r = true → flow_is_empty f = false.
Proof.
  rewrite flow_contains_iff. unfold flow_is_empty. intros [[p Hp]|[p Hp]]; apply andb_false_iff; [left|right];
    apply bool_decide_eq_false; intros Heq; rewrite Heq, lookup_empty in Hp; done.
Qed.
Lemma contains_input op pos f t r :
  flow_contains (register_input op pos f t) r = true ↔ flow_contains f r = true ∨ r = tensor_id t.
Proof.
  rewrite !flow_contains_iff. unfold register_input. cbn [flow_produced flow_read]. case_bool_decide as Hp; [naive_solver|].
  destruct (decide (tensor_id t = r)) as [->|Hne]; [rewrite lookup_insert_eq; naive_solver|].
  rewrite lookup_insert_ne by done. naive_solver.
Qed.
Lemma contains_output pos f t r :
  flow_contains (register_output pos f t) r = true ↔ flow_contains f r = true ∨ r = tensor_id t.
Proof.
  rewrite !flow_contains_iff. unfold register_output. cbn [flow_produced flow_read].
  destruct (decide (tensor_id t = r)) as [->|Hne]; [rewrite lookup_insert_eq; naive_solver|].
  rewrite lookup_insert_ne, lookup_delete_ne by done. naive_solver.
Qed.
Lemma contains_fold (g : TensorFlow → TensorIr → TensorFlow) l f r :
  (∀ f t r, flow_contains (g f t) r = true ↔ flow_contains f r = true ∨ r = tensor_id t) →
  flow_contains (foldl g f l) r = true ↔ flow_contains f r = true ∨ r ∈ tensor_id <$> l.
Proof.
  intros Hg. revert f. induction l as [|t l IH]; intros f; cbn [foldl fmap list_fmap].
  - rewrite elem_of_nil. tauto.
  - rewrite IH, Hg, elem_of_cons. tauto.
Qed.
Definition tensors op : list N := tensor_id <$> inputs op ++ outputs op.
Lemma flow_register_contains op pos f r :
  flow_contains (flow_register op pos f) r = true ↔ flow_contains f r = true ∨ r ∈ tensors op.
Proof.
  unfold flow_register, tensors. rewrite contains_fold, contains_fold by (intros; apply contains_input || apply contains_output).
  rewrite fmap_app, elem_of_app. unfold flow_contains. cbn [flow_produced flow_read]. tauto.
Qed.
Definition has_tensor op : Prop := inputs op ++ outputs op ≠ [].
Lemma flow_register_nonempty op pos f : has_tensor op → flow_is_empty (flow_register op pos f) = false.
Proof.
  unfold has_tensor. intros Ht. destruct (inputs op ++ outputs op) as [|t l] eqn:Heq; [done|].
  apply (flow_contains_empty _ (tensor_id t)), flow_register_contains. right. unfold tensors. rewrite Heq. by left.
Qed.
End flow.

(** ** Blocks *)

Section block.
Context {E Op F Opt : Type} `{!OperationIr Op, !Fuser Op F Opt}.
Abbreviation B := (Block Op F).
Implicit Types (b : B) (l : list B) (ops : list Op) (base : list F).

Definition fused (x : F) ops : F := foldl (λ x op, fuse op x) x ops.
(** The operations of a block are those of the stream at its positions, the builders
    have been given them in that order since they were cloned from [base]. *)
Record block_pre ops base b : Prop := {
  block_ops : Forall2 (λ op p, ops !! p = Some op) (operations b) (ordering b);
  block_builders : builders b = (λ x, fused x (operations b)) <$> base;
  block_closed_len : length (closed_at b) = length base;
  block_closed : Forall (λ c, ∀ i, c = Some i → i < length (operations b)) (closed_at b);
  block_end : ∀ p, p ∈ ordering b → p < end_pos b;
  block_flow : ∀ r, flow_contains (flow b) r = true ↔ ∃ op, op ∈ operations b ∧ r ∈ tensors op
}.
Definition block_ok ops base b : Prop :=
  block_pre ops base b ∧ operations b ≠ [] ∧ flow_is_empty (flow b) = false.

Lemma block_new_pre ops base : block_pre ops base (block_new base).
Proof.
  constructor; cbn; [constructor|by rewrite list_fmap_id|apply length_replicate| |by intros p ?%elem_of_nil|].
  - apply Forall_replicate. done.
  - intros r. split; [done|]. by intros (op & ?%elem_of_nil & _).
Qed.
Lemma register_op_ok ops base b op pos :
  block_pre ops base b → ops !! pos = Some op → has_tensor op → block_ok ops base (register_op op pos b).
Proof.
  intros Hb Hop Ht. split; [|split; [cbn; by intros [_ ?]%app_eq_nil|by apply flow_register_nonempty]].
  constructor; cbn [register_op operations ordering builders closed_at end_pos flow].
  - apply Forall2_app; [apply Hb|]. by constructor.
  - rewrite (block_builders _ _ _ Hb), <-list_fmap_compose. apply list_fmap_ext. intros i x _. cbn. unfold fused.
    by rewrite foldl_app.
  - rewrite length_zip_with, length_fmap, (block_builders _ _ _ Hb), length_fmap, (block_closed_len _ _ _ Hb). lia.
  - apply Forall_forall. intros c Hc i ->. rewrite length_app. cbn [length].
    apply list_elem_of_lookup in Hc as (k & Hk). apply lookup_zip_with_Some in Hk as (x & c & Heq & _ & Hc).
    destruct c as [j|].
    + injection Heq as <-. pose proof (proj1 (Forall_lookup _ _) (block_closed _ _ _ Hb) _ _ Hc i eq_refl). lia.
    + destruct (closed x); [injection Heq as ->; lia|done].
  - intros p [Hp|Hp]%elem_of_app; [apply (block_end _ _ _ Hb) in Hp|apply list_elem_of_singleton in Hp as ->];
      destruct (Nat.ltb_spec (end_pos b) (pos + 1)); lia.
  - intros r. rewrite flow_register_contains, (block_flow _ _ _ Hb). setoid_rewrite elem_of_app.
    setoid_rewrite list_elem_of_singleton. naive_solver.
Qed.
Lemma block_holds ops base b : block_ok ops base b → ∃ p, p ∈ ordering b.
Proof.
  intros (Hp & Hne & _). pose proof (Forall2_length _ _ _ (block_ops _ _ _ Hp)) as Hl.
  destruct (ordering b) as [|p o]; [|exists p; by left]. by destruct (operations b).
Qed.
Lemma block_register_forced op pos b : block_register op pos true b = (register_op op pos b, true).
Proof. unfold block_register. destruct (flow_is_empty (flow b)); [done|]. by rewrite andb_false_r. Qed.
Lemma register_op_ordering op pos b : ordering (register_op op pos b) = ordering b ++ [pos].
Proof. done. Qed.

(** How often the blocks hold position [p]. *)
Definition cnt (p : nat) l : nat := sum_list_with (λ b, tally p (ordering b)) l.
Lemma cnt_app p l k : cnt p (l ++ k) = cnt p l + cnt p k.
Proof. apply sum_list_with_app. Qed.
Lemma cnt_cons p b l : cnt p (b :: l) = tally p (ordering b) + cnt p l.
Proof. done. Qed.
Lemma cnt_nil p : cnt p [] = 0.
Proof. done. Qed.
Lemma cnt_concat p l : cnt p l = tally p (concat (ordering <$> l)).
Proof. induction l as [|b l IH]; [done|]. rewrite cnt_cons, fmap_cons. cbn [concat]. by rewrite tally_app, IH. Qed.
Lemma cnt_perm p l k : l ≡ₚ k → cnt p l = cnt p k.
Proof. induction 1; rewrite ?cnt_cons in *; lia. Qed.

Section merge.
Context (ops : list Op) (base : list F) (Htens : Forall has_tensor ops) (d : Dag) (Hd : dag_ok d).
Context (guard : Reachability) (Hguard : reach_ok d guard).

(** The block stands for nodes of the graph. *)
Definition numbered b : Prop := ∃ X : gset nat, repr (constituents b) X ∧ ∀ k, k ∈ X → k < dag_len d.
Definition good b : Prop := block_ok ops base b ∧ numbered b.

Lemma register_all_ok (ps : list (Op * nat)) b :
  block_ok ops base b → Forall (λ p, ops !! p.2 = Some p.1) ps →
  let b' := foldl (λ b p, (block_register p.1 p.2 true b).1) b ps in
  block_ok ops base b' ∧ ordering b' = ordering b ++ ps.*2 ∧ constituents b' = constituents b.
Proof.
  revert b. induction ps as [|[op pos] ps IH]; intros b Hb Hps; cbn [foldl fmap list_fmap].
  { by rewrite app_nil_r. }
  apply Forall_cons in Hps as [Hp Hps]. rewrite block_register_forced. cbn [fst snd] in *.
  destruct (IH (register_op op pos b)) as (H1 & H2 & H3); [|done|].
  - apply register_op_ok; [apply Hb|done|]. rewrite Forall_lookup in Htens. by eapply Htens.
  - split; [done|]. rewrite H2, H3. split; [|done]. by rewrite register_op_ordering, <-app_assoc.
Qed.
Lemma merge_validated_ok a b :
  good a → good b →
  good (merge_validated a b).1 ∧ ordering (merge_validated a b).1 = ordering a ++ ordering b.
Proof.
  intros [Ha (X & HX & HXn)] [Hb (Y & HY & HYn)]. unfold merge_validated. cbn [fst].
  set (a' := mkBlock _ _ _ _ _ _ _ _).
  assert (Forall2 (λ op p, ops !! p = Some op) (operations b) (ordering b)) as Hf by apply Hb.
  destruct (register_all_ok (zip (operations b) (ordering b)) a') as (H1 & H2 & H3).
  - destruct Ha as ([] & ? & ?). split; [by constructor|done].
  - apply Forall_forall. intros [op p] (i & Hi)%list_elem_of_lookup. apply lookup_zip_with_Some in Hi as (? & ? & [= -> ->] & Hi1 & Hi2).
    by eapply (Forall2_lookup_lr _ _ _ i) in Hf.
  - split; [split; [done|]|].
    + unfold numbered. rewrite H3. exists (X ∪ Y). split; [by apply repr_union|]. intros k [?|?]%elem_of_union; auto.
    + rewrite H2. cbn [ordering]. f_equal. apply snd_zip. apply Forall2_length in Hf. lia.
Qed.
Lemma merge_two_ok a b :
  good a → good b →
  ∃ m, merge_two (E:=E) guard a b = Ok m ∧
    ∀ c, m = Some c → good c ∧ ∀ p, tally p (ordering c) = tally p (ordering a) + tally p (ordering b).
Proof.
  intros Ha Hb. unfold merge_two. pose proof Ha as [_ (X & HX & HXn)]. pose proof Hb as [_ (Y & HY & HYn)].
  destruct (can_contract_ok (E:=E) d guard Hguard (constituents a) (constituents b) X Y HX HY) as (c & -> & _).
  { intros k [?|?]%elem_of_union; auto. }
  cbn [res_bind]. destruct c; cbn [negb]; [|by eexists].
  pose proof (merge_validated_ok a b Ha Hb) as [Hab Hoab]. pose proof (merge_validated_ok b a Hb Ha) as [Hba Hoba].
  destruct (can_append a b); [destruct (merge_validated a b) as [m []]|]; cbn [fst snd] in *;
    [eexists; split; [done|]; intros ? [= <-]; split; [done|]; intros p; by rewrite Hoab, tally_app| |];
    (eexists; split; [done|]; destruct (can_append b a); [|done];
     destruct (merge_validated b a) as [m' []]; cbn [fst snd] in *; [|done]; intros ? [= <-]; split; [done|];
     intros p; rewrite Hoba, tally_app; lia).
Qed.
Lemma accumulate_ok l b fl ok :
  good b → Forall good fl → Forall good l →
  ∃ b' fl' ok', accumulate (E:=E) guard b fl ok l = Ok (b', fl', ok') ∧ good b' ∧ Forall good fl' ∧
    ∀ p, tally p (ordering b') + cnt p fl' = tally p (ordering b) + cnt p fl + cnt p l.
Proof.
  revert b fl ok. induction l as [|x l IH]; intros b fl ok Hb Hfl Hl; cbn [accumulate].
  { exists b, fl, ok. split; [done|]. split; [done|]. split; [done|]. intros p. rewrite cnt_nil. lia. }
  apply Forall_cons in Hl as [Hx Hl]. destruct (merge_two_ok b x Hb Hx) as (m & -> & Hm). cbn [res_bind]. destruct m as [c|].
  - destruct (Hm c eq_refl) as [Hc Ht]. destruct (IH c fl true Hc Hfl Hl) as (b' & fl' & ok' & -> & H1 & H2 & H4).
    exists b', fl', ok'. split; [done|]. split; [done|]. split; [done|]. intros p. rewrite H4, Ht, cnt_cons. lia.
  - destruct (IH b (fl ++ [x]) ok Hb) as (b' & fl' & ok' & -> & H1 & H2 & H4); [apply Forall_app; split; [done|by constructor]|done|].
    exists b', fl', ok'. split; [done|]. split; [done|]. split; [done|]. intros p. rewrite H4, cnt_app, !cnt_cons, cnt_nil. lia.
Qed.

(** The blocks [k] hold the operations of [l], each in a good block. *)
Definition conserves l k : Prop := Forall good k ∧ k ≠ [] ∧ ∀ p, cnt p k = cnt p l.
Definition outcome l (r : MergeBlocksResult Op F) : Prop :=
  match r with
  | Full b => conserves l [b]
  | Partial m f => conserves l (m ++ f) ∧ m ≠ []
  | Fail_ => True
  end.
Lemma accumulate_all_ok l :
  Forall good l → l ≠ [] → ∃ r, accumulate_all (E:=E) guard l = Ok r ∧ outcome l r.
Proof.
  intros Hl Hne. destruct l as [|b l]; [done|]. apply Forall_cons in Hl as [Hb Hl]. cbn [accumulate_all]. unfold merge_accumulator.
  destruct (accumulate_ok l b [] false Hb (Forall_nil_2 _) Hl) as (b' & fl & ok & -> & H1 & H2 & H3). cbn [res_bind].
  eexists. split; [done|]. destruct ok; [|done]. destruct fl as [|x fl]; cbn [outcome].
  - split; [by constructor|]. split; [done|]. intros p. specialize (H3 p). rewrite !cnt_cons, !cnt_nil in *. lia.
  - split; [|done]. split; [by constructor|]. split; [done|]. intros p. specialize (H3 p). cbn [app]. rewrite !cnt_cons, !cnt_nil in *. lia.
Qed.
Definition everything (s : MergeBlockStep1 Op F) : list B := full s ++ partial s ++ failed s.
Definition step_ok l (s : MergeBlockStep1 Op F) : Prop :=
  Forall good (full s) ∧ Forall good (partial s) ∧ Forall good (failed s) ∧ ∀ p, cnt p (everything s) = cnt p l.
Ltac count := let p := fresh "p" in intros p; repeat match goal with H : ∀ p, cnt p _ = _ |- _ => specialize (H p) end;
  unfold everything in *; cbn [full partial failed] in *; rewrite ?cnt_app, ?cnt_cons, ?cnt_nil in *; lia.
Lemma merge_partial_ok l s :
  step_ok l s → partial s ≠ [] →
  ∃ s', merge_partial (E:=E) guard s = Ok s' ∧ step_ok l s' ∧ full s' = full s ∧ partial s' ≠ [].
Proof.
  intros (H1 & H2 & H3 & Hc) Hne. unfold merge_partial. destruct (accumulate_all_ok _ H2 Hne) as (r & -> & Hr). cbn [res_bind].
  eexists. split; [done|]. destruct r as [b|m f|]; cbn [outcome] in Hr; [| |done].
  - destruct Hr as (Hg & _ & Hn). split; [|done]. split; [done|]. split; [done|]. split; [done|]. count.
  - destruct Hr as ((Hg & _ & Hn) & Hm). apply Forall_app in Hg as [Hg1 Hg2]. split; [|done].
    split; [done|]. split; [done|]. split; [by apply Forall_app|]. count.
Qed.
Lemma merge_full_ok l s :
  step_ok l s → full s ≠ [] →
  ∃ s', merge_full (E:=E) guard s = Ok s' ∧ step_ok l s' ∧ partial s' = partial s ∧ full s' ≠ [].
Proof.
  intros (H1 & H2 & H3 & Hc) Hne. unfold merge_full. destruct (accumulate_all_ok _ H1 Hne) as (r & -> & Hr). cbn [res_bind].
  eexists. split; [done|]. destruct r as [b|m f|]; cbn [outcome] in Hr; [| |done].
  - destruct Hr as (Hg & _ & Hn). split; [|done]. split; [done|]. split; [done|]. split; [done|]. count.
  - destruct Hr as ((Hg & _ & Hn) & Hm). apply Forall_app in Hg as [Hg1 Hg2]. split; [|done].
    split; [done|]. split; [done|]. split; [by apply Forall_app|]. count.
Qed.
Lemma long_nonempty {A} (k : list A) : 1 < length k → k ≠ [].
Proof. intros Hk ->. cbn in Hk. lia. Qed.
Definition kept (s : MergeBlockStep1 Op F) : Prop := full s ≠ [] ∨ partial s ≠ [].
Lemma step2_partial l s :
  step_ok l s → everything s ≠ [] →
  ∃ s', (let? s := if 1 <? length (partial s) then merge_partial (E:=E) guard s else Ok s in
         match failed s with [] => Ok s | _ => merge_partial (E:=E) guard (mkStep1 (full s) (partial s ++ failed s) []) end) = Ok s' ∧
    step_ok l s' ∧ kept s'.
Proof.
  intros Hs Hne.
  assert (∃ s1, (if 1 <? length (partial s) then merge_partial (E:=E) guard s else Ok s) = Ok s1 ∧ step_ok l s1 ∧
    everything s1 ≠ []) as (s1 & -> & Hs1 & Hne1).
  { destruct (Nat.ltb_spec 1 (length (partial s))) as [Hl|]; [|eauto].
    destruct (merge_partial_ok l s Hs) as (s1 & -> & H1 & H2 & H3); [by apply long_nonempty|].
    exists s1. split; [done|]. split; [done|]. unfold everything. destruct (full s1), (partial s1); done. }
  cbn [res_bind]. destruct (failed s1) as [|x fl] eqn:Hf.
  - exists s1. split; [done|]. split; [done|]. unfold everything in Hne1. rewrite Hf, app_nil_r in Hne1.
    unfold kept. destruct (full s1); [right|by left]. done.
  - destruct (merge_partial_ok l (mkStep1 (full s1) (partial s1 ++ x :: fl) [])) as (s2 & -> & H1 & H2 & H3).
    + destruct Hs1 as (H1 & H2 & H3 & Hc). rewrite Hf in H3. split; [done|]. split; [by apply Forall_app|]. split; [constructor|].
      unfold everything in *. rewrite Hf in Hc. cbn [full partial failed]. by rewrite app_nil_r.
    + cbn. by destruct (partial s1).
    + exists s2. unfold kept. auto.
Qed.
Lemma step2_full l s :
  step_ok l s → kept s →
  ∃ s', (let? s := if 1 <? length (full s) then merge_full (E:=E) guard s else Ok s in
         let? s := match full s with [] => Ok s | _ => merge_full guard (mkStep1 (full s ++ failed s) (partial s) []) end in
         match full s, partial s with
         | [], [] => Ok s
         | _, _ => merge_full guard (mkStep1 (full s ++ partial s) [] (failed s))
         end) = Ok s' ∧
    step_ok l s' ∧ partial s' = [] ∧ full s' ≠ [].
Proof.
  intros Hs Hk.
  assert (∃ s1, (if 1 <? length (full s) then merge_full (E:=E) guard s else Ok s) = Ok s1 ∧ step_ok l s1 ∧ kept s1)
    as (s1 & -> & Hs1 & Hk1).
  { destruct (Nat.ltb_spec 1 (length (full s))) as [Hl|]; [|eauto].
    destruct (merge_full_ok l s Hs) as (s1 & -> & H1 & H2 & H3); [by apply long_nonempty|]. exists s1. unfold kept. auto. }
  cbn [res_bind].
  assert (∃ s2, (match full s1 with [] => Ok s1 | _ => merge_full (E:=E) guard (mkStep1 (full s1 ++ failed s1) (partial s1) []) end)
    = Ok s2 ∧ step_ok l s2 ∧ kept s2) as (s2 & -> & Hs2 & Hk2).
  { destruct (full s1) as [|x fl] eqn:Hf; [eauto|].
    destruct (merge_full_ok l (mkStep1 ((x :: fl) ++ failed s1) (partial s1) [])) as (s2 & -> & H1 & H2 & H3); [|done|].
    - destruct Hs1 as (H1 & H2 & H3 & Hc). rewrite Hf in H1. split; [by apply Forall_app|]. split; [done|]. split; [constructor|].
      unfold everything in Hc. rewrite Hf in Hc. count.
    - exists s2. unfold kept. auto. }
  cbn [res_bind].
  destruct (merge_full_ok l (mkStep1 (full s2 ++ partial s2) [] (failed s2))) as (s3 & Hs3 & H1 & H2 & H3).
  - destruct Hs2 as (H1 & H2 & H3 & Hc). split; [by apply Forall_app|]. split; [constructor|]. split; [done|]. count.
  - cbn [full]. destruct Hk2 as [Hk2|Hk2]; intros [? ?]%app_eq_nil; done.
  - exists s3. split; [|done]. by destruct (full s2), (partial s2).
Qed.
Lemma merge_blocks_step2_ok l s :
  step_ok l s → everything s ≠ [] → ∃ r, merge_blocks_step2 (E:=E) guard s = Ok r ∧ outcome l r ∧ r ≠ Fail_.
Proof.
  intros Hs Hne. destruct (step2_partial l s Hs Hne) as (s1 & H1 & Hs1 & Hk1).
  destruct (step2_full l s1 Hs1 Hk1) as (s2 & H2 & (Hf & _ & Hfl & Hc) & Hp & Hne2).
  unfold merge_blocks_step2. 
  apply res_bind_Ok in H1 as (t1 & -> & H1). cbn [res_bind]. rewrite H1. cbn [res_bind].
  apply res_bind_Ok in H2 as (t2 & -> & H2). cbn [res_bind].
  apply res_bind_Ok in H2 as (t3 & -> & H2). cbn [res_bind]. rewrite H2. cbn [res_bind].
  assert (conserves l (full s2 ++ failed s2)) as Hcon.
  { split; [by apply Forall_app|]. split; [by destruct (full s2)|]. unfold everything in Hc. by rewrite Hp in Hc. }
  eexists. split; [done|]. destruct (full s2) as [|b [|b' fl]], (failed s2) as [|x fl']; done.
Qed.

Lemma conserved_nonempty l k : Forall good l → l ≠ [] → (∀ p, cnt p k = cnt p l) → k ≠ [].
Proof.
  intros Hl Hne Hc ->. destruct l as [|b l]; [done|]. apply Forall_cons in Hl as [[[p Hp%tally_pos]%block_holds _] _].
  specialize (Hc p). rewrite cnt_cons, cnt_nil in Hc. lia.
Qed.
Lemma concat_slices step l : 0 < step → concat (slices step l) = l.
Proof.
  intros Hs. unfold slices. assert (∀ k, concat ((λ i, take step (drop (i * step) l)) <$> seq 0 k) = take (k * step) l) as Hk.
  { induction k as [|k IH]; [done|]. rewrite seq_S, fmap_app, concat_app, IH. cbn [fmap list_fmap concat Nat.add].
    rewrite app_nil_r, take_take_drop. f_equal. lia. }
  rewrite Hk. apply take_ge. pose proof (Nat.div_mod_eq (length l + step - 1) step).
  pose proof (Nat.mod_upper_bound (length l + step - 1) step). lia.
Qed.
Lemma slices_length step l k : k ∈ slices step l → length k ≤ step.
Proof. unfold slices. intros (i & -> & _)%list_elem_of_fmap. rewrite length_take. lia. Qed.
Lemma merge_slices_ok (rec : list B → res E (MergeBlocksResult Op F)) ls acc s :
  (∀ l, l ∈ ls → Forall good l ∧ ∃ r, rec l = Ok r ∧ outcome l r) → step_ok acc s →
  ∃ s', merge_slices rec s ls = Ok s' ∧ step_ok (acc ++ concat ls) s'.
Proof.
  revert acc s. induction ls as [|l ls IH]; intros acc s Hrec Hs; cbn [merge_slices concat].
  { exists s. by rewrite app_nil_r. }
  destruct (Hrec l) as (Hl & r & Hr & Ho); [by left|]. rewrite Hr. cbn [res_bind]. rewrite app_assoc.
  apply IH; [intros k Hk; apply Hrec; by right|]. destruct Hs as (H1 & H2 & H3 & Hc). destruct r as [b|m f|]; cbn [outcome] in Ho.
  - destruct Ho as (Hg & _ & Hn). split; [by apply Forall_app|]. split; [done|]. split; [done|]. count.
  - destruct Ho as ((Hg & _ & Hn) & _). apply Forall_app in Hg as [Hg1 Hg2]. split; [done|]. split; [by apply Forall_app|].
    split; [by apply Forall_app|]. count.
  - split; [done|]. split; [done|]. split; [by apply Forall_app|]. count.
Qed.
Lemma sort_insert_perm b l : sort_insert b l ≡ₚ b :: l.
Proof.
  induction l as [|x l IH]; [done|]. cbn [sort_insert]. destruct (start_leb b x); [done|]. rewrite IH. constructor.
Qed.
Lemma block_sort_perm l : block_sort l ≡ₚ l.
Proof. induction l as [|b l IH]; [done|]. cbn. by rewrite sort_insert_perm, IH. Qed.
Lemma conserves_perm l k k' : k ≡ₚ k' → conserves l k → conserves l k'.
Proof.
  intros Hp (H1 & H2 & H3). split; [by rewrite <-Hp|]. split.
  - intros ->. by apply Permutation_nil_r in Hp.
  - intros p. by rewrite <-(cnt_perm p _ _ Hp).
Qed.
Lemma sort_result_ok l r : outcome l r → outcome l (sort_result r).
Proof.
  destruct r as [b|m f|]; [done| |done]. cbn. intros [Hc Hm]. split.
  - eapply conserves_perm; [|done]. by rewrite !block_sort_perm.
  - intros Hn. pose proof (block_sort_perm m) as Hp. rewrite Hn in Hp. by apply Permutation_nil_l in Hp.
Qed.
Lemma merge_blocks_with_guard_ok fuel l srt :
  length l < fuel → Forall good l →
  ∃ r, merge_blocks_with_guard (E:=E) fuel guard l srt = Ok r ∧ outcome l r.
Proof.
  revert l srt. induction fuel as [|fuel IH]; intros l srt Hf Hl; [lia|]. cbn [merge_blocks_with_guard].
  destruct l as [|a [|b [|c l']]]; [by eexists| | |].
  - eexists. split; [done|]. cbn. split; [done|]. done.
  - apply Forall_cons in Hl as [Ha [Hb _]%Forall_cons]. destruct (merge_two_ok a b Ha Hb) as (m & -> & Hm). cbn [res_bind].
    eexists. split; [done|]. destruct m as [c|]; [|done]. destruct (Hm c eq_refl) as [Hc Ht].
    split; [by constructor|]. split; [done|]. intros p. rewrite !cnt_cons, !cnt_nil, Ht. lia.
  - set (l := a :: b :: c :: l') in *. assert (3 <= length l) as Hlen by (cbn; lia).
    assert (0 < length l / 2 < length l) as [Hs1 Hs2].
    { split; [apply Nat.div_str_pos; lia|apply Nat.div_lt; lia]. }
    destruct (merge_slices_ok (λ l, merge_blocks_with_guard fuel guard l false) (slices (length l / 2) l) [] (mkStep1 [] [] []))
      as (s & -> & Hs).
    + intros k Hk. assert (Forall good k) as Hgk.
      { apply Forall_forall. intros x Hx. rewrite Forall_forall in Hl. apply Hl. rewrite <-(concat_slices _ l Hs1).
        apply list_elem_of_In, in_concat. exists k. by rewrite <-!list_elem_of_In. }
      split; [done|]. apply IH; [|done]. apply slices_length in Hk. lia.
    + done.
    + rewrite concat_slices in Hs by done. cbn [app res_bind] in *. pose proof Hs as (H1 & H2 & H3 & Hc).
      assert (everything s ≠ []) as Hne by (apply (conserved_nonempty l); done).
      assert (∃ r, (let? r := merge_blocks_step2 (E:=E) guard s in Ok (if srt then sort_result r else r)) = Ok r ∧ outcome l r) as Hgen.
      { destruct (merge_blocks_step2_ok l s Hs Hne) as (r & -> & Hr & _). cbn [res_bind]. eexists. split; [done|].
        destruct srt; [by apply sort_result_ok|done]. }
      unfold everything in Hc, Hne.
      destruct (full s) as [|x [|x' fl]], (partial s) as [|y [|y' pl]], (failed s) as [|z zl]; try done;
        (eexists; split; [done|]; done).
Qed.
End merge.
End block.
