(* ===== verification/FusionRegister.v ===== *)
(** * Registering a stream of operations

    Every operation registered before the optimizer stops is in exactly one block. *)

From S2P Require Import Prelude FusionGraph FusionSets FusionDag FusionReach FusionSearch FusionSearchInv.
Open Scope nat_scope.

Section stream.
Context {E Op F Opt : Type} `{!OperationIr Op, !Fuser Op F Opt}.
Abbreviation B := (Block Op F).
Implicit Types (b : B) (l : list B) (s : StreamOptimizer Op F) (op : Op).
Context (ops : list Op) (Htens : Forall has_tensor ops).

(** ** Numbering the blocks *)

Lemma imap_seed l k : ordering <$> imap (λ i, seed_constituent (k + i)) l = ordering <$> l.
Proof.
  revert k. induction l as [|b l IH]; intros k; [done|]. rewrite imap_cons, !fmap_cons. f_equal. rewrite <-(IH (S k)).
  f_equal. apply imap_ext. intros i x _. cbn. by rewrite Nat.add_succ_r.
Qed.
Lemma cnt_seed p l : cnt p (seed_all l) = cnt p l.
Proof. rewrite !cnt_concat. do 2 f_equal. exact (imap_seed l 0). Qed.
Lemma length_seed l : length (seed_all l) = length l.
Proof. apply length_imap. Qed.
Lemma seed_ok base i b : block_ok ops base b → block_ok ops base (seed_constituent i b).
Proof. intros ([] & ? & ?). split; [by constructor|done]. Qed.
Lemma seed_all_good base l d :
  dag_len d = length l → Forall (block_ok ops base) l → Forall (good ops base d) (seed_all l).
Proof.
  intros Hd Hl. apply Forall_lookup. intros i b Hb. unfold seed_all in Hb. rewrite list_lookup_imap in Hb.
  apply fmap_Some in Hb as (x & Hx & ->). split.
  - apply seed_ok. by apply (proj1 (Forall_lookup _ _) Hl _ _ Hx).
  - exists {[i]}. split; [apply repr_single|]. intros k ->%elem_of_singleton. rewrite Hd. by apply lookup_lt_Some in Hx.
Qed.
(** The blocks and the guard of a merge. *)
Lemma guard_ok base l :
  Forall (block_ok ops base) l →
  ∃ guard, reachability (E:=E) (dag_new (seed_all l)) = Ok guard ∧ dag_ok (dag_new (seed_all l)) ∧
    reach_ok (dag_new (seed_all l)) guard ∧ Forall (good ops base (dag_new (seed_all l))) (seed_all l).
Proof.
  intros Hl. destruct (dag_new_ok (seed_all l)) as (Hd & Hn & _ & _).
  destruct (reachability_ok (E:=E) _ Hd) as (guard & Hg & Hok). exists guard.
  split; [done|]. split; [done|]. split; [done|]. apply seed_all_good; [|done]. by rewrite Hn, length_seed.
Qed.

(** ** The invariant of the stream *)

Record stream_ok s : Prop := {
  stream_blocks : Forall (block_ok ops (st_builders s)) (blocks s);
  stream_count : ∀ p, cnt p (blocks s) = if decide (p < st_length s) then 1 else 0;
  stream_length : st_length s ≤ length ops;
  stream_single : max_blocks s = Some 1 → length (blocks s) ≤ 1
}.
Lemma stream_empty s : stream_ok s → blocks s = [] ↔ st_length s = 0.
Proof.
  intros Hs. pose proof (stream_count _ Hs) as Hc. split; intros Hn.
  - specialize (Hc 0). rewrite Hn, cnt_nil in Hc. case_decide; lia.
  - destruct (blocks s) as [|b l] eqn:Hb; [done|]. pose proof (stream_blocks _ Hs) as Hf. rewrite Hb in Hf.
    apply Forall_cons in Hf as [Hb1 _]. destruct (block_holds _ _ _ Hb1) as [p Hp%tally_pos]. specialize (Hc p).
    rewrite Hn, decide_False, cnt_cons in Hc by lia. lia.
Qed.
(** What no operation of the optimizer changes but [register] itself. *)
Definition same_stream s s' : Prop :=
  st_builders s' = st_builders s ∧ st_length s' = st_length s ∧ stopped s' = stopped s ∧ max_blocks s' = max_blocks s.
Definition holds op b : Prop := contains_operation_tensors b op = true.
Lemma holds_iff base b op :
  block_ok ops base b → holds op b ↔ ∃ p o r, p ∈ ordering b ∧ ops !! p = Some o ∧ r ∈ tensors o ∧ r ∈ tensors op.
Proof.
  intros [Hb _]. unfold holds, contains_operation_tensors. rewrite existsb_exists. setoid_rewrite <-list_elem_of_In. split.
  - intros (t & Ht & (o & Ho & Hr)%(block_flow _ _ _ Hb)). apply list_elem_of_lookup in Ho as (i & Hi).
    destruct (Forall2_lookup_l _ _ _ _ _ (block_ops _ _ _ Hb) Hi) as (p & Hp & Hop).
    exists p, o, (tensor_id t). split; [by eapply list_elem_of_lookup_2|]. split; [done|]. split; [done|]. by apply list_elem_of_fmap_2.
  - intros (p & o & r & Hp & Ho & Hr & (t & -> & Ht)%list_elem_of_fmap). exists t. split; [done|]. apply (block_flow _ _ _ Hb).
    apply list_elem_of_lookup in Hp as (i & Hi). destruct (Forall2_lookup_r _ _ _ _ _ (block_ops _ _ _ Hb) Hi) as (o' & Ho' & Hop).
    exists o'. split; [by eapply list_elem_of_lookup_2|]. congruence.
Qed.
(** Whether some block holds a tensor of [op] depends only on the positions held. *)
Lemma holds_conserved base l k op :
  Forall (block_ok ops base) l → Forall (block_ok ops base) k → (∀ p, cnt p k = cnt p l) →
  Forall (λ b, ¬ holds op b) l → Forall (λ b, ¬ holds op b) k.
Proof.
  intros Hl Hk Hc Hn. apply Forall_forall. intros b Hb Hh. rewrite Forall_forall in Hk.
  apply (holds_iff base) in Hh as (p & o & r & Hp & Ho & Hr & Hr'); [|by apply Hk].
  assert (0 < cnt p l) as Hpos.
  { rewrite <-Hc, cnt_concat. apply tally_pos, list_elem_of_In, in_concat. exists (ordering b).
    rewrite <-!list_elem_of_In. split; [by apply list_elem_of_fmap_2|done]. }
  rewrite cnt_concat in Hpos. apply tally_pos, list_elem_of_In, in_concat in Hpos as (o' & Hin & Hpo).
  rewrite <-!list_elem_of_In in *. apply list_elem_of_fmap in Hin as (b' & -> & Hb'). rewrite Forall_forall in Hn, Hl.
  apply (Hn b' Hb'), (holds_iff base); [by apply Hl|]. eauto 10.
Qed.

Lemma cnt_split (f : B → bool) p l :
  cnt p (filter (λ b, f b = true) l) + cnt p (filter (λ b, f b = false) l) = cnt p l.
Proof.
  induction l as [|b l IH]; [done|]. rewrite !filter_cons, cnt_cons.
  destruct (f b); [rewrite decide_True, decide_False by done|rewrite decide_False, decide_True by done]; rewrite cnt_cons; lia.
Qed.
Lemma filter_le_length {A} (P : A → Prop) `{∀ x, Decision (P x)} k : length (filter P k) ≤ length k.
Proof. induction k as [|x k IH]; [done|]. rewrite filter_cons. case_decide; cbn; lia. Qed.
Lemma filter_imply_length {A} (P Q : A → Prop) `{∀ x, Decision (P x)} `{∀ x, Decision (Q x)} k :
  (∀ x, P x → Q x) → length (filter P k) ≤ length (filter Q k).
Proof.
  intros Hpq. induction k as [|x k IH]; [done|]. rewrite !filter_cons.
  case_decide as Hp; case_decide as Hq; cbn; try lia. by destruct (Hq (Hpq _ Hp)).
Qed.
Lemma Forall_keep {A} (P Q : A → Prop) `{∀ x, Decision (Q x)} k : Forall P k → Forall P (filter Q k).
Proof. rewrite !Forall_forall. intros Hk x [_ ?]%list_elem_of_filter. auto. Qed.
Definition holders op l : nat := length (filter (λ b, contains_operation_tensors b op = true) l).
Lemma holders_perm op l k : l ≡ₚ k → holders op l = holders op k.
Proof. intros Hp. unfold holders. by rewrite Hp. Qed.
Lemma holders_selected op l b :
  Forall (λ b, selects op false b = false) l → holders op (l ++ [b]) ≤ 1.
Proof.
  intros Hl. unfold holders. rewrite filter_app, length_app.
  assert (filter (λ b, contains_operation_tensors b op = true) l = []) as ->.
  { induction Hl as [|x l Hx Hl IH]; [done|]. rewrite filter_cons_False; [done|].
    unfold selects in Hx. apply orb_false_iff in Hx as [Hx _]. apply orb_false_iff in Hx as [_ Hx]. by rewrite Hx. }
  pose proof (filter_le_length (λ b, contains_operation_tensors b op = true) [b]). cbn in *. lia.
Qed.
Lemma with_blocks_ok s l :
  stream_ok s → Forall (block_ok ops (st_builders s)) l → (∀ p, cnt p l = cnt p (blocks s)) →
  (max_blocks s = Some 1 → length l ≤ 1) → stream_ok (with_blocks s l).
Proof.
  intros [] Hl Hc Hm. constructor; cbn [blocks st_builders st_length max_blocks with_blocks]; [done| |done|done].
  intros p. by rewrite Hc.
Qed.
Lemma good_block_ok base d l : Forall (good ops base d) l → Forall (block_ok ops base) l.
Proof. intros Hl. eapply Forall_impl; [exact Hl|]. by intros b [? _]. Qed.
Lemma stream_merge_blocks_ok s op all :
  stream_ok s →
  ∃ s' st, stream_merge_blocks (E:=E) s op all = Ok (s', st) ∧ stream_ok s' ∧ same_stream s s' ∧
    (st = StepFull ∨ st = StepNoNeed → all = false → holders op (blocks s') ≤ 1) ∧
    (st = StepFail ∨ st = StepPartial → max_blocks s ≠ Some 1).
Proof.
  intros Hs. unfold stream_merge_blocks. destruct (Nat.leb_spec (length (filter (λ b, selects op all b = true) (blocks s))) 1) as [Hle|Hgt].
  { exists s, StepNoNeed. split; [done|]. split; [done|]. split; [done|]. split; [|naive_solver]. intros _ ->.
    etrans; [|exact Hle]. apply filter_imply_length. intros b Hb. unfold selects. by rewrite Hb. }
  assert (max_blocks s = Some 1 → False) as Hm.
  { intros Hm%(stream_single _ Hs). pose proof (filter_le_length (λ b, selects op all b = true) (blocks s)). lia. }
  destruct (guard_ok _ _ (stream_blocks _ Hs)) as (guard & -> & Hd & Hg & Hgood). cbn [res_bind].
  set (l := seed_all (blocks s)) in *. set (chosen := filter _ l). set (others := filter (λ b, selects op all b = false) l).
  assert (Forall (good ops (st_builders s) (dag_new l)) chosen) as Hch by (by apply Forall_keep).
  assert (Forall (block_ok ops (st_builders s)) others) as Hot by (by eapply good_block_ok, Forall_keep).
  assert (∀ p, cnt p chosen + cnt p others = cnt p (blocks s)) as Hcnt.
  { intros p. unfold chosen, others. rewrite cnt_split. apply cnt_seed. }
  destruct (merge_blocks_with_guard_ok (E:=E) ops (st_builders s) Htens (dag_new l) guard Hg (S (length chosen)) chosen false)
    as (r & -> & Hr); [lia|done|]. cbn [res_bind]. destruct r as [b|m f|]; cbn [outcome] in Hr.
  - destruct Hr as (Hb & _ & Hc). eexists _, _. split; [done|]. split; [|split; [done|split; [|naive_solver]]].
    + apply with_blocks_ok; [done| | |done].
      * rewrite block_sort_perm. apply Forall_app. split; [done|by eapply good_block_ok].
      * intros p. rewrite (cnt_perm p _ _ (block_sort_perm _)), cnt_app, Hc, <-Hcnt. lia.
    + intros _ ->. cbn [blocks with_blocks]. rewrite (holders_perm _ _ _ (block_sort_perm _)).
      apply holders_selected. unfold others. apply Forall_forall. intros x [? _]%list_elem_of_filter. done.
  - destruct Hr as [(Hb & _ & Hc) _]. eexists _, _. split; [done|]. split; [|split; [done|split; [naive_solver|done]]].
    apply with_blocks_ok; [done| | |done].
    + rewrite block_sort_perm. apply Forall_app. split; [done|by eapply good_block_ok].
    + intros p. rewrite (cnt_perm p _ _ (block_sort_perm _)), cnt_app, Hc, <-Hcnt. lia.
  - eexists _, _. split; [done|]. split; [|split; [done|split; [naive_solver|done]]].
    apply with_blocks_ok; [done|by eapply good_block_ok|intros p; apply cnt_seed|done].
Qed.

(** ** One operation more *)

(** The operation at position [st_length s] has been put in one block. *)
Record added_ok s s' : Prop := {
  added_same : same_stream s s';
  added_blocks : Forall (block_ok ops (st_builders s)) (blocks s');
  added_count : ∀ p, cnt p (blocks s') = if decide (p < S (st_length s)) then 1 else 0;
  added_single : max_blocks s = Some 1 → length (blocks s') ≤ 1
}.
Lemma added_stream s s' op :
  added_ok s s' → ops !! st_length s = Some op → stream_ok (with_length s' (st_length s' + 1)).
Proof.
  intros [(Hb & Hl & Hst & Hm) Hbl Hc Hsi] Hop. apply lookup_lt_Some in Hop.
  constructor; cbn [blocks st_builders st_length max_blocks with_length].
  - by rewrite Hb.
  - intros p. rewrite Hc, Hl. apply decide_ext. lia.
  - rewrite Hl. lia.
  - rewrite Hm. done.
Qed.
Lemma op_has_tensor p op : ops !! p = Some op → has_tensor op.
Proof. intros Hop. by apply (proj1 (Forall_lookup _ _) Htens _ _ Hop). Qed.
Lemma count_next p n : (if decide (p < n) then 1 else 0) + (if decide (p = n) then 1 else 0) = if decide (p < S n) then 1 else 0.
Proof. repeat case_decide; lia. Qed.
Lemma new_block_ok s op :
  ops !! st_length s = Some op → block_ok ops (st_builders s) (new_block s op) ∧ ordering (new_block s op) = [st_length s].
Proof.
  intros Hop. unfold new_block. rewrite block_register_forced. split; [|done].
  apply register_op_ok; [apply block_new_pre|done|by eapply op_has_tensor].
Qed.
Lemma on_new_block_ok s op :
  stream_ok s → ops !! st_length s = Some op → (max_blocks s = Some 1 → blocks s = []) → added_ok s (on_new_block s op).
Proof.
  intros Hs Hop Hm. destruct (new_block_ok s op Hop) as [Hb Ho]. unfold on_new_block. constructor; cbn [blocks with_blocks].
  - done.
  - apply Forall_app. split; [apply Hs|by constructor].
  - intros p. rewrite cnt_app, cnt_cons, cnt_nil, Ho, (stream_count _ Hs), tally_cons. cbn. rewrite <-count_next. lia.
  - intros Hm1%Hm. by rewrite Hm1.
Qed.
Definition accepts (force : bool) op b : bool := force || contains_operation_tensors b op.
Lemma block_register_ok base op pos force b :
  block_ok ops base b →
  block_register op pos force b = if accepts force op b then (register_op op pos b, true) else (b, false).
Proof.
  intros (_ & _ & Hf). unfold block_register, accepts. rewrite Hf. by destruct force, (contains_operation_tensors b op).
Qed.
Definition accepted (force : bool) op l : nat := length (filter (λ b, accepts force op b = true) l).
Lemma register_all_blocks base l op pos force :
  Forall (block_ok ops base) l → ops !! pos = Some op →
  let k := block_register op pos force <$> l in
  Forall (block_ok ops base) k.*1 ∧ length (filter (λ a, a = true) k.*2) = accepted force op l ∧
  (accepted force op l = 0 → k.*1 = l) ∧
  ∀ p, cnt p k.*1 = cnt p l + (if decide (p = pos) then accepted force op l else 0).
Proof.
  intros Hl Hop. unfold accepted. induction Hl as [|b l Hb Hl IH].
  { split; [constructor|]. split; [done|]. split; [done|]. intros p. cbn. by case_decide. }
  cbn zeta in IH |- *. destruct IH as (H1 & H2 & H3 & H4). rewrite !fmap_cons, (block_register_ok base) by done.
  rewrite !filter_cons. destruct (accepts force op b) eqn:Ha; cbn [fst snd].
  - rewrite !decide_True by done. cbn [length]. split; [|split; [by rewrite H2|split; [done|]]].
    + constructor; [|done]. apply register_op_ok; [apply Hb|done|by eapply op_has_tensor].
    + intros p. rewrite !cnt_cons, H4, register_op_ordering, tally_app, tally_cons. cbn. case_decide; lia.
  - rewrite !decide_False by done. split; [by constructor|]. split; [done|]. split; [intros H0; by rewrite H3|].
    intros p. rewrite !cnt_cons, H4. lia.
Qed.
Lemma register_inner_ok s op force :
  stream_ok s → ops !! st_length s = Some op → accepted force op (blocks s) ≤ 1 →
  (register_inner s op force).2 = accepted force op (blocks s) ∧
  (accepted force op (blocks s) = 0 → (register_inner s op force).1 = with_blocks s (blocks s)) ∧
  (accepted force op (blocks s) = 1 → added_ok s (register_inner s op force).1).
Proof.
  intros Hs Hop Ha. unfold register_inner. cbn [fst snd].
  destruct (register_all_blocks _ _ op _ force (stream_blocks _ Hs) Hop) as (H1 & H2 & H3 & H4). split; [done|].
  split; [intros H0; by rewrite H3|]. intros H0. constructor; cbn [blocks with_blocks].
  - done.
  - done.
  - intros p. by rewrite H4, H0, (stream_count _ Hs), count_next.
  - intros Hm. rewrite !length_fmap. by apply Hs.
Qed.

Lemma same_added s s1 s2 : same_stream s s1 → added_ok s1 s2 → added_ok s s2.
Proof.
  intros (H1 & H2 & H3 & H4) [(H1' & H2' & H3' & H4') Hb Hc Hm]. rewrite H1, H2, H4 in *.
  constructor; [|done|done|done]. unfold same_stream. rewrite H1', H2', H3', H4'. auto.
Qed.
Lemma stop_ok s : stream_ok s → stream_ok (stop s).
Proof. intros []. by constructor. Qed.
(** The optimizer has stopped without the operation. *)
Definition stopped_ok s s' : Prop :=
  stream_ok s' ∧ st_builders s' = st_builders s ∧ st_length s' = st_length s ∧ max_blocks s' = max_blocks s ∧ stopped s' = true.
Lemma same_stopped s s' : stream_ok s' → same_stream s s' → stopped_ok s (stop s').
Proof. intros Hs (H1 & H2 & _ & H4). split; [by apply stop_ok|]. done. Qed.
Lemma on_dependent_op_ok s op :
  stream_ok s → stopped s = false → ops !! st_length s = Some op → max_blocks s ≠ Some 1 →
  ∃ s', on_dependent_op (E:=E) s op = Ok s' ∧ (stopped_ok s s' ∨ (stopped s' = false ∧ added_ok s s')).
Proof.
  intros Hs Hst Hop Hm. unfold on_dependent_op.
  assert (∃ s1, (match max_blocks s with
     | Some m => if m <=? length (blocks s)
                 then let? r := stream_merge_blocks (E:=E) s op true in Ok (if m <=? length (blocks r.1) then stop r.1 else r.1)
                 else Ok s
     | None => Ok s end) = Ok s1 ∧ (stopped_ok s s1 ∨ (stream_ok s1 ∧ same_stream s s1))) as (s1 & -> & Hs1).
  { destruct (max_blocks s) as [m|]; [|eexists; split; [done|]; by right].
    destruct (m <=? length (blocks s)); [|eexists; split; [done|]; by right].
    destruct (stream_merge_blocks_ok s op true Hs) as (s1 & st & -> & Hs1 & Hsame & _). cbn [res_bind fst].
    eexists. split; [done|]. destruct (m <=? length (blocks s1)); [left; by apply same_stopped|by right]. }
  cbn [res_bind]. destruct Hs1 as [Hs1|[Hs1 Hsame]].
  { pose proof Hs1 as (_ & _ & _ & _ & ->). eauto. }
  pose proof Hsame as (Hb & Hl & -> & Hmax). rewrite Hst.
  destruct (dag_new_ok (blocks (on_new_block s1 op))) as (Hd & _). destruct (is_acyclic_ok (E:=E) _ Hd) as (a & -> & _). cbn [res_bind].
  eexists. split; [done|]. destruct a; [right|left; by apply same_stopped]. split; [cbn; by destruct Hsame as (_ & _ & -> & _)|].
  eapply same_added; [done|]. apply on_new_block_ok; [done|by rewrite Hl|]. by rewrite Hmax.
Qed.
Lemma accepted_forced op l : accepted true op l = length l.
Proof.
  unfold accepted. induction l as [|b l IH]; [done|]. rewrite filter_cons_True by done. cbn [length]. by rewrite IH.
Qed.
Lemma accepted_zero op l : accepted false op l = 0 ↔ Forall (λ b, ¬ holds op b) l.
Proof.
  unfold accepted, accepts, holds. cbn [orb]. induction l as [|b l IH]; [done|]. rewrite filter_cons, Forall_cons, <-IH.
  case_decide; cbn [length]; naive_solver lia.
Qed.
Lemma register_max_block_ok s op m :
  stream_ok s → stopped s = false → ops !! st_length s = Some op → blocks s ≠ [] → max_blocks s = Some m → holders op (blocks s) ≤ 1 →
  ∃ s' a, register_max_block (E:=E) s op m = Ok (s', a) ∧ (if a then added_ok s s' else stopped_ok s s').
Proof.
  intros Hs Hst Hop Hne Hm Hh. unfold register_max_block. destruct (Nat.eqb_spec m 1) as [->|Hm1].
  { assert (accepted true op (blocks s) = 1) as Ha.
    { rewrite accepted_forced. pose proof (stream_single _ Hs Hm). destruct (blocks s); [done|]. cbn in *. lia. }
    destruct (register_inner_ok s op true Hs Hop) as (_ & _ & H1); [lia|]. eexists _, true. split; [done|]. by apply H1. }
  destruct (register_inner_ok s op false Hs Hop Hh) as (-> & H0 & H1). destruct (Nat.ltb_spec 0 (accepted false op (blocks s))) as [Hpos|Hz].
  { eexists _, true. split; [done|]. apply H1. change (accepted false op (blocks s) ≤ 1) in Hh. lia. }
  assert (accepted false op (blocks s) = 0) as Hz0 by lia. rewrite (H0 Hz0), Hz0. cbn [Nat.eqb andb].
  assert (with_blocks s (blocks s) = s) as -> by (by destruct s).
  destruct (Nat.ltb_spec (length (blocks s)) m) as [Hlt|Hge].
  { eexists _, true. split; [done|]. apply on_new_block_ok; [done|done|]. rewrite Hm. congruence. }
  destruct (stream_merge_blocks_ok s op true Hs) as (t & st & -> & Ht & Hsame & _). cbn [res_bind fst].
  pose proof Hsame as (Hb & Hl & Hstt & Hmm).
  destruct (m <=? length (blocks t)) eqn:Hmt; [eexists _, false; split; [done|]; by apply same_stopped|].
  assert (accepted false op (blocks t) = 0) as Htz.
  { apply accepted_zero. eapply (holds_conserved (st_builders s) (blocks s)); [apply Hs| | |by apply accepted_zero].
    - rewrite <-Hb. apply Ht.
    - intros p. by rewrite (stream_count _ Ht), (stream_count _ Hs), Hl. }
  assert (ops !! st_length t = Some op) as Hopt by (by rewrite Hl).
  destruct (register_inner_ok t op false Ht Hopt) as (Hra & Hr0 & _); [lia|]. rewrite Hra, Htz. cbn [Nat.eqb].
  rewrite (Hr0 Htz). assert (with_blocks t (blocks t) = t) as -> by (by destruct t).
  eexists _, true. split; [done|]. eapply same_added; [done|]. apply on_new_block_ok; [done|done|]. rewrite Hmm, Hm. congruence.
Qed.

(** Registering one operation: taken, or the optimizer stops (or had stopped). *)
Definition registered s s' : Prop :=
  stream_ok s' ∧ st_builders s' = st_builders s ∧ max_blocks s' = max_blocks s ∧
  ((st_length s' = S (st_length s) ∧ stopped s = false ∧ stopped s' = false) ∨ (st_length s' = st_length s ∧ stopped s' = true)).
Lemma added_registered s s' op :
  added_ok s s' → stopped s = false → ops !! st_length s = Some op →
  registered s (with_length s' (st_length s' + 1)).
Proof.
  intros Ha Hst Hop. split; [by eapply added_stream|]. destruct Ha as [(H1 & H2 & H3 & H4) _ _ _]. cbn.
  split; [done|]. split; [done|]. left. rewrite H2, H3. split; [lia|]. done.
Qed.
Lemma register_ok s op :
  stream_ok s → (stopped s = false → ops !! st_length s = Some op) →
  ∃ s', register (E:=E) s op = Ok s' ∧ registered s s' ∧ (blocks s = [] → stopped s = false → st_length s' = S (st_length s)).
Proof.
  intros Hs Hop. unfold register. destruct (stopped s) eqn:Hst.
  { exists s. split; [done|]. split; [|done]. split; [done|]. auto. }
  specialize (Hop eq_refl). case_bool_decide as Hnil.
  { eexists. split; [done|]. assert (added_ok s (on_new_block s op)) as Ha by (by apply on_new_block_ok).
    split; [exact (added_registered s (on_new_block s op) op Ha Hst Hop)|]. intros _ _. destruct Ha as [(_ & H2 & _) _ _ _]. cbn in *. lia. }
  destruct (stream_merge_blocks_ok s op false Hs) as (s1 & st & -> & Hs1 & Hsame & Hh & Hm). cbn [res_bind fst snd].
  pose proof Hsame as (Hb & Hl & Hstt & Hmm).
  assert (stopped s1 = false) as Hst1 by congruence. assert (ops !! st_length s1 = Some op) as Hop1 by (by rewrite Hl).
  assert (∀ s', registered s1 s' → registered s s') as Hreg.
  { intros s' (R1 & R2 & R3 & R4). unfold registered. rewrite R2, R3, Hb, Hmm, <-Hl, <-Hstt. auto. }
  assert (blocks s1 ≠ []) as Hne1 by (rewrite stream_empty, Hl, <-stream_empty; done).
  destruct (decide (st = StepFail ∨ st = StepPartial)) as [Hf|Hf].
  - destruct (on_dependent_op_ok s1 op Hs1 Hst1 Hop1) as (s2 & Hs2 & Hcase); [rewrite Hmm; by apply Hm|].
    assert (∃ s', (let? s := on_dependent_op (E:=E) s1 op in Ok (if stopped s then s else with_length s (st_length s + 1))) = Ok s' ∧
      registered s s') as (s' & Hs' & Hr').
    { rewrite Hs2. cbn [res_bind]. eexists. split; [done|]. apply Hreg. destruct Hcase as [(S1 & S2 & S3 & S4 & S5)|[S1 S2]].
      - rewrite S5. split; [done|]. auto.
      - rewrite S1. by eapply added_registered. }
    exists s'. split; [destruct Hf as [->| ->]; exact Hs'|]. split; [done|]. by intros.
  - assert (holders op (blocks s1) ≤ 1) as Hh1 by (apply Hh; [destruct st; naive_solver|done]).
    enough (∃ s', (match max_blocks s1 with
        | Some m => let? t := register_max_block (E:=E) s1 op m in
                    Ok (if t.2 : bool then with_length t.1 (st_length t.1 + 1) else stop t.1)
        | None => let t := register_inner s1 op false in
                  let s := if t.2 =? 0 then on_new_block t.1 op else t.1 in Ok (with_length s (st_length s + 1))
        end) = Ok s' ∧ registered s s') as (s' & Hs' & Hr').
    { exists s'. split; [destruct st; first [exact Hs'|naive_solver]|]. split; [done|]. by intros. }
    destruct (max_blocks s1) as [m|] eqn:Hms.
    + destruct (register_max_block_ok s1 op m Hs1 Hst1 Hop1 Hne1 Hms Hh1) as (t & a & -> & Ha). cbn [res_bind fst snd].
      eexists. split; [done|]. apply Hreg. destruct a; [by eapply added_registered|].
      destruct Ha as (S1 & S2 & S3 & S4 & S5). split; [by apply stop_ok|]. auto.
    + cbn zeta. destruct (register_inner_ok s1 op false Hs1 Hop1 Hh1) as (-> & H0 & H1). eexists. split; [done|]. apply Hreg.
      eapply added_registered; [|done|done]. destruct (Nat.eqb_spec (accepted false op (blocks s1)) 0) as [Hz|Hz].
      * rewrite (H0 Hz). assert (with_blocks s1 (blocks s1) = s1) as -> by (by destruct s1).
        apply on_new_block_ok; [done|done|]. congruence.
      * apply H1. change (accepted false op (blocks s1) ≤ 1) in Hh1. lia.
Qed.
Lemma register_fold_ok (rest : list Op) s :
  stream_ok s → (stopped s = false → drop (st_length s) ops = rest) →
  ∃ s', res_foldl (register (E:=E)) s rest = Ok s' ∧ stream_ok s' ∧ st_builders s' = st_builders s ∧
    st_length s ≤ st_length s' ∧ (blocks s = [] → stopped s = false → rest ≠ [] → 0 < st_length s').
Proof.
  revert s. induction rest as [|op rest IH]; intros s Hs Hd; cbn [res_foldl]; [exists s; split; [done|]; split; [done|]; split; [done|]; split; [done|]; naive_solver|].
  destruct (register_ok s op Hs) as (s1 & -> & (Hs1 & Hb & _ & Hcase) & Hfirst).
  { intros Hst. specialize (Hd Hst). by rewrite <-(Nat.add_0_r (st_length s)), <-lookup_drop, Hd. }
  cbn [res_bind]. destruct (IH s1 Hs1) as (s' & -> & Hs' & Hb' & Hl' & _).
  { intros Hst1. destruct Hcase as [(Hl & Hst & _)|[_ ?]]; [|congruence].
    rewrite Hl, <-Nat.add_1_r, <-drop_drop, Hd by done. done. }
  exists s'. split; [done|]. split; [done|]. split; [congruence|]. split; [lia|].
  intros Hnil Hst _. specialize (Hfirst Hnil Hst). lia.
Qed.
End stream.
