(* ===== verification/FusionPlan.v ===== *)
(** * From blocks to a plan

    What the strategy of a block covers, and the composition of the strategies of all
    blocks: which positions are resolved and which are holes. *)

From S2P Require Import Prelude FusionGraph FusionSets FusionDag FusionReach FusionSearch FusionSearchInv FusionRegister.
Open Scope nat_scope.

(** A fuser that is ready makes an optimization of at least one operation. *)
Class FuserLaws (Op F Opt : Type) `{!Fuser Op F Opt} : Prop :=
  { finish_nonempty : ∀ x : F, ready x = true → 1 ≤ num_operations (finish x) }.

(** ** Strategies *)

Section strategies.
Context {E Op F Opt : Type} `{!OperationIr Op, !Fuser Op F Opt}.
Implicit Types (s : ExecutionStrategy Opt) (ops : list Op).

Lemma strategy_rect (P : ExecutionStrategy Opt → Prop) :
  (∀ opt ord sc, P (Optimization opt ord sc)) → (∀ ord, P (Operations ord)) →
  (∀ items, Forall P items → P (Composed items)) → ∀ s, P s.
Proof.
  intros H1 H2 H3. fix IH 1. intros [opt ord sc|ord|items]; [apply H1|apply H2|apply H3].
  induction items as [|x items IHl]; [constructor|constructor; [apply IH|exact IHl]].
Qed.

(** The positions a strategy executes, in its order. *)
Fixpoint strategy_positions s : list nat :=
  match s with
  | Optimization _ ord _ | Operations ord => ord
  | Composed items => concat (strategy_positions <$> items)
  end.
Definition all_positions (l : list (ExecutionStrategy Opt)) : list nat := concat (strategy_positions <$> l).
Lemma all_positions_app l k : all_positions (l ++ k) = all_positions l ++ all_positions k.
Proof. unfold all_positions. by rewrite fmap_app, concat_app. Qed.
Lemma flatten_positions s : all_positions (flatten_strategy s) = strategy_positions s.
Proof.
  induction s as [opt ord sc|ord|items IH] using strategy_rect; [apply app_nil_r|apply app_nil_r|]. cbn [flatten_strategy strategy_positions].
  induction IH as [|x items Hx Hitems IH]; [done|]. rewrite !fmap_cons. cbn [concat]. by rewrite all_positions_app, Hx, IH.
Qed.
Lemma flatten_all_positions l : all_positions (flatten_strategies l) = all_positions l.
Proof.
  induction l as [|s l IH]; [done|]. unfold flatten_strategies. rewrite fmap_cons. cbn [concat].
  rewrite all_positions_app, flatten_positions. unfold flatten_strategies in IH. by rewrite IH.
Qed.
Lemma strategy_len_positions s : strategy_len s = length (strategy_positions s).
Proof.
  induction s as [opt ord sc|ord|items IH] using strategy_rect; [done|done|]. cbn [strategy_len strategy_positions].
  induction IH as [|x items Hx Hitems IH]; [done|]. rewrite !fmap_cons. cbn [concat sum_list_with]. rewrite length_app, <-IH, <-Hx. done.
Qed.

(** The fused operation of a leaf was made by a fuser of the stream, perhaps reset,
    from operations of the stream of which the leaf executes a prefix. *)
Definition origin (base : list F) (x : F) : Prop := ∃ y k, y ∈ base ∧ x = Nat.iter k reset y.
Definition leaf_ok ops base s : Prop :=
  match s with
  | Optimization opt ord sc =>
      ∃ x given order, origin base x ∧ Forall2 (λ op p, ops !! p = Some op) given order ∧ ord `prefix_of` order ∧
        length ord = num_operations opt `min` length order ∧
        opt = finish (fused x given) ∧ ready (fused x given) = true ∧ sc = score (fused x given) ∧ (0 < sc)%N
  | Operations _ => True
  | Composed _ => False
  end.
Definition leaves_ok ops base (l : list (ExecutionStrategy Opt)) : Prop := Forall (leaf_ok ops base) (flatten_strategies l).
Lemma leaves_app ops base l k : leaves_ok ops base (l ++ k) ↔ leaves_ok ops base l ∧ leaves_ok ops base k.
Proof. unfold leaves_ok, flatten_strategies. by rewrite fmap_app, concat_app, Forall_app. Qed.
Lemma leaves_leaf ops base s : leaf_ok ops base s → leaves_ok ops base [s].
Proof. unfold leaves_ok, flatten_strategies. destruct s; cbn; [by constructor|by constructor|done]. Qed.
Lemma leaves_single ops base s : leaves_ok ops base [s] ↔ Forall (leaf_ok ops base) (flatten_strategy s).
Proof. unfold leaves_ok, flatten_strategies. cbn. by rewrite app_nil_r. Qed.
Lemma leaves_composed ops base l : leaves_ok ops base [Composed l] ↔ leaves_ok ops base l.
Proof. rewrite leaves_single. done. Qed.
Lemma leaves_flattened ops base l : Forall (leaf_ok ops base) l → leaves_ok ops base l.
Proof.
  induction 1 as [|s l Hs Hl IH]; [constructor|]. change (s :: l) with ([s] ++ l). apply leaves_app. split; [by apply leaves_leaf|done].
Qed.
End strategies.

(** ** One block *)

Section block.
Context {E Op F Opt : Type} `{!OperationIr Op, !Fuser Op F Opt, !FuserLaws Op F Opt}.
Abbreviation B := (Block Op F).
Implicit Types (b : B) (ops : list Op) (base : list F).

Lemma find_best_ok bs0 bs i best bsc :
  drop i bs0 = bs → (∀ j sc, best = Some (j, sc) → ∃ x, bs0 !! j = Some x ∧ ready x = true ∧ sc = score x ∧ (0 < sc)%N) →
  ∀ j sc, find_best i best bsc bs = Some (j, sc) → ∃ x, bs0 !! j = Some x ∧ ready x = true ∧ sc = score x ∧ (0 < sc)%N.
Proof.
  revert i best bsc. induction bs as [|x bs IH]; intros i best bsc Hd Hb; cbn [find_best]; [done|].
  assert (drop (S i) bs0 = bs) as Hd' by (rewrite <-Nat.add_1_r, <-drop_drop, Hd; done).
  destruct (ready x && (bsc <? score x)%N) eqn:Hr; [|by apply IH].
  apply andb_true_iff in Hr as [Hr Hsc%N.ltb_lt]. apply IH; [done|]. intros j sc [= <- <-]. exists x.
  split; [|split; [done|split; [done|lia]]]. by rewrite <-(Nat.add_0_r i), <-lookup_drop, Hd.
Qed.
Lemma settle_bounds bs k (rest : list Op) : k ≤ settle bs k rest ≤ k + length rest.
Proof.
  revert k. induction rest as [|op rest IH]; intros k; cbn [settle length]; [lia|].
  destruct (existsb _ bs); [lia|]. specialize (IH (S k)). lia.
Qed.
Lemma max_settled_bounds n l :
  0 < n → Forall (λ c, ∀ i, c = Some i → i < n) l → 0 < max_settled n l ≤ n.
Proof.
  intros Hn Hl. unfold max_settled. destruct l as [|c l]; [lia|].
  assert (∀ k, Forall (λ c, ∀ i, c = Some i → i < n) k →
    foldr (λ c m, (match c with Some index => index + 1 | None => n end) `max` m) 0 k ≤ n) as Hle.
  { induction 1 as [|c' k Hc Hk IH]; cbn [foldr]; [lia|]. destruct c' as [i|]; [specialize (Hc i eq_refl)|]; lia. }
  specialize (Hle _ Hl). split; [|done]. cbn [foldr]. destruct c; lia.
Qed.
Lemma block_optimize_ok ops base b :
  block_ok ops base b →
  ∃ o, block_optimize (E:=E) b = Ok o ∧ opt_ordering o `prefix_of` ordering b ∧ opt_ordering o ≠ [] ∧
    strategy_positions (strategy o) = opt_ordering o ∧ leaf_ok ops base (strategy o).
Proof.
  intros (Hb & Hne & _). pose proof (Forall2_length _ _ _ (block_ops _ _ _ Hb)) as Hl.
  assert (0 < length (operations b)) as Hpos by (destruct (operations b); [done|cbn; lia]).
  assert (∀ k, 0 < k → take k (ordering b) ≠ []) as Htake.
  { intros k Hk Hn. apply (f_equal length) in Hn. rewrite length_take in Hn. cbn in Hn. lia. }
  unfold block_optimize. destruct (find_best_optimization_index (builders b)) as [[i sc]|] eqn:Hf.
  - destruct (find_best_ok (builders b) (builders b) 0 None 0%N (drop_0 _) ltac:(done) i sc Hf) as (x & Hx & Hr & Hsc & Hs0).
    unfold get. rewrite Hx. cbn [res_bind]. eexists. split; [done|]. cbn [opt_ordering strategy strategy_positions].
    rewrite (block_builders _ _ _ Hb) in Hx. rewrite list_lookup_fmap in Hx. apply fmap_Some in Hx as (y & Hy & ->).
    pose proof (finish_nonempty _ Hr) as Hnum. set (opt := finish _) in *.
    split; [|split; [|split; [done|]]].
    + destruct (num_operations opt <? length (operations b)); [apply prefix_take|done].
    + destruct (Nat.ltb_spec (num_operations opt) (length (operations b))); [apply Htake; lia|]. intros Hn. rewrite Hn in Hl. cbn in Hl. lia.
    + exists y, (operations b), (ordering b). split; [exists y, 0; split; [by eapply list_elem_of_lookup_2|done]|].
      split; [apply Hb|]. split; [destruct (num_operations opt <? _); [apply prefix_take|done]|].
      split; [|done]. destruct (Nat.ltb_spec (num_operations opt) (length (operations b))); rewrite ?length_take; lia.
  - eexists. split; [done|]. cbn [opt_ordering strategy strategy_positions]. split; [apply prefix_take|]. split; [|done].
    pose proof (max_settled_bounds _ _ Hpos (block_closed _ _ _ Hb)) as [H1 _].
    pose proof (settle_bounds (builders b) (max_settled (length (operations b)) (closed_at b))
      (drop (max_settled (length (operations b)) (closed_at b)) (operations b))) as [H2 _]. apply Htake. lia.
Qed.
End block.

(** ** Taking elements in an order *)

Section slots.
Context {E A : Type}.
Implicit Types l : list A.
Definition pick l (order : list nat) : list A := omap (λ i, l !! i) order.
Lemma pick_seq l k : pick (k ++ l) (seq (length k) (length l)) = l.
Proof.
  revert k. induction l as [|x l IH]; intros k; [done|]. cbn [length seq]. unfold pick. cbn [omap list_omap].
  rewrite lookup_app_r, Nat.sub_diag by lia. cbn [lookup list_lookup]. f_equal.
  specialize (IH (k ++ [x])). rewrite <-app_assoc, length_app, Nat.add_1_r in IH. exact IH.
Qed.
Lemma pick_order_perm l order : order ≡ₚ seq 0 (length l) → pick l order ≡ₚ l.
Proof.
  intros Hp. transitivity (pick l (seq 0 (length l))); [unfold pick; by rewrite Hp|].
  apply reflexive_eq. exact (pick_seq l []).
Qed.
Lemma pick_ok l order :
  (∀ i, i ∈ order → i < length l) → res_mapM (get (E:=E) l) order = Ok (pick l order).
Proof.
  induction order as [|i order IH]; intros Hlt; [done|]. cbn [res_mapM]. unfold get at 1, pick. cbn [omap list_omap].
  destruct (lookup_lt_is_Some_2 l i) as [x Hx]; [apply Hlt; by left|]. rewrite Hx. cbn [res_bind].
  rewrite IH by (intros j Hj; apply Hlt; by right). done.
Qed.
Lemma take_slots_ok l order slots :
  NoDup order → (∀ i, i ∈ order → i < length l ∧ slots !! i = Some <$> l !! i) → take_slots (E:=E) slots order = Ok (pick l order).
Proof.
  revert slots. induction order as [|i order IH]; intros slots Hnd Hs; [done|]. apply NoDup_cons in Hnd as [Hi Hnd].
  cbn [take_slots]. destruct (Hs i) as [Hlt Hsi]; [by left|]. destruct (lookup_lt_is_Some_2 _ _ Hlt) as [x Hx].
  unfold get. rewrite Hsi, Hx. cbn [fmap option_fmap option_map res_bind].
  rewrite IH; [|done|].
  - cbn [res_bind]. unfold pick. cbn [omap list_omap]. by rewrite Hx.
  - intros j Hj. destruct (Hs j) as [Hj1 Hj2]; [by right|]. split; [done|]. rewrite list_lookup_insert_ne; [done|]. by intros ->.
Qed.
Lemma take_slots_perm l order :
  order ≡ₚ seq 0 (length l) → take_slots (E:=E) (Some <$> l) order = Ok (pick l order).
Proof.
  intros Hp. apply take_slots_ok; [rewrite Hp; apply NoDup_seq|]. intros i Hi. rewrite Hp in Hi. apply elem_of_seq in Hi.
  split; [lia|]. apply list_lookup_fmap.
Qed.
End slots.

(** ** All blocks *)

Section blocks.
Context {E Op F Opt : Type} `{!OperationIr Op, !Fuser Op F Opt, !FuserLaws Op F Opt}.
Abbreviation B := (Block Op F).
Implicit Types (b : B) (l : list B).
Context (ops : list Op) (Htens : Forall has_tensor ops) (base : list F).

Lemma order_blocks_ok l : ∃ l', order_blocks (E:=E) l = Ok l' ∧ l' ≡ₚ l.
Proof.
  unfold order_blocks. destruct (1 <? length l); [|by exists l]. destruct (dag_new_ok l) as (Hd & Hn & _).
  destruct (topological_order_ok (E:=E) _ Hd) as (order & pending & HK & _ & ->). cbn [res_bind].
  destruct (Nat.eqb_spec (length order) (dag_len (dag_new l))) as [Hl|]; [|by exists l].
  case_bool_decide; [by exists l|]. pose proof (kahn_full _ _ _ _ HK Hl) as Hp. rewrite Hn in Hp.
  exists (pick l order). split; [by apply take_slots_perm|by apply pick_order_perm].
Qed.
Lemma merging_pass_ok l n :
  Forall (block_ok ops base) l → l ≠ [] →
  ∃ l', merging_pass (E:=E) (mkBlocks l n) = Ok (mkBlocks l' n) ∧ Forall (block_ok ops base) l' ∧ l' ≠ [] ∧ ∀ p, cnt p l' = cnt p l.
Proof.
  intros Hl Hne. unfold merging_pass. cbn [opt_blocks num_ops]. destruct (length l =? 1); [by exists l|].
  set (l0 := block_sort l). assert (Forall (block_ok ops base) l0) as Hl0 by (unfold l0; by rewrite block_sort_perm).
  destruct (guard_ok (E:=E) ops base l0 Hl0) as (guard & -> & Hd & Hg & Hgood). cbn [res_bind].
  destruct (merge_blocks_with_guard_ok (E:=E) ops base Htens (dag_new (seed_all l0)) guard Hg (S (length (seed_all l0))) (seed_all l0) false)
    as (r & -> & Hr); [lia|done|]. cbn [res_bind].
  assert (∀ p, cnt p (seed_all l0) = cnt p l) as Hc0.
  { intros p. rewrite cnt_seed. unfold l0. by rewrite (cnt_perm p _ _ (block_sort_perm l)). }
  destruct r as [b|m f|]; cbn [outcome] in Hr.
  - destruct Hr as (Hb & _ & Hc). exists [b]. split; [done|]. split; [by eapply good_block_ok|]. split; [done|]. intros p. by rewrite Hc.
  - destruct Hr as [(Hb & Hn & Hc) _]. exists (block_sort (m ++ f)). split; [done|].
    split; [rewrite block_sort_perm; by eapply good_block_ok|]. split.
    + intros Hs. pose proof (block_sort_perm (m ++ f)) as Hp. rewrite Hs in Hp. by apply Permutation_nil_l in Hp.
    + intros p. by rewrite (cnt_perm p _ _ (block_sort_perm _)), Hc.
  - exists (seed_all l0). split; [done|]. split; [by eapply good_block_ok|]. split; [|done].
    intros Hn. apply (f_equal length) in Hn. rewrite length_seed in Hn. unfold l0 in Hn. rewrite block_sort_perm in Hn.
    destruct l; [done|]. cbn in Hn. lia.
Qed.

(** The table of resolved positions. *)
Definition resolved_ok (n : nat) (ord : list nat) (resolved : list bool) : Prop :=
  length resolved = n ∧ ∀ p, p < n → resolved !! p = Some (bool_decide (p ∈ ord)).
Lemma set_resolved_ok n ord resolved ps :
  resolved_ok n ord resolved → (∀ p, p ∈ ps → p < n) →
  ∃ resolved', res_foldl (set_resolved (E:=E)) resolved ps = Ok resolved' ∧ resolved_ok n (ord ++ ps) resolved'.
Proof.
  revert ord resolved. induction ps as [|p ps IH]; intros ord resolved [Hl Hr] Hlt; cbn [res_foldl].
  { exists resolved. by rewrite app_nil_r. }
  unfold set_resolved at 1, get. rewrite Hr by (apply Hlt; by left). cbn [res_bind].
  destruct (IH (ord ++ [p]) (<[p := true]> resolved)) as (resolved' & -> & Hok).
  - split; [by rewrite length_insert|]. intros q Hq. destruct (decide (q = p)) as [->|Hne].
    + rewrite list_lookup_insert_eq by lia. rewrite bool_decide_true; [done|]. apply elem_of_app. right. by left.
    + rewrite list_lookup_insert_ne, Hr by done. f_equal. apply bool_decide_ext. rewrite elem_of_app, list_elem_of_singleton. naive_solver.
  - intros q Hq. apply Hlt. by right.
  - exists resolved'. split; [done|]. by rewrite <-app_assoc in Hok.
Qed.
Lemma last_resolved_ok resolved :
  (∀ i, last_resolved_end resolved ≤ i → resolved !! i ≠ Some true) ∧
  (0 < last_resolved_end resolved → resolved !! (last_resolved_end resolved - 1) = Some true).
Proof.
  induction resolved as [|r resolved [IH1 IH2]]; [split; [done|cbn; lia]|]. cbn [last_resolved_end].
  destruct (last_resolved_end resolved) as [|k] eqn:Hk.
  - split.
    + intros [|i] Hi; cbn; [destruct r; [lia|done]|]. apply IH1. lia.
    + destruct r; [done|lia].
  - split.
    + intros [|i] Hi; [lia|]. cbn. apply IH1. lia.
    + intros _. specialize (IH2 ltac:(lia)). cbn in *. by rewrite Nat.sub_0_r in IH2.
Qed.
Lemma prefix_tally p (l k : list nat) : l `prefix_of` k → tally p l ≤ tally p k.
Proof. intros [x ->]. rewrite tally_app. lia. Qed.
Lemma optimize_blocks_ok n l sts ord resolved :
  Forall (block_ok ops base) l → (∀ b p, b ∈ l → p ∈ ordering b → p < n) →
  resolved_ok n ord resolved → all_positions sts = ord → leaves_ok ops base sts →
  ∃ sts' ord' resolved', optimize_blocks (E:=E) sts ord resolved l = Ok (sts', ord', resolved') ∧
    resolved_ok n ord' resolved' ∧ all_positions sts' = ord' ∧ leaves_ok ops base sts' ∧
    length sts' = length sts + length l ∧ length ord + length l ≤ length ord' ∧ ∀ p, tally p ord' ≤ tally p ord + cnt p l.
Proof.
  revert sts ord resolved. induction l as [|b l IH]; intros sts ord resolved Hl Hlt Hr Hpos Hlv; cbn [optimize_blocks].
  { exists sts, ord, resolved. do 4 (split; [done|]). split; [cbn; lia|]. split; [cbn; lia|]. intros p. rewrite cnt_nil. lia. }
  apply Forall_cons in Hl as [Hb Hl]. destruct (block_optimize_ok (E:=E) ops base b Hb) as (o & -> & Hpre & Hne & Hsp & Hleaf).
  cbn [res_bind]. destruct (set_resolved_ok n ord resolved (opt_ordering o) Hr) as (resolved1 & -> & Hr1).
  { intros p Hp. apply (Hlt b); [by left|]. destruct Hpre as [x ->]. apply elem_of_app. by left. }
  cbn [res_bind]. destruct (IH (sts ++ [strategy o]) (ord ++ opt_ordering o) resolved1 Hl)
    as (sts' & ord' & resolved' & -> & H1 & H2 & H3 & H4 & H5 & H6).
  - intros b' p Hb'. apply Hlt. by right.
  - done.
  - rewrite all_positions_app, Hpos. unfold all_positions. cbn. by rewrite app_nil_r, Hsp.
  - apply leaves_app. split; [done|by apply leaves_leaf].
  - exists sts', ord', resolved'. do 4 (split; [done|]). split; [rewrite H4, length_app; cbn; lia|].
    split.
    + rewrite length_app in H5. cbn [length]. destruct (opt_ordering o); [done|]. cbn in H5. lia.
    + intros p. specialize (H6 p). rewrite tally_app in H6. rewrite cnt_cons. pose proof (prefix_tally p _ _ Hpre). lia.
Qed.

(** ** The result *)

(** A plan for the first [k] operations. *)
Record plan_ok (k : nat) (o : BlockOptimization Opt) : Prop := {
  plan_order : opt_ordering o ≡ₚ seq 0 k;
  plan_positions : strategy_positions (strategy o) = opt_ordering o;
  plan_leaves : leaves_ok ops base [strategy o]
}.
(** Strategies for some of the first [m] operations, the others being holes. *)
Record holes_ok (m : nat) (sts : list (ExecutionStrategy Opt)) (ord holes : list nat) : Prop := {
  holes_order : ord ++ holes ≡ₚ seq 0 m;
  holes_some : ord ≠ [];
  holes_positions : all_positions sts = ord;
  holes_leaves : leaves_ok ops base sts
}.
Lemma holes_partition n ord resolved :
  resolved_ok n ord resolved → (∀ p, tally p ord ≤ 1) → (∀ p, p ∈ ord → p < n) →
  let m := last_resolved_end resolved in
  ord ++ filter (λ i, resolved !! i = Some false) (seq 0 m) ≡ₚ seq 0 m ∧ m ≤ n.
Proof.
  intros [Hl Hr] Ht Hlt m. destruct (last_resolved_ok resolved) as [H1 H2]. fold m in H1, H2.
  assert (m ≤ n) as Hm.
  { destruct (decide (0 < m)) as [Hm|]; [|lia]. specialize (H2 Hm). apply lookup_lt_Some in H2. lia. }
  split; [|done]. apply NoDup_Permutation; [|apply NoDup_seq|].
  - apply NoDup_app. split; [by apply tally_nodup|]. split; [|apply NoDup_filter, NoDup_seq].
    intros p Hp [Hf _]%list_elem_of_filter. rewrite Hr, bool_decide_true in Hf by auto. done.
  - intros p. rewrite elem_of_app, list_elem_of_filter, elem_of_seq. split.
    + intros [Hp|[_ ?]]; [|done]. split; [lia|]. destruct (decide (p < m)) as [|Hge]; [done|]. exfalso.
      apply (H1 p); [lia|]. rewrite Hr, bool_decide_true by auto. done.
    + intros [_ Hpm]. destruct (decide (p ∈ ord)) as [|Hn]; [by left|right]. split; [|lia]. rewrite Hr by lia. by rewrite bool_decide_false.
Qed.
Lemma cnt_elem p l : 0 < cnt p l ↔ ∃ b, b ∈ l ∧ p ∈ ordering b.
Proof.
  induction l as [|b l IH]; [rewrite cnt_nil; split; [lia|by intros (b & ?%elem_of_nil & _)]|].
  rewrite cnt_cons. setoid_rewrite elem_of_cons. split.
  - intros Hp. destruct (decide (0 < cnt p l)) as [Hl|Hl]; [apply IH in Hl as (b' & ? & ?); eauto|].
    exists b. split; [by left|]. apply tally_pos. lia.
  - intros (b' & [->|Hb'] & Hp); [apply tally_pos in Hp; lia|]. assert (0 < cnt p l) by (apply IH; eauto). lia.
Qed.
Lemma max_end b l : b ∈ l → end_pos b ≤ foldr (λ b m, end_pos b `max` m) 0 l.
Proof. induction l as [|x l IH]; [by intros ?%elem_of_nil|]. intros [->|Hb]%elem_of_cons; cbn [foldr]; [lia|]. specialize (IH Hb). lia. Qed.
Lemma blocks_optimize_ok l n :
  Forall (block_ok ops base) l → l ≠ [] → (∀ p, cnt p l = if decide (p < n) then 1 else 0) →
  ∃ bo r, blocks_optimizer_new (E:=E) l = Ok bo ∧ blocks_optimize (E:=E) bo = Ok r ∧
    match r with
    | FullStream o => ∃ k, 0 < k ≤ n ∧ plan_ok k o
    | WithHoles sts ord holes => ∃ m, m ≤ n ∧ holes_ok m sts ord holes ∧ holes ≠ []
    end.
Proof.
  intros Hl Hne Hc. set (N := foldr (λ b m, end_pos b `max` m) 0 l).
  exists (mkBlocks l N). unfold blocks_optimize. destruct (merging_pass_ok l N Hl Hne) as (l1 & -> & Hl1 & Hne1 & Hc1). cbn [res_bind opt_blocks num_ops].
  destruct (order_blocks_ok l1) as (l2 & -> & Hp). cbn [res_bind].
  assert (∀ p, cnt p l2 = if decide (p < n) then 1 else 0) as Hc2 by (intros p; by rewrite (cnt_perm p _ _ Hp), Hc1).
  assert (∀ p, 0 < cnt p l2 → p < N) as HN.
  { intros p Hpos. rewrite Hc2, <-Hc in Hpos. apply cnt_elem in Hpos as (b & Hb & Hpb).
    pose proof (max_end b l Hb). rewrite Forall_forall in Hl. pose proof (block_end _ _ _ (proj1 (Hl b Hb)) p Hpb). unfold N. lia. }
  destruct (optimize_blocks_ok N l2 [] [] (replicate N false)) as (sts & ord & resolved & -> & Hr & Hpos & Hlv & Hlen & Hge & Ht).
  - by rewrite Hp.
  - intros b p Hb Hpb. apply HN, cnt_elem. eauto.
  - split; [apply length_replicate|]. intros p Hp'. rewrite lookup_replicate_2 by done. by rewrite bool_decide_false by apply not_elem_of_nil.
  - done.
  - constructor.
  - cbn [res_bind]. assert (∀ p, tally p ord ≤ 1) as Hone by (intros p; specialize (Ht p); rewrite Hc2 in Ht; cbn in Ht; case_decide; lia).
    assert (∀ p, p ∈ ord → p < n) as Hn.
    { intros p Hp'%tally_pos. specialize (Ht p). rewrite Hc2 in Ht. cbn in Ht. case_decide; [done|lia]. }
    destruct (holes_partition N ord resolved Hr Hone) as [Hpart Hm].
    { intros p Hp'%tally_pos. apply HN. specialize (Ht p). cbn in Ht. lia. }
    assert (l2 ≠ []) as Hne2 by (intros ->; by apply Permutation_nil_l in Hp).
    assert (0 < length ord) as Hord by (destruct l2; [done|cbn in Hge; lia]).
    assert (last_resolved_end resolved ≤ n) as Hmn.
    { destruct (last_resolved_ok resolved) as [_ Hl2]. destruct (decide (0 < last_resolved_end resolved)) as [Hpm|]; [|lia].
      specialize (Hl2 Hpm). assert (last_resolved_end resolved - 1 ∈ ord) as Hin; [|apply Hn in Hin; lia].
      destruct Hr as [_ Hr]. rewrite Hr in Hl2 by lia. injection Hl2 as Hl2. by apply bool_decide_eq_true in Hl2. }
    set (m := last_resolved_end resolved) in *. set (holes := filter _ (seq 0 m)) in *.
    assert (length ord + length holes = m) as Hlm by (rewrite <-length_app, Hpart; apply length_seq).
    assert (length sts ≠ 0) as Hst0 by (destruct l2; [done|]; cbn in Hlen; lia).
    destruct holes as [|h hs] eqn:Hh.
    + rewrite app_nil_r in Hpart. destruct sts as [|x [|y sts]]; [done| |]; eexists; (split; [by destruct l|]); (split; [done|]); exists m;
        (split; [cbn in Hlm; lia|]); (constructor; cbn [opt_ordering strategy]; [done|rewrite <-Hpos|]).
      * unfold all_positions. cbn. by rewrite app_nil_r.
      * done.
      * done.
      * by apply leaves_composed.
    + eexists. split; [by destruct l|]. split; [done|]. exists m. split; [done|]. split; [|done].
      constructor; [done| |done|done]. intros Hn0. rewrite Hn0 in Hord. cbn in Hord. lia.
Qed.
End blocks.
