(* ===== verification/FusionOptimize.v ===== *)
(** * The plan for a stream

    Filling the holes, repairing the order, and what [StreamOptimizer::optimize]
    returns. *)

From S2P Require Import Prelude FusionGraph FusionSets FusionDag FusionReach FusionLifetime FusionSearch FusionSearchInv FusionRegister FusionPlan.
Open Scope nat_scope.

(** ** Positions of the holes *)

Section mapping.
Context {E Op F Opt : Type} `{!OperationIr Op, !Fuser Op F Opt}.
Context (ops hole_ops : list Op) (holes : list nat) (base : list F).
Context (Hops : Forall2 (λ q op, ops !! q = Some op) holes hole_ops).
Implicit Types (s : ExecutionStrategy Opt) (ord : list nat).

Definition to_hole (i : nat) : nat := default 0 (holes !! i).
Lemma pick_to_hole ord : (∀ i, i ∈ ord → i < length holes) → pick holes ord = to_hole <$> ord.
Proof.
  induction ord as [|i ord IH]; intros Hlt; [done|]. unfold pick. cbn [omap list_omap]. rewrite fmap_cons. unfold to_hole at 1.
  destruct (lookup_lt_is_Some_2 holes i) as [q Hq]; [apply Hlt; by left|]. rewrite Hq. cbn. f_equal.
  apply IH. intros j Hj. apply Hlt. by right.
Qed.
Lemma map_positions ord :
  (∀ i, i ∈ ord → i < length holes) → res_mapM (get (E:=E) holes) ord = Ok (to_hole <$> ord).
Proof. intros Hlt. by rewrite pick_ok, pick_to_hole. Qed.
Lemma hole_lookup i op : hole_ops !! i = Some op → i < length holes ∧ ops !! to_hole i = Some op.
Proof.
  intros Hi. destruct (Forall2_lookup_r _ _ _ _ _ Hops Hi) as (q & Hq & Hop). split; [by apply lookup_lt_Some in Hq|].
  unfold to_hole. by rewrite Hq.
Qed.
Lemma origin_reset x : origin (reset <$> base) x → origin base x.
Proof.
  intros (y & k & (z & -> & Hz)%list_elem_of_fmap & ->). exists z, (S k). split; [done|]. by rewrite Nat.iter_succ_r.
Qed.
(** A leaf of the plan for the holes is, with its positions mapped, a leaf of the
    plan for the stream. *)
Lemma map_leaf opt ord sc :
  leaf_ok hole_ops (reset <$> base) (Optimization opt ord sc) → leaf_ok ops base (Optimization opt (to_hole <$> ord) sc).
Proof.
  intros (x & given & order & Ho & Hg & Hpre & Hl & Heq). exists x, given, (to_hole <$> order).
  split; [by apply origin_reset|]. split; [|split; [|split; [by rewrite !length_fmap|done]]].
  - clear -Hg Hops. induction Hg as [|op p given order Hp Hg IH]; [constructor|]. rewrite fmap_cons. constructor; [|done].
    by apply hole_lookup in Hp as [_ ?].
  - destruct Hpre as [k ->]. rewrite fmap_app. by apply prefix_app_r.
Qed.
Lemma map_strategy_ok s :
  (∀ i, i ∈ strategy_positions s → i < length holes) →
  ∃ s', map_strategy (E:=E) holes s = Ok s' ∧ strategy_positions s' = to_hole <$> strategy_positions s ∧
    (Forall (leaf_ok hole_ops (reset <$> base)) (flatten_strategy s) → Forall (leaf_ok ops base) (flatten_strategy s')).
Proof.
  induction s as [opt ord sc|ord|items IH] using strategy_rect; intros Hlt; cbn [map_strategy strategy_positions] in *.
  - rewrite map_positions by done. cbn [res_bind]. eexists. split; [done|]. split; [done|].
    intros [Hl _]%Forall_cons. constructor; [by apply map_leaf|done].
  - rewrite map_positions by done. cbn [res_bind]. eexists. split; [done|]. split; [done|]. intros _. by constructor.
  - assert (∃ items', res_mapM (map_strategy (E:=E) holes) items = Ok items' ∧
      concat (strategy_positions <$> items') = to_hole <$> concat (strategy_positions <$> items) ∧
      (Forall (leaf_ok hole_ops (reset <$> base)) (concat (flatten_strategy <$> items)) →
       Forall (leaf_ok ops base) (concat (flatten_strategy <$> items')))) as (items' & -> & H1 & H2); [|cbn [res_bind]; eauto].
    induction IH as [|x items Hx Hitems IH]; cbn [res_mapM]; [by exists []|]. rewrite fmap_cons in Hlt. cbn [concat] in Hlt.
    destruct Hx as (x' & -> & Hx1 & Hx2); [intros i Hi; apply Hlt, elem_of_app; by left|]. cbn [res_bind].
    destruct IH as (items' & -> & H1 & H2); [intros i Hi; apply Hlt, elem_of_app; by right|]. cbn [res_bind].
    exists (x' :: items'). split; [done|]. rewrite !fmap_cons. cbn [concat]. rewrite fmap_app, Hx1, H1. split; [done|].
    intros [Ha Hb]%Forall_app. apply Forall_app. auto.
Qed.
Lemma map_ordering_ok k o :
  k ≤ length holes → plan_ok hole_ops (reset <$> base) k o →
  ∃ o', map_ordering (E:=E) holes o = Ok o' ∧ opt_ordering o' = to_hole <$> opt_ordering o ∧
    strategy_positions (strategy o') = opt_ordering o' ∧ leaves_ok ops base [strategy o'].
Proof.
  intros Hk [Ho Hs Hl]. unfold map_ordering.
  assert (∀ i, i ∈ opt_ordering o → i < length holes) as Hlt by (intros i; rewrite Ho, elem_of_seq; lia).
  rewrite map_positions by done. cbn [res_bind]. destruct (map_strategy_ok (strategy o)) as (s' & -> & H1 & H2); [by rewrite Hs|].
  cbn [res_bind]. eexists. split; [done|]. cbn [opt_ordering strategy]. split; [done|]. split; [by rewrite H1, Hs|].
  apply leaves_single, H2, leaves_single, Hl.
Qed.
(** The first [k] holes, in some order. *)
Lemma to_hole_take k ord : k ≤ length holes → ord ≡ₚ seq 0 k → to_hole <$> ord ≡ₚ take k holes.
Proof.
  intros Hk ->. apply reflexive_eq. apply list_eq. intros i. rewrite list_lookup_fmap. destruct (decide (i < k)) as [Hi|Hi].
  - rewrite lookup_seq_lt, lookup_take_lt by done. cbn. unfold to_hole.
    destruct (lookup_lt_is_Some_2 holes i) as [q ->]; [lia|]. done.
  - rewrite lookup_seq_ge, lookup_take_ge by lia. done.
Qed.
End mapping.

(** ** Repairing the order *)

Section repair.
Context {E Op F Opt : Type} `{!OperationIr Op, !Fuser Op F Opt}.
Context (ops : list Op) (base : list F).
Implicit Types (s : ExecutionStrategy Opt) (ord : list nat) (l : list (ExecutionStrategy Opt)).
Definition within ord : Prop := ∀ p, p ∈ ord → p < length ops.
(** The operations at some positions, as nodes. *)
Definition nodes_at ord : list (OperationNode Op) := omap (λ p, (λ op, mkNode op p) <$> ops !! p) ord.
Definition valid_order ord : Prop := is_valid_execution_order (nodes_at ord) = true.
Lemma ordering_is_valid_ok ord :
  within ord → ordering_is_valid (E:=E) ord ops = Ok (is_valid_execution_order (nodes_at ord)).
Proof.
  intros Hw. unfold ordering_is_valid.
  assert (res_mapM (λ p, let? op := get (E:=E) ops p in Ok (mkNode op p)) ord = Ok (nodes_at ord)) as ->; [|done].
  induction ord as [|p ord IH]; [done|]. cbn [res_mapM]. unfold get at 1, nodes_at. cbn [omap list_omap].
  destruct (lookup_lt_is_Some_2 ops p) as [op Hop]; [apply Hw; by left|]. rewrite Hop. cbn [res_bind fmap option_fmap option_map].
  rewrite IH by (intros q Hq; apply Hw; by right). done.
Qed.
Lemma chunk_new_ok ord : within ord → ∃ c, chunk_new (E:=E) ord ops = Ok c ∧ chunk_positions c = ord.
Proof.
  intros Hw. unfold chunk_new. assert (∀ f, ∃ f', res_foldl (λ f p, let? op := get (E:=E) ops p in Ok (flow_register op p f)) f ord = Ok f') as Hf.
  { induction ord as [|p ord IH]; intros f; cbn [res_foldl]; [eauto|].
    destruct (lookup_lt_is_Some_2 ops p) as [op Hop]; [apply Hw; by left|]. unfold get at 1. rewrite Hop. cbn [res_bind].
    apply IH. intros q Hq. apply Hw. by right. }
  destruct (Hf flow_new) as [f ->]. cbn [res_bind]. eauto.
Qed.
Lemma chunk_singles ord :
  within ord → ∃ cs, res_mapM (λ p, chunk_new (E:=E) [p] ops) ord = Ok cs ∧ chunk_positions <$> cs = (λ p, [p]) <$> ord.
Proof.
  induction ord as [|p ord IH]; intros Hw; cbn [res_mapM]; [by exists []|].
  destruct (chunk_new_ok [p]) as (c & -> & Hc); [intros q ->%list_elem_of_singleton; apply Hw; by left|]. cbn [res_bind].
  destruct IH as (cs & -> & Hcs); [intros q Hq; apply Hw; by right|]. cbn [res_bind]. exists (c :: cs).
  split; [done|]. by rewrite !fmap_cons, Hc, Hcs.
Qed.
(** The chunks of strategies hold their positions. *)
Definition chunks_of l (cs : list Chunk) : Prop := chunk_positions <$> cs = strategy_positions <$> l.
Lemma chunks_length l cs : chunks_of l cs → length cs = length l.
Proof. intros Hc. by rewrite <-(length_fmap chunk_positions), Hc, length_fmap. Qed.
Lemma cut_chunks_ok l ord :
  within ord → all_positions l = ord → ∃ cs, cut_chunks (E:=E) ops ord l = Ok cs ∧ chunks_of l cs.
Proof.
  revert ord. induction l as [|s l IH]; intros ord Hw Hpos; cbn [cut_chunks]; [by exists []|].
  unfold all_positions in Hpos. rewrite fmap_cons in Hpos. cbn [concat] in Hpos. subst ord. rewrite strategy_len_positions, length_app.
  destruct (Nat.ltb_spec (length (strategy_positions s) + length (concat (strategy_positions <$> l))) (length (strategy_positions s))); [lia|].
  rewrite take_app_length, drop_app_length.
  destruct (chunk_new_ok (strategy_positions s)) as (c & -> & Hc); [intros p Hp; apply Hw, elem_of_app; by left|]. cbn [res_bind].
  destruct (IH (all_positions l)) as (cs & Hcs & Hch); [intros p Hp; apply Hw, elem_of_app; by right|done|].
  unfold all_positions in Hcs. rewrite Hcs. cbn [res_bind]. exists (c :: cs). split; [done|].
  unfold chunks_of in *. by rewrite !fmap_cons, Hc, Hch.
Qed.
Lemma pick_fmap {A B} (f : A → B) (k : list A) order : f <$> pick k order = pick (f <$> k) order.
Proof.
  induction order as [|i order IH]; [done|]. unfold pick in *. cbn [omap list_omap]. rewrite list_lookup_fmap.
  destruct (k !! i); cbn; [by rewrite <-IH|done].
Qed.

(** The order is valid, or it is the order of the stream and nothing is fused. *)
Definition settled_order (o : BlockOptimization Opt) ord : Prop :=
  valid_order (opt_ordering o) ∨ o = unfused_stream_order ord.
Record repaired l (o : BlockOptimization Opt) : Prop := {
  repaired_order : opt_ordering o ≡ₚ all_positions l;
  repaired_positions : strategy_positions (strategy o) = opt_ordering o;
  repaired_leaves : leaves_ok ops base [strategy o];
  repaired_valid : settled_order o (all_positions l)
}.
Lemma unfused_ok l ord : ord ≡ₚ all_positions l → repaired l (unfused_stream_order ord).
Proof.
  intros Hp. unfold unfused_stream_order. constructor; cbn.
  - by rewrite merge_sort_Permutation.
  - done.
  - by apply leaves_leaf.
  - right. unfold unfused_stream_order. enough (merge_sort le (all_positions l) = merge_sort le ord) as -> by done.
    apply (Sorted_unique le); [apply Sorted_merge_sort; apply _|apply Sorted_merge_sort; apply _|].
    by rewrite !merge_sort_Permutation.
Qed.
Lemma assemble_ok l cs order :
  chunks_of l cs → order ≡ₚ seq 0 (length l) → within (all_positions l) → Forall (leaf_ok ops base) l →
  ∃ o, assemble (E:=E) l cs order ops = Ok o ∧ repaired l o.
Proof.
  intros Hcs Hp Hw Hl. unfold assemble. rewrite take_slots_perm by done. cbn [res_bind].
  pose proof (chunks_length _ _ Hcs) as Hlen.
  rewrite pick_ok by (intros i; rewrite Hp, elem_of_seq; lia). cbn [res_bind].
  rewrite pick_fmap, Hcs, <-pick_fmap. fold (all_positions (pick l order)).
  pose proof (pick_order_perm l order Hp) as Hpp.
  assert (all_positions (pick l order) ≡ₚ all_positions l) as Hap by (unfold all_positions; by rewrite Hpp).
  rewrite ordering_is_valid_ok by (intros p; rewrite Hap; apply Hw). cbn [res_bind]. eexists. split; [done|].
  destruct (is_valid_execution_order (nodes_at (all_positions (pick l order)))) eqn:Hv; [|by apply unfused_ok].
  constructor; cbn [opt_ordering strategy]; [done|done| |by left]. apply leaves_composed, leaves_flattened. by rewrite Hpp.
Qed.
Lemma split_chunks_ok l cs :
  chunks_of l cs → within (all_positions l) → Forall (leaf_ok ops base) l →
  ∃ r, split_chunks (E:=E) ops (zip l cs) = Ok r ∧ chunks_of r.1 r.2 ∧ all_positions r.1 = all_positions l ∧
    Forall (leaf_ok ops base) r.1.
Proof.
  revert cs. induction l as [|s l IH]; intros cs Hcs Hw Hl; [by exists ([], [])|].
  destruct cs as [|c cs]; [done|]. unfold chunks_of in Hcs. rewrite !fmap_cons in Hcs. injection Hcs as Hc Hcs.
  apply Forall_cons in Hl as [Hs Hl]. unfold all_positions in Hw. rewrite fmap_cons in Hw. cbn [concat] in Hw. cbn [zip zip_with split_chunks].
  assert (∃ one, (match s with
      | Operations _ => let? cs := res_mapM (λ p, chunk_new (E:=E) [p] ops) (chunk_positions c) in
                        Ok ((λ p, Operations [p]) <$> chunk_positions c, cs)
      | _ => Ok ([s], [c]) end) = Ok one ∧ chunks_of one.1 one.2 ∧ all_positions one.1 = strategy_positions s ∧
      Forall (leaf_ok ops base) one.1) as (one & -> & H1 & H2 & H3).
  { assert (chunks_of [s] [c] ∧ all_positions [s] = strategy_positions s) as [Hc1 Hc2].
    { unfold chunks_of, all_positions. cbn. by rewrite Hc, app_nil_r. }
    destruct s as [opt ord sc|ord|items]; [eexists; split; [done|]; split; [done|]; split; [done|]; by constructor| |done].
    cbn [strategy_positions] in *. rewrite Hc. destruct (chunk_singles ord) as (cs1 & -> & Hcs1); [intros p Hp; apply Hw, elem_of_app; by left|].
    cbn [res_bind]. eexists. split; [done|]. cbn [fst snd]. unfold chunks_of, all_positions. rewrite <-list_fmap_compose, Hcs1.
    split; [done|]. split; [|apply Forall_forall; by intros x (p & -> & _)%list_elem_of_fmap]. clear. induction ord as [|p ord IH]; [done|]. rewrite fmap_cons. cbn. by rewrite IH. }
  cbn [res_bind]. destruct (IH cs) as (r & -> & R1 & R2 & R3); [done|intros p Hp; apply Hw, elem_of_app; by right|done|].
  cbn [res_bind]. eexists. split; [done|]. cbn [fst snd]. unfold chunks_of in *. rewrite !fmap_app, H1, R1. split; [done|].
  rewrite all_positions_app, H2, R2. split; [done|]. by apply Forall_app.
Qed.
Lemma repair_order_ok (o : BlockOptimization Opt) :
  within (opt_ordering o) → strategy_positions (strategy o) = opt_ordering o → leaves_ok ops base [strategy o] →
  ∃ o', repair_order (E:=E) o ops = Ok o' ∧ repaired [strategy o] o'.
Proof.
  intros Hw Hs Hl. assert (all_positions [strategy o] = opt_ordering o) as Hap by (unfold all_positions; cbn; by rewrite app_nil_r).
  unfold repair_order. rewrite ordering_is_valid_ok by done. cbn [res_bind].
  destruct (is_valid_execution_order (nodes_at (opt_ordering o))) eqn:Hv.
  { exists o. split; [done|]. constructor; [by rewrite Hap|done|done|by left]. }
  destruct (strategy o) as [opt ord sc|ord|items] eqn:Hst; [eexists; split; [done|]; apply unfused_ok; by rewrite Hap
    |eexists; split; [done|]; apply unfused_ok; by rewrite Hap|].
  set (fl := flatten_strategies items). assert (all_positions fl = opt_ordering o) as Hfl.
  { unfold fl. rewrite flatten_all_positions. rewrite <-Hs. done. }
  assert (Forall (leaf_ok ops base) fl) as Hlf by exact (proj1 (leaves_composed _ _ _) Hl).
  assert (∀ o', repaired fl o' → repaired [Composed items] o') as Hlift.
  { intros o' [R1 R2 R3 R4]. constructor; [by rewrite R1, Hfl, Hap|done|done|]. by rewrite Hap, <-Hfl. }
  destruct (cut_chunks_ok fl (opt_ordering o) Hw Hfl) as (cs & -> & Hcs). cbn [res_bind].
  destruct (topological_order_perm (E:=E) cs) as (order & -> & Hord). cbn [res_bind]. destruct order as [order|].
  { destruct (assemble_ok fl cs order) as (o' & -> & Hr); [done| |by rewrite Hfl|done|eauto].
    rewrite <-(chunks_length _ _ Hcs). by apply Hord. }
  destruct (split_chunks_ok fl cs) as (r & -> & R1 & R2 & R3); [done|by rewrite Hfl|done|]. cbn [res_bind].
  destruct (topological_order_perm (E:=E) r.2) as (order & -> & Hord'). cbn [res_bind].
  assert (∀ o', repaired r.1 o' → repaired [Composed items] o') as Hlift'.
  { intros o' [Q1 Q2 Q3 Q4]. apply Hlift. constructor; [by rewrite Q1, R2|done|done|by rewrite <-R2]. }
  destruct order as [order|].
  - destruct (assemble_ok r.1 r.2 order) as (o' & -> & Hr); [done| |by rewrite R2, Hfl|done|eauto].
    rewrite <-(chunks_length _ _ R1). by apply Hord'.
  - eexists. split; [done|]. apply Hlift', unfused_ok. unfold chunks_of in R1. by rewrite R1.
Qed.
End repair.

(** ** The whole search *)

Section optimize.
Context {E Op F Opt : Type} `{!OperationIr Op, !Fuser Op F Opt, !FuserLaws Op F Opt} (beam : nat).
Implicit Types (s : StreamOptimizer Op F) (ops : list Op) (holes ord : list nat).

Lemma stream_new_ok ops bs : stream_ok ops (stream_new beam bs).
Proof. constructor; cbn; [constructor| |lia|lia]. intros p. by rewrite decide_False by lia. Qed.
Lemma pick_ops ops holes : within ops holes → Forall2 (λ q op, ops !! q = Some op) holes (pick ops holes).
Proof.
  induction holes as [|q holes IH]; intros Hw; [constructor|]. unfold pick. cbn [omap list_omap].
  destruct (lookup_lt_is_Some_2 ops q) as [op Hop]; [apply Hw; by left|]. rewrite Hop. constructor; [done|].
  apply IH. intros p Hp. apply Hw. by right.
Qed.
Lemma pick_tensors ops holes : Forall has_tensor ops → Forall has_tensor (pick ops holes).
Proof.
  intros Ht. apply Forall_forall. intros op Hop. unfold pick in Hop.
  apply list_elem_of_omap in Hop as (q & _ & Hq). by apply (proj1 (Forall_lookup _ _) Ht _ _ Hq).
Qed.
(** What a search for fewer than [bound] operations returns. *)
Definition search_ok (bound : nat) (rec : StreamOptimizer Op F → list Op → res E (BlockOptimization Opt)) : Prop :=
  ∀ ops s, Forall has_tensor ops → stream_ok ops s → 0 < st_length s < bound →
    ∃ k o, rec s ops = Ok o ∧ 0 < k ≤ st_length s ∧ plan_ok ops (st_builders s) k o.
Lemma fill_holes_ok bound rec s ops turns m sts ord holes :
  search_ok bound rec → Forall has_tensor ops → holes_ok ops (st_builders s) m sts ord holes → m ≤ length ops →
  holes ≠ [] → length holes < bound → length holes ≤ turns →
  ∃ o, fill_holes beam rec s ops turns sts ord holes = Ok o ∧ plan_ok ops (st_builders s) m o.
Proof.
  intros Hrec Htens. revert sts ord holes. induction turns as [|turns IH]; intros sts ord holes Hh Hm Hne Hlt Hturns.
  { destruct holes; [done|cbn in Hturns; lia]. }
  destruct Hh as [Ho Hsome Hpos Hlv]. cbn [fill_holes].
  assert (within ops holes) as Hw.
  { intros p Hp. assert (p ∈ seq 0 m) as Hin by (rewrite <-Ho; apply elem_of_app; by right). apply elem_of_seq in Hin. lia. }
  rewrite pick_ok by done. cbn [res_bind]. pose proof (pick_ops ops holes Hw) as Hf2. pose proof (pick_tensors ops holes Htens) as Hht.
  set (hole_ops := pick ops holes) in *. pose proof (Forall2_length _ _ _ Hf2) as Hlen.
  destruct (register_fold_ok (E:=E) hole_ops Hht hole_ops (new_empty_search beam s)) as (search & -> & Hs & Hb & _ & Hpos0);
    [apply stream_new_ok|by intros _; apply drop_0|]. cbn [res_bind].
  assert (0 < st_length search) as Hsl by (apply Hpos0; [done|done|]; intros Hn; rewrite Hn in Hlen; by destruct holes).
  pose proof (stream_length _ _ Hs) as Hsm.
  destruct (Hrec hole_ops search Hht Hs) as (k & o & -> & Hk & Hplan); [lia|]. cbn [res_bind]. rewrite Hb in Hplan. cbn [st_builders] in Hplan.
  destruct (map_ordering_ok (E:=E) ops hole_ops holes (st_builders s) Hf2 k o) as (o' & -> & Ho' & Hp' & Hl'); [lia|done|]. cbn [res_bind].
  assert (length (opt_ordering o') = k) as Hlk by (rewrite Ho', length_fmap, (plan_order _ _ _ _ Hplan); apply length_seq).
  assert (opt_ordering o' ≡ₚ take k holes) as Hperm.
  { rewrite Ho'. apply to_hole_take; [lia|]. apply Hplan. }
  rewrite Hlk. destruct (Nat.ltb_spec (length holes) k); [lia|].
  assert (holes_ok ops (st_builders s) m (sts ++ [strategy o']) (ord ++ opt_ordering o') (drop k holes)) as Hnext.
  { constructor.
    - by rewrite <-app_assoc, Hperm, take_drop.
    - by destruct ord.
    - rewrite all_positions_app, Hpos. unfold all_positions. cbn. by rewrite app_nil_r, Hp'.
    - by apply leaves_app. }
  destruct (drop k holes) as [|h hs] eqn:Hd.
  - eexists. split; [done|]. destruct Hnext as [N1 _ N3 N4]. rewrite app_nil_r in N1.
    constructor; cbn [opt_ordering strategy]; [done|done|by apply leaves_composed].
  - apply IH; [done|done|done| |]; apply (f_equal length) in Hd; rewrite length_drop in Hd; lia.
Qed.
Lemma sorted_seq ord k : ord ≡ₚ seq 0 k → merge_sort le ord = seq 0 k.
Proof.
  intros Hp. apply (Sorted_unique le); [apply Sorted_merge_sort; apply _| |by rewrite merge_sort_Permutation].
  apply StronglySorted_Sorted. clear. generalize 0 as i. induction k as [|k IH]; intros i; cbn [seq]; constructor; [done|].
  apply Forall_forall. intros x Hx%elem_of_seq. lia.
Qed.
(** A plan whose order is valid, or that runs the operations one by one as they came. *)
Definition final_plan ops base k (o : BlockOptimization Opt) : Prop :=
  plan_ok ops base k o ∧ (valid_order ops (opt_ordering o) ∨ o = mkOptimization (Operations (seq 0 k)) (seq 0 k)).
Lemma optimize_ok fuel :
  ∀ ops s, Forall has_tensor ops → stream_ok ops s → 0 < st_length s < fuel →
    ∃ k o, optimize (E:=E) beam fuel s ops = Ok o ∧ 0 < k ≤ st_length s ∧ final_plan ops (st_builders s) k o.
Proof.
  induction fuel as [|fuel IH]; intros ops s Htens Hs Hlen; [lia|]. cbn [optimize].
  assert (search_ok fuel (optimize (E:=E) beam fuel)) as Hrec.
  { intros ops' s' Ht' Hs' Hl'. destruct (IH ops' s' Ht' Hs' Hl') as (k & o & H1 & H2 & H3 & _). eauto. }
  pose proof (stream_length _ _ Hs) as Hsl.
  destruct (blocks_optimize_ok (E:=E) ops Htens (st_builders s) (blocks s) (st_length s)) as (bo & r & -> & Hr & Hcase).
  { apply Hs. } { rewrite (stream_empty _ _ Hs). lia. } { apply Hs. }
  cbn [res_bind]. rewrite Hr. cbn [res_bind].
  assert (∃ k o, (match r with
      | FullStream o => Ok o
      | WithHoles sts ord holes => fill_holes beam (optimize (E:=E) beam fuel) s ops (length holes) sts ord holes
      end) = Ok o ∧ 0 < k ≤ st_length s ∧ plan_ok ops (st_builders s) k o) as (k & o & -> & Hk & Hplan).
  { destruct r as [o|sts ord holes]; [destruct Hcase as (k & Hk & Hp); eauto|].
    destruct Hcase as (m & Hm & Hh & Hne). pose proof Hh as [Ho Hsome _ _]. apply Permutation_length in Ho.
    rewrite length_app, length_seq in Ho. assert (length ord ≠ 0) by (by destruct ord).
    destruct (fill_holes_ok fuel _ s ops (length holes) m sts ord holes Hrec Htens Hh) as (o & Hf & Hp); [lia|done|lia|lia|].
    exists m, o. split; [done|]. split; [lia|done]. }
  cbn [res_bind]. destruct Hplan as [P1 P2 P3].
  destruct (repair_order_ok (E:=E) ops (st_builders s) o) as (o' & Ho' & [R1 R2 R3 R4]); [|done|done|].
  { intros p. rewrite P1, elem_of_seq. lia. }
  exists k, o'. split; [done|]. split; [done|].
  assert (all_positions [strategy o] = opt_ordering o) as Hap by (unfold all_positions; cbn; by rewrite app_nil_r).
  rewrite Hap in R1, R4. split; [constructor; [by rewrite R1|done|done]|]. destruct R4 as [R4| ->]; [by left|right].
  unfold unfused_stream_order. by rewrite (sorted_seq _ _ P1).
Qed.
End optimize.

Section search.
Context {E Op F Opt : Type} `{!OperationIr Op, !Fuser Op F Opt, !FuserLaws Op F Opt} (beam : nat).

Lemma search_plan (bs : list F) (ops : list Op) :
  Forall has_tensor ops → ops ≠ [] →
  ∃ s k o, res_foldl (register (E:=E)) (stream_new beam bs) ops = Ok s ∧
    optimize (E:=E) beam (S (length ops)) s ops = Ok o ∧ 0 < k ≤ length ops ∧ final_plan ops bs k o.
Proof.
  intros Ht Hne. destruct (register_fold_ok (E:=E) ops Ht ops (stream_new beam bs)) as (s & Hs & Hok & Hb & _ & Hpos);
    [apply stream_new_ok|by intros _; apply drop_0|].
  pose proof (stream_length _ _ Hok) as Hl. specialize (Hpos eq_refl eq_refl Hne).
  destruct (optimize_ok (E:=E) beam (S (length ops)) ops s Ht Hok) as (k & o & Ho & Hk & Hp); [lia|].
  rewrite Hb in Hp. exists s, k, o. split; [done|]. split; [done|]. split; [lia|done].
Qed.
Lemma nodes_at_seq (ops : list Op) k : in_source_order (nodes_at ops (seq 0 k)).
Proof.
  assert (∀ l, StronglySorted lt l → in_source_order (nodes_at ops l)) as Hs.
  { induction 1 as [|p l Hl IH Hp]; [constructor|]. unfold nodes_at. cbn [omap list_omap]. destruct (ops !! p); cbn; [|exact IH].
    constructor; [exact IH|]. apply Forall_forall. intros n Hn. apply list_elem_of_omap in Hn as (q & Hq & Hn).
    apply fmap_Some in Hn as (op' & _ & ->). cbn. rewrite Forall_forall in Hp. by apply Hp. }
  apply Hs. generalize 0 as i. induction k as [|k IH]; intros i; cbn [seq]; constructor; [done|].
  apply Forall_forall. intros x Hx%elem_of_seq. lia.
Qed.
End search.



(** A fuser of pairs. *)
#[export] Instance pair_fuser : Fuser PlainOp (list PlainOp) nat := {
  fuse op l := l ++ [op];
  finish l := length l `min` 2;
  reset _ := [];
  closed l := 2 <=? length l;
  ready l := 2 <=? length l;
  score l := N.of_nat (length l);
  num_operations n := n
}.
#[export] Instance pair_fuser_laws : FuserLaws PlainOp (list PlainOp) nat.
Proof. constructor. intros x Hx%Nat.leb_le. cbn. lia. Qed.
Definition plain (i o : list N) : PlainOp :=
  mkPlain ((λ t, tensor t ReadOnly) <$> i) ((λ t, tensor t NotInit) <$> o) false false.
Definition two_chains : list PlainOp := [plain [1] [2]; plain [11] [12]; plain [2] [3]; plain [12] [13]]%N.
Lemma two_chains_tensors : Forall has_tensor two_chains.
Proof. repeat constructor; discriminate. Qed.

(** Without the tensors the claim fails: a block whose operations have none accepts
    whatever comes next, which is then planned twice. *)
Lemma tensorless_operation_doubles :
  let ops := [plain [] [1]; plain [] []; plain [1] []]%N in
  (let? s := res_foldl (register (E:=unit)) (stream_new 4 [[] : list PlainOp]) ops in Ok (ordering <$> blocks s))
    = Ok [[0; 2]; [1; 2]] ∧
  (let? s := res_foldl (register (E:=unit)) (stream_new 4 [[] : list PlainOp]) ops in
   let? o := optimize (E:=unit) 4 4 s ops in Ok (opt_ordering o)) = Ok [0; 2; 1; 2].
Proof. split; vm_compute; reflexivity. Qed.
