(* ===== verification/FusionRelative.v ===== *)
(** * Relative operations

    [ruda-fusion/src/stream/context.rs]: the converter that rewrites operations into a
    form that does not depend on the identity of their tensors, on their dimensions or
    on their scalars, which is what plans are cached by.

    An operation is a tag, which stands for its variant and the fields that are copied
    as they are, and the list of its parts in the order its [to_relative] visits them.
    Sizes of maps stand for [HashMap::len]; slices are those of [Tensor]. *)

From S2P Require Import Prelude Tensor FusionGraph.
Open Scope N_scope.

(** ** Parts of operations *)

Inductive ScalarIr :=
  | Float (bits : N)
  | Int (value : Z)
  | UInt (value : N)
  | Bool (value : bool)
  | Reference (id dtype : N).
Inductive Part := PTensor (t : TensorIr) | PScalar (s : ScalarIr) | PSlice (s : Slice).
Record Operation := mkOp { tag : N; parts : list Part }.

(** ** The converter *)

Record OperationConverter := mkConverter {
  tensors_relative2global : gmap N TensorIr;
  tensors_global2relative : gmap N TensorIr;
  shapes_global2relative : gmap N N;
  shapes_relative2global : gmap N N;
  scalars : gmap N ScalarIr;
  ranges : list Slice
}.
Definition count {A} (m : gmap N A) : N := N.of_nat (size m).
(** [Default::default]: global 1 is always shape id 0. *)
Definition converter_new : OperationConverter := mkConverter ∅ ∅ {[1 := 0]} {[0 := 1]} ∅ [].
Definition converter_clear (c : OperationConverter) : OperationConverter :=
  mkConverter ∅ ∅ (<[1 := 0]> ∅) (<[0 := 1]> ∅) ∅ [].

(** [TensorId::to_relative] *)
Definition id_to_relative (c : OperationConverter) (i : N) : N :=
  match tensors_global2relative c !! i with
  | Some value => tensor_id value
  | None => count (tensors_relative2global c)
  end.
(** The loop over the dimensions of a shape. *)
Fixpoint dims_to_relative (sg2r sr2g : gmap N N) (dims : list N) : list N * gmap N N * gmap N N :=
  match dims with
  | [] => ([], sg2r, sr2g)
  | dim :: dims =>
      match sg2r !! dim with
      | Some dim_id => let '(l, a, b) := dims_to_relative sg2r sr2g dims in (dim_id :: l, a, b)
      | None =>
          let dim_id := count sg2r in
          let '(l, a, b) := dims_to_relative (<[dim := dim_id]> sg2r) (<[dim_id := dim]> sr2g) dims in
          (dim_id :: l, a, b)
      end
  end.
Definition convert_tensor (t : TensorIr) (c : OperationConverter) : TensorIr * OperationConverter :=
  let relative_id := id_to_relative c (tensor_id t) in
  let '(shape, sg2r, sr2g) :=
    dims_to_relative (shapes_global2relative c) (shapes_relative2global c) (tensor_shape t) in
  let relative := mkTensor relative_id shape (status t) (dtype t) in
  (relative, mkConverter (<[relative_id := t]> (tensors_relative2global c))
    (<[tensor_id t := relative]> (tensors_global2relative c)) sg2r sr2g (scalars c) (ranges c)).
(** The check for a tensor already seen with the same shape. *)
Fixpoint dims_known (sg2r : gmap N N) (relative global : list N) : bool :=
  match relative, global with
  | r :: relative, g :: global => bool_decide (sg2r !! g = Some r) && dims_known sg2r relative global
  | _, _ => true
  end.
Definition known_tensor (t : TensorIr) (c : OperationConverter) : option (TensorIr * TensorIr) :=
  match tensors_global2relative c !! tensor_id t with
  | None => None
  | Some relative =>
      match tensors_relative2global c !! tensor_id relative with
      | None => None
      | Some global =>
          if bool_decide (tensor_shape global = tensor_shape t)
             && Nat.eqb (length (tensor_shape relative)) (length (tensor_shape t))
             && dims_known (shapes_global2relative c) (tensor_shape relative) (tensor_shape t)
          then Some (relative, global) else None
      end
  end.
Definition tensor_to_relative (t : TensorIr) (c : OperationConverter) : TensorIr * OperationConverter :=
  match known_tensor t c with
  | Some (relative, global) =>
      let global := mkTensor (tensor_id t) (tensor_shape global) (status t) (dtype t) in
      let relative := mkTensor (tensor_id relative) (tensor_shape relative) (status t) (dtype t) in
      (relative, mkConverter (<[tensor_id relative := global]> (tensors_relative2global c))
        (<[tensor_id t := relative]> (tensors_global2relative c))
        (shapes_global2relative c) (shapes_relative2global c) (scalars c) (ranges c))
  | None => convert_tensor t c
  end.
Definition slice_to_relative (s : Slice) (c : OperationConverter) : Slice * OperationConverter :=
  let index := Z.of_nat (length (ranges c)) in
  (mkSlice index (Some (index + 1)%Z) 1,
   mkConverter (tensors_relative2global c) (tensors_global2relative c) (shapes_global2relative c)
     (shapes_relative2global c) (scalars c) (ranges c ++ [s])).
Section convert.
Context {E : Type}.
Definition scalar_to_relative (s : ScalarIr) (c : OperationConverter) : res E (ScalarIr * OperationConverter) :=
  match s with
  | Reference _ _ => Panic
  | _ =>
      let id := count (scalars c) in
      Ok (UInt id, mkConverter (tensors_relative2global c) (tensors_global2relative c) (shapes_global2relative c)
            (shapes_relative2global c) (<[id := s]> (scalars c)) (ranges c))
  end.
Definition part_to_relative (p : Part) (c : OperationConverter) : res E (Part * OperationConverter) :=
  match p with
  | PTensor t => let r := tensor_to_relative t c in Ok (PTensor r.1, r.2)
  | PScalar s => let? r := scalar_to_relative s c in Ok (PScalar r.1, r.2)
  | PSlice s => let r := slice_to_relative s c in Ok (PSlice r.1, r.2)
  end.
Fixpoint parts_to_relative (ps : list Part) (c : OperationConverter) : res E (list Part * OperationConverter) :=
  match ps with
  | [] => Ok ([], c)
  | p :: ps =>
      let? r := part_to_relative p c in
      let? rs := parts_to_relative ps r.2 in
      Ok (r.1 :: rs.1, rs.2)
  end.
Definition to_relative (o : Operation) (c : OperationConverter) : res E (Operation * OperationConverter) :=
  let? r := parts_to_relative (parts o) c in Ok (mkOp (tag o) r.1, r.2).
(** The loop of [reset_relative], and of a queue to which operations are added. *)
Fixpoint all_to_relative (os : list Operation) (c : OperationConverter) : res E (list Operation * OperationConverter) :=
  match os with
  | [] => Ok ([], c)
  | o :: os =>
      let? r := to_relative o c in
      let? rs := all_to_relative os r.2 in
      Ok (r.1 :: rs.1, rs.2)
  end.
End convert.
