(* ===== verification/FusionRelativeProps.v ===== *)
(** * What the relative form keeps

    The converter decodes what it encodes, and two sequences of operations have the
    same relative form exactly when they are the same up to renaming. *)

From S2P Require Import Prelude Tensor FusionGraph FusionRelative.
Open Scope N_scope.

(** ** The two paths *)

Lemma dims_known_ok sg2r sr2g relative dims :
  length relative = length dims → dims_known sg2r relative dims = true →
  dims_to_relative sg2r sr2g dims = (relative, sg2r, sr2g).
Proof.
  revert dims. induction relative as [|r relative IH]; intros [|d dims] Hl Hk; try done. cbn [dims_known dims_to_relative] in *.
  apply andb_true_iff in Hk as [Hd%bool_decide_eq_true Hk]. injection Hl as Hl. by rewrite Hd, IH.
Qed.
Lemma tensor_to_relative_convert t c : tensor_to_relative t c = convert_tensor t c.
Proof.
  unfold tensor_to_relative, known_tensor. destruct (tensors_global2relative c !! tensor_id t) as [rel|] eqn:Hr; [|done].
  destruct (tensors_relative2global c !! tensor_id rel) as [glob|] eqn:Hg; [|done].
  destruct (bool_decide _ && _ && _) eqn:Hb; [|done]. apply andb_true_iff in Hb as [[Hs%bool_decide_eq_true Hl%Nat.eqb_eq]%andb_true_iff Hk].
  unfold convert_tensor, id_to_relative. rewrite Hr, (dims_known_ok _ _ (tensor_shape rel)) by done. cbn [tensor_id].
  by rewrite Hs; destruct t.
Qed.

(** ** Invariant *)

Record dims_ok (sg2r sr2g : gmap N N) : Prop := {
  dims_inverse : ∀ d k, sg2r !! d = Some k ↔ sr2g !! k = Some d;
  dims_dense : ∀ k, is_Some (sr2g !! k) ↔ k < count sg2r;
  dims_one : sg2r !! 1 = Some 0
}.
Definition encodes_dims (sg2r : gmap N N) (dims rel : list N) : Prop := Forall2 (λ d k, sg2r !! d = Some k) dims rel.
Lemma count_insert_new {A} (m : gmap N A) k x : m !! k = None → count (<[k := x]> m) = count m + 1.
Proof. intros Hk. unfold count. rewrite map_size_insert_None by done. lia. Qed.
Lemma count_insert_old {A} (m : gmap N A) k x : is_Some (m !! k) → count (<[k := x]> m) = count m.
Proof. intros [y Hk]. unfold count. by erewrite map_size_insert_Some. Qed.
Lemma dims_fresh sg2r sr2g d :
  dims_ok sg2r sr2g → sg2r !! d = None → dims_ok (<[d := count sg2r]> sg2r) (<[count sg2r := d]> sr2g).
Proof.
  intros [Hi Hd H1] Hn. assert (sr2g !! count sg2r = None) as Hf.
  { apply eq_None_not_Some. rewrite Hd. lia. }
  constructor.
  - intros x k. destruct (decide (x = d)) as [->|Hx], (decide (k = count sg2r)) as [->|Hk].
    + rewrite !lookup_insert_eq. done.
    + rewrite lookup_insert_eq, lookup_insert_ne by done. split; [congruence|]. intros Hs. apply Hi in Hs. congruence.
    + rewrite lookup_insert_ne, lookup_insert_eq by done. split; [|congruence]. intros Hs. apply Hi in Hs. congruence.
    + rewrite !lookup_insert_ne by done. apply Hi.
  - intros k. rewrite count_insert_new by done. destruct (decide (k = count sg2r)) as [->|Hk].
    + rewrite lookup_insert_eq. split; [lia|by eexists].
    + rewrite lookup_insert_ne, Hd by done. lia.
  - rewrite lookup_insert_ne; [done|]. intros ->. congruence.
Qed.
Lemma dims_to_relative_ok sg2r sr2g dims l a b :
  dims_ok sg2r sr2g → dims_to_relative sg2r sr2g dims = (l, a, b) →
  dims_ok a b ∧ sg2r ⊆ a ∧ encodes_dims a dims l.
Proof.
  revert sg2r sr2g l. induction dims as [|d dims IH]; intros sg2r sr2g l Hok Heq; cbn [dims_to_relative] in Heq.
  { injection Heq as <- <- <-. split; [done|]. split; [done|]. constructor. }
  destruct (sg2r !! d) as [k|] eqn:Hd.
  - destruct (dims_to_relative sg2r sr2g dims) as [[l' a'] b'] eqn:Hr. injection Heq as <- <- <-.
    destruct (IH _ _ _ Hok Hr) as (H1 & H2 & H3). split; [done|]. split; [done|]. constructor; [|done]. by eapply lookup_weaken.
  - destruct (dims_to_relative (<[d := count sg2r]> sg2r) (<[count sg2r := d]> sr2g) dims) as [[l' a'] b'] eqn:Hr. injection Heq as <- <- <-.
    destruct (IH _ _ _ (dims_fresh _ _ _ Hok Hd) Hr) as (H1 & H2 & H3). split; [done|]. split.
    + etrans; [|done]. by apply insert_subseteq.
    + constructor; [|done]. eapply lookup_weaken; [|done]. by rewrite lookup_insert_eq.
Qed.

(** The relative id of a tensor. *)
Definition rel_id (c : OperationConverter) (i j : N) : Prop :=
  ∃ t, tensors_global2relative c !! i = Some t ∧ tensor_id t = j.
Record converter_ok (c : OperationConverter) : Prop := {
  conv_inverse : ∀ i j, rel_id c i j ↔ ∃ t, tensors_relative2global c !! j = Some t ∧ tensor_id t = i;
  conv_dense : ∀ j, is_Some (tensors_relative2global c !! j) ↔ j < count (tensors_relative2global c);
  conv_dims : dims_ok (shapes_global2relative c) (shapes_relative2global c);
  conv_scalars : ∀ k, is_Some (scalars c !! k) ↔ k < count (scalars c)
}.
Lemma rel_id_fun c i j j' : rel_id c i j → rel_id c i j' → j = j'.
Proof. intros (t & Ht & <-) (t' & Ht' & <-). congruence. Qed.
Lemma rel_id_inj c i i' j : converter_ok c → rel_id c i j → rel_id c i' j → i = i'.
Proof. intros Hc (t & Ht & <-)%(conv_inverse _ Hc) (t' & Ht' & <-)%(conv_inverse _ Hc). congruence. Qed.
Lemma dims_inj sg2r sr2g d d' k : dims_ok sg2r sr2g → sg2r !! d = Some k → sg2r !! d' = Some k → d = d'.
Proof. intros Hd H1%(dims_inverse _ _ Hd) H2%(dims_inverse _ _ Hd). congruence. Qed.
Lemma count_empty {A} : count (∅ : gmap N A) = 0.
Proof. unfold count. by rewrite map_size_empty. Qed.
Lemma converter_new_ok : converter_ok converter_new.
Proof.
  constructor; cbn [tensors_relative2global tensors_global2relative shapes_global2relative shapes_relative2global scalars converter_new].
  - intros i j. split; [by intros (t & ? & _)|by intros (t & ? & _)].
  - intros j. rewrite count_empty, lookup_empty. split; [by intros [? ?]|lia].
  - constructor; [| |done].
    + intros d k. rewrite !lookup_singleton_Some. naive_solver.
    + intros k. unfold count. rewrite map_size_singleton. split.
      * intros [x [<- _]%lookup_singleton_Some]. lia.
      * intros Hk. assert (k = 0) as -> by lia. by eexists.
  - intros k. rewrite count_empty, lookup_empty. split; [by intros [? ?]|lia].
Qed.
Lemma converter_clear_new c : converter_clear c = converter_new.
Proof. done. Qed.

(** ** Encoding *)

(** Later states of the converter keep what earlier ones assigned. *)
Record extends (c c' : OperationConverter) : Prop := {
  ext_ids : ∀ i j, rel_id c i j → rel_id c' i j;
  ext_dims : shapes_global2relative c ⊆ shapes_global2relative c';
  ext_scalars : scalars c ⊆ scalars c';
  ext_ranges : ranges c `prefix_of` ranges c'
}.
#[export] Instance extends_preorder : PreOrder extends.
Proof.
  split; [by constructor|]. intros x y z [] []. constructor; [naive_solver|by etrans|by etrans|by etrans].
Qed.
(** The part [p'] stands for [p]. *)
Definition encodes (c : OperationConverter) (p p' : Part) : Prop :=
  match p, p' with
  | PTensor t, PTensor t' =>
      rel_id c (tensor_id t) (tensor_id t') ∧
      encodes_dims (shapes_global2relative c) (tensor_shape t) (tensor_shape t') ∧
      status t' = status t ∧ dtype t' = dtype t
  | PScalar s, PScalar (UInt k) => scalars c !! k = Some s ∧ (∀ i d, s ≠ Reference i d)
  | PSlice s, PSlice s' => ∃ k, s' = mkSlice (Z.of_nat k) (Some (Z.of_nat k + 1)%Z) 1 ∧ ranges c !! k = Some s
  | _, _ => False
  end.
Lemma encodes_extends c c' p p' : extends c c' → encodes c p p' → encodes c' p p'.
Proof.
  intros [Hi Hd Hs Hr]. destruct p as [t|s|s], p' as [t'|s'|s']; cbn; try done.
  - intros (H1 & H2 & H3 & H4). split; [by apply Hi|]. split; [|done]. eapply Forall2_impl; [exact H2|]. intros d k Hdk. exact (lookup_weaken _ _ _ _ Hdk Hd).
  - destruct s'; try done. intros [H1 H2]. split; [by eapply lookup_weaken|done].
  - intros (k & -> & Hk). exists k. split; [done|]. by eapply prefix_lookup_Some.
Qed.
Lemma convert_tensor_ok t c :
  converter_ok c →
  converter_ok (convert_tensor t c).2 ∧ extends c (convert_tensor t c).2 ∧
  encodes (convert_tensor t c).2 (PTensor t) (PTensor (convert_tensor t c).1) ∧
  count (tensors_relative2global (convert_tensor t c).2) =
    count (tensors_relative2global c) + (match tensors_global2relative c !! tensor_id t with Some _ => 0 | None => 1 end).
Proof.
  intros Hc. unfold convert_tensor. destruct (dims_to_relative _ _ (tensor_shape t)) as [[shape sg2r] sr2g] eqn:Hd.
  destruct (dims_to_relative_ok _ _ _ _ _ _ (conv_dims _ Hc) Hd) as (Hdo & Hsub & Henc). cbn [fst snd].
  set (j := id_to_relative c (tensor_id t)). set (c' := mkConverter _ _ _ _ _ _).
  assert (∀ i k, i ≠ tensor_id t → rel_id c' i k ↔ rel_id c i k) as Hother.
  { intros i k Hne. unfold rel_id, c'. cbn. by rewrite lookup_insert_ne. }
  assert (∀ k, rel_id c' (tensor_id t) k ↔ k = j) as Hself.
  { intros k. unfold rel_id, c'. cbn. rewrite lookup_insert_eq. naive_solver. }
  assert (∀ k, rel_id c (tensor_id t) k → k = j) as Hold.
  { intros k (t' & Ht' & <-). unfold j, id_to_relative. by rewrite Ht'. }
  assert (∀ i, rel_id c i j → i = tensor_id t) as Hown.
  { intros i Hi. unfold j, id_to_relative in Hi. destruct (tensors_global2relative c !! tensor_id t) as [t'|] eqn:Ht'.
    - apply (rel_id_inj c _ _ (tensor_id t') Hc Hi). by exists t'.
    - apply (conv_inverse _ Hc) in Hi as (x & Hx & _). assert (is_Some (tensors_relative2global c !! count (tensors_relative2global c))) as Hs by eauto.
      apply (conv_dense _ Hc) in Hs. lia. }
  assert (is_Some (tensors_relative2global c !! j) ↔ is_Some (tensors_global2relative c !! tensor_id t)) as Hjs.
  { split.
    - intros [x Hx]. assert (rel_id c (tensor_id x) j) as Hr by (apply (conv_inverse _ Hc); eauto).
      pose proof Hr as Heq%Hown. rewrite Heq in Hr. destruct Hr as (t' & Ht' & _). eauto.
    - intros [t' Ht']. assert (rel_id c (tensor_id t) (tensor_id t')) as Hr by (by exists t'). pose proof Hr as Heq%Hold.
      rewrite Heq in Hr. apply (conv_inverse _ Hc) in Hr as (x & Hx & _). eauto. }
  assert (count (tensors_relative2global c') = count (tensors_relative2global c) + (match tensors_global2relative c !! tensor_id t with Some _ => 0 | None => 1 end)) as Hcount.
  { unfold c'. cbn [tensors_relative2global]. destruct (tensors_global2relative c !! tensor_id t) as [t'|] eqn:Ht'.
    - rewrite count_insert_old by (apply Hjs; eauto). lia.
    - rewrite count_insert_new; [done|]. apply eq_None_not_Some. rewrite Hjs. by intros [? ?]. }
  split; [|split; [|split; [|done]]].
  - constructor; [| |done|apply Hc].
    + intros i k. destruct (decide (k = j)) as [->|Hk]; unfold c' at 2; cbn [tensors_relative2global].
      * rewrite lookup_insert_eq. split.
        -- intros Hr. exists t. split; [done|]. destruct (decide (i = tensor_id t)) as [->|Hi]; [done|].
           apply Hother in Hr; [|done]. by apply Hown in Hr.
        -- intros (x & [= <-] & <-). by apply Hself.
      * rewrite lookup_insert_ne by done. rewrite <-(conv_inverse _ Hc). destruct (decide (i = tensor_id t)) as [->|Hi]; [|by apply Hother].
        split; [intros ->%Hself; done|]. intros Hr%Hold. done.
    + intros k. rewrite Hcount. unfold c'. cbn [tensors_relative2global]. destruct (decide (k = j)) as [->|Hk].
      * rewrite lookup_insert_eq. split; [intros _|by eexists]. destruct (tensors_global2relative c !! tensor_id t) as [t'|] eqn:Ht'.
        -- assert (is_Some (tensors_relative2global c !! j)) as Hs by (apply Hjs; eauto). apply (conv_dense _ Hc) in Hs. lia.
        -- unfold j, id_to_relative. rewrite Ht'. lia.
      * rewrite lookup_insert_ne, (conv_dense _ Hc) by done. destruct (tensors_global2relative c !! tensor_id t) as [t'|] eqn:Ht'; [lia|].
        unfold j, id_to_relative in Hk. rewrite Ht' in Hk. lia.
  - constructor; [|done|done|done]. intros i k Hr. destruct (decide (i = tensor_id t)) as [->|Hi]; [apply Hself; by apply Hold|by apply Hother].
  - cbn. split; [by apply Hself|]. done.
Qed.
Section encoding.
Context {E : Type}.

Definition convertible (p : Part) : Prop := ∀ i d, p ≠ PScalar (Reference i d).
Lemma part_to_relative_ok p c :
  converter_ok c → convertible p →
  ∃ p' c', part_to_relative (E:=E) p c = Ok (p', c') ∧ converter_ok c' ∧ extends c c' ∧ encodes c' p p'.
Proof.
  intros Hc Hp. destruct p as [t|s|s]; cbn [part_to_relative].
  - rewrite tensor_to_relative_convert. destruct (convert_tensor_ok t c Hc) as (H1 & H2 & H3 & _). eexists _, _. split; [done|]. auto.
  - set (k := count (scalars c)). assert (scalars c !! k = None) as Hk.
    { apply eq_None_not_Some. rewrite (conv_scalars _ Hc). unfold k. lia. }
    assert (∀ i d, s ≠ Reference i d) as Hs by (intros i d ->; by apply (Hp i d)).
    exists (PScalar (UInt k)), (mkConverter (tensors_relative2global c) (tensors_global2relative c) (shapes_global2relative c)
      (shapes_relative2global c) (<[k := s]> (scalars c)) (ranges c)).
    split; [destruct s as [| | | |i d]; try done; by destruct (Hs i d)|]. split; [|split].
    + destruct Hc as [C1 C2 C3 C4]. constructor; [done|done|done|]. cbn [scalars]. fold k. intros x. rewrite count_insert_new by done.
      destruct (decide (x = k)) as [->|Hx]; [rewrite lookup_insert_eq; split; [lia|by eexists]|].
      rewrite lookup_insert_ne, C4 by done. fold k. lia.
    + constructor; [done|done| |done]. by apply insert_subseteq.
    + cbn. fold k. by rewrite lookup_insert_eq.
  - eexists _, _. split; [done|]. split; [|split].
    + destruct Hc. by constructor.
    + constructor; [done|done|done|]. cbn. by apply prefix_app_r.
    + cbn. exists (length (ranges c)). split; [done|]. by rewrite lookup_app_r, Nat.sub_diag.
Qed.
Lemma parts_to_relative_ok ps c :
  converter_ok c → Forall convertible ps →
  ∃ ps' c', parts_to_relative (E:=E) ps c = Ok (ps', c') ∧ converter_ok c' ∧ extends c c' ∧ Forall2 (encodes c') ps ps'.
Proof.
  revert c. induction ps as [|p ps IH]; intros c Hc Hps; cbn [parts_to_relative]; [exists [], c; split; [done|]; split; [done|]; split; [done|]; by apply Forall2_nil|].
  apply Forall_cons in Hps as [Hp Hps]. destruct (part_to_relative_ok p c Hc Hp) as (p' & c1 & -> & H1 & H2 & H3). cbn [res_bind fst snd].
  destruct (IH c1 H1 Hps) as (ps' & c2 & -> & H4 & H5 & H6). cbn [res_bind fst snd]. exists (p' :: ps'), c2.
  split; [done|]. split; [done|]. split; [by etrans|]. constructor; [by eapply encodes_extends|done].
Qed.
Definition encodes_op (c : OperationConverter) (o o' : Operation) : Prop :=
  tag o' = tag o ∧ Forall2 (encodes c) (parts o) (parts o').
Lemma encodes_op_extends c c' o o' : extends c c' → encodes_op c o o' → encodes_op c' o o'.
Proof.
  intros Hx [Ht Hp]. split; [done|]. eapply Forall2_impl; [exact Hp|]. intros p p'. by apply encodes_extends.
Qed.
Lemma all_to_relative_ok os c :
  converter_ok c → Forall (λ o, Forall convertible (parts o)) os →
  ∃ os' c', all_to_relative (E:=E) os c = Ok (os', c') ∧ converter_ok c' ∧ extends c c' ∧ Forall2 (encodes_op c') os os'.
Proof.
  revert c. induction os as [|o os IH]; intros c Hc Hos; cbn [all_to_relative]; [exists [], c; split; [done|]; split; [done|]; split; [done|]; by apply Forall2_nil|].
  apply Forall_cons in Hos as [Ho Hos]. unfold to_relative.
  destruct (parts_to_relative_ok (parts o) c Hc Ho) as (ps & c1 & -> & H1 & H2 & H3). cbn [res_bind fst snd].
  destruct (IH c1 H1 Hos) as (os' & c2 & -> & H4 & H5 & H6). cbn [res_bind fst snd]. exists (mkOp (tag o) ps :: os'), c2.
  split; [done|]. split; [done|]. split; [by etrans|]. constructor; [|done]. by eapply encodes_op_extends.
Qed.
(** A reference among the scalars is refused. *)
Lemma parts_convertible ps c r : parts_to_relative (E:=E) ps c = Ok r → Forall convertible ps.
Proof.
  revert c r. induction ps as [|p ps IH]; intros c r Hr; [constructor|]. cbn [parts_to_relative] in Hr.
  apply res_bind_Ok in Hr as (x & Hp & Hr). apply res_bind_Ok in Hr as (y & Hps & _). constructor; [|by eapply IH].
  intros i d ->. cbn in Hp. done.
Qed.
Lemma all_convertible os c r : all_to_relative (E:=E) os c = Ok r → Forall (λ o, Forall convertible (parts o)) os.
Proof.
  revert c r. induction os as [|o os IH]; intros c r Hr; [constructor|]. cbn [all_to_relative] in Hr.
  apply res_bind_Ok in Hr as (x & Ho & Hr). apply res_bind_Ok in Hr as (y & Hos & _). constructor; [|by eapply IH].
  unfold to_relative in Ho. apply res_bind_Ok in Ho as (z & Hz & _). by eapply parts_convertible.
Qed.
End encoding.

(** ** Decoding *)

(** What the context of a fused operation gives back for a relative part. *)
Definition decode_part (c : OperationConverter) (p : Part) : option Part :=
  match p with
  | PTensor t =>
      g ← tensors_relative2global c !! tensor_id t;
      shape ← mapM (λ d, shapes_relative2global c !! d) (tensor_shape t);
      Some (PTensor (mkTensor (tensor_id g) shape (status t) (dtype t)))
  | PScalar (UInt k) => PScalar <$> scalars c !! k
  | PScalar _ => None
  | PSlice s => PSlice <$> ranges c !! Z.to_nat (start s)
  end.
Definition decode (c : OperationConverter) (o : Operation) : option Operation :=
  mkOp (tag o) <$> mapM (decode_part c) (parts o).
Lemma decode_encodes c p p' : converter_ok c → encodes c p p' → decode_part c p' = Some p.
Proof.
  intros Hc. destruct p as [t|s|s], p' as [t'|s'|s']; cbn [encodes decode_part]; try done.
  - intros (Hi & Hd & Hs & Ht). apply (conv_inverse _ Hc) in Hi as (g & -> & Hg). cbn [mbind option_bind].
    rewrite (proj2 (mapM_Some _ _ (tensor_shape t))).
    + cbn. rewrite Hg, Hs, Ht. by destruct t.
    + apply Forall2_flip. eapply Forall2_impl; [exact Hd|]. intros d k Hdk. by apply (dims_inverse _ _ (conv_dims _ Hc)).
  - destruct s'; try done. by intros [-> _].
  - intros (k & -> & Hk). cbn. by rewrite Nat2Z.id, Hk.
Qed.
Lemma decode_op_encodes c o o' : converter_ok c → encodes_op c o o' → decode c o' = Some o.
Proof.
  intros Hc [Ht Hp]. unfold decode. rewrite (proj2 (mapM_Some _ _ (parts o))).
  - cbn. rewrite Ht. by destruct o.
  - apply Forall2_flip. eapply Forall2_impl; [exact Hp|]. intros p p'. by apply decode_encodes.
Qed.

(** ** Renaming *)

(** A one-to-one correspondence of tensors and one of dimensions that keeps the
    dimension 1. *)
Record renaming (LI LD : N → N → Prop) : Prop := {
  ren_ids : ∀ i1 i2 j1 j2, LI i1 i2 → LI j1 j2 → (i1 = j1 ↔ i2 = j2);
  ren_dims : ∀ d1 d2 e1 e2, LD d1 d2 → LD e1 e2 → (d1 = e1 ↔ d2 = e2);
  ren_one : ∀ d1 d2, LD d1 d2 → (d1 = 1 ↔ d2 = 1)
}.
Definition part_like (LI LD : N → N → Prop) (p q : Part) : Prop :=
  match p, q with
  | PTensor t, PTensor u =>
      LI (tensor_id t) (tensor_id u) ∧ Forall2 LD (tensor_shape t) (tensor_shape u) ∧
      status t = status u ∧ dtype t = dtype u
  | PScalar _, PScalar _ => convertible p ∧ convertible q
  | PSlice _, PSlice _ => True
  | _, _ => False
  end.
Definition op_like (LI LD : N → N → Prop) (o o' : Operation) : Prop :=
  tag o = tag o' ∧ Forall2 (part_like LI LD) (parts o) (parts o').
Definition same_up_to_renaming (l l' : list Operation) : Prop :=
  ∃ LI LD, renaming LI LD ∧ Forall2 (op_like LI LD) l l'.

Lemma rel_id_convert t c i k :
  rel_id (convert_tensor t c).2 i k ↔ if decide (i = tensor_id t) then k = id_to_relative c i else rel_id c i k.
Proof.
  unfold convert_tensor. destruct (dims_to_relative _ _ _) as [[shape a] b]. unfold rel_id at 1. cbn.
  case_decide as Hi; [subst i; rewrite lookup_insert_eq; naive_solver|by rewrite lookup_insert_ne].
Qed.

Section linked.
Context {E : Type} (LI LD : N → N → Prop) (Hren : renaming LI LD).
(** Two converters that have seen the same up to the renaming. *)
Definition dims_linked (a1 a2 : gmap N N) : Prop :=
  (∀ d1 d2, LD d1 d2 → a1 !! d1 = a2 !! d2) ∧ count a1 = count a2.
Record linked (c1 c2 : OperationConverter) : Prop := {
  lk_ok1 : converter_ok c1;
  lk_ok2 : converter_ok c2;
  lk_ids : ∀ i1 i2 j, LI i1 i2 → rel_id c1 i1 j ↔ rel_id c2 i2 j;
  lk_count : count (tensors_relative2global c1) = count (tensors_relative2global c2);
  lk_dims : dims_linked (shapes_global2relative c1) (shapes_global2relative c2);
  lk_scalars : count (scalars c1) = count (scalars c2);
  lk_ranges : length (ranges c1) = length (ranges c2)
}.
Lemma dims_linked_ok ds1 ds2 a1 b1 a2 b2 :
  Forall2 LD ds1 ds2 → dims_linked a1 a2 →
  (dims_to_relative a1 b1 ds1).1.1 = (dims_to_relative a2 b2 ds2).1.1 ∧
  dims_linked (dims_to_relative a1 b1 ds1).1.2 (dims_to_relative a2 b2 ds2).1.2.
Proof.
  intros Hf. revert a1 b1 a2 b2. induction Hf as [|d1 d2 ds1 ds2 Hd Hf IH]; intros a1 b1 a2 b2 [Hl Hc]; [done|]. cbn [dims_to_relative].
  rewrite (Hl _ _ Hd). destruct (a2 !! d2) as [k|] eqn:H2.
  - specialize (IH a1 b1 a2 b2 (conj Hl Hc)). destruct (dims_to_relative a1 b1 ds1) as [[? ?] ?], (dims_to_relative a2 b2 ds2) as [[? ?] ?].
    cbn in *. destruct IH as [-> ?]. done.
  - rewrite Hc. specialize (IH (<[d1 := count a2]> a1) (<[count a2 := d1]> b1) (<[d2 := count a2]> a2) (<[count a2 := d2]> b2)).
    destruct (dims_to_relative (<[d1 := count a2]> a1) _ ds1) as [[? ?] ?], (dims_to_relative (<[d2 := count a2]> a2) _ ds2) as [[? ?] ?].
    cbn in *. destruct IH as [-> ?]; [|done]. split.
    + intros e1 e2 He. destruct (decide (e1 = d1)) as [->|Hne].
      * assert (e2 = d2) as -> by (by apply (ren_dims _ _ Hren d1 e2 d1 d2)). by rewrite !lookup_insert_eq.
      * rewrite !lookup_insert_ne; [by apply Hl| |done]. intros Heq. apply Hne. symmetry in Heq. by apply (ren_dims _ _ Hren e1 e2 d1 d2).
    + rewrite !count_insert_new by (rewrite ?(Hl _ _ Hd); done). lia.
Qed.
Lemma id_linked c1 c2 i1 i2 : linked c1 c2 → LI i1 i2 → id_to_relative c1 i1 = id_to_relative c2 i2.
Proof.
  intros Hl Hi. pose proof (lk_ids _ _ Hl i1 i2) as Hids. unfold id_to_relative.
  destruct (tensors_global2relative c1 !! i1) as [t1|] eqn:H1.
  - destruct (proj1 (Hids (tensor_id t1) Hi)) as (t2 & -> & <-); [by exists t1|done].
  - destruct (tensors_global2relative c2 !! i2) as [t2|] eqn:H2; [|apply Hl].
    destruct (proj2 (Hids (tensor_id t2) Hi)) as (t1 & Ht1 & _); [by exists t2|congruence].
Qed.
Lemma tensor_linked t1 t2 c1 c2 :
  linked c1 c2 → part_like LI LD (PTensor t1) (PTensor t2) →
  (convert_tensor t1 c1).1 = (convert_tensor t2 c2).1 ∧ linked (convert_tensor t1 c1).2 (convert_tensor t2 c2).2.
Proof.
  intros Hl (Hi & Hs & Hst & Hdt). pose proof (id_linked _ _ _ _ Hl Hi) as Hid.
  destruct (convert_tensor_ok t1 c1 (lk_ok1 _ _ Hl)) as (O1 & _ & _ & N1).
  destruct (convert_tensor_ok t2 c2 (lk_ok2 _ _ Hl)) as (O2 & _ & _ & N2).
  assert (count (tensors_relative2global (convert_tensor t1 c1).2) = count (tensors_relative2global (convert_tensor t2 c2).2)) as Hcount.
  { rewrite N1, N2, (lk_count _ _ Hl). f_equal. pose proof (lk_ids _ _ Hl (tensor_id t1) (tensor_id t2)) as Hids.
    destruct (tensors_global2relative c1 !! tensor_id t1) as [x|] eqn:H1, (tensors_global2relative c2 !! tensor_id t2) as [y|] eqn:H2; try done.
    - destruct (proj1 (Hids (tensor_id x) Hi)) as (z & Hz & _); [by exists x|congruence].
    - destruct (proj2 (Hids (tensor_id y) Hi)) as (z & Hz & _); [by exists y|congruence]. }
  assert (∀ i1 i2 j, LI i1 i2 → rel_id (convert_tensor t1 c1).2 i1 j ↔ rel_id (convert_tensor t2 c2).2 i2 j) as Hids.
  { intros i1 i2 j Hi12. rewrite !rel_id_convert. pose proof (ren_ids _ _ Hren _ _ _ _ Hi12 Hi) as Hiff.
    destruct (decide (i1 = tensor_id t1)) as [->|Hne].
    - rewrite decide_True by (by apply Hiff). by rewrite (id_linked _ _ _ _ Hl Hi12).
    - rewrite decide_False by (rewrite <-Hiff; done). by apply Hl. }
  unfold convert_tensor in *. destruct (dims_linked_ok _ _ _ (shapes_relative2global c1) _ (shapes_relative2global c2) Hs (lk_dims _ _ Hl)) as [Hd1 Hd2].
  destruct (dims_to_relative (shapes_global2relative c1) _ _) as [[l1 a1] b1], (dims_to_relative (shapes_global2relative c2) _ _) as [[l2 a2] b2].
  cbn [fst snd] in *. rewrite Hid, Hst, Hdt, Hd1. split; [done|]. rewrite Hid, Hst, Hdt, Hd1 in *.
  constructor; [done|done|done|done|done|apply Hl|apply Hl].
Qed.
Lemma part_linked p1 p2 c1 c2 :
  linked c1 c2 → part_like LI LD p1 p2 →
  ∃ p c1' c2', part_to_relative (E:=E) p1 c1 = Ok (p, c1') ∧ part_to_relative (E:=E) p2 c2 = Ok (p, c2') ∧ linked c1' c2'.
Proof.
  intros Hl Hp. destruct p1 as [t1|s1|s1], p2 as [t2|s2|s2]; cbn [part_like] in Hp; try done.
  - destruct (tensor_linked t1 t2 c1 c2 Hl Hp) as [H1 H2]. cbn [part_to_relative]. rewrite !tensor_to_relative_convert, <-H1. eauto 10.
  - destruct Hp as [Hp1 Hp2]. destruct (part_to_relative_ok (E:=E) (PScalar s1) c1 (lk_ok1 _ _ Hl) Hp1) as (p & c1' & H1 & O1 & _).
    destruct (part_to_relative_ok (E:=E) (PScalar s2) c2 (lk_ok2 _ _ Hl) Hp2) as (p' & c2' & H2 & O2 & _).
    rewrite H1, H2. destruct Hl as [K1 K2 K3 K4 K5 K6 K7]. cbn [part_to_relative] in H1, H2.
    apply res_bind_Ok in H1 as (x & H1 & [= <- <-]). apply res_bind_Ok in H2 as (y & H2 & [= <- <-]).
    assert (x = (UInt (count (scalars c1)), mkConverter (tensors_relative2global c1) (tensors_global2relative c1) (shapes_global2relative c1)
      (shapes_relative2global c1) (<[count (scalars c1) := s1]> (scalars c1)) (ranges c1))) as -> by (destruct s1; cbn in H1; congruence).
    assert (y = (UInt (count (scalars c2)), mkConverter (tensors_relative2global c2) (tensors_global2relative c2) (shapes_global2relative c2)
      (shapes_relative2global c2) (<[count (scalars c2) := s2]> (scalars c2)) (ranges c2))) as -> by (destruct s2; cbn in H2; congruence).
    cbn [fst snd] in *. rewrite K6. eexists _, _, _. split; [done|]. split; [done|]. constructor; [by rewrite <-K6|done|done|done|done| |done].
    assert (scalars c1 !! count (scalars c2) = None) as N1 by (apply eq_None_not_Some; rewrite (conv_scalars _ K1); lia).
    assert (scalars c2 !! count (scalars c2) = None) as N2 by (apply eq_None_not_Some; rewrite (conv_scalars _ K2); lia).
    cbn [scalars]. rewrite (count_insert_new _ _ _ N1), (count_insert_new _ _ _ N2). lia.
  - cbn [part_to_relative]. unfold slice_to_relative. rewrite (lk_ranges _ _ Hl). eexists _, _, _. split; [done|]. split; [done|].
    destruct Hl as [[] [] K3 K4 K5 K6 K7]. constructor; [by constructor|by constructor|done|done|done|done|]. cbn. rewrite !length_app, K7. done.
Qed.
Lemma parts_linked ps1 ps2 c1 c2 :
  linked c1 c2 → Forall2 (part_like LI LD) ps1 ps2 →
  ∃ ps c1' c2', parts_to_relative (E:=E) ps1 c1 = Ok (ps, c1') ∧ parts_to_relative (E:=E) ps2 c2 = Ok (ps, c2') ∧ linked c1' c2'.
Proof.
  intros Hl Hf. revert c1 c2 Hl. induction Hf as [|p1 p2 ps1 ps2 Hp Hf IH]; intros c1 c2 Hl; cbn [parts_to_relative]; [eauto 10|].
  destruct (part_linked p1 p2 c1 c2 Hl Hp) as (p & c1' & c2' & -> & -> & Hl'). cbn [res_bind fst snd].
  destruct (IH c1' c2' Hl') as (ps & c1'' & c2'' & -> & -> & Hl''). cbn [res_bind fst snd]. eauto 10.
Qed.
Lemma all_linked os1 os2 c1 c2 :
  linked c1 c2 → Forall2 (op_like LI LD) os1 os2 →
  ∃ os c1' c2', all_to_relative (E:=E) os1 c1 = Ok (os, c1') ∧ all_to_relative (E:=E) os2 c2 = Ok (os, c2') ∧ linked c1' c2'.
Proof.
  intros Hl Hf. revert c1 c2 Hl. induction Hf as [|o1 o2 os1 os2 [Ht Hp] Hf IH]; intros c1 c2 Hl; cbn [all_to_relative]; [eauto 10|].
  unfold to_relative. destruct (parts_linked _ _ c1 c2 Hl Hp) as (ps & c1' & c2' & -> & -> & Hl'). cbn [res_bind fst snd].
  destruct (IH c1' c2' Hl') as (os & c1'' & c2'' & -> & -> & Hl''). cbn [res_bind fst snd]. rewrite Ht. eauto 10.
Qed.
Lemma linked_new : linked converter_new converter_new.
Proof.
  constructor; [apply converter_new_ok|apply converter_new_ok| |done| |done|done].
  - intros i1 i2 j _. split; by intros (t & ? & _).
  - split; [|done]. intros d1 d2 Hd. cbn. destruct (decide (d1 = 1)) as [->|Hne].
    + assert (d2 = 1) as -> by (by apply (ren_one _ _ Hren 1 d2)). done.
    + rewrite !lookup_singleton_ne; [done| |done]. intros <-. apply Hne. by apply (ren_one _ _ Hren d1 1).
Qed.
End linked.

(** Two sequences with the same relative form are the same up to the renaming that the
    two converters compose to. *)
Lemma same_form_renaming c1 c2 :
  converter_ok c1 → converter_ok c2 →
  renaming (λ i1 i2, ∃ j, rel_id c1 i1 j ∧ rel_id c2 i2 j)
    (λ d1 d2, ∃ k, shapes_global2relative c1 !! d1 = Some k ∧ shapes_global2relative c2 !! d2 = Some k).
Proof.
  intros H1 H2. pose proof (conv_dims _ H1) as D1. pose proof (conv_dims _ H2) as D2. constructor.
  - intros i1 i2 j1 j2 (a & A1 & A2) (b & B1 & B2). split; intros <-.
    + rewrite (rel_id_fun _ _ _ _ B1 A1) in B2. by apply (rel_id_inj c2 _ _ a).
    + rewrite (rel_id_fun _ _ _ _ B2 A2) in B1. by apply (rel_id_inj c1 _ _ a).
  - intros d1 d2 e1 e2 (a & A1 & A2) (b & B1 & B2). split; intros <-; [apply (dims_inj _ _ _ _ a D2)|apply (dims_inj _ _ _ _ a D1)]; congruence.
  - intros d1 d2 (a & A1 & A2). split; intros ->.
    + apply (dims_inj _ _ _ _ a D2); [done|]. rewrite (dims_one _ _ D1) in A1. rewrite (dims_one _ _ D2). done.
    + apply (dims_inj _ _ _ _ a D1); [done|]. rewrite (dims_one _ _ D2) in A2. rewrite (dims_one _ _ D1). done.
Qed.
Lemma same_form_like c1 c2 p1 p2 p :
  encodes c1 p1 p → encodes c2 p2 p →
  part_like (λ i1 i2, ∃ j, rel_id c1 i1 j ∧ rel_id c2 i2 j)
    (λ d1 d2, ∃ k, shapes_global2relative c1 !! d1 = Some k ∧ shapes_global2relative c2 !! d2 = Some k) p1 p2.
Proof.
  destruct p as [t|s|s], p1 as [t1|s1|s1], p2 as [t2|s2|s2]; cbn [encodes part_like]; try done.
  - intros (I1 & D1 & S1 & T1) (I2 & D2 & S2 & T2). split; [eauto|]. split; [|split; congruence].
    revert D1 D2. unfold encodes_dims. generalize (tensor_shape t1) (tensor_shape t2) (tensor_shape t). clear.
    intros l1 l2 l D1. revert l2. induction D1 as [|d1 k l1 l Hd D1 IH]; intros l2 D2; inversion D2; subst; constructor; eauto.
  - destruct s; try done. intros [_ H1] [_ H2]. split; intros i d [=]; naive_solver.
Qed.
Lemma Forall2_both {A B C} (R : A → C → Prop) (S : B → C → Prop) (T : A → B → Prop) l k m :
  (∀ x y z, R x z → S y z → T x y) → Forall2 R l m → Forall2 S k m → Forall2 T l k.
Proof.
  intros Hrst Hl. revert k. induction Hl as [|x z l m Hx Hl IH]; intros k Hk; inversion Hk; subst; constructor; eauto.
Qed.

(** Looking a tensor up is only a shortcut: when the converter has seen the tensor
    with the same shape and returns the recorded relative tensor, the result and the
    state of the converter are those of converting it afresh. *)
Theorem known_tensor_shortcut t c : tensor_to_relative t c = convert_tensor t c.
Proof. apply tensor_to_relative_convert. Qed.

(** The relative form loses nothing that the context of a fused operation cannot
    give back: decoding the relative operations with the tables of the converter, after
    all of them have been converted, returns the operations with their tensors, shapes,
    scalars and slices. *)
Theorem relative_roundtrip {E} os os' c :
  all_to_relative (E:=E) os converter_new = Ok (os', c) → mapM (decode c) os' = Some os.
Proof.
  intros Hr. destruct (all_to_relative_ok (E:=E) os converter_new converter_new_ok (all_convertible _ _ _ Hr)) as (r & c' & Hr' & Hc & _ & Henc).
  rewrite Hr in Hr'. injection Hr' as -> ->. apply mapM_Some. apply Forall2_flip. eapply Forall2_impl; [exact Henc|].
  intros o o'. by apply decode_op_encodes.
Qed.

(** Lists with the same relative form are renamings of each other, and renamings have
    the same form. *)
Lemma same_form_same {E} l1 l2 r c1 c2 :
  all_to_relative (E:=E) l1 converter_new = Ok (r, c1) → all_to_relative (E:=E) l2 converter_new = Ok (r, c2) →
  same_up_to_renaming l1 l2.
Proof.
  intros H1 H2. destruct (all_to_relative_ok (E:=E) l1 _ converter_new_ok (all_convertible _ _ _ H1)) as (? & ? & Hr1 & O1 & _ & E1).
  rewrite H1 in Hr1. injection Hr1 as <- <-.
  destruct (all_to_relative_ok (E:=E) l2 _ converter_new_ok (all_convertible _ _ _ H2)) as (? & ? & Hr2 & O2 & _ & E2).
  rewrite H2 in Hr2. injection Hr2 as <- <-.
  eexists _, _. split; [exact (same_form_renaming c1 c2 O1 O2)|]. eapply Forall2_both; [|exact E1|exact E2].
  intros o1 o2 o [T1 P1] [T2 P2]. split; [congruence|]. eapply Forall2_both; [|exact P1|exact P2].
  intros p1 p2 p. apply same_form_like.
Qed.
Lemma same_drop_form {E} l1 l2 k :
  same_up_to_renaming l1 l2 →
  ∃ r c1 c2, all_to_relative (E:=E) (drop k l1) converter_new = Ok (r, c1) ∧ all_to_relative (E:=E) (drop k l2) converter_new = Ok (r, c2).
Proof.
  intros (LI & LD & Hren & Hf).
  destruct (all_linked (E:=E) LI LD Hren (drop k l1) (drop k l2) _ _ (linked_new LI LD Hren)) as (r & a & b & Ha & Hb & _); [|eauto].
  by apply Forall2_drop.
Qed.

Definition add_op (a b out : N) (dim : N) (x : N) : Operation :=
  let t i st := PTensor (mkTensor i [dim; 1] st 0) in
  mkOp 3 [t a ReadOnly; t b ReadWrite; t out NotInit; PScalar (Float x); PSlice (mkSlice 2 None 1)].
Lemma relative_roundtrip_witness :
  ∃ r c, all_to_relative (E:=unit) [add_op 10 20 30 7 5; add_op 30 10 40 7 6] converter_new = Ok (r, c) ∧
    mapM (decode c) r = Some [add_op 10 20 30 7 5; add_op 30 10 40 7 6].
Proof.
  destruct (all_to_relative (E:=unit) [add_op 10 20 30 7 5; add_op 30 10 40 7 6] converter_new) as [[r c]| |] eqn:Hr;
    [|vm_compute in Hr; discriminate|vm_compute in Hr; discriminate].
  exists r, c. split; [done|]. exact (relative_roundtrip _ _ _ Hr).
Defined.
