(* ===== verification/FusionStore.v ===== *)
(** * The plan store and the policy

    [ruda-fusion/src/stream/]: [store/base.rs] (plans, triggers, cached sequences),
    [store/index.rs] (plans by their first operation), [execution/validator.rs] and
    [execution/policy.rs] (which plans the current operations can still become).

    The two hashes are parameters: nothing below depends on their values.  Plan ids and
    positions are [nat]. *)

From S2P Require Import Prelude FusionGraph FusionSearch.
Open Scope nat_scope.

(** ** Plans *)

Inductive ExecutionTrigger (Op : Type) := OnOperations (ops : list Op) | OnSync | Always.
Arguments OnOperations {Op}.
Arguments OnSync {Op}.
Arguments Always {Op}.
#[export] Instance ExecutionTrigger_eq_dec `{EqDecision Op} : EqDecision (ExecutionTrigger Op).
Proof. solve_decision. Defined.
Record ExecutionPlan (Op Opt : Type) := mkPlan {
  plan_operations : list Op;
  triggers : list (ExecutionTrigger Op);
  optimization : BlockOptimization Opt
}.
Arguments mkPlan {Op Opt}.
Arguments plan_operations {Op Opt}.
Arguments triggers {Op Opt}.
Arguments optimization {Op Opt}.
Record ExecutionPlanIndex (Op : Type) := mkIndex { mapping : gmap N (list (Op * nat)); starters : list (list nat) }.
Arguments mkIndex {Op}.
Arguments mapping {Op}.
Arguments starters {Op}.
Record ExecutionPlanStore (Op Opt : Type) := mkStore {
  plans : list (ExecutionPlan Op Opt);
  index : ExecutionPlanIndex Op;
  sync_sequences : gmap N (list (list Op * list nat))
}.
Arguments mkStore {Op Opt}.
Arguments plans {Op Opt}.
Arguments index {Op Opt}.
Arguments sync_sequences {Op Opt}.

(** [DefaultHasher] on an operation and on a list of operations. *)
Class OperationHash (Op : Type) := { operation_key : Op → N; sequence_key : list Op → N }.

Section index.
Context {E Op : Type} `{!EqDecision Op, !OperationHash Op}.
Implicit Types (ix : ExecutionPlanIndex Op) (op : Op).

Definition find_entry (op : Op) (l : list (Op * nat)) : option nat :=
  snd <$> head (filter (λ v, v.1 = op) l).
Definition find_starting_with ix op : list nat :=
  match mapping ix !! operation_key op with
  | None => []
  | Some values =>
      match find_entry op values with
      | None => []
      | Some i => default [] (starters ix !! i)
      end
  end.
Definition insert_new_operation ix op (new_id : nat) : res E (ExecutionPlanIndex Op) :=
  let key := operation_key op in
  match mapping ix !! key with
  | None =>
      Ok (mkIndex (<[key := [(op, length (starters ix))]]> (mapping ix)) (starters ix ++ [[new_id]]))
  | Some values =>
      match find_entry op values with
      | None =>
          Ok (mkIndex (<[key := values ++ [(op, length (starters ix))]]> (mapping ix)) (starters ix ++ [[new_id]]))
      | Some i =>
          match starters ix !! i with
          | None => Panic
          | Some ids => Ok (mkIndex (mapping ix) (<[i := ids ++ [new_id]]> (starters ix)))
          end
      end
  end.
Definition index_insert ix (ops : list Op) (id : nat) : res E (ExecutionPlanIndex Op) :=
  match ops with
  | op :: _ => insert_new_operation ix op id
  | [] => Ok ix
  end.
End index.

Section store.
Context {E Op Opt : Type} `{!EqDecision Op, !OperationHash Op}.
Abbreviation Store := (ExecutionPlanStore Op Opt).
Implicit Types (s : Store) (op : Op) (ops : list Op).

Definition store_new : Store := mkStore [] (mkIndex ∅ []) ∅.
Definition store_find s op : list nat := find_starting_with (index s) op.
Definition find_sync_sequence s ops : option (list nat) :=
  match sync_sequences s !! sequence_key ops with
  | None => None
  | Some l => snd <$> head (filter (λ q, q.1 = ops) l)
  end.
(** Replacing the plans of the first sequence with these operations, if there is one. *)
Fixpoint replace_sequence ops (ids : list nat) (l : list (list Op * list nat)) : option (list (list Op * list nat)) :=
  match l with
  | [] => None
  | q :: l =>
      if decide (q.1 = ops) then Some ((ops, ids) :: l)
      else (q ::.) <$> replace_sequence ops ids l
  end.
Definition add_sync_sequence s ops (ids : list nat) : Store :=
  if length ids <? 2 then s
  else
    let key := sequence_key ops in
    let l := default [] (sync_sequences s !! key) in
    mkStore (plans s) (index s)
      (<[key := default (l ++ [(ops, ids)]) (replace_sequence ops ids l)]> (sync_sequences s)).
Definition store_add s (p : ExecutionPlan Op Opt) : res E (Store * nat) :=
  if bool_decide (plan_operations p = []) then Panic
  else
    let id := length (plans s) in
    let? ix := index_insert (index s) (plan_operations p) id in
    Ok (mkStore (plans s ++ [p]) ix (sync_sequences s), id).
Definition get_unchecked s (id : nat) : res E (ExecutionPlan Op Opt) := get (plans s) id.
Definition add_trigger s (id : nat) (t : ExecutionTrigger Op) : res E Store :=
  let? p := get (plans s) id in
  Ok (if decide (t ∈ triggers p) then s
      else mkStore (<[id := mkPlan (plan_operations p) (triggers p ++ [t]) (optimization p)]> (plans s))
             (index s) (sync_sequences s)).
End store.

(** ** Validators *)

Inductive ValidatorState := Found (size : nat) | Invalidated | Validating.
Record OperationsValidator := mkValidator { v_id : nat; v_state : ValidatorState }.
Definition validator_new (id : nat) : OperationsValidator := mkValidator id Validating.
(** [item] is what the operations store holds for the validator's id. *)
Definition validator_update `{EqDecision Op} (added : Op) (added_position : nat) (item : list Op)
    (v : OperationsValidator) : OperationsValidator :=
  match v_state v with
  | Found _ | Invalidated => v
  | Validating =>
      match item !! added_position with
      | None => mkValidator (v_id v) Invalidated
      | Some candidate =>
          if decide (candidate ≠ added) then mkValidator (v_id v) Invalidated
          else if length item =? added_position + 1 then mkValidator (v_id v) (Found (length item))
          else v
      end
  end.
(** The progress is [None] until the validation has started. *)
Inductive TriggerValidator :=
  | ValidateOperations (matching : OperationsValidator) (progress : option nat)
  | ValidateAlways
  | ValidateSync.
Record AvailableItem := mkAvailable { av_id : nat; av_size : nat; av_triggers : list TriggerValidator }.

(** ** The policy *)

Record Policy := mkPolicy {
  candidates : list OperationsValidator;
  availables : list AvailableItem;
  found : option (nat * nat);
  analyzed : nat
}.
Inductive Action := Explore | Defer | Execute (id : nat).
Inductive ExecutionMode := Lazy | Sync.

Section policy.
Context {E Op Opt : Type} `{!EqDecision Op, !OperationHash Op}.
Abbreviation Store := (ExecutionPlanStore Op Opt).
Implicit Types (s : Store) (op : Op) (ops : list Op) (p : Policy).

Definition policy_new : Policy := mkPolicy [] [] None 0.

Definition action_lazy p ops : Action :=
  match candidates p with
  | _ :: _ => Defer
  | [] =>
      if existsb (λ a, (av_size a =? length ops) ||
           existsb (λ t, match t with
                         | ValidateOperations m _ => match v_state m with Validating => true | _ => false end
                         | _ => false
                         end) (av_triggers a)) (availables p)
      then Defer else Explore
  end.
Fixpoint sync_candidate s ops (l : list OperationsValidator) : res E Action :=
  match l with
  | [] => Ok Explore
  | c :: l =>
      let? item := get_unchecked s (v_id c) in
      if length (plan_operations item) =? length ops then Ok (Execute (v_id c)) else sync_candidate s ops l
  end.
Definition action_sync p s ops : res E Action :=
  match head (filter (λ a, av_size a = length ops) (availables p)) with
  | Some a => Ok (Execute (av_id a))
  | None => sync_candidate s ops (candidates p)
  end.
Definition action p s ops (mode : ExecutionMode) : res E Action :=
  if analyzed p <? length ops then Panic
  else
    match found p with
    | Some (id, len) =>
        if len <=? length ops then Ok (Execute id)
        else match mode with Lazy => Ok (action_lazy p ops) | Sync => action_sync p s ops end
    | None => match mode with Lazy => Ok (action_lazy p ops) | Sync => action_sync p s ops end
    end.

Definition update_candidates s op (n : nat) (l : list OperationsValidator) : res E (list OperationsValidator) :=
  res_mapM (λ c, let? item := get_unchecked s (v_id c) in Ok (validator_update op n (plan_operations item) c)) l.
(** The validators of the triggers of a plan, by their position. *)
Definition trigger_validators (ts : list (ExecutionTrigger Op)) : list TriggerValidator :=
  imap (λ i t, match t with
               | OnOperations _ => ValidateOperations (validator_new i) None
               | OnSync => ValidateSync
               | Always => ValidateAlways
               end) ts.
Fixpoint check_candidates s (l : list OperationsValidator) : res E (list OperationsValidator * list AvailableItem) :=
  match l with
  | [] => Ok ([], [])
  | c :: l =>
      match v_state c with
      | Found size =>
          let? item := get_unchecked s (v_id c) in
          let? r := check_candidates s l in
          Ok (r.1, mkAvailable (v_id c) size (trigger_validators (triggers item)) :: r.2)
      | Invalidated => check_candidates s l
      | Validating => let? r := check_candidates s l in Ok (c :: r.1, r.2)
      end
  end.
(** [TriggerOperationsStore::get] *)
Definition trigger_operations s (plan trigger : nat) : res E (list Op) :=
  let? item := get_unchecked s plan in
  let? t := get (triggers item) trigger in
  Ok (match t with OnOperations ops => ops | _ => [] end).
Definition update_trigger s op (plan : nat) (t : TriggerValidator) : res E TriggerValidator :=
  match t with
  | ValidateOperations m None => Ok (ValidateOperations m (Some 0))
  | ValidateOperations m (Some n) =>
      (* a validator that has ended does not consult the store *)
      match v_state m with
      | Validating =>
          let? item := trigger_operations s plan (v_id m) in
          Ok (ValidateOperations (validator_update op n item m) (Some (S n)))
      | _ => Ok (ValidateOperations m (Some (S n)))
      end
  | t => Ok t
  end.
Definition update_availables s op (l : list AvailableItem) : res E (list AvailableItem) :=
  res_mapM (λ a, let? ts := res_mapM (update_trigger s op (av_id a)) (av_triggers a) in
                 Ok (mkAvailable (av_id a) (av_size a) ts)) l.
Definition triggered (t : TriggerValidator) : bool :=
  match t with
  | ValidateOperations m _ => match v_state m with Found _ => true | _ => false end
  | ValidateAlways => true
  | ValidateSync => false
  end.
Definition check_availables (l : list AvailableItem) (f : option (nat * nat)) : option (nat * nat) :=
  match head (filter (λ a, existsb triggered (av_triggers a) = true) l) with
  | Some a => Some (av_id a, av_size a)
  | None => f
  end.
Definition update p s op : res E Policy :=
  let cs := if analyzed p =? 0 then validator_new <$> store_find s op else candidates p in
  let? cs := update_candidates s op (analyzed p) cs in
  let? r := check_candidates s cs in
  let? avs := update_availables s op (availables p ++ r.2) in
  Ok (mkPolicy r.1 avs (check_availables avs (found p)) (S (analyzed p))).
Definition policy_reset (p : Policy) : Policy := mkPolicy [] [] None 0.
End policy.
