(* ===== verification/FusionPolicy.v ===== *)
(** * The policy matches plans exactly

    The index lists the plans that start with an operation; the policy offers a plan for
    execution only when its operations are a prefix of the current ones, and offers
    every plan that is. *)

From S2P Require Import Prelude FusionGraph FusionSearch FusionStore.
Open Scope nat_scope.

Lemma filter_ext_in {A} (P Q : A → Prop) `{∀ x, Decision (P x)} `{∀ x, Decision (Q x)} (l : list A) :
  (∀ x, x ∈ l → P x ↔ Q x) → filter P l = filter Q l.
Proof.
  induction l as [|x l IH]; intros Hpq; [done|]. rewrite !filter_cons, IH by (intros y Hy; apply Hpq; by right).
  specialize (Hpq x ltac:(by left)). case_decide; case_decide; naive_solver.
Qed.

(** ** The index *)

Section index.
Context {E Op : Type} `{!EqDecision Op, !OperationHash Op}.
Implicit Types (ix : ExecutionPlanIndex Op) (op : Op).

Lemma find_entry_app op (l k : list (Op * nat)) :
  find_entry op (l ++ k) = match find_entry op l with Some i => Some i | None => find_entry op k end.
Proof. unfold find_entry. rewrite filter_app. by destruct (filter (λ v, v.1 = op) l). Qed.
Lemma find_entry_one op op' i : find_entry op [(op', i)] = if decide (op' = op) then Some i else None.
Proof. unfold find_entry. rewrite filter_cons. cbn. by case_decide. Qed.
Definition entry ix op : option nat :=
  match mapping ix !! operation_key op with Some values => find_entry op values | None => None end.
Record index_ok ix (starting : Op → list nat) : Prop := {
  entry_bound : ∀ op i, entry ix op = Some i → i < length (starters ix);
  entry_inj : ∀ op op' i, entry ix op = Some i → entry ix op' = Some i → op = op';
  entry_find : ∀ op, find_starting_with ix op = starting op
}.
Lemma find_entry_starting ix op :
  find_starting_with ix op = match entry ix op with Some i => default [] (starters ix !! i) | None => [] end.
Proof. unfold find_starting_with, entry. by destruct (mapping ix !! operation_key op). Qed.
(** A fresh entry for [op]. *)
Lemma index_new_entry ix op id starting m :
  index_ok ix starting → entry ix op = None →
  (∀ op', entry (mkIndex m (starters ix ++ [[id]])) op' = if decide (op' = op) then Some (length (starters ix)) else entry ix op') →
  index_ok (mkIndex m (starters ix ++ [[id]])) (λ op', starting op' ++ (if decide (op' = op) then [id] else [])).
Proof.
  intros Hok Hn Hm. constructor.
  - intros op' i. rewrite Hm. cbn [starters]. rewrite length_app. cbn. case_decide; [intros [= <-]; lia|].
    intros Hi%(entry_bound _ _ Hok). lia.
  - intros op1 op2 i. rewrite !Hm. do 2 case_decide; subst; [done| | |apply (entry_inj _ _ Hok)].
    + intros [= <-] Hi%(entry_bound _ _ Hok). lia.
    + intros Hi%(entry_bound _ _ Hok) [= <-]. lia.
  - intros op'. rewrite find_entry_starting, Hm, <-(entry_find _ _ Hok), find_entry_starting. cbn [starters]. case_decide as Heq.
    + subst op'. rewrite Hn, lookup_app_r, Nat.sub_diag by lia. done.
    + rewrite app_nil_r. destruct (entry ix op') as [i|] eqn:Hi; [|done]. apply (entry_bound _ _ Hok) in Hi. by rewrite lookup_app_l.
Qed.
Lemma insert_new_operation_ok ix op id starting :
  index_ok ix starting →
  ∃ ix', insert_new_operation (E:=E) ix op id = Ok ix' ∧
    index_ok ix' (λ op', starting op' ++ (if decide (op' = op) then [id] else [])).
Proof.
  intros Hok. unfold insert_new_operation. destruct (mapping ix !! operation_key op) as [values|] eqn:Hv.
  - destruct (find_entry op values) as [i|] eqn:Hf.
    + assert (entry ix op = Some i) as He by (unfold entry; by rewrite Hv).
      destruct (lookup_lt_is_Some_2 _ _ (entry_bound _ _ Hok _ _ He)) as [ids Hids]. rewrite Hids. eexists. split; [done|]. constructor.
      * intros op' j. cbn [starters]. rewrite length_insert. apply (entry_bound _ _ Hok).
      * apply (entry_inj _ _ Hok).
      * intros op'. rewrite find_entry_starting, <-(entry_find _ _ Hok), find_entry_starting. cbn [starters].
        change (entry (mkIndex (mapping ix) (<[i := ids ++ [id]]> (starters ix))) op') with (entry ix op').
        destruct (entry ix op') as [j|] eqn:Hj; [|case_decide; [subst; congruence|done]]. case_decide as Heq.
        -- subst op'. assert (j = i) as -> by congruence. rewrite list_lookup_insert_eq by (by apply lookup_lt_Some in Hids). by rewrite Hids.
        -- rewrite list_lookup_insert_ne, app_nil_r; [done|]. intros ->. apply Heq. by apply (entry_inj _ _ Hok op' op j).
    + eexists. split; [done|]. apply index_new_entry; [done|unfold entry; by rewrite Hv|]. intros op'. unfold entry. cbn [mapping].
      destruct (decide (operation_key op' = operation_key op)) as [Hk|Hk].
      * rewrite Hk, lookup_insert_eq, Hv, find_entry_app, find_entry_one. case_decide; case_decide; subst; try done; [by rewrite Hf|].
        by destruct (find_entry op' values).
      * rewrite lookup_insert_ne by done. by rewrite decide_False by (intros ->; done).
  - eexists. split; [done|]. apply index_new_entry; [done|unfold entry; by rewrite Hv|]. intros op'. unfold entry. cbn [mapping].
    destruct (decide (operation_key op' = operation_key op)) as [Hk|Hk].
    + rewrite Hk, lookup_insert_eq, Hv, find_entry_one. case_decide; case_decide; by subst.
    + rewrite lookup_insert_ne by done. by rewrite decide_False by (intros ->; done).
Qed.
End index.

(** ** The store *)

Section store.
Context {E Op Opt : Type} `{!EqDecision Op, !OperationHash Op}.
Abbreviation Store := (ExecutionPlanStore Op Opt).
Implicit Types (s : Store) (op : Op) (ops : list Op).

Definition starts_with s op (id : nat) : Prop := (plans s !! id ≫= λ p, head (plan_operations p)) = Some op.
Lemma starts_with_iff s op id : starts_with s op id ↔ ∃ p l, plans s !! id = Some p ∧ plan_operations p = op :: l.
Proof.
  unfold starts_with. split.
  - intros (p & Hp & Hh)%bind_Some. destruct (plan_operations p) as [|x l] eqn:Hl; [done|]. injection Hh as ->. eauto.
  - intros (p & l & -> & Hl). cbn. by rewrite Hl.
Qed.
#[export] Instance starts_with_dec s op id : Decision (starts_with s op id).
Proof. unfold starts_with. apply _. Defined.
Definition plans_starting s op : list nat := filter (starts_with s op) (seq 0 (length (plans s))).
(** The plans are not empty and the index is exact. *)
Record store_ok s : Prop := {
  store_index : index_ok (index s) (plans_starting s);
  store_plans : ∀ id p, plans s !! id = Some p → plan_operations p ≠ []
}.
Lemma store_new_ok : store_ok store_new.
Proof. constructor; [constructor|]; cbn; [done|done|done|done]. Qed.
Lemma store_find_ok s op id : store_ok s → id ∈ store_find s op ↔ starts_with s op id.
Proof.
  intros Hs. unfold store_find. rewrite (entry_find _ _ (store_index _ Hs)). unfold plans_starting. rewrite list_elem_of_filter, elem_of_seq.
  split; [by intros [? _]|]. intros Hst. split; [done|]. apply starts_with_iff in Hst as (p & l & Hp & _). apply lookup_lt_Some in Hp. lia.
Qed.

(** The operations of a plan are never changed, and its triggers are only added to. *)
Definition plan_le (p p' : ExecutionPlan Op Opt) : Prop :=
  plan_operations p' = plan_operations p ∧ triggers p `prefix_of` triggers p'.
Definition store_le s s' : Prop := ∀ id p, plans s !! id = Some p → ∃ p', plans s' !! id = Some p' ∧ plan_le p p'.
#[export] Instance store_le_preorder : PreOrder store_le.
Proof.
  split; [intros s id p Hp; by exists p|]. intros x y z Hxy Hyz id p Hp.
  destruct (Hxy id p Hp) as (p' & Hp' & A1 & A2). destruct (Hyz id p' Hp') as (p'' & Hp'' & B1 & B2).
  exists p''. split; [done|]. split; [congruence|by etrans].
Qed.

Lemma index_ok_ext (ix : ExecutionPlanIndex Op) f g : (∀ op, f op = g op) → index_ok ix f → index_ok ix g.
Proof. intros Hfg [H1 H2 H3]. constructor; [done|done|]. intros op. by rewrite H3, Hfg. Qed.
Lemma store_add_ok s p :
  store_ok s → plan_operations p ≠ [] →
  ∃ s', store_add (E:=E) s p = Ok (s', length (plans s)) ∧ store_ok s' ∧ store_le s s' ∧
    plans s' = plans s ++ [p] ∧ sync_sequences s' = sync_sequences s.
Proof.
  intros Hs Hne. unfold store_add. rewrite bool_decide_false by done. destruct (plan_operations p) as [|op l] eqn:Hops; [done|].
  cbn [index_insert]. destruct (insert_new_operation_ok (E:=E) (index s) op (length (plans s)) _ (store_index _ Hs)) as (ix & -> & Hix).
  cbn [res_bind]. eexists. split; [done|]. split; [|split; [|done]].
  - constructor; cbn [index plans].
    + eapply index_ok_ext; [|exact Hix]. intros op'. unfold plans_starting. cbn [plans]. rewrite length_app, seq_app, filter_app. cbn [length seq Nat.add].
      f_equal.
      * apply filter_ext_in. intros id Hid%elem_of_seq. unfold starts_with. cbn [plans]. rewrite lookup_app_l by lia. done.
      * rewrite filter_cons. cbn. assert (starts_with (mkStore (plans s ++ [p]) ix (sync_sequences s)) op' (length (plans s)) ↔ op' = op) as Hiff.
        { unfold starts_with. cbn [plans]. rewrite lookup_app_r, Nat.sub_diag by lia. cbn. rewrite Hops. cbn. naive_solver. }
        repeat case_decide; naive_solver.
    + intros id q. destruct (decide (id < length (plans s))) as [Hid|Hid].
      * rewrite lookup_app_l by lia. apply (store_plans _ Hs).
      * rewrite lookup_app_r by lia. destruct (id - length (plans s)) as [|k]; cbn; [|done]. intros [= <-]. congruence.
  - intros id q Hq. exists q. split; [cbn; by apply lookup_app_l_Some|]. done.
Qed.
Lemma add_trigger_ok s id p t :
  store_ok s → plans s !! id = Some p →
  ∃ s', add_trigger (E:=E) s id t = Ok s' ∧ store_ok s' ∧ store_le s s' ∧ length (plans s') = length (plans s) ∧
    sync_sequences s' = sync_sequences s.
Proof.
  intros Hs Hp. unfold add_trigger, get. rewrite Hp. cbn [res_bind]. eexists. split; [done|].
  destruct (decide (t ∈ triggers p)); [done|]. set (p' := mkPlan _ _ _). set (s' := mkStore _ _ _).
  assert (∀ k q, plans s' !! k = Some q → ∃ q0, plans s !! k = Some q0 ∧ plan_operations q = plan_operations q0) as Hback.
  { intros k q. unfold s'. cbn [plans]. destruct (decide (k = id)) as [->|Hk].
    - rewrite list_lookup_insert_eq by (by apply lookup_lt_Some in Hp). intros [= <-]. eauto.
    - rewrite list_lookup_insert_ne by done. eauto. }
  assert (store_le s s') as Hle.
  { intros k q Hq. unfold s'. cbn [plans]. destruct (decide (k = id)) as [->|Hk].
    - rewrite list_lookup_insert_eq by (by apply lookup_lt_Some in Hp). exists p'. split; [done|]. assert (q = p) as -> by congruence.
      split; [done|]. cbn. by apply prefix_app_r.
    - rewrite list_lookup_insert_ne by done. exists q. done. }
  split; [|split; [done|split; [apply length_insert|done]]]. constructor.
  - eapply index_ok_ext; [|apply (store_index _ Hs)]. intros op. unfold plans_starting.
    replace (length (plans s')) with (length (plans s)) by (symmetry; apply length_insert).
    apply filter_ext_in. intros k _. rewrite !starts_with_iff. split.
    + intros (q & l & Hq & Hl). destruct (Hle k q Hq) as (q' & Hq' & Ho & _). exists q', l. split; [done|]. congruence.
    + intros (q & l & Hq & Hl). destruct (Hback k q Hq) as (q0 & Hq0 & Ho). exists q0, l. split; [done|]. congruence.
  - intros k q Hq. destruct (Hback k q Hq) as (q0 & Hq0 & ->). by apply (store_plans _ Hs k).
Qed.
Lemma get_unchecked_ok s id p : plans s !! id = Some p → get_unchecked (E:=E) s id = Ok p.
Proof. intros Hp. unfold get_unchecked, get. by rewrite Hp. Qed.
Definition plan_ops s (id : nat) : option (list Op) := plan_operations <$> plans s !! id.
Lemma plan_ops_le s s' id po : store_le s s' → plan_ops s id = Some po → plan_ops s' id = Some po.
Proof.
  intros Hle (p & Hp & ->)%fmap_Some. destruct (Hle id p Hp) as (p' & Hp' & Ho & _). unfold plan_ops. rewrite Hp'. cbn. by rewrite Ho.
Qed.
End store.

(** ** The policy *)

Section policy.
Context {E Op Opt : Type} `{!EqDecision Op, !OperationHash Op}.
Abbreviation Store := (ExecutionPlanStore Op Opt).
Implicit Types (s : Store) (op : Op) (ops : list Op) (p : Policy).

Record policy_ok s ops p : Prop := {
  pol_analyzed : analyzed p = length ops;
  pol_candidates : ∀ c, c ∈ candidates p → v_state c = Validating ∧
    ∃ po, plan_ops s (v_id c) = Some po ∧ ops `prefix_of` po ∧ length ops < length po;
  pol_availables : ∀ a, a ∈ availables p → ∃ q, plans s !! av_id a = Some q ∧ av_size a = length (plan_operations q) ∧
    plan_operations q `prefix_of` ops ∧
    ∀ m n, ValidateOperations m n ∈ av_triggers a → v_id m < length (triggers q);
  pol_found : ∀ id len, found p = Some (id, len) → ∃ po, plan_ops s id = Some po ∧ len = length po ∧ po `prefix_of` ops
}.
(** What the validator of a trigger knows once [rest] came after the operations of
    the plan. *)
Definition rest_state (next rest : list Op) : ValidatorState :=
  if decide (next ≠ [] ∧ next `prefix_of` rest) then Found (length next)
  else if decide (rest `prefix_of` next) then Validating else Invalidated.
Definition trigger_state (rest : list Op) (i : nat) (t : ExecutionTrigger Op) : TriggerValidator :=
  match t with
  | OnOperations next => ValidateOperations (mkValidator i (rest_state next rest)) (Some (length rest))
  | OnSync => ValidateSync
  | Always => ValidateAlways
  end.
Definition trigger_states (ts : list (ExecutionTrigger Op)) (rest : list Op) : list TriggerValidator :=
  imap (trigger_state rest) ts.
(** Every plan of the store that still matches is tracked. *)
Record policy_complete s ops p : Prop := {
  all_candidates : ∀ id po, plan_ops s id = Some po → ops ≠ [] → ops `prefix_of` po → length ops < length po →
    ∃ c, c ∈ candidates p ∧ v_id c = id;
  all_availables : ∀ id po, plan_ops s id = Some po → po ≠ [] → po `prefix_of` ops → ∃ a, a ∈ availables p ∧ av_id a = id;
  all_triggers : ∀ a q, a ∈ availables p → plans s !! av_id a = Some q →
    av_triggers a = trigger_states (triggers q) (drop (length (plan_operations q)) ops);
  all_found : is_Some (found p) ↔ ∃ a, a ∈ availables p ∧ existsb triggered (av_triggers a) = true
}.
Lemma policy_ok_le s s' ops p : store_le s s' → policy_ok s ops p → policy_ok s' ops p.
Proof.
  intros Hle [H1 H2 H3 H4]. constructor; [done| | |].
  - intros c Hc. destruct (H2 c Hc) as (Hv & po & Hpo & Hx). split; [done|]. exists po. split; [by eapply plan_ops_le|done].
  - intros a Ha. destruct (H3 a Ha) as (q & Hq & Hsz & Hpre & Ht). destruct (Hle _ _ Hq) as (q' & Hq' & Ho & Htr).
    exists q'. rewrite Ho. split; [done|]. split; [done|]. split; [done|]. intros m n Hm. apply Ht in Hm. apply prefix_length in Htr. lia.
  - intros id len Hf. destruct (H4 id len Hf) as (po & Hpo & Hx). exists po. split; [by eapply plan_ops_le|done].
Qed.
Lemma policy_new_ok s : policy_ok s [] policy_new ∧ policy_complete s [] policy_new.
Proof.
  split; constructor; cbn; try done.
  - by intros c ?%elem_of_nil.
  - by intros a ?%elem_of_nil.
  - intros id po _ Hne [k Hk]. symmetry in Hk. by apply app_eq_nil in Hk as [? _].
  - by intros a q ?%elem_of_nil.
  - split; [by intros [? ?]|by intros (a & ?%elem_of_nil & _)].
Qed.

(** *** One more operation *)

Lemma prefix_snoc ops op po :
  ops `prefix_of` po → length ops < length po → (ops ++ [op]) `prefix_of` po ↔ po !! length ops = Some op.
Proof.
  intros [k ->] Hl. rewrite length_app in Hl. destruct k as [|x k]; [cbn in Hl; lia|].
  rewrite lookup_app_r, Nat.sub_diag by lia. cbn. split.
  - intros [y Hy]. rewrite <-app_assoc in Hy. apply app_inv_head in Hy. cbn in Hy. congruence.
  - intros [= ->]. exists k. by rewrite <-app_assoc.
Qed.
Lemma prefix_snoc_cases (po ops : list Op) op :
  po `prefix_of` (ops ++ [op]) → po `prefix_of` ops ∨ po = ops ++ [op].
Proof.
  intros [k Hk]. destruct k as [|x k _] using rev_ind; [right; by rewrite app_nil_r in Hk|].
  rewrite app_assoc in Hk. apply app_inj_tail in Hk as [-> _]. left. by eexists.
Qed.
Definition next_state ops op (po : list Op) : ValidatorState :=
  if decide ((ops ++ [op]) `prefix_of` po) then (if length po =? length ops + 1 then Found (length po) else Validating) else Invalidated.
Lemma validator_step ops op po c :
  v_state c = Validating → ops `prefix_of` po → length ops < length po →
  validator_update op (length ops) po c = mkValidator (v_id c) (next_state ops op po).
Proof.
  intros Hv Hp Hl. unfold validator_update, next_state. rewrite Hv. destruct (lookup_lt_is_Some_2 _ _ Hl) as [x Hx]. rewrite Hx.
  assert ((ops ++ [op]) `prefix_of` po ↔ x = op) as Hiff by (rewrite prefix_snoc, Hx by done; naive_solver).
  destruct (decide (x ≠ op)) as [Hne|He].
  - by rewrite decide_False by (rewrite Hiff; done).
  - assert (x = op) as -> by (by apply dec_stable). rewrite decide_True by (by apply Hiff).
    destruct (length po =? length ops + 1); [done|]. destruct c. cbn in *. by subst.
Qed.
(** The candidates before the operation is compared: sound, and complete for the plans
    that match it. *)
Definition tracked s ops (cs : list OperationsValidator) : Prop :=
  ∀ c, c ∈ cs → v_state c = Validating ∧ ∃ po, plan_ops s (v_id c) = Some po ∧ ops `prefix_of` po ∧ length ops < length po.
Lemma update_candidates_ok s ops op cs :
  tracked s ops cs →
  ∃ cs', update_candidates (E:=E) s op (length ops) cs = Ok cs' ∧
    Forall2 (λ c c', ∃ po, plan_ops s (v_id c) = Some po ∧ c' = mkValidator (v_id c) (next_state ops op po)) cs cs'.
Proof.
  unfold update_candidates. induction cs as [|c cs IH]; intros Ht; cbn [res_mapM]; [exists []; split; [done|constructor]|].
  destruct (Ht c) as (Hv & po & Hpo & Hp & Hl); [by left|]. pose proof Hpo as (q & Hq & Heq)%fmap_Some. subst po.
  rewrite (get_unchecked_ok _ _ _ Hq). cbn [res_bind]. destruct IH as (cs' & -> & Hf); [intros d Hd; apply Ht; by right|].
  cbn [res_bind]. eexists. split; [done|]. constructor; [|done]. eexists. split; [exact Hpo|]. by apply validator_step.
Qed.
Lemma check_candidates_ok s ops op cs cs' :
  tracked s ops cs → Forall2 (λ c c', ∃ po, plan_ops s (v_id c) = Some po ∧ c' = mkValidator (v_id c) (next_state ops op po)) cs cs' →
  ∃ ks avs, check_candidates (E:=E) s cs' = Ok (ks, avs) ∧ tracked s (ops ++ [op]) ks ∧
    (∀ a, a ∈ avs → ∃ q, plans s !! av_id a = Some q ∧ plan_operations q = ops ++ [op] ∧ av_size a = length (plan_operations q) ∧
       av_triggers a = trigger_validators (triggers q)) ∧
    (∀ id po, plan_ops s id = Some po → (∃ c, c ∈ cs ∧ v_id c = id) → (ops ++ [op]) `prefix_of` po →
       if decide (po = ops ++ [op]) then ∃ a, a ∈ avs ∧ av_id a = id else ∃ c, c ∈ ks ∧ v_id c = id).
Proof.
  intros Ht Hf. induction Hf as [|c c' cs cs' (po & Hpo & ->) Hf IH]; cbn [check_candidates].
  { exists [], []. split; [done|]. split; [by intros c ?%elem_of_nil|]. split; [by intros a ?%elem_of_nil|].
    by intros id po _ (c & ?%elem_of_nil & _). }
  destruct (Ht c) as (Hv & po' & Hpo' & Hp & Hl); [by left|]. assert (po' = po) as -> by congruence. clear Hpo'.
  destruct IH as (ks & avs & Hc & H1 & H2 & H3); [intros d Hd; apply Ht; by right|]. unfold next_state. cbn [v_state v_id].
  pose proof Hpo as (q & Hq & Heq)%fmap_Some.
  destruct (decide ((ops ++ [op]) `prefix_of` po)) as [Hpre|Hpre]; [destruct (Nat.eqb_spec (length po) (length ops + 1)) as [Hlen|Hlen]|].
  - rewrite (get_unchecked_ok _ _ _ Hq). cbn [res_bind]. rewrite Hc. cbn [res_bind fst snd]. eexists _, _. split; [done|]. split; [done|].
    assert (po = ops ++ [op]) as Hpeq.
    { destruct Hpre as [k ->]. rewrite !length_app in Hlen. cbn in Hlen. destruct k; [by rewrite app_nil_r|cbn in Hlen; lia]. }
    split.
    + intros a [->|Ha]%elem_of_cons; [|by apply H2]. exists q. cbn. split; [done|]. split; [congruence|]. split; congruence.
    + intros id po1 Hpo1 (d & [->|Hd]%elem_of_cons & <-) Hpre1.
      * rewrite decide_True by congruence. eexists. split; [by left|done].
      * specialize (H3 (v_id d) po1 Hpo1 ltac:(eauto) Hpre1). case_decide; [|done]. destruct H3 as (a & Ha & Hid). exists a. split; [by right|done].
  - rewrite Hc. cbn [res_bind fst snd]. eexists _, _. split; [done|]. split; [|split; [done|]].
    + intros d [->|Hd]%elem_of_cons; [|by apply H1]. split; [done|]. exists po. split; [done|]. split; [done|].
      apply prefix_length in Hpre. rewrite length_app in *. cbn in *. lia.
    + intros id po1 Hpo1 (d & [->|Hd]%elem_of_cons & <-) Hpre1.
      * rewrite decide_False by (intros ->; assert (po = ops ++ [op]) as -> by congruence; rewrite length_app in Hlen; cbn in Hlen; lia).
        eexists. split; [by left|done].
      * specialize (H3 (v_id d) po1 Hpo1 ltac:(eauto) Hpre1). case_decide; [done|]. destruct H3 as (a & Ha & Hid). exists a. split; [by right|done].
  - eexists _, _. split; [done|]. split; [done|]. split; [done|]. intros id po1 Hpo1 (d & [->|Hd]%elem_of_cons & <-) Hpre1.
    + exfalso. apply Hpre. congruence.
    + apply (H3 (v_id d)); [done|by exists d|done].
Qed.

(** What is known of an available plan. *)
Definition available s ops (a : AvailableItem) : Prop :=
  ∃ q, plans s !! av_id a = Some q ∧ av_size a = length (plan_operations q) ∧ plan_operations q `prefix_of` ops ∧
    ∀ m n, ValidateOperations m n ∈ av_triggers a → v_id m < length (triggers q).
Lemma trigger_validators_bound (ts : list (ExecutionTrigger Op)) m n :
  ValidateOperations m n ∈ trigger_validators ts → v_id m < length ts.
Proof.
  unfold trigger_validators. intros (i & t & Ht & Heq)%elem_of_lookup_imap_1. apply lookup_lt_Some in Heq.
  destruct t; [|done|done]. injection Ht as -> _. done.
Qed.
Lemma update_trigger_ok s op id q t :
  plans s !! id = Some q → (∀ m n, t = ValidateOperations m n → v_id m < length (triggers q)) →
  ∃ t', update_trigger (E:=E) s op id t = Ok t' ∧ (∀ m n, t' = ValidateOperations m n → v_id m < length (triggers q)).
Proof.
  intros Hq Ht. destruct t as [m [n|]| |]; cbn [update_trigger]; [|eexists; split; [done|]; intros ? ? [= <- _]; by eapply Ht|by eauto|by eauto].
  specialize (Ht m (Some n) eq_refl).
  destruct (v_state m) eqn:Hv; [eexists; split; [done|]; by intros ? ? [= <- _]|eexists; split; [done|]; by intros ? ? [= <- _]|].
  unfold trigger_operations. rewrite (get_unchecked_ok _ _ _ Hq). cbn [res_bind]. unfold get.
  destruct (lookup_lt_is_Some_2 _ _ Ht) as [x ->]. cbn [res_bind]. eexists. split; [done|]. intros m' n' [= <- _].
  unfold validator_update. rewrite Hv. by repeat case_match.
Qed.
Lemma res_mapM_Forall {A B} (f : A → res E B) (P : A → Prop) (R : A → B → Prop) (l : list A) :
  (∀ x, P x → ∃ y, f x = Ok y ∧ R x y) → Forall P l → ∃ k, res_mapM f l = Ok k ∧ Forall2 R l k.
Proof.
  intros Hf. induction 1 as [|x l Hx Hl IH]; cbn [res_mapM]; [eauto|]. destruct (Hf x Hx) as (y & -> & Hy).
  destruct IH as (k & -> & Hk). cbn [res_bind]. eauto.
Qed.
Lemma update_available_ok s ops op a :
  available s ops a →
  ∃ a', (let? ts := res_mapM (update_trigger (E:=E) s op (av_id a)) (av_triggers a) in Ok (mkAvailable (av_id a) (av_size a) ts)) = Ok a' ∧
    available s ops a' ∧ av_id a' = av_id a ∧ res_mapM (update_trigger (E:=E) s op (av_id a)) (av_triggers a) = Ok (av_triggers a').
Proof.
  intros (q & Hq & Hsz & Hpre & Ht).
  destruct (res_mapM_Forall (update_trigger (E:=E) s op (av_id a)) (λ t, ∀ m n, t = ValidateOperations m n → v_id m < length (triggers q))
    (λ _ t, ∀ m n, t = ValidateOperations m n → v_id m < length (triggers q)) (av_triggers a)) as (ts & Hts & Hf).
  - intros t. by apply update_trigger_ok.
  - apply Forall_forall. intros t Hin m n ->. by eapply Ht.
  - rewrite Hts. cbn [res_bind]. eexists. split; [done|]. split; [|by rewrite <-Hts]. exists q. cbn. split; [done|]. split; [done|]. split; [done|].
    intros m n (i & Hi)%list_elem_of_lookup_1. destruct (Forall2_lookup_r _ _ _ _ _ Hf Hi) as (t & _ & Hb). by eapply Hb.
Qed.
Lemma update_availables_ok s ops op l :
  Forall (available s ops) l →
  ∃ l', update_availables (E:=E) s op l = Ok l' ∧ Forall (available s ops) l' ∧
    Forall2 (λ a a', av_id a' = av_id a ∧ res_mapM (update_trigger (E:=E) s op (av_id a)) (av_triggers a) = Ok (av_triggers a')) l l'.
Proof.
  intros Hl. destruct (res_mapM_Forall _ _ _ _ (update_available_ok s ops op) Hl) as (l' & Hm & Hf). exists l'. split; [exact Hm|]. clear Hm Hl.
  induction Hf as [|a a' l l' (Ha & He) Hf [IH1 IH2]]; [done|]. split; by constructor.
Qed.
Lemma available_mono s ops ops' a : ops `prefix_of` ops' → available s ops a → available s ops' a.
Proof. intros Ho (q & H1 & H2 & H3 & H4). exists q. split; [done|]. split; [done|]. split; [by etrans|done]. Qed.
Lemma check_availables_ok s ops l f id len :
  Forall (available s ops) l → check_availables l f = Some (id, len) →
  f = Some (id, len) ∨ ∃ po, plan_ops s id = Some po ∧ len = length po ∧ po `prefix_of` ops.
Proof.
  intros Hl. unfold check_availables. destruct (filter _ l) as [|a k] eqn:Hfl; cbn [head]; [by left|].
  intros [= <- <-]. right. assert (a ∈ l) as Ha.
  { eapply list_elem_of_filter. rewrite Hfl. by left. }
  destruct (proj1 (Forall_forall _ _) Hl a Ha) as (q & Hq & Hsz & Hpre & _). exists (plan_operations q). unfold plan_ops. by rewrite Hq.
Qed.

(** *** Triggers *)

Lemma rest_state_snoc next rest op i :
  validator_update op (length rest) next (mkValidator i (rest_state next rest)) = mkValidator i (rest_state next (rest ++ [op])).
Proof.
  assert (rest `prefix_of` next → next `prefix_of` rest → next = rest) as Hanti.
  { intros [k ->] Hp%prefix_length. rewrite length_app in Hp. destruct k; [by rewrite app_nil_r|cbn in Hp; lia]. }
  unfold rest_state at 1. destruct (decide (next ≠ [] ∧ next `prefix_of` rest)) as [[Hne Hp]|Hnf].
  { unfold validator_update, rest_state. cbn [v_state v_id]. rewrite decide_True; [done|]. split; [done|]. by apply prefix_app_r. }
  destruct (decide (rest `prefix_of` next)) as [Hp|Hp].
  - destruct (decide (length rest < length next)) as [Hl|Hl].
    + rewrite validator_step by done. cbn [v_id]. f_equal. unfold next_state, rest_state.
      destruct (decide ((rest ++ [op]) `prefix_of` next)) as [Hs|Hs].
      * destruct (Nat.eqb_spec (length next) (length rest + 1)) as [Hn|Hn].
        -- destruct Hs as [k ->]. rewrite !length_app in Hn. cbn in Hn. destruct k; [|cbn in Hn; lia]. rewrite app_nil_r. rewrite decide_True; [done|].
           split; [by destruct rest|done].
        -- rewrite decide_False; [done|]. intros [_ Hb%prefix_length]. rewrite length_app in Hb. cbn in Hb. lia.
      * rewrite decide_False; [done|]. intros [_ Hb%prefix_snoc_cases]. destruct Hb as [Hb|Hb]; [apply prefix_length in Hb; lia|]. by rewrite Hb in Hs.
    + assert (next = rest) as ->. { apply Hanti; [done|]. destruct Hp as [k ->]. rewrite length_app in Hl. destruct k; [by rewrite app_nil_r|cbn in Hl; lia]. }
      destruct rest as [|x rest]; [|exfalso; by apply Hnf]. unfold validator_update, rest_state. cbn [v_state v_id lookup list_lookup length app].
      rewrite decide_False by naive_solver. by rewrite decide_False by apply prefix_nil_not.
  - unfold validator_update, rest_state. cbn [v_state v_id]. rewrite decide_False.
    + rewrite decide_False; [done|]. intros Hs. apply Hp. etrans; [|exact Hs]. by apply prefix_app_r.
    + intros [Hne Hb%prefix_snoc_cases]. destruct Hb as [Hb|Hb]; [by apply Hnf|]. apply Hp. rewrite Hb. by apply prefix_app_r.
Qed.
Lemma update_trigger_snoc s op id q i t rest :
  plans s !! id = Some q → triggers q !! i = Some t →
  update_trigger (E:=E) s op id (trigger_state rest i t) = Ok (trigger_state (rest ++ [op]) i t).
Proof.
  intros Hq Ht. destruct t as [next| |]; cbn [trigger_state update_trigger]; [|done|done]. rewrite <-rest_state_snoc.
  rewrite length_app, Nat.add_comm. cbn [length Nat.add v_state v_id].
  destruct (rest_state next rest) eqn:Hr; [by unfold validator_update|by unfold validator_update|].
  unfold trigger_operations. rewrite (get_unchecked_ok _ _ _ Hq). cbn [res_bind]. unfold get. rewrite Ht. done.
Qed.
(** A list of triggers, updated position by position. *)
Lemma res_mapM_imap {A B C} (f : B → res E C) (g : nat → A → B) (h : nat → A → C) (l : list A) :
  (∀ i x, l !! i = Some x → f (g i x) = Ok (h i x)) → res_mapM f (imap g l) = Ok (imap h l).
Proof.
  revert g h. induction l as [|x l IH]; intros g h Hf; [done|]. cbn [imap res_mapM]. rewrite (Hf 0 x eq_refl). cbn [res_bind].
  rewrite (IH (g ∘ S) (h ∘ S)); [done|]. intros i y Hi. by apply (Hf (S i)).
Qed.
Lemma update_triggers_snoc s op id q rest :
  plans s !! id = Some q →
  res_mapM (update_trigger (E:=E) s op id) (trigger_states (triggers q) rest) = Ok (trigger_states (triggers q) (rest ++ [op])).
Proof. intros Hq. apply res_mapM_imap. intros i t Ht. by eapply update_trigger_snoc. Qed.
Lemma update_triggers_new s op id (q : ExecutionPlan Op Opt) :
  res_mapM (update_trigger (E:=E) s op id) (trigger_validators (triggers q)) = Ok (trigger_states (triggers q) []).
Proof.
  apply res_mapM_imap. intros i [next| |] _; [|done|done]. cbn [update_trigger trigger_state]. unfold rest_state, validator_new.
  rewrite decide_False by (intros [Hne Hp]; by destruct next; [|apply prefix_nil_not in Hp]). by rewrite decide_True by apply prefix_nil.
Qed.
Lemma triggered_kept s op id t t' : triggered t = true → update_trigger (E:=E) s op id t = Ok t' → triggered t' = true.
Proof.
  destruct t as [m [n|]| |]; cbn; [|by intros ? [= <-]|by intros ? [= <-]|done]. destruct (v_state m) eqn:Hm; [|done|done].
  intros _ [= <-]. cbn. by rewrite Hm.
Qed.
Lemma existsb_triggered_kept s op id l l' :
  existsb triggered l = true → res_mapM (update_trigger (E:=E) s op id) l = Ok l' → existsb triggered l' = true.
Proof.
  revert l'. induction l as [|t l IH]; intros l'; [done|]. cbn [existsb res_mapM]. intros Ht (t' & Hu & Hr)%res_bind_Ok.
  apply res_bind_Ok in Hr as (k & Hk & [= <-]). cbn [existsb]. apply orb_true_iff. apply orb_true_iff in Ht as [Ht|Ht]; [left; by eapply triggered_kept|right; by eapply IH].
Qed.
Lemma check_availables_some l f :
  is_Some (check_availables l f) ↔ is_Some f ∨ ∃ a, a ∈ l ∧ existsb triggered (av_triggers a) = true.
Proof.
  unfold check_availables. destruct (filter _ l) as [|a k] eqn:Hfl; cbn [head].
  - split; [by left|]. intros [?|(a & Hin & Ht)]; [done|]. assert (a ∈ filter (λ a, existsb triggered (av_triggers a) = true) l) as Hx by (by apply list_elem_of_filter).
    rewrite Hfl in Hx. by apply elem_of_nil in Hx.
  - split; [|by eauto]. intros _. right. exists a. assert (a ∈ filter (λ a, existsb triggered (av_triggers a) = true) l) as Hx by (rewrite Hfl; by left).
    apply list_elem_of_filter in Hx as [? ?]. done.
Qed.

(** The validators of the plans that start with the first operation. *)
Lemma tracked_first s op : store_ok s → tracked s [] (validator_new <$> store_find s op).
Proof.
  intros Hs c (id & -> & Hid)%list_elem_of_fmap. split; [done|]. cbn.
  apply store_find_ok, starts_with_iff in Hid as (q & l & Hq & Hl); [|done]. exists (plan_operations q). unfold plan_ops. rewrite Hq.
  split; [done|]. split; [apply prefix_nil|]. rewrite Hl. cbn. lia.
Qed.
Lemma first_tracked s op id po :
  store_ok s → plan_ops s id = Some po → [op] `prefix_of` po → ∃ c, c ∈ validator_new <$> store_find s op ∧ v_id c = id.
Proof.
  intros Hs (q & Hq & ->)%fmap_Some [k Hk]. exists (validator_new id). split; [|done]. apply list_elem_of_fmap. exists id. split; [done|].
  apply store_find_ok; [done|]. apply starts_with_iff. by exists q, k.
Qed.
Lemma update_ok s ops op p :
  store_ok s → policy_ok s ops p →
  ∃ p', update (E:=E) p s op = Ok p' ∧ policy_ok s (ops ++ [op]) p' ∧
    (policy_complete s ops p → policy_complete s (ops ++ [op]) p').
Proof.
  intros Hs [Ha Hc Hav Hfo]. unfold update. set (cs := if analyzed p =? 0 then _ else _).
  assert (tracked s ops cs) as Ht.
  { unfold cs. destruct (Nat.eqb_spec (analyzed p) 0) as [H0|]; [|exact Hc]. rewrite Ha in H0. apply nil_length_inv in H0 as ->. by apply tracked_first. }
  rewrite Ha. destruct (update_candidates_ok s ops op cs Ht) as (cs' & -> & Hf). cbn [res_bind].
  destruct (check_candidates_ok s ops op cs cs' Ht Hf) as (ks & avs & -> & K1 & K2 & K3). cbn [res_bind fst snd].
  assert (Forall (available s (ops ++ [op])) (availables p ++ avs)) as Hall.
  { apply Forall_app. split; apply Forall_forall.
    - intros a Hin. eapply available_mono; [|by apply Hav]. by apply prefix_app_r.
    - intros a Hin. destruct (K2 a Hin) as (q & H1 & H2 & H3 & H4). exists q. split; [done|]. split; [done|]. split; [by rewrite H2|].
      rewrite H4. apply trigger_validators_bound. }
  destruct (update_availables_ok s (ops ++ [op]) op _ Hall) as (avs' & -> & Hok & Hupd). cbn [res_bind].
  eexists. split; [done|]. split.
  - constructor; cbn [analyzed candidates availables found].
    + rewrite length_app. cbn. lia.
    + exact K1.
    + intros a Hin. by apply (proj1 (Forall_forall _ _) Hok).
    + intros id len Hch. destruct (check_availables_ok s (ops ++ [op]) avs' _ id len Hok Hch) as [Hfp|Hd]; [|done].
      destruct (Hfo _ _ Hfp) as (po & H1 & H2 & H3). exists po. split; [done|]. split; [done|]. etrans; [done|]. by apply prefix_app_r.
  - intros [C1 C2 C3 C4]. assert (∀ id po, plan_ops s id = Some po → (ops ++ [op]) `prefix_of` po → ∃ c, c ∈ cs ∧ v_id c = id) as Hcs.
    { intros id po Hpo Hpre. unfold cs. destruct (Nat.eqb_spec (analyzed p) 0) as [H0|H0].
      - rewrite Ha in H0. apply nil_length_inv in H0 as ->. by eapply first_tracked.
      - apply (C1 id po Hpo); [by intros ->|by etrans; [|exact Hpre]; apply prefix_app_r|]. apply prefix_length in Hpre.
        rewrite length_app in Hpre. cbn in Hpre. lia. }
    assert (∀ id, (∃ a, a ∈ availables p ++ avs ∧ av_id a = id) → ∃ a, a ∈ avs' ∧ av_id a = id) as Hmap.
    { intros id (a & (i & Hi)%list_elem_of_lookup_1 & <-). destruct (Forall2_lookup_l _ _ _ _ _ Hupd Hi) as (b & Hb & Heq & _).
      exists b. split; [by eapply list_elem_of_lookup_2|done]. }
    constructor; cbn [candidates availables found].
    + intros id po Hpo _ Hpre Hlen. specialize (K3 id po Hpo (Hcs id po Hpo Hpre) Hpre). rewrite decide_False in K3; [done|]. intros ->. lia.
    + intros id po Hpo Hne Hpre. apply Hmap. apply prefix_snoc_cases in Hpre as [Hpre| ->].
      * destruct (C2 id po Hpo Hne Hpre) as (a & Hin & Hid). exists a. split; [apply elem_of_app; by left|done].
      * specialize (K3 id _ Hpo (Hcs id _ Hpo ltac:(done)) ltac:(done)). rewrite decide_True in K3 by done.
        destruct K3 as (a & Hin & Hid). exists a. split; [apply elem_of_app; by right|done].
    + intros a' q (i & Hi)%list_elem_of_lookup_1 Hq. destruct (Forall2_lookup_r _ _ _ _ _ Hupd Hi) as (a & Ha' & Hid & Hup).
      rewrite Hid in Hq. apply list_elem_of_lookup_2 in Ha'. enough (Ok (E:=E) (av_triggers a') = Ok (trigger_states (triggers q) (drop (length (plan_operations q)) (ops ++ [op])))) as [= ?] by done.
      rewrite <-Hup. apply elem_of_app in Ha' as [Hin|Hin].
      * rewrite (C3 a q Hin Hq). rewrite drop_app_le; [by apply update_triggers_snoc|]. destruct (Hav a Hin) as (q' & Hq' & _ & Hpre & _).
        assert (q' = q) as -> by congruence. by apply prefix_length.
      * destruct (K2 a Hin) as (q' & Hq' & Hops & _ & ->). assert (q' = q) as -> by congruence. rewrite drop_ge by (by rewrite Hops). apply update_triggers_new.
    + rewrite check_availables_some. split; [|by right]. intros [Hfp|?]; [|done]. apply C4 in Hfp as (a & Hin & Htr).
      assert (a ∈ availables p ++ avs) as (i & Hi)%list_elem_of_lookup_1 by (apply elem_of_app; by left).
      destruct (Forall2_lookup_l _ _ _ _ _ Hupd Hi) as (b & Hb & _ & Hup). exists b. split; [by eapply list_elem_of_lookup_2|]. by eapply existsb_triggered_kept.
Qed.
Lemma updates_ok s ops ops0 p :
  store_ok s → policy_ok s ops0 p →
  ∃ p', res_foldl (λ p op, update (E:=E) p s op) p ops = Ok p' ∧ policy_ok s (ops0 ++ ops) p' ∧
    (policy_complete s ops0 p → policy_complete s (ops0 ++ ops) p').
Proof.
  intros Hs. revert ops0 p. induction ops as [|op ops IH]; intros ops0 p Hp; cbn [res_foldl]; [rewrite app_nil_r; eauto|].
  destruct (update_ok s ops0 op p Hs Hp) as (p1 & -> & H1 & H2). cbn [res_bind]. destruct (IH _ _ H1) as (p2 & -> & H3 & H4).
  rewrite <-app_assoc in H3, H4. exists p2. split; [done|]. split; [done|]. intros Hc. by apply H4, H2.
Qed.

(** *** Actions *)

(** No candidate has the length of the operations: the second loop of [action_sync]
    never finds one. *)
Lemma sync_candidate_none s ops given l : tracked s ops l → length given ≤ length ops → sync_candidate (E:=E) s given l = Ok Explore.
Proof.
  intros Ht Hl. induction l as [|c l IH]; [done|]. cbn [sync_candidate]. destruct (Ht c) as (_ & po & Hpo & _ & Hlen); [by left|].
  pose proof Hpo as (q & Hq & ->)%fmap_Some. rewrite (get_unchecked_ok _ _ _ Hq). cbn [res_bind].
  destruct (Nat.eqb_spec (length (plan_operations q)) (length given)); [lia|]. apply IH. intros d Hd. apply Ht. by right.
Qed.
Lemma prefix_take (po ops : list Op) k : po `prefix_of` ops → length po ≤ k → po `prefix_of` take k ops.
Proof. intros [l ->] Hk. exists (take (k - length po) l). by rewrite take_app_ge by lia. Qed.
Lemma head_filter {A} (P : A → Prop) `{∀ x, Decision (P x)} (l : list A) x :
  head (filter P l) = Some x → P x ∧ x ∈ l.
Proof.
  destruct (filter P l) as [|y k] eqn:Hf; [done|]. intros [= ->].
  assert (x ∈ filter P l) as Hin by (rewrite Hf; by left). by apply list_elem_of_filter in Hin.
Qed.
Lemma head_filter_none {A} (P : A → Prop) `{∀ x, Decision (P x)} (l : list A) x :
  head (filter P l) = None → x ∈ l → ¬ P x.
Proof.
  destruct (filter P l) as [|y k] eqn:Hf; [|done]. intros _ Hx Hp. assert (x ∈ filter P l) as Hin by (by apply list_elem_of_filter).
  rewrite Hf in Hin. by apply elem_of_nil in Hin.
Qed.
(** A plan whose operations are a prefix of the given ones. *)
Definition matches s given id : Prop := ∃ po, plan_ops s id = Some po ∧ po `prefix_of` given.
Lemma action_ok s ops p k mode :
  policy_ok s ops p → k ≤ length ops →
  ∃ a, action (E:=E) p s (take k ops) mode = Ok a ∧ (∀ id, a = Execute id → matches s (take k ops) id) ∧ (mode = Sync → a ≠ Defer).
Proof.
  intros [Ha Hc Hav Hf] Hk. unfold action. assert (length (take k ops) = k) as Hlk by (rewrite length_take; lia).
  rewrite Ha, Hlk. destruct (Nat.ltb_spec (length ops) k); [lia|].
  assert (∃ a, match mode with Lazy => Ok (action_lazy p (take k ops)) | Sync => action_sync (E:=E) p s (take k ops) end = Ok a ∧
    (∀ id, a = Execute id → matches s (take k ops) id) ∧ (mode = Sync → a ≠ Defer)) as Hrest.
  { destruct mode.
    - eexists. split; [done|]. unfold action_lazy. split; [|done]. intros id. destruct (candidates p); [|done]. by destruct (existsb _ _).
    - unfold action_sync. destruct (head (filter _ (availables p))) as [a|] eqn:Hh.
      + apply head_filter in Hh as [Hs Hin]. eexists. split; [done|]. split; [|done]. intros id [= <-]. destruct (Hav a Hin) as (q & Hq & Hsz & Hpre & _).
        exists (plan_operations q). unfold plan_ops. rewrite Hq. split; [done|]. apply prefix_take; [done|]. lia.
      + rewrite (sync_candidate_none s ops) by (try done; lia). eexists. split; [done|]. done. }
  destruct (found p) as [[id len]|] eqn:Hfp; [|done]. destruct (Nat.leb_spec len k) as [Hle|Hle]; [|done].
  eexists. split; [done|]. split; [|done]. intros id' [= <-]. destruct (Hf id len eq_refl) as (po & Hpo & -> & Hpre).
  exists po. split; [done|]. by apply prefix_take.
Qed.
(** A plan of exactly the given operations is found on a sync. *)
Lemma action_sync_finds s ops p k id :
  policy_ok s ops p → policy_complete s ops p → 0 < k ≤ length ops → plan_ops s id = Some (take k ops) →
  ∃ id', action (E:=E) p s (take k ops) Sync = Ok (Execute id') ∧ matches s (take k ops) id'.
Proof.
  intros Hok Hcomp Hk Hid. destruct (action_ok s ops p k Sync Hok) as (a & Ha & Hm & _); [lia|]. enough (∃ id', a = Execute id') as (id' & ->) by eauto.
  pose proof (pol_analyzed _ _ _ Hok) as Hn. unfold action in Ha. assert (length (take k ops) = k) as Hlk by (rewrite length_take; lia).
  rewrite Hn, Hlk in Ha. destruct (Nat.ltb_spec (length ops) k); [lia|].
  assert (∃ a', action_sync (E:=E) p s (take k ops) = Ok (Execute a')) as (a' & Has).
  { destruct (all_availables _ _ _ Hcomp id _ Hid) as (b & Hb & Hbid); [intros Hnil; rewrite Hnil in Hlk; cbn in Hlk; lia|exists (drop k ops); by rewrite take_drop|].
    unfold action_sync. destruct (head (filter _ (availables p))) as [x|] eqn:Hh; [eauto|]. exfalso. eapply head_filter_none in Hh; [|exact Hb].
    apply Hh. destruct (pol_availables _ _ _ Hok b Hb) as (q & Hq & -> & _). apply fmap_Some in Hid as (q' & Hq' & ->). congruence. }
  rewrite Has in Ha. destruct (found p) as [[i len]|]; [destruct (len <=? k)|]; injection Ha as <-; eauto.
Qed.
(** A trigger has fired. *)
Definition fired s ops id : Prop :=
  ∃ q, plans s !! id = Some q ∧ plan_operations q `prefix_of` ops ∧
    (Always ∈ triggers q ∨ ∃ next, OnOperations next ∈ triggers q ∧ next ≠ [] ∧ (plan_operations q ++ next) `prefix_of` ops).
Lemma existsb_true_elem {A} (f : A → bool) (l : list A) : existsb f l = true ↔ ∃ x, x ∈ l ∧ f x = true.
Proof. rewrite existsb_exists. by setoid_rewrite <-list_elem_of_In. Qed.
Lemma triggered_fired ops (q : ExecutionPlan Op Opt) :
  plan_operations q `prefix_of` ops →
  existsb triggered (trigger_states (triggers q) (drop (length (plan_operations q)) ops)) = true ↔
  (Always ∈ triggers q ∨ ∃ next, OnOperations next ∈ triggers q ∧ next ≠ [] ∧ (plan_operations q ++ next) `prefix_of` ops).
Proof.
  intros [rest ->]. rewrite drop_app_length, existsb_true_elem. unfold trigger_states. split.
  - intros (t & (i & [next| |] & -> & Hx)%elem_of_lookup_imap_1 & Ht); cbn in Ht; [|done|left; by eapply list_elem_of_lookup_2].
    right. exists next. split; [by eapply list_elem_of_lookup_2|]. unfold rest_state in Ht. destruct (decide (next ≠ [] ∧ next `prefix_of` rest)) as [[Hne Hp]|]; [|by case_decide].
    split; [done|]. by apply prefix_app.
  - intros [(i & Hi)%list_elem_of_lookup_1|(next & (i & Hi)%list_elem_of_lookup_1 & Hne & Hp)];
      (eexists; split; [by eapply elem_of_lookup_imap_2|]); [done|]. cbn. unfold rest_state. rewrite decide_True; [done|].
    split; [done|]. by apply prefix_app_inv in Hp.
Qed.
Lemma found_fired s ops p :
  store_ok s → policy_ok s ops p → policy_complete s ops p → is_Some (found p) ↔ ∃ id, fired s ops id.
Proof.
  intros Hs Hok Hc. rewrite (all_found _ _ _ Hc). split.
  - intros (a & Hin & Ht). destruct (pol_availables _ _ _ Hok a Hin) as (q & Hq & _ & Hpre & _). exists (av_id a), q. split; [done|]. split; [done|].
    apply triggered_fired; [done|]. by rewrite <-(all_triggers _ _ _ Hc a q Hin Hq).
  - intros (id & q & Hq & Hpre & Ht). destruct (all_availables _ _ _ Hc id (plan_operations q)) as (a & Hin & <-); [unfold plan_ops; by rewrite Hq|by eapply store_plans|done|].
    exists a. split; [done|]. rewrite (all_triggers _ _ _ Hc a q Hin Hq). by apply triggered_fired.
Qed.
End policy.

(** ** Stores that the program builds *)

Section reach.
Context {Op Opt : Type} `{!EqDecision Op, !OperationHash Op}.
Inductive store_reach : ExecutionPlanStore Op Opt → Prop :=
  | reach_new : store_reach store_new
  | reach_add s p s' id : store_reach s → store_add (E:=unit) s p = Ok (s', id) → store_reach s'
  | reach_trigger s id t s' : store_reach s → add_trigger (E:=unit) s id t = Ok s' → store_reach s'
  | reach_sequence s ops ids : store_reach s → store_reach (add_sync_sequence s ops ids).
Lemma add_sync_sequence_ok (s : ExecutionPlanStore Op Opt) ops ids :
  store_ok s → store_ok (add_sync_sequence s ops ids) ∧ store_le s (add_sync_sequence s ops ids).
Proof.
  intros [H1 H2]. unfold add_sync_sequence. destruct (length ids <? 2); (split; [by constructor|intros id p Hp; by exists p]).
Qed.
Lemma store_reach_ok s : store_reach s → store_ok s.
Proof.
  induction 1 as [|s p s' id _ IH Ha|s id t s' _ IH Ht|s ops ids _ IH];
    [apply store_new_ok| | |exact (proj1 (add_sync_sequence_ok s ops ids IH))].
  - destruct (decide (plan_operations p = [])) as [He|He].
    + unfold store_add in Ha. by rewrite bool_decide_true in Ha.
    + destruct (store_add_ok (E:=unit) s p IH He) as (s1 & H1 & H2 & _). congruence.
  - unfold add_trigger, get in Ht. destruct (plans s !! id) as [p|] eqn:Hp; [|done].
    destruct (add_trigger_ok (E:=unit) s id p t IH Hp) as (s1 & H1 & H2 & _). unfold add_trigger, get in H1. rewrite Hp in H1. congruence.
Qed.
End reach.

(** C17. The policy tracks plans exactly.  For every store the program can build and any
    operations given to a fresh policy one by one, the updates never fail and then the
    available plans are those whose operations are a prefix of the given ones, and the
    candidates are those that strictly extend them.  In lazy mode a plan is executed
    only when the trigger of some plan has fired, and then always, and exploring is
    proposed only when no plan extends or equals the operations. *)
Theorem policy_exact {E Op Opt} `{!EqDecision Op, !OperationHash Op} (s : ExecutionPlanStore Op Opt) (ops : list Op) :
  store_reach s →
  ∃ p, res_foldl (λ p op, update (E:=E) p s op) policy_new ops = Ok p ∧
    (∀ id, id ∈ av_id <$> availables p ↔ matches s ops id) ∧
    (∀ id, ops ≠ [] → id ∈ v_id <$> candidates p ↔ ∃ po, plan_ops s id = Some po ∧ ops `prefix_of` po ∧ po ≠ ops) ∧
    ((∃ id, action (E:=E) p s ops Lazy = Ok (Execute id)) ↔ ∃ id, fired s ops id) ∧
    (ops ≠ [] → action (E:=E) p s ops Lazy = Ok Explore → ∀ id po, plan_ops s id = Some po → ¬ ops `prefix_of` po).
Proof.
  intros Hs%store_reach_ok. destruct (policy_new_ok s) as [Hok Hc].
  destruct (updates_ok (E:=E) s ops [] policy_new Hs Hok) as (p & Hp & Hok' & Hc'). specialize (Hc' Hc). cbn [app] in Hok', Hc'.
  exists p. split; [done|]. split; [|split; [|split]].
  - intros id. split.
    + intros (a & -> & Ha)%list_elem_of_fmap. destruct (pol_availables _ _ _ Hok' a Ha) as (q & Hq & _ & Hpre & _).
      exists (plan_operations q). unfold plan_ops. by rewrite Hq.
    + intros (po & Hpo & Hpre). pose proof Hpo as (q & Hq & Heq)%fmap_Some.
      destruct (all_availables _ _ _ Hc' id po Hpo) as (a & Ha & <-); [rewrite Heq; by eapply store_plans|done|]. by apply list_elem_of_fmap_2.
  - intros id Hne. split.
    + intros (c & -> & Hcin)%list_elem_of_fmap. destruct (pol_candidates _ _ _ Hok' c Hcin) as (_ & po & Hpo & Hpre & Hlen).
      exists po. split; [done|]. split; [done|]. intros ->. lia.
    + intros (po & Hpo & Hpre & Hneq). destruct (all_candidates _ _ _ Hc' id po Hpo Hne Hpre) as (c & Hcin & <-); [|by apply list_elem_of_fmap_2].
      destruct Hpre as [k ->]. rewrite length_app. destruct k; [by rewrite app_nil_r in Hneq|cbn; lia].
  - rewrite <-(found_fired s ops p Hs Hok' Hc'). unfold action. rewrite (pol_analyzed _ _ _ Hok'), Nat.ltb_irrefl. split.
    + intros (id & Ha). destruct (found p) as [[i len]|]; [eauto|]. exfalso. injection Ha as Ha. unfold action_lazy in Ha.
      destruct (candidates p); [|done]. by destruct (existsb _ _).
    + intros ([id len] & Hf). rewrite Hf. destruct (pol_found _ _ _ Hok' id len Hf) as (po & _ & -> & Hpre%prefix_length).
      destruct (Nat.leb_spec (length po) (length ops)); [eauto|lia].
  - intros Hne Ha id po Hpo Hpre. destruct (decide (po = ops)) as [->|Hneq].
    + destruct (all_availables _ _ _ Hc' id ops Hpo Hne ltac:(done)) as (a & Hin & Hid). unfold action in Ha. rewrite (pol_analyzed _ _ _ Hok'), Nat.ltb_irrefl in Ha.
      assert (action_lazy p ops = Explore) as Hl. { destruct (found p) as [[i len]|]; [destruct (len <=? length ops)|]; congruence. }
      unfold action_lazy in Hl. destruct (candidates p); [|done]. destruct (existsb _ (availables p)) eqn:Hex; [done|].
      enough (existsb (λ a, (av_size a =? length ops) || existsb (λ t, match t with
        | ValidateOperations m _ => match v_state m with Validating => true | _ => false end | _ => false end) (av_triggers a)) (availables p) = true) by congruence.
      apply existsb_true_elem. exists a. split; [done|]. destruct (pol_availables _ _ _ Hok' a Hin) as (q & Hq & -> & _).
      unfold plan_ops in Hpo. rewrite <-Hid, Hq in Hpo. injection Hpo as ->. by rewrite Nat.eqb_refl.
    + destruct (all_candidates _ _ _ Hc' id po Hpo Hne Hpre) as (c & Hcin & Hid). { destruct Hpre as [k ->]. rewrite length_app. destruct k; [by rewrite app_nil_r in Hneq|cbn; lia]. }
      unfold action in Ha. rewrite (pol_analyzed _ _ _ Hok'), Nat.ltb_irrefl in Ha.
      assert (action_lazy p ops = Explore) as Hl. { destruct (found p) as [[i len]|]; [destruct (len <=? length ops)|]; congruence. }
      unfold action_lazy in Hl. destruct (candidates p); [by apply elem_of_nil in Hcin|done].
Qed.

(** A sync finds the plan.  With the policy brought up to date, an action on a
    prefix of the operations is never an error nor, on a sync, a deferral; every plan it
    proposes matches that prefix, and when a plan of exactly the prefix is stored one is
    proposed, in any store the program can build. *)
Theorem policy_action_sound {E Op Opt} `{!EqDecision Op, !OperationHash Op} (s : ExecutionPlanStore Op Opt) (ops : list Op) (k : nat) :
  store_reach s → 0 < k ≤ length ops →
  ∃ p, res_foldl (λ p op, update (E:=E) p s op) policy_new ops = Ok p ∧
    (∀ mode, ∃ a, action (E:=E) p s (take k ops) mode = Ok a ∧ (mode = Sync → a ≠ Defer) ∧
      ∀ id, a = Execute id → matches s (take k ops) id) ∧
    (∀ id, plan_ops s id = Some (take k ops) → ∃ id', action (E:=E) p s (take k ops) Sync = Ok (Execute id')).
Proof.
  intros Hs%store_reach_ok Hk. destruct (policy_new_ok s) as [Hok Hc].
  destruct (updates_ok (E:=E) s ops [] policy_new Hs Hok) as (p & Hp & Hok' & Hc'). exists p. split; [done|]. split.
  - intros mode. destruct (action_ok (E:=E) s ops p k mode Hok') as (a & H1 & H2 & H3); [lia|]. eauto.
  - intros id Hid. destruct (action_sync_finds (E:=E) s ops p k id Hok' (Hc' Hc) Hk Hid) as (id' & H1 & _). eauto.
Qed.

(** A store of two plans on numbers. *)
#[export] Instance number_hash : OperationHash N := { operation_key n := (n `mod` 2)%N; sequence_key l := N.of_nat (length l) }.
Definition number_plan (l : list N) (ts : list (ExecutionTrigger N)) : ExecutionPlan N unit :=
  mkPlan l ts (mkOptimization (Operations (seq 0 (length l))) (seq 0 (length l))).
Definition add_plan (s : ExecutionPlanStore N unit) (p : ExecutionPlan N unit) : ExecutionPlanStore N unit :=
  match store_add (E:=unit) s p with Ok (s, _) => s | _ => s end.
Definition one_plan : ExecutionPlanStore N unit := add_plan store_new (number_plan [1; 2]%N [OnOperations [3%N]]).
Definition two_plans : ExecutionPlanStore N unit := add_plan one_plan (number_plan [1; 2; 4]%N [OnSync]).
Lemma two_plans_reach : store_reach two_plans.
Proof.
  apply (reach_add one_plan (number_plan [1; 2; 4]%N [OnSync]) two_plans 1); [|vm_compute; reflexivity].
  apply (reach_add store_new (number_plan [1; 2]%N [OnOperations [3%N]]) one_plan 0); [apply reach_new|vm_compute; reflexivity].
Qed.
Lemma policy_exact_witness :
  store_reach two_plans ∧
  ∃ p, res_foldl (λ p op, update (E:=unit) p two_plans op) policy_new [1; 2; 3]%N = Ok p ∧
    ((∃ id, action (E:=unit) p two_plans [1; 2; 3]%N Lazy = Ok (Execute id)) ↔ ∃ id, fired two_plans [1; 2; 3]%N id) ∧
    action (E:=unit) p two_plans [1; 2; 3]%N Lazy = Ok (Execute 0).
Proof.
  split; [apply two_plans_reach|]. destruct (policy_exact (E:=unit) two_plans [1; 2; 3]%N two_plans_reach) as (p & Hp & _ & _ & Hl & _).
  exists p. split; [done|]. split; [done|]. revert Hp. vm_compute. by intros [= <-].
Defined.
Lemma policy_action_sound_witness :
  store_reach two_plans ∧
  ∃ p, res_foldl (λ p op, update (E:=unit) p two_plans op) policy_new [1; 2; 3]%N = Ok p ∧
    ∀ id, plan_ops two_plans id = Some [1; 2]%N → ∃ id', action (E:=unit) p two_plans [1; 2]%N Sync = Ok (Execute id').
Proof.
  split; [apply two_plans_reach|]. destruct (policy_action_sound (E:=unit) two_plans [1; 2; 3]%N 2 two_plans_reach ltac:(cbn; lia)) as (p & Hp & _ & Hs).
  exists p. split; [done|]. exact Hs.
Defined.
