(* ===== verification/FusionQueue.v ===== *)
(** * The operation queue and the processor

    [ruda-fusion/src/stream/]: [queue/base.rs] and [queue/execution.rs] (the pending
    operations of a stream, and running a plan on them), [execution/ordering.rs]
    (operations out of order), [execution/explorer.rs] (feeding the search) and
    [execution/processor.rs] (which plan to run, and when).

    What the operations and the fused operations do to the tensor handles is a
    parameter: the handles are the trace of what was run and freed.  Running a fused
    operation may change it ([ran]).  Which parts of an operation are outputs depends
    on its variant: a class.  The logging is left out. *)

From S2P Require Import Prelude Tensor FusionGraph FusionSearch FusionRelative FusionStore.
Open Scope nat_scope.

#[export] Instance ScalarIr_eq_dec : EqDecision ScalarIr.
Proof. solve_decision. Defined.
#[export] Instance Slice_eq_dec : EqDecision Slice.
Proof. solve_decision. Defined.
#[export] Instance Part_eq_dec : EqDecision Part.
Proof. solve_decision. Defined.
#[export] Instance Operation_eq_dec : EqDecision Operation.
Proof. solve_decision. Defined.

(** The tensors of an operation, by the variant and the position among the parts. *)
Class OperationLayout := { is_output : N → nat → bool; drop_tag : N → bool; ordered_tag : N → bool }.
Definition part_tensors (out : nat → bool) (ps : list Part) : list TensorIr :=
  omap (λ p, match p with PTensor t => Some t | _ => None end)
    ((filter (λ q, out q.1 = true) (imap pair ps)).*2).
#[export] Instance operation_ir `{OperationLayout} : OperationIr Operation := {
  inputs o := part_tensors (λ i, negb (is_output (tag o) i)) (parts o);
  outputs o := part_tensors (is_output (tag o)) (parts o);
  is_drop o := drop_tag (tag o);
  ordered_effect o := ordered_tag (tag o)
}.

(** What happens to the handles. *)
Inductive Event (U Opt : Type) :=
  | RanOperation (u : U)
  | RanOptimization (opt : Opt) (us : list U) (ordering : list nat)
  | Freed (t : TensorIr).
Arguments RanOperation {U Opt}.
Arguments RanOptimization {U Opt}.
Arguments Freed {U Opt}.

Record OrderedExecution (U : Type) := mkExecution {
  ex_operations : list U;
  num_executed : nat;
  ex_ordering : option (list nat)
}.
Arguments mkExecution {U}.
Arguments ex_operations {U}.
Arguments num_executed {U}.
Arguments ex_ordering {U}.
Record OperationQueue (U : Type) := mkQueue {
  global : list Operation;
  relative : list Operation;
  converter : OperationConverter;
  q_operations : list U;
  variables : gmap N (N * TensorStatus)
}.
Arguments mkQueue {U}.
Arguments global {U}.
Arguments relative {U}.
Arguments converter {U}.
Arguments q_operations {U}.
Arguments variables {U}.

Section queue.
Context {E U F Opt : Type} `{!OperationLayout, !OperationHash Operation, !Fuser Operation F Opt}.
Context (ran : Opt → OperationConverter → list (Event U Opt) → Opt).
Abbreviation Trace := (list (Event U Opt)).
Abbreviation Store := (ExecutionPlanStore Operation Opt).
Implicit Types (x : OrderedExecution U) (q : OperationQueue U) (h : Trace) (c : OperationConverter).

(** ** Operations out of order *)

Definition operation_within_optimization x (i : nat) : res E U :=
  match ex_ordering x with
  | Some val => let? p := get val i in get (ex_operations x) p
  | None => Panic
  end.
Definition execution_new (us : list U) : OrderedExecution U := mkExecution us 0 None.
Definition execution_finish x : res E (list U * nat) :=
  if length (ex_operations x) <? num_executed x then Panic
  else Ok (drop (num_executed x) (ex_operations x), num_executed x).
Definition execute_optimization (opt : Opt) c (ord : list nat) x h : res E (Opt * OrderedExecution U * Trace) :=
  if length (ex_operations x) <? length ord then Panic
  else
    let num_drained := num_operations opt in
    Ok (ran opt c h, mkExecution (ex_operations x) (num_executed x + num_drained) (Some ord),
        h ++ [RanOptimization opt (ex_operations x) ord]).
Definition execute_operations (ord : list nat) x h : res E (OrderedExecution U * Trace) :=
  let? h := res_foldl (λ h id, let? u := get (ex_operations x) id in Ok (h ++ [RanOperation u])) h ord in
  Ok (mkExecution (ex_operations x) (num_executed x + length ord) (ex_ordering x), h).
Fixpoint execute_strategy c (s : ExecutionStrategy Opt) x h : res E (ExecutionStrategy Opt * OrderedExecution U * Trace) :=
  match s with
  | Optimization opt ord sc =>
      let? r := execute_optimization opt c ord x h in Ok (Optimization r.1.1 ord sc, r.1.2, r.2)
  | Operations ord => let? r := execute_operations ord x h in Ok (s, r.1, r.2)
  | Composed items =>
      let? r := (fix items_loop (l : list (ExecutionStrategy Opt)) x h :=
                   match l with
                   | [] => Ok ([], x, h)
                   | s :: l =>
                       let? r := execute_strategy c s x h in
                       let? rs := items_loop l r.1.2 r.2 in
                       Ok (r.1.1 :: rs.1.1, rs.1.2, rs.2)
                   end) items x h in
      Ok (Composed r.1.1, r.1.2, r.2)
  end.
(** [run_strategy]: both branches of the source execute the strategy; the guard only
    lends the converter and the handles to the context. *)
Definition run_strategy (o : BlockOptimization Opt) c (us : list U) h : res E (BlockOptimization Opt * list U * nat * Trace) :=
  let? r := execute_strategy c (strategy o) (execution_new us) h in
  let? f := execution_finish r.1.2 in
  Ok (mkOptimization r.1.1 (opt_ordering o), f.1, f.2, r.2).

(** ** The queue *)

Definition queue_new : OperationQueue U := mkQueue [] [] converter_new [] ∅.
(** [OperationStreams::get] *)
Fixpoint streams_get (streams : list (N * N)) (id : N) : option N :=
  match streams with
  | [] => None
  | (t, stream) :: streams => if (t =? id)%N then Some stream else streams_get streams id
  end.
Definition queue_add q (op : Operation) (u : U) (streams : list (N * N)) (current : N) : res E (OperationQueue U) :=
  let vars := foldl (λ m (t : TensorIr), <[tensor_id t := (default current (streams_get streams (tensor_id t)), status t)]> m)
                (variables q) (inputs op ++ outputs op) in
  let? r := to_relative op (converter q) in
  Ok (mkQueue (global q ++ [op]) (relative q ++ [r.1]) r.2 (q_operations q ++ [u]) vars).
Definition reset_relative q : res E (OperationQueue U) :=
  let? r := all_to_relative (global q) (converter_clear (converter q)) in
  Ok (mkQueue (global q) r.1 r.2 (q_operations q) (variables q)).
Definition drain_queue (num_drained : nat) q h : res E (OperationQueue U * Trace) :=
  if length (global q) <? num_drained then Panic
  else
    let ts := concat ((λ o, inputs o ++ outputs o) <$> take num_drained (global q)) in
    let vars := foldl (λ m (t : TensorIr), if decide (status t = ReadWrite) then delete (tensor_id t) m else m) (variables q) ts in
    let? q := reset_relative (mkQueue (drop num_drained (global q)) (relative q) (converter q) (q_operations q) vars) in
    Ok (q, h ++ (Freed <$> ts)).
Definition execute_block_optimization (o : BlockOptimization Opt) q h : res E (BlockOptimization Opt * OperationQueue U * Trace) :=
  let? r := run_strategy o (converter q) (q_operations q) h in
  let '(o, us, num_drained, h) := r in
  let? d := drain_queue num_drained (mkQueue (global q) (relative q) (converter q) us (variables q)) h in
  Ok (o, d.1, d.2).
(** [execute]: the optimization is borrowed from the store and may be changed by its run. *)
Definition queue_execute (id : nat) q (s : Store) h : res E (OperationQueue U * Store * Trace) :=
  let? p := get_unchecked s id in
  let? r := execute_block_optimization (optimization p) q h in
  Ok (r.1.2, mkStore (<[id := mkPlan (plan_operations p) (triggers p) r.1.1]> (plans s)) (index s) (sync_sequences s), r.2).
End queue.

(** ** The explorer *)

Record Explorer (F : Type) := mkExplorer {
  optimizer : StreamOptimizer Operation F;
  num_deferred : nat;
  num_explored : nat;
  is_still_optimizing : bool;
  num_explorations : nat;
  max_explorations : option nat
}.
Arguments mkExplorer {F}.
Arguments optimizer {F}.
Arguments num_deferred {F}.
Arguments num_explored {F}.
Arguments is_still_optimizing {F}.
Arguments num_explorations {F}.
Arguments max_explorations {F}.
Inductive ExplorationAction (Opt : Type) :=
  | Completed (o : BlockOptimization Opt)
  | Continue
  | Unfused (o : BlockOptimization Opt).
Arguments Completed {Opt}.
Arguments Continue {Opt}.
Arguments Unfused {Opt}.

Section explorer.
Context {E F Opt : Type} `{!OperationLayout, !Fuser Operation F Opt}.
(** [config().fusion.beam_search.max_blocks] and [max_explorations] *)
Context (beam : nat) (limit : option nat).
Implicit Types (x : Explorer F) (ops : list Operation).

Definition explorer_new (bs : list F) : Explorer F := mkExplorer (stream_new beam bs) 0 0 true 0 limit.
Definition explorer_on_new_operation x : Explorer F :=
  mkExplorer (optimizer x) (S (num_deferred x)) (num_explored x) (is_still_optimizing x) (num_explorations x) (max_explorations x).
Definition is_up_to_date x : bool := num_deferred x =? 0.
Definition explorer_reset ops x : Explorer F :=
  mkExplorer (stream_reset (optimizer x)) (length ops) 0 true (num_explorations x) (max_explorations x).
(** The loop of [update] over [i], from [num_deferred - 1] down to 0. *)
Fixpoint update_loop (i : nat) ops x : res E (Explorer F) :=
  match i with
  | O => Ok x
  | S i =>
      if negb (is_still_optimizing x) then Ok x
      else if length ops <? i + 1 then Panic
      else
        let? op := get ops (length ops - 1 - i) in
        let? s := register (optimizer x) op in
        update_loop i ops
          (mkExplorer s (num_deferred x) (S (num_explored x)) (stream_still_optimizing s) (num_explorations x) (max_explorations x))
  end.
Definition explorer_update ops x : res E (Explorer F) :=
  let? x := update_loop (num_deferred x) ops x in
  Ok (mkExplorer (optimizer x) 0 (num_explored x) (is_still_optimizing x) (num_explorations x) (max_explorations x)).
Definition explore ops (mode : ExecutionMode) x : res E (ExplorationAction Opt * Explorer F) :=
  if match max_explorations x with Some max => max <=? num_explorations x | None => false end then
    let ordering := seq 0 (length ops) in
    Ok (Unfused (mkOptimization (Operations ordering) ordering),
        mkExplorer (optimizer x) 0 (num_explored x) false (num_explorations x) (max_explorations x))
  else
    let? x := explorer_update ops x in
    if match mode with Lazy => is_still_optimizing x | Sync => false end then Ok (Continue, x)
    else
      let? o := optimize beam (S (length ops)) (optimizer x) ops in
      Ok (Completed o,
          mkExplorer (optimizer x) (num_deferred x) (num_explored x) (is_still_optimizing x) (S (num_explorations x)) (max_explorations x)).
End explorer.

(** ** The processor *)

Record SyncCapture := mkCapture { captured_operations : list Operation; captured_plans : list nat }.
Record Processor (F : Type) := mkProcessor { policy : Policy; explorer : Explorer F }.
Arguments mkProcessor {F}.
Arguments policy {F}.
Arguments explorer {F}.
(** The processor of a stream, its queue, the store of the device and the handles. *)
Record Segment (U F Opt : Type) := mkSegment {
  processor : Processor F;
  queue : OperationQueue U;
  store : ExecutionPlanStore Operation Opt;
  trace : list (Event U Opt)
}.
Arguments mkSegment {U F Opt}.
Arguments processor {U F Opt}.
Arguments queue {U F Opt}.
Arguments store {U F Opt}.
Arguments trace {U F Opt}.

Section processor.
Context {E U F Opt : Type} `{!OperationLayout, !OperationHash Operation, !Fuser Operation F Opt}.
Context (beam : nat) (ran : Opt → OperationConverter → list (Event U Opt) → Opt).
Abbreviation Store := (ExecutionPlanStore Operation Opt).
Abbreviation Seg := (Segment U F Opt).
Implicit Types (g : Seg) (s : Store) (mode : ExecutionMode).

Definition segment_operations g : list Operation := relative (queue g).
Definition processor_new (limit : option nat) (bs : list F) : Processor F :=
  mkProcessor policy_new (explorer_new beam limit bs).
Definition processor_reset s (ops : list Operation) (p : Processor F) : res E (Processor F) :=
  let x := explorer_reset ops (explorer p) in
  let? pol := res_foldl (λ pol op, update pol s op) (policy_reset (policy p)) ops in
  Ok (mkProcessor pol x).
(** Executing a plan and then resetting the processor with what is left. *)
Definition execute_and_reset (id : nat) g : res E Seg :=
  let? r := queue_execute ran id (queue g) (store g) (trace g) in
  let? p := processor_reset r.1.2 (relative r.1.1) (processor g) in
  Ok (mkSegment p r.1.1 r.1.2 r.2).
Definition execute_plan (id : nat) mode g (capture : option SyncCapture) : res E (Seg * option SyncCapture) :=
  let? capture :=
    match mode with
    | Lazy => Ok capture
    | Sync =>
        let? capture :=
          match capture with
          | None =>
              let? item := get_unchecked (store g) id in
              Ok (if length (plan_operations item) <? length (segment_operations g)
                  then Some (mkCapture (segment_operations g) []) else None)
          | Some _ => Ok capture
          end in
        Ok ((λ k, mkCapture (captured_operations k) (captured_plans k ++ [id])) <$> capture)
    end in
  let? g := execute_and_reset id g in
  Ok (g, capture).
Definition on_exploration_completed (pol : Policy) (ops : list Operation) s (o : BlockOptimization Opt) mode : res E (Store * nat) :=
  let num_optimized := length (opt_ordering o) in
  if length ops <? num_optimized then Panic
  else
    let rel := take num_optimized ops in
    let trigger :=
      match mode with
      | Lazy => match drop num_optimized ops with [] => Always | next => OnOperations next end
      | Sync => OnSync
      end in
    let? a := action pol s rel Sync in
    match a with
    | Execute id => let? s := add_trigger s id trigger in Ok (s, id)
    | _ => store_add s (mkPlan rel [trigger] o)
    end.
Definition processor_explore mode g (capture : option SyncCapture) : res E (Seg * option SyncCapture) :=
  let? e := explore beam (segment_operations g) mode (explorer (processor g)) in
  let p := mkProcessor (policy (processor g)) e.2 in
  match e.1 with
  | Completed o =>
      let? r := on_exploration_completed (policy p) (segment_operations g) (store g) o mode in
      execute_plan r.2 mode (mkSegment p (queue g) r.1 (trace g)) capture
  | Continue => match mode with Sync => Panic | Lazy => Ok (mkSegment p (queue g) (store g) (trace g), capture) end
  | Unfused o =>
      let? r := execute_block_optimization ran o (queue g) (trace g) in
      let? p := processor_reset (store g) (relative r.1.2) p in
      Ok (mkSegment p r.1.2 (store g) r.2, None)
  end.
(** The loop of [process]: a turn that does not end it runs an operation at least. *)
Fixpoint process_loop (fuel : nat) mode g (capture : option SyncCapture) : res E (Seg * option SyncCapture) :=
  match fuel with
  | O => Panic
  | S fuel =>
      if bool_decide (segment_operations g = []) then Ok (g, capture)
      else
        let? a := action (policy (processor g)) (store g) (segment_operations g) mode in
        match a with
        | Explore =>
            let? r := processor_explore mode g capture in
            if is_up_to_date (explorer (processor r.1)) then Ok r else process_loop fuel mode r.1 r.2
        | Defer => match mode with Lazy => Ok (g, capture) | Sync => Panic end
        | Execute id =>
            let? s := match mode with Sync => add_trigger (store g) id OnSync | Lazy => Ok (store g) end in
            let? r := execute_plan id mode (mkSegment (processor g) (queue g) s (trace g)) capture in
            process_loop fuel mode r.1 r.2
        end
  end.
Definition processor_on_new_operation g : res E Seg :=
  match last (segment_operations g) with
  | None => Panic
  | Some op =>
      let? pol := update (policy (processor g)) (store g) op in
      Ok (mkSegment (mkProcessor pol (explorer_on_new_operation (explorer (processor g)))) (queue g) (store g) (trace g))
  end.
Definition run_sequence (ids : list nat) g : res E Seg :=
  res_foldl (λ g id,
    let? s := add_trigger (store g) id OnSync in
    execute_and_reset id (mkSegment (processor g) (queue g) s (trace g))) g ids.
Definition process mode g : res E Seg :=
  let? g := match mode with Lazy => processor_on_new_operation g | Sync => Ok g end in
  let? g :=
    match mode with
    | Lazy => Ok g
    | Sync =>
        match find_sync_sequence (store g) (segment_operations g) with
        | Some ids => run_sequence ids g
        | None => Ok g
        end
    end in
  let? r := process_loop (S (length (segment_operations g))) mode g None in
  Ok (match r.2 with
      | Some k =>
          if bool_decide (segment_operations r.1 = [])
          then mkSegment (processor r.1) (queue r.1)
                 (add_sync_sequence (store r.1) (captured_operations k) (captured_plans k)) (trace r.1)
          else r.1
      | None => r.1
      end).
End processor.
