(* ===== verification/FusionRename.v ===== *)
(** * Valid orders do not depend on names

    A plan is made for relative operations and runs the original ones: the check of
    execution orders gives the same answer for both. *)

From S2P Require Import Prelude Tensor FusionGraph FusionLifetime FusionSearch FusionSearchInv FusionRelative FusionRelativeProps FusionPlan FusionOptimize FusionQueue.
Open Scope nat_scope.

(** ** Nodes alike *)

Section rename.
Context `{GraphNode Nd} (R : N → N → Prop).
Context (Hfun : ∀ a b b', R a b → R a b' → b = b') (Hinj : ∀ a a' b, R a b → R a' b → a = a').
Record node_like (n n' : Nd) : Prop := {
  like_position : position n = position n';
  like_range : ordered_range n = ordered_range n';
  like_read : Forall2 R (read n) (read n');
  like_freed : Forall2 R (freed n) (freed n');
  like_produced : Forall2 R (produced n) (produced n')
}.
Lemma elem_like l l' a b : Forall2 R l l' → R a b → a ∈ l ↔ b ∈ l'.
Proof using Hfun Hinj.
  intros Hf Hab. induction Hf as [|x y l l' Hxy Hf IH]; [by rewrite !elem_of_nil|]. rewrite !elem_of_cons, IH.
  enough (a = x ↔ b = y) by naive_solver. split; [intros ->; by eapply Hfun|intros ->; by eapply Hinj].
Qed.
Lemma makers_like order order' a b : Forall2 node_like order order' → R a b → makers order a = makers order' b.
Proof using Hfun Hinj.
  intros Hf Hab. unfold makers. induction Hf as [|n n' l l' Hn Hf IH]; [done|]. rewrite !filter_cons.
  pose proof (elem_like _ _ a b (like_produced _ _ Hn) Hab) as He. case_decide; case_decide; [|naive_solver|naive_solver|done].
  rewrite !fmap_cons, IH. f_equal. apply Hn.
Qed.
Record state_like (st st' : Lifetime) : Prop := {
  like_current : ∀ a b, R a b → current st !! a = current st' !! b;
  like_dead : ∀ a b, R a b → a ∈ dead st ↔ b ∈ dead st';
  like_effect : last_effect st = last_effect st'
}.
Lemma step_like order order' st st' n n' st1 :
  Forall2 node_like order order' → state_like st st' → node_like n n' →
  node_step (collect_producers order) st n = Some st1 →
  ∃ st1', node_step (collect_producers order') st' n' = Some st1' ∧ state_like st1 st1'.
Proof using Hfun Hinj.
  intros Ho Hs Hn Hstep. pose proof (node_step_inv _ _ _ _ Hstep) as (Heff & Hlast & Hread & Hcur & Hdead).
  destruct (node_step_ok (collect_producers order') st' n') as (st1' & Hstep').
  - intros first last. rewrite <-(like_range _ _ Hn), <-(like_effect _ _ Hs). apply Heff.
  - intros b Hb. destruct (list_elem_of_lookup_1 _ _ Hb) as (i & Hi).
    destruct (Forall2_lookup_r _ _ _ _ _ (like_read _ _ Hn) Hi) as (a & Ha & Hab).
    destruct (Hread a) as [Hd Hc]; [by eapply list_elem_of_lookup_2|].
    split; [by rewrite <-(like_dead _ _ Hs a b Hab)|]. rewrite <-(like_current _ _ Hs a b Hab), Hc, !expected_producer_latest.
    by rewrite (makers_like _ _ a b Ho Hab), (like_position _ _ Hn).
  - exists st1'. split; [done|]. pose proof (node_step_inv _ _ _ _ Hstep') as (_ & Hlast' & _ & Hcur' & Hdead'). constructor.
    + intros a b Hab. rewrite Hcur, Hcur', (like_position _ _ Hn), (like_current _ _ Hs a b Hab).
      apply decide_ext. exact (elem_like _ _ a b (like_produced _ _ Hn) Hab).
    + intros a b Hab. rewrite Hdead, Hdead', (like_dead _ _ Hs a b Hab).
      by rewrite (elem_like _ _ a b (like_produced _ _ Hn) Hab), (elem_like _ _ a b (like_freed _ _ Hn) Hab).
    + by rewrite Hlast, Hlast', (like_range _ _ Hn), (like_effect _ _ Hs).
Qed.
Lemma loop_like order order' l l' st st' :
  Forall2 node_like order order' → Forall2 node_like l l' → state_like st st' →
  lifetime_loop (collect_producers order) st l = true → lifetime_loop (collect_producers order') st' l' = true.
Proof using Hfun Hinj.
  intros Ho Hl. revert st st'. induction Hl as [|n n' l l' Hn Hl IH]; intros st st' Hs; [done|]. cbn [lifetime_loop].
  destruct (node_step (collect_producers order) st n) as [st1|] eqn:Hst; [|done].
  destruct (step_like _ _ _ _ _ _ _ Ho Hs Hn Hst) as (st1' & -> & Hs1). by apply IH.
Qed.
Lemma valid_like order order' :
  Forall2 node_like order order' → is_valid_execution_order order = true → is_valid_execution_order order' = true.
Proof using Hfun Hinj.
  intros Ho. apply loop_like; [done|done|]. constructor; [done| |done]. intros a b _. cbn. set_solver.
Qed.
End rename.

(** ** Relative operations *)

Section relative.
Context `{!OperationLayout}.
Implicit Types (c : OperationConverter) (o : Operation).

Lemma part_tensors_like c out ps ps' :
  Forall2 (encodes c) ps ps' →
  Forall2 (λ t t', rel_id c (tensor_id t) (tensor_id t') ∧ status t' = status t) (part_tensors out ps) (part_tensors out ps').
Proof.
  unfold part_tensors. intros Hf. change (imap pair ps) with (imap (λ i, pair i) ps). change (imap pair ps') with (imap (λ i, pair i) ps').
  assert (∀ k, Forall2 (λ t t', rel_id c (tensor_id t) (tensor_id t') ∧ status t' = status t)
    (omap (λ p, match p with PTensor t => Some t | _ => None end) ((filter (λ q, out q.1 = true) (imap (λ i, pair (k + i)) ps)).*2))
    (omap (λ p, match p with PTensor t => Some t | _ => None end) ((filter (λ q, out q.1 = true) (imap (λ i, pair (k + i)) ps')).*2))) as Hk;
    [|exact (Hk 0)].
  induction Hf as [|p p' ps ps' Hp Hf IH]; intros k; [constructor|]. rewrite !imap_cons, !filter_cons. cbn [fst].
  assert (∀ qs : list Part, imap ((λ i, pair (k + i)) ∘ S) qs = imap (λ i, pair (S k + i)) qs) as Hsh.
  { intros qs. apply imap_ext. intros i q _. cbn. by rewrite Nat.add_succ_r. }
  rewrite !Hsh. specialize (IH (S k)). destruct (decide (out (k + 0) = true)); [|exact IH]. rewrite !fmap_cons. cbn [omap list_omap snd].
  destruct p, p'; cbn in Hp; try done. constructor; [|exact IH]. split; [apply Hp|]. symmetry. naive_solver.
Qed.
Lemma operation_like c o o' n :
  encodes_op c o o' → node_like (λ i j, rel_id c j i) (mkNode o' n) (mkNode o n).
Proof.
  intros [Ht Hp]. assert (∀ out, Forall2 (λ t' t, rel_id c (tensor_id t) (tensor_id t') ∧ status t' = status t)
    (part_tensors out (parts o')) (part_tensors out (parts o))) as Hts by (intros out; by apply Forall2_flip, part_tensors_like).
  constructor; cbn; [done|by rewrite Ht| | |]; rewrite ?Ht.
  - apply Forall2_fmap. eapply Forall2_impl; [apply Hts|]. naive_solver.
  - apply Forall2_fmap. specialize (Hts (λ i, negb (is_output (tag o) i))).
    induction Hts as [|t' t l' l [H1 H2] Hf IH]; [constructor|]. rewrite !filter_cons, H2. case_decide; [by constructor|done].
  - apply Forall2_fmap. eapply Forall2_impl; [apply Hts|]. naive_solver.
Qed.
Lemma nodes_at_like c os os' ord :
  Forall2 (encodes_op c) os os' → Forall2 (node_like (λ i j, rel_id c j i)) (nodes_at os' ord) (nodes_at os ord).
Proof.
  intros Hf. induction ord as [|p ord IH]; [constructor|]. unfold nodes_at. cbn [omap list_omap].
  destruct (os !! p) as [o|] eqn:Ho.
  - destruct (Forall2_lookup_l _ _ _ _ _ Hf Ho) as (o' & -> & He). cbn. constructor; [by apply operation_like|exact IH].
  - apply lookup_ge_None in Ho. rewrite (Forall2_length _ _ _ Hf) in Ho. by rewrite (lookup_ge_None_2 _ _ Ho).
Qed.
(** An order that is valid for the relative operations is valid for the original ones. *)
Lemma valid_order_original {E} os os' c ord :
  all_to_relative (E:=E) os converter_new = Ok (os', c) → valid_order os' ord → valid_order os ord.
Proof.
  intros Hr. destruct (all_to_relative_ok (E:=E) os _ converter_new_ok (all_convertible _ _ _ Hr)) as (? & ? & Hr' & Hc & _ & He).
  rewrite Hr in Hr'. injection Hr' as <- <-. unfold valid_order. apply (valid_like (λ i j, rel_id c j i)).
  - intros i j j' Hj Hj'. by apply (rel_id_inj c j j' i Hc).
  - intros i i' j Hi Hi'. by apply (rel_id_fun c j).
  - by apply nodes_at_like.
Qed.
Lemma has_tensor_relative {E} os os' c :
  all_to_relative (E:=E) os converter_new = Ok (os', c) → Forall has_tensor os → Forall has_tensor os'.
Proof.
  intros Hr. destruct (all_to_relative_ok (E:=E) os _ converter_new_ok (all_convertible _ _ _ Hr)) as (? & ? & Hr' & _ & _ & He).
  rewrite Hr in Hr'. injection Hr' as <- <-. clear Hr. induction He as [|o o' os os' [Ht Hp] He IH]; [done|]. intros [H1 H2]%Forall_cons.
  constructor; [|by apply IH]. unfold has_tensor in *. cbn in *. rewrite Ht. intros Hn%app_eq_nil. apply H1.
  assert (∀ out, part_tensors out (parts o') = [] → part_tensors out (parts o) = []) as Hnil.
  { intros out Ho. pose proof (part_tensors_like c out _ _ Hp) as Hf. rewrite Ho in Hf. by apply Forall2_nil_inv_r in Hf. }
  by rewrite !Hnil by apply Hn.
Qed.
End relative.
