(* ===== verification/FusionRun.v ===== *)
(** * Running a plan on a queue

    A plan for [k] operations runs the first [k] of the queue, each once, in the order
    of the plan, and leaves the rest converted anew. *)

From S2P Require Import Prelude Tensor FusionGraph FusionLifetime FusionSearch FusionSearchInv FusionRelative FusionRelativeProps FusionPlan FusionOptimize FusionStore FusionQueue FusionRename.
Open Scope nat_scope.

(** ** What was run *)

Section units.
Context {U Opt : Type}.
Definition event_units (e : Event U Opt) : list U :=
  match e with
  | RanOperation u => [u]
  | RanOptimization _ us ord => pick us ord
  | Freed _ => []
  end.
Definition ran_units (h : list (Event U Opt)) : list U := concat (event_units <$> h).
Lemma ran_units_app h k : ran_units (h ++ k) = ran_units h ++ ran_units k.
Proof. unfold ran_units. by rewrite fmap_app, concat_app. Qed.
Lemma ran_units_freed h (ts : list TensorIr) : ran_units (h ++ (Freed <$> ts)) = ran_units h.
Proof.
  rewrite ran_units_app. enough (ran_units (Freed <$> ts) = []) as -> by apply app_nil_r.
  induction ts as [|t ts IH]; [done|]. exact IH.
Qed.
End units.
Lemma pick_app {A} (l : list A) o o' : pick l (o ++ o') = pick l o ++ pick l o'.
Proof. unfold pick. by rewrite omap_app. Qed.
Lemma pick_drop {A} (l : list A) n o : pick (drop n l) o = pick l (Nat.add n <$> o).
Proof.
  induction o as [|i o IH]; [done|]. unfold pick in *. cbn [omap list_omap fmap list_fmap]. rewrite lookup_drop, IH. done.
Qed.
Lemma NoDup_bounded (l : list nat) n : NoDup l → (∀ p, p ∈ l → p < n) → length l ≤ n.
Proof.
  intros Hn Hb. rewrite <-(length_seq n 0). apply NoDup_incl_length; [by apply NoDup_ListNoDup|].
  intros p Hp%list_elem_of_In. apply in_seq. specialize (Hb p Hp). lia.
Qed.

(** ** Strategies *)

Section run.
Context {E U F Opt : Type} `{!OperationLayout, !OperationHash Operation, !Fuser Operation F Opt}.
Context (ran : Opt → OperationConverter → list (Event U Opt) → Opt).
(** Running a fused operation does not change how many operations it stands for. *)
Context (Hran : ∀ opt c h, num_operations (ran opt c h) = num_operations opt).
Implicit Types (x : OrderedExecution U) (q : OperationQueue U) (h : list (Event U Opt)) (s : ExecutionStrategy Opt).

(** Every fused part stands for the operations of its ordering. *)
Definition counted s : Prop :=
  Forall (λ s, match s with Optimization opt ord _ => num_operations opt = length ord | _ => True end) (flatten_strategy s).
(** A plan for the first [k] operations. *)
Record runs_as (k : nat) (o : BlockOptimization Opt) : Prop := {
  runs_order : opt_ordering o ≡ₚ seq 0 k;
  runs_positions : strategy_positions (strategy o) = opt_ordering o;
  runs_counted : counted (strategy o)
}.
Lemma execute_operations_ok ord x h :
  (∀ p, p ∈ ord → p < length (ex_operations x)) →
  ∃ h', execute_operations (E:=E) ord x h = Ok (mkExecution (ex_operations x) (num_executed x + length ord) (ex_ordering x), h') ∧
    ran_units h' = ran_units h ++ pick (ex_operations x) ord.
Proof.
  intros Hb. unfold execute_operations.
  assert (∃ h', res_foldl (λ h id, let? u := get (E:=E) (ex_operations x) id in Ok (h ++ [RanOperation u])) h ord = Ok h' ∧
    ran_units h' = ran_units h ++ pick (ex_operations x) ord) as (h' & -> & Hh); [|cbn [res_bind]; eauto].
  revert h. induction ord as [|p ord IH]; intros h; cbn [res_foldl]; [exists h; by rewrite app_nil_r|].
  destruct (lookup_lt_is_Some_2 (ex_operations x) p) as [u Hu]; [apply Hb; by left|]. unfold get at 1. rewrite Hu. cbn [res_bind].
  destruct (IH (λ p' Hp', Hb p' ltac:(by right)) (h ++ [RanOperation u])) as (h' & -> & Hh). exists h'. split; [done|].
  rewrite Hh, ran_units_app, <-app_assoc. unfold pick. cbn [omap list_omap]. by rewrite Hu.
Qed.
Lemma execute_strategy_ok c s x h :
  counted s → NoDup (strategy_positions s) → (∀ p, p ∈ strategy_positions s → p < length (ex_operations x)) →
  ∃ s' x' h', execute_strategy (E:=E) ran c s x h = Ok (s', x', h') ∧
    ex_operations x' = ex_operations x ∧ num_executed x' = num_executed x + length (strategy_positions s) ∧
    strategy_positions s' = strategy_positions s ∧ counted s' ∧
    ran_units h' = ran_units h ++ pick (ex_operations x) (strategy_positions s).
Proof using Hran.
  revert x h. induction s as [opt ord sc|ord|items IH] using strategy_rect; intros x h Hc Hn Hb; cbn [execute_strategy strategy_positions] in *.
  - unfold execute_optimization. destruct (Nat.ltb_spec (length (ex_operations x)) (length ord)) as [Hl|_].
    { pose proof (NoDup_bounded _ _ Hn Hb). lia. }
    cbn [res_bind fst snd]. apply Forall_cons in Hc as [Hc _]. eexists _, _, _. split; [done|]. cbn. split; [done|]. split; [by rewrite Hc|]. split; [done|].
    split; [constructor; [by rewrite Hran|done]|]. rewrite ran_units_app. unfold ran_units at 2. cbn. by rewrite app_nil_r.
  - destruct (execute_operations_ok ord x h Hb) as (h' & -> & Hh). cbn [res_bind fst snd]. eexists _, _, _. by repeat (split; [done|]).
  - match goal with |- context [res_bind (?loop items x h) _] => set (go := loop) end.
    assert (∃ l' x' h', go items x h = Ok (l', x', h') ∧ ex_operations x' = ex_operations x ∧
      num_executed x' = num_executed x + length (all_positions items) ∧ all_positions l' = all_positions items ∧
      Forall counted l' ∧ ran_units h' = ran_units h ++ pick (ex_operations x) (all_positions items))
      as (l' & x' & h' & Hgo & H1 & H2 & H3 & H4 & H5).
    { clear -IH Hc Hn Hb Hran. unfold all_positions. revert x h Hb Hn Hc. induction IH as [|s items Hs Hitems IH]; intros x h Hb Hn Hc.
      { exists [], x, h. cbn. rewrite Nat.add_0_r, app_nil_r. by repeat (split; [done|]). }
      rewrite fmap_cons in Hb, Hn. cbn [concat] in Hb, Hn. apply NoDup_app in Hn as (Hn1 & _ & Hn2).
      unfold counted in Hc. cbn [flatten_strategy] in Hc. rewrite fmap_cons in Hc. cbn [concat] in Hc. apply Forall_app in Hc as [Hc1 Hc2].
      cbn [go]. destruct (Hs x h Hc1 Hn1) as (s' & x1 & h1 & -> & A1 & A2 & A3 & A4 & A5); [intros p Hp; apply Hb, elem_of_app; by left|].
      cbn [res_bind fst snd]. destruct (IH x1 h1) as (l' & x2 & h2 & Hl & B1 & B2 & B3 & B4 & B5).
      { intros p Hp. rewrite A1. apply Hb, elem_of_app. by right. } { done. } { exact Hc2. }
      fold go. rewrite Hl. cbn [res_bind fst snd]. exists (s' :: l'), x2, h2. rewrite !fmap_cons. cbn [concat].
      split; [done|]. split; [congruence|]. split; [rewrite B2, A2, length_app; lia|]. split; [by rewrite A3, B3|]. split; [by constructor|].
      rewrite B5, A5, A1, pick_app. by rewrite app_assoc. }
    rewrite Hgo. cbn [res_bind fst snd]. exists (Composed l'), x', h'. cbn [strategy_positions]. unfold all_positions in *.
    split; [done|]. split; [done|]. split; [done|]. split; [done|]. split; [|done]. unfold counted. cbn [flatten_strategy].
    clear -H4. induction H4 as [|s l Hs Hl IH]; [constructor|]. rewrite fmap_cons. cbn [concat]. by apply Forall_app.
Qed.
Lemma run_strategy_ok k o c us h :
  runs_as k o → k ≤ length us →
  ∃ o' h', run_strategy (E:=E) ran o c us h = Ok (o', drop k us, k, h') ∧ runs_as k o' ∧ opt_ordering o' = opt_ordering o ∧
    ran_units h' = ran_units h ++ pick us (opt_ordering o).
Proof using Hran.
  intros [Ho Hp Hc] Hk. unfold run_strategy.
  assert (length (opt_ordering o) = k) as Hlen by (rewrite Ho; apply length_seq).
  destruct (execute_strategy_ok c (strategy o) (execution_new us) h Hc) as (s' & x' & h' & -> & H1 & H2 & H3 & H4 & H5).
  { rewrite Hp, Ho. apply NoDup_seq. } { intros p. rewrite Hp, Ho, elem_of_seq. cbn. lia. }
  cbn [res_bind fst snd]. unfold execution_finish. rewrite H1, H2, Hp, Hlen. cbn [execution_new ex_operations num_executed Nat.add].
  destruct (Nat.ltb_spec (length us) k); [lia|]. cbn [res_bind fst snd]. eexists _, _. split; [done|]. rewrite Hp in *.
  split; [by constructor|]. split; [done|]. exact H5.
Qed.

(** ** Queues *)

(** The queue holds the relative form of its operations. *)
Record queue_ok q : Prop := {
  queue_form : all_to_relative (E:=E) (global q) converter_new = Ok (relative q, converter q);
  queue_units : length (q_operations q) = length (global q);
  queue_tensors : Forall has_tensor (global q)
}.
Lemma queue_length q : queue_ok q → length (relative q) = length (global q).
Proof.
  intros [Hf _ _]. destruct (all_to_relative_ok (E:=E) (global q) _ converter_new_ok (all_convertible _ _ _ Hf)) as (? & ? & Hr & _ & _ & He).
  rewrite Hf in Hr. injection Hr as <- <-. by apply Forall2_length in He.
Qed.
Lemma queue_new_ok : queue_ok queue_new.
Proof. constructor; [done|done|constructor]. Qed.
Lemma drop_form (l : list Operation) r c k :
  all_to_relative (E:=E) l converter_new = Ok (r, c) → ∃ r' c', all_to_relative (E:=E) (drop k l) converter_new = Ok (r', c').
Proof.
  intros Hl. destruct (all_to_relative_ok (E:=E) (drop k l) _ converter_new_ok) as (r' & c' & Hr & _); [|eauto].
  apply Forall_drop. by eapply all_convertible.
Qed.
(** Running a plan for the first [k] operations of the queue. *)
Record ran_block k (ord : list nat) q h q' h' : Prop := {
  block_order : ord ≡ₚ seq 0 k;
  block_bound : k ≤ length (global q);
  block_global : global q' = drop k (global q);
  block_units : q_operations q' = drop k (q_operations q);
  block_ran : ran_units h' = ran_units h ++ pick (q_operations q) ord
}.
Lemma execute_block_ok k o q h :
  queue_ok q → runs_as k o → k ≤ length (global q) →
  ∃ o' q' h', execute_block_optimization (E:=E) ran o q h = Ok (o', q', h') ∧ queue_ok q' ∧ runs_as k o' ∧
    opt_ordering o' = opt_ordering o ∧ ran_block k (opt_ordering o) q h q' h'.
Proof using Hran.
  intros [Hf Hu Ht] Ho Hk. unfold execute_block_optimization.
  destruct (run_strategy_ok k o (converter q) (q_operations q) h Ho) as (o' & h' & -> & Ho' & Heq & Hr); [lia|]. cbn [res_bind].
  unfold drain_queue. cbn [global]. destruct (Nat.ltb_spec (length (global q)) k); [lia|]. unfold reset_relative. cbn [global converter].
  rewrite converter_clear_new. destruct (drop_form _ _ _ k Hf) as (r' & c' & Hd). rewrite Hd. cbn [res_bind fst snd].
  eexists _, _, _. split; [done|]. split; [|split; [done|split; [done|]]].
  - constructor; cbn [global relative converter q_operations]; [done|by rewrite !length_drop, Hu|by apply Forall_drop].
  - constructor; cbn [global q_operations]; [apply Ho|done|done|done|]. by rewrite ran_units_freed.
Qed.
Lemma all_to_relative_snoc l o c :
  all_to_relative (E:=E) (l ++ [o]) c =
  (let? r := all_to_relative l c in let? y := to_relative o r.2 in Ok (r.1 ++ [y.1], y.2)).
Proof.
  revert c. induction l as [|a l IH]; intros c; cbn [app all_to_relative res_bind fst snd].
  - destruct (to_relative o c) as [[x c']| |]; done.
  - destruct (to_relative a c) as [[y c']| |]; [|done|done]. cbn [res_bind fst snd]. rewrite IH.
    destruct (all_to_relative l c') as [[r c1]| |]; [|done|done]. cbn [res_bind fst snd]. by destruct (to_relative o c1) as [[x c2]| |].
Qed.
Lemma queue_add_ok q op u streams current :
  queue_ok q → has_tensor op → Forall convertible (parts op) →
  ∃ q' r, queue_add (E:=E) q op u streams current = Ok q' ∧ queue_ok q' ∧ global q' = global q ++ [op] ∧
    relative q' = relative q ++ [r] ∧ q_operations q' = q_operations q ++ [u].
Proof.
  intros [Hf Hu Ht] Hop Hc. unfold queue_add.
  destruct (all_to_relative_ok (E:=E) (global q ++ [op]) _ converter_new_ok) as (r & c & Hr & _).
  { apply Forall_app. split; [by eapply all_convertible|by constructor]. }
  pose proof Hr as Hr'. rewrite all_to_relative_snoc, Hf in Hr'. cbn [res_bind fst snd] in Hr'. apply res_bind_Ok in Hr' as ([x c'] & Hx & Heq).
  rewrite Hx. cbn [res_bind fst snd] in *. injection Heq as <- <-. eexists _, x. split; [done|]. split; [|done].
  constructor; cbn [global relative converter q_operations]; [done|by rewrite !length_app, Hu|]. apply Forall_app. split; [done|by constructor].
Qed.
End run.
