(* ===== verification/FusionExplore.v ===== *)
(** * Blocks one after the other, and the explorer

    Running a queue block by block, each in a valid order, computes what running it in
    program order computes.  The explorer has given the search a prefix of the operations
    and defers the rest; exploring ends with a plan for some of the first operations, or
    continues. *)

From S2P Require Import Prelude Tensor FusionGraph FusionLifetime FusionSearch FusionSearchInv FusionRegister FusionPlan FusionOptimize FusionRelative FusionStore FusionQueue FusionRun.
Open Scope nat_scope.

(** ** Outcomes *)

Section outcome.
Context `{!OperationIr Op} {V W : Type} (pure : Op → list V → nat → V) (effect : Op → list V → W → (nat → V) * W).
(** The tensors and the world after running operations: the run of [FusionLifetime]
    without its record of every operation. *)
Fixpoint outcome (e : gmap N V) (w : W) (l : list Op) : option (gmap N V * W) :=
  match l with
  | [] => Some (e, w)
  | op :: l =>
      vals ← mapM (λ t, e !! tensor_id t) (inputs op);
      let en := perform pure effect op vals w in
      outcome (made en ∪ filter (λ kv, kv.1 ∉ freed (mkNode op 0)) e) (default w (world en)) l
  end.
Lemma outcome_app e w l k : outcome e w (l ++ k) = r ← outcome e w l; outcome r.1 r.2 k.
Proof.
  revert e w. induction l as [|op l IH]; intros e w; [done|]. cbn [app outcome].
  destruct (mapM (λ t, e !! tensor_id t) (inputs op)) as [vals|]; [|done]. cbn [mbind option_bind]. apply IH.
Qed.
Lemma run_outcome s l : (λ s, (env s, wd s)) <$> run pure effect s l = outcome (env s) (wd s) (node_op <$> l).
Proof.
  revert s. induction l as [|n l IH]; intros s; [done|]. cbn [run fmap list_fmap outcome]. unfold run_node.
  destruct (mapM (λ t, env s !! tensor_id t) (inputs (node_op n))) as [vals|]; [|done]. cbn [mbind option_bind]. by rewrite IH.
Qed.
End outcome.

Section blocks.
Context `{!OperationIr Op}.
Implicit Types (gl : list Op) (ord : list nat).
(** No tensor is made by two operations. *)
Definition single_producer gl : Prop :=
  ∀ i j o o' r, gl !! i = Some o → gl !! j = Some o' → r ∈ tensor_id <$> outputs o → r ∈ tensor_id <$> outputs o' → i = j.
Definition same_run gl (n : nat) ord : Prop :=
  ∀ V W (pure : Op → list V → nat → V) (effect : Op → list V → W → (nat → V) * W) e w r,
    single_producer (take n gl) → outcome pure effect e w (take n gl) = Some r → outcome pure effect e w (pick gl ord) = Some r.
Lemma nodes_at_ops gl ord : node_op <$> nodes_at gl ord = pick gl ord.
Proof.
  induction ord as [|p ord IH]; [done|]. unfold nodes_at, pick in *. cbn [omap list_omap].
  destruct (gl !! p); cbn [fmap option_fmap option_map list_fmap]; [by rewrite IH|done].
Qed.
Lemma pick_seq_take {A} (l : list A) k : k ≤ length l → pick l (seq 0 k) = take k l.
Proof.
  intros Hk. assert (∀ (a b c : list A), pick (c ++ a ++ b) (seq (length c) (length a)) = a) as Hp.
  { clear. induction a as [|x a IH]; intros b c; [done|]. unfold pick in *. cbn [seq length omap list_omap].
    rewrite lookup_app_r, Nat.sub_diag by lia. cbn. f_equal. specialize (IH b (c ++ [x])). rewrite length_app, Nat.add_1_r, <-app_assoc in IH. exact IH. }
  specialize (Hp (take k l) (drop k l) []). cbn [app length] in Hp. by rewrite take_drop, length_take_le in Hp.
Qed.
Lemma producers_nodes gl k : k ≤ length gl → single_producer (take k gl) → one_producer (nodes_at gl (seq 0 k)).
Proof.
  intros Hk Hs r m m' Hm Hm' Hr Hr'.
  assert (∀ m, m ∈ nodes_at gl (seq 0 k) → take k gl !! node_pos m = Some (node_op m)) as Hn.
  { intros n (p & Hp%elem_of_seq & Hn)%list_elem_of_omap. apply fmap_Some in Hn as (o & Ho & ->). cbn. rewrite lookup_take_lt by lia. done. }
  apply Hn in Hm, Hm'. assert (node_pos m = node_pos m') as Hpos by (by eapply Hs). destruct m, m'. cbn in *. congruence.
Qed.
Lemma block_same_run gl k ord :
  ord ≡ₚ seq 0 k → k ≤ length gl → valid_order gl ord ∨ ord = seq 0 k → same_run gl k ord.
Proof.
  intros Ho Hk Hv V W pure effect e w r Hs Hr. destruct Hv as [Hv| ->]; [|by rewrite pick_seq_take].
  pose proof (run_outcome pure effect (mkRun e w ∅) (nodes_at gl (seq 0 k))) as Hrun. rewrite nodes_at_ops, pick_seq_take in Hrun by done.
  cbn [env wd] in Hrun. rewrite Hr in Hrun. apply fmap_Some in Hrun as (s1 & Hs1 & ->).
  destruct (valid_run_preserved pure effect (nodes_at gl (seq 0 k)) (nodes_at gl ord) e w s1) as (s2 & Hs2 & _ & Hw & He).
  { apply nodes_at_seq. } { unfold nodes_at. by rewrite Ho. } { done. } { done. }
  pose proof (run_outcome pure effect (mkRun e w ∅) (nodes_at gl ord)) as Hrun2. rewrite nodes_at_ops, Hs2 in Hrun2. cbn in Hrun2.
  rewrite <-Hrun2, Hw, He; [done|]. by apply producers_nodes.
Qed.

(** ** Progress of a queue *)

Context {U Opt : Type}.
Implicit Types (us : list U) (h : list (Event U Opt)).
(** The first [n] operations were run, each once, in an order that computes the same. *)
Record progress_by (n : nat) ord gl us h gl' us' h' : Prop := {
  prog_order : ord ≡ₚ seq 0 n;
  prog_bound : n ≤ length gl;
  prog_global : gl' = drop n gl;
  prog_units : us' = drop n us;
  prog_ran : ran_units h' = ran_units h ++ pick us ord;
  prog_same : same_run gl n ord
}.
Definition progress gl us h gl' us' h' : Prop := ∃ n ord, progress_by n ord gl us h gl' us' h'.
Lemma progress_refl gl us h : progress gl us h gl us h.
Proof.
  exists 0, []. constructor; [done|lia|by rewrite drop_0|by rewrite drop_0|by rewrite app_nil_r|]. by intros V W pure effect e w r _ [= <-].
Qed.
Lemma single_take gl n m : n ≤ m → single_producer (take m gl) → single_producer (take n gl).
Proof.
  intros Hn Hs i j o o' r Hi Hj. apply lookup_take_Some in Hi as [Hi ?], Hj as [Hj ?]. eapply Hs; rewrite lookup_take_lt by lia; done.
Qed.
Lemma single_drop gl n m : single_producer (take (n + m) gl) → single_producer (take m (drop n gl)).
Proof.
  intros Hs i j o o' r Hi Hj H1 H2. apply lookup_take_Some in Hi as [Hi ?], Hj as [Hj ?]. rewrite lookup_drop in Hi, Hj.
  enough (n + i = n + j) by lia. eapply Hs; [rewrite lookup_take_lt by lia; exact Hi|rewrite lookup_take_lt by lia; exact Hj|done|done].
Qed.
Lemma progress_trans gl us h gl1 us1 h1 gl2 us2 h2 :
  progress gl us h gl1 us1 h1 → progress gl1 us1 h1 gl2 us2 h2 → progress gl us h gl2 us2 h2.
Proof.
  intros (n & o1 & [A1 A2 -> -> A5 A6]) (m & o2 & [B1 B2 -> -> B5 B6]). rewrite length_drop in B2.
  exists (n + m), (o1 ++ (Nat.add n <$> o2)). constructor.
  - rewrite A1, B1, seq_app, fmap_add_seq, Nat.add_0_r. done.
  - lia.
  - by rewrite drop_drop.
  - by rewrite drop_drop.
  - by rewrite B5, A5, pick_app, pick_drop, app_assoc.
  - intros V W pure effect e w r Hs Hr. rewrite pick_app, <-pick_drop, outcome_app.
    assert (take (n + m) gl = take n gl ++ take m (drop n gl)) as Ht by (by rewrite <-take_take_drop).
    rewrite Ht, outcome_app in Hr. apply bind_Some in Hr as (r1 & Hr1 & Hr2).
    rewrite (A6 V W pure effect e w r1); [|by eapply single_take; [|exact Hs]; lia|done]. cbn [mbind option_bind].
    apply B6; [by apply single_drop|done].
Qed.
End blocks.

(** ** More operations *)

Section mono.
Context {Op F Opt : Type} `{!OperationIr Op, !Fuser Op F Opt}.
Lemma block_ok_app (ops more : list Op) (base : list F) b : block_ok ops base b → block_ok (ops ++ more) base b.
Proof.
  intros ([] & ? & ?). split; [|done]. constructor; try done. eapply Forall2_impl; [done|]. intros op p Hp. by apply lookup_app_l_Some.
Qed.
Lemma stream_ok_app (ops more : list Op) (s : StreamOptimizer Op F) : stream_ok ops s → stream_ok (ops ++ more) s.
Proof.
  intros []. constructor; try done; [|rewrite length_app; lia]. eapply Forall_impl; [done|]. intros b. apply block_ok_app.
Qed.
Lemma stream_reset_ok (ops : list Op) (s : StreamOptimizer Op F) : stream_ok ops (stream_reset s).
Proof. constructor; cbn; [constructor| |lia|lia]. intros p. by rewrite decide_False by lia. Qed.
Lemma origin_trans (base l : list F) x : Forall (origin base) l → origin l x → origin base x.
Proof.
  intros Hl (y & k & Hy & ->). rewrite Forall_forall in Hl. destruct (Hl y Hy) as (z & j & Hz & ->). exists z, (k + j). split; [done|].
  by rewrite Nat.iter_add.
Qed.
End mono.

Section explore.
Context {E F Opt : Type} `{!OperationLayout, !Fuser Operation F Opt, !FuserLaws Operation F Opt}.
Context (beam : nat) (base : list F).
(** A fused operation stands for no more operations than its fuser was given. *)
Context (Hcount : ∀ x ops, origin base x → ready (fused x ops) = true → num_operations (finish (fused x ops)) ≤ length ops).
Implicit Types (x : Explorer F) (ops : list Operation).

Definition builders_ok x : Prop := Forall (origin base) (st_builders (optimizer x)).
Record explorer_ok ops x : Prop := {
  exp_running : is_still_optimizing x = true;
  exp_stream : stream_ok ops (optimizer x);
  exp_open : stopped (optimizer x) = false;
  exp_length : st_length (optimizer x) + num_deferred x = length ops;
  exp_builders : builders_ok x
}.
Lemma explorer_new_ok limit : explorer_ok [] (explorer_new beam limit base).
Proof.
  constructor; cbn; [done|apply stream_new_ok|done|done|]. apply Forall_forall. intros x Hx. by exists x, 0.
Qed.
Lemma explorer_add_ok ops op x : explorer_ok ops x → explorer_ok (ops ++ [op]) (explorer_on_new_operation x).
Proof.
  intros []. constructor; cbn; [done|by apply stream_ok_app|done|rewrite length_app; cbn; lia|done].
Qed.
Lemma explorer_reset_ok ops x : builders_ok x → explorer_ok ops (explorer_reset ops x).
Proof.
  intros Hb. constructor; cbn; [done|apply stream_reset_ok|done|done|]. apply Forall_fmap. eapply Forall_impl; [exact Hb|].
  intros y (z & k & Hz & ->). exists z, (S k). done.
Qed.

(** ** Registering what was deferred *)

Lemma update_loop_ok ops i x :
  Forall has_tensor ops → stream_ok ops (optimizer x) → builders_ok x →
  (is_still_optimizing x = true → stopped (optimizer x) = false ∧ st_length (optimizer x) + i = length ops) →
  (0 < st_length (optimizer x) ∨ (is_still_optimizing x = true ∧ 0 < i)) →
  ∃ x', update_loop (E:=E) i ops x = Ok x' ∧ stream_ok ops (optimizer x') ∧ builders_ok x' ∧ 0 < st_length (optimizer x') ∧
    (is_still_optimizing x' = true → stopped (optimizer x') = false ∧ st_length (optimizer x') = length ops) ∧
    num_explorations x' = num_explorations x ∧ max_explorations x' = max_explorations x.
Proof.
  intros Ht. revert x. induction i as [|i IH]; intros x Hs Hb Hinv Hpos; cbn [update_loop].
  { exists x. split; [done|]. split; [done|]. split; [done|]. split; [destruct Hpos as [|[_ ?]]; lia|]. split; [|done].
    intros Hst. destruct (Hinv Hst). split; [done|lia]. }
  destruct (is_still_optimizing x) eqn:Hst; cbn [negb].
  2:{ exists x. split; [done|]. split; [done|]. split; [done|]. split; [destruct Hpos as [|[? _]]; done|]. split; [|done]. congruence. }
  destruct (Hinv eq_refl) as [Hopen Hlen]. destruct (Nat.ltb_spec (length ops) (i + 1)); [lia|].
  destruct (lookup_lt_is_Some_2 ops (length ops - 1 - i)) as [op Hop]; [lia|]. unfold get. rewrite Hop. cbn [res_bind].
  destruct (register_ok (E:=E) ops Ht (optimizer x) op Hs) as (s' & -> & (Hs' & Hbs & _ & Hcase) & Hfirst).
  { intros _. replace (st_length (optimizer x)) with (length ops - 1 - i) by lia. done. }
  cbn [res_bind]. edestruct (IH (mkExplorer s' (num_deferred x) (S (num_explored x)) (stream_still_optimizing s') (num_explorations x) (max_explorations x)))
    as (x' & Hx' & H1 & H2 & H3 & H4 & H5); cbn [optimizer is_still_optimizing num_explorations max_explorations].
  - done.
  - unfold builders_ok. cbn. by rewrite Hbs.
  - intros Hso. assert (stopped s' = false) as Hop' by (unfold stream_still_optimizing in Hso; by destruct (stopped s')).
    split; [done|]. destruct Hcase as [(-> & _ & _)|[_ ?]]; [lia|congruence].
  - left. destruct Hcase as [(-> & _ & _)|[Hl _]]; [lia|]. destruct (decide (st_length (optimizer x) = 0)) as [Hz|]; [|lia].
    apply (stream_empty _ _ Hs) in Hz. specialize (Hfirst Hz Hopen). lia.
  - exists x'. rewrite Hx'. split; [done|]. split; [done|]. split; [done|]. split; [done|]. split; [done|]. done.
Qed.

(** ** Exploring *)

Lemma final_runs ops (s : StreamOptimizer Operation F) k o :
  Forall (origin base) (st_builders s) → final_plan ops (st_builders s) k o →
  runs_as k o ∧ (valid_order ops (opt_ordering o) ∨ opt_ordering o = seq 0 k).
Proof using Hcount.
  intros Hb [[P1 P2 P3] Hv]. split; [constructor; [done|done|]|destruct Hv as [?| ->]; [by left|by right]].
  apply leaves_single in P3. unfold counted. eapply Forall_impl; [exact P3|]. intros [opt ord sc|ord|items]; [|done|done].
  intros (x & given & order & Ho & Hg & _ & Hl & -> & Hr & _). apply (origin_trans base) in Ho; [|done]. specialize (Hcount x given Ho Hr).
  apply Forall2_length in Hg. lia.
Qed.
(** What exploring ends with. *)
Definition explored ops mode (a : ExplorationAction Opt) x : Prop :=
  match a with
  | Completed o => ∃ k, 0 < k ≤ length ops ∧ runs_as k o ∧ (valid_order ops (opt_ordering o) ∨ opt_ordering o = seq 0 k)
  | Continue => mode = Lazy ∧ explorer_ok ops x ∧ num_deferred x = 0
  | Unfused o => o = mkOptimization (Operations (seq 0 (length ops))) (seq 0 (length ops))
  end.
Lemma explore_ok ops mode x :
  Forall has_tensor ops → ops ≠ [] → explorer_ok ops x →
  ∃ a x', explore (E:=E) beam ops mode x = Ok (a, x') ∧ explored ops mode a x' ∧ builders_ok x'.
Proof using Hcount FuserLaws0.
  intros Ht Hne [H1 H2 H3 H4 H5]. unfold explore. destruct (match max_explorations x with Some _ => _ | None => _ end); [by eexists _, _|].
  assert (0 < length ops) as Hpos by (destruct ops; [done|cbn; lia]).
  destruct (update_loop_ok ops (num_deferred x) x Ht H2 H5) as (x' & Hx' & S1 & S2 & S3 & S4 & _); [done| |].
  { destruct (decide (st_length (optimizer x) = 0)); [right; split; [done|lia]|left; lia]. }
  unfold explorer_update. rewrite Hx'. cbn [res_bind is_still_optimizing optimizer].
  destruct (match mode with Lazy => is_still_optimizing x' | Sync => false end) eqn:Hm.
  { destruct mode; [|done]. destruct (S4 Hm) as [Ho Hl]. eexists _, _. split; [done|]. split; [|done]. split; [done|]. split; [|done].
    constructor; cbn; [done|done|done|lia|done]. }
  pose proof (stream_length _ _ S1). destruct (optimize_ok (E:=E) beam (S (length ops)) ops (optimizer x') Ht S1) as (k & o & -> & Hk & Hf); [lia|].
  cbn [res_bind]. eexists _, _. split; [done|]. split; [|done]. exists k. split; [lia|]. by apply (final_runs ops (optimizer x')).
Qed.
End explore.
