(* ===== verification/FusionProcessor.v ===== *)
(** * The processor

    A stream never fails to run its operations: every plan it takes from the store
    matches the queue, running it makes progress, and a sync leaves nothing behind. *)

From S2P Require Import Prelude Tensor FusionGraph FusionLifetime FusionSearch FusionSearchInv FusionRegister FusionPlan FusionOptimize FusionRelative FusionRelativeProps FusionStore FusionPolicy FusionQueue FusionRename FusionRun FusionExplore.
Open Scope nat_scope.

Lemma nodes_at_prefix {Op} (po ops : list Op) ord : po `prefix_of` ops → (∀ p, p ∈ ord → p < length po) → nodes_at ops ord = nodes_at po ord.
Proof.
  intros [k ->] Hb. induction ord as [|p ord IH]; [done|]. unfold nodes_at in *. cbn [omap list_omap].
  rewrite lookup_app_l by (apply Hb; by left). rewrite IH by (intros q Hq; apply Hb; by right). done.
Qed.
Lemma valid_order_prefix `{!OperationIr Op} (po ops : list Op) ord :
  po `prefix_of` ops → (∀ p, p ∈ ord → p < length po) → valid_order ops ord ↔ valid_order po ord.
Proof. intros Hp Hb. unfold valid_order. by rewrite (nodes_at_prefix po ops). Qed.

(** ** Plans in the store *)

Section store.
Context {E F Opt : Type} `{!OperationLayout, !OperationHash Operation, !Fuser Operation F Opt}.
Abbreviation Store := (ExecutionPlanStore Operation Opt).
Implicit Types (s : Store) (gl ops : list Operation) (ids : list nat).

Definition sound_order ops (k : nat) (o : BlockOptimization Opt) : Prop := valid_order ops (opt_ordering o) ∨ opt_ordering o = seq 0 k.
Definition plan_good (p : ExecutionPlan Operation Opt) : Prop :=
  let k := length (plan_operations p) in
  runs_as k (optimization p) ∧ sound_order (plan_operations p) k (optimization p).
Definition form gl ops : Prop := ∃ c, all_to_relative (E:=E) gl converter_new = Ok (ops, c).
(** Executing the plans one after the other on [gl] leaves [gl'], and each of them
    matches what is left when its turn comes. *)
Fixpoint leads s gl ids gl' : Prop :=
  match ids with
  | [] => gl = gl'
  | id :: ids => ∃ po r, plan_ops s id = Some po ∧ form gl r ∧ po `prefix_of` r ∧ leads s (drop (length po) gl) ids gl'
  end.
Record store_good s : Prop := {
  good_store : store_ok s;
  good_plans : ∀ id p, plans s !! id = Some p → plan_good p;
  good_sequences : ∀ key l ops ids, sync_sequences s !! key = Some l → (ops, ids) ∈ l → ∀ gl, form gl ops → leads s gl ids []
}.
Lemma store_new_good : store_good store_new.
Proof. constructor; [apply store_new_ok|done|]. intros key l ops ids. cbn. by rewrite lookup_empty. Qed.
Lemma leads_le s s' gl ids gl' : store_le s s' → leads s gl ids gl' → leads s' gl ids gl'.
Proof.
  intros Hle. revert gl. induction ids as [|id ids IH]; intros gl; [done|]. intros (po & r & H1 & H2 & H3 & H4). exists po, r.
  split; [by eapply plan_ops_le|]. split; [done|]. split; [done|]. by apply IH.
Qed.
Lemma leads_snoc s gl ids gl' id po r :
  leads s gl ids gl' → plan_ops s id = Some po → form gl' r → po `prefix_of` r → leads s gl (ids ++ [id]) (drop (length po) gl').
Proof.
  revert gl. induction ids as [|i ids IH]; intros gl; cbn [app leads].
  - intros ->. intros. exists po, r. by repeat (split; [done|]).
  - intros (po' & r' & H1 & H2 & H3 & H4) Hid Hf Hp. exists po', r'. split; [done|]. split; [done|]. split; [done|]. by apply IH.
Qed.
Lemma form_length gl ops : form gl ops → length ops = length gl.
Proof.
  intros [c Hf]. destruct (all_to_relative_ok (E:=E) gl _ converter_new_ok (all_convertible _ _ _ Hf)) as (? & ? & Hr & _ & _ & He).
  rewrite Hf in Hr. injection Hr as <- <-. by apply Forall2_length in He.
Qed.
(** A sequence of plans that empties one queue empties every queue with the same
    relative form. *)
Lemma leads_same_form s gl gl' ops ids : form gl ops → form gl' ops → leads s gl ids [] → leads s gl' ids [].
Proof.
  revert gl gl' ops. induction ids as [|id ids IH]; intros gl gl' ops Hf Hf'; cbn [leads].
  - intros ->. apply form_length in Hf, Hf'. destruct gl'; [done|]. cbn in *. lia.
  - intros (po & r & H1 & [c H2] & H3 & H4). destruct Hf as [c1 Hf], Hf' as [c2 Hf'].
    assert (r = ops) as -> by congruence. exists po, ops. split; [done|]. split; [by exists c2|]. split; [done|].
    destruct (same_drop_form (E:=E) gl gl' (length po)) as (r & a & b & Ha & Hb); [by eapply same_form_same|].
    by apply (IH (drop (length po) gl) _ r); [exists a|exists b|].
Qed.

(** *** Changes of the store *)

Lemma insert_plan_good s id p p' :
  store_good s → plans s !! id = Some p → plan_good p' → plan_operations p' = plan_operations p → triggers p `prefix_of` triggers p' →
  let s' := mkStore (<[id := p']> (plans s)) (index s) (sync_sequences s) in store_good s' ∧ store_le s s'.
Proof.
  intros [[Hix Hne] Hg Hsq] Hp Hp' Hops Htr s'. pose proof (lookup_lt_Some _ _ _ Hp) as Hlt.
  assert (∀ k q, plans s' !! k = Some q → ∃ q0, plans s !! k = Some q0 ∧ plan_operations q = plan_operations q0 ∧ plan_good q) as Hback.
  { intros k q. unfold s'. cbn [plans]. destruct (decide (k = id)) as [->|Hk].
    - rewrite list_lookup_insert_eq by done. intros [= <-]. eauto.
    - rewrite list_lookup_insert_ne by done. eauto. }
  assert (store_le s s') as Hle.
  { intros k q Hq. unfold s'. cbn [plans]. destruct (decide (k = id)) as [->|Hk].
    - rewrite list_lookup_insert_eq by done. exists p'. assert (q = p) as -> by congruence. done.
    - rewrite list_lookup_insert_ne by done. exists q. done. }
  split; [|done]. constructor.
  - constructor.
    + eapply index_ok_ext; [|exact Hix]. intros op. unfold plans_starting. replace (length (plans s')) with (length (plans s)) by (symmetry; apply length_insert).
      apply filter_ext_in. intros k _. rewrite !starts_with_iff. split.
      * intros (q & l & Hq & Hl). destruct (Hle k q Hq) as (q' & Hq' & Ho & _). exists q', l. split; [done|]. congruence.
      * intros (q & l & Hq & Hl). destruct (Hback k q Hq) as (q0 & Hq0 & Ho & _). exists q0, l. split; [done|]. congruence.
    + intros k q Hq. destruct (Hback k q Hq) as (q0 & Hq0 & -> & _). by apply (Hne k).
  - intros k q Hq. by destruct (Hback k q Hq) as (_ & _ & _ & ?).
  - intros key l ops ids Hk Hin gl Hf. eapply leads_le; [exact Hle|]. by eapply Hsq.
Qed.
Lemma add_trigger_good s id p t :
  store_good s → plans s !! id = Some p → ∃ s', add_trigger (E:=E) s id t = Ok s' ∧ store_good s' ∧ store_le s s'.
Proof.
  intros Hs Hp. unfold add_trigger, get. rewrite Hp. cbn [res_bind]. eexists. split; [done|]. case_decide; [done|].
  apply (insert_plan_good s id p); [done|done|exact (good_plans _ Hs _ _ Hp)|done|]. cbn. by apply prefix_app_r.
Qed.
Lemma store_add_good s p :
  store_good s → plan_operations p ≠ [] → plan_good p →
  ∃ s', store_add (E:=E) s p = Ok (s', length (plans s)) ∧ store_good s' ∧ store_le s s' ∧ plans s' = plans s ++ [p].
Proof.
  intros [Hs Hg Hsq] Hne Hp. destruct (store_add_ok (E:=E) s p Hs Hne) as (s' & Ha & Hs' & Hle & Hpl & Hseq). exists s'. split; [done|].
  split; [|done]. constructor; [done| |].
  - rewrite Hpl. intros id q [Hq|[Hge Hq]]%lookup_app_Some; [by eapply Hg|]. by apply list_lookup_singleton_Some in Hq as [_ <-].
  - rewrite Hseq. intros key l ops ids Hk Hin gl Hf. eapply leads_le; [exact Hle|]. by eapply Hsq.
Qed.
Lemma replace_sequence_elem ops ids l l' q :
  replace_sequence ops ids l = Some l' → q ∈ l' → q ∈ l ∨ q = (ops, ids).
Proof.
  revert l'. induction l as [|x l IH]; intros l'; [done|]. cbn [replace_sequence]. case_decide.
  - intros [= <-] [->|Hq]%elem_of_cons; [by right|left; by right].
  - intros (k & Hk & ->)%fmap_Some [->|Hq]%elem_of_cons; [left; by left|]. destruct (IH k Hk Hq); [left; by right|by right].
Qed.
Lemma add_sequence_good s ops ids :
  store_good s → (∀ gl, form gl ops → leads s gl ids []) → store_good (add_sync_sequence s ops ids) ∧ store_le s (add_sync_sequence s ops ids).
Proof.
  intros [Hs Hg Hsq] Hl. destruct (add_sync_sequence_ok s ops ids Hs) as [Hs' Hle]. split; [|done].
  unfold add_sync_sequence in *. destruct (length ids <? 2); [done|]. constructor; [done|exact Hg|]. cbn [sync_sequences].
  intros key l ops' ids' Hk Hin gl Hf. eapply leads_le; [exact Hle|]. destruct (decide (key = sequence_key ops)) as [->|Hne].
  - rewrite lookup_insert_eq in Hk. injection Hk as <-. set (old := default [] (sync_sequences s !! sequence_key ops)) in *.
    assert ((ops', ids') ∈ old ∨ (ops', ids') = (ops, ids)) as [Ho|[= -> ->]].
    { destruct (replace_sequence ops ids old) as [l'|] eqn:Hr; cbn in Hin; [by eapply replace_sequence_elem|].
      apply elem_of_app in Hin as [?| ->%list_elem_of_singleton]; [by left|by right]. }
    + unfold old in Ho. destruct (sync_sequences s !! sequence_key ops) as [l0|] eqn:Hl0; [by eapply Hsq|by apply elem_of_nil in Ho].
    + by apply Hl.
  - rewrite lookup_insert_ne in Hk by done. by eapply Hsq.
Qed.
Lemma find_sync_sequence_good s gl ops ids :
  store_good s → form gl ops → find_sync_sequence s ops = Some ids → leads s gl ids [].
Proof.
  intros Hs Hf. unfold find_sync_sequence. destruct (sync_sequences s !! sequence_key ops) as [l|] eqn:Hl; [|done].
  intros ([o i] & Hh & ->)%fmap_Some. apply head_filter in Hh as [Heq Hin]. cbn in Heq. subst o. by eapply good_sequences.
Qed.
End store.

(** ** The runtime *)

(** What the processor relies on of the fusers of the back end: a fused operation stands
    for no more operations than its fuser was given, and for as many after it ran. *)
Class RuntimeLaws {U F Opt : Type} `{!Fuser Operation F Opt} (base : list F)
    (ran : Opt → OperationConverter → list (Event U Opt) → Opt) : Prop := {
  fused_count : ∀ x ops, origin base x → ready (fused x ops) = true → num_operations (finish (fused x ops)) ≤ length ops;
  ran_count : ∀ opt c h, num_operations (ran opt c h) = num_operations opt
}.

Section processor.
Context {E U F Opt : Type} `{!OperationLayout, !OperationHash Operation, !Fuser Operation F Opt, !FuserLaws Operation F Opt}.
Context (beam : nat) (ran : Opt → OperationConverter → list (Event U Opt) → Opt) (base : list F) `{!RuntimeLaws base ran}.
Implicit Types (g : Segment U F Opt) (q : OperationQueue U) (h : list (Event U Opt)) (capture : option SyncCapture).

Abbreviation ops_of g := (relative (queue g)).
Abbreviation store_good := (store_good (E:=E)).
(** What holds of a segment whatever the processor knows of its operations. *)
Record seg_pre g : Prop := {
  pre_queue : queue_ok (E:=E) (queue g);
  pre_store : store_good (store g);
  pre_builders : builders_ok base (explorer (processor g))
}.
Record seg_ok g : Prop := {
  seg_queue : queue_ok (E:=E) (queue g);
  seg_store : store_good (store g);
  seg_policy : policy_ok (store g) (ops_of g) (policy (processor g));
  seg_explorer : explorer_ok base (ops_of g) (explorer (processor g))
}.
Lemma seg_ok_pre g : seg_ok g → seg_pre g.
Proof. intros [H1 H2 _ H4]. constructor; [done|done|apply H4]. Qed.
Definition moved g g' : Prop :=
  progress (global (queue g)) (q_operations (queue g)) (trace g) (global (queue g')) (q_operations (queue g')) (trace g') ∧
  store_le (store g) (store g').
Lemma segment_moved_refl g : moved g g.
Proof. split; [apply progress_refl|done]. Qed.
Lemma segment_moved_trans g g1 g2 : moved g g1 → moved g1 g2 → moved g g2.
Proof. intros [H1 H2] [H3 H4]. split; [by eapply progress_trans|by etrans]. Qed.
Lemma queue_has_tensors q : queue_ok (E:=E) q → Forall has_tensor (relative q).
Proof. intros [H1 _ H3]. by eapply has_tensor_relative. Qed.
Lemma queue_form_of q : queue_ok (E:=E) q → form (E:=E) (global q) (relative q).
Proof. intros [H1 _ _]. by eexists. Qed.
Lemma queue_empty q : queue_ok (E:=E) q → relative q = [] ↔ global q = [].
Proof. intros Hq. pose proof (queue_length _ Hq) as Hl. split; intros Hn; rewrite Hn in Hl; cbn in Hl; [by apply nil_length_inv|by apply nil_length_inv]. Qed.

Lemma processor_reset_ok s ops (p : Processor F) :
  store_ok s → builders_ok base (explorer p) →
  ∃ p', processor_reset (E:=E) s ops p = Ok p' ∧ policy_ok s ops (policy p') ∧ explorer_ok base ops (explorer p') ∧
    is_up_to_date (explorer p') = bool_decide (ops = []).
Proof.
  intros Hs Hb. unfold processor_reset. destruct (policy_new_ok s) as [Hn _].
  destruct (updates_ok (E:=E) s ops [] policy_new Hs Hn) as (pol & Hu & Hok & _). unfold policy_reset, policy_new in *. rewrite Hu. cbn [res_bind].
  eexists. split; [done|]. split; [done|]. split; [by apply explorer_reset_ok|]. by destruct ops.
Qed.
(** Running a plan on the segment, and what is known afterwards. *)
Lemma block_moved k (o : BlockOptimization Opt) q h q' h' (po : list Operation) :
  queue_ok (E:=E) q → ran_block k (opt_ordering o) q h q' h' → po `prefix_of` relative q → length po = k → sound_order po k o →
  progress (global q) (q_operations q) h (global q') (q_operations q') h'.
Proof.
  intros Hq [B1 B2 B3 B4 B5] Hp Hk Hv. exists k, (opt_ordering o). constructor; [done|done|done|done|done|].
  apply block_same_run; [done|done|]. destruct Hv as [Hv|Hv]; [left|by right]. destruct Hq as [Hf _ _].
  eapply valid_order_original; [exact Hf|]. eapply valid_order_prefix; [exact Hp| |exact Hv]. intros p. rewrite B1, elem_of_seq. lia.
Qed.
Lemma execute_and_reset_ok id po g :
  seg_pre g → plan_ops (store g) id = Some po → po `prefix_of` ops_of g →
  ∃ g', execute_and_reset (E:=E) ran id g = Ok g' ∧ seg_ok g' ∧ moved g g' ∧ po ≠ [] ∧
    global (queue g') = drop (length po) (global (queue g)) ∧ is_up_to_date (explorer (processor g')) = bool_decide (ops_of g' = []).
Proof using All.
  intros [Hq Hs Hb] Hpo Hp. apply fmap_Some in Hpo as (p & Hpl & ->). destruct (good_plans _ Hs _ _ Hpl) as [Hruns Hsound].
  unfold execute_and_reset, queue_execute. rewrite (get_unchecked_ok _ _ _ Hpl). cbn [res_bind].
  pose proof (queue_length _ Hq) as Hlen. pose proof (prefix_length _ _ Hp) as Hpre.
  destruct (execute_block_ok (E:=E) ran (ran_count (base:=base)) _ _ (queue g) (trace g) Hq Hruns) as (o' & q' & h' & -> & Hq' & Ho' & Hord & Hblock); [lia|].
  cbn [res_bind fst snd].
  destruct (insert_plan_good (E:=E) (store g) id p (mkPlan (plan_operations p) (triggers p) o') Hs Hpl) as [Hs' Hle]; [|done|done|].
  { split; [done|]. unfold sound_order. cbn [optimization plan_operations]. by rewrite Hord. }
  destruct (processor_reset_ok _ (relative q') (processor g) (good_store _ Hs') Hb) as (pr & -> & Hpol & Hexp & Hup). cbn [res_bind].
  eexists. split; [done|]. split; [by constructor|]. split; [split; [by eapply block_moved|done]|]. split; [|split; [apply Hblock|done]].
  by eapply (store_plans _ (good_store _ Hs)).
Qed.

(** *** Captured sequences *)

Definition capture_ok mode (s : ExecutionPlanStore Operation Opt) gl capture : Prop :=
  ∀ k, capture = Some k → mode = Sync ∧ ∃ gl0, form (E:=E) gl0 (captured_operations k) ∧ leads (E:=E) s gl0 (captured_plans k) gl.
(** The capture with the plan that is about to run. *)
Definition captured id mode g capture : res E (option SyncCapture) :=
  match mode with
  | Lazy => Ok capture
  | Sync =>
      let? capture :=
        match capture with
        | None =>
            let? item := get_unchecked (store g) id in
            Ok (if length (plan_operations item) <? length (segment_operations g)
                then Some (mkCapture (segment_operations g) []) else None)
        | Some _ => Ok capture
        end in
      Ok ((λ k, mkCapture (captured_operations k) (captured_plans k ++ [id])) <$> capture)
  end.
Lemma captured_ok id po mode g capture :
  seg_pre g → plan_ops (store g) id = Some po → po `prefix_of` ops_of g → capture_ok mode (store g) (global (queue g)) capture →
  ∃ capture', captured id mode g capture = Ok capture' ∧ capture_ok mode (store g) (drop (length po) (global (queue g))) capture'.
Proof.
  intros Hg Hpo Hp Hcap. pose proof (queue_form_of _ (pre_queue _ Hg)) as Hform. pose proof Hpo as (p & Hpl & Heq)%fmap_Some.
  unfold captured. destruct mode; [exists capture; split; [done|]; intros k Hk; by destruct (Hcap k Hk)|].
  assert (∃ c1, match capture with
    | None => let? item := get_unchecked (E:=E) (store g) id in
              Ok (if length (plan_operations item) <? length (segment_operations g) then Some (mkCapture (segment_operations g) []) else None)
    | Some _ => Ok capture end = Ok c1 ∧ capture_ok Sync (store g) (global (queue g)) c1) as (c1 & -> & Hc1).
  { destruct capture as [k|]; [by exists (Some k)|]. rewrite (get_unchecked_ok _ _ _ Hpl). cbn [res_bind]. eexists. split; [done|].
    intros k. destruct (length (plan_operations p) <? length (segment_operations g)); [|done]. intros [= <-]. split; [done|]. by exists (global (queue g)). }
  cbn [res_bind]. eexists. split; [done|]. intros k (k1 & Hk & ->)%fmap_Some. destruct (Hc1 k1 Hk) as (_ & gl0 & H1 & H2). split; [done|].
  exists gl0. split; [done|]. by eapply leads_snoc.
Qed.
Lemma capture_le mode (s s' : ExecutionPlanStore Operation Opt) gl capture : store_le s s' → capture_ok mode s gl capture → capture_ok mode s' gl capture.
Proof. intros Hle Hc k Hk. destruct (Hc k Hk) as (Hm & gl0 & H1 & H2). split; [done|]. exists gl0. split; [done|]. by eapply leads_le. Qed.
Lemma execute_plan_ok id po mode g capture :
  seg_pre g → plan_ops (store g) id = Some po → po `prefix_of` ops_of g → capture_ok mode (store g) (global (queue g)) capture →
  ∃ g' capture', execute_plan (E:=E) ran id mode g capture = Ok (g', capture') ∧ seg_ok g' ∧ moved g g' ∧
    length (ops_of g') < length (ops_of g) ∧ capture_ok mode (store g') (global (queue g')) capture' ∧
    is_up_to_date (explorer (processor g')) = bool_decide (ops_of g' = []).
Proof using All.
  intros Hg Hpo Hp Hcap. destruct (execute_and_reset_ok id po g Hg Hpo Hp) as (g' & Hex & Hg' & Hm & Hne & Hgl & Hup).
  destruct (captured_ok id po mode g capture Hg Hpo Hp Hcap) as (c1 & Hc & Hc1).
  unfold execute_plan. fold (captured id mode g capture). rewrite Hc. cbn [res_bind]. rewrite Hex. cbn [res_bind].
  eexists _, _. split; [done|]. split; [done|]. split; [done|]. split; [|split; [|done]].
  - rewrite (queue_length _ (pre_queue _ Hg)), (queue_length _ (seg_queue _ Hg')), Hgl, length_drop.
    apply prefix_length in Hp. rewrite (queue_length _ (pre_queue _ Hg)) in Hp. destruct po; [done|]. cbn in *. lia.
  - rewrite Hgl. eapply capture_le; [apply Hm|done].
Qed.

(** *** Exploring *)

Lemma on_exploration_completed_ok pol ops s (o : BlockOptimization Opt) k mode :
  store_good s → policy_ok s ops pol → 0 < k ≤ length ops → runs_as k o → sound_order ops k o →
  ∃ s' id po, on_exploration_completed (E:=E) pol ops s o mode = Ok (s', id) ∧ store_good s' ∧ store_le s s' ∧
    plan_ops s' id = Some po ∧ po `prefix_of` ops.
Proof.
  intros Hs Hpol Hk Hr Hv. unfold on_exploration_completed. assert (length (opt_ordering o) = k) as -> by (rewrite (runs_order _ _ Hr); apply length_seq).
  destruct (Nat.ltb_spec (length ops) k); [lia|]. set (trigger := match mode with Lazy => _ | Sync => _ end).
  destruct (action_ok (E:=E) s ops pol k Sync Hpol) as (a & -> & Ha & _); [lia|]. cbn [res_bind].
  assert (take k ops `prefix_of` ops) as Htk by (exists (drop k ops); by rewrite take_drop).
  assert (∀ id, matches s (take k ops) id → ∃ s' po, (let? s' := add_trigger (E:=E) s id trigger in Ok (s', id)) = Ok (s', id) ∧ store_good s' ∧
    store_le s s' ∧ plan_ops s' id = Some po ∧ po `prefix_of` ops) as Hold.
  { intros id (po & Hpo & Hpre). pose proof Hpo as (p & Hp & _)%fmap_Some. destruct (add_trigger_good s id p trigger Hs Hp) as (s' & -> & Hs' & Hle).
    cbn [res_bind]. exists s', po. split; [done|]. split; [done|]. split; [done|]. split; [by eapply plan_ops_le|by etrans]. }
  assert (∃ s' id po, store_add (E:=E) s (mkPlan (take k ops) [trigger] o) = Ok (s', id) ∧ store_good s' ∧ store_le s s' ∧
    plan_ops s' id = Some po ∧ po `prefix_of` ops) as Hnew.
  { assert (length (take k ops) = k) as Hlk by (rewrite length_take; lia).
    destruct (store_add_good s (mkPlan (take k ops) [trigger] o) Hs) as (s' & Hadd & Hs' & Hle & Hpl).
    - cbn. intros Hn. rewrite Hn in Hlk. cbn in Hlk. lia.
    - unfold plan_good. cbn [plan_operations optimization]. rewrite Hlk. split; [done|]. destruct Hv as [Hv|Hv]; [left|by right].
      apply (valid_order_prefix (take k ops) ops); [done| |done]. intros p. rewrite (runs_order _ _ Hr), elem_of_seq. lia.
    - exists s', (length (plans s)), (take k ops). split; [done|]. split; [done|]. split; [done|]. split; [|done].
      unfold plan_ops. rewrite Hpl, lookup_app_r, Nat.sub_diag by lia. done. }
  destruct a as [| |id]; [done|done|]. destruct (Hold id (Ha id eq_refl)) as (s' & po & Hx & Hy). eauto.
Qed.
Lemma processor_explore_ok mode g capture :
  seg_ok g → ops_of g ≠ [] → capture_ok mode (store g) (global (queue g)) capture →
  ∃ g' capture', processor_explore (E:=E) beam ran mode g capture = Ok (g', capture') ∧ seg_ok g' ∧ moved g g' ∧
    capture_ok mode (store g') (global (queue g')) capture' ∧
    (if is_up_to_date (explorer (processor g')) then mode = Lazy ∨ ops_of g' = [] else length (ops_of g') < length (ops_of g)).
Proof using All.
  intros [Hq Hs Hpol Hexp] Hne Hcap. unfold processor_explore, segment_operations.
  destruct (explore_ok (E:=E) beam base (fused_count (ran:=ran)) (ops_of g) mode (explorer (processor g)) (queue_has_tensors _ Hq) Hne Hexp)
    as (a & x & -> & Ha & Hb). cbn [res_bind fst snd]. destruct a as [o| |o]; cbn [explored] in Ha.
  - destruct Ha as (k & Hk & Hr & Hv). cbn [policy].
    destruct (on_exploration_completed_ok (policy (processor g)) (ops_of g) (store g) o k mode Hs Hpol Hk Hr Hv) as (s' & id & po & -> & Hs' & Hle & Hpo & Hpre).
    cbn [res_bind fst snd]. set (g1 := mkSegment _ _ _ _).
    destruct (execute_plan_ok id po mode g1 capture) as (g' & c' & -> & Hg' & [Hm1 Hm2] & Hlt & Hc & Hup).
    { by constructor. } { done. } { done. } { by eapply capture_le. }
    eexists _, _. split; [done|]. split; [done|]. split; [split; [exact Hm1|by etrans]|]. split; [done|]. rewrite Hup. case_bool_decide; [by right|done].
  - destruct Ha as (-> & Hx & H0). eexists _, _. split; [done|]. split; [by constructor|]. split; [split; [apply progress_refl|done]|]. split; [done|].
    cbn [processor explorer]. unfold is_up_to_date. rewrite H0. by left.
  - subst o. set (k := length (ops_of g)) in *.
    assert (runs_as k (mkOptimization (Operations (seq 0 k)) (seq 0 k) : BlockOptimization Opt)) as Hr by (constructor; [done|done|by constructor]).
    pose proof (queue_length _ Hq) as Hlen.
    destruct (execute_block_ok (E:=E) ran (ran_count (base:=base)) _ _ (queue g) (trace g) Hq Hr) as (o' & q' & h' & -> & Hq' & _ & _ & Hblock); [unfold k; lia|].
    cbn [res_bind fst snd]. destruct (processor_reset_ok (store g) (relative q') (mkProcessor (policy (processor g)) x) (good_store _ Hs) Hb) as (pr & -> & Hp' & Hx' & Hup).
    cbn [res_bind]. assert (relative q' = []) as Hnil.
    { apply (queue_empty _ Hq'). rewrite (block_global _ _ _ _ _ _ Hblock). apply drop_ge. unfold k. lia. }
    eexists _, _. split; [done|]. split; [by constructor|]. split; [split; [|done]|].
    + eapply (block_moved k _ _ _ _ _ (ops_of g)); [done|exact Hblock|done|done|by right].
    + split; [done|]. cbn [processor queue]. rewrite Hup, Hnil. cbn. by right.
Qed.

(** *** The loop *)

Lemma process_loop_ok fuel mode g capture :
  seg_ok g → length (ops_of g) < fuel → capture_ok mode (store g) (global (queue g)) capture →
  ∃ g' capture', process_loop (E:=E) beam ran fuel mode g capture = Ok (g', capture') ∧ seg_ok g' ∧ moved g g' ∧
    capture_ok mode (store g') (global (queue g')) capture' ∧ (mode = Sync → ops_of g' = []).
Proof using All.
  revert g capture. induction fuel as [|fuel IH]; intros g capture Hg Hf Hcap; [lia|]. cbn [process_loop]. unfold segment_operations at 1.
  case_bool_decide as Hnil; [eexists _, _; split; [done|]; split; [done|]; split; [apply segment_moved_refl|done]|].
  destruct (action_ok (E:=E) (store g) (ops_of g) (policy (processor g)) (length (ops_of g)) mode (seg_policy _ Hg)) as (a & Ha & Hex & Hdef); [done|].
  rewrite firstn_all in Ha, Hex. unfold segment_operations at 1. rewrite Ha. cbn [res_bind].
  assert (∀ g1 c1, seg_ok g1 → moved g g1 → capture_ok mode (store g1) (global (queue g1)) c1 → length (ops_of g1) < length (ops_of g) →
    ∃ g' capture', process_loop (E:=E) beam ran fuel mode g1 c1 = Ok (g', capture') ∧ seg_ok g' ∧ moved g g' ∧
      capture_ok mode (store g') (global (queue g')) capture' ∧ (mode = Sync → ops_of g' = [])) as Hnext.
  { intros g1 c1 H1 H2 H3 H4. destruct (IH g1 c1 H1) as (g' & c' & -> & H5 & H6 & H7 & H8); [lia|done|].
    eexists _, _. split; [done|]. split; [done|]. split; [by eapply segment_moved_trans|done]. }
  destruct a as [| |id].
  - destruct (processor_explore_ok mode g capture Hg Hnil Hcap) as (g1 & c1 & -> & H1 & H2 & H3 & H4). cbn [res_bind fst snd].
    destruct (is_up_to_date (explorer (processor g1))); [|by apply Hnext].
    eexists _, _. split; [done|]. split; [done|]. split; [done|]. split; [done|]. intros ->. by destruct H4.
  - destruct mode; [|by destruct (Hdef eq_refl)]. eexists _, _. split; [done|]. split; [done|]. split; [apply segment_moved_refl|done].
  - destruct (Hex id eq_refl) as (po & Hpo & Hpre). pose proof Hpo as (p & Hp & _)%fmap_Some.
    assert (∃ s, match mode with Sync => add_trigger (E:=E) (store g) id OnSync | Lazy => Ok (store g) end = Ok s ∧ store_good s ∧ store_le (store g) s)
      as (s & -> & Hs & Hle).
    { destruct mode; [exists (store g); split; [done|]; split; [apply Hg|done]|]. by eapply add_trigger_good; [apply Hg|]. }
    cbn [res_bind]. set (g0 := mkSegment _ _ _ _).
    destruct (execute_plan_ok id po mode g0 capture) as (g1 & c1 & -> & H1 & [M1 M2] & H3 & H4 & _).
    { constructor; [apply Hg|done|apply Hg]. } { by eapply plan_ops_le. } { done. } { by eapply capture_le. }
    cbn [res_bind fst snd]. apply Hnext; [done| |done|done]. split; [exact M1|by etrans].
Qed.

Lemma run_sequence_ok ids g :
  seg_ok g → leads (E:=E) (store g) (global (queue g)) ids [] →
  ∃ g', run_sequence (E:=E) ran ids g = Ok g' ∧ seg_ok g' ∧ moved g g' ∧ ops_of g' = [].
Proof using All.
  unfold run_sequence. revert g. induction ids as [|id ids IH]; intros g Hg Hl; cbn [leads res_foldl] in *.
  { exists g. split; [done|]. split; [done|]. split; [apply segment_moved_refl|]. apply (queue_empty _ (seg_queue _ Hg)), Hl. }
  destruct Hl as (po & r & Hpo & [c Hf] & Hpre & Hl). pose proof Hpo as (p & Hp & _)%fmap_Some.
  assert (r = ops_of g) as -> by (pose proof (queue_form _ (seg_queue _ Hg)); congruence).
  destruct (add_trigger_good (E:=E) (store g) id p OnSync (seg_store _ Hg) Hp) as (s & -> & Hs & Hle). cbn [res_bind]. set (g0 := mkSegment _ _ _ _).
  destruct (execute_and_reset_ok id po g0) as (g1 & -> & Hg1 & [M1 M2] & _ & Hgl & _).
  { constructor; [apply Hg|done|apply Hg]. } { by eapply plan_ops_le. } { done. }
  cbn [res_bind]. assert (moved g g1) as Hm by (split; [exact M1|by etrans]).
  destruct (IH g1 Hg1) as (g' & -> & Hg' & Hm' & Hnil); [rewrite Hgl; by eapply leads_le; [apply Hm|]|].
  exists g'. split; [done|]. split; [done|]. split; [by eapply segment_moved_trans|done].
Qed.
(** The end of [process]: a captured sequence is kept when nothing is left. *)
Lemma process_end_ok mode g capture :
  seg_ok g → capture_ok mode (store g) (global (queue g)) capture →
  let g' := match capture with
            | Some k =>
                if bool_decide (segment_operations g = [])
                then mkSegment (processor g) (queue g) (add_sync_sequence (store g) (captured_operations k) (captured_plans k)) (trace g)
                else g
            | None => g
            end in
  seg_ok g' ∧ store_le (store g) (store g') ∧ queue g' = queue g ∧ trace g' = trace g.
Proof.
  intros Hg Hcap. destruct capture as [k|]; [|done]. case_bool_decide as Hnil; [|done].
  destruct (Hcap k eq_refl) as (_ & gl0 & Hf & Hl). apply (queue_empty _ (seg_queue _ Hg)) in Hnil. rewrite Hnil in Hl.
  destruct (add_sequence_good (E:=E) (store g) (captured_operations k) (captured_plans k) (seg_store _ Hg)) as [Hs Hle].
  { intros gl Hgl. exact (leads_same_form _ gl0 gl _ _ Hf Hgl Hl). }
  destruct Hg. split; [|done]. constructor; [done|done|by eapply policy_ok_le|done].
Qed.
Lemma process_ok mode g g0 :
  match mode with Lazy => processor_on_new_operation (E:=E) g | Sync => Ok g end = Ok g0 → seg_ok g0 →
  ∃ g', process (E:=E) beam ran mode g = Ok g' ∧ seg_ok g' ∧ moved g0 g' ∧ (mode = Sync → ops_of g' = []).
Proof using All.
  intros Hg0 Hg. unfold process. rewrite Hg0. cbn [res_bind].
  assert (∃ g1, match mode with
    | Lazy => Ok g0
    | Sync => match find_sync_sequence (store g0) (segment_operations g0) with Some ids => run_sequence (E:=E) ran ids g0 | None => Ok g0 end
    end = Ok g1 ∧ seg_ok g1 ∧ moved g0 g1) as (g1 & -> & Hg1 & Hm1).
  { destruct mode; [exists g0; split; [done|]; split; [done|apply segment_moved_refl]|].
    destruct (find_sync_sequence (store g0) (segment_operations g0)) as [ids|] eqn:Hf; [|exists g0; split; [done|]; split; [done|apply segment_moved_refl]].
    destruct (run_sequence_ok ids g0 Hg) as (g1 & -> & H1 & H2 & _); [|eauto].
    eapply find_sync_sequence_good; [apply Hg|apply queue_form_of, Hg|exact Hf]. }
  cbn [res_bind]. destruct (process_loop_ok (S (length (segment_operations g1))) mode g1 None Hg1) as (g2 & c2 & -> & Hg2 & Hm2 & Hc2 & Hs2);
    [unfold segment_operations; lia|by intros k|].
  cbn [res_bind fst snd]. eexists. split; [done|]. destruct (process_end_ok mode g2 c2 Hg2 Hc2) as (H1 & H2 & H3 & H4).
  set (g' := match c2 with Some _ => _ | None => _ end) in *. split; [done|]. rewrite H3. split; [|done].
  destruct (segment_moved_trans _ _ _ Hm1 Hm2) as [M1 M2]. split; [by rewrite H3, H4|by etrans].
Qed.

(** ** Streams of a device *)

(** The streams share the store; each has a processor and a queue. *)
Record Device := mkDevice {
  streams : gmap N (Processor F * OperationQueue U);
  dev_store : ExecutionPlanStore Operation Opt;
  dev_trace : list (Event U Opt)
}.
Context (limit : option nat).
Definition stream_of (d : Device) (i : N) : Processor F * OperationQueue U :=
  default (processor_new beam limit base, queue_new) (streams d !! i).
(** An operation joins the queue of stream [i], which is then processed lazily. *)
Definition enqueue (d : Device) (i : N) (op : Operation) (u : U) (origins : list (N * N)) : res E (Segment U F Opt) :=
  let? q := queue_add (stream_of d i).2 op u origins i in
  process beam ran Lazy (mkSegment (stream_of d i).1 q (dev_store d) (dev_trace d)).
(** Stream [i] is synchronized. *)
Definition synchronize (d : Device) (i : N) : res E (Segment U F Opt) :=
  process beam ran Sync (mkSegment (stream_of d i).1 (stream_of d i).2 (dev_store d) (dev_trace d)).
Definition with_segment (d : Device) (i : N) g : Device :=
  mkDevice (<[i := (processor g, queue g)]> (streams d)) (store g) (trace g).
(** An operation the library can issue: it has a tensor and its scalars are values. *)
Definition issuable (op : Operation) : Prop := has_tensor op ∧ Forall convertible (parts op).
Inductive device_reach : Device → Prop :=
  | device_new : device_reach (mkDevice ∅ store_new [])
  | device_enqueue d i op u origins g :
      device_reach d → issuable op → enqueue d i op u origins = Ok g → device_reach (with_segment d i g)
  | device_sync d i g : device_reach d → synchronize d i = Ok g → device_reach (with_segment d i g).

Record device_ok (d : Device) : Prop := {
  dev_good : store_good (dev_store d);
  dev_streams : ∀ i p q, streams d !! i = Some (p, q) →
    queue_ok (E:=E) q ∧ policy_ok (dev_store d) (relative q) (policy p) ∧ explorer_ok base (relative q) (explorer p)
}.
Lemma stream_of_ok d i :
  device_ok d → seg_ok (mkSegment (stream_of d i).1 (stream_of d i).2 (dev_store d) (dev_trace d)).
Proof.
  intros [Hs Hd]. unfold stream_of. destruct (streams d !! i) as [[p q]|] eqn:Hi; cbn.
  - destruct (Hd i p q Hi) as (H1 & H2 & H3). by constructor.
  - constructor; cbn; [apply queue_new_ok|done|apply policy_new_ok|apply explorer_new_ok].
Qed.
Lemma with_segment_ok d i g : device_ok d → seg_ok g → store_le (dev_store d) (store g) → device_ok (with_segment d i g).
Proof.
  intros [Hs Hd] [G1 G2 G3 G4] Hle. constructor; [done|]. cbn [with_segment streams dev_store]. intros j p q.
  destruct (decide (j = i)) as [->|Hne].
  - rewrite lookup_insert_eq. by intros [= <- <-].
  - rewrite lookup_insert_ne by done. intros Hj. destruct (Hd j p q Hj) as (H1 & H2 & H3). split; [done|]. split; [by eapply policy_ok_le|done].
Qed.
Lemma enqueue_ok d i op u origins :
  device_ok d → issuable op →
  ∃ g, enqueue d i op u origins = Ok g ∧ seg_ok g ∧ store_le (dev_store d) (store g) ∧
    progress (global (stream_of d i).2 ++ [op]) (q_operations (stream_of d i).2 ++ [u]) (dev_trace d)
      (global (queue g)) (q_operations (queue g)) (trace g).
Proof using All.
  intros Hd [Ht Hc]. destruct (stream_of_ok d i Hd) as [S1 S2 S3 S4]. cbn [queue store processor] in *. unfold enqueue.
  destruct (queue_add_ok (E:=E) (stream_of d i).2 op u origins i S1 Ht Hc) as (q & r & -> & Hq & Hgl & Hrel & Hus). cbn [res_bind].
  destruct (update_ok (E:=E) (dev_store d) _ r (policy (stream_of d i).1) (good_store _ S2) S3) as (pol & Hu & Hpol & _).
  edestruct (process_ok Lazy (mkSegment (stream_of d i).1 q (dev_store d) (dev_trace d))) as (g & -> & Hg & [M1 M2] & _).
  - unfold processor_on_new_operation, segment_operations. cbn [queue store processor]. rewrite Hrel, last_snoc, Hu. cbn [res_bind]. reflexivity.
  - constructor; cbn [queue store processor policy explorer]; [done|done|by rewrite Hrel|]. rewrite Hrel. by apply explorer_add_ok.
  - exists g. split; [done|]. split; [done|]. split; [exact M2|]. cbn [queue trace] in M1. by rewrite <-Hgl, <-Hus.
Qed.
Lemma synchronize_ok d i :
  device_ok d →
  ∃ g, synchronize d i = Ok g ∧ seg_ok g ∧ store_le (dev_store d) (store g) ∧ ops_of g = [] ∧
    progress (global (stream_of d i).2) (q_operations (stream_of d i).2) (dev_trace d) (global (queue g)) (q_operations (queue g)) (trace g).
Proof using All.
  intros Hd. edestruct (process_ok Sync) as (g & Hg & H1 & [M1 M2] & H3); [reflexivity|apply (stream_of_ok d i Hd)|].
  exists g. split; [exact Hg|]. split; [done|]. split; [exact M2|]. split; [by apply H3|exact M1].
Qed.
Lemma device_reach_ok d : device_reach d → device_ok d.
Proof using All.
  induction 1 as [|d i op u origins g _ IH Hop Hg|d i g _ IH Hg].
  - constructor; [apply store_new_good|]. intros i p q. cbn. by rewrite lookup_empty.
  - destruct (enqueue_ok d i op u origins IH Hop) as (g' & Hg' & H1 & H2 & _). assert (g' = g) as -> by congruence. by apply with_segment_ok.
  - destruct (synchronize_ok d i IH) as (g' & Hg' & H1 & H2 & _). assert (g' = g) as -> by congruence. by apply with_segment_ok.
Qed.
End processor.

Section claims.
Context {E U F Opt : Type} `{!OperationLayout, !OperationHash Operation, !Fuser Operation F Opt, !FuserLaws Operation F Opt}.
Context (beam : nat) (ran : Opt → OperationConverter → list (Event U Opt) → Opt) (base : list F) `{!RuntimeLaws base ran} (limit : option nat).



(** Cached sequences stay valid.  In every reachable state, whatever sequence of
    plans the store returns for the relative form of a queue, of any stream and
    whatever the tensors it names, its plans match the queue one after the other, each
    what the previous ones left once converted anew, and together empty it. *)
Theorem cached_sequence_matches (d : Device) (gl ops : list Operation) c (ids : list nat) :
  device_reach (E:=E) beam ran base limit d → all_to_relative (E:=E) gl converter_new = Ok (ops, c) →
  find_sync_sequence (dev_store d) ops = Some ids → leads (E:=E) (dev_store d) gl ids [].
Proof using All.
  intros Hd Hf. destruct (device_reach_ok _ _ _ _ d Hd) as [Hs _]. eapply find_sync_sequence_good; [exact Hs|by exists c].
Qed.
End claims.

(** A device whose fuser takes pairs. *)
Module Example.
#[export] Instance layout : OperationLayout := { is_output _ i := i =? 2; drop_tag _ := false; ordered_tag _ := false }.
#[export] Instance hash : OperationHash Operation := { operation_key o := tag o; sequence_key l := N.of_nat (length l) }.
#[export] Instance pairs : Fuser Operation (list Operation) nat := {
  fuse op l := l ++ [op];
  finish l := length l `min` 2;
  reset _ := [];
  closed l := 4 <=? length l;
  ready l := 2 <=? length l;
  score l := N.of_nat (length l);
  num_operations n := n
}.
#[export] Instance pairs_laws : FuserLaws Operation (list Operation) nat.
Proof. constructor. intros x Hx%Nat.leb_le. cbn. lia. Qed.
Definition unchanged (opt : nat) (_ : OperationConverter) (_ : list (Event nat nat)) : nat := opt.
Lemma fused_app (x ops : list Operation) : fused x ops = x ++ ops.
Proof.
  unfold fused. revert x. induction ops as [|o ops IH]; intros x; cbn [foldl]; [by rewrite app_nil_r|]. rewrite IH. cbn. by rewrite <-app_assoc.
Qed.
#[export] Instance runtime_laws : RuntimeLaws [[]] unchanged.
Proof.
  constructor; [|done]. intros x ops (y & k & ->%list_elem_of_singleton & ->) _. rewrite fused_app.
  assert (Nat.iter k reset [] = []) as -> by (by destruct k). cbn. lia.
Qed.
Abbreviation device := (@Device nat (list Operation) nat).
Definition device0 : device := mkDevice ∅ store_new [].
Definition ops3 : list (Operation * nat) := [(add_op 10 20 30 7 5, 0); (add_op 30 10 40 7 6, 1); (add_op 40 30 50 7 6, 2)].
Definition enqueue_all (d : device) (l : list (Operation * nat)) : res unit device :=
  res_foldl (λ d o, let? g := enqueue 4 unchanged [[]] None d 1 o.1 o.2 [] in Ok (with_segment d 1 g)) d l.
Definition synced (d : device) : res unit device := let? g := synchronize 4 unchanged [[]] None d 1 in Ok (with_segment d 1 g).
Abbreviation reached := (device_reach (E:=unit) 4 unchanged [[]] None).
Lemma add_op_issuable a b o k x : issuable (add_op a b o k x).
Proof. split; [done|]. repeat constructor; intros ? ?; discriminate. Qed.
Lemma enqueue_all_reach l d d' : Forall (λ o, issuable o.1) l → reached d → enqueue_all d l = Ok d' → reached d'.
Proof.
  intros Hl. revert d. induction Hl as [|o l Hop Hl IH]; intros d Hd He; [by injection He as <-|]. cbn [enqueue_all res_foldl] in He.
  apply res_bind_Ok in He as (d1 & Hd1 & He). apply res_bind_Ok in Hd1 as (g & Hg & [= <-]). eapply IH; [|exact He]. by eapply device_enqueue.
Qed.
Lemma synced_reach d d' : reached d → synced d = Ok d' → reached d'.
Proof. intros Hd (g & Hg & [= <-])%res_bind_Ok. by eapply device_sync. Qed.
Lemma ops3_issuable : Forall (λ o, issuable o.1) ops3.
Proof. repeat (apply List.Forall_cons; [apply add_op_issuable|]). apply List.Forall_nil. Qed.
(** Three operations queued, and the same device after a synchronization. *)
Definition device1 : device := match enqueue_all device0 ops3 with Ok d => d | _ => device0 end.
Definition device2 : device := match synced device1 with Ok d => d | _ => device1 end.
Lemma device1_reach : reached device1.
Proof.
  apply (enqueue_all_reach ops3 device0 device1); [apply ops3_issuable|apply device_new|vm_compute; reflexivity].
Qed.
Lemma device2_reach : reached device2.
Proof. apply (synced_reach device1 device2); [apply device1_reach|vm_compute; reflexivity]. Qed.
(** The same operations on other tensors. *)
Definition renamed3 : list Operation := [add_op 4 5 6 9 0; add_op 6 4 2 9 8; add_op 2 6 7 9 1].
Lemma cached_sequence_matches_witness :
  reached device2 ∧
  ∃ ops c, all_to_relative (E:=unit) renamed3 converter_new = Ok (ops, c) ∧
    find_sync_sequence (dev_store device2) ops = Some [0; 1] ∧ leads (E:=unit) (dev_store device2) renamed3 [0; 1] [].
Proof.
  split; [apply device2_reach|].
  destruct (all_to_relative (E:=unit) renamed3 converter_new) as [[ops c]| |] eqn:Hf; [|vm_compute in Hf; discriminate|vm_compute in Hf; discriminate].
  assert (find_sync_sequence (dev_store device2) ops = Some [0; 1]) as Hs.
  { vm_compute in Hf. injection Hf as <- <-. vm_compute. reflexivity. }
  exists ops, c. split; [done|]. split; [done|].
  exact (cached_sequence_matches (E:=unit) 4 unchanged [[]] None device2 renamed3 ops c [0; 1] device2_reach Hf Hs).
Defined.
End Example.
