(* ===== verification/AutodiffGraph.v ===== *)
(** * Automatic differentiation: nodes, retro-forwards and the backward ancestry

    The data of [ruda-autodiff]: node identifiers, requirements, computing
    properties and nodes ([graph/node.rs], [graph/requirement.rs]), the forward
    functions that can be replayed ([checkpoint/retro_forward.rs]), and the two
    searches over registered steps, [GraphTraversal::collect_steps] and
    [AutodiffServer::gradient_paths]. *)

From S2P Require Import Prelude.
Open Scope nat_scope.

(** The tensors of a backend: [B::FloatTensorPrimitive], [Scalar], and the two
    functions the gradient container calls.  [float_ones_like t] is
    [B::float_ones] at the shape, device and type of [t]. *)
Class Backend := {
  FloatTensorPrimitive : Type;
  Scalar : Type;
  float_add : FloatTensorPrimitive → FloatTensorPrimitive → FloatTensorPrimitive;
  float_ones_like : FloatTensorPrimitive → FloatTensorPrimitive
}.

(** [struct NodeId { value: u64 }] *)
Abbreviation NodeId := N (only parsing).

(** [NodeId::new]: the counter before and the identifier made from it. *)
Definition NodeId_new {E} (counter : N) : res E NodeId * N :=
  ((if (counter =? u64_max)%N then Panic else Ok counter), ((counter + 1) mod (u64_max + 1))%N).

Record Parent := mkParent { parent_id : NodeId; is_leaf : bool }.
#[export] Instance parent_eq_dec : EqDecision Parent.
Proof. solve_decision. Defined.

Inductive Requirement := Grad | GradInBackward | NoGrad.
#[export] Instance requirement_eq_dec : EqDecision Requirement.
Proof. solve_decision. Defined.
Definition is_none (r : Requirement) : bool := match r with NoGrad => true | _ => false end.
Definition infer (r other : Requirement) : Requirement :=
  if is_none r && is_none other then NoGrad else GradInBackward.

Inductive GradientCheckpointingStrategy := Disabled | Balanced | Custom (name : string).
#[export] Instance strategy_eq_dec : EqDecision GradientCheckpointingStrategy.
Proof. solve_decision. Defined.

Section node.
Context {B : Backend}.

(** The retro-forward structures the three macros of [retro_forward.rs] make. *)
Inductive RetroForward :=
| RetroUnaryScalar (lhs_id : NodeId) (rhs : Scalar)
    (ops : FloatTensorPrimitive → Scalar → FloatTensorPrimitive)
| RetroUnary (input_id : NodeId) (ops : FloatTensorPrimitive → FloatTensorPrimitive)
| RetroBinary (lhs_id rhs_id : NodeId)
    (ops : FloatTensorPrimitive → FloatTensorPrimitive → FloatTensorPrimitive).

Inductive ComputingProperty :=
| ComputeBound
| MemoryBound (retro_forward : RetroForward)
| Ambiguous.

Record Node := mkNode {
  node_parents : list Parent;
  node_order : N;
  node_id : NodeId;
  requirement : Requirement;
  properties : ComputingProperty;
  checkpointing : option GradientCheckpointingStrategy;
  autodiff_enabled : bool
}.

(** [Node::new]: no strategy of its own, enabled. *)
Definition Node_new (parents : list Parent) (order : N) (id : NodeId) (r : Requirement)
    (p : ComputingProperty) : Node :=
  mkNode parents order id r p None true.

(** [clone_if_require_grad] *)
Definition clone_if_require_grad (n : Node) : option Node :=
  if is_none (requirement n) then None else Some n.

(** [Requirement::from_nodes] *)
Definition from_nodes (nodes : list Node) : Requirement :=
  match nodes with
  | [n] => infer (requirement n) NoGrad
  | [] => NoGrad
  | n :: rest => foldl (λ acc m, infer (requirement m) acc) (requirement n) rest
  end.
End node.

(** ** The backward ancestry *)

(** [trait TraversalItem] *)
Class TraversalItem (I : Type) := item_parents : I → list Parent.

Section traversal.
Context {I : Type} {T : TraversalItem I}.
Implicit Types (steps : gmap NodeId I).

(** The loop of [collect_steps].  The stack [parents] keeps its top first. *)
Fixpoint collect_loop (fuel : nat) steps (nodes : list NodeId) (visited : gset NodeId)
    (parents : list Parent) : res NodeId (list NodeId) :=
  match fuel with
  | 0 => Panic
  | S fuel =>
      match parents with
      | [] => Ok nodes
      | parent :: parents =>
          if decide (parent_id parent ∈ visited) then collect_loop fuel steps nodes visited parents
          else
            let visited := {[parent_id parent]} ∪ visited in
            match steps !! parent_id parent with
            | Some step =>
                collect_loop fuel steps (nodes ++ [parent_id parent]) visited
                  (reverse (item_parents step) ++ parents)
            | None =>
                if is_leaf parent then collect_loop fuel steps nodes visited parents
                else Err (parent_id parent)
            end
      end
  end.

(** Every parent of a step is pushed once. *)
Definition edge_total steps : nat := N.to_nat (msum (λ i, len (item_parents i)) steps).

Definition collect_steps (root_id : NodeId) steps : res NodeId (list NodeId) :=
  match steps !! root_id with
  | None => Err root_id
  | Some root =>
      collect_loop (S (edge_total steps)) steps [root_id] {[root_id]} (reverse (item_parents root))
  end.

(** The loop of [gradient_paths]. *)
Fixpoint paths_loop (fuel : nat) steps (visited : gset NodeId) (pending : list NodeId) :
    res False (gset NodeId) :=
  match fuel with
  | 0 => Panic
  | S fuel =>
      match pending with
      | [] => Ok visited
      | node :: pending =>
          if decide (node ∈ visited) then paths_loop fuel steps visited pending
          else
            paths_loop fuel steps ({[node]} ∪ visited)
              (match steps !! node with
               | Some step => reverse (parent_id <$> item_parents step) ++ pending
               | None => pending
               end)
      end
  end.

Definition gradient_paths steps (root : NodeId) (candidates : list NodeId) : res False (list bool) :=
  let? visited := paths_loop (2 + edge_total steps) steps ∅ [root] in
  Ok ((λ candidate, bool_decide (candidate ∈ visited)) <$> candidates).

(** ** Reachability *)

(** [p] is a parent of the step of [a]. *)
Definition has_parent steps (a : NodeId) (p : Parent) : Prop :=
  ∃ i, steps !! a = Some i ∧ p ∈ item_parents i.
Definition parent_edge steps (a b : NodeId) : Prop := ∃ p, has_parent steps a p ∧ parent_id p = b.
Definition ancestor steps : relation NodeId := rtc (parent_edge steps).
(** The ancestry is complete: what is missing is a leaf of the graph. *)
Definition tape_complete steps (root : NodeId) : Prop :=
  is_Some (steps !! root) ∧
  ∀ a p, ancestor steps root a → has_parent steps a p → is_Some (steps !! parent_id p) ∨ is_leaf p = true.

Lemma ancestor_parent steps r a p :
  ancestor steps r a → has_parent steps a p → ancestor steps r (parent_id p).
Proof. intros Ha Hp. eapply rtc_r; [done|]. by exists p. Qed.

(** What is left to push once the nodes of [visited] are expanded. *)
Definition edges_left steps (visited : gset NodeId) : nat :=
  N.to_nat (left_total (λ i, len (item_parents i)) steps visited).
Lemma edges_left_none steps visited n :
  steps !! n = None → edges_left steps ({[n]} ∪ visited) = edges_left steps visited.
Proof. intros Hn. unfold edges_left. by rewrite left_total_none. Qed.
Lemma edges_left_some steps visited n i :
  steps !! n = Some i → n ∉ visited →
  edges_left steps visited = length (item_parents i) + edges_left steps ({[n]} ∪ visited).
Proof. intros Hn Hv. unfold edges_left. rewrite (left_total_some _ _ _ n i) by done. unfold len. lia. Qed.
Lemma edges_left_empty steps : edges_left steps ∅ = edge_total steps.
Proof. unfold edges_left. by rewrite left_total_empty. Qed.

(** ** What [collect_steps] returns *)

(** The nodes gathered are those visited that have a step, and what is still to be
    seen is on the stack. *)
Record collecting steps (root : NodeId) (nodes : list NodeId) (visited : gset NodeId)
    (parents : list Parent) : Prop := {
  col_root : ∃ tl, nodes = root :: tl;
  col_nodup : NoDup nodes;
  col_nodes n : n ∈ nodes ↔ n ∈ visited ∧ is_Some (steps !! n);
  col_reach n : n ∈ visited → ancestor steps root n;
  col_stack p : p ∈ parents → ∃ a, ancestor steps root a ∧ has_parent steps a p;
  col_closed a p : a ∈ nodes → has_parent steps a p → parent_id p ∈ visited ∨ p ∈ parents;
  col_missing n : n ∈ visited → steps !! n = None →
    ∃ a p, ancestor steps root a ∧ has_parent steps a p ∧ parent_id p = n ∧ is_leaf p = true
}.

Lemma collecting_seen steps root nodes visited p parents :
  collecting steps root nodes visited (p :: parents) → parent_id p ∈ visited →
  collecting steps root nodes visited parents.
Proof.
  intros [Hr Hn Hm Hv Hs Hc Hx] Hp. split; try done.
  - intros q Hq. apply Hs. by right.
  - intros a q Ha Hq. destruct (Hc a q Ha Hq) as [|[->|]%elem_of_cons]; auto.
Qed.
Lemma collecting_step steps root nodes visited p parents i :
  collecting steps root nodes visited (p :: parents) → parent_id p ∉ visited →
  steps !! parent_id p = Some i →
  collecting steps root (nodes ++ [parent_id p]) ({[parent_id p]} ∪ visited)
    (reverse (item_parents i) ++ parents).
Proof.
  intros [[tl ->] Hn Hm Hv Hs Hc Hx] Hp Hi.
  destruct (Hs p ltac:(by left)) as (a & Ha & Hap).
  pose proof (ancestor_parent _ _ _ _ Ha Hap) as Hrp. split.
  - by exists (tl ++ [parent_id p]).
  - apply NoDup_app. split_and!; [done| |apply NoDup_singleton].
    intros n Hn' ->%list_elem_of_singleton. by apply Hm in Hn' as [].
  - intros n. rewrite elem_of_app, list_elem_of_singleton, Hm. set_solver.
  - set_solver.
  - intros q [Hq|Hq]%elem_of_app; [rewrite elem_of_reverse in Hq|apply Hs; by right].
    exists (parent_id p). split; [done|]. by exists i.
  - intros b q [Hb| ->%list_elem_of_singleton]%elem_of_app Hq.
    + destruct (Hc b q Hb Hq) as [|[->|]%elem_of_cons]; [set_solver| |]; [set_solver|].
      right. apply elem_of_app. by right.
    + right. destruct Hq as (j & Hj & Hq). simplify_eq. apply elem_of_app. left. by apply elem_of_reverse.
  - intros n Hn' Hnone. apply Hx; [|done]. set_solver.
Qed.
Lemma collecting_leaf steps root nodes visited p parents :
  collecting steps root nodes visited (p :: parents) →
  steps !! parent_id p = None → is_leaf p = true →
  collecting steps root nodes ({[parent_id p]} ∪ visited) parents.
Proof.
  intros [Hr Hn Hm Hv Hs Hc Hx] Hnone Hleaf.
  destruct (Hs p ltac:(by left)) as (a & Ha & Hap). split; try done.
  - intros n. rewrite Hm. split; [set_solver|]. intros [[Hn'%elem_of_singleton|]%elem_of_union [j Hj]]; [congruence|eauto].
  - intros n [->%elem_of_singleton|]%elem_of_union; [by eapply ancestor_parent|auto].
  - intros q Hq. apply Hs. by right.
  - intros b q Hb Hq. destruct (Hc b q Hb Hq) as [|[->|]%elem_of_cons]; [set_solver|set_solver|auto].
  - intros n [->%elem_of_singleton|Hn']%elem_of_union Hn''; [|auto]. by exists a, p.
Qed.

Lemma collect_loop_ok fuel steps root nodes visited parents :
  collecting steps root nodes visited parents →
  length parents + edges_left steps visited < fuel →
  (∃ nodes' visited', collect_loop fuel steps nodes visited parents = Ok nodes' ∧
     collecting steps root nodes' visited' []) ∨
  (∃ a p, collect_loop fuel steps nodes visited parents = Err (parent_id p) ∧
     ancestor steps root a ∧ has_parent steps a p ∧ steps !! parent_id p = None ∧ is_leaf p = false).
Proof.
  revert nodes visited parents. induction fuel as [|fuel IH]; intros nodes visited parents Hcol Hfuel; [lia|].
  destruct parents as [|p parents]; cbn [collect_loop]; [left; by exists nodes, visited|].
  case_decide as Hp; simpl in Hfuel.
  { apply IH; [by eapply collecting_seen|lia]. }
  destruct (steps !! parent_id p) as [i|] eqn:Hi.
  { apply IH; [by eapply collecting_step|]. rewrite (edges_left_some _ _ _ _ Hi Hp) in Hfuel.
    rewrite length_app, length_reverse. lia. }
  destruct (is_leaf p) eqn:Hleaf.
  { apply IH; [by eapply collecting_leaf|]. rewrite edges_left_none by done. lia. }
  right. destruct (col_stack _ _ _ _ _ Hcol p) as (a & Ha & Hap); [by left|]. by exists a, p.
Qed.

Lemma collecting_init steps root i :
  steps !! root = Some i → collecting steps root [root] {[root]} (reverse (item_parents i)).
Proof.
  intros Hi. split.
  - by exists [].
  - apply NoDup_singleton.
  - intros n. rewrite list_elem_of_singleton, elem_of_singleton. naive_solver.
  - intros n ->%elem_of_singleton. apply rtc_refl.
  - intros p Hp. rewrite elem_of_reverse in Hp. exists root. split; [apply rtc_refl|by exists i].
  - intros a p ->%list_elem_of_singleton (j & Hj & Hp). simplify_eq. right. by apply elem_of_reverse.
  - intros n ->%elem_of_singleton Hn. congruence.
Qed.
Lemma collecting_all steps root nodes visited n :
  collecting steps root nodes visited [] → ancestor steps root n → n ∈ visited.
Proof.
  intros [[tl Heq] Hn Hm Hv Hs Hc Hx] Ha. revert n Ha. apply rtc_ind_r.
  - apply Hm. rewrite Heq. by left.
  - intros b c Ha (p & Hp & <-) IH. destruct (Hc b p) as [|Hp']; [|done|done|by apply elem_of_nil in Hp'].
    apply Hm. split; [done|]. destruct Hp as (i & Hi & _). by exists i.
Qed.

(** The flag of a parent is a property of the node it names. *)
Definition leaves_consistent steps : Prop :=
  ∀ a b p q, has_parent steps a p → has_parent steps b q → parent_id p = parent_id q → is_leaf p = is_leaf q.

Lemma collect_steps_cases root steps :
  (∃ tl, collect_steps root steps = Ok (root :: tl) ∧ NoDup (root :: tl) ∧
     (∀ n, n ∈ root :: tl ↔ ancestor steps root n ∧ is_Some (steps !! n)) ∧
     (leaves_consistent steps → tape_complete steps root)) ∨
  (∃ m, collect_steps root steps = Err m ∧ steps !! m = None ∧ ancestor steps root m ∧ ¬ tape_complete steps root).
Proof.
  unfold collect_steps. destruct (steps !! root) as [i|] eqn:Hi.
  2: { right. exists root. split_and!; [done|done|apply rtc_refl|]. intros [[x Hx] _]. congruence. }
  destruct (collect_loop_ok (S (edge_total steps)) steps root [root] {[root]} (reverse (item_parents i)))
    as [(nodes & visited & -> & Hcol)|(a & p & -> & Ha & Hap & Hnone & Hleaf)].
  - by apply collecting_init.
  - rewrite length_reverse. pose proof (edges_left_some steps ∅ root i Hi ltac:(set_solver)) as He.
    rewrite edges_left_empty, union_empty_r_L in He. lia.
  - left. destruct (col_root _ _ _ _ _ Hcol) as [tl ->]. exists tl. split; [done|]. split; [by eapply col_nodup|]. split.
    + intros n. rewrite (col_nodes _ _ _ _ _ Hcol). split; [intros [Hn ?]; split; [by eapply col_reach|done]|].
      intros [Hn ?]. split; [by eapply collecting_all|done].
    + intros Hcons. split; [by exists i|]. intros a p Ha Hp.
      destruct (steps !! parent_id p) eqn:Hpp; [by left|right].
      destruct (col_missing _ _ _ _ _ Hcol (parent_id p)) as (b & q & _ & Hq & Heq & Hleaf); [|done|].
      { eapply collecting_all; [done|]. by eapply ancestor_parent. }
      rewrite <-Hleaf. by eapply Hcons.
  - right. exists (parent_id p). split_and!; [done|done|by eapply ancestor_parent|].
    intros [_ Hc]. destruct (Hc a p Ha Hap) as [[x Hx]|Hx]; congruence.
Qed.

(** [collect_steps] never runs out of the bound on its loop: it returns the steps
    of the ancestry, each once and the root first, exactly when the ancestry is
    complete, and otherwise a missing ancestor, with nothing taken. *)
Theorem collect_steps_exact root steps :
  leaves_consistent steps →
  match collect_steps root steps with
  | Ok nodes =>
      tape_complete steps root ∧ head nodes = Some root ∧ NoDup nodes ∧
      ∀ n, n ∈ nodes ↔ ancestor steps root n ∧ is_Some (steps !! n)
  | Err m => ¬ tape_complete steps root ∧ ancestor steps root m ∧ steps !! m = None
  | Panic => False
  end.
Proof.
  intros Hc. destruct (collect_steps_cases root steps) as [(tl & -> & Hn & Hm & Ht)|(m & -> & Hm & Ha & Ht)].
  - split_and!; auto.
  - done.
Qed.

(** ** What [gradient_paths] returns *)

Record searching steps (root : NodeId) (visited : gset NodeId) (pending : list NodeId) : Prop := {
  sea_root : root ∈ visited ∨ root ∈ pending;
  sea_reach n : n ∈ visited ∨ n ∈ pending → ancestor steps root n;
  sea_closed a b : a ∈ visited → parent_edge steps a b → b ∈ visited ∨ b ∈ pending
}.
Lemma searching_seen steps root visited n pending :
  searching steps root visited (n :: pending) → n ∈ visited → searching steps root visited pending.
Proof.
  intros [Hr Hv Hc] Hn. split.
  - set_solver.
  - set_solver.
  - intros a b Ha Hb. destruct (Hc a b Ha Hb) as [|[->|]%elem_of_cons]; auto.
Qed.
Lemma searching_step steps root visited n pending :
  searching steps root visited (n :: pending) → n ∉ visited →
  searching steps root ({[n]} ∪ visited)
    (match steps !! n with
     | Some step => reverse (parent_id <$> item_parents step) ++ pending
     | None => pending
     end).
Proof.
  intros [Hr Hv Hc] Hn.
  assert (∀ b, b ∈ (match steps !! n with
     | Some step => reverse (parent_id <$> item_parents step) ++ pending
     | None => pending end) ↔ parent_edge steps n b ∨ b ∈ pending) as Hp.
  { intros b. unfold parent_edge, has_parent. destruct (steps !! n) as [i|].
    - rewrite elem_of_app, elem_of_reverse, list_elem_of_fmap. naive_solver.
    - naive_solver. }
  split.
  - rewrite Hp. set_solver.
  - intros m. rewrite Hp. intros [[->%elem_of_singleton|Hm]%elem_of_union|[Hm|Hm]].
    + apply Hv. right. by left.
    + apply Hv. by left.
    + eapply rtc_r; [|done]. apply Hv. right. by left.
    + apply Hv. right. by right.
  - intros a b [->%elem_of_singleton|Ha]%elem_of_union Hb; rewrite Hp; [by right; left|].
    destruct (Hc a b Ha Hb) as [|[->|]%elem_of_cons]; set_solver.
Qed.
Lemma paths_loop_ok fuel steps root visited pending :
  searching steps root visited pending → length pending + edges_left steps visited < fuel →
  ∃ visited', paths_loop fuel steps visited pending = Ok visited' ∧ searching steps root visited' [].
Proof.
  revert visited pending. induction fuel as [|fuel IH]; intros visited pending Hs Hfuel; [lia|].
  destruct pending as [|n pending]; cbn [paths_loop]; [by exists visited|]. simpl in Hfuel.
  case_decide as Hn; [apply IH; [by eapply searching_seen|lia]|].
  apply IH; [by apply searching_step|]. destruct (steps !! n) as [i|] eqn:Hi.
  - rewrite (edges_left_some _ _ _ _ Hi Hn) in Hfuel.
    rewrite length_app, length_reverse, length_fmap. lia.
  - rewrite edges_left_none by done. lia.
Qed.

(** [gradient_paths] says of every candidate whether the root depends on it. *)
Theorem gradient_paths_exact steps root candidates :
  ∃ found, gradient_paths steps root candidates = Ok found ∧
    Forall2 (λ candidate b, b = true ↔ ancestor steps root candidate) candidates found.
Proof.
  unfold gradient_paths.
  destruct (paths_loop_ok (2 + edge_total steps) steps root ∅ [root]) as (visited & -> & [Hr Hv Hc]).
  - split; [right; by left| |set_solver].
    intros n [| ->%list_elem_of_singleton]; [set_solver|apply rtc_refl].
  - rewrite edges_left_empty. simpl. lia.
  - eexists. split; [done|]. rewrite Forall2_fmap_r. apply Forall_Forall2_diag, Forall_forall.
    intros c _. simpl. rewrite bool_decide_eq_true. split; [by auto|]. revert c. apply rtc_ind_r.
    + by destruct Hr as [|Hr%elem_of_nil].
    + intros b c _ Hb IH. by destruct (Hc b c IH Hb) as [|?%elem_of_nil].
Qed.
End traversal.
