(* ===== verification/AutodiffCheckpoint.v ===== *)
(** * Automatic differentiation: checkpointing

    What a forward pass keeps for the backward pass ([checkpoint/builder.rs]), how
    the states of the nodes are kept during the backward pass
    ([checkpoint/state.rs]), and how the output of a node that was not kept is
    computed again ([checkpoint/base.rs], [checkpoint/retro_forward.rs]).  The
    strategies of [checkpoint/strategy.rs] are instances of one class. *)

From S2P Require Import Prelude AutodiffGraph.
Open Scope nat_scope.

(** [struct NodeTree]: the parents of the nodes; and the counts of the builder. *)
Abbreviation NodeTree := (gmap NodeId (list NodeId)).
Abbreviation NRequired := (gmap NodeId N).

Section checkpoint.
Context {P : Profile} {H : HashOrder} {B : Backend}.

(** ** [checkpoint/state.rs] *)

(** [Box<dyn Any + Send>]: a float tensor of the backend, or a value of another type. *)
Inductive StateContent := FloatBox (v : FloatTensorPrimitive) | OtherBox.
(** [downcast::<B::FloatTensorPrimitive>] *)
Definition downcast (c : StateContent) : option FloatTensorPrimitive :=
  match c with FloatBox v => Some v | OtherBox => None end.

Inductive State :=
| Recompute (n_required : N)
| Computed (state_content : StateContent) (n_required : N).

Definition to_state_content {S} (s : State) : M S False StateContent :=
  match s with Recompute _ => panic | Computed c _ => ret c end.
Definition into_state_content {S} (s : State) : M S False StateContent :=
  match s with Recompute _ => panic | Computed c _ => ret c end.
Definition n_required (s : State) : N :=
  match s with Recompute n => n | Computed _ n => n end.

Abbreviation BackwardStates := (gmap NodeId State).

Definition get_state_ref (node_id : NodeId) (states : BackwardStates) : option State := states !! node_id.
Definition insert_state (node_id : NodeId) (s : State) : M BackwardStates False unit :=
  modify (λ states : BackwardStates, <[node_id := s]> states).

Definition get_state (node_id : NodeId) : M BackwardStates False FloatTensorPrimitive :=
  let! found := gets (get_state_ref node_id) in
  let! state := expect found in
  let! _ := modify (λ states : BackwardStates, delete node_id states) in
  let! remaining_n_required := lift (usub usize_max (n_required state) 1) in
  if (0 <? remaining_n_required)%N then
    let! new_stored_state :=
      match state with
      | Recompute _ => panic
      | Computed state_content _ => ret (Computed state_content remaining_n_required)
      end in
    let! content := to_state_content new_stored_state in
    let! downcasted := expect (downcast content) in
    let! _ := insert_state node_id new_stored_state in
    ret downcasted
  else
    let! content := into_state_content state in
    expect (downcast content).

Definition save (node_id : NodeId) (saved_output : FloatTensorPrimitive) : M BackwardStates False unit :=
  let! found := gets (get_state_ref node_id) in
  let! state := expect found in
  insert_state node_id (Computed (FloatBox saved_output) (n_required state)).

Definition states_is_empty (states : BackwardStates) : bool := bool_decide (states = ∅).

(** ** [checkpoint/retro_forward.rs] *)

(** [RetroForward::forward] *)
Definition forward (retro_forward : RetroForward) (out_node : NodeId) : M BackwardStates False unit :=
  match retro_forward with
  | RetroUnaryScalar lhs_id rhs ops =>
      let! lhs := get_state lhs_id in
      save out_node (ops lhs rhs)
  | RetroUnary input_id ops =>
      let! input := get_state input_id in
      save out_node (ops input)
  | RetroBinary lhs_id rhs_id ops =>
      let! lhs := get_state lhs_id in
      let! rhs := get_state rhs_id in
      save out_node (ops lhs rhs)
  end.

Record Checkpointer := mkCheckpointer {
  backward_states : BackwardStates;
  retro_forwards : gmap NodeId RetroForward;
  node_tree : NodeTree
}.

(** A method of [BackwardStates] run on [self.backward_states]. *)
Definition on_states {A} (m : M BackwardStates False A) : M Checkpointer False A := λ ck,
  let '(r, states) := m (backward_states ck) in
  (r, mkCheckpointer states (retro_forwards ck) (node_tree ck)).

(** [RetroForwards::execute_retro_forward] *)
Definition execute_retro_forward (node_id : NodeId) : M Checkpointer False unit :=
  let! found := gets (λ ck, get_state_ref node_id (backward_states ck)) in
  let! state := expect found in
  match state with
  | Recompute _ =>
      let! taken := gets (λ ck, retro_forwards ck !! node_id) in
      let! _ := modify (λ ck, mkCheckpointer (backward_states ck) (delete node_id (retro_forwards ck)) (node_tree ck)) in
      let! retro_forward := expect taken in
      on_states (forward retro_forward node_id)
  | Computed _ _ => ret tt
  end.

(** ** [checkpoint/base.rs] *)

(** The loop of [topological_sort]; the stack [pending] keeps its top first. *)
Fixpoint sort_loop (fuel : nat) (ck : Checkpointer) (sorted : list NodeId) (visited : gset NodeId)
    (pending : list (NodeId * bool)) : res False (list NodeId) :=
  match fuel with
  | 0 => Panic
  | S fuel =>
      match pending with
      | [] => Ok sorted
      | (node_id, parents_expanded) :: pending =>
          if decide (node_id ∈ visited) then sort_loop fuel ck sorted visited pending
          else if parents_expanded : bool then
            sort_loop fuel ck (sorted ++ [node_id]) ({[node_id]} ∪ visited) pending
          else
            match get_state_ref node_id (backward_states ck) with
            | Some (Recompute _) =>
                match node_tree ck !! node_id with
                | Some parents =>
                    sort_loop fuel ck sorted visited
                      (((λ parent, (parent, false)) <$> parents) ++ (node_id, true) :: pending)
                | None => Panic
                end
            | Some (Computed _ _) =>
                sort_loop fuel ck (sorted ++ [node_id]) ({[node_id]} ∪ visited) pending
            | None => Panic
            end
      end
  end.

(** Every node of the tree is expanded at most once. *)
Definition tree_total (tree : NodeTree) : nat := N.to_nat (msum (λ ps, 1 + len ps)%N tree).

Definition topological_sort (ck : Checkpointer) (node_id : NodeId) : res False (list NodeId) :=
  sort_loop (2 + tree_total (node_tree ck)) ck [] ∅ [(node_id, false)].

Definition retrieve_node_output (node_id : NodeId) : M Checkpointer False FloatTensorPrimitive :=
  let! ck := gets (λ ck, ck) in
  let! sorted := lift (topological_sort ck node_id) in
  let! _ := for_each sorted execute_retro_forward in
  on_states (get_state node_id).

Definition is_empty (ck : Checkpointer) : bool :=
  states_is_empty (backward_states ck) && bool_decide (retro_forwards ck = ∅).

(** ** [checkpoint/builder.rs] *)

Inductive CheckpointingAction :=
| ActComputed (node_id : NodeId) (state_content : StateContent)
| ActRecompute (node_id : NodeId) (retro_forward : RetroForward).
Definition act_id (a : CheckpointingAction) : NodeId :=
  match a with ActComputed n _ => n | ActRecompute n _ => n end.

Record CheckpointerBuilder := mkBuilder {
  explicit_actions : list CheckpointingAction;
  backup_actions : list CheckpointingAction
}.
Definition builder_default : CheckpointerBuilder := mkBuilder [] [].
Inductive ActionType := Explicit | Backup.

Record AutodiffTensor := mkTensor { primitive : FloatTensorPrimitive; node : Node }.
Definition is_tracked (t : AutodiffTensor) : bool := negb (is_none (requirement (node t))).

(** The action that keeps a tensor. *)
Definition action_of (tensor : AutodiffTensor) : CheckpointingAction :=
  match properties (node tensor) with
  | ComputeBound | Ambiguous => ActComputed (node_id (node tensor)) (FloatBox (primitive tensor))
  | MemoryBound retro_forward => ActRecompute (node_id (node tensor)) retro_forward
  end.
Definition checkpoint (tensor : AutodiffTensor) (action_type : ActionType) (b : CheckpointerBuilder) :
    CheckpointerBuilder :=
  match action_type with
  | Explicit => mkBuilder (explicit_actions b ++ [action_of tensor]) (backup_actions b)
  | Backup => mkBuilder (explicit_actions b) (backup_actions b ++ [action_of tensor])
  end.

(** [CheckpointerBuilder::extend] *)
Definition builder_extend (b other : CheckpointerBuilder) : CheckpointerBuilder :=
  mkBuilder (explicit_actions b ++ explicit_actions other) (backup_actions b ++ backup_actions other).

Definition actions (b : CheckpointerBuilder) : list CheckpointingAction :=
  explicit_actions b ++ backup_actions b.

Definition find_stop_nodes (b : CheckpointerBuilder) : gset NodeId :=
  foldl (λ stop_nodes action,
    match action with
    | ActComputed node_ref _ => {[node_ref]} ∪ stop_nodes
    | ActRecompute _ _ => stop_nodes
    end) ∅ (actions b).

(** The loop of [update_n_required_of_parents]; the stack keeps its top first. *)
Fixpoint update_loop (fuel : nat) (tree : NodeTree) (stop_nodes : gset NodeId)
    (n_required_map : NRequired) (pending : list NodeId) : res False NRequired :=
  match fuel with
  | 0 => Panic
  | S fuel =>
      match pending with
      | [] => Ok n_required_map
      | id :: pending =>
          match n_required_map !! id with
          | Some n =>
              let? n' := uadd usize_max n 1 in
              update_loop fuel tree stop_nodes (<[id := n']> n_required_map) pending
          | None =>
              update_loop fuel tree stop_nodes (<[id := 1%N]> n_required_map)
                (if decide (id ∈ stop_nodes) then pending
                 else match tree !! id with
                      | Some parents => parents ++ pending
                      | None => pending
                      end)
          end
      end
  end.

Definition update_n_required_of_parents (id : NodeId) (n_required_map : NRequired) (tree : NodeTree)
    (stop_nodes : gset NodeId) : res False NRequired :=
  update_loop (2 + tree_total tree) tree stop_nodes n_required_map [id].

Definition require_action (tree : NodeTree) (stop_nodes : gset NodeId) (n_required_map : NRequired)
    (action : CheckpointingAction) : res False NRequired :=
  match action with
  | ActComputed id _ =>
      match n_required_map !! id with
      | Some n => let? n' := uadd usize_max n 1 in Ok (<[id := n']> (delete id n_required_map))
      | None => Ok (<[id := 1%N]> n_required_map)
      end
  | ActRecompute id _ => update_n_required_of_parents id n_required_map tree stop_nodes
  end.

Fixpoint require_actions (tree : NodeTree) (stop_nodes : gset NodeId) (n_required_map : NRequired)
    (l : list CheckpointingAction) : res False NRequired :=
  match l with
  | [] => Ok n_required_map
  | action :: l =>
      let? n_required_map := require_action tree stop_nodes n_required_map action in
      require_actions tree stop_nodes n_required_map l
  end.

Definition build_n_required_map (b : CheckpointerBuilder) (tree : NodeTree) (stop_nodes : gset NodeId) :
    res False NRequired :=
  require_actions tree stop_nodes ∅ (explicit_actions b).

(** [actions.entry(action.id()).or_insert(action)] *)
Definition first_actions (l : list CheckpointingAction) : gmap NodeId CheckpointingAction :=
  foldl (λ m action, match m !! act_id action with
                     | Some _ => m
                     | None => <[act_id action := action]> m
                     end) ∅ l.

Definition checkpoint_compute (states : BackwardStates) (id : NodeId) (state_content : StateContent)
    (n : N) : BackwardStates :=
  <[id := Computed state_content n]> states.
Definition checkpoint_lazy (states : BackwardStates) (retros : gmap NodeId RetroForward) (id : NodeId)
    (retro_forward : RetroForward) (n : N) : BackwardStates * gmap NodeId RetroForward :=
  (<[id := Recompute n]> states, <[id := retro_forward]> retros).

(** The loop of [insert_checkpoints] over the entries of [n_required_map]. *)
Fixpoint insert_loop (entries : list (NodeId * N)) (acts : gmap NodeId CheckpointingAction)
    (states : BackwardStates) (retros : gmap NodeId RetroForward) :
    res False (BackwardStates * gmap NodeId RetroForward) :=
  match entries with
  | [] => Ok (states, retros)
  | (id, n) :: entries =>
      match acts !! id with
      | None => Panic
      | Some (ActComputed _ state_content) =>
          insert_loop entries (delete id acts) (checkpoint_compute states id state_content n) retros
      | Some (ActRecompute _ retro_forward) =>
          let '(states, retros) := checkpoint_lazy states retros id retro_forward n in
          insert_loop entries (delete id acts) states retros
      end
  end.

Definition insert_checkpoints (b : CheckpointerBuilder) (n_required_map : NRequired) :
    res False (BackwardStates * gmap NodeId RetroForward) :=
  insert_loop (map_iter 0 n_required_map) (first_actions (actions b)) ∅ ∅.

Definition build (b : CheckpointerBuilder) (tree : NodeTree) : res False Checkpointer :=
  let stop_nodes := find_stop_nodes b in
  let? n_required_map := build_n_required_map b tree stop_nodes in
  let? (states, retros) := insert_checkpoints b n_required_map in
  Ok (mkCheckpointer states retros tree).
End checkpoint.
