(* ===== verification/AutodiffCounts.v ===== *)
(** * Checkpointing: how often every node will be required

    The counts [CheckpointerBuilder::build] gives to the nodes: one for each
    explicit action, and one for each time a node that will be recomputed reads
    it.  [build] turns them into a checkpointer that meets the invariant
    [serving] of the backward pass. *)

From S2P Require Import Prelude AutodiffGraph AutodiffCheckpoint.
Open Scope nat_scope.

(** ** The reads a set of nodes will make *)

Section demand.
Implicit Types (tree : NodeTree) (R : gset NodeId).

Definition parents_of tree (c : NodeId) : list NodeId := default [] (tree !! c).
(** All that the nodes of [R] read, with repetitions. *)
Definition demand tree R : list NodeId := elements R ≫= parents_of tree.

Lemma demand_empty tree : demand tree ∅ = [].
Proof. done. Qed.
Lemma demand_insert tree R c : c ∉ R → demand tree ({[c]} ∪ R) ≡ₚ parents_of tree c ++ demand tree R.
Proof. intros Hc. unfold demand. by rewrite elements_union_singleton. Qed.
Lemma demand_delete tree R c :
  c ∈ R → demand tree R ≡ₚ parents_of tree c ++ demand tree (R ∖ {[c]}).
Proof.
  intros Hc. rewrite <-demand_insert by set_solver. f_equiv. by rewrite <-union_difference_singleton_L.
Qed.
Lemma elem_of_demand tree R p : p ∈ demand tree R ↔ ∃ c, c ∈ R ∧ p ∈ parents_of tree c.
Proof. unfold demand. rewrite list_elem_of_bind. setoid_rewrite elem_of_elements. naive_solver. Qed.
Lemma length_demand tree R :
  (len (demand tree R) + left_total (λ ps, 1 + len ps) tree R ≤ left_total (λ ps, 1 + len ps) tree ∅)%N.
Proof.
  induction R as [|c R Hc IH] using set_ind_L; [rewrite demand_empty; unfold len; simpl; lia|].
  assert (len (demand tree ({[c]} ∪ R)) = len (parents_of tree c) + len (demand tree R))%N as ->.
  { unfold len. rewrite demand_insert, length_app by done. lia. }
  unfold parents_of. destruct (tree !! c) as [ps|] eqn:Ht; simpl.
  - rewrite (left_total_some _ tree R c ps) in IH by done. lia.
  - rewrite left_total_none by done. unfold len at 1. simpl. lia.
Qed.
Lemma demand_bound tree R : (len (demand tree R) ≤ N.of_nat (tree_total tree))%N.
Proof.
  pose proof (length_demand tree R) as Hl. rewrite left_total_empty in Hl. unfold tree_total. lia.
Qed.
End demand.

Section counts.
Context {P : Profile} {H : HashOrder} {B : Backend}.
Context (tree : NodeTree) (fwd : NodeId → FloatTensorPrimitive).

(** What a retro-forward reads, in order, and what it computes from it. *)
Definition inputs (rf : RetroForward) : list NodeId :=
  match rf with
  | RetroUnaryScalar lhs_id _ _ => [lhs_id]
  | RetroUnary input_id _ => [input_id]
  | RetroBinary lhs_id rhs_id _ => [lhs_id; rhs_id]
  end.
Definition replay (rf : RetroForward) : FloatTensorPrimitive :=
  match rf with
  | RetroUnaryScalar lhs_id rhs ops => ops (fwd lhs_id) rhs
  | RetroUnary input_id ops => ops (fwd input_id)
  | RetroBinary lhs_id rhs_id ops => ops (fwd lhs_id) (fwd rhs_id)
  end.
(** Replaying [rf] from the outputs of the parents of [c] gives the output of [c]. *)
Definition replays (c : NodeId) (rf : RetroForward) : Prop :=
  tree !! c = Some (inputs rf) ∧ replay rf = fwd c.

(** An action keeps the node's output, or a way to compute it whose inputs are
    themselves kept; and a node is always kept in the same way. *)
Definition action_ok (b : CheckpointerBuilder) (a : CheckpointingAction) : Prop :=
  match a with
  | ActComputed n c => c = FloatBox (fwd n) ∧ ∀ rf, ActRecompute n rf ∉ actions b
  | ActRecompute n rf => replays n rf ∧ Forall (λ p, p ∈ act_id <$> actions b) (inputs rf)
  end.
Definition builder_ok (b : CheckpointerBuilder) : Prop := Forall (action_ok b) (actions b).

Section build.
Context (b : CheckpointerBuilder) (Hb : builder_ok b).
Abbreviation stop := (find_stop_nodes b).

Lemma elem_of_stop n : n ∈ stop ↔ ∃ c, ActComputed n c ∈ actions b.
Proof.
  unfold find_stop_nodes. generalize (actions b). intros l.
  assert (∀ X : gset NodeId, n ∈ foldl (λ stop_nodes action,
    match action with
    | ActComputed node_ref _ => {[node_ref]} ∪ stop_nodes
    | ActRecompute _ _ => stop_nodes
    end) X l ↔ n ∈ X ∨ ∃ c, ActComputed n c ∈ l) as Hl.
  { induction l as [|[m c|m rf] l IH]; intros X; cbn [foldl].
    - set_solver.
    - rewrite IH. setoid_rewrite elem_of_cons. set_solver.
    - rewrite IH. setoid_rewrite elem_of_cons. set_solver. }
  rewrite Hl. set_solver.
Qed.
Lemma stop_or_replay n :
  n ∈ act_id <$> actions b →
  (n ∈ stop ∧ ActComputed n (FloatBox (fwd n)) ∈ actions b ∧ ∀ rf, ActRecompute n rf ∉ actions b) ∨
  (n ∉ stop ∧ ∃ rf, ActRecompute n rf ∈ actions b ∧ replays n rf ∧ Forall (λ p, p ∈ act_id <$> actions b) (inputs rf)).
Proof.
  intros (a & -> & Ha)%list_elem_of_fmap. pose proof (proj1 (Forall_forall _ _) Hb _ Ha) as Hok.
  destruct a as [n c|n rf]; simpl in *.
  - left. destruct Hok as [-> Hno]. split; [apply elem_of_stop; eauto|done].
  - right. split; [|by exists rf]. intros (c & Hc)%elem_of_stop.
    pose proof (proj1 (Forall_forall _ _) Hb _ Hc) as [_ Hno]. by apply (Hno rf).
Qed.

(** The counts so far: what was required explicitly, and what the nodes to be
    recomputed read, less what is still on the stack. *)
Definition need (m : NRequired) (p : NodeId) : N := default 0%N (m !! p).
Record counting (m : NRequired) (required pending : list NodeId) : Prop := {
  cou_need p : (need m p + occ p pending = occ p (required ++ demand tree (dom m ∖ stop)))%N;
  cou_pos p n : m !! p = Some n → (1 ≤ n)%N;
  cou_known p : p ∈ dom m ∨ p ∈ pending → p ∈ act_id <$> actions b
}.

Lemma need_insert m p q n : need (<[p := n]> m) q = if decide (q = p) then n else need m q.
Proof.
  unfold need. case_decide; subst; [by rewrite lookup_insert_eq|by rewrite lookup_insert_ne].
Qed.
Lemma dom_old (m : NRequired) p n n' : m !! p = Some n → dom (<[p := n']> m) = dom m.
Proof. intros Hp%elem_of_dom_2. rewrite dom_insert_L. set_solver. Qed.

Lemma counting_again m required p n pending :
  counting m required (p :: pending) → m !! p = Some n →
  counting (<[p := (n + 1)%N]> m) required pending.
Proof.
  intros [Hn Hpos Hk] Hp. split.
  - intros q. rewrite (dom_old m p n) by done. rewrite <-Hn, need_insert, occ_cons.
    case_decide; subst; [|lia]. unfold need. rewrite Hp. simpl. lia.
  - intros q k. destruct (decide (q = p)) as [->|]; [rewrite lookup_insert_eq; intros [= <-]; lia|].
    rewrite lookup_insert_ne by done. apply Hpos.
  - intros q. rewrite (dom_old m p n) by done. intros [|]; apply Hk; [by left|right; by right].
Qed.
Lemma counting_new m required p pending :
  counting m required (p :: pending) → m !! p = None →
  counting (<[p := 1%N]> m) required
    (if decide (p ∈ stop) then pending
     else match tree !! p with Some parents => parents ++ pending | None => pending end).
Proof.
  intros [Hn Hpos Hk] Hp. assert (p ∉ dom m) as Hd by by apply not_elem_of_dom.
  assert (∀ q k, <[p := 1%N]> m !! q = Some k → (1 ≤ k)%N) as Hpos'.
  { intros q k. destruct (decide (q = p)) as [->|]; [rewrite lookup_insert_eq; intros [= <-]; lia|].
    rewrite lookup_insert_ne by done. apply Hpos. }
  assert (∀ q, (need m q + (if decide (q = p) then 1 else 0))%N = need (<[p := 1%N]> m) q) as Hq.
  { intros q. rewrite need_insert. case_decide; subst; [|lia]. unfold need. by rewrite Hp. }
  case_decide as Hs; [|destruct (stop_or_replay p) as [[? _]|(_ & rf & _ & [Ht _] & Hin)];
    [apply Hk; right; by left|done|rewrite Ht]].
  - split; [|done|].
    + intros q. rewrite <-Hq. pose proof (Hn q) as Hnq. rewrite occ_cons in Hnq.
      rewrite dom_insert_L. replace (({[p]} ∪ dom m) ∖ stop) with (dom m ∖ stop) by set_solver. lia.
    + intros q. rewrite dom_insert_L. set_solver.
  - split; [|done|].
    + intros q. rewrite <-Hq. pose proof (Hn q) as Hnq. rewrite occ_cons in Hnq.
      rewrite dom_insert_L. replace (({[p]} ∪ dom m) ∖ stop) with ({[p]} ∪ (dom m ∖ stop)) by set_solver.
      rewrite !occ_app in *. rewrite (occ_perm q _ _ (demand_insert tree (dom m ∖ stop) p ltac:(set_solver))).
      unfold parents_of. rewrite Ht. simpl. rewrite occ_app. lia.
    + intros q. rewrite dom_insert_L, elem_of_app, Forall_forall in *. set_solver.
Qed.

(** The counts fit in a [usize]. *)
Context (Hsize : (len (explicit_actions b) + N.of_nat (tree_total tree) ≤ usize_max)%N).

Lemma counting_fits m required p n pending :
  counting m required (p :: pending) → (len required ≤ len (explicit_actions b))%N →
  m !! p = Some n → uadd (E:=False) usize_max n 1 = Ok (n + 1)%N.
Proof.
  intros [Hn _ _] Hlen Hp. apply uadd_ok. specialize (Hn p).
  rewrite occ_cons, decide_True in Hn by done. unfold need in Hn. rewrite Hp in Hn. simpl in Hn.
  pose proof (occ_len p (required ++ demand tree (dom m ∖ stop))) as Ho.
  rewrite len_app in Ho. pose proof (demand_bound tree (dom m ∖ stop)). lia.
Qed.

Definition reads_left (m : NRequired) : nat := N.to_nat (left_total (λ ps, 1 + len ps)%N tree (dom m)).
Lemma reads_left_new m p n ps :
  m !! p = None → tree !! p = Some ps → 1 + length ps + reads_left (<[p := n]> m) = reads_left m.
Proof.
  intros Hm%not_elem_of_dom Ht. unfold reads_left. rewrite dom_insert_L, (left_total_some _ tree (dom m) p ps) by done.
  unfold len. lia.
Qed.
Lemma reads_left_mono m p n : reads_left (<[p := n]> m) ≤ reads_left m.
Proof. unfold reads_left. rewrite dom_insert_L. pose proof (left_total_mono (λ ps, 1 + len ps)%N tree (dom m) p). lia. Qed.

Lemma update_counts_ok fuel m required pending :
  counting m required pending → (len required ≤ len (explicit_actions b))%N →
  length pending + reads_left m < fuel →
  ∃ m', update_loop fuel tree stop m pending = Ok m' ∧ counting m' required [].
Proof.
  intros Hc Hlen. revert m pending Hc. induction fuel as [|fuel IH]; intros m pending Hc Hfuel; [lia|].
  destruct pending as [|p pending]; cbn [update_loop]; [by exists m|]. simpl in Hfuel.
  destruct (m !! p) as [n|] eqn:Hp.
  - rewrite (counting_fits m required p n pending) by done. cbn [res_bind].
    apply IH; [by apply counting_again|]. pose proof (reads_left_mono m p (n + 1)%N). lia.
  - apply IH; [by apply counting_new|]. pose proof (reads_left_mono m p 1%N) as Hmono.
    case_decide; [lia|]. destruct (tree !! p) as [ps|] eqn:Ht; [|lia].
    pose proof (reads_left_new m p 1%N ps Hp Ht). rewrite length_app. lia.
Qed.

Lemma counting_push m required p :
  counting m required [] → p ∈ act_id <$> actions b → counting m (required ++ [p]) [p].
Proof.
  intros [Hn Hpos Hk] Hp. split; [|done|].
  - intros q. specialize (Hn q). rewrite !occ_app, occ_cons, occ_nil in *. lia.
  - intros q [Hq| ->%list_elem_of_singleton]; [apply Hk; by left|done].
Qed.
Lemma require_action_ok m required a :
  counting m required [] → (len required < len (explicit_actions b))%N → a ∈ actions b →
  ∃ m', require_action tree stop m a = Ok m' ∧ counting m' (required ++ [act_id a]) [].
Proof.
  intros Hc Hlen Ha.
  assert (len (required ++ [act_id a]) ≤ len (explicit_actions b))%N as Hlen'.
  { rewrite len_app. unfold len at 2. simpl. lia. }
  assert (counting m (required ++ [act_id a]) [act_id a]) as Hc'.
  { apply counting_push; [done|]. by apply list_elem_of_fmap_2. }
  destruct a as [p c|p rf]; simpl in *.
  - destruct (m !! p) as [n|] eqn:Hp.
    + rewrite (counting_fits _ _ p n [] Hc') by done. eexists. split; [done|].
      rewrite insert_delete_eq. by apply counting_again.
    + eexists. split; [done|]. pose proof (counting_new _ _ _ _ Hc' Hp) as Hc2.
      rewrite decide_True in Hc2; [done|]. apply elem_of_stop. by exists c.
  - apply update_counts_ok; [done|done|]. unfold reads_left, tree_total.
    pose proof (length_demand tree (dom m)) as Hl. rewrite left_total_empty in Hl. simpl. lia.
Qed.
Lemma require_actions_ok m required l :
  counting m required [] → (len required + len l ≤ len (explicit_actions b))%N → l ⊆ actions b →
  ∃ m', require_actions tree stop m l = Ok m' ∧ counting m' (required ++ (act_id <$> l)) [].
Proof.
  revert m required. induction l as [|a l IH]; intros m required Hc Hlen Hl; cbn [require_actions].
  { exists m. by rewrite app_nil_r. }
  replace (len (a :: l)) with (1 + len l)%N in Hlen by (unfold len; simpl; lia).
  destruct (require_action_ok m required a) as (m1 & -> & Hc1); [done|lia|apply Hl; by left|]. cbn [res_bind].
  destruct (IH m1 (required ++ [act_id a])) as (m2 & -> & Hc2); [done| | |].
  - rewrite len_app. unfold len at 2. simpl. lia.
  - intros x Hx. apply Hl. by right.
  - exists m2. split; [done|]. by rewrite <-(assoc_L (++)) in Hc2.
Qed.

(** [build_n_required_map] returns, and gives every node the number of times the
    backward pass will take its output. *)
Lemma n_required_exact :
  ∃ m, build_n_required_map b tree stop = Ok m ∧ counting m (act_id <$> explicit_actions b) [].
Proof.
  apply (require_actions_ok ∅ [] (explicit_actions b)).
  - split; [|set_solver|set_solver]. intros p. unfold need. rewrite lookup_empty, dom_empty_L.
    by replace (∅ ∖ stop) with (∅ : gset NodeId) by set_solver.
  - unfold len at 1. simpl. lia.
  - intros x Hx. apply elem_of_app. by left.
Qed.
End build.
End counts.
