(* ===== verification/AutodiffServe.v ===== *)
(** * Checkpointing: the backward pass gets back every output it asks for

    The invariant [serving] of a checkpointer during the backward pass, that
    [CheckpointerBuilder::build] establishes it, and that
    [Checkpointer::retrieve_node_output] keeps it.  Together: whatever the order in
    which the explicit actions are asked for, each request returns the output of
    the forward pass, and after the last one the checkpointer is empty. *)

From S2P Require Import Prelude AutodiffGraph AutodiffCheckpoint AutodiffCounts.
Open Scope nat_scope.

Section serve.
Context {P : Profile} {H : HashOrder} {B : Backend}.
Context (tree : NodeTree) (fwd : NodeId → FloatTensorPrimitive).
Implicit Types (S : gmap NodeId State) (R X : gset NodeId) (E : list NodeId).

Definition needed S (p : NodeId) : N := default 0%N (n_required <$> S !! p).

(** [R] are the nodes still to be recomputed, [X] those being recomputed, [E] the
    requests to come: every state is required as often as [E] and [R] will take
    it, and holds the output of the forward pass once computed. *)
Record serving S R X E : Prop := {
  srv_need p : needed S p = occ p (E ++ demand tree R);
  srv_pos p s : S !! p = Some s → (1 ≤ n_required s)%N;
  srv_computed p c n : S !! p = Some (Computed c n) → c = FloatBox (fwd p);
  srv_recompute p : (∃ n, S !! p = Some (Recompute n)) ↔ p ∈ R ∪ X
}.

(** The retro-forwards left are those of [R]. *)
Definition retros_ok (retros : gmap NodeId RetroForward) R : Prop :=
  dom retros = R ∧ ∀ c rf, retros !! c = Some rf → replays tree fwd c rf.

Definition checkpointer_ok (ck : Checkpointer) E : Prop :=
  ∃ R, serving (backward_states ck) R ∅ E ∧ retros_ok (retro_forwards ck) R ∧ node_tree ck = tree.

Lemma serving_perm S R X E E' : E ≡ₚ E' → serving S R X E → serving S R X E'.
Proof.
  intros HE [Hn Hp Hc Hr]. split; [|done..]. intros p. rewrite Hn. apply occ_perm. by rewrite HE.
Qed.
Lemma serving_present S R X E p : serving S R X E → p ∈ E ∨ p ∈ demand tree R → is_Some (S !! p).
Proof.
  intros [Hn _ _ _] Hp. specialize (Hn p). unfold needed in Hn. destruct (S !! p); [done|].
  simpl in Hn. pose proof (occ_pos p (E ++ demand tree R)) as Ho. rewrite elem_of_app in Ho.
  apply Ho in Hp. lia.
Qed.

(** ** [build] establishes the invariant *)

Section build.
Context (b : CheckpointerBuilder) (Hb : builder_ok tree fwd b).

Lemma first_actions_spec l n :
  match first_actions l !! n with
  | Some a => a ∈ l ∧ act_id a = n
  | None => n ∉ act_id <$> l
  end.
Proof.
  unfold first_actions.
  assert (∀ m : gmap NodeId CheckpointingAction,
    let m' := foldl (λ m action, match m !! act_id action with
                                 | Some _ => m
                                 | None => <[act_id action := action]> m
                                 end) m l in
    match m' !! n with
    | Some a => m !! n = Some a ∨ (a ∈ l ∧ act_id a = n)
    | None => m !! n = None ∧ n ∉ act_id <$> l
    end) as Hl.
  { induction l as [|a l IH]; intros m; cbn [foldl].
    { simpl. destruct (m !! n); [by left|]. split; [done|]. apply not_elem_of_nil. }
    specialize (IH (match m !! act_id a with Some _ => m | None => <[act_id a := a]> m end)). simpl in *.
    destruct (m !! act_id a) as [a'|] eqn:Ha; [|destruct (decide (n = act_id a)) as [->|Hn];
      [rewrite lookup_insert_eq in IH|rewrite lookup_insert_ne in IH by done]];
      destruct (foldl _ _ l !! _); rewrite ?not_elem_of_cons, ?elem_of_cons; naive_solver. }
  specialize (Hl ∅). simpl in Hl. destruct (foldl _ _ l !! n); rewrite lookup_empty in Hl; naive_solver.
Qed.
(** The action that [insert_checkpoints] finds for a node. *)
Lemma first_action_of n :
  n ∈ act_id <$> actions b →
  if decide (n ∈ find_stop_nodes b) then first_actions (actions b) !! n = Some (ActComputed n (FloatBox (fwd n)))
  else ∃ rf, first_actions (actions b) !! n = Some (ActRecompute n rf) ∧ replays tree fwd n rf.
Proof.
  intros Hn. pose proof (first_actions_spec (actions b) n) as Hf.
  destruct (first_actions (actions b) !! n) as [a|]; [|done]. destruct Hf as [Ha Hid].
  pose proof (proj1 (Forall_forall _ _) Hb _ Ha) as Hok.
  destruct (stop_or_replay tree fwd b Hb n Hn) as [(Hs & _ & Hno)|(Hs & _)].
  - rewrite decide_True by done. destruct a as [m c|m rf]; simpl in *; subst m; [by destruct Hok as [-> _]|].
    exfalso. by apply (Hno rf).
  - rewrite decide_False by done. destruct a as [m c|m rf]; simpl in *; subst m.
    + exfalso. apply Hs. eapply elem_of_stop; eauto.
    + exists rf. by destruct Hok.
Qed.

Definition state_for (a : CheckpointingAction) (n : N) : State :=
  match a with ActComputed _ c => Computed c n | ActRecompute _ _ => Recompute n end.

Lemma insert_loop_ok l acts S retros :
  NoDup l.*1 → Forall (λ x, is_Some (acts !! x.1)) l →
  ∃ S' retros', insert_loop l acts S retros = Ok (S', retros') ∧
    (∀ p, p ∉ l.*1 → S' !! p = S !! p ∧ retros' !! p = retros !! p) ∧
    (∀ p n, (p, n) ∈ l → ∃ a, acts !! p = Some a ∧ S' !! p = Some (state_for a n) ∧
       retros' !! p = match a with ActComputed _ _ => retros !! p | ActRecompute _ rf => Some rf end).
Proof.
  revert acts S retros. induction l as [|[p n] l IH]; intros acts S retros Hnd Hacts; cbn [insert_loop].
  { exists S, retros. split; [done|]. split; [done|]. intros p n Hp. by apply elem_of_nil in Hp. }
  apply NoDup_cons in Hnd as [Hp Hnd]. apply Forall_cons in Hacts as [[a Ha] Hacts]. simpl in Ha, Hp. rewrite Ha.
  assert (Forall (λ x, is_Some (delete p acts !! x.1)) l) as Hacts'.
  { rewrite Forall_forall in *. intros [q k] Hq. simpl. rewrite lookup_delete_ne; [by apply (Hacts _ Hq)|].
    intros ->. apply Hp, list_elem_of_fmap. by exists (q, k). }
  assert (∀ S1 retros1, S1 !! p = Some (state_for a n) → (∀ q, q ≠ p → S1 !! q = S !! q ∧ retros1 !! q = retros !! q) →
    retros1 !! p = match a with ActComputed _ _ => retros !! p | ActRecompute _ rf => Some rf end →
    ∃ S' retros', insert_loop l (delete p acts) S1 retros1 = Ok (S', retros') ∧
    (∀ q, q ∉ ((p, n) :: l).*1 → S' !! q = S !! q ∧ retros' !! q = retros !! q) ∧
    (∀ q k, (q, k) ∈ (p, n) :: l → ∃ a, acts !! q = Some a ∧ S' !! q = Some (state_for a k) ∧
       retros' !! q = match a with ActComputed _ _ => retros !! q | ActRecompute _ rf => Some rf end)) as Hgo.
  { intros S1 retros1 HS1 Hne Hr1. destruct (IH (delete p acts) S1 retros1 Hnd Hacts') as (S' & retros' & -> & Hout & Hin).
    exists S', retros'. split; [done|]. split.
    - intros q Hq. rewrite fmap_cons, not_elem_of_cons in Hq. simpl in Hq. destruct Hq as [Hq Hql].
      destruct (Hout q Hql) as [-> ->]. by apply Hne.
    - intros q k [[= -> ->]|Hq]%elem_of_cons.
      + exists a. destruct (Hout p Hp) as [-> ->]. done.
      + destruct (Hin q k Hq) as (a' & Ha' & HS' & Hr'). apply lookup_delete_Some in Ha' as [Hqp Ha'].
        exists a'. split_and!; [done|done|]. rewrite Hr'. destruct a'; [|done]. apply Hne. congruence. }
  destruct a as [m c|m rf]; unfold checkpoint_compute, checkpoint_lazy; apply Hgo.
  - apply lookup_insert_eq.
  - intros q Hq. by rewrite lookup_insert_ne.
  - done.
  - apply lookup_insert_eq.
  - intros q Hq. by rewrite !lookup_insert_ne.
  - apply lookup_insert_eq.
Qed.

Lemma map_iter_fst {A} k (m : gmap N A) : (map_iter k m).*1 = hash_iter k (dom m).
Proof.
  unfold map_iter. assert (∀ x, x ∈ hash_iter k (dom m) → is_Some (m !! x)) as Hx.
  { intros x. rewrite elem_of_hash_iter. apply elem_of_dom. }
  induction (hash_iter k (dom m)) as [|x l IH]; [done|]. cbn.
  destruct (Hx x ltac:(by left)) as [a ->]. simpl. f_equal. apply IH. intros y Hy. apply Hx. by right.
Qed.

Lemma build_ok :
  (len (explicit_actions b) + N.of_nat (tree_total tree) ≤ usize_max)%N →
  ∃ ck, build b tree = Ok ck ∧ checkpointer_ok ck (act_id <$> explicit_actions b).
Proof.
  intros Hsize. unfold build. destruct (n_required_exact tree fwd b Hb Hsize) as (m & -> & Hc). cbn [res_bind].
  unfold insert_checkpoints. destruct Hc as [Hn Hpos Hk].
  destruct (insert_loop_ok (map_iter 0 m) (first_actions (actions b)) ∅ ∅) as (S & retros & -> & Hout & Hin).
  { rewrite map_iter_fst. apply hash_iter_nodup. }
  { apply Forall_forall. intros [p n] Hp%elem_of_map_iter. simpl.
    assert (p ∈ act_id <$> actions b) as Hp' by (apply Hk; left; by apply elem_of_dom_2 in Hp).
    pose proof (first_action_of p Hp') as Hf. case_decide; [by rewrite Hf|]. by destruct Hf as (rf & -> & _). }
  assert (∀ p, m !! p = None → S !! p = None ∧ retros !! p = None) as HSn.
  { intros p Hp. apply Hout. rewrite map_iter_fst, elem_of_hash_iter. by apply not_elem_of_dom. }
  assert (∀ p n, m !! p = Some n →
    (p ∈ find_stop_nodes b ∧ S !! p = Some (Computed (FloatBox (fwd p)) n) ∧ retros !! p = None) ∨
    (p ∉ find_stop_nodes b ∧ S !! p = Some (Recompute n) ∧ ∃ rf, retros !! p = Some rf ∧ replays tree fwd p rf)) as HSs.
  { intros p n Hp. destruct (Hin p n) as (a & Ha & HS & Hr); [by apply elem_of_map_iter|].
    assert (p ∈ act_id <$> actions b) as Hp' by (apply Hk; left; by apply elem_of_dom_2 in Hp).
    pose proof (first_action_of p Hp') as Hf. rewrite Ha in Hf. case_decide.
    - left. by simplify_eq.
    - right. destruct Hf as (rf & Hf & Hrf). simplify_eq. eauto. }
  eexists. split; [done|]. exists (dom m ∖ find_stop_nodes b). split_and!; [|split|done]; simpl.
  - split.
    + intros p. rewrite <-Hn, occ_nil, N.add_0_r. unfold needed, need. destruct (m !! p) as [n|] eqn:Hp.
      * by destruct (HSs p n Hp) as [(_ & -> & _)|(_ & -> & _)].
      * by destruct (HSn p Hp) as [-> _].
    + intros p s Hs. destruct (m !! p) as [n|] eqn:Hp.
      * destruct (HSs p n Hp) as [(_ & HS & _)|(_ & HS & _)]; simplify_eq/=; by eapply Hpos.
      * destruct (HSn p Hp) as [HS _]. congruence.
    + intros p c n Hs. destruct (m !! p) as [k|] eqn:Hp.
      * destruct (HSs p k Hp) as [(_ & HS & _)|(_ & HS & _)]; by simplify_eq/=.
      * destruct (HSn p Hp) as [HS _]. congruence.
    + intros p. rewrite elem_of_union, elem_of_difference, elem_of_dom. destruct (m !! p) as [k|] eqn:Hp.
      * destruct (HSs p k Hp) as [(? & HS & _)|(? & HS & _)]; rewrite HS; set_solver.
      * destruct (HSn p Hp) as [HS _]. rewrite HS. split; [by intros []|]. intros [[[]]|]; set_solver.
  - apply set_eq. intros p. rewrite elem_of_dom, elem_of_difference, elem_of_dom. destruct (m !! p) as [k|] eqn:Hp.
    + destruct (HSs p k Hp) as [(? & _ & ->)|(? & _ & rf & -> & _)]; [|by split; eauto].
      split; [by intros []|by intros []].
    + destruct (HSn p Hp) as [_ ->]. split; [by intros []|by intros [[]]].
  - intros c rf Hc. destruct (m !! c) as [k|] eqn:Hp.
    + destruct (HSs c k Hp) as [(_ & _ & ?)|(_ & _ & rf' & ? & ?)]; congruence.
    + destruct (HSn c Hp) as [_ ?]. congruence.
Qed.
End build.
End serve.
