(* ===== verification/AutodiffRetrieve.v ===== *)
(** * Checkpointing: a request

    [Checkpointer::retrieve_node_output] under the invariant [serving]: the
    topological sort of what has to be recomputed, its execution, and the state
    that is handed out.  The graph is acyclic: [rank] decreases from a node to its
    parents. *)

From S2P Require Import Prelude AutodiffGraph AutodiffCheckpoint AutodiffCounts AutodiffServe.
Open Scope nat_scope.

Section retrieve.
Context {P : Profile} {H : HashOrder} {B : Backend}.
Context (tree : NodeTree) (fwd : NodeId → FloatTensorPrimitive) (rank : NodeId → N).
Context (Hrank : ∀ c ps p, tree !! c = Some ps → p ∈ ps → (rank p < rank c)%N).
Implicit Types (S : gmap NodeId State) (R X : gset NodeId) (E : list NodeId).
Abbreviation serving := (serving tree fwd).

(** ** Taking a state *)

Lemma get_state_ok S R X E p :
  serving S R X (p :: E) → p ∉ R ∪ X →
  ∃ S', get_state p S = (Ok (fwd p), S') ∧ serving S' R X E ∧ ∀ q, q ≠ p → S' !! q = S !! q.
Proof.
  intros Hs Hp. destruct (serving_present _ _ _ _ _ _ p Hs ltac:(left; by left)) as [s Hsp].
  destruct Hs as [Hn Hpos Hc Hr]. destruct s as [n|c n].
  { exfalso. apply Hp, Hr. by exists n. }
  pose proof (Hpos p _ Hsp) as Hn1. rewrite (Hc p c n Hsp) in Hsp. simpl in Hn1.
  set (S' := if (0 <? n - 1)%N then <[p := Computed (FloatBox (fwd p)) (n - 1)%N]> (delete p S) else delete p S).
  exists S'. unfold get_state, bind, gets, expect, modify, lift, get_state_ref, ret. rewrite Hsp. cbn [n_required].
  rewrite usub_ok by done.
  assert (∀ q, q ≠ p → S' !! q = S !! q) as Hne.
  { intros q Hq. unfold S'. destruct (0 <? n - 1)%N; rewrite ?lookup_insert_ne, lookup_delete_ne by done; done. }
  assert (needed S p = n) as Hnp by (unfold needed; by rewrite Hsp).
  assert (S' !! p = if (0 <? n - 1)%N then Some (Computed (FloatBox (fwd p)) (n - 1)%N) else None) as HSp.
  { unfold S'. destruct (0 <? n - 1)%N; [apply lookup_insert_eq|apply lookup_delete_eq]. }
  split; [|split; [|done]].
  { unfold S', to_state_content, into_state_content, insert_state, modify, ret. by destruct (0 <? n - 1)%N. }
  split.
  - intros q. specialize (Hn q). simpl in Hn. rewrite occ_cons in Hn. case_decide as Hq.
    + subst q. unfold needed. rewrite HSp, Hnp in *. destruct (N.ltb_spec 0 (n - 1)); simpl; lia.
    + unfold needed in *. rewrite (Hne q Hq). lia.
  - intros q s Hq. destruct (decide (q = p)) as [->|Hqp]; [|by rewrite (Hne q Hqp) in Hq; eapply Hpos].
    rewrite HSp in Hq. destruct (N.ltb_spec 0 (n - 1)); simplify_eq/=. lia.
  - intros q c' k Hq. destruct (decide (q = p)) as [->|Hqp]; [|by rewrite (Hne q Hqp) in Hq; eapply Hc].
    rewrite HSp in Hq. destruct (0 <? n - 1)%N; by simplify_eq.
  - intros q. rewrite <-Hr. destruct (decide (q = p)) as [->|Hqp]; [|by rewrite (Hne q Hqp)].
    rewrite HSp, Hsp. destruct (0 <? n - 1)%N; naive_solver.
Qed.

Lemma save_ok S R E out :
  serving S R {[out]} E → out ∉ R →
  ∃ S', save out (fwd out) S = (Ok tt, S') ∧ serving S' R ∅ E ∧ ∀ q, q ≠ out → S' !! q = S !! q.
Proof.
  intros [Hn Hpos Hc Hr] Hout. destruct (proj2 (Hr out) ltac:(set_solver)) as [n Ho].
  exists (<[out := Computed (FloatBox (fwd out)) n]> S).
  unfold save, bind, gets, expect, get_state_ref, insert_state, modify, ret. rewrite Ho. split; [done|].
  split; [|intros q Hq; by rewrite lookup_insert_ne]. split.
  - intros q. rewrite <-Hn. unfold needed. destruct (decide (q = out)) as [->|Hq].
    + by rewrite lookup_insert_eq, Ho.
    + by rewrite lookup_insert_ne.
  - intros q s [[<- <-]|[_ Hq]]%lookup_insert_Some; [|by eapply Hpos]. apply (Hpos _ _ Ho).
  - intros q c k [[<- [= <- <-]]|[_ Hq]]%lookup_insert_Some; [done|by eapply Hc].
  - intros q. destruct (decide (q = out)) as [->|Hq].
    + rewrite lookup_insert_eq. split; [by intros []|set_solver].
    + rewrite lookup_insert_ne by done. rewrite Hr. set_solver.
Qed.

(** A retro-forward whose inputs are computed gives the node its output. *)
Lemma forward_ok S R E rf out :
  serving S R {[out]} (inputs rf ++ E) → replay fwd rf = fwd out → out ∉ R →
  Forall (λ p, p ∉ R ∪ {[out]}) (inputs rf) →
  ∃ S', forward rf out S = (Ok tt, S') ∧ serving S' R ∅ E ∧ ∀ q, q ∉ out :: inputs rf → S' !! q = S !! q.
Proof.
  intros Hs Hre Hout Hin. destruct rf as [l r f|i f|l r f]; simpl in *; rewrite !Forall_cons in Hin; unfold bind.
  1, 2: destruct Hin as [Hi _]; destruct (get_state_ok _ _ _ _ _ Hs Hi) as (S1 & -> & Hs1 & Hne1);
    rewrite Hre; destruct (save_ok _ _ _ _ Hs1 Hout) as (S2 & -> & Hs2 & Hne2);
    exists S2; split; [done|]; split; [done|]; intros q Hq; rewrite !not_elem_of_cons in Hq;
    rewrite Hne2, Hne1 by naive_solver; done.
  destruct Hin as (Hl & Hr & _). destruct (get_state_ok _ _ _ _ _ Hs Hl) as (S1 & -> & Hs1 & Hne1).
  destruct (get_state_ok _ _ _ _ _ Hs1 Hr) as (S2 & -> & Hs2 & Hne2). rewrite Hre.
  destruct (save_ok _ _ _ _ Hs2 Hout) as (S3 & -> & Hs3 & Hne3).
  exists S3. split; [done|]. split; [done|]. intros q Hq. rewrite !not_elem_of_cons in Hq.
  rewrite Hne3, Hne2, Hne1 by naive_solver. done.
Qed.

(** ** Recomputing a sorted list *)

Definition ck_serving (ck : Checkpointer) R E : Prop :=
  serving (backward_states ck) R ∅ E ∧ retros_ok tree fwd (retro_forwards ck) R ∧ node_tree ck = tree.

Lemma execute_ok ck R E n :
  ck_serving ck R E → is_Some (backward_states ck !! n) →
  (n ∈ R → Forall (λ p, p ∉ R) (parents_of tree n)) →
  ∃ ck', execute_retro_forward n ck = (Ok tt, ck') ∧ ck_serving ck' (R ∖ {[n]}) E ∧
    ∀ q, q ∉ n :: (if decide (n ∈ R) then parents_of tree n else []) →
      backward_states ck' !! q = backward_states ck !! q.
Proof.
  intros (Hs & [Hdom Hrf] & Ht) [s Hn] Hpar. unfold execute_retro_forward, bind, gets, expect, get_state_ref.
  rewrite Hn. unfold ret. destruct s as [k|c k].
  2: { assert (n ∉ R) as HnR.
       { intros HnR. destruct (proj2 (srv_recompute _ _ _ _ _ _ Hs n)) as [m Hm]; [set_solver|]. congruence. }
       exists ck. split; [done|]. split; [|done]. replace (R ∖ {[n]}) with R by set_solver. done. }
  assert (n ∈ R) as HnR.
  { assert (n ∈ R ∪ ∅) by (apply (srv_recompute _ _ _ _ _ _ Hs); by exists k). set_solver. }
  rewrite decide_True by done. specialize (Hpar HnR).
  assert (is_Some (retro_forwards ck !! n)) as [rf Hr] by (apply elem_of_dom; by rewrite Hdom).
  rewrite Hr. destruct (Hrf n rf Hr) as [Htree Hre]. unfold parents_of in *. rewrite Htree in *. simpl in *.
  assert (serving (backward_states ck) (R ∖ {[n]}) {[n]} (inputs rf ++ E)) as Hs'.
  { destruct Hs as [Hneed Hpos Hc Hrec]. split; [|done|done|].
    - intros p. rewrite Hneed. rewrite (occ_perm p _ (inputs rf ++ E ++ demand tree (R ∖ {[n]}))); [by rewrite (assoc_L (++))|].
      rewrite (demand_delete tree R n) by done. unfold parents_of. rewrite Htree. simpl. solve_Permutation.
    - intros p. rewrite Hrec. destruct (decide (p = n)); set_solver. }
  destruct (forward_ok _ _ _ rf n Hs' Hre) as (S' & Hf & Hs2 & Hne); [set_solver| |].
  { rewrite Forall_forall in *. intros p Hp. pose proof (Hrank n _ p Htree Hp).
    specialize (Hpar p Hp). intros [| ->%elem_of_singleton]%elem_of_union; [set_solver|lia]. }
  eexists. unfold modify, on_states. simpl. rewrite Hf. split; [done|]. split; [|done].
  split; [done|]. split; [|done]. split; simpl.
  - rewrite dom_delete_L, Hdom. done.
  - intros c' rf' [_ Hc']%lookup_delete_Some. by apply Hrf.
Qed.

(** Parents come before the nodes that read them. *)
Definition sorted_for R (l : list NodeId) : Prop :=
  ∀ l1 n l2, l = l1 ++ n :: l2 → n ∈ R → Forall (λ p, p ∈ l1) (parents_of tree n).

Lemma execute_all ck R E done todo :
  ck_serving ck (R ∖ list_to_set done) E → NoDup (done ++ todo) → sorted_for R (done ++ todo) →
  Forall (λ n, is_Some (backward_states ck !! n)) todo →
  ∃ ck', for_each todo execute_retro_forward ck = (Ok tt, ck') ∧ ck_serving ck' (R ∖ list_to_set (done ++ todo)) E.
Proof.
  revert ck done. induction todo as [|n todo IH]; intros ck done Hck Hnd Hsort Hpres; cbn [for_each].
  { exists ck. by rewrite app_nil_r. }
  apply Forall_cons in Hpres as [Hn Hpres].
  assert (n ∈ R → Forall (λ p, p ∈ done) (parents_of tree n)) as Hpar by (intros; by eapply Hsort).
  destruct (execute_ok ck _ E n Hck Hn) as (ck1 & Hex & Hck1 & Hne).
  { intros [HnR _]%elem_of_difference. eapply Forall_impl; [by apply Hpar|]. simpl. set_solver. }
  unfold bind. rewrite Hex.
  destruct (IH ck1 (done ++ [n])) as (ck2 & -> & Hck2).
  - replace (R ∖ list_to_set (done ++ [n])) with (R ∖ list_to_set done ∖ {[n]}); [done|].
    rewrite list_to_set_app_L. simpl. set_solver.
  - by rewrite <-(assoc_L (++)).
  - by rewrite <-(assoc_L (++)).
  - rewrite Forall_forall in *. intros q Hq. rewrite Hne; [by apply Hpres|].
    apply NoDup_app in Hnd as (_ & Hdis & Hnd). apply NoDup_cons in Hnd as [Hnt _].
    apply not_elem_of_cons. split; [by intros ->|]. case_decide as HnR; [|apply not_elem_of_nil].
    intros Hqp. apply elem_of_difference in HnR as [HnR _]. specialize (Hpar HnR).
    apply (Hdis q); [by apply Hpar|by right].
  - exists ck2. split; [done|]. by rewrite <-(assoc_L (++)) in Hck2.
Qed.

(** ** The topological sort *)

Section sort.
Context (ck : Checkpointer) R E (Hck : ck_serving ck R E).
Abbreviation present n := (is_Some (backward_states ck !! n)).

Record sorting (sorted : list NodeId) (visited : gset NodeId) : Prop := {
  so_nodup : NoDup sorted;
  so_elem q : q ∈ sorted ↔ q ∈ visited;
  so_present : Forall (λ q, present q) sorted;
  so_order : sorted_for R sorted
}.
Definition sort_left (visited : gset NodeId) : nat :=
  N.to_nat (left_total (λ ps, 1 + len ps)%N tree visited).

(** Popping the nodes of [todo] visits them and nodes below [bound] only, and costs
    no more than the nodes it visits allow. *)
Definition visits (todo : list NodeId) (bound : N) (sorted : list NodeId) (visited : gset NodeId) : Prop :=
  ∃ sorted' visited' cost,
    (∀ f pending, sort_loop (cost + f) ck sorted visited (((λ p, (p, false)) <$> todo) ++ pending) =
                  sort_loop f ck sorted' visited' pending) ∧
    sorting sorted' visited' ∧ Forall (λ p, p ∈ visited') todo ∧ visited ⊆ visited' ∧
    cost + sort_left visited' ≤ length todo + sort_left visited ∧
    ∀ q, q ∈ visited' → q ∈ visited ∨ (rank q < bound)%N.

Lemma sort_left_mono visited n : sort_left ({[n]} ∪ visited) ≤ sort_left visited.
Proof. unfold sort_left. pose proof (left_total_mono (λ ps, 1 + len ps)%N tree visited n). lia. Qed.
Lemma sort_left_some visited n ps :
  tree !! n = Some ps → n ∉ visited → sort_left visited = 1 + length ps + sort_left ({[n]} ∪ visited).
Proof. intros Ht Hn. unfold sort_left. rewrite (left_total_some _ tree visited n ps) by done. unfold len. lia. Qed.

Lemma sorting_push sorted visited n :
  sorting sorted visited → n ∉ visited → present n → (n ∈ R → Forall (λ p, p ∈ visited) (parents_of tree n)) →
  sorting (sorted ++ [n]) ({[n]} ∪ visited).
Proof.
  intros [Hnd Hel Hpr Hor] Hn Hp Hpar. split.
  - apply NoDup_app. split_and!; [done| |apply NoDup_singleton].
    intros q Hq ->%list_elem_of_singleton. by apply Hn, Hel.
  - intros q. rewrite elem_of_app, list_elem_of_singleton, Hel. set_solver.
  - apply Forall_app. split; [done|]. by apply Forall_singleton.
  - intros l1 m l2 Heq Hm. destruct l2 as [|x l2 _] using rev_ind.
    + apply app_inj_tail in Heq as [<- <-]. eapply Forall_impl; [by apply Hpar|]. intros q. apply Hel.
    + rewrite app_comm_cons, (assoc_L (++)) in Heq. apply app_inj_tail in Heq as [-> _]. by eapply Hor.
Qed.

Lemma visits_list ps bound sorted visited :
  (∀ p sorted visited, p ∈ ps → sorting sorted visited → visits [p] bound sorted visited) →
  sorting sorted visited → visits ps bound sorted visited.
Proof.
  intros Hone. revert sorted visited. induction ps as [|p ps IH]; intros sorted visited Hs.
  { exists sorted, visited, 0. split_and!; auto. }
  destruct (Hone p sorted visited) as (s1 & v1 & c1 & Hrun1 & Hs1 & Hin1 & Hsub1 & Hc1 & Hb1); [by left|done|].
  destruct (IH) with (sorted:=s1) (visited:=v1) as (s2 & v2 & c2 & Hrun2 & Hs2 & Hin2 & Hsub2 & Hc2 & Hb2); [|done|].
  { intros q ????. apply Hone; [by right|done]. }
  exists s2, v2, (c1 + c2). split_and!.
  - intros f pending. rewrite <-Nat.add_assoc. cbn [fmap list_fmap app]. specialize (Hrun1 (c2 + f)).
    cbn [fmap list_fmap app] in Hrun1. rewrite Hrun1. apply Hrun2.
  - done.
  - apply Forall_cons. split; [|done]. rewrite Forall_singleton in Hin1. by apply Hsub2.
  - by trans v1.
  - simpl in *. lia.
  - intros q Hq. destruct (Hb2 q Hq) as [Hq'|]; [|by right]. by apply Hb1.
Qed.

(** A node to be recomputed has its parents in the tree, and they have a state. *)
Lemma recompute_parents n k :
  backward_states ck !! n = Some (Recompute k) →
  n ∈ R ∧ ∃ ps, tree !! n = Some ps ∧ Forall (λ p, present p ∧ (rank p < rank n)%N) ps.
Proof.
  destruct Hck as (Hs & [Hdom Hrf] & _). intros Hn.
  assert (n ∈ R) as HnR.
  { assert (n ∈ R ∪ ∅) by (apply (srv_recompute _ _ _ _ _ _ Hs); by exists k). by rewrite union_empty_r_L in *. }
  split; [done|]. assert (is_Some (retro_forwards ck !! n)) as [rf Hr] by (apply elem_of_dom; by rewrite Hdom).
  destruct (Hrf n rf Hr) as [Ht _]. exists (inputs rf). split; [done|]. apply Forall_forall. intros p Hp.
  split; [|by eapply Hrank]. eapply serving_present; [done|]. right. apply elem_of_demand. exists n.
  unfold parents_of. by rewrite Ht.
Qed.

Lemma sort_visit k n sorted visited :
  (rank n < k)%N → present n → sorting sorted visited → visits [n] (rank n + 1)%N sorted visited.
Proof.
  revert n sorted visited. induction k as [|k IH] using N.peano_ind; intros n sorted visited Hk Hn Hs; [lia|].
  destruct (decide (n ∈ visited)) as [Hv|Hv].
  { exists sorted, visited, 1. split_and!; [|done|by apply Forall_singleton|done|done|auto].
    intros f pending. cbn. by rewrite decide_True. }
  destruct Hn as [s Hn]. destruct s as [m|c m].
  2: { exists (sorted ++ [n]), ({[n]} ∪ visited), 1. split_and!.
    - intros f pending. cbn. unfold get_state_ref. by rewrite decide_False, Hn.
    - apply sorting_push; [done|done|by eauto|]. intros HnR. destruct Hck as (Hsv & _).
      destruct (proj2 (srv_recompute _ _ _ _ _ _ Hsv n)) as [m' Hm']; [apply elem_of_union; by left|congruence].
    - apply Forall_singleton, elem_of_union. left. by apply elem_of_singleton.
    - apply union_subseteq_r.
    - simpl. pose proof (sort_left_mono visited n). lia.
    - intros q [->%elem_of_singleton|]%elem_of_union; [right; lia|by left]. }
  destruct (recompute_parents n m Hn) as (HnR & ps & Ht & Hps). rewrite Forall_forall in Hps.
  destruct (visits_list ps (rank n) sorted visited) as (s1 & v1 & c1 & Hrun & Hs1 & Hin & Hsub & Hc & Hb); [|done|].
  { intros p s0 v0 Hp Hs0. destruct (Hps p Hp) as [Hpp Hpr].
    destruct (IH p s0 v0) as (s1 & v1 & c1 & Hrun & Hs1 & Hin & Hsub & Hc & Hb); [lia|done|done|].
    exists s1, v1, c1. split_and!; [done|done|done|done|done|]. intros q Hq. destruct (Hb q Hq); [by left|right; lia]. }
  assert (n ∉ v1) as Hnv. { intros Hn1. destruct (Hb n Hn1); [done|lia]. }
  exists (s1 ++ [n]), ({[n]} ∪ v1), (S (c1 + 1)). split_and!.
  - intros f pending. cbn. unfold get_state_ref. destruct Hck as (_ & _ & ->).
    rewrite decide_False, Hn, Ht by done. rewrite <-Nat.add_assoc, Hrun. cbn. by rewrite decide_False.
  - apply sorting_push; [done|done|by eauto|]. intros _. unfold parents_of. by rewrite Ht.
  - apply Forall_singleton, elem_of_union. left. by apply elem_of_singleton.
  - trans v1; [done|apply union_subseteq_r].
  - simpl. rewrite (sort_left_some v1 n ps) in Hc by done. lia.
  - intros q [->%elem_of_singleton|Hq]%elem_of_union; [right; lia|]. destruct (Hb q Hq); [by left|right; lia].
Qed.

(** [topological_sort] returns the nodes to recompute and what they read, parents
    first, each once. *)
Lemma topological_sort_ok n :
  present n → ∃ l, topological_sort ck n = Ok l ∧ n ∈ l ∧ NoDup l ∧ Forall (λ q, present q) l ∧ sorted_for R l.
Proof.
  intros Hn. destruct (sort_visit (rank n + 1) n [] ∅) as (l & v & c & Hrun & [Hnd Hel Hpr Hor] & Hin & _ & Hc & _).
  - lia.
  - done.
  - split; [apply NoDup_nil_2|set_solver|done|]. intros l1 m l2 Heq. by destruct l1.
  - exists l. split_and!; [|apply Hel; by rewrite Forall_singleton in Hin|done|done|done].
    unfold topological_sort. assert (sort_left ∅ = tree_total tree) as Hl by (unfold sort_left; by rewrite left_total_empty).
    destruct Hck as (_ & _ & ->). replace (2 + tree_total tree) with (c + S (1 + tree_total tree - c)).
    + exact (Hrun _ []).
    + simpl in Hc. lia.
Qed.
End sort.

(** ** Requests *)

Lemma retrieve_ok ck n E :
  checkpointer_ok tree fwd ck (n :: E) →
  ∃ ck', retrieve_node_output n ck = (Ok (fwd n), ck') ∧ checkpointer_ok tree fwd ck' E.
Proof.
  intros (R & Hck). destruct (topological_sort_ok ck R (n :: E) Hck n) as (l & Hsort & Hin & Hnd & Hpr & Hor).
  { destruct Hck as (Hs & _). eapply serving_present; [done|]. left. by left. }
  destruct (execute_all ck R (n :: E) [] l) as (ck1 & Hex & Hs1 & Hr1 & Ht1); [|done|done|done|].
  { replace (R ∖ list_to_set []) with R by set_solver. done. }
  unfold retrieve_node_output, bind, gets, lift. rewrite Hsort, Hex. simpl in *.
  destruct (get_state_ok _ _ _ _ _ Hs1) as (S2 & Hget & Hs2 & _); [set_solver|].
  unfold on_states. rewrite Hget. eexists. split; [done|]. by exists (R ∖ list_to_set l).
Qed.

Lemma retrieve_all ck l E :
  checkpointer_ok tree fwd ck (l ++ E) →
  ∃ ck', map_each l retrieve_node_output ck = (Ok (fwd <$> l), ck') ∧ checkpointer_ok tree fwd ck' E.
Proof.
  revert ck. induction l as [|n l IH]; intros ck Hck; cbn [map_each]; [by exists ck|].
  destruct (retrieve_ok ck n (l ++ E) Hck) as (ck1 & Hr & Hck1). destruct (IH ck1 Hck1) as (ck2 & Hm & Hck2).
  exists ck2. unfold bind. by rewrite Hr, Hm.
Qed.

Lemma highest_rank R : R ≠ ∅ → ∃ c, c ∈ R ∧ ∀ d, d ∈ R → (rank d ≤ rank c)%N.
Proof.
  induction R as [|x R Hx IH] using set_ind_L; [done|]. intros _.
  destruct (decide (R = ∅)) as [->|HR]; [exists x; set_solver|].
  destruct (IH HR) as (c & Hc & Hmax). destruct (decide (rank x ≤ rank c)%N).
  - exists c. split; [by apply elem_of_union_r|]. intros d [->%elem_of_singleton|]%elem_of_union; auto.
  - exists x. split; [apply elem_of_union_l; by apply elem_of_singleton|].
    intros d [->%elem_of_singleton|Hd]%elem_of_union; [lia|]. specialize (Hmax d Hd). lia.
Qed.

(** Nothing is left once nothing more is asked for: the node of highest rank among
    those left would not be required. *)
Lemma checkpointer_drained ck : checkpointer_ok tree fwd ck [] → is_empty ck = true.
Proof.
  intros (R & [Hn Hpos Hc Hr] & [Hdom _] & _).
  assert (R = ∅) as ->.
  { destruct (decide (R = ∅)) as [|HR]; [done|exfalso].
    destruct (highest_rank R HR) as (c & HcR & Hmax).
    destruct (proj2 (Hr c)) as [k Hk]; [set_solver|]. pose proof (Hpos c _ Hk) as Hk1. specialize (Hn c).
    unfold needed in Hn. rewrite Hk in Hn. simpl in *. rewrite (occ_not_in c) in Hn; [lia|].
    intros (d & HdR & Hd)%elem_of_demand. unfold parents_of in Hd.
    destruct (tree !! d) as [ps|] eqn:Ht; [|by apply elem_of_nil in Hd].
    pose proof (Hrank d ps c Ht Hd). specialize (Hmax d HdR). lia. }
  unfold is_empty, states_is_empty. apply andb_true_iff. split; apply bool_decide_eq_true.
  - apply map_empty. intros p. destruct (backward_states ck !! p) as [s|] eqn:Hp; [|done]. exfalso.
    pose proof (Hpos p s Hp). specialize (Hn p). unfold needed in Hn. rewrite Hp in Hn. simpl in Hn.
    rewrite demand_empty, occ_nil in Hn. lia.
  - by apply dom_empty_inv_L.
Qed.
End retrieve.
