(* ===== verification/AutodiffMemory.v ===== *)
(** * Automatic differentiation: graph memory

    [GraphMemoryManagement] of [runtime/memory_management.rs]: which nodes of the
    graph can still take part in a backward pass, and which can be freed.

    The strong count of the [Arc<NodeId>] that a node shares with its tensors is
    outside of the manager: [count id] is its value during a call (the manager holds
    one reference itself). *)

From S2P Require Import Prelude AutodiffGraph.
Open Scope nat_scope.

Inductive NodeMemoryStatus := Useful | Unavailable | Unknown.
#[export] Instance status_eq_dec : EqDecision NodeMemoryStatus.
Proof. solve_decision. Defined.

Abbreviation GraphNodes := (gmap NodeId (list Parent)).
Abbreviation Statuses := (gmap NodeId NodeMemoryStatus).

Record GraphMemoryManagement := mkMemory {
  nodes : GraphNodes;
  leaves : gset NodeId;
  statuses : Statuses
}.
Definition memory_default : GraphMemoryManagement := mkMemory ∅ ∅ ∅.

Section memory.
Context {H : HashOrder}.
Context (count : NodeId → N).

(** [GraphMemoryManagement::extend]: the entries of [other] replace ours. *)
Definition memory_extend (self other : GraphMemoryManagement) : GraphMemoryManagement :=
  mkMemory (nodes other ∪ nodes self) (leaves self ∪ leaves other) (statuses other ∪ statuses self).

(** [GraphMemoryManagement::register] *)
Definition memory_register (self : GraphMemoryManagement) (node_id : NodeId) (parents : list Parent) :
    GraphMemoryManagement :=
  mkMemory (<[node_id := parents]> (nodes self))
    ({[node_id]} ∪ foldl (λ leaves parent, leaves ∖ {[parent_id parent]}) (leaves self) parents)
    (statuses self).

Definition is_referenced (ns : GraphNodes) (node_id : NodeId) : res False bool :=
  match ns !! node_id with
  | Some _ => Ok (1 <? count node_id)%N
  | None => Panic
  end.

Definition consume_node (self : GraphMemoryManagement) (node_id : NodeId) : res False GraphMemoryManagement :=
  let? referenced := is_referenced (nodes self) node_id in
  Ok (if referenced : bool then self
      else mkMemory (delete node_id (nodes self)) (leaves self ∖ {[node_id]}) (statuses self)).

(** A parent that the propagations follow: not a leaf that is gone already. *)
Definition follows (ns : GraphNodes) (parent : Parent) : bool :=
  negb (is_leaf parent) || bool_decide (is_Some (ns !! parent_id parent)).
(** [self.nodes.get(&node_id).into_iter().flatten().filter(..).map(|parent| parent.id)] *)
Definition followed_parents (ns : GraphNodes) (node_id : NodeId) : list NodeId :=
  parent_id <$> filter (λ parent, follows ns parent = true) (default [] (ns !! node_id)).

(** The loop of [propagate_unavailable] over the parents of a node, [rec] being the
    recursive call. *)
Fixpoint visit_parents (rec : Statuses → NodeId → res False (NodeMemoryStatus * Statuses)) (ns : GraphNodes)
    (parents : list Parent) (node_status : NodeMemoryStatus) (sts : Statuses) :
    res False (NodeMemoryStatus * Statuses) :=
  match parents with
  | [] => Ok (node_status, sts)
  | parent :: parents =>
      if is_leaf parent && bool_decide (ns !! parent_id parent = None) then
        visit_parents rec ns parents node_status sts
      else
        let? (parent_status, sts) := rec sts (parent_id parent) in
        visit_parents rec ns parents
          (match parent_status with Unavailable => Unavailable | _ => node_status end) sts
  end.

(** [propagate_unavailable]: the status of the node and the statuses known. *)
Fixpoint propagate_unavailable (fuel : nat) (ns : GraphNodes) (sts : Statuses) (node_id : NodeId) :
    res False (NodeMemoryStatus * Statuses) :=
  match fuel with
  | 0 => Panic
  | S fuel =>
      match sts !! node_id with
      | Some status => Ok (status, sts)
      | None =>
          match ns !! node_id with
          | Some parents =>
              let? (node_status, sts) := visit_parents (propagate_unavailable fuel ns) ns parents Unknown sts in
              Ok (node_status, <[node_id := node_status]> sts)
          | None => Ok (Unavailable, <[node_id := Unavailable]> sts)
          end
      end
  end.

(** A path of the graph has no more nodes than the graph. *)
Definition unavailable_propagation (ns : GraphNodes) (sts : Statuses) (node_id : NodeId) :
    res False (NodeMemoryStatus * Statuses) :=
  propagate_unavailable (2 + size ns) ns sts node_id.

Fixpoint unavailable_all (ns : GraphNodes) (sts : Statuses) (l : list NodeId) : res False Statuses :=
  match l with
  | [] => Ok sts
  | leaf :: l =>
      let? (_, sts) := unavailable_propagation ns sts leaf in
      unavailable_all ns sts l
  end.

(** [PopNodeSet::pop]: the first element of the [k]-th iteration. *)
Definition pop (k : nat) (X : gset NodeId) : option (NodeId * gset NodeId) :=
  match hash_iter k X with
  | [] => None
  | node_id :: _ => Some (node_id, X ∖ {[node_id]})
  end.

(** [for parent in parents { if !(seen.contains(parent) || queue.contains(parent)) { queue.insert(parent) } }] *)
Definition enqueue (seen : gset NodeId) (parents : list NodeId) (queue : gset NodeId) : gset NodeId :=
  foldl (λ queue parent, if decide (parent ∈ seen ∪ queue) then queue else {[parent]} ∪ queue) queue parents.

Record propagation := mkPropagation {
  explored : gset NodeId;
  tagged_useful : gset NodeId;
  to_tag_useful : gset NodeId;
  to_explore : gset NodeId;
  marks : Statuses
}.

(** The status with which a node popped from [to_explore] goes on. *)
Definition explored_status (ns : GraphNodes) (sts : Statuses) (node_id : NodeId) : res False NodeMemoryStatus :=
  match sts !! node_id with
  | None => Panic
  | Some Unknown =>
      let? referenced := is_referenced ns node_id in
      Ok (if referenced : bool then Useful else Unknown)
  | Some status => Ok status
  end.

(** What the loop of [useful_propagation] does with a node and its status. *)
Definition propagate (ns : GraphNodes) (node_id : NodeId) (status : NodeMemoryStatus) (q : propagation) : propagation :=
  match status with
  | Useful =>
      let tagged := {[node_id]} ∪ tagged_useful q in
      mkPropagation (explored q) tagged
        (enqueue tagged (followed_parents ns node_id) (to_tag_useful q)) (to_explore q)
        (<[node_id := status]> (marks q))
  | _ =>
      let seen := {[node_id]} ∪ explored q in
      mkPropagation seen (tagged_useful q) (to_tag_useful q)
        (enqueue seen (followed_parents ns node_id) (to_explore q))
        (<[node_id := status]> (marks q))
  end.

Fixpoint useful_loop (fuel : nat) (ns : GraphNodes) (q : propagation) : res False Statuses :=
  match fuel with
  | 0 => Panic
  | S fuel =>
      match pop (2 * fuel) (to_tag_useful q) with
      | Some (node_id, rest) =>
          useful_loop fuel ns
            (propagate ns node_id Useful
               (mkPropagation (explored q) (tagged_useful q) rest (to_explore q) (marks q)))
      | None =>
          match pop (2 * fuel + 1) (to_explore q) with
          | Some (node_id, rest) =>
              let? status := explored_status ns (marks q) node_id in
              useful_loop fuel ns
                (propagate ns node_id status
                   (mkPropagation (explored q) (tagged_useful q) (to_tag_useful q) rest (marks q)))
          | None => Ok (marks q)
          end
      end
  end.

Definition parents_total (ns : GraphNodes) : nat := N.to_nat (msum len ns).

(** Every node is explored and tagged at most once, with its parents. *)
Definition useful_propagation (ns : GraphNodes) (sts : Statuses) (ls : gset NodeId) : res False Statuses :=
  useful_loop (1 + size ls + 2 * parents_total ns) ns (mkPropagation ∅ ∅ ∅ ls sts).

(** The loop of [identify_leaves_and_deletables]; the stack keeps its top first. *)
Fixpoint identify_loop (fuel : nat) (ns : GraphNodes) (sts : Statuses) (visited : gset NodeId)
    (to_visit : list NodeId) (new_leaves : gset NodeId) (to_delete : list NodeId) :
    res False (gset NodeId * list NodeId) :=
  match fuel with
  | 0 => Panic
  | S fuel =>
      match to_visit with
      | [] => Ok (new_leaves, to_delete)
      | node_id :: to_visit =>
          let visited := {[node_id]} ∪ visited in
          match sts !! node_id with
          | None => Panic
          | Some Useful => identify_loop fuel ns sts visited to_visit ({[node_id]} ∪ new_leaves) to_delete
          | Some _ =>
              identify_loop fuel ns sts visited
                (reverse (filter (λ parent, parent ∉ visited) (followed_parents ns node_id)) ++ to_visit)
                new_leaves (to_delete ++ [node_id])
          end
      end
  end.

Definition identify_leaves_and_deletables (ns : GraphNodes) (sts : Statuses) (leaf_id : NodeId)
    (new_leaves : gset NodeId) (to_delete : list NodeId) : res False (gset NodeId * list NodeId) :=
  identify_loop (2 + parents_total ns) ns sts ∅ [leaf_id] new_leaves to_delete.

Fixpoint identify_all (ns : GraphNodes) (sts : Statuses) (l : list NodeId)
    (new_leaves : gset NodeId) (to_delete : list NodeId) : res False (gset NodeId * list NodeId) :=
  match l with
  | [] => Ok (new_leaves, to_delete)
  | leaf :: l =>
      let? (new_leaves, to_delete) := identify_leaves_and_deletables ns sts leaf new_leaves to_delete in
      identify_all ns sts l new_leaves to_delete
  end.

(** What [clear_unused_roots] adds to the nodes to delete. *)
Definition unused_root (ns : GraphNodes) (sts : Statuses) (entry : NodeId * list Parent) : bool :=
  negb (bool_decide (sts !! entry.1 = Some Useful)) && (count entry.1 =? 1)%N &&
  forallb (λ p, bool_decide (ns !! parent_id p = None)) entry.2.
Definition clear_unused_roots (ns : GraphNodes) (sts : Statuses) : list NodeId :=
  (filter (λ entry, unused_root ns sts entry = true) (map_iter 0 ns)).*1.

Definition remove_nodes (ns : GraphNodes) (l : list NodeId) : GraphNodes :=
  foldl (λ ns n, delete n ns) ns l.

(** [free_unavailable_nodes]: the new state, and the nodes [on_free_graph] is called
    on, in order. *)
Definition free_unavailable_nodes (self : GraphMemoryManagement) : res False (GraphMemoryManagement * list NodeId) :=
  let? sts := unavailable_all (nodes self) (statuses self) (hash_iter 0 (leaves self)) in
  let? sts := useful_propagation (nodes self) sts (leaves self) in
  let? (new_leaves, deletables) := identify_all (nodes self) sts (hash_iter 1 (leaves self)) ∅ [] in
  let deletables := deletables ++ clear_unused_roots (nodes self) sts in
  Ok (mkMemory (remove_nodes (nodes self) deletables) new_leaves ∅, deletables).

Definition free_unused_roots (self : GraphMemoryManagement) : GraphMemoryManagement * list NodeId :=
  let deletables := clear_unused_roots (nodes self) (statuses self) in
  (mkMemory (remove_nodes (nodes self) deletables) (leaves self) (statuses self), deletables).

Definition maybe_useful (self : GraphMemoryManagement) : bool :=
  existsb (λ entry, (1 <? count entry.1)%N) (map_iter 0 (nodes self)).
End memory.
