(* ===== verification/AutodiffMemoryProps.v ===== *)
(** * Graph memory: what is freed

    [free_unavailable_nodes] on an acyclic graph: it always returns, it keeps every
    node that a referenced tensor with a complete ancestry still needs, and it frees
    the other nodes below the leaves. *)

From S2P Require Import Prelude AutodiffGraph AutodiffMemory.
Open Scope nat_scope.

Section graph.
Context {H : HashOrder} (ns : GraphNodes) (rank : NodeId → N).
Definition acyclic : Prop := ∀ n ps p, ns !! n = Some ps → p ∈ ps → (rank (parent_id p) < rank n)%N.
Context (Hrank : acyclic).
Implicit Types (sts : Statuses) (n m p : NodeId).

Definition edge : relation NodeId := λ n p, p ∈ followed_parents ns n.
Definition reach : relation NodeId := rtc edge.
(** Everything a backward pass from [n] would need is still there. *)
Definition available n : Prop := ∀ m, reach n m → is_Some (ns !! m).

Lemma edge_spec n p :
  edge n p ↔ ∃ ps q, ns !! n = Some ps ∧ q ∈ ps ∧ parent_id q = p ∧ (is_leaf q = false ∨ is_Some (ns !! p)).
Proof.
  unfold edge, followed_parents. rewrite list_elem_of_fmap. setoid_rewrite list_elem_of_filter. split.
  - intros (q & -> & Hf & Hq). destruct (ns !! n) as [ps|]; [|by apply elem_of_nil in Hq].
    exists ps, q. split_and!; [done|done|done|]. unfold follows in Hf.
    apply orb_true_iff in Hf as [Hl%negb_true_iff|Hs%bool_decide_eq_true]; auto.
  - intros (ps & q & -> & Hq & <- & Hl). exists q. split; [done|]. split; [|done]. unfold follows.
    apply orb_true_iff. destruct Hl as [->|Hs]; [by left|right]. by apply bool_decide_eq_true.
Qed.
Lemma edge_rank n p : edge n p → (rank p < rank n)%N.
Proof. intros (ps & q & Hn & Hq & <- & _)%edge_spec. by eapply Hrank. Qed.
Lemma edge_present n p : edge n p → is_Some (ns !! n).
Proof. intros (ps & q & Hn & _)%edge_spec. by exists ps. Qed.
Lemma available_step n : available n ↔ is_Some (ns !! n) ∧ ∀ p, edge n p → available p.
Proof.
  split.
  - intros Ha. split; [apply Ha, rtc_refl|]. intros p Hp m Hm. apply Ha. by eapply rtc_l.
  - intros [Hn Ha] m Hm. inversion Hm as [|? p ? Hp Hpm]; subst; [done|]. by apply (Ha p).
Qed.

(** ** Unavailable nodes *)

Definition status_right n (st : NodeMemoryStatus) : Prop :=
  match st with Useful => False | Unavailable => ¬ available n | Unknown => available n end.
Record statuses_ok sts : Prop := {
  st_right n st : sts !! n = Some st → status_right n st;
  st_closed n p : is_Some (sts !! n) → edge n p → is_Some (sts !! p)
}.

(** The nodes of lower rank: the recursion can visit no others below [n]. *)
Definition below n : nat := size (filter (λ m, (rank m < rank n)%N) (dom ns : gset NodeId)).
Lemma below_parent n p : is_Some (ns !! p) → (rank p < rank n)%N → below p < below n.
Proof.
  intros Hp%elem_of_dom Hr. unfold below. apply subset_size. split.
  - intros m. rewrite !elem_of_filter. intros [? ?]. split; [lia|done].
  - intros Hsub. specialize (Hsub p). rewrite !elem_of_filter in Hsub. destruct Hsub; [by split|lia].
Qed.
Definition enough (fuel : nat) n : Prop := match ns !! n with Some _ => 2 + below n ≤ fuel | None => 1 ≤ fuel end.

Lemma statuses_insert sts n st :
  statuses_ok sts → status_right n st → (∀ p, edge n p → is_Some (sts !! p)) → statuses_ok (<[n := st]> sts).
Proof.
  intros [Hr Hc] Hst Hp. split.
  - intros m st' [[<- <-]|[_ Hm]]%lookup_insert_Some; [done|by eapply Hr].
  - intros m p Hm He. destruct (decide (p = n)) as [->|Hpn]; [by rewrite lookup_insert_eq|].
    rewrite lookup_insert_ne by done. destruct (decide (m = n)) as [->|Hmn]; [by apply Hp|].
    rewrite lookup_insert_ne in Hm by done. by eapply Hc.
Qed.

(** What the recursive call promises, and what the loop over the parents makes of it. *)
Definition visited_ok (r : res False (NodeMemoryStatus * Statuses)) sts n : Prop :=
  ∃ st sts', r = Ok (st, sts') ∧ statuses_ok sts' ∧ sts ⊆ sts' ∧ sts' !! n = Some st.

Lemma visit_parents_ok rec ps st sts :
  statuses_ok sts →
  (∀ (p : Parent) sts, p ∈ ps → (is_leaf p = false ∨ is_Some (ns !! parent_id p)) → statuses_ok sts →
     visited_ok (rec sts (parent_id p)) sts (parent_id p)) →
  ∃ st' sts', visit_parents rec ns ps st sts = Ok (st', sts') ∧ statuses_ok sts' ∧ sts ⊆ sts' ∧
    (∀ p : Parent, p ∈ ps → (is_leaf p = false ∨ is_Some (ns !! parent_id p)) → is_Some (sts' !! parent_id p)) ∧
    st' = if decide (Exists (λ p : Parent, (is_leaf p = false ∨ is_Some (ns !! parent_id p)) ∧ sts' !! parent_id p = Some Unavailable) ps)
          then Unavailable else st.
Proof.
  revert st sts. induction ps as [|p ps IH]; intros st sts Hok Hrec; cbn [visit_parents].
  { exists st, sts. split_and!; [done|done|done| |].
    - intros p Hp. by apply elem_of_nil in Hp.
    - rewrite decide_False; [done|]. intros He. by inversion He. }
  destruct (is_leaf p && bool_decide (ns !! parent_id p = None)) eqn:Hskip.
  - apply andb_true_iff in Hskip as [Hleaf Hnone%bool_decide_eq_true].
    assert (¬ (is_leaf p = false ∨ is_Some (ns !! parent_id p))) as Hno.
    { rewrite Hleaf, Hnone. intros [|[]]; done. }
    destruct (IH st sts Hok) as (st' & sts' & -> & Hok' & Hsub & Hall & Hst).
    { intros q sts0 Hq. apply Hrec. by right. }
    exists st', sts'. split_and!; [done|done|done| |].
    + intros q [->|Hq]%elem_of_cons Hf; [done|by apply Hall].
    + rewrite Hst. apply decide_ext. rewrite Exists_cons. tauto.
  - assert (is_leaf p = false ∨ is_Some (ns !! parent_id p)) as Hf.
    { apply andb_false_iff in Hskip as [|Hs%bool_decide_eq_false]; [by left|right]. by apply not_eq_None_Some. }
    destruct (Hrec p sts) as (pst & sts1 & -> & Hok1 & Hsub1 & Hp1); [by left|done|done|]. cbn [res_bind].
    destruct (IH (match pst with Unavailable => Unavailable | _ => st end) sts1 Hok1)
      as (st' & sts' & -> & Hok' & Hsub & Hall & Hst).
    { intros q sts0 Hq. apply Hrec. by right. }
    assert (sts' !! parent_id p = Some pst) as Hp' by by eapply lookup_weaken.
    exists st', sts'. split_and!; [done|done|by trans sts1| |].
    + intros q [->|Hq]%elem_of_cons Hfq; [by rewrite Hp'|by apply Hall].
    + rewrite Hst. destruct (decide (Exists _ ps)) as [He|He].
      * rewrite decide_True; [done|]. by apply Exists_cons_tl.
      * destruct (decide (pst = Unavailable)) as [->|Hne].
        -- rewrite decide_True; [done|]. apply Exists_cons_hd. done.
        -- rewrite decide_False; [by destruct pst|]. rewrite Exists_cons, Hp'. intros [[_ [=]]|?]; done.
Qed.

Lemma propagate_ok fuel sts n :
  enough fuel n → statuses_ok sts → visited_ok (propagate_unavailable fuel ns sts n) sts n.
Proof.
  revert sts n. induction fuel as [|fuel IH]; intros sts n Hf Hok.
  { unfold enough in Hf. destruct (ns !! n); lia. }
  cbn [propagate_unavailable]. destruct (sts !! n) as [st|] eqn:Hst; [by exists st, sts|].
  destruct (ns !! n) as [ps|] eqn:Hn; unfold enough in Hf; rewrite Hn in Hf.
  2: { exists Unavailable, (<[n := Unavailable]> sts). split_and!; [done| |by apply insert_subseteq|apply lookup_insert_eq].
       apply statuses_insert; [done| |].
       - intros Ha. destruct (Ha n) as [x Hx]; [apply rtc_refl|]. congruence.
       - intros p He%edge_present. rewrite Hn in He. by destruct He. }
  destruct (visit_parents_ok (propagate_unavailable fuel ns) ps Unknown sts Hok) as (st' & sts' & -> & Hok' & Hsub & Hall & Hst').
  { intros p sts0 Hp Hfol Hok0. apply IH; [|done]. unfold enough. destruct (ns !! parent_id p) eqn:Hpp; [|lia].
    pose proof (below_parent n (parent_id p) ltac:(eauto) (Hrank n ps p Hn Hp)). lia. }
  assert (status_right n st') as Hright.
  { assert (available n ↔ ¬ Exists (λ p : Parent, (is_leaf p = false ∨ is_Some (ns !! parent_id p)) ∧
      sts' !! parent_id p = Some Unavailable) ps) as Hav.
    { rewrite available_step, Exists_exists. split.
      - intros [_ Hav] (p & Hp & Hfol & Hu). apply (st_right _ Hok' _ _ Hu), Hav, edge_spec. eauto 10.
      - intros Hno. split; [by eauto|]. intros p (ps' & q & Hn' & Hq & <- & Hfol)%edge_spec. simplify_eq.
        destruct (Hall q Hq Hfol) as [st Hqst]. pose proof (st_right _ Hok' _ _ Hqst) as Hr.
        destruct st; simpl in Hr; [done| |done]. exfalso. apply Hno. eauto. }
    rewrite Hst'. case_decide; simpl; tauto. }
  cbn [res_bind]. exists st', (<[n := st']> sts'). split_and!; [done| | |apply lookup_insert_eq].
  - apply statuses_insert; [done|done|].
    intros p (ps' & q & Hn' & Hq & <- & Hfol)%edge_spec. simplify_eq. by apply Hall.
  - trans sts'; [done|]. destruct (sts' !! n) as [st|] eqn:Hs'; [|by apply insert_subseteq].
    rewrite insert_id; [done|]. rewrite Hs'. f_equal. pose proof (st_right _ Hok' _ _ Hs') as Hr.
    by destruct st, st'.
Qed.

Lemma unavailable_all_ok sts l :
  statuses_ok sts →
  ∃ sts', unavailable_all ns sts l = Ok sts' ∧ statuses_ok sts' ∧ sts ⊆ sts' ∧ Forall (λ n, is_Some (sts' !! n)) l.
Proof.
  revert sts. induction l as [|n l IH]; intros sts Hok; cbn [unavailable_all]; [by exists sts|].
  destruct (propagate_ok (2 + size ns) sts n) as (st & sts1 & Hp & Hok1 & Hsub1 & Hn1); [|done|].
  { unfold enough. destruct (ns !! n); [|lia]. assert (below n ≤ size ns); [|lia]. unfold below.
    rewrite <-size_dom. apply subseteq_size. intros m. rewrite elem_of_filter. tauto. }
  unfold unavailable_propagation. rewrite Hp. cbn [res_bind].
  destruct (IH sts1 Hok1) as (sts2 & -> & Hok2 & Hsub2 & Hall).
  exists sts2. split_and!; [done|done|by trans sts1|]. apply Forall_cons. split; [|done].
  exists st. by eapply lookup_weaken.
Qed.

(** ** Useful nodes *)

Section useful.
Context (count : NodeId → N) (ls : gset NodeId).

Definition leaf_reach n : Prop := ∃ l, l ∈ ls ∧ reach l n.
(** A tensor is held for [n], and a backward pass from it is possible. *)
Definition live n : Prop := leaf_reach n ∧ available n ∧ (1 < count n)%N.
Definition useful n : Prop := ∃ m, live m ∧ reach m n.

Lemma useful_available n : useful n → available n.
Proof. intros (m & (_ & Ha & _) & Hm) k Hk. apply Ha. by etrans. Qed.
Lemma useful_reach n m : useful n → reach n m → useful m.
Proof. intros (k & Hk & Hkn) Hm. exists k. split; [done|]. by etrans. Qed.
Lemma useful_edge n p : useful n → edge n p → useful p.
Proof. intros Hn Hp. eapply useful_reach; [done|]. by apply rtc_once. Qed.
Lemma leaf_reach_edge n p : leaf_reach n → edge n p → leaf_reach p.
Proof. intros (l & Hl & Hr) Hp. exists l. split; [done|]. by eapply rtc_r. Qed.

Lemma elem_of_enqueue seen ps queue n :
  n ∈ enqueue seen ps queue ↔ n ∈ queue ∨ (n ∈ ps ∧ n ∉ seen).
Proof.
  unfold enqueue. revert queue. induction ps as [|p ps IH]; intros queue; cbn [foldl].
  { rewrite elem_of_nil. tauto. }
  rewrite IH, elem_of_cons. case_decide as Hp; [|rewrite elem_of_union, elem_of_singleton].
  - apply elem_of_union in Hp. destruct (decide (n = p)) as [->|]; tauto.
  - apply not_elem_of_union in Hp. destruct (decide (n = p)) as [->|]; tauto.
Qed.
Lemma size_enqueue seen ps queue : size (enqueue seen ps queue) ≤ length ps + size queue.
Proof.
  unfold enqueue. revert queue. induction ps as [|p ps IH]; intros queue; cbn [foldl length]; [lia|].
  etrans; [apply IH|]. case_decide; [lia|]. rewrite size_union_alt, size_singleton.
  pose proof (subseteq_size (queue ∖ {[p]}) queue ltac:(set_solver)). lia.
Qed.
Lemma pop_Some k X n rest : pop k X = Some (n, rest) → n ∈ X ∧ rest = X ∖ {[n]} ∧ size X = S (size rest).
Proof.
  unfold pop. destruct (hash_iter k X) as [|x l] eqn:Hx; [done|]. intros [= <- <-].
  assert (x ∈ X) as Hin by (rewrite <-(elem_of_hash_iter k), Hx; by left). split; [done|]. split; [done|].
  rewrite size_difference by (by apply singleton_subseteq_l). rewrite size_singleton.
  assert (size X ≠ 0); [|lia]. intros Hz%size_empty_inv. set_solver.
Qed.
Lemma pop_None k X : pop k X = None → X = ∅.
Proof.
  unfold pop. destruct (hash_iter k X) as [|x l] eqn:Hx; [|done]. intros _. apply set_eq. intros x.
  rewrite <-(elem_of_hash_iter k), Hx. set_solver.
Qed.

(** The loop: what is tagged is useful; what is explored is below the leaves and is
    not itself live; what follows from either is queued. *)
Record propagating (D : gset NodeId) (q : propagation) : Prop := {
  pr_dom : dom (marks q) = D;
  pr_mark n st : marks q !! n = Some st → n ∈ tagged_useful q ∧ st = Useful ∨ n ∉ tagged_useful q ∧ status_right n st;
  pr_tagged n : n ∈ tagged_useful q ∪ to_tag_useful q → useful n ∧ n ∈ D;
  pr_explored n : n ∈ explored q ∪ to_explore q → leaf_reach n ∧ n ∈ D;
  pr_dead n : n ∈ explored q → ¬ (available n ∧ (1 < count n)%N);
  pr_leaves n : n ∈ ls → n ∈ explored q ∪ to_explore q ∪ tagged_useful q;
  pr_next_explored n p : n ∈ explored q → edge n p → p ∈ explored q ∪ to_explore q ∪ tagged_useful q;
  pr_next_tagged n p : n ∈ tagged_useful q → edge n p → p ∈ tagged_useful q ∪ to_tag_useful q;
  pr_tag_once : to_tag_useful q ## tagged_useful q;
  pr_explore_once : to_explore q ## explored q
}.

Definition work (q : propagation) : nat :=
  size (to_explore q) + N.to_nat (left_total len ns (explored q)) +
  size (to_tag_useful q) + N.to_nat (left_total len ns (tagged_useful q)).

Lemma followed_length n : length (followed_parents ns n) ≤ length (default [] (ns !! n)).
Proof. unfold followed_parents. rewrite length_fmap. apply length_filter. Qed.
Lemma left_expand X n :
  n ∉ X → length (followed_parents ns n) + N.to_nat (left_total len ns ({[n]} ∪ X)) ≤ N.to_nat (left_total len ns X).
Proof.
  intros Hn. pose proof (followed_length n) as Hl. destruct (ns !! n) as [ps|] eqn:Hps; simpl in Hl.
  - rewrite (left_total_some len ns X n ps) by done. unfold len at 2. lia.
  - rewrite left_total_none by done. lia.
Qed.

Section step.
Context (D : gset NodeId) (Hclosed : ∀ n p, n ∈ D → edge n p → p ∈ D).

Lemma tag_ok q n (rest_tag rest_explore : gset NodeId) :
  propagating D q → useful n → n ∈ D → n ∉ rest_tag →
  rest_tag ⊆ to_tag_useful q → to_tag_useful q ⊆ {[n]} ∪ rest_tag →
  rest_explore ⊆ to_explore q → to_explore q ⊆ {[n]} ∪ rest_explore →
  propagating D (propagate ns n Useful (mkPropagation (explored q) (tagged_useful q) rest_tag rest_explore (marks q))).
Proof.
  intros [Hd Hm Ht He Hx Hl Hne Hnt Ht1 He1] Hu HnD Hnr Hrt Hrt' Hre Hre'. split; simpl.
  - rewrite dom_insert_L, Hd. set_solver.
  - intros m st [[<- <-]|[Hnm Hst]]%lookup_insert_Some; [left; set_solver|].
    destruct (Hm m st Hst) as [[? ?]|[? ?]]; [left|right]; set_solver.
  - intros m. rewrite elem_of_union, elem_of_enqueue. intros [[->%elem_of_singleton|Hmt]%elem_of_union|[Hmr|[Hmp _]]].
    + done.
    + apply Ht. set_solver.
    + apply Ht. set_solver.
    + split; [by eapply useful_edge|by eapply Hclosed].
  - intros m Hmx. apply He. set_solver.
  - done.
  - intros m Hml. specialize (Hl m Hml). set_solver.
  - intros m p Hmx Hp. specialize (Hne m p Hmx Hp). set_solver.
  - intros m p Hmt Hp. rewrite elem_of_union, elem_of_enqueue. apply elem_of_union in Hmt as [->%elem_of_singleton|Hmt].
    + destruct (decide (p ∈ {[n]} ∪ tagged_useful q)); [by left|right; by right].
    + specialize (Hnt m p Hmt Hp). set_solver.
  - intros m. rewrite elem_of_enqueue. set_solver.
  - set_solver.
Qed.
Lemma tag_work q n (rest_tag rest_explore : gset NodeId) :
  propagating D q → to_tag_useful q ⊆ {[n]} ∪ rest_tag →
  work (propagate ns n Useful (mkPropagation (explored q) (tagged_useful q) rest_tag rest_explore (marks q))) ≤
    size rest_explore + N.to_nat (left_total len ns (explored q)) + size rest_tag + N.to_nat (left_total len ns (tagged_useful q)).
Proof.
  intros Hq Hrt. unfold work. simpl. destruct (decide (n ∈ tagged_useful q)) as [Hn|Hn].
  - replace ({[n]} ∪ tagged_useful q) with (tagged_useful q) by set_solver.
    replace (enqueue (tagged_useful q) (followed_parents ns n) rest_tag) with rest_tag; [lia|].
    apply set_eq. intros p. rewrite elem_of_enqueue. split; [by left|]. intros [|[Hp Hnp]]; [done|].
    pose proof (pr_next_tagged _ _ Hq n p Hn Hp). set_solver.
  - pose proof (size_enqueue ({[n]} ∪ tagged_useful q) (followed_parents ns n) rest_tag).
    pose proof (left_expand (tagged_useful q) n Hn). lia.
Qed.

Lemma explore_node_ok q n st :
  propagating D q → n ∈ to_explore q → marks q !! n = Some st → st ≠ Useful → to_tag_useful q = ∅ →
  ¬ (available n ∧ (1 < count n)%N) →
  let q' := propagate ns n st (mkPropagation (explored q) (tagged_useful q) (to_tag_useful q) (to_explore q ∖ {[n]}) (marks q)) in
  propagating D q' ∧ work q' < work q.
Proof.
  intros [Hd Hm Ht He Hx Hl Hne Hnt Ht1 He1] Hn Hst Hnu Htag Hdead q'.
  assert (q' = mkPropagation ({[n]} ∪ explored q) (tagged_useful q) (to_tag_useful q)
    (enqueue ({[n]} ∪ explored q) (followed_parents ns n) (to_explore q ∖ {[n]})) (marks q)) as ->.
  { unfold q', propagate. destruct st; [done| |]; simpl; by rewrite insert_id. }
  assert (n ∉ explored q) as Hnx by set_solver. destruct (He n ltac:(set_solver)) as [Hlr HnD]. split; [split; simpl|].
  - done.
  - done.
  - done.
  - intros m. rewrite elem_of_union, elem_of_enqueue. intros [[->%elem_of_singleton|Hmt]%elem_of_union|[Hmr|[Hmp _]]].
    + done.
    + apply He. set_solver.
    + apply He. set_solver.
    + split; [by eapply leaf_reach_edge|by eapply Hclosed].
  - intros m [->%elem_of_singleton|Hmx]%elem_of_union; [done|by apply Hx].
  - intros m Hml. specialize (Hl m Hml). rewrite !elem_of_union, elem_of_enqueue, elem_of_difference, elem_of_singleton in *.
    destruct (decide (m = n)); tauto.
  - intros m p Hmx Hp. rewrite !elem_of_union, elem_of_enqueue, elem_of_union, elem_of_difference, !elem_of_singleton in *.
    destruct (decide (p = n)); [tauto|]. destruct Hmx as [->|Hmx].
    + destruct (decide (p ∈ explored q)); unfold edge in Hp; tauto.
    + specialize (Hne m p Hmx Hp). rewrite !elem_of_union in Hne. tauto.
  - done.
  - done.
  - intros m. rewrite elem_of_enqueue. set_solver.
  - unfold work. simpl. pose proof (size_enqueue ({[n]} ∪ explored q) (followed_parents ns n) (to_explore q ∖ {[n]})).
    pose proof (left_expand (explored q) n Hnx).
    rewrite size_difference in * by (by apply singleton_subseteq_l). rewrite size_singleton in *.
    assert (size (to_explore q) ≠ 0); [|lia]. intros Hz%size_empty_inv. set_solver.
Qed.

Lemma useful_loop_ok fuel q :
  propagating D q → work q < fuel →
  ∃ q', useful_loop count fuel ns q = Ok (marks q') ∧ propagating D q' ∧ to_tag_useful q' = ∅ ∧ to_explore q' = ∅.
Proof.
  revert q. induction fuel as [|fuel IH]; intros q Hq Hfuel; [lia|]. cbn [useful_loop].
  destruct (pop (2 * fuel) (to_tag_useful q)) as [[n rest]|] eqn:Hpop.
  { apply pop_Some in Hpop as (Hn & -> & Hsz). destruct (pr_tagged _ _ Hq n ltac:(set_solver)) as [Hu HnD].
    apply IH.
    - apply tag_ok; try done; [set_solver|set_solver| |set_solver].
      intros m Hm. destruct (decide (m = n)); set_solver.
    - assert (to_tag_useful q ⊆ {[n]} ∪ to_tag_useful q ∖ {[n]}) as Hsub by (intros m Hm; destruct (decide (m = n)); set_solver).
      pose proof (tag_work q n _ (to_explore q) Hq Hsub). unfold work in Hfuel. lia. }
  apply pop_None in Hpop. destruct (pop (2 * fuel + 1) (to_explore q)) as [[n rest]|] eqn:Hpop'.
  2: { apply pop_None in Hpop'. by exists q. }
  apply pop_Some in Hpop' as (Hn & -> & Hsz). destruct (pr_explored _ _ Hq n ltac:(set_solver)) as [Hlr HnD].
  assert (∃ st, marks q !! n = Some st) as [st Hst] by (apply elem_of_dom; by rewrite (pr_dom _ _ Hq)).
  assert (useful n → ∃ q', useful_loop count fuel ns (propagate ns n Useful
     (mkPropagation (explored q) (tagged_useful q) (to_tag_useful q) (to_explore q ∖ {[n]}) (marks q))) = Ok (marks q') ∧
     propagating D q' ∧ to_tag_useful q' = ∅ ∧ to_explore q' = ∅) as Htag.
  { intros Hu. apply IH.
    - apply tag_ok; try done; [set_solver|set_solver|set_solver|]. intros m Hm. destruct (decide (m = n)); set_solver.
    - pose proof (tag_work q n (to_tag_useful q) (to_explore q ∖ {[n]}) Hq ltac:(set_solver)). unfold work in Hfuel. lia. }
  assert (∀ st, marks q !! n = Some st → st ≠ Useful → ¬ (available n ∧ (1 < count n)%N) →
     ∃ q', useful_loop count fuel ns (propagate ns n st
     (mkPropagation (explored q) (tagged_useful q) (to_tag_useful q) (to_explore q ∖ {[n]}) (marks q))) = Ok (marks q') ∧
     propagating D q' ∧ to_tag_useful q' = ∅ ∧ to_explore q' = ∅) as Hexp.
  { intros st' Hst' Hnu Hdead. destruct (explore_node_ok q n st' Hq Hn Hst' Hnu Hpop Hdead) as [Hok Hw]. apply IH; [done|lia]. }
  unfold explored_status. rewrite Hst. destruct (pr_mark _ _ Hq n st Hst) as [[Hnt ->]|[Hnt Hright]].
  { cbn [res_bind]. apply Htag, (pr_tagged _ _ Hq). set_solver. }
  destruct st; simpl in Hright; [done| |].
  - cbn [res_bind]. apply Hexp; [done|done|tauto].
  - unfold is_referenced. destruct (Hright n) as [ps Hps]; [apply rtc_refl|]. rewrite Hps. cbn [res_bind].
    destruct (N.ltb_spec 1 (count n)).
    + apply Htag. exists n. split; [done|apply rtc_refl].
    + apply Hexp; [done|done|lia].
Qed.

(** At the end, the nodes marked useful are the useful ones. *)
Lemma propagated_useful q n :
  propagating D q → to_tag_useful q = ∅ → to_explore q = ∅ → marks q !! n = Some Useful ↔ useful n.
Proof.
  intros [Hd Hm Ht He Hx Hl Hne Hnt Ht1 He1] Htag Hexp.
  assert (∀ m, m ∈ tagged_useful q → marks q !! m = Some Useful) as Hmark.
  { intros m Hmt. destruct (Ht m ltac:(set_solver)) as [_ HmD]. rewrite <-Hd in HmD.
    apply elem_of_dom in HmD as [st Hst]. destruct (Hm m st Hst) as [[_ ->]|[? _]]; done. }
  assert (∀ a b, reach a b → a ∈ tagged_useful q → b ∈ tagged_useful q) as Htr.
  { intros a b Hab. induction Hab as [|a b c Hab _ IH]; [done|]. intros Ha. apply IH.
    specialize (Hnt a b Ha Hab). set_solver. }
  assert (∀ a b, reach a b → a ∈ explored q ∪ tagged_useful q → b ∈ explored q ∪ tagged_useful q) as Her.
  { intros a b Hab. induction Hab as [|a b c Hab _ IH]; [done|]. intros [Ha|Ha]%elem_of_union; apply IH.
    - specialize (Hne a b Ha Hab). set_solver.
    - specialize (Hnt a b Ha Hab). set_solver. }
  split.
  - intros Hn. destruct (Hm n _ Hn) as [[Hnt' _]|[_ Hr]]; [|done]. apply Ht. set_solver.
  - intros (m & ((l & Hlls & Hlm) & Ha & Hc) & Hmn). apply Hmark, (Htr m); [done|].
    assert (m ∈ explored q ∪ tagged_useful q) as [Hmx|]%elem_of_union; [|exfalso; by apply (Hx m)|done].
    apply (Her l); [done|]. specialize (Hl l Hlls). set_solver.
Qed.

Lemma useful_propagation_ok sts :
  dom sts = D → statuses_ok sts → ls ⊆ D →
  ∃ sts', useful_propagation count ns sts ls = Ok sts' ∧ dom sts' = D ∧ ∀ n, sts' !! n = Some Useful ↔ useful n.
Proof.
  intros Hd Hok Hls. unfold useful_propagation.
  destruct (useful_loop_ok (1 + size ls + 2 * parents_total ns) (mkPropagation ∅ ∅ ∅ ls sts)) as (q & -> & Hq & Htag & Hexp).
  - split; simpl; [done| |set_solver| |set_solver..].
    + intros n st Hst. right. split; [set_solver|]. by apply (st_right _ Hok).
    + intros n Hn. assert (n ∈ ls) as Hnl by set_solver. split; [|by apply Hls]. exists n. split; [done|apply rtc_refl].
  - unfold work, parents_total. cbn [explored tagged_useful to_tag_useful to_explore]. rewrite left_total_empty, size_empty. lia.
  - exists (marks q). split; [done|]. split; [apply (pr_dom _ _ Hq)|]. intros n. by apply propagated_useful.
Qed.
End step.

(** ** New leaves and deletable nodes *)

Section identify.
Context (sts : Statuses) (Hclosed : ∀ n p, is_Some (sts !! n) → edge n p → is_Some (sts !! p)).
Context (Huse : ∀ n, sts !! n = Some Useful ↔ useful n).

Definition closed_below (k : N) (visited : gset NodeId) : Prop :=
  ∀ v p, v ∈ visited → ¬ useful v → (rank v < k)%N → edge v p → p ∈ visited.
Definition visit_left (visited : gset NodeId) : nat := N.to_nat (left_total len ns visited).

(** Popping the nodes of [todo]: what is found below them. *)
Definition identifies (todo : list NodeId) (k : N) (visited : gset NodeId) : Prop :=
  ∃ visited' nl ds cost,
    (∀ f tv nl0 td, identify_loop (cost + f) ns sts visited (todo ++ tv) nl0 td =
                    identify_loop f ns sts visited' tv (nl ∪ nl0) (td ++ ds)) ∧
    visited ⊆ visited' ∧ Forall (λ n, n ∈ visited') todo ∧ closed_below k visited' ∧
    (∀ d, d ∈ ds → ¬ useful d ∧ ∃ n, n ∈ todo ∧ reach n d) ∧
    (∀ x, x ∈ nl → useful x ∧ ∃ n, n ∈ todo ∧ reach n x) ∧
    (∀ v, v ∈ visited' → v ∈ visited ∨ (rank v < k)%N ∧ (useful v ∧ v ∈ nl ∨ ¬ useful v ∧ v ∈ ds)) ∧
    cost + visit_left visited' ≤ length todo + visit_left visited.

Lemma identifies_list todo k visited :
  (∀ n visited, n ∈ todo → closed_below k visited → identifies [n] k visited) →
  closed_below k visited → identifies todo k visited.
Proof.
  intros Hone. revert visited. induction todo as [|n todo IH]; intros visited Hc.
  { exists visited, ∅, [], 0. split_and!; [|done|done|done|by intros ? ?%elem_of_nil|set_solver|by left|done].
    intros f tv nl0 td. by rewrite union_empty_l_L, app_nil_r. }
  destruct (Hone n visited) as (v1 & nl1 & ds1 & c1 & Hrun1 & Hsub1 & Hin1 & Hc1 & Hds1 & Hnl1 & Hadd1 & Hcost1); [by left|done|].
  destruct (IH) with (visited:=v1) as (v2 & nl2 & ds2 & c2 & Hrun2 & Hsub2 & Hin2 & Hc2 & Hds2 & Hnl2 & Hadd2 & Hcost2); [|done|].
  { intros m ???. apply Hone; [by right|done]. }
  exists v2, (nl2 ∪ nl1), (ds1 ++ ds2), (c1 + c2). split_and!.
  - intros f tv nl0 td. rewrite <-Nat.add_assoc. specialize (Hrun1 (c2 + f) (todo ++ tv)). simpl in *.
    rewrite Hrun1, Hrun2. by rewrite !(assoc_L _).
  - by trans v1.
  - apply Forall_cons. split; [|done]. rewrite Forall_singleton in Hin1. by apply Hsub2.
  - done.
  - intros d [Hd|Hd]%elem_of_app; [destruct (Hds1 d Hd) as (? & m & Hm & ?)|destruct (Hds2 d Hd) as (? & m & Hm & ?)];
      (split; [done|]); exists m; split; [|done| |done]; rewrite elem_of_cons; [|by right].
    left. by apply list_elem_of_singleton in Hm.
  - intros d [Hd|Hd]%elem_of_union; [destruct (Hnl2 d Hd) as (? & m & Hm & ?)|destruct (Hnl1 d Hd) as (? & m & Hm & ?)];
      (split; [done|]); exists m; split; [|done| |done]; rewrite elem_of_cons; [by right|].
    left. by apply list_elem_of_singleton in Hm.
  - intros v Hv. rewrite elem_of_union, elem_of_app.
    destruct (Hadd2 v Hv) as [Hv1|]; [|tauto]. destruct (Hadd1 v Hv1); tauto.
  - simpl in *. lia.
Qed.

Lemma useful_dec n : {useful n} + {¬ useful n}.
Proof. destruct (decide (sts !! n = Some Useful)); [left|right]; by rewrite <-Huse. Qed.

Lemma identify_visit k n visited :
  (rank n < k)%N → is_Some (sts !! n) → closed_below k visited → identifies [n] k visited.
Proof.
  revert n visited. induction k as [k IHk] using (well_founded_induction N.lt_wf_0). intros n visited Hk Hn Hc.
  destruct (useful_dec n) as [Hu|Hu].
  { exists ({[n]} ∪ visited), {[n]}, [], 1. split_and!.
    - intros f tv nl0 td. cbn. rewrite (proj2 (Huse n) Hu), app_nil_r. done.
    - apply union_subseteq_r.
    - apply Forall_singleton. set_solver.
    - intros v p [->%elem_of_singleton|Hv]%elem_of_union Hnu Hr He; [done|]. apply elem_of_union_r. by apply (Hc v).
    - by intros ? ?%elem_of_nil.
    - intros x ->%elem_of_singleton. split; [done|]. exists n. split; [by left|apply rtc_refl].
    - intros v [->%elem_of_singleton|Hv]%elem_of_union; [right|by left]. split; [done|]. left. set_solver.
    - simpl. unfold visit_left. pose proof (left_total_mono len ns visited n). lia. }
  assert (∃ st, sts !! n = Some st ∧ st ≠ Useful) as (st & Hst & Hne).
  { destruct Hn as [st Hst]. exists st. split; [done|]. intros ->. by apply Hu, Huse. }
  set (next := reverse (filter (λ parent, parent ∉ {[n]} ∪ visited) (followed_parents ns n))).
  assert (∀ p, p ∈ next ↔ edge n p ∧ p ∉ {[n]} ∪ visited) as Hnext.
  { intros p. unfold next. rewrite elem_of_reverse, list_elem_of_filter. unfold edge. tauto. }
  assert (∀ f tv nl0 td, identify_loop (S f) ns sts visited (n :: tv) nl0 td =
    identify_loop f ns sts ({[n]} ∪ visited) (next ++ tv) nl0 (td ++ [n])) as Hstep.
  { intros f tv nl0 td. cbn. rewrite Hst. by destruct st. }
  destruct (identifies_list next (rank n) ({[n]} ∪ visited))
    as (v1 & nl1 & ds1 & c1 & Hrun1 & Hsub1 & Hin1 & Hc1 & Hds1 & Hnl1 & Hadd1 & Hcost1).
  { intros p vis [Hp _]%Hnext Hcv. pose proof (edge_rank n p Hp). apply IHk; [done|done|by eapply Hclosed|done]. }
  { intros v p [->%elem_of_singleton|Hv]%elem_of_union Hnu Hr He; [lia|]. apply elem_of_union_r. apply (Hc v); [done|done|lia|done]. }
  assert (length next + visit_left ({[n]} ∪ visited) ≤ visit_left visited) as Hleft.
  { destruct (decide (n ∈ visited)) as [Hnv|Hnv].
    - assert (next = []) as ->; [|simpl; by replace ({[n]} ∪ visited) with visited by set_solver].
      destruct next as [|p l] eqn:Heq; [done|]. exfalso. destruct (proj1 (Hnext p)) as [Hp Hnp]; [by left|].
      apply Hnp, elem_of_union_r. by apply (Hc n).
    - pose proof (left_expand visited n Hnv) as Hl. unfold visit_left. unfold next.
      rewrite length_reverse. pose proof (length_filter (λ parent, parent ∉ {[n]} ∪ visited) (followed_parents ns n)). lia. }
  exists v1, nl1, (n :: ds1), (S c1). split_and!.
  - intros f tv nl0 td. change ([n] ++ tv) with (n :: tv). change (S c1 + f) with (S (c1 + f)).
    rewrite Hstep, Hrun1. by rewrite <-(assoc_L _).
  - etrans; [apply union_subseteq_r|done].
  - apply Forall_singleton, Hsub1. set_solver.
  - intros v p Hv Hnu Hr He. destruct (Hadd1 v Hv) as [[->%elem_of_singleton|Hvv]%elem_of_union|[Hrv _]].
    + destruct (decide (p ∈ {[n]} ∪ visited)) as [Hp|Hp]; [by apply Hsub1|].
      rewrite Forall_forall in Hin1. by apply Hin1, Hnext.
    + apply Hsub1, elem_of_union_r. by apply (Hc v).
    + by apply (Hc1 v).
  - intros d [->|Hd]%elem_of_cons; [split; [done|]; exists n; split; [by left|apply rtc_refl]|].
    destruct (Hds1 d Hd) as (? & p & [Hp _]%Hnext & Hr). split; [done|]. exists n. split; [by left|by eapply rtc_l].
  - intros d Hd. destruct (Hnl1 d Hd) as (? & p & [Hp _]%Hnext & Hr). split; [done|]. exists n. split; [by left|by eapply rtc_l].
  - intros v Hv. destruct (Hadd1 v Hv) as [[->%elem_of_singleton|Hvv]%elem_of_union|[Hrv Hc']]; [|by left|].
    + right. split; [done|]. right. split; [done|by left].
    + right. split; [lia|]. destruct Hc' as [|[? ?]]; [by left|right]. split; [done|by right].
  - simpl. lia.
Qed.

(** From a leaf: every node below it that is not useful is deleted, and every useful
    one is below a new leaf. *)
Lemma identify_leaf_ok l nl0 td :
  is_Some (sts !! l) →
  ∃ nl ds, identify_leaves_and_deletables ns sts l nl0 td = Ok (nl ∪ nl0, td ++ ds) ∧
    (∀ d, d ∈ ds ↔ ¬ useful d ∧ reach l d) ∧
    (∀ x, x ∈ nl → useful x ∧ reach l x) ∧
    (∀ v, useful v → reach l v → ∃ x, x ∈ nl ∧ reach x v).
Proof.
  intros Hl. destruct (identify_visit (rank l + 1) l ∅) as (v & nl & ds & c & Hrun & _ & Hin & Hc & Hds & Hnl & Hadd & Hcost).
  { lia. } { done. } { intros ??. set_solver. }
  rewrite Forall_singleton in Hin.
  assert (∀ a b, reach a b → a ∈ v → (rank a < rank l + 1)%N →
    (∃ x, x ∈ v ∧ useful x ∧ reach x b) ∨ (b ∈ v ∧ ¬ useful b)) as Hpath.
  { intros a b Hab. induction Hab as [a|a b c' Hab Hbc IH]; intros Ha Hra; destruct (useful_dec a) as [Hu|Hu].
    - left. exists a. split_and!; [done|done|apply rtc_refl].
    - by right.
    - left. exists a. split_and!; [done|done|by eapply rtc_l].
    - apply IH; [by apply (Hc a)|]. pose proof (edge_rank a b Hab). lia. }
  exists nl, ds. split_and!.
  - unfold identify_leaves_and_deletables. assert (visit_left ∅ = parents_total ns) as Hvl.
    { unfold visit_left, parents_total. by rewrite left_total_empty. }
    replace (2 + parents_total ns) with (c + S (1 + parents_total ns - c)) by (simpl in Hcost; lia).
    rewrite (Hrun _ []). done.
  - intros d. split.
    + intros Hd. destruct (Hds d Hd) as (? & n & ->%list_elem_of_singleton & ?). done.
    + intros [Hnu Hr]. destruct (Hpath l d Hr Hin ltac:(lia)) as [(x & _ & Hx & Hxd)|[Hd _]].
      { exfalso. by apply Hnu, (useful_reach x). }
      destruct (Hadd d Hd) as [?|(_ & [[? _]|[_ ?]])]; [set_solver|done|done].
  - intros x Hx. destruct (Hnl x Hx) as (? & n & ->%list_elem_of_singleton & ?). done.
  - intros w Hw Hr. destruct (Hpath l w Hr Hin ltac:(lia)) as [(x & Hxv & Hx & Hxw)|[_ ?]]; [|done].
    exists x. split; [|done]. destruct (Hadd x Hxv) as [?|(_ & [[_ ?]|[? _]])]; [set_solver|done|done].
Qed.

Lemma identify_all_ok l nl0 td :
  Forall (λ n, is_Some (sts !! n)) l →
  ∃ nl ds, identify_all ns sts l nl0 td = Ok (nl ∪ nl0, td ++ ds) ∧
    (∀ d, d ∈ ds ↔ ¬ useful d ∧ ∃ n, n ∈ l ∧ reach n d) ∧
    (∀ x, x ∈ nl → useful x ∧ ∃ n, n ∈ l ∧ reach n x) ∧
    (∀ v n, useful v → n ∈ l → reach n v → ∃ x, x ∈ nl ∧ reach x v).
Proof.
  revert nl0 td. induction l as [|n l IH]; intros nl0 td Hl; cbn [identify_all].
  { exists ∅, []. rewrite union_empty_l_L, app_nil_r. set_solver. }
  apply Forall_cons in Hl as [Hn Hl].
  destruct (identify_leaf_ok n nl0 td Hn) as (nl1 & ds1 & -> & Hds1 & Hnl1 & Hcov1). cbn [res_bind].
  destruct (IH (nl1 ∪ nl0) (td ++ ds1) Hl) as (nl2 & ds2 & -> & Hds2 & Hnl2 & Hcov2).
  exists (nl2 ∪ nl1), (ds1 ++ ds2). split_and!.
  - by rewrite !(assoc_L _).
  - intros d. rewrite elem_of_app, Hds1, Hds2. setoid_rewrite elem_of_cons. naive_solver.
  - intros x. setoid_rewrite elem_of_union. setoid_rewrite elem_of_cons. naive_solver.
  - intros v m Hv [->|Hm]%elem_of_cons Hr.
    + destruct (Hcov1 v Hv Hr) as (x & Hx & Hxr). exists x. set_solver.
    + destruct (Hcov2 v m Hv Hm Hr) as (x & Hx & Hxr). exists x. set_solver.
Qed.
End identify.
End useful.
End graph.

(** ** [free_unavailable_nodes] *)

Section free.
Context {H : HashOrder} (count : NodeId → N) (mm : GraphMemoryManagement) (rank : NodeId → N).
Context (Hrank : acyclic (nodes mm) rank) (Hsts : statuses mm = ∅).
Abbreviation useful := (useful (nodes mm) count (leaves mm)).

Lemma remove_nodes_lookup ns l n : remove_nodes ns l !! n = if decide (n ∈ l) then None else ns !! n.
Proof.
  unfold remove_nodes. revert ns. induction l as [|m l IH]; intros ns; cbn [foldl].
  { by rewrite decide_False by apply not_elem_of_nil. }
  rewrite IH. destruct (decide (n ∈ l)) as [Hl|Hl]; [by rewrite decide_True by by right|].
  destruct (decide (n = m)) as [->|Hnm].
  - rewrite lookup_delete_eq, decide_True by by left. done.
  - rewrite lookup_delete_ne by done. rewrite decide_False; [done|]. by rewrite not_elem_of_cons.
Qed.

(** A node that no leaf reaches, of which nothing else is referenced. *)
Definition orphan_root (n : NodeId) : Prop :=
  count n = 1%N ∧ ∃ ps, nodes mm !! n = Some ps ∧ Forall (λ p, nodes mm !! parent_id p = None) ps.

Lemma elem_of_unused ns sts n :
  n ∈ clear_unused_roots count ns sts ↔
  sts !! n ≠ Some Useful ∧ count n = 1%N ∧ ∃ ps, ns !! n = Some ps ∧ Forall (λ p, ns !! parent_id p = None) ps.
Proof.
  unfold clear_unused_roots. rewrite list_elem_of_fmap.
  assert (∀ x ps, unused_root count ns sts (x, ps) = true ↔
    sts !! x ≠ Some Useful ∧ count x = 1%N ∧ Forall (λ p, ns !! parent_id p = None) ps) as Hu.
  { intros x ps. unfold unused_root. simpl. rewrite !andb_true_iff, negb_true_iff, bool_decide_eq_false, N.eqb_eq.
    rewrite forallb_forall, Forall_forall. setoid_rewrite bool_decide_eq_true. setoid_rewrite <-list_elem_of_In. tauto. }
  split.
  - intros ([x ps] & -> & [Hx Hin%elem_of_map_iter]%list_elem_of_filter). apply Hu in Hx as (? & ? & ?). eauto.
  - intros (? & ? & ps & Hps & ?). exists (n, ps). split; [done|]. apply list_elem_of_filter.
    split; [by apply Hu|by apply elem_of_map_iter].
Qed.

Lemma free_unavailable_ok :
  ∃ mm' freed, free_unavailable_nodes count mm = Ok (mm', freed) ∧ statuses mm' = ∅ ∧
    (∀ n, nodes mm' !! n = if decide (n ∈ freed) then None else nodes mm !! n) ∧
    (∀ n, n ∈ freed ↔ ¬ useful n ∧ (leaf_reach (nodes mm) (leaves mm) n ∨ orphan_root n)) ∧
    (∀ n, n ∉ freed → leaf_reach (nodes mm) (leaves mm) n → useful n) ∧
    (∀ x, x ∈ leaves mm' → useful x) ∧
    (∀ v, useful v → ∃ x, x ∈ leaves mm' ∧ reach (nodes mm) x v).
Proof.
  unfold free_unavailable_nodes. rewrite Hsts.
  destruct (unavailable_all_ok (nodes mm) rank Hrank ∅ (hash_iter 0 (leaves mm))) as (sts1 & -> & Hok1 & _ & Hall1).
  { split; [by intros ???|]. intros n p [st Hst]. by rewrite lookup_empty in Hst. }
  cbn [res_bind]. rewrite Forall_forall in Hall1. setoid_rewrite elem_of_hash_iter in Hall1.
  destruct (useful_propagation_ok (nodes mm) rank Hrank count (leaves mm) (dom sts1)) with (sts:=sts1)
    as (sts2 & -> & Hdom & Huse); [|done|done| |].
  { intros n p Hn He. apply elem_of_dom. apply elem_of_dom in Hn. by eapply st_closed. }
  { intros n Hn. by apply elem_of_dom, Hall1. }
  cbn [res_bind].
  assert (∀ n, is_Some (sts2 !! n) ↔ is_Some (sts1 !! n)) as Hd by (intros n; by rewrite <-!elem_of_dom, Hdom).
  destruct (identify_all_ok (nodes mm) rank Hrank count (leaves mm) sts2) with (l:=hash_iter 1 (leaves mm))
    (nl0:=∅ : gset NodeId) (td:=[] : list NodeId) as (nl & ds & -> & Hds & Hnl & Hcov).
  { intros n p. rewrite !Hd. by apply st_closed. }
  { done. }
  { apply Forall_forall. intros n Hn%elem_of_hash_iter. by apply Hd, Hall1. }
  cbn [res_bind]. eexists _, _. split; [done|]. simpl.
  assert (∀ n, n ∈ ds ++ clear_unused_roots count (nodes mm) sts2 ↔
    ¬ useful n ∧ (leaf_reach (nodes mm) (leaves mm) n ∨ orphan_root n)) as Hfreed.
  { intros n. rewrite elem_of_app, Hds, elem_of_unused, Huse. setoid_rewrite elem_of_hash_iter.
    unfold leaf_reach, orphan_root. destruct (useful_dec (nodes mm) count (leaves mm) sts2 Huse n); tauto. }
  split_and!; [done| |done| | |].
  - intros n. apply remove_nodes_lookup.
  - intros n Hn Hl. rewrite Hfreed in Hn. destruct (useful_dec (nodes mm) count (leaves mm) sts2 Huse n); tauto.
  - intros x. rewrite union_empty_r_L. intros Hx. by apply Hnl.
  - intros v Hv. rewrite union_empty_r_L. pose proof Hv as (m & ((l & Hl & Hlm) & _) & Hmv).
    apply (Hcov v l Hv); [by apply elem_of_hash_iter|]. by etrans.
Qed.
End free.
