(* ===== verification/AutodiffServer.v ===== *)
(** * Automatic differentiation: gradients, steps and the server of a graph

    The gradient container ([grads.rs]), the backward steps and the two helpers that
    execute them ([graph/base.rs], [ops/backward.rs], [ops/base.rs], [tensor.rs]), and
    [AutodiffServer] ([runtime/server.rs]): registration, the tape, its execution and
    the cleanup after it. *)

From S2P Require Import Prelude AutodiffGraph AutodiffCheckpoint AutodiffMemory.
Open Scope nat_scope.

Section server.
Context {P : Profile} {H : HashOrder} {B : Backend}.

(** ** [grads.rs] *)

Abbreviation Gradients := (gmap NodeId FloatTensorPrimitive).

(** [Gradients::register]: added to what is there already. *)
Definition grads_register (node_id : NodeId) (value : FloatTensorPrimitive) : M Gradients False unit :=
  let! tensor_old := gets (λ g : Gradients, g !! node_id) in
  let! _ := modify (λ g : Gradients, delete node_id g) in
  let out := match tensor_old with Some old => float_add value old | None => value end in
  modify (λ g : Gradients, <[node_id := out]> g).

Definition consume (n : Node) : M Gradients False FloatTensorPrimitive :=
  match requirement n with
  | Grad =>
      let! found := gets (λ g : Gradients, g !! node_id n) in
      expect found
  | GradInBackward =>
      let! found := gets (λ g : Gradients, g !! node_id n) in
      let! _ := modify (λ g : Gradients, delete (node_id n) g) in
      expect found
  | NoGrad => panic
  end.

(** [Gradients::new]: the gradient of the root is one. *)
Definition Gradients_new (root_node : Node) (root_tensor : FloatTensorPrimitive) : Gradients :=
  snd (grads_register (node_id root_node) (float_ones_like root_tensor) ∅).

(** [Gradients::get] and [Gradients::remove] *)
Definition grads_get (t : AutodiffTensor) (g : Gradients) : option FloatTensorPrimitive := g !! node_id (node t).
Definition grads_remove (t : AutodiffTensor) : M Gradients False (option FloatTensorPrimitive) :=
  let! found := gets (λ g : Gradients, g !! node_id (node t)) in
  let! _ := modify (λ g : Gradients, delete (node_id (node t)) g) in
  ret found.

(** [AutodiffTensor::grad], [grad_remove]: only what was asked for with [require_grad]. *)
Definition tensor_grad (t : AutodiffTensor) (g : Gradients) : option FloatTensorPrimitive :=
  match requirement (node t) with Grad => grads_get t g | _ => None end.
Definition grad_remove (t : AutodiffTensor) : M Gradients False (option FloatTensorPrimitive) :=
  match requirement (node t) with Grad => grads_remove t | _ => ret None end.

(** [AutodiffTensor::grad_replace] *)
Definition grad_replace (t : AutodiffTensor) (grad : FloatTensorPrimitive) : M Gradients False unit :=
  let! _ := grads_remove t in
  grads_register (node_id (node t)) grad.

(** ** [ops/backward.rs] *)

(** [duplicate]: the value once for each node that requires gradients. *)
Definition duplicate {A} (nodes : list (option Node)) (obj : option A) : list (option A) :=
  (λ n : option Node, match n with Some _ => obj | None => None end) <$> nodes.

Definition unary (parent_node : option Node) (n : Node) (func : FloatTensorPrimitive → FloatTensorPrimitive) :
    M Gradients False unit :=
  let! grad := consume n in
  match parent_node with
  | Some p => grads_register (node_id p) (func grad)
  | None => ret tt
  end.

Definition binary (node_lhs node_rhs : option Node) (n : Node)
    (func_lhs func_rhs : FloatTensorPrimitive → FloatTensorPrimitive) : M Gradients False unit :=
  let! grad := consume n in
  match duplicate [node_lhs; node_rhs] (Some grad) with
  | [grad_4lhs; grad_4rhs] =>
      let! _ :=
        match node_lhs with
        | Some p => let! g := expect grad_4lhs in grads_register (node_id p) (func_lhs g)
        | None => ret tt
        end in
      match node_rhs with
      | Some p => let! g := expect grad_4rhs in grads_register (node_id p) (func_rhs g)
      | None => ret tt
      end
  | _ => panic
  end.

(** ** Steps *)

(** An implementation of [Backward]: the outputs it retrieves from the checkpointer,
    in order, and what it does to the gradient given them. *)
Inductive Backward :=
| BackwardUnary (needs : list NodeId) (func : list FloatTensorPrimitive → FloatTensorPrimitive → FloatTensorPrimitive)
| BackwardBinary (needs : list NodeId)
    (func_lhs func_rhs : list FloatTensorPrimitive → FloatTensorPrimitive → FloatTensorPrimitive).
Definition needs (b : Backward) : list NodeId :=
  match b with BackwardUnary l _ => l | BackwardBinary l _ _ => l end.

Inductive StepKind :=
| RootStep
| UntrackedOpsStep
| OpsStep (parents : list (option Node)) (backward : Backward) (ordered : bool).
Record StepBoxed := mkStep { step_node : Node; step_kind : StepKind }.

Definition depth (s : StepBoxed) : N := node_order (step_node s).
Definition step_id (s : StepBoxed) : NodeId := node_id (step_node s).
Definition ordered_backward (s : StepBoxed) : bool :=
  match step_kind s with OpsStep _ _ ordered => ordered | _ => false end.
#[export] Instance step_item : TraversalItem StepBoxed := λ s, node_parents (step_node s).

Record BackwardPass := mkPass { grads : Gradients; checkpointer : Checkpointer }.
Definition on_grads {A} (m : M Gradients False A) : M BackwardPass False A := λ s,
  let '(r, g) := m (grads s) in (r, mkPass g (checkpointer s)).
Definition on_checkpointer {A} (m : M Checkpointer False A) : M BackwardPass False A := λ s,
  let '(r, c) := m (checkpointer s) in (r, mkPass (grads s) c).

(** [Step::step] *)
Definition step (s : StepBoxed) : M BackwardPass False unit :=
  match step_kind s with
  | RootStep | UntrackedOpsStep => ret tt
  | OpsStep parents backward _ =>
      let! vals := on_checkpointer (map_each (needs backward) retrieve_node_output) in
      match backward, parents with
      | BackwardUnary _ func, [parent] => on_grads (unary parent (step_node s) (func vals))
      | BackwardBinary _ func_lhs func_rhs, [lhs; rhs] =>
          on_grads (binary lhs rhs (step_node s) (func_lhs vals) (func_rhs vals))
      | _, _ => panic
      end
  end.

(** ** [runtime/server.rs] *)

Record AutodiffServer := mkServer {
  steps : gmap NodeId StepBoxed;
  actions_builder : gmap NodeId CheckpointerBuilder;
  memory_management : GraphMemoryManagement
}.
Definition server_default : AutodiffServer := mkServer ∅ ∅ memory_default.

Definition server_extend (self other : AutodiffServer) : AutodiffServer :=
  mkServer (steps other ∪ steps self) (actions_builder other ∪ actions_builder self)
    (memory_extend (memory_management self) (memory_management other)).

(** [AutodiffServer::register] *)
Definition server_register (self : AutodiffServer) (rc : NodeId) (s : StepBoxed) (acts : CheckpointerBuilder) :
    AutodiffServer :=
  mkServer (<[rc := s]> (steps self)) (<[rc := acts]> (actions_builder self))
    (memory_register (memory_management self) rc (item_parents s)).

(** [validate_tape]: a missing ancestor is a panic. *)
Definition validate_tape (self : AutodiffServer) (root : NodeId) : res False (list NodeId) :=
  match collect_steps root (steps self) with
  | Ok nodes => Ok nodes
  | Err _ | Panic => Panic
  end.

Record TapeResult := mkTape {
  tape_server : AutodiffServer;
  tape : list (list StepBoxed);
  tape_tree : NodeTree;
  tape_builder : CheckpointerBuilder
}.

(** [parents().iter().map(|p| p.id).filter(|s| *s != id)] *)
Definition tree_parents (s : StepBoxed) (id : NodeId) : list NodeId :=
  filter (λ p, p ≠ id) (parent_id <$> item_parents s).

Section tape.
Context (count : NodeId → N).

(** One turn of the loop of [build_tape]. *)
Definition build_node (acc : TapeResult) (id : NodeId) : res False TapeResult :=
  let self := tape_server acc in
  match steps self !! id with
  | None => Panic
  | Some s =>
      let? memory := consume_node count (memory_management self) id in
      let placed :=
        match tape acc !! N.to_nat (depth s) with
        | Some bucket => (<[N.to_nat (depth s) := bucket ++ [s]]> (tape acc),
                          <[id := tree_parents s id]> (tape_tree acc))
        | None => (tape acc, tape_tree acc)
        end in
      let builder :=
        match actions_builder self !! id with
        | Some node_builder => builder_extend (tape_builder acc) node_builder
        | None => tape_builder acc
        end in
      Ok (mkTape (mkServer (delete id (steps self)) (delete id (actions_builder self)) memory)
            placed.1 placed.2 builder)
  end.

Fixpoint build_nodes (acc : TapeResult) (nodes : list NodeId) : res False TapeResult :=
  match nodes with
  | [] => Ok acc
  | id :: nodes => let? acc := build_node acc id in build_nodes acc nodes
  end.

(** [build_tape]: the server left, the tape and the checkpointer. *)
Definition build_tape (self : AutodiffServer) (nodes : list NodeId) :
    res False (AutodiffServer * list (list StepBoxed) * Checkpointer) :=
  match nodes with
  | [] => Panic
  | root :: _ =>
      match steps self !! root with
      | None => Panic
      | Some s =>
          let? acc := build_nodes (mkTape self (replicate (N.to_nat (depth s) + 1) []) ∅ builder_default) nodes in
          let? ck := build (tape_builder acc) (tape_tree acc) in
          Ok (tape_server acc, tape acc, ck)
      end
  end.
End tape.

Definition newer (s s' : StepBoxed) : Prop := (step_id s' ≤ step_id s)%N.
#[export] Instance newer_dec s s' : Decision (newer s s').
Proof. unfold newer. apply _. Defined.

(** The order in which [execute_steps] runs the steps of the tape. *)
Definition schedule (tp : list (list StepBoxed)) : list StepBoxed :=
  if existsb ordered_backward (concat tp) then merge_sort newer (concat tp)
  else concat (reverse tp).

Definition execute_steps (tp : list (list StepBoxed)) (g : Gradients) (ck : Checkpointer) : res False BackwardPass :=
  match for_each (schedule tp) step (mkPass g ck) with
  | (Ok _, s) => Ok s
  | (_, _) => Panic
  end.

(** [cleanup]: the server left, and the nodes given to the cleaner, in order. *)
Definition cleanup (count : NodeId → N) (self : AutodiffServer) (consumed : list NodeId) :
    res False (AutodiffServer * list NodeId) :=
  let? (memory, freed) := free_unavailable_nodes count (memory_management self) in
  Ok (mkServer (foldl (λ m n, delete n m) (steps self) freed)
        (foldl (λ m n, delete n m) (actions_builder self) freed) memory, freed ++ consumed).

(** [backward_local]: the gradients, the server left and the nodes cleaned.  [count] is
    the strong counts while the pass runs. *)
Definition backward_local (count : NodeId → N) (self : AutodiffServer) (root_node : Node)
    (root_tensor : FloatTensorPrimitive) (id : NodeId) :
    res False (Gradients * AutodiffServer * list NodeId) :=
  let? consumed := validate_tape self id in
  let? (self, tp, ck) := build_tape count self consumed in
  let? pass := execute_steps tp (Gradients_new root_node root_tensor) ck in
  let? (self, cleaned) := cleanup count self consumed in
  Ok (grads pass, self, cleaned).

(** [AutodiffServer::free_unused_roots] *)
Definition server_free_unused_roots (count : NodeId → N) (self : AutodiffServer) : AutodiffServer * list NodeId :=
  let '(memory, freed) := free_unused_roots count (memory_management self) in
  (mkServer (foldl (λ m n, delete n m) (steps self) freed)
     (foldl (λ m n, delete n m) (actions_builder self) freed) memory, freed).
End server.
