(* ===== verification/AutodiffAdjoint.v ===== *)
(** * The backward pass computes the adjoints

    Running the steps of a tape, children before parents, is reverse-mode
    differentiation: the gradient of every node is the sum, in the order of the
    schedule, of what the steps that read it send back, each at its own gradient.
    The sums are the very ones the code makes: no law of [float_add] is used. *)

From S2P Require Import Prelude AutodiffGraph AutodiffCheckpoint AutodiffCounts AutodiffServe AutodiffRetrieve AutodiffServer.
Open Scope nat_scope.

Section adjoint.
Context {P : Profile} {H : HashOrder} {B : Backend}.
Abbreviation Gradients := (gmap NodeId FloatTensorPrimitive).
Context (fwd : NodeId → FloatTensorPrimitive).

(** ** The specification *)

(** The sum of the contributions to a node, the latest on the left. *)
Definition total (l : list FloatTensorPrimitive) : option FloatTensorPrimitive :=
  match l with [] => None | v :: l => Some (foldl (λ acc v, float_add v acc) v l) end.

(** What a step sends to its parents when its gradient is [g]. *)
Definition contributions (s : StepBoxed) (g : FloatTensorPrimitive) : list (NodeId * FloatTensorPrimitive) :=
  match step_kind s with
  | OpsStep [parent] (BackwardUnary l func) _ =>
      option_list ((λ p, (node_id p, func (fwd <$> l) g)) <$> parent)
  | OpsStep [lhs; rhs] (BackwardBinary l func_lhs func_rhs) _ =>
      option_list ((λ p, (node_id p, func_lhs (fwd <$> l) g)) <$> lhs) ++
      option_list ((λ p, (node_id p, func_rhs (fwd <$> l) g)) <$> rhs)
  | _ => []
  end.
Definition contributes (s : StepBoxed) (g : option FloatTensorPrimitive) (n : NodeId) : list FloatTensorPrimitive :=
  match g with
  | Some g => (filter (λ x, x.1 = n) (contributions s g)).*2
  | None => []
  end.

(** The chain rule: the gradient of a node is its seed and what its readers send. *)
Definition chain_rule (L : list StepBoxed) (seed : NodeId → list FloatTensorPrimitive)
    (adj : NodeId → option FloatTensorPrimitive) : Prop :=
  ∀ n, adj n = total (seed n ++ (L ≫= λ s, contributes s (adj (step_id s)) n)).

(** ** Schedules *)

Definition parent_ids (s : StepBoxed) : list NodeId := parent_id <$> item_parents s.

(** A step sends its gradient to the parents of its node, and to them only. *)
Definition step_wf (s : StepBoxed) : Prop :=
  match step_kind s with
  | OpsStep parents backward _ =>
      requirement (step_node s) = GradInBackward ∧
      node_id <$> omap id parents = parent_ids s ∧
      length parents = match backward with BackwardUnary _ _ => 1 | BackwardBinary _ _ _ => 2 end
  | RootStep | UntrackedOpsStep => item_parents s = []
  end.
Definition is_ops (s : StepBoxed) : bool := match step_kind s with OpsStep _ _ _ => true | _ => false end.

(** Every step comes after the steps that read its node. *)
Definition children_first (L : list StepBoxed) : Prop :=
  ∀ l1 s l2, L = l1 ++ s :: l2 → Forall (λ p, p ∉ step_id <$> l1 ++ [s]) (parent_ids s).

Record schedule_ok (root : NodeId) (L : list StepBoxed) : Prop := {
  sch_nodup : NoDup (step_id <$> L);
  sch_wf : Forall step_wf L;
  sch_order : children_first L;
  sch_reached s : s ∈ L → is_ops s = true → step_id s = root ∨ ∃ c, c ∈ L ∧ step_id s ∈ parent_ids c
}.

Lemma contributions_parents s g :
  step_wf s → is_ops s = true → (contributions s g).*1 = parent_ids s.
Proof.
  unfold step_wf, is_ops, contributions. destruct (step_kind s) as [| |ps b o]; [done|done|]. intros (_ & <- & Hlen) _.
  destruct b as [l f|l f1 f2]; [destruct ps as [|a [|]]|destruct ps as [|a [|b [|]]]]; try done.
  - by destruct a.
  - by destruct a, b.
Qed.
Lemma contributions_not_ops s g : is_ops s = false → contributions s g = [].
Proof. unfold is_ops, contributions. by destruct (step_kind s). Qed.
Lemma contributes_not_parent s g n : step_wf s → n ∉ parent_ids s → contributes s g n = [].
Proof.
  intros Hwf Hn. destruct g as [g|]; [|done]. simpl. destruct (is_ops s) eqn:Ho; [|by rewrite contributions_not_ops].
  rewrite filter_nil_iff; [done|]. apply Forall_forall. intros x Hx <-. apply Hn.
  rewrite <-(contributions_parents s g) by done. by apply list_elem_of_fmap_2.
Qed.
Lemma contributes_parent s g n :
  step_wf s → n ∈ parent_ids s → is_ops s = true → contributes s (Some g) n ≠ [].
Proof.
  intros Hwf Hn Ho. simpl. rewrite <-(contributions_parents s g) in Hn by done.
  apply list_elem_of_fmap in Hn as (x & -> & Hx). intros Heq.
  assert (x.2 ∈ (filter (λ y, y.1 = x.1) (contributions s g)).*2) as Hin.
  { apply list_elem_of_fmap_2, list_elem_of_filter. done. }
  rewrite Heq in Hin. by apply elem_of_nil in Hin.
Qed.
Lemma has_parents_ops s p : step_wf s → p ∈ parent_ids s → is_ops s = true.
Proof.
  unfold step_wf, is_ops, parent_ids. destruct (step_kind s); [| |done]; intros -> Hp; by apply elem_of_nil in Hp.
Qed.

(** ** The contributions, gathered in order *)

Fixpoint gather (L : list StepBoxed) (c : NodeId → list FloatTensorPrimitive) : NodeId → list FloatTensorPrimitive :=
  match L with
  | [] => c
  | s :: L => gather L (λ n, c n ++ contributes s (total (c (step_id s))) n)
  end.

Lemma children_first_tail s L : children_first (s :: L) → children_first L.
Proof.
  intros Hc l1 t l2 ->. specialize (Hc (s :: l1) t l2 eq_refl). eapply Forall_impl; [done|].
  simpl. intros p Hp. rewrite fmap_app, elem_of_app in *. set_solver.
Qed.
(** The first step is read by none of those after it, nor by itself. *)
Lemma children_first_head s L t : children_first (s :: L) → t ∈ s :: L → step_id s ∉ parent_ids t.
Proof.
  intros Hc Ht Hp. apply list_elem_of_split in Ht as (l1 & l2 & Heq). specialize (Hc l1 t l2 Heq).
  rewrite Forall_forall in Hc. specialize (Hc _ Hp). apply Hc, list_elem_of_fmap. exists s. split; [done|].
  destruct l1 as [|s' l1]; simplify_eq/=; set_solver.
Qed.

Lemma gather_spec L c n :
  Forall step_wf L → children_first L →
  gather L c n = c n ++ (L ≫= λ s, contributes s (total (gather L c (step_id s))) n).
Proof.
  revert c n. induction L as [|s L IH]; intros c n Hwf Hord; [by rewrite app_nil_r|].
  pose proof (children_first_tail _ _ Hord) as Hord'. apply Forall_cons in Hwf as [Hs Hwf]. cbn [gather].
  assert (gather L (λ n, c n ++ contributes s (total (c (step_id s))) n) (step_id s) = c (step_id s)) as Hself.
  { rewrite IH by done. rewrite (contributes_not_parent s) by (done || by eapply children_first_head; [|left]).
    rewrite app_nil_r. replace (L ≫= _) with (@nil FloatTensorPrimitive); [by rewrite app_nil_r|].
    symmetry. apply bind_nil, Forall_forall. intros t Ht. rewrite Forall_forall in Hwf.
    apply contributes_not_parent; [by apply Hwf|]. eapply children_first_head; [done|by right]. }
  cbn [mbind list_bind]. rewrite Hself. rewrite IH by done. by rewrite <-(assoc_L (++)).
Qed.
Lemma gather_chain_rule L seed :
  Forall step_wf L → children_first L → chain_rule L seed (λ n, total (gather L seed n)).
Proof. intros Hwf Hord n. by rewrite <-gather_spec. Qed.

(** A step reads nodes that come after it. *)
Lemma reader_before L s t i j :
  children_first L → NoDup (step_id <$> L) → L !! i = Some s → L !! j = Some t → step_id t ∈ parent_ids s → i < j.
Proof.
  intros Hc Hnd Hi Hj Hp. destruct (decide (i < j)) as [|Hge]; [done|exfalso].
  specialize (Hc (take i L) s (drop (S i) L)). rewrite take_drop_middle in Hc by done. specialize (Hc eq_refl).
  rewrite Forall_forall in Hc. apply (Hc _ Hp). apply list_elem_of_fmap_2. apply elem_of_app.
  destruct (decide (i = j)) as [->|Hne]; [right|left].
  - simplify_eq. by apply list_elem_of_singleton.
  - apply list_elem_of_lookup. exists j. rewrite lookup_take_lt by lia. done.
Qed.

(** The chain rule has one solution. *)
Lemma chain_rule_unique L seed adj adj' :
  Forall step_wf L → children_first L → NoDup (step_id <$> L) →
  chain_rule L seed adj → chain_rule L seed adj' → ∀ n, adj n = adj' n.
Proof.
  intros Hwf Hord Hnd H1 H2. rewrite Forall_forall in Hwf.
  assert (∀ n, (∀ s, s ∈ L → n ∈ parent_ids s → adj (step_id s) = adj' (step_id s)) → adj n = adj' n) as Hn.
  { intros n Hs. rewrite (H1 n), (H2 n). do 2 f_equal.
    apply Forall_bind_ext, Forall_forall. intros s Hin. destruct (decide (n ∈ parent_ids s)) as [Hp|Hp]; [by rewrite Hs|].
    rewrite !contributes_not_parent by auto. done. }
  assert (∀ i s, L !! i = Some s → adj (step_id s) = adj' (step_id s)) as Hi.
  { intros i. induction i as [i IH] using lt_wf_ind. intros s Hs. apply Hn. intros r Hr Hp.
    apply list_elem_of_lookup in Hr as [j Hj]. apply (IH j); [by eapply reader_before|done]. }
  intros n. apply Hn. intros s [i Hs]%list_elem_of_lookup _. by eapply Hi.
Qed.

(** Every operation of a schedule gets a gradient. *)
Lemma gather_reached root L seed s :
  schedule_ok root L → seed root ≠ [] → s ∈ L → is_ops s = true → total (gather L seed (step_id s)) ≠ None.
Proof.
  intros [Hnd Hwf Hord Hreach] Hroot. assert (∀ l, total l = None → l = []) as Hnone by by intros [].
  rewrite list_elem_of_lookup. intros [i Hi]. revert s Hi. induction i as [i IH] using lt_wf_ind. intros s Hi Ho Hz%Hnone.
  rewrite gather_spec in Hz by done. apply app_eq_nil in Hz as [Hz Hz'].
  destruct (Hreach s ltac:(by eapply list_elem_of_lookup_2) Ho) as [Heq|(c & Hc & Hp)]; [by rewrite Heq in Hz|].
  pose proof Hc as Hc'. rewrite Forall_forall in Hwf. pose proof (Hwf c Hc) as Hcwf.
  pose proof (has_parents_ops c _ Hcwf Hp) as Hco. apply list_elem_of_lookup in Hc' as [j Hj].
  specialize (IH j ltac:(by eapply reader_before) c Hj Hco).
  destruct (total (gather L seed (step_id c))) as [g|] eqn:Hg; [|done].
  apply (contributes_parent c g (step_id s) Hcwf Hp Hco). destruct (contributes c (Some g) (step_id s)) as [|v l] eqn:Hv; [done|].
  assert (v ∈ L ≫= λ r, contributes r (total (gather L seed (step_id r))) (step_id s)) as Hin.
  { apply list_elem_of_bind. exists c. rewrite Hg, Hv. split; [by left|done]. }
  rewrite Hz' in Hin. by apply elem_of_nil in Hin.
Qed.

(** ** Execution *)

Lemma total_snoc l v :
  total (l ++ [v]) = Some (match total l with Some o => float_add v o | None => v end).
Proof. destruct l as [|x l]; [done|]. simpl. by rewrite foldl_app. Qed.

(** The container holds the sums so far of the nodes not yet consumed. *)
Definition holding (g : Gradients) (dead : list NodeId) (c : NodeId → list FloatTensorPrimitive) : Prop :=
  ∀ n, g !! n = if decide (n ∈ dead) then None else total (c n).

Lemma holding_ext g dead dead' c c' :
  holding g dead c → (∀ n, n ∈ dead ↔ n ∈ dead') → (∀ n, c n = c' n) → holding g dead' c'.
Proof. intros Hg Hd Hc n. rewrite (Hg n), Hc. apply decide_ext, Hd. Qed.
Lemma grads_register_ok g dead c p v :
  holding g dead c → p ∉ dead →
  ∃ g', grads_register p v g = (Ok tt, g') ∧ holding g' dead (λ n, c n ++ if decide (n = p) then [v] else []).
Proof.
  intros Hg Hp. exists (<[p := match g !! p with Some o => float_add v o | None => v end]> (delete p g)).
  split; [reflexivity|]. intros n. simpl. destruct (decide (n = p)) as [->|Hn].
  - rewrite lookup_insert_eq, total_snoc, (Hg p), decide_False by done. by rewrite decide_False.
  - rewrite lookup_insert_ne, lookup_delete_ne by done. by rewrite app_nil_r.
Qed.
(** Replacing a gradient does not add to it, and touches no other. *)
Lemma grad_replace_spec t v g : grad_replace t v g = (Ok tt, <[node_id (node t) := v]> g).
Proof.
  unfold grad_replace, grads_remove, grads_register, bind, gets, modify, ret. simpl.
  by rewrite lookup_delete_eq, !insert_delete_eq.
Qed.
(** A node that may be absent. *)
Lemma grads_register_opt_ok g dead c (p : option Node) v :
  holding g dead c → Forall (λ q, node_id q ∉ dead) (option_list p) →
  ∃ g', (match p with Some q => grads_register (node_id q) v | None => ret tt end) g = (Ok tt, g') ∧
    holding g' dead (λ n, c n ++ (filter (λ x, x.1 = n) (option_list ((λ q, (node_id q, v)) <$> p))).*2).
Proof.
  intros Hg Hp. destruct p as [q|]; simpl in *.
  - rewrite Forall_singleton in Hp. destruct (grads_register_ok g dead c (node_id q) v Hg Hp) as (g' & Hr & Hg').
    exists g'. split; [done|]. eapply holding_ext; [done|done|]. intros n. simpl. f_equal.
    rewrite filter_cons. simpl. destruct (decide (n = node_id q)), (decide (node_id q = n)); congruence || done.
  - exists g. split; [done|]. eapply holding_ext; [done|done|]. intros n. by rewrite app_nil_r.
Qed.
Lemma consume_ok g dead c n v :
  holding g dead c → requirement n = GradInBackward → node_id n ∉ dead → total (c (node_id n)) = Some v →
  ∃ g', consume n g = (Ok v, g') ∧ holding g' (node_id n :: dead) c.
Proof.
  intros Hg Hr Hd Hv. unfold consume. rewrite Hr. exists (delete (node_id n) g). split.
  - unfold bind, gets, modify, expect, ret. simpl. by rewrite (Hg (node_id n)), decide_False, Hv.
  - intros m. destruct (decide (m = node_id n)) as [->|Hm].
    + rewrite lookup_delete_eq, decide_True by by left. done.
    + rewrite lookup_delete_ne, (Hg m) by done. apply decide_ext. rewrite elem_of_cons. tauto.
Qed.

Section run.
Context (tree : NodeTree) (rank : NodeId → N).
Context (Hrank : ∀ c ps p, tree !! c = Some ps → p ∈ ps → (rank p < rank c)%N).
Abbreviation ck_ok := (checkpointer_ok tree fwd).

Definition step_needs (s : StepBoxed) : list NodeId :=
  match step_kind s with OpsStep _ backward _ => needs backward | _ => [] end.

Lemma ops_step_ok s g ck dead c v E :
  step_wf s → is_ops s = true → holding g dead c → ck_ok ck (step_needs s ++ E) →
  step_id s ∉ dead → Forall (λ p, p ∉ step_id s :: dead) (parent_ids s) → total (c (step_id s)) = Some v →
  ∃ g' ck', step s (mkPass g ck) = (Ok tt, mkPass g' ck') ∧ ck_ok ck' E ∧
    holding g' (step_id s :: dead) (λ n, c n ++ contributes s (Some v) n).
Proof.
  unfold step_wf, is_ops, step_needs, step, contributes, contributions. intros Hwf Ho Hg Hck Hd Hp Hv.
  destruct (step_kind s) as [| |ps b o]; [done|done|]. destruct Hwf as (Hreq & Hps & Hlen). rewrite <-Hps in Hp.
  destruct (retrieve_all tree fwd rank Hrank ck (needs b) E Hck) as (ck1 & Hvals & Hck1).
  destruct (consume_ok g dead c (step_node s) v Hg Hreq Hd Hv) as (g1 & Hcon & Hg1).
  unfold bind at 1, on_checkpointer. simpl. rewrite Hvals.
  destruct b as [l f|l f1 f2]; simpl in *.
  - destruct ps as [|p [|]]; try done.
    destruct (grads_register_opt_ok g1 _ c p (f (fwd <$> l) v) Hg1) as (g2 & Hreg & Hg2).
    { destruct p; simpl in *; [|done]. apply Forall_singleton. rewrite Forall_singleton in Hp. exact Hp. }
    exists g2, ck1. split; [|done]. unfold on_grads, unary, bind. simpl. rewrite Hcon.
    unfold grads_register, bind, modify, ret in Hreg. destruct p; simpl in *; by simplify_eq/=.
  - destruct ps as [|pl [|pr [|]]]; try done.
    destruct (grads_register_opt_ok g1 _ c pl (f1 (fwd <$> l) v) Hg1) as (g2 & Hreg & Hg2).
    { destruct pl; simpl in *; [|done]. apply Forall_singleton. destruct pr; simpl in *; rewrite !Forall_cons in Hp; apply Hp. }
    destruct (grads_register_opt_ok g2 _ _ pr (f2 (fwd <$> l) v) Hg2) as (g3 & Hreg' & Hg3).
    { destruct pr; simpl in *; [|done]. apply Forall_singleton. destruct pl; simpl in *; rewrite !Forall_cons in Hp; apply Hp. }
    exists g3, ck1. split; [|split; [done|]].
    + unfold on_grads, binary, bind. simpl. rewrite Hcon.
      unfold grads_register, bind, modify, ret in Hreg, Hreg'. destruct pl, pr; simpl in *; by simplify_eq/=.
    + eapply holding_ext; [done|done|]. intros n. simpl. by rewrite filter_app, fmap_app, <-(assoc_L (++)).
Qed.

Definition consumed_ids (L : list StepBoxed) : list NodeId := step_id <$> filter (λ s, is_ops s = true) L.

(** Running what is left of a schedule, all of whose operations have a gradient by the
    time they run. *)
Lemma run_schedule L g ck dead c :
  Forall step_wf L → children_first L → NoDup (step_id <$> L) →
  Forall (λ s, step_id s ∉ dead) L → Forall (λ s, Forall (λ p, p ∉ dead) (parent_ids s)) L →
  Forall (λ s, is_ops s = true → total (gather L c (step_id s)) ≠ None) L →
  holding g dead c → ck_ok ck (L ≫= step_needs) →
  ∃ g' ck', for_each L step (mkPass g ck) = (Ok tt, mkPass g' ck') ∧ ck_ok ck' [] ∧
    holding g' (dead ++ consumed_ids L) (gather L c).
Proof.
  revert g ck dead c. induction L as [|s L IH]; intros g ck dead c Hwf Hord Hnd Hd Hpd Hall Hg Hck.
  { exists g, ck. split; [done|]. split; [done|]. unfold consumed_ids. simpl. by rewrite app_nil_r. }
  assert (total (gather (s :: L) c (step_id s)) = total (c (step_id s))) as Hself.
  { rewrite gather_spec by done. rewrite bind_nil; [by rewrite app_nil_r|]. apply Forall_forall. intros t Ht.
    rewrite Forall_forall in Hwf. apply contributes_not_parent; [by apply Hwf|]. by eapply children_first_head. }
  pose proof (children_first_tail _ _ Hord) as Hord'. pose proof (Hord [] s L eq_refl) as Hsp. simpl in Hsp.
  apply Forall_cons in Hwf as [Hs Hwf]. apply NoDup_cons in Hnd as [Hns Hnd]. apply Forall_cons in Hd as [Hsd Hd].
  apply Forall_cons in Hpd as [Hspd Hpd]. apply Forall_cons in Hall as [Hsall Hall]. cbn [for_each mbind list_bind] in *.
  unfold bind. rewrite Hself in Hsall.
  destruct (is_ops s) eqn:Ho.
  - destruct (total (c (step_id s))) as [v|] eqn:Hv; [|by destruct (Hsall eq_refl)].
    destruct (ops_step_ok s g ck dead c v (L ≫= step_needs)) as (g1 & ck1 & -> & Hck1 & Hg1); try done.
    { rewrite Forall_forall in *. intros p Hp [->|Hpd']%elem_of_cons; [|by apply (Hspd p)].
      apply (Hsp (step_id s) Hp). by left. }
    destruct (IH g1 ck1 (step_id s :: dead) (λ n, c n ++ contributes s (Some v) n)) as (g2 & ck2 & -> & Hck2 & Hg2); try done.
    + rewrite Forall_forall in *. intros t Ht. rewrite not_elem_of_cons. split; [|by apply Hd].
      intros Heq. apply Hns. rewrite <-Heq. by apply list_elem_of_fmap_2.
    + rewrite Forall_forall in *. intros t Ht. rewrite Forall_forall. intros p Hp. rewrite not_elem_of_cons.
      split; [|by specialize (Hpd t Ht); rewrite Forall_forall in Hpd; apply Hpd].
      intros ->. by apply (children_first_head s L t Hord ltac:(by right)).
    + cbn [gather] in Hall. by rewrite Hv in Hall.
    + exists g2, ck2. split; [done|]. split; [done|]. cbn [gather]. rewrite Hv.
      eapply holding_ext; [done| |done]. intros n. unfold consumed_ids. rewrite filter_cons_True by done. set_solver.
  - assert (step s (mkPass g ck) = (Ok tt, mkPass g ck)) as ->.
    { unfold step. unfold is_ops in Ho. by destruct (step_kind s). }
    assert (∀ n, contributes s (total (c (step_id s))) n = []) as Hno.
    { intros n. unfold contributes. destruct (total _); [|done]. by rewrite contributions_not_ops. }
    destruct (IH g ck dead (λ n, c n ++ contributes s (total (c (step_id s))) n)) as (g2 & ck2 & -> & Hck2 & Hg2); try done.
    + eapply holding_ext; [done|done|]. intros n. by rewrite Hno, app_nil_r.
    + replace (step_needs s) with (@nil NodeId) in Hck; [done|]. unfold step_needs. unfold is_ops in Ho. by destruct (step_kind s).
    + exists g2, ck2. split; [done|]. split; [done|]. cbn [gather].
      eapply holding_ext; [done| |done]. intros n. unfold consumed_ids. rewrite filter_cons_False by (by rewrite Ho). done.
Qed.
End run.
End adjoint.
