(* ===== verification/AutodiffOps.v ===== *)
(** * Automatic differentiation: tensors and the preparation of operations

    The checkpointing strategies ([checkpoint/strategy.rs]), tensors and their
    registration ([tensor.rs]), and the preparation of an operation
    ([ops/base.rs], [ops/backward.rs]): what every operation of the backend goes
    through before its output and its backward step exist. *)

From S2P Require Import Prelude AutodiffGraph AutodiffCheckpoint AutodiffMemory AutodiffServer.
Open Scope nat_scope.

Section ops.
Context {P : Profile} {H : HashOrder} {B : Backend}.

(** ** [checkpoint/strategy.rs] *)

Inductive CheckpointingError := UntrackedParent.

Class CheckpointStrategy := {
  policy : GradientCheckpointingStrategy;
  strategy_property : RetroForward → ComputingProperty;
  strategy_parents : list AutodiffTensor → CheckpointerBuilder → res CheckpointingError unit * CheckpointerBuilder
}.

Definition NoCheckpointing : CheckpointStrategy := {|
  policy := Disabled;
  strategy_property _ := ComputeBound;
  strategy_parents _ builder := (Ok tt, builder)
|}.

(** The loop of [BalancedCheckpointing::checkpoint_parents]. *)
Fixpoint balanced_loop (parents : list AutodiffTensor) (can_checkpoint : bool) (builder : CheckpointerBuilder) :
    bool * CheckpointerBuilder :=
  match parents with
  | [] => (can_checkpoint, builder)
  | tensor :: parents =>
      match requirement (node tensor) with
      | NoGrad => balanced_loop parents false builder
      | _ => balanced_loop parents can_checkpoint (checkpoint tensor Backup builder)
      end
  end.
Definition balanced_parents (parents : list AutodiffTensor) (builder : CheckpointerBuilder) :
    res CheckpointingError unit * CheckpointerBuilder :=
  let '(can_checkpoint, builder) := balanced_loop parents true builder in
  if can_checkpoint then (Ok tt, builder) else (Err UntrackedParent, builder_default).
Definition BalancedCheckpointing : CheckpointStrategy := {|
  policy := Balanced;
  strategy_property retro_forward := MemoryBound retro_forward;
  strategy_parents := balanced_parents
|}.

Definition merged_policy (C : CheckpointStrategy) (nodes : list Node) : res False GradientCheckpointingStrategy :=
  match nodes with
  | [] => Ok (@policy C)
  | _ =>
      let policies := (λ n, default (@policy C) (checkpointing n)) <$> filter (λ n, autodiff_enabled n = true) nodes in
      match policies with
      | [] => Ok Disabled
      | p :: rest => if forallb (λ other, bool_decide (other = p)) rest then Ok p else Panic
      end
  end.

(** The strategy a policy stands for; a custom one must be the backend's. *)
Definition strategy_of (C : CheckpointStrategy) (p : GradientCheckpointingStrategy) : res False CheckpointStrategy :=
  match p with
  | Disabled => Ok NoCheckpointing
  | Balanced => Ok BalancedCheckpointing
  | Custom _ => if decide (p = @policy C) then Ok C else Panic
  end.
Definition compute_property (C : CheckpointStrategy) (p : GradientCheckpointingStrategy) (rf : RetroForward) :
    res False ComputingProperty :=
  let? D := strategy_of C p in
  Ok (@strategy_property D rf).
Definition checkpoint_parents (C : CheckpointStrategy) (p : GradientCheckpointingStrategy)
    (parents : list AutodiffTensor) (builder : CheckpointerBuilder) :
    res False (res CheckpointingError unit * CheckpointerBuilder) :=
  let? D := strategy_of C p in
  Ok (@strategy_parents D parents builder).

(** ** [tensor.rs] *)

(** The state a forward pass works on: the counter of [NodeId::new] and the server of
    the graph. *)
Record Forward := mkForward { next_id : N; server : AutodiffServer }.

Definition new_id : M Forward False NodeId :=
  let! c := gets next_id in
  let '(r, c) := NodeId_new c in
  let! _ := modify (λ s, mkForward c (server s)) in
  lift r.

Definition tensor_new (p : FloatTensorPrimitive) : M Forward False AutodiffTensor :=
  let! id := new_id in
  ret (mkTensor p (Node_new [] 0 id NoGrad Ambiguous)).

Definition disable (n : Node) : Node :=
  mkNode (node_parents n) (node_order n) (node_id n) (requirement n) (properties n) (checkpointing n) false.
Definition tensor_plain (p : FloatTensorPrimitive) : M Forward False AutodiffTensor :=
  let! tensor := tensor_new p in
  ret (mkTensor (primitive tensor) (disable (node tensor))).

Definition register_step (t : AutodiffTensor) (s : StepBoxed) (acts : CheckpointerBuilder) :
    M Forward False AutodiffTensor :=
  if negb (autodiff_enabled (node t)) then ret t
  else
    let! _ := modify (λ f, mkForward (next_id f) (server_register (server f) (node_id (node t)) s acts)) in
    ret t.

Definition with_checkpointing (p : option GradientCheckpointingStrategy) (n : Node) : Node :=
  mkNode (node_parents n) (node_order n) (node_id n) (requirement n) (properties n) p (autodiff_enabled n).

Definition require_grad (t : AutodiffTensor) : M Forward False AutodiffTensor :=
  if negb (autodiff_enabled (node t)) then panic
  else
    match requirement (node t) with
    | Grad => ret t
    | GradInBackward => panic
    | NoGrad =>
        let n := with_checkpointing (checkpointing (node t))
                   (Node_new [] 0 (node_id (node t)) Grad (properties (node t))) in
        register_step (mkTensor (primitive t) n) (mkStep n RootStep) builder_default
    end.

(** [parent_nodes.iter().map(|node| node.order).reduce(usize::max).unwrap_or(0)] *)
Definition max_order (nodes : list Node) : N := foldr N.max 0%N (node_order <$> nodes).

Definition tracked_parents (nodes : list Node) : list Parent :=
  (λ n, mkParent (node_id n) (node_order n =? 0)%N) <$> omap clone_if_require_grad nodes.

Definition from_parents (p : FloatTensorPrimitive) (parent_nodes : list Node) (r : Requirement)
    (props : ComputingProperty) : M Forward False AutodiffTensor :=
  if negb (bool_decide (parent_nodes = [])) && forallb (λ n, negb (autodiff_enabled n)) parent_nodes then
    tensor_plain p
  else
    let order := (max_order parent_nodes + 1)%N in
    let! id := new_id in
    ret (mkTensor p
      (mkNode (tracked_parents parent_nodes) order id r props
         (head (omap checkpointing (filter (λ n, autodiff_enabled n = true) parent_nodes)))
         (bool_decide (parent_nodes = []) || existsb autodiff_enabled parent_nodes))).

(** ** [ops/base.rs] *)

Record OpsPrep := mkPrep {
  prep_nodes : list Node;
  prep_requirement : Requirement;
  prep_property : ComputingProperty;
  prep_builder : CheckpointerBuilder
}.

(** [Backward::prepare] *)
Definition prepare (C : CheckpointStrategy) (nodes : list Node) : res False OpsPrep :=
  let? _ := merged_policy C nodes in
  Ok (mkPrep nodes (from_nodes nodes) Ambiguous builder_default).

Definition compute_bound (p : OpsPrep) : OpsPrep :=
  mkPrep (prep_nodes p) (prep_requirement p) ComputeBound (prep_builder p).

(** [memory_bound().retro_forward(rf)] *)
Definition retro_forward (C : CheckpointStrategy) (p : OpsPrep) (rf : RetroForward) : res False OpsPrep :=
  let? pol := merged_policy C (prep_nodes p) in
  let? prop := compute_property C pol rf in
  Ok (mkPrep (prep_nodes p) (prep_requirement p) prop (prep_builder p)).

(** [parents(..)] *)
Definition prep_parents (C : CheckpointStrategy) (p : OpsPrep) (parents : list AutodiffTensor) : res False OpsPrep :=
  let? pol := merged_policy C (prep_nodes p) in
  let? (r, builder) := checkpoint_parents C pol parents (prep_builder p) in
  Ok (mkPrep (prep_nodes p) (prep_requirement p)
        (match r with Ok _ => prep_property p | _ => ComputeBound end) builder).

(** [OpsPrep<.., Tracked>::checkpoint]: the identifier to retrieve it with. *)
Definition prep_checkpoint (p : OpsPrep) (t : AutodiffTensor) : OpsPrep * NodeId :=
  (mkPrep (prep_nodes p) (prep_requirement p) (prep_property p) (checkpoint t Explicit (prep_builder p)),
   node_id (node t)).

(** [OpsPrep<.., UnTracked>::finish] *)
Definition finish_untracked (p : OpsPrep) (output : FloatTensorPrimitive) : M Forward False AutodiffTensor :=
  let! out := from_parents output (prep_nodes p) (prep_requirement p) (prep_property p) in
  if negb (autodiff_enabled (node out)) then ret out
  else register_step out (mkStep (node out) UntrackedOpsStep) (prep_builder p).

(** [OpsPrep<.., Tracked>::finish] *)
Definition finish_tracked (p : OpsPrep) (backward : Backward) (ordered : bool) (output : FloatTensorPrimitive) :
    M Forward False AutodiffTensor :=
  let! out := from_parents output (prep_nodes p) (prep_requirement p) (prep_property p) in
  let parents := clone_if_require_grad <$> prep_nodes p in
  register_step out (mkStep (node out) (OpsStep parents backward ordered)) (prep_builder p).

(** [stateful()]: whether the operation is tracked. *)
Definition tracked (p : OpsPrep) : bool := negb (is_none (prep_requirement p)).

(** ** Operations

    How the operations of [ops/tensor.rs] with one or two inputs use the above.
    [bound] is the retro-forward of a memory-bound operation, [saves] the inputs whose
    output the backward step asks for. *)

Record UnaryOp := mkUnary {
  un_bound : option (NodeId → RetroForward);
  un_saves : bool;
  un_forward : FloatTensorPrimitive → FloatTensorPrimitive;
  un_backward : list FloatTensorPrimitive → FloatTensorPrimitive → FloatTensorPrimitive
}.

(** The preparation up to [stateful()]. *)
Definition prepare_op (C : CheckpointStrategy) (ts : list AutodiffTensor) (bound : option RetroForward) :
    res False OpsPrep :=
  let? p := prepare C (node <$> ts) in
  match bound with
  | None => Ok (compute_bound p)
  | Some rf =>
      let? p := retro_forward C p rf in
      prep_parents C p ts
  end.

(** The explicit checkpoints of a tracked operation. *)
Fixpoint checkpoint_all (p : OpsPrep) (ts : list AutodiffTensor) : OpsPrep * list NodeId :=
  match ts with
  | [] => (p, [])
  | t :: ts =>
      let '(p, id) := prep_checkpoint p t in
      let '(p, ids) := checkpoint_all p ts in
      (p, id :: ids)
  end.

Definition run_unary (C : CheckpointStrategy) (op : UnaryOp) (t : AutodiffTensor) : M Forward False AutodiffTensor :=
  let! p := lift (prepare_op C [t] ((λ rf, rf (node_id (node t))) <$> un_bound op)) in
  if tracked p then
    let '(p, ids) := checkpoint_all p (if un_saves op then [t] else []) in
    finish_tracked p (BackwardUnary ids (un_backward op)) false (un_forward op (primitive t))
  else finish_untracked p (un_forward op (primitive t)).

Record BinaryOp := mkBinary {
  bin_bound : option (NodeId → NodeId → RetroForward);
  (** Whether the left (right) input is saved, given which inputs are tracked. *)
  bin_saves_lhs : bool → bool → bool;
  bin_saves_rhs : bool → bool → bool;
  bin_forward : FloatTensorPrimitive → FloatTensorPrimitive → FloatTensorPrimitive;
  bin_backward_lhs : list FloatTensorPrimitive → FloatTensorPrimitive → FloatTensorPrimitive;
  bin_backward_rhs : list FloatTensorPrimitive → FloatTensorPrimitive → FloatTensorPrimitive
}.

Definition run_binary (C : CheckpointStrategy) (op : BinaryOp) (lhs rhs : AutodiffTensor) :
    M Forward False AutodiffTensor :=
  let lhs_tracked := is_tracked lhs in
  let rhs_tracked := is_tracked rhs in
  let! p := lift (prepare_op C [lhs; rhs]
    ((λ rf, rf (node_id (node lhs)) (node_id (node rhs))) <$> bin_bound op)) in
  let output := bin_forward op (primitive lhs) (primitive rhs) in
  if tracked p then
    let '(p, ids) := checkpoint_all p
      ((if bin_saves_lhs op lhs_tracked rhs_tracked then [lhs] else []) ++
       (if bin_saves_rhs op lhs_tracked rhs_tracked then [rhs] else [])) in
    finish_tracked p (BackwardBinary ids (bin_backward_lhs op) (bin_backward_rhs op)) false output
  else finish_untracked p output.
End ops.
