(* ===== verification/AutodiffInv.v ===== *)
(** * Automatic differentiation: the invariant of a graph

    What the server of a graph knows about the tensors made so far.  [hist] is the
    history of the forward pass, the last form of every tensor by identifier; the
    steps, the checkpointing actions and the memory of the server agree with it, and
    every operation not yet consumed is below a leaf of the memory. *)

From S2P Require Import Prelude AutodiffGraph AutodiffCheckpoint AutodiffCounts AutodiffMemory AutodiffMemoryProps AutodiffServer AutodiffAdjoint.
Open Scope nat_scope.

Section inv.
Context {P : Profile} {H : HashOrder} {B : Backend}.
Abbreviation History := (gmap NodeId AutodiffTensor).
Implicit Types (hist : History) (t : AutodiffTensor) (s : AutodiffServer).

(** ** The history *)

(** Replaying [rf] on the tensors of the history gives [v]. *)
Definition replayed hist (rf : RetroForward) (v : FloatTensorPrimitive) : Prop :=
  match rf with
  | RetroUnaryScalar l r f => ∃ a, hist !! l = Some a ∧ v = f (primitive a) r
  | RetroUnary i f => ∃ a, hist !! i = Some a ∧ v = f (primitive a)
  | RetroBinary l r f => ∃ a b, hist !! l = Some a ∧ hist !! r = Some b ∧ v = f (primitive a) (primitive b)
  end.

Definition parent_wf hist (n : Node) (p : Parent) : Prop :=
  ∃ pt, hist !! parent_id p = Some pt ∧ is_tracked pt = true ∧
    is_leaf p = (node_order (node pt) =? 0)%N ∧ (node_order (node pt) < node_order n)%N ∧
    (parent_id p < node_id n)%N.

Record tensor_wf hist t : Prop := {
  tw_parents : Forall (parent_wf hist (node t)) (node_parents (node t));
  tw_untracked : is_tracked t = false → node_parents (node t) = [];
  tw_bound rf : properties (node t) = MemoryBound rf →
    is_tracked t = true ∧ inputs rf = parent_id <$> node_parents (node t) ∧ replayed hist rf (primitive t)
}.
Definition history_ok hist (next : N) : Prop :=
  ∀ id t, hist !! id = Some t → node_id (node t) = id ∧ (id < next)%N ∧ tensor_wf hist t.

(** [t'] is [t], or [t] once it is required to have a gradient. *)
Definition becomes t t' : Prop :=
  primitive t' = primitive t ∧ properties (node t') = properties (node t) ∧ node_id (node t') = node_id (node t) ∧
  node_parents (node t') = node_parents (node t) ∧
  (is_tracked t = true → node_order (node t') = node_order (node t) ∧ requirement (node t') = requirement (node t)) ∧
  (is_tracked t = false → is_tracked t' = true → node_order (node t') = 0%N ∧ requirement (node t') = Grad).
Definition extends hist hist' : Prop := ∀ id t, hist !! id = Some t → ∃ t', hist' !! id = Some t' ∧ becomes t t'.

Lemma becomes_refl t : becomes t t.
Proof. unfold becomes. split_and!; try done. by intros ->. Qed.
Lemma becomes_tracked t t' : becomes t t' → is_tracked t = true → is_tracked t' = true.
Proof. unfold is_tracked. intros (_ & _ & _ & _ & Ht & _) Htr. by destruct (Ht Htr) as [_ ->]. Qed.
Lemma becomes_trans t t' t'' : becomes t t' → becomes t' t'' → becomes t t''.
Proof.
  intros H1 H2. pose proof (becomes_tracked _ _ H1) as Htr.
  destruct H1 as (? & ? & ? & ? & Ht & Hu), H2 as (? & ? & ? & ? & Ht' & Hu'). unfold becomes. split_and!; try congruence.
  - intros Hb. destruct (Ht Hb), (Ht' (Htr Hb)). split; congruence.
  - intros Hb Hb'. destruct (is_tracked t') eqn:Hm; [|by apply Hu'].
    destruct (Hu Hb eq_refl), (Ht' eq_refl). split; congruence.
Qed.
Lemma becomes_action t t' : becomes t t' → action_of t' = action_of t.
Proof. intros (Hp & Hpr & Hid & _). unfold action_of. by rewrite Hp, Hpr, Hid. Qed.
Lemma act_id_of t : act_id (action_of t) = node_id (node t).
Proof. unfold action_of. by destruct (properties (node t)). Qed.

Lemma parent_wf_extends hist hist' n p : extends hist hist' → parent_wf hist n p → parent_wf hist' n p.
Proof.
  intros He (pt & Hp & Ht & Hl & Ho & Hi). destruct (He _ _ Hp) as (pt' & Hp' & Hb). exists pt'.
  pose proof (becomes_tracked _ _ Hb Ht) as Ht'. destruct Hb as (_ & _ & _ & _ & Hb & _). destruct (Hb Ht) as [Ho' _]. by rewrite Ho'.
Qed.
Lemma replayed_extends hist hist' rf v : extends hist hist' → replayed hist rf v → replayed hist' rf v.
Proof.
  intros He. destruct rf as [l r f|i f|l r f]; simpl.
  - intros (a & Ha & ->). destruct (He _ _ Ha) as (a' & Ha' & <- & _). eauto.
  - intros (a & Ha & ->). destruct (He _ _ Ha) as (a' & Ha' & <- & _). eauto.
  - intros (a & b & Ha & Hb & ->). destruct (He _ _ Ha) as (a' & Ha' & <- & _), (He _ _ Hb) as (b' & Hb' & <- & _). eauto 6.
Qed.
Lemma tensor_wf_extends hist hist' t : extends hist hist' → tensor_wf hist t → tensor_wf hist' t.
Proof.
  intros He [Hp Hu Hb]. split; [|done|].
  - eapply Forall_impl; [done|]. intros p. by apply parent_wf_extends.
  - intros rf Hrf. destruct (Hb rf Hrf) as (? & ? & ?). split_and!; [done|done|by eapply replayed_extends].
Qed.

(** ** The server *)

(** A step of the history's tensor [t]. *)
Definition step_of t (st : StepBoxed) : Prop :=
  step_id st = node_id (node t) ∧ item_parents st = node_parents (node t) ∧ depth st = node_order (node t) ∧ step_wf st.

(** The actions kept with a step: those its backward asks for, and, when its tensor can
    be recomputed, what that takes. *)
Record builder_for hist t (st : StepBoxed) (b : CheckpointerBuilder) : Prop := {
  bf_explicit : act_id <$> explicit_actions b = step_needs st;
  bf_action a : a ∈ actions b → ∃ m, hist !! act_id a = Some m ∧ a = action_of m ∧
    ((∃ rf, properties (node m) = MemoryBound rf) → act_id a ∈ parent_ids st);
  bf_bound rf : properties (node t) = MemoryBound rf → inputs rf ⊆ act_id <$> actions b
}.

Record server_ok hist s : Prop := {
  sv_step id st : steps s !! id = Some st → ∃ t b,
    hist !! id = Some t ∧ step_of t st ∧ actions_builder s !! id = Some b ∧ builder_for hist t st b;
  sv_nodes id : is_Some (steps s !! id) → is_Some (nodes (memory_management s) !! id);
  sv_node id ps : nodes (memory_management s) !! id = Some ps → ∃ t, hist !! id = Some t ∧ node_parents (node t) = ps;
  sv_statuses : statuses (memory_management s) = ∅;
  sv_reach id t : is_Some (steps s !! id) → hist !! id = Some t → node_order (node t) ≠ 0%N →
    leaf_reach (nodes (memory_management s)) (leaves (memory_management s)) id;
  sv_closed c ps p : nodes (memory_management s) !! c = Some ps → p ∈ ps → is_leaf p = false →
    is_Some (steps s !! parent_id p) → is_Some (steps s !! c)
}.

Lemma builder_for_extends hist hist' t t' st b :
  extends hist hist' → becomes t t' → builder_for hist t st b → builder_for hist' t' st b.
Proof.
  intros He Ht [Hx Ha Hb]. split; [done| |].
  - intros a Hin. destruct (Ha a Hin) as (m & Hm & -> & Hp). destruct (He _ _ Hm) as (m' & Hm' & Hbm).
    exists m'. split; [done|]. split; [by rewrite (becomes_action m m')|]. destruct Hbm as (_ & -> & _). done.
  - intros rf. destruct Ht as (_ & -> & _). apply Hb.
Qed.

(** The memory of the server is an acyclic graph: parents are older. *)
Lemma server_acyclic hist next s :
  history_ok hist next → server_ok hist s → acyclic (nodes (memory_management s)) (λ id, id).
Proof.
  intros Hh Hs n ps p Hn Hp. destruct (sv_node _ _ Hs n ps Hn) as (t & Ht & <-).
  destruct (Hh n t Ht) as (Hid & _ & [Hpw _ _]). rewrite Forall_forall in Hpw.
  destruct (Hpw p Hp) as (_ & _ & _ & _ & _ & Hlt). by rewrite Hid in Hlt.
Qed.

(** ** Registering a step *)

Lemma foldl_difference (ps : list Parent) (X : gset NodeId) n :
  n ∈ foldl (λ leaves parent, leaves ∖ {[parent_id parent]}) X ps ↔ n ∈ X ∧ n ∉ parent_id <$> ps.
Proof.
  revert X. induction ps as [|p ps IH]; intros X; cbn [foldl].
  - set_solver.
  - rewrite IH, fmap_cons, not_elem_of_cons, elem_of_difference, elem_of_singleton. tauto.
Qed.

(** An edge of the memory stays when a node is added or registered again with the
    same parents. *)
Lemma edge_insert ns id ps a b :
  (∀ qs, ns !! id = Some qs → qs = ps) → edge ns a b → edge (<[id := ps]> ns) a b.
Proof.
  intros Hsame (qs & q & Ha & Hq & <- & Hf)%edge_spec. apply edge_spec. destruct (decide (a = id)) as [->|Hai].
  - exists ps, q. rewrite lookup_insert_eq, <-(Hsame _ Ha). split_and!; [done|done|done|].
    destruct Hf as [|Hs]; [by left|right]. destruct (decide (parent_id q = id)) as [->|]; [by rewrite lookup_insert_eq|].
    by rewrite lookup_insert_ne.
  - exists qs, q. rewrite lookup_insert_ne by done. split_and!; [done|done|done|].
    destruct Hf as [|Hs]; [by left|right]. destruct (decide (parent_id q = id)) as [->|]; [by rewrite lookup_insert_eq|].
    by rewrite lookup_insert_ne.
Qed.
Lemma reach_insert ns id ps a b :
  (∀ qs, ns !! id = Some qs → qs = ps) → reach ns a b → reach (<[id := ps]> ns) a b.
Proof.
  intros Hsame Hr. induction Hr as [|a b c Hab _ IH]; [apply rtc_refl|].
  eapply rtc_l; [by apply edge_insert|done].
Qed.

(** A leaf that the new node takes as a parent is below it. *)
Lemma leaf_reach_register mm id ps n :
  (∀ qs, nodes mm !! id = Some qs → qs = ps) → is_Some (nodes mm !! n) →
  leaf_reach (nodes mm) (leaves mm) n →
  leaf_reach (nodes (memory_register mm id ps)) (leaves (memory_register mm id ps)) n.
Proof.
  intros Hsame Hn (l & Hl & Hr). simpl. pose proof (reach_insert _ id ps _ _ Hsame Hr) as Hr'.
  destruct (decide (l ∈ parent_id <$> ps)) as [Hp|Hp].
  2: { exists l. split; [|done]. apply elem_of_union_r, foldl_difference. done. }
  exists id. split; [set_solver|]. eapply rtc_l; [|done]. apply edge_spec.
  apply list_elem_of_fmap in Hp as (p & -> & Hp). exists ps, p. rewrite lookup_insert_eq. split_and!; [done|done|done|].
  right. assert (is_Some (nodes mm !! parent_id p)) as Hs.
  { inversion Hr as [|? m ? He _]; subst; [done|]. by apply edge_present in He. }
  destruct (decide (parent_id p = id)) as [->|]; [by rewrite lookup_insert_eq|by rewrite lookup_insert_ne].
Qed.

Lemma server_register_ok hist next s t b st :
  history_ok hist next → server_ok hist s → hist !! node_id (node t) = Some t → step_of t st → builder_for hist t st b →
  (∀ ps, nodes (memory_management s) !! node_id (node t) = Some ps → ps = node_parents (node t)) →
  (∀ c ps p, nodes (memory_management s) !! c = Some ps → p ∈ ps → parent_id p = node_id (node t) → is_leaf p = true) →
  server_ok hist (server_register s (node_id (node t)) st b).
Proof.
  intros Hh Hs Ht Hst Hb Hsame Hnew. pose proof Hst as (Hid & Hps & Hdepth & Hwf).
  set (id := node_id (node t)) in *. split; simpl; rewrite ?Hps.
  - intros n st' [[<- <-]|[Hne Hn]]%lookup_insert_Some.
    + exists t, b. rewrite lookup_insert_eq. done.
    + destruct (sv_step _ _ Hs n st' Hn) as (t' & b' & ? & ? & ? & ?). exists t', b'. by rewrite lookup_insert_ne.
  - intros n. destruct (decide (n = id)) as [->|]; [by rewrite !lookup_insert_eq|].
    rewrite !lookup_insert_ne by done. apply (sv_nodes _ _ Hs).
  - intros n ps [[<- <-]|[Hne Hn]]%lookup_insert_Some; [by exists t|by apply (sv_node _ _ Hs)].
  - apply (sv_statuses _ _ Hs).
  - intros n tn Hn Htn Ho. destruct (decide (n = id)) as [->|Hne].
    { exists id. split; [set_solver|apply rtc_refl]. }
    rewrite lookup_insert_ne in Hn by done. apply leaf_reach_register; [done|by apply (sv_nodes _ _ Hs)|].
    by eapply sv_reach.
  - intros c ps p Hc Hp Hl Hpp. destruct (decide (c = id)) as [->|Hci]; [by rewrite lookup_insert_eq|].
    rewrite lookup_insert_ne in Hc by done. rewrite lookup_insert_ne by done.
    destruct (decide (parent_id p = id)) as [Hpi|Hpi].
    + rewrite (Hnew c ps p Hc Hp Hpi) in Hl. done.
    + rewrite lookup_insert_ne in Hpp by done. by eapply sv_closed.
Qed.
End inv.
