(* ===== verification/AutodiffForward.v ===== *)
(** * Automatic differentiation: the forward pass keeps the invariant

    Making a tensor, requiring its gradient and running an operation keep the
    invariant of [AutodiffInv], for every lawful checkpointing strategy; the two
    strategies of the crate are lawful. *)

From S2P Require Import Prelude AutodiffGraph AutodiffCheckpoint AutodiffCounts AutodiffMemory AutodiffMemoryProps AutodiffServer AutodiffAdjoint AutodiffOps AutodiffInv.
Open Scope nat_scope.

Section forward.
Context {P : Profile} {H : HashOrder} {B : Backend}.
Abbreviation History := (gmap NodeId AutodiffTensor).
Implicit Types (hist : History) (t : AutodiffTensor) (s : AutodiffServer) (f : Forward).

(** ** Lawful strategies *)

(** A strategy keeps the retro-forward it is given or none, only backs up tracked
    parents, and backs up all of them, all tracked, when it keeps a retro-forward. *)
Class LawfulStrategy (C : CheckpointStrategy) : Prop := {
  law_property rf : @strategy_property _ C rf = ComputeBound ∨ @strategy_property _ C rf = Ambiguous ∨
    @strategy_property _ C rf = MemoryBound rf;
  law_parents ts r b : @strategy_parents _ C ts builder_default = (r, b) →
    explicit_actions b = [] ∧
    Forall (λ a, ∃ t, t ∈ ts ∧ is_tracked t = true ∧ a = action_of t) (backup_actions b) ∧
    (∀ rf, r = Ok tt → @strategy_property _ C rf = MemoryBound rf →
       Forall (λ t, is_tracked t = true ∧ action_of t ∈ backup_actions b) ts)
}.

#[export] Instance no_checkpointing_lawful : LawfulStrategy NoCheckpointing.
Proof. split; [by left|]. intros ts r b [= <- <-]. split_and!; [done|done|]. intros rf _ Hrf. discriminate Hrf. Qed.

Lemma balanced_loop_spec ts ok b :
  let '(ok', b') := balanced_loop ts ok b in
  explicit_actions b' = explicit_actions b ∧
  backup_actions b' = backup_actions b ++ (action_of <$> filter (λ t, is_tracked t = true) ts) ∧
  ok' = ok && forallb is_tracked ts.
Proof.
  revert ok b. induction ts as [|t ts IH]; intros ok b; cbn [balanced_loop].
  { by rewrite app_nil_r, andb_true_r. }
  rewrite filter_cons. cbn [forallb].
  assert (match requirement (node t) with
          | NoGrad => balanced_loop ts false b
          | _ => balanced_loop ts ok (checkpoint t Backup b)
          end = if is_tracked t then balanced_loop ts ok (checkpoint t Backup b) else balanced_loop ts false b) as ->.
  { unfold is_tracked. by destruct (requirement (node t)). }
  destruct (is_tracked t).
  - specialize (IH ok (checkpoint t Backup b)). destruct (balanced_loop ts ok _) as [ok' b'].
    destruct IH as (-> & -> & ->). simpl. by rewrite <-(assoc_L (++)).
  - specialize (IH false b). destruct (balanced_loop ts false b) as [ok' b']. destruct IH as (-> & -> & ->).
    by rewrite andb_false_r.
Qed.
#[export] Instance balanced_lawful : LawfulStrategy BalancedCheckpointing.
Proof.
  split; [by right; right|]. intros ts r b. simpl. unfold balanced_parents.
  pose proof (balanced_loop_spec ts true builder_default) as Hl. destruct (balanced_loop ts true _) as [ok b'].
  destruct Hl as (Hx & Hb & ->). simpl in *. destruct (forallb is_tracked ts) eqn:Hall; intros [= <- <-].
  - split_and!; [done| |].
    + rewrite Hb. apply Forall_fmap, Forall_forall. intros t [Ht Hin]%list_elem_of_filter. simpl. eauto.
    + intros _ _ _. rewrite forallb_forall in Hall. apply Forall_forall. intros t Ht.
      assert (is_tracked t = true) as Htr by by apply Hall, list_elem_of_In.
      split; [done|]. rewrite Hb. apply list_elem_of_fmap_2, list_elem_of_filter. done.
  - split_and!; [done|done|]. done.
Qed.

(** ** The requirement of an output *)

Lemma infer_none r o : infer r o = if is_none r && is_none o then NoGrad else GradInBackward.
Proof. done. Qed.
Lemma infer_fold (ns : list Node) r :
  ns ≠ [] → foldl (λ acc m, infer (requirement m) acc) r ns =
    if is_none r && forallb (λ n, is_none (requirement n)) ns then NoGrad else GradInBackward.
Proof.
  revert r. induction ns as [|n ns IH]; [done|]. intros r _. cbn [foldl forallb].
  destruct ns as [|m ns].
  - simpl. rewrite infer_none, andb_true_r. by destruct (is_none _), (is_none _).
  - rewrite IH by done. rewrite infer_none. destruct (is_none (requirement n)), (is_none r); simpl; done.
Qed.
Lemma from_nodes_spec (ns : list Node) :
  from_nodes ns = if forallb (λ n, is_none (requirement n)) ns then NoGrad else GradInBackward.
Proof.
  destruct ns as [|n [|m ns]]; [done| |].
  - unfold from_nodes. rewrite infer_none. by simpl.
  - unfold from_nodes. rewrite infer_fold by done. done.
Qed.

(** ** Tensors held *)

(** A tensor that a caller may hold: a form the history's tensor has had. *)
Definition valid hist t : Prop :=
  ∃ t0, hist !! node_id (node t) = Some t0 ∧ becomes t t0 ∧
    (is_tracked t = false → ∀ rf, properties (node t) ≠ MemoryBound rf) ∧
    (is_tracked t = true → autodiff_enabled (node t) = true).
Definition forward_ok hist f : Prop := history_ok hist (next_id f) ∧ server_ok hist (server f).

Lemma valid_extends hist hist' t : extends hist hist' → valid hist t → valid hist' t.
Proof.
  intros He (t0 & Ht0 & Hb & Hu). destruct (He _ _ Ht0) as (t1 & Ht1 & Hb1). exists t1.
  split; [done|]. split; [by eapply becomes_trans|done].
Qed.
Lemma extends_refl hist : extends hist hist.
Proof. intros id t Ht. exists t. split; [done|apply becomes_refl]. Qed.
Lemma extends_fresh hist id t : hist !! id = None → extends hist (<[id := t]> hist).
Proof.
  intros Hf m tm Hm. exists tm. rewrite lookup_insert_ne by congruence. split; [done|apply becomes_refl].
Qed.
Lemma history_fresh hist next : history_ok hist next → hist !! next = None.
Proof. intros Hh. destruct (hist !! next) as [t|] eqn:Ht; [|done]. destruct (Hh _ _ Ht) as (_ & ? & _). lia. Qed.

(** The server keeps its invariant when the history grows, except at the tensors that
    change. *)
Lemma server_ok_extends hist hist' s :
  extends hist hist' → (∀ id, is_Some (steps s !! id) → hist' !! id = hist !! id) →
  server_ok hist s → server_ok hist' s.
Proof.
  intros He Hst [H1 H2 H3 H4 H5 H6]. split; [|done| |done| |done].
  - intros id st Hid. destruct (H1 id st Hid) as (t & b & Ht & Hs & Hb & Hf). exists t, b.
    rewrite Hst by eauto. split_and!; [done|done|done|]. eapply builder_for_extends; [done|apply becomes_refl|done].
  - intros id ps Hid. destruct (H3 id ps Hid) as (t & Ht & <-). destruct (He _ _ Ht) as (t' & Ht' & _ & _ & _ & Hp & _). eauto.
  - intros id t Hid Ht. rewrite Hst in Ht by done. by apply H5.
Qed.

(** ** A new tensor *)

Lemma history_insert hist next t :
  history_ok hist next → node_id (node t) = next → tensor_wf hist t → history_ok (<[next := t]> hist) (next + 1).
Proof.
  intros Hh Hid Hwf. pose proof (extends_fresh hist next t (history_fresh _ _ Hh)) as He.
  intros id t' [[<- <-]|[Hne Hid']]%lookup_insert_Some.
  - split_and!; [done|lia|by eapply tensor_wf_extends].
  - destruct (Hh id t' Hid') as (? & ? & ?). split_and!; [done|lia|by eapply tensor_wf_extends].
Qed.
Lemma forward_insert hist f t :
  forward_ok hist f → node_id (node t) = next_id f → tensor_wf hist t →
  forward_ok (<[next_id f := t]> hist) (mkForward (next_id f + 1) (server f)) ∧ extends hist (<[next_id f := t]> hist).
Proof.
  intros [Hh Hs] Hid Hwf. pose proof (history_fresh _ _ Hh) as Hf. pose proof (extends_fresh hist _ t Hf) as He.
  split; [|done]. split; [by apply history_insert|]. eapply server_ok_extends; [done| |done].
  intros id [st Hst]. destruct (sv_step _ _ Hs id st Hst) as (t' & _ & Ht' & _). rewrite lookup_insert_ne; [done|]. congruence.
Qed.

Lemma new_id_ok f : (next_id f < u64_max)%N → new_id f = (Ok (next_id f), mkForward (next_id f + 1) (server f)).
Proof.
  intros Hlt. unfold new_id, bind, gets, NodeId_new, modify, lift. rewrite (proj2 (N.eqb_neq _ _)) by lia.
  rewrite N.mod_small by (unfold u64_max in *; lia). done.
Qed.
Lemma new_id_panics f : next_id f = u64_max → fst (new_id f) = Panic.
Proof. intros Heq. unfold new_id, bind, gets, NodeId_new, modify, lift. rewrite Heq. done. Qed.

(** A fresh tensor without parents, tracked or not. *)
Lemma leaf_tensor_ok hist f t :
  forward_ok hist f → node_id (node t) = next_id f → node_parents (node t) = [] →
  (∀ rf, properties (node t) ≠ MemoryBound rf) → is_tracked t = false →
  let hist' := <[next_id f := t]> hist in
  forward_ok hist' (mkForward (next_id f + 1) (server f)) ∧ extends hist hist' ∧ valid hist' t.
Proof.
  intros Hf Hid Hp Hb Htr. destruct (forward_insert hist f t Hf Hid) as [Hf' He].
  { split; [by rewrite Hp|done|]. intros rf Hrf. by destruct (Hb rf). }
  split_and!; [done|done|]. exists t. rewrite Hid, lookup_insert_eq. split_and!; [done|apply becomes_refl|done|congruence].
Qed.

Lemma tensor_new_ok hist f p :
  forward_ok hist f → (next_id f < u64_max)%N →
  ∃ t hist' f', tensor_new p f = (Ok t, f') ∧ primitive t = p ∧ forward_ok hist' f' ∧ extends hist hist' ∧ valid hist' t.
Proof.
  intros Hf Hlt. unfold tensor_new, bind. rewrite new_id_ok by done.
  pose proof (leaf_tensor_ok hist f (mkTensor p (Node_new [] 0 (next_id f) NoGrad Ambiguous)) Hf) as Hl.
  eexists _, _, _. split; [reflexivity|]. split; [done|]. apply Hl; done.
Qed.

(** ** Requiring a gradient *)

(** Forgetting the step of a tensor without parents. *)
Definition drop_step s (id : NodeId) : AutodiffServer :=
  mkServer (delete id (steps s)) (delete id (actions_builder s)) (memory_management s).
Lemma server_ok_drop hist s id :
  server_ok hist s → (∀ ps, nodes (memory_management s) !! id = Some ps → ps = []) → server_ok hist (drop_step s id).
Proof.
  intros [H1 H2 H3 H4 H5 H6] Hno. split; simpl; [| |done|done| |].
  - intros n st [Hne Hn]%lookup_delete_Some. destruct (H1 n st Hn) as (t & b & ? & ? & ? & ?). exists t, b.
    by rewrite lookup_delete_ne.
  - intros n [st [_ Hn]%lookup_delete_Some]. apply H2. eauto.
  - intros n t [st [_ Hn]%lookup_delete_Some]. apply H5. eauto.
  - intros c ps p Hc Hp Hl [st [Hne Hn]%lookup_delete_Some]. destruct (decide (c = id)) as [->|Hci].
    + rewrite (Hno ps Hc) in Hp. by apply elem_of_nil in Hp.
    + rewrite lookup_delete_ne by done. eapply H6; eauto.
Qed.

Lemma require_grad_ok hist f t :
  forward_ok hist f → valid hist t → autodiff_enabled (node t) = true → requirement (node t) ≠ GradInBackward →
  ∃ t' hist' f', require_grad t f = (Ok t', f') ∧ primitive t' = primitive t ∧ requirement (node t') = Grad ∧
    next_id f' = next_id f ∧ forward_ok hist' f' ∧ extends hist hist' ∧ valid hist' t'.
Proof.
  intros Hf Hv He Hr. unfold require_grad. rewrite He. cbn [negb]. destruct (requirement (node t)) eqn:Hreq; [|done|].
  { exists t, hist, f. split_and!; [done|done|done|done|done|apply extends_refl|done]. }
  destruct Hf as [Hh Hs]. destruct Hv as (t0 & Ht0 & Hb & Hu & _).
  assert (is_tracked t = false) as Htr by (unfold is_tracked; by rewrite Hreq).
  pose proof Hb as (Hprim & Hprop & Hid & Hpar & _ & Hb').
  destruct (Hh _ _ Ht0) as (Hid0 & Hlt & Hwf0).
  assert (node_parents (node t0) = []) as Hnp.
  { destruct (is_tracked t0) eqn:Ht0'; [|by apply (tw_untracked _ _ Hwf0)].
    pose proof (Hb' Htr eq_refl) as [Ho _]. destruct Hwf0 as [Hp _ _].
    destruct (node_parents (node t0)) as [|p ps]; [done|]. apply Forall_cons in Hp as [(pt & _ & _ & _ & Hlt' & _) _]. lia. }
  set (n := with_checkpointing (checkpointing (node t)) (Node_new [] 0 (node_id (node t)) Grad (properties (node t)))).
  set (t' := mkTensor (primitive t) n). set (hist' := <[node_id (node t) := t']> hist).
  assert (becomes t0 t') as Hbt.
  { unfold becomes. simpl. split_and!; [congruence..| |].
    - intros Ht0'. by destruct (Hb' Htr Ht0') as [-> ->].
    - done. }
  assert (extends hist hist') as Hext.
  { intros id tx Hx. unfold hist'. destruct (decide (id = node_id (node t))) as [->|Hne].
    - rewrite lookup_insert_eq. simplify_eq. eauto.
    - rewrite lookup_insert_ne by done. exists tx. split; [done|apply becomes_refl]. }
  assert (tensor_wf hist' t') as Hwf'.
  { split; [by apply Forall_nil|done|]. intros rf Hrf. by destruct (Hu Htr rf). }
  assert (history_ok hist' (next_id f)) as Hh'.
  { intros id tx [[<- <-]|[Hne Hx]]%lookup_insert_Some; [split_and!; [done|done|done]|].
    destruct (Hh id tx Hx) as (? & ? & ?). split_and!; [done|done|by eapply tensor_wf_extends]. }
  assert (∀ ps, nodes (memory_management (server f)) !! node_id (node t) = Some ps → ps = []) as Hno.
  { intros ps Hps. destruct (sv_node _ _ Hs _ _ Hps) as (tx & Hx & <-). by simplify_eq. }
  assert (server_ok hist' (drop_step (server f) (node_id (node t)))) as Hs'.
  { eapply server_ok_extends; [done| |by apply server_ok_drop].
    intros id [st Hst]. simpl in Hst. apply lookup_delete_Some in Hst as [Hne _]. unfold hist'. by rewrite lookup_insert_ne. }
  exists t', hist', (mkForward (next_id f) (server_register (server f) (node_id (node t)) (mkStep n RootStep) builder_default)).
  split_and!; [done|done|done|done| |done|].
  - split; [done|]. simpl.
    replace (server_register (server f) (node_id (node t)) (mkStep n RootStep) builder_default)
      with (server_register (drop_step (server f) (node_id (node t))) (node_id (node t')) (mkStep n RootStep) builder_default).
    2: { unfold server_register. simpl. by rewrite !insert_delete_eq. }
    eapply server_register_ok; [done|done|apply lookup_insert_eq|done| |done|].
    + split; [done|by intros a ?%elem_of_nil|]. intros rf Hrf. by destruct (Hu Htr rf).
    + intros c ps p Hc Hp Hpid. destruct (sv_node _ _ Hs' c ps Hc) as (tc & Htc & <-).
      destruct (Hh' c tc Htc) as (_ & _ & [Hpw _ _]). rewrite Forall_forall in Hpw.
      destruct (Hpw p Hp) as (pt & Hpt & _ & -> & _). rewrite Hpid in Hpt. unfold hist' in Hpt.
      rewrite lookup_insert_eq in Hpt. by simplify_eq.
  - exists t'. split; [apply lookup_insert_eq|]. split_and!; [apply becomes_refl|done|done].
Qed.
End forward.
