(* ===== verification/AutodiffRun.v ===== *)
(** * Automatic differentiation: running an operation keeps the invariant

    The preparation of an operation, its checkpoints and its registration, for
    operations whose retro-forward replays their own forward function. *)

From S2P Require Import Prelude AutodiffGraph AutodiffCheckpoint AutodiffCounts AutodiffMemory AutodiffMemoryProps AutodiffServer AutodiffAdjoint AutodiffOps AutodiffInv AutodiffForward.
Open Scope nat_scope.

Section run.
Context {P : Profile} {H : HashOrder} {B : Backend}.
Context (C : CheckpointStrategy) {HC : LawfulStrategy C}.
Abbreviation History := (gmap NodeId AutodiffTensor).
Implicit Types (hist : History) (t : AutodiffTensor) (ts : list AutodiffTensor) (f : Forward).

(** ** Preparation *)

Lemma strategy_of_lawful p D : strategy_of C p = Ok D → LawfulStrategy D.
Proof.
  destruct p as [| |name]; simpl; [intros [= <-]; apply _|intros [= <-]; apply _|].
  destruct (decide _); [by intros [= <-]|done].
Qed.

(** What an operation is prepared with: backups of tracked inputs, and a retro-forward
    only when all inputs are tracked and backed up. *)
Record prepared ts (bound : option RetroForward) (p : OpsPrep) : Prop := {
  pd_nodes : prep_nodes p = node <$> ts;
  pd_requirement : prep_requirement p = from_nodes (node <$> ts);
  pd_explicit : explicit_actions (prep_builder p) = [];
  pd_backup : Forall (λ a, ∃ t, t ∈ ts ∧ is_tracked t = true ∧ a = action_of t) (backup_actions (prep_builder p));
  pd_bound rf : prep_property p = MemoryBound rf →
    bound = Some rf ∧ Forall (λ t, is_tracked t = true ∧ action_of t ∈ backup_actions (prep_builder p)) ts
}.
Lemma prepare_op_ok ts bound p : prepare_op C ts bound = Ok p → prepared ts bound p.
Proof.
  unfold prepare_op, prepare. destruct (merged_policy C (node <$> ts)) as [pol| |] eqn:Hpol; [|done|done]. cbn [res_bind].
  destruct bound as [rf|]; [|by intros [= <-]].
  unfold retro_forward, prep_parents, compute_property, checkpoint_parents. cbn [prep_nodes].
  rewrite Hpol. cbn [res_bind]. destruct (strategy_of C pol) as [D| |] eqn:HD; [|done|done]. cbn [res_bind prep_nodes].
  rewrite Hpol. cbn [res_bind prep_builder]. pose proof (strategy_of_lawful pol D HD) as Hlaw. rewrite HD. cbn [res_bind].
  destruct (@strategy_parents _ D ts builder_default) as [r b] eqn:Hpar. cbn [res_bind]. intros [= <-].
  destruct (law_parents ts r b Hpar) as (Hx & Hb & Hall). split; simpl; [done|done|done|done|].
  intros rf' Hrf'. destruct r as [[]| |]; [|done|done].
  destruct (law_property (C:=D) rf) as [Hp|[Hp|Hp]]; rewrite Hp in Hrf'; [done|done|]. simplify_eq. eauto.
Qed.

Lemma checkpoint_all_ok p ts :
  let '(p', ids) := checkpoint_all p ts in
  prep_nodes p' = prep_nodes p ∧ prep_requirement p' = prep_requirement p ∧ prep_property p' = prep_property p ∧
  explicit_actions (prep_builder p') = explicit_actions (prep_builder p) ++ (action_of <$> ts) ∧
  backup_actions (prep_builder p') = backup_actions (prep_builder p) ∧ ids = (λ t, node_id (node t)) <$> ts.
Proof.
  revert p. induction ts as [|t ts IH]; intros p; cbn [checkpoint_all].
  { split_and!; [done|done|done|by rewrite app_nil_r|done|done]. }
  unfold prep_checkpoint. specialize (IH (mkPrep (prep_nodes p) (prep_requirement p) (prep_property p) (checkpoint t Explicit (prep_builder p)))).
  destruct (checkpoint_all _ ts) as [p' ids]. destruct IH as (-> & -> & -> & -> & -> & ->). simpl.
  by rewrite <-(assoc_L (++)).
Qed.

(** ** The output *)

Lemma max_order_ge (ns : list Node) n : n ∈ ns → (node_order n ≤ max_order ns)%N.
Proof.
  unfold max_order. induction ns as [|m ns IH]; [by intros ?%elem_of_nil|]. cbn.
  intros [->|Hn]%elem_of_cons; [lia|]. specialize (IH Hn). lia.
Qed.
Lemma elem_of_tracked_parents ts p :
  p ∈ tracked_parents (node <$> ts) →
  ∃ t, t ∈ ts ∧ is_tracked t = true ∧ parent_id p = node_id (node t) ∧ is_leaf p = (node_order (node t) =? 0)%N.
Proof.
  unfold tracked_parents. rewrite list_elem_of_fmap. intros (n & -> & Hn). apply list_elem_of_omap in Hn as (m & Hm & Hc).
  apply list_elem_of_fmap in Hm as (t & -> & Ht). unfold clone_if_require_grad in Hc.
  exists t. unfold is_tracked. destruct (is_none (requirement (node t))); [done|]. by simplify_eq.
Qed.
Lemma clone_tracked t : clone_if_require_grad (node t) = if is_tracked t then Some (node t) else None.
Proof. unfold clone_if_require_grad, is_tracked. by destruct (is_none (requirement (node t))). Qed.
Lemma tracked_parent_ids ts :
  parent_id <$> tracked_parents (node <$> ts) = (λ t, node_id (node t)) <$> filter (λ t, is_tracked t = true) ts.
Proof.
  unfold tracked_parents. induction ts as [|t ts IH]; [done|]. rewrite filter_cons. cbn.
  rewrite clone_tracked. destruct (is_tracked t); [rewrite decide_True by done; cbn; f_equal|rewrite decide_False by done]; apply IH.
Qed.
Lemma all_untracked ts :
  forallb (λ n, is_none (requirement n)) (node <$> ts) = negb (existsb is_tracked ts).
Proof.
  induction ts as [|t ts IH]; [done|]. cbn. rewrite IH. unfold is_tracked at 2.
  by destruct (is_none (requirement (node t))).
Qed.
Lemma tracked_spec ts bound p : prepared ts bound p → tracked p = existsb is_tracked ts.
Proof.
  intros Hp. unfold tracked. rewrite (pd_requirement _ _ _ Hp), from_nodes_spec, all_untracked.
  by destruct (existsb is_tracked ts).
Qed.

(** The parents of an output are in the history, older and of lower order. *)
Lemma output_parents hist f ts n :
  history_ok hist (next_id f) → Forall (valid hist) ts → node_id n = next_id f →
  node_order n = (max_order (node <$> ts) + 1)%N →
  Forall (parent_wf hist n) (tracked_parents (node <$> ts)).
Proof.
  intros Hh Hv Hid Ho. apply Forall_forall. intros p Hp. rewrite Forall_forall in Hv.
  destruct (elem_of_tracked_parents ts p Hp) as (t & Ht & Htr & Hpid & Hleaf).
  destruct (Hv t Ht) as (t0 & Ht0 & Hb & _). pose proof (becomes_tracked _ _ Hb Htr).
  destruct Hb as (_ & _ & _ & _ & Hb & _). destruct (Hb Htr) as [Hord _].
  exists t0. rewrite Hpid, Hid, Ho, Hord, Hleaf. split_and!; [done|done|done| |].
  - pose proof (max_order_ge (node <$> ts) (node t) ltac:(by apply list_elem_of_fmap_2)). lia.
  - by destruct (Hh _ _ Ht0) as (_ & ? & _).
Qed.

(** Replaying on a history that has the inputs. *)
Lemma replayed_by hist (fwd : NodeId → FloatTensorPrimitive) rf :
  (∀ i, i ∈ inputs rf → ∃ t, hist !! i = Some t ∧ primitive t = fwd i) → replayed hist rf (replay fwd rf).
Proof.
  intros Hi. destruct rf as [l r g|i g|l r g]; simpl in *.
  - destruct (Hi l ltac:(by left)) as (t & Ht & <-). eauto.
  - destruct (Hi i ltac:(by left)) as (t & Ht & <-). eauto.
  - destruct (Hi l ltac:(by left)) as (t & Ht & <-), (Hi r ltac:(right; by left)) as (u & Hu & <-). eauto 6.
Qed.

(** [bound] replays [v] from the tensors [ts]. *)
Definition replays_on ts (v : FloatTensorPrimitive) (rf : RetroForward) : Prop :=
  inputs rf = (λ t, node_id (node t)) <$> ts ∧
  ∀ fwd, Forall (λ t, fwd (node_id (node t)) = primitive t) ts → replay fwd rf = v.

Lemma output_wf hist f ts bound p v n :
  history_ok hist (next_id f) → Forall (valid hist) ts → ts ≠ [] → prepared ts bound p →
  (∀ rf, bound = Some rf → replays_on ts v rf) →
  node_id n = next_id f → node_order n = (max_order (node <$> ts) + 1)%N →
  node_parents n = tracked_parents (node <$> ts) → requirement n = prep_requirement p → properties n = prep_property p →
  tensor_wf hist (mkTensor v n).
Proof.
  intros Hh Hv Hne Hp Hbound Hid Hord Hpar Hreq Hprop.
  assert (is_tracked (mkTensor v n) = existsb is_tracked ts) as Htr.
  { unfold is_tracked at 1. simpl. rewrite Hreq. apply (tracked_spec ts bound p Hp). }
  split; simpl; rewrite ?Hpar.
  - by eapply output_parents.
  - rewrite Htr. intros Hno. destruct (tracked_parents (node <$> ts)) as [|q qs] eqn:Hq; [done|].
    destruct (elem_of_tracked_parents ts q) as (t & Ht & Htt & _); [rewrite Hq; by left|].
    assert (existsb is_tracked ts = true); [|congruence]. apply existsb_exists. exists t. by rewrite <-list_elem_of_In.
  - intros rf. rewrite Hprop. intros Hrf. destruct (pd_bound _ _ _ Hp rf Hrf) as [Hbd Hall].
    destruct (Hbound rf Hbd) as [Hin Hre].
    assert (Forall (λ t, is_tracked t = true) ts) as Hat by (eapply Forall_impl; [done|]; simpl; by intros ? [? _]).
    split_and!.
    + rewrite Htr. destruct ts as [|t ts]; [done|]. apply Forall_cons in Hat as [Ht _]. simpl. by rewrite Ht.
    + by rewrite tracked_parent_ids, filter_all.
    + set (fwd := λ i, match hist !! i with Some t => primitive t | None => v end).
      assert (∀ t, t ∈ ts → ∃ t0, hist !! node_id (node t) = Some t0 ∧ primitive t0 = primitive t) as Hts.
      { intros t Ht. rewrite Forall_forall in Hv. destruct (Hv t Ht) as (t0 & Ht0 & (Hpr & _) & _). eauto. }
      rewrite <-(Hre fwd).
      * apply replayed_by. rewrite Hin. intros i (t & -> & Ht)%list_elem_of_fmap.
        destruct (Hts t Ht) as (t0 & Ht0 & _). exists t0. unfold fwd. by rewrite Ht0.
      * apply Forall_forall. intros t Ht. destruct (Hts t Ht) as (t0 & Ht0 & <-). unfold fwd. by rewrite Ht0.
Qed.

(** ** Registration *)

Lemma action_in_history hist t : valid hist t → ∃ m, hist !! act_id (action_of t) = Some m ∧ action_of t = action_of m.
Proof.
  intros (t0 & Ht0 & Hb & _). exists t0. rewrite act_id_of. split; [done|]. symmetry. by apply becomes_action.
Qed.

(** A fresh output with its step and its actions. *)
Lemma register_fresh hist f out st b :
  forward_ok hist f → node_id (node out) = next_id f → tensor_wf hist out → step_of out st →
  builder_for (<[next_id f := out]> hist) out st b → (is_tracked out = false → ∀ rf, properties (node out) ≠ MemoryBound rf) →
  autodiff_enabled (node out) = true →
  let hist' := <[next_id f := out]> hist in
  ∃ f', register_step out st b (mkForward (next_id f + 1) (server f)) = (Ok out, f') ∧ next_id f' = (next_id f + 1)%N ∧
    forward_ok hist' f' ∧ extends hist hist' ∧ valid hist' out.
Proof.
  intros Hf Hid Hwf Hst Hb Hu Hen hist'. destruct (forward_insert hist f out Hf Hid Hwf) as [[Hh Hs] He].
  unfold register_step. rewrite Hen. cbn [negb]. unfold bind, modify. eexists. split; [reflexivity|].
  split; [done|]. simpl. split_and!; [|done|].
  - split; [done|]. destruct Hf as [Hh0 Hs0]. pose proof (history_fresh _ _ Hh0) as Hfr. simpl in *. rewrite Hid.
    rewrite <-Hid at 1. eapply server_register_ok; [done|done|rewrite Hid; apply lookup_insert_eq|done|done| |].
    + rewrite Hid. intros ps Hps. destruct (sv_node _ _ Hs0 _ _ Hps) as (tx & Hx & _). congruence.
    + intros c ps q Hc Hq Hqid. destruct (sv_node _ _ Hs0 _ _ Hc) as (tc & Htc & <-).
      destruct (Hh0 c tc Htc) as (_ & _ & [Hpw _ _]). rewrite Forall_forall in Hpw.
      destruct (Hpw q Hq) as (pt & Hpt & _). rewrite Hqid, Hid in Hpt. congruence.
  - exists out. rewrite Hid. split; [apply lookup_insert_eq|]. split_and!; [apply becomes_refl|done|done].
Qed.

(** ** Finishing an operation *)

(** What an operation that returns leaves behind. *)
Definition op_result hist f (v : FloatTensorPrimitive) (r : res False AutodiffTensor * Forward) : Prop :=
  ∃ out hist' f', r = (Ok out, f') ∧ primitive out = v ∧ forward_ok hist' f' ∧ next_id f' = (next_id f + 1)%N ∧
    extends hist hist' ∧ valid hist' out.

Section finish.
Context hist f ts (bound : option RetroForward) (p : OpsPrep) (v : FloatTensorPrimitive) (Hf : forward_ok hist f) (Hid : (next_id f < u64_max)%N).
Context (Hv : Forall (valid hist) ts) (Hne : ts ≠ []) (Hp : prepared ts bound p).
Context (Hbound : ∀ rf, bound = Some rf → replays_on ts v rf).

Lemma tracked_exists : tracked p = true → ∃ t, t ∈ ts ∧ is_tracked t = true.
Proof. rewrite (tracked_spec _ _ _ Hp). rewrite existsb_exists. setoid_rewrite <-list_elem_of_In. done. Qed.

Definition output (enabled : bool) (chk : option GradientCheckpointingStrategy) : AutodiffTensor :=
  mkTensor v (mkNode (tracked_parents (node <$> ts)) (max_order (node <$> ts) + 1) (next_id f)
                (prep_requirement p) (prep_property p) chk enabled).

Lemma output_tensor_wf enabled chk : tensor_wf hist (output enabled chk).
Proof. destruct Hf as [Hh _]. by eapply output_wf. Qed.

(** [from_parents] makes [output], or a plain tensor when no input takes part in
    differentiation. *)
Lemma from_parents_ok :
  from_parents v (node <$> ts) (prep_requirement p) (prep_property p) f =
    if forallb (λ n, negb (autodiff_enabled n)) (node <$> ts) then tensor_plain v f
    else (Ok (output true (head (omap checkpointing (filter (λ n, autodiff_enabled n = true) (node <$> ts))))),
          mkForward (next_id f + 1) (server f)).
Proof.
  unfold from_parents. rewrite bool_decide_eq_false_2 by (by destruct ts). cbn [negb andb orb].
  destruct (forallb _ _) eqn:Hall; [done|]. unfold bind. rewrite new_id_ok by done.
  replace (existsb autodiff_enabled (node <$> ts)) with true; [done|]. symmetry.
  clear -Hall. induction (node <$> ts) as [|n ns IH]; [done|]. simpl in *. destruct (autodiff_enabled n); [done|by apply IH].
Qed.
Lemma tracked_enabled : tracked p = true → forallb (λ n, negb (autodiff_enabled n)) (node <$> ts) = false.
Proof.
  intros Ht. destruct (tracked_exists Ht) as (t & Hin & Htr). rewrite Forall_forall in Hv.
  destruct (Hv t Hin) as (_ & _ & _ & _ & Hen). specialize (Hen Htr). apply not_true_iff_false. intros Hall.
  rewrite forallb_forall in Hall. specialize (Hall (node t)). rewrite Hen in Hall. discriminate Hall.
  apply list_elem_of_In, list_elem_of_fmap_2. done.
Qed.

Lemma parents_cloned :
  node_id <$> omap id (clone_if_require_grad <$> (node <$> ts)) = parent_id <$> tracked_parents (node <$> ts).
Proof.
  rewrite tracked_parent_ids. clear. induction ts as [|t l IH]; [done|]. rewrite filter_cons. cbn. rewrite clone_tracked.
  destruct (is_tracked t); [rewrite decide_True by done; cbn; f_equal|rewrite decide_False by done]; apply IH.
Qed.

(** The actions of an operation come from its inputs. *)
Lemma inputs_action st hist' t a :
  extends hist hist' → t ∈ ts → a = action_of t → parent_ids st = parent_id <$> tracked_parents (node <$> ts) →
  ∃ m, hist' !! act_id a = Some m ∧ a = action_of m ∧
    ((∃ rf, properties (node m) = MemoryBound rf) → act_id a ∈ parent_ids st).
Proof.
  intros He Ht -> Hst. rewrite Forall_forall in Hv. pose proof (valid_extends _ _ _ He (Hv t Ht)) as (t0 & Ht0 & Hb & Hu & _).
  exists t0. rewrite act_id_of. split; [done|]. split; [symmetry; by apply becomes_action|]. intros (rf & Hrf).
  destruct Hb as (_ & Hprop & _). rewrite Hprop in Hrf. rewrite Hst, tracked_parent_ids.
  apply list_elem_of_fmap. exists t. split; [done|]. apply list_elem_of_filter. split; [|done]. destruct (is_tracked t) eqn:Htr; [done|]. by destruct (Hu eq_refl rf).
Qed.

Lemma finish_tracked_ok saved bw :
  tracked p = true → saved ⊆ ts → needs bw = (λ t, node_id (node t)) <$> saved →
  length ts = match bw with BackwardUnary _ _ => 1 | BackwardBinary _ _ _ => 2 end →
  op_result hist f v (finish_tracked (checkpoint_all p saved).1 bw false v f).
Proof.
  intros Htr Hsub Hneeds Hlen. pose proof (checkpoint_all_ok p saved) as Hc.
  destruct (checkpoint_all p saved) as [p' ids]. destruct Hc as (Hn & Hr & Hpr & Hx & Hbk & _). cbn [fst].
  unfold finish_tracked. rewrite Hn, Hr, Hpr, (pd_nodes _ _ _ Hp). unfold bind.
  rewrite from_parents_ok, tracked_enabled by done.
  set (out := output true _). set (st := mkStep (node out) (OpsStep _ bw false)).
  assert (prep_requirement p = GradInBackward) as Hreq.
  { rewrite (pd_requirement _ _ _ Hp), from_nodes_spec, all_untracked, <-(tracked_spec _ _ _ Hp), Htr. done. }
  assert (extends hist (<[next_id f := out]> hist)) as He.
  { apply extends_fresh. destruct Hf as [Hh _]. by eapply history_fresh. }
  destruct (register_fresh hist f out st (prep_builder p')) as (f' & Hreg & Hnext & Hf' & He' & Hv'); try done.
  - apply output_tensor_wf.
  - split_and!; [done|done|done|]. unfold step_wf. simpl. split_and!; [done|apply parents_cloned|by rewrite !length_fmap].
  - split.
    + rewrite Hx, (pd_explicit _ _ _ Hp). change (step_needs st) with (needs bw). rewrite Hneeds, app_nil_l, <-list_fmap_compose. apply list_fmap_ext.
      intros _ t _. apply act_id_of.
    + intros a [Ha|Ha]%elem_of_app.
      * rewrite Hx, (pd_explicit _ _ _ Hp) in Ha. simpl in Ha. apply list_elem_of_fmap in Ha as (t & -> & Ht).
        eapply inputs_action; [done|by apply Hsub|done|done].
      * rewrite Hbk in Ha. pose proof (pd_backup _ _ _ Hp) as Hb. rewrite Forall_forall in Hb.
        destruct (Hb a Ha) as (t & Ht & _ & Hat). by eapply inputs_action.
    + intros rf Hrf. destruct (pd_bound _ _ _ Hp rf Hrf) as [Hbd Hall]. destruct (Hbound rf Hbd) as [-> _].
      intros i (t & -> & Ht)%list_elem_of_fmap. rewrite Forall_forall in Hall. destruct (Hall t Ht) as [_ Hin].
      rewrite <-act_id_of. apply list_elem_of_fmap_2, elem_of_app. right. by rewrite Hbk.
  - intros Hu. unfold is_tracked in Hu. simpl in Hu. by rewrite Hreq in Hu.
  - exists out, (<[next_id f := out]> hist), f'. done.
Qed.

Lemma finish_untracked_ok : tracked p = false → op_result hist f v (finish_untracked p v f).
Proof.
  intros Htr. assert (prep_requirement p = NoGrad) as Hreq.
  { rewrite (pd_requirement _ _ _ Hp), from_nodes_spec, all_untracked, <-(tracked_spec _ _ _ Hp), Htr. done. }
  assert (∀ t, t ∈ ts → is_tracked t = false) as Hall.
  { intros t Ht. destruct (is_tracked t) eqn:Hx; [|done]. rewrite (tracked_spec _ _ _ Hp) in Htr.
    assert (existsb is_tracked ts = true); [|congruence]. apply existsb_exists. exists t. by rewrite <-list_elem_of_In. }
  assert (∀ rf, prep_property p ≠ MemoryBound rf) as Hnb.
  { intros rf Hrf. destruct (pd_bound _ _ _ Hp rf Hrf) as [_ Hb]. destruct ts as [|t l]; [done|].
    apply Forall_cons in Hb as [[Ht _] _]. rewrite (Hall t ltac:(by left)) in Ht. done. }
  assert (tracked_parents (node <$> ts) = []) as Hnp.
  { destruct (tracked_parents (node <$> ts)) as [|q qs] eqn:Hq; [done|].
    destruct (elem_of_tracked_parents ts q) as (t & Ht & Htt & _); [rewrite Hq; by left|]. by rewrite Hall in Htt. }
  assert (backup_actions (prep_builder p) = []) as Hnoback.
  { pose proof (pd_backup _ _ _ Hp) as Hb. destruct (backup_actions (prep_builder p)) as [|a l]; [done|].
    apply Forall_cons in Hb as [(t & Ht & Htt & _) _]. by rewrite Hall in Htt. }
  unfold finish_untracked, bind. rewrite (pd_nodes _ _ _ Hp), from_parents_ok. destruct (forallb _ _) eqn:Hdis.
  - unfold tensor_plain, tensor_new, bind. rewrite new_id_ok by done.
    pose proof (leaf_tensor_ok hist f (mkTensor v (disable (Node_new [] 0 (next_id f) NoGrad Ambiguous))) Hf) as Hl.
    eexists _, _, _. split; [reflexivity|]. split; [done|].
    destruct Hl as (? & ? & ?); try done.
  - cbn [autodiff_enabled node output negb]. set (out := output true _).
    destruct (register_fresh hist f out (mkStep (node out) UntrackedOpsStep) (prep_builder p)) as (f' & Hreg & Hnext & Hf' & He' & Hv'); try done.
    + apply output_tensor_wf.
    + split.
      * by rewrite (pd_explicit _ _ _ Hp).
      * intros a. unfold actions. rewrite (pd_explicit _ _ _ Hp), Hnoback. by intros ?%elem_of_nil.
      * intros rf Hrf. by destruct (Hnb rf).
    + exists out, (<[next_id f := out]> hist), f'. done.
Qed.
End finish.

(** ** Operations *)

(** The retro-forward of an operation replays its forward function. *)
Definition unary_lawful (op : UnaryOp) : Prop :=
  ∀ rf i, un_bound op = Some rf → inputs (rf i) = [i] ∧ ∀ fwd, replay fwd (rf i) = un_forward op (fwd i).
Definition binary_lawful (op : BinaryOp) : Prop :=
  ∀ rf l r, bin_bound op = Some rf → inputs (rf l r) = [l; r] ∧ ∀ fwd, replay fwd (rf l r) = bin_forward op (fwd l) (fwd r).

(** An operation returns its output with the invariant kept, or panics when its inputs
    follow different checkpointing strategies. *)
Lemma run_unary_ok hist f op t :
  unary_lawful op → forward_ok hist f → (next_id f < u64_max)%N → valid hist t →
  fst (run_unary C op t f) = Panic ∨ op_result hist f (un_forward op (primitive t)) (run_unary C op t f).
Proof.
  intros Hlaw Hf Hid Hv. unfold run_unary, bind, lift.
  destruct (prepare_op C [t] _) as [p| |] eqn:Hp; [right|destruct e|by left]. apply prepare_op_ok in Hp.
  assert (∀ rf, (λ rf, rf (node_id (node t))) <$> un_bound op = Some rf → replays_on [t] (un_forward op (primitive t)) rf) as Hb.
  { intros rf' Hrf. destruct (un_bound op) as [rf|] eqn:Hu; simplify_eq/=.
    destruct (Hlaw rf (node_id (node t)) Hu) as [Hin Hre]. split; [done|]. intros fwd Hfwd.
    rewrite Forall_singleton in Hfwd. by rewrite Hre, Hfwd. }
  destruct (tracked p) eqn:Htr.
  - pose proof (checkpoint_all_ok p (if un_saves op then [t] else [])) as Hc.
    destruct (checkpoint_all p _) as [p' ids] eqn:Hca. destruct Hc as (_ & _ & _ & _ & _ & ->).
    replace p' with (checkpoint_all p (if un_saves op then [t] else [])).1 by by rewrite Hca.
    eapply finish_tracked_ok with (ts := [t]); try done; [by apply Forall_singleton|]. destruct (un_saves op); [done|apply list_subseteq_nil].
  - eapply finish_untracked_ok with (ts := [t]); try done. by apply Forall_singleton.
Qed.
Lemma run_binary_ok hist f op lhs rhs :
  binary_lawful op → forward_ok hist f → (next_id f < u64_max)%N → valid hist lhs → valid hist rhs →
  fst (run_binary C op lhs rhs f) = Panic ∨
  op_result hist f (bin_forward op (primitive lhs) (primitive rhs)) (run_binary C op lhs rhs f).
Proof.
  intros Hlaw Hf Hid Hl Hr. unfold run_binary, bind, lift.
  destruct (prepare_op C [lhs; rhs] _) as [p| |] eqn:Hp; [right|destruct e|by left]. apply prepare_op_ok in Hp.
  assert (∀ rf, (λ rf, rf (node_id (node lhs)) (node_id (node rhs))) <$> bin_bound op = Some rf →
    replays_on [lhs; rhs] (bin_forward op (primitive lhs) (primitive rhs)) rf) as Hb.
  { intros rf' Hrf. destruct (bin_bound op) as [rf|] eqn:Hu; simplify_eq/=.
    destruct (Hlaw rf (node_id (node lhs)) (node_id (node rhs)) Hu) as [Hin Hre]. split; [done|]. intros fwd Hfwd.
    rewrite !Forall_cons in Hfwd. destruct Hfwd as (Hfl & Hfr & _). by rewrite Hre, Hfl, Hfr. }
  set (saved := (if bin_saves_lhs op (is_tracked lhs) (is_tracked rhs) then [lhs] else []) ++
                (if bin_saves_rhs op (is_tracked lhs) (is_tracked rhs) then [rhs] else [])).
  assert (Forall (valid hist) [lhs; rhs]) as Hv by by repeat apply Forall_cons_2.
  destruct (tracked p) eqn:Htr.
  - pose proof (checkpoint_all_ok p saved) as Hc.
    destruct (checkpoint_all p saved) as [p' ids] eqn:Hca. destruct Hc as (_ & _ & _ & _ & _ & ->).
    replace p' with (checkpoint_all p saved).1 by by rewrite Hca.
    eapply finish_tracked_ok with (ts := [lhs; rhs]); try done. unfold saved. intros x.
    destruct (bin_saves_lhs _ _ _), (bin_saves_rhs _ _ _); set_solver.
  - by eapply finish_untracked_ok with (ts := [lhs; rhs]).
Qed.
End run.
