(* ===== verification/AutodiffTape.v ===== *)
(** * Automatic differentiation: the tape

    [AutodiffServer::build_tape] on a server that meets its invariant and a complete
    ancestry: it returns, the tape holds the steps of the ancestry, one bucket per
    depth, and the builder and the tree it gathers make a checkpointer that can serve
    every request of the backward pass. *)

From S2P Require Import Prelude AutodiffGraph AutodiffCheckpoint AutodiffCounts AutodiffServe AutodiffRetrieve AutodiffMemory AutodiffMemoryProps AutodiffServer AutodiffAdjoint AutodiffOps AutodiffInv.
Open Scope nat_scope.

(** ** Sums and buckets *)

Lemma concat_insert {A} (l : list (list A)) i b x :
  l !! i = Some b → concat (<[i := b ++ [x]]> l) ≡ₚ concat l ++ [x].
Proof.
  intros Hi. rewrite insert_take_drop by by eapply lookup_lt_Some. rewrite <-(take_drop_middle l i b Hi) at 3.
  rewrite !concat_app. simpl. solve_Permutation.
Qed.
Lemma concat_replicate_nil {A} n : concat (replicate n (@nil A)) = [].
Proof. by induction n. Qed.

Section tape.
Context {P : Profile} {H : HashOrder} {B : Backend}.
Abbreviation History := (gmap NodeId AutodiffTensor).
Context (count : NodeId → N).
Context (hist : History) (next : N) (s : AutodiffServer).
Context (Hh : history_ok hist next) (Hs : server_ok hist s).

(** ** The ancestry *)

Definition consumes (d : list NodeId) (n : NodeId) : Prop := n ∈ d ∧ (count n ≤ 1)%N.
#[export] Instance consumes_dec d n : Decision (consumes d n).
Proof. unfold consumes. apply _. Defined.

Definition steps_of (d : list NodeId) : list StepBoxed := omap (λ id, steps s !! id) d.
Definition builders_of (d : list NodeId) : list CheckpointerBuilder := omap (λ id, actions_builder s !! id) d.

Lemma step_parent id st p :
  steps s !! id = Some st → p ∈ item_parents st → ∃ t pt,
    hist !! id = Some t ∧ step_of t st ∧ hist !! parent_id p = Some pt ∧ is_tracked pt = true ∧
    is_leaf p = (node_order (node pt) =? 0)%N ∧ (node_order (node pt) < depth st)%N ∧ (parent_id p < id)%N.
Proof.
  intros Hst Hp. destruct (sv_step _ _ Hs id st Hst) as (t & b & Ht & Hof & _ & _).
  pose proof Hof as (Hid & Hps & Hd & _). destruct (Hh id t Ht) as (Hid' & _ & [Hpw _ _]). rewrite Hps in Hp.
  rewrite Forall_forall in Hpw. destruct (Hpw p Hp) as (pt & ? & ? & ? & ? & ?). exists t, pt.
  split_and!; [done|done|done|done|done|by rewrite Hd|by rewrite <-Hid'].
Qed.
Lemma server_leaves_consistent : leaves_consistent (steps s).
Proof.
  intros a b p q (i & Ha & Hp) (j & Hb & Hq) Heq.
  destruct (step_parent a i p Ha Hp) as (_ & pt & _ & _ & Hpt & _ & -> & _).
  destruct (step_parent b j q Hb Hq) as (_ & qt & _ & _ & Hqt & _ & -> & _). rewrite Heq in Hpt. by simplify_eq.
Qed.
Lemma step_depth id st t : steps s !! id = Some st → hist !! id = Some t → depth st = node_order (node t).
Proof. intros Hst Ht. destruct (sv_step _ _ Hs id st Hst) as (t' & b & Ht' & (_ & _ & Hd & _) & _). by simplify_eq. Qed.
Lemma step_id_of id st : steps s !! id = Some st → step_id st = id.
Proof.
  intros Hst. destruct (sv_step _ _ Hs id st Hst) as (t & b & Ht & (Hid & _) & _).
  destruct (Hh id t Ht) as (Hid' & _). congruence.
Qed.
Lemma parent_depth id st p st' :
  steps s !! id = Some st → p ∈ item_parents st → steps s !! parent_id p = Some st' → (depth st' < depth st)%N.
Proof.
  intros Hst Hp Hst'. destruct (step_parent id st p Hst Hp) as (t & pt & _ & _ & Hpt & _ & _ & Hlt & _).
  by rewrite (step_depth _ _ _ Hst' Hpt).
Qed.
Lemma ancestor_depth root st id st' :
  ancestor (steps s) root id → steps s !! root = Some st → steps s !! id = Some st' → (depth st' ≤ depth st)%N.
Proof.
  intros Ha. revert st. induction Ha as [a|a b c (p & (i & Hi & Hp) & <-) Hbc IH]; intros st Hst Hst'; [by simplify_eq|].
  assert (is_Some (steps s !! parent_id p)) as [sp Hsp].
  { inversion Hbc as [|? m ? (q & (j & Hj & _) & _) _]; subst; eauto. }
  pose proof (parent_depth a i p sp Hi Hp Hsp). specialize (IH sp Hsp Hst'). rewrite Hi in Hst. injection Hst as <-. lia.
Qed.

(** ** The loop *)

Record taping (D : nat) (d : list NodeId) (acc : TapeResult) : Prop := {
  ta_steps id : steps (tape_server acc) !! id = if decide (id ∈ d) then None else steps s !! id;
  ta_builders id : actions_builder (tape_server acc) !! id = if decide (id ∈ d) then None else actions_builder s !! id;
  ta_nodes id : nodes (memory_management (tape_server acc)) !! id =
    if decide (consumes d id) then None else nodes (memory_management s) !! id;
  ta_leaves id : id ∈ leaves (memory_management (tape_server acc)) ↔ id ∈ leaves (memory_management s) ∧ ¬ consumes d id;
  ta_statuses : statuses (memory_management (tape_server acc)) = ∅;
  ta_length : length (tape acc) = D + 1;
  ta_tape : concat (tape acc) ≡ₚ steps_of d;
  ta_bucket i b : tape acc !! i = Some b → Forall (λ st, N.to_nat (depth st) = i) b;
  ta_tree id : tape_tree acc !! id = if decide (id ∈ d) then parent_ids <$> (steps s !! id) else None;
  ta_explicit : explicit_actions (tape_builder acc) = builders_of d ≫= explicit_actions;
  ta_backup : backup_actions (tape_builder acc) = builders_of d ≫= backup_actions;
  ta_size : (len (explicit_actions (tape_builder acc)) + msum (λ b, len (explicit_actions b)) (actions_builder (tape_server acc)) ≤
             msum (λ b, len (explicit_actions b)) (actions_builder s))%N;
  ta_total : (msum (λ ps, 1 + len ps) (tape_tree acc) + msum (λ st, 1 + len (item_parents st)) (steps (tape_server acc)) ≤
              msum (λ st, 1 + len (item_parents st)) (steps s))%N
}.

Lemma tree_parents_all id st : steps s !! id = Some st → tree_parents st id = parent_ids st.
Proof.
  intros Hst. apply filter_all, Forall_fmap, Forall_forall. intros p Hp. simpl.
  destruct (step_parent id st p Hst Hp) as (_ & _ & _ & _ & _ & _ & _ & _ & Hlt). lia.
Qed.

Lemma build_node_ok D d acc id st :
  taping D d acc → id ∉ d → steps s !! id = Some st → N.to_nat (depth st) ≤ D →
  ∃ acc', build_node count acc id = Ok acc' ∧ taping D (d ++ [id]) acc'.
Proof.
  intros [Hst Hbu Hno Hle Hsta Hlen Htp Hbk Htr Hex Hba Hsz Hto] Hid Hst_id Hdepth.
  destruct (sv_step _ _ Hs id st Hst_id) as (t & b & Ht & Hof & Hb & Hbf).
  destruct (sv_nodes _ _ Hs id ltac:(eauto)) as [ps Hps].
  assert (steps (tape_server acc) !! id = Some st) as Hst1 by by rewrite Hst, decide_False.
  assert (actions_builder (tape_server acc) !! id = Some b) as Hb1 by by rewrite Hbu, decide_False.
  assert (nodes (memory_management (tape_server acc)) !! id = Some ps) as Hps1.
  { rewrite Hno, decide_False; [done|]. by intros []. }
  unfold build_node. rewrite Hst1. unfold consume_node, is_referenced. rewrite Hps1. cbn [res_bind].
  destruct (lookup_lt_is_Some_2 (tape acc) (N.to_nat (depth st))) as [bucket Hbucket]; [lia|]. rewrite Hbucket, Hb1.
  eexists. split; [reflexivity|].
  assert (∀ m, m ∈ d ++ [id] ↔ m ∈ d ∨ m = id) as Hin by (intros m; by rewrite elem_of_app, list_elem_of_singleton).
  assert (∀ {A} (mp mp' : gmap NodeId A), (∀ m, mp !! m = if decide (m ∈ d) then None else mp' !! m) →
    ∀ m, delete id mp !! m = if decide (m ∈ d ++ [id]) then None else mp' !! m) as Hdel.
  { intros A mp mp' Hmp m. destruct (decide (m = id)) as [->|Hne].
    - rewrite lookup_delete_eq, decide_True; [done|]. apply Hin. by right.
    - rewrite lookup_delete_ne, Hmp by done. apply decide_ext. rewrite Hin. tauto. }
  split; cbn [tape_server steps actions_builder memory_management tape tape_tree tape_builder fst snd].
  - by apply Hdel.
  - by apply Hdel.
  - intros m. destruct (N.ltb_spec 1 (count id)).
    + rewrite Hno. apply decide_ext. unfold consumes. rewrite Hin. naive_solver lia.
    + simpl. destruct (decide (m = id)) as [->|Hne].
      * rewrite lookup_delete_eq, decide_True; [done|]. split; [apply Hin; by right|done].
      * rewrite lookup_delete_ne, Hno by done. apply decide_ext. unfold consumes. rewrite Hin. naive_solver.
  - intros m. unfold consumes. rewrite Hin. destruct (N.ltb_spec 1 (count id)).
    + rewrite Hle. unfold consumes. naive_solver lia.
    + simpl. rewrite elem_of_difference, elem_of_singleton, Hle. unfold consumes. naive_solver.
  - by destruct (1 <? count id)%N.
  - by rewrite length_insert.
  - rewrite concat_insert by done. unfold steps_of. rewrite omap_app, Htp. cbn. by rewrite Hst_id.
  - intros i b' [(<- & <- & _)|[Hne Hi]]%list_lookup_insert_Some; [|by eapply Hbk].
    apply Forall_app. split; [by eapply Hbk|by apply Forall_singleton].
  - intros m. rewrite tree_parents_all by done. destruct (decide (m = id)) as [->|Hne].
    + rewrite lookup_insert_eq, decide_True, Hst_id; [done|]. apply Hin. by right.
    + rewrite lookup_insert_ne, Htr by done. apply decide_ext. rewrite Hin. tauto.
  - simpl. unfold builders_of. rewrite omap_app, bind_app, Hex. cbn. by rewrite Hb, bind_singleton.
  - simpl. unfold builders_of. rewrite omap_app, bind_app, Hba. cbn. by rewrite Hb, bind_singleton.
  - simpl. rewrite len_app. rewrite (msum_delete _ _ id b Hb1) in Hsz. lia.
  - rewrite msum_insert_new by by rewrite Htr, decide_False.
    rewrite (msum_delete _ _ id st Hst1) in Hto. rewrite tree_parents_all by done.
    unfold parent_ids, len in *. rewrite length_fmap. lia.
Qed.

Lemma build_nodes_ok D d l acc :
  taping D d acc → NoDup (d ++ l) → Forall (λ id, ∃ st, steps s !! id = Some st ∧ N.to_nat (depth st) ≤ D) l →
  ∃ acc', build_nodes count acc l = Ok acc' ∧ taping D (d ++ l) acc'.
Proof.
  revert d acc. induction l as [|id l IH]; intros d acc Hacc Hnd Hall; cbn [build_nodes].
  { exists acc. by rewrite app_nil_r. }
  apply Forall_cons in Hall as [(st & Hst & Hd) Hall].
  destruct (build_node_ok D d acc id st Hacc) as (acc1 & -> & Hacc1); [|done|done|].
  { apply NoDup_app in Hnd as (_ & Hdis & _). intros Hin. apply (Hdis id Hin). by left. }
  cbn [res_bind]. destruct (IH (d ++ [id]) acc1 Hacc1) as (acc2 & -> & Hacc2); [by rewrite <-(assoc_L (++))|done|].
  exists acc2. split; [done|]. by rewrite <-(assoc_L (++)) in Hacc2.
Qed.
Lemma taping_init D : taping D [] (mkTape s (replicate (D + 1) []) ∅ builder_default).
Proof.
  split; cbn [tape_server tape tape_tree tape_builder explicit_actions backup_actions builder_default].
  - done.
  - done.
  - intros id. rewrite decide_False; [done|]. by intros [?%elem_of_nil _].
  - intros id. split; [|tauto]. intros Hl. split; [done|]. by intros [?%elem_of_nil _].
  - apply (sv_statuses _ _ Hs).
  - by rewrite length_replicate.
  - by rewrite concat_replicate_nil.
  - intros i b [-> _]%lookup_replicate. done.
  - done.
  - done.
  - done.
  - done.
  - rewrite msum_empty. lia.
Qed.
End tape.
