(* ===== verification/AutodiffBackward.v ===== *)
(** * Automatic differentiation: the backward pass

    [AutodiffServer::backward_local] from a tensor whose ancestry is complete: it
    returns, every output the steps ask for is the one of the forward pass, and the
    gradients are those of the chain rule. *)

From S2P Require Import Prelude AutodiffGraph AutodiffCheckpoint AutodiffCounts AutodiffServe AutodiffRetrieve AutodiffMemory AutodiffMemoryProps AutodiffServer AutodiffAdjoint AutodiffOps AutodiffInv AutodiffTape.
Open Scope nat_scope.

Section backward.
Context {P : Profile} {H : HashOrder} {B : Backend}.
Abbreviation History := (gmap NodeId AutodiffTensor).
Context (count : NodeId → N) (hist : History) (next : N) (s : AutodiffServer).
Context (Hh : history_ok hist next) (Hs : server_ok hist s).
Context (root : NodeId) (Hcomplete : tape_complete (steps s) root).

(** The output of every tensor of the history. *)
Context (v0 : FloatTensorPrimitive).
Definition outputs (id : NodeId) : FloatTensorPrimitive :=
  match hist !! id with Some t => primitive t | None => v0 end.

Section taped.
Context (D : nat) (C : list NodeId) (acc : TapeResult).
Context (HC : ∀ n, n ∈ C ↔ ancestor (steps s) root n ∧ is_Some (steps s !! n)) (Hnd : NoDup C).
Context (Hacc : taping count s D C acc).

(** ** The checkpointer *)

Lemma taped_builder id st b :
  id ∈ C → steps s !! id = Some st → actions_builder s !! id = Some b → actions b ⊆ actions (tape_builder acc).
Proof.
  intros Hid Hst Hb a Ha. unfold actions in *. rewrite (ta_explicit _ _ _ _ _ Hacc), (ta_backup _ _ _ _ _ Hacc).
  assert (b ∈ builders_of s C) as Hin by (apply list_elem_of_omap; eauto).
  rewrite elem_of_app, !list_elem_of_bind. apply elem_of_app in Ha as [Ha|Ha]; eauto.
Qed.
Lemma taped_action a :
  a ∈ actions (tape_builder acc) → ∃ id st b t, id ∈ C ∧ steps s !! id = Some st ∧ hist !! id = Some t ∧
    builder_for hist t st b ∧ a ∈ actions b.
Proof.
  unfold actions. rewrite (ta_explicit _ _ _ _ _ Hacc), (ta_backup _ _ _ _ _ Hacc), elem_of_app, !list_elem_of_bind.
  assert (∀ b, b ∈ builders_of s C → ∃ id st t, id ∈ C ∧ steps s !! id = Some st ∧ hist !! id = Some t ∧ builder_for hist t st b) as Hb.
  { intros b (id & Hid & Hb)%list_elem_of_omap. destruct (proj1 (HC id) Hid) as [_ [st Hst]].
    destruct (sv_step _ _ Hs id st Hst) as (t & b' & Ht & _ & Hb' & Hf). simplify_eq. eauto 10. }
  intros [(b & Ha & Hin)|(b & Ha & Hin)]; destruct (Hb b Hin) as (id & st & t & ? & ? & ? & ?);
    exists id, st, b, t; split_and!; try done; apply elem_of_app; auto.
Qed.

(** A tensor that can be recomputed has parents, so it is not a leaf. *)
Lemma bound_order m rf : tensor_wf hist m → properties (node m) = MemoryBound rf → (0 < node_order (node m))%N.
Proof.
  intros [Hp _ Hb] Hrf. destruct (Hb rf Hrf) as (_ & Hin & _).
  destruct (node_parents (node m)) as [|p ps]; [by destruct rf|].
  apply Forall_cons in Hp as [(pt & _ & _ & _ & Hlt & _) _]. lia.
Qed.

Lemma replayed_replay rf v : replayed hist rf v → replay outputs rf = v.
Proof.
  unfold outputs. destruct rf as [l r g|i g|l r g]; simpl.
  - intros (a & -> & ->). done.
  - intros (a & -> & ->). done.
  - intros (a & b & -> & -> & ->). done.
Qed.

Lemma taped_builder_ok : builder_ok (tape_tree acc) outputs (tape_builder acc).
Proof.
  apply Forall_forall. intros a Ha. destruct (taped_action a Ha) as (id & st & b & t & Hid & Hst & Ht & Hf & Hab).
  destruct (bf_action _ _ _ _ Hf a Hab) as (m & Hm & Heq & Hbound). destruct (Hh _ _ Hm) as (Hmid & _ & Hmwf).
  assert (outputs (act_id a) = primitive m) as Hout by (unfold outputs; by rewrite Hm).
  pose proof Heq as Heq'. unfold action_of in Heq'. rewrite Hmid in Heq'.
  assert ((∀ rf, properties (node m) ≠ MemoryBound rf) → action_ok (tape_tree acc) outputs (tape_builder acc) a) as Hcomp.
  { intros Hno. assert (a = ActComputed (act_id a) (FloatBox (outputs (act_id a)))) as ->.
    { rewrite Hout. destruct (properties (node m)); [done|by destruct (Hno retro_forward)|done]. }
    split; [done|]. intros rf Hrf. destruct (taped_action _ Hrf) as (? & ? & b' & ? & _ & _ & _ & Hf' & Hab').
    destruct (bf_action _ _ _ _ Hf' _ Hab') as (m' & Hm' & Heq2 & _). simpl in Hm'. rewrite Hm in Hm'. simplify_eq.
    unfold action_of in Heq2. destruct (properties (node m')) eqn:Hpm; [done|by destruct (Hno retro_forward)|done]. }
  destruct (properties (node m)) as [|rf|] eqn:Hprop; [by apply Hcomp| |by apply Hcomp].
  rewrite Heq'. destruct (tw_bound _ _ Hmwf rf Hprop) as (_ & Hin & Hre). specialize (Hbound ltac:(eauto)).
  assert (act_id a ∈ C) as HaC.
  { apply list_elem_of_fmap in Hbound as (p & Hpid & Hp). rewrite Hpid.
    assert (has_parent (steps s) id p) as Hhp by by exists st.
    apply HC. destruct (proj1 (HC id) Hid) as [Hanc _]. split; [by eapply ancestor_parent|].
    destruct (proj2 Hcomplete id p Hanc Hhp) as [|Hleaf]; [done|exfalso].
    destruct (step_parent hist next s Hh Hs id st p Hst Hp) as (_ & pt & _ & _ & Hpt & _ & Hl & _).
    rewrite <-Hpid, Hm in Hpt. simplify_eq. pose proof (bound_order _ rf Hmwf Hprop). rewrite Hleaf in Hl.
    symmetry in Hl. apply N.eqb_eq in Hl. lia. }
  destruct (proj1 (HC _) HaC) as [_ [st' Hst']].
  destruct (sv_step _ _ Hs _ _ Hst') as (t' & b' & Ht' & (_ & Hps & _) & Hb' & Hf'). rewrite Hm in Ht'. simplify_eq.
  split.
  - split.
    + rewrite (ta_tree _ _ _ _ _ Hacc), decide_True, Hst' by done. simpl. f_equal. unfold parent_ids. by rewrite Hps.
    + rewrite Hout. by apply replayed_replay.
  - apply Forall_forall. intros i Hi. apply (bf_bound _ _ _ _ Hf' rf Hprop) in Hi.
    apply list_elem_of_fmap in Hi as (a' & -> & Ha'). apply list_elem_of_fmap_2. by eapply taped_builder.
Qed.

Lemma taped_rank c ps p : tape_tree acc !! c = Some ps → p ∈ ps → (p < c)%N.
Proof.
  rewrite (ta_tree _ _ _ _ _ Hacc). destruct (decide (c ∈ C)); [|done]. destruct (steps s !! c) as [st|] eqn:Hst; [|done].
  intros [= <-] (q & -> & Hq)%list_elem_of_fmap.
  by destruct (step_parent hist next s Hh Hs c st q Hst Hq) as (_ & _ & _ & _ & _ & _ & _ & _ & ?).
Qed.

(** The explicit actions are what the steps of the tape ask for, in order. *)
Lemma taped_needs : act_id <$> explicit_actions (tape_builder acc) = steps_of s C ≫= step_needs.
Proof.
  rewrite (ta_explicit _ _ _ _ _ Hacc). unfold builders_of, steps_of.
  assert (∀ n, n ∈ C → is_Some (steps s !! n)) as Hall by (intros n Hn; by apply HC).
  clear -Hs Hall. induction C as [|id l IH]; [done|]. cbn.
  destruct (Hall id ltac:(by left)) as [st Hst]. destruct (sv_step _ _ Hs id st Hst) as (t & b & _ & _ & Hb & Hf).
  rewrite Hst, Hb. cbn. rewrite fmap_app. f_equal; [apply (bf_explicit _ _ _ _ Hf)|]. apply IH.
  intros n Hn. apply Hall. by right.
Qed.

(** ** The schedule *)

Lemma elem_of_steps_of st : st ∈ steps_of s C ↔ ∃ id, id ∈ C ∧ steps s !! id = Some st.
Proof. unfold steps_of. rewrite list_elem_of_omap. naive_solver. Qed.
Lemma steps_of_ids : step_id <$> steps_of s C = C.
Proof.
  assert (∀ n, n ∈ C → is_Some (steps s !! n)) as Hall by (intros n Hn; by apply HC).
  unfold steps_of. clear -Hh Hs Hall. induction C as [|id l IH]; [done|]. cbn.
  destruct (Hall id ltac:(by left)) as [st Hst]. rewrite Hst. cbn. rewrite (step_id_of hist next s Hh Hs id st Hst). f_equal.
  apply IH. intros n Hn. apply Hall. by right.
Qed.

(** Sorted by a key that decreases from a step to its parents, children come first. *)
Lemma sorted_children_first (key : StepBoxed → N) L :
  L ≡ₚ steps_of s C → StronglySorted (λ a b, (key b ≤ key a)%N) L →
  (∀ st st' p, st ∈ L → st' ∈ L → p ∈ parent_ids st → step_id st' = p → (key st' < key st)%N) → children_first L.
Proof.
  intros HL Hsort Hkey l1 st l2 ->. apply Forall_forall. intros p Hp (st' & Hpid & Hin)%list_elem_of_fmap. subst p.
  assert (st' ∈ l1 ++ st :: l2) as Hin'.
  { apply elem_of_app in Hin as [| ->%list_elem_of_singleton]; set_solver. }
  assert (key st' < key st)%N as Hlt by (eapply Hkey; [|done|done|done]; set_solver).
  assert (key st ≤ key st')%N; [|lia].
  apply elem_of_app in Hin as [Hin| ->%list_elem_of_singleton]; [|done].
  clear -Hsort Hin. induction l1 as [|x l1 IH]; [by apply elem_of_nil in Hin|].
  inversion Hsort as [|?? Hs' Hall]; subst. apply elem_of_cons in Hin as [->|Hin]; [|by apply IH].
  rewrite Forall_forall in Hall. apply Hall. set_solver.
Qed.

Lemma buckets_sorted (tp : list (list StepBoxed)) :
  (∀ i b, tp !! i = Some b → Forall (λ st, N.to_nat (depth st) = i) b) →
  StronglySorted (λ a b, (depth b ≤ depth a)%N) (concat (reverse tp)).
Proof.
  induction tp as [|b tp IH] using rev_ind; intros Hb; [constructor|]. rewrite reverse_snoc. cbn [concat].
  assert (Forall (λ st, N.to_nat (depth st) = length tp) b) as Hlast by (apply Hb; by rewrite lookup_app_r, Nat.sub_diag).
  assert (Forall (λ st, N.to_nat (depth st) < length tp) (concat (reverse tp))) as Hrest.
  { apply Forall_forall. intros st (c & Hc & Hst)%list_elem_of_In%in_concat. apply list_elem_of_In in Hc, Hst.
    rewrite elem_of_reverse in Hc. apply list_elem_of_lookup in Hc as [i Hi].
    pose proof (lookup_lt_Some _ _ _ Hi). specialize (Hb i c ltac:(by rewrite lookup_app_l)).
    rewrite Forall_forall in Hb. specialize (Hb st Hst). lia. }
  assert (StronglySorted (λ a b, (depth b ≤ depth a)%N) (concat (reverse tp))) as Hs'.
  { apply IH. intros i c Hi. apply Hb. rewrite lookup_app_l; [done|]. by eapply lookup_lt_Some. }
  clear -Hlast Hrest Hs'. induction b as [|st b IHb]; [done|]. apply Forall_cons in Hlast as [Hst Hlast]. simpl.
  constructor; [by apply IHb|]. apply Forall_app. rewrite !Forall_forall in *. split; intros x Hx.
  - specialize (Hlast x Hx). lia.
  - specialize (Hrest x Hx). lia.
Qed.

Lemma schedule_perm : schedule (tape acc) ≡ₚ steps_of s C.
Proof.
  unfold schedule. destruct (existsb _ _).
  - rewrite merge_sort_Permutation. apply (ta_tape _ _ _ _ _ Hacc).
  - rewrite <-(ta_tape _ _ _ _ _ Hacc). generalize (tape acc). intros l.
    induction l as [|b l IH]; [done|]. rewrite reverse_cons, concat_app. cbn [concat]. rewrite IH, app_nil_r. solve_Permutation.
Qed.
Lemma schedule_children_first : children_first (schedule (tape acc)).
Proof.
  pose proof schedule_perm as HL.
  assert (∀ st, st ∈ schedule (tape acc) → steps s !! step_id st = Some st) as Hst.
  { intros st. rewrite HL, elem_of_steps_of. intros (id & _ & Hid).
    by rewrite (step_id_of hist next s Hh Hs id st Hid). }
  assert (∀ st st' p, st ∈ schedule (tape acc) → st' ∈ schedule (tape acc) → p ∈ parent_ids st → step_id st' = p →
    (step_id st' < step_id st)%N ∧ (depth st' < depth st)%N) as Hlt.
  { intros st st' p Hin Hin' (q & -> & Hq)%list_elem_of_fmap Hid. pose proof (Hst _ Hin) as H1. pose proof (Hst _ Hin') as H2.
    rewrite Hid in H2. split; [rewrite Hid|by eapply parent_depth].
    by destruct (step_parent hist next s Hh Hs _ _ q H1 Hq) as (_ & _ & _ & _ & _ & _ & _ & _ & ?). }
  unfold schedule in *. destruct (existsb _ _).
  - eapply (sorted_children_first step_id); [done| |by intros; eapply Hlt].
    eapply StronglySorted_merge_sort; [intros ???; unfold newer; lia|intros ??; unfold newer; lia].
  - eapply (sorted_children_first depth); [done| |by intros; eapply Hlt].
    apply buckets_sorted, (ta_bucket _ _ _ _ _ Hacc).
Qed.

Lemma schedule_is_ok : schedule_ok root (schedule (tape acc)).
Proof.
  pose proof schedule_perm as HL. split.
  - rewrite HL, steps_of_ids. done.
  - rewrite HL. apply Forall_forall. intros st (id & _ & Hid)%elem_of_steps_of.
    by destruct (sv_step _ _ Hs id st Hid) as (t & b & _ & (_ & _ & _ & ?) & _).
  - apply schedule_children_first.
  - intros st. rewrite HL, elem_of_steps_of. intros (id & Hid & Hst) _.
    rewrite (step_id_of hist next s Hh Hs id st Hst). destruct (proj1 (HC id) Hid) as [Ha _].
    apply rtc_inv_r in Ha as [<-|(a & Ha & (p & (sa & Hsa & Hp) & <-))]; [by left|right].
    exists sa. split; [|by apply list_elem_of_fmap_2]. rewrite HL. apply elem_of_steps_of. exists a. split; [|done].
    apply HC. eauto.
Qed.
End taped.
End backward.
