(* ===== verification/AutodiffGradients.v ===== *)
(** * Automatic differentiation: a backward pass as a whole

    [AutodiffServer::backward_local]: the gradients are those of the chain rule, the
    checkpointer is drained, the invariant of the graph is kept, the tapes of the
    tensors still held stay complete, and an incomplete ancestry is a panic. *)

From S2P Require Import Prelude AutodiffGraph AutodiffCheckpoint AutodiffCounts AutodiffServe AutodiffRetrieve AutodiffMemory AutodiffMemoryProps AutodiffServer AutodiffAdjoint AutodiffOps AutodiffInv AutodiffTape AutodiffBackward.
Open Scope nat_scope.

(** Deleting the freed nodes from one of the maps of the server. *)
Lemma delete_all_lookup {A} (m : gmap N A) l n :
  foldl (λ m n, delete n m) m l !! n = if decide (n ∈ l) then None else m !! n.
Proof.
  revert m. induction l as [|x l IH]; intros m; cbn [foldl]; [by rewrite decide_False by apply not_elem_of_nil|].
  rewrite IH. destruct (decide (n = x)) as [->|Hne].
  - rewrite lookup_delete_eq, (decide_True (P:=x ∈ x :: l)) by by left. by destruct (decide (x ∈ l)).
  - rewrite lookup_delete_ne by done. apply decide_ext. rewrite elem_of_cons. tauto.
Qed.

Section gradients.
Context {P : Profile} {H : HashOrder} {B : Backend}.
Abbreviation History := (gmap NodeId AutodiffTensor).
Context (count : NodeId → N) (hist : History) (next : N) (s : AutodiffServer).
Context (Hh : history_ok hist next) (Hs : server_ok hist s).

(** What the [usize] counters of the checkpointer may have to count. *)
Definition graph_size : N :=
  msum (λ b, len (explicit_actions b)) (actions_builder s) + msum (λ st, 1 + len (item_parents st))%N (steps s).

Section pass.
Context (root : NodeId) (Hcomplete : tape_complete (steps s) root).
Context (v0 : FloatTensorPrimitive).
Abbreviation fwd := (outputs hist v0).

(** The nodes of the tape: the steps of the ancestry. *)
Definition taped (C : list NodeId) : Prop :=
  (∀ n, n ∈ C ↔ ancestor (steps s) root n ∧ is_Some (steps s !! n)) ∧ NoDup C.

Lemma tape_nodes :
  ∃ D C acc, validate_tape s root = Ok C ∧ taped C ∧ taping count s D C acc ∧
    build_tape count s C = (let? ck := build (tape_builder acc) (tape_tree acc) in Ok (tape_server acc, tape acc, ck)).
Proof.
  unfold validate_tape.
  destruct (collect_steps_cases root (steps s)) as [(tl & -> & Hnd & HC & _)|(m & _ & _ & _ & Hno)]; [|done].
  pose proof Hcomplete as [[st Hst] _].
  destruct (build_nodes_ok count hist next s Hh Hs (N.to_nat (depth st)) [] (root :: tl)
    (mkTape s (replicate (N.to_nat (depth st) + 1) []) ∅ builder_default)) as (acc & Hacc & Ht).
  - by eapply taping_init.
  - done.
  - apply Forall_forall. intros id (Ha & st' & Hst')%HC. exists st'. split; [done|].
    pose proof (ancestor_depth hist next s Hh Hs root st id st' Ha Hst Hst'). lia.
  - exists (N.to_nat (depth st)), (root :: tl), acc. split_and!; [done|done|done|].
    unfold build_tape. by rewrite Hst, Hacc.
Qed.
Lemma tape_checkpointer D C acc :
  (graph_size ≤ usize_max)%N → taped C → taping count s D C acc →
  ∃ ck, build (tape_builder acc) (tape_tree acc) = Ok ck ∧
    checkpointer_ok (tape_tree acc) fwd ck (schedule (tape acc) ≫= step_needs).
Proof.
  intros Hsize [HC Hnd] Ht. pose proof (taped_builder_ok count hist next s Hh Hs root Hcomplete v0 _ _ acc HC Ht) as Hb.
  destruct (build_ok (tape_tree acc) fwd (tape_builder acc) Hb) as (ck & Hck & HR & Hserve & Hrest).
  { pose proof (ta_size _ _ _ _ _ Ht). pose proof (ta_total _ _ _ _ _ Ht). unfold graph_size in Hsize.
    unfold tree_total. lia. }
  exists ck. split; [done|]. exists HR. split; [|done]. eapply serving_perm; [|done].
  rewrite (taped_needs count hist s Hs root _ _ acc HC Ht). by rewrite (schedule_perm count s _ _ acc Ht).
Qed.

(** The gradient container starts with one for the root. *)
Definition seed (root_tensor : FloatTensorPrimitive) (n : NodeId) : list FloatTensorPrimitive :=
  if decide (n = root) then [float_ones_like root_tensor] else [].

Lemma tape_executed D C acc ck root_node root_tensor :
  node_id root_node = root → taped C → taping count s D C acc →
  checkpointer_ok (tape_tree acc) fwd ck (schedule (tape acc) ≫= step_needs) →
  let L := schedule (tape acc) in
  ∃ g ck', execute_steps (tape acc) (Gradients_new root_node root_tensor) ck = Ok (mkPass g ck') ∧
    is_empty ck' = true ∧ holding g (consumed_ids L) (gather fwd L (seed root_tensor)).
Proof.
  intros Hid [HC Hnd] Ht Hck L.
  pose proof (schedule_is_ok count hist next s Hh Hs root Hcomplete D C acc HC Hnd Ht) as HL. fold L in HL.
  pose proof (taped_rank count hist next s Hh Hs D C acc Ht) as Hrank.
  destruct (run_schedule fwd (tape_tree acc) (λ n, n) Hrank L (Gradients_new root_node root_tensor) ck [] (seed root_tensor))
    as (g & ck' & Hrun & Hck' & Hg).
  - by apply (sch_wf _ _ HL).
  - by apply (sch_order _ _ HL).
  - by apply (sch_nodup _ _ HL).
  - apply Forall_forall. intros ? _. apply not_elem_of_nil.
  - apply Forall_forall. intros ? _. apply Forall_forall. intros ? _. apply not_elem_of_nil.
  - apply Forall_forall. intros st Hin Ho. eapply gather_reached; [done| |done|done].
    unfold seed. by rewrite decide_True.
  - intros n. rewrite decide_False by apply not_elem_of_nil. unfold Gradients_new, grads_register, bind, gets, modify, seed.
    rewrite Hid. simpl. rewrite delete_empty. destruct (decide (n = root)) as [->|Hne]; [by rewrite lookup_insert_eq|].
    rewrite lookup_insert_ne by done. done.
  - done.
  - exists g, ck'. split_and!; [|by apply (checkpointer_drained (tape_tree acc) fwd (λ n, n) Hrank)|done].
    unfold execute_steps. fold L. by rewrite Hrun.
Qed.

(** ** The cleanup *)

Section cleaned.
Context (D : nat) (C : list NodeId) (acc : TapeResult) (HC : taped C) (Ht : taping count s D C acc).
Abbreviation s1 := (tape_server acc).
Abbreviation mm1 := (memory_management s1).

Lemma left_acyclic : acyclic (nodes mm1) (λ id, id).
Proof.
  intros n ps p. rewrite (ta_nodes _ _ _ _ _ Ht). destruct (decide _); [done|].
  by apply (server_acyclic hist next s Hh Hs).
Qed.
Lemma consumed_taped n : consumes count C n → n ∈ C.
Proof. by intros []. Qed.

(** A step that is not of the tape is not below one of it. *)
Lemma above_left c ps p :
  nodes (memory_management s) !! c = Some ps → p ∈ ps → is_leaf p = false →
  is_Some (steps s !! parent_id p) → parent_id p ∉ C → is_Some (steps s !! c) ∧ c ∉ C.
Proof.
  intros Hc Hp Hl Hpp Hno. pose proof (sv_closed _ _ Hs c ps p Hc Hp Hl Hpp) as [st Hst]. split; [eauto|].
  intros Hin. apply Hno. apply (proj1 HC). split; [|done]. apply (proj1 HC) in Hin as [Ha _].
  eapply ancestor_parent; [done|]. exists st. split; [done|].
  destruct (sv_step _ _ Hs c st Hst) as (t & b & Htt & (_ & -> & _) & _).
  destruct (sv_node _ _ Hs c ps Hc) as (t' & Ht' & <-). by simplify_eq.
Qed.

Lemma node_parent n ps p t :
  nodes (memory_management s) !! n = Some ps → p ∈ ps → hist !! parent_id p = Some t →
  is_leaf p = (node_order (node t) =? 0)%N ∧ ∃ tn, hist !! n = Some tn ∧ (node_order (node t) < node_order (node tn))%N.
Proof.
  intros Hn Hp Hpt. destruct (sv_node _ _ Hs n ps Hn) as (tn & Htn & <-). destruct (Hh n tn Htn) as (_ & _ & [Hpw _ _]).
  rewrite Forall_forall in Hpw. destruct (Hpw p Hp) as (pt & Hpt' & _ & Hl & Ho & _). simplify_eq. eauto.
Qed.

(** An operation that stays is still below a leaf of the memory. *)
Lemma left_reach id t :
  is_Some (steps s !! id) → id ∉ C → hist !! id = Some t → node_order (node t) ≠ 0%N →
  leaf_reach (nodes mm1) (leaves mm1) id.
Proof.
  intros Hid HidC Hidt Ho. destruct (sv_reach _ _ Hs id t Hid Hidt Ho) as (l & Hl & Hr).
  assert (reach (nodes mm1) l id ∧ l ∉ C) as [Hr' HlC].
  { clear Hl. assert (∀ x, reach (nodes (memory_management s)) x id → reach (nodes mm1) x id ∧ x ∉ C ∧ is_Some (steps s !! x) ∧
      ∃ tx, hist !! x = Some tx ∧ node_order (node tx) ≠ 0%N) as Hgo; [|by destruct (Hgo l Hr) as (? & ? & _)].
    clear l Hr. intros x Hx. induction Hx as [x|x y z Hxy Hyz IH].
    - split_and!; [apply rtc_refl|done|done|eauto].
    - destruct (IH Hid HidC Hidt) as (Hr & HyC & Hsy & ty & Hty & Hoy). apply edge_spec in Hxy as (ps & q & Hps & Hq & <- & _).
      destruct (node_parent x ps q ty Hps Hq Hty) as (Hleaf & tx & Htx & Hlt).
      assert (is_leaf q = false) as Hlf by (rewrite Hleaf; by apply N.eqb_neq).
      destruct (above_left x ps q Hps Hq Hlf Hsy HyC) as [Hsx HxC]. split_and!; [|done|done|exists tx; split; [done|lia]].
      eapply rtc_l; [|done]. apply edge_spec. exists ps, q. rewrite (ta_nodes _ _ _ _ _ Ht), decide_False by (by intros ?%consumed_taped).
      split_and!; [done|done|done|by left]. }
  exists l. split; [|done]. apply (ta_leaves _ _ _ _ _ Ht). split; [done|]. by intros ?%consumed_taped.
Qed.

(** What the cleanup leaves. *)
Record cleaned (freed : list NodeId) (s2 : AutodiffServer) : Prop := {
  cl_steps n : steps s2 !! n = if decide (n ∈ freed) then None else steps s1 !! n;
  cl_builders n : actions_builder s2 !! n = if decide (n ∈ freed) then None else actions_builder s1 !! n;
  cl_nodes n : nodes (memory_management s2) !! n = if decide (n ∈ freed) then None else nodes mm1 !! n;
  cl_statuses : statuses (memory_management s2) = ∅;
  cl_freed n : n ∈ freed → ¬ useful (nodes mm1) count (leaves mm1) n;
  cl_kept n : n ∉ freed → leaf_reach (nodes mm1) (leaves mm1) n → useful (nodes mm1) count (leaves mm1) n;
  cl_leaves v : useful (nodes mm1) count (leaves mm1) v → ∃ x, x ∈ leaves (memory_management s2) ∧
    useful (nodes mm1) count (leaves mm1) x ∧ reach (nodes mm1) x v
}.
Lemma cleanup_ok : ∃ freed s2, cleanup count s1 C = Ok (s2, freed ++ C) ∧ cleaned freed s2.
Proof.
  unfold cleanup.
  destruct (free_unavailable_ok count mm1 (λ id, id) left_acyclic (ta_statuses _ _ _ _ _ Ht))
    as (mm2 & freed & -> & Hst & Hn & Hfr & Hk & Hl & Hv). cbn [res_bind].
  eexists freed, _. split; [done|]. split; simpl.
  - intros n. apply delete_all_lookup.
  - intros n. apply delete_all_lookup.
  - done.
  - done.
  - intros n [? _]%Hfr. done.
  - done.
  - intros v (x & ? & ?)%Hv. exists x. auto.
Qed.

Section after.
Context (freed : list NodeId) (s2 : AutodiffServer) (Hcl : cleaned freed s2).
Abbreviation useful1 := (useful (nodes mm1) count (leaves mm1)).

Lemma steps_after n st : steps s2 !! n = Some st ↔ n ∉ freed ∧ n ∉ C ∧ steps s !! n = Some st.
Proof.
  rewrite (cl_steps _ _ Hcl), (ta_steps _ _ _ _ _ Ht). destruct (decide (n ∈ freed)), (decide (n ∈ C)); naive_solver.
Qed.
Lemma nodes_after n ps :
  nodes (memory_management s2) !! n = Some ps ↔ n ∉ freed ∧ ¬ consumes count C n ∧ nodes (memory_management s) !! n = Some ps.
Proof.
  rewrite (cl_nodes _ _ Hcl), (ta_nodes _ _ _ _ _ Ht). destruct (decide (n ∈ freed)), (decide (consumes count C n)); naive_solver.
Qed.

(** The useful nodes and the paths between them stay. *)
Lemma useful_nodes n : useful1 n → nodes (memory_management s2) !! n = nodes mm1 !! n.
Proof. intros Hn. rewrite (cl_nodes _ _ Hcl), decide_False; [done|]. by intros ?%(cl_freed _ _ Hcl). Qed.
Lemma useful_path x v : useful1 x → reach (nodes mm1) x v → reach (nodes (memory_management s2)) x v.
Proof.
  intros Hx Hr. induction Hr as [x|x y z Hxy _ IH]; [apply rtc_refl|]. pose proof (useful_edge _ _ _ _ _ Hx Hxy) as Hy.
  eapply rtc_l; [|by apply IH]. apply edge_spec in Hxy as (ps & q & Hps & Hq & <- & Hf). apply edge_spec. exists ps, q.
  rewrite !useful_nodes by done. done.
Qed.

Lemma after_ok : server_ok hist s2.
Proof.
  split.
  - intros id st (Hf & Hid & Hst)%steps_after. destruct (sv_step _ _ Hs id st Hst) as (t & b & ? & ? & ? & ?).
    exists t, b. split_and!; [done|done| |done].
    by rewrite (cl_builders _ _ Hcl), decide_False, (ta_builders _ _ _ _ _ Ht), decide_False.
  - intros id [st (Hf & Hid & Hst)%steps_after]. destruct (sv_nodes _ _ Hs id ltac:(eauto)) as [ps Hps].
    exists ps. apply nodes_after. split_and!; [done|by intros ?%consumed_taped|done].
  - intros id ps (_ & _ & Hn)%nodes_after. by apply (sv_node _ _ Hs).
  - apply (cl_statuses _ _ Hcl).
  - intros id t [st (Hf & Hid & Hst)%steps_after] Htt Ho.
    pose proof (left_reach id t ltac:(eauto) Hid Htt Ho) as Hr.
    destruct (cl_leaves _ _ Hcl id (cl_kept _ _ Hcl id Hf Hr)) as (x & Hx & Hux & Hxr).
    exists x. split; [done|by apply useful_path].
  - intros c ps p (Hf & _ & Hc)%nodes_after Hp Hl [st (_ & HpC & Hst)%steps_after].
    destruct (above_left c ps p Hc Hp Hl ltac:(eauto) HpC) as [[st' Hst'] HcC]. exists st'. by apply steps_after.
Qed.

(** ** Tapes that survive *)

(** The tape of [m] shares only leaves with that of the root. *)
Definition apart (m : NodeId) : Prop :=
  ∀ n st, ancestor (steps s) m n → ancestor (steps s) root n → steps s !! n = Some st → depth st = 0%N.

Section held.
Context (m : NodeId) (tm : AutodiffTensor) (Hm : tape_complete (steps s) m) (Hap : apart m).
Context (Htm : hist !! m = Some tm) (Hom : node_order (node tm) ≠ 0%N) (Hcount : (1 < count m)%N).

Lemma apart_left n st : ancestor (steps s) m n → steps s !! n = Some st → depth st ≠ 0%N → n ∉ C.
Proof. intros Ha Hst Hd [Hr _]%(proj1 HC). by apply Hd, (Hap n st). Qed.

(** A node below [m] is an operation of its tape, not taped, or has no parents. *)
Lemma below_held n :
  reach (nodes mm1) m n →
  (ancestor (steps s) m n ∧ ∃ st, steps s !! n = Some st ∧ depth st ≠ 0%N) ∨ nodes mm1 !! n = Some [].
Proof.
  revert n. apply rtc_ind_r.
  - left. split; [apply rtc_refl|]. destruct Hm as [[st Hst] _]. exists st. split; [done|].
    by rewrite (step_depth hist s Hs m st tm Hst Htm).
  - intros a b Ha Hab [(Hanc & st & Hst & Hd)|Hnil]; apply edge_spec in Hab as (ps & q & Hps & Hq & <- & Hf).
    2: { rewrite Hnil in Hps. simplify_eq. by apply elem_of_nil in Hq. }
    rewrite (ta_nodes _ _ _ _ _ Ht) in Hps. destruct (decide _); [done|].
    destruct (sv_step _ _ Hs a st Hst) as (ta & ba & Hta & (_ & Hpa & _) & _).
    destruct (sv_node _ _ Hs a ps Hps) as (ta' & Hta' & <-). simplify_eq.
    assert (has_parent (steps s) a q) as Hpar by (exists st; split; [done|]; by rewrite Hpa).
    destruct (step_parent hist next s Hh Hs a st q Hst ltac:(by rewrite Hpa)) as (_ & pt & _ & _ & Hpt & _ & Hleaf & _).
    destruct (is_leaf q) eqn:Hlq.
    + right. destruct Hf as [|[qs Hqs]]; [done|]. rewrite Hqs. f_equal. rewrite (ta_nodes _ _ _ _ _ Ht) in Hqs.
      destruct (decide _); [done|]. destruct (sv_node _ _ Hs _ _ Hqs) as (pt' & Hpt' & <-). simplify_eq.
      destruct (Hh _ _ Hpt) as (_ & _ & [Hpw _ _]). destruct (node_parents (node pt)) as [|x xs]; [done|].
      apply Forall_cons in Hpw as [(? & _ & _ & _ & Hlt & _) _]. symmetry in Hleaf. apply N.eqb_eq in Hleaf. lia.
    + left. split; [by eapply ancestor_parent|]. destruct (proj2 Hm a q Hanc Hpar) as [[sq Hsq]|Hl]; [|congruence].
      exists sq. split; [done|]. rewrite (step_depth hist s Hs _ sq pt Hsq Hpt). symmetry in Hleaf. by apply N.eqb_neq in Hleaf.
Qed.
Lemma held_useful n : reach (nodes mm1) m n → useful1 n.
Proof.
  intros Hn. exists m. split; [|done]. destruct (proj1 Hm) as [st Hst].
  assert (m ∉ C) as HmC.
  { apply (apart_left m st); [apply rtc_refl|done|]. by rewrite (step_depth hist s Hs m st tm Hst Htm). }
  split_and!; [by eapply left_reach| |done].
  intros k [(Ha & sk & Hsk & Hd)|Hk]%below_held; [|by rewrite Hk].
  destruct (sv_nodes _ _ Hs k ltac:(eauto)) as [ps Hps]. exists ps. rewrite (ta_nodes _ _ _ _ _ Ht), decide_False; [done|].
  intros ?%consumed_taped. by eapply (apart_left k).
Qed.

(** Every operation of the tape of [m] is reached from it in the memory left. *)
Lemma held_step n st : ancestor (steps s) m n → steps s !! n = Some st → depth st ≠ 0%N → reach (nodes mm1) m n.
Proof.
  intros Ha. revert st. revert n Ha. apply (rtc_ind_r (λ n, ∀ st, steps s !! n = Some st → depth st ≠ 0%N → reach (nodes mm1) m n)).
  { intros st _ _. apply rtc_refl. }
  intros a b Ha (p & (sa & Hsa & Hp) & <-) IH st Hst Hd.
  pose proof (parent_depth hist next s Hh Hs a sa p st Hsa Hp Hst) as Hlt.
  destruct (step_parent hist next s Hh Hs a sa p Hsa Hp) as (ta & pt & Hta & (_ & Hpa & _) & Hpt & _ & Hleaf & _).
  eapply rtc_r; [apply (IH sa Hsa); lia|]. apply edge_spec.
  destruct (sv_nodes _ _ Hs a ltac:(eauto)) as [ps Hps]. exists ps, p.
  destruct (sv_node _ _ Hs a ps Hps) as (ta' & Hta' & <-). simplify_eq. rewrite <-Hpa. split_and!; [|done|done|].
  - rewrite (ta_nodes _ _ _ _ _ Ht), decide_False; [by rewrite Hps, Hpa|]. intros ?%consumed_taped.
    eapply (apart_left a); [done|done|lia|done].
  - left. rewrite Hleaf. apply N.eqb_neq. by rewrite <-(step_depth hist s Hs _ st pt Hst Hpt).
Qed.

Lemma ancestor_after a b : ancestor (steps s2) a b → ancestor (steps s) a b.
Proof.
  intros Hab. induction Hab as [|a b c (p & (st & (_ & _ & Hst)%steps_after & Hp) & <-) _ IH]; [apply rtc_refl|].
  eapply rtc_l; [|done]. exists p. split; [|done]. by exists st.
Qed.
Lemma held_kept n st : ancestor (steps s) m n → steps s !! n = Some st → depth st ≠ 0%N → steps s2 !! n = Some st.
Proof.
  intros Ha Hst Hd. apply steps_after. split_and!; [|by eapply apart_left|done].
  intros Hf. by eapply (cl_freed _ _ Hcl n Hf), held_useful, held_step.
Qed.
Lemma held_complete : tape_complete (steps s2) m.
Proof.
  destruct (proj1 Hm) as [sm Hsm]. split.
  { exists sm. apply held_kept; [apply rtc_refl|done|]. by rewrite (step_depth hist s Hs m sm tm Hsm Htm). }
  intros a p Ha (st & (_ & _ & Hst)%steps_after & Hp). apply ancestor_after in Ha.
  destruct (is_leaf p) eqn:Hl; [by right|left].
  assert (has_parent (steps s) a p) as Hpar by by exists st.
  destruct (proj2 Hm a p Ha Hpar) as [[sp Hsp]|]; [|congruence]. exists sp. apply held_kept; [by eapply ancestor_parent|done|].
  destruct (step_parent hist next s Hh Hs a st p Hst Hp) as (_ & pt & _ & _ & Hpt & _ & Hleaf & _).
  rewrite (step_depth hist s Hs _ sp pt Hsp Hpt). rewrite Hl in Hleaf. symmetry in Hleaf. by apply N.eqb_neq in Hleaf.
Qed.
End held.
End after.
End cleaned.

(** ** The whole pass *)

(** What a backward pass that returns leaves behind. *)
Lemma pass_after root_node root_tensor g s2 cl :
  backward_local count s root_node root_tensor root = Ok (g, s2, cl) →
  server_ok hist s2 ∧ steps s2 !! root = None ∧
  ∀ m tm, tape_complete (steps s) m → apart m → hist !! m = Some tm → node_order (node tm) ≠ 0%N → (1 < count m)%N →
    tape_complete (steps s2) m.
Proof.
  unfold backward_local. destruct tape_nodes as (D & C & acc & -> & HC & Ht & Hbuilt). cbn [res_bind].
  rewrite Hbuilt.
  destruct (build (tape_builder acc) (tape_tree acc)) as [ck| |]; [|done|done]. cbn [res_bind].
  destruct (execute_steps _ _ _) as [bp| |]; [|done|done]. cbn [res_bind].
  destruct (cleanup_ok D C acc Ht) as (freed & s2' & -> & Hcl). cbn [res_bind]. intros [= <- <- <-]. split_and!.
  - by eapply after_ok.
  - destruct (steps s2' !! root) as [st|] eqn:Hst; [|done]. exfalso.
    apply (steps_after D C acc Ht freed s2' Hcl) in Hst as (_ & Hno & Hst). apply Hno, (proj1 HC). split; [apply rtc_refl|eauto].
  - intros m tm Hm Hap Htm Ho Hc. by eapply held_complete.
Qed.

(** The steps of the ancestry, each once, after the steps that read its node. *)
Definition schedule_for (L : list StepBoxed) : Prop :=
  (∀ st, st ∈ L ↔ ancestor (steps s) root (step_id st) ∧ steps s !! step_id st = Some st) ∧
  NoDup (step_id <$> L) ∧ children_first L ∧ Forall step_wf L.

Lemma pass_result root_node root_tensor :
  (graph_size ≤ usize_max)%N → node_id root_node = root →
  ∃ g s2 cl L, backward_local count s root_node root_tensor root = Ok (g, s2, cl) ∧ schedule_for L ∧
    holding g (consumed_ids L) (gather fwd L (seed root_tensor)).
Proof.
  intros Hsize Hid. unfold backward_local. destruct tape_nodes as (D & C & acc & -> & HC & Ht & Hbuilt). cbn [res_bind].
  rewrite Hbuilt.
  destruct (tape_checkpointer D C acc Hsize HC Ht) as (ck & -> & Hck). cbn [res_bind].
  destruct (tape_executed D C acc ck root_node root_tensor Hid HC Ht Hck) as (g & ck' & -> & _ & Hg). cbn [res_bind].
  destruct (cleanup_ok D C acc Ht) as (freed & s2 & -> & _). cbn [res_bind].
  exists g, s2, (freed ++ C), (schedule (tape acc)). split_and!; [done| |done].
  pose proof (schedule_is_ok count hist next s Hh Hs root Hcomplete D C acc (proj1 HC) (proj2 HC) Ht) as [H1 H2 H3 _].
  split_and!; [|done|done|done]. intros st. rewrite (schedule_perm count s _ _ acc Ht), (elem_of_steps_of s root C (proj1 HC)). split.
  - intros (id & [Ha _]%(proj1 HC) & Hst). rewrite (step_id_of hist next s Hh Hs id st Hst). done.
  - intros [Ha Hst]. exists (step_id st). split; [|done]. apply (proj1 HC). eauto.
Qed.
End pass.

(** An ancestry that is not complete is a panic, and nothing else is. *)
Lemma pass_incomplete root root_node root_tensor :
  ¬ tape_complete (steps s) root → backward_local count s root_node root_tensor root = Panic.
Proof.
  intros Hno. unfold backward_local, validate_tape.
  destruct (collect_steps_cases root (steps s)) as [(tl & -> & _ & _ & Hc)|(m & -> & _)]; [|done].
  destruct Hno. by eapply Hc, server_leaves_consistent.
Qed.
Lemma pass_complete root root_node root_tensor r :
  backward_local count s root_node root_tensor root = Ok r → tape_complete (steps s) root.
Proof.
  unfold backward_local, validate_tape.
  destruct (collect_steps_cases root (steps s)) as [(tl & -> & _ & _ & Hc)|(m & -> & _)]; [|done].
  intros _. by eapply Hc, server_leaves_consistent.
Qed.
End gradients.
