(* ===== verification/AutodiffSession.v ===== *)
(** * Automatic differentiation: sessions

    A program that differentiates: it makes tensors, requires gradients, runs lawful
    operations, runs backward passes and lets unused roots go, in any order and with
    any strong counts.  Every state it reaches meets the invariant. *)

From S2P Require Import Prelude AutodiffGraph AutodiffCheckpoint AutodiffCounts AutodiffMemory AutodiffMemoryProps AutodiffServer AutodiffAdjoint AutodiffOps AutodiffInv AutodiffForward AutodiffRun AutodiffTape AutodiffBackward AutodiffGradients.
Open Scope nat_scope.

Section session.
Context {P : Profile} {H : HashOrder} {B : Backend} (C : CheckpointStrategy).
Abbreviation History := (gmap NodeId AutodiffTensor).
Implicit Types (hist : History) (f : Forward) (s : AutodiffServer).

(** ** Unused roots *)

Lemma free_roots_ok count hist s : server_ok hist s → server_ok hist (server_free_unused_roots count s).1.
Proof.
  intros [H1 H2 H3 H4 H5 H6]. unfold server_free_unused_roots, free_unused_roots.
  set (l := clear_unused_roots count _ _).
  assert (∀ n, n ∈ l → ∃ ps, nodes (memory_management s) !! n = Some ps ∧
    Forall (λ p, nodes (memory_management s) !! parent_id p = None) ps) as Hl.
  { intros n (_ & _ & Hn)%elem_of_unused. exact Hn. }
  assert (∀ n ps, remove_nodes (nodes (memory_management s)) l !! n = Some ps → n ∉ l ∧ nodes (memory_management s) !! n = Some ps) as Hn.
  { intros n ps. rewrite remove_nodes_lookup. by destruct (decide (n ∈ l)). }
  assert (∀ n st, foldl (λ m n, delete n m) (steps s) l !! n = Some st → n ∉ l ∧ steps s !! n = Some st) as Hst.
  { intros n st. rewrite delete_all_lookup. by destruct (decide (n ∈ l)). }
  split; cbn [fst steps actions_builder memory_management nodes leaves statuses].
  - intros id st [Hid Hs]%Hst. destruct (H1 id st Hs) as (t & b & ? & ? & ? & ?). exists t, b.
    rewrite delete_all_lookup, decide_False by done. done.
  - intros id [st [Hid Hs]%Hst]. rewrite remove_nodes_lookup, decide_False by done. apply H2. eauto.
  - intros id ps [_ Hs]%Hn. by apply H3.
  - done.
  - intros id t [st [Hid Hs]%Hst] Ht Ho. destruct (H5 id t ltac:(eauto) Ht Ho) as (x & Hx & Hr). exists x. split; [done|].
    clear Hx Ht Ho. assert (is_Some (nodes (memory_management s) !! id)) as Hpr by eauto.
    assert (reach (remove_nodes (nodes (memory_management s)) l) x id ∧ is_Some (nodes (memory_management s) !! x) ∧ x ∉ l) as [? _];
      [|done].
    induction Hr as [x|x y z Hxy _ IH]; [split_and!; [apply rtc_refl|done|done]|].
    destruct (IH Hid Hs Hpr) as (Hyz & Hy & Hyl). pose proof (edge_present _ _ _ Hxy) as Hxp.
    apply edge_spec in Hxy as (ps & q & Hps & Hq & <- & Hf).
    assert (x ∉ l) as Hxl.
    { intros (ps' & Hps' & Hno)%Hl. simplify_eq. rewrite Forall_forall in Hno. rewrite (Hno q Hq) in Hy. by destruct Hy. }
    split_and!; [|done|done]. eapply rtc_l; [|done]. apply edge_spec. exists ps, q.
    rewrite !remove_nodes_lookup, !decide_False by done. auto.
  - intros c ps p [Hc Hps]%Hn Hp Hlf [st [_ Hs]%Hst]. destruct (H6 c ps p Hps Hp Hlf ltac:(eauto)) as [st' Hst'].
    exists st'. rewrite delete_all_lookup, decide_False by done. done.
Qed.

(** ** Operations at the end of the identifiers *)

Lemma from_parents_full v ns r props f : next_id f = u64_max → fst (from_parents v ns r props f) = Panic.
Proof.
  intros Hf. pose proof (new_id_panics f Hf) as Hp. unfold from_parents, tensor_plain, tensor_new, bind.
  destruct (_ && _); by destruct (new_id f) as [[] ?]; simplify_eq/=.
Qed.
Lemma finish_tracked_full p bw o v f : next_id f = u64_max → fst (finish_tracked p bw o v f) = Panic.
Proof.
  intros Hf. pose proof (from_parents_full v (prep_nodes p) (prep_requirement p) (prep_property p) f Hf) as Hp.
  unfold finish_tracked, bind. by destruct (from_parents _ _ _ _ f) as [[] ?]; simplify_eq/=.
Qed.
Lemma finish_untracked_full p v f : next_id f = u64_max → fst (finish_untracked p v f) = Panic.
Proof.
  intros Hf. pose proof (from_parents_full v (prep_nodes p) (prep_requirement p) (prep_property p) f Hf) as Hp.
  unfold finish_untracked, bind. by destruct (from_parents _ _ _ _ f) as [[] ?]; simplify_eq/=.
Qed.
Lemma run_unary_full op t f out f' : run_unary C op t f = (Ok out, f') → next_id f ≠ u64_max.
Proof.
  unfold run_unary, bind at 1, lift. destruct (prepare_op C [t] _) as [p| |]; [|done|done]. intros Hr Hf.
  destruct (tracked p); [destruct (checkpoint_all p _) as [p' ids]|].
  - pose proof (finish_tracked_full p' (BackwardUnary ids (un_backward op)) false (un_forward op (primitive t)) f Hf) as Hp.
    by rewrite Hr in Hp.
  - pose proof (finish_untracked_full p (un_forward op (primitive t)) f Hf) as Hp. by rewrite Hr in Hp.
Qed.
Lemma run_binary_full op a b f out f' : run_binary C op a b f = (Ok out, f') → next_id f ≠ u64_max.
Proof.
  unfold run_binary, bind at 1, lift. destruct (prepare_op C [a; b] _) as [p| |]; [|done|done]. intros Hr Hf.
  destruct (tracked p); [destruct (checkpoint_all p _) as [p' ids]|].
  - pose proof (finish_tracked_full p' (BackwardBinary ids (bin_backward_lhs op) (bin_backward_rhs op)) false
      (bin_forward op (primitive a) (primitive b)) f Hf) as Hp. by rewrite Hr in Hp.
  - pose proof (finish_untracked_full p (bin_forward op (primitive a) (primitive b)) f Hf) as Hp. by rewrite Hr in Hp.
Qed.

(** ** Sessions *)

(** The graph and the tensors the program holds. *)
Record Session := mkSession { forward : Forward; held : list AutodiffTensor }.
Definition session_start : Session := mkSession (mkForward 0 server_default) [].

Inductive session_step : relation Session :=
| session_new σ p t f : tensor_new p (forward σ) = (Ok t, f) → session_step σ (mkSession f (t :: held σ))
| session_require_grad σ t t' f :
    t ∈ held σ → require_grad t (forward σ) = (Ok t', f) → session_step σ (mkSession f (t' :: held σ))
| session_unary σ op t out f :
    unary_lawful op → t ∈ held σ → run_unary C op t (forward σ) = (Ok out, f) → session_step σ (mkSession f (out :: held σ))
| session_binary σ op a b out f :
    binary_lawful op → a ∈ held σ → b ∈ held σ → run_binary C op a b (forward σ) = (Ok out, f) →
    session_step σ (mkSession f (out :: held σ))
| session_backward σ count t g s cl :
    t ∈ held σ → is_tracked t = true →
    backward_local count (server (forward σ)) (node t) (primitive t) (node_id (node t)) = Ok (g, s, cl) →
    session_step σ (mkSession (mkForward (next_id (forward σ)) s) (held σ))
| session_free_roots σ count :
    session_step σ (mkSession (mkForward (next_id (forward σ)) (server_free_unused_roots count (server (forward σ))).1) (held σ))
| session_drop σ l : l ⊆ held σ → session_step σ (mkSession (forward σ) l).
Definition session_reaches : relation Session := rtc session_step.

Record session_ok hist (σ : Session) : Prop := {
  so_forward : forward_ok hist (forward σ);
  so_ids : (next_id (forward σ) ≤ u64_max)%N;
  so_held : Forall (valid hist) (held σ)
}.

Lemma session_start_ok : session_ok ∅ session_start.
Proof.
  split; [split|done|by apply Forall_nil]; [by intros id t|].
  split; simpl; try done; by intros ? [].
Qed.
Lemma session_made hist σ hist' f out :
  session_ok hist σ → forward_ok hist' f → (next_id f ≤ u64_max)%N → extends hist hist' → valid hist' out →
  session_ok hist' (mkSession f (out :: held σ)).
Proof.
  intros [_ _ Hv] Hf Hid He Ho. split; [done|done|]. apply Forall_cons. split; [done|].
  eapply Forall_impl; [done|]. intros t. by apply valid_extends.
Qed.

Context {HC : LawfulStrategy C}.

Lemma session_step_ok hist σ σ' :
  session_ok hist σ → session_step σ σ' → ∃ hist', session_ok hist' σ' ∧ extends hist hist'.
Proof.
  intros Hok Hstep. pose proof Hok as [Hf Hid Hv]. rewrite Forall_forall in Hv. 
  destruct Hstep as [σ p t f Hrun|σ t t' f Ht Hrun|σ op t out f Hlaw Ht Hrun|σ op a b out f Hlaw Ha Hb Hrun
    |σ count t g s cl Ht Htr Hrun|σ count|σ l Hl].
  - assert (next_id (forward σ) ≠ u64_max) as Hne.
    { intros Heq. pose proof (new_id_panics _ Heq) as Hp. unfold tensor_new, bind in Hrun.
      by destruct (new_id (forward σ)) as [[] ?]; simplify_eq/=. }
    destruct (tensor_new_ok hist (forward σ) p Hf ltac:(lia)) as (t' & hist' & f' & Hn & _ & Hf' & He & Hv').
    rewrite Hn in Hrun. injection Hrun as <- <-. exists hist'. split; [|done]. eapply session_made; [done|done| |done|done].
    unfold tensor_new, bind in Hn. rewrite new_id_ok in Hn by lia. injection Hn as _ <-. simpl. lia.
  - destruct (decide (autodiff_enabled (node t) = true ∧ requirement (node t) ≠ GradInBackward)) as [[He Hr]|Hno].
    2: { exfalso. unfold require_grad in Hrun. destruct (autodiff_enabled (node t)); [|done].
         destruct (requirement (node t)); [| |]; naive_solver. }
    destruct (require_grad_ok hist (forward σ) t Hf) as (t1 & hist' & f1 & Hn & _ & _ & Hnx & Hf1 & He1 & Hv1); [by apply Hv|done..|].
    rewrite Hn in Hrun. injection Hrun as <- <-. exists hist'. split; [|done]. eapply session_made; [done|done|lia|done|done].
  - pose proof (run_unary_full op t _ _ _ Hrun) as Hne.
    destruct (run_unary_ok C hist (forward σ) op t) as [Hp|(o & hist' & f1 & Hn & _ & Hf1 & Hnx & He1 & Hv1)];
      [done|done|lia|by apply Hv|by rewrite Hrun in Hp|].
    rewrite Hn in Hrun. injection Hrun as <- <-. exists hist'. split; [|done]. eapply session_made; [done|done|lia|done|done].
  - pose proof (run_binary_full op a b _ _ _ Hrun) as Hne.
    destruct (run_binary_ok C hist (forward σ) op a b) as [Hp|(o & hist' & f1 & Hn & _ & Hf1 & Hnx & He1 & Hv1)];
      [done|done|lia|by apply Hv|by apply Hv|by rewrite Hrun in Hp|].
    rewrite Hn in Hrun. injection Hrun as <- <-. exists hist'. split; [|done]. eapply session_made; [done|done|lia|done|done].
  - exists hist. split; [|apply extends_refl]. destruct Hf as [Hh Hs]. split; [|done|apply (so_held _ _ Hok)]. split; [done|].
    pose proof (pass_complete count hist (next_id (forward σ)) _ Hh Hs (node_id (node t)) (node t) (primitive t) _ Hrun) as Hc.
    by destruct (pass_after count hist (next_id (forward σ)) _ Hh Hs _ Hc _ _ _ _ _ Hrun).
  - exists hist. split; [|apply extends_refl]. destruct Hf as [Hh Hs]. split; [|done|apply (so_held _ _ Hok)]. split; [done|by apply free_roots_ok].
  - exists hist. split; [|apply extends_refl]. split; [done|done|]. apply Forall_forall. auto.
Qed.
Lemma session_reaches_ok hist σ σ' :
  session_ok hist σ → session_reaches σ σ' → ∃ hist', session_ok hist' σ' ∧ extends hist hist'.
Proof.
  intros Hok Hr. revert hist Hok. induction Hr as [σ|σ σ1 σ2 Hstep _ IH]; intros hist Hok.
  { exists hist. split; [done|apply extends_refl]. }
  destruct (session_step_ok hist σ σ1 Hok Hstep) as (hist1 & Hok1 & He1). destruct (IH hist1 Hok1) as (hist2 & Hok2 & He2).
  exists hist2. split; [done|]. intros id t Ht. destruct (He1 id t Ht) as (t1 & Ht1 & Hb1).
  destruct (He2 id t1 Ht1) as (t2 & Ht2 & Hb2). exists t2. split; [done|by eapply becomes_trans].
Qed.
End session.
