(* ===== verification/AutodiffProps.v ===== *)
(** * Automatic differentiation: what sessions and their parts guarantee

    The properties of the autodiff crate, each with a concrete use: sessions keep the
    invariant of the graph, gradients are those of the chain rule, a backward pass
    leaves the other tapes usable, checkpointing gives back the forward outputs, and
    graph memory is freed exactly when it can no longer be used. *)

From S2P Require Import Prelude AutodiffGraph AutodiffCheckpoint AutodiffCounts AutodiffServe AutodiffRetrieve AutodiffMemory AutodiffMemoryProps AutodiffServer AutodiffAdjoint AutodiffOps AutodiffInv AutodiffForward AutodiffRun AutodiffTape AutodiffBackward AutodiffGradients AutodiffSession.
Open Scope nat_scope.

Section props.
Context {P : Profile} {H : HashOrder} {B : Backend}.

(** C20. Every state a program reaches from an empty graph, whatever tensors it makes,
    gradients it requires, operations it runs under a lawful checkpointing strategy,
    backward passes it makes and references it drops, meets the invariant: tensors
    have older tracked parents of lower order, a recomputable tensor replays to its
    output, every step has its actions and its node in the graph memory, and every
    operation not consumed is below a leaf of that memory. *)
Theorem session_invariant (C : CheckpointStrategy) (HC : LawfulStrategy C) σ :
  session_reaches C session_start σ → ∃ hist, session_ok hist σ.
Proof.
  intros Hr. destruct (session_reaches_ok C ∅ session_start σ session_start_ok Hr) as (hist & Hok & _). by exists hist.
Qed.

(** The gradients of a pass from [t]: the one solution of the chain rule on the steps
    of the ancestry of [t], at the outputs of the forward pass, less those of the
    operations, which are consumed. *)
Definition chain_rule_gradients (hist : gmap NodeId AutodiffTensor) (s : AutodiffServer) (t : AutodiffTensor)
    (g : gmap NodeId FloatTensorPrimitive) : Prop :=
  ∃ L adj,
    let rule := chain_rule (outputs hist (primitive t)) L (seed (node_id (node t)) (primitive t)) in
    schedule_for s (node_id (node t)) L ∧ rule adj ∧ (∀ adj', rule adj' → ∀ n, adj' n = adj n) ∧
    ∀ n, g !! n = if decide (n ∈ consumed_ids L) then None else adj n.

(** C19. A backward pass of a reachable session, from a held tensor whose ancestry is
    complete, returns, and its gradients are those of the chain rule: the gradient of
    a node is the sum, in the order of the schedule, of what the steps that read it
    send back, computed at the outputs of the forward pass, recomputed or not. *)
Theorem session_gradients (C : CheckpointStrategy) (HC : LawfulStrategy C) σ count t :
  session_reaches C session_start σ → t ∈ held σ → tape_complete (steps (server (forward σ))) (node_id (node t)) →
  (graph_size (server (forward σ)) ≤ usize_max)%N →
  ∃ hist g s cl,
    backward_local count (server (forward σ)) (node t) (primitive t) (node_id (node t)) = Ok (g, s, cl) ∧
    (∀ u, u ∈ held σ → outputs hist (primitive t) (node_id (node u)) = primitive u) ∧
    chain_rule_gradients hist (server (forward σ)) t g.
Proof.
  intros Hr Ht Hc Hsize. destruct (session_reaches_ok C ∅ session_start σ session_start_ok Hr) as (hist & [[Hh Hs] _ Hv] & _).
  destruct (pass_result count hist _ _ Hh Hs (node_id (node t)) Hc (primitive t) (node t) (primitive t) Hsize eq_refl)
    as (g & s & cl & L & Hb & HL & Hg). pose proof HL as (_ & Hnd & Hord & Hwf).
  exists hist, g, s, cl. split_and!; [done| |].
  - intros u Hu. rewrite Forall_forall in Hv. destruct (Hv u Hu) as (u0 & Hu0 & (Hp & _) & _).
    unfold outputs. by rewrite Hu0.
  - pose proof (gather_chain_rule (outputs hist (primitive t)) L (seed (node_id (node t)) (primitive t)) Hwf Hord) as Hadj.
    eexists L, _. split_and!; [done|exact Hadj| |done].
    intros adj' Hadj'. by apply (chain_rule_unique _ _ _ _ _ Hwf Hord Hnd Hadj' Hadj).
Qed.


(** C21. A backward pass keeps the invariant of the graph, consumes the step of its
    root, so that a second pass from it panics, and leaves every other tape that is
    still held complete: that of each referenced operation whose ancestry shares only
    leaves with the root's. *)
Theorem backward_keeps_tapes (C : CheckpointStrategy) (HC : LawfulStrategy C) σ count t g s cl :
  session_reaches C session_start σ → t ∈ held σ →
  backward_local count (server (forward σ)) (node t) (primitive t) (node_id (node t)) = Ok (g, s, cl) →
  (∀ count', backward_local count' s (node t) (primitive t) (node_id (node t)) = Panic) ∧
  ∀ u, u ∈ held σ → is_tracked u = true → node_order (node u) ≠ 0%N → (1 < count (node_id (node u)))%N →
    tape_complete (steps (server (forward σ))) (node_id (node u)) →
    apart (server (forward σ)) (node_id (node t)) (node_id (node u)) → tape_complete (steps s) (node_id (node u)).
Proof.
  intros Hr Ht Hb. destruct (session_reaches_ok C ∅ session_start σ session_start_ok Hr) as (hist & [[Hh Hs] _ Hv] & _).
  pose proof (pass_complete count hist _ _ Hh Hs _ _ _ _ Hb) as Hc.
  destruct (pass_after count hist _ _ Hh Hs _ Hc _ _ _ _ _ Hb) as (Hs' & Hroot & Hkeep). split.
  - intros count'. eapply pass_incomplete; [done|done|]. intros [[st Hst] _]. congruence.
  - intros u Hu Htr Ho Hcount Hcu Hap. rewrite Forall_forall in Hv. destruct (Hv u Hu) as (u0 & Hu0 & (_ & _ & _ & _ & Hb0 & _) & _).
    eapply (Hkeep _ u0); [done|done|done| |done]. destruct (Hb0 Htr) as [-> _]. done.
Qed.

(** C22. Checkpointing is a round trip: a checkpointer built from the actions of a graph
    answers the requests it was built for, in any order, each with the output of the
    forward pass, whether kept or recomputed, and is empty at the end. *)
Theorem checkpoint_roundtrip (tree : NodeTree) (fwd : NodeId → FloatTensorPrimitive) (rank : NodeId → N) b E :
  (∀ c ps p, tree !! c = Some ps → p ∈ ps → (rank p < rank c)%N) → builder_ok tree fwd b →
  (len (explicit_actions b) + N.of_nat (tree_total tree) ≤ usize_max)%N → E ≡ₚ (act_id <$> explicit_actions b) →
  ∃ ck ck', build b tree = Ok ck ∧ map_each E retrieve_node_output ck = (Ok (fwd <$> E), ck') ∧ is_empty ck' = true.
Proof.
  intros Hrank Hb Hsize HE. destruct (build_ok tree fwd b Hb Hsize) as (ck & Hck & R & Hs & Hrest).
  destruct (retrieve_all tree fwd rank Hrank ck E []) as (ck' & Hall & Hck').
  { exists R. split; [|done]. eapply serving_perm; [|done]. by rewrite app_nil_r. }
  exists ck, ck'. split_and!; [done|done|by eapply checkpointer_drained].
Qed.

(** C24. On an acyclic graph [free_unavailable_nodes] returns, and frees exactly the
    nodes below the leaves, and the orphan roots, that no referenced tensor with a
    complete ancestry needs; every node kept for such a tensor stays below a new
    leaf. *)
Theorem free_unavailable_exact count mm (rank : NodeId → N) :
  acyclic (nodes mm) rank → statuses mm = ∅ →
  ∃ mm' freed, free_unavailable_nodes count mm = Ok (mm', freed) ∧
    (∀ n, nodes mm' !! n = if decide (n ∈ freed) then None else nodes mm !! n) ∧
    (∀ n, n ∈ freed ↔ ¬ useful (nodes mm) count (leaves mm) n ∧ (leaf_reach (nodes mm) (leaves mm) n ∨ orphan_root count mm n)) ∧
    (∀ v, useful (nodes mm) count (leaves mm) v → ∃ x, x ∈ leaves mm' ∧ reach (nodes mm) x v).
Proof.
  intros Hrank Hsts. destruct (free_unavailable_ok count mm rank Hrank Hsts) as (mm' & freed & ? & _ & ? & ? & _ & _ & ?). eauto 10.
Qed.
End props.

(** ** A concrete session

    Integers as tensors, and [z = (x * x) * (x * x)] by two squarings under balanced
    checkpointing, so that the first square is recomputed for the second; [w] is
    another square of the leaf. *)

Module Demo.
#[export] Instance demo_profile : Profile := {| overflow_checks := true; debug_assertions := true |}.
#[export] Instance demo_order : HashOrder := {| hash_iter _ X := elements X; hash_iter_perm _ X := Permutation_refl _ |}.
#[export] Instance demo_backend : Backend :=
  {| FloatTensorPrimitive := Z; Scalar := Z; float_add := Z.add; float_ones_like _ := 1%Z |}.

Definition square : UnaryOp :=
  @mkUnary demo_backend (Some (λ i, @RetroUnary demo_backend i (λ x : Z, (x * x)%Z))) true (λ x : Z, (x * x)%Z)
    (λ (vals : list Z) (g : Z), match vals with [x] => (2 * x * g)%Z | _ => g end).
Lemma square_lawful : unary_lawful square.
Proof. intros rf i [= <-]. by split. Qed.

Definition made (r : res False AutodiffTensor * Forward) : AutodiffTensor * Forward :=
  match r with
  | (Ok t, f) => (t, f)
  | (_, f) => (mkTensor (0%Z : @FloatTensorPrimitive demo_backend) (Node_new [] 0 0 NoGrad Ambiguous), f)
  end.
Definition step0 := made (tensor_new (3%Z : @FloatTensorPrimitive demo_backend) (mkForward 0 server_default)).
Definition step1 := made (require_grad step0.1 step0.2).
Definition step2 := made (run_unary BalancedCheckpointing square step1.1 step1.2).
Definition step3 := made (run_unary BalancedCheckpointing square step2.1 step2.2).
Definition step4 := made (run_unary BalancedCheckpointing square step1.1 step3.2).
Definition session : Session := mkSession step4.2 [step4.1; step3.1; step2.1; step1.1; step0.1].

Lemma session_reached : session_reaches BalancedCheckpointing session_start session.
Proof.
  eapply rtc_l; [eapply (session_new (B:=demo_backend) _ session_start 3%Z step0.1 step0.2); vm_compute; reflexivity|].
  eapply rtc_l; [eapply (session_require_grad _ _ step0.1 step1.1 step1.2); [by left|vm_compute; reflexivity]|].
  eapply rtc_l; [eapply (session_unary _ _ square step1.1 step2.1 step2.2); [apply square_lawful|by left|vm_compute; reflexivity]|].
  eapply rtc_l; [eapply (session_unary _ _ square step2.1 step3.1 step3.2); [apply square_lawful|by left|vm_compute; reflexivity]|].
  eapply rtc_l; [eapply (session_unary _ _ square step1.1 step4.1 step4.2); [apply square_lawful|right; right; by left|vm_compute; reflexivity]|].
  apply rtc_refl.
Qed.

(** Every tensor of the session is still referenced. *)
Definition counts (n : NodeId) : N := 2.
Definition gradients : option (gmap NodeId Z) :=
  match backward_local counts (server step4.2) (node step3.1) (primitive step3.1) (node_id (node step3.1)) with
  | Ok (g, _, _) => Some g
  | _ => None
  end.
(** The derivative of [x ^ 4] at 3. *)
Example gradient_of_fourth_power : (gradients ≫= λ g, g !! node_id (node step1.1)) = Some 108%Z.
Proof. vm_compute. reflexivity. Qed.

Lemma session_invariant_witness : ∃ hist, session_ok hist session.
Proof. apply (session_invariant BalancedCheckpointing balanced_lawful session session_reached). Defined.

Definition after : res False (gmap NodeId Z * AutodiffServer * list NodeId) :=
  backward_local counts (server step4.2) (node step3.1) (primitive step3.1) (node_id (node step3.1)).
Definition server_after : AutodiffServer := match after with Ok (_, s, _) => s | _ => server_default end.
Definition cleaned_after : list NodeId := match after with Ok (_, _, cl) => cl | _ => [] end.
Lemma pass_ran : after = Ok (default ∅ gradients, server_after, cleaned_after).
Proof. vm_compute. reflexivity. Qed.

Lemma root_complete : tape_complete (steps (server step4.2)) (node_id (node step3.1)).
Proof.
  destruct (session_reaches_ok BalancedCheckpointing ∅ session_start session session_start_ok session_reached)
    as (hist & [[Hh Hs] _ _] & _). exact (pass_complete counts hist _ _ Hh Hs _ _ _ _ pass_ran).
Qed.
Lemma size_fits : (graph_size (server (forward session)) ≤ usize_max)%N.
Proof. vm_compute. discriminate. Qed.

Lemma session_gradients_witness :
  ∃ hist g s cl, after = Ok (g, s, cl) ∧
    (∀ u, u ∈ held session → outputs hist (primitive step3.1) (node_id (node u)) = primitive u) ∧
    chain_rule_gradients hist (server step4.2) step3.1 g.
Proof.
  apply (session_gradients BalancedCheckpointing balanced_lawful session counts step3.1 session_reached).
  - right. by left.
  - apply root_complete.
  - apply size_fits.
Defined.


(** The ancestry of [z] and that of [w]. *)
Lemma ancestor_within {A} `{TraversalItem A} (m : gmap NodeId A) (X : list NodeId) r n :
  r ∈ X → forallb (λ a, forallb (λ p, bool_decide (parent_id p ∈ X)) (default [] (item_parents <$> m !! a))) X = true →
  ancestor m r n → n ∈ X.
Proof.
  intros Hr Hall. rewrite forallb_forall in Hall. revert n. apply rtc_ind_r; [done|].
  intros a b _ (p & (i & Hi & Hp) & <-) Ha. specialize (Hall a (proj1 (list_elem_of_In _ _) Ha)). rewrite Hi in Hall.
  rewrite forallb_forall in Hall. by apply (bool_decide_eq_true_1 _), Hall, list_elem_of_In.
Qed.
Lemma tapes_apart : apart (server step4.2) (node_id (node step3.1)) (node_id (node step4.1)).
Proof.
  intros n st Hw Hz Hst.
  pose proof (ancestor_within (steps (server step4.2)) [3; 0]%N (node_id (node step4.1)) n ltac:(by left) ltac:(vm_compute; reflexivity) Hw) as H1.
  pose proof (ancestor_within (steps (server step4.2)) [2; 1; 0]%N (node_id (node step3.1)) n ltac:(by left) ltac:(vm_compute; reflexivity) Hz) as H2.
  assert (n = 0%N) as -> by set_solver. vm_compute in Hst. by injection Hst as <-.
Qed.
Lemma other_complete : tape_complete (steps (server step4.2)) (node_id (node step4.1)).
Proof.
  destruct (session_reaches_ok BalancedCheckpointing ∅ session_start session session_start_ok session_reached)
    as (hist & [[Hh Hs] _ _] & _).
  destruct (backward_local counts (server step4.2) (node step4.1) (primitive step4.1) (node_id (node step4.1))) as [r| |] eqn:Hb;
    [|by vm_compute in Hb..].
  by apply (pass_complete counts hist _ _ Hh Hs _ (node step4.1) (primitive step4.1) r).
Qed.

(** The actions of [z]: the first square is recomputed from the leaf. *)
Definition demo_tree : NodeTree := {[1%N := [0%N]]}.
Definition demo_outputs (n : NodeId) : Z := if (n =? 0)%N then 3%Z else 9%Z.
Definition demo_builder : CheckpointerBuilder :=
  mkBuilder [ActRecompute 1%N (@RetroUnary demo_backend 0%N (λ x : Z, (x * x)%Z))]
    [ActComputed 0%N (@FloatBox demo_backend 3%Z)].
Lemma checkpoint_roundtrip_witness :
  ∃ ck ck', build demo_builder demo_tree = Ok ck ∧
    map_each [1%N] retrieve_node_output ck = (Ok [9%Z], ck') ∧ is_empty ck' = true.
Proof.
  apply (checkpoint_roundtrip (B:=demo_backend) demo_tree demo_outputs (λ n, n) demo_builder [1%N]).
  - intros c ps p Hc Hp. unfold demo_tree in Hc. rewrite lookup_singleton_Some in Hc. destruct Hc as [<- <-]. by apply list_elem_of_singleton in Hp as ->.
  - apply Forall_cons. split; [split; [done|]|apply Forall_singleton; split; [done|]].
    + apply Forall_singleton. right. by left.
    + intros rf Hrf. unfold actions in Hrf. simpl in Hrf. rewrite elem_of_cons, list_elem_of_singleton in Hrf. by destruct Hrf.
  - vm_compute. discriminate.
  - done.
Defined.

(** A leaf [0] and an operation [1] on it, neither of them referenced any more. *)
Definition demo_memory : GraphMemoryManagement := mkMemory {[1%N := [mkParent 0%N true]; 0%N := []]} {[1%N]} ∅.
Lemma free_unavailable_exact_witness :
  ∃ mm' freed, free_unavailable_nodes (λ _, 1%N) demo_memory = Ok (mm', freed) ∧
    (∀ n, nodes mm' !! n = if decide (n ∈ freed) then None else nodes demo_memory !! n) ∧
    (∀ n, n ∈ freed ↔ ¬ useful (nodes demo_memory) (λ _, 1%N) (leaves demo_memory) n ∧
       (leaf_reach (nodes demo_memory) (leaves demo_memory) n ∨ orphan_root (λ _, 1%N) demo_memory n)) ∧
    (∀ v, useful (nodes demo_memory) (λ _, 1%N) (leaves demo_memory) v → ∃ x, x ∈ leaves mm' ∧ reach (nodes demo_memory) x v).
Proof.
  apply (free_unavailable_exact (λ _, 1%N) demo_memory (λ n, n)); [|done].
  intros n ps p Hn Hp. cbn in Hn. rewrite lookup_insert_Some, lookup_singleton_Some in Hn. destruct Hn as [[<- <-]|[_ [<- <-]]].
  - apply list_elem_of_singleton in Hp as ->. done.
  - by apply elem_of_nil in Hp.
Defined.

Lemma collect_steps_exact_witness :
  match collect_steps 2%N (steps (server step4.2)) with
  | Ok nodes => tape_complete (steps (server step4.2)) 2%N ∧ head nodes = Some 2%N ∧ NoDup nodes ∧
      ∀ n, n ∈ nodes ↔ ancestor (steps (server step4.2)) 2%N n ∧ is_Some (steps (server step4.2) !! n)
  | Err m => ¬ tape_complete (steps (server step4.2)) 2%N ∧ ancestor (steps (server step4.2)) 2%N m ∧
      steps (server step4.2) !! m = None
  | Panic => False
  end.
Proof.
  apply (collect_steps_exact 2%N (steps (server step4.2))).
  destruct (session_reaches_ok BalancedCheckpointing ∅ session_start session session_start_ok session_reached)
    as (hist & [[Hh Hs] _ _] & _). exact (server_leaves_consistent hist _ _ Hh Hs).
Defined.

Lemma backward_keeps_tapes_witness :
  (∀ count', backward_local count' server_after (node step3.1) (primitive step3.1) (node_id (node step3.1)) = Panic) ∧
  tape_complete (steps server_after) (node_id (node step4.1)).
Proof.
  destruct (backward_keeps_tapes BalancedCheckpointing balanced_lawful session counts step3.1 _ _ _ session_reached
    ltac:(right; by left) pass_ran) as [Hp Hk]. split; [exact Hp|].
  apply (Hk step4.1); [by left|vm_compute; reflexivity|vm_compute; discriminate|vm_compute; reflexivity| |].
  - apply other_complete.
  - apply tapes_apart.
Defined.
End Demo.
