(* ===== verification/AutodiffLocator.v ===== *)
(** * Automatic differentiation: the graphs of a process

    [GraphLocator] and [GraphMutexClient] of [runtime/graph.rs]: which graph a node
    belongs to, merging graphs when an operation joins them, and the client that
    registers steps and runs backward passes through the locator.

    [Arc<Graph>] is an address in a heap of graphs: two graphs may have the same
    origin, so the origin is not enough to tell them apart. *)

From S2P Require Import Prelude AutodiffGraph AutodiffCheckpoint AutodiffMemory AutodiffServer.
Open Scope nat_scope.

Section locator.
Context {P : Profile} {H : HashOrder} {B : Backend}.

(** [struct Graph { origin, state: Mutex<GraphState> }] *)
Record Graph := mkGraph { origin : NodeId; graph_server : AutodiffServer }.

Record GraphLocator := mkLocator {
  graphs : gmap NodeId N;
  keys : gmap NodeId (gset NodeId);
  graph_heap : gmap N Graph;
  next_graph : N
}.
Definition locator_default : GraphLocator := mkLocator ∅ ∅ ∅ 0.

(** The origin of a graph; an [Arc] never dangles. *)
Definition origin_of (self : GraphLocator) (a : N) : NodeId :=
  match graph_heap self !! a with Some g => origin g | None => 0%N end.

Definition new_graph (self : GraphLocator) (o : NodeId) : N * GraphLocator :=
  (next_graph self,
   mkLocator (<[o := next_graph self]> (graphs self)) (<[o := ∅]> (keys self))
     (<[next_graph self := mkGraph o server_default]> (graph_heap self)) (next_graph self + 1)).

Definition register_key (self : GraphLocator) (o key : NodeId) : GraphLocator :=
  let ks := match keys self !! o with Some _ => keys self | None => <[o := ∅]> (keys self) end in
  mkLocator (graphs self) (if decide (o = key) then ks else alter (λ X, {[key]} ∪ X) o ks)
    (graph_heap self) (next_graph self).

Inductive GraphAnalysis :=
| NoCollision (graph : N)
| Collisions (found : gmap NodeId N).

(** The graphs of the parents and of the node, by origin. *)
Definition collect_graphs (self : GraphLocator) (node : NodeId) (parents : list Parent) : gmap NodeId N :=
  foldl (λ found parent,
      match graphs self !! parent_id parent with
      | Some a => <[origin_of self a := a]> found
      | None => found
      end)
    (match graphs self !! node with Some a => {[origin_of self a := a]} | None => ∅ end) parents.

(** The graph a node has already, or a new one. *)
Definition own_graph (self : GraphLocator) (node : NodeId) : N * GraphLocator :=
  match graphs self !! node with
  | Some a => (a, self)
  | None => new_graph self node
  end.

Definition analyse (self : GraphLocator) (node : NodeId) (parents : list Parent) : GraphAnalysis * GraphLocator :=
  match parents with
  | [] => let '(a, self) := own_graph self node in (NoCollision a, self)
  | _ =>
      let found := collect_graphs self node parents in
      match map_iter 0 found with
      | [] => let '(a, self) := own_graph self node in (NoCollision a, self)
      | [(_, a)] => (NoCollision a, self)
      | _ => (Collisions found, self)
      end
  end.

Definition set_graphs (self : GraphLocator) (gs : gmap NodeId N) : GraphLocator :=
  mkLocator gs (keys self) (graph_heap self) (next_graph self).
Definition point_to (a : N) (gs : gmap NodeId N) (l : list NodeId) : gmap NodeId N :=
  foldl (λ gs k, <[k := a]> gs) gs l.

(** [merge_two]: the server of [merged] moves to [main], and the keys of [merged] with it. *)
Definition merge_two (self : GraphLocator) (main merged : N) : res False GraphLocator :=
  match graph_heap self !! main, graph_heap self !! merged with
  | Some gm, Some gd =>
      let heap := <[main := mkGraph (origin gm) (server_extend (graph_server gm) (graph_server gd))]>
                    (<[merged := mkGraph (origin gd) server_default]> (graph_heap self)) in
      let gs := <[origin gd := main]> (graphs self) in
      match keys self !! origin gd with
      | None => Ok (mkLocator gs (keys self) heap (next_graph self))
      | Some locator_keys =>
          let gs := point_to main gs (hash_iter 0 locator_keys) in
          let rest := delete (origin gd) (keys self) in
          match rest !! origin gm with
          | Some main_keys =>
              Ok (mkLocator gs (<[origin gm := main_keys ∪ locator_keys]> rest) heap (next_graph self))
          | None => Panic
          end
      end
  | _, _ => Panic
  end.

Fixpoint merge_all (self : GraphLocator) (main : N) (l : list N) : res False GraphLocator :=
  match l with
  | [] => Ok self
  | graph :: l => let? self := merge_two self main graph in merge_all self main l
  end.

Definition merge (self : GraphLocator) (node : NodeId) (found : gmap NodeId N) : res False (N * GraphLocator) :=
  match (map_iter 1 found).*2 with
  | [] => Panic
  | main :: rest =>
      let? self := merge_all (register_key self (origin_of self main) node) main rest in
      Ok (main, set_graphs self (<[node := main]> (<[origin_of self main := main]> (graphs self))))
  end.

(** [if graph.origin != node { graphs.insert(node, graph); register_key(graph.origin, node) }] *)
Definition attach (self : GraphLocator) (node : NodeId) (a : N) : GraphLocator :=
  let o := origin_of self a in
  if decide (o = node) then self else register_key (set_graphs self (<[node := a]> (graphs self))) o node.

Definition select (self : GraphLocator) (node : NodeId) (parents : list Parent) : res False (N * GraphLocator) :=
  match analyse self node parents with
  | (NoCollision a, self) => Ok (a, attach self node a)
  | (Collisions found, self) => merge self node found
  end.

Definition remove_entry (self : GraphLocator) (node : NodeId) : GraphLocator :=
  match graphs self !! node with
  | None => self
  | Some a =>
      let o := origin_of self a in
      let gs := delete node (graphs self) in
      let ks :=
        match keys self !! o with
        | None => keys self
        | Some entry =>
            let entry := entry ∖ {[node]} in
            if decide (entry = ∅) then delete o (keys self) else <[o := entry]> (keys self)
        end in
      mkLocator gs ks (graph_heap self) (next_graph self)
  end.

(** ** [GraphMutexClient] *)

Definition set_server (self : GraphLocator) (a : N) (s : AutodiffServer) : GraphLocator :=
  mkLocator (graphs self) (keys self) (alter (λ g, mkGraph (origin g) s) a (graph_heap self)) (next_graph self).
Definition server_of (self : GraphLocator) (a : N) : AutodiffServer :=
  match graph_heap self !! a with Some g => graph_server g | None => server_default end.

(** [GraphMutexClient::register] *)
Definition client_register (node : NodeId) (s : StepBoxed) (acts : CheckpointerBuilder) : M GraphLocator False unit := λ self,
  match select self node (item_parents s) with
  | Ok (a, self) => (Ok tt, set_server self a (server_register (server_of self a) node s acts))
  | _ => (Panic, self)
  end.

(** [cleanup_orphaned_entries]: the graphs in the order of the map's values. *)
Fixpoint free_orphans (count : NodeId → N) (self : GraphLocator) (l : list N) (should_remove : list NodeId) :
    GraphLocator * list NodeId :=
  match l with
  | [] => (self, should_remove)
  | a :: l =>
      if maybe_useful count (memory_management (server_of self a)) then free_orphans count self l should_remove
      else
        let '(s, freed) := server_free_unused_roots count (server_of self a) in
        free_orphans count (set_server self a s) l (should_remove ++ freed)
  end.
Definition cleanup_orphaned_entries (count : NodeId → N) (self : GraphLocator) : GraphLocator :=
  let '(self, should_remove) := free_orphans count self (map_iter 0 (graphs self)).*2 [] in
  foldl remove_entry self should_remove.

(** [GraphMutexClient::backward_local]; [count'] are the strong counts once the pass is
    over. *)
Definition client_backward (count count' : NodeId → N) (root_node : Node) (root_tensor : FloatTensorPrimitive) :
    M GraphLocator False (gmap NodeId FloatTensorPrimitive) := λ self,
  match select self (node_id root_node) [] with
  | Ok (a, self) =>
      match backward_local count (server_of self a) root_node root_tensor (node_id root_node) with
      | Ok (g, s, cleaned) =>
          (Ok g, cleanup_orphaned_entries count' (foldl remove_entry (set_server self a s) cleaned))
      | _ => (Panic, self)
      end
  | _ => (Panic, self)
  end.

(** [GraphMutexClient::gradient_paths] *)
Definition client_gradient_paths (self : GraphLocator) (root : NodeId) (candidates : list NodeId) : res False (list bool) :=
  match graphs self !! root with
  | Some a => gradient_paths (steps (server_of self a)) root candidates
  | None => Ok ((λ candidate, bool_decide (candidate = root)) <$> candidates)
  end.
End locator.
