(* ===== verification/AutodiffClient.v ===== *)
(** * Automatic differentiation: graphs that meet

    [GraphLocator::select] puts a node in one graph with all the steps of the graphs
    of its parents, and loses no step of any graph.  The origin of a graph that was
    merged is not moved by a second merge: a tape that is complete can then be reported
    as consumed.  Locks are taken in two orders, so a backward pass and a merge can wait
    for each other for ever. *)

From S2P Require Import Prelude AutodiffGraph AutodiffCheckpoint AutodiffMemory AutodiffServer AutodiffLocator AutodiffProps.
Open Scope nat_scope.

Section client.
Context {P : Profile} {H : HashOrder} {B : Backend}.
Implicit Types (self : GraphLocator) (a b main : N) (k n : NodeId).

(** A graph that some node points to. *)
Definition pointed self a : Prop := ∃ k, graphs self !! k = Some a.
(** Some graph has the step [st] for [n]. *)
Definition has_step self n (st : StepBoxed) : Prop :=
  ∃ a g, graph_heap self !! a = Some g ∧ steps (graph_server g) !! n = Some st.

Record locator_wf self : Prop := {
  lw_heap a : pointed self a → is_Some (graph_heap self !! a);
  lw_next a : is_Some (graph_heap self !! a) → (a < next_graph self)%N;
  lw_steps a b g h n : graph_heap self !! a = Some g → graph_heap self !! b = Some h →
    is_Some (steps (graph_server g) !! n) → is_Some (steps (graph_server h) !! n) → a = b;
  lw_origin a b : pointed self a → pointed self b → origin_of self a = origin_of self b → a = b
}.
(** A node without a graph is not the origin of one. *)
Definition fresh_origin self (node : NodeId) : Prop :=
  graphs self !! node = None → ∀ a, pointed self a → origin_of self a ≠ node.

Lemma locator_default_wf : locator_wf locator_default.
Proof.
  split.
  - by intros a [k Hk].
  - by intros a [g Hg].
  - by intros a b g h n Hg.
  - by intros a b [k Hk].
Qed.

(** What a change of the locator keeps: origins, steps, and which graphs are pointed to. *)
Record moved self self' : Prop := {
  mv_heap a : is_Some (graph_heap self' !! a) ↔ is_Some (graph_heap self !! a);
  mv_next : next_graph self' = next_graph self;
  mv_origin a : origin_of self' a = origin_of self a;
  mv_step n st : has_step self' n st ↔ has_step self n st;
  mv_pointed a : pointed self' a → pointed self a;
  mv_wf : locator_wf self → locator_wf self'
}.
Lemma graphs_moved_refl self : moved self self.
Proof. done. Qed.
Lemma graphs_moved_trans self1 self2 self3 : moved self1 self2 → moved self2 self3 → moved self1 self3.
Proof.
  intros [H1 H2 H3 H4 H5 H6] [G1 G2 G3 G4 G5 G6]. split.
  - intros a. by rewrite G1.
  - congruence.
  - intros a. by rewrite G3.
  - intros n st. by rewrite G4.
  - auto.
  - auto.
Qed.

(** Pointing nodes to graphs that are pointed to already. *)
Lemma pointing_moved self gs ks :
  (∀ k a, gs !! k = Some a → pointed self a) →
  moved self (mkLocator gs ks (graph_heap self) (next_graph self)).
Proof.
  intros Hgs. assert (∀ a, pointed (mkLocator gs ks (graph_heap self) (next_graph self)) a → pointed self a) as Hp.
  { intros a [k Hk]. by eapply Hgs. }
  split; [done|done|done|done|done|]. intros [H1 H2 H3 H4]. split; [by auto|done|done|].
  intros a b Ha Hb. apply H4; auto.
Qed.

Lemma point_to_lookup a gs l k : point_to a gs l !! k = if decide (k ∈ l) then Some a else gs !! k.
Proof.
  unfold point_to. revert gs. induction l as [|x l IH]; intros gs; cbn [foldl]; [by rewrite decide_False by apply not_elem_of_nil|].
  rewrite IH. destruct (decide (k = x)) as [->|Hne].
  - rewrite lookup_insert_eq, (decide_True (P:=x ∈ x :: l)) by by left. by destruct (decide (x ∈ l)).
  - rewrite lookup_insert_ne by done. apply decide_ext. rewrite elem_of_cons. tauto.
Qed.

(** ** Merging *)

(** The heap of a merge. *)
Definition merged_heap self main b (gm gd : Graph) : gmap N Graph :=
  <[main := mkGraph (origin gm) (server_extend (graph_server gm) (graph_server gd))]>
    (<[b := mkGraph (origin gd) server_default]> (graph_heap self)).

Lemma merged_steps self main b gm gd :
  locator_wf self → main ≠ b → graph_heap self !! main = Some gm → graph_heap self !! b = Some gd →
  ∀ n st, steps (server_extend (graph_server gm) (graph_server gd)) !! n = Some st ↔
    steps (graph_server gm) !! n = Some st ∨ steps (graph_server gd) !! n = Some st.
Proof.
  intros Hwf Hne Hm Hb n st. simpl. rewrite lookup_union_Some.
  - tauto.
  - apply map_disjoint_spec. intros i x y Hx Hy. apply Hne.
    apply (lw_steps _ Hwf main b gm gd i Hm Hb); eauto.
Qed.
Lemma merged_moved self main b gm gd gs ks :
  main ≠ b → graph_heap self !! main = Some gm → graph_heap self !! b = Some gd → locator_wf self →
  (∀ k a, gs !! k = Some a → pointed self a) →
  moved self (mkLocator gs ks (merged_heap self main b gm gd) (next_graph self)).
Proof.
  intros Hne Hm Hb Hwf Hgs. set (self' := mkLocator _ _ _ _).
  pose proof (merged_steps self main b gm gd Hwf Hne Hm Hb) as Hsteps.
  assert (∀ c, graph_heap self' !! c = if decide (c = main) then Some (mkGraph (origin gm) (server_extend (graph_server gm) (graph_server gd)))
    else if decide (c = b) then Some (mkGraph (origin gd) server_default) else graph_heap self !! c) as Hheap.
  { intros c. unfold self', merged_heap. simpl. destruct (decide (c = main)) as [->|]; [by rewrite lookup_insert_eq|].
    rewrite lookup_insert_ne by done. destruct (decide (c = b)) as [->|]; [by rewrite lookup_insert_eq|]. by rewrite lookup_insert_ne. }
  assert (∀ c, is_Some (graph_heap self' !! c) ↔ is_Some (graph_heap self !! c)) as Hsome.
  { intros c. rewrite Hheap. destruct (decide (c = main)) as [->|]; [by rewrite Hm|]. destruct (decide (c = b)) as [->|]; [by rewrite Hb|]. done. }
  assert (∀ c, origin_of self' c = origin_of self c) as Horg.
  { intros c. unfold origin_of. rewrite Hheap. destruct (decide (c = main)) as [->|]; [by rewrite Hm|].
    destruct (decide (c = b)) as [->|]; [by rewrite Hb|]. done. }
  assert (∀ c, pointed self' c → pointed self c) as Hpt by (intros c [k Hk]; by eapply Hgs).
  (* where a step of the new heap was before *)
  assert (∀ c g n, graph_heap self' !! c = Some g → is_Some (steps (graph_server g) !! n) →
    (c = main ∧ ∃ d h, (d = main ∨ d = b) ∧ graph_heap self !! d = Some h ∧ is_Some (steps (graph_server h) !! n)) ∨
    (c ≠ main ∧ c ≠ b ∧ graph_heap self !! c = Some g)) as Hfrom.
  { intros c g n Hg [st Hst]. rewrite Hheap in Hg. destruct (decide (c = main)) as [->|Hcm].
    - left. split; [done|]. injection Hg as <-. apply Hsteps in Hst as [Hst|Hst]; [exists main, gm|exists b, gd]; eauto.
    - right. destruct (decide (c = b)) as [->|]; [|done]. injection Hg as <-. done. }
  split; [done|done|done| |done|].
  - intros n st. unfold has_step. split.
    + intros (c & g & Hc & Hst). rewrite Hheap in Hc. destruct (decide (c = main)) as [->|].
      * injection Hc as <-. apply Hsteps in Hst as [Hst|Hst]; eauto.
      * destruct (decide (c = b)) as [->|]; [by injection Hc as <-|eauto].
    + intros (c & g & Hc & Hst). destruct (decide (c = main ∨ c = b)) as [Hcase|Hno].
      * exists main. eexists. rewrite Hheap, decide_True by done. split; [done|]. apply Hsteps.
        destruct Hcase as [-> | ->]; simplify_eq; auto.
      * exists c, g. rewrite Hheap, !decide_False by tauto. done.
  - intros _. split.
    + intros c Hc. apply Hsome, (lw_heap _ Hwf), Hpt, Hc.
    + intros c Hc. apply (lw_next _ Hwf), Hsome, Hc.
    + intros c c' g g' n Hc Hc' Hn Hn'.
      destruct (Hfrom c g n Hc Hn) as [(-> & d & h & Hd & Hdh & Hdn)|(Hcm & Hcb & Hcg)],
        (Hfrom c' g' n Hc' Hn') as [(-> & d' & h' & Hd' & Hdh' & Hdn')|(Hcm' & Hcb' & Hcg')].
      * done.
      * pose proof (lw_steps _ Hwf d c' h g' n Hdh Hcg' Hdn Hn'). destruct Hd; congruence.
      * pose proof (lw_steps _ Hwf c d' g h' n Hcg Hdh' Hn Hdn'). destruct Hd'; congruence.
      * by eapply (lw_steps _ Hwf).
    + intros c c' Hc Hc'. rewrite !Horg. apply (lw_origin _ Hwf); auto.
Qed.

Lemma server_of_eq self a g : graph_heap self !! a = Some g → server_of self a = graph_server g.
Proof. unfold server_of. by intros ->. Qed.
Lemma origin_of_eq self a g : graph_heap self !! a = Some g → origin_of self a = origin g.
Proof. unfold origin_of. by intros ->. Qed.

Lemma merge_graphs_ok self main b :
  locator_wf self → main ≠ b → pointed self main → is_Some (graph_heap self !! b) →
  origin_of self b ≠ origin_of self main → is_Some (keys self !! origin_of self main) →
  ∃ self', merge_two self main b = Ok self' ∧ moved self self' ∧ is_Some (keys self' !! origin_of self main) ∧
    pointed self' main ∧
    (∀ n st, steps (server_of self' main) !! n = Some st ↔
       steps (server_of self main) !! n = Some st ∨ steps (server_of self b) !! n = Some st) ∧
    (∀ c, c ≠ main → c ≠ b → server_of self' c = server_of self c).
Proof.
  intros Hwf Hne Hpm [gd Hb] Ho Hk. destruct (lw_heap _ Hwf main Hpm) as [gm Hm]. unfold merge_two. rewrite Hm, Hb.
  rewrite (origin_of_eq _ _ _ Hm) in *. rewrite (origin_of_eq _ _ _ Hb) in Ho.
  pose proof (merged_steps self main b gm gd Hwf Hne Hm Hb) as Hsteps.
  assert (∀ k a, <[origin gd := main]> (graphs self) !! k = Some a → a = main ∨ pointed self a) as Hgs.
  { intros k a [[_ <-]|[_ Hka]]%lookup_insert_Some; [by left|right; by exists k]. }
  assert (∀ gs ks, (∀ k a, gs !! k = Some a → a = main ∨ pointed self a) → gs !! origin gd = Some main →
    is_Some (ks !! origin gm) → let self' := mkLocator gs ks (merged_heap self main b gm gd) (next_graph self) in
    moved self self' ∧ is_Some (keys self' !! origin gm) ∧ pointed self' main ∧
    (∀ n st, steps (server_of self' main) !! n = Some st ↔
       steps (server_of self main) !! n = Some st ∨ steps (server_of self b) !! n = Some st) ∧
    (∀ c, c ≠ main → c ≠ b → server_of self' c = server_of self c)) as Hgo.
  { intros gs ks Hgs' Hgd Hks self'. split_and!.
    - apply merged_moved; [done|done|done|done|]. by intros k a [->|]%Hgs'.
    - done.
    - by exists (origin gd).
    - intros n st. rewrite (server_of_eq self main gm Hm), (server_of_eq self b gd Hb), <-Hsteps.
      unfold self', server_of, merged_heap. simpl. by rewrite lookup_insert_eq.
    - intros c Hcm Hcb. unfold self', server_of, merged_heap. simpl. by rewrite !lookup_insert_ne. }
  destruct (keys self !! origin gd) as [lk|].
  - rewrite lookup_delete_ne by done. destruct Hk as [mk Hmk]. rewrite Hmk. eexists. split; [done|]. apply Hgo.
    + intros k a. rewrite point_to_lookup. case_decide; [intros [= <-]; by left|apply Hgs].
    + rewrite point_to_lookup, lookup_insert_eq. by case_decide.
    + by rewrite lookup_insert_eq.
  - eexists. split; [done|]. apply Hgo; [done|by rewrite lookup_insert_eq|done].
Qed.

Lemma merge_all_ok main l self :
  locator_wf self → NoDup l → main ∉ l → pointed self main → Forall (λ b, is_Some (graph_heap self !! b)) l →
  Forall (λ b, origin_of self b ≠ origin_of self main) l → is_Some (keys self !! origin_of self main) →
  ∃ self', merge_all self main l = Ok self' ∧ moved self self' ∧ pointed self' main ∧
    (∀ n st, steps (server_of self' main) !! n = Some st ↔
       ∃ b, (b = main ∨ b ∈ l) ∧ steps (server_of self b) !! n = Some st) ∧
    (∀ c, c ≠ main → c ∉ l → server_of self' c = server_of self c).
Proof.
  revert self. induction l as [|b l IH]; intros self Hwf Hnd Hml Hpm Hheap Ho Hk; cbn [merge_all].
  { exists self. split_and!; [done|apply graphs_moved_refl|done| |done]. intros n st. split; [eauto|].
    by intros (b & [->|?%elem_of_nil] & Hst). }
  apply NoDup_cons in Hnd as [Hbl Hnd]. apply not_elem_of_cons in Hml as [Hmb Hml].
  apply Forall_cons in Hheap as [Hb Hheap]. apply Forall_cons in Ho as [Hob Ho].
  destruct (merge_graphs_ok self main b Hwf Hmb Hpm Hb Hob Hk) as (self1 & -> & Hmv & Hk1 & Hpm1 & Hsteps & Hrest). cbn [res_bind].
  destruct (IH self1) as (self2 & -> & Hmv2 & Hpm2 & Hsteps2 & Hrest2).
  - by apply (mv_wf _ _ Hmv).
  - done.
  - done.
  - done.
  - eapply Forall_impl; [exact Hheap|]. intros c Hc. by apply (mv_heap _ _ Hmv).
  - eapply Forall_impl; [exact Ho|]. intros c. simpl. by rewrite !(mv_origin _ _ Hmv).
  - by rewrite (mv_origin _ _ Hmv).
  - exists self2. split_and!; [done|by eapply graphs_moved_trans|done| |].
    2: { intros c Hcm [Hcb Hcl]%not_elem_of_cons. by rewrite Hrest2, Hrest. }
    intros n st. rewrite Hsteps2. split.
    + intros (c & [->|Hc] & Hst).
      * apply Hsteps in Hst as [Hst|Hst]; [exists main|exists b]; set_solver.
      * exists c. split; [set_solver|]. rewrite <-Hrest; [done|congruence|congruence].
    + intros (c & Hc & Hst). destruct (decide (c = main ∨ c = b)) as [Hcase|Hno].
      * exists main. split; [by left|]. apply Hsteps. destruct Hcase as [-> | ->]; auto.
      * exists c. rewrite elem_of_cons in Hc. split; [tauto|]. rewrite Hrest by tauto. done.
Qed.

(** ** Selecting a graph *)

(** The graph of the node or of a parent. *)
Definition candidate self (node : NodeId) (parents : list Parent) a : Prop :=
  ∃ k, (k = node ∨ k ∈ parent_id <$> parents) ∧ graphs self !! k = Some a.
Lemma collect_graphs_ok self node parents :
  locator_wf self →
  (∀ o a, collect_graphs self node parents !! o = Some a ↔ candidate self node parents a ∧ origin_of self a = o).
Proof.
  intros Hwf. unfold collect_graphs. induction parents as [|p ps IH] using rev_ind.
  - intros o a. simpl. unfold candidate. simpl. destruct (graphs self !! node) as [c|] eqn:Hc.
    + rewrite lookup_singleton_Some. split; [intros [<- <-]; split; [exists node; auto|done]|].
      intros [(k & [->|?%elem_of_nil] & Hk) <-]; [|done]. by simplify_eq.
    + rewrite lookup_empty. split; [done|]. intros [(k & [->|?%elem_of_nil] & Hk) _]; [|done]. congruence.
  - intros o a. rewrite foldl_snoc. set (found := foldl _ _ ps) in *. clearbody found.
    assert (∀ c, candidate self node (ps ++ [p]) c ↔ candidate self node ps c ∨ graphs self !! parent_id p = Some c) as Hcand.
    { intros c. unfold candidate. rewrite fmap_app. setoid_rewrite elem_of_app. simpl. setoid_rewrite list_elem_of_singleton. naive_solver. }
    rewrite Hcand. destruct (graphs self !! parent_id p) as [c|] eqn:Hc; [|rewrite IH; naive_solver].
    assert (∀ d, candidate self node ps d → pointed self d) as Hpt by (intros d (k & _ & Hk); by exists k).
    rewrite lookup_insert_Some, IH. split.
    + intros [[<- <-]|[Hne [Hca <-]]]; auto.
    + intros [[Hca|[= <-]] <-]; [|by left]. destruct (decide (origin_of self c = origin_of self a)) as [Heq|]; [left|by right].
      split; [done|]. apply (lw_origin _ Hwf); [by exists (parent_id p)|by apply Hpt|done].
Qed.

(** What selecting a graph promises: the node is in it, with the steps of every graph
    that met there, and no graph lost a step. *)
Record selected self (node : NodeId) (parents : list Parent) a self' : Prop := {
  sl_wf : locator_wf self';
  sl_node : graphs self' !! node = Some a;
  sl_step n st : has_step self' n st ↔ has_step self n st;
  sl_joined b n st : candidate self node parents b → steps (server_of self b) !! n = Some st →
    steps (server_of self' a) !! n = Some st;
  sl_others c : is_Some (graph_heap self !! c) → ¬ candidate self node parents c → server_of self' c = server_of self c
}.

Lemma candidate_pointed self node parents a : candidate self node parents a → pointed self a.
Proof. intros (k & _ & Hk). by exists k. Qed.
Lemma register_key_moved self gs o key :
  (∀ k a, gs !! k = Some a → pointed self a) → moved self (register_key (set_graphs self gs) o key).
Proof. intros Hgs. exact (pointing_moved self gs _ Hgs). Qed.

(** A graph that exists already. *)
Lemma select_existing self node parents a :
  locator_wf self → fresh_origin self node → candidate self node parents a →
  (∀ b, candidate self node parents b → b = a) →
  selected self node parents a (attach self node a).
Proof.
  intros Hwf Hfr Ha Hall. unfold attach. pose proof (candidate_pointed _ _ _ _ Ha) as Hpa. case_decide as Ho.
  - split; [done| |done|by intros b n st ->%Hall|done]. destruct (graphs self !! node) as [b|] eqn:Hb.
    + f_equal. apply Hall. exists node. auto.
    + by destruct (Hfr Hb a Hpa).
  - pose proof (register_key_moved self (<[node := a]> (graphs self)) (origin_of self a) node) as Hmv.
    destruct Hmv as [_ _ _ Hst _ Hw].
    { intros k b [[_ <-]|[_ Hk]]%lookup_insert_Some; [done|by exists k]. }
    split; [by apply Hw|apply lookup_insert_eq|done| |done]. by intros b n st ->%Hall.
Qed.

(** A new graph. *)
Lemma select_new self node parents :
  locator_wf self → fresh_origin self node → (∀ b, ¬ candidate self node parents b) →
  let '(a, self') := new_graph self node in selected self node parents a self' ∧ origin_of self' a = node.
Proof.
  intros Hwf Hfr Hno. unfold new_graph. set (a := next_graph self). set (self' := mkLocator _ _ _ _).
  assert (graph_heap self !! a = None) as Hfresh.
  { destruct (graph_heap self !! a) eqn:Ha; [|done]. pose proof (lw_next _ Hwf a ltac:(eauto)). unfold a in *. lia. }
  assert (graphs self !! node = None) as Hnode.
  { destruct (graphs self !! node) as [b|] eqn:Hb; [|done]. destruct (Hno b). exists node. auto. }
  assert (∀ b, pointed self' b → b = a ∨ pointed self b) as Hpt.
  { intros b [k Hk]. unfold self' in Hk. simpl in Hk. apply lookup_insert_Some in Hk as [[_ <-]|[_ Hk]]; [by left|right; by exists k]. }
  assert (∀ b g, graph_heap self' !! b = Some g → (b = a ∧ g = mkGraph node server_default) ∨ graph_heap self !! b = Some g) as Hnew.
  { intros b g Hg. unfold self' in Hg. simpl in Hg. apply lookup_insert_Some in Hg as [[<- <-]|[_ Hg]]; auto. }
  assert (∀ b, b ≠ a → graph_heap self' !! b = graph_heap self !! b) as Hold by (intros b Hb; by apply lookup_insert_ne).
  assert (∀ b, pointed self b → origin_of self' b = origin_of self b ∧ b ≠ a) as Horg.
  { intros b Hb. destruct (lw_heap _ Hwf b Hb) as [g Hg]. assert (b ≠ a) as Hne by congruence.
    unfold origin_of. by rewrite Hold. }
  assert (origin_of self' a = node) as Hoa by (unfold origin_of, self'; simpl; by rewrite lookup_insert_eq).
  split; [|done]. split.
  - split.
    + intros b [->|Hb]%Hpt; [unfold self'; simpl; by rewrite lookup_insert_eq|].
      destruct (Horg b Hb) as [_ Hne]. rewrite Hold by done. by apply (lw_heap _ Hwf).
    + intros b [g [[-> _]|Hg]%Hnew]; simpl; [unfold a; lia|].
      pose proof (lw_next _ Hwf b ltac:(eauto)). lia.
    + intros b c g h n [[-> ->]|Hg]%Hnew [[-> ->]|Hh]%Hnew Hn Hn'; [done| | |].
      * by destruct Hn.
      * by destruct Hn'.
      * by eapply (lw_steps _ Hwf).
    + intros b c [->|Hb]%Hpt [->|Hc]%Hpt Heq; [done| | |].
      * destruct (Horg c Hc) as [Hoc _]. rewrite Hoa, Hoc in Heq. by destruct (Hfr Hnode c Hc).
      * destruct (Horg b Hb) as [Hob _]. rewrite Hoa, Hob in Heq. by destruct (Hfr Hnode b Hb).
      * destruct (Horg b Hb) as [Hob _], (Horg c Hc) as [Hoc _]. rewrite Hob, Hoc in Heq. by apply (lw_origin _ Hwf).
  - apply lookup_insert_eq.
  - intros n st. unfold has_step. split.
    + intros (b & g & [[-> ->]|Hg]%Hnew & Hst); [done|eauto].
    + intros (b & g & Hg & Hst). exists b, g. rewrite Hold by congruence. done.
  - intros b n st Hb. by destruct (Hno b).
  - intros c Hc _. unfold server_of. rewrite Hold; [done|]. intros ->. rewrite Hfresh in Hc. by destruct Hc.
Qed.

Lemma map_iter_values (i : nat) (m : gmap NodeId N) a : a ∈ (map_iter i m).*2 ↔ ∃ o, m !! o = Some a.
Proof.
  rewrite list_elem_of_fmap. split.
  - intros ([o b] & -> & Hob%elem_of_map_iter). by exists o.
  - intros [o Ho]. exists (o, a). by rewrite elem_of_map_iter.
Qed.
Lemma map_iter_nodup (i : nat) (m : gmap NodeId N) :
  (∀ o o' a, m !! o = Some a → m !! o' = Some a → o = o') → NoDup (map_iter i m).*2.
Proof.
  intros Hinj. unfold map_iter. pose proof (hash_iter_nodup i (dom m)) as Hnd.
  induction (hash_iter i (dom m)) as [|x l IH]; [constructor|]. apply NoDup_cons in Hnd as [Hx Hnd]. cbn.
  destruct (m !! x) as [a|] eqn:Ha; cbn; [|by apply IH]. constructor; [|by apply IH].
  intros ([o b] & Hb & Hin)%list_elem_of_fmap. simpl in Hb. subst b.
  apply list_elem_of_omap in Hin as (y & Hy & Hyo). destruct (m !! y) as [c|] eqn:Hc; simplify_eq/=.
  by rewrite (Hinj _ _ _ Ha Hc) in Hx.
Qed.

Lemma merge_ok self node parents found :
  locator_wf self → (∀ o a, found !! o = Some a ↔ candidate self node parents a ∧ origin_of self a = o) → found ≠ ∅ →
  ∃ a self', merge self node found = Ok (a, self') ∧ selected self node parents a self'.
Proof.
  intros Hwf Hf Hne. unfold merge. pose proof (map_iter_nodup 1 found) as Hnd.
  assert (∀ a, a ∈ (map_iter 1 found).*2 ↔ candidate self node parents a) as Hin.
  { intros a. rewrite map_iter_values. setoid_rewrite Hf. naive_solver. }
  destruct (map_iter 1 found).*2 as [|main rest].
  { destruct (map_choose found Hne) as (o & a & Ho). apply Hf in Ho as [Ha _]. by apply Hin, elem_of_nil in Ha. }
  assert (NoDup (main :: rest)) as [Hmr Hnd']%NoDup_cons.
  { apply Hnd. intros o o' a [_ <-]%Hf [_ <-]%Hf. done. }
  assert (candidate self node parents main) as Hmain by (apply Hin; by left).
  set (self0 := register_key self (origin_of self main) node).
  assert (moved self self0) as Hmv0 by (apply (pointing_moved self (graphs self)); intros k a Hk; by exists k).
  destruct (merge_all_ok main rest self0) as (self1 & -> & Hmv1 & Hpm & Hsteps & Hrest).
  - by apply (mv_wf _ _ Hmv0).
  - done.
  - done.
  - destruct (candidate_pointed _ _ _ _ Hmain) as [k Hk]. by exists k.
  - apply Forall_forall. intros b Hb. apply (lw_heap _ Hwf), (candidate_pointed _ node parents), Hin. by right.
  - apply Forall_forall. intros b Hb Heq. rewrite !(mv_origin _ _ Hmv0) in Heq. apply Hmr.
    assert (candidate self node parents b) as Hcb by (apply Hin; by right).
    assert (b = main) as <-; [|done]. apply (lw_origin _ Hwf); [by eapply candidate_pointed..|done].
  - unfold self0, register_key. simpl. rewrite (mv_origin _ _ Hmv0).
    destruct (keys self !! origin_of self main) as [X|] eqn:Hk; case_decide; simpl; rewrite ?lookup_alter_eq, ?lookup_insert_eq, ?Hk; done.
  - cbn [res_bind]. eexists main, _. split; [done|].
    set (self2 := set_graphs self1 _).
    assert (moved self1 self2) as Hmv2.
    { apply (pointing_moved self1). intros k a [[_ <-]|[_ [[_ <-]|[_ Hk]]%lookup_insert_Some]]%lookup_insert_Some; [done|done|by exists k]. }
    assert (moved self self2) as Hmv by (eapply graphs_moved_trans; [done|]; by eapply graphs_moved_trans).
    split.
    + by apply (mv_wf _ _ Hmv).
    + apply lookup_insert_eq.
    + apply (mv_step _ _ Hmv).
    + intros b n st Hb Hst. change (server_of self2 main) with (server_of self1 main). apply Hsteps.
      exists b. split; [|done]. apply Hin in Hb. by apply elem_of_cons in Hb.
    + intros c _ Hc. change (server_of self2 c) with (server_of self1 c). rewrite <-Hin, not_elem_of_cons in Hc. exact (Hrest c (proj1 Hc) (proj2 Hc)).
Qed.

(** The node alone: its own graph, or a new one. *)
Lemma own_graph_ok self node parents :
  locator_wf self → fresh_origin self node → (∀ b, candidate self node parents b → graphs self !! node = Some b) →
  let '(a, self') := own_graph self node in selected self node parents a (attach self' node a).
Proof.
  intros Hwf Hfr Hall. unfold own_graph. destruct (graphs self !! node) as [a|] eqn:Ha.
  - apply select_existing; [done|done|exists node; auto|]. intros b Hb. specialize (Hall b Hb). congruence.
  - pose proof (select_new self node parents Hwf Hfr) as Hnew. destruct (new_graph self node) as [a self'].
    destruct Hnew as [Hsel Ho]; [intros b Hb; by specialize (Hall b Hb)|]. unfold attach. by rewrite decide_True.
Qed.

Lemma select_ok self node parents :
  locator_wf self → fresh_origin self node → ∃ a self', select self node parents = Ok (a, self') ∧ selected self node parents a self'.
Proof.
  intros Hwf Hfr. unfold select, analyse. pose proof (own_graph_ok self node parents Hwf Hfr) as Hown.
  destruct parents as [|p ps].
  { destruct (own_graph self node) as [a self']. eexists a, _. split; [done|]. apply Hown. by intros b (k & [->|?%elem_of_nil] & Hk). }
  pose proof (collect_graphs_ok self node (p :: ps) Hwf) as Hf.
  set (found := collect_graphs self node (p :: ps)) in *. clearbody found.
  assert (∀ b, candidate self node (p :: ps) b → (origin_of self b, b) ∈ map_iter 0 found) as Hin.
  { intros b Hb. apply elem_of_map_iter, Hf. done. }
  destruct (map_iter 0 found) as [|[o a] [|e l]] eqn:Hit.
  - destruct (own_graph self node) as [a self']. eexists a, _. split; [done|]. apply Hown.
    intros b Hb. by apply Hin, elem_of_nil in Hb.
  - eexists a, _. split; [done|]. apply select_existing; [done|done| |].
    + apply (Hf o a), (elem_of_map_iter 0). rewrite Hit. by left.
    + intros b Hb. apply Hin, list_elem_of_singleton in Hb. by simplify_eq.
  - apply merge_ok; [done|done|]. intros ->. assert ((o, a) ∈ map_iter 0 (∅ : gmap NodeId N)) as Hx by (rewrite Hit; by left).
    apply elem_of_map_iter in Hx. by rewrite lookup_empty in Hx.
Qed.

(** ** Registering a step *)

Lemma set_server_wf self a s :
  locator_wf self →
  (∀ n, is_Some (steps s !! n) → is_Some (steps (server_of self a) !! n) ∨ ∀ st, ¬ has_step self n st) →
  locator_wf (set_server self a s).
Proof.
  intros Hwf Hs. assert (∀ c, is_Some (graph_heap (set_server self a s) !! c) ↔ is_Some (graph_heap self !! c)) as Hsome.
  { intros c. simpl. rewrite lookup_alter_is_Some. done. }
  assert (∀ c g n, graph_heap (set_server self a s) !! c = Some g → is_Some (steps (graph_server g) !! n) →
    (∃ h, graph_heap self !! c = Some h ∧ is_Some (steps (graph_server h) !! n)) ∨ (c = a ∧ ∀ st, ¬ has_step self n st)) as Hfrom.
  { intros c g n Hc Hn. simpl in Hc. destruct (decide (c = a)) as [->|Hca].
    - rewrite lookup_alter_eq in Hc. destruct (graph_heap self !! a) as [h|] eqn:Ha; [|done]. injection Hc as <-.
      destruct (Hs n Hn) as [Hold|Hnew]; [left|by right]. rewrite (server_of_eq _ _ _ Ha) in Hold. eauto.
    - rewrite lookup_alter_ne in Hc by done. eauto. }
  split.
  - intros c Hc. apply Hsome, (lw_heap _ Hwf), Hc.
  - intros c Hc. apply (lw_next _ Hwf), Hsome, Hc.
  - intros c c' g g' n Hc Hc' Hn Hn'.
    destruct (Hfrom c g n Hc Hn) as [(h & Hh & Hhn)|[-> Hno]], (Hfrom c' g' n Hc' Hn') as [(h' & Hh' & Hhn')|[-> Hno']].
    + by eapply (lw_steps _ Hwf).
    + destruct Hhn as [st Hst]. destruct (Hno' st). exists c, h. done.
    + destruct Hhn' as [st Hst]. destruct (Hno st). exists c', h'. done.
    + done.
  - intros c c' Hc Hc'. assert (∀ d, origin_of (set_server self a s) d = origin_of self d) as Ho.
    { intros d. unfold origin_of. simpl. destruct (decide (d = a)) as [->|]; [rewrite lookup_alter_eq|by rewrite lookup_alter_ne].
      by destruct (graph_heap self !! a). }
    rewrite !Ho. by apply (lw_origin _ Hwf).
Qed.

(** Registering a node that has no step yet. *)
Lemma client_register_ok self node s acts :
  locator_wf self → fresh_origin self node → (∀ st, ¬ has_step self node st) →
  ∃ self', client_register node s acts self = (Ok tt, self') ∧ locator_wf self' ∧ is_Some (graphs self' !! node).
Proof.
  intros Hwf Hfr Hnew. unfold client_register. destruct (select_ok self node (item_parents s) Hwf Hfr) as (a & self1 & -> & [H1 H2 H3 _ _]).
  eexists. split; [done|]. split; [|simpl; by rewrite H2]. apply set_server_wf; [done|]. intros n [st Hst]. simpl in Hst.
  apply lookup_insert_Some in Hst as [[<- _]|[_ Hst]]; [right|left; eauto]. intros st'. rewrite H3. apply Hnew.
Qed.

End client.

(** ** An origin left behind

    After a first pass that consumed the leaves [x], [w] and [p], three operations
    [y], [u], [v] start graphs of their own.  [d] merges the graph of [v] into that of
    [y], and [e] merges the graph of [y] into that of [u].  [v], the origin of the first
    graph that was merged, still points to the graph of [y], now empty, so that the step
    of [z], which reads [v], is registered apart from the step of [v]. *)

Module Stranded.
Import Demo.
Definition leaf (id : NodeId) : Node := @Node_new demo_backend [] 0 id Grad Ambiguous.
Definition op (id : NodeId) (ps : list Node) : Node :=
  @mkNode demo_backend ((λ n, mkParent (node_id n) (node_order n =? 0)%N) <$> ps) (foldr N.max 0 (node_order <$> ps) + 1)%N id
    GradInBackward ComputeBound None true.
Definition op_step (n : Node) (ps : list Node) : StepBoxed :=
  @mkStep demo_backend n (OpsStep (Some <$> ps)
    (match ps with
     | [_] => @BackwardUnary demo_backend [] (λ _ (g : Z), g)
     | _ => @BackwardBinary demo_backend [] (λ _ (g : Z), g) (λ _ (g : Z), g)
     end) false).
Definition register_leaf (n : Node) : M GraphLocator False unit :=
  client_register (node_id n) (mkStep n RootStep) builder_default.
Definition register_op (n : Node) (ps : list Node) : M GraphLocator False unit :=
  client_register (node_id n) (op_step n ps) builder_default.
Definition backward (n : Node) : M GraphLocator False (gmap NodeId Z) :=
  client_backward counts counts n (1%Z : @FloatTensorPrimitive demo_backend).

Definition x := leaf 0.
Definition w := leaf 1.
Definition p := leaf 2.
Definition xw := op 3 [x; w].
Definition loss := op 4 [xw; p].
Definition y := op 5 [x].
Definition u := op 6 [w].
Definition v := op 7 [p].
Definition d := op 8 [y; v].
Definition e := op 9 [d; u].
Definition z := op 10 [v].

Definition first_pass : M GraphLocator False (gmap NodeId Z) :=
  let! _ := register_leaf x in let! _ := register_leaf w in let! _ := register_leaf p in
  let! _ := register_op xw [x; w] in let! _ := register_op loss [xw; p] in
  backward loss.
Definition second_pass : M GraphLocator False unit :=
  let! _ := first_pass in
  let! _ := register_op y [x] in let! _ := register_op u [w] in let! _ := register_op v [p] in
  let! _ := register_op d [y; v] in let! _ := register_op e [d; u] in
  register_op z [v].
Definition state : GraphLocator := snd (second_pass locator_default).

(** Both steps of the tape of [z] are registered and not consumed, and the only other
    node of its ancestry is a leaf; yet the backward pass panics, reporting [v] as
    consumed. *)
Theorem merged_origin_stranded :
  fst (second_pass locator_default) = Ok tt ∧
  has_step state (node_id z) (op_step z [v]) ∧ has_step state (node_id v) (op_step v [p]) ∧
  node_parents z = [mkParent (node_id v) false] ∧ node_parents v = [mkParent (node_id p) true] ∧
  fst (backward z state) = Panic.
Proof.
  split_and!; try (vm_compute; reflexivity).
  - exists 3%N. eexists. split; vm_compute; reflexivity.
  - exists 4%N. eexists. split; vm_compute; reflexivity.
Qed.

(** The leaves [x] and [w] have graphs of their own, which an operation on both joins. *)
Definition leaves_state : GraphLocator := snd ((let! _ := register_leaf x in register_leaf w) locator_default).
Lemma leaves_state_wf : locator_wf leaves_state.
Proof.
  destruct (client_register_ok locator_default (node_id x) (mkStep x RootStep) builder_default locator_default_wf)
    as (self1 & Hreg1 & Hwf1 & _).
  { intros _ a [k Hk]. discriminate Hk. }
  { intros st (a & g & Hg & _). discriminate Hg. }
  assert (self1 = snd (register_leaf x locator_default)) as -> by (unfold register_leaf; by rewrite Hreg1).
  destruct (client_register_ok (snd (register_leaf x locator_default)) (node_id w) (mkStep w RootStep) builder_default Hwf1)
    as (self2 & Hreg2 & Hwf2 & _).
  - intros _ a [k Hk]. vm_compute in Hk. destruct k as [|k]; [injection Hk as <-; by vm_compute|by destruct k].
  - intros st (a & g & Hg & Hst). destruct a as [|a]; [|by destruct a]. injection Hg as <-. by vm_compute in Hst.
  - assert (self2 = leaves_state) as <-; [|done]. trans (snd (register_leaf w (snd (register_leaf x locator_default)))).
    + exact (eq_sym (f_equal snd Hreg2)).
    + vm_compute. reflexivity.
Qed.
End Stranded.

(** ** Locks

    The locks that the client takes, in order: [STATE] and the mutex of each graph. *)

Inductive Lock := StateLock | GraphLock (graph : N).
#[export] Instance lock_eq_dec : EqDecision Lock.
Proof. solve_decision. Defined.
Inductive LockOp := Acquire (l : Lock) | Release (l : Lock).

(** [GraphMutexClient::graph] holds [STATE] while it merges; [main] is locked around the
    graphs merged into it. *)
Definition select_locks (main : N) (merged : list N) : list LockOp :=
  [Acquire StateLock] ++
  match merged with
  | [] => []
  | _ => [Acquire (GraphLock main)] ++ (merged ≫= λ m, [Acquire (GraphLock m); Release (GraphLock m)]) ++ [Release (GraphLock main)]
  end ++
  [Release StateLock].
Definition register_locks (main : N) (merged : list N) : list LockOp :=
  select_locks main merged ++ [Acquire (GraphLock main); Release (GraphLock main)].
(** [backward_local] holds the graph while [cleanup] takes [STATE]; the locks of
    [cleanup_orphaned_entries] on graphs are tried only. *)
Definition backward_locks (graph : N) : list LockOp :=
  select_locks graph [] ++
  [Acquire (GraphLock graph); Acquire StateLock; Release StateLock; Release (GraphLock graph)] ++
  [Acquire StateLock; Release StateLock; Acquire StateLock; Release StateLock].

(** Threads with what they have left to do, and the locks that are held. *)
Record LockState := mkLocks { threads : list (list LockOp); locked : list Lock }.
Inductive lock_step : relation LockState :=
| lock_acquire σ i l rest :
    threads σ !! i = Some (Acquire l :: rest) → l ∉ locked σ →
    lock_step σ (mkLocks (<[i := rest]> (threads σ)) (l :: locked σ))
| lock_release σ i l rest :
    threads σ !! i = Some (Release l :: rest) →
    lock_step σ (mkLocks (<[i := rest]> (threads σ)) (filter (.≠ l) (locked σ))).
Definition deadlocked (σ : LockState) : Prop :=
  Exists (.≠ []) (threads σ) ∧ ∀ σ', ¬ lock_step σ σ'.

(** A backward pass on a graph, and a thread that registers an operation joining that
    graph with another one, can wait for each other for ever: the pass holds the graph
    and waits for [STATE], the merge holds [STATE] and waits for the graph. *)
Theorem merge_backward_deadlock graph other :
  ∃ σ, rtc lock_step (mkLocks [backward_locks graph; register_locks graph [other]] []) σ ∧ deadlocked σ.
Proof.
  eexists. split.
  - eapply rtc_l; [eapply (lock_acquire _ 0); [done|set_solver]|].
    eapply rtc_l; [eapply (lock_release _ 0); done|].
    eapply rtc_l; [eapply (lock_acquire _ 0); [done|set_solver]|].
    eapply rtc_l; [eapply (lock_acquire _ 1); [done|set_solver]|].
    apply rtc_refl.
  - split; [apply Exists_cons; by left|]. cbn. intros σ' Hstep.
    inversion Hstep as [? i l rest Hi Hl|? i l rest Hi]; subst; cbn in *; destruct i as [|[|i]]; simplify_eq/=; set_solver.
Qed.
