(* ===== verification/PrefixCache.v ===== *)
(** * The tiered prefix cache of the LLM engine

    [ruLLM/src/prefix_cache.rs]: completed prompt prefixes (the attention cache and the
    logits of the last token) kept under their tokens in three tiers, on the device, on the
    host and on disk, with least-recently-used eviction from each tier to the next.

    The model ([CausalModel], [GenerationCacheContinuation]), MessagePack, SHA-256, the
    file system and the device are parameters.  The file system is a map from paths to
    files that the methods change; whether the [n]-th call of the run succeeds, how much a
    failed write left behind and the order of a directory listing are arbitrary ([Host]).
    [tick], [used], [serial] and the counters of hits are [u64] in the code and unbounded
    here; [device_entries] and [host_bytes] count live memory and are only checked for
    underflow; [disk_bytes] has its width. *)

From S2P Require Export Prelude.
From stdpp Require Import pretty.
From Stdlib Require Import Ascii.

(** ** Element types ([ruda-core/src/tensor/dtype/mod.rs]) *)

Inductive BoolStore := BoolNative | BoolU8 | BoolU32.
Inductive QuantValue := Q8F | E5M2 | E4M3 | Q4F | E2M1 | Q2F | Q8S | Q4S | Q2S.
Inductive QuantStore := QuantNative | PackedNative (dim : N) | PackedU32 (dim : N).

(** Of a [QuantScheme] the fields that the size depends on. *)
Inductive DType :=
| F64 | F32 | Flex32 | F16 | BF16
| I64 | I32 | I16 | I8
| U64 | U32 | U16 | U8
| DBool (store : BoolStore)
| QFloat (value : QuantValue) (store : QuantStore).

Definition dtype_size (d : DType) : N :=
  match d with
  | F64 | I64 | U64 => 8
  | F32 | Flex32 | I32 | U32 => 4
  | F16 | BF16 | I16 | U16 => 2
  | I8 | U8 => 1
  | DBool BoolNative | DBool BoolU8 => 1
  | DBool BoolU32 => 4
  | QFloat value QuantNative =>
      match value with
      | Q8F | Q8S | E4M3 | E5M2 | E2M1 => 1
      | Q4F | Q4S | Q2F | Q2S => 0
      end
  | QFloat _ (PackedU32 _) => 4
  | QFloat value (PackedNative _) => match value with E2M1 => 1 | _ => 0 end
  end%N.

(** [matches!(dtype, F16 | BF16 | F32 | F64 | Flex32)] *)
Definition dtype_is_float (d : DType) : bool :=
  match d with F16 | BF16 | F32 | F64 | Flex32 => true | _ => false end.

(** ** Data *)

Abbreviation Bytes := (list N).
Abbreviation Tokens := (list Z).

Record TensorData := { data_bytes : Bytes; data_shape : list N; data_dtype : DType }.

Record CausalModelLimits := { vocab_size : N; max_sequence_length : N }.
#[export] Instance limits_eq_dec : EqDecision CausalModelLimits.
Proof. solve_decision. Defined.

Record PrefixCacheConfig := {
  block_tokens : N;
  cfg_device_entries : N;
  cfg_host_bytes : N;
  disk_directory : option (list string);
  cfg_disk_bytes : N
}.

Record PrefixCacheStats := {
  lookups : N;
  hits : N;
  reused_tokens : N;
  device_entries : N;
  host_bytes : N;
  disk_bytes : N
}.

(** [GenerationError]: a message of this file, or the error of a call into the model, the
    serializer or the file system. *)
Inductive GenerationError := Message (text : string) | Foreign.

(** What [capture] serializes, and the part [reopen_disk] reads of it. *)
Record Header := {
  version : N;
  head_id : string;
  head_limits : CausalModelLimits;
  head_tokens : Tokens
}.

(** ** The model, the serializer and the host *)

Class PrefixModel := {
  Cache : Type;
  Item : Type;
  Logits : Type;
  Device : Type;
  Device_eq_dec :: EqDecision Device;
  (** [CausalModel] *)
  new_cache : Cache;
  try_forward_cached_last : Tokens → Cache → res GenerationError Logits * Cache;
  (** [GenerationCacheContinuation]; the record is kept as its item. *)
  generation_position : Cache → N;
  capture_generation : Cache → string → Device → option Item;
  restore_generation : Item → string → Cache → N → Device → option Cache;
  (** [Tensor] *)
  dims : Logits → N * N * N;
  logits_device : Logits → Device;
  try_into_data : Logits → option TensorData;
  from_data : TensorData → Device → Logits;
  (** [rmp_serde::to_vec], [rmp_serde::from_slice] and the header with its tail ignored *)
  to_vec : Header → Item → TensorData → option Bytes;
  from_slice : Bytes → option (Header * Item * TensorData);
  read_header : Bytes → option Header
}.

Class Host := {
  (** Whether the [n]-th call returns an error of the device or of the file system. *)
  sync_ok : nat → bool;
  io_ok : nat → bool;
  (** How many bytes a failed write has written. *)
  written : nat → nat;
  dir_iter : nat → list (list string) → list (list string);
  dir_iter_perm n l : dir_iter n l ≡ₚ l;
  process_id : N;
  digest : string → string
}.

(** ** Helpers of the standard library *)

(** [Iterator::min_by_key] returns the first minimum, [max_by_key] the last maximum. *)
Definition min_by_key {A} (f : A → N) (l : list A) : option A :=
  foldl (λ acc x, match acc with
                  | None => Some x
                  | Some y => if (f x <? f y)%N then Some x else Some y
                  end) None l.
Definition max_by_key {A} (f : A → N) (l : list A) : option A :=
  foldl (λ acc x, match acc with
                  | None => Some x
                  | Some y => if (f y <=? f x)%N then Some x else Some y
                  end) None l.

(** [Ord] of [Vec<i32>], the order of the [BTreeMap]. *)
Fixpoint lex_le (a b : Tokens) : bool :=
  match a, b with
  | [], _ => true
  | _ :: _, [] => false
  | x :: a, y :: b => (x <? y)%Z || ((x =? y)%Z && lex_le a b)
  end.

(** [PathBuf::join] with a file name, [Path::file_name] and [Path::extension]: a path is
    the list of its components. *)
Definition path_join (directory : list string) (name : string) : list string := directory ++ [name].
Definition file_name (path : list string) : string := default "" (last path).
Fixpoint after_dot (s : string) : option string :=
  match s with
  | EmptyString => None
  | String c s =>
      match after_dot s with
      | Some e => Some e
      | None => if decide (c = "."%char) then Some s else None
      end
  end.
Definition extension (path : list string) : option string :=
  match file_name path with EmptyString => None | String _ s => after_dot s end.

(** [if let Err(e) = m { eprintln!(..) }] *)
Definition report_err {S E} (m : M S E unit) : M S E unit := λ s,
  match m s with
  | (Err _, s') => (Ok tt, s')
  | r => r
  end.

Section PrefixCache.
Context {P : Profile} {PM : PrefixModel} {H : Host}.

(** ** State *)

Record PrefilledPrompt := {
  model_id : string;
  limits : CausalModelLimits;
  tokens : Tokens;
  cache : Cache;
  logits : Logits
}.

Inductive Tier :=
| OnDevice (prefix : PrefilledPrompt)
| OnHost (bytes : Bytes)
| OnDisk (path : list string) (size : N).
Record Entry := { tier : Tier; used : N }.

Record TieredPrefixCache := {
  own_id : string;
  own_limits : CausalModelLimits;
  config : PrefixCacheConfig;
  entries : gmap Tokens Entry;
  tick : N;
  stats : PrefixCacheStats
}.

(** A directory entry that is a file or something else, and the cache beside the files. *)
Inductive Node := File (bytes : Bytes) | NotFile.
Record State := { store : TieredPrefixCache; files : gmap (list string) Node; clock : nat }.

Abbreviation Act := (M State GenerationError).

Definition set_store (c : TieredPrefixCache) (s : State) : State :=
  {| store := c; files := files s; clock := clock s |}.
Definition set_files (f : gmap (list string) Node) (s : State) : State :=
  {| store := store s; files := f; clock := clock s |}.
Definition set_clock (n : nat) (s : State) : State :=
  {| store := store s; files := files s; clock := n |}.
Definition upd (f : TieredPrefixCache → TieredPrefixCache) : Act unit :=
  modify (λ s, set_store (f (store s)) s).
Definition self {A} (f : TieredPrefixCache → A) : Act A := gets (λ s, f (store s)).

Definition with_entries (es : gmap Tokens Entry) (c : TieredPrefixCache) : TieredPrefixCache :=
  {| own_id := own_id c; own_limits := own_limits c; config := config c;
     entries := es; tick := tick c; stats := stats c |}.
Definition with_tick (t : N) (c : TieredPrefixCache) : TieredPrefixCache :=
  {| own_id := own_id c; own_limits := own_limits c; config := config c;
     entries := entries c; tick := t; stats := stats c |}.
Definition with_stats (st : PrefixCacheStats) (c : TieredPrefixCache) : TieredPrefixCache :=
  {| own_id := own_id c; own_limits := own_limits c; config := config c;
     entries := entries c; tick := tick c; stats := st |}.
Definition put_entry (k : Tokens) (e : Entry) (c : TieredPrefixCache) : TieredPrefixCache :=
  with_entries (<[k := e]> (entries c)) c.
Definition drop_entry (k : Tokens) (c : TieredPrefixCache) : TieredPrefixCache :=
  with_entries (delete k (entries c)) c.

Definition count_lookup (st : PrefixCacheStats) : PrefixCacheStats :=
  {| lookups := lookups st + 1; hits := hits st; reused_tokens := reused_tokens st;
     device_entries := device_entries st; host_bytes := host_bytes st; disk_bytes := disk_bytes st |}.
Definition count_hit (n : N) (st : PrefixCacheStats) : PrefixCacheStats :=
  {| lookups := lookups st; hits := hits st + 1; reused_tokens := reused_tokens st + n;
     device_entries := device_entries st; host_bytes := host_bytes st; disk_bytes := disk_bytes st |}.
Definition with_device (n : N) (st : PrefixCacheStats) : PrefixCacheStats :=
  {| lookups := lookups st; hits := hits st; reused_tokens := reused_tokens st;
     device_entries := n; host_bytes := host_bytes st; disk_bytes := disk_bytes st |}.
Definition with_host (n : N) (st : PrefixCacheStats) : PrefixCacheStats :=
  {| lookups := lookups st; hits := hits st; reused_tokens := reused_tokens st;
     device_entries := device_entries st; host_bytes := n; disk_bytes := disk_bytes st |}.
Definition with_disk (n : N) (st : PrefixCacheStats) : PrefixCacheStats :=
  {| lookups := lookups st; hits := hits st; reused_tokens := reused_tokens st;
     device_entries := device_entries st; host_bytes := host_bytes st; disk_bytes := n |}.
Definition upd_stats (f : PrefixCacheStats → PrefixCacheStats) : Act unit :=
  upd (λ c, with_stats (f (stats c)) c).

(** [self.stats.device_entries -= 1], [host_bytes -= n], [disk_bytes -= n], [disk_bytes += n] *)
Definition sub_device (n : N) : Act unit :=
  let! d := self (λ c, device_entries (stats c)) in
  let! d := lift (usub usize_max d n) in
  upd_stats (with_device d).
Definition sub_host (n : N) : Act unit :=
  let! d := self (λ c, host_bytes (stats c)) in
  let! d := lift (usub usize_max d n) in
  upd_stats (with_host d).
Definition sub_disk (n : N) : Act unit :=
  let! d := self (λ c, disk_bytes (stats c)) in
  let! d := lift (usub usize_max d n) in
  upd_stats (with_disk d).
Definition add_disk (n : N) : Act unit :=
  let! d := self (λ c, disk_bytes (stats c)) in
  let! d := lift (uadd usize_max d n) in
  upd_stats (with_disk d).

(** Entries in the order of their keys. *)
Definition entry_le (x y : Tokens * Entry) : Prop := lex_le x.1 y.1.
#[export] Instance entry_le_dec x y : Decision (entry_le x y).
Proof. unfold entry_le. apply _. Defined.
Definition iter_entries (m : gmap Tokens Entry) : list (Tokens * Entry) :=
  merge_sort entry_le (map_to_list m).

Definition is_device (t : Tier) : bool := match t with OnDevice _ => true | _ => false end.
Definition is_host (t : Tier) : bool := match t with OnHost _ => true | _ => false end.
Definition is_disk (t : Tier) : bool := match t with OnDisk _ _ => true | _ => false end.

(** [entries.iter().filter(tier).min_by_key(used)]: the key of the oldest entry of a tier. *)
Definition oldest (which : Tier → bool) (m : gmap Tokens Entry) : option Tokens :=
  fst <$> min_by_key (λ x, used x.2) (filter (λ x, which (tier x.2)) (iter_entries m)).

(** ** The device and the file system *)

Definition attempt (oracle : nat → bool) : Act bool := λ s,
  (Ok (oracle (clock s)), set_clock (S (clock s)) s).
Definition attempt_or_err (oracle : nat → bool) : Act unit :=
  let! ok := attempt oracle in
  if ok then ret tt else throw Foreign.
Definition sync : Act unit := attempt_or_err sync_ok.

Definition remove_file (path : list string) : Act unit :=
  let! _ := attempt_or_err io_ok in
  let! fs := gets files in
  match fs !! path with
  | Some (File _) => modify (set_files (delete path fs))
  | _ => throw Foreign
  end.
Definition read (path : list string) : Act Bytes :=
  let! _ := attempt_or_err io_ok in
  let! fs := gets files in
  match fs !! path with
  | Some (File bytes) => ret bytes
  | _ => throw Foreign
  end.
(** [OpenOptions::create_new]: [false] is the error kind [AlreadyExists]. *)
Definition create_new (path : list string) : Act bool :=
  let! _ := attempt_or_err io_ok in
  let! fs := gets files in
  match fs !! path with
  | Some _ => ret false
  | None => let! _ := modify (set_files (<[path := File []]> fs)) in ret true
  end.
(** [write_all(bytes)] and [sync_all()] on a new file. *)
Definition write_all_sync (path : list string) (bytes : Bytes) : Act unit := λ s,
  if io_ok (clock s)
  then (Ok tt, set_clock (S (clock s)) (set_files (<[path := File bytes]> (files s)) s))
  else (Err Foreign, set_clock (S (clock s))
          (set_files (<[path := File (take (written (clock s)) bytes)]> (files s)) s)).

Definition children (directory : list string) (fs : gmap (list string) Node) : list (list string) :=
  filter (λ p, p = path_join directory (file_name p)) (map_to_list fs).*1.
Definition read_dir (directory : list string) : Act (list (list string)) :=
  let! _ := attempt_or_err io_ok in
  gets (λ s, dir_iter (clock s) (children directory (files s))).

(** ** PrefilledPrompt *)

Definition bad_token (l : CausalModelLimits) (t : Z) : bool :=
  (t <? 0)%Z || (vocab_size l <=? Z.to_N t)%N.
Definition bad_tokens (l : CausalModelLimits) (ts : Tokens) : bool :=
  bool_decide (ts = []) || (max_sequence_length l <? len ts)%N || existsb (bad_token l) ts.

Definition validate (p : PrefilledPrompt) (id : string) (l : CausalModelLimits)
    (prompt : Tokens) (device : Device) : res GenerationError unit :=
  let '(batch, sequence, vocabulary) := dims (logits p) in
  if bool_decide (id = "") || bool_decide (model_id p ≠ id) || bool_decide (limits p ≠ l)
     || bool_decide (tokens p = []) || negb (bool_decide (tokens p `prefix_of` prompt))
     || negb (batch =? 1)%N || negb (sequence =? 1)%N || negb (vocabulary =? vocab_size l)%N
     || bool_decide (logits_device (logits p) ≠ device)
  then Err (Message "prefix identity, tokens, limits or native logits differ")
  else Ok tt.

Definition capture (p : PrefilledPrompt) (device : Device) : Act Bytes :=
  let! _ := sync in
  let! item := ok_or (capture_generation (cache p) (model_id p) device) Foreign in
  let! data := ok_or (try_into_data (logits p)) Foreign in
  ok_or (to_vec {| version := 1; head_id := model_id p; head_limits := limits p; head_tokens := tokens p |}
           item data) Foreign.

Definition restore (bytes : Bytes) (id : string) (l : CausalModelLimits) (device : Device) :
    res GenerationError PrefilledPrompt :=
  match from_slice bytes with
  | None => Err Foreign
  | Some (h, item, data) =>
      if negb (version h =? 1)%N || bool_decide (head_id h ≠ id) || bool_decide (head_limits h ≠ l)
         || bad_tokens l (head_tokens h)
         || bool_decide (data_shape data ≠ [1; 1; vocab_size l]%N)
         || negb (dtype_is_float (data_dtype data))
         || bool_decide (checked_mul usize_max (vocab_size l) (dtype_size (data_dtype data))
                           ≠ Some (len (data_bytes data)))
      then Err (Message "offloaded prefix identity, tokens or logits geometry differs")
      else
        match restore_generation item id new_cache (len (head_tokens h)) device with
        | None => Err Foreign
        | Some c =>
            let p := {| model_id := head_id h; limits := l; tokens := head_tokens h;
                        cache := c; logits := from_data data device |} in
            let? _ := validate p id l (tokens p) device in
            Ok p
        end
  end.

Definition export (p : PrefilledPrompt) (device : Device) : Act Bytes :=
  let! _ := lift (validate p (model_id p) (limits p) (tokens p) device) in
  if bool_decide (generation_position (cache p) ≠ len (tokens p))
  then throw (Message "prefix cache position differs from exported prompt")
  else capture p device.

Definition import (bytes : Bytes) (id : string) (l : CausalModelLimits) (expected_prompt : Tokens)
    (device : Device) : res GenerationError PrefilledPrompt :=
  let? prefix := restore bytes id l device in
  if bool_decide (tokens prefix ≠ expected_prompt)
  then Err (Message "prefill handoff does not match the requested prompt")
  else Ok prefix.

(** ** The disk tier *)

Definition evict_disk : Act unit :=
  let! es := self entries in
  let! old := ok_or (oldest is_disk es) (Message "disk budget has no evictable payload") in
  let! e := expect (es !! old) in
  match tier e with
  | OnDisk path size =>
      let! _ := remove_file path in
      let! _ := sub_disk size in
      upd (drop_entry old)
  | _ => panic
  end.

Definition payload_name (serial : N) : string :=
  "ruda-kv-" +:+ pretty process_id +:+ "-" +:+ pretty serial +:+ ".mpk".

(** The loop that looks for a file name that is not in use. *)
Fixpoint create_payload (fuel : nat) (directory : list string) (serial : N) : Act (list string) :=
  match fuel with
  | O => panic
  | S fuel =>
      let path := path_join directory (payload_name serial) in
      let! created := create_new path in
      if created then ret path else create_payload fuel directory (serial + 1)
  end.

(** Room for [size] bytes: [while disk_bytes.saturating_add(size) > budget { evict_disk()? }] *)
Definition make_room (size : N) : Act unit :=
  let! turns := gets (λ s, S (base.size (entries (store s)))) in
  while turns (λ s, cfg_disk_bytes (config (store s)) <?
                    saturating_add usize_max (disk_bytes (stats (store s))) size)%N evict_disk.

(** On a failed write the file is removed if that is possible. *)
Definition write_payload (path : list string) (bytes : Bytes) : Act unit := λ s,
  match write_all_sync path bytes s with
  | (Err e, s') => (let! _ := report_err (remove_file path) in throw e) s'
  | r => r
  end.

Definition put_disk (key : Tokens) (bytes : Bytes) (u : N) : Act unit :=
  let! cfg := self config in
  if (cfg_disk_bytes cfg <? len bytes)%N || (cfg_disk_bytes cfg =? 0)%N then ret tt
  else
    let! _ := make_room (len bytes) in
    let! directory := expect (disk_directory cfg) in
    let! serial := self tick in
    let! turns := gets (λ s, S (size (files s))) in
    let! path := create_payload turns directory serial in
    let! _ := write_payload path bytes in
    let! _ := add_disk (len bytes) in
    upd (put_entry key {| tier := OnDisk path (len bytes); used := u |}).

(** ** Insertion *)

Definition disabled (cfg : PrefixCacheConfig) : bool :=
  (cfg_device_entries cfg =? 0)%N && (cfg_host_bytes cfg =? 0)%N && (cfg_disk_bytes cfg =? 0)%N.

(** The rest of a turn of the device loop, after the oldest entry has been taken out. *)
Definition spill_captured (key : Tokens) (e : Entry) (prefix : PrefilledPrompt) (cfg : PrefixCacheConfig)
    (device : Device) : Act unit := λ s,
  match capture prefix device s with
  | (Ok bytes, s') =>
      (if (len bytes <=? cfg_host_bytes cfg)%N then
         let! _ := upd_stats (λ st, with_host (host_bytes st + len bytes) st) in
         upd (put_entry key {| tier := OnHost bytes; used := used e |})
       else put_disk key bytes (used e)) s'
  | (Err err, s') =>
      (let! _ := upd (put_entry key {| tier := OnDevice prefix; used := used e |}) in
       let! _ := upd_stats (λ st, with_device (device_entries st + 1) st) in
       throw err) s'
  | (Panic, s') => (Panic, s')
  end.

(** One turn of the loop that empties the device tier to its budget. *)
Definition spill_device (device : Device) : Act unit :=
  let! es := self entries in
  let! key := expect (oldest is_device es) in
  let! e := expect (es !! key) in
  let! _ := upd (drop_entry key) in
  let! _ := sub_device 1 in
  let! cfg := self config in
  match tier e with
  | OnDevice prefix =>
      if (cfg_host_bytes cfg =? 0)%N && (cfg_disk_bytes cfg =? 0)%N then ret tt
      else spill_captured key e prefix cfg device
  | _ => panic
  end.

(** One turn of the loop that empties the host tier to its budget. *)
Definition spill_host : Act unit :=
  let! es := self entries in
  let! key := expect (oldest is_host es) in
  let! e := expect (es !! key) in
  let! _ := upd (drop_entry key) in
  match tier e with
  | OnHost bytes =>
      let! _ := sub_host (len bytes) in
      put_disk key bytes (used e)
  | _ => panic
  end.

Definition insert_new (prefix : PrefilledPrompt) (device : Device) : Act unit :=
  let! t := self tick in
  let! _ := upd (put_entry (tokens prefix) {| tier := OnDevice prefix; used := t |}) in
  let! _ := upd_stats (λ st, with_device (device_entries st + 1) st) in
  let! turns := gets (λ s, S (size (entries (store s)))) in
  let! _ := while turns (λ s, cfg_device_entries (config (store s)) <? device_entries (stats (store s)))%N
              (spill_device device) in
  let! turns := gets (λ s, S (size (entries (store s)))) in
  while turns (λ s, cfg_host_bytes (config (store s)) <? host_bytes (stats (store s)))%N spill_host.

Definition prefix_insert (prefix : PrefilledPrompt) (device : Device) : Act unit :=
  let! c := self id in
  let! _ := lift (validate prefix (own_id c) (own_limits c) (tokens prefix) device) in
  if bool_decide (generation_position (cache prefix) ≠ len (tokens prefix))
  then throw (Message "incomplete prefix cache")
  else if disabled (config c) then ret tt
  else
    let! _ := upd (λ c, with_tick (tick c + 1) c) in
    match entries c !! tokens prefix with
    | Some e => upd (λ c, put_entry (tokens prefix) {| tier := tier e; used := tick c |} c)
    | None => insert_new prefix device
    end.

(** ** Lookup *)

(** [entries.keys().filter(prompt.starts_with).max_by_key(len)] *)
Definition longest_key (prompt : Tokens) (m : gmap Tokens Entry) : option Tokens :=
  max_by_key len (filter (λ k, k `prefix_of` prompt) (iter_entries m).*1).

(** The completed prefix of an entry, checked against its key. *)
Definition load (t : Tier) (key prompt : Tokens) (device : Device) : Act PrefilledPrompt :=
  let! id := self own_id in
  let! l := self own_limits in
  let! p :=
    match t with
    | OnDevice prefix => ret prefix
    | OnHost bytes => lift (restore bytes id l device)
    | OnDisk path _ => let! bytes := read path in lift (restore bytes id l device)
    end in
  let! _ := lift (validate p id l prompt device) in
  if bool_decide (generation_position (cache p) ≠ len key)
  then throw (Message "prefix cache position differs from token key")
  else ret p.

(** What is subtracted for an entry that could not be restored. *)
Definition forget (t : Tier) : Act unit :=
  match t with
  | OnDevice _ => sub_device 1
  | OnHost bytes => sub_host (len bytes)
  | OnDisk _ _ => ret tt
  end.

Fixpoint lookup_loop (fuel : nat) (prompt : Tokens) (device : Device) : Act (option PrefilledPrompt) :=
  match fuel with
  | O => panic
  | S fuel =>
      let! es := self entries in
      match longest_key prompt es with
      | None => ret None
      | Some key =>
          let! e := expect (es !! key) in
          let! _ := upd (λ c, put_entry key {| tier := tier e; used := tick c |} c) in
          λ s,
            match load (tier e) key prompt device s with
            | (Ok p, s') => (let! _ := upd_stats (count_hit (len key)) in ret (Some p)) s'
            | (Err _, s') =>
                (let! _ := upd (drop_entry key) in
                 let! _ := forget (tier e) in
                 lookup_loop fuel prompt device) s'
            | (Panic, s') => (Panic, s')
            end
      end
  end.

Definition prefix_lookup (prompt : Tokens) (device : Device) : Act (option PrefilledPrompt) :=
  let! _ := upd_stats count_lookup in
  let! _ := upd (λ c, with_tick (tick c + 1) c) in
  let! turns := gets (λ s, S (size (entries (store s)))) in
  lookup_loop turns prompt device.

(** ** Prefill *)

(** The end of the block that starts at [start]. *)
Definition block_end (cfg : PrefixCacheConfig) (start total : N) : N :=
  if disabled cfg then total
  else N.min (N.min usize_max ((start / block_tokens cfg + 1) * block_tokens cfg)) total.

Fixpoint prefill_loop (fuel : nat) (prompt : Tokens) (device : Device)
    (c : Cache) (start : N) (result : option PrefilledPrompt) : Act (option PrefilledPrompt) :=
  if negb (start <? len prompt)%N then ret result
  else
    match fuel with
    | O => panic
    | S fuel =>
        let! me := self id in
        if negb (disabled (config me)) && (block_tokens (config me) =? 0)%N then panic
        else
          let end_ := block_end (config me) start (len prompt) in
          let input := take (N.to_nat (end_ - start)) (drop (N.to_nat start) prompt) in
          let '(out, c) := try_forward_cached_last input c in
          let! out := lift out in
          let! _ := sync in
          let prefix := {| model_id := own_id me; limits := own_limits me;
                           tokens := take (N.to_nat end_) prompt; cache := c; logits := out |} in
          let! _ := lift (validate prefix (own_id me) (own_limits me) prompt device) in
          if bool_decide (generation_position (cache prefix) ≠ end_)
          then throw (Message "prefill did not complete all layer cache state")
          else
            let! _ := report_err (prefix_insert prefix device) in
            prefill_loop fuel prompt device c end_ (Some prefix)
    end.

Definition prefill (prompt : Tokens) (device : Device) : Act PrefilledPrompt :=
  let! l := self own_limits in
  if bad_tokens l prompt
  then throw (Message "invalid prompt tokens for prefix prefill")
  else
    let! existing := prefix_lookup prompt device in
    let '(c, start, result) :=
      match existing with
      | Some p => (cache p, len (tokens p), Some p)
      | None => (new_cache, 0%N, None)
      end in
    let! result := prefill_loop (length prompt) prompt device c start result in
    ok_or result (Message "prefix prefill produced no completed state").

(** ** Opening *)

Definition is_payload (path : list string) : bool :=
  String.prefix "ruda-kv-" (file_name path) && bool_decide (extension path = Some "mpk").

(** A payload of an earlier run whose header could be read. *)
Definition adopt (path : list string) (size : N) (h : Header) : Act unit :=
  let! c := self id in
  if negb (version h =? 1)%N || bool_decide (head_id h ≠ own_id c)
     || bool_decide (head_limits h ≠ own_limits c) || bad_tokens (head_limits h) (head_tokens h)
  then ret tt
  else
    let! _ := upd (λ c, with_tick (tick c + 1) c) in
    if bool_decide (is_Some (entries c !! head_tokens h)) then remove_file path
    else
      let! total := ok_or (checked_add usize_max (disk_bytes (stats c)) size)
                      (Message "disk cache byte count overflow") in
      let! _ := upd_stats (with_disk total) in
      upd (λ c, put_entry (head_tokens h) {| tier := OnDisk path size; used := tick c |} c).

(** One directory entry of [reopen_disk]. *)
Definition reopen_entry (path : list string) : Act unit :=
  let! _ := attempt_or_err io_ok in
  let! _ := attempt_or_err io_ok in
  let! node := gets (λ s, files s !! path) in
  match node with
  | Some (File bytes) =>
      if negb (is_payload path) then ret tt
      else
        let! _ := attempt_or_err io_ok in
        let! _ := attempt_or_err io_ok in
        let! readable := attempt io_ok in
        match (if readable : bool then read_header bytes else None) with
        | None => ret tt
        | Some h => adopt path (len bytes) h
        end
  | _ => ret tt
  end.

Definition reopen_disk : Act unit :=
  let! cfg := self config in
  match disk_directory cfg with
  | None => ret tt
  | Some directory =>
      if (cfg_disk_bytes cfg =? 0)%N then ret tt
      else
        let! paths := read_dir directory in
        let! _ := for_each paths reopen_entry in
        let! turns := gets (λ s, S (size (entries (store s)))) in
        while turns (λ s, cfg_disk_bytes cfg <? disk_bytes (stats (store s)))%N evict_disk
  end.

Definition stats_default : PrefixCacheStats :=
  {| lookups := 0; hits := 0; reused_tokens := 0; device_entries := 0; host_bytes := 0; disk_bytes := 0 |}.
Definition empty_cache (id : string) (l : CausalModelLimits) (cfg : PrefixCacheConfig) : TieredPrefixCache :=
  {| own_id := id; own_limits := l; config := cfg; entries := ∅; tick := 0; stats := stats_default |}.
Definition set_directory (d : option (list string)) (cfg : PrefixCacheConfig) : PrefixCacheConfig :=
  {| block_tokens := block_tokens cfg; cfg_device_entries := cfg_device_entries cfg;
     cfg_host_bytes := cfg_host_bytes cfg; disk_directory := d; cfg_disk_bytes := cfg_disk_bytes cfg |}.

(** [TieredPrefixCache::new]: the state before has no cache that matters. *)
Definition prefix_new (id : string) (l : CausalModelLimits) (cfg : PrefixCacheConfig) : Act unit :=
  if bool_decide (id = "")
  then throw (Message "prefix cache requires exact frozen model identity")
  else if (block_tokens cfg =? 0)%N
  then throw (Message "prefix block size must be positive")
  else if (0 <? cfg_disk_bytes cfg)%N && bool_decide (disk_directory cfg = None)
  then throw (Message "disk tier needs an explicit directory")
  else
    let! cfg :=
      match disk_directory cfg with
      | Some directory =>
          let! _ := attempt_or_err io_ok in
          ret (set_directory (Some (path_join directory (digest id))) cfg)
      | None => ret cfg
      end in
    let! _ := modify (set_store (empty_cache id l cfg)) in
    reopen_disk.
End PrefixCache.
