(* ===== verification/PrefixCacheInv.v ===== *)
(** * The prefix cache: laws of its parameters, invariant, tiers

    What the cache relies on of the model, the tensors and the serializer ([PrefixLaws]),
    the invariant [cache_ok] of a cache beside the files, and the proofs that serializing,
    evicting and writing a payload keep it, whatever the file system does. *)

From S2P Require Export PrefixCache.

(** ** Laws of the model, the tensors and the serializer

    [cache_of ts c]: [c] is an attention cache that has consumed exactly [ts];
    [logits_of ts l]: [l] are next-token logits after [ts].  Two runs of a model over other
    blocks of the same tokens need not agree bit for bit, so these are relations. *)
Class PrefixLaws (PM : PrefixModel) := {
  cache_of : Tokens → Cache → Prop;
  logits_of : Tokens → Logits → Prop;
  new_cache_of : cache_of [] new_cache;
  forward_of ts ts' c l c' :
    cache_of ts c → ts' ≠ [] → try_forward_cached_last ts' c = (Ok l, c') →
    cache_of (ts ++ ts') c' ∧ logits_of (ts ++ ts') l;
  forward_returns ts c : (try_forward_cached_last ts c).1 ≠ Panic;
  (** "Number of actual prompt/decode inputs committed to this cache." *)
  position_of ts c : cache_of ts c → generation_position c = len ts;
  (** "Restore exact history against a fresh compatible model cache and input count." *)
  restore_of ts c id device item :
    cache_of ts c → capture_generation c id device = Some item →
    ∃ c', restore_generation item id new_cache (len ts) device = Some c' ∧ cache_of ts c';
  data_of ts l data device :
    logits_of ts l → try_into_data l = Some data → logits_of ts (from_data data device);
  data_geometry l data v :
    dims l = (1, 1, v)%N → try_into_data l = Some data →
    data_shape data = [1; 1; v]%N ∧ dtype_is_float (data_dtype data) ∧
    checked_mul usize_max v (dtype_size (data_dtype data)) = Some (len (data_bytes data));
  from_data_dims data device a b v :
    data_shape data = [a; b; v]%N → dims (from_data data device) = (a, b, v);
  from_data_device data device : logits_device (from_data data device) = device;
  (** MessagePack decodes what it encodes, and nothing that is cut short. *)
  from_slice_to_vec h item data bytes :
    to_vec h item data = Some bytes → from_slice bytes = Some (h, item, data);
  from_slice_cut h item data bytes n :
    to_vec h item data = Some bytes → n < length bytes → from_slice (take n bytes) = None
}.

(** ** Extremal elements *)

Section extremal.
Context {A : Type} (f : A → N).

Lemma min_by_key_acc l a :
  ∃ x, foldl (λ acc x, match acc with
                       | None => Some x
                       | Some y => if (f x <? f y)%N then Some x else Some y
                       end) (Some a) l = Some x ∧ (x = a ∨ x ∈ l) ∧
       (f x ≤ f a)%N ∧ ∀ y, y ∈ l → (f x ≤ f y)%N.
Proof.
  revert a. induction l as [|b l IH]; intros a; simpl.
  - exists a. split; [done|]. split; [by left|]. split; [done|]. by intros y ?%elem_of_nil.
  - destruct (N.ltb_spec (f b) (f a)).
    + destruct (IH b) as (x & -> & Hin & Hle & Hall). exists x. split; [done|].
      split; [set_solver|]. split; [lia|]. intros y [->|Hy]%elem_of_cons; auto.
    + destruct (IH a) as (x & -> & Hin & Hle & Hall). exists x. split; [done|].
      split; [set_solver|]. split; [lia|]. intros y [->|Hy]%elem_of_cons; [lia|auto].
Qed.
Lemma min_by_key_Some l x :
  min_by_key f l = Some x → x ∈ l ∧ ∀ y, y ∈ l → (f x ≤ f y)%N.
Proof.
  destruct l as [|a l]; [done|]. unfold min_by_key. simpl.
  destruct (min_by_key_acc l a) as (x' & -> & Hin & Hle & Hall). intros [= ->].
  split; [set_solver|]. intros y [->|Hy]%elem_of_cons; auto.
Qed.
Lemma min_by_key_None l : min_by_key f l = None → l = [].
Proof.
  destruct l as [|a l]; [done|]. unfold min_by_key. simpl.
  by destruct (min_by_key_acc l a) as (x' & -> & _).
Qed.

Lemma max_by_key_acc l a :
  ∃ x, foldl (λ acc x, match acc with
                       | None => Some x
                       | Some y => if (f y <=? f x)%N then Some x else Some y
                       end) (Some a) l = Some x ∧ (x = a ∨ x ∈ l) ∧
       (f a ≤ f x)%N ∧ ∀ y, y ∈ l → (f y ≤ f x)%N.
Proof.
  revert a. induction l as [|b l IH]; intros a; simpl.
  - exists a. split; [done|]. split; [by left|]. split; [done|]. by intros y ?%elem_of_nil.
  - destruct (N.leb_spec (f a) (f b)).
    + destruct (IH b) as (x & -> & Hin & Hle & Hall). exists x. split; [done|].
      split; [set_solver|]. split; [lia|]. intros y [->|Hy]%elem_of_cons; auto.
    + destruct (IH a) as (x & -> & Hin & Hle & Hall). exists x. split; [done|].
      split; [set_solver|]. split; [lia|]. intros y [->|Hy]%elem_of_cons; [lia|auto].
Qed.
Lemma max_by_key_Some l x :
  max_by_key f l = Some x → x ∈ l ∧ ∀ y, y ∈ l → (f y ≤ f x)%N.
Proof.
  destruct l as [|a l]; [done|]. unfold max_by_key. simpl.
  destruct (max_by_key_acc l a) as (x' & -> & Hin & Hle & Hall). intros [= ->].
  split; [set_solver|]. intros y [->|Hy]%elem_of_cons; auto.
Qed.
Lemma max_by_key_None l : max_by_key f l = None → l = [].
Proof.
  destruct l as [|a l]; [done|]. unfold max_by_key. simpl.
  by destruct (max_by_key_acc l a) as (x' & -> & _).
Qed.
End extremal.

Lemma wp_report_err {S E} (m : M S E unit) s Q (R : E → S → Prop) :
  wp m s Q (λ _ s', Q tt s') → wp (report_err m) s Q R.
Proof. unfold wp, report_err. by destruct (m s) as [[[]| |] ?]. Qed.

Section Inv.
Context {P : Profile} {PM : PrefixModel} {H : Host}.

Lemma elem_of_iter_entries (m : gmap Tokens Entry) k e : (k, e) ∈ iter_entries m ↔ m !! k = Some e.
Proof. unfold iter_entries. by rewrite merge_sort_Permutation, elem_of_map_to_list. Qed.

(** The victim of a tier is one of its least recently used entries. *)
Lemma oldest_Some (which : Tier → bool) (m : gmap Tokens Entry) k :
  oldest which m = Some k →
  ∃ e, m !! k = Some e ∧ which (tier e) = true ∧
       ∀ k' e', m !! k' = Some e' → which (tier e') = true → (used e ≤ used e')%N.
Proof.
  unfold oldest. rewrite fmap_Some. intros ([k0 e] & Hmin & ->).
  apply min_by_key_Some in Hmin as [[Hw Hin]%list_elem_of_filter Hall].
  apply elem_of_iter_entries in Hin. exists e. split; [done|]. split; [by apply Is_true_true|].
  intros k' e' Hk' Hw'. apply (Hall (k', e')), list_elem_of_filter. simpl.
  by rewrite Hw', elem_of_iter_entries.
Qed.
Lemma oldest_None (which : Tier → bool) (m : gmap Tokens Entry) :
  oldest which m = None → ∀ k e, m !! k = Some e → which (tier e) = false.
Proof.
  unfold oldest. rewrite fmap_None. intros Hn%min_by_key_None k e Hk.
  apply elem_of_iter_entries in Hk. destruct (which (tier e)) eqn:Hw; [|done].
  assert ((k, e) ∈ filter (λ x, which (tier x.2)) (iter_entries m)) as Hin.
  { apply list_elem_of_filter. simpl. by rewrite Hw. }
  rewrite Hn in Hin. by apply elem_of_nil in Hin.
Qed.

Lemma elem_of_keys (m : gmap Tokens Entry) (prompt k : Tokens) :
  k ∈ filter (λ k, k `prefix_of` prompt) (iter_entries m).*1 ↔ k `prefix_of` prompt ∧ is_Some (m !! k).
Proof.
  rewrite list_elem_of_filter, list_elem_of_fmap. apply and_iff_compat_l. split.
  - intros ([k' e] & -> & Hin%elem_of_iter_entries). by exists e.
  - intros [e He]. exists (k, e). by rewrite elem_of_iter_entries.
Qed.
Lemma longest_key_Some (prompt : Tokens) (m : gmap Tokens Entry) k :
  longest_key prompt m = Some k →
  k `prefix_of` prompt ∧ is_Some (m !! k) ∧
  ∀ k', k' `prefix_of` prompt → is_Some (m !! k') → (len k' ≤ len k)%N.
Proof.
  intros [[Hp Hk]%elem_of_keys Hall]%max_by_key_Some. split; [done|]. split; [done|].
  intros k' ??. by apply Hall, elem_of_keys.
Qed.
Lemma longest_key_None (prompt : Tokens) (m : gmap Tokens Entry) k :
  longest_key prompt m = None → k `prefix_of` prompt → m !! k = None.
Proof.
  intros Hn%max_by_key_None Hp. apply eq_None_not_Some. intros Hk.
  assert (k ∈ ([] : list Tokens)) as []%elem_of_nil. rewrite <-Hn. by apply elem_of_keys.
Qed.

(** ** Payloads *)

Context {L : PrefixLaws PM} (device : Device).

Lemma validate_spec p id l prompt :
  validate p id l prompt device = Ok tt ↔
  id ≠ "" ∧ model_id p = id ∧ limits p = l ∧ tokens p ≠ [] ∧ tokens p `prefix_of` prompt ∧
  dims (logits p) = (1, 1, vocab_size l)%N ∧ logits_device (logits p) = device.
Proof.
  unfold validate. destruct (dims (logits p)) as [[a b] v]. split.
  - case_match eqn:Hc; [done|]. intros _. rewrite !orb_false_iff, !negb_false_iff, !N.eqb_eq in Hc.
    rewrite !bool_decide_eq_false, bool_decide_eq_true in Hc.
    destruct Hc as [[[[[[[[? Hid] Hl] ?] ?] ->] ->] ->] Hd]. apply dec_stable in Hid, Hl, Hd. done.
  - intros (Hid & <- & <- & Hne & Hpre & [= -> -> ->] & <-).
    rewrite (bool_decide_true (_ `prefix_of` _)), !bool_decide_false by (done || naive_solver).
    simpl. by rewrite !N.eqb_refl.
Qed.
Lemma validate_fails p id l prompt :
  validate p id l prompt device = Ok tt ∨ ∃ e, validate p id l prompt device = Err e.
Proof. unfold validate. destruct (dims _) as [[??]?]. case_match; eauto. Qed.
Lemma wp_validate p id l prompt (s : State) (Q : unit → State → Prop) R :
  (validate p id l prompt device = Ok tt → Q tt s) →
  (∀ e, validate p id l prompt device = Err e → R e s) →
  wp (lift (validate p id l prompt device)) s Q R.
Proof. intros HQ HR. unfold wp, lift. destruct (validate_fails p id l prompt) as [He|[e He]]; rewrite He; auto. Qed.

(** A file that claims to be a payload of this model is one. *)
Definition honest (id : string) (bytes : Bytes) : Prop :=
  ∀ h item data, from_slice bytes = Some (h, item, data) → version h = 1%N → head_id h = id →
  (∀ c, restore_generation item id new_cache (len (head_tokens h)) device = Some c →
        cache_of (head_tokens h) c) ∧
  logits_of (head_tokens h) (from_data data device).
(** Also when a write stopped in its middle. *)
Definition payload (id : string) (bytes : Bytes) : Prop := ∀ n, honest id (take n bytes).

Lemma payload_honest id bytes : payload id bytes → honest id bytes.
Proof. intros Hp. specialize (Hp (length bytes)). by rewrite firstn_all in Hp. Qed.

(** A completed prefix of this model: its cache has consumed its tokens, its logits follow them. *)
Definition genuine (id : string) (l : CausalModelLimits) (p : PrefilledPrompt) : Prop :=
  validate p id l (tokens p) device = Ok tt ∧ bad_tokens l (tokens p) = false ∧
  cache_of (tokens p) (cache p) ∧ logits_of (tokens p) (logits p).

Lemma restore_genuine id l bytes p :
  honest id bytes → restore bytes id l device = Ok p → genuine id l p.
Proof.
  intros Hh. unfold restore. destruct (from_slice bytes) as [[[h item] data]|] eqn:Hs; [|done].
  case_match eqn:Hc; [done|]. rewrite !orb_false_iff in Hc.
  destruct Hc as [[[[[[Hv Hid] Hl] Hb] Hsh] Hf] Hsz].
  apply negb_false_iff, N.eqb_eq in Hv. apply bool_decide_eq_false, dec_stable in Hid, Hl.
  destruct (restore_generation _ _ _ _ _) as [c|] eqn:Hr; [|done].
  intros (u & Hval & [= <-])%res_bind_Ok. destruct u. split; [done|]. simpl.
  destruct (Hh h item data Hs Hv Hid) as [Hc' Hlog]. by split; [|split; [apply Hc'|]].
Qed.
Lemma restore_returns id l bytes :
  (∃ p, restore bytes id l device = Ok p) ∨ ∃ e, restore bytes id l device = Err e.
Proof.
  unfold restore. destruct (from_slice bytes) as [[[h item] data]|]; [|eauto].
  case_match; [eauto|]. destruct (restore_generation _ _ _ _ _); [|eauto]. simpl.
  match goal with |- context [validate ?p ?i ?l ?t device] =>
    destruct (validate_fails p i l t) as [->|[e ->]] end; simpl; eauto.
Qed.

(** [capture] then [restore] gives a completed prefix of the same tokens. *)
Definition restorable (id : string) (l : CausalModelLimits) (k : Tokens) (bytes : Bytes) : Prop :=
  ∃ p, restore bytes id l device = Ok p ∧ tokens p = k.

Lemma capture_payload id l p item data bytes :
  genuine id l p →
  capture_generation (cache p) id device = Some item → try_into_data (logits p) = Some data →
  to_vec {| version := 1; head_id := id; head_limits := l; head_tokens := tokens p |} item data = Some bytes →
  payload id bytes ∧ restorable id l (tokens p) bytes.
Proof.
  intros (Hv & Hb & Hc & Hlog) Hcap Hdata Hvec.
  apply validate_spec in Hv as (Hid & Hmid & Hlim & Hne & _ & Hdims & Hdev).
  destruct (restore_of _ _ _ _ _ Hc Hcap) as (c' & Hr & Hc').
  destruct (data_geometry _ _ _ Hdims Hdata) as (Hshape & Hfloat & Hsize).
  pose proof (from_slice_to_vec _ _ _ _ Hvec) as Hs. split.
  - intros n h item' data' Hs' Hver Hhid. destruct (decide (n < length bytes)) as [Hn|Hn].
    { by rewrite (from_slice_cut _ _ _ _ _ Hvec Hn) in Hs'. }
    rewrite take_ge in Hs' by lia. rewrite Hs in Hs'. simplify_eq. simpl. split.
    + intros c Hrc. congruence.
    + by apply (data_of _ (logits p)).
  - unfold restorable, restore. rewrite Hs. simpl. rewrite !bool_decide_false by naive_solver.
    rewrite Hb. apply Is_true_true in Hfloat. rewrite Hfloat, Hr. simpl.
    match goal with |- context [validate ?p ?i ?l ?t device] =>
      assert (validate p i l t device = Ok tt) as -> end.
    { apply validate_spec. simpl. repeat split; try done.
      - by apply from_data_dims.
      - apply from_data_device. }
    simpl. by eexists.
Qed.

(** Only the clock of the calls has moved. *)
Definition idle (s s' : State) : Prop := store s' = store s ∧ files s' = files s.

Lemma wp_attempt oracle s (Q : bool → State → Prop) R :
  (∀ b s', idle s s' → ((∀ n, oracle n = true) → b = true) → Q b s') → wp (attempt oracle) s Q R.
Proof. intros HQ. unfold wp, attempt. by apply HQ. Qed.
Lemma wp_attempt_or_err oracle s (Q : unit → State → Prop) R :
  (∀ s', idle s s' → Q tt s') → (∀ e s', idle s s' → R e s') → wp (attempt_or_err oracle) s Q R.
Proof.
  intros HQ HR. unfold attempt_or_err. apply wp_bind, wp_attempt. intros [] s' Hs' _; simpl.
  - by apply wp_ret, HQ.
  - by apply wp_throw, HR.
Qed.

Lemma capture_ok id l p s :
  genuine id l p →
  wp (capture p device) s
    (λ bytes s', idle s s' ∧ payload id bytes ∧ restorable id l (tokens p) bytes)
    (λ _ s', idle s s').
Proof.
  intros Hg. pose proof Hg as (Hv & _). apply validate_spec in Hv as (_ & Hmid & Hlim & _).
  unfold capture, sync. apply wp_bind, wp_attempt_or_err; [|done]. intros s' Hs'.
  apply wp_bind, wp_ok_or; [|done]. intros item Hitem. simpl.
  apply wp_bind, wp_ok_or; [|done]. intros data Hdata. simpl.
  apply wp_ok_or; [|done]. intros bytes Hbytes. split; [done|].
  rewrite Hmid, Hlim in *. by apply (capture_payload id l p item data).
Qed.
End Inv.
