(* ===== verification/PrefixCacheTiers.v ===== *)
(** * The prefix cache: invariant and movement between the tiers

    [cache_ok] relates the entries, the three counters and the files.  Evicting from disk,
    writing a payload and spilling an entry of the device or host tier keep it on every
    outcome, and spilling takes the least recently used entry. *)

From S2P Require Export PrefixCacheInv.
From stdpp Require Import pretty.

Section Tiers.
Context {P : Profile} {PM : PrefixModel} {H : Host} {L : PrefixLaws PM} (device : Device).

Definition device_weight (e : Entry) : N := if is_device (tier e) then 1 else 0.
Definition host_count (e : Entry) : N := if is_host (tier e) then 1 else 0.
Definition disk_count (e : Entry) : N := if is_disk (tier e) then 1 else 0.
Definition host_weight (e : Entry) : N := match tier e with OnHost bytes => len bytes | _ => 0 end.
Definition disk_weight (e : Entry) : N := match tier e with OnDisk _ size => size | _ => 0 end.

Definition entry_ok (id : string) (l : CausalModelLimits) (k : Tokens) (t : Tier) : Prop :=
  match t with
  | OnDevice p => tokens p = k ∧ genuine device id l p
  | OnHost bytes => payload device id bytes ∧ restorable device id l k bytes
  | OnDisk _ _ => True
  end.

Definition files_honest (id : string) (fs : gmap (list string) Node) : Prop :=
  ∀ path bytes, fs !! path = Some (File bytes) → honest device id bytes.

Record cache_ok (c : TieredPrefixCache) (fs : gmap (list string) Node) : Prop := {
  ok_id : own_id c ≠ "";
  ok_block : block_tokens (config c) ≠ 0%N;
  ok_directory : (0 < cfg_disk_bytes (config c))%N → is_Some (disk_directory (config c));
  ok_width : (cfg_disk_bytes (config c) < usize_max)%N;
  ok_entry k e : entries c !! k = Some e → entry_ok (own_id c) (own_limits c) k (tier e);
  ok_used k e : entries c !! k = Some e → (used e ≤ tick c)%N;
  ok_device : device_entries (stats c) = msum device_weight (entries c);
  ok_host : host_bytes (stats c) = msum host_weight (entries c);
  ok_disk : (msum disk_weight (entries c) ≤ disk_bytes (stats c))%N;
  ok_files : files_honest (own_id c) fs
}.
Definition within (c : TieredPrefixCache) : Prop :=
  (disk_bytes (stats c) ≤ cfg_disk_bytes (config c))%N.

(** What no operation changes. *)
Record owned (c c' : TieredPrefixCache) : Prop := {
  owned_id : own_id c' = own_id c;
  owned_limits : own_limits c' = own_limits c;
  owned_config : config c' = config c;
  owned_tick : (tick c ≤ tick c')%N
}.
#[export] Instance owned_preorder : PreOrder owned.
Proof. split; [done|]. intros c c' c'' [] []. split; (congruence || lia). Qed.

Lemma ok_drop c c' fs fs' k e :
  cache_ok c fs → entries c !! k = Some e → owned c c' → entries c' = delete k (entries c) →
  (device_entries (stats c') + device_weight e = device_entries (stats c))%N →
  (host_bytes (stats c') + host_weight e = host_bytes (stats c))%N →
  (disk_bytes (stats c) ≤ disk_bytes (stats c') + disk_weight e)%N →
  files_honest (own_id c) fs' → cache_ok c' fs'.
Proof.
  intros [] Hk [Hid Hl Hcfg Ht] He Hd Hh Hdisk Hf. split; rewrite ?Hid, ?Hl, ?Hcfg; try done.
  - intros k' e'. rewrite He, lookup_delete_Some. intros [_ Hk']. by apply ok_entry0.
  - intros k' e'. rewrite He, lookup_delete_Some. intros [_ Hk'%ok_used0]. lia.
  - rewrite (msum_delete device_weight _ _ _ Hk) in ok_device0. rewrite He. lia.
  - rewrite (msum_delete host_weight _ _ _ Hk) in ok_host0. rewrite He. lia.
  - rewrite (msum_delete disk_weight _ _ _ Hk) in ok_disk0. rewrite He. lia.
Qed.

Lemma ok_put c c' fs fs' k e :
  cache_ok c fs → entries c !! k = None → owned c c' → entries c' = <[k := e]> (entries c) →
  entry_ok (own_id c) (own_limits c) k (tier e) → (used e ≤ tick c')%N →
  (device_entries (stats c') = device_entries (stats c) + device_weight e)%N →
  (host_bytes (stats c') = host_bytes (stats c) + host_weight e)%N →
  (disk_bytes (stats c) + disk_weight e ≤ disk_bytes (stats c'))%N →
  files_honest (own_id c) fs' → cache_ok c' fs'.
Proof.
  intros [] Hk [Hid Hl Hcfg Ht] He Heok Hu Hd Hh Hdisk Hf. split; rewrite ?Hid, ?Hl, ?Hcfg; try done.
  - intros k' e'. rewrite He, lookup_insert_Some. intros [[-> <-]|[_ Hk']]; [done|by apply ok_entry0].
  - intros k' e'. rewrite He, lookup_insert_Some. intros [[-> <-]|[_ Hk'%ok_used0]]; [done|lia].
  - rewrite He, msum_insert_new by done. lia.
  - rewrite He, msum_insert_new by done. lia.
  - rewrite He, msum_insert_new by done. lia.
Qed.

(** A use of an entry. *)
Lemma ok_touch c c' fs k e u :
  cache_ok c fs → entries c !! k = Some e → owned c c' →
  entries c' = <[k := {| tier := tier e; used := u |}]> (entries c) → (u ≤ tick c')%N →
  device_entries (stats c') = device_entries (stats c) → host_bytes (stats c') = host_bytes (stats c) →
  disk_bytes (stats c') = disk_bytes (stats c) → cache_ok c' fs.
Proof.
  intros Hok Hk [Hid Hl Hcfg Ht] He Hu Hd Hh Hdisk. pose proof Hok as [].
  assert (∀ g : Entry → N, g {| tier := tier e; used := u |} = g e →
          msum g (entries c') = msum g (entries c)) as Hsum.
  { intros g Hg. pose proof (msum_insert g _ _ _ {| tier := tier e; used := u |} Hk). rewrite He. lia. }
  split; rewrite ?Hid, ?Hl, ?Hcfg; try done.
  - intros k' e'. rewrite He, lookup_insert_Some. intros [[<- <-]|[_ Hk']]; simpl; by apply ok_entry0.
  - intros k' e'. rewrite He, lookup_insert_Some. intros [[<- <-]|[_ Hk'%ok_used0]]; simpl; lia.
  - rewrite Hsum by done. congruence.
  - rewrite Hsum by done. congruence.
  - rewrite Hsum by done. lia.
Qed.

Lemma ok_same c c' fs :
  cache_ok c fs → owned c c' → entries c' = entries c →
  device_entries (stats c') = device_entries (stats c) → host_bytes (stats c') = host_bytes (stats c) →
  disk_bytes (stats c') = disk_bytes (stats c) → cache_ok c' fs.
Proof.
  intros [] [Hid Hl Hcfg Ht] He Hd Hh Hdisk. split; rewrite ?Hid, ?Hl, ?Hcfg, ?He; try done.
  - intros k e Hk%ok_used0. lia.
  - congruence.
  - congruence.
  - lia.
Qed.

(** ** The disk tier *)

(** A step that only takes from the disk tier, or adds [new] to it. *)
Record disk_step (new : Tokens → N → Prop) (c c' : TieredPrefixCache) : Prop := {
  step_owned : owned c c';
  step_device : device_entries (stats c') = device_entries (stats c);
  step_host : host_bytes (stats c') = host_bytes (stats c);
  step_hosts : msum host_count (entries c') = msum host_count (entries c);
  step_kept k e : entries c !! k = Some e → is_disk (tier e) = false → entries c' !! k = Some e;
  step_new k e : entries c' !! k = Some e → entries c !! k = Some e ∨ new k (used e)
}.
Abbreviation evicts := (disk_step (λ _ _, False)).
#[export] Instance evicts_preorder : PreOrder evicts.
Proof.
  split; [intros c; split; auto; reflexivity|].
  intros c1 c2 c3 [] []. split; try congruence; [by etrans|by eauto|].
  intros k e [|[]]%step_new1. eauto.
Qed.

Lemma files_honest_delete id fs path : files_honest id fs → files_honest id (delete path fs).
Proof. intros Hf q bytes [_ Hq]%lookup_delete_Some. by apply (Hf q). Qed.
Lemma files_honest_insert id fs path bytes :
  files_honest id fs → honest device id bytes → files_honest id (<[path := File bytes]> fs).
Proof. intros Hf Hb q b [[-> [= ->]]|[_ Hq]]%lookup_insert_Some; [done|]. by apply (Hf q). Qed.

(** [remove_file] changes nothing but the file. *)
Lemma wp_remove_file path s (Q : unit → State → Prop) R :
  (∀ s', store s' = store s → files s' = delete path (files s) → Q tt s') →
  (∀ e s', idle s s' → R e s') → wp (remove_file path) s Q R.
Proof.
  intros HQ HR. unfold remove_file. apply wp_bind, wp_attempt_or_err; [|done]. intros s' [Hs Hf].
  apply wp_bind, wp_gets. destruct (files s' !! path) as [[bytes|]|].
  - apply wp_modify, HQ; simpl; congruence.
  - by apply wp_throw, HR.
  - by apply wp_throw, HR.
Qed.

Lemma evict_disk_ok s :
  cache_ok (store s) (files s) →
  wp evict_disk s
    (λ _ s', cache_ok (store s') (files s') ∧ evicts (store s) (store s') ∧
             (disk_bytes (stats (store s')) ≤ disk_bytes (stats (store s)))%N ∧
             (msum disk_count (entries (store s')) < msum disk_count (entries (store s)))%N)
    (λ _ s', idle s s').
Proof.
  intros Hok. unfold evict_disk. apply wp_bind, wp_gets. apply wp_bind, wp_ok_or; [|done].
  intros k (e & Hk & Hd & _)%oldest_Some. simpl. apply wp_bind. eapply wp_expect; [done|].
  destruct (tier e) as [| |path size] eqn:Ht; try done.
  apply wp_bind, wp_remove_file; [|done]. intros s' Hs Hf.
  assert (size ≤ disk_bytes (stats (store s)))%N as Hsize.
  { pose proof (ok_disk _ _ Hok). pose proof (msum_le disk_weight _ _ _ Hk) as Hle.
    unfold disk_weight at 1 in Hle. rewrite Ht in Hle. lia. }
  apply wp_bind. unfold sub_disk. apply wp_bind, wp_gets, wp_bind. rewrite Hs.
  eapply wp_lift_ok; [by apply usub_ok|]. apply wp_modify, wp_modify. simpl. rewrite Hs, Hf. simpl.
  split; [|split; [|split]].
  - eapply ok_drop; [exact Hok|exact Hk|done|done|..]; simpl;
      unfold device_weight, host_weight, disk_weight; rewrite ?Ht; simpl; try lia.
    apply files_honest_delete, Hok.
  - split; try done; simpl.
    + rewrite (msum_delete host_count _ _ _ Hk). unfold host_count at 2. by rewrite Ht.
    + intros k' e' Hk' Hd'. rewrite lookup_delete_ne; [done|]. intros ->. by simplify_eq; rewrite Ht in Hd'.
    + intros k' e' [_ ?]%lookup_delete_Some. by left.
  - lia.
  - rewrite (msum_delete disk_count _ _ _ Hk). unfold disk_count at 2. rewrite Ht. simpl. lia.
Qed.

(** Evicting stops at the budget, or with the first error. *)
Lemma evict_while_ok cond s :
  cache_ok (store s) (files s) →
  wp (while (S (size (entries (store s)))) cond evict_disk) s
    (λ _ s', (cache_ok (store s') (files s') ∧ evicts (store s) (store s') ∧
              (disk_bytes (stats (store s')) ≤ disk_bytes (stats (store s)))%N) ∧ cond s' = false)
    (λ _ s', cache_ok (store s') (files s') ∧ evicts (store s) (store s') ∧
             (disk_bytes (stats (store s')) ≤ disk_bytes (stats (store s)))%N).
Proof.
  intros Hok. apply wp_while with
    (I := λ s', cache_ok (store s') (files s') ∧ evicts (store s) (store s') ∧
                (disk_bytes (stats (store s')) ≤ disk_bytes (stats (store s)))%N)
    (measure := λ s', N.to_nat (msum disk_count (entries (store s')))).
  - split; [done|]. split; [reflexivity|done].
  - assert (msum disk_count (entries (store s)) ≤ N.of_nat (size (entries (store s))))%N; [|lia].
    apply msum_size. intros e. unfold disk_count. destruct (is_disk _); lia.
  - intros s' (Hok' & He & Hle) _. eapply wp_wand; [by apply evict_disk_ok|..]; simpl.
    + intros _ s'' (Hok'' & He' & Hle' & Hlt). split; [|lia]. split; [done|]. split; [by etrans|lia].
    + intros _ s'' [-> ->]. done.
Qed.

Lemma create_new_ok path s :
  wp (create_new path) s
    (λ created s', store s' = store s ∧
       if created : bool then files s !! path = None ∧ files s' = <[path := File []]> (files s)
       else is_Some (files s !! path) ∧ files s' = files s)
    (λ _ s', idle s s').
Proof.
  unfold create_new. apply wp_bind, wp_attempt_or_err; [|done]. intros s' [Hs Hf].
  apply wp_bind, wp_gets. rewrite Hf. destruct (files s !! path) as [n|] eqn:Hp.
  - by apply wp_ret.
  - by apply wp_bind, wp_modify, wp_ret.
Qed.

(** Distinct serial numbers give distinct file names. *)
Lemma length_string_app (s t : string) : String.length (s +:+ t) = String.length s + String.length t.
Proof. induction s as [|c s IH]; simpl; [done|]. by rewrite IH. Qed.
Lemma string_app_cancel (s s' t : string) : s +:+ t = s' +:+ t → s = s'.
Proof.
  revert s'. induction s as [|c s IH]; intros [|c' s'] Heq; try done.
  - apply (f_equal String.length) in Heq. rewrite length_string_app in Heq. simpl in Heq.
    rewrite length_string_app in Heq. lia.
  - apply (f_equal String.length) in Heq. rewrite !length_string_app in Heq. simpl in Heq. lia.
  - simpl in Heq. injection Heq as -> Heq. by rewrite (IH s').
Qed.
Lemma payload_name_inj m n : payload_name m = payload_name n → m = n.
Proof.
  unfold payload_name. intros Hn. do 3 apply String.app_inj in Hn.
  by apply string_app_cancel, pretty_N_inj in Hn.
Qed.

(** The names seen so far are in use, so there are fewer of them than files. *)
Lemma create_payload_ok fuel (directory : list string) serial s (seen : list (list string)) :
  NoDup seen → (∀ path, path ∈ seen → is_Some (files s !! path) ∧
                  ∃ m, (m < serial)%N ∧ path = path_join directory (payload_name m)) →
  size (files s) < fuel + length seen →
  wp (create_payload fuel directory serial) s
    (λ path s', store s' = store s ∧ files s !! path = None ∧ files s' = <[path := File []]> (files s))
    (λ _ s', idle s s').
Proof.
  revert serial s seen. induction fuel as [|fuel IH]; intros serial s seen Hnd Hseen Hlt.
  { assert (length seen ≤ size (files s)); [|lia]. rewrite <-size_dom, <-(size_list_to_set (C:=gset (list string)) seen) by done.
    apply subseteq_size. intros path [? _]%elem_of_list_to_set%Hseen. by apply elem_of_dom. }
  simpl. apply wp_bind. eapply wp_wand; [apply create_new_ok| |done].
  intros [] s' [Hs Hf]; [by apply wp_ret|]. destruct Hf as [Hsome Hf].
  eapply wp_wand; [apply (IH _ _ (path_join directory (payload_name serial) :: seen))|..]; rewrite ?Hf.
  - apply NoDup_cons. split; [|done]. intros (_ & m & Hm & Heq)%Hseen.
    apply app_inj_tail in Heq as [_ Heq%payload_name_inj]. lia.
  - intros path [-> |(? & m & ? & ->)%Hseen]%elem_of_cons; (split; [done|]).
    + exists serial. split; [lia|done].
    + exists m. split; [lia|done].
  - simpl. lia.
  - intros path s'' (Hs' & ? & ?). by rewrite Hs', Hs.
  - intros e s'' [Hs' Hf']. split; congruence.
Qed.

(** A failed write leaves the file absent or cut short. *)
Lemma write_payload_ok path bytes s :
  wp (write_payload path bytes) s
    (λ _ s', store s' = store s ∧ files s' = <[path := File bytes]> (files s))
    (λ _ s', store s' = store s ∧
       (files s' = delete path (files s) ∨ ∃ n, files s' = <[path := File (take n bytes)]> (files s))).
Proof.
  unfold wp at 1, write_payload, write_all_sync. destruct (io_ok (clock s)); [done|].
  match goal with |- context [(let! _ := ?m in ?k) ?s1] => change (wp (let! _ := m in k) s1 (λ (_ : unit) s',
    store s' = store s ∧ files s' = <[path := File bytes]> (files s)) (λ _ s', store s' = store s ∧
       (files s' = delete path (files s) ∨ ∃ n, files s' = <[path := File (take n bytes)]> (files s)))) end.
  apply wp_bind, wp_report_err, wp_remove_file.
  - intros s' Hs Hf. apply wp_throw. rewrite Hs, Hf. simpl. rewrite delete_insert_eq. auto.
  - intros e s' [Hs Hf]. apply wp_throw. rewrite Hs, Hf. eauto.
Qed.

Lemma disk_step_weaken new c c' : evicts c c' → disk_step new c c'.
Proof. intros []. split; try done. intros k e [|[]]%step_new0. auto. Qed.

(** Once there is room, the payload is written and its entry added, or nothing changes but
    an incomplete file. *)
Lemma put_file_ok directory key bytes u s :
  cache_ok (store s) (files s) → within (store s) → entries (store s) !! key = None →
  payload device (own_id (store s)) bytes → (u ≤ tick (store s))%N →
  (disk_bytes (stats (store s)) + len bytes ≤ cfg_disk_bytes (config (store s)))%N →
  let post s' := cache_ok (store s') (files s') ∧ within (store s') ∧
                 disk_step (λ k u', k = key ∧ u' = u) (store s) (store s') in
  wp (let! serial := self tick in
      let! turns := gets (λ s, S (size (files s))) in
      let! path := create_payload turns directory serial in
      let! _ := write_payload path bytes in
      let! _ := add_disk (len bytes) in
      upd (put_entry key {| tier := OnDisk path (len bytes); used := u |})) s (λ _ s', post s') (λ _ s', post s').
Proof.
  intros Hok Hw Hkey Hpay Hu Hroom post.
  assert (∀ s', store s' = store s → files_honest (own_id (store s)) (files s') → post s') as Herr.
  { intros s' Hs Hf. unfold post. rewrite Hs. split; [by destruct Hok|]. split; [done|]. by apply disk_step_weaken. }
  pose proof (ok_files _ _ Hok) as Hhonest. pose proof (ok_width _ _ Hok) as Hwidth.
  apply wp_bind, wp_gets, wp_bind, wp_gets, wp_bind.
  eapply wp_wand; [apply (create_payload_ok _ _ _ _ []); [apply NoDup_nil_2|by intros ? ?%elem_of_nil|simpl; lia]|..].
  2: { intros e s1 [Hs1 Hf1]. apply Herr; [done|]. by rewrite Hf1. }
  intros path s1 (Hs1 & Hnone & Hf1). apply wp_bind. eapply wp_wand; [apply write_payload_ok|..].
  - intros _ s2 [Hs2 Hf2]. apply wp_bind. unfold add_disk. apply wp_bind, wp_gets, wp_bind.
    rewrite Hs2, Hs1. eapply wp_lift_ok; [apply uadd_ok; lia|]. apply wp_modify, wp_modify.
    simpl. unfold post. simpl. rewrite Hs2, Hs1. simpl. split; [|split].
    + eapply ok_put; [exact Hok|exact Hkey|done|done|done|..]; simpl;
        try (unfold device_weight, host_weight, disk_weight; simpl; lia).
      rewrite Hf2, Hf1, insert_insert_eq. by apply files_honest_insert, payload_honest.
    + unfold within. simpl. lia.
    + split; simpl; try done.
      * rewrite msum_insert_new by done. by unfold host_count at 1.
      * intros k e Hk Hd. rewrite lookup_insert_ne; [done|]. intros ->. congruence.
      * intros k e [[<- <-]|[_ Hk]]%lookup_insert_Some; [by right|by left].
  - intros e s2 [Hs2 Hf2]. apply Herr; [congruence|]. destruct Hf2 as [-> |[n ->]]; rewrite Hf1.
    + rewrite delete_insert_eq. by apply files_honest_delete.
    + rewrite insert_insert_eq. by apply files_honest_insert.
Qed.

Lemma disk_step_after new c c1 c' : evicts c c1 → disk_step new c1 c' → disk_step new c c'.
Proof.
  intros [Ho1 Hd1 Hh1 Hc1 Hk1 Hn1] [Ho2 Hd2 Hh2 Hc2 Hk2 Hn2]. split; try congruence; [by etrans|by eauto|].
  intros k e [Hk|]%Hn2; [|by right]. left. by apply Hn1 in Hk as [|[]].
Qed.

Lemma put_disk_ok key bytes u s :
  cache_ok (store s) (files s) → within (store s) → entries (store s) !! key = None →
  payload device (own_id (store s)) bytes → (u ≤ tick (store s))%N →
  let post s' := cache_ok (store s') (files s') ∧ within (store s') ∧
                 disk_step (λ k u', k = key ∧ u' = u) (store s) (store s') in
  wp (put_disk key bytes u) s (λ _ s', post s') (λ _ s', post s').
Proof.
  intros Hok Hw Hkey Hpay Hu post. unfold put_disk. apply wp_bind, wp_gets.
  destruct ((_ <? _)%N || _) eqn:Hskip.
  { apply wp_ret. split; [done|]. split; [done|]. by apply disk_step_weaken. }
  apply orb_false_iff in Hskip as [Hlen%N.ltb_ge Hzero%N.eqb_neq].
  apply wp_bind. unfold make_room. apply wp_bind, wp_gets.
  eapply wp_wand; [by apply evict_while_ok|..]; simpl.
  2: { intros _ s' (Hok' & Hev & Hle). split; [done|]. split; [|by apply disk_step_weaken].
       unfold within in *. rewrite (owned_config _ _ (step_owned _ _ _ Hev)). lia. }
  intros _ s1 ((Hok1 & Hev & Hle) & Hroom%N.ltb_ge).
  pose proof (step_owned _ _ _ Hev) as [Hid Hlim Hcfg Htick]. unfold saturating_add in Hroom.
  pose proof (ok_width _ _ Hok1) as Hwidth.
  destruct (ok_directory _ _ Hok ltac:(lia)) as [directory Hdir].
  apply wp_bind. eapply wp_expect; [done|].
  eapply wp_wand; [apply (put_file_ok directory key bytes u s1 Hok1)|..].
  - unfold within in *. lia.
  - destruct (entries (store s1) !! key) eqn:Hk; [|done].
    apply (step_new _ _ _ Hev) in Hk as [Hk|[]]. congruence.
  - by rewrite Hid.
  - lia.
  - lia.
  - intros _ s2 (? & ? & ?). split; [done|]. split; [done|]. by eapply disk_step_after.
  - intros _ s2 (? & ? & ?). split; [done|]. split; [done|]. by eapply disk_step_after.
Qed.
End Tiers.
