(* ===== verification/PrefixCacheOps.v ===== *)
(** * The prefix cache: insertion, lookup, prefill and opening

    What each method of the cache does, on every outcome and for every behaviour of the
    file system and the device. *)

From S2P Require Export PrefixCacheTiers.

Section Ops.
Context {P : Profile} {PM : PrefixModel} {H : Host} {L : PrefixLaws PM} (device : Device).

Abbreviation ok s := (cache_ok device (store s) (files s)).

(** ** Spilling *)

(** [victim] leaves its tier; nothing else outside the disk tier is touched and no entry
    is made younger. *)
Record spilled (victim : Tokens) (c c' : TieredPrefixCache) : Prop := {
  spilled_owned : owned c c';
  spilled_kept k e : k ≠ victim → entries c !! k = Some e → is_disk (tier e) = false →
                     entries c' !! k = Some e;
  spilled_ages k e' : entries c' !! k = Some e' → ∃ e, entries c !! k = Some e ∧ used e' = used e
}.

Lemma spilled_disk_step victim e u c c1 c' :
  entries c !! victim = Some e → used e = u → owned c c1 → entries c1 = delete victim (entries c) →
  disk_step (λ k u', k = victim ∧ u' = u) c1 c' → spilled victim c c'.
Proof.
  intros Hv Hu Ho He [Ho' _ _ _ Hkept Hnew]. split; [by etrans|..].
  - intros k e' Hne Hk Hd. apply Hkept; [|done]. by rewrite He, lookup_delete_ne.
  - intros k e' [Hk|[-> ?]]%Hnew.
    + rewrite He in Hk. apply lookup_delete_Some in Hk as [_ Hk]. eauto.
    + exists e. split; [done|congruence].
Qed.
Lemma spilled_put victim e t c c1 c' :
  entries c !! victim = Some e → owned c c1 → entries c1 = delete victim (entries c) → owned c1 c' →
  entries c' = <[victim := {| tier := t; used := used e |}]> (entries c1) → spilled victim c c'.
Proof.
  intros Hv Ho He Ho' He'. split; [by etrans|..].
  - intros k e' Hne Hk Hd. by rewrite He', lookup_insert_ne, He, lookup_delete_ne.
  - intros k e'. rewrite He', lookup_insert_Some, He, lookup_delete_Some.
    intros [[<- <-]|(_ & _ & Hk)]; eauto.
Qed.
Lemma spilled_drop victim c c' :
  owned c c' → entries c' = delete victim (entries c) → spilled victim c c'.
Proof.
  intros Ho He. split; [done|..]; rewrite He.
  - intros k e' Hne Hk Hd. by rewrite lookup_delete_ne.
  - intros k e' [_ Hk]%lookup_delete_Some. eauto.
Qed.

(** The state after an entry has left the device or the host tier. *)
Lemma ok_take c c' fs k e :
  cache_ok device c fs → entries c !! k = Some e → is_disk (tier e) = false → owned c c' →
  entries c' = delete k (entries c) →
  (device_entries (stats c') + device_weight e = device_entries (stats c))%N →
  (host_bytes (stats c') + host_weight e = host_bytes (stats c))%N →
  disk_bytes (stats c') = disk_bytes (stats c) → cache_ok device c' fs.
Proof.
  intros Hok Hk Hd Ho He Hdev Hhost Hdisk. eapply ok_drop; try done; [lia|]. apply Hok.
Qed.

Lemma spill_captured_ok victim e p s s1 cfg :
  ok s1 → within (store s1) → entries (store s) !! victim = Some e → (used e ≤ tick (store s1))%N →
  owned (store s) (store s1) → entries (store s1) = delete victim (entries (store s)) →
  (device_entries (stats (store s1)) < device_entries (stats (store s)))%N →
  tokens p = victim → genuine device (own_id (store s1)) (own_limits (store s1)) p →
  let post s' := ok s' ∧ within (store s') ∧ spilled victim (store s) (store s') in
  wp (spill_captured victim e p cfg device) s1
    (λ _ s', post s' ∧ (device_entries (stats (store s')) < device_entries (stats (store s)))%N)
    (λ _ s', post s').
Proof.
  intros Hok Hw Hk Hu Ho He Hlt Htok Hgen post.
  assert (entries (store s1) !! victim = None) as Hnone by (rewrite He; apply lookup_delete_eq).
  pose proof (capture_ok device _ _ _ s1 Hgen) as Hcap. unfold spill_captured, wp in Hcap |- *.
  destruct (capture p device s1) as [[bytes|err|] s2]; [..|done].
  - destruct Hcap as ([Hs Hf] & Hpay & Hres). rewrite Htok in Hres. destruct (_ <=? _)%N.
    + unfold post. simpl. rewrite Hs, Hf. split; [|simpl; lia]. split; [|split].
      * eapply ok_put; [exact Hok|exact Hnone|split; simpl; (done || lia)|done|done|simpl; lia|..];
          unfold device_weight, host_weight, disk_weight; simpl; try lia. apply Hok.
      * done.
      * by eapply spilled_put; [| | |split; simpl; (done || lia)|].
    + match goal with |- match ?m s2 with _ => _ end => change (wp m s2
        (λ _ s', post s' ∧ (device_entries (stats (store s')) < device_entries (stats (store s)))%N) (λ _ s', post s')) end.
      assert (∀ s', ok s' ∧ within (store s') ∧ disk_step (λ k u', k = victim ∧ u' = used e) (store s2) (store s') →
        post s' ∧ (device_entries (stats (store s')) < device_entries (stats (store s)))%N) as Hpost.
      { intros s' (Hok' & Hw' & Hst). rewrite Hs in Hst. split; [|rewrite (step_device _ _ _ Hst); lia].
        split; [done|]. split; [done|]. by eapply spilled_disk_step. }
      eapply wp_wand; [apply (put_disk_ok device); rewrite ?Hs, ?Hf; done|..].
      * intros ? s' Hs'. by apply Hpost.
      * intros ? s' Hs'. by apply Hpost.
  - destruct Hcap as [Hs Hf]. unfold post. simpl. rewrite Hs, Hf. split; [|split].
    + eapply ok_put; [exact Hok|exact Hnone|split; simpl; (done || lia)|done|done|simpl; lia|..];
        unfold device_weight, host_weight, disk_weight; simpl; try lia. apply Hok.
    + done.
    + by eapply spilled_put; [| | |split; simpl; (done || lia)|].
Qed.

Lemma spill_device_ok s :
  ok s → within (store s) → (0 < device_entries (stats (store s)))%N →
  ∃ victim, oldest is_device (entries (store s)) = Some victim ∧
  let post s' := ok s' ∧ within (store s') ∧ spilled victim (store s) (store s') in
  wp (spill_device device) s
    (λ _ s', post s' ∧ (device_entries (stats (store s')) < device_entries (stats (store s)))%N)
    (λ _ s', post s').
Proof.
  intros Hok Hw Hpos. destruct (oldest is_device (entries (store s))) as [victim|] eqn:Hold.
  2: { exfalso. rewrite (ok_device _ _ _ Hok) in Hpos. apply msum_pos in Hpos as (k & e & Hk & Hp).
       unfold device_weight in Hp. by rewrite (oldest_None _ _ Hold k e Hk) in Hp. }
  exists victim. split; [done|]. intros post.
  apply oldest_Some in Hold as Hvictim. destruct Hvictim as (e & Hk & Hd & _).
  destruct (tier e) as [p| |] eqn:Ht; try done.
  pose proof (ok_entry _ _ _ Hok _ _ Hk) as Hent. rewrite Ht in Hent. destruct Hent as [Htok Hgen].
  assert (device_weight e = 1%N) as Hdw by (unfold device_weight; by rewrite Ht).
  assert (host_weight e = 0%N) as Hhw by (unfold host_weight; by rewrite Ht).
  unfold spill_device. apply wp_bind, wp_gets, wp_bind. eapply wp_expect; [done|].
  apply wp_bind. eapply wp_expect; [done|]. apply wp_bind, wp_modify, wp_bind.
  unfold sub_device. apply wp_bind, wp_gets, wp_bind. eapply wp_lift_ok; [apply usub_ok; simpl; lia|].
  apply wp_modify. simpl. apply wp_bind, wp_gets. rewrite Ht. simpl.
  match goal with |- wp _ ?x _ _ => set (s1 := x) end.
  assert (owned (store s) (store s1)) as Ho by (split; simpl; (done || lia)).
  assert (ok s1) as Hok1.
  { eapply ok_take; [exact Hok|exact Hk|by rewrite Ht|done|done|simpl; lia|simpl; lia|done]. }
  assert (within (store s1)) as Hw1 by done.
  assert (entries (store s1) !! victim = None) as Hnone by apply lookup_delete_eq.
  assert (device_entries (stats (store s1)) < device_entries (stats (store s)))%N as Hlt by (simpl; lia).
  destruct (_ && _).
  { apply wp_ret. split; [|done]. split; [done|]. split; [done|]. by apply spilled_drop. }
  apply spill_captured_ok; try done. by apply (ok_used _ _ _ Hok victim).
Qed.

Lemma spill_host_ok s :
  ok s → within (store s) → (0 < host_bytes (stats (store s)))%N →
  ∃ victim, oldest is_host (entries (store s)) = Some victim ∧
  let post s' := ok s' ∧ within (store s') ∧ spilled victim (store s) (store s') ∧
                 device_entries (stats (store s')) = device_entries (stats (store s)) in
  wp spill_host s
    (λ _ s', post s' ∧ (msum host_count (entries (store s')) < msum host_count (entries (store s)))%N)
    (λ _ s', post s').
Proof.
  intros Hok Hw Hpos. destruct (oldest is_host (entries (store s))) as [victim|] eqn:Hold.
  2: { exfalso. rewrite (ok_host _ _ _ Hok) in Hpos. apply msum_pos in Hpos as (k & e & Hk & Hp).
       apply (oldest_None _ _ Hold) in Hk. unfold host_weight in Hp. by destruct (tier e). }
  exists victim. split; [done|]. intros post.
  apply oldest_Some in Hold as Hv. destruct Hv as (e & Hk & Hd & _).
  destruct (tier e) as [|bytes|] eqn:Ht; try done.
  pose proof (ok_entry _ _ _ Hok _ _ Hk) as Hent. rewrite Ht in Hent. destruct Hent as [Hpay Hres].
  assert (device_weight e = 0%N) as Hdw by (unfold device_weight; by rewrite Ht).
  assert (host_weight e = len bytes) as Hhw by (unfold host_weight; by rewrite Ht).
  pose proof (msum_le host_weight _ _ _ Hk) as Hle. rewrite <-(ok_host _ _ _ Hok), Hhw in Hle.
  unfold spill_host. apply wp_bind, wp_gets, wp_bind. eapply wp_expect; [done|].
  apply wp_bind. eapply wp_expect; [done|]. apply wp_bind, wp_modify. rewrite Ht.
  unfold sub_host. apply wp_bind, wp_bind, wp_gets, wp_bind. eapply wp_lift_ok; [apply usub_ok; simpl; lia|].
  apply wp_modify. simpl. match goal with |- wp _ ?x _ _ => set (s1 := x) end.
  assert (owned (store s) (store s1)) as Ho by (split; simpl; (done || lia)).
  assert (ok s1) as Hok1.
  { eapply ok_take; [exact Hok|exact Hk|by rewrite Ht|done|done|simpl; lia|simpl; lia|done]. }
  assert (∀ s', ok s' ∧ within (store s') ∧ disk_step (λ k u', k = victim ∧ u' = used e) (store s1) (store s') →
    post s' ∧ (msum host_count (entries (store s')) < msum host_count (entries (store s)))%N) as Hpost.
  { intros s' (Hok' & Hw' & Hst). split.
    - split; [done|]. split; [done|]. split; [by eapply spilled_disk_step|]. apply (step_device _ _ _ Hst).
    - rewrite (step_hosts _ _ _ Hst), (msum_delete host_count _ _ _ Hk). unfold host_count at 2.
      rewrite Ht. simpl. lia. }
  eapply wp_wand; [apply (put_disk_ok device); simpl; try done|..].
  - apply lookup_delete_eq.
  - by apply (ok_used _ _ _ Hok victim).
  - intros ? s' Hs'. by apply Hpost.
  - intros ? s' Hs'. by apply Hpost.
Qed.

(** ** Insertion *)

(** [p] is on the device and younger than every other entry. *)
Definition newest (p : PrefilledPrompt) (u : N) (c : TieredPrefixCache) : Prop :=
  entries c !! tokens p = Some {| tier := OnDevice p; used := u |} ∧
  ∀ k e, k ≠ tokens p → entries c !! k = Some e → (used e < u)%N.

Lemma newest_spilled p u victim c c' :
  newest p u c → spilled victim c c' → victim ≠ tokens p → newest p u c'.
Proof.
  intros [Hp Hall] [_ Hkept Hages] Hv. split; [by apply Hkept|].
  intros k e Hne (e0 & Hk & ->)%Hages. by apply (Hall k).
Qed.
Lemma newest_not_oldest p u c fs victim :
  cache_ok device c fs → newest p u c → (1 < device_entries (stats c))%N →
  oldest is_device (entries c) = Some victim → victim ≠ tokens p.
Proof.
  intros Hok [Hp Hall] Hgt (e & Hk & _ & Hmin)%oldest_Some ->. simplify_eq.
  rewrite (ok_device _ _ _ Hok), (msum_delete device_weight _ _ _ Hp) in Hgt.
  assert (0 < msum device_weight (delete (tokens p) (entries c)))%N as Hpos.
  { unfold device_weight at 1 in Hgt. simpl in Hgt. lia. }
  apply msum_pos in Hpos as (k & e & [Hne Hk']%lookup_delete_Some & Hw).
  specialize (Hall k e ltac:(congruence) Hk'). unfold device_weight in Hw.
  specialize (Hmin k e Hk'). destruct (is_device (tier e)); [|done]. specialize (Hmin eq_refl). simpl in Hmin. lia.
Qed.

(** Invariant of the two loops: a device budget of at least one entry keeps the new one. *)
Definition inserting (p : PrefilledPrompt) (u : N) (c : TieredPrefixCache) (s' : State) : Prop :=
  ok s' ∧ within (store s') ∧ owned c (store s') ∧
  ((1 ≤ cfg_device_entries (config c))%N → newest p u (store s')).

Lemma device_loop_ok p u c s :
  inserting p u c s →
  wp (while (S (size (entries (store s))))
        (λ s, cfg_device_entries (config (store s)) <? device_entries (stats (store s)))%N (spill_device device)) s
    (λ _ s', inserting p u c s' ∧
       (cfg_device_entries (config (store s')) <? device_entries (stats (store s')))%N = false)
    (λ _ s', inserting p u c s').
Proof.
  intros HI. apply wp_while with (I := inserting p u c)
    (measure := λ s', N.to_nat (device_entries (stats (store s')))); [done|..].
  - destruct HI as (Hok & _). rewrite (ok_device _ _ _ Hok).
    assert (msum device_weight (entries (store s)) ≤ N.of_nat (size (entries (store s))))%N; [|lia].
    apply msum_size. intros e. unfold device_weight. destruct (is_device _); lia.
  - clear s HI. intros s (Hok & Hw & Ho & Hn) Hc%N.ltb_lt.
    destruct (spill_device_ok s Hok Hw ltac:(lia)) as (victim & Hold & Hwp).
    assert (∀ s', ok s' ∧ within (store s') ∧ spilled victim (store s) (store s') → inserting p u c s') as Hpost.
    { intros s' (Hok' & Hw' & Hsp). split; [done|]. split; [done|]. split; [by etrans; [|apply Hsp]|].
      intros Hge. specialize (Hn Hge). eapply newest_spilled; [done..|].
      rewrite (owned_config _ _ Ho) in Hc. apply (newest_not_oldest p u (store s) (files s)); [done|done|lia|done]. }
    eapply wp_wand; [apply Hwp|..]; simpl.
    + intros _ s' [Hs' Hlt]. split; [by apply Hpost|lia].
    + intros _ s' Hs'. by apply Hpost.
Qed.

Lemma host_loop_ok p u c s :
  inserting p u c s →
  wp (while (S (size (entries (store s))))
        (λ s, cfg_host_bytes (config (store s)) <? host_bytes (stats (store s)))%N spill_host) s
    (λ _ s', (inserting p u c s' ∧ device_entries (stats (store s')) = device_entries (stats (store s))) ∧
       (cfg_host_bytes (config (store s')) <? host_bytes (stats (store s')))%N = false)
    (λ _ s', inserting p u c s').
Proof.
  intros HI. eapply wp_wand; [apply wp_while with
    (I := λ s', inserting p u c s' ∧ device_entries (stats (store s')) = device_entries (stats (store s)))
    (measure := λ s', N.to_nat (msum host_count (entries (store s'))))
    (R := λ _ s', inserting p u c s')|done|done]; [done|..].
  - assert (msum host_count (entries (store s)) ≤ N.of_nat (size (entries (store s))))%N; [|lia].
    apply msum_size. intros e. unfold host_count. destruct (is_host _); lia.
  - intros s0 [(Hok & Hw & Ho & Hn) Hdev] Hc%N.ltb_lt.
    destruct (spill_host_ok s0 Hok Hw ltac:(lia)) as (victim & Hold & Hwp).
    assert (∀ s', ok s' ∧ within (store s') ∧ spilled victim (store s0) (store s') → inserting p u c s') as Hpost.
    { intros s' (Hok' & Hw' & Hsp). split; [done|]. split; [done|]. split; [by etrans; [|apply Hsp]|].
      intros Hge. specialize (Hn Hge). eapply newest_spilled; [done..|]. intros ->.
      destruct Hn as [Hn _]. apply oldest_Some in Hold as (e & He & Hh & _). by simplify_eq. }
    eapply wp_wand; [apply Hwp|..]; simpl.
    + intros _ s' [(? & ? & ? & Hd) Hlt]. split; [|lia]. split; [by apply Hpost|]. congruence.
    + intros _ s' (? & ? & ? & _). by apply Hpost.
Qed.
End Ops.
