(* ===== verification/PrefixCacheLookup.v ===== *)
(** * The prefix cache: insertion and lookup

    An insertion keeps the invariant on success and on failure, and on success the budgets;
    a lookup finds the longest prefix that can be given back. *)

From S2P Require Export PrefixCacheOps.

Section Lookup.
Context {P : Profile} {PM : PrefixModel} {H : Host} {L : PrefixLaws PM} (device : Device).

Abbreviation ok s := (cache_ok device (store s) (files s)).
Abbreviation genuine_in c p := (genuine device (own_id c) (own_limits c) p).

Lemma insert_new_ok p s :
  ok s → within (store s) → genuine_in (store s) p → entries (store s) !! tokens p = None →
  (∀ k e, entries (store s) !! k = Some e → (used e < tick (store s))%N) →
  wp (insert_new p device) s
    (λ _ s', inserting device p (tick (store s)) (store s) s' ∧
       (device_entries (stats (store s')) ≤ cfg_device_entries (config (store s)))%N ∧
       (host_bytes (stats (store s')) ≤ cfg_host_bytes (config (store s)))%N)
    (λ _ s', inserting device p (tick (store s)) (store s) s').
Proof.
  intros Hok Hw Hg Hnone Hused. unfold insert_new.
  apply wp_bind, wp_gets, wp_bind, wp_modify, wp_bind, wp_modify. simpl.
  match goal with |- wp _ ?x _ _ => set (s1 := x) end.
  assert (owned (store s) (store s1)) as Ho by (split; simpl; (done || lia)).
  assert (inserting device p (tick (store s)) (store s) s1) as HI.
  { split; [|split; [done|split; [done|]]].
    - eapply ok_put; [exact Hok|exact Hnone|done|done|done|simpl; lia|..];
        unfold device_weight, host_weight, disk_weight; simpl; try lia. apply Hok.
    - intros _. split; [apply lookup_insert_eq|]. intros k e Hne Hk. simpl in Hk.
      rewrite lookup_insert_ne in Hk by done. by apply (Hused k). }
  apply wp_bind, wp_gets, wp_bind. eapply wp_wand; [by apply device_loop_ok| |done].
  intros _ s2 [HI2 Hdev%N.ltb_ge]. apply wp_bind, wp_gets.
  eapply wp_wand; [by apply host_loop_ok| |done].
  intros _ s3 [[HI3 Heq] Hhost%N.ltb_ge]. split; [done|].
  destruct HI2 as (_ & _ & Ho2 & _), HI3 as (_ & _ & Ho3 & _).
  rewrite (owned_config _ _ Ho2) in Hdev. rewrite (owned_config _ _ Ho3) in Hhost. by rewrite Heq.
Qed.

(** What an insertion leaves behind, on success and on failure. *)
Record inserted (p : PrefilledPrompt) (s s' : State) : Prop := {
  ins_ok : ok s';
  ins_within : within (store s');
  ins_owned : owned (store s) (store s');
  ins_newest : entries (store s) !! tokens p = None →
               (1 ≤ cfg_device_entries (config (store s)))%N → newest p (tick (store s) + 1) (store s')
}.

Lemma prefix_insert_ok p s :
  ok s → within (store s) → genuine_in (store s) p →
  wp (prefix_insert p device) s
    (λ _ s', inserted p s s' ∧
       (entries (store s) !! tokens p = None → disabled (config (store s)) = false →
        (device_entries (stats (store s')) ≤ cfg_device_entries (config (store s)))%N ∧
        (host_bytes (stats (store s')) ≤ cfg_host_bytes (config (store s)))%N))
    (λ _ s', inserted p s s').
Proof.
  intros Hok Hw Hg. unfold prefix_insert. apply wp_bind, wp_gets. simpl.
  pose proof Hg as (Hv & _ & Hc & _). apply wp_bind. eapply wp_lift_ok; [exact Hv|].
  rewrite (position_of _ _ Hc), bool_decide_false by naive_solver.
  destruct (disabled (config (store s))) eqn:Hdis.
  { apply wp_ret. split; [|done]. split; [done|done|done|]. intros _ Hge. exfalso.
    unfold disabled in Hdis. rewrite !andb_true_iff, !N.eqb_eq in Hdis. lia. }
  apply wp_bind, wp_modify. simpl.
  match goal with |- wp _ ?x _ _ => set (s1 := x) end.
  assert (owned (store s) (store s1)) as Ho by (split; simpl; (done || lia)).
  assert (ok s1) as Hok1 by (eapply ok_same; [exact Hok|done..]).
  destruct (entries (store s) !! tokens p) as [e|] eqn:He.
  - apply wp_modify. split; [|done].
    split; [eapply (ok_touch _ (store s1)); [exact Hok1|exact He|split; simpl; (done || lia)|reflexivity|simpl; lia|reflexivity..]|exact Hw|split; simpl; (done || lia)|congruence].
  - assert (∀ s', inserting device p (tick (store s) + 1) (store s1) s' → inserted p s s') as Hpost.
    { intros s' (Hok' & Hw' & Ho' & Hn). split; [done|done|by etrans|done]. }
    eapply wp_wand; [apply insert_new_ok; try done; intros k e Hk%(ok_used _ _ _ Hok); simpl; lia|..]; simpl.
    + intros _ s' (HI & Hd & Hh). split; [by apply Hpost|done].
    + intros _ s'. apply Hpost.
Qed.

(** ** Lookup *)

Lemma validate_prompt p id l prompt :
  validate p id l (tokens p) device = Ok tt → tokens p `prefix_of` prompt →
  validate p id l prompt device = Ok tt.
Proof. rewrite !validate_spec. naive_solver. Qed.

(** What [lookup] can always give back: an entry in memory, or one on disk whose file can be
    read and holds a payload of its key. *)
Definition stored (c : TieredPrefixCache) (fs : gmap (list string) Node) (k : Tokens) (t : Tier) : Prop :=
  match t with
  | OnDisk path _ =>
      (∀ n, io_ok n = true) ∧
      ∃ bytes, fs !! path = Some (File bytes) ∧ restorable device (own_id c) (own_limits c) k bytes
  | _ => True
  end.

Lemma wp_read path s (Q : Bytes → State → Prop) R :
  (∀ bytes s', idle s s' → files s !! path = Some (File bytes) → Q bytes s') →
  (∀ e s', idle s s' → ((∀ n, io_ok n = true) → ∀ bytes, files s !! path ≠ Some (File bytes)) → R e s') →
  wp (read path) s Q R.
Proof.
  intros HQ HR. unfold read, attempt_or_err. apply wp_bind, wp_bind. unfold wp at 1, attempt.
  destruct (io_ok (clock s)) eqn:Hio; [|apply wp_throw, HR; [done|congruence]].
  apply wp_ret, wp_bind, wp_gets. simpl. destruct (files s !! path) as [[bytes|]|] eqn:Hf.
  - by apply wp_ret, HQ.
  - by apply wp_throw, HR.
  - by apply wp_throw, HR.
Qed.

(** The check of a loaded prefix against its key accepts exactly the prefix of the key. *)
Lemma load_check_ok (p : PrefilledPrompt) (k prompt : Tokens) s (R : GenerationError → State → Prop) :
  genuine_in (store s) p → k `prefix_of` prompt → (tokens p ≠ k → ∀ e, R e s) →
  wp (let! _ := lift (validate p (own_id (store s)) (own_limits (store s)) prompt device) in
      if bool_decide (generation_position (cache p) ≠ len k)
      then throw (Message "prefix cache position differs from token key") else ret p) s
    (λ p' s', s' = s ∧ genuine_in (store s) p' ∧ tokens p' = k) R.
Proof.
  intros Hg Hk HR. pose proof Hg as (Hv & _ & Hc & _). apply wp_bind.
  destruct (decide (tokens p = k)) as [Heq|Hne].
  - eapply wp_lift_ok; [apply validate_prompt; [done|by rewrite Heq]|].
    rewrite (position_of _ _ Hc), Heq, bool_decide_false by naive_solver. by apply wp_ret.
  - apply wp_validate; [|by intros; apply HR]. intros (_ & _ & _ & _ & Hpre & _)%validate_spec.
    rewrite (position_of _ _ Hc), bool_decide_true; [by apply wp_throw, HR|].
    intros Hlen. apply Hne. destruct Hk as [x ->], Hpre as [y Hy].
    apply app_inj_1 in Hy as [-> _]; [done|]. unfold len in Hlen. lia.
Qed.

Lemma load_ok k e prompt s :
  ok s → entries (store s) !! k = Some e → k `prefix_of` prompt →
  wp (load (tier e) k prompt device) s
    (λ p s', idle s s' ∧ genuine_in (store s) p ∧ tokens p = k)
    (λ _ s', idle s s' ∧ ¬ stored (store s) (files s) k (tier e)).
Proof.
  intros Hok Hk Hpre. pose proof (ok_entry _ _ _ Hok _ _ Hk) as Hent.
  unfold load. apply wp_bind, wp_gets, wp_bind, wp_gets, wp_bind.
  destruct (tier e) as [p|bytes|path n]; simpl in Hent.
  - destruct Hent as [Htok Hg]. apply wp_ret.
    eapply wp_wand; [by apply (load_check_ok p k prompt s (λ _ _, False))| |done].
    by intros p' s' (-> & ? & ?).
  - destruct Hent as (Hpay & p & Hr & Htok). eapply wp_lift_ok; [exact Hr|].
    apply payload_honest in Hpay. pose proof (restore_genuine _ _ _ _ _ Hpay Hr) as Hg.
    eapply wp_wand; [by apply (load_check_ok p k prompt s (λ _ _, False))| |done].
    by intros p' s' (-> & ? & ?).
  - apply wp_bind, wp_read.
    2: { intros err s' Hidle Hno. split; [done|]. intros (Hio & bytes & Hf & _). by apply (Hno Hio bytes). }
    intros bytes s' [Hs Hfs] Hf.
    assert (honest device (own_id (store s)) bytes) as Hh by by apply (ok_files _ _ _ Hok path).
    destruct (restore_returns device (own_id (store s)) (own_limits (store s)) bytes) as [[p Hr]|[err Hr]].
    + eapply wp_lift_ok; [exact Hr|]. pose proof (restore_genuine _ _ _ _ _ Hh Hr) as Hg.
      rewrite <-Hs. eapply wp_wand; [apply (load_check_ok p k prompt s'
        (λ _ s'', idle s s'' ∧ ¬ stored (store s') (files s') k (OnDisk path n))); [by rewrite Hs|done|]|..].
      * intros Hne _. split; [done|]. rewrite Hfs. intros (_ & bytes' & Hf' & p' & Hr' & Htok').
        simplify_eq. rewrite Hs in Hr'. congruence.
      * by intros p' s'' (-> & ? & ?).
      * intros err s'' [? Hst]. by rewrite Hfs in Hst.
    + unfold wp, lift. rewrite Hr. split; [done|]. intros (_ & bytes' & Hf' & p' & Hr' & Htok').
      simplify_eq. congruence.
Qed.

(** What a lookup of [prompt] from [s] that answers [r] leaves behind. *)
Record found (prompt : Tokens) (s : State) (r : option PrefilledPrompt) (s' : State) : Prop := {
  found_ok : ok s';
  found_within : within (store s');
  found_owned : owned (store s) (store s');
  found_files : files s' = files s;
  found_result :
    match r with
    | Some p =>
        genuine_in (store s) p ∧ tokens p `prefix_of` prompt ∧ is_Some (entries (store s') !! tokens p) ∧
        ∀ k, k `prefix_of` prompt → is_Some (entries (store s') !! k) → (len k ≤ len (tokens p))%N
    | None => ∀ k, k `prefix_of` prompt → entries (store s') !! k = None
    end;
  found_kept k e : entries (store s) !! k = Some e → stored (store s) (files s) k (tier e) →
                   ∃ e', entries (store s') !! k = Some e' ∧ tier e' = tier e;
  found_hits : hits (stats (store s')) = (hits (stats (store s)) + if r then 1 else 0)%N;
  found_reused : reused_tokens (stats (store s')) =
                 (reused_tokens (stats (store s)) + default 0 (len <$> (tokens <$> r)))%N
}.

(** A disk entry that could not be restored is dropped, without its bytes being given back. *)
Lemma found_after_drop prompt s k e s1 r s' :
  entries (store s) !! k = Some e → ¬ stored (store s) (files s) k (tier e) →
  owned (store s) (store s1) → entries (store s1) = delete k (entries (store s)) → files s1 = files s →
  hits (stats (store s1)) = hits (stats (store s)) →
  reused_tokens (stats (store s1)) = reused_tokens (stats (store s)) →
  found prompt s1 r s' → found prompt s r s'.
Proof.
  intros Hk Hns Ho He Hf Hh Hr []. pose proof Ho as [Hid Hlim _ _].
  split; try done; try congruence; [by etrans|by destruct r; rewrite <-?Hid, <-?Hlim|].
  intros k' e' Hk' Hst. destruct (decide (k' = k)) as [->|Hne]; [by simplify_eq|].
  apply found_kept0; [by rewrite He, lookup_delete_ne|].
  unfold stored. by rewrite Hid, Hlim, Hf.
Qed.

Lemma found_hit prompt k e p s s1 s2 :
  ok s → within (store s) → entries (store s) !! k = Some e → longest_key prompt (entries (store s)) = Some k →
  genuine_in (store s) p → tokens p = k → idle s1 s2 →
  s1 = set_store (put_entry k {| tier := tier e; used := tick (store s) |} (store s)) s →
  found prompt s (Some p) (set_store (with_stats (count_hit (len k) (stats (store s2))) (store s2)) s2).
Proof.
  intros Hok Hw Hk (Hpre & _ & Hmax)%longest_key_Some Hg Htok [Hs Hf] ->. simpl in Hs, Hf.
  split; simpl; rewrite ?Hs, ?Hf; simpl; try done.
  - eapply ok_touch; [exact Hok|exact Hk|split; simpl; (done || lia)|reflexivity|simpl; lia|done..].
  - rewrite Htok. split; [done|]. split; [done|]. split; [by rewrite lookup_insert_eq|].
    intros k' Hp' Hs'. apply Hmax; [done|]. destruct (decide (k' = k)) as [->|Hne]; [done|].
    by rewrite lookup_insert_ne in Hs'.
  - intros k' e' Hk' _. destruct (decide (k' = k)) as [->|Hne].
    + exists {| tier := tier e; used := tick (store s) |}. rewrite lookup_insert_eq. by simplify_eq.
    + exists e'. by rewrite lookup_insert_ne.
  - by rewrite Htok.
Qed.

Lemma lookup_loop_ok fuel prompt s :
  ok s → within (store s) → size (entries (store s)) < fuel →
  wp (lookup_loop fuel prompt device) s (found prompt s) (λ _ _, False).
Proof.
  revert s. induction fuel as [|fuel IH]; intros s Hok Hw Hfuel; [lia|]. simpl.
  apply wp_bind, wp_gets. destruct (longest_key prompt (entries (store s))) as [k|] eqn:Hlong.
  2: { apply wp_ret. split; try done; simpl; try lia.
       - intros k Hp. by apply (longest_key_None prompt).
       - intros k e Hk _. by exists e. }
  apply longest_key_Some in Hlong as Hl. destruct Hl as (Hpre & [e Hk] & _).
  apply wp_bind. eapply wp_expect; [exact Hk|]. apply wp_bind, wp_modify. simpl.
  set (s1 := set_store _ s).
  assert (ok s1) as Hok1.
  { eapply ok_touch; [exact Hok|exact Hk|split; simpl; (done || lia)|reflexivity|simpl; lia|done..]. }
  pose proof (load_ok k {| tier := tier e; used := tick (store s) |} prompt s1 Hok1
                (lookup_insert_eq _ _ _) Hpre) as Hload.
  unfold wp in Hload |- *. simpl in Hload.
  destruct (load (tier e) k prompt device s1) as [[p|err|] s2]; [..|done].
  - destruct Hload as (Hidle & Hg & Htok). by eapply found_hit.
  - destruct Hload as [[Hs Hf] Hns]. destruct (tier e) as [?|?|path n] eqn:Ht; [by destruct Hns..|].
    pose (s3 := set_store (drop_entry k (store s2)) s2).
    assert (entries (store s3) = delete k (entries (store s))) as He3.
    { simpl. rewrite Hs. simpl. by rewrite delete_insert_eq. }
    assert (owned (store s) (store s3)) as Ho3 by (split; simpl; rewrite Hs; simpl; (done || lia)).
    assert (ok s3) as Hok3.
    { eapply ok_drop; [exact Hok|exact Hk|done|done|..]; unfold device_weight, host_weight, disk_weight;
        rewrite ?Ht; simpl; rewrite ?Hs, ?Hf; simpl; try lia. apply Hok. }
    assert (within (store s3)) as Hw3 by (unfold within; simpl; by rewrite Hs).
    assert (wp (lookup_loop fuel prompt device) s3 (found prompt s3) (λ _ _, False)) as Hrec.
    { apply IH; [done|done|]. rewrite He3, map_size_delete_Some by done.
      assert (size (entries (store s)) ≠ 0); [|lia]. rewrite map_size_empty_iff. intros Hem.
      by rewrite Hem in Hk. }
    unfold wp in Hrec. change (match lookup_loop fuel prompt device s3 with
      (Ok r, s') => found prompt s r s' | (Err _, _) => False | (Panic, _) => False end).
    destruct (lookup_loop fuel prompt device s3) as [[r| |] s4]; [|done..].
    eapply found_after_drop; [exact Hk|by rewrite Ht|done|done|..|done]; simpl; by rewrite ?Hs, ?Hf.
Qed.

(** What [lookup] counts before it searches. *)
Definition counted (s : State) : State :=
  set_store (with_tick (tick (store s) + 1) (with_stats (count_lookup (stats (store s))) (store s))) s.
Lemma prefix_lookup_ok prompt s :
  ok s → within (store s) →
  wp (prefix_lookup prompt device) s (found prompt (counted s)) (λ _ _, False).
Proof.
  intros Hok Hw. unfold prefix_lookup. apply wp_bind, wp_modify, wp_bind, wp_modify, wp_bind, wp_gets.
  apply lookup_loop_ok; [|done|simpl; lia].
  eapply ok_same; [exact Hok|split; simpl; (done || lia)|done..].
Qed.
End Lookup.
