(* ===== verification/PrefixCachePrefill.v ===== *)
(** * The prefix cache: prefill and opening

    A prefill extends the longest stored prefix block by block; opening a cache takes over
    the payloads of an earlier run. *)

From S2P Require Export PrefixCacheLookup.

Section Prefill.
Context {P : Profile} {PM : PrefixModel} {H : Host} {L : PrefixLaws PM} (device : Device).

Abbreviation ok s := (cache_ok device (store s) (files s)).
Abbreviation genuine_in c p := (genuine device (own_id c) (own_limits c) p).

Lemma bad_tokens_take l prompt n :
  bad_tokens l prompt = false → 0 < n → bad_tokens l (take n prompt) = false.
Proof.
  unfold bad_tokens. rewrite !orb_false_iff, !bool_decide_eq_false, !N.ltb_ge. intros [[Hne Hlen] Hbad] Hn.
  split; [split|].
  - destruct prompt, n; [done|done|lia|done].
  - unfold len in *. rewrite length_take. lia.
  - apply not_true_iff_false. rewrite existsb_exists. intros (t & Hin & Ht).
    apply not_true_iff_false in Hbad. apply Hbad, existsb_exists. exists t. split; [|done].
    rewrite <-(take_drop n prompt). apply in_or_app. by left.
Qed.

(** A block is not empty and ends inside the prompt. *)
Lemma block_end_spec cfg start total :
  block_tokens cfg ≠ 0%N → (start < total)%N → (total ≤ usize_max)%N →
  (start < block_end cfg start total ≤ total)%N.
Proof.
  intros Hb Hlt Hmax. unfold block_end. destruct (disabled cfg); [lia|].
  destruct (div_mod_vars start (block_tokens cfg)) as (q & m & -> & _ & -> & Hm); [lia|].
  assert (block_tokens cfg * q + m < (q + 1) * block_tokens cfg)%N by nia. lia.
Qed.

(** The model serves every valid prompt and the device reports no failure. *)
Definition healthy (l : CausalModelLimits) : Prop :=
  (∀ n, sync_ok n = true) ∧
  ∀ ts ts' c, cache_of ts c → ts' ≠ [] → bad_tokens l (ts ++ ts') = false →
  ∃ lg c', try_forward_cached_last ts' c = (Ok lg, c') ∧
           dims lg = (1, 1, vocab_size l)%N ∧ logits_device lg = device.

(** What stays true between blocks. *)
Definition serving (c : TieredPrefixCache) (s' : State) : Prop :=
  ok s' ∧ within (store s') ∧ owned c (store s').
Lemma serving_id c s : serving c s → own_id (store s) = own_id c ∧ own_limits (store s) = own_limits c.
Proof. by intros (_ & _ & []). Qed.

Lemma wp_sync s (Q : unit → State → Prop) R :
  (∀ s', idle s s' → Q tt s') → (∀ e s', idle s s' → (∃ n, sync_ok n = false) → R e s') → wp sync s Q R.
Proof.
  intros HQ HR. unfold sync, attempt_or_err. apply wp_bind. unfold wp at 1, attempt.
  destruct (sync_ok (clock s)) eqn:Hs; [by apply wp_ret, HQ|]. apply wp_throw, HR; [done|by exists (clock s)].
Qed.

(** One block: forward, synchronize, check. *)
Lemma block_ok c (prompt : Tokens) (cc : Cache) (start end_ : N) s (k : PrefilledPrompt → M State GenerationError (option PrefilledPrompt))
    (Q : option PrefilledPrompt → State → Prop) (R : GenerationError → State → Prop) :
  serving c s → bad_tokens (own_limits c) prompt = false → (start < end_ ≤ len prompt)%N →
  cache_of (take (N.to_nat start) prompt) cc →
  (∀ e s', serving c s' → ¬ healthy (own_limits c) → R e s') →
  (∀ p s', serving c s' → genuine_in c p → tokens p = take (N.to_nat end_) prompt → wp (k p) s' Q R) →
  wp (let '(out, cc) := try_forward_cached_last (take (N.to_nat (end_ - start)) (drop (N.to_nat start) prompt)) cc in
      let! out := lift out in
      let! _ := sync in
      let prefix := {| model_id := own_id (store s); limits := own_limits (store s);
                       tokens := take (N.to_nat end_) prompt; cache := cc; logits := out |} in
      let! _ := lift (validate prefix (own_id (store s)) (own_limits (store s)) prompt device) in
      if bool_decide (generation_position (cache prefix) ≠ end_)
      then throw (Message "prefill did not complete all layer cache state") else k prefix) s Q R.
Proof.
  intros Hs Hbad Hend Hcc HR Hk. destruct (serving_id _ _ Hs) as [Hid Hlim].
  set (input := take _ (drop _ _)).
  assert (take (N.to_nat start) prompt ++ input = take (N.to_nat end_) prompt) as Happ.
  { unfold input. rewrite <-(take_drop (N.to_nat start) (take (N.to_nat end_) prompt)).
    rewrite take_take, skipn_firstn_comm. do 2 f_equal; lia. }
  assert (bad_tokens (own_limits c) (take (N.to_nat end_) prompt) = false) as Hbad' by (apply bad_tokens_take; [done|lia]).
  assert (input ≠ []) as Hne.
  { intros Hin. apply (f_equal length) in Hin. unfold input, len in *. rewrite length_take, length_drop in Hin. simpl in Hin. lia. }
  assert (length (take (N.to_nat end_) prompt) = N.to_nat end_) as Hlen by (rewrite length_take; unfold len in Hend; lia).
  destruct (try_forward_cached_last input cc) as [out cc'] eqn:Hfw.
  assert (healthy (own_limits c) → ∃ lg, out = Ok lg ∧ dims lg = (1, 1, vocab_size (own_limits c))%N ∧ logits_device lg = device) as Hheal.
  { intros [_ Hh]. destruct (Hh _ input cc Hcc Hne) as (lg & c' & Hf & Hd); [by rewrite Happ|].
    rewrite Hfw in Hf. simplify_eq. eauto. }
  pose proof (forward_returns input cc) as Hret. rewrite Hfw in Hret. simpl in Hret.
  destruct out as [lg|err|]; [|apply HR; [done|naive_solver]|done].
  apply wp_bind. eapply wp_lift_ok; [done|]. apply wp_bind, wp_sync.
  2: { intros e s' [Hst Hf] [n Hn]. apply HR; [unfold serving; by rewrite Hst, Hf|]. intros [Hsy _]. congruence. }
  intros s' [Hst Hf]. assert (serving c s') as Hs' by (unfold serving; by rewrite Hst, Hf).
  destruct (forward_of _ _ _ _ _ Hcc Hne Hfw) as [Hc' Hl']. rewrite Happ in Hc', Hl'.
  apply wp_bind. rewrite Hid, Hlim. apply wp_validate.
  - intros Hval. simpl. rewrite (position_of _ _ Hc'). unfold len. rewrite Hlen, N2Nat.id.
    rewrite bool_decide_false by naive_solver. apply Hk; [done| |done]. split; [|done].
    simpl. revert Hval. rewrite !validate_spec. naive_solver.
  - intros e He. apply HR; [done|]. intros Hh. destruct (Hheal Hh) as (lg' & [= <-] & Hd & Hdev).
    match type of He with ?v = _ => assert (v = Ok tt) as Hv; [|congruence] end.
    apply validate_spec. simpl. repeat split; try done.
    + rewrite <-Hid. apply Hs.
    + intros Hnil. rewrite Hnil in Hlen. simpl in Hlen. lia.
    + apply prefix_take.
Qed.

(** The prefix computed so far. *)
Definition computed (c : TieredPrefixCache) (prompt : Tokens) (start : N) (result : option PrefilledPrompt) : Prop :=
  match result with
  | Some p => genuine_in c p ∧ tokens p = take (N.to_nat start) prompt
  | None => start = 0%N
  end.
Lemma computed_all c l prompt result :
  bad_tokens l prompt = false → computed c prompt (len prompt) result →
  ∃ p, result = Some p ∧ genuine_in c p ∧ tokens p = prompt.
Proof.
  intros Hbad. destruct result as [p|]; simpl.
  - intros [? Htok]. exists p. split; [done|]. split; [done|]. rewrite Htok. unfold len. by rewrite Nat2N.id, firstn_all.
  - by destruct prompt.
Qed.

Lemma prefill_loop_ok c prompt fuel (cc : Cache) (start : N) (result : option PrefilledPrompt) s :
  serving c s → bad_tokens (own_limits c) prompt = false → (len prompt ≤ usize_max)%N →
  (start ≤ len prompt ≤ start + N.of_nat fuel)%N →
  cache_of (take (N.to_nat start) prompt) cc → computed c prompt start result →
  wp (prefill_loop fuel prompt device cc start result) s
    (λ r s', serving c s' ∧ ∃ p, r = Some p ∧ genuine_in c p ∧ tokens p = prompt)
    (λ _ s', serving c s' ∧ ¬ healthy (own_limits c)).
Proof.
  intros Hs Hbad Hmax. revert cc start result s Hs.
  induction fuel as [|fuel IH]; intros cc start result s Hs Hle Hcc Hres; simpl;
    destruct (N.ltb_spec start (len prompt)) as [Hlt|Hge]; simpl; [lia|..];
    try (assert (start = len prompt) as -> by lia; apply wp_ret; split; [done|by eapply computed_all]).
  apply wp_bind, wp_gets. unfold id. pose proof Hs as (Hok & Hw & Ho).
  pose proof (ok_block _ _ _ Hok) as Hblock. rewrite (proj2 (N.eqb_neq _ _) Hblock), andb_false_r.
  pose proof (block_end_spec (config (store s)) start (len prompt) Hblock Hlt Hmax) as Hend.
  apply (block_ok c prompt cc start (block_end (config (store s)) start (len prompt)) s
    (λ p, let! _ := report_err (prefix_insert p device) in
          prefill_loop fuel prompt device (cache p) (block_end (config (store s)) start (len prompt)) (Some p)));
    try done.
  intros p s1 Hs1 Hg Htok. destruct (serving_id _ _ Hs1) as [Hid Hlim]. pose proof Hs1 as (Hok1 & Hw1 & Ho1).
  assert (∀ s2, inserted device p s1 s2 → wp (prefill_loop fuel prompt device (cache p)
    (block_end (config (store s)) start (len prompt)) (Some p)) s2
    (λ r s', serving c s' ∧ ∃ p, r = Some p ∧ genuine_in c p ∧ tokens p = prompt)
    (λ _ s', serving c s' ∧ ¬ healthy (own_limits c))) as Hnext.
  { intros s2 [Hok2 Hw2 Ho2 _]. apply IH; [|lia| |done].
    - split; [done|]. split; [done|]. by etrans.
    - destruct Hg as (_ & _ & Hc & _). by rewrite <-Htok. }
  apply wp_bind, wp_report_err.
  eapply wp_wand; [apply (prefix_insert_ok device); [done|done|by rewrite Hid, Hlim]|..].
  - intros ? s2 [Hi _]. by apply Hnext.
  - intros ? s2 Hi. by apply Hnext.
Qed.

Lemma found_tokens prompt s p s' :
  found device prompt s (Some p) s' →
  tokens p = take (N.to_nat (len (tokens p))) prompt ∧ (len (tokens p) ≤ len prompt)%N.
Proof.
  intros Hf. destruct (found_result _ _ _ _ _ Hf) as (_ & [x Hx] & _). unfold len. rewrite Nat2N.id, Hx.
  rewrite take_app_length, length_app. split; [done|lia].
Qed.

Lemma prefill_ok prompt s :
  ok s → within (store s) → (len prompt ≤ usize_max)%N →
  wp (prefill prompt device) s
    (λ p s', serving (store s) s' ∧ bad_tokens (own_limits (store s)) prompt = false ∧
             genuine_in (store s) p ∧ tokens p = prompt)
    (λ _ s', serving (store s) s' ∧
       (bad_tokens (own_limits (store s)) prompt = true ∨ ¬ healthy (own_limits (store s)))).
Proof.
  intros Hok Hw Hmax. unfold prefill. apply wp_bind, wp_gets.
  destruct (bad_tokens (own_limits (store s)) prompt) eqn:Hbad.
  { apply wp_throw. split; [|by left]. split; [done|]. by split. }
  apply wp_bind. eapply wp_wand; [by apply (prefix_lookup_ok device)| |done].
  intros r s1 Hf. pose proof Hf as [Hok1 Hw1 Ho1 _ Hr _ _ _].
  assert (owned (store s) (store (counted s))) as Ho by (split; simpl; (done || lia)).
  assert (serving (store s) s1) as Hs1 by (split; [done|]; split; [done|by etrans]).
  assert (∀ cc start, (start ≤ len prompt)%N → cache_of (take (N.to_nat start) prompt) cc →
    computed (store s) prompt start r →
    wp (let! result := prefill_loop (length prompt) prompt device cc start r in
        ok_or result (Message "prefix prefill produced no completed state")) s1
      (λ p s', serving (store s) s' ∧ false = false ∧ genuine_in (store s) p ∧ tokens p = prompt)
      (λ _ s', serving (store s) s' ∧ (false = true ∨ ¬ healthy (own_limits (store s))))) as Hloop.
  { intros cc start Hle Hcc Hc. apply wp_bind. eapply wp_wand.
    - apply (prefill_loop_ok (store s)); try done. unfold len in *. lia.
    - intros r' s2 (Hs2 & p & -> & Hg & Htok). by apply wp_ret.
    - intros e s2 [Hs2 Hh]. auto. }
  destruct r as [p|].
  - destruct (found_tokens _ _ _ _ Hf) as [Htok Hle]. destruct Hr as (Hg & _).
    apply Hloop; [done| |done]. destruct Hg as (_ & _ & Hc & _). by rewrite <-Htok.
  - apply Hloop; [lia| |done]. apply new_cache_of.
Qed.

(** ** Opening *)

Definition file_size (fs : gmap (list string) Node) (path : list string) : N :=
  match fs !! path with Some (File bytes) => len bytes | _ => 0 end.
Definition total_size (fs : gmap (list string) Node) (paths : list (list string)) : N :=
  foldr (λ p n, file_size fs p + n)%N 0%N paths.

Lemma total_size_perm fs ps ps' : ps ≡ₚ ps' → total_size fs ps = total_size fs ps'.
Proof. induction 1; simpl; lia. Qed.

Definition compatible (c : TieredPrefixCache) (h : Header) : Prop :=
  version h = 1%N ∧ head_id h = own_id c ∧ head_limits h = own_limits c ∧
  bad_tokens (own_limits c) (head_tokens h) = false.
(** [path] holds a payload of the model of [c] for [ts]. *)
Definition offers (c : TieredPrefixCache) (fs : gmap (list string) Node) (path : list string) (ts : Tokens) : Prop :=
  ∃ bytes h, fs !! path = Some (File bytes) ∧ is_payload path = true ∧ read_header bytes = Some h ∧
             compatible c h ∧ head_tokens h = ts.

(** Between two directory entries: [paths] of [fs] are listed, [rest] are still to be read. *)
Record reopening (c : TieredPrefixCache) (fs : gmap (list string) Node) (paths rest : list (list string)) (s : State) : Prop := {
  re_nodup : NoDup rest;
  re_ok : ok s;
  re_owned : owned c (store s);
  re_rest path : path ∈ rest → files s !! path = fs !! path;
  re_size : (disk_bytes (stats (store s)) + total_size fs rest ≤ total_size fs paths)%N;
  re_seen : (∀ n, io_ok n = true) → ∀ path ts, path ∈ paths → path ∉ rest → offers c fs path ts →
            is_Some (entries (store s) !! ts)
}.

Lemma reopening_next c fs paths path rest s s' :
  reopening c fs paths (path :: rest) s → ok s' → owned (store s) (store s') →
  (∀ p, p ≠ path → files s' !! p = files s !! p) →
  (∀ ts, is_Some (entries (store s) !! ts) → is_Some (entries (store s') !! ts)) →
  (disk_bytes (stats (store s')) ≤ disk_bytes (stats (store s)) + file_size fs path)%N →
  ((∀ n, io_ok n = true) → ∀ ts, offers c fs path ts → is_Some (entries (store s') !! ts)) →
  reopening c fs paths rest s'.
Proof.
  intros [Hnd Hok Ho Hrest Hsize Hseen] Hok' Ho' Hf Hkeep Hdisk Hpath.
  apply NoDup_cons in Hnd as [Hnin Hnd]. split; try done.
  - by etrans.
  - intros p Hp. rewrite Hf by (intros ->; done). apply Hrest. by right.
  - simpl in Hsize. lia.
  - intros Hio p ts Hp Hnr Hoff. destruct (decide (p = path)) as [->|Hne]; [by apply Hpath|].
    apply Hkeep, (Hseen Hio p); [done|set_solver|done].
Qed.
(** A directory entry that is passed over. *)
Lemma reopening_skip c fs paths path rest s s' :
  reopening c fs paths (path :: rest) s → idle s s' →
  ((∀ n, io_ok n = true) → ∀ ts, offers c fs path ts → is_Some (entries (store s) !! ts)) →
  reopening c fs paths rest s'.
Proof.
  intros Hre [Hs Hf] Hpath. eapply reopening_next; [exact Hre|rewrite ?Hs, ?Hf..]; try done.
  - apply Hre.
  - lia.
Qed.

Lemma adopt_ok c fs paths path rest s bytes h :
  reopening c fs paths (path :: rest) s → fs !! path = Some (File bytes) → read_header bytes = Some h →
  wp (adopt path (len bytes) h) s (λ _ s', reopening c fs paths rest s') (λ _ _, True).
Proof.
  intros Hre Hfs Hh. pose proof Hre as [_ Hok Ho _ _ _]. unfold adopt. apply wp_bind, wp_gets. unfold id.
  assert (∀ ts, offers c fs path ts → compatible c h ∧ ts = head_tokens h) as Hoffer.
  { intros ts (b & h' & Hb & _ & Hrh & Hc & <-). simplify_eq. done. }
  case_match eqn:Hbad.
  { apply wp_ret. eapply reopening_skip; [exact Hre|done|]. intros _ ts [(Hv & Hid & Hl & Hb) _]%Hoffer. exfalso.
    rewrite Hv, Hid, Hl, Hb, (owned_id _ _ Ho), (owned_limits _ _ Ho) in Hbad.
    rewrite !bool_decide_false in Hbad by naive_solver. done. }
  clear Hbad. apply wp_bind, wp_modify. case_bool_decide as Hin.
  - apply wp_remove_file; [|done]. intros s' Hs Hf. simpl in Hs, Hf.
    eapply reopening_next; [exact Hre|..]; rewrite ?Hs, ?Hf; simpl.
    + eapply ok_same; [|split; simpl; (done || lia)|done..].
      destruct Hok. split; try done. by apply files_honest_delete.
    + split; simpl; (done || lia).
    + intros p Hne. by rewrite lookup_delete_ne.
    + done.
    + lia.
    + intros _ ts [_ ->]%Hoffer. done.
  - apply wp_bind, wp_ok_or; [|done]. intros total Htotal. simpl. apply wp_bind, wp_modify, wp_modify.
    unfold checked_add in Htotal. case_match; [|done]. injection Htotal as <-.
    assert (entries (store s) !! head_tokens h = None) as Hnone by by apply eq_None_not_Some.
    eapply reopening_next; [exact Hre|..]; simpl.
    + eapply ok_put; [exact Hok|exact Hnone|split; simpl; (done || lia)|reflexivity|done|simpl; lia|..];
        unfold device_weight, host_weight, disk_weight; simpl; try lia. apply Hok.
    + split; simpl; (done || lia).
    + done.
    + intros ts Hts. destruct (decide (ts = head_tokens h)) as [->|Hne]; [by rewrite lookup_insert_eq|].
      by rewrite lookup_insert_ne.
    + unfold file_size. rewrite Hfs. lia.
    + intros _ ts [_ ->]%Hoffer. by rewrite lookup_insert_eq.
Qed.

Lemma reopen_entry_ok c fs paths path rest s :
  reopening c fs paths (path :: rest) s →
  wp (reopen_entry path) s (λ _ s', reopening c fs paths rest s') (λ _ _, True).
Proof.
  intros Hre. unfold reopen_entry.
  apply wp_bind, wp_attempt_or_err; [|done]. intros s1 [Hs1 Hf1].
  apply wp_bind, wp_attempt_or_err; [|done]. intros s2 [Hs2 Hf2].
  apply wp_bind, wp_gets.
  assert (files s2 !! path = fs !! path) as Hpath by (rewrite Hf2, Hf1; apply Hre; by left). rewrite Hpath.
  assert (∀ s', idle s s' → (∀ ts, ¬ offers c fs path ts) → reopening c fs paths rest s') as Hskip.
  { intros s' Hidle Hno. eapply reopening_skip; [exact Hre|done|]. intros _ ts Hoff. by destruct (Hno ts). }
  assert (idle s s2) as Hidle2 by (split; congruence).
  destruct (fs !! path) as [[bytes|]|] eqn:Hfs;
    try (apply wp_ret, Hskip; [done|]; intros ts (b & h & Hb & _); congruence).
  destruct (is_payload path) eqn:Hpay; simpl.
  2: { apply wp_ret, Hskip; [done|]. intros ts (b & h & _ & Hp & _). congruence. }
  apply wp_bind, wp_attempt_or_err; [|done]. intros s3 [Hs3 Hf3].
  apply wp_bind, wp_attempt_or_err; [|done]. intros s4 [Hs4 Hf4].
  apply wp_bind, wp_attempt. intros readable s5 [Hs5 Hf5] Hread.
  assert (idle s s5) as Hidle by (split; congruence).
  destruct (if readable then read_header bytes else None) as [h|] eqn:Hh.
  2: { apply wp_ret. eapply reopening_skip; [exact Hre|done|]. intros Hio ts (b & h & Hb & _ & Hrh & _).
       rewrite Hread in Hh by done. congruence. }
  destruct readable; [|done]. eapply wp_wand; [eapply (adopt_ok c fs paths path rest s5); [|done..]| |done].
  - destruct Hidle as [Hs Hf]. destruct Hre. split; rewrite ?Hs, ?Hf; done.
  - done.
Qed.

Lemma reopen_disk_ok s :
  ok s → entries (store s) = ∅ → disk_bytes (stats (store s)) = 0%N →
  wp reopen_disk s
    (λ _ s', ok s' ∧ within (store s') ∧ owned (store s) (store s') ∧
       ∀ directory, disk_directory (config (store s)) = Some directory → (0 < cfg_disk_bytes (config (store s)))%N →
       (∀ n, io_ok n = true) →
       (total_size (files s) (children directory (files s)) ≤ cfg_disk_bytes (config (store s)))%N →
       ∀ path ts, path ∈ children directory (files s) → offers (store s) (files s) path ts →
       is_Some (entries (store s') !! ts))
    (λ _ _, True).
Proof.
  intros Hok Hempty Hdisk. unfold reopen_disk. apply wp_bind, wp_gets.
  destruct (disk_directory (config (store s))) as [directory|] eqn:Hdir.
  2: { apply wp_ret. split; [done|]. split; [unfold within; lia|]. split; [done|]. by intros ? [=]. }
  destruct (N.eqb_spec (cfg_disk_bytes (config (store s))) 0) as [Hzero|Hnz].
  { apply wp_ret. split; [done|]. split; [unfold within; lia|]. split; [done|]. intros ? _ Hpos. lia. }
  apply wp_bind. unfold read_dir. apply wp_bind, wp_attempt_or_err; [|done]. intros s1 [Hs1 Hf1].
  apply wp_gets. rewrite Hf1. set (paths := dir_iter _ _).
  assert (paths ≡ₚ children directory (files s)) as Hperm by apply dir_iter_perm.
  assert (NoDup paths) as Hnd.
  { rewrite Hperm. apply NoDup_filter, NoDup_fst_map_to_list. }
  apply wp_bind. eapply wp_wand; [apply (wp_for_each paths reopen_entry (reopening (store s) (files s) paths))|..].
  - split; rewrite ?Hs1, ?Hf1; try done. lia.
  - intros path rest s'. apply reopen_entry_ok.
  - intros _ s2 [_ Hok2 Ho2 _ Hsize Hseen]. simpl in Hsize. apply wp_bind, wp_gets.
    destruct (cfg_disk_bytes (config (store s)) <? disk_bytes (stats (store s2)))%N eqn:Hover.
    + eapply wp_wand; [by apply (evict_while_ok device)| |done].
      intros _ s3 ((Hok3 & Hev & Hle) & Hstop%N.ltb_ge). split; [done|].
      assert (owned (store s) (store s3)) as Ho3 by (etrans; [done|apply Hev]).
      split; [unfold within; by rewrite (owned_config _ _ Ho3)|]. split; [done|].
      intros d [= <-] _ _ Hfits. apply N.ltb_lt in Hover. rewrite <-(total_size_perm _ _ _ Hperm) in Hfits. lia.
    + unfold wp. simpl. rewrite Hover. split; [done|]. apply N.ltb_ge in Hover.
      split; [unfold within; by rewrite (owned_config _ _ Ho2)|]. split; [done|].
      intros d [= <-] _ Hio _ path ts Hp Hoff. apply (Hseen Hio path); [by rewrite Hperm|set_solver|done].
  - done.
Qed.

Lemma prefix_new_ok id l cfg s :
  files_honest device id (files s) → (cfg_disk_bytes cfg < usize_max)%N →
  wp (prefix_new id l cfg) s
    (λ _ s', ok s' ∧ within (store s') ∧ own_id (store s') = id ∧ own_limits (store s') = l ∧
       ∀ base, disk_directory cfg = Some base → (0 < cfg_disk_bytes cfg)%N → (∀ n, io_ok n = true) →
       let listed := children (path_join base (digest id)) (files s) in
       (total_size (files s) listed ≤ cfg_disk_bytes cfg)%N →
       ∀ path ts, path ∈ listed → offers (store s') (files s) path ts → is_Some (entries (store s') !! ts))
    (λ _ _, True).
Proof.
  intros Hf Hwidth. unfold prefix_new. case_bool_decide as Hid; [done|].
  destruct (N.eqb_spec (block_tokens cfg) 0) as [|Hblock]; [done|].
  destruct ((0 <? cfg_disk_bytes cfg)%N && _) eqn:Hdir; [done|].
  assert (∀ d, ((0 < cfg_disk_bytes cfg)%N → is_Some d) → ∀ s', files s' = files s →
    let c := empty_cache id l (set_directory d cfg) in
    wp reopen_disk (set_store c s')
      (λ _ s', ok s' ∧ within (store s') ∧ own_id (store s') = id ∧ own_limits (store s') = l ∧
         ∀ directory, d = Some directory → (0 < cfg_disk_bytes cfg)%N → (∀ n, io_ok n = true) →
         (total_size (files s) (children directory (files s)) ≤ cfg_disk_bytes cfg)%N →
         ∀ path ts, path ∈ children directory (files s) → offers (store s') (files s) path ts →
         is_Some (entries (store s') !! ts)) (λ _ _, True)) as Hopen.
  { intros d Hd s' Hfs c. eapply wp_wand; [apply reopen_disk_ok; [|done..]| |done]; simpl; rewrite ?Hfs.
    - split; simpl; rewrite ?msum_empty; try done.
    - intros _ s2 (Hok2 & Hw2 & Ho2 & Hre). pose proof Ho2 as [Hid2 Hl2 _ _]. simpl in Hid2, Hl2.
      split; [done|]. split; [done|]. split; [done|]. split; [done|].
      intros directory Hdd Hpos Hio Hfits path ts Hp Hoff. eapply Hre; try done.
      destruct Hoff as (b & h & Hb & Hpay & Hh & (Hv & Hi & Hli & Hbt) & Hts). rewrite Hid2 in Hi. rewrite Hl2 in Hli, Hbt.
      by exists b, h. }
  destruct (disk_directory cfg) as [base|] eqn:Hbase.
  - apply wp_bind, wp_bind, wp_attempt_or_err; [|done]. intros s1 [Hs1 Hf1]. apply wp_ret, wp_bind, wp_modify.
    eapply wp_wand; [by apply Hopen| |done]. intros _ s2 (? & ? & ? & ? & Hre).
    split; [done|]. split; [done|]. split; [done|]. split; [done|]. intros ? [= <-]. by apply Hre.
  - apply wp_bind, wp_ret, wp_bind, wp_modify.
    assert (cfg = set_directory None cfg) as Hcfg by (destruct cfg; simpl in *; by subst). rewrite Hcfg.
    eapply wp_wand; [apply Hopen; [|done]| |done].
    + intros Hpos. apply N.ltb_lt in Hpos. by rewrite Hpos in Hdir.
    + intros _ s2 (? & ? & ? & ? & _). split; [done|]. split; [done|]. split; [done|]. split; [done|]. by intros ? [=].
Qed.
End Prefill.
