(* ===== verification/PrefixCacheProps.v ===== *)
(** * The prefix cache: theorems

    A cache is opened over a directory and then used in any way, while other processes may
    change its files as long as what they write under the name of this model is a payload
    of it ([reachable]).  In every such state no method panics, the answers are right, and
    the tiers keep their budgets; failures of the device or the file system cost stored
    prefixes, never correctness.  [Leak] shows one thing that is lost for good: the bytes of
    a disk entry that could not be read stay counted. *)

From S2P Require Export PrefixCachePrefill.

Section Props.
Context {P : Profile} {PM : PrefixModel} {H : Host} {L : PrefixLaws PM} (device : Device).

Abbreviation genuine_in c p := (genuine device (own_id c) (own_limits c) p).

(** ** Sessions *)

Inductive cache_step : State → State → Prop :=
| do_lookup prompt s : cache_step s (prefix_lookup prompt device s).2
| do_insert p s : genuine_in (store s) p → cache_step s (prefix_insert p device s).2
| do_prefill prompt s : (len prompt ≤ usize_max)%N → cache_step s (prefill prompt device s).2
| other_process fs s : files_honest device (own_id (store s)) fs → cache_step s (set_files fs s).

Definition opened (s : State) : Prop :=
  ∃ id l cfg s0, files_honest device id (files s0) ∧ (cfg_disk_bytes cfg < usize_max)%N ∧
                 prefix_new id l cfg s0 = (Ok tt, s).
Definition reachable (s : State) : Prop := ∃ s0, opened s0 ∧ rtc cache_step s0 s.

Lemma wp_state {A} (m : M State GenerationError A) s (Q : A → State → Prop) R (I : State → Prop) :
  wp m s Q R → (∀ a s', Q a s' → I s') → (∀ e s', R e s' → I s') → I (m s).2.
Proof. unfold wp. destruct (m s) as [[] ?]; naive_solver. Qed.
Lemma wp_no_panic {A} (m : M State GenerationError A) s (Q : A → State → Prop) R :
  wp m s Q R → (m s).1 ≠ Panic.
Proof. unfold wp. by destruct (m s) as [[] ?]. Qed.

Definition sound (s : State) : Prop := cache_ok device (store s) (files s) ∧ within (store s).

Lemma cache_step_sound s s' : cache_step s s' → sound s → sound s'.
Proof.
  intros Hstep [Hok Hw]. destruct Hstep as [prompt s|p s Hg|prompt s Hlen|fs s Hf].
  - eapply wp_state; [by apply (prefix_lookup_ok device)| |done]. by intros r s' [].
  - eapply wp_state; [by apply (prefix_insert_ok device)|..].
    + by intros _ s' [[] _].
    + by intros _ s' [].
  - eapply wp_state; [by apply (prefill_ok device)|..].
    + by intros p s' [(? & ? & _) _].
    + by intros e s' [(? & ? & _) _].
  - split; [|done]. by destruct Hok.
Qed.
Lemma reachable_sound s : reachable s → sound s.
Proof.
  intros (s0 & (id & l & cfg & s1 & Hf & Hw & Hnew) & Hrtc).
  assert (sound s0) as Hs0.
  { pose proof (prefix_new_ok device id l cfg s1 Hf Hw) as Hwp. unfold wp in Hwp. rewrite Hnew in Hwp.
    split; apply Hwp. }
  clear Hnew. induction Hrtc as [|s0 s1' s2 Hstep _ IH]; [done|]. by apply IH, (cache_step_sound s0).
Qed.

(** C27. In every state that opening the cache, lookups, insertions and prefills lead to, with
    other processes changing the directory in between, the counters of the device and host
    tiers are those of the entries, the disk entries are counted and inside their budget,
    every entry in memory can be given back, and no method panics. *)
Theorem prefix_cache_invariant s :
  reachable s →
  device_entries (stats (store s)) = msum device_weight (entries (store s)) ∧
  host_bytes (stats (store s)) = msum host_weight (entries (store s)) ∧
  (msum disk_weight (entries (store s)) ≤ disk_bytes (stats (store s)) ≤ cfg_disk_bytes (config (store s)))%N ∧
  (∀ k e, entries (store s) !! k = Some e → entry_ok device (own_id (store s)) (own_limits (store s)) k (tier e)) ∧
  (∀ prompt, (prefix_lookup prompt device s).1 ≠ Panic) ∧
  (∀ p, genuine_in (store s) p → (prefix_insert p device s).1 ≠ Panic) ∧
  (∀ prompt, (len prompt ≤ usize_max)%N → (prefill prompt device s).1 ≠ Panic).
Proof.
  intros [Hok Hw]%reachable_sound. repeat split; try apply Hok; try apply Hw.
  - intros prompt. by eapply wp_no_panic, (prefix_lookup_ok device).
  - intros p Hg. by eapply wp_no_panic, (prefix_insert_ok device).
  - intros prompt Hlen. by eapply wp_no_panic, (prefill_ok device).
Qed.

(** C26. A prefill that returns has the state of exactly the prompt: its tokens are the prompt,
    its attention cache has consumed them and its logits follow them, whatever was reused,
    evicted or lost on the way.  It fails only for an invalid prompt or when the model or
    the device fails: failures of the tiers and of the file system never reach the caller. *)
Theorem prefill_exact s prompt :
  reachable s → (len prompt ≤ usize_max)%N →
  wp (prefill prompt device) s
    (λ p _, bad_tokens (own_limits (store s)) prompt = false ∧ tokens p = prompt ∧
            cache_of prompt (cache p) ∧ logits_of prompt (logits p) ∧
            validate p (own_id (store s)) (own_limits (store s)) prompt device = Ok tt)
    (λ _ _, bad_tokens (own_limits (store s)) prompt = true ∨ ¬ healthy device (own_limits (store s))).
Proof.
  intros [Hok Hw]%reachable_sound Hlen. eapply wp_wand; [by apply (prefill_ok device)|..].
  - intros p s' (_ & Hbad & (Hv & _ & Hc & Hl) & Htok). by rewrite Htok in *.
  - by intros e s' [_ ?].
Qed.

(** C28. A lookup never fails.  It returns a completed prefix of the prompt, the longest one that
    is still stored; every entry in memory and every disk entry whose file can be read and
    decoded is still stored afterwards, so none of them is longer. *)
Theorem lookup_longest s prompt :
  reachable s →
  ∃ r s', prefix_lookup prompt device s = (Ok r, s') ∧
  (∀ k e, entries (store s) !! k = Some e → stored device (store s) (files s) k (tier e) →
     (∃ e', entries (store s') !! k = Some e' ∧ tier e' = tier e) ∧
     (k `prefix_of` prompt → ∃ p, r = Some p ∧ (len k ≤ len (tokens p))%N)) ∧
  (∀ p, r = Some p → genuine_in (store s) p ∧ tokens p `prefix_of` prompt ∧
     is_Some (entries (store s') !! tokens p) ∧
     hits (stats (store s')) = (hits (stats (store s)) + 1)%N ∧
     reused_tokens (stats (store s')) = (reused_tokens (stats (store s)) + len (tokens p))%N).
Proof.
  intros [Hok Hw]%reachable_sound. pose proof (prefix_lookup_ok device prompt s Hok Hw) as Hwp.
  unfold wp in Hwp. destruct (prefix_lookup prompt device s) as [[r| |] s']; [|done..].
  exists r, s'. split; [done|]. destruct Hwp as [_ _ _ _ Hres Hkept Hhits Hreused]. split.
  - intros k e Hk Hst. destruct (Hkept k e Hk Hst) as (e' & Hk' & Ht). split; [by exists e'|].
    intros Hpre. destruct r as [p|].
    + exists p. split; [done|]. apply Hres; [done|by exists e'].
    + rewrite (Hres k Hpre) in Hk'. done.
  - intros p ->. destruct Hres as (Hg & Hpre & Hsome & _). done.
Qed.

(** C40. An insertion of a new prefix that succeeds leaves all three tiers within their budgets. *)
Theorem insert_within_budgets s p s' :
  reachable s → genuine_in (store s) p → entries (store s) !! tokens p = None →
  disabled (config (store s)) = false → prefix_insert p device s = (Ok tt, s') →
  (msum device_weight (entries (store s')) ≤ cfg_device_entries (config (store s)))%N ∧
  (msum host_weight (entries (store s')) ≤ cfg_host_bytes (config (store s)))%N ∧
  (msum disk_weight (entries (store s')) ≤ cfg_disk_bytes (config (store s)))%N.
Proof.
  intros [Hok Hw]%reachable_sound Hg Hnone Hen Hins.
  pose proof (prefix_insert_ok device p s Hok Hw Hg) as Hwp. unfold wp in Hwp. rewrite Hins in Hwp.
  destruct Hwp as [[Hok' Hw' Ho' _] Hb]. destruct (Hb Hnone Hen) as [Hd Hh].
  rewrite <-(ok_device _ _ _ Hok'), <-(ok_host _ _ _ Hok'). split; [done|]. split; [done|].
  pose proof (ok_disk _ _ _ Hok'). unfold within in Hw'. rewrite (owned_config _ _ Ho') in Hw'. lia.
Qed.


(** What a prefill worker exports, a decode worker of the same model imports as a completed
    prefix of the same prompt; for any other prompt the import is refused. *)
Theorem handoff_roundtrip id l p s bytes s' :
  genuine device id l p → export p device s = (Ok bytes, s') →
  (∃ p', import bytes id l (tokens p) device = Ok p' ∧ tokens p' = tokens p ∧
         cache_of (tokens p) (cache p') ∧ logits_of (tokens p) (logits p')) ∧
  ∀ other, other ≠ tokens p → ∃ e, import bytes id l other device = Err e.
Proof.
  intros Hg Hexp.
  assert (wp (export p device) s (λ bytes _, payload device id bytes ∧ restorable device id l (tokens p) bytes) (λ _ _, True)) as Hwp.
  { pose proof Hg as (Hv & _ & Hc & _). unfold export. apply wp_bind.
    assert (model_id p = id ∧ limits p = l) as [-> ->] by (apply validate_spec in Hv; naive_solver).
    eapply wp_lift_ok; [exact Hv|]. rewrite (position_of _ _ Hc), bool_decide_false by naive_solver.
    eapply wp_wand; [by apply (capture_ok device id l)| |done]. by intros b s2 (_ & ? & ?). }
  unfold wp in Hwp. rewrite Hexp in Hwp. destruct Hwp as [Hpay (p' & Hr & Htok)].
  destruct (restore_genuine _ _ _ _ _ (payload_honest _ _ _ Hpay) Hr) as (_ & _ & Hc & Hl).
  rewrite Htok in Hc, Hl. unfold import. rewrite Hr. simpl. split.
  - exists p'. by rewrite Htok, bool_decide_false by naive_solver.
  - intros other Hne. rewrite Htok, bool_decide_true by done. by eexists.
Qed.

(** A cache opened over the directory of an earlier run serves every payload of its model
    found there, if they fit the budget and the directory can be read. *)
Theorem reopen_complete id l cfg s0 s base :
  files_honest device id (files s0) → (cfg_disk_bytes cfg < usize_max)%N →
  prefix_new id l cfg s0 = (Ok tt, s) →
  disk_directory cfg = Some base → (0 < cfg_disk_bytes cfg)%N → (∀ n, io_ok n = true) →
  let listed := children (path_join base (digest id)) (files s0) in
  (total_size (files s0) listed ≤ cfg_disk_bytes cfg)%N →
  ∀ path ts, path ∈ listed → offers (store s) (files s0) path ts → is_Some (entries (store s) !! ts).
Proof.
  intros Hf Hw Hnew Hbase Hpos Hio listed Hfits path ts.
  pose proof (prefix_new_ok device id l cfg s0 Hf Hw) as Hwp. unfold wp in Hwp. rewrite Hnew in Hwp.
  destruct Hwp as (_ & _ & _ & _ & Hre). by apply (Hre base).
Qed.

(** Once the bytes counted for lost disk entries fill the budget, nothing can be written to
    the disk tier again: there is no entry left whose eviction would give them back. *)
Lemma leaked_budget_stuck key bytes u s :
  (∀ k e, entries (store s) !! k = Some e → is_disk (tier e) = false) →
  (cfg_disk_bytes (config (store s)) < usize_max)%N → (0 < cfg_disk_bytes (config (store s)))%N →
  (len bytes ≤ cfg_disk_bytes (config (store s)) < disk_bytes (stats (store s)) + len bytes)%N →
  put_disk key bytes u s = (Err (Message "disk budget has no evictable payload"), s).
Proof.
  intros Hnone Hwidth Hpos [Hle Hgt]. unfold put_disk, bind, self, gets. simpl.
  rewrite (proj2 (N.ltb_ge _ _)), (proj2 (N.eqb_neq _ _)) by lia. simpl.
  unfold make_room, bind, gets. simpl. unfold saturating_add.
  rewrite (proj2 (N.ltb_lt _ _)) by lia. unfold evict_disk, bind, self, gets. simpl.
  destruct (oldest is_disk (entries (store s))) as [k|] eqn:Hold; [|done].
  apply oldest_Some in Hold as (e & Hk & Hd & _). by rewrite (Hnone k e Hk) in Hd.
Qed.
End Props.

(** ** A concrete model

    Tokens below four; the attention cache is the list of consumed tokens and the logits
    carry their sum.  A payload is one number. *)
Module Toy.
Definition total (ts : Tokens) : N := foldr (λ t n, Z.to_N t + n)%N 0%N ts.
Definition toy_data (x : N) : TensorData :=
  {| data_bytes := x :: replicate 15 0%N; data_shape := [1; 1; 4]%N; data_dtype := F32 |}.
Definition is_f32 (d : DType) : bool := match d with F32 => true | _ => false end.
Definition toy_shape (shape : list N) : N * N * N :=
  match shape with [a; b; v] => (a, b, v) | _ => (0, 0, 0)%N end.

Definition code : Type := N * string * (N * N) * Tokens * Tokens * (list N * list N).
Definition pack (h : Header) (item : Tokens) (d : TensorData) : code :=
  (version h, head_id h, (vocab_size (head_limits h), max_sequence_length (head_limits h)),
   head_tokens h, item, (data_bytes d, data_shape d)).
Definition unpack (x : code) : Header * Tokens * TensorData :=
  let '(v, id, (n, m), ts, item, (bytes, shape)) := x in
  ({| version := v; head_id := id; head_limits := {| vocab_size := n; max_sequence_length := m |};
      head_tokens := ts |}, item, {| data_bytes := bytes; data_shape := shape; data_dtype := F32 |}).

Definition decode_bytes (bytes : Bytes) : option (Header * Tokens * TensorData) :=
  match bytes with
  | [N.pos n] => unpack <$> decode n
  | _ => None
  end.

#[export] Instance toy_model : PrefixModel := {
  Cache := Tokens;
  Item := Tokens;
  Logits := (N * N * N) * N;
  Device := unit;
  new_cache := [];
  try_forward_cached_last ts c := (Ok ((1, 1, 4)%N, total (c ++ ts)), c ++ ts);
  generation_position c := len c;
  capture_generation c _ _ := Some c;
  restore_generation item _ _ n _ := if bool_decide (len item = n) then Some item else None;
  dims l := l.1;
  logits_device _ := tt;
  try_into_data l := if bool_decide (l.1 = (1, 1, 4)%N) then Some (toy_data l.2) else None;
  from_data d _ := (toy_shape (data_shape d), default 0%N (head (data_bytes d)));
  to_vec h item d := if is_f32 (data_dtype d) then Some [N.pos (encode (pack h item d))] else None;
  from_slice := decode_bytes;
  read_header bytes := (λ x, x.1.1) <$> decode_bytes bytes
}.

Lemma decode_pack h item d :
  data_dtype d = F32 → decode_bytes [N.pos (encode (pack h item d))] = Some (h, item, d).
Proof.
  intros Hd. unfold decode_bytes. rewrite decode_encode.
  change (Some (unpack (pack h item d)) = Some (h, item, d)).
  destruct h as [? ? [] ?], d. simpl in *. by rewrite Hd.
Qed.

#[export, refine] Instance toy_laws : PrefixLaws toy_model := {
  cache_of ts c := c = ts;
  logits_of ts l := l = ((1, 1, 4)%N, total ts)
}.
Proof.
  - done.
  - intros ts ts' c l c' -> _ [= <- <-]. done.
  - done.
  - by intros ts c ->.
  - intros ts c id device item -> [= <-]. exists ts. simpl. by rewrite bool_decide_true.
  - intros ts l data device -> Hd. simpl in Hd. by simplify_eq.
  - intros [sh x] data v Hd. simpl in *. subst. case_bool_decide as Hv; [|done]. intros [= <-].
    injection Hv as ->. done.
  - intros data device a b v Hs. simpl. by rewrite Hs.
  - by intros data [].
  - intros h item data bytes. simpl. destruct (is_f32 (data_dtype data)) eqn:Hf; [|done]. intros [= <-].
    apply decode_pack. by destruct (data_dtype data).
  - intros h item data bytes n. simpl. destruct (is_f32 (data_dtype data)); [|done]. intros [= <-] Hn.
    simpl in Hn. assert (n = 0) as -> by lia. done.
Defined.

(** A host on which nothing fails, and one on which call [bad] fails. *)
Definition host_failing (bad : option nat) : Host := {|
  sync_ok _ := true;
  io_ok n := negb (bool_decide (Some n = bad));
  written _ := 0;
  dir_iter _ l := l;
  dir_iter_perm _ l := reflexivity l;
  process_id := 7;
  digest id := id
|}.
#[export] Instance toy_profile : Profile := {| overflow_checks := true; debug_assertions := true |}.

Definition toy_limits : CausalModelLimits := {| vocab_size := 4; max_sequence_length := 8 |}.
Definition toy_config (devices disk : N) : PrefixCacheConfig :=
  {| block_tokens := 2; cfg_device_entries := devices; cfg_host_bytes := 0;
     disk_directory := Some ["/"; "kv"]; cfg_disk_bytes := disk |}.
Definition blank : State := {| store := empty_cache "" toy_limits (toy_config 0 0); files := ∅; clock := 0 |}.

Definition open_at (h : Host) (devices disk : N) : State :=
  (prefix_new "m" toy_limits (toy_config devices disk) blank).2.
Lemma open_at_opened (h : Host) devices disk :
  (disk < usize_max)%N → (prefix_new "m" toy_limits (toy_config devices disk) blank).1 = Ok tt →
  reachable tt (open_at h devices disk).
Proof.
  intros Hw Hok. eexists. split; [|apply rtc_refl].
  exists "m", toy_limits, (toy_config devices disk), blank. split; [by intros ? ?|]. split; [done|].
  unfold open_at. destruct (prefix_new _ _ _ _) as [r s]. simpl in *. by rewrite Hok.
Qed.
Lemma reachable_step {h : Host} (s s' : State) : reachable tt s → cache_step tt s s' → reachable tt s'.
Proof. intros (s0 & Ho & Hr) Hs. exists s0. split; [done|]. by eapply rtc_r. Qed.
Lemma toy_healthy (bad : option nat) : healthy (H := host_failing bad) tt toy_limits.
Proof. split; [done|]. intros ts ts' c -> _ _. eexists _, _. by split. Qed.

Section Working.
#[local] Instance working : Host := host_failing None.

(** Room for one prefix on the device and two on disk; one prompt served. *)
Definition served : State := (prefill [1; 2; 3]%Z tt (open_at working 1 2)).2.
Lemma served_reachable : reachable tt served.
Proof.
  apply (reachable_step (open_at working 1 2)); [apply open_at_opened; by vm_compute|].
  apply do_prefill. by vm_compute.
Qed.

(** The file of the prefix [1; 2], and what is read back from it. *)
Definition kv_path : list string := ["/"; "kv"; "m"; "ruda-kv-7-3.mpk"].
Definition kv_bytes : Bytes := match files served !! kv_path with Some (File bytes) => bytes | _ => [] end.
Definition kv_header : Header := {| version := 1; head_id := "m"; head_limits := toy_limits; head_tokens := [1; 2]%Z |}.
Definition kv_prefix : PrefilledPrompt :=
  {| model_id := "m"; limits := toy_limits; tokens := [1; 2]%Z; cache := [1; 2]%Z : Cache; logits := ((1, 1, 4)%N, 3%N) : Logits |}.

Definition prompt4 : Tokens := [1; 2; 0; 3]%Z.
Definition prefix4 : PrefilledPrompt :=
  {| model_id := "m"; limits := toy_limits; tokens := prompt4; cache := prompt4; logits := ((1, 1, 4)%N, total prompt4) |}.
Lemma prefix4_genuine : genuine tt "m" toy_limits prefix4.
Proof. by repeat split. Qed.

Lemma prefix_cache_invariant_witness :
  device_entries (stats (store served)) = 1%N ∧
  device_entries (stats (store served)) = msum device_weight (entries (store served)) ∧
  (msum disk_weight (entries (store served)) ≤ disk_bytes (stats (store served)) ≤ 2)%N.
Proof.
  split; [done|]. destruct (prefix_cache_invariant (PM := toy_model) tt served served_reachable) as (Hd & _ & Hk & _).
  split; [exact Hd|exact Hk].
Defined.

Lemma prefill_exact_witness :
  wp (prefill prompt4 tt) served
    (λ p _, bad_tokens (own_limits (store served)) prompt4 = false ∧ tokens p = prompt4 ∧
            cache_of prompt4 (cache p) ∧ logits_of prompt4 (logits p) ∧
            validate p (own_id (store served)) (own_limits (store served)) prompt4 tt = Ok tt)
    (λ _ _, bad_tokens (own_limits (store served)) prompt4 = true ∨
            ¬ healthy tt (own_limits (store served))) ∧
  healthy tt (own_limits (store served)).
Proof.
  split; [|apply (toy_healthy None)].
  apply (prefill_exact (PM := toy_model) tt served prompt4); [apply served_reachable|by vm_compute].
Defined.

Lemma lookup_longest_witness :
  ∃ p s', prefix_lookup prompt4 tt served = (Ok (Some p), s') ∧ (2 ≤ len (tokens p))%N.
Proof.
  destruct (lookup_longest (PM := toy_model) tt served prompt4 served_reachable) as (r & s' & Hl & Hstored & _).
  destruct (Hstored [1; 2]%Z {| tier := OnDisk kv_path 1; used := 2 |}) as [_ Hlong].
  - by vm_compute.
  - split; [done|]. exists kv_bytes. split; [by vm_compute|]. unfold restorable.
    exists kv_prefix. split; [by vm_compute|done].
  - destruct Hlong as (p & -> & Hlen); [by exists [0; 3]%Z|]. exists p, s'. split; [exact Hl|exact Hlen].
Defined.

Lemma insert_within_budgets_witness :
  ∃ s', prefix_insert prefix4 tt served = (Ok tt, s') ∧ (msum device_weight (entries (store s')) ≤ 1)%N ∧
        (msum host_weight (entries (store s')) ≤ 0)%N ∧ (msum disk_weight (entries (store s')) ≤ 2)%N.
Proof.
  exists (prefix_insert prefix4 tt served).2.
  assert (prefix_insert prefix4 tt served = (Ok tt, (prefix_insert prefix4 tt served).2)) as Hins by by vm_compute.
  split; [exact Hins|].
  apply (insert_within_budgets (PM := toy_model) tt served prefix4 _ served_reachable prefix4_genuine); [done|done|exact Hins].
Defined.


Definition handed : Bytes := match (export prefix4 tt served).1 with Ok bytes => bytes | _ => [] end.
Lemma handoff_roundtrip_witness :
  (∃ p', import handed "m" toy_limits prompt4 tt = Ok p' ∧ tokens p' = prompt4 ∧
         cache_of prompt4 (cache p') ∧ logits_of prompt4 (logits p')) ∧
  ∃ e, import handed "m" toy_limits [1]%Z tt = Err e.
Proof.
  destruct (handoff_roundtrip (PM := toy_model) tt "m" toy_limits prefix4 served handed (export prefix4 tt served).2
              prefix4_genuine) as [Hsame Hother]; [by vm_compute|].
  split; [exact Hsame|]. by apply Hother.
Defined.

(** The disk of [served] opened by a later run. *)
Definition later : State := {| store := store blank; files := files served; clock := 0 |}.
Definition reopened : State := (prefix_new "m" toy_limits (toy_config 1 2) later).2.
Lemma later_honest : files_honest tt "m" (files later).
Proof. destruct (reachable_sound (PM := toy_model) tt served served_reachable) as [Hok _]. apply (ok_files _ _ _ Hok). Qed.
Lemma reopen_complete_witness : is_Some (entries (store reopened) !! [1; 2]%Z).
Proof.
  apply (reopen_complete (PM := toy_model) tt "m" toy_limits (toy_config 1 2) later reopened ["/"; "kv"] later_honest)
    with (path := kv_path).
  - by vm_compute.
  - by vm_compute.
  - done.
  - by vm_compute.
  - done.
  - by vm_compute.
  - vm_compute. left.
  - exists kv_bytes, kv_header. split; [by vm_compute|]. split; [by vm_compute|]. split; [by vm_compute|]. by repeat split.
Defined.
End Working.
End Toy.

(** ** A budget that leaks

    A disk tier of one payload.  The prefix [1] is on disk; the one call that reads it back
    fails. *)
Module Leak.
Import Toy.
#[local] Instance flaky : Host := host_failing (Some 6).
Definition before : State := (prefill [1]%Z tt (open_at flaky 0 1)).2.
Definition after : State := (prefix_lookup [1]%Z tt before).2.

(** [lookup] drops a disk entry that it could not read without subtracting its size or
    removing its file: the tier has no entries, its budget is used up, and every payload
    offered to it from now on is refused with an error, although all later calls succeed. *)
Theorem lookup_leaks_disk_budget :
  reachable tt after ∧ disk_bytes (stats (store before)) = 1%N ∧ size (entries (store before)) = 1 ∧
  entries (store after) = ∅ ∧ disk_bytes (stats (store after)) = cfg_disk_bytes (config (store after)) ∧
  is_Some (files after !! ["/"; "kv"; "m"; "ruda-kv-7-2.mpk"]) ∧
  ∀ key bytes u, len bytes = 1%N →
    put_disk key bytes u after = (Err (Message "disk budget has no evictable payload"), after).
Proof.
  split; [|split; [done|split; [done|split; [done|split; [done|split; [by eexists; vm_compute|]]]]]].
  - apply (reachable_step before); [|apply do_lookup]. apply (reachable_step (open_at flaky 0 1)); [apply open_at_opened; by vm_compute|apply do_prefill; by vm_compute].
  - intros key bytes u Hlen. apply leaked_budget_stuck; rewrite ?Hlen; try done.
Qed.
End Leak.
