(* ===== verification/PagedKvClient.v ===== *)
(** * The paged KV manager as its clients see it

    Exact effects of the operations on the tables of sequences and reservations, how far
    the eviction clock moves, and what is published in the prefix cache.  What holds on
    every outcome is proved without the invariant ([leads]). *)

From S2P Require Export Prelude PagedKv PagedKvInv PagedKvOps.
Open Scope N_scope.

(** ** What holds on every outcome *)

Section leads.
Context {S E : Type} (Rel : relation S) `{!PreOrder Rel}.

Definition leads {A} (m : M S E A) : Prop := ∀ s, Rel s (m s).2.

Lemma leads_ret {A} (a : A) : leads (ret a).
Proof. intros s. done. Qed.
Lemma leads_throw {A} e : leads (throw e : M S E A).
Proof. intros s. done. Qed.
Lemma leads_panic {A} : leads (panic : M S E A).
Proof. intros s. done. Qed.
Lemma leads_gets {A} (f : S → A) : leads (gets f).
Proof. intros s. done. Qed.
Lemma leads_lift {A} (r : res E A) : leads (lift r).
Proof. intros s. done. Qed.
Lemma leads_modify f : (∀ s, Rel s (f s)) → leads (modify f).
Proof. intros H s. apply H. Qed.
Lemma leads_bind {A B} (m : M S E A) (k : A → M S E B) : leads m → (∀ a, leads (k a)) → leads (bind m k).
Proof.
  intros Hm Hk s. specialize (Hm s). unfold bind. destruct (m s) as [[a|e|] s']; simpl in *; [|done..].
  etrans; [done|apply Hk].
Qed.
Lemma leads_expect {A} (o : option A) : leads (expect o).
Proof. destruct o; [apply leads_ret|apply leads_panic]. Qed.
Lemma leads_ok_or {A} (o : option A) e : leads (ok_or o e).
Proof. destruct o; [apply leads_ret|apply leads_throw]. Qed.
Lemma leads_debug_assert `{Profile} b : leads (debug_assert b).
Proof. unfold debug_assert. destruct debug_assertions, b; (apply leads_ret || apply leads_panic). Qed.
Lemma leads_for_each {A} (xs : list A) body : (∀ x, leads (body x)) → leads (for_each xs body).
Proof. intros Hb. induction xs; [apply leads_ret|]. by apply leads_bind. Qed.
Lemma leads_map_each {A B} (xs : list A) (body : A → M S E B) : (∀ x, leads (body x)) → leads (map_each xs body).
Proof.
  intros Hb. induction xs; [apply leads_ret|]. apply leads_bind; [done|]. intros y.
  apply leads_bind; [done|]. intros ys. apply leads_ret.
Qed.
(** Adding what holds on every outcome to a specification. *)
Lemma wp_leads {A} (m : M S E A) s Q R :
  leads m → wp m s Q R → wp m s (λ a s', Q a s' ∧ Rel s s') (λ e s', R e s' ∧ Rel s s').
Proof. intros Hm. specialize (Hm s). unfold wp. by destruct (m s) as [[] ?]. Qed.
Lemma wp_and_ok {A} (m : M S E A) s (Q Q' : A → S → Prop) R :
  wp m s Q R → (∀ a s', m s = (Ok a, s') → Q' a s') → wp m s (λ a s', Q a s' ∧ Q' a s') R.
Proof. unfold wp. intros H Hq. destruct (m s) as [[] ?]; eauto. Qed.
End leads.

Create HintDb leads.
#[export] Hint Resolve leads_ret leads_throw leads_panic leads_gets leads_lift leads_expect leads_ok_or
  leads_debug_assert : leads.

(** Symbolic execution for [leads]. *)
Ltac leads_step :=
  lazymatch goal with
  | |- leads _ (bind _ _) => apply (leads_bind _); [|intros ?]
  | |- leads _ (modify _) => apply leads_modify; intros ?
  | |- leads _ (for_each _ _) => apply (leads_for_each _); intros ?
  | |- leads _ (map_each _ _) => apply (leads_map_each _); intros ?
  | |- leads _ (when ?b _) => unfold when; destruct b
  | |- leads _ (if ?b then _ else _) => destruct b
  | |- leads _ (match ?o with _ => _ end) => destruct o
  | |- leads _ _ => solve [eauto with leads typeclass_instances]
  end; cbn beta.
Ltac leads_steps := repeat leads_step.

(** The published blocks shrink, and neither reservation ids nor the count of reused
    tokens move. *)
Definition shrinks (s s' : PagedKvCacheManager) : Prop :=
  block_index s' ⊆ block_index s ∧ reused_tokens s' = reused_tokens s ∧
  next_reservation s' = next_reservation s.
(** The same with a clock that stands still. *)
Definition quiet (s s' : PagedKvCacheManager) : Prop :=
  block_index s' ⊆ block_index s ∧ reused_tokens s' = reused_tokens s ∧ next_tick s' = next_tick s.

#[export] Instance shrinks_preorder : PreOrder shrinks.
Proof.
  split; [done|]. intros s1 s2 s3 (? & ? & ?) (? & ? & ?). split; [by etrans|]. split; congruence.
Qed.
#[export] Instance quiet_preorder : PreOrder quiet.
Proof.
  split; [done|]. intros s1 s2 s3 (? & ? & ?) (? & ? & ?). split; [by etrans|]. split; congruence.
Qed.

Ltac calm := split; [first [reflexivity|apply delete_subseteq]|split; reflexivity].

Section outcomes.
Context {P : Profile}.

Lemma drop_cached_block_quiet p : leads quiet (drop_cached_block p).
Proof.
  intros s. unfold drop_cached_block, bind, gets, index, expect, ret.
  destruct (page_blocks s !! N.to_nat p) as [[b|]|]; simpl; [|done..].
  unfold when. case_bool_decide; simpl; [|by calm]. calm.
Qed.
Lemma drop_cached_block_shrinks p : leads shrinks (drop_cached_block p).
Proof.
  intros s. unfold drop_cached_block, bind, gets, index, expect, ret.
  destruct (page_blocks s !! N.to_nat p) as [[b|]|]; simpl; [|done..].
  unfold when. case_bool_decide; simpl; [|by calm]. calm.
Qed.
#[local] Hint Resolve drop_cached_block_quiet drop_cached_block_shrinks : leads.

Lemma allocate_page_quiet : leads quiet allocate_page.
Proof. unfold allocate_page, index. leads_steps; calm. Qed.
Lemma release_page_shrinks p : leads shrinks (release_page p).
Proof. unfold release_page, index. leads_steps; calm. Qed.
#[local] Hint Resolve allocate_page_quiet release_page_shrinks : leads.

Lemma sequence_quiet r : leads quiet (sequence r).
Proof. unfold sequence. leads_steps. Qed.
Lemma sequence_shrinks r : leads shrinks (sequence r).
Proof. unfold sequence. leads_steps. Qed.
Lemma put_sequence_quiet r q : leads quiet (put_sequence r q).
Proof. unfold put_sequence. leads_steps. calm. Qed.
Lemma put_sequence_shrinks r q : leads shrinks (put_sequence r q).
Proof. unfold put_sequence. leads_steps. calm. Qed.
Lemma validate_reservation_quiet id : leads quiet (validate_reservation id).
Proof. unfold validate_reservation, sequence. leads_steps. Qed.
Lemma validate_reservation_shrinks id : leads shrinks (validate_reservation id).
Proof. unfold validate_reservation, sequence. leads_steps. Qed.
#[local] Hint Resolve sequence_quiet sequence_shrinks put_sequence_quiet put_sequence_shrinks
  validate_reservation_quiet validate_reservation_shrinks : leads.

Lemma begin_append_quiet r n : leads quiet (begin_append r n).
Proof. unfold begin_append, allocate_pages. leads_steps; calm. Qed.
Lemma extend_append_quiet id n : leads quiet (extend_append id n).
Proof. unfold extend_append, allocate_pages. leads_steps; calm. Qed.
(** Reservation ids are not used up. *)
Definition same_ids (s s' : PagedKvCacheManager) : Prop := next_reservation s' = next_reservation s.
#[local] Instance same_ids_preorder : PreOrder same_ids.
Proof. split; [done|]. intros ???. unfold same_ids. congruence. Qed.
Lemma drop_cached_block_ids p : leads same_ids (drop_cached_block p).
Proof. intros s. apply (drop_cached_block_shrinks p s). Qed.
#[local] Hint Resolve drop_cached_block_ids : leads.
Lemma extend_append_ids id n : leads same_ids (extend_append id n).
Proof.
  unfold extend_append, allocate_pages, allocate_page, validate_reservation, sequence, index, put_sequence.
  leads_steps; by unfold same_ids.
Qed.
Lemma set_prefix_caching_ids b : leads same_ids (set_prefix_caching b).
Proof. unfold set_prefix_caching. leads_steps; by unfold same_ids. Qed.
Lemma create_sequence_quiet r : leads quiet (create_sequence r).
Proof. unfold create_sequence. leads_steps. Qed.
Lemma set_prefix_caching_quiet b : leads quiet (set_prefix_caching b).
Proof. unfold set_prefix_caching. leads_steps; calm. Qed.
Lemma remove_sequence_shrinks r : leads shrinks (remove_sequence r).
Proof. unfold remove_sequence. leads_steps; calm. Qed.
Lemma commit_append_shrinks id : leads shrinks (commit_append id).
Proof. unfold commit_append, take_reservation. leads_steps; calm. Qed.
Lemma unwrap_leads {A} Rel (m : Kv A) : leads Rel m → leads Rel (unwrap m).
Proof. intros H s. specialize (H s). unfold unwrap. by destruct (m s) as [[] ?]. Qed.
Lemma cancel_append_shrinks id : leads shrinks (cancel_append id).
Proof. unfold cancel_append, take_reservation, split_off. leads_steps; calm. Qed.
#[local] Hint Resolve commit_append_shrinks cancel_append_shrinks unwrap_leads : leads.
Lemma validate_each_shrinks seen ids : leads shrinks (validate_each seen ids).
Proof. revert seen. induction ids as [|id ids IH]; intros seen; simpl; leads_steps. Qed.
#[local] Hint Resolve validate_each_shrinks : leads.
Lemma cancel_appends_shrinks ids : leads shrinks (cancel_appends ids).
Proof. unfold cancel_appends, validate_reservations. leads_steps. Qed.
Lemma commit_append_prefixes_shrinks rows : leads shrinks (commit_append_prefixes rows).
Proof.
  unfold commit_append_prefixes, validate_reservations, check_consumed, commit_prefix_row, split_off.
  leads_steps; calm.
Qed.
Lemma commit_append_partial_shrinks id n : leads shrinks (commit_append_partial id n).
Proof. unfold commit_append_partial. leads_steps. Qed.
End outcomes.

(** ** The clock and the tables *)

(** The eviction clock and the references that can still move it: releasing a page moves
    the clock by at most one and takes an entry out of a table. *)
Definition clock (s : PagedKvCacheManager) : N := next_tick s + table_entries (sequences s).

Lemma entries_delete m r q : m !! r = Some q → table_entries m = len (pages q) + table_entries (delete r m).
Proof. apply (msum_delete (λ q, len (pages q))). Qed.
Lemma entries_insert m r q q' :
  m !! r = Some q → table_entries (<[r := q']> m) + len (pages q) = len (pages q') + table_entries m.
Proof. apply (msum_insert (λ q, len (pages q))). Qed.
Lemma entries_insert_new m r q :
  m !! r = None → table_entries (<[r := q]> m) = len (pages q) + table_entries m.
Proof. apply (msum_insert_new (λ q, len (pages q))). Qed.
Lemma entries_le m r q : m !! r = Some q → len (pages q) ≤ table_entries m.
Proof. apply (msum_le (λ q, len (pages q))). Qed.

(** A sequence after the reservations of [f] are closed at the positions [f] gives. *)
Definition close_seq (bs : N) (f : gmap N N) (q : SequenceState) : SequenceState :=
  match pending q ≫= λ id, f !! id with
  | Some pos => mkSequence pos (take (N.to_nat (div_ceil pos bs)) (pages q)) None
                  (registered_blocks q) (chain_hash q)
  | None => q
  end.

Record closes (s s' : PagedKvCacheManager) (f : gmap N N) : Prop := {
  cl_config : config s' = config s;
  cl_caching : prefix_caching s' = prefix_caching s;
  cl_seqs : sequences s' = close_seq (block_size (config s)) f <$> sequences s;
  cl_resv : ∀ id, reservations s' !! id = if f !! id then None else reservations s !! id;
  cl_clock : clock s' ≤ clock s
}.

Lemma close_seq_empty bs q : close_seq bs ∅ q = q.
Proof. unfold close_seq. destruct (pending q); simpl; [by rewrite lookup_empty|done]. Qed.
Lemma closes_refl s : closes s s ∅.
Proof.
  split; try done.
  apply map_eq. intros r. rewrite lookup_fmap. destruct (sequences s !! r); simpl; [|done].
  by rewrite close_seq_empty.
Qed.
Lemma closes_trans s1 s2 s3 f g : closes s1 s2 f → closes s2 s3 g → closes s1 s3 (f ∪ g).
Proof.
  intros [Hc1 Hp1 Hs1 Hr1 Hk1] [Hc2 Hp2 Hs2 Hr2 Hk2]. split; [congruence|congruence| | |lia].
  - rewrite Hs2, Hs1, Hc1, <-map_fmap_compose. apply map_fmap_ext. intros r q _. simpl.
    unfold close_seq. destruct (pending q) as [id|] eqn:Hp; simpl; [|by rewrite Hp].
    rewrite lookup_union. destruct (f !! id) as [pos|] eqn:Hf; simpl.
    + by destruct (g !! id).
    + rewrite Hp. simpl. rewrite left_id by apply _. done.
  - intros id. rewrite Hr2, Hr1, lookup_union. by destruct (f !! id), (g !! id).
Qed.

(** Closing one reservation. *)
Lemma closed_closes s s' id rv q pos :
  wf s → reservations s !! id = Some rv → sequences s !! rs_request_id rv = Some q →
  closed s s' id rv q pos (N.to_nat (div_ceil pos (block_size (config s)))) →
  next_tick s' + len (take (N.to_nat (div_ceil pos (block_size (config s)))) (pages q))
    ≤ next_tick s + len (pages q) →
  closes s s' {[id := pos]}.
Proof.
  intros Hwf Hrv Hq (Hc & Hpc & Hs & Hr & _) Ht.
  destruct (wf_reservation _ _ _ _ Hwf Hrv) as (q' & Hq' & Hp & _). simplify_eq. split; [done|done| | |].
  - rewrite Hs. apply map_eq. intros r. rewrite lookup_fmap, lookup_insert. case_decide as Hd.
    + subst r. rewrite Hq. simpl. unfold close_seq. rewrite Hp. simpl. by rewrite lookup_singleton_eq.
    + destruct (sequences s !! r) as [q0|] eqn:Hq0; simpl; [|done]. unfold close_seq.
      destruct (pending q0) as [id0|] eqn:Hp0; simpl; [|done].
      rewrite lookup_singleton_ne; [done|]. intros <-.
      destruct (wf_seqs _ _ Hwf _ _ Hq0) as [_ Hx]. rewrite Hp0 in Hx.
      destruct Hx as (rv0 & ? & ? & _). congruence.
  - intros id0. rewrite Hr, lookup_delete. case_decide as Hd.
    + subst. by rewrite lookup_singleton_eq.
    + by rewrite lookup_singleton_ne.
  - unfold clock. rewrite Hs. pose proof (entries_insert (sequences s) _ _
      (mkSequence pos (take (N.to_nat (div_ceil pos (block_size (config s)))) (pages q)) None
         (registered_blocks q) (chain_hash q)) Hq) as He. simpl in He. lia.
Qed.

(** A pending reservation has as many pages as its sequence. *)
Lemma reservation_pages_seq s id rv q :
  wf s → reservations s !! id = Some rv → sequences s !! rs_request_id rv = Some q →
  reservation_pages s id = len (pages q) ∧ len (pages q) ≤ table_entries (sequences s).
Proof.
  intros Hwf Hrv Hq. destruct (wf_reservation _ _ _ _ Hwf Hrv) as
    (q' & Hq' & _ & _ & _ & _ & _ & Hlen & _). simplify_eq. unfold reservation_pages. rewrite Hrv.
  split; [done|]. by eapply entries_le.
Qed.

Section effects.
Context {P : Profile}.

Lemma validate_each_ok seen ids s :
  wf s → NoDup ids → (∀ id, id ∈ ids → id ∉ seen ∧ is_Some (reservations s !! id)) →
  wp (validate_each seen ids) s (λ _ s', s' = s) (λ _ _, False).
Proof.
  intros Hwf Hnd. revert seen. induction Hnd as [|id ids Hnin Hnd IH]; intros seen Hids; [done|].
  destruct (Hids id) as [Hns [rv Hrv]]; [by left|]. simpl. rewrite bool_decide_false by done.
  wp_step. eapply validate_reservation_spec; [done| |congruence]. intros ? ?. apply IH.
  intros id0 Hin. destruct (Hids id0) as [? ?]; [by right|]. split; [|done].
  intros [->%elem_of_singleton|?]%elem_of_union; done.
Qed.

Lemma commit_row_closes id n s rv :
  wf s → reservations s !! id = Some rv → 0 < n ≤ token_count rv → clock s ≤ u64_max →
  wp (commit_prefix_row (id, n)) s
    (λ _ s', wf s' ∧ closes s s' {[id := start_position rv + n]}) (λ _ _, False).
Proof.
  intros Hwf Hrv Hn Hclk.
  destruct (wf_reservation _ _ _ _ Hwf Hrv) as (q & Hq & _).
  destruct (reservation_pages_seq _ _ _ _ Hwf Hrv Hq) as [Hrp Hle].
  eapply wp_wand; [apply commit_prefix_row_spec; [done..|]| |done].
  - unfold tick_room, clock in *. lia.
  - cbn beta. intros m s' (Hwf' & -> & q' & Hq' & Hcl & Ht). simplify_eq. split; [done|].
    eapply closed_closes; [done..|]. by rewrite Hrp in Ht.
Qed.

Lemma commit_rows_closes rows s :
  wf s → NoDup rows.*1 →
  (∀ id n, (id, n) ∈ rows → ∃ rv, reservations s !! id = Some rv ∧ 0 < n ≤ token_count rv) →
  clock s ≤ u64_max →
  wp (map_each rows commit_prefix_row) s
    (λ _ s', wf s' ∧ ∃ f, closes s s' f ∧ (∀ id, is_Some (f !! id) ↔ id ∈ rows.*1) ∧
       ∀ id n rv, (id, n) ∈ rows → reservations s !! id = Some rv → f !! id = Some (start_position rv + n))
    (λ _ _, False).
Proof.
  revert s. induction rows as [|[id n] rows IH]; intros s Hwf Hnd Hrows Hclk.
  { apply wp_ret. split; [done|]. exists ∅. split; [apply closes_refl|]. split.
    - intros id. rewrite lookup_empty. simpl. rewrite elem_of_nil. split; [by intros []|done].
    - by intros ??? ?%elem_of_nil. }
  rewrite fmap_cons in Hnd. inversion Hnd as [|?? Hnin Hnd']; subst. simpl in Hnin.
  destruct (Hrows id n) as (rv & Hrv & Hn); [by left|].
  cbn [map_each]. wp_step. eapply wp_wand; [by apply commit_row_closes| |done].
  cbn beta. intros y s1 (Hwf1 & Hcl1). wp_step.
  assert (∀ id0 n0, (id0, n0) ∈ rows → reservations s1 !! id0 = reservations s !! id0) as Hsame.
  { intros id0 n0 Hin. rewrite (cl_resv _ _ _ Hcl1), lookup_singleton_ne; [done|]. intros ->.
    apply Hnin. by apply (list_elem_of_fmap_2 fst) in Hin. }
  eapply wp_wand; [apply IH; [done|done| |]| |done].
  - intros id0 n0 Hin. rewrite (Hsame _ _ Hin). apply Hrows. by right.
  - pose proof (cl_clock _ _ _ Hcl1). lia.
  - cbn beta. intros ns s' (Hwf' & f & Hcl & Hdom & Hf). apply wp_ret. split; [done|].
    exists ({[id := start_position rv + n]} ∪ f). split; [by eapply closes_trans|]. split.
    + intros id0. rewrite fmap_cons, elem_of_cons, <-Hdom. simpl.
      destruct (decide (id0 = id)) as [->|Hne].
      * rewrite lookup_union, lookup_singleton_eq. destruct (f !! id); simpl; naive_solver.
      * rewrite lookup_union_r by by rewrite lookup_singleton_ne. naive_solver.
    + intros id0 n0 rv0 [[= -> ->]|Hin]%elem_of_cons Hrv0.
      * simplify_eq. apply lookup_union_Some_l, lookup_singleton_eq.
      * rewrite lookup_union_r; [by eapply Hf; [|rewrite (Hsame _ _ Hin)]|].
        rewrite lookup_singleton_ne; [done|]. intros ->. apply Hnin.
        by apply (list_elem_of_fmap_2 fst) in Hin.
Qed.

Lemma commit_append_prefixes_ok rows s :
  wf s → NoDup rows.*1 →
  (∀ id n, (id, n) ∈ rows → ∃ rv, reservations s !! id = Some rv ∧ 0 < n ≤ token_count rv) →
  clock s ≤ u64_max →
  wp (commit_append_prefixes rows) s
    (λ _ s', wf s' ∧ ∃ f, closes s s' f ∧ (∀ id, is_Some (f !! id) ↔ id ∈ rows.*1) ∧
       ∀ id n rv, (id, n) ∈ rows → reservations s !! id = Some rv → f !! id = Some (start_position rv + n))
    (λ _ _, False).
Proof.
  intros Hwf Hnd Hrows Hclk. unfold commit_append_prefixes. wp_step.
  eapply wp_wand; [apply validate_each_ok; [done|done|]| |done].
  { intros id ([id' n] & -> & Hin)%list_elem_of_fmap. destruct (Hrows _ _ Hin) as (rv & Hrv & _).
    split; [set_solver|]. simpl. eauto. }
  cbn beta. intros _ s' ->. wp_step.
  assert (∀ l, l ⊆ rows → wp (for_each l (λ row,
    let! rs := gets reservations in let! rv := expect (rs !! row.1) in
    if (row.2 =? 0) || (token_count rv <? row.2) then throw InvalidConsumedPrefix else ret tt)) s
    (λ _ s', s' = s) (λ _ _, False)) as Hchk.
  { intros l. induction l as [|[id n] l IH]; intros Hsub; [done|]. simpl.
    destruct (Hrows id n) as (rv & Hrv & Hn); [apply Hsub; by left|].
    wp_step. wp_step. wp_step. wp_step. eapply wp_expect; [done|]. cbn beta.
    rewrite (proj2 (N.eqb_neq _ _)), (proj2 (N.ltb_ge _ _)) by lia. simpl. wp_step. apply IH.
    intros x Hx. apply Hsub. by right. }
  eapply wp_wand; [by apply Hchk| |done]. cbn beta. intros _ s' ->. by apply commit_rows_closes.
Qed.

Lemma cancel_appends_ok ids s :
  wf s → NoDup ids → (∀ id, id ∈ ids → is_Some (reservations s !! id)) → clock s ≤ u64_max →
  wp (cancel_appends ids) s
    (λ _ s', wf s' ∧ ∃ f, closes s s' f ∧ (∀ id, is_Some (f !! id) ↔ id ∈ ids) ∧
       ∀ id rv, id ∈ ids → reservations s !! id = Some rv → f !! id = Some (start_position rv))
    (λ _ _, False).
Proof.
  intros Hwf Hnd Hids Hclk. unfold cancel_appends. wp_step.
  eapply wp_wand; [apply validate_each_ok; [done|done|]| |done].
  { intros id Hin. split; [set_solver|by apply Hids]. }
  cbn beta. intros ? s0 ->. revert s Hwf Hids Hclk.
  induction Hnd as [|id ids Hnin Hnd IH]; intros s Hwf Hids Hclk.
  { apply wp_ret. split; [done|]. exists ∅. split; [apply closes_refl|]. split.
    - intros id. rewrite lookup_empty, elem_of_nil. split; [by intros []|done].
    - by intros ?? ?%elem_of_nil. }
  destruct (Hids id) as [rv Hrv]; [by left|].
  destruct (wf_reservation _ _ _ _ Hwf Hrv) as (q & Hq & _ & Hst & Hprev & _).
  destruct (reservation_pages_seq _ _ _ _ Hwf Hrv Hq) as [Hrp Hle].
  cbn [for_each]. wp_step. apply wp_unwrap. eapply wp_wand; [apply cancel_append_spec; [done..|]| |done].
  { unfold tick_room, clock in *. lia. }
  cbn beta. intros _ s1 (Hwf1 & q' & Hq' & Hcl & Ht). simplify_eq.
  rewrite Hprev, Hst in Hcl, Ht. rewrite Hrp in Ht.
  assert (closes s s1 {[id := start_position rv]}) as Hcl1.
  { rewrite Hst. eapply closed_closes; [done..|exact Hcl|exact Ht]. }
  assert (∀ id0, id0 ∈ ids → reservations s1 !! id0 = reservations s !! id0) as Hsame.
  { intros id0 Hin. rewrite (cl_resv _ _ _ Hcl1), lookup_singleton_ne; [done|]. congruence. }
  eapply wp_wand; [apply IH; [done| |]| |done].
  - intros id0 Hin. rewrite Hsame by done. apply Hids. by right.
  - pose proof (cl_clock _ _ _ Hcl1). lia.
  - cbn beta. intros ns s' (Hwf' & f & Hcl2 & Hdom & Hf). split; [done|].
    exists ({[id := start_position rv]} ∪ f). split; [by eapply closes_trans|]. split.
    + intros id0. rewrite elem_of_cons, <-Hdom. destruct (decide (id0 = id)) as [->|Hne].
      * rewrite lookup_union, lookup_singleton_eq. destruct (f !! id); simpl; naive_solver.
      * rewrite lookup_union_r by by rewrite lookup_singleton_ne. naive_solver.
    + intros id0 rv0 [->|Hin]%elem_of_cons Hrv0.
      * simplify_eq. apply lookup_union_Some_l, lookup_singleton_eq.
      * rewrite lookup_union_r; [by eapply Hf; [|rewrite Hsame]|].
        rewrite lookup_singleton_ne; [done|]. congruence.
Qed.

Lemma commit_partial_ok id n s rv :
  wf s → reservations s !! id = Some rv → 0 < n ≤ token_count rv → clock s ≤ u64_max →
  wp (commit_append_partial id n) s
    (λ _ s', wf s' ∧ closes s s' {[id := start_position rv + n]}) (λ _ _, False).
Proof.
  intros Hwf Hrv Hn Hclk.
  destruct (wf_reservation _ _ _ _ Hwf Hrv) as (q & Hq & _).
  destruct (reservation_pages_seq _ _ _ _ Hwf Hrv Hq) as [Hrp Hle].
  eapply wp_wand; [apply commit_append_partial_spec; [done|]| |naive_solver].
  - unfold tick_room, clock in *. lia.
  - cbn beta. intros m s' (Hwf' & rv' & q' & Hrv' & _ & -> & Hq' & Hcl & Ht). simplify_eq.
    split; [done|]. by eapply closed_closes.
Qed.
End effects.

(** *** Sequences *)

(** What the prefix cache operations leave alone. *)
Definition steady (s s' : PagedKvCacheManager) : Prop :=
  next_tick s' = next_tick s ∧ next_reservation s' = next_reservation s ∧
  prefix_caching s' = prefix_caching s ∧ config s' = config s ∧ reservations s' = reservations s.
#[export] Instance steady_preorder : PreOrder steady.
Proof.
  split; [done|]. intros s1 s2 s3 (? & ? & ? & ? & ?) (? & ? & ? & ? & ?). repeat split; congruence.
Qed.
Definition same_index (s s' : PagedKvCacheManager) : Prop := block_index s' = block_index s.
#[export] Instance same_index_preorder : PreOrder same_index.
Proof. split; [done|]. intros ???. unfold same_index. congruence. Qed.
Definition same_reused (s s' : PagedKvCacheManager) : Prop := reused_tokens s' = reused_tokens s.
#[export] Instance same_reused_preorder : PreOrder same_reused.
Proof. split; [done|]. intros ???. unfold same_reused. congruence. Qed.

Section sequences.
Context {P : Profile}.

Lemma create_with_prefix_steady chain r tokens : leads steady (create_sequence_with_prefix chain r tokens).
Proof.
  unfold create_sequence_with_prefix, create_sequence, put_sequence.
  assert (∀ fuel bs b parent acc, leads steady (match_prefix chain fuel bs b tokens parent acc)) as Hm.
  { induction fuel as [|fuel IH]; intros; simpl; [leads_steps|].
    unfold acquire_cached, index. leads_steps; done. }
  leads_steps; done.
Qed.
Lemma create_with_prefix_index chain r tokens : leads same_index (create_sequence_with_prefix chain r tokens).
Proof.
  unfold create_sequence_with_prefix, create_sequence, put_sequence.
  assert (∀ fuel bs b parent acc, leads same_index (match_prefix chain fuel bs b tokens parent acc)) as Hm.
  { induction fuel as [|fuel IH]; intros; simpl; [leads_steps|].
    unfold acquire_cached, index. leads_steps; by unfold same_index. }
  leads_steps; by unfold same_index.
Qed.
Lemma publish_steady chain fuel bs b tokens parent ps : leads steady (publish chain fuel bs b tokens parent ps).
Proof.
  revert b parent. induction fuel as [|fuel IH]; intros; simpl; [leads_steps|]. unfold index. leads_steps; done.
Qed.
Lemma publish_reused chain fuel bs b tokens parent ps : leads same_reused (publish chain fuel bs b tokens parent ps).
Proof.
  revert b parent. induction fuel as [|fuel IH]; intros; simpl; [leads_steps|]. unfold index.
  leads_steps; by unfold same_reused.
Qed.
#[local] Hint Resolve publish_steady publish_reused : leads.
Lemma register_prefix_steady chain r tokens : leads steady (register_prefix chain r tokens).
Proof. unfold register_prefix, sequence, put_sequence. leads_steps; done. Qed.
Lemma register_prefix_reused chain r tokens : leads same_reused (register_prefix chain r tokens).
Proof. unfold register_prefix, sequence, put_sequence. leads_steps; by unfold same_reused. Qed.

Lemma remove_sequence_ok r q s :
  wf s → sequences s !! r = Some q → pending q = None → clock s ≤ u64_max →
  wp (remove_sequence r) s
    (λ _ s', wf s' ∧ config s' = config s ∧ prefix_caching s' = prefix_caching s ∧
       reservations s' = reservations s ∧
       sequences s' = delete r (sequences s) ∧ clock s' ≤ clock s ∧ shrinks s s')
    (λ _ _, False).
Proof.
  intros Hwf Hq Hp Hclk.
  eapply wp_wand; [apply (wp_leads shrinks), remove_sequence_spec; [apply remove_sequence_shrinks|done|]| |].
  - intros q' Hq'. pose proof (entries_le _ _ _ Hq'). unfold tick_room, clock in *. lia.
  - cbn beta. intros _ s' ((Hwf' & q' & Hq' & _ & Hc & Hr & Hs & Hpc & Ht) & Hsh). simplify_eq.
    do 5 (split; [done|]). split; [|done]. unfold clock. rewrite Hs.
    pose proof (entries_delete _ _ _ Hq). lia.
  - cbn beta. intros e s' ((_ & Hx) & _). destruct (Hx _ Hq). congruence.
Qed.

Lemma create_sequence_ok r s :
  wf s → sequences s !! r = None →
  wp (create_sequence r) s
    (λ _ s', wf s' ∧ s' = set_sequences (<[r := mkSequence 0 [] None 0 CHAIN_ROOT]> (sequences s)) s)
    (λ _ _, False).
Proof.
  intros Hwf Hn. eapply wp_wand; [by apply create_sequence_spec|naive_solver|].
  cbn beta. intros e s' (_ & _ & [? ?]). congruence.
Qed.

(** A sequence created from a prompt holds the pages the prefix cache has for it. *)
Definition prefilled (chain : N → list Z → N) (bs : N) (idx : gmap (N * list Z) N) (tokens : list Z)
    (q : SequenceState) : Prop :=
  pending q = None ∧ committed_tokens q = len (pages q) * bs ∧ registered_blocks q = len (pages q) ∧
  chain_hash q = chain_prefix chain tokens bs (length (pages q)) ∧
  (committed_tokens q = 0 ∨ committed_tokens q < len tokens) ∧
  ∀ i, (i < length (pages q))%nat → cached_block chain idx tokens bs i = pages q !! i.

Lemma create_with_prefix_ok chain r tokens s :
  wf s → sequences s !! r = None → len tokens ≤ usize_max → ref_room s (len tokens) →
  reused_tokens s + len tokens ≤ u64_max →
  wp (create_sequence_with_prefix chain r tokens) s
    (λ matched s', wf s' ∧ steady s s' ∧ same_index s s' ∧ reused_tokens s' = reused_tokens s + matched ∧
       (matched = 0 ∨ matched < len tokens) ∧
       ∃ q, sequences s' = <[r := q]> (sequences s) ∧ committed_tokens q = matched ∧
         prefilled chain (block_size (config s)) (block_index s) tokens q)
    (λ _ _, False).
Proof.
  intros Hwf Hn Hlen Hroom Hreused.
  assert (wp (create_sequence_with_prefix chain r tokens) s (λ _ s', ∀ q, sequences s' !! r = Some q →
    committed_tokens q = len (pages q) * block_size (config s) →
    registered_blocks q = len (pages q) ∧
    chain_hash q = chain_prefix chain tokens (block_size (config s)) (length (pages q)) ∧
    ∀ i, (i < length (pages q))%nat →
      cached_block chain (block_index s) tokens (block_size (config s)) i = pages q !! i) (λ _ _, True)) as Hhits.
  { destruct (negb (prefix_caching s) || (len tokens <=? 1)) eqn:Hb.
    - unfold create_sequence_with_prefix. wp_step. eapply wp_wand; [by apply create_sequence_spec| |done].
      cbn beta. intros _ s' (_ & _ & ->). wp_step. wp_step. simpl. rewrite Hb. wp_step.
      intros q Hq. simpl in Hq. rewrite lookup_insert_eq in Hq. simplify_eq/=. intros _.
      split; [done|]. split; [done|]. lia.
    - apply orb_false_iff in Hb as [Hc%negb_false_iff Hl%N.leb_gt].
      eapply wp_wand; [by apply create_with_prefix_longest| |done]. cbn beta.
      intros m s' (q & Hq & -> & _ & Hreg & Hch & Hh & _) q' Hq' _. simplify_eq. done. }
  eapply wp_wand; [apply (wp_leads same_index), (wp_leads steady), (wp_conj _ _ _ _ _ _
    (create_sequence_with_prefix_spec chain r tokens s Hwf Hlen Hroom Hreused) Hhits);
    [apply create_with_prefix_index|apply create_with_prefix_steady]| |].
  - cbn beta. intros m s' (((H1 & Hh) & Hst) & Hix).
    destruct H1 as (Hwf' & _ & _ & Hm & _ & _ & Hru & q & Hs & Hcq & Hpq & Hpp).
    split; [done|]. split; [done|]. split; [done|]. split; [done|]. split; [done|].
    exists q. split; [done|]. split; [done|].
    destruct (Hh q) as (? & ? & ?); [by rewrite Hs, lookup_insert_eq|congruence|].
    unfold prefilled. rewrite Hcq. repeat (split; [done|]). done.
  - cbn beta. intros e s' ((((_ & _ & [? Hx]) & _) & _) & _). congruence.
Qed.

(** What publishing adds to the index. *)
Lemma publish_index chain fuel bs (b : nat) tokens ps s out s' :
  publish chain fuel bs (N.of_nat b) tokens (chain_prefix chain tokens bs b) ps s = (Ok out, s') →
  out = chain_prefix chain tokens bs (b + fuel) ∧
  ∀ k p, block_index s' !! k = Some p → block_index s !! k = Some p ∨
    ∃ i, (b ≤ i < b + fuel)%nat ∧
      k = (chain_prefix chain tokens bs i, block_tokens tokens bs (N.of_nat i)) ∧ ps !! i = Some p.
Proof.
  revert b s. induction fuel as [|fuel IH]; intros b s Hrun.
  { unfold publish, ret in Hrun. simplify_eq. rewrite Nat.add_0_r. auto. }
  cbn [publish] in Hrun. unfold bind at 1, index in Hrun. rewrite Nat2N.id in Hrun.
  destruct (ps !! b) as [page|] eqn:Hpage; [|done]. cbn in Hrun.
  set (k := (chain_prefix chain tokens bs b, block_tokens tokens bs (N.of_nat b))) in *.
  assert (∀ s1, (∀ k' p, block_index s1 !! k' = Some p → block_index s !! k' = Some p ∨ k' = k ∧ p = page) →
    publish chain fuel bs (N.of_nat b + 1) tokens
      (chain (chain_prefix chain tokens bs b) (block_tokens tokens bs (N.of_nat b))) ps s1 = (Ok out, s') →
    out = chain_prefix chain tokens bs (b + S fuel) ∧
    ∀ k' p, block_index s' !! k' = Some p → block_index s !! k' = Some p ∨
      ∃ i, (b ≤ i < b + S fuel)%nat ∧
        k' = (chain_prefix chain tokens bs i, block_tokens tokens bs (N.of_nat i)) ∧ ps !! i = Some p) as Hnext.
  { intros s1 Hs1 Hrun1. replace (N.of_nat b + 1) with (N.of_nat (S b)) in Hrun1 by lia.
    change (chain _ _) with (chain_prefix chain tokens bs (S b)) in Hrun1.
    destruct (IH _ _ Hrun1) as [Hout Hix]. rewrite <-Nat.add_succ_comm. split; [done|].
    intros k' p [Hk|(i & Hi & -> & Hp)]%Hix; [|right; exists i; split; [lia|done]].
    destruct (Hs1 _ _ Hk) as [?|[-> ->]]; [by left|]. right. exists b. split; [lia|done]. }
  unfold bind, gets in Hrun. destruct (block_index s !! k) eqn:Hk; cbn in Hrun.
  { apply (Hnext s); [auto|done]. }
  unfold expect in Hrun.
  destruct (page_blocks s !! N.to_nat page) as [[blk|]|] eqn:Hb; cbn in Hrun; [|  |done].
  - apply (Hnext s); [auto|done].
  - eapply Hnext; [|exact Hrun]. cbn. intros k' p. rewrite lookup_insert_Some. naive_solver.
Qed.

Lemma register_prefix_ok chain r tokens q s :
  wf s → sequences s !! r = Some q →
  chain_hash q = chain_prefix chain tokens (block_size (config s)) (N.to_nat (registered_blocks q)) →
  wp (register_prefix chain r tokens) s
    (λ _ s', wf s' ∧ steady s s' ∧ same_reused s s' ∧
       (∃ q', sequences s' = <[r := q']> (sequences s) ∧ committed_tokens q' = committed_tokens q ∧
          pages q' = pages q ∧ pending q' = pending q ∧
          chain_hash q' = chain_prefix chain tokens (block_size (config s)) (N.to_nat (registered_blocks q'))) ∧
       ∀ k p, block_index s' !! k = Some p → block_index s !! k = Some p ∨
         ∃ i, k = (chain_prefix chain tokens (block_size (config s)) i,
                   block_tokens tokens (block_size (config s)) (N.of_nat i)) ∧
           (N.of_nat i + 1) * block_size (config s) ≤ N.min (committed_tokens q) (len tokens) ∧
           pages q !! i = Some p)
    (λ _ _, False).
Proof.
  intros Hwf Hq Hch. pose proof (wf_bs _ _ Hwf) as Hbs. destruct (wf_seqs _ _ Hwf _ _ Hq) as [Hreg _].
  assert (wp (register_prefix chain r tokens) s (λ _ s',
    (∃ q', sequences s' = <[r := q']> (sequences s) ∧ committed_tokens q' = committed_tokens q ∧
       pages q' = pages q ∧ pending q' = pending q ∧
       chain_hash q' = chain_prefix chain tokens (block_size (config s)) (N.to_nat (registered_blocks q'))) ∧
    ∀ k p, block_index s' !! k = Some p → block_index s !! k = Some p ∨
      ∃ i, k = (chain_prefix chain tokens (block_size (config s)) i,
                block_tokens tokens (block_size (config s)) (N.of_nat i)) ∧
        (N.of_nat i + 1) * block_size (config s) ≤ N.min (committed_tokens q) (len tokens) ∧
        pages q !! i = Some p) (λ _ _, False)) as Hout.
  { unfold register_prefix. wp_step. wp_step. wp_step.
    { wp_step. split; [|auto]. exists q. by rewrite insert_id. }
    wp_step. wp_step. wp_step. apply sequence_spec; [|congruence]. intros q0 Hq0. assert (q0 = q) as -> by congruence. clear Hq0. wp_step.
    set (complete := N.min (committed_tokens q) (len tokens) / block_size (config s)).
    assert (complete ≤ committed_tokens q / block_size (config s)) by (apply N.Div0.div_le_mono; lia).
    assert (registered_blocks q ≤ committed_tokens q / block_size (config s))
      by (apply N.div_le_lower_bound; lia).
    eapply wp_mono; [eapply wp_and_ok; [apply (publish_spec chain _ _ _ _ r q); [done..|lia]|]|].
    { intros par s1 Hpub. rewrite Hch, <-(N2Nat.id (registered_blocks q)) in Hpub.
      rewrite !Nat2N.id in Hpub. exact (publish_index _ _ _ _ _ _ _ _ _ Hpub). }
    cbn beta. intros par s1 ((_ & _ & Hs1 & _) & -> & Hix). wp_step. wp_step. wp_step.
    eapply wp_expect; [by rewrite Hs1|]. cbn beta. unfold put_sequence. wp_step. simpl. split.
    - eexists. split; [by rewrite Hs1|]. simpl. do 3 (split; [done|]). f_equal. lia.
    - intros k p [?|(i & Hi & -> & Hp)]%Hix; [by left|]. right. exists i. split; [done|]. split; [|done].
      pose proof (N.Div0.mul_div_le (N.min (committed_tokens q) (len tokens)) (block_size (config s))) as Hmul.
      fold complete in Hmul. nia. }
  eapply wp_wand; [apply (wp_leads same_reused), (wp_leads steady),
    (wp_conj _ _ _ _ _ _ Hout (register_prefix_spec chain r tokens s Hwf));
    [apply register_prefix_reused|apply register_prefix_steady]|naive_solver|naive_solver].
Qed.

(** *** Appends *)

(** The clock once every page left is taken and released. *)
Definition spend (s : PagedKvCacheManager) : N := clock s + available_pages s.

Lemma available_le s hand : wf_hand s hand → available_pages s ≤ num_pages (config s).
Proof.
  intros Hwf. pose proof (po_partition _ _ _ _ _ _ _ _ (wf_pages _ _ Hwf)). unfold available_pages. lia.
Qed.

Lemma begun_spend s s' r n rv : begun s s' r n rv → next_tick s' = next_tick s → spend s' = spend s.
Proof.
  intros (q & fresh & Hq & _ & _ & _ & _ & Hs & _ & _ & _ & _ & _ & Hav) Ht. unfold spend, clock. rewrite Hs, Ht.
  pose proof (entries_insert (sequences s) r q (mkSequence (committed_tokens q) (pages q ++ fresh)
    (Some (next_reservation s)) (registered_blocks q) (chain_hash q)) Hq) as He. simpl in He.
  rewrite len_app in He. lia.
Qed.

Lemma begin_append_ok r n s :
  wf s → next_reservation s < u64_max → appendable s r n →
  wp (begin_append r n) s
    (λ rv s', wf s' ∧ begun s s' r n rv ∧ quiet s s' ∧ spend s' = spend s) (λ _ _, False).
Proof.
  intros Hwf Hn Happ.
  eapply wp_wand; [apply (wp_leads quiet), (wp_conj _ _ _ _ _ _ (begin_append_spec r n s Hwf)
    (begin_append_admission r n s Hwf Hn)); apply begin_append_quiet| |naive_solver].
  cbn beta. intros rv s' (((Hwf' & Hb) & _) & Hq). do 3 (split; [done|]).
  eapply begun_spend; [done|apply Hq].
Qed.
End sequences.
