(* ===== verification/Scheduler.v ===== *)
(** * The continuous batching scheduler of the LLM engine

    [ruLLM/src/continuous_batch.rs], [continuous_batch/lifecycle.rs] and the completion
    paths of [continuous_batch/sampling.rs]: requests wait, become active, are prefilled in
    chunks, decode one token or verify a drafted run per batch, may be preempted, and
    finish.  The scheduler drives the paged KV manager ([PagedKv]); one batch is in flight
    at a time.

    A sampler is opaque ([Sampling]): the scheduler stores it, clears its workspace and
    hands it to the selection function of the model. *)

From S2P Require Export Prelude PagedKv.
Open Scope N_scope.

Class Sampling := {
  TokenSampler : Type;
  clear_workspace : TokenSampler → TokenSampler;
  (** [SamplingConfig] with [SamplingOptions]; building a sampler may fail *)
  SamplingSettings : Type;
  new_with_options : SamplingSettings → option TokenSampler;
  (** [f32], with [is_nan] and [>] *)
  F32 : Type;
  is_nan : F32 → bool;
  f32_gt : F32 → F32 → bool;
  (** a token for the logits after a prompt and generated tokens, or a failure *)
  sample_with_history : TokenSampler → list F32 → list Z → list Z → option (Z * TokenSampler)
}.

(** ** Data *)

Record ContinuousBatchConfig := { max_active_sequences : N; max_batch_tokens : N }.

Inductive ScheduledBatchKind := Prefill | Decode | Verify.
#[export] Instance kind_eq_dec : EqDecision ScheduledBatchKind.
Proof. solve_decision. Defined.

Record SpeculativeConfig := { draft_tokens : N; ngram : N }.

Record GreedyGenerationConfig := { max_new_tokens : N; eos_token_ids : list Z }.

Record ScheduledSequence := mkRow {
  request_id : RequestId;
  token_ids : list Z;
  start_pos : N;
  context_length : N;
  row_table : list KvPageId;
  reservation_id : KvReservationId
}.

Record ScheduledBatch := mkBatch {
  batch_id : N;
  batch_kind : ScheduledBatchKind;
  rows : list ScheduledSequence
}.

Record FinishedGeneration := mkFinished {
  fin_request : RequestId;
  fin_prompt : list Z;
  fin_generated : list Z;
  stopped_on_eos : bool
}.

Record CancelledGeneration := mkCancelled {
  can_request : RequestId;
  can_prompt : list Z;
  can_generated : list Z
}.

Inductive KvAdmissionPolicy := OnDemand | ReserveSequenceCapacity.
#[export] Instance policy_eq_dec : EqDecision KvAdmissionPolicy.
Proof. solve_decision. Defined.
Record ContinuousBatchOptions := {
  max_pending_requests : option N;
  kv_admission : KvAdmissionPolicy
}.

(** One constructor per message of [ContinuousBatchError(String)]. *)
Inductive ContinuousBatchError :=
| ZeroLimits | ZeroPending | ZeroSpeculative
| EmptyPrompt | PromptAboveBatch (n limit : N) | RequestLengthOverflow
| RequestTooLong (n capacity : N) | NegativeTokenIds | RequestTooManyPages (n pool : N)
| PendingQueueFull | RequestIdOverflow
| StillInFlight (id : N) | BatchIdOverflow | NotInFlight (id : N) | OtherInFlight (actual id : N)
| RowCountMismatch (id given : N) | NegativeGenerated
| MissingRequest (r : RequestId) | NotOwned (r : RequestId) (id : N) | FailedNotOwned
| VerifyMismatch | BudgetsExceedPool | RequestDisappeared (r : option RequestId)
| CancelInFlight (r : RequestId) (id : N)
| LimitInFlight | LimitStrands (limit minimum : N)
| ContextOverflow | ContextExceedsU32 | NoPhysicalPage | TableOverflow
| ArgmaxMismatch | NeedsLogits | LogitMismatch | SamplingMissing | SamplerMissing
| AllNaN | IndexExceedsI32 | SelectFailed | SamplerRejected
| KvError (e : PagedKvError).

Inductive RequestPhase :=
| NeedsPrefill
| AwaitingDecode (token : Z)
| InFlight (id : N).
#[export] Instance phase_eq_dec : EqDecision RequestPhase.
Proof. solve_decision. Defined.

Section scheduler.
Context {P : Profile} {SM : Sampling} (chain : N → list Z → N).

Record PendingRequest := mkPending {
  pend_id : RequestId;
  pend_prompt : list Z;
  pend_generation : GreedyGenerationConfig;
  pend_sampler : option TokenSampler
}.

Record ActiveRequest := mkActive {
  prompt : list Z;
  generation : GreedyGenerationConfig;
  sampler : option TokenSampler;
  eos : gset Z;
  generated : list Z;
  history : list Z;
  admitted : N;
  phase : RequestPhase
}.

Record ContinuousBatchScheduler := mkScheduler {
  sc_config : ContinuousBatchConfig;
  options : ContinuousBatchOptions;
  kv_cache : PagedKvCacheManager;
  pending_requests : list PendingRequest;
  deferred_prefill : gset N;
  active : gmap N ActiveRequest;
  finished : list FinishedGeneration;
  in_flight : option ScheduledBatch;
  prefer_prefill : bool;
  next_request : N;
  next_batch : N;
  prefill_chunk_tokens : option N;
  admission_ceiling : option N;
  recompute_preemption : bool;
  next_admission : N;
  preemptions : N;
  speculative : option SpeculativeConfig;
  speculative_turn : bool;
  drafted_tokens : N;
  accepted_draft_tokens : N
}.

(** Field assignments. *)
Definition with_config v s := mkScheduler v (options s) (kv_cache s) (pending_requests s)
  (deferred_prefill s) (active s) (finished s) (in_flight s) (prefer_prefill s) (next_request s)
  (next_batch s) (prefill_chunk_tokens s) (admission_ceiling s) (recompute_preemption s)
  (next_admission s) (preemptions s) (speculative s) (speculative_turn s) (drafted_tokens s)
  (accepted_draft_tokens s).
Definition with_kv v s := mkScheduler (sc_config s) (options s) v (pending_requests s)
  (deferred_prefill s) (active s) (finished s) (in_flight s) (prefer_prefill s) (next_request s)
  (next_batch s) (prefill_chunk_tokens s) (admission_ceiling s) (recompute_preemption s)
  (next_admission s) (preemptions s) (speculative s) (speculative_turn s) (drafted_tokens s)
  (accepted_draft_tokens s).
Definition with_pending v s := mkScheduler (sc_config s) (options s) (kv_cache s) v
  (deferred_prefill s) (active s) (finished s) (in_flight s) (prefer_prefill s) (next_request s)
  (next_batch s) (prefill_chunk_tokens s) (admission_ceiling s) (recompute_preemption s)
  (next_admission s) (preemptions s) (speculative s) (speculative_turn s) (drafted_tokens s)
  (accepted_draft_tokens s).
Definition with_deferred_prefill v s := mkScheduler (sc_config s) (options s) (kv_cache s)
  (pending_requests s) v (active s) (finished s) (in_flight s) (prefer_prefill s) (next_request s)
  (next_batch s) (prefill_chunk_tokens s) (admission_ceiling s) (recompute_preemption s)
  (next_admission s) (preemptions s) (speculative s) (speculative_turn s) (drafted_tokens s)
  (accepted_draft_tokens s).
Definition with_active v s := mkScheduler (sc_config s) (options s) (kv_cache s) (pending_requests
  s) (deferred_prefill s) v (finished s) (in_flight s) (prefer_prefill s) (next_request s)
  (next_batch s) (prefill_chunk_tokens s) (admission_ceiling s) (recompute_preemption s)
  (next_admission s) (preemptions s) (speculative s) (speculative_turn s) (drafted_tokens s)
  (accepted_draft_tokens s).
Definition with_finished v s := mkScheduler (sc_config s) (options s) (kv_cache s)
  (pending_requests s) (deferred_prefill s) (active s) v (in_flight s) (prefer_prefill s)
  (next_request s) (next_batch s) (prefill_chunk_tokens s) (admission_ceiling s)
  (recompute_preemption s) (next_admission s) (preemptions s) (speculative s) (speculative_turn s)
  (drafted_tokens s) (accepted_draft_tokens s).
Definition with_in_flight v s := mkScheduler (sc_config s) (options s) (kv_cache s)
  (pending_requests s) (deferred_prefill s) (active s) (finished s) v (prefer_prefill s)
  (next_request s) (next_batch s) (prefill_chunk_tokens s) (admission_ceiling s)
  (recompute_preemption s) (next_admission s) (preemptions s) (speculative s) (speculative_turn s)
  (drafted_tokens s) (accepted_draft_tokens s).
Definition with_prefer_prefill v s := mkScheduler (sc_config s) (options s) (kv_cache s)
  (pending_requests s) (deferred_prefill s) (active s) (finished s) (in_flight s) v (next_request
  s) (next_batch s) (prefill_chunk_tokens s) (admission_ceiling s) (recompute_preemption s)
  (next_admission s) (preemptions s) (speculative s) (speculative_turn s) (drafted_tokens s)
  (accepted_draft_tokens s).
Definition with_next_request v s := mkScheduler (sc_config s) (options s) (kv_cache s)
  (pending_requests s) (deferred_prefill s) (active s) (finished s) (in_flight s) (prefer_prefill
  s) v (next_batch s) (prefill_chunk_tokens s) (admission_ceiling s) (recompute_preemption s)
  (next_admission s) (preemptions s) (speculative s) (speculative_turn s) (drafted_tokens s)
  (accepted_draft_tokens s).
Definition with_next_batch v s := mkScheduler (sc_config s) (options s) (kv_cache s)
  (pending_requests s) (deferred_prefill s) (active s) (finished s) (in_flight s) (prefer_prefill
  s) (next_request s) v (prefill_chunk_tokens s) (admission_ceiling s) (recompute_preemption s)
  (next_admission s) (preemptions s) (speculative s) (speculative_turn s) (drafted_tokens s)
  (accepted_draft_tokens s).
Definition with_prefill_chunk_tokens v s := mkScheduler (sc_config s) (options s) (kv_cache s)
  (pending_requests s) (deferred_prefill s) (active s) (finished s) (in_flight s) (prefer_prefill
  s) (next_request s) (next_batch s) v (admission_ceiling s) (recompute_preemption s)
  (next_admission s) (preemptions s) (speculative s) (speculative_turn s) (drafted_tokens s)
  (accepted_draft_tokens s).
Definition with_admission_ceiling v s := mkScheduler (sc_config s) (options s) (kv_cache s)
  (pending_requests s) (deferred_prefill s) (active s) (finished s) (in_flight s) (prefer_prefill
  s) (next_request s) (next_batch s) (prefill_chunk_tokens s) v (recompute_preemption s)
  (next_admission s) (preemptions s) (speculative s) (speculative_turn s) (drafted_tokens s)
  (accepted_draft_tokens s).
Definition with_recompute_preemption v s := mkScheduler (sc_config s) (options s) (kv_cache s)
  (pending_requests s) (deferred_prefill s) (active s) (finished s) (in_flight s) (prefer_prefill
  s) (next_request s) (next_batch s) (prefill_chunk_tokens s) (admission_ceiling s) v
  (next_admission s) (preemptions s) (speculative s) (speculative_turn s) (drafted_tokens s)
  (accepted_draft_tokens s).
Definition with_next_admission v s := mkScheduler (sc_config s) (options s) (kv_cache s)
  (pending_requests s) (deferred_prefill s) (active s) (finished s) (in_flight s) (prefer_prefill
  s) (next_request s) (next_batch s) (prefill_chunk_tokens s) (admission_ceiling s)
  (recompute_preemption s) v (preemptions s) (speculative s) (speculative_turn s) (drafted_tokens
  s) (accepted_draft_tokens s).
Definition with_preemptions v s := mkScheduler (sc_config s) (options s) (kv_cache s)
  (pending_requests s) (deferred_prefill s) (active s) (finished s) (in_flight s) (prefer_prefill
  s) (next_request s) (next_batch s) (prefill_chunk_tokens s) (admission_ceiling s)
  (recompute_preemption s) (next_admission s) v (speculative s) (speculative_turn s)
  (drafted_tokens s) (accepted_draft_tokens s).
Definition with_speculative v s := mkScheduler (sc_config s) (options s) (kv_cache s)
  (pending_requests s) (deferred_prefill s) (active s) (finished s) (in_flight s) (prefer_prefill
  s) (next_request s) (next_batch s) (prefill_chunk_tokens s) (admission_ceiling s)
  (recompute_preemption s) (next_admission s) (preemptions s) v (speculative_turn s)
  (drafted_tokens s) (accepted_draft_tokens s).
Definition with_speculative_turn v s := mkScheduler (sc_config s) (options s) (kv_cache s)
  (pending_requests s) (deferred_prefill s) (active s) (finished s) (in_flight s) (prefer_prefill
  s) (next_request s) (next_batch s) (prefill_chunk_tokens s) (admission_ceiling s)
  (recompute_preemption s) (next_admission s) (preemptions s) (speculative s) v (drafted_tokens s)
  (accepted_draft_tokens s).
Definition with_drafted_tokens v s := mkScheduler (sc_config s) (options s) (kv_cache s)
  (pending_requests s) (deferred_prefill s) (active s) (finished s) (in_flight s) (prefer_prefill
  s) (next_request s) (next_batch s) (prefill_chunk_tokens s) (admission_ceiling s)
  (recompute_preemption s) (next_admission s) (preemptions s) (speculative s) (speculative_turn s)
  v (accepted_draft_tokens s).
Definition with_accepted_draft_tokens v s := mkScheduler (sc_config s) (options s) (kv_cache s)
  (pending_requests s) (deferred_prefill s) (active s) (finished s) (in_flight s) (prefer_prefill
  s) (next_request s) (next_batch s) (prefill_chunk_tokens s) (admission_ceiling s)
  (recompute_preemption s) (next_admission s) (preemptions s) (speculative s) (speculative_turn s)
  (drafted_tokens s) v.

Definition set_phase (p : RequestPhase) (a : ActiveRequest) : ActiveRequest :=
  mkActive (prompt a) (generation a) (sampler a) (eos a) (generated a) (history a) (admitted a) p.
Definition set_sampler (x : option TokenSampler) (a : ActiveRequest) : ActiveRequest :=
  mkActive (prompt a) (generation a) x (eos a) (generated a) (history a) (admitted a) (phase a).
(** [generated_token_ids.extend(ts); history.extend(ts)] *)
Definition extend (ts : list Z) (a : ActiveRequest) : ActiveRequest :=
  mkActive (prompt a) (generation a) (sampler a) (eos a) (generated a ++ ts) (history a ++ ts)
    (admitted a) (phase a).

Abbreviation Sch := (M ContinuousBatchScheduler ContinuousBatchError).

(** A call of the KV manager; [?] converts its error. *)
Definition kv {A} (m : M PagedKvCacheManager PagedKvError A) : Sch A := λ s,
  let '(r, k) := m (kv_cache s) in
  (match r with Ok a => Ok a | Err e => Err (KvError e) | Panic => Panic end, with_kv k s).
Definition get_kv {A} (f : PagedKvCacheManager → A) : Sch A := gets (λ s, f (kv_cache s)).

Definition put_active (r : RequestId) (a : ActiveRequest) : Sch unit :=
  modify (λ s, with_active (<[r := a]> (active s)) s).
Definition drop_active (r : RequestId) : Sch unit :=
  modify (λ s, with_active (delete r (active s)) s).
Definition put_in_flight (b : option ScheduledBatch) : Sch unit := modify (with_in_flight b).

(** A loop that carries a value. *)
Fixpoint fold_m {A B} (f : B → A → Sch B) (b : B) (xs : list A) : Sch B :=
  match xs with
  | [] => ret b
  | x :: xs => let! b := f b x in fold_m f b xs
  end.

(** ** Batches *)

Definition batch_size (b : ScheduledBatch) : N := len (rows b).
Definition next_n (b : ScheduledBatch) : N :=
  match rows b with [] => 0 | row :: _ => len (token_ids row) end.
Definition token_matrix (b : ScheduledBatch) : list Z := rows b ≫= token_ids.
(** [u32] lengths, one per query token. *)
Definition row_lengths (row : ScheduledSequence) : res ContinuousBatchError (list N) :=
  foldr (λ offset acc,
    match checked_add usize_max (start_pos row) offset ≫= λ v, checked_add usize_max v 1 with
    | None => Err ContextOverflow
    | Some length =>
        if u32_max <? length then Err ContextExceedsU32
        else let? ls := acc in Ok (length :: ls)
    end) (Ok []) (range (len (token_ids row))).
Definition context_lengths (b : ScheduledBatch) : res ContinuousBatchError (list N) :=
  foldr (λ row acc, let? ls := row_lengths row in let? ls' := acc in Ok (ls ++ ls')) (Ok []) (rows b).
(** The rows of the page table, padded to the longest. *)
Definition table_stride (b : ScheduledBatch) : N :=
  foldr (λ row n, N.max (len (row_table row)) n) 0 (rows b).
Definition flattened_block_table (b : ScheduledBatch) : res ContinuousBatchError (list N * N) :=
  let stride := table_stride b in
  if (stride =? 0) && negb (bool_decide (rows b = [])) then Err NoPhysicalPage
  else match checked_mul usize_max (batch_size b) stride with
       | None => Err TableOverflow
       | Some _ =>
           Ok (rows b ≫= λ row, row_table row ++ replicate (N.to_nat (stride - len (row_table row))) 0, stride)
       end.

(** ** Construction *)

Definition validate_config (c : ContinuousBatchConfig) : res ContinuousBatchError unit :=
  if (max_active_sequences c =? 0) || (max_batch_tokens c =? 0) then Err ZeroLimits else Ok tt.
Definition validate_options (o : ContinuousBatchOptions) : res ContinuousBatchError unit :=
  if bool_decide (max_pending_requests o = Some 0) then Err ZeroPending else Ok tt.

Definition with_options (c : ContinuousBatchConfig) (kvc : PagedKvCacheConfig) (o : ContinuousBatchOptions) :
    res ContinuousBatchError ContinuousBatchScheduler :=
  let? _ := validate_config c in
  let? _ := validate_options o in
  match new kvc with
  | Ok k => Ok (mkScheduler c o k [] ∅ ∅ [] None true 1 1 None None false 0 0 None false 0 0)
  | Err e => Err (KvError e)
  | Panic => Panic
  end.
Definition default_options : ContinuousBatchOptions :=
  {| max_pending_requests := None; kv_admission := OnDemand |}.
Definition scheduler_new (c : ContinuousBatchConfig) (kvc : PagedKvCacheConfig) :
    res ContinuousBatchError ContinuousBatchScheduler := with_options c kvc default_options.
Definition new_paged (c : ContinuousBatchConfig) (kvc : PagedKvCacheConfig) :
    res ContinuousBatchError ContinuousBatchScheduler :=
  let? s := scheduler_new c kvc in
  Ok (with_recompute_preemption true (with_prefill_chunk_tokens (Some (max_batch_tokens c)) s)).

Definition sch_set_prefix_caching (enabled : bool) : Sch unit := kv (set_prefix_caching enabled).
Definition set_speculative_decoding (c : option SpeculativeConfig) : Sch unit :=
  if match c with Some c => (draft_tokens c =? 0) || (ngram c =? 0) | None => false end
  then throw ZeroSpeculative
  else modify (with_speculative c).

(** ** Submission *)

Definition request_page_budget (prompt_length : N) (g : GreedyGenerationConfig) (bs : N) : N :=
  div_ceil (prompt_length + saturating_sub (max_new_tokens g) 1) bs.

Definition submit_with_sampler (p : list Z) (g : GreedyGenerationConfig) (x : option TokenSampler) :
    Sch RequestId :=
  let! s := gets (λ s, s) in
  if bool_decide (p = []) then throw EmptyPrompt
  else if bool_decide (prefill_chunk_tokens s = None) && (max_batch_tokens (sc_config s) <? len p)
  then throw (PromptAboveBatch (len p) (max_batch_tokens (sc_config s)))
  else
    let! total := ok_or (checked_add usize_max (len p) (max_new_tokens g)) RequestLengthOverflow in
    let kvc := config (kv_cache s) in
    if max_sequence_length kvc <? total then throw (RequestTooLong total (max_sequence_length kvc))
    else if existsb (λ t, (t <? 0)%Z) (p ++ eos_token_ids g) then throw NegativeTokenIds
    else
      let! _ :=
        when (0 <? max_new_tokens g)
          (let required :=
             match kv_admission (options s) with
             | OnDemand => div_ceil (len p) (block_size kvc)
             | ReserveSequenceCapacity => request_page_budget (len p) g (block_size kvc)
             end in
           if num_pages kvc <? required then throw (RequestTooManyPages required (num_pages kvc))
           else if match max_pending_requests (options s) with
                   | Some limit => limit <=? len (pending_requests s)
                   | None => false
                   end
           then throw PendingQueueFull
           else ret tt) in
      let r := next_request s in
      let! next := ok_or (checked_add u64_max r 1) RequestIdOverflow in
      let! _ := modify (with_next_request next) in
      let! _ :=
        if max_new_tokens g =? 0
        then modify (λ s, with_finished (finished s ++ [mkFinished r p [] false]) s)
        else modify (λ s, with_pending (pending_requests s ++ [mkPending r p g x]) s) in
      ret r.
Definition submit (p : list Z) (g : GreedyGenerationConfig) : Sch RequestId := submit_with_sampler p g None.
Definition submit_sampled_with_options (p : list Z) (g : GreedyGenerationConfig) (settings : SamplingSettings) :
    Sch RequestId :=
  let! x := ok_or (new_with_options settings) SamplerRejected in
  submit_with_sampler p g (Some x).

(** ** Admission *)

(** The pages left when every active request keeps its budget. *)
Definition budget_left (s : ContinuousBatchScheduler) : Sch N :=
  if bool_decide (kv_admission (options s) = ReserveSequenceCapacity) then
    fold_m (λ available a,
      ok_or (checked_sub available
        (request_page_budget (len (prompt a)) (generation a) (block_size (config (kv_cache s)))))
        BudgetsExceedPool)
      (num_pages (config (kv_cache s))) (Prelude.entries (active s)).*2
  else ret (num_pages (config (kv_cache s))).

(** [pending.iter().position(..)] with the request at that position. *)
Definition ready (s : ContinuousBatchScheduler) (p : PendingRequest) : bool :=
  bool_decide (pend_id p ∉ deferred_prefill s) &&
  match admission_ceiling s with Some ceiling => pend_id p <? ceiling | None => true end.
Fixpoint take_first (f : PendingRequest → bool) (l : list PendingRequest) :
    option (PendingRequest * list PendingRequest) :=
  match l with
  | [] => None
  | p :: l => if f p then Some (p, l)
              else match take_first f l with Some (q, l') => Some (q, p :: l') | None => None end
  end.

Definition admit_pending (p : PendingRequest) : Sch unit :=
  let! _ := kv (create_sequence_with_prefix chain (pend_id p) (pend_prompt p)) in
  let! n := gets next_admission in
  let! next := lift (uadd u64_max n 1) in
  let! _ := modify (with_next_admission next) in
  put_active (pend_id p)
    (mkActive (pend_prompt p) (pend_generation p) (pend_sampler p)
       (list_to_set (eos_token_ids (pend_generation p))) [] (pend_prompt p) n NeedsPrefill).

Fixpoint promote_loop (fuel : nat) (available : N) : Sch unit :=
  match fuel with
  | O => panic
  | S fuel =>
      let! s := gets (λ s, s) in
      if max_active_sequences (sc_config s) <=? N.of_nat (size (active s)) then ret tt
      else match take_first (ready s) (pending_requests s) with
           | None => ret tt
           | Some (p, rest) =>
               let pages := request_page_budget (len (pend_prompt p)) (pend_generation p)
                              (block_size (config (kv_cache s))) in
               let reserve := bool_decide (kv_admission (options s) = ReserveSequenceCapacity) in
               if reserve && (available <? pages) then ret tt
               else
                 let! _ := modify (with_pending rest) in
                 let! _ := admit_pending p in
                 promote_loop fuel (if reserve then available - pages else available)
           end
  end.

(** Every turn takes one pending request. *)
Definition promote_pending : Sch unit :=
  let! s := gets (λ s, s) in
  let! available := budget_left s in
  promote_loop (S (length (pending_requests s))) available.

(** ** Building batches *)

Definition scheduled_sequence (rv : PagedKvAppendReservation) (ts : list Z) : ScheduledSequence :=
  mkRow (ar_request_id rv) ts (ar_start_position rv) (ar_context_length rv) (ar_block_table rv) (ar_id rv).

Definition rollback_scheduled_rows (rs : list ScheduledSequence) : Sch unit :=
  kv (cancel_appends (reservation_id <$> rs)).

Definition finish_schedule (k : ScheduledBatchKind) (rs : list ScheduledSequence) : Sch (option ScheduledBatch) :=
  match rs with
  | [] => ret None
  | _ =>
      let! id := gets next_batch in
      match checked_add u64_max id 1 with
      | None => let! _ := rollback_scheduled_rows rs in throw BatchIdOverflow
      | Some next =>
          let! act := gets active in
          if existsb (λ row, bool_decide (act !! request_id row = None)) rs
          then let! _ := rollback_scheduled_rows rs in throw (RequestDisappeared None)
          else
            let! _ := modify (with_next_batch next) in
            let! _ := for_each rs (λ row,
              let! act := gets active in
              let! a := ok_or (act !! request_id row) (RequestDisappeared (Some (request_id row))) in
              put_active (request_id row) (set_phase (InFlight id) a)) in
            ret (Some (mkBatch id k rs))
      end
  end.

(** [begin_append] that rolls the rows back when it fails. *)
Definition begin_or_rollback (r : RequestId) (n : N) (rs : list ScheduledSequence) :
    Sch PagedKvAppendReservation := λ s,
  match kv (begin_append r n) s with
  | (Err e, s') => (let! _ := rollback_scheduled_rows rs in throw e) s'
  | out => out
  end.

Definition decode_candidates (act : gmap N ActiveRequest) : list (RequestId * Z) :=
  omap (λ x, match phase x.2 with AwaitingDecode t => Some (x.1, t) | _ => None end) (Prelude.entries act).

Fixpoint decode_rows (max_rows : N) (cands : list (RequestId * Z)) (rs : list ScheduledSequence) :
    Sch (list ScheduledSequence) :=
  match cands with
  | [] => ret rs
  | (r, t) :: cands =>
      if max_rows <=? len rs then ret rs
      else
        let! fits := kv (can_append r 1) in
        if negb fits then decode_rows max_rows cands rs
        else
          let! rv := begin_or_rollback r 1 rs in
          decode_rows max_rows cands (rs ++ [scheduled_sequence rv [t]])
  end.
Definition schedule_decode : Sch (option ScheduledBatch) :=
  let! s := gets (λ s, s) in
  let! rs := decode_rows (max_batch_tokens (sc_config s)) (decode_candidates (active s)) [] in
  finish_schedule Decode rs.

(** [(start, length, final)] of the next prefill chunk. *)
Definition prefill_chunk (r : RequestId) (a : ActiveRequest) : Sch (N * N * bool) :=
  let! committed := kv (committed_tokens_of r) in
  let! s := gets (λ s, s) in
  let remaining := saturating_sub (len (history a)) committed in
  let length := N.min (N.min remaining (default remaining (prefill_chunk_tokens s)))
                  (max_batch_tokens (sc_config s)) in
  ret (committed, length, committed + length =? len (history a)).

(** Buckets in the order of their keys. *)
Definition bucket_lt (a b : N * bool) : bool :=
  (a.1 <? b.1) || ((a.1 =? b.1) && negb a.2 && b.2).
Fixpoint bucket_push (k : N * bool) (r : RequestId) (l : list (N * bool * list RequestId)) :
    list (N * bool * list RequestId) :=
  match l with
  | [] => [(k, [r])]
  | (k', rs) :: l' =>
      if decide (k' = k) then (k', rs ++ [r]) :: l'
      else if bucket_lt k k' then (k, [r]) :: l
      else (k', rs) :: bucket_push k r l'
  end.
Definition bucket_step (bs : list (N * bool * list RequestId)) (x : RequestId * ActiveRequest) :
    Sch (list (N * bool * list RequestId)) :=
  let! chunk := prefill_chunk x.1 x.2 in
  let '(position, next, _) := chunk in
  let! s := gets (λ s, s) in
  if bool_decide (phase x.2 = NeedsPrefill) && bool_decide (x.1 ∉ deferred_prefill s) && (0 <? next) then
    let! fits := kv (can_append x.1 next) in
    ret (if fits : bool then bucket_push (next, negb (position =? 0)) x.1 bs else bs)
  else ret bs.

(** Tokens of a batch from a bucket; the fuller bucket wins, then the older request. *)
Definition bucket_tokens (limit : N) (b : N * bool * list RequestId) : N :=
  N.min (len b.2) (limit / b.1.1) * b.1.1.
Definition bucket_better (limit : N) (x y : N * bool * list RequestId) : bool :=
  (bucket_tokens limit y <? bucket_tokens limit x) ||
  ((bucket_tokens limit x =? bucket_tokens limit y) && (hd 0 x.2 <? hd 0 y.2)).
Definition best_bucket (limit : N) (l : list (N * bool * list RequestId)) :
    option (N * bool * list RequestId) :=
  foldl (λ acc y, match acc with
                  | None => Some y
                  | Some x => if bucket_better limit x y then Some x else Some y
                  end) None l.

Fixpoint prefill_rows (max_rows n : N) (cands : list RequestId) (rs : list ScheduledSequence) :
    Sch (list ScheduledSequence) :=
  match cands with
  | [] => ret rs
  | r :: cands =>
      if max_rows <=? len rs then ret rs
      else
        let! fits := kv (can_append r n) in
        if negb fits then prefill_rows max_rows n cands rs
        else
          let! act := gets active in
          let! a := expect (act !! r) in
          let! chunk := prefill_chunk r a in
          let '(start, length, _) := chunk in
          let! _ := debug_assert (length =? n) in
          let! _ := if len (history a) <? start + length then panic else ret tt in
          let ts := take (N.to_nat length) (drop (N.to_nat start) (history a)) in
          let! rv := begin_or_rollback r n rs in
          prefill_rows max_rows n cands (rs ++ [scheduled_sequence rv ts])
  end.
Definition schedule_prefill : Sch (option ScheduledBatch) :=
  let! s := gets (λ s, s) in
  let! buckets := fold_m bucket_step [] (Prelude.entries (active s)) in
  match best_bucket (max_batch_tokens (sc_config s)) buckets with
  | None => ret None
  | Some ((n, _), cands) =>
      let! rs := prefill_rows (max_batch_tokens (sc_config s) / n) n cands [] in
      finish_schedule Prefill rs
  end.

(** ** Speculation *)

(** The last [n] tokens of the history at [start]? *)
Definition slice (l : list Z) (from to : N) : list Z := take (N.to_nat (to - from)) (drop (N.to_nat from) l).
Definition draft_at (h : list Z) (n drafts start : N) : option (list Z) :=
  if bool_decide (slice h start (start + n) = slice h (len h - n) (len h)) then
    let from := start + n in
    let to := N.min (from + drafts) (len h) in
    if from <? to then Some (slice h from to) else None
  else None.
Definition first_some {A B} (f : A → option B) (l : list A) : option B := head (omap f l).
Definition ngram_draft (h : list Z) (n drafts : N) : list Z :=
  default [] (first_some (λ n, first_some (draft_at h n drafts) (reverse (range (len h - n))))
                (reverse ((N.add 1) <$> range (N.min n (saturating_sub (len h) 1))))).

Definition verify_candidate (c : SpeculativeConfig) (width : N) (cands : list (RequestId * Z * list Z))
    (x : RequestId * ActiveRequest) : Sch (list (RequestId * Z * list Z)) :=
  match phase x.2 with
  | AwaitingDecode t =>
      let! remaining := lift (usub usize_max (max_new_tokens (generation x.2)) (len (generated x.2))) in
      if bool_decide (is_Some (sampler x.2)) || (remaining <? 2) then ret cands
      else
        let draft := ngram_draft (history x.2) (ngram c) (draft_tokens c) in
        if bool_decide (draft = []) then ret cands
        else
          let! fits := kv (can_append x.1 width) in
          ret (if fits : bool then cands ++ [(x.1, t, draft)] else cands)
  | _ => ret cands
  end.

(** [draft.resize(n, pad)] with the last token of the draft *)
Definition pad_draft (draft : list Z) (n : N) : list Z :=
  take (N.to_nat n) draft ++ replicate (N.to_nat n - length draft) (default 0%Z (last draft)).

Fixpoint verify_rows (max_rows width drafts : N) (cands : list (RequestId * Z * list Z))
    (rs : list ScheduledSequence) : Sch (list ScheduledSequence) :=
  match cands with
  | [] => ret rs
  | (r, t, draft) :: cands =>
      if max_rows <=? len rs then ret rs
      else
        let! fits := kv (can_append r width) in
        if negb fits then verify_rows max_rows width drafts cands rs
        else
          let! rv := kv (begin_append r width) in
          verify_rows max_rows width drafts cands (rs ++ [scheduled_sequence rv (t :: pad_draft draft drafts)])
  end.
Definition schedule_verify : Sch (option ScheduledBatch) :=
  let! s := gets (λ s, s) in
  match speculative s with
  | None => ret None
  | Some c =>
      let! width := lift (uadd usize_max (draft_tokens c) 1) in
      if width =? 0 then panic
      else
        let max_rows := max_batch_tokens (sc_config s) / width in
        if max_rows =? 0 then ret None
        else
          let! cands := fold_m (verify_candidate c width) [] (Prelude.entries (active s)) in
          let! rs := verify_rows max_rows width (draft_tokens c) cands [] in
          finish_schedule Verify rs
  end.

(** ** Scheduling *)

Definition try_schedule : Sch (option ScheduledBatch) :=
  let! prefer := gets prefer_prefill in
  let! first := if prefer then schedule_prefill else ret None in
  match first with
  | Some b => let! _ := modify (with_prefer_prefill false) in ret (Some b)
  | None =>
      let! turn := gets speculative_turn in
      let! _ := modify (with_speculative_turn (negb turn)) in
      let! second := if negb turn then schedule_verify else ret None in
      match second with
      | Some b => let! _ := modify (with_prefer_prefill true) in ret (Some b)
      | None =>
          let! third := schedule_decode in
          match third with
          | Some b => let! _ := modify (with_prefer_prefill true) in ret (Some b)
          | None =>
              let! fourth := schedule_prefill in
              match fourth with
              | Some b => let! _ := modify (with_prefer_prefill false) in ret (Some b)
              | None => ret None
              end
          end
      end
  end.

(** [holders.iter().max()]: the newest admission, then the larger id. *)
Definition newer (x y : N * RequestId) : bool := (x.1 <? y.1) || ((x.1 =? y.1) && (x.2 <=? y.2)).
Definition newest_holder (l : list (N * RequestId)) : option (N * RequestId) :=
  foldl (λ acc y, match acc with None => Some y | Some x => if newer x y then Some y else Some x end) None l.
Definition holder_step (hs : list (N * RequestId)) (x : RequestId * ActiveRequest) : Sch (list (N * RequestId)) :=
  match phase x.2 with
  | InFlight _ => ret hs
  | _ =>
      let! table := kv (block_table x.1) in
      ret (if bool_decide (table = []) then hs else hs ++ [(admitted x.2, x.1)])
  end.
Definition preempt_newest : Sch bool :=
  let! act := gets active in
  let! hs := fold_m holder_step [] (Prelude.entries act) in
  if len hs <=? 1 then ret false
  else
    let! victim := expect (newest_holder hs) in
    let! _ := kv (remove_sequence victim.2) in
    let! _ := kv (create_sequence victim.2) in
    let! act := gets active in
    let! a := expect (act !! victim.2) in
    let! _ := put_active victim.2 (set_phase NeedsPrefill a) in
    let! n := gets preemptions in
    let! n := lift (uadd u64_max n 1) in
    let! _ := modify (with_preemptions n) in
    let! _ := modify (with_prefer_prefill false) in
    ret true.

(** Every turn but the last preempts a request. *)
Fixpoint schedule_loop (fuel : nat) : Sch (option ScheduledBatch) :=
  match fuel with
  | O => panic
  | S fuel =>
      let! b := try_schedule in
      match b with
      | Some b => let! _ := put_in_flight (Some b) in ret (Some b)
      | None =>
          let! preempts := gets recompute_preemption in
          let! again := if preempts then preempt_newest else ret false in
          if again : bool then schedule_loop fuel else ret None
      end
  end.
Definition schedule : Sch (option ScheduledBatch) :=
  let! s := gets (λ s, s) in
  match in_flight s with
  | Some b => throw (StillInFlight (batch_id b))
  | None =>
      if next_batch s =? u64_max then throw BatchIdOverflow
      else
        let! _ := promote_pending in
        let! turns := gets (λ s, S (size (active s))) in
        schedule_loop turns
  end.

(** ** Completion *)

Definition take_batch (id : N) : Sch ScheduledBatch :=
  let! b := gets in_flight in
  let! _ := put_in_flight None in
  let! b := ok_or b (NotInFlight id) in
  if negb (batch_id b =? id) then
    let! _ := put_in_flight (Some b) in throw (OtherInFlight (batch_id b) id)
  else ret b.

Definition samples_token (s : ContinuousBatchScheduler) (row : ScheduledSequence) : bool :=
  match active s !! request_id row with
  | Some a => len (history a) <=? context_length row
  | None => false
  end.

(** [self.in_flight = Some(batch); return Err(..)] *)
Definition give_back {A} (b : ScheduledBatch) (e : ContinuousBatchError) : Sch A :=
  let! _ := put_in_flight (Some b) in throw e.
(** [if let Err(error) = m { self.in_flight = Some(batch); return Err(error) }] *)
Definition or_give_back {A} (b : ScheduledBatch) (m : Sch A) : Sch A := λ s,
  match m s with
  | (Err e, s') => give_back b e s'
  | out => out
  end.

Definition ownership_error (s : ContinuousBatchScheduler) (id : N) (row : ScheduledSequence) :
    option ContinuousBatchError :=
  match active s !! request_id row with
  | None => Some (MissingRequest (request_id row))
  | Some a => if decide (phase a = InFlight id) then None else Some (NotOwned (request_id row) id)
  end.

(** A request that has got its last token. *)
Definition finish_request (r : RequestId) (stopped : bool) : Sch unit :=
  let! act := gets active in
  let! a := expect (act !! r) in
  let! _ := drop_active r in
  let! _ := kv (remove_sequence r) in
  modify (λ s, with_finished (finished s ++ [mkFinished r (prompt a) (generated a) stopped]) s).

(** The end of a token-producing row: [ts] are its tokens, [last] the last of them. *)
Definition settle (r : RequestId) (a : ActiveRequest) (last : Z) (before_finish : Sch unit) : Sch unit :=
  let! _ := put_active r a in
  let stopped := bool_decide (last ∈ eos a) in
  let! _ := before_finish in
  if stopped || (max_new_tokens (generation a) <=? len (generated a))
  then finish_request r stopped
  else put_active r (set_phase (AwaitingDecode last) a).

Definition complete_row (x : ScheduledSequence * Z) : Sch unit :=
  let '(row, token) := x in
  let! act := gets active in
  let! a := expect (act !! request_id row) in
  if context_length row <? len (history a)
  then put_active (request_id row) (set_phase NeedsPrefill a)
  else settle (request_id row) (extend [token] a) token (ret tt).

(** [register_prefix(id, &active[&id].history)] *)
Definition register_row (row : ScheduledSequence) : Sch unit :=
  let! act := gets active in
  let! a := expect (act !! request_id row) in
  kv (register_prefix chain (request_id row) (history a)).

Definition complete_batch (id : N) (ts : list Z) : Sch unit :=
  let! b := take_batch id in
  let! s := gets (λ s, s) in
  if negb (len ts =? len (rows b)) then give_back b (RowCountMismatch id (len ts))
  else if existsb (λ x, samples_token s x.1 && (x.2 <? 0)%Z) (zip (rows b) ts)
  then give_back b NegativeGenerated
  else match first_some (ownership_error s id) (rows b) with
  | Some e => give_back b e
  | None =>
      let! _ := or_give_back b (kv (commit_append_prefixes
        ((λ row, (reservation_id row, len (token_ids row))) <$> rows b))) in
      let! _ := for_each (rows b) register_row in
      for_each (zip (rows b) ts) complete_row
  end.

(** What a failed row goes back to. *)
Definition restore_row (k : ScheduledBatchKind) (row : ScheduledSequence) : Sch unit :=
  let! act := gets active in
  let! a := expect (act !! request_id row) in
  let! p := match k with
            | Prefill => ret NeedsPrefill
            | Decode | Verify => let! t := index (token_ids row) 0 in ret (AwaitingDecode t)
            end in
  put_active (request_id row) (set_phase p a).

Definition fail_batch (id : N) : Sch unit :=
  let! b := take_batch id in
  let! s := gets (λ s, s) in
  if existsb (λ row, bool_decide (is_Some (ownership_error s id row))) (rows b)
  then give_back b FailedNotOwned
  else
    let! _ := or_give_back b (kv (cancel_appends (reservation_id <$> rows b))) in
    for_each (rows b) (restore_row (batch_kind b)).

Definition pop_finished : Sch (option FinishedGeneration) :=
  let! l := gets finished in
  match l with
  | [] => ret None
  | x :: l => let! _ := modify (with_finished l) in ret (Some x)
  end.

(** *** Verification of drafts *)

(** The predictions taken from one row: until the budget, an end token, or a draft that
    differs from the prediction. *)
Fixpoint verify_loop (remaining : N) (eos : gset Z) (ts : list Z) (width position : N)
    (predictions produced : list Z) : Sch (list Z) :=
  match predictions with
  | [] => ret produced
  | p :: predictions =>
      let produced := produced ++ [p] in
      if (len produced =? remaining) || bool_decide (p ∈ eos) then ret produced
      else if width <=? position + 1 then ret produced
      else
        let! t := index ts (position + 1) in
        if negb (bool_decide (t = p)) then ret produced
        else verify_loop remaining eos ts width (position + 1) predictions produced
  end.

Definition verify_row (width : N) (argmax : list Z) (acc : list (RequestId * list Z))
    (x : N * ScheduledSequence) : Sch (list (RequestId * list Z)) :=
  let '(i, row) := x in
  let predictions := take (N.to_nat width) (drop (N.to_nat (i * width)) argmax) in
  let! act := gets active in
  let! a := ok_or (act !! request_id row) (MissingRequest (request_id row)) in
  let! remaining := lift (usub usize_max (max_new_tokens (generation a)) (len (generated a))) in
  let! produced := verify_loop remaining (eos a) (token_ids row) width 0 predictions [] in
  let! drafted := gets drafted_tokens in
  let! n := lift (usub usize_max width 1) in
  let! drafted := lift (uadd u64_max drafted n) in
  let! _ := modify (with_drafted_tokens drafted) in
  let! accepted := gets accepted_draft_tokens in
  let! n := lift (usub usize_max (len produced) 1) in
  let! accepted := lift (uadd u64_max accepted n) in
  let! _ := modify (with_accepted_draft_tokens accepted) in
  let! _ := kv (commit_append_partial (reservation_id row) (len produced)) in
  let! act := gets active in
  let! a := expect (act !! request_id row) in
  let a := extend produced a in
  let! last := expect (last produced) in
  let! _ := settle (request_id row) a last
              (kv (register_prefix chain (request_id row) (history a))) in
  ret (acc ++ [(request_id row, produced)]).

Definition complete_verify_batch (id : N) (argmax : list Z) : Sch (list (RequestId * list Z)) :=
  let! b := take_batch id in
  let width := next_n b in
  let! expected := if bool_decide (batch_kind b = Verify)
                   then lift (umul usize_max (batch_size b) width) else ret 0 in
  if negb (bool_decide (batch_kind b = Verify)) || negb (len argmax =? expected)
  then give_back b VerifyMismatch
  else fold_m (verify_row width argmax) [] (zip (range (len (rows b))) (rows b)).

(** ** Lookahead *)

(** State of the loop: the tokens left and what was reserved. *)
Definition lookahead_row (wanted : N) (acc : N * gmap N PagedKvAppendReservation) (row : ScheduledSequence) :
    Sch (N * gmap N PagedKvAppendReservation) :=
  let '(budget, reserved) := acc in
  let! act := gets active in
  let! a := expect (act !! request_id row) in
  let! c := get_kv config in
  let remaining := saturating_sub (max_new_tokens (generation a)) (len (generated a)) in
  let! capacity := lift (usub usize_max (max_sequence_length c) (context_length row)) in
  let extra := N.min (N.min (N.min wanted budget) (saturating_sub remaining 1)) capacity in
  let! end_ := lift (uadd usize_max (context_length row) extra) in
  let pages := saturating_sub (div_ceil end_ (block_size c)) (len (row_table row)) in
  let! free := get_kv free_page_count in
  if (0 <? extra) && (pages <=? free) then
    let! rv := kv (extend_append (reservation_id row) extra) in
    ret (budget - extra, <[request_id row := rv]> reserved)
  else ret (budget, reserved).
Definition reserve_lookahead (b : ScheduledBatch) (wanted : N) : Sch (gmap N PagedKvAppendReservation) :=
  if (wanted =? 0) || negb (bool_decide (batch_kind b = Decode)) then ret ∅
  else
    let! c := gets sc_config in
    let! out := fold_m (lookahead_row wanted) (saturating_sub (max_batch_tokens c) (batch_size b), ∅) (rows b) in
    ret out.2.

(** ** Observers *)

Record ContinuousBatchSnapshot := mkSchedulerSnapshot {
  snap_pending : N;
  snap_active : N;
  has_in_flight_batch : bool;
  snap_finished : N;
  free_kv_pages : N;
  total_kv_pages : N
}.
Definition sch_snapshot (s : ContinuousBatchScheduler) : ContinuousBatchSnapshot :=
  mkSchedulerSnapshot (len (pending_requests s)) (N.of_nat (size (active s)))
    (bool_decide (is_Some (in_flight s))) (len (finished s)) (free_page_count (kv_cache s))
    (num_pages (config (kv_cache s))).
Record PagedBatchSnapshot := mkPagedSnapshot {
  snap_base : ContinuousBatchSnapshot;
  snap_preemptions : N;
  prefix_cached_tokens : N;
  snap_drafted : N;
  snap_accepted : N
}.
Definition paged_snapshot (s : ContinuousBatchScheduler) : PagedBatchSnapshot :=
  mkPagedSnapshot (sch_snapshot s) (preemptions s) (reused_tokens (kv_cache s)) (drafted_tokens s)
    (accepted_draft_tokens s).
Definition generated_tokens (r : RequestId) (s : ContinuousBatchScheduler) : option (list Z) :=
  generated <$> active s !! r.
Definition is_idle (s : ContinuousBatchScheduler) : bool :=
  bool_decide (pending_requests s = []) && bool_decide (active s = ∅) && bool_decide (in_flight s = None).

(** ** Cancellation and limits *)

Definition sch_cancel (r : RequestId) : Sch (option CancelledGeneration) :=
  let! s := gets (λ s, s) in
  match take_first (λ p, pend_id p =? r) (pending_requests s) with
  | Some (p, rest) =>
      let! _ := modify (with_pending rest) in
      let! _ := modify (with_deferred_prefill (deferred_prefill s ∖ {[r]})) in
      ret (Some (mkCancelled r (pend_prompt p) []))
  | None =>
      match active s !! r with
      | None => ret None
      | Some a =>
          match phase a with
          | InFlight id => throw (CancelInFlight r id)
          | _ =>
              let! _ := kv (remove_sequence r) in
              let! act := gets active in
              let! a := expect (act !! r) in
              let! _ := drop_active r in
              let! _ := modify (with_deferred_prefill (deferred_prefill s ∖ {[r]})) in
              ret (Some (mkCancelled r (prompt a) (generated a)))
          end
      end
  end.

Definition minimum_batch_token_limit (s : ContinuousBatchScheduler) : N :=
  match prefill_chunk_tokens s with
  | Some _ => 1
  | None =>
      N.max 1 (N.max
        (foldr (λ p n, N.max (len (pend_prompt p)) n) 0 (pending_requests s))
        (foldr (λ a n, if decide (phase a = NeedsPrefill) then N.max (len (prompt a)) n else n) 0
           (entries (active s)).*2))
  end.
Definition set_batch_token_limit (limit : N) : Sch unit :=
  let! s := gets (λ s, s) in
  if bool_decide (is_Some (in_flight s)) then throw LimitInFlight
  else if limit <? minimum_batch_token_limit s
  then throw (LimitStrands limit (minimum_batch_token_limit s))
  else modify (with_config {| max_active_sequences := max_active_sequences (sc_config s);
                              max_batch_tokens := limit |}).

(** ** Token selection ([sampling.rs]) *)

Definition NO_TOKEN : Z := -1.
Definition i32_max : N := 2 ^ 31 - 1.

(** [self.in_flight.filter(|b| b.id == id)] *)
Definition in_flight_batch (id : N) (s : ContinuousBatchScheduler) : res ContinuousBatchError ScheduledBatch :=
  match in_flight s with
  | Some b => if batch_id b =? id then Ok b else Err (NotInFlight id)
  | None => Err (NotInFlight id)
  end.
Definition batch_requires_logits (id : N) (s : ContinuousBatchScheduler) : res ContinuousBatchError bool :=
  let? b := in_flight_batch id s in
  Ok (existsb (λ row, samples_token s row &&
        match active s !! request_id row with Some a => bool_decide (is_Some (sampler a)) | None => false end)
        (rows b)).
Definition complete_greedy_batch (id : N) (argmax : list Z) : Sch (list Z) :=
  let! s := gets (λ s, s) in
  let! b := lift (in_flight_batch id s) in
  if negb (len argmax =? len (rows b)) then throw ArgmaxMismatch
  else
    let tokens := (λ x, if samples_token s x.1 then x.2 else NO_TOKEN) <$> zip (rows b) argmax in
    let! logits := lift (batch_requires_logits id s) in
    if logits : bool then throw NeedsLogits
    else
      let! _ := complete_batch id tokens in
      ret tokens.

(** The best finite or infinite logit, the first one of equals. *)
Fixpoint greedy_loop (index : N) (values : list F32) (best : option (N * F32)) : option (N * F32) :=
  match values with
  | [] => best
  | v :: values =>
      greedy_loop (index + 1) values
        (if is_nan v then best
         else match best with
              | None => Some (index, v)
              | Some (_, w) => if f32_gt v w then Some (index, v) else best
              end)
  end.
Definition greedy_token (values : list F32) : res ContinuousBatchError Z :=
  match greedy_loop 0 values None with
  | None => Err AllNaN
  | Some (i, _) => if i32_max <? i then Err IndexExceedsI32 else Ok (Z.of_N i)
  end.

Abbreviation BatchSamplingState := (gmap N (option TokenSampler)).
Record BatchTokenSelection := mkSelection {
  sel_batch : N;
  sel_tokens : list Z;
  sel_samplers : list (RequestId * TokenSampler)
}.
Definition batch_sampling_state (id : N) (s : ContinuousBatchScheduler) :
    res ContinuousBatchError BatchSamplingState :=
  let? b := in_flight_batch id s in
  foldl (λ acc row,
    let? m := acc in
    match active s !! request_id row with
    | Some a => Ok (<[request_id row := sampler a]> m)
    | None => Err SamplingMissing
    end) (Ok ∅) (rows b).

(** [select] is the closure: it may fail, and it advances the sampler it is given. *)
Abbreviation Select :=
  (RequestId → list F32 → option TokenSampler → res ContinuousBatchError (Z * option TokenSampler)).
Definition select_row (s : ContinuousBatchScheduler) (id : N) (logits : list F32) (vocabulary : N) (select : Select)
    (acc : res ContinuousBatchError (list Z * list (RequestId * TokenSampler) * BatchSamplingState))
    (x : N * ScheduledSequence) :
    res ContinuousBatchError (list Z * list (RequestId * TokenSampler) * BatchSamplingState) :=
  let? state := acc in
  let '(tokens, samplers, st) := state in
  let '(i, row) := x in
  match active s !! request_id row with
  | None => Err (MissingRequest (request_id row))
  | Some a =>
      if negb (bool_decide (phase a = InFlight id)) then Err (NotOwned (request_id row) id)
      else if negb (samples_token s row) then Ok (tokens ++ [NO_TOKEN], samplers, st)
      else
        let values := take (N.to_nat vocabulary) (drop (N.to_nat (i * vocabulary)) logits) in
        match st !! request_id row with
        | None => Err SamplerMissing
        | Some next =>
            let? out := select (request_id row) values next in
            Ok (tokens ++ [out.1],
                match out.2 with Some x => samplers ++ [(request_id row, clear_workspace x)] | None => samplers end,
                delete (request_id row) st)
        end
  end.
Definition select_batch_tokens_with (id : N) (logits : list F32) (vocabulary : N) (st : BatchSamplingState)
    (select : Select) (s : ContinuousBatchScheduler) : res ContinuousBatchError BatchTokenSelection :=
  let? b := in_flight_batch id s in
  if (vocabulary =? 0) || negb (bool_decide (checked_mul usize_max (len (rows b)) vocabulary = Some (len logits)))
  then Err LogitMismatch
  else
    let? out := foldl (select_row s id logits vocabulary select) (Ok ([], [], st))
                  (zip (range (len (rows b))) (rows b)) in
    let '(tokens, samplers, _) := out in
    Ok (mkSelection id tokens samplers).

(** A sampled request draws from its sampler, a greedy one takes the best logit. *)
Definition select_token (s : ContinuousBatchScheduler) : Select := λ r values next,
  match next with
  | Some x =>
      match active s !! r with
      | None => Panic
      | Some a =>
          match sample_with_history x values (prompt a) (generated a) with
          | Some (t, x) => Ok (t, Some x)
          | None => Err SelectFailed
          end
      end
  | None => let? t := greedy_token values in Ok (t, None)
  end.
Definition select_batch_tokens (id : N) (logits : list F32) (vocabulary : N) (s : ContinuousBatchScheduler) :
    res ContinuousBatchError BatchTokenSelection :=
  let? st := batch_sampling_state id s in
  select_batch_tokens_with id logits vocabulary st (select_token s) s.

Definition complete_selected_batch (sel : BatchTokenSelection) : Sch (list Z) :=
  let! _ := complete_batch (sel_batch sel) (sel_tokens sel) in
  let! _ := for_each (sel_samplers sel) (λ x,
    let! act := gets active in
    match act !! x.1 with
    | Some a => put_active x.1 (set_sampler (Some x.2) a)
    | None => ret tt
    end) in
  ret (sel_tokens sel).
End scheduler.
