(* ===== verification/SchedulerDevice.v ===== *)
(** * The device that runs the batches

    A causal language model writes one cache cell per token, computed from the cells of the
    tokens before it, and predicts the next token from all cells ([CausalModel], with no
    law).  [cells_of] is what it computes with one growing cache; [exec_batch] what a device
    computes that reads and writes cells through the block tables of a scheduled batch.
    [greedy_decode] is generation without a scheduler. *)

From S2P Require Export Scheduler PagedKvClient.
Open Scope N_scope.

Class CausalModel := {
  Cell : Type;
  kv_entry : list Cell → Z → Cell;
  predict : list Cell → Z
}.

Section device.
Context {CM : CausalModel}.

(** ** The reference *)

Definition push_token (cs : list Cell) (t : Z) : list Cell := cs ++ [kv_entry cs t].
Definition cells_of (h : list Z) : list Cell := foldl push_token [] h.
Definition next_token (h : list Z) : Z := predict (cells_of h).

Fixpoint greedy_decode (eos : gset Z) (fuel : nat) (h : list Z) : list Z :=
  match fuel with
  | O => []
  | S fuel =>
      let t := next_token h in
      t :: if decide (t ∈ eos) then [] else greedy_decode eos fuel (h ++ [t])
  end.

Lemma cells_of_snoc h t : cells_of (h ++ [t]) = cells_of h ++ [kv_entry (cells_of h) t].
Proof. unfold cells_of. by rewrite foldl_app. Qed.
Lemma length_cells_of h : length (cells_of h) = length h.
Proof.
  induction h as [|t h IH] using rev_ind; [done|]. rewrite cells_of_snoc, !length_app, IH. done.
Qed.
Lemma cells_of_app h h' : ∃ k, cells_of (h ++ h') = cells_of h ++ k ∧ length k = length h'.
Proof.
  induction h' as [|t h' IH] using rev_ind; [exists []; by rewrite !app_nil_r|].
  destruct IH as (k & Hk & Hl). rewrite app_assoc, cells_of_snoc, Hk.
  eexists. rewrite <-app_assoc. split; [done|]. rewrite !length_app, Hl. done.
Qed.
Lemma cells_of_take n h : cells_of (take n h) = take n (cells_of h).
Proof.
  destruct (cells_of_app (take n h) (drop n h)) as (k & Hk & Hl). rewrite take_drop in Hk.
  rewrite Hk. destruct (decide (n ≤ length h)%nat) as [Hn|Hn].
  - rewrite take_app_le by (rewrite length_cells_of, length_take; lia).
    rewrite (take_ge (cells_of (take n h))); [done|]. rewrite length_cells_of, length_take. lia.
  - rewrite (drop_ge h n) in Hl by lia. destruct k; [|done]. rewrite app_nil_r, (take_ge (cells_of _)); [done|].
    rewrite length_cells_of, length_take. lia.
Qed.
Lemma cells_of_lookup h h' n i :
  take n h = take n h' → (i < n)%nat → cells_of h !! i = cells_of h' !! i.
Proof.
  intros Heq Hi. rewrite <-(lookup_take_lt (cells_of h) n) by done.
  rewrite <-(lookup_take_lt (cells_of h') n) by done. by rewrite <-!cells_of_take, Heq.
Qed.

(** [gen] is what greedy decoding appends to [p], one token after the other. *)
Definition greedy_run (p gen : list Z) : Prop :=
  ∀ i t, gen !! i = Some t → t = next_token (p ++ take i gen).

Lemma greedy_run_nil p : greedy_run p [].
Proof. intros i t. done. Qed.
Lemma greedy_run_snoc p gen : greedy_run p gen → greedy_run p (gen ++ [next_token (p ++ gen)]).
Proof.
  intros Hg i t Hi. apply lookup_app_Some in Hi as [Hi|[Hle Hi]].
  - rewrite take_app_le by (apply lookup_lt_Some in Hi; lia). by apply Hg.
  - destruct (i - length gen)%nat as [|k] eqn:Hk; [|by rewrite lookup_nil in Hi || done].
    simplify_eq/=. assert (i = length gen) as -> by lia. by rewrite take_app_length.
Qed.

(** A run that stops where decoding stops is the result of decoding. *)
Lemma greedy_run_decode eos p gen n :
  greedy_run p gen → (length gen ≤ n)%nat →
  (∀ i t, gen !! i = Some t → (S i < length gen)%nat → t ∉ eos) →
  (length gen = n ∨ ∃ t, last gen = Some t ∧ t ∈ eos) →
  gen = greedy_decode eos n p.
Proof.
  revert p gen. induction n as [|n IH]; intros p gen Hg Hl Hne Hend.
  { destruct gen; [done|simpl in Hl; lia]. }
  destruct gen as [|t gen]; [destruct Hend as [?|(? & ? & _)]; done|]. simpl.
  assert (t = next_token p) as <-.
  { rewrite (Hg 0%nat t) by done. by rewrite app_nil_r. }
  f_equal. case_decide as Ht.
  - destruct gen as [|u gen]; [done|]. exfalso. apply (Hne 0%nat t); [done|simpl; lia|done].
  - apply IH.
    + intros i u Hi. rewrite (Hg (S i) u) by done. simpl. by rewrite <-app_assoc.
    + simpl in Hl. lia.
    + intros i u Hi Hlt. apply (Hne (S i)); [done|simpl; lia].
    + destruct Hend as [?|(u & Hu & ?)]; [left; simpl in *; lia|]. right. exists u.
      split; [|done]. destruct gen; [|done]. simpl in Hu. by simplify_eq.
Qed.

(** ** The device *)

(** Cells are addressed by page and offset; nothing is known of a cell not yet written. *)
Definition memory : Type := N * N → Cell.
Definition write (c : N * N) (x : Cell) (mem : memory) : memory :=
  λ c', if decide (c' = c) then x else mem c'.
(** The cell of a position in a block table. *)
Definition locate (bs : N) (tbl : list KvPageId) (pos : N) : option (N * N) :=
  (λ p, (p, pos mod bs)) <$> tbl !! N.to_nat (pos / bs).
Definition gather (bs : N) (tbl : list KvPageId) (mem : memory) (n : N) : list Cell :=
  omap (λ pos, mem <$> locate bs tbl pos) (range n).

(** One token: its cell from the cells before it, then the prediction from all. *)
Definition exec_token (bs : N) (tbl : list KvPageId) (x : memory * N * list Z) (t : Z) :
    memory * N * list Z :=
  let '(mem, pos, outs) := x in
  let cell := kv_entry (gather bs tbl mem pos) t in
  let mem := match locate bs tbl pos with Some c => write c cell mem | None => mem end in
  (mem, pos + 1, outs ++ [predict (gather bs tbl mem (pos + 1))]).
Definition exec_row (bs : N) (mem : memory) (row : ScheduledSequence) : memory * list Z :=
  let '(mem, _, outs) := foldl (exec_token bs (row_table row)) (mem, start_pos row, []) (token_ids row) in
  (mem, outs).
Fixpoint exec_rows (bs : N) (mem : memory) (rs : list ScheduledSequence) : memory * list (list Z) :=
  match rs with
  | [] => (mem, [])
  | row :: rs =>
      let '(mem, outs) := exec_row bs mem row in
      let '(mem, rest) := exec_rows bs mem rs in
      (mem, outs :: rest)
  end.
Definition exec_batch (bs : N) (mem : memory) (b : ScheduledBatch) : memory * list (list Z) :=
  exec_rows bs mem (rows b).

(** The first [n] positions of a table hold the cells of [h]. *)
Definition holds (bs : N) (mem : memory) (tbl : list KvPageId) (h : list Z) (n : N) : Prop :=
  ∀ pos, pos < n → ∃ c, locate bs tbl pos = Some c ∧ cells_of h !! N.to_nat pos = Some (mem c).

Lemma holds_le bs mem tbl h n n' : n' ≤ n → holds bs mem tbl h n → holds bs mem tbl h n'.
Proof. intros Hn H pos Hp. apply H. lia. Qed.
Lemma holds_take bs mem tbl h h' n :
  take (N.to_nat n) h = take (N.to_nat n) h' → holds bs mem tbl h n → holds bs mem tbl h' n.
Proof.
  intros Heq H pos Hp. destruct (H pos Hp) as (c & Hc & Hl). exists c. split; [done|].
  rewrite <-Hl. symmetry. eapply cells_of_lookup; [done|lia].
Qed.
Lemma locate_prefix bs tbl tbl' pos c : tbl `prefix_of` tbl' → locate bs tbl pos = Some c → locate bs tbl' pos = Some c.
Proof.
  unfold locate. intros Hp. destruct (tbl !! _) as [p|] eqn:Ht; [|done]. simpl. intros <-.
  by erewrite (prefix_lookup_Some tbl tbl') by done.
Qed.
Lemma holds_prefix bs mem tbl tbl' h n : tbl `prefix_of` tbl' → holds bs mem tbl h n → holds bs mem tbl' h n.
Proof.
  intros Hp H pos Hlt. destruct (H pos Hlt) as (c & Hc & ?). exists c. split; [|done]. by eapply locate_prefix.
Qed.
Lemma holds_frame bs mem mem' tbl h n :
  (∀ pos c, pos < n → locate bs tbl pos = Some c → mem' c = mem c) →
  holds bs mem tbl h n → holds bs mem' tbl h n.
Proof.
  intros Hf H pos Hlt. destruct (H pos Hlt) as (c & Hc & Hl). exists c. split; [done|]. rewrite (Hf pos); done.
Qed.

Lemma gather_holds bs mem tbl h n :
  holds bs mem tbl h n → n ≤ len h → gather bs tbl mem n = take (N.to_nat n) (cells_of h).
Proof.
  intros Hh Hn. unfold gather, range.
  assert (∀ k, (k ≤ N.to_nat n)%nat →
    omap (λ pos, mem <$> locate bs tbl pos) (N.of_nat <$> seq 0 k) = take k (cells_of h)) as Hk; [|by apply Hk].
  induction k as [|k IH]; intros Hle; [done|].
  rewrite seq_S, fmap_app, omap_app, IH by lia. simpl.
  destruct (Hh (N.of_nat k)) as (c & Hc & Hl); [lia|]. rewrite Hc. simpl. rewrite Nat2N.id in Hl.
  by rewrite (take_S_r _ _ (mem c)).
Qed.

(** *** Execution *)

(** Every position below [n] has a cell, and the cells from [start] on are met once. *)
Definition clean (bs : N) (tbl : list KvPageId) (start n : N) : Prop :=
  (∀ pos, pos < n → is_Some (locate bs tbl pos)) ∧
  ∀ pos pos' c, pos < n → start ≤ pos' < n → locate bs tbl pos = Some c → locate bs tbl pos' = Some c → pos = pos'.

(** What a row predicts after each of its tokens. *)
Definition predictions (h ts : list Z) : list Z := (λ j, next_token (h ++ take (S j) ts)) <$> seq 0 (length ts).

Lemma predictions_cons h t ts : predictions h (t :: ts) = next_token (h ++ [t]) :: predictions (h ++ [t]) ts.
Proof.
  unfold predictions. cbn [length seq fmap list_fmap]. f_equal. rewrite <-seq_shift, <-list_fmap_compose.
  apply list_fmap_ext. intros i x _. simpl. by rewrite <-app_assoc.
Qed.
Lemma length_predictions h ts : length (predictions h ts) = length ts.
Proof. unfold predictions. by rewrite length_fmap, length_seq. Qed.
Lemma lookup_predictions h ts j : (j < length ts)%nat → predictions h ts !! j = Some (next_token (h ++ take (S j) ts)).
Proof. intros Hj. unfold predictions. rewrite list_lookup_fmap, lookup_seq_lt by done. done. Qed.

Lemma exec_tokens_spec bs tbl ts : ∀ mem h outs,
  clean bs tbl (len h) (len h + len ts) → holds bs mem tbl h (len h) →
  ∃ mem', foldl (exec_token bs tbl) (mem, len h, outs) ts = (mem', len h + len ts, outs ++ predictions h ts) ∧
    holds bs mem' tbl (h ++ ts) (len h + len ts) ∧
    ∀ c, (∀ pos, len h ≤ pos < len h + len ts → locate bs tbl pos ≠ Some c) → mem' c = mem c.
Proof.
  induction ts as [|t ts IH]; intros mem h outs Hcl Hh.
  { exists mem. simpl. rewrite N.add_0_r, !app_nil_r. done. }
  assert (len (t :: ts) = 1 + len ts) as Hl by (unfold len; simpl; lia). rewrite Hl in *.
  assert (len (h ++ [t]) = len h + 1) as Hl1 by (rewrite len_app; done).
  destruct Hcl as [Hex Hinj]. destruct (Hex (len h)) as [c Hc]; [lia|].
  rewrite predictions_cons. cbn [foldl]. unfold exec_token at 2. rewrite Hc. cbv beta iota zeta.
  set (mem1 := write c _ mem).
  assert (gather bs tbl mem (len h) = cells_of h) as Hg.
  { rewrite (gather_holds _ _ _ h) by done. apply take_ge. rewrite length_cells_of. unfold len. lia. }
  assert (holds bs mem1 tbl (h ++ [t]) (len h + 1)) as Hh1.
  { intros pos Hp. destruct (decide (pos = len h)) as [->|Hne].
    - exists c. split; [done|]. rewrite cells_of_snoc. unfold mem1, write. rewrite decide_True by done.
      rewrite Hg, lookup_app_r by (rewrite length_cells_of; unfold len; lia).
      rewrite length_cells_of. unfold len. by rewrite Nat2N.id, Nat.sub_diag.
    - destruct (Hh pos) as (c' & Hc' & Hv); [lia|]. exists c'. split; [done|]. unfold mem1, write.
      rewrite decide_False; [|intros ->; apply Hne, (Hinj pos (len h) c); [lia|lia|done|done]].
      rewrite cells_of_snoc. by apply lookup_app_l_Some. }
  rewrite (gather_holds _ _ _ (h ++ [t])) by (done || rewrite Hl1; lia).
  rewrite take_ge by (rewrite length_cells_of, length_app; unfold len; simpl; lia).
  rewrite <-Hl1 in *.
  destruct (IH mem1 (h ++ [t]) (outs ++ [next_token (h ++ [t])])) as (mem' & Hrun & Hh' & Hf).
  { rewrite Hl1 in *. split; [intros; apply Hex; lia|]. intros pos pos' c' ????. apply (Hinj pos pos' c'); [lia|lia|done|done]. }
  { done. }
  exists mem'. rewrite Hl1 in *. split; [|split].
  - unfold next_token in Hrun. rewrite Hrun, <-app_assoc. f_equal. f_equal. lia.
  - rewrite <-app_assoc in Hh'. by replace (len h + (1 + len ts)) with (len h + 1 + len ts) by lia.
  - intros c' Hc'. rewrite Hf by (intros; apply Hc'; lia). unfold mem1, write.
    rewrite decide_False; [done|]. intros ->. apply (Hc' (len h)); [lia|done].
Qed.

(** The cells a row reads, and those it writes. *)
Definition row_reads (bs : N) (row : ScheduledSequence) (c : N * N) : Prop :=
  ∃ pos, pos < start_pos row + len (token_ids row) ∧ locate bs (row_table row) pos = Some c.
Definition row_writes (bs : N) (row : ScheduledSequence) (c : N * N) : Prop :=
  ∃ pos, start_pos row ≤ pos < start_pos row + len (token_ids row) ∧ locate bs (row_table row) pos = Some c.

(** A row that follows the context [h]. *)
Definition row_runs (bs : N) (mem : memory) (h : list Z) (row : ScheduledSequence) : Prop :=
  start_pos row = len h ∧ clean bs (row_table row) (len h) (len h + len (token_ids row)) ∧
  holds bs mem (row_table row) h (len h).

Lemma exec_row_spec bs mem h row :
  row_runs bs mem h row →
  ∃ mem', exec_row bs mem row = (mem', predictions h (token_ids row)) ∧
    holds bs mem' (row_table row) (h ++ token_ids row) (len h + len (token_ids row)) ∧
    ∀ c, ¬ row_writes bs row c → mem' c = mem c.
Proof.
  intros (Hst & Hcl & Hh). destruct (exec_tokens_spec bs (row_table row) (token_ids row) mem h [] Hcl Hh)
    as (mem' & Hrun & Hh' & Hf). exists mem'. unfold exec_row. rewrite Hst, Hrun. split; [done|]. split; [done|].
  intros c Hc. apply Hf. intros pos Hp Hl. apply Hc. exists pos. by rewrite Hst.
Qed.

(** Rows that do not write what others read run as if each were alone. *)
Lemma exec_rows_spec bs (ctx : ScheduledSequence → list Z) rs : ∀ mem,
  (∀ row, row ∈ rs → row_runs bs mem (ctx row) row) →
  (∀ i j row row' c, i ≠ j → rs !! i = Some row → rs !! j = Some row' →
     row_writes bs row c → row_reads bs row' c → False) →
  ∃ mem', exec_rows bs mem rs = (mem', (λ row, predictions (ctx row) (token_ids row)) <$> rs) ∧
    (∀ row, row ∈ rs →
       holds bs mem' (row_table row) (ctx row ++ token_ids row) (len (ctx row) + len (token_ids row))) ∧
    ∀ c, (∀ row, row ∈ rs → ¬ row_writes bs row c) → mem' c = mem c.
Proof.
  induction rs as [|row rs IH]; intros mem Hrs Hap.
  { exists mem. split; [done|]. split; [by intros ? ?%elem_of_nil|done]. }
  destruct (exec_row_spec bs mem (ctx row) row) as (mem1 & Hrun & Hh & Hf); [apply Hrs; by left|].
  assert (∀ row', row' ∈ rs → ∀ c, row_reads bs row' c → mem1 c = mem c) as Hkeep.
  { intros row' [j Hj]%list_elem_of_lookup c Hc. apply Hf. intros Hw. by apply (Hap 0%nat (S j) row row' c). }
  destruct (IH mem1) as (mem' & Hrun' & Hh' & Hf').
  { intros row' Hin. destruct (Hrs row') as (Hst & Hcl & Hho); [by right|]. split; [done|]. split; [done|].
    eapply holds_frame; [|exact Hho]. intros pos c Hp Hl. apply (Hkeep row'); [done|].
    exists pos. split; [lia|done]. }
  { intros i j r1 r2 c Hij Hi Hj. apply (Hap (S i) (S j)); [lia|done..]. }
  exists mem'. cbn [exec_rows]. rewrite Hrun, Hrun'. split; [done|]. split.
  - intros row' [->|Hin]%elem_of_cons; [|by apply Hh']. eapply holds_frame; [|exact Hh].
    intros pos c Hp Hl. apply Hf'. intros r2 [j Hj]%list_elem_of_lookup Hw.
    apply (Hap (S j) 0%nat r2 row c); [lia|done|done|done|]. exists pos. destruct (Hrs row) as (-> & _); [by left|done].
  - intros c Hc. rewrite Hf' by (intros; apply Hc; by right). apply Hf. apply Hc. by left.
Qed.
End device.
