(* ===== verification/SchedulerInv.v ===== *)
(** * Invariant of the batching scheduler

    [core] relates the requests of the scheduler, the sequences of the KV manager, the cells
    of the device and the log of submissions; [upto] adds which requests belong to a batch
    being built, in flight or being completed.  What depends on the device and on hashes
    not colliding is guarded by [trusted], so that the rest holds for any device. *)

From S2P Require Export SchedulerDevice.
Open Scope N_scope.

(** ** Chain hashes and contexts *)

Section chains.
Context (chain : N → list Z → N) (bs : N).

Lemma block_tokens_take (t t' : list Z) (i : N) :
  take (N.to_nat ((i + 1) * bs)) t = take (N.to_nat ((i + 1) * bs)) t' →
  block_tokens t bs i = block_tokens t' bs i.
Proof.
  intros Heq. unfold block_tokens.
  assert (∀ l : list Z, take (N.to_nat bs) (drop (N.to_nat (i * bs)) l)
    = drop (N.to_nat (i * bs)) (take (N.to_nat ((i + 1) * bs)) l)) as Ht.
  { intros l. rewrite skipn_firstn_comm. f_equal. lia. }
  by rewrite !Ht, Heq.
Qed.
Lemma take_le_eq (t t' : list Z) n m : (n ≤ m)%nat → take m t = take m t' → take n t = take n t'.
Proof.
  intros Hn Heq. assert (∀ l : list Z, take n l = take n (take m l)) as Ht
    by (intros l; rewrite take_take; f_equal; lia).
  by rewrite (Ht t), (Ht t'), Heq.
Qed.
Lemma chain_prefix_take (t t' : list Z) n :
  take (N.to_nat (N.of_nat n * bs)) t = take (N.to_nat (N.of_nat n * bs)) t' →
  chain_prefix chain t bs n = chain_prefix chain t' bs n.
Proof.
  induction n as [|n IH]; [done|]. intros Heq. cbn [chain_prefix]. f_equal.
  - apply IH. eapply take_le_eq; [|exact Heq]. lia.
  - apply block_tokens_take. by replace (N.of_nat n + 1) with (N.of_nat (S n)) by lia.
Qed.
Lemma chain_prefix_app (t k : list Z) n :
  N.of_nat n * bs ≤ len t → chain_prefix chain (t ++ k) bs n = chain_prefix chain t bs n.
Proof. intros Hn. apply chain_prefix_take. rewrite take_app_le; [done|]. unfold len in Hn. lia. Qed.

(** Two contexts with the same chain hash agree on the blocks hashed. *)
Definition collision_free (Ctx : list Z → Prop) : Prop :=
  ∀ t t' n n', Ctx t → Ctx t' → N.of_nat n * bs ≤ len t → N.of_nat n' * bs ≤ len t' →
    chain_prefix chain t bs n = chain_prefix chain t' bs n' →
    take (N.to_nat (N.of_nat n * bs)) t = take (N.to_nat (N.of_nat n' * bs)) t'.

Lemma block_tokens_split (t : list Z) (i : N) :
  take (N.to_nat ((i + 1) * bs)) t = take (N.to_nat (i * bs)) t ++ block_tokens t bs i.
Proof.
  unfold block_tokens. rewrite <-(take_drop (N.to_nat (i * bs)) t) at 1.
  rewrite take_app, take_take. f_equal; [f_equal; lia|].
  destruct (decide (N.to_nat (i * bs) ≤ length t)%nat).
  - rewrite length_take. f_equal. lia.
  - rewrite drop_ge by lia. by rewrite !take_nil.
Qed.
End chains.

(** ** Data of the invariant *)

(** A submission: the greedy ones have no sampler. *)
Record submission := mkSubmission {
  sub_prompt : list Z;
  sub_generation : GreedyGenerationConfig;
  sub_greedy : bool
}.

Definition eos_set (g : GreedyGenerationConfig) : gset Z := list_to_set (eos_token_ids g).

Section inv.
Context {P : Profile} {SM : Sampling} {CM : CausalModel} (chain : N → list Z → N).
Context (c : PagedKvCacheConfig) (trusted : Prop) (Ctx : list Z → Prop).

Abbreviation bs := (block_size c).
Abbreviation seqs s := (sequences (kv_cache s)).

(** Every published page holds the cells of its block of some context. *)
Definition published (mem : memory) (idx : gmap (N * list Z) N) : Prop :=
  ∀ k p, idx !! k = Some p → ∃ t (n : nat), Ctx t ∧ (N.of_nat n + 1) * bs ≤ len t ∧
    k = (chain_prefix chain t bs n, block_tokens t bs (N.of_nat n)) ∧
    ∀ o, o < bs → cells_of t !! N.to_nat (N.of_nat n * bs + o) = Some (mem (p, o)).

Record req_ok (mem : memory) (log : gmap N submission) (r : N) (a : ActiveRequest) (q : SequenceState) : Prop := {
  ro_history : history a = prompt a ++ generated a;
  ro_prompt : prompt a ≠ [];
  ro_room : len (generated a) < max_new_tokens (generation a);
  ro_len : len (prompt a) + max_new_tokens (generation a) ≤ max_sequence_length c;
  ro_eos : eos a = eos_set (generation a);
  ro_no_eos : ∀ t, t ∈ generated a → t ∉ eos a;
  ro_log : ∃ b, log !! r = Some (mkSubmission (prompt a) (generation a) b) ∧ (b = true → sampler a = None) ∧
    (trusted → b = true → greedy_run (prompt a) (generated a));
  ro_chain : chain_hash q = chain_prefix chain (history a) bs (N.to_nat (registered_blocks q));
  ro_committed : committed_tokens q ≤ len (history a);
  ro_holds : trusted → holds bs mem (pages q) (history a) (committed_tokens q);
  ro_ctx : trusted → Ctx (history a)
}.

Record pend_ok (log : gmap N submission) (p : PendingRequest) : Prop := {
  pe_prompt : pend_prompt p ≠ [];
  pe_room : 0 < max_new_tokens (pend_generation p);
  pe_len : len (pend_prompt p) + max_new_tokens (pend_generation p) ≤ max_sequence_length c;
  pe_log : ∃ b, log !! pend_id p = Some (mkSubmission (pend_prompt p) (pend_generation p) b) ∧
    (b = true → pend_sampler p = None);
  pe_ctx : trusted → Ctx (pend_prompt p)
}.

(** A finished generation: it stopped for a reason, and greedy ones are greedy decoding. *)
Definition fin_ok (log : gmap N submission) (f : FinishedGeneration) : Prop :=
  ∃ g b, log !! fin_request f = Some (mkSubmission (fin_prompt f) g b) ∧
    len (fin_generated f) ≤ max_new_tokens g ∧
    (stopped_on_eos f = true ↔ ∃ t, last (fin_generated f) = Some t ∧ t ∈ eos_set g) ∧
    (stopped_on_eos f = false → len (fin_generated f) = max_new_tokens g) ∧
    (trusted → b = true →
       fin_generated f = greedy_decode (eos_set g) (N.to_nat (max_new_tokens g)) (fin_prompt f)).

Definition request_budget (a : ActiveRequest) : N := request_page_budget (len (prompt a)) (generation a) bs.
Definition budgets (m : gmap N ActiveRequest) : N := msum request_budget m.

Record core (mem : memory) (log : gmap N submission) (s : ContinuousBatchScheduler) : Prop := {
  co_wf : wf (kv_cache s);
  co_config : config (kv_cache s) = c;
  co_limit : 0 < max_batch_tokens (sc_config s) ≤ usize_max;
  co_active : 0 < max_active_sequences (sc_config s);
  co_chunk : prefill_chunk_tokens s ≠ Some 0;
  co_spec : ∀ sc, speculative s = Some sc → 0 < draft_tokens sc < usize_max;
  co_dom : ∀ r, is_Some (active s !! r) ↔ is_Some (seqs s !! r);
  co_req : ∀ r a q, active s !! r = Some a → seqs s !! r = Some q → req_ok mem log r a q;
  co_pend : ∀ p, p ∈ pending_requests s → pend_ok log p;
  co_pend_nodup : NoDup (pend_id <$> pending_requests s);
  co_pend_new : ∀ p, p ∈ pending_requests s → active s !! pend_id p = None;
  co_ids : ∀ r, is_Some (log !! r) → r < next_request s;
  co_fin : ∀ f, f ∈ finished s → fin_ok log f;
  co_pub : trusted → published mem (block_index (kv_cache s));
  co_counts : accepted_draft_tokens s ≤ drafted_tokens s;
  co_budget : kv_admission (options s) = ReserveSequenceCapacity → budgets (active s) ≤ num_pages c;
  co_pend_budget : kv_admission (options s) = ReserveSequenceCapacity → ∀ p, p ∈ pending_requests s →
    request_page_budget (len (pend_prompt p)) (pend_generation p) bs ≤ num_pages c
}.

(** A request that is in no batch. *)
Definition idle_ok (a : ActiveRequest) (q : SequenceState) : Prop :=
  pending q = None ∧
  match phase a with
  | NeedsPrefill => committed_tokens q < len (history a)
  | AwaitingDecode t => committed_tokens q + 1 = len (history a) ∧ last (history a) = Some t
  | InFlight _ => False
  end.

Record upto (mem : memory) (log : gmap N submission) (s : ContinuousBatchScheduler)
    (rs : list ScheduledSequence) (F : ScheduledSequence → ActiveRequest → SequenceState → Prop) : Prop := {
  up_core : core mem log s;
  up_nodup : NoDup (request_id <$> rs);
  up_rows : ∀ row, row ∈ rs → ∃ a q, active s !! request_id row = Some a ∧
    seqs s !! request_id row = Some q ∧ F row a q;
  up_idle : ∀ r a q, active s !! r = Some a → seqs s !! r = Some q → r ∉ request_id <$> rs → idle_ok a q
}.

(** The tokens of a row: a piece of the history, or its last token and a draft. *)
Definition row_tokens (k : ScheduledBatchKind) (row : ScheduledSequence) (a : ActiveRequest) : Prop :=
  match k with
  | Prefill => context_length row ≤ len (history a) ∧
      token_ids row = take (length (token_ids row)) (drop (N.to_nat (start_pos row)) (history a))
  | Decode => ∃ t, token_ids row = [t] ∧ last (history a) = Some t ∧ context_length row = len (history a)
  | Verify => ∃ t d, token_ids row = t :: d ∧ last (history a) = Some t ∧
      start_pos row + 1 = len (history a) ∧ sampler a = None ∧
      len (generated a) + 2 ≤ max_new_tokens (generation a)
  end.
Definition prior (k : ScheduledBatchKind) (row : ScheduledSequence) : RequestPhase :=
  match k with
  | Prefill => NeedsPrefill
  | Decode | Verify => AwaitingDecode (hd 0%Z (token_ids row))
  end.

(** A row whose reservation is open. *)
Record row_open (rsv : gmap N ReservationState) (k : ScheduledBatchKind) (ph : RequestPhase)
    (row : ScheduledSequence) (a : ActiveRequest) (q : SequenceState) : Prop := {
  rw_phase : phase a = ph;
  rw_pending : pending q = Some (reservation_id row);
  rw_start : start_pos row = committed_tokens q;
  rw_context : context_length row = start_pos row + len (token_ids row);
  rw_table : row_table row `prefix_of` pages q;
  rw_pages : div_ceil (context_length row) bs ≤ len (row_table row);
  rw_resv : ∃ rv, rsv !! reservation_id row = Some rv ∧ 0 < len (token_ids row) ≤ token_count rv;
  rw_tokens : row_tokens k row a
}.

(** The rows of a batch of kind [k] are reserved. *)
Definition opened (mem : memory) (log : gmap N submission) (s : ContinuousBatchScheduler)
    (k : ScheduledBatchKind) (rs : list ScheduledSequence) (ph : ScheduledSequence → RequestPhase) : Prop :=
  upto mem log s rs (λ row, row_open (reservations (kv_cache s)) k (ph row) row).

Definition batch_tokens (rs : list ScheduledSequence) : N := foldr (λ row n, len (token_ids row) + n) 0 rs.

Record batch_ok (s : ContinuousBatchScheduler) (b : ScheduledBatch) : Prop := {
  bo_rows : rows b ≠ [];
  bo_id : batch_id b < next_batch s;
  bo_tokens : batch_tokens (rows b) ≤ max_batch_tokens (sc_config s);
  bo_width : ∀ row, row ∈ rows b → len (token_ids row) = next_n b
}.

Definition inv (mem : memory) (log : gmap N submission) (s : ContinuousBatchScheduler) : Prop :=
  match in_flight s with
  | None => opened mem log s Prefill [] (λ _, NeedsPrefill)
  | Some b => opened mem log s (batch_kind b) (rows b) (λ _, InFlight (batch_id b)) ∧ batch_ok s b
  end.

(** ** Published pages *)

Lemma published_sub mem idx idx' : idx' ⊆ idx → published mem idx → published mem idx'.
Proof. intros Hsub Hp k p Hk. apply Hp. by eapply lookup_weaken. Qed.
Lemma published_mem mem mem' idx :
  (∀ k p o, idx !! k = Some p → o < bs → mem' (p, o) = mem (p, o)) → published mem idx → published mem' idx.
Proof.
  intros Hm Hp k p Hk. destruct (Hp k p Hk) as (t & n & Ht & Hn & Hkey & Hc). exists t, n.
  do 3 (split; [done|]). intros o Ho. rewrite (Hm k p o) by done. by apply Hc.
Qed.

(** A block found for a context holds the cells of that context. *)
Lemma published_hit mem idx tokens (i : nat) p :
  0 < bs → collision_free chain bs Ctx → published mem idx → Ctx tokens →
  (N.of_nat i + 1) * bs ≤ len tokens → cached_block chain idx tokens bs i = Some p →
  ∀ o, o < bs → cells_of tokens !! N.to_nat (N.of_nat i * bs + o) = Some (mem (p, o)).
Proof.
  intros Hbs Hcf Hpub Hctx Hi Hp o Ho. destruct (Hpub _ _ Hp) as (t & n & Ht & Hn & [= Hch Hbt] & Hc).
  pose proof (Hcf tokens t i n Hctx Ht ltac:(lia) ltac:(lia) Hch) as Heq.
  assert (i = n) as <-.
  { apply (f_equal length) in Heq. rewrite !length_take in Heq. unfold len in *. nia. }
  rewrite <-(Hc o) by done. apply (cells_of_lookup _ _ (N.to_nat ((N.of_nat i + 1) * bs))); [|lia].
  rewrite !block_tokens_split. by rewrite Heq, Hbt.
Qed.

Lemma locate_block (tbl : list N) p i o :
  tbl !! i = Some p → o < bs → locate bs tbl (N.of_nat i * bs + o) = Some (p, o).
Proof.
  intros Hp Ho. unfold locate. rewrite N.div_add_l, N.div_small, N.add_0_r, Nat2N.id, Hp by lia. simpl.
  do 2 f_equal. rewrite N.add_comm, N.Div0.mod_add. by apply N.mod_small.
Qed.
Lemma pos_block (pos : N) : 0 < bs → pos = N.of_nat (N.to_nat (pos / bs)) * bs + pos mod bs ∧ pos mod bs < bs.
Proof.
  intros Hbs. destruct (div_mod_vars pos bs Hbs) as (d & m & -> & -> & -> & Hm). split; [lia|done].
Qed.

Lemma prefilled_holds mem idx tokens q :
  0 < bs → collision_free chain bs Ctx → published mem idx → Ctx tokens →
  prefilled chain bs idx tokens q → holds bs mem (pages q) tokens (committed_tokens q).
Proof.
  intros Hbs Hcf Hpub Hctx (_ & Hcom & _ & _ & Hlen & Hhits) pos Hpos.
  destruct (pos_block pos Hbs) as [Hp Ho]. set (i := N.to_nat (pos / bs)) in *. set (o := pos mod bs) in *.
  assert (i < length (pages q))%nat as Hi by (rewrite Hcom in Hpos; unfold len in *; nia).
  destruct (lookup_lt_is_Some_2 _ _ Hi) as [p Hpage]. exists (p, o).
  split; [rewrite Hp; by apply locate_block|]. rewrite Hp.
  eapply published_hit; [done|done|done|done| |by rewrite Hhits|done]. unfold len in *. nia.
Qed.

(** ** Changing the state *)

Lemma wp_kv {A} (m : M PagedKvCacheManager PagedKvError A) s Q R :
  wp m (kv_cache s) (λ a k, Q a (with_kv k s)) (λ e k, R (KvError e) (with_kv k s)) → wp (kv m) s Q R.
Proof. unfold wp, kv. by destruct (m (kv_cache s)) as [[] ?]. Qed.
(** A call that cannot fail. *)
Lemma wp_kv_ok {A} (m : M PagedKvCacheManager PagedKvError A) s Q R :
  wp m (kv_cache s) (λ a k, Q a (with_kv k s)) (λ _ _, False) → wp (kv m) s Q R.
Proof. intros H. apply wp_kv. by eapply wp_total. Qed.

(** Fields that the invariant does not mention. *)
Definition same_core (s s' : ContinuousBatchScheduler) : Prop :=
  kv_cache s' = kv_cache s ∧ sc_config s' = sc_config s ∧ prefill_chunk_tokens s' = prefill_chunk_tokens s ∧
  speculative s' = speculative s ∧ active s' = active s ∧ pending_requests s' = pending_requests s ∧
  next_request s' = next_request s ∧ finished s' = finished s ∧ options s' = options s ∧
  drafted_tokens s' = drafted_tokens s ∧ accepted_draft_tokens s' = accepted_draft_tokens s.
Lemma core_same mem log s s' : same_core s s' → core mem log s → core mem log s'.
Proof.
  intros (H1 & H2 & H3 & H4 & H5 & H6 & H7 & H8 & H9 & H10 & H11) [].
  split; rewrite ?H1, ?H2, ?H3, ?H4, ?H5, ?H6, ?H7, ?H8, ?H9, ?H10, ?H11; done.
Qed.
Lemma upto_same mem log s s' rs F : same_core s s' → upto mem log s rs F → upto mem log s' rs F.
Proof.
  intros Hs [Hc ???]. split; [by eapply core_same|done|..]; destruct Hs as (H1 & _ & _ & _ & H5 & _);
    rewrite ?H1, ?H5; done.
Qed.
Lemma opened_same mem log s s' k rs ph : same_core s s' → opened mem log s k rs ph → opened mem log s' k rs ph.
Proof.
  intros Hs Ho. unfold opened. pose proof Hs as (-> & _). by eapply upto_same.
Qed.

(** The rows may be described differently. *)
Lemma upto_mono mem log s rs F G :
  upto mem log s rs F →
  (∀ row a q, row ∈ rs → active s !! request_id row = Some a → seqs s !! request_id row = Some q →
     F row a q → G row a q) → upto mem log s rs G.
Proof.
  intros [] H. split; try done. intros row Hin. destruct (up_rows0 row Hin) as (a & q & ? & ? & ?). eauto 10.
Qed.

Lemma core_kv mem log s k :
  core mem log s → wf k → config k = c → (trusted → published mem (block_index k)) →
  (∀ r, is_Some (sequences k !! r) ↔ is_Some (seqs s !! r)) →
  (∀ r a q, active s !! r = Some a → sequences k !! r = Some q → req_ok mem log r a q) →
  core mem log (with_kv k s).
Proof. intros [] ? ? ? Hd ?. split; simpl; try done. intros r. by rewrite Hd. Qed.

Lemma req_ok_seq mem log r a q q' :
  req_ok mem log r a q → registered_blocks q' = registered_blocks q → chain_hash q' = chain_hash q →
  committed_tokens q' ≤ len (history a) →
  (trusted → holds bs mem (pages q') (history a) (committed_tokens q')) → req_ok mem log r a q'.
Proof. intros [] Hr Hc ? ?. split; rewrite ?Hr, ?Hc; done. Qed.
Lemma req_ok_phase mem log r a q p : req_ok mem log r a q → req_ok mem log r (set_phase p a) q.
Proof. by intros []. Qed.

Lemma budgets_same m r a a' :
  m !! r = Some a → prompt a' = prompt a → generation a' = generation a → budgets (<[r := a']> m) = budgets m.
Proof.
  intros Ha Hp Hg. unfold budgets. pose proof (msum_insert request_budget m r a a' Ha) as H.
  unfold request_budget in *. rewrite Hp, Hg in H. lia.
Qed.

(** Replacing an active request. *)
Lemma core_put mem log s r a a' q :
  core mem log s → active s !! r = Some a → seqs s !! r = Some q → req_ok mem log r a' q →
  prompt a' = prompt a → generation a' = generation a →
  core mem log (with_active (<[r := a']> (active s)) s).
Proof.
  intros [] Ha Hq Hok Hp Hg. split; simpl; try done.
  - intros r0. rewrite lookup_insert. case_decide; [subst; split; eauto|done].
  - intros r0 a0 q0. rewrite lookup_insert_Some. intros [[<- <-]|[_ Ha0]] Hq0; [by simplify_eq|eauto].
  - intros p Hp0. rewrite lookup_insert_None. split; [by apply co_pend_new0|]. intros ->.
    rewrite co_pend_new0 in Ha; done.
  - intros Hadm. rewrite (budgets_same _ _ a); [eauto|done..].
Qed.
(** Replacing an active request and its sequence. *)
Lemma core_swap mem log s r a a' q q' k :
  core mem log s → active s !! r = Some a → seqs s !! r = Some q → wf k → config k = c →
  (trusted → published mem (block_index k)) → sequences k = <[r := q']> (seqs s) → req_ok mem log r a' q' →
  prompt a' = prompt a → generation a' = generation a →
  core mem log (with_kv k (with_active (<[r := a']> (active s)) s)).
Proof.
  intros [] Ha Hq Hwf Hc Hpub Hs Hok Hp Hg. split; simpl; try done.
  - intros r0. rewrite Hs, !lookup_insert. case_decide; [split; eauto|done].
  - intros r0 a0 q0. rewrite Hs, !lookup_insert_Some.
    intros [[<- <-]|[? Ha0]] [[? <-]|[? Hq0]]; [done|done|done|eauto].
  - intros p Hp0. rewrite lookup_insert_None. split; [by apply co_pend_new0|]. intros ->.
    rewrite co_pend_new0 in Ha; done.
  - intros Hadm. rewrite (budgets_same _ _ a); [eauto|done..].
Qed.
(** Taking an active request and its sequence out. *)
Lemma core_drop mem log s r a k :
  core mem log s → active s !! r = Some a → wf k → config k = c → (trusted → published mem (block_index k)) →
  sequences k = delete r (seqs s) →
  core mem log (with_kv k (with_active (delete r (active s)) s)).
Proof.
  intros [] Ha Hwf Hc Hpub Hs. split; simpl; try done.
  - intros r0. rewrite Hs, !lookup_delete. case_decide; [split; by intros []|done].
  - intros r0 a0 q0. rewrite Hs, !lookup_delete_Some. intros [_ ?] [_ ?]. eauto.
  - intros p Hp. rewrite lookup_delete. case_decide; [done|]. by apply co_pend_new0.
  - intros Hadm. pose proof (msum_delete request_budget _ _ _ Ha). specialize (co_budget0 Hadm).
    unfold budgets in *. lia.
Qed.
(** Adding a finished generation. *)
Lemma core_finish mem log s f : core mem log s → fin_ok log f → core mem log (with_finished (finished s ++ [f]) s).
Proof.
  intros [] Hf. split; simpl; try done. intros f0 [?| ->%list_elem_of_singleton]%elem_of_app; eauto.
Qed.
End inv.
