(* ===== verification/SchedulerPlan.v ===== *)
(** * Building batches

    Admission of waiting requests, the three kinds of batches, preemption and [schedule]:
    each keeps the invariant, does not panic and does not fail. *)

From S2P Require Export SchedulerInv.
Open Scope N_scope.

(** ** Row loops *)

(** A sequence with its open reservation cancelled. *)
Definition reset (bs : N) (q : SequenceState) : SequenceState :=
  mkSequence (committed_tokens q) (take (N.to_nat (div_ceil (committed_tokens q) bs)) (pages q)) None
    (registered_blocks q) (chain_hash q).

Lemma reset_begun s s' r n rv :
  wf s → begun s s' r n rv →
  reset (block_size (config s)) <$> sequences s' = reset (block_size (config s)) <$> sequences s.
Proof.
  intros Hwf (q & fresh & Hq & Hp & _ & _ & _ & Hs & _). rewrite Hs. apply map_eq. intros r0.
  rewrite !lookup_fmap, lookup_insert. case_decide; [subst r0|done]. rewrite Hq. simpl. f_equal.
  unfold reset; simpl. f_equal. destruct (wf_seqs _ _ Hwf _ _ Hq) as [_ Hl]. rewrite Hp in Hl.
  rewrite take_app_le; [done|]. unfold len in Hl. lia.
Qed.

Lemma can_append_ok `{Profile} r n q s :
  sequences s !! r = Some q →
  wp (can_append r n) s (λ b s', s' = s ∧ (b = true ↔ appendable s r n)) (λ _ _, False).
Proof.
  intros Hq. assert (wp (can_append r n) s (λ _ _, True) (λ _ _, False)) as Hno.
  { unfold can_append. wp_step; [done|]. wp_step. apply sequence_spec; [|congruence]. intros q' _.
    wp_step; [done|]. wp_step; [|done]. wp_step. wp_step. wp_step; [done|]. wp_step. wp_step. done. }
  eapply wp_wand; [apply (wp_conj _ _ _ _ _ _ (can_append_admission r n s) Hno)| |]; naive_solver.
Qed.

Section plan.
Context {P : Profile} {SM : Sampling} {CM : CausalModel} (chain : N → list Z → N).
Context (c : PagedKvCacheConfig) (trusted : Prop) (Ctx : list Z → Prop).
Context (mem : memory) (log : gmap N submission).

Abbreviation bs := (block_size c).
Abbreviation seqs s := (sequences (kv_cache s)).
Abbreviation core := (core chain c trusted Ctx mem log).
Abbreviation upto := (upto chain c trusted Ctx mem log).
Abbreviation opened := (opened chain c trusted Ctx mem log).
Abbreviation req_ok := (req_ok chain c trusted Ctx mem log).

Lemma begun_keeps s k r n rv r0 q0 :
  begun (kv_cache s) k r n rv → r0 ≠ r → seqs s !! r0 = Some q0 → sequences k !! r0 = Some q0.
Proof. intros (q & fresh & _ & _ & _ & _ & _ & -> & _) Hne Hq0. by rewrite lookup_insert_ne. Qed.

(** Reserving a row. *)
Lemma opened_begin s k kind rs r n ts rv a :
  opened s kind rs (prior kind) → r ∉ request_id <$> rs → active s !! r = Some a →
  begun (kv_cache s) k r n rv → wf k → quiet (kv_cache s) k → 0 < n → len ts = n →
  row_tokens kind (scheduled_sequence rv ts) a → phase a = prior kind (scheduled_sequence rv ts) →
  opened (with_kv k s) kind (rs ++ [scheduled_sequence rv ts]) (prior kind).
Proof.
  intros [Hcore Hnd Hrows Hidle] Hr Ha Hb Hwf Hqt Hn Hts Htok Hph.
  pose proof (co_wf _ _ _ _ _ _ _ Hcore) as Hwf0. pose proof (co_config _ _ _ _ _ _ _ Hcore) as Hc0.
  pose proof Hb as (q & fresh & Hq & Hp & Hrv & Hc & _ & Hs & Hrs & _ & Hl & _).
  assert (request_id (scheduled_sequence rv ts) = r) as Hrid by by rewrite Hrv.
  pose proof (co_req _ _ _ _ _ _ _ Hcore _ _ _ Ha Hq) as Hreq.
  set (q' := mkSequence (committed_tokens q) (pages q ++ fresh) (Some (next_reservation (kv_cache s)))
    (registered_blocks q) (chain_hash q)) in *.
  assert (req_ok r a q') as Hreq'.
  { eapply req_ok_seq; [exact Hreq|done|done|apply Hreq|]. intros Ht. simpl.
    eapply holds_prefix; [by apply prefix_app_r|]. by apply Hreq. }
  split.
  - apply core_kv; [done|done|congruence|..].
    + intros Ht. eapply published_sub; [apply Hqt|]. by apply Hcore.
    + intros r0. rewrite Hs, lookup_insert. case_decide; [subst; split; eauto|done].
    + intros r0 a0 q0 Ha0. rewrite Hs, lookup_insert_Some. intros [[<- <-]|[_ Hq0]]; [by simplify_eq|].
      by eapply Hcore.
  - rewrite fmap_app. apply NoDup_app. split; [done|]. split; [|apply NoDup_singleton].
    intros x Hx ->%list_elem_of_singleton. by rewrite Hrid in Hx.
  - intros row [Hin| ->%list_elem_of_singleton]%elem_of_app; cbn [with_kv active kv_cache].
    + destruct (Hrows row Hin) as (a0 & q0 & Ha0 & Hq0 & Ho). exists a0, q0. split; [done|].
      split; [eapply begun_keeps; [done| |done]; intros Heq; apply Hr; rewrite <-Heq; by apply list_elem_of_fmap_2|].
      destruct Ho as [? ? ? ? ? ? (rv0 & Hrv0 & ?) ?]. split; try done. exists rv0. split; [|done].
      rewrite Hrs, lookup_insert_ne; [done|]. intros Heq. rewrite <-Heq in Hrv0.
      destruct (wf_resv _ _ Hwf0 _ _ Hrv0). lia.
    + exists a, q'. rewrite Hrid, Hs, lookup_insert_eq. split; [done|]. split; [done|].
      rewrite Hrv in *. split; simpl; try done.
      * by rewrite Hts.
      * rewrite Hl, Hc0. done.
      * eexists. rewrite Hrs, lookup_insert_eq. split; [done|]. simpl. lia.
  - intros r0 a0 q0 Ha0. simpl. rewrite Hs, fmap_app. intros Hq0 Hnin.
    apply not_elem_of_app in Hnin as [Hnin Hne].
    cbn [fmap list_fmap] in Hne. rewrite Hrid, list_elem_of_singleton in Hne. rewrite lookup_insert_ne in Hq0 by done. by eapply Hidle.
Qed.

(** The state of a row loop: the rows of [rs] are reserved, nothing else has changed. *)
Record growing (s0 s : ContinuousBatchScheduler) (kind : ScheduledBatchKind) (n : N)
    (rs : list ScheduledSequence) : Prop := {
  gr_opened : opened s kind rs (prior kind);
  gr_kv : s = with_kv (kv_cache s) s0;
  gr_spend : spend (kv_cache s) = spend (kv_cache s0);
  gr_reset : reset bs <$> seqs s = reset bs <$> seqs s0;
  gr_reused : reused_tokens (kv_cache s) = reused_tokens (kv_cache s0);
  gr_tick : next_tick (kv_cache s) = next_tick (kv_cache s0);
  gr_width : ∀ row, row ∈ rs → len (token_ids row) = n;
  gr_none : rs = [] → kv_cache s = kv_cache s0
}.

Lemma growing_committed s0 s kind n rs r q :
  growing s0 s kind n rs → seqs s !! r = Some q →
  ∃ q0, seqs s0 !! r = Some q0 ∧ committed_tokens q0 = committed_tokens q.
Proof.
  intros Hg Hq. pose proof (f_equal (λ m : gmap N SequenceState, m !! r) (gr_reset _ _ _ _ _ Hg)) as Hr. simpl in Hr.
  rewrite !lookup_fmap, Hq in Hr. destruct (seqs s0 !! r) as [q0|]; [|done]. simpl in Hr.
  exists q0. split; [done|]. by injection Hr.
Qed.

(** One more row for candidate [r]. *)
Definition adds_row (s0 : ContinuousBatchScheduler) (kind : ScheduledBatchKind) (n r : N)
    (step : list ScheduledSequence → M ContinuousBatchScheduler ContinuousBatchError ScheduledSequence) : Prop :=
  ∀ s rs, growing s0 s kind n rs → r ∉ request_id <$> rs → appendable (kv_cache s) r n →
    next_reservation (kv_cache s) < u64_max →
    wp (step rs) s (λ row s', ∃ k rv ts a, s' = with_kv k s ∧ row = scheduled_sequence rv ts ∧
      begun (kv_cache s) k r n rv ∧ wf k ∧ quiet (kv_cache s) k ∧ spend k = spend (kv_cache s) ∧
      len ts = n ∧ active s !! r = Some a ∧ row_tokens kind row a ∧ phase a = prior kind row) (λ _ _, False).

Lemma growing_begin s0 s kind n rs r k rv ts a :
  growing s0 s kind n rs → r ∉ request_id <$> rs → 0 < n →
  begun (kv_cache s) k r n rv → wf k → quiet (kv_cache s) k → spend k = spend (kv_cache s) → len ts = n →
  active s !! r = Some a → row_tokens kind (scheduled_sequence rv ts) a →
  phase a = prior kind (scheduled_sequence rv ts) →
  growing s0 (with_kv k s) kind n (rs ++ [scheduled_sequence rv ts]).
Proof.
  intros [Ho Hs0 Hsp Hre Hru Hti Hw _] Hr Hn Hb Hwf Hqt Hspk Hts Ha Htok Hph.
  pose proof (co_wf _ _ _ _ _ _ _ (up_core _ _ _ _ _ _ _ _ _ Ho)) as Hwf0.
  pose proof (co_config _ _ _ _ _ _ _ (up_core _ _ _ _ _ _ _ _ _ Ho)) as Hc0.
  split; simpl.
  - by eapply opened_begin.
  - rewrite Hs0. done.
  - congruence.
  - rewrite <-Hre, <-Hc0. by eapply reset_begun.
  - destruct Hqt as (_ & -> & _). done.
  - destruct Hqt as (_ & _ & ->). done.
  - intros row [Hin| ->%list_elem_of_singleton]%elem_of_app; [by apply Hw|done].
  - intros Hnil. by destruct rs.
Qed.

(** The loop common to the three kinds of batches. *)
Section rows_loop.
Context {A : Type} (rid : A → N) (n max_rows : N) (kind : ScheduledBatchKind) (s0 : ContinuousBatchScheduler).
Context (step : A → list ScheduledSequence → M ContinuousBatchScheduler ContinuousBatchError ScheduledSequence).
Context (loop : list A → list ScheduledSequence →
  M ContinuousBatchScheduler ContinuousBatchError (list ScheduledSequence)).
Context (Hnil : ∀ rs s, loop [] rs s = (Ok rs, s)).
Context (Hcons : ∀ x xs rs s, loop (x :: xs) rs s =
  (if max_rows <=? len rs then ret rs
   else let! fits := kv (can_append (rid x) n) in
        if negb fits then loop xs rs
        else let! row := step x rs in loop xs (rs ++ [row])) s).

Lemma rows_loop_spec xs rs s :
  growing s0 s kind n rs → 0 < n → len rs ≤ max_rows →
  NoDup (rid <$> xs) → (∀ x, x ∈ xs → rid x ∉ request_id <$> rs) →
  (∀ x, x ∈ xs → is_Some (active s0 !! rid x)) →
  (∀ x, x ∈ xs → adds_row s0 kind n (rid x) (step x)) →
  next_reservation (kv_cache s) + len xs ≤ u64_max →
  wp (loop xs rs) s
    (λ rs' s', growing s0 s' kind n rs' ∧ len rs' ≤ max_rows ∧ rs `prefix_of` rs' ∧
       (rs' = [] → max_rows = 0 ∨ ∀ x, x ∈ xs → ¬ appendable (kv_cache s0) (rid x) n))
    (λ _ _, False).
Proof using P Hnil Hcons.
  revert rs s. induction xs as [|x xs IH]; intros rs s Hg Hn Hmax Hnd Hnew Hact Hadd Hres.
  { unfold wp. rewrite Hnil. do 3 (split; [done|]). intros _. right. by intros ? ?%elem_of_nil. }
  unfold wp. rewrite Hcons. change (wp (if max_rows <=? len rs then ret rs else
    let! fits := kv (can_append (rid x) n) in
      if negb fits then loop xs rs else let! row := step x rs in loop xs (rs ++ [row])) s
    (λ rs' s', growing s0 s' kind n rs' ∧ len rs' ≤ max_rows ∧ rs `prefix_of` rs' ∧
       (rs' = [] → max_rows = 0 ∨ ∀ y, y ∈ x :: xs → ¬ appendable (kv_cache s0) (rid y) n)) (λ _ _, False)).
  assert (len (x :: xs) = 1 + len xs) as Hl by (unfold len; simpl; lia). rewrite Hl in Hres.
  rewrite fmap_cons in Hnd. apply NoDup_cons in Hnd as [Hnin Hnd'].
  destruct (N.leb_spec max_rows (len rs)) as [Hfull|Hfull].
  { wp_step. do 3 (split; [done|]). intros ->. left. unfold len in Hfull. simpl in Hfull. lia. }
  pose proof (up_core _ _ _ _ _ _ _ _ _ (gr_opened _ _ _ _ _ Hg)) as Hcore.
  destruct (Hact x) as [a Ha]; [by left|].
  assert (active s = active s0) as Hact0 by (rewrite (gr_kv _ _ _ _ _ Hg); done).
  destruct (proj1 (co_dom _ _ _ _ _ _ _ Hcore (rid x))) as [q Hq]; [rewrite Hact0; eauto|].
  wp_step. apply wp_kv_ok. eapply wp_wand; [by eapply can_append_ok| |done]. cbn beta.
  intros fits k [-> Hfits]. replace (with_kv (kv_cache s) s) with s by by destruct s.
  destruct fits; simpl.
  - wp_step. eapply wp_wand; [apply Hadd; [by left|done|apply Hnew; by left|by apply Hfits|lia]| |done].
    cbn beta. intros row s' (k & rv & ts & a' & -> & -> & Hb & Hwf & Hqt & Hsp & Hts & Ha' & Htok & Hph).
    assert (request_id (scheduled_sequence rv ts) = rid x) as Hrid.
    { destruct Hb as (? & ? & _ & _ & -> & _). done. }
    eapply wp_mono; [apply IH; try done|].
    + eapply growing_begin; [done|apply Hnew; by left|done..].
    + rewrite len_app. unfold len in *. simpl. lia.
    + intros y Hy. rewrite fmap_app. intros [Hin|Hin]%elem_of_app.
      * apply (Hnew y); [by right|done].
      * apply list_elem_of_singleton in Hin. rewrite Hrid in Hin. apply Hnin. rewrite <-Hin.
        by apply list_elem_of_fmap_2.
    + intros y Hy. apply Hact. by right.
    + intros y Hy. apply Hadd. by right.
    + destruct Hb as (? & ? & _ & _ & _ & _ & _ & _ & _ & Hnr & _). simpl. lia.
    + cbn beta. intros rs' s' (Hg' & Hm' & Hpre & _). split; [done|]. split; [done|].
      split; [etrans; [by apply prefix_app_r|exact Hpre]|].
      intros ->. apply prefix_nil_inv in Hpre. by destruct rs.
  - eapply wp_mono; [apply IH; try done|].
    + intros y Hy. apply Hnew. by right.
    + intros y Hy. apply Hact. by right.
    + intros y Hy. apply Hadd. by right.
    + lia.
    + cbn beta. intros rs' s' (Hg' & Hm' & Hpre & Hend). do 3 (split; [done|]).
      intros Hrs. destruct (Hend Hrs) as [?|Hall]; [by left|]. right.
      intros y [->|Hy]%elem_of_cons; [|by apply Hall].
      subst rs'. apply prefix_nil_inv in Hpre. rewrite <-(gr_none _ _ _ _ _ Hg Hpre). by intros ?%Hfits.
Qed.
End rows_loop.

Lemma bind_assoc {S E A B C} (m : M S E A) (f : A → M S E B) (g : B → M S E C) s :
  bind (bind m f) g s = bind m (λ a, bind (f a) g) s.
Proof. unfold bind. by destruct (m s) as [[] ?]. Qed.
Lemma bind_ext {S E A B} (m : M S E A) (f g : A → M S E B) s :
  (∀ a s', f a s' = g a s') → bind m f s = bind m g s.
Proof. intros H. unfold bind. destruct (m s) as [[] ?]; [apply H|done..]. Qed.

Lemma begin_row_ok s kind n rs r (ts : list Z) a (m : M ContinuousBatchScheduler ContinuousBatchError PagedKvAppendReservation) :
  (∀ k rv, begin_append r n (kv_cache s) = (Ok rv, k) → m s = (Ok rv, with_kv k s)) →
  opened s kind rs (prior kind) → appendable (kv_cache s) r n → next_reservation (kv_cache s) < u64_max →
  len ts = n → active s !! r = Some a →
  (∀ rv q, seqs s !! r = Some q → ar_start_position rv = committed_tokens q →
     ar_context_length rv = committed_tokens q + n →
     row_tokens kind (scheduled_sequence rv ts) a ∧ phase a = prior kind (scheduled_sequence rv ts)) →
  wp (let! rv := m in ret (scheduled_sequence rv ts)) s
    (λ row s', ∃ k rv ts a, s' = with_kv k s ∧ row = scheduled_sequence rv ts ∧
      begun (kv_cache s) k r n rv ∧ wf k ∧ quiet (kv_cache s) k ∧ spend k = spend (kv_cache s) ∧
      len ts = n ∧ active s !! r = Some a ∧ row_tokens kind row a ∧ phase a = prior kind row) (λ _ _, False).
Proof.
  intros Hm Ho Happ Hnr Hts Ha Htok.
  pose proof (co_wf _ _ _ _ _ _ _ (up_core _ _ _ _ _ _ _ _ _ Ho)) as Hwf0.
  pose proof (begin_append_ok r n (kv_cache s) Hwf0 Hnr Happ) as Hb. unfold wp in Hb.
  destruct (begin_append r n (kv_cache s)) as [[rv|e|] k] eqn:Hrun; [|done..].
  destruct Hb as (Hwf & Hb & Hqt & Hsp). unfold wp, bind. rewrite (Hm k rv) by done.
  exists k, rv, ts, a. pose proof Hb as (q & fresh & Hq & _ & Hrv & _).
  destruct (Htok rv q Hq) as [? ?]; [by rewrite Hrv..|].
  do 2 (split; [done|]). split; [done|]. do 4 (split; [done|]). done.
Qed.
Lemma begin_or_rollback_run r n rs s k rv :
  begin_append r n (kv_cache s) = (Ok rv, k) → begin_or_rollback r n rs s = (Ok rv, with_kv k s).
Proof. intros H. unfold begin_or_rollback, kv. by rewrite H. Qed.
Lemma kv_begin_run r n s k rv :
  begin_append r n (kv_cache s) = (Ok rv, k) → kv (begin_append r n) s = (Ok rv, with_kv k s).
Proof. intros H. unfold kv. by rewrite H. Qed.

(** *** The three kinds *)

Lemma decode_rows_cons max_rows x xs rs s :
  decode_rows max_rows (x :: xs) rs s =
  (if max_rows <=? len rs then ret rs
   else let! fits := kv (can_append x.1 1) in
        if negb fits then decode_rows max_rows xs rs
        else let! row := (let! rv := begin_or_rollback x.1 1 rs in ret (scheduled_sequence rv [x.2])) in
             decode_rows max_rows xs (rs ++ [row])) s.
Proof.
  destruct x as [r t]. simpl. destruct (max_rows <=? len rs); [done|]. apply bind_ext. intros fits s'.
  destruct fits; simpl; [|done]. by rewrite bind_assoc.
Qed.

Lemma verify_rows_cons max_rows width drafts x xs rs s :
  verify_rows max_rows width drafts (x :: xs) rs s =
  (if max_rows <=? len rs then ret rs
   else let! fits := kv (can_append x.1.1 width) in
        if negb fits then verify_rows max_rows width drafts xs rs
        else let! row := (let! rv := kv (begin_append x.1.1 width) in
                          ret (scheduled_sequence rv (x.1.2 :: pad_draft x.2 drafts))) in
             verify_rows max_rows width drafts xs (rs ++ [row])) s.
Proof.
  destruct x as [[r t] d]. simpl. destruct (max_rows <=? len rs); [done|]. apply bind_ext. intros fits s'.
  destruct fits; simpl; [|done]. by rewrite bind_assoc.
Qed.

Definition prefill_step (n r : N) (rs : list ScheduledSequence) :
    M ContinuousBatchScheduler ContinuousBatchError ScheduledSequence :=
  let! act := gets active in
  let! a := expect (act !! r) in
  let! chunk := prefill_chunk r a in
  let! _ := debug_assert (chunk.1.2 =? n) in
  let! _ := if len (history a) <? chunk.1.1 + chunk.1.2 then panic else ret tt in
  let! rv := begin_or_rollback r n rs in
  ret (scheduled_sequence rv (take (N.to_nat chunk.1.2) (drop (N.to_nat chunk.1.1) (history a)))).

Lemma prefill_rows_cons max_rows n r xs rs s :
  prefill_rows max_rows n (r :: xs) rs s =
  (if max_rows <=? len rs then ret rs
   else let! fits := kv (can_append r n) in
        if negb fits then prefill_rows max_rows n xs rs
        else let! row := prefill_step n r rs in prefill_rows max_rows n xs (rs ++ [row])) s.
Proof.
  simpl. destruct (max_rows <=? len rs); [done|]. apply bind_ext. intros fits s'.
  destruct fits; simpl; [|done]. unfold prefill_step. rewrite bind_assoc. apply bind_ext. intros act s1.
  rewrite bind_assoc. apply bind_ext. intros a s2. rewrite bind_assoc. apply bind_ext. intros [[start l] fin] s3.
  simpl. rewrite bind_assoc. apply bind_ext. intros u s4. rewrite bind_assoc. apply bind_ext. intros v s5.
  rewrite bind_assoc. by apply bind_ext.
Qed.

(** ** Sealing a batch *)

Lemma batch_tokens_width rs n : (∀ row, row ∈ rs → len (token_ids row) = n) → batch_tokens rs = len rs * n.
Proof.
  induction rs as [|row rs IH]; intros H; [done|]. simpl. rewrite IH by (intros; apply H; by right).
  rewrite H by by left. unfold len. simpl. lia.
Qed.

(** The requests of the rows [rs] get the phases [ph]. *)
Definition phased (rs : list ScheduledSequence) (ph : ScheduledSequence → RequestPhase)
    (m m' : gmap N ActiveRequest) : Prop :=
  (∀ row, row ∈ rs → m' !! request_id row = set_phase (ph row) <$> m !! request_id row) ∧
  ∀ r, r ∉ request_id <$> rs → m' !! r = m !! r.

Lemma row_tokens_phase kind row a ph : row_tokens kind row a → row_tokens kind row (set_phase ph a).
Proof. by destruct kind. Qed.
Lemma row_open_phase rsv kind ph ph' row a q :
  row_open c rsv kind ph row a q → row_open c rsv kind ph' row (set_phase ph' a) q.
Proof. intros []. split; try done. Qed.

Lemma set_phases_spec s rs ph (body : ScheduledSequence → M ContinuousBatchScheduler ContinuousBatchError unit) R :
  (∀ row s a, row ∈ rs → active s !! request_id row = Some a →
     body row s = (Ok tt, with_active (<[request_id row := set_phase (ph row) a]> (active s)) s)) →
  core s → NoDup (request_id <$> rs) → (∀ row, row ∈ rs → is_Some (active s !! request_id row)) →
  wp (for_each rs body) s
    (λ _ s', core s' ∧ s' = with_active (active s') s ∧ phased rs ph (active s) (active s')) R.
Proof.
  intros Hbody Hcore Hnd Hact. revert s Hcore Hact.
  induction rs as [|row rs IH]; intros s Hcore Hact.
  { apply wp_ret. split; [done|]. split; [by destruct s|]. split; [by intros ? ?%elem_of_nil|done]. }
  destruct (Hact row) as [a Ha]; [by left|]. rewrite fmap_cons in Hnd. apply NoDup_cons in Hnd as [Hnin Hnd'].
  destruct (proj1 (co_dom _ _ _ _ _ _ _ Hcore (request_id row))) as [q Hq]; [eauto|].
  cbn [for_each]. wp_step. unfold wp at 1. rewrite (Hbody row s a) by (done || by left).
  set (s1 := with_active _ s). eapply wp_mono; [apply (IH ltac:(intros; apply Hbody; [by right|done]) Hnd' s1)|].
  - eapply core_put; [done|done|done| |done|done]. apply req_ok_phase. by eapply Hcore.
  - intros row' Hin. simpl. rewrite lookup_insert. case_decide; [eauto|]. apply Hact. by right.
  - cbn beta. intros _ s' (Hcore' & Hs' & Hin' & Hout'). split; [done|]. split; [rewrite Hs'; by destruct s|]. split.
    + intros row' [->|Hin]%elem_of_cons.
      * rewrite Hout' by done. simpl. by rewrite lookup_insert_eq, Ha.
      * rewrite Hin' by done. simpl. rewrite lookup_insert_ne; [done|]. intros Heq. apply Hnin.
        rewrite Heq. by apply list_elem_of_fmap_2.
    + intros r. rewrite fmap_cons, not_elem_of_cons. intros [Hne Hr]. rewrite Hout' by done. simpl.
      by rewrite lookup_insert_ne.
Qed.

Lemma finish_schedule_spec s kind rs n :
  opened s kind rs (prior kind) → (∀ row, row ∈ rs → len (token_ids row) = n) →
  len rs * n ≤ max_batch_tokens (sc_config s) → next_batch s < u64_max →
  wp (finish_schedule kind rs) s
    (λ ob s', match ob with
       | None => rs = [] ∧ s' = s
       | Some b => b = mkBatch (next_batch s) kind rs ∧ opened s' kind rs (λ _, InFlight (batch_id b)) ∧
           batch_ok s' b ∧ s' = with_active (active s') (with_next_batch (next_batch s + 1) s) ∧
           phased rs (λ _, InFlight (batch_id b)) (active s) (active s')
       end) (λ _ _, False).
Proof.
  intros Ho Hw Hlim Hnb. pose proof Ho as [Hcore Hnd Hrows Hidle]. unfold finish_schedule.
  destruct rs as [|row0 rs0] eqn:Hrs; [by wp_step|]. rewrite <-Hrs in *. wp_step. wp_step.
  unfold checked_add. rewrite (proj2 (N.leb_le _ _)) by lia. wp_step. wp_step.
  assert (existsb (λ row, bool_decide (active s !! request_id row = None)) rs = false) as ->.
  { apply not_true_is_false. intros (row & Hin & Hx%bool_decide_eq_true)%existsb_exists.
    destruct (Hrows row) as (a & _ & Ha & _); [by apply list_elem_of_In|]. congruence. }
  wp_step. wp_step. wp_step. set (s1 := with_next_batch _ s).
  eapply wp_mono; [apply (set_phases_spec s1 rs (λ _, InFlight (next_batch s)))|].
  - intros row s2 a _ Ha. unfold bind, gets. rewrite Ha. done.
  - by apply (core_same _ _ _ _ _ _ s).
  - done.
  - intros row Hin. destruct (Hrows row Hin) as (a & _ & Ha & _). simpl. eauto.
  - cbn beta. intros _ s' (Hcore' & Hs' & Hph). wp_step. split; [done|]. simpl.
    assert (kv_cache s' = kv_cache s) as Hkv by by rewrite Hs'. split; [|split].
    + split; [done|done|..].
      * intros row Hin. destruct (Hrows row Hin) as (a & q & Ha & Hq & Hop).
        exists (set_phase (InFlight (next_batch s)) a), q. rewrite (proj1 Hph row Hin), Hkv. simpl. rewrite Ha.
        split; [done|]. split; [done|]. by eapply row_open_phase.
      * intros r a q Ha Hq Hnin. rewrite (proj2 Hph r Hnin) in Ha. rewrite Hkv in Hq. by eapply Hidle.
    + split; simpl.
      * congruence.
      * rewrite Hs'. simpl. lia.
      * rewrite Hs'. simpl. by rewrite (batch_tokens_width _ n).
      * unfold next_n. simpl. rewrite Hrs in *. intros row Hin. rewrite (Hw row0) by by left. by apply Hw.
    + done.
Qed.

(** ** The three kinds of batches *)

(** No batch in flight or being built. *)
Definition idle (s : ContinuousBatchScheduler) : Prop := opened s Prefill [] (λ _, NeedsPrefill).

(** A batch built from the idle state [s]. *)
Record sealed (s s' : ContinuousBatchScheduler) (b : ScheduledBatch) : Prop := {
  se_id : batch_id b = next_batch s;
  se_opened : opened s' (batch_kind b) (rows b) (λ _, InFlight (batch_id b));
  se_batch : batch_ok s' b;
  se_frame : s' = with_kv (kv_cache s') (with_active (active s') (with_next_batch (next_batch s + 1) s));
  se_phases : phased (rows b) (λ _, InFlight (batch_id b)) (active s) (active s');
  se_prior : ∀ row, row ∈ rows b → ∃ a, active s !! request_id row = Some a ∧ phase a = prior (batch_kind b) row;
  se_reset : reset bs <$> seqs s' = reset bs <$> seqs s;
  se_spend : spend (kv_cache s') = spend (kv_cache s)
}.

Lemma upto_nil s F G : upto s [] F → upto s [] G.
Proof. intros H. eapply upto_mono; [exact H|]. by intros ??? ?%elem_of_nil. Qed.
Lemma idle_growing s kind n : idle s → growing s s kind n [].
Proof.
  intros Hi. split; try done; [by eapply upto_nil|by destruct s|by intros ? ?%elem_of_nil].
Qed.

Lemma finish_sealed s s1 kind rs n :
  growing s s1 kind n rs → len rs * n ≤ max_batch_tokens (sc_config s) → next_batch s < u64_max →
  wp (finish_schedule kind rs) s1
    (λ ob s', match ob with None => rs = [] ∧ s' = s | Some b => sealed s s' b end) (λ _ _, False).
Proof.
  intros Hg Hlim Hnb. pose proof (gr_kv _ _ _ _ _ Hg) as Hs1.
  eapply wp_mono; [apply (finish_schedule_spec s1 kind rs n)|].
  - apply Hg.
  - apply Hg.
  - by rewrite Hs1.
  - by rewrite Hs1.
  - cbn beta. intros [b|] s'.
    + intros (-> & Ho & Hb & Hs' & Hph). simpl in *. split; simpl.
      * by rewrite Hs1.
      * done.
      * done.
      * rewrite Hs'. simpl. rewrite Hs1 at 1. simpl. rewrite Hs1. done.
      * assert (active s1 = active s) as <- by by rewrite Hs1. exact Hph.
      * intros row Hin. destruct (up_rows _ _ _ _ _ _ _ _ _ (gr_opened _ _ _ _ _ Hg) row Hin) as (a & q & Ha & _ & Hop).
        exists a. split; [by rewrite Hs1 in Ha|apply Hop].
      * rewrite <-(gr_reset _ _ _ _ _ Hg). by rewrite Hs'.
      * rewrite <-(gr_spend _ _ _ _ _ Hg). by rewrite Hs'.
    + intros [-> ->]. split; [done|]. rewrite Hs1, (gr_none _ _ _ _ _ Hg eq_refl). by destruct s.
Qed.

(** *** Decode *)

Lemma omap_fst_sublist {A B} (f : N * A → option (N * B)) (l : list (N * A)) :
  (∀ x y, f x = Some y → y.1 = x.1) → (omap f l).*1 `sublist_of` l.*1.
Proof.
  intros Hf. induction l as [|x l IH]; [done|]. simpl. destruct (f x) as [y|] eqn:Hx; simpl.
  - rewrite (Hf x y Hx). by apply sublist_skip.
  - by apply sublist_cons.
Qed.
Lemma elem_of_decode_candidates (m : gmap N ActiveRequest) r t :
  (r, t) ∈ decode_candidates m ↔ ∃ a, m !! r = Some a ∧ phase a = AwaitingDecode t.
Proof.
  unfold decode_candidates. rewrite list_elem_of_omap. split.
  - intros ([r' a] & Hin%elem_of_entries & Hx). simpl in Hx. destruct (phase a) eqn:Hp; naive_solver.
  - intros (a & Ha & Hp). exists (r, a). rewrite elem_of_entries. simpl. by rewrite Hp.
Qed.
Lemma decode_candidates_sub (m : gmap N ActiveRequest) : (decode_candidates m).*1 `sublist_of` (Prelude.entries m).*1.
Proof. apply omap_fst_sublist. intros [r a] y. simpl. destruct (phase a); naive_solver. Qed.
Lemma entries_sub_len {A B} (m : gmap N A) (l : list (N * B)) :
  l.*1 `sublist_of` (Prelude.entries m).*1 → len l ≤ N.of_nat (size m).
Proof. intros H%sublist_length. rewrite !length_fmap, length_entries in H. unfold len. lia. Qed.

Lemma idle_request s r a :
  idle s → active s !! r = Some a → ∃ q, seqs s !! r = Some q ∧ req_ok r a q ∧ idle_ok a q.
Proof.
  intros [Hcore _ _ Hid] Ha. destruct (proj1 (co_dom _ _ _ _ _ _ _ Hcore r)) as [q Hq]; [eauto|].
  exists q. split; [done|]. split; [by eapply Hcore|]. eapply Hid; [done..|]. apply not_elem_of_nil.
Qed.

(** A request the loop has not reached yet. *)
Lemma growing_request s0 s kind n rs r :
  growing s0 s kind n rs → r ∉ request_id <$> rs → is_Some (active s !! r) →
  ∃ a q, active s !! r = Some a ∧ active s0 !! r = Some a ∧ seqs s !! r = Some q ∧ req_ok r a q ∧ idle_ok a q.
Proof.
  intros Hg Hr [a Ha]. pose proof (gr_opened _ _ _ _ _ Hg) as [Hcore _ _ Hid].
  destruct (proj1 (co_dom _ _ _ _ _ _ _ Hcore r)) as [q Hq]; [eauto|]. exists a, q.
  split; [done|]. split; [by rewrite (gr_kv _ _ _ _ _ Hg) in Ha|]. split; [done|].
  split; [by eapply Hcore|by eapply Hid].
Qed.

Lemma decode_adds s r t a :
  active s !! r = Some a → phase a = AwaitingDecode t →
  adds_row s Decode 1 r (λ rs, let! rv := begin_or_rollback r 1 rs in ret (scheduled_sequence rv [t])).
Proof.
  intros Ha Hp s1 rs Hg Hr Happ Hnr.
  assert (active s1 = active s) as Hact by (rewrite (gr_kv _ _ _ _ _ Hg); done).
  eapply begin_row_ok.
  - intros k rv Hrun. by apply begin_or_rollback_run.
  - apply Hg.
  - done.
  - done.
  - done.
  - by rewrite Hact.
  - intros rv q Hq Hst Hcl. destruct (growing_request _ _ _ _ _ _ Hg Hr) as (a' & q' & Ha' & _ & Hq' & _ & Hid);
      [rewrite Hact; eauto|]. rewrite Hact in Ha'. simplify_eq. unfold idle_ok in Hid. rewrite Hp in Hid.
    destruct Hid as (_ & Hc & Hl). split; [|done]. exists t. split; [done|]. split; [done|]. simpl. lia.
Qed.

Lemma schedule_decode_spec s :
  idle s → next_batch s < u64_max → next_reservation (kv_cache s) + N.of_nat (size (active s)) ≤ u64_max →
  wp schedule_decode s
    (λ ob s', match ob with
       | None => s' = s ∧ ∀ r a t, active s !! r = Some a → phase a = AwaitingDecode t →
                   ¬ appendable (kv_cache s) r 1
       | Some b => sealed s s' b
       end) (λ _ _, False).
Proof.
  intros Hi Hnb Hnr. unfold schedule_decode. wp_step. wp_step. wp_step.
  eapply wp_mono; [apply (rows_loop_spec fst 1 (max_batch_tokens (sc_config s)) Decode s
    (λ x rs, let! rv := begin_or_rollback x.1 1 rs in ret (scheduled_sequence rv [x.2])))|].
  - done.
  - intros. apply decode_rows_cons.
  - by apply idle_growing.
  - done.
  - unfold len. simpl. lia.
  - eapply sublist_NoDup; [apply (entries_nodup (active s))|apply decode_candidates_sub].
  - intros. apply not_elem_of_nil.
  - intros [r t] (a & Ha & _)%elem_of_decode_candidates. simpl. eauto.
  - intros [r t] (a & Ha & Hp)%elem_of_decode_candidates. by eapply decode_adds.
  - pose proof (entries_sub_len _ _ (decode_candidates_sub (active s))). lia.
  - cbn beta. intros rs s1 (Hg & Hm & _ & Hend). eapply wp_mono; [eapply finish_sealed; [done| |done]|].
    + lia.
    + intros [b|] s'; [done|]. intros [-> ->]. split; [done|]. intros r a t Ha Hp.
      destruct (Hend eq_refl) as [Hz|Hall].
      * pose proof (co_limit _ _ _ _ _ _ _ (up_core _ _ _ _ _ _ _ _ _ Hi)). simpl in Hz. lia.
      * apply (Hall (r, t)). apply elem_of_decode_candidates. eauto.
Qed.

(** *** Prefill *)

Lemma wp_fold_m {A B} (f : B → A → M ContinuousBatchScheduler ContinuousBatchError B) xs b s
    (I : list A → B → ContinuousBatchScheduler → Prop) R :
  I [] b s →
  (∀ done x rest b s, xs = done ++ x :: rest → I done b s → wp (f b x) s (λ b' s', I (done ++ [x]) b' s') R) →
  wp (fold_m f b xs) s (λ b' s', I xs b' s') R.
Proof.
  intros HI Hstep.
  assert (∀ rest done b s, xs = done ++ rest → I done b s → wp (fold_m f b rest) s (λ b' s', I xs b' s') R) as H.
  { induction rest as [|x rest IH]; intros done b1 s1 Hxs H1.
    - apply wp_ret. by rewrite Hxs, app_nil_r.
    - simpl. wp_step. eapply wp_mono; [by eapply Hstep|]. cbn beta. intros b2 s2 H2.
      apply (IH (done ++ [x])); [|done]. by rewrite <-app_assoc. }
  by apply (H xs []).
Qed.

(** The length of the next chunk of a request with [committed] tokens in the cache. *)
Definition chunk_length (s : ContinuousBatchScheduler) (a : ActiveRequest) (committed : N) : N :=
  let remaining := len (history a) - committed in
  N.min (N.min remaining (default remaining (prefill_chunk_tokens s))) (max_batch_tokens (sc_config s)).

Lemma prefill_chunk_spec r a q s R :
  seqs s !! r = Some q →
  wp (prefill_chunk r a) s (λ out s', s' = s ∧ out.1.1 = committed_tokens q ∧
    out.1.2 = chunk_length s a (committed_tokens q)) R.
Proof.
  intros Hq. unfold prefill_chunk. wp_step. apply wp_kv_ok. unfold committed_tokens_of. wp_step.
  apply sequence_spec; [|congruence]. intros q' Hq'. simplify_eq. wp_step. wp_step. wp_step. wp_step.
  simpl. split; [by destruct s|]. done.
Qed.

(** A request that a prefill chunk of [n] tokens can be scheduled for. *)
Definition prefillable (s : ContinuousBatchScheduler) (r n : N) : Prop :=
  ∃ a q, active s !! r = Some a ∧ seqs s !! r = Some q ∧ phase a = NeedsPrefill ∧
    r ∉ deferred_prefill s ∧ n = chunk_length s a (committed_tokens q) ∧ 0 < n ∧
    appendable (kv_cache s) r n.

Definition buckets_ok (s : ContinuousBatchScheduler) (done : list N) (l : list (N * bool * list RequestId)) : Prop :=
  (∀ k rs, (k, rs) ∈ l → rs ≠ [] ∧ NoDup rs ∧ (∀ r, r ∈ rs → r ∈ done ∧ prefillable s r k.1)) ∧
  (∀ r n, r ∈ done → prefillable s r n → l ≠ []).

Lemma elem_of_bucket_push k r l k' rs :
  (k', rs) ∈ bucket_push k r l →
  (k', rs) ∈ l ∨ k' = k ∧ (rs = [r] ∨ ∃ rs0, (k, rs0) ∈ l ∧ rs = rs0 ++ [r]).
Proof.
  induction l as [|[k0 rs0] l IH]; simpl.
  { intros [= -> ->]%list_elem_of_singleton. auto. }
  case_decide as Hd; [subst k0|destruct (bucket_lt k k0)].
  - intros [[= -> ->]|Hin]%elem_of_cons; [|left; by right]. right. split; [done|]. right.
    exists rs0. split; [by left|done].
  - intros [[= -> ->]|Hin]%elem_of_cons; [by auto|by left].
  - intros [[= -> ->]|Hin]%elem_of_cons; [left; by left|].
    destruct (IH Hin) as [?|[-> [->|(rs1 & ? & ->)]]]; [left; by right|by auto|].
    right. split; [done|]. right. exists rs1. split; [by right|done].
Qed.
Lemma bucket_push_ne k r l : bucket_push k r l ≠ [].
Proof. destruct l as [|[k0 rs0] l]; simpl; [done|]. case_decide; [done|]. by destruct (bucket_lt k k0). Qed.

Lemma buckets_push s done l k r :
  buckets_ok s done l → r ∉ done → prefillable s r k.1 → buckets_ok s (done ++ [r]) (bucket_push k r l).
Proof.
  intros [Hl Hc] Hr Hp. split.
  - intros k' rs [Hin|[-> [->|(rs0 & Hin & ->)]]]%elem_of_bucket_push.
    + destruct (Hl _ _ Hin) as (? & ? & Hrs). do 2 (split; [done|]). intros r0 Hr0.
      destruct (Hrs r0 Hr0). split; [apply elem_of_app; by left|done].
    + split; [done|]. split; [apply NoDup_singleton|]. intros r0 ->%list_elem_of_singleton.
      split; [apply elem_of_app; right; by left|done].
    + destruct (Hl _ _ Hin) as (_ & Hnd & Hrs). split; [by destruct rs0|]. split.
      * apply NoDup_app. split; [done|]. split; [|apply NoDup_singleton].
        intros x Hx ->%list_elem_of_singleton. by destruct (Hrs r Hx).
      * intros r0 [Hr0| ->%list_elem_of_singleton]%elem_of_app.
        -- destruct (Hrs r0 Hr0). split; [apply elem_of_app; by left|done].
        -- split; [apply elem_of_app; right; by left|done].
  - intros r0 n _ _. apply bucket_push_ne.
Qed.
Lemma buckets_skip s done l r :
  buckets_ok s done l → (∀ n, ¬ prefillable s r n) → buckets_ok s (done ++ [r]) l.
Proof.
  intros [Hl Hc] Hr. split.
  - intros k rs Hin. destruct (Hl _ _ Hin) as (? & ? & Hrs). do 2 (split; [done|]). intros r0 Hr0.
    destruct (Hrs r0 Hr0). split; [apply elem_of_app; by left|done].
  - intros r0 n [Hin| ->%list_elem_of_singleton]%elem_of_app Hp; [by eapply Hc|by destruct (Hr n)].
Qed.

Lemma best_bucket_some limit l b : best_bucket limit l = Some b → b ∈ l.
Proof.
  unfold best_bucket.
  assert (∀ acc, foldl (λ acc y, match acc with None => Some y
    | Some x => if bucket_better limit x y then Some x else Some y end) acc l = Some b →
    b ∈ l ∨ acc = Some b) as H.
  { induction l as [|y l IH]; intros acc; simpl; [by right|]. intros [Hin|Hacc]%IH; [left; by right|].
    destruct acc as [x|]; [|simplify_eq; left; by left].
    destruct (bucket_better limit x y); simplify_eq; [by right|left; by left]. }
  intros [?|?]%H; done.
Qed.
Lemma best_bucket_none limit l : best_bucket limit l = None → l = [].
Proof.
  unfold best_bucket. destruct l as [|y l]; [done|]. simpl. intros H. exfalso. revert y H.
  induction l as [|z l IH]; intros y; simpl; [done|]. destruct (bucket_better limit y z); apply IH.
Qed.

Lemma bucket_step_spec s bs' r a done :
  idle s → active s !! r = Some a → r ∉ done → buckets_ok s done bs' →
  wp (bucket_step bs' (r, a)) s (λ l s', s' = s ∧ buckets_ok s (done ++ [r]) l) (λ _ _, False).
Proof.
  intros Hi Ha Hr Hb. destruct (idle_request _ _ _ Hi Ha) as (q & Hq & _ & _).
  unfold bucket_step. wp_step. simpl. eapply wp_mono; [by apply prefill_chunk_spec|].
  cbn beta. intros [[position next] fin] s' (-> & Hpos & Hnext). simpl in *. wp_step. wp_step. wp_step; cycle 1.
  { wp_step. split; [done|]. apply buckets_skip; [done|].
    intros n (a' & q' & Ha' & Hq' & Hph & Hdef & Hn & Hn0 & _). simplify_eq.
    rewrite !bool_decide_true, (proj2 (N.ltb_lt _ _)) in Heqb by done. done. }
  rewrite !andb_true_iff, !bool_decide_eq_true, N.ltb_lt in Heqb. destruct Heqb as [[Hph Hdef] Hn0].
  wp_step. apply wp_kv_ok. eapply wp_wand; [by eapply can_append_ok| |done]. cbn beta. intros fits k [-> Hfits].
  wp_step. split; [by destruct s|]. destruct fits.
  - apply buckets_push; [done|done|]. exists a, q. simpl. do 4 (split; [done|]). split; [done|].
    split; [done|]. by apply Hfits.
  - apply buckets_skip; [done|]. intros n (a' & q' & Ha' & Hq' & _ & _ & Hn & _ & Happ). simplify_eq.
    by apply Hfits in Happ.
Qed.

Lemma prefill_adds s r n : prefillable s r n → adds_row s Prefill n r (prefill_step n r).
Proof.
  intros (a & q0 & Ha & Hq0 & Hph & _ & Hn & Hn0 & _) s1 rs Hg Hr Happ Hnr.
  assert (active s1 = active s) as Hact by (rewrite (gr_kv _ _ _ _ _ Hg); done).
  destruct (growing_request _ _ _ _ _ _ Hg Hr) as (a' & q & Ha' & _ & Hq & Hreq & Hid); [rewrite Hact; eauto|].
  rewrite Hact in Ha'. assert (a' = a) as -> by congruence. clear Ha'.
  destruct (growing_committed _ _ _ _ _ _ _ Hg Hq) as (q0' & Hq0' & Hc).
  assert (q0' = q0) as -> by congruence. subst n. rewrite Hc in *.
  assert (chunk_length s1 a (committed_tokens q) = chunk_length s a (committed_tokens q)) as Hch.
  { rewrite (gr_kv _ _ _ _ _ Hg). done. }
  assert (chunk_length s a (committed_tokens q) ≤ len (history a) - committed_tokens q) as Hle
    by (unfold chunk_length; lia).
  assert (committed_tokens q + chunk_length s a (committed_tokens q) ≤ len (history a)) as Hle2 by lia.
  unfold prefill_step. wp_step. wp_step. wp_step. eapply wp_expect; [by rewrite Hact|]. cbn beta. wp_step.
  eapply wp_mono; [by apply prefill_chunk_spec|]. cbn beta.
  intros [[start l] fin] s2 (-> & Hst & Hl). simpl in Hst, Hl. subst start l. rewrite Hch. simpl. wp_step.
  apply wp_debug_assert; [apply N.eqb_refl|]. wp_step. rewrite (proj2 (N.ltb_ge _ _)) by done. wp_step.
  eapply (begin_row_ok s1 Prefill _ rs r).
  - intros k rv Hrun. by apply begin_or_rollback_run.
  - apply Hg.
  - done.
  - done.
  - unfold len in *. rewrite length_take, length_drop. lia.
  - by rewrite Hact.
  - intros rv q' Hq' Hst Hcl. simplify_eq. split; [|done]. simpl. rewrite Hcl, Hst. split; [done|].
    f_equal. rewrite length_take, length_drop. unfold len in Hle2. lia.
Qed.

Lemma schedule_prefill_spec s :
  idle s → next_batch s < u64_max → next_reservation (kv_cache s) + N.of_nat (size (active s)) ≤ u64_max →
  wp schedule_prefill s
    (λ ob s', match ob with
       | None => s' = s ∧ ∀ r n, ¬ prefillable s r n
       | Some b => sealed s s' b
       end) (λ _ _, False).
Proof.
  intros Hi Hnb Hnr. unfold schedule_prefill. wp_step. wp_step. wp_step.
  eapply wp_mono; [apply (wp_fold_m _ _ _ _ (λ done l s', s' = s ∧ buckets_ok s done.*1 l))|].
  - split; [done|]. split; [by intros ?? ?%elem_of_nil|by intros ?? ?%elem_of_nil].
  - intros done [r a] rest l s' Hent [-> Hb].
    assert (active s !! r = Some a) as Ha.
    { apply elem_of_entries. rewrite Hent. apply elem_of_app. right. by left. }
    eapply wp_mono; [apply (bucket_step_spec s l r a done.*1); [done|done| |done]|].
    + pose proof (entries_nodup (active s)) as Hnd. rewrite Hent, fmap_app in Hnd.
      apply NoDup_app in Hnd as (_ & Hnd & _). intros Hin. apply (Hnd r Hin). by left.
    + cbn beta. intros l' s' [-> Hb']. by rewrite fmap_app.
  - cbn beta. intros l s' [-> [Hl Hcov]]. destruct (best_bucket _ l) as [[[n fl] cands]|] eqn:Hbest; cycle 1.
    { wp_step. split; [done|]. intros r n Hp. apply best_bucket_none in Hbest. eapply Hcov; [|exact Hp|done].
      destruct Hp as (a & _ & Ha & _). apply elem_of_entries in Ha. by apply (list_elem_of_fmap_2 fst) in Ha. }
    apply best_bucket_some in Hbest. destruct (Hl _ _ Hbest) as (Hne & Hnd & Hc). simpl in Hc.
    destruct cands as [|r0 cands0] eqn:Hcands; [done|]. rewrite <-Hcands in *.
    destruct (Hc r0) as [_ Hp0]; [rewrite Hcands; by left|].
    assert (0 < n ≤ max_batch_tokens (sc_config s)) as Hn.
    { destruct Hp0 as (a & q & _ & _ & _ & _ & -> & ? & _). split; [done|]. unfold chunk_length. lia. }
    wp_step. eapply wp_mono; [apply (rows_loop_spec (λ x, x) n (max_batch_tokens (sc_config s) / n) Prefill s
      (λ r rs, prefill_step n r rs))|].
    + done.
    + intros. apply prefill_rows_cons.
    + by apply idle_growing.
    + lia.
    + unfold len. simpl. apply N.le_0_l.
    + by rewrite list_fmap_id.
    + intros. apply not_elem_of_nil.
    + intros r Hr. destruct (Hc r Hr) as [_ (a & _ & Ha & _)]. eauto.
    + intros r Hr. apply prefill_adds. by apply Hc.
    + assert (length cands ≤ size (active s))%nat; [|unfold len; lia].
      rewrite <-length_entries, <-(length_fmap fst). apply submseteq_length, NoDup_submseteq; [done|].
      intros r Hr. by apply Hc.
    + cbn beta. intros rs s1 (Hg & Hm & _ & Hend). eapply wp_mono; [eapply finish_sealed; [done| |done]|].
      * pose proof (N.Div0.mul_div_le (max_batch_tokens (sc_config s)) n). nia.
      * intros [b|] s'; [done|]. intros [-> ->]. exfalso. destruct (Hend eq_refl) as [Hz|Hall].
        -- apply N.div_small_iff in Hz; lia.
        -- apply (Hall r0); [rewrite Hcands; by left|]. by destruct Hp0 as (? & ? & _ & _ & _ & _ & _ & _ & ?).
Qed.

(** *** Verify *)

Lemma len_pad_draft d n : len (pad_draft d n) = n.
Proof. unfold pad_draft, len. rewrite length_app, length_take, length_replicate. lia. Qed.

(** A greedy request that awaits [t] and has room for more than one token. *)
Definition draftable (s : ContinuousBatchScheduler) (r : N) (t : Z) : Prop :=
  ∃ a, active s !! r = Some a ∧ phase a = AwaitingDecode t ∧ sampler a = None ∧
    len (generated a) + 2 ≤ max_new_tokens (generation a).

Definition drafts_ok (s : ContinuousBatchScheduler) (done : list N) (l : list (N * Z * list Z)) : Prop :=
  NoDup l.*1.*1 ∧ ∀ r t d, (r, t, d) ∈ l → r ∈ done ∧ draftable s r t.

Lemma drafts_done s done l r : drafts_ok s done l → drafts_ok s (done ++ [r]) l.
Proof.
  intros [Hnd Hl]. split; [done|]. intros r0 t d Hin. destruct (Hl _ _ _ Hin).
  split; [apply elem_of_app; by left|done].
Qed.
Lemma drafts_push s done l r t d :
  drafts_ok s done l → r ∉ done → draftable s r t → drafts_ok s (done ++ [r]) (l ++ [(r, t, d)]).
Proof.
  intros [Hnd Hl] Hr Hd. split.
  - rewrite !fmap_app. apply NoDup_app. split; [done|]. split; [|apply NoDup_singleton].
    intros x ([x0 t0] & -> & ([[x1 t1] d1] & [= -> ->] & Hin)%list_elem_of_fmap)%list_elem_of_fmap.
    intros Heq%list_elem_of_singleton. simpl in Heq. subst. by destruct (Hl _ _ _ Hin).
  - intros r0 t0 d0 [Hin|[= -> -> ->]%list_elem_of_singleton]%elem_of_app.
    + destruct (Hl _ _ _ Hin). split; [apply elem_of_app; by left|done].
    + split; [apply elem_of_app; right; by left|done].
Qed.

Lemma verify_candidate_spec s sc width l r a done :
  idle s → active s !! r = Some a → r ∉ done → drafts_ok s done l →
  wp (verify_candidate sc width l (r, a)) s (λ l' s', s' = s ∧ drafts_ok s (done ++ [r]) l') (λ _ _, False).
Proof.
  intros Hi Ha Hr Hl. destruct (idle_request _ _ _ Hi Ha) as (q & Hq & Hreq & _).
  unfold verify_candidate. simpl.
  destruct (phase a) as [|t|b] eqn:Hph; [by wp_step; split; [|apply drafts_done]| |by wp_step; split; [|apply drafts_done]].
  pose proof (ro_room _ _ _ _ _ _ _ _ _ Hreq).
  wp_step. eapply wp_lift_ok; [apply usub_ok; lia|]. cbn beta. wp_step; [wp_step; by split; [|apply drafts_done]|].
  wp_step; [wp_step; by split; [|apply drafts_done]|]. wp_step. apply wp_kv_ok.
  eapply wp_wand; [by eapply can_append_ok| |done]. cbn beta. intros fits k [-> _]. wp_step. split; [by destruct s|].
  destruct fits; [|by apply drafts_done].
  apply orb_false_iff in Heqb as [Hs Hrem]. apply bool_decide_eq_false, eq_None_not_Some in Hs.
  apply N.ltb_ge in Hrem. apply drafts_push; [done|done|]. exists a. do 3 (split; [done|]). lia.
Qed.

Lemma verify_adds s r t d drafts :
  draftable s r t →
  adds_row s Verify (drafts + 1) r (λ rs, let! rv := kv (begin_append r (drafts + 1)) in
    ret (scheduled_sequence rv (t :: pad_draft d drafts))).
Proof.
  intros (a & Ha & Hp & Hsm & Hroom) s1 rs Hg Hr Happ Hnr.
  assert (active s1 = active s) as Hact by (rewrite (gr_kv _ _ _ _ _ Hg); done).
  eapply (begin_row_ok s1 Verify _ rs r).
  - intros k rv Hrun. by apply kv_begin_run.
  - apply Hg.
  - done.
  - done.
  - pose proof (len_pad_draft d drafts). unfold len in *. simpl. lia.
  - by rewrite Hact.
  - intros rv q Hq Hst Hcl. destruct (growing_request _ _ _ _ _ _ Hg Hr) as (a' & q' & Ha' & _ & Hq' & _ & Hid);
      [rewrite Hact; eauto|]. rewrite Hact in Ha'. simplify_eq. unfold idle_ok in Hid. rewrite Hp in Hid.
    destruct Hid as (_ & Hc & Hl). split; [|done]. eexists t, _. split; [done|]. split; [done|]. simpl. rewrite Hst. done.
Qed.

Lemma schedule_verify_spec s :
  idle s → next_batch s < u64_max → next_reservation (kv_cache s) + N.of_nat (size (active s)) ≤ u64_max →
  wp schedule_verify s
    (λ ob s', match ob with None => s' = s | Some b => sealed s s' b end) (λ _ _, False).
Proof.
  intros Hi Hnb Hnr. unfold schedule_verify. wp_step. wp_step. destruct (speculative s) as [sc|] eqn:Hsc; [|by wp_step].
  destruct (co_spec _ _ _ _ _ _ _ (up_core _ _ _ _ _ _ _ _ _ Hi) sc Hsc) as [Hd0 Hd].
  wp_step. eapply wp_lift_ok; [apply uadd_ok; lia|]. cbn beta.
  rewrite (proj2 (N.eqb_neq _ _)) by lia. wp_step; [by wp_step|]. wp_step.
  eapply wp_mono; [apply (wp_fold_m _ _ _ _ (λ done l s', s' = s ∧ drafts_ok s done.*1 l))|].
  - split; [done|]. split; [apply NoDup_nil_2|by intros ??? ?%elem_of_nil].
  - intros done [r a] rest l s' Hent [-> Hl].
    assert (active s !! r = Some a) as Ha.
    { apply elem_of_entries. rewrite Hent. apply elem_of_app. right. by left. }
    eapply wp_mono; [apply (verify_candidate_spec s sc _ l r a done.*1); [done|done| |done]|].
    + pose proof (entries_nodup (active s)) as Hnd. rewrite Hent, fmap_app in Hnd.
      apply NoDup_app in Hnd as (_ & Hnd & _). intros Hin. apply (Hnd r Hin). by left.
    + cbn beta. intros l' s' [-> Hl']. by rewrite fmap_app.
  - cbn beta. intros cands s' [-> [Hnd Hc]]. wp_step.
    eapply wp_mono; [apply (rows_loop_spec (λ x, x.1.1) (draft_tokens sc + 1)
      (max_batch_tokens (sc_config s) / (draft_tokens sc + 1)) Verify s
      (λ x rs, let! rv := kv (begin_append x.1.1 (draft_tokens sc + 1)) in
         ret (scheduled_sequence rv (x.1.2 :: pad_draft x.2 (draft_tokens sc)))))|].
    + done.
    + intros. apply verify_rows_cons.
    + by apply idle_growing.
    + lia.
    + apply N.le_0_l.
    + by rewrite <-list_fmap_compose in Hnd.
    + intros. apply not_elem_of_nil.
    + intros [[r t] d] Hin. destruct (Hc _ _ _ Hin) as [_ (a & Ha & _)]. simpl. eauto.
    + intros [[r t] d] Hin. apply verify_adds. by destruct (Hc _ _ _ Hin).
    + assert (length cands.*1.*1 ≤ length (Prelude.entries (active s)).*1)%nat as Hle.
      { apply submseteq_length, NoDup_submseteq; [done|].
        intros r ([r' t] & -> & ([[r1 t1] d] & [= -> ->] & Hin)%list_elem_of_fmap)%list_elem_of_fmap. simpl.
        by destruct (Hc _ _ _ Hin). }
      rewrite !length_fmap, length_entries in Hle. unfold len. lia.
    + cbn beta. intros rs s1 (Hg & Hm & _ & _). eapply wp_mono; [eapply finish_sealed; [done| |done]|].
      * pose proof (N.Div0.mul_div_le (max_batch_tokens (sc_config s)) (draft_tokens sc + 1)). nia.
      * intros [b|] s'; [done|]. by intros [_ ->].
Qed.
End plan.
