(* ===== verification/SchedulerSchedule.v ===== *)
(** * Scheduling

    Admission, preemption and the choice of a batch: [schedule] keeps the invariant, fails
    only when a batch is in flight or batch ids are used up, and stops only for a reason. *)

From S2P Require Export SchedulerPlan.
Open Scope N_scope.

Section schedule.
Context {P : Profile} {SM : Sampling} {CM : CausalModel} (chain : N → list Z → N).
Context (c : PagedKvCacheConfig) (trusted : Prop) (Ctx : list Z → Prop).
Context (mem : memory) (log : gmap N submission).
Context (Hchain : trusted → collision_free chain (block_size c) Ctx).

Abbreviation bs := (block_size c).
Abbreviation seqs s := (sequences (kv_cache s)).
Abbreviation core := (core chain c trusted Ctx mem log).
Abbreviation upto := (upto chain c trusted Ctx mem log).
Abbreviation opened := (opened chain c trusted Ctx mem log).
Abbreviation req_ok := (req_ok chain c trusted Ctx mem log).
Abbreviation idle := (idle chain c trusted Ctx mem log).
Abbreviation sealed := (sealed chain c trusted Ctx mem log).

(** ** Room in the counters *)

Definition pend_tokens (l : list PendingRequest) : N := foldr (λ p n, len (pend_prompt p) + n) 0 l.
Definition flight_tokens (s : ContinuousBatchScheduler) : N :=
  match in_flight s with Some b => batch_tokens (rows b) | None => 0 end.

(** The 64-bit counters and 32-bit reference counts are far enough from their limits for
    one step. *)
Record room (s : ContinuousBatchScheduler) : Prop := {
  rm_refs : table_entries (seqs s) + pend_tokens (pending_requests s) ≤ u32_max;
  rm_reused : reused_tokens (kv_cache s) + pend_tokens (pending_requests s) ≤ u64_max;
  rm_admission : next_admission s + len (pending_requests s) ≤ u64_max;
  rm_clock : clock (kv_cache s) + pend_tokens (pending_requests s) + num_pages (config (kv_cache s)) ≤ u64_max;
  rm_preempt : preemptions s + table_entries (seqs s) + pend_tokens (pending_requests s) ≤ u64_max;
  rm_resv : next_reservation (kv_cache s) + N.of_nat (size (active s)) + len (pending_requests s) ≤ u64_max;
  rm_draft : drafted_tokens s + flight_tokens s ≤ u64_max
}.

(** ** Admission *)

Lemma take_first_spec f (l : list PendingRequest) p rest :
  take_first f l = Some (p, rest) → f p = true ∧ l ≡ₚ p :: rest.
Proof.
  revert p rest. induction l as [|x l IH]; intros p rest; simpl; [done|].
  destruct (f x) eqn:Hf; [intros [= -> ->]; done|].
  destruct (take_first f l) as [[y l']|] eqn:Ht; [|done]. intros [= -> <-].
  destruct (IH _ _ eq_refl) as [? Hp]. split; [done|]. rewrite Hp. constructor.
Qed.
Lemma take_first_none f (l : list PendingRequest) : take_first f l = None → ∀ p, p ∈ l → f p = false.
Proof.
  induction l as [|x l IH]; simpl; [by intros _ ? ?%elem_of_nil|]. destruct (f x) eqn:Hf; [done|].
  destruct (take_first f l) as [[]|]; [done|]. intros _ p [->|?]%elem_of_cons; auto.
Qed.
Lemma pend_tokens_perm l l' : l ≡ₚ l' → pend_tokens l = pend_tokens l'.
Proof. unfold pend_tokens. induction 1; simpl; lia. Qed.

(** What admission leaves alone. *)
Definition admits (s s' : ContinuousBatchScheduler) : Prop :=
  s' = with_kv (kv_cache s') (with_active (active s') (with_next_admission (next_admission s')
         (with_pending (pending_requests s') s))).

(** Requests join that are not deferred. *)
Definition joins (s s' : ContinuousBatchScheduler) : Prop :=
  dom (active s) ⊆ dom (active s') ∧
  ∀ r, r ∈ dom (active s') → r ∈ dom (active s) ∨ r ∉ deferred_prefill s.

Lemma joins_refl s : joins s s.
Proof. split; [done|auto]. Qed.
Lemma joins_trans s s1 s2 :
  deferred_prefill s1 = deferred_prefill s → joins s s1 → joins s1 s2 → joins s s2.
Proof. unfold joins. intros ->. set_solver. Qed.

Lemma admit_spec s p rest :
  idle s → room s → pending_requests s ≡ₚ p :: rest →
  (kv_admission (options s) = ReserveSequenceCapacity →
     budgets c (active s) + request_page_budget (len (pend_prompt p)) (pend_generation p) bs ≤ num_pages c) →
  wp (admit_pending chain p) (with_pending rest s)
    (λ _ s', idle s' ∧ room s' ∧ admits s s' ∧ pending_requests s' = rest ∧ active s' ≠ ∅ ∧
       dom (active s') = {[pend_id p]} ∪ dom (active s) ∧
       budgets c (active s') = budgets c (active s) +
         request_page_budget (len (pend_prompt p)) (pend_generation p) bs)
    (λ _ _, False).
Proof using Hchain.
  intros Hi Hroom Hperm Hbudget. pose proof Hi as [Hcore _ _ Hidle].
  pose proof (co_wf _ _ _ _ _ _ _ Hcore) as Hwf. pose proof (co_config _ _ _ _ _ _ _ Hcore) as Hc.
  assert (p ∈ pending_requests s) as Hin by (rewrite Hperm; by left).
  assert (∀ p0, p0 ∈ rest → p0 ∈ pending_requests s) as Hsub by (intros; rewrite Hperm; by right).
  pose proof (co_pend _ _ _ _ _ _ _ Hcore p Hin) as Hp. pose proof (co_pend_new _ _ _ _ _ _ _ Hcore p Hin) as Hnew.
  assert (seqs s !! pend_id p = None) as Hnone.
  { apply eq_None_not_Some. rewrite <-(co_dom _ _ _ _ _ _ _ Hcore), Hnew. by intros []. }
  pose proof (wf_max_len _ _ Hwf) as Hmax. pose proof (wf_bs _ _ Hwf) as Hbs.
  pose proof (pe_len _ _ _ _ _ Hp) as Hlen. rewrite Hc in Hmax, Hbs.
  pose proof (pend_tokens_perm _ _ Hperm) as Hpt. cbn [pend_tokens foldr] in Hpt. fold (pend_tokens rest) in Hpt.
  assert (len (pending_requests s) = 1 + len rest) as Hpl.
  { unfold len. rewrite Hperm. simpl. lia. }
  destruct Hroom as [R1 R2 R3 R4 R5 R6 R7]. rewrite Hpt in R1, R2, R4, R5. rewrite Hpl in R3, R6.
  assert (NoDup (pend_id <$> p :: rest)) as Hnd by (rewrite <-Hperm; apply Hcore).
  rewrite fmap_cons in Hnd. apply NoDup_cons in Hnd as [Hnin Hnd'].
  unfold admit_pending. wp_step. apply wp_kv_ok. simpl.
  eapply wp_wand; [apply create_with_prefix_ok; [done|done|lia| |lia]| |done].
  { intros x. pose proof (total_entries x (seqs s)). lia. }
  cbn beta. intros matched k (Hwfk & Hst & Hix & Hru & Hm & q & Hs & Hcq & Hpre).
  destruct Hst as (Hti & Hnr & _ & Hck & _).
  wp_step. wp_step. simpl. wp_step. eapply wp_lift_ok; [apply uadd_ok; simpl in *; lia|]. cbn beta.
  wp_step. wp_step. unfold put_active. wp_step. simpl.
  pose proof Hpre as (Hpq & Hcom & Hreg & Hch & Hlt & _). rewrite Hc in *.
  assert (len (pages q) ≤ len (pend_prompt p)) as Hpages by nia.
  assert (table_entries (sequences k) = len (pages q) + table_entries (seqs s)) as Hent
    by (rewrite Hs; by apply entries_insert_new).
  set (a := mkActive _ _ _ _ _ _ _ _).
  assert (budgets c (<[pend_id p := a]> (active s)) = budgets c (active s) +
    request_page_budget (len (pend_prompt p)) (pend_generation p) bs) as Hbud.
  { unfold budgets. rewrite msum_insert_new by done. unfold request_budget. simpl. lia. }
  assert (req_ok (pend_id p) a q) as Hreq.
  { destruct Hp as [? ? ? (b & Hl & Hb) Hctx]. split; simpl; try done.
    - by rewrite app_nil_r.
    - intros t. by rewrite elem_of_nil.
    - exists b. split; [done|]. split; [done|]. intros _ _. apply greedy_run_nil.
    - rewrite Hch, Hreg. f_equal. unfold len. lia.
    - lia.
    - intros Ht. eapply prefilled_holds; [done|by apply Hchain|by apply Hcore|by apply Hctx|].
      done. }
  assert (core (with_active (<[pend_id p := a]> (active s)) (with_next_admission (next_admission s + 1)
    (with_kv k (with_pending rest s))))) as Hcore'.
  { destruct Hcore. split; simpl; try done.
    - intros r. rewrite Hs, !lookup_insert. case_decide; [split; eauto|done].
    - intros r a0 q0. rewrite Hs, !lookup_insert_Some. intros [[<- <-]|[Hne Ha0]] [[? <-]|[? Hq0]]; [done|done|done|eauto].
    - intros p0 Hp0. auto.
    - intros p0 Hp0. rewrite lookup_insert_None. split; [auto|]. intros Heq. apply Hnin. rewrite Heq.
      by apply list_elem_of_fmap_2.
    - intros Ht. rewrite Hix. auto.
    - intros Hadm. rewrite Hbud. auto.
    - intros Hadm p0 Hp0. auto. }
  split; [|split; [|split; [|split; [|split; [|split]]]]].
  - split; [done|apply NoDup_nil_2|by intros ? ?%elem_of_nil|].
    intros r a0 q0. simpl. rewrite Hs, !lookup_insert_Some.
    intros [[<- <-]|[Hne Ha0]] [[? <-]|[? Hq0]] _; [|done|done|eapply Hidle; [done..|apply not_elem_of_nil]].
    split; [done|]. simpl. assert (len (pend_prompt p) ≠ 0); [|lia].
    pose proof (pe_prompt _ _ _ _ _ Hp). unfold len. destruct (pend_prompt p); [done|simpl; lia].
  - split; simpl; [lia|lia|lia| |lia| |done].
    + rewrite Hck. unfold clock. rewrite Hti, Hent. unfold clock in R4. lia.
    + rewrite Hnr, map_size_insert_None by done. lia.
  - done.
  - done.
  - apply insert_non_empty.
  - apply dom_insert_L.
  - done.
Qed.

Lemma promote_loop_spec fuel available s :
  idle s → room s → (length (pending_requests s) < fuel)%nat →
  (kv_admission (options s) = ReserveSequenceCapacity → budgets c (active s) + available = num_pages c) →
  wp (promote_loop chain fuel available) s
    (λ _ s', idle s' ∧ room s' ∧ admits s s' ∧
       (active s' = ∅ → s' = s ∧ ∀ p, p ∈ pending_requests s → ready s p = false) ∧
       (pending_requests s = [] → s' = s) ∧ joins s s')
    (λ _ _, False).
Proof using Hchain.
  revert available s. induction fuel as [|fuel IH]; intros available s Hi Hroom Hf Hav; [lia|].
  pose proof Hi as [Hcore _ _ _]. cbn [promote_loop]. wp_step. wp_step. wp_step.
  { apply N.leb_le in Heqb. wp_step. do 2 (split; [done|]). split; [by destruct s|]. split; [|split; [done|apply joins_refl]]. intros He.
    pose proof (co_active _ _ _ _ _ _ _ Hcore). rewrite He, map_size_empty in Heqb. lia. }
  destruct (take_first (ready s) (pending_requests s)) as [[p rest]|] eqn:Ht; cycle 1.
  { wp_step. do 2 (split; [done|]). split; [by destruct s|]. split; [|split; [done|apply joins_refl]]. intros _. split; [done|]. by apply take_first_none. }
  destruct (take_first_spec _ _ _ _ Ht) as [Hready Hperm]. rewrite (co_config _ _ _ _ _ _ _ Hcore).
  set (pages := request_page_budget _ _ _). wp_step.
  { apply andb_true_iff in Heqb0 as [Hadm%bool_decide_eq_true Hlt%N.ltb_lt]. wp_step. do 2 (split; [done|]).
    split; [by destruct s|]. split; [|split; [done|apply joins_refl]]. intros He. exfalso. specialize (Hav Hadm).
    assert (pages ≤ num_pages c).
    { apply (co_pend_budget _ _ _ _ _ _ _ Hcore Hadm). rewrite Hperm. by left. }
    unfold budgets in Hav. rewrite He, msum_empty in Hav. lia. }
  wp_step. wp_step. wp_step. eapply wp_wand; [apply admit_spec; [done|done|done|]| |done].
  { intros Hadm. specialize (Hav Hadm). rewrite bool_decide_true in Heqb0 by done. simpl in Heqb0.
    apply N.ltb_ge in Heqb0. fold pages. lia. }
  cbn beta. intros _ s1 (Hi1 & Hr1 & Hs1 & Hp1 & Hne1 & Hd1 & Hb1).
  assert (options s1 = options s) as Ho1 by by rewrite Hs1.
  eapply wp_mono; [apply IH; [done|done| |]|].
  - rewrite Hp1. apply Permutation_length in Hperm. simpl in Hperm. lia.
  - rewrite Ho1, Hb1. intros Hadm. rewrite bool_decide_true in * by done. simpl in Heqb0.
    apply N.ltb_ge in Heqb0. specialize (Hav Hadm). fold pages. lia.
  - cbn beta. intros _ s' (Hi' & Hr' & Hs' & Hend & _ & Hj). do 2 (split; [done|]). split; [|split; [|split]].
    + unfold admits in *. rewrite Hs', Hs1. done.
    + intros He. destruct (Hend He) as [-> _]. done.
    + intros Hnil. rewrite Hnil in Hperm. by apply Permutation_nil_cons in Hperm.
    + eapply joins_trans; [|split|exact Hj]; [by rewrite Hs1|rewrite Hd1; set_solver|].
      unfold ready in Hready. apply andb_true_iff in Hready as [Hdef%bool_decide_eq_true _].
      rewrite Hd1. intros r [->%elem_of_singleton|?]%elem_of_union; auto.
Qed.

Lemma promote_pending_spec s :
  idle s → room s →
  wp (promote_pending chain) s
    (λ _ s', idle s' ∧ room s' ∧ admits s s' ∧
       (active s' = ∅ → s' = s ∧ ∀ p, p ∈ pending_requests s → ready s p = false) ∧
       (pending_requests s = [] → s' = s) ∧ joins s s')
    (λ _ _, False).
Proof using Hchain.
  intros Hi Hroom. pose proof Hi as [Hcore _ _ _]. pose proof (co_config _ _ _ _ _ _ _ Hcore) as Hc.
  unfold promote_pending. wp_step. wp_step. wp_step.
  assert (wp (budget_left s) s (λ n s', s' = s ∧
    (kv_admission (options s) = ReserveSequenceCapacity → budgets c (active s) + n = num_pages c)) (λ _ _, False)) as Hbl.
  { unfold budget_left. case_bool_decide as Hadm; [|by wp_step; split; [|done]].
    pose proof (co_budget _ _ _ _ _ _ _ Hcore Hadm) as Hbud.
    set (cost := λ l : list ActiveRequest, foldr (λ a n, request_budget c a + n) 0 l).
    assert (∀ m : gmap N ActiveRequest, cost (Prelude.entries m).*2 = budgets c m) as Hcost.
    { intros m. assert (∀ l l', l ≡ₚ l' → cost l = cost l') as Hpm.
      { unfold cost. induction 1; simpl; lia. }
      rewrite (Hpm _ (map_to_list m).*2) by by rewrite entries_perm.
      induction m as [|r a m Hr IHm] using map_ind; [by unfold budgets; rewrite msum_empty, map_to_list_empty|].
      rewrite (Hpm _ ((r, a) :: map_to_list m).*2) by by rewrite map_to_list_insert.
      unfold budgets. rewrite msum_insert_new by done. fold (budgets c m). rewrite <-IHm. done. }
    rewrite Hc. assert (∀ l n, cost l ≤ n → wp (fold_m (λ available a,
      ok_or (checked_sub available (request_page_budget (len (prompt a)) (generation a) bs)) BudgetsExceedPool)
      n l) s (λ n' s', s' = s ∧ cost l + n' = n) (λ _ _, False)) as Hfold.
    { intros l. induction l as [|a l IH]; intros n Hn; [apply wp_ret; split; [done|simpl; lia]|].
      simpl in Hn |- *. wp_step. unfold checked_sub. change (request_page_budget (len (prompt a)) (generation a) bs) with (request_budget c a).
      rewrite (proj2 (N.leb_le _ _)) by lia. simpl. wp_step.
      eapply wp_mono; [apply IH; lia|]. cbn beta. intros n' s' [-> ?]. split; [done|lia]. }
    eapply wp_mono; [apply Hfold; by rewrite Hcost|]. cbn beta. rewrite Hcost. intros n s' [-> ?]. done. }
  eapply wp_wand; [exact Hbl| |done]. cbn beta. intros n s' [-> Hn].
  apply promote_loop_spec; [done|done|lia|done].
Qed.

(** ** Choosing a batch *)

(** No request can get a batch. *)
Definition stuck (s : ContinuousBatchScheduler) : Prop :=
  (∀ r a t, active s !! r = Some a → phase a = AwaitingDecode t → ¬ appendable (kv_cache s) r 1) ∧
  ∀ r n, ¬ prefillable s r n.

Lemma sealed_prefer s s' b x : sealed s s' b → sealed (with_prefer_prefill x s) (with_prefer_prefill x s') b.
Proof.
  intros [? Ho Hb Hf ? ? ?]. split; try done.
  - by eapply (opened_same _ _ _ _ _ _ s').
  - by destruct Hb.
  - rewrite Hf. done.
Qed.

Lemma try_schedule_spec s :
  idle s → next_batch s < u64_max → next_reservation (kv_cache s) + N.of_nat (size (active s)) ≤ u64_max →
  wp try_schedule s
    (λ ob s', match ob with
       | None => ∃ t, s' = with_speculative_turn t s ∧ stuck s
       | Some b => ∃ x t, sealed (with_prefer_prefill x (with_speculative_turn t s)) s' b
       end) (λ _ _, False).
Proof.
  intros Hi Hnb Hnr. unfold try_schedule. wp_step. wp_step. wp_step.
  assert (wp (if prefer_prefill s then schedule_prefill else ret None) s
    (λ ob s', match ob with None => s' = s | Some b => sealed s s' b end) (λ _ _, False)) as H1.
  { destruct (prefer_prefill s); [|by wp_step]. eapply wp_mono; [by apply schedule_prefill_spec|].
    intros [b|] s'; [done|naive_solver]. }
  eapply wp_mono; [exact H1|]. cbn beta. intros [b|] s1 Hs1.
  { wp_step. wp_step. wp_step. exists false, (speculative_turn s).
    replace (with_speculative_turn (speculative_turn s) s) with s by by destruct s. by apply sealed_prefer. }
  subst s1. wp_step. wp_step. wp_step. wp_step. wp_step. set (t := negb (speculative_turn s)).
  set (st := with_speculative_turn t s).
  assert (idle st) as Hit by by eapply (opened_same _ _ _ _ _ _ s).
  assert (wp (if negb (speculative_turn s) then schedule_verify else ret None) st
    (λ ob s', match ob with None => s' = st | Some b => sealed st s' b end) (λ _ _, False)) as H2.
  { destruct (negb _); [|by wp_step]. by apply schedule_verify_spec. }
  eapply wp_mono; [exact H2|]. cbn beta. intros [b|] s2 Hs2.
  { wp_step. wp_step. wp_step. exists true, t. by apply sealed_prefer. }
  subst s2. wp_step. eapply wp_mono; [by apply schedule_decode_spec|]. cbn beta. intros [b|] s3 Hs3.
  { wp_step. wp_step. wp_step. exists true, t. by apply sealed_prefer. }
  destruct Hs3 as [-> Hdec]. wp_step. eapply wp_mono; [by apply schedule_prefill_spec|]. cbn beta. intros [b|] s4 Hs4.
  { wp_step. wp_step. wp_step. exists false, t. by apply sealed_prefer. }
  destruct Hs4 as [-> Hpre]. wp_step. exists t. done.
Qed.

(** ** Preemption *)

(** Sequences that hold pages. *)
Definition holders (s : ContinuousBatchScheduler) : N :=
  msum (λ q, if decide (pages q = []) then 0 else 1) (seqs s).

Lemma newest_holder_in l x : newest_holder l = Some x → x ∈ l.
Proof.
  unfold newest_holder.
  assert (∀ acc, foldl (λ acc y, match acc with None => Some y
    | Some x => if newer x y then Some y else Some x end) acc l = Some x → x ∈ l ∨ acc = Some x) as H.
  { induction l as [|y l IH]; intros acc; simpl; [by right|]. intros [Hin|Hacc]%IH; [left; by right|].
    destruct acc as [z|]; [|simplify_eq; left; by left].
    destruct (newer z y); simplify_eq; [left; by left|by right]. }
  intros [?|?]%H; done.
Qed.
Lemma newest_holder_some l : l ≠ [] → is_Some (newest_holder l).
Proof.
  unfold newest_holder. destruct l as [|y l]; [done|]. intros _. simpl. revert y.
  induction l as [|z l IH]; intros y; simpl; [eauto|]. destruct (newer y z); apply IH.
Qed.

Lemma same_size s : core s → size (seqs s) = size (active s).
Proof.
  intros Hcore. rewrite <-!size_dom. f_equal. apply set_eq. intros r.
  rewrite !elem_of_dom, (co_dom _ _ _ _ _ _ _ Hcore). done.
Qed.

(** The victim's pages are gone, everything else is kept. *)
Definition preempted (s s' : ContinuousBatchScheduler) : Prop :=
  holders s' < holders s ∧ dom (active s') = dom (active s) ∧
  s' = with_kv (kv_cache s') (with_active (active s') (with_preemptions (preemptions s')
         (with_prefer_prefill false s))).

Lemma preempt_spec s r a q :
  idle s → room s → active s !! r = Some a → seqs s !! r = Some q → pages q ≠ [] →
  wp (let! _ := kv (remove_sequence r) in
      let! _ := kv (create_sequence r) in
      let! act := gets active in
      let! a := expect (act !! r) in
      let! _ := put_active r (set_phase NeedsPrefill a) in
      let! n := gets preemptions in
      let! n := lift (uadd u64_max n 1) in
      let! _ := modify (with_preemptions n) in
      let! _ := modify (with_prefer_prefill false) in
      ret true) s
    (λ out s', out = true ∧ idle s' ∧ room s' ∧ preempted s s') (λ _ _, False).
Proof.
  intros Hi [R1 R2 R3 R4 R5 R6 R7] Ha Hq Hne. pose proof Hi as [Hcore _ _ Hidle].
  destruct (idle_request _ _ _ _ _ _ _ _ _ Hi Ha) as (q' & Hq' & Hreq & Hid). simplify_eq.
  pose proof Hid as [Hp _].
  wp_step. apply wp_kv_ok. eapply wp_wand; [apply (remove_sequence_ok r q); [apply Hcore|done|done|lia]| |done].
  cbn beta. intros _ k1 (Hwf1 & Hc1 & _ & Hr1 & Hs1 & Hclk1 & (Hix1 & Hru1 & Hnr1)).
  wp_step. apply wp_kv_ok. simpl.
  eapply wp_wand; [apply create_sequence_ok; [done|rewrite Hs1; apply lookup_delete_eq]| |done].
  cbn beta. intros _ k2 (Hwf2 & ->). wp_step. wp_step. wp_step. simpl. eapply wp_expect; [exact Ha|]. cbn beta.
  unfold put_active. wp_step. wp_step. wp_step. wp_step. wp_step. simpl.
  assert (0 < len (pages q)) as Hlen by (unfold len; destruct (pages q); [done|simpl; lia]).
  pose proof (entries_delete _ _ _ Hq) as Hed.
  eapply wp_lift_ok; [apply uadd_ok; lia|]. cbn beta. do 5 wp_step. simpl.
  set (q0 := mkSequence 0 [] None 0 CHAIN_ROOT). set (k2 := set_sequences _ k1) in *.
  assert (sequences k2 = <[r := q0]> (seqs s)) as Hs2 by (simpl; rewrite Hs1; apply insert_delete_eq).
  assert (table_entries (sequences k2) = table_entries (sequences k1)) as He2.
  { simpl. rewrite entries_insert_new; [done|]. rewrite Hs1. apply lookup_delete_eq. }
  assert (table_entries (sequences k2) + len (pages q) = table_entries (seqs s)) as He.
  { rewrite He2, Hs1. lia. }
  assert (req_ok r a q0) as Hreq0.
  { destruct Hreq. split; try done; simpl.
    - unfold len. lia.
    - intros _ pos Hpos. lia. }
  assert (core (with_kv k2 s)) as Hcore2.
  { apply core_kv; [done|done| | | |].
    - simpl. rewrite Hc1. apply Hcore.
    - intros Ht. eapply published_sub; [exact Hix1|]. by apply Hcore.
    - intros r0. rewrite Hs2, lookup_insert. case_decide; [subst; split; eauto|done].
    - intros r0 a0 q1 Ha0. rewrite Hs2, lookup_insert_Some. intros [[<- <-]|[_ Hq1]]; [by simplify_eq|].
      by eapply Hcore. }
  assert (core (with_active (<[r := set_phase NeedsPrefill a]> (active s)) (with_kv k2 s))) as Hcore3.
  { eapply (core_put _ _ _ _ _ _ (with_kv k2 s)); [done|done| |by apply req_ok_phase|done|done].
    simpl. by rewrite Hs1, lookup_insert_eq. }
  split; [done|]. split; [|split].
  - split; [by eapply core_same; [|exact Hcore3]|apply NoDup_nil_2|by intros ? ?%elem_of_nil|].
    intros r0 a0 q1. cbn [active kv_cache with_prefer_prefill with_preemptions with_active with_kv].
    rewrite Hs2, !lookup_insert_Some. intros [[<- <-]|[Hne0 Ha0]] [[? <-]|[? Hq1]] _; try done.
    + split; [done|]. simpl. pose proof (ro_prompt _ _ _ _ _ _ _ _ _ Hreq) as Hpr.
      rewrite (ro_history _ _ _ _ _ _ _ _ _ Hreq). unfold len. destruct (prompt a); [done|simpl; lia].
    + eapply Hidle; [done..|apply not_elem_of_nil].
  - split; cbn [active kv_cache with_prefer_prefill with_preemptions with_active with_kv pending_requests
      next_admission preemptions drafted_tokens].
    + lia.
    + simpl. rewrite Hru1. done.
    + done.
    + unfold clock in *. rewrite He2. simpl. rewrite Hc1. lia.
    + lia.
    + simpl. rewrite Hnr1, map_size_insert_Some by eauto. done.
    + done.
  - split; [|split; [|done]].
    + unfold holders. cbn [active kv_cache with_prefer_prefill with_preemptions with_active with_kv].
      rewrite Hs2. pose proof (msum_insert (λ q, if decide (pages q = []) then 0 else 1) (seqs s) r q q0 Hq) as Hm.
      simpl in Hm. rewrite (decide_False (P := pages q = [])) in Hm by done. lia.
    + simpl. apply dom_insert_lookup_L. eauto.
Qed.

Lemma preempt_newest_spec s :
  idle s → room s →
  wp preempt_newest s
    (λ again s', if again : bool then idle s' ∧ room s' ∧ preempted s s' else s' = s) (λ _ _, False).
Proof.
  intros Hi Hroom. unfold preempt_newest. wp_step. wp_step. wp_step.
  eapply wp_mono; [apply (wp_fold_m _ _ _ _ (λ _ hs s', s' = s ∧ ∀ n r, (n, r) ∈ hs →
    ∃ a q, active s !! r = Some a ∧ seqs s !! r = Some q ∧ pages q ≠ []))|].
  - split; [done|]. by intros ?? ?%elem_of_nil.
  - intros done [r a] rest hs s' Hent [-> Hhs]. unfold holder_step. simpl.
    assert (active s !! r = Some a) as Ha.
    { apply elem_of_entries. rewrite Hent. apply elem_of_app. right. by left. }
    destruct (idle_request _ _ _ _ _ _ _ _ _ Hi Ha) as (q & Hq & _ & _).
    assert (wp (let! table := kv (block_table r) in
      ret (if bool_decide (table = []) then hs else hs ++ [(admitted a, r)])) s
      (λ hs' s', s' = s ∧ ∀ n r0, (n, r0) ∈ hs' → ∃ a q, active s !! r0 = Some a ∧ seqs s !! r0 = Some q ∧ pages q ≠ [])
      (λ _ _, False)) as Hw.
    { wp_step. apply wp_kv_ok. unfold block_table. wp_step. apply sequence_spec; [|congruence].
      intros q' Hq'. simplify_eq. wp_step. wp_step. split; [by destruct s|]. case_bool_decide as Hb; [done|].
      intros n r0 [Hin|[= -> ->]%list_elem_of_singleton]%elem_of_app; [eauto|]. eauto. }
    destruct (phase a); [exact Hw|exact Hw|by wp_step].
  - cbn beta. intros hs s' [-> Hhs]. wp_step; [by wp_step|]. wp_step.
    destruct (newest_holder_some hs) as [[n r] Hv]; [intros ->; done|].
    eapply wp_expect; [exact Hv|]. cbn beta. destruct (Hhs n r) as (a & q & Ha & Hq & Hne); [by apply newest_holder_in|].
    eapply wp_mono; [by eapply preempt_spec|]. cbn beta. intros out s' (-> & ?). done.
Qed.

(** ** The loop *)

(** The state [s1] from which the batch was built: [s] after preemptions. *)
Record cleared (s s1 : ContinuousBatchScheduler) : Prop := {
  cd_idle : idle s1;
  cd_room : room s1;
  cd_dom : dom (active s1) = dom (active s);
  cd_none : recompute_preemption s = false →
    ∃ x t, s1 = with_prefer_prefill x (with_speculative_turn t s);
  cd_frame : s1 = with_kv (kv_cache s1) (with_active (active s1) (with_preemptions (preemptions s1)
    (with_prefer_prefill (prefer_prefill s1) (with_speculative_turn (speculative_turn s1) s))))
}.

Lemma schedule_loop_spec fuel s :
  idle s → room s → in_flight s = None → next_batch s < u64_max → (N.to_nat (holders s) < fuel)%nat →
  wp (schedule_loop fuel) s
    (λ ob s', match ob with
       | None => idle s' ∧ stuck s' ∧ cleared s s'
       | Some b => ∃ s1 s2, cleared s s1 ∧ sealed s1 s2 b ∧ s' = with_in_flight (Some b) s2
       end) (λ _ _, False).
Proof.
  revert s. induction fuel as [|fuel IH]; intros s Hi Hroom Hfl Hnb Hf; [lia|].
  pose proof (rm_resv _ Hroom) as Hresv. cbn [schedule_loop]. wp_step.
  eapply wp_mono; [apply try_schedule_spec; [done|done|lia]|]. cbn beta. intros [b|] s1.
  { intros (x & t & Hse). unfold put_in_flight. wp_step. wp_step. wp_step.
    eexists _, s1. split; [|split; [exact Hse|done]]. split; try done; [by eapply (opened_same _ _ _ _ _ _ s)|by destruct Hroom|by eauto]. }
  intros (t & -> & Hst). set (st := with_speculative_turn t s).
  assert (idle st) as Hit by by eapply (opened_same _ _ _ _ _ _ s).
  assert (room st) as Hrt by by destruct Hroom.
  assert (cleared s st) as Hcl.
  { split; [done|done|done| |done]. intros _. exists (prefer_prefill s), t. by destruct s. }
  wp_step. wp_step. wp_step. simpl.
  assert (wp (if recompute_preemption s then preempt_newest else ret false) st
    (λ again s', if again : bool then recompute_preemption s = true ∧ idle s' ∧ room s' ∧ preempted st s' else s' = st)
    (λ _ _, False)) as Hpre.
  { destruct (recompute_preemption s); [|by wp_step]. eapply wp_mono; [by apply preempt_newest_spec|].
    intros [] s'; [|done]. done. }
  eapply wp_mono; [exact Hpre|]. cbn beta. intros [] s2.
  - intros (Hrec & Hi2 & Hr2 & (Hh2 & Hd2 & Hs2)).
    eapply wp_mono; [apply IH; [done|done|by rewrite Hs2|by rewrite Hs2|]|].
    + change (holders st) with (holders s) in Hh2. lia.
    + assert (∀ s', cleared s2 s' → cleared s s') as Htr.
      { intros s' [Hi' Hr' Hd' _ Hf']. split; [done|done|by rewrite Hd', Hd2|congruence|]. rewrite Hf', Hs2. done. }
      intros [b|] s'.
      * intros (s3 & s4 & ? & ? & ?). exists s3, s4. auto.
      * intros (? & ? & ?). auto.
  - intros ->. wp_step. auto.
Qed.

(** What a call of [schedule] leads to. *)
Record planned (s s' : ContinuousBatchScheduler) (ob : option ScheduledBatch) : Prop := {
  pl_result : ∃ s0 s1, admits s s0 ∧ joins s s0 ∧ idle s0 ∧ (active s0 = ∅ ∨ pending_requests s = [] → s0 = s) ∧ cleared s0 s1 ∧
    match ob with
    | None => s' = s1 ∧ stuck s1 ∧ (active s1 = ∅ → ∀ p, p ∈ pending_requests s1 → ready s1 p = false)
    | Some b => ∃ s2, sealed s1 s2 b ∧ s' = with_in_flight (Some b) s2
    end
}.

Lemma schedule_spec s :
  inv chain c trusted Ctx mem log s → room s → next_batch s ≤ u64_max →
  wp (schedule chain) s
    (λ ob s', in_flight s = None ∧ next_batch s < u64_max ∧ planned s s' ob)
    (λ e s', s' = s ∧
       ((∃ b, in_flight s = Some b ∧ e = StillInFlight (batch_id b)) ∨
        (in_flight s = None ∧ next_batch s = u64_max ∧ e = BatchIdOverflow))).
Proof using Hchain.
  intros Hinv Hroom Hmax. unfold schedule. wp_step. wp_step. unfold inv in Hinv.
  destruct (in_flight s) as [b|] eqn:Hfl; [wp_step; eauto|].
  wp_step. { apply N.eqb_eq in Heqb. wp_step. auto. }
  apply N.eqb_neq in Heqb. assert (next_batch s < u64_max) as Hnb by lia. wp_step.
  eapply wp_wand; [by apply promote_pending_spec| |done].
  cbn beta. intros _ s0 (Hi0 & Hr0 & Had & Hend & Hnil & Hj). wp_step. wp_step.
  assert (in_flight s0 = None) as Hfl0 by by rewrite Had.
  assert (next_batch s0 = next_batch s) as Hnb0 by by rewrite Had.
  eapply wp_wand; [apply schedule_loop_spec; [done|done|done|by rewrite Hnb0|]| |done].
  { pose proof (same_size s0 (up_core _ _ _ _ _ _ _ _ _ Hi0)) as Hsz.
    pose proof (msum_size (λ q, if decide (pages q = []) then 0 else 1) (seqs s0)) as Hm.
    unfold holders. rewrite Hsz in Hm. assert (∀ q : SequenceState, (if decide (pages q = []) then 0 else 1) ≤ 1)
      by (intros; case_decide; lia). specialize (Hm H). lia. }
  cbn beta. intros ob s' Hob. split; [done|]. split; [done|]. split. destruct ob as [b|].
  - destruct Hob as (s1 & s2 & Hcl & Hse & ->). exists s0, s1. do 3 (split; [done|]).
    split; [naive_solver|]. eauto.
  - destruct Hob as (Hi' & Hst & Hcl). exists s0, s'. do 3 (split; [done|]). split; [naive_solver|].
    split; [done|]. split; [done|]. split; [done|]. intros He.
    assert (active s0 = ∅) as He0.
    { apply dom_empty_inv_L. rewrite <-(cd_dom _ _ Hcl), He. apply dom_empty_L. }
    destruct (Hend He0) as [-> Hrd]. rewrite (cd_frame _ _ Hcl). done.
Qed.

Lemma planned_inv s s' ob :
  in_flight s = None → planned s s' ob → inv chain c trusted Ctx mem log s' ∧ in_flight s' = ob.
Proof.
  intros Hfl [(s0 & s1 & Had & _ & _ & _ & Hcl & Hob)].
  assert (in_flight s1 = None) as Hfl1.
  { rewrite (cd_frame _ _ Hcl). simpl. rewrite Had. done. }
  destruct ob as [b|].
  - destruct Hob as (s2 & Hse & ->). split; [|done]. unfold inv. simpl. split.
    + eapply (opened_same _ _ _ _ _ _ s2); [done|apply Hse].
    + by destruct (se_batch _ _ _ _ _ _ _ _ _ Hse).
  - destruct Hob as (-> & _). split; [|done]. unfold inv. rewrite Hfl1. apply Hcl.
Qed.

(** Reserving rows takes ticks of the clock only for pages it evicts. *)
Lemma planned_clock s s' b :
  planned s s' (Some b) → clock (kv_cache s') ≤ u64_max.
Proof.
  intros [(s0 & s1 & _ & _ & _ & _ & Hcl & s2 & Hse & ->)]. simpl.
  pose proof (se_spend _ _ _ _ _ _ _ _ _ Hse) as Hsp. unfold spend in Hsp.
  pose proof (rm_clock _ (cd_room _ _ Hcl)) as Hck.
  pose proof (available_le _ _ (co_wf _ _ _ _ _ _ _ (up_core _ _ _ _ _ _ _ _ _ (cd_idle _ _ Hcl)))). lia.
Qed.
End schedule.
