(* ===== verification/SchedulerCommit.v ===== *)
(** * Running and ending batches

    On the device, the uncommitted cells of a sequence are its own: whatever is written there
    leaves the committed cells and the published pages alone, and a batch in flight reads
    exactly the histories of its requests.  Then what a completed row does to its request
    ([settle]), and the operations that end a batch: [complete_batch] and [fail_batch]. *)

From S2P Require Export SchedulerSchedule.
Open Scope N_scope.

Section exec.
Context {P : Profile} {SM : Sampling} {CM : CausalModel} (chain : N → list Z → N).
Context (c : PagedKvCacheConfig) (trusted : Prop) (Ctx : list Z → Prop) (log : gmap N submission).

Abbreviation bs := (block_size c).
Abbreviation seqs s := (sequences (kv_cache s)).
Abbreviation core := (core chain c trusted Ctx).
Abbreviation upto := (upto chain c trusted Ctx).
Abbreviation opened := (opened chain c trusted Ctx).

(** ** Private cells *)

Lemma locate_page tbl pos p o : locate bs tbl pos = Some (p, o) → tbl !! N.to_nat (pos / bs) = Some p ∧ o = pos mod bs.
Proof. unfold locate. destruct (tbl !! _) eqn:Ht; simpl; [|done]. intros [= <- <-]. done. Qed.

Lemma tail_private k r q pos cell :
  wf k → config k = c → sequences k !! r = Some q → committed_tokens q ≤ pos → locate bs (pages q) pos = Some cell →
  unpublished k cell.1 ∧
  ∀ r' q' pos', sequences k !! r' = Some q' → locate bs (pages q') pos' = Some cell → r' = r ∧ pos' = pos.
Proof.
  intros Hwf Hc Hq Hpos Hloc. destruct cell as [p o]. apply locate_page in Hloc as [Hp ->]. simpl.
  pose proof (wf_bs _ _ Hwf) as Hbs. rewrite Hc in Hbs.
  destruct (wf_tails _ _ Hwf r q (N.to_nat (pos / bs)) p Hq Hp) as [Hone Hup].
  { rewrite N2Nat.id, Hc. by apply N.Div0.div_le_mono. }
  split; [done|]. intros r' q' pos' Hq' [Hp' Ho]%locate_page. unfold held in Hone. rewrite occ_nil in Hone.
  destruct (decide (r' = r)) as [->|Hne].
  - assert (q' = q) as -> by congruence. split; [done|]. destruct (decide (N.to_nat (pos' / bs) = N.to_nat (pos / bs))) as [Heq|Hne].
    + destruct (pos_block c pos Hbs) as [-> _]. destruct (pos_block c pos' Hbs) as [-> _].
      rewrite Heq. congruence.
    + exfalso. pose proof (occ_two p (pages q) _ _ Hne Hp' Hp). pose proof (total_le p _ _ _ Hq). lia.
  - exfalso. pose proof (total_le_two p _ _ _ _ _ Hne Hq' Hq).
    apply list_elem_of_lookup_2, occ_pos in Hp, Hp'. lia.
Qed.

(** A cell of a position not committed yet. *)
Definition tail_cell (s : ContinuousBatchScheduler) (cell : N * N) : Prop :=
  ∃ r q pos, seqs s !! r = Some q ∧ committed_tokens q ≤ pos ∧ locate bs (pages q) pos = Some cell.
(** The device has written to such cells at most. *)
Definition only_tails (s : ContinuousBatchScheduler) (mem mem' : memory) : Prop :=
  ∀ cell, ¬ tail_cell s cell → mem' cell = mem cell.

Lemma core_mem mem mem' s : (trusted → only_tails s mem mem') → core mem log s → core mem' log s.
Proof.
  intros Hf Hcore. pose proof (co_wf _ _ _ _ _ _ _ Hcore) as Hwf. pose proof (co_config _ _ _ _ _ _ _ Hcore) as Hc.
  destruct Hcore. split; try done.
  - intros r a q Ha Hq. pose proof (co_req r a q Ha Hq) as Hreq. destruct Hreq. split; try done.
    intros Ht. eapply holds_frame; [|by apply ro_holds]. intros pos cell Hpos Hloc. apply Hf; [done|].
    intros (r' & q' & pos' & Hq' & Hpos' & Hloc').
    destruct (tail_private _ _ _ _ _ Hwf Hc Hq' Hpos' Hloc') as [_ Hpriv].
    destruct (Hpriv _ _ _ Hq Hloc) as [-> ->]. assert (q' = q) as -> by congruence. lia.
  - intros Ht. eapply published_mem; [|by apply co_pub]. intros k p o Hk Ho. apply Hf; [done|].
    intros (r' & q' & pos' & Hq' & Hpos' & Hloc').
    destruct (tail_private _ _ _ _ _ Hwf Hc Hq' Hpos' Hloc') as [Hup _]. simpl in Hup.
    apply (po_idx _ _ _ _ _ _ _ _ (wf_pages _ _ Hwf)) in Hk as [t Hk]. unfold unpublished in Hup. congruence.
Qed.
Lemma upto_mem mem mem' s rs F : (trusted → only_tails s mem mem') → upto mem log s rs F → upto mem' log s rs F.
Proof. intros Hf []. split; try done. by eapply core_mem. Qed.
Lemma inv_mem mem mem' s :
  (trusted → only_tails s mem mem') → inv chain c trusted Ctx mem log s → inv chain c trusted Ctx mem' log s.
Proof.
  unfold inv. intros Hf. destruct (in_flight s).
  - intros [? ?]. split; [|done]. by eapply upto_mem.
  - by apply upto_mem.
Qed.

(** ** Execution *)

(** What the row of a request is the continuation of. *)
Definition row_context (s : ContinuousBatchScheduler) (row : ScheduledSequence) : list Z :=
  match active s !! request_id row with
  | Some a => take (N.to_nat (start_pos row)) (history a)
  | None => []
  end.

Lemma div_lt_ceil pos n : 0 < bs → pos < n → pos / bs < div_ceil n bs.
Proof. intros Hbs Hp. pose proof (div_ceil_spec n bs Hbs). apply N.Div0.div_lt_upper_bound. lia. Qed.

Lemma locate_some tbl pos n : 0 < bs → pos < n → div_ceil n bs ≤ len tbl → is_Some (locate bs tbl pos).
Proof.
  intros Hbs Hp Hn. pose proof (div_lt_ceil pos n Hbs Hp). destruct (lookup_lt_len tbl (pos / bs)) as [p Hl]; [lia|].
  unfold locate. rewrite Hl. simpl. eauto.
Qed.
Lemma locate_shrink tbl tbl' pos cell :
  tbl `prefix_of` tbl' → is_Some (locate bs tbl pos) → locate bs tbl' pos = Some cell → locate bs tbl pos = Some cell.
Proof. intros Hp [x Hx] Hl. rewrite (locate_prefix _ _ _ _ _ Hp Hx) in Hl. congruence. Qed.

Section batch.
Context (mem : memory) (s : ContinuousBatchScheduler) (k : ScheduledBatchKind) (rs : list ScheduledSequence).
Context (ph : ScheduledSequence → RequestPhase) (Ho : opened mem log s k rs ph) (Ht : trusted).

Lemma batch_row row :
  row ∈ rs → ∃ a q, active s !! request_id row = Some a ∧ seqs s !! request_id row = Some q ∧
    row_open c (reservations (kv_cache s)) k (ph row) row a q ∧ req_ok chain c trusted Ctx mem log (request_id row) a q ∧
    row_context s row = take (N.to_nat (start_pos row)) (history a) ∧ len (row_context s row) = start_pos row.
Proof using Ho.
  intros Hin. destruct (up_rows _ _ _ _ _ _ _ _ _ Ho row Hin) as (a & q & Ha & Hq & Hop).
  pose proof (co_req _ _ _ _ _ _ _ (up_core _ _ _ _ _ _ _ _ _ Ho) _ _ _ Ha Hq) as Hreq.
  exists a, q. do 4 (split; [done|]). unfold row_context. rewrite Ha. split; [done|].
  pose proof (ro_committed _ _ _ _ _ _ _ _ _ Hreq). rewrite (rw_start _ _ _ _ _ _ _ Hop).
  unfold len in *. rewrite length_take. lia.
Qed.

Lemma batch_row_runs row : row ∈ rs → row_runs bs mem (row_context s row) row.
Proof using Ho Ht.
  intros Hin. destruct (batch_row row Hin) as (a & q & Ha & Hq & Hop & Hreq & Hctx & Hlen).
  pose proof (up_core _ _ _ _ _ _ _ _ _ Ho) as Hcore. pose proof (co_wf _ _ _ _ _ _ _ Hcore) as Hwf.
  pose proof (co_config _ _ _ _ _ _ _ Hcore) as Hc. pose proof (wf_bs _ _ Hwf) as Hbs. rewrite Hc in Hbs.
  destruct Hop as [_ _ Hst Hcl Htab Hpg _ _]. unfold row_runs. rewrite Hlen.
  assert (∀ pos, pos < start_pos row + len (token_ids row) → is_Some (locate bs (row_table row) pos)) as Hex.
  { intros pos Hpos. eapply locate_some; [done| |exact Hpg]. lia. }
  split; [done|]. split; [split; [done|]|].
  - intros pos pos' cell Hpos Hpos' Hl Hl'.
    destruct (tail_private (kv_cache s) (request_id row) q pos' cell) as [_ Hpriv]; [done|done|done|lia|by eapply locate_prefix|].
    by destruct (Hpriv (request_id row) q pos Hq) as [_ ?]; [by eapply locate_prefix|].
  - intros pos Hpos. destruct (ro_holds _ _ _ _ _ _ _ _ _ Hreq Ht pos) as (cell & Hl & Hcell); [lia|].
    exists cell. split; [eapply locate_shrink; [done|apply Hex; lia|done]|].
    rewrite <-Hcell, Hctx. apply (cells_of_lookup _ _ (N.to_nat (start_pos row))); [|lia].
    rewrite take_take. f_equal. lia.
Qed.

Lemma batch_apart i j row row' cell :
  i ≠ j → rs !! i = Some row → rs !! j = Some row' → row_writes bs row cell → row_reads bs row' cell → False.
Proof using Ho.
  intros Hij Hi Hj (pos & Hpos & Hl) (pos' & Hpos' & Hl').
  destruct (batch_row row) as (a & q & _ & Hq & Hop & _); [by eapply list_elem_of_lookup_2|].
  destruct (batch_row row') as (a' & q' & _ & Hq' & Hop' & _); [by eapply list_elem_of_lookup_2|].
  pose proof (up_core _ _ _ _ _ _ _ _ _ Ho) as Hcore.
  destruct (tail_private (kv_cache s) (request_id row) q pos cell) as [_ Hpriv].
  - apply Hcore.
  - apply Hcore.
  - done.
  - rewrite <-(rw_start _ _ _ _ _ _ _ Hop). lia.
  - eapply locate_prefix; [apply Hop|done].
  - destruct (Hpriv (request_id row') q' pos' Hq') as [Heq _]; [eapply locate_prefix; [apply Hop'|done]|].
    apply Hij. eapply (NoDup_lookup (request_id <$> rs)); [apply Ho|..]; rewrite list_lookup_fmap; [by rewrite Hi|].
    rewrite Hj. simpl. by rewrite Heq.
Qed.

(** Running the batch: each row predicts as if it were alone on its own history, and what is
    written is not committed. *)
Lemma exec_batch_spec :
  ∃ mem', exec_rows bs mem rs = (mem', (λ row, predictions (row_context s row) (token_ids row)) <$> rs) ∧
    only_tails s mem mem' ∧
    ∀ row q, row ∈ rs → seqs s !! request_id row = Some q →
      holds bs mem' (pages q) (row_context s row ++ token_ids row) (context_length row).
Proof using Ho Ht.
  destruct (exec_rows_spec bs (row_context s) rs mem batch_row_runs batch_apart) as (mem' & Hrun & Hh & Hf).
  exists mem'. split; [done|]. split.
  - intros cell Hcell. apply Hf. intros row Hin (pos & Hpos & Hl).
    destruct (batch_row row Hin) as (a & q & _ & Hq & Hop & _). apply Hcell. exists (request_id row), q, pos.
    split; [done|]. split; [rewrite <-(rw_start _ _ _ _ _ _ _ Hop); lia|].
    eapply locate_prefix; [apply Hop|done].
  - intros row q Hin Hq. destruct (batch_row row Hin) as (a & q' & _ & Hq' & Hop & _ & _ & Hlen). simplify_eq.
    rewrite (rw_context _ _ _ _ _ _ _ Hop), <-Hlen. eapply holds_prefix; [apply Hop|]. by apply Hh.
Qed.
End batch.
End exec.

Section commit.
Context {P : Profile} {SM : Sampling} {CM : CausalModel} (chain : N → list Z → N).
Context (c : PagedKvCacheConfig) (trusted : Prop) (Ctx : list Z → Prop).
Context (mem : memory) (log : gmap N submission).

Abbreviation bs := (block_size c).
Abbreviation seqs s := (sequences (kv_cache s)).
Abbreviation core := (core chain c trusted Ctx mem log).
Abbreviation upto := (upto chain c trusted Ctx mem log).
Abbreviation opened := (opened chain c trusted Ctx mem log).
Abbreviation req_ok := (req_ok chain c trusted Ctx mem log).
Abbreviation published := (published chain c Ctx mem).

(** ** Publishing *)

(** A manager [k'] in which only the sequence [r] of [k] has changed, to [q']. *)
Record touched (k k' : PagedKvCacheManager) (r : N) (q' : SequenceState) : Prop := {
  to_wf : wf k';
  to_config : config k' = c;
  to_seqs : sequences k' = <[r := q']> (sequences k);
  to_pub : trusted → published (block_index k');
  to_resv : reservations k' = reservations k;
  to_clock : clock k' ≤ clock k
}.

Lemma register_spec r h q k :
  wf k → config k = c → sequences k !! r = Some q →
  chain_hash q = chain_prefix chain h bs (N.to_nat (registered_blocks q)) →
  (trusted → published (block_index k)) →
  (trusted → holds bs mem (pages q) h (committed_tokens q) ∧ Ctx h) →
  wp (register_prefix chain r h) k
    (λ _ k', ∃ q', touched k k' r q' ∧ committed_tokens q' = committed_tokens q ∧ pages q' = pages q ∧
       pending q' = pending q ∧ chain_hash q' = chain_prefix chain h bs (N.to_nat (registered_blocks q')))
    (λ _ _, False).
Proof.
  intros Hwf Hc Hq Hch Hpub Hh. pose proof (wf_bs _ _ Hwf) as Hbs. rewrite Hc in Hbs.
  eapply wp_mono; [apply (register_prefix_ok chain r h q); [done|done|by rewrite Hc]|].
  cbn beta. intros _ k' (Hwf' & (Hti & Hnr & Hpc & Hc' & Hrs) & _ & (q' & Hs & Hcom & Hpg & Hpd & Hch') & Hix).
  rewrite Hc in *. exists q'. split; [|done]. split; [done|congruence|done| |done|].
  - intros Ht key p [Hk|(i & -> & Hi & Hp)]%Hix; [by apply Hpub|]. destruct (Hh Ht) as [Hholds Hctx].
    exists h, i. split; [done|]. split; [lia|]. split; [done|]. intros o Ho.
    destruct (Hholds (N.of_nat i * bs + o)) as (cell & Hl & Hcell); [lia|].
    rewrite (locate_block c _ p) in Hl by done. by simplify_eq.
  - unfold clock. rewrite Hti, Hs. pose proof (entries_insert (sequences k) r q q' Hq) as He. rewrite Hpg in He. lia.
Qed.

(** ** Settling a row *)

(** Only the request [r] has changed: it is gone, or in no batch any more. *)
Record settled (r : N) (s s' : ContinuousBatchScheduler) : Prop := {
  st_core : core s';
  st_active : ∀ r', r' ≠ r → active s' !! r' = active s !! r';
  st_seqs : ∀ r', r' ≠ r → seqs s' !! r' = seqs s !! r';
  st_idle : ∀ a q, active s' !! r = Some a → seqs s' !! r = Some q → idle_ok a q;
  st_frame : s' = with_kv (kv_cache s') (with_active (active s') (with_finished (finished s') s))
}.

Lemma upto_settled s s' row todo F G :
  upto s (row :: todo) F → settled (request_id row) s s' →
  (∀ row' a q, row' ∈ todo → F row' a q → G row' a q) → upto s' todo G.
Proof.
  intros [Hcore Hnd Hrows Hidle] [Hcore' Ha' Hs' Hid' _] HFG. rewrite fmap_cons in Hnd.
  apply NoDup_cons in Hnd as [Hnin Hnd]. split; [done|done|..].
  - intros row' Hin. destruct (Hrows row') as (a & q & Ha & Hq & HF); [by right|].
    assert (request_id row' ≠ request_id row).
    { intros Heq. apply Hnin. rewrite <-Heq. by apply list_elem_of_fmap_2. }
    exists a, q. rewrite Ha', Hs' by done. eauto.
  - intros r a q Ha Hq Hr. destruct (decide (r = request_id row)) as [->|Hne]; [by apply Hid'|].
    rewrite Ha' in Ha by done. rewrite Hs' in Hq by done. eapply Hidle; [done..|].
    rewrite fmap_cons, not_elem_of_cons. done.
Qed.

(** The tokens [ts] that a request gets, the last one of them being [t]. *)
Record gets_tokens (r : N) (a : ActiveRequest) (ts : list Z) (t : Z) : Prop := {
  gt_last : last ts = Some t;
  gt_eos : ∀ j u, ts !! j = Some u → (S j < length ts)%nat → u ∉ eos a;
  gt_len : len (generated a) + len ts ≤ max_new_tokens (generation a);
  gt_greedy : trusted → ∀ g, log !! r = Some (mkSubmission (prompt a) g true) →
    greedy_run (prompt a) (generated a ++ ts);
  gt_ctx : trusted → Ctx (history a ++ ts)
}.

Lemma gets_no_eos r a ts t q :
  req_ok r a q → gets_tokens r a ts t → t ∉ eos a → ∀ u, u ∈ generated a ++ ts → u ∉ eos a.
Proof.
  intros Hreq [Hl He _ _ _] Ht u [Hu|[j Hu]%list_elem_of_lookup]%elem_of_app; [by eapply Hreq|].
  destruct (decide (S j < length ts)%nat) as [Hj|Hj]; [by eapply He|].
  rewrite last_lookup in Hl. pose proof (lookup_lt_Some _ _ _ Hu).
  assert (pred (length ts) = j) as Heq by lia. rewrite Heq in Hl. congruence.
Qed.

Lemma gets_finished r a ts t q :
  req_ok r a q → gets_tokens r a ts t →
  bool_decide (t ∈ eos a) || (max_new_tokens (generation a) <=? len (generated a ++ ts)) = true →
  fin_ok trusted log (mkFinished r (prompt a) (generated a ++ ts) (bool_decide (t ∈ eos a))).
Proof.
  intros Hreq [Hl He Hn Hg _] Hfin. destruct (ro_log _ _ _ _ _ _ _ _ _ Hreq) as (b & Hlog & _ & _).
  pose proof (ro_eos _ _ _ _ _ _ _ _ _ Hreq) as Heos. exists (generation a), b. simpl.
  assert (last (generated a ++ ts) = Some t) as Hlast by by rewrite last_app, Hl.
  rewrite len_app. split; [done|]. split; [lia|]. split; [|split].
  - rewrite bool_decide_eq_true, Hlast, Heos. naive_solver.
  - intros Hf. rewrite Hf, len_app in Hfin. simpl in Hfin. apply N.leb_le in Hfin. lia.
  - intros Ht ->. apply greedy_run_decode.
    + by eapply Hg.
    + rewrite length_app. unfold len in Hn. lia.
    + rewrite <-Heos. intros i u Hi Hlt. apply lookup_app_Some in Hi as [Hi|[Hle Hi]].
      * eapply Hreq. by eapply list_elem_of_lookup_2.
      * eapply He; [done|]. rewrite length_app in Hlt. lia.
    + apply orb_true_iff in Hfin as [Hx%bool_decide_eq_true|Hx%N.leb_le].
      * right. rewrite <-Heos. eauto.
      * left. rewrite len_app in Hx. unfold len in *. rewrite length_app. lia.
Qed.

(** What happens between the commit of the tokens and the end of the row: nothing, or the
    publication of the history. *)
Definition publishes (k : PagedKvCacheManager) (r : N) (q : SequenceState) (h : list Z)
    (m : M ContinuousBatchScheduler ContinuousBatchError unit) : Prop :=
  ∀ s, kv_cache s = k → wp m s (λ _ s', ∃ k' q', s' = with_kv k' s ∧ touched k k' r q' ∧
    committed_tokens q' = committed_tokens q ∧ pages q' = pages q ∧ pending q' = pending q ∧
    chain_hash q' = chain_prefix chain h bs (N.to_nat (registered_blocks q'))) (λ _ _, False).

Lemma settle_spec s r a q k q1 ts t before :
  core s → active s !! r = Some a → seqs s !! r = Some q →
  sequences k = <[r := q1]> (seqs s) → clock k ≤ u64_max → pending q1 = None →
  committed_tokens q1 + 1 = len (history a ++ ts) →
  (trusted → holds bs mem (pages q1) (history a ++ ts) (committed_tokens q1)) →
  gets_tokens r a ts t → publishes k r q1 (history a ++ ts) before →
  wp (settle r (extend ts a) t before) (with_kv k s)
    (λ _ s', settled r s s' ∧ reservations (kv_cache s') = reservations k ∧ clock (kv_cache s') ≤ clock k)
    (λ _ _, False).
Proof.
  intros Hcore Ha Hq Hk Hclk Hp1 Hcom Hholds Hgets Hbefore.
  pose proof (co_req _ _ _ _ _ _ _ Hcore _ _ _ Ha Hq) as Hreq. set (a' := extend ts a).
  unfold settle, put_active. wp_step. wp_step. wp_step. eapply wp_wand; [by apply Hbefore| |done].
  cbn beta. intros _ s1 (k2 & q2 & -> & [Hwf2 Hc2 Hs2 Hpub2 Hrs2 Hclk2] & Hcom2 & Hpg2 & Hpd2 & Hch2).
  rewrite Hk, insert_insert_eq in Hs2. rewrite Hp1 in Hpd2.
  destruct (bool_decide (t ∈ eos a') || (max_new_tokens (generation a') <=? len (generated a'))) eqn:Hfin.
  - unfold finish_request, drop_active. wp_step. wp_step. wp_step. eapply wp_expect; [by apply lookup_insert_eq|].
    cbn beta. wp_step. wp_step. wp_step. apply wp_kv_ok. simpl.
    eapply wp_wand; [apply (remove_sequence_ok r q2); [done|by rewrite Hs2, lookup_insert_eq|done|lia]| |done].
    cbn beta. intros _ k3 (Hwf3 & Hc3 & _ & Hr3 & Hs3 & Hclk3 & (Hix3 & _)). wp_step. simpl.
    rewrite Hs2, delete_insert_eq in Hs3. rewrite delete_insert_eq. split; [|split; [congruence|lia]].
    assert (core (with_kv k3 (with_active (delete r (active s)) s))) as Hcore3.
    { eapply core_drop; [done|done|done|congruence| |done]. intros Ht. eapply published_sub; [exact Hix3|auto]. }
    split; simpl.
    + pose proof (core_finish _ _ _ _ _ _ _ _ Hcore3 (gets_finished _ _ _ _ _ Hreq Hgets Hfin)) as Hf. exact Hf.
    + intros r' Hne. by apply lookup_delete_ne.
    + intros r' Hne. rewrite Hs3. by apply lookup_delete_ne.
    + intros a0 q0 Ha0. by rewrite lookup_delete_eq in Ha0.
    + done.
  - unfold put_active. wp_step. simpl. rewrite insert_insert_eq. split; [|split; [congruence|lia]].
    apply orb_false_iff in Hfin as [Ht%bool_decide_eq_false Hn%N.leb_gt]. simpl in Ht, Hn.
    assert (req_ok r (set_phase (AwaitingDecode t) a') q2) as Hreq2.
    { apply req_ok_phase. pose proof (gets_no_eos _ _ _ _ _ Hreq Hgets Ht) as Hne.
      destruct Hgets as [_ _ _ Hg Hctx]. destruct Hreq. split; simpl; try done.
      - by rewrite ro_history, app_assoc.
      - destruct ro_log as (b & Hl & Hb & _). exists b. split; [done|]. split; [done|]. intros Htr ->. by eapply Hg.
      - lia.
      - intros Htr. rewrite Hpg2, Hcom2. auto. }
    split; simpl.
    + exact (core_swap _ _ _ _ _ _ _ _ _ _ _ _ _ Hcore Ha Hq Hwf2 Hc2 Hpub2 Hs2 Hreq2 eq_refl eq_refl).
    + intros r' Hne. by apply lookup_insert_ne.
    + intros r' Hne. rewrite Hs2. by apply lookup_insert_ne.
    + intros a0 q0. rewrite Hs2, !lookup_insert_eq. intros [= <-] [= <-]. split; [done|]. simpl.
      split; [lia|]. by rewrite last_app, (gt_last _ _ _ _ Hgets).
    + done.
Qed.

(** ** Closing the reservations of a batch *)

Definition shut (pos : N) (q : SequenceState) : SequenceState :=
  mkSequence pos (take (N.to_nat (div_ceil pos bs)) (pages q)) None (registered_blocks q) (chain_hash q).

Lemma holds_cut tbl h n : 0 < bs → holds bs mem tbl h n → holds bs mem (take (N.to_nat (div_ceil n bs)) tbl) h n.
Proof.
  intros Hbs Hh pos Hpos. destruct (Hh pos Hpos) as (cell & Hl & Hc). exists cell. split; [|done].
  unfold locate in *. rewrite lookup_take_lt; [done|]. pose proof (div_lt_ceil c pos n Hbs Hpos). lia.
Qed.

(** The reservation of a row. *)
Lemma row_reservation s kind rs ph row :
  opened s kind rs ph → row ∈ rs → ∃ a q rv, active s !! request_id row = Some a ∧
    seqs s !! request_id row = Some q ∧ row_open c (reservations (kv_cache s)) kind (ph row) row a q ∧
    reservations (kv_cache s) !! reservation_id row = Some rv ∧ rs_request_id rv = request_id row ∧
    start_position rv = start_pos row ∧ 0 < len (token_ids row) ≤ token_count rv.
Proof.
  intros Ho Hin. destruct (up_rows _ _ _ _ _ _ _ _ _ Ho row Hin) as (a & q & Ha & Hq & Hop).
  pose proof (co_wf _ _ _ _ _ _ _ (up_core _ _ _ _ _ _ _ _ _ Ho)) as Hwf.
  destruct (rw_resv _ _ _ _ _ _ _ Hop) as (rv & Hrv & Hn). exists a, q, rv. do 4 (split; [done|]).
  destruct (wf_seqs _ _ Hwf _ _ Hq) as [_ Hs]. rewrite (rw_pending _ _ _ _ _ _ _ Hop) in Hs.
  destruct Hs as (rv' & Hrv' & Hid & Hst & _). assert (rv' = rv) as -> by congruence.
  split; [done|]. split; [|done]. rewrite Hst. symmetry. apply Hop.
Qed.
Lemma rows_reservations s kind rs ph : opened s kind rs ph → NoDup (reservation_id <$> rs).
Proof.
  intros Ho. apply NoDup_alt. intros i j id Hi Hj. rewrite list_lookup_fmap in Hi, Hj.
  destruct (rs !! i) as [row|] eqn:Hri; [|done]. destruct (rs !! j) as [row'|] eqn:Hrj; [|done].
  simpl in Hi, Hj. apply (f_equal (default 0)) in Hi, Hj. simpl in Hi, Hj.
  destruct (row_reservation _ _ _ _ row Ho) as (_ & _ & rv & _ & _ & _ & Hrv & Hr & _); [by eapply list_elem_of_lookup_2|].
  destruct (row_reservation _ _ _ _ row' Ho) as (_ & _ & rv' & _ & _ & _ & Hrv' & Hr' & _); [by eapply list_elem_of_lookup_2|].
  eapply (NoDup_lookup (request_id <$> rs)); [apply Ho|..]; rewrite list_lookup_fmap; [by rewrite Hri|].
  rewrite Hrj. simpl. congruence.
Qed.

Lemma upto_closes s k kind rs ph f (pos : ScheduledSequence → N) :
  opened s kind rs ph → wf k → closes (kv_cache s) k f → block_index k ⊆ block_index (kv_cache s) →
  (∀ row, row ∈ rs → f !! reservation_id row = Some (pos row)) →
  (∀ row a q, row ∈ rs → active s !! request_id row = Some a → seqs s !! request_id row = Some q →
     row_open c (reservations (kv_cache s)) kind (ph row) row a q →
     pos row ≤ len (history a) ∧ (trusted → holds bs mem (pages q) (history a) (pos row))) →
  upto (with_kv k s) rs (λ row a q', ∃ q, q' = shut (pos row) q ∧ seqs s !! request_id row = Some q ∧
    row_open c (reservations (kv_cache s)) kind (ph row) row a q).
Proof.
  intros Ho Hwf [Hc _ Hs _ _] Hix Hf Hpos. pose proof Ho as [Hcore Hnd Hrows Hidle].
  pose proof (co_config _ _ _ _ _ _ _ Hcore) as Hc0. rewrite Hc0 in Hs, Hc.
  pose proof (wf_bs _ _ Hwf) as Hbs. rewrite Hc in Hbs.
  assert (∀ row q, row ∈ rs → seqs s !! request_id row = Some q → sequences k !! request_id row = Some (shut (pos row) q)) as Hin.
  { intros row q Hin Hq. rewrite Hs, lookup_fmap, Hq. simpl. unfold close_seq.
    destruct (Hrows row Hin) as (a & q' & _ & Hq' & Hop). assert (q' = q) as -> by congruence.
    by rewrite (rw_pending _ _ _ _ _ _ _ Hop); simpl; rewrite Hf. }
  assert (∀ r a q, active s !! r = Some a → seqs s !! r = Some q → r ∉ request_id <$> rs → sequences k !! r = Some q) as Hout.
  { intros r a q Ha Hq Hr. rewrite Hs, lookup_fmap, Hq. simpl. unfold close_seq.
    by destruct (Hidle r a q Ha Hq Hr) as [-> _]. }
  assert (∀ r, is_Some (sequences k !! r) ↔ is_Some (seqs s !! r)) as Hdom.
  { intros r. rewrite Hs, lookup_fmap. apply fmap_is_Some. }
  split; [|done|..].
  - apply core_kv; [done|done|done| |done|].
    + intros Ht. eapply published_sub; [exact Hix|]. by apply Hcore.
    + intros r a q' Ha Hq'. destruct (proj1 (Hdom r)) as [q Hq]; [eauto|].
      pose proof (co_req _ _ _ _ _ _ _ Hcore _ _ _ Ha Hq) as Hreq.
      destruct (decide (r ∈ request_id <$> rs)) as [(row & -> & Hrow)%list_elem_of_fmap|Hr]; cycle 1.
      { rewrite (Hout r a q) in Hq' by done. congruence. }
      rewrite (Hin row q) in Hq' by done. assert (q' = shut (pos row) q) as -> by congruence.
      destruct (Hrows row Hrow) as (a1 & q1 & Ha1 & Hq1 & Hop).
      assert (a1 = a) as -> by congruence. assert (q1 = q) as -> by congruence.
      destruct (Hpos row a q) as [Hle Hh]; [done..|].
      eapply req_ok_seq; [exact Hreq|done|done|done|]. intros Ht. apply holds_cut; auto.
  - intros row Hrow. destruct (Hrows row Hrow) as (a & q & Ha & Hq & Hop). exists a, (shut (pos row) q).
    split; [done|]. split; [by apply Hin|]. eauto.
  - intros r a q' Ha Hq' Hr. simpl in Ha, Hq'. destruct (proj1 (Hdom r)) as [q Hq]; [eauto|].
    rewrite (Hout r a q) in Hq' by done. assert (q' = q) as -> by congruence. by eapply Hidle.
Qed.

(** ** Taking the batch in flight *)

Abbreviation inv := (inv chain c trusted Ctx mem log).

Lemma with_flight_back s b : in_flight s = Some b → with_in_flight (Some b) (with_in_flight None s) = s.
Proof. destruct s. simpl. by intros ->. Qed.

(** No batch of that id is in flight. *)
Definition not_in_flight (s : ContinuousBatchScheduler) (id : N) : Prop :=
  ∀ b, in_flight s = Some b → batch_id b ≠ id.

Lemma take_batch_spec id s :
  wp (take_batch id) s
    (λ b s', in_flight s = Some b ∧ batch_id b = id ∧ s' = with_in_flight None s)
    (λ _ s', s' = s ∧ not_in_flight s id).
Proof.
  unfold take_batch, put_in_flight. wp_step. wp_step. wp_step. wp_step. wp_step.
  destruct (in_flight s) as [b|] eqn:Hb; unfold ok_or; wp_step; cycle 1.
  { split; [by destruct s; simpl in *; subst|]. intros ? ?. congruence. }
  wp_step; [|wp_step; by apply negb_false_iff, N.eqb_eq in Heqb0].
  apply negb_true_iff, N.eqb_neq in Heqb0. wp_step. wp_step. wp_step. split; [by apply with_flight_back|].
  intros b' ?. congruence.
Qed.

Lemma or_give_back_ok {A} b (m : M ContinuousBatchScheduler ContinuousBatchError A) s Q R :
  wp m s Q (λ _ _, False) → wp (or_give_back b m) s Q R.
Proof. unfold or_give_back, wp. by destruct (m s) as [[] ?]. Qed.

Lemma rows_owned s kind rs id row :
  opened s kind rs (λ _, InFlight id) → row ∈ rs → ownership_error s id row = None.
Proof.
  intros Ho Hin. destruct (up_rows _ _ _ _ _ _ _ _ _ Ho row Hin) as (a & q & Ha & _ & Hop).
  unfold ownership_error. rewrite Ha, decide_True; [done|apply Hop].
Qed.

(** ** A failed batch *)

Lemma prior_idle rsv kind ph row a q :
  row_open c rsv kind ph row a q → idle_ok (set_phase (prior kind row) a) (reset bs q).
Proof.
  intros [_ _ Hst Hcl _ _ (rv & _ & Hn) Htok]. split; [done|]. destruct kind; simpl in *.
  - destruct Htok. lia.
  - destruct Htok as (t & Ht & Hl & Hc). rewrite Ht in *. simpl. unfold len at 1 in Hcl. simpl in Hcl. split; [lia|done].
  - destruct Htok as (t & d & Ht & Hl & Hc & _). rewrite Ht. simpl. split; [lia|done].
Qed.

Lemma restore_row_run rsv kind ph row a q s a' :
  row_open c rsv kind ph row a q → active s !! request_id row = Some a' →
  restore_row kind row s = (Ok tt, with_active (<[request_id row := set_phase (prior kind row) a']> (active s)) s).
Proof.
  intros [_ _ _ _ _ _ _ Htok] Ha. unfold restore_row, bind, gets, expect. rewrite Ha. destruct kind; [done|..].
  - destruct Htok as (t & Ht & _). unfold index, prior. by rewrite Ht.
  - destruct Htok as (t & d & Ht & _). unfold index, prior. by rewrite Ht.
Qed.

(** Both the requests and the sequences are back where they were. *)
Record failed (s s' : ContinuousBatchScheduler) (b : ScheduledBatch) : Prop := {
  fa_inv : inv s';
  fa_seqs : seqs s' = reset bs <$> seqs s;
  fa_phases : phased (rows b) (prior (batch_kind b)) (active s) (active s');
  fa_frame : s' = with_kv (kv_cache s') (with_active (active s') (with_in_flight None s))
}.

Lemma closes_reset s k kind rs ph f :
  opened s kind rs ph → closes (kv_cache s) k f →
  (∀ row, row ∈ rs → f !! reservation_id row = Some (start_pos row)) →
  sequences k = reset bs <$> seqs s.
Proof.
  intros Ho [Hc _ Hs _ _] Hf. pose proof Ho as [Hcore _ Hrows Hidle].
  pose proof (co_config _ _ _ _ _ _ _ Hcore) as Hc0. rewrite Hc0 in Hs. rewrite Hs.
  apply map_fmap_ext. intros r q Hq. unfold close_seq.
  destruct (proj2 (co_dom _ _ _ _ _ _ _ Hcore r)) as [a Ha]; [eauto|].
  destruct (decide (r ∈ request_id <$> rs)) as [(row & -> & Hrow)%list_elem_of_fmap|Hr].
  - destruct (Hrows row Hrow) as (a' & q' & _ & Hq' & Hop). assert (q' = q) as -> by congruence.
    rewrite (rw_pending _ _ _ _ _ _ _ Hop). simpl. rewrite Hf by done. unfold reset.
    by rewrite (rw_start _ _ _ _ _ _ _ Hop).
  - destruct (Hidle r a q Ha Hq Hr) as [Hp _]. rewrite Hp. simpl. unfold reset.
    destruct (wf_seqs _ _ (co_wf _ _ _ _ _ _ _ Hcore) _ _ Hq) as [_ Hl]. rewrite Hp, Hc0 in Hl.
    rewrite take_ge by (unfold len in Hl; lia). destruct q. simpl in *. by subst.
Qed.

Lemma fail_batch_spec id s :
  inv s → clock (kv_cache s) ≤ u64_max →
  wp (fail_batch id) s
    (λ _ s', ∃ b, in_flight s = Some b ∧ batch_id b = id ∧ failed s s' b)
    (λ _ s', s' = s ∧ not_in_flight s id).
Proof.
  intros Hinv Hclk. unfold fail_batch. wp_step. eapply wp_wand; [apply take_batch_spec| |done].
  cbn beta. intros b s1 (Hb & Hid & ->). unfold inv in Hinv. rewrite Hb in Hinv. destruct Hinv as [Ho Hbo].
  wp_step. wp_step.
  assert (existsb (λ row, bool_decide (is_Some (ownership_error (with_in_flight None s) id row))) (rows b) = false) as ->.
  { apply not_true_is_false. intros (row & Hin%list_elem_of_In & Hx%bool_decide_eq_true)%existsb_exists.
    change (is_Some (ownership_error s id row)) in Hx.
    rewrite <-Hid in Hx. rewrite (rows_owned _ _ _ _ _ Ho Hin) in Hx. by destruct Hx. }
  wp_step. apply or_give_back_ok, wp_kv_ok. simpl. pose proof Ho as [Hcore Hnd Hrows Hidle].
  eapply wp_wand; [eapply (wp_leads shrinks), cancel_appends_ok;
    [apply cancel_appends_shrinks|apply Hcore|by eapply rows_reservations| |done]| |naive_solver].
  { intros id0 (row & -> & Hin)%list_elem_of_fmap.
    destruct (row_reservation _ _ _ _ _ Ho Hin) as (_ & _ & rv & _ & _ & _ & Hrv & _). eauto. }
  cbn beta. intros _ k ((Hwf & f & Hcl & _ & Hf) & (Hix & _)).
  assert (∀ row, row ∈ rows b → f !! reservation_id row = Some (start_pos row)) as Hpos.
  { intros row Hin. destruct (row_reservation _ _ _ _ _ Ho Hin) as (_ & _ & rv & _ & _ & _ & Hrv & _ & <- & _).
    apply Hf; [by apply list_elem_of_fmap_2|done]. }
  pose proof (closes_reset _ _ _ _ _ _ Ho Hcl Hpos) as Hs.
  assert (upto (with_kv k s) (rows b) (λ row a q', ∃ q, q' = shut (start_pos row) q ∧ seqs s !! request_id row = Some q ∧
    row_open c (reservations (kv_cache s)) (batch_kind b) (InFlight (batch_id b)) row a q)) as Hup.
  { eapply (upto_closes _ _ _ _ _ _ start_pos); [done..|]. intros row a q Hin Ha Hq Hop.
    pose proof (co_req _ _ _ _ _ _ _ Hcore _ _ _ Ha Hq) as Hreq. rewrite (rw_start _ _ _ _ _ _ _ Hop).
    split; apply Hreq. }
  eapply wp_mono; [apply (set_phases_spec chain c trusted Ctx mem log _ (rows b) (prior (batch_kind b)))|].
  - intros row s' a' Hin Ha'. destruct (Hrows row Hin) as (a & q & _ & _ & Hop). by eapply restore_row_run.
  - eapply core_same; [|apply Hup]. done.
  - done.
  - intros row Hin. destruct (Hrows row Hin) as (a & q & Ha & _). eauto.
  - cbn beta. intros _ s' (Hcore' & Hs' & Hph). exists b. split; [done|]. split; [done|].
    assert (seqs s' = reset bs <$> seqs s) as Hss by by rewrite Hs'.
    split; [|done|done|by rewrite Hs'].
    assert (in_flight s' = None) as Hfl by by rewrite Hs'.
    unfold inv. rewrite Hfl. split; [done|apply NoDup_nil_2|by intros ? ?%elem_of_nil|].
    intros r a' q' Ha' Hq' _. rewrite Hss, lookup_fmap in Hq'.
    destruct (seqs s !! r) as [q|] eqn:Hq; [|done]. simpl in Hq'. assert (q' = reset bs q) as -> by congruence.
    destruct (decide (r ∈ request_id <$> rows b)) as [(row & -> & Hrow)%list_elem_of_fmap|Hr].
    + destruct Hph as [Hin _]. destruct (Hrows row Hrow) as (a & q1 & Ha & Hq1 & Hop).
      assert (q1 = q) as -> by congruence. rewrite Hin in Ha' by done. cbn [active with_kv with_in_flight] in Ha'. rewrite Ha in Ha'. simpl in Ha'.
      assert (a' = set_phase (prior (batch_kind b) row) a) as -> by congruence. by eapply prior_idle.
    + destruct Hph as [_ Hout]. rewrite Hout in Ha' by done.
      destruct (Hidle r a' q Ha' Hq Hr) as [Hp Hid']. split; [done|]. exact Hid'.
Qed.

(** ** A completed batch *)

(** A row whose tokens are committed. *)
Record row_done (row : ScheduledSequence) (a : ActiveRequest) (q : SequenceState) : Prop := {
  dn_pending : pending q = None;
  dn_committed : committed_tokens q = context_length row;
  dn_context : context_length row ≤ len (history a)
}.

(** A sampled token; greedy requests get the prediction of the model. *)
Definition honest_token (r : N) (a : ActiveRequest) (t : Z) : Prop :=
  trusted → (∀ g, log !! r = Some (mkSubmission (prompt a) g true) → t = next_token (history a)) ∧
    Ctx (history a ++ [t]).

Lemma honest_gets r a q t : req_ok r a q → honest_token r a t → gets_tokens r a [t] t.
Proof.
  intros Hreq Hh. split; [done| | | |].
  - intros [|j] u; simpl; [lia|done].
  - pose proof (ro_room _ _ _ _ _ _ _ _ _ Hreq). unfold len in *. simpl. lia.
  - intros Ht g Hg. destruct (ro_log _ _ _ _ _ _ _ _ _ Hreq) as (b & Hl & _ & Hrun).
    assert (b = true) as -> by congruence. destruct (Hh Ht) as [Hn _]. rewrite (Hn g Hg).
    rewrite (ro_history _ _ _ _ _ _ _ _ _ Hreq). by apply greedy_run_snoc, Hrun.
  - intros Ht. by apply Hh.
Qed.

(** *** Committing *)

Lemma row_open_take rsv kind ph row a q :
  kind ≠ Verify → row_open c rsv kind ph row a q →
  context_length row ≤ len (history a) ∧
  take (N.to_nat (context_length row)) (take (N.to_nat (start_pos row)) (history a) ++ token_ids row)
    = take (N.to_nat (context_length row)) (history a).
Proof.
  intros Hk [_ _ _ Hcl _ _ _ Htok]. assert (context_length row ≤ len (history a) ∧
    token_ids row = take (length (token_ids row)) (drop (N.to_nat (start_pos row)) (history a))) as [Hle Hts].
  { destruct kind; [done| |done]. destruct Htok as (t & Ht & Hl & Hc). rewrite Ht in *. split; [lia|].
    unfold len in Hcl, Hc. simpl in *. rewrite last_lookup in Hl.
    assert (N.to_nat (start_pos row) = pred (length (history a))) as -> by lia.
    by rewrite (drop_S _ _ _ Hl). }
  split; [done|]. rewrite Hts at 1. rewrite <-(take_drop (N.to_nat (start_pos row)) (history a)) at 3.
  unfold len in *. rewrite !take_app, take_take, length_take. f_equal. rewrite take_take. f_equal. lia.
Qed.

(** The device has run the batch. *)
Definition executed (s : ContinuousBatchScheduler) (b : ScheduledBatch) : Prop :=
  trusted → ∀ row q, row ∈ rows b → seqs s !! request_id row = Some q →
    holds bs mem (pages q) (row_context s row ++ token_ids row) (context_length row).

Lemma commit_batch_rows_spec s b ph :
  opened s (batch_kind b) (rows b) ph → batch_kind b ≠ Verify → executed s b → clock (kv_cache s) ≤ u64_max →
  wp (commit_append_prefixes ((λ row, (reservation_id row, len (token_ids row))) <$> rows b)) (kv_cache s)
    (λ _ k, upto (with_kv k s) (rows b) row_done ∧ clock k ≤ clock (kv_cache s)) (λ _ _, False).
Proof.
  intros Ho Hk Hex Hclk. pose proof Ho as [Hcore _ _ _].
  eapply wp_wand; [eapply (wp_leads shrinks), commit_append_prefixes_ok;
    [apply commit_append_prefixes_shrinks|apply Hcore| | |done]| |naive_solver].
  { rewrite <-list_fmap_compose. by eapply rows_reservations. }
  { intros id n (row & [= -> ->] & Hin)%list_elem_of_fmap.
    destruct (row_reservation _ _ _ _ _ Ho Hin) as (_ & _ & rv & _ & _ & _ & Hrv & _ & _ & Hn). eauto. }
  cbn beta. intros _ k ((Hwf & f & Hcl & _ & Hf) & (Hix & _)). split; [|apply Hcl].
  eapply upto_mono.
  - eapply (upto_closes _ _ _ _ _ _ context_length); [done..| |].
    + intros row Hin.
      destruct (row_reservation _ _ _ _ _ Ho Hin) as (a & q & rv & _ & _ & Hop & Hrv & _ & Hst & _).
      rewrite (rw_context _ _ _ _ _ _ _ Hop), <-Hst. apply Hf; [|done].
      by apply (list_elem_of_fmap_2 (λ row, (reservation_id row, len (token_ids row)))).
    + intros row a q Hin Ha Hq Hop. destruct (row_open_take _ _ _ _ _ _ Hk Hop) as [Hle Htk]. split; [done|].
      intros Ht. eapply holds_take; [exact Htk|]. pose proof (Hex Ht row q Hin Hq) as Hh.
      unfold row_context in Hh. by rewrite Ha in Hh.
  - cbn beta. intros row a q' Hin _ _ (q & -> & _ & Hop). split; [done|done|].
    by destruct (row_open_take _ _ _ _ _ _ Hk Hop).
Qed.

(** *** Publishing the rows *)

Lemma register_row_spec s rs row :
  upto s rs row_done → row ∈ rs →
  wp (register_row chain row) s
    (λ _ s', upto s' rs row_done ∧ s' = with_kv (kv_cache s') s ∧ clock (kv_cache s') ≤ clock (kv_cache s))
    (λ _ _, False).
Proof.
  intros Hup Hin. pose proof Hup as [Hcore Hnd Hrows Hidle]. destruct (Hrows row Hin) as (a & q & Ha & Hq & Hd).
  pose proof (co_req _ _ _ _ _ _ _ Hcore _ _ _ Ha Hq) as Hreq. unfold register_row.
  wp_step. wp_step. wp_step. eapply wp_expect; [exact Ha|]. cbn beta. apply wp_kv_ok.
  eapply wp_mono; [apply (register_spec _ _ q)|].
  - apply Hcore.
  - apply Hcore.
  - done.
  - apply Hreq.
  - apply Hcore.
  - intros Ht. split; by apply Hreq.
  - cbn beta. intros _ k (q' & [Hwf Hc Hs Hpub _ Hclk] & Hcom & Hpg & Hpd & Hch). split; [|done].
    assert (∀ r q0, sequences k !! r = Some q0 → ∃ q1, seqs s !! r = Some q1 ∧
      committed_tokens q0 = committed_tokens q1 ∧ pending q0 = pending q1) as Hold.
    { intros r q0. rewrite Hs, lookup_insert_Some. intros [[<- <-]|[_ ?]]; eauto. }
    split; [|done|..].
    + apply core_kv; [done|done|done|done|..].
      * intros r. rewrite Hs, lookup_insert. case_decide; [subst; split; eauto|done].
      * intros r a0 q0 Ha0. rewrite Hs, lookup_insert_Some. intros [[<- <-]|[_ Hq0]]; [|by eapply Hcore].
        assert (a0 = a) as -> by congruence. destruct Hreq. split; try done; by rewrite ?Hcom, ?Hpg.
    + intros row' Hin'. destruct (Hrows row' Hin') as (a0 & q0 & Ha0 & Hq0 & [Hp0 Hc0 Hx0]).
      destruct (decide (request_id row' = request_id row)) as [Heq|Hne].
      * exists a0, q'. split; [done|]. simpl. rewrite Hs, Heq, lookup_insert_eq. split; [done|].
        rewrite Heq in Hq0. assert (q0 = q) as -> by congruence. split; congruence.
      * exists a0, q0. split; [done|]. simpl. rewrite Hs, lookup_insert_ne by done. split; [done|]. by split.
    + intros r a0 q0 Ha0 Hq0 Hr. destruct (Hold r q0 Hq0) as (q1 & Hq1 & Hc1 & Hp1).
      unfold idle_ok. rewrite Hc1, Hp1. by eapply Hidle.
Qed.

(** *** Ending the rows *)

Lemma complete_row_spec s row t todo F :
  upto s (row :: todo) F → (∀ a q, F row a q → row_done row a q) → clock (kv_cache s) ≤ u64_max →
  (∀ a, active s !! request_id row = Some a → len (history a) ≤ context_length row →
     honest_token (request_id row) a t) →
  wp (complete_row (row, t)) s
    (λ _ s', settled (request_id row) s s' ∧ clock (kv_cache s') ≤ clock (kv_cache s)) (λ _ _, False).
Proof.
  intros [Hcore Hnd Hrows Hidle] HF Hclk Hhon. destruct (Hrows row) as (a & q & Ha & Hq & [Hp Hcom Hcx]%HF); [by left|].
  pose proof (co_req _ _ _ _ _ _ _ Hcore _ _ _ Ha Hq) as Hreq. unfold complete_row.
  wp_step. wp_step. wp_step. eapply wp_expect; [exact Ha|]. cbn beta. wp_step.
  - apply N.ltb_lt in Heqb. unfold put_active. wp_step. split; [|done]. split; simpl.
    + eapply core_put; [done|done|done|by apply req_ok_phase|done|done].
    + intros r' Hne. by apply lookup_insert_ne.
    + done.
    + intros a0 q0. rewrite lookup_insert_eq. intros [= <-] Hq0. assert (q0 = q) as -> by congruence.
      split; [done|]. simpl. lia.
    + by destruct s.
  - apply N.ltb_ge in Heqb. assert (len (history a) = context_length row) as Hfull by lia.
    destruct (wf_seqs _ _ (co_wf _ _ _ _ _ _ _ Hcore) _ _ Hq) as [Hreg _].
    rewrite (co_config _ _ _ _ _ _ _ Hcore) in Hreg.
    replace s with (with_kv (kv_cache s) s) at 1 by by destruct s.
    eapply wp_mono; [eapply (settle_spec s _ a q (kv_cache s) q [t] t)|].
    + done.
    + done.
    + done.
    + by rewrite insert_id.
    + done.
    + done.
    + rewrite len_app. unfold len in *. simpl. lia.
    + intros Ht. eapply holds_take; [|by apply Hreq]. rewrite take_app_le; [done|]. unfold len in *. lia.
    + eapply honest_gets; [exact Hreq|]. apply Hhon; [done|lia].
    + intros s1 Hs1. wp_step. exists (kv_cache s), q. split; [destruct s1; simpl in *; by subst|].
      split; [|do 3 (split; [done|])].
      * split; try done; [apply Hcore|apply Hcore|by rewrite insert_id|apply Hcore].
      * rewrite (ro_chain _ _ _ _ _ _ _ _ _ Hreq). symmetry. apply chain_prefix_app. lia.
    + cbn beta. intros _ s' (Hst & _ & Hck). done.
Qed.

(** The tokens given to the rows of a batch. *)
Definition honest (s : ContinuousBatchScheduler) (b : ScheduledBatch) (ts : list Z) : Prop :=
  ∀ row t a, (row, t) ∈ zip (rows b) ts → active s !! request_id row = Some a →
    len (history a) ≤ context_length row → honest_token (request_id row) a t.

(** What ends a batch leaves alone. *)
Definition ended (s s' : ContinuousBatchScheduler) : Prop :=
  s' = with_kv (kv_cache s') (with_active (active s') (with_finished (finished s') (with_in_flight None s))).

Lemma complete_rows_spec s0 xs s :
  upto s xs.*1 row_done → clock (kv_cache s) ≤ u64_max → ended s0 s →
  (∀ row t, (row, t) ∈ xs → ∀ a, active s !! request_id row = Some a → len (history a) ≤ context_length row →
     honest_token (request_id row) a t) →
  wp (for_each xs complete_row) s (λ _ s', upto s' [] row_done ∧ ended s0 s') (λ _ _, False).
Proof.
  revert s. induction xs as [|[row t] xs IH]; intros s Hup Hclk Hen Hhon; [by apply wp_ret|].
  pose proof (up_nodup _ _ _ _ _ _ _ _ _ Hup) as Hnd. rewrite !fmap_cons in Hnd. apply NoDup_cons in Hnd as [Hnin _].
  cbn [for_each]. wp_step. eapply wp_wand; [eapply complete_row_spec; [exact Hup|done|done|]| |done].
  { apply Hhon. by left. }
  cbn beta. intros _ s1 [Hst Hck]. apply IH.
  - eapply upto_settled; [exact Hup|done|done].
  - lia.
  - unfold ended. rewrite (st_frame _ _ _ Hst), Hen. done.
  - intros row' t' Hin a. rewrite (st_active _ _ _ Hst); [apply Hhon; by right|].
    intros Heq. apply Hnin. cbn [fst]. rewrite <-Heq. apply (list_elem_of_fmap_2 request_id), (list_elem_of_fmap_2 fst _ _ Hin).
Qed.

Lemma upto_inv s F : in_flight s = None → upto s [] F → inv s.
Proof. intros Hfl Hup. unfold inv. rewrite Hfl. by eapply upto_nil. Qed.

Lemma complete_batch_spec id ts s :
  inv s → clock (kv_cache s) ≤ u64_max →
  (∀ b, in_flight s = Some b → batch_id b = id → batch_kind b ≠ Verify ∧ executed s b ∧ honest s b ts) →
  wp (complete_batch chain id ts) s
    (λ _ s', ∃ b, in_flight s = Some b ∧ batch_id b = id ∧ inv s' ∧ ended s s')
    (λ _ s', s' = s ∧ (not_in_flight s id ∨ ∃ b, in_flight s = Some b ∧ batch_id b = id ∧
       (len ts ≠ len (rows b) ∨
        ∃ row t, (row, t) ∈ zip (rows b) ts ∧ samples_token s row = true ∧ (t < 0)%Z))).
Proof.
  intros Hinv Hclk Hgood. unfold complete_batch. wp_step. eapply wp_wand; [apply take_batch_spec| |naive_solver].
  cbn beta. intros b s1 (Hb & Hid & ->). destruct (Hgood b Hb Hid) as (Hk & Hex & Hhon). clear Hgood.
  unfold inv in Hinv. rewrite Hb in Hinv. destruct Hinv as [Ho Hbo]. wp_step. wp_step.
  assert (∀ e, wp (give_back b e : M ContinuousBatchScheduler ContinuousBatchError unit) (with_in_flight None s)
    (λ _ _, False) (λ _ s', s' = s)) as Hback.
  { intros e. unfold give_back, put_in_flight. wp_step. wp_step. wp_step. by apply with_flight_back. }
  wp_step.
  { apply negb_true_iff, N.eqb_neq in Heqb0. eapply wp_wand; [apply Hback|done|]. cbn beta. intros e s' ->.
    split; [done|]. right. exists b. auto. }
  apply negb_false_iff, N.eqb_eq in Heqb0. wp_step.
  { apply existsb_exists in Heqb1 as ([row t] & Hin%list_elem_of_In & [Hsm Hneg%Z.ltb_lt]%andb_true_iff).
    eapply wp_wand; [apply Hback|done|]. cbn beta. intros e s' ->.
    split; [done|]. right. exists b. split; [done|]. split; [done|]. right. exists row, t. done. }
  assert (first_some (ownership_error (with_in_flight None s) id) (rows b) = None) as ->.
  { unfold first_some. rewrite <-Hid. destruct (omap _ (rows b)) as [|e l] eqn:Ho'; [done|]. exfalso.
    assert (e ∈ omap (ownership_error (with_in_flight None s) (batch_id b)) (rows b)) as He by (rewrite Ho'; by left).
    apply list_elem_of_omap in He as (row & Hin & He).
    change (ownership_error s (batch_id b) row = Some e) in He. by rewrite (rows_owned _ _ _ _ _ Ho Hin) in He. }
  wp_step. apply or_give_back_ok, wp_kv_ok. simpl.
  eapply wp_mono; [by eapply commit_batch_rows_spec|]. cbn beta. intros _ k [Hup Hck].
  set (s1 := with_kv k (with_in_flight None s)).
  assert (upto s1 (rows b) row_done) as Hup1 by by eapply (upto_same _ _ _ _ _ _ (with_kv k s)).
  wp_step. eapply wp_mono; [apply (wp_for_each _ _ (λ xs s', xs ⊆ rows b ∧ upto s' (rows b) row_done ∧
    s' = with_kv (kv_cache s') s1 ∧ clock (kv_cache s') ≤ u64_max))|].
  - split; [done|]. split; [done|]. split; [done|]. simpl. lia.
  - intros row xs s' (Hsub & Hup' & Hf' & Hck'). eapply wp_wand; [eapply register_row_spec; [exact Hup'|]| |done].
    + apply Hsub. by left.
    + cbn beta. intros _ s2 (Hup2 & Hf2 & Hck2). split; [intros x Hx; apply Hsub; by right|]. split; [done|].
      split; [rewrite Hf2, Hf'; done|lia].
  - cbn beta. intros _ s2 (_ & Hup2 & Hf2 & Hck2).
    assert ((zip (rows b) ts).*1 = rows b) as Hzip by (apply fst_zip; unfold len in *; lia).
    eapply wp_wand; [apply (complete_rows_spec s)| |done].
    + by rewrite Hzip.
    + done.
    + unfold ended. rewrite Hf2. by destruct s.
    + intros row t Hin a Ha. eapply Hhon; [done|]. by rewrite Hf2 in Ha.
    + cbn beta. intros _ s' [Hup' Hen']. exists b. split; [done|]. split; [done|]. split; [|done].
      eapply upto_inv; [by rewrite Hen'|done].
Qed.
End commit.
