(* ===== verification/SchedulerVerify.v ===== *)
(** * Verifying drafts

    [complete_verify_batch] keeps of every row the predictions up to the first draft that
    differs, an end token or the budget: the tokens greedy decoding would have produced one
    by one. *)

From S2P Require Export SchedulerCommit.
Open Scope N_scope.

(** ** The predictions kept *)

Lemma verify_loop_spec `{Profile} `{Sampling} remaining eos ts width preds : ∀ position produced s,
  len produced = position → position + len preds = width → width = len ts → preds ≠ [] → position < remaining →
  wp (verify_loop remaining eos ts width position preds produced) s
    (λ out s', s' = s ∧ ∃ new, out = produced ++ new ∧ new ≠ [] ∧ new `prefix_of` preds ∧ len out ≤ remaining ∧
       ∀ j u, new !! j = Some u → (S j < length new)%nat →
         u ∉ eos ∧ ts !! (N.to_nat position + S j)%nat = Some u)
    (λ _ _, False).
Proof.
  induction preds as [|p preds IH]; intros position produced s Hpos Hw Hts Hne Hrem; [done|].
  assert (∀ s', s' = s → s' = s ∧ ∃ new, produced ++ [p] = produced ++ new ∧ new ≠ [] ∧ new `prefix_of` (p :: preds) ∧
    len (produced ++ [p]) ≤ remaining ∧ ∀ j u, new !! j = Some u → (S j < length new)%nat →
      u ∉ eos ∧ ts !! (N.to_nat position + S j)%nat = Some u) as Hstop.
  { intros s' ->. split; [done|]. exists [p]. split; [done|]. split; [done|]. split; [by exists preds|].
    split; [rewrite len_app; unfold len in *; simpl; lia|]. intros j u _. simpl. lia. }
  assert (len (p :: preds) = 1 + len preds) as Hl by (unfold len; simpl; lia). rewrite Hl in Hw.
  assert (len (produced ++ [p]) = position + 1) as Hl1 by (rewrite len_app; unfold len in *; simpl; lia).
  cbn [verify_loop]. wp_step; [wp_step; by apply Hstop|].
  apply orb_false_iff in Heqb as [Hr%N.eqb_neq He%bool_decide_eq_false].
  wp_step; [wp_step; by apply Hstop|]. apply N.leb_gt in Heqb. wp_step.
  destruct (lookup_lt_len ts (position + 1)) as [t Ht]; [lia|]. eapply wp_index; [exact Ht|]. cbn beta.
  wp_step; [wp_step; by apply Hstop|]. apply negb_false_iff, bool_decide_eq_true in Heqb0. subst t.
  eapply wp_mono; [apply IH; [done|lia|done| |lia]|].
  { intros ->. unfold len in *. simpl in *. lia. }
  cbn beta. intros out s' (-> & new & -> & Hnew & Hpre & Hle & Hacc). split; [done|]. exists (p :: new).
  split; [by rewrite <-app_assoc|]. split; [done|]. split; [by apply prefix_cons|]. split; [done|].
  intros [|j] u Hj Hlt.
  - simpl in Hj. assert (u = p) as -> by congruence. split; [done|]. rewrite <-Ht. f_equal. lia.
  - destruct (Hacc j u) as [? Hu]; [done|simpl in Hlt; lia|]. split; [done|]. rewrite <-Hu. f_equal. lia.
Qed.

(** Greedy decoding in two pieces. *)
Lemma greedy_run_app `{CausalModel} p gen new :
  greedy_run p gen → greedy_run (p ++ gen) new → greedy_run p (gen ++ new).
Proof.
  intros Hg Hn i t Hi. apply lookup_app_Some in Hi as [Hi|[Hle Hi]].
  - rewrite take_app_le by (apply lookup_lt_Some in Hi; lia). by apply Hg.
  - rewrite (Hn _ _ Hi), take_app_ge, <-app_assoc by done. done.
Qed.

(** The predictions kept are those of greedy decoding. *)
Lemma verified_greedy `{CausalModel} ctx t d new :
  new `prefix_of` predictions ctx (t :: d) →
  (∀ j u, new !! j = Some u → (S j < length new)%nat → (t :: d) !! S j = Some u) →
  greedy_run (ctx ++ [t]) new.
Proof.
  intros Hpre Hacc i u Hi. pose proof (prefix_lookup_Some _ _ _ _ Hi Hpre) as Hp.
  pose proof (lookup_lt_Some _ _ _ Hi) as Hlen. pose proof (lookup_lt_Some _ _ _ Hp) as Hlt.
  rewrite length_predictions in Hlt. rewrite lookup_predictions in Hp by done.
  injection Hp as <-. f_equal. rewrite <-app_assoc. f_equal. cbn [take]. simpl. f_equal.
  apply list_eq_same_length with (n := i); [rewrite length_take; lia|rewrite length_take; simpl in Hlt; lia|].
  intros j x y Hj Hx Hy. rewrite lookup_take_lt in Hx, Hy by done.
  specialize (Hacc j y Hy ltac:(lia)). simpl in Hacc. congruence.
Qed.

Lemma take_drop_concat {A} (ls : list (list A)) (n i : nat) l :
  (∀ l, l ∈ ls → length l = n) → ls !! i = Some l → take n (drop (i * n) (concat ls)) = l.
Proof.
  revert i. induction ls as [|l0 ls IH]; intros i Hls Hi; [done|].
  assert (length l0 = n) as Hl0 by (apply Hls; by left). simpl. destruct i as [|i].
  - simpl in *. assert (l0 = l) as -> by congruence. by apply take_app_length'.
  - simpl in Hi. cbn [Nat.mul]. rewrite drop_app_ge by lia. replace (n + i * n - length l0)%nat with (i * n)%nat by lia.
    apply IH; [|done]. intros l1 Hl1. apply Hls. by right.
Qed.

Section verify.
Context {P : Profile} {SM : Sampling} {CM : CausalModel} (chain : N → list Z → N).
Context (c : PagedKvCacheConfig) (trusted : Prop) (Ctx : list Z → Prop).
Context (mem : memory) (log : gmap N submission).
Context (Hclosed : trusted → ∀ h, Ctx h → len h < max_sequence_length c → Ctx (h ++ [next_token h])).

Abbreviation bs := (block_size c).
Abbreviation seqs s := (sequences (kv_cache s)).
Abbreviation core := (core chain c trusted Ctx mem log).
Abbreviation upto := (upto chain c trusted Ctx mem log).
Abbreviation opened := (opened chain c trusted Ctx mem log).
Abbreviation req_ok := (req_ok chain c trusted Ctx mem log).
Abbreviation inv := (inv chain c trusted Ctx mem log).
Abbreviation settled := (settled chain c trusted Ctx mem log).

Lemma greedy_context h new :
  trusted → greedy_run h new → Ctx h → len h + len new ≤ max_sequence_length c → Ctx (h ++ new).
Proof using Hclosed.
  intros Ht. induction new as [|u new IH] using rev_ind; intros Hg Hh Hl; [by rewrite app_nil_r|].
  rewrite len_app in Hl. change (len [u]) with 1 in Hl.
  assert (u = next_token (h ++ new)) as ->.
  { rewrite (Hg (length new) u); [by rewrite take_app_length|]. by apply list_lookup_middle. }
  rewrite app_assoc. apply Hclosed; [done| |rewrite len_app; lia]. apply IH; [|done|lia].
  intros i x Hi. rewrite (Hg i x); [|by apply lookup_app_l_Some].
  rewrite take_app_le; [done|]. apply lookup_lt_Some in Hi. lia.
Qed.

(** *** One row *)

(** What a row of an executed batch predicts. *)
Definition predicted (s : ContinuousBatchScheduler) (row : ScheduledSequence) : list Z :=
  predictions (row_context s row) (token_ids row).
Definition row_ran (s : ContinuousBatchScheduler) (row : ScheduledSequence) : Prop :=
  trusted → ∀ q, seqs s !! request_id row = Some q →
    holds bs mem (pages q) (row_context s row ++ token_ids row) (context_length row).

Lemma verify_gets rsv ph r s row a q new t :
  active s !! request_id row = Some a → r = request_id row → row_open c rsv Verify ph row a q → req_ok r a q →
  new ≠ [] → last new = Some t → len (generated a) + len new ≤ max_new_tokens (generation a) →
  (∀ j u, new !! j = Some u → (S j < length new)%nat → u ∉ eos a ∧ token_ids row !! S j = Some u) →
  (trusted → new `prefix_of` predicted s row) →
  gets_tokens trusted Ctx log r a new t ∧
  take (N.to_nat (start_pos row + len new)) (row_context s row ++ token_ids row)
    = take (N.to_nat (start_pos row + len new)) (history a ++ new).
Proof using Hclosed.
  intros Ha -> Hop Hreq Hne Hlast Hlen Hacc Hpred. destruct (rw_tokens _ _ _ _ _ _ _ Hop) as (t0 & d & Hts & Hl & Hst & _ & _).
  assert (history a = row_context s row ++ [t0]) as Hh.
  { unfold row_context. rewrite Ha. apply last_Some in Hl as [h' Hh']. rewrite Hh' in Hst |- *. rewrite len_app in Hst.
    change (len [t0]) with 1 in Hst. f_equal. rewrite take_app_le by (unfold len in Hst; lia).
    rewrite take_ge; [done|]. unfold len in Hst. lia. }
  assert (trusted → greedy_run (history a) new) as Hrun.
  { intros Ht. rewrite Hh. eapply verified_greedy.
    - specialize (Hpred Ht). unfold predicted in Hpred. rewrite Hts in Hpred. exact Hpred.
    - intros j u Hj Hlt. rewrite <-Hts. by eapply Hacc. }
  split; [split|].
  - done.
  - intros j u Hj Hlt. by eapply Hacc.
  - done.
  - intros Ht g Hg. destruct (ro_log _ _ _ _ _ _ _ _ _ Hreq) as (b & Hlog & _ & Hgr).
    assert (b = true) as -> by congruence. apply greedy_run_app; [by apply Hgr|].
    rewrite <-(ro_history _ _ _ _ _ _ _ _ _ Hreq). by apply Hrun.
  - intros Ht. apply greedy_context; [done|by apply Hrun|by apply Hreq|].
    pose proof (ro_len _ _ _ _ _ _ _ _ _ Hreq). rewrite (ro_history _ _ _ _ _ _ _ _ _ Hreq), len_app. lia.
  - rewrite Hh, Hts, <-app_assoc. assert (len (row_context s row) = start_pos row) as Hctx.
    { rewrite Hh, len_app in Hst. change (len [t0]) with 1 in Hst. lia. }
    unfold len in *. rewrite !take_app_ge by lia. f_equal.
    assert (N.to_nat (start_pos row + N.of_nat (length new)) - length (row_context s row) = length new)%nat as -> by lia.
    destruct new as [|u new]; [done|]. cbn [length take app]. f_equal.
    change (take (length new) d = take (length new) (u :: new)).
    apply list_eq. intros j. destruct (decide (j < length new)%nat) as [Hj|Hj]; cycle 1.
    { by rewrite !lookup_take_ge by lia. }
    rewrite !lookup_take_lt by done. destruct (lookup_lt_is_Some_2 (u :: new) j) as [x Hx]; [simpl; lia|].
    rewrite Hx. destruct (Hacc j x Hx) as [_ Hd]; [simpl; lia|]. by rewrite Hts in Hd.
Qed.

(** Closing one reservation changes one sequence. *)
Lemma closes_one s k r q id pos :
  core s → seqs s !! r = Some q → pending q = Some id → closes (kv_cache s) k {[id := pos]} →
  sequences k = <[r := shut c pos q]> (seqs s).
Proof.
  intros Hcore Hq Hp [_ _ Hs _ _]. rewrite (co_config _ _ _ _ _ _ _ Hcore) in Hs. rewrite Hs.
  pose proof (co_wf _ _ _ _ _ _ _ Hcore) as Hwf. apply map_eq. intros r'. rewrite lookup_fmap, lookup_insert.
  case_decide as Hd; [subst r'; rewrite Hq; simpl; unfold close_seq; rewrite Hp; simpl; by rewrite lookup_singleton_eq|].
  destruct (seqs s !! r') as [q'|] eqn:Hq'; [|done]. simpl. unfold close_seq.
  destruct (pending q') as [id'|] eqn:Hp'; [|done]. simpl. rewrite lookup_singleton_ne; [done|]. intros <-.
  destruct (wf_seqs _ _ Hwf _ _ Hq) as [_ H1]. destruct (wf_seqs _ _ Hwf _ _ Hq') as [_ H2].
  rewrite Hp in H1. rewrite Hp' in H2. destruct H1 as (rv & Hrv & Hr & _). destruct H2 as (rv' & Hrv' & Hr' & _).
  congruence.
Qed.

Lemma register_publishes k r q h :
  wf k → config k = c → sequences k !! r = Some q →
  chain_hash q = chain_prefix chain h bs (N.to_nat (registered_blocks q)) →
  (trusted → published chain c Ctx mem (block_index k)) →
  (trusted → holds bs mem (pages q) h (committed_tokens q) ∧ Ctx h) →
  publishes chain c trusted Ctx mem k r q h (kv (register_prefix chain r h)).
Proof.
  intros ?????? s Hs. apply wp_kv_ok. rewrite Hs. eapply wp_mono; [by eapply register_spec|].
  cbn beta. intros _ k' (q' & ?). exists k', q'. done.
Qed.

(** What verification of a row may change. *)
Definition verified (s s' : ContinuousBatchScheduler) : Prop :=
  s' = with_kv (kv_cache s') (with_active (active s') (with_finished (finished s')
         (with_accepted_draft_tokens (accepted_draft_tokens s') (with_drafted_tokens (drafted_tokens s') s)))).

(** The end of a verified row: commit what is kept, publish, and settle. *)
Lemma verify_commit_spec {A} s id row todo a q new t (out : A) :
  opened s Verify (row :: todo) (λ _, InFlight id) → active s !! request_id row = Some a →
  seqs s !! request_id row = Some q → row_open c (reservations (kv_cache s)) Verify (InFlight id) row a q →
  new ≠ [] → len new ≤ len (token_ids row) → last new = Some t →
  len (generated a) + len new ≤ max_new_tokens (generation a) →
  (∀ j u, new !! j = Some u → (S j < length new)%nat → u ∉ eos a ∧ token_ids row !! S j = Some u) →
  (trusted → new `prefix_of` predicted s row) → row_ran s row → clock (kv_cache s) ≤ u64_max →
  wp (let! _ := kv (commit_append_partial (reservation_id row) (len new)) in
      let! act := gets active in
      let! a := expect (act !! request_id row) in
      let a := extend new a in
      let! last := expect (last new) in
      let! _ := settle (request_id row) a last (kv (register_prefix chain (request_id row) (history a))) in
      ret out) s
    (λ out' s', out' = out ∧ opened s' Verify todo (λ _, InFlight id) ∧ clock (kv_cache s') ≤ clock (kv_cache s) ∧
       settled (request_id row) s s') (λ _ _, False).
Proof using Hclosed.
  intros Ho Ha Hq Hop Hne Hle Hlast Hlen Hacc Hpred Hran Hclk. pose proof Ho as [Hcore Hnd Hrows Hidle].
  pose proof (co_req _ _ _ _ _ _ _ Hcore _ _ _ Ha Hq) as Hreq.
  pose proof (co_wf _ _ _ _ _ _ _ Hcore) as Hwf. pose proof (co_config _ _ _ _ _ _ _ Hcore) as Hc.
  destruct (verify_gets _ _ _ _ _ _ _ _ _ Ha eq_refl Hop Hreq Hne Hlast Hlen Hacc Hpred) as [Hgets Htake].
  destruct (row_reservation _ _ _ _ _ _ _ _ _ _ row Ho) as (a' & q' & rv & _ & _ & _ & Hrv & _ & Hstart & Hcount); [by left|].
  assert (0 < len new) as Hn0 by (destruct new; [done|unfold len; simpl; lia]).
  destruct (rw_tokens _ _ _ _ _ _ _ Hop) as (t0 & d & Hts & Hl & Hst & _ & _).
  wp_step. apply wp_kv_ok. eapply wp_wand; [eapply (wp_leads shrinks), commit_partial_ok;
    [apply commit_append_partial_shrinks|done|exact Hrv|lia|done]| |naive_solver].
  cbn beta. intros _ k ((Hwfk & Hcl) & (Hix & _)). rewrite Hstart in Hcl.
  set (pos := start_pos row + len new) in *.
  assert (sequences k = <[request_id row := shut c pos q]> (seqs s)) as Hs.
  { eapply closes_one; [done|done|apply Hop|done]. }
  assert (config k = c) as Hck by (rewrite (cl_config _ _ _ Hcl); done).
  pose proof (cl_clock _ _ _ Hcl) as Hclk'. pose proof (wf_bs _ _ Hwf) as Hbs. rewrite Hc in Hbs.
  destruct (wf_seqs _ _ Hwf _ _ Hq) as [Hreg _]. rewrite Hc in Hreg.
  pose proof (ro_committed _ _ _ _ _ _ _ _ _ Hreq) as Hcom.
  assert (trusted → published chain c Ctx mem (block_index k)) as Hpub.
  { intros Ht. eapply published_sub; [exact Hix|]. by apply Hcore. }
  assert (trusted → holds bs mem (pages (shut c pos q)) (history a ++ new) pos) as Hholds.
  { intros Ht. apply holds_cut; [done|]. eapply holds_take; [exact Htake|]. eapply holds_le; [|by apply Hran].
    rewrite (rw_context _ _ _ _ _ _ _ Hop). unfold pos. lia. }
  wp_step. wp_step. wp_step. eapply wp_expect; [exact Ha|]. cbn beta zeta. wp_step. eapply wp_expect; [exact Hlast|]. cbn beta.
  wp_step. eapply wp_wand; [eapply (settle_spec chain c trusted Ctx mem log s _ a q k (shut c pos q) new t)| |done].
  - done.
  - done.
  - done.
  - done.
  - lia.
  - done.
  - rewrite len_app. simpl. unfold pos. lia.
  - done.
  - done.
  - apply register_publishes; [done|done|by rewrite Hs, lookup_insert_eq| |done|].
    + simpl. rewrite (ro_chain _ _ _ _ _ _ _ _ _ Hreq). symmetry. apply chain_prefix_app. lia.
    + intros Ht. split; [by apply Hholds|by apply Hgets].
  - cbn beta. intros _ s' (Hst' & Hrs' & Hclk2). wp_step. split; [done|]. split; [|split; [lia|done]].
    eapply upto_settled; [exact Ho|exact Hst'|]. intros row' a0 q0 Hin [? ? ? ? ? ? (rv0 & Hrv0 & ?) ?].
    split; try done. exists rv0. split; [|done]. rewrite Hrs', (cl_resv _ _ _ Hcl), lookup_singleton_ne; [done|].
    pose proof (rows_reservations _ _ _ _ _ _ _ _ _ _ Ho) as Hnd'. rewrite fmap_cons in Hnd'.
    apply NoDup_cons in Hnd' as [Hnin _]. intros Heq. apply Hnin. rewrite Heq. by apply list_elem_of_fmap_2.
Qed.

Lemma verify_row_spec s id i row todo width argmax acc :
  opened s Verify (row :: todo) (λ _, InFlight id) → width = len (token_ids row) →
  let preds := take (N.to_nat width) (drop (N.to_nat (i * width)) argmax) in
  len preds = width → (trusted → preds = predicted s row) → row_ran s row →
  clock (kv_cache s) ≤ u64_max → drafted_tokens s + (width + batch_tokens todo) ≤ u64_max → width ≤ usize_max →
  wp (verify_row chain width argmax acc (i, row)) s
    (λ _ s', opened s' Verify todo (λ _, InFlight id) ∧ clock (kv_cache s') ≤ u64_max ∧
       drafted_tokens s' + batch_tokens todo ≤ u64_max ∧ verified s s' ∧
       ∀ r, r ≠ request_id row → active s' !! r = active s !! r ∧ seqs s' !! r = seqs s !! r)
    (λ _ _, False).
Proof using Hclosed.
  intros Ho Hw preds Hpl Hpred Hran Hclk Hdr Hws. pose proof Ho as [Hcore Hnd Hrows Hidle].
  destruct (Hrows row) as (a & q & Ha & Hq & Hop); [by left|].
  pose proof (co_req _ _ _ _ _ _ _ Hcore _ _ _ Ha Hq) as Hreq. pose proof (ro_room _ _ _ _ _ _ _ _ _ Hreq) as Hroom.
  destruct (rw_tokens _ _ _ _ _ _ _ Hop) as (t0 & d & Hts & _).
  assert (0 < width) as Hw0 by (rewrite Hw, Hts; unfold len; simpl; lia).
  unfold verify_row. fold preds. wp_step. wp_step. wp_step. rewrite Ha. unfold ok_or. wp_step. wp_step.
  eapply wp_lift_ok; [apply usub_ok; lia|]. cbn beta. wp_step.
  eapply wp_mono; [eapply (verify_loop_spec _ _ _ _ preds 0 []); [done|lia|done| |lia]|].
  { intros Hnil. rewrite Hnil in Hpl. unfold len in Hpl. simpl in Hpl. lia. }
  cbn beta. intros out s' (-> & new & -> & Hne & Hpre & Hrem & Hacc). cbn [app] in *.
  assert (0 < len new ≤ width) as Hnl.
  { split; [destruct new; [done|unfold len; simpl; lia]|]. rewrite <-Hpl. apply prefix_length in Hpre. unfold len. lia. }
  assert (∃ t, last new = Some t) as [t Hlast].
  { destruct (last new) eqn:Hl; [eauto|]. apply last_None in Hl. congruence. }
  pose proof (co_counts _ _ _ _ _ _ _ Hcore) as Hcnt.
  wp_step. wp_step. wp_step. eapply wp_lift_ok; [apply usub_ok; lia|]. cbn beta.
  wp_step. eapply wp_lift_ok; [apply uadd_ok; lia|]. cbn beta. wp_step. wp_step. wp_step. wp_step. simpl.
  wp_step. eapply wp_lift_ok; [apply usub_ok; lia|]. cbn beta.
  wp_step. eapply wp_lift_ok; [apply uadd_ok; lia|]. cbn beta. wp_step. wp_step.
  set (s1 := with_accepted_draft_tokens _ _).
  assert (opened s1 Verify (row :: todo) (λ _, InFlight id)) as Ho1.
  { unfold s1. split; [|done..]. destruct Hcore. split; try done. simpl. lia. }
  eapply wp_mono; [eapply (verify_commit_spec s1 id row todo a q new t (acc ++ [(request_id row, new)]))|].
  - exact Ho1.
  - done.
  - done.
  - done.
  - done.
  - lia.
  - done.
  - lia.
  - intros j u Hj Hlt. destruct (Hacc j u Hj Hlt) as [? Hd]. split; [done|exact Hd].
  - intros Ht. specialize (Hpred Ht). rewrite Hpred in Hpre. exact Hpre.
  - exact Hran.
  - done.
  - cbn beta. intros ? s' (_ & Ho' & Hck & Hst). split; [done|]. split; [simpl in Hck; lia|]. split; [|split].
    + rewrite (st_frame _ _ _ _ _ _ _ _ _ Hst). simpl. lia.
    + unfold verified. rewrite (st_frame _ _ _ _ _ _ _ _ _ Hst). done.
    + intros r Hr. split; [by apply (st_active _ _ _ _ _ _ _ _ _ Hst)|by apply (st_seqs _ _ _ _ _ _ _ _ _ Hst)].
Qed.

(** *** The batch *)

(** The predictions of a batch, row after row. *)
Definition batch_predictions (s : ContinuousBatchScheduler) (b : ScheduledBatch) : list Z :=
  concat (predicted s <$> rows b).

Lemma verify_loop_rows_spec s0 argmax id b : ∀ done todo acc s,
  opened s0 Verify (rows b) (λ _, InFlight id) → batch_ok s0 b → executed c trusted mem s0 b →
  (trusted → argmax = batch_predictions s0 b) → len argmax = len (rows b) * next_n b → next_n b ≤ usize_max →
  rows b = done ++ todo → opened s Verify todo (λ _, InFlight id) → clock (kv_cache s) ≤ u64_max →
  drafted_tokens s + batch_tokens todo ≤ u64_max → verified s0 s →
  (∀ row, row ∈ todo → active s !! request_id row = active s0 !! request_id row ∧
     seqs s !! request_id row = seqs s0 !! request_id row) →
  wp (fold_m (verify_row chain (next_n b) argmax) acc (zip (N.of_nat <$> seq (length done) (length todo)) todo)) s
    (λ _ s', opened s' Verify [] (λ _, InFlight id) ∧ verified s0 s') (λ _ _, False).
Proof using Hclosed.
  intros done todo. revert done.
  induction todo as [|row todo IH]; intros done acc s Ho0 Hbo Hex Harg Hal Hus Hrows Ho Hclk Hdr Hv Hsame; [by apply wp_ret|].
  assert (row ∈ rows b) as Hin by (rewrite Hrows; apply elem_of_app; right; by left).
  assert (rows b !! length done = Some row) as Hi by (rewrite Hrows; by apply list_lookup_middle).
  pose proof (up_nodup _ _ _ _ _ _ _ _ _ Ho) as Hnd. rewrite fmap_cons in Hnd. apply NoDup_cons in Hnd as [Hnin _].
  pose proof (bo_width _ _ Hbo row Hin) as Hw. destruct (Hsame row) as [Hsa Hss]; [by left|].
  assert (row_context s row = row_context s0 row) as Hctx by (unfold row_context; by rewrite Hsa).
  assert (length done < length (rows b))%nat as Hdl by (by eapply lookup_lt_Some).
  cbn [length seq fmap list_fmap zip zip_with fold_m]. wp_step.
  eapply wp_mono; [eapply (verify_row_spec s id (N.of_nat (length done)) row todo)|].
  - exact Ho.
  - done.
  - unfold len. rewrite length_take, length_drop. unfold len in Hal. nia.
  - intros Ht. rewrite (Harg Ht). unfold batch_predictions, predicted. rewrite Hctx.
    replace (N.to_nat (N.of_nat (length done) * next_n b)) with (length done * N.to_nat (next_n b))%nat by lia.
    apply take_drop_concat; [|by rewrite list_lookup_fmap, Hi].
    intros l (row' & -> & Hin')%list_elem_of_fmap. rewrite length_predictions.
    pose proof (bo_width _ _ Hbo row' Hin'). unfold len in *. lia.
  - intros Ht q Hq. rewrite Hctx. apply (Hex Ht); [done|]. by rewrite <-Hss.
  - done.
  - cbn [batch_tokens foldr] in Hdr. fold (batch_tokens todo) in Hdr. rewrite Hw in Hdr. done.
  - done.
  - cbn beta. intros acc' s' (Ho' & Hclk' & Hdr' & Hv' & Hsame').
    replace (S (length done)) with (length (done ++ [row])) by (rewrite length_app; simpl; lia).
    apply IH; try done.
    + by rewrite <-app_assoc.
    + unfold verified. rewrite Hv', Hv. done.
    + intros row' Hin'. destruct (Hsame' (request_id row')) as [-> ->]; [|apply Hsame; by right].
      intros Heq. apply Hnin. rewrite <-Heq. by apply list_elem_of_fmap_2.
Qed.

Lemma complete_verify_batch_spec id argmax s :
  inv s → clock (kv_cache s) ≤ u64_max → drafted_tokens s + flight_tokens s ≤ u64_max →
  (∀ b, in_flight s = Some b → batch_id b = id →
     executed c trusted mem s b ∧ (trusted → argmax = batch_predictions s b)) →
  wp (complete_verify_batch chain id argmax) s
    (λ _ s', ∃ b, in_flight s = Some b ∧ batch_id b = id ∧ batch_kind b = Verify ∧ inv s' ∧
       verified (with_in_flight None s) s')
    (λ _ s', s' = s ∧ (not_in_flight s id ∨ ∃ b, in_flight s = Some b ∧ batch_id b = id ∧
       (batch_kind b ≠ Verify ∨ len argmax ≠ len (rows b) * next_n b))).
Proof using Hclosed.
  intros Hinv Hclk Hdr Hgood. unfold complete_verify_batch. wp_step. eapply wp_wand; [apply take_batch_spec| |naive_solver].
  cbn beta. intros b s1 (Hb & Hid & ->). destruct (Hgood b Hb Hid) as (Hex & Harg). clear Hgood.
  unfold inv in Hinv. unfold flight_tokens in Hdr. rewrite Hb in Hinv, Hdr. destruct Hinv as [Ho Hbo].
  pose proof (batch_tokens_width _ _ (bo_width _ _ Hbo)) as Hbt.
  pose proof (bo_tokens _ _ Hbo) as Hlim. destruct (co_limit _ _ _ _ _ _ _ (up_core _ _ _ _ _ _ _ _ _ Ho)) as [_ Hus].
  assert (0 < len (rows b)) as Hn0.
  { pose proof (bo_rows _ _ Hbo). destruct (rows b); [done|unfold len; simpl; lia]. }
  wp_step. case_bool_decide as Hk; cycle 1.
  { wp_step. simpl. unfold give_back, put_in_flight. wp_step. wp_step. wp_step. split; [by apply with_flight_back|].
    right. exists b. auto. }
  eapply wp_lift_ok; [apply umul_ok; unfold batch_size; lia|]. cbn beta. simpl. wp_step.
  { apply negb_true_iff, N.eqb_neq in Heqb0. unfold give_back, put_in_flight. wp_step. wp_step. wp_step.
    split; [by apply with_flight_back|]. right. exists b. auto. }
  apply negb_false_iff, N.eqb_eq in Heqb0. rewrite Hk in Ho.
  assert (opened (with_in_flight None s) Verify (rows b) (λ _, InFlight (batch_id b))) as Ho1
    by by eapply (opened_same _ _ _ _ _ _ s).
  unfold range, len at 1. rewrite Nat2N.id.
  eapply wp_wand; [eapply (verify_loop_rows_spec (with_in_flight None s) argmax (batch_id b) b [] (rows b))| |done].
  - done.
  - by destruct Hbo.
  - exact Hex.
  - exact Harg.
  - exact Heqb0.
  - nia.
  - done.
  - done.
  - done.
  - exact Hdr.
  - by destruct s.
  - done.
  - cbn beta. intros ? s' [Ho' Hv]. exists b. do 3 (split; [done|]). split; [|done].
    eapply upto_inv; [by rewrite Hv|done].
Qed.
End verify.
