(* ===== verification/SchedulerLife.v ===== *)
(** * The other operations of the scheduler

    Submission, cancellation, results, limits, look-ahead and the completions that choose
    tokens: each keeps the invariant; those that fail change nothing.  Last, progress: when
    admission reserves the whole capacity of a request, the pages it still needs are always
    there. *)

From S2P Require Export SchedulerVerify.
Open Scope N_scope.

Section life.
Context {P : Profile} {SM : Sampling} {CM : CausalModel} (chain : N → list Z → N).
Context (c : PagedKvCacheConfig) (trusted : Prop) (Ctx : list Z → Prop).
Context (mem : memory).

Abbreviation bs := (block_size c).
Abbreviation seqs s := (sequences (kv_cache s)).
Abbreviation core := (core chain c trusted Ctx mem).
Abbreviation upto := (upto chain c trusted Ctx mem).
Abbreviation opened := (opened chain c trusted Ctx mem).
Abbreviation req_ok := (req_ok chain c trusted Ctx mem).
Abbreviation inv := (inv chain c trusted Ctx mem).

(** A step that touches neither the requests nor the sequences of a batch. *)
Lemma inv_step log log' s s' :
  inv log s → core log' s' →
  kv_cache s' = kv_cache s → active s' = active s → in_flight s' = in_flight s → next_batch s' = next_batch s →
  (∀ b, in_flight s = Some b → max_batch_tokens (sc_config s) ≤ max_batch_tokens (sc_config s')) →
  inv log' s'.
Proof.
  unfold inv. intros Hinv Hcore Hk Ha Hf Hn Hlim. rewrite Hf. destruct (in_flight s) as [b|].
  - destruct Hinv as [[_ Hnd Hrows Hidle] [? ? ? ?]]. split.
    + unfold opened. rewrite Hk. split; [done|done|..]; rewrite Ha, Hk; done.
    + split; [done|by rewrite Hn| |done]. specialize (Hlim b eq_refl). lia.
  - destruct Hinv as [_ Hnd Hrows Hidle]. split; [done|done|..]; rewrite Ha, Hk; done.
Qed.
Lemma inv_core log s : inv log s → core log s.
Proof. unfold inv. destruct (in_flight s); [intros [Ho _]; apply Ho|intros Ho; apply Ho]. Qed.

(** ** Submission *)

Lemma core_log log log' s n :
  log ⊆ log' → next_request s ≤ n → (∀ r, is_Some (log' !! r) → r < n) →
  core log s → core log' (with_next_request n s).
Proof.
  intros Hsub Hn Hids []. split; simpl; try done.
  - intros r a q Ha Hq. pose proof (co_req r a q Ha Hq) as Hreq. destruct Hreq. split; try done.
    destruct ro_log as (b & Hl & ? & ?). exists b. split; [by eapply lookup_weaken|done].
  - intros p Hp. destruct (co_pend p Hp) as [? ? ? (b & Hl & ?) ?]. split; try done.
    exists b. split; [by eapply lookup_weaken|done].
  - intros f Hf. destruct (co_fin f Hf) as (g & b & Hl & ?). exists g, b. split; [by eapply lookup_weaken|done].
Qed.

(** The request submitted. *)
Definition submission_of (p : list Z) (g : GreedyGenerationConfig) (x : option TokenSampler) : submission :=
  mkSubmission p g (bool_decide (x = None)).

(** Why a submission is refused. *)
Definition refused (s : ContinuousBatchScheduler) (p : list Z) (g : GreedyGenerationConfig) : Prop :=
  p = [] ∨
  (prefill_chunk_tokens s = None ∧ max_batch_tokens (sc_config s) < len p) ∨
  N.min usize_max (max_sequence_length c) < len p + max_new_tokens g ∨
  (∃ t, t ∈ p ++ eos_token_ids g ∧ (t < 0)%Z) ∨
  (0 < max_new_tokens g ∧ num_pages c <
     match kv_admission (options s) with
     | OnDemand => div_ceil (len p) bs
     | ReserveSequenceCapacity => request_page_budget (len p) g bs
     end) ∨
  (0 < max_new_tokens g ∧ ∃ limit, max_pending_requests (options s) = Some limit ∧
     limit ≤ len (pending_requests s)) ∨
  next_request s = u64_max.

Lemma submit_spec log s p g x :
  inv log s → (trusted → Ctx p) → next_request s ≤ u64_max →
  wp (submit_with_sampler p g x) s
    (λ r s', ¬ refused s p g ∧ r = next_request s ∧ ¬ is_Some (log !! r) ∧ inv (<[r := submission_of p g x]> log) s')
    (λ _ s', s' = s ∧ refused s p g).
Proof.
  intros Hinv Hctx Hnr. pose proof (inv_core _ _ Hinv) as Hcore. pose proof (co_config _ _ _ _ _ _ _ Hcore) as Hc.
  assert (log !! next_request s = None) as Hfresh.
  { apply eq_None_not_Some. intros Hx%(co_ids _ _ _ _ _ _ _ Hcore). lia. }
  unfold submit_with_sampler. wp_step. wp_step. rewrite Hc.
  case_bool_decide as Hp; [wp_step; split; [done|by left]|].
  wp_step. { apply andb_true_iff in Heqb as [?%bool_decide_eq_true ?%N.ltb_lt]. wp_step. split; [done|]. right; left. done. }
  wp_step. unfold checked_add. destruct (N.leb_spec (len p + max_new_tokens g) usize_max) as [Hu|Hu]; unfold ok_or; wp_step; cycle 1.
  { split; [done|]. do 2 right; left. lia. }
  wp_step. { apply N.ltb_lt in Heqb0. wp_step. split; [done|]. do 2 right; left. lia. }
  apply N.ltb_ge in Heqb0.
  assert (¬ (prefill_chunk_tokens s = None ∧ max_batch_tokens (sc_config s) < len p)) as Hcap.
  { intros [Hnone Hlt%N.ltb_lt]. rewrite Hnone, Hlt in Heqb. done. }
  wp_step.
  { apply existsb_exists in Heqb1 as (t & Hin%list_elem_of_In & Ht%Z.ltb_lt). wp_step. split; [done|].
    do 3 right; left. eauto. }
  assert (¬ ∃ t, t ∈ p ++ eos_token_ids g ∧ (t < 0)%Z) as Hpos.
  { intros (t & Hin%list_elem_of_In & Ht%Z.ltb_lt). apply not_true_iff_false in Heqb1. apply Heqb1, existsb_exists.
    eauto. }
  wp_step. set (req := match kv_admission (options s) with OnDemand => _ | ReserveSequenceCapacity => _ end).
  assert (wp (when (0 <? max_new_tokens g) (if num_pages c <? req then throw (RequestTooManyPages req (num_pages c))
    else if match max_pending_requests (options s) with Some limit => limit <=? len (pending_requests s) | None => false end
    then throw PendingQueueFull else ret tt)) s
    (λ _ s', s' = s ∧ (0 < max_new_tokens g → req ≤ num_pages c ∧
       ∀ limit, max_pending_requests (options s) = Some limit → len (pending_requests s) < limit))
    (λ _ s', s' = s ∧ refused s p g)) as Hw.
  { wp_step; [|apply wp_ret; apply N.ltb_ge in Heqb2; split; [done|lia]]. apply N.ltb_lt in Heqb2. wp_step.
    { apply N.ltb_lt in Heqb3. wp_step. split; [done|]. do 4 right; left. done. }
    apply N.ltb_ge in Heqb3. wp_step; cycle 1.
    { wp_step. split; [done|]. intros _. split; [done|]. intros limit Hl. rewrite Hl in Heqb4. by apply N.leb_gt in Heqb4. }
    destruct (max_pending_requests (options s)) as [limit|] eqn:Hl; [|done]. apply N.leb_le in Heqb4.
    wp_step. split; [done|]. do 5 right; left. eauto. }
  eapply wp_mono; [exact Hw|]. cbn beta. intros _ s' [-> Hreq]. wp_step.
  destruct (N.leb_spec (next_request s + 1) u64_max) as [Hn|Hn]; unfold ok_or; wp_step; cycle 1.
  { split; [done|]. do 6 right. lia. }
  wp_step. wp_step. wp_step.
  assert (¬ refused s p g) as Hok.
  { intros [?|[?|[?|[?|[[Hg Hx]|[[Hg (limit & Hl & Hx)]|?]]]]]]; [done|done|lia|done| | |lia].
    - destruct (Hreq Hg) as [Hr _]. unfold req in Hr. lia.
    - destruct (Hreq Hg) as [_ Hlim]. specialize (Hlim limit Hl). lia. }
  set (log' := <[next_request s := submission_of p g x]> log).
  assert (core log' (with_next_request (next_request s + 1) s)) as Hcore'.
  { apply (core_log log); [by apply insert_subseteq|lia| |done]. intros r. unfold log'.
    rewrite lookup_insert. case_decide; [lia|]. intros Hx%(co_ids _ _ _ _ _ _ _ Hcore). lia. }
  assert (¬ is_Some (log !! next_request s)) as Hno by (rewrite Hfresh; by intros []).
  assert (log' !! next_request s = Some (submission_of p g x)) as Hlk by apply lookup_insert_eq.
  wp_step.
  - apply N.eqb_eq in Heqb2. wp_step. wp_step. do 3 (split; [done|]).
    eapply inv_step; [exact Hinv| |done..].
    apply (core_finish _ _ _ _ _ _ (with_next_request (next_request s + 1) s)); [done|].
    exists g, (bool_decide (x = None)). simpl. rewrite Heqb2. split; [done|]. split; [done|].
    split; [split; [done|by intros (? & ? & _)]|]. done.
  - apply N.eqb_neq in Heqb2. wp_step. wp_step. do 3 (split; [done|]).
    eapply inv_step; [exact Hinv| |done..].
    assert (∀ p0, p0 ∈ pending_requests s → pend_id p0 ≠ next_request s) as Hpn.
    { intros p0 Hp0 Heq. destruct (pe_log _ _ _ _ _ (co_pend _ _ _ _ _ _ _ Hcore p0 Hp0)) as (b & Hl & _).
      rewrite Heq in Hl. congruence. }
    destruct Hcore'. split; simpl in *; try done.
    + intros p0 [Hp0| ->%list_elem_of_singleton]%elem_of_app; [by apply co_pend|]. split; simpl; try done; [lia|].
      exists (bool_decide (x = None)). split; [done|]. apply bool_decide_eq_true.
    + rewrite fmap_app. apply NoDup_app. split; [done|]. split; [|apply NoDup_singleton].
      intros r (p0 & -> & Hp0)%list_elem_of_fmap Hx%list_elem_of_singleton. by apply (Hpn p0).
    + intros p0 [Hp0| ->%list_elem_of_singleton]%elem_of_app; [by apply co_pend_new|]. simpl.
      destruct (active s !! next_request s) as [a|] eqn:Ha; [|done]. exfalso.
      destruct (proj1 (co_dom (next_request s))) as [q Hq]; [eauto|].
      destruct (ro_log _ _ _ _ _ _ _ _ _ (SchedulerInv.co_req _ _ _ _ _ _ _ Hcore _ _ _ Ha Hq)) as (b & Hl & _). congruence.
    + intros Hadm p0 [Hp0| ->%list_elem_of_singleton]%elem_of_app; [by apply co_pend_budget|]. simpl.
      unfold req in Hreq. rewrite Hadm in Hreq. apply Hreq. lia.
Qed.

(** ** Cancellation *)

(** The request is gone. *)
Definition gone (s : ContinuousBatchScheduler) (r : N) : Prop :=
  active s !! r = None ∧ seqs s !! r = None ∧ r ∉ pend_id <$> pending_requests s.

Lemma core_pending log s rest :
  core log s → (∀ p, p ∈ rest → p ∈ pending_requests s) → NoDup (pend_id <$> rest) → core log (with_pending rest s).
Proof. intros [] Hsub Hnd. split; simpl; try done; auto. Qed.

(** Dropping a request that is in no batch. *)
Lemma inv_drop log s k r a q :
  inv log s → active s !! r = Some a → seqs s !! r = Some q → (∀ id, phase a ≠ InFlight id) →
  wf k → config k = c → block_index k ⊆ block_index (kv_cache s) → reservations k = reservations (kv_cache s) →
  sequences k = delete r (seqs s) →
  inv log (with_active (delete r (active s)) (with_kv k s)).
Proof.
  intros Hinv Ha Hq Hph Hwf Hc Hix Hrs Hs. pose proof (inv_core _ _ Hinv) as Hcore.
  assert (core log (with_active (delete r (active s)) (with_kv k s))) as Hcore'.
  { eapply (core_drop _ _ _ _ _ _ s r a k); try done. intros Ht. eapply published_sub; [exact Hix|]. by apply Hcore. }
  assert (∀ rs F, upto log s rs F → r ∉ request_id <$> rs →
    upto log (with_active (delete r (active s)) (with_kv k s)) rs F) as Hup.
  { intros rs F [_ Hnd Hrows Hidle] Hr. split; [done|done|..]; simpl; rewrite Hs.
    - intros row Hin. assert (r ≠ request_id row) by (intros ->; apply Hr; by apply list_elem_of_fmap_2).
      rewrite !lookup_delete_ne by done. by apply Hrows.
    - intros r0 a0 q0. rewrite !lookup_delete_Some. intros [_ ?] [_ ?]. eauto. }
  unfold inv in *. simpl. destruct (in_flight s) as [b|]; [|eapply upto_nil, Hup; [exact Hinv|apply not_elem_of_nil]].
  destruct Hinv as [Ho Hbo]. split; [|by destruct Hbo]. unfold opened. simpl. rewrite Hrs. apply Hup; [done|].
  intros (row & -> & Hin)%list_elem_of_fmap. destruct (up_rows _ _ _ _ _ _ _ _ _ Ho row Hin) as (a' & q' & Ha' & _ & Hop).
  assert (a' = a) as -> by congruence. by eapply Hph, Hop.
Qed.

(** A request in no batch has no reservation. *)
Lemma inv_idle log s r a q :
  inv log s → active s !! r = Some a → seqs s !! r = Some q → (∀ id, phase a ≠ InFlight id) → idle_ok a q.
Proof.
  unfold inv. intros Hinv Ha Hq Hph. destruct (in_flight s) as [b|].
  - destruct Hinv as [Ho _]. eapply Ho; [done..|]. intros (row & -> & Hin)%list_elem_of_fmap.
    destruct (up_rows _ _ _ _ _ _ _ _ _ Ho row Hin) as (a' & q' & Ha' & _ & Hop).
    assert (a' = a) as -> by congruence. by eapply Hph, Hop.
  - eapply Hinv; [done..|apply not_elem_of_nil].
Qed.

Lemma inv_unlisted log s d : inv log s → inv log (with_deferred_prefill d s).
Proof. intros Hinv. eapply inv_step; [exact Hinv|eapply core_same; [|by apply inv_core]; done|done..]. Qed.

Lemma sch_cancel_spec log s r :
  inv log s → clock (kv_cache s) ≤ u64_max →
  wp (sch_cancel r) s
    (λ out s', inv log s' ∧
       match out with
       | None => s' = s ∧ gone s r
       | Some x => gone s' r ∧ can_request x = r ∧
           ((∃ p, p ∈ pending_requests s ∧ pend_id p = r ∧ x = mkCancelled r (pend_prompt p) []) ∨
            (∃ a, active s !! r = Some a ∧ x = mkCancelled r (prompt a) (generated a)))
       end)
    (λ _ s', s' = s ∧ ∃ a id, active s !! r = Some a ∧ phase a = InFlight id).
Proof.
  intros Hinv Hclk. pose proof (inv_core _ _ Hinv) as Hcore. unfold sch_cancel. wp_step. wp_step.
  destruct (take_first (λ p, pend_id p =? r) (pending_requests s)) as [[p rest]|] eqn:Ht.
  - destruct (take_first_spec _ _ _ _ Ht) as [Hp%N.eqb_eq Hperm]. wp_step. wp_step. wp_step. wp_step. wp_step.
    assert (p ∈ pending_requests s) as Hin by (rewrite Hperm; by left).
    pose proof (co_pend_nodup _ _ _ _ _ _ _ Hcore) as Hnd. rewrite Hperm, fmap_cons in Hnd.
    apply NoDup_cons in Hnd as [Hnin Hnd]. pose proof (co_pend_new _ _ _ _ _ _ _ Hcore p Hin) as Hnew.
    rewrite Hp in Hnew, Hnin. split; [|split; [|split; [done|left; by exists p]]].
    + apply inv_unlisted. eapply inv_step; [exact Hinv| |done..]. apply core_pending; [done| |done].
      intros p0 Hp0. rewrite Hperm. by right.
    + split; [done|]. split; [|done]. simpl. apply eq_None_not_Some.
      rewrite <-(co_dom _ _ _ _ _ _ _ Hcore), Hnew. by intros [].
  - assert (r ∉ pend_id <$> pending_requests s) as Hnp.
    { intros (p & -> & Hp)%list_elem_of_fmap. pose proof (take_first_none _ _ Ht p Hp) as Hx.
      simpl in Hx. by rewrite N.eqb_refl in Hx. }
    destruct (active s !! r) as [a|] eqn:Ha; cycle 1.
    { wp_step. split; [done|]. split; [done|]. split; [done|]. split; [|done]. apply eq_None_not_Some.
      rewrite <-(co_dom _ _ _ _ _ _ _ Hcore), Ha. by intros []. }
    destruct (proj1 (co_dom _ _ _ _ _ _ _ Hcore r)) as [q Hq]; [eauto|].
    assert ((∀ id, phase a ≠ InFlight id) → wp (let! _ := kv (remove_sequence r) in
      let! act := gets active in let! a := expect (act !! r) in let! _ := drop_active r in
      let! _ := modify (with_deferred_prefill (deferred_prefill s ∖ {[r]})) in
      ret (Some (mkCancelled r (prompt a) (generated a)))) s
      (λ out s', inv log s' ∧ match out with
       | None => s' = s ∧ gone s r
       | Some x => gone s' r ∧ can_request x = r ∧
           ((∃ p, p ∈ pending_requests s ∧ pend_id p = r ∧ x = mkCancelled r (pend_prompt p) []) ∨
            (∃ a0, Some a = Some a0 ∧ x = mkCancelled r (prompt a0) (generated a0)))
       end) (λ _ s', s' = s ∧ ∃ a0 id, Some a = Some a0 ∧ phase a0 = InFlight id)) as Hdrop.
    { intros Hph. destruct (inv_idle _ _ _ _ _ Hinv Ha Hq Hph) as [Hp _]. wp_step. apply wp_kv_ok.
      eapply wp_mono; [apply (remove_sequence_ok r q); [apply Hcore|done|done|done]|].
      cbn beta. intros _ k (Hwf & Hc & _ & Hrs & Hs & _ & (Hix & _)).
      wp_step. wp_step. wp_step. eapply wp_expect; [exact Ha|]. cbn beta. unfold drop_active.
      wp_step. wp_step. wp_step. wp_step. wp_step. split; [|split; [|split; [done|right; eauto]]].
      - apply inv_unlisted. apply (inv_drop log s k r a q); try done. rewrite Hc. apply Hcore.
      - split; [apply lookup_delete_eq|]. split; [|done]. simpl. rewrite Hs. apply lookup_delete_eq. }
    destruct (phase a) as [|t|id] eqn:Hph; [by apply Hdrop|by apply Hdrop|]. wp_step. split; [done|]. eauto.
Qed.

(** ** Results and limits *)

Lemma pop_finished_spec log s :
  inv log s →
  wp pop_finished s
    (λ out s', inv log s' ∧ match out with
       | None => finished s = [] ∧ s' = s
       | Some f => finished s = f :: finished s' ∧ fin_ok trusted log f
       end) (λ _ _, False).
Proof.
  intros Hinv. pose proof (inv_core _ _ Hinv) as Hcore. unfold pop_finished. wp_step. wp_step.
  destruct (finished s) as [|f l] eqn:Hf; [by wp_step|]. wp_step. wp_step. wp_step. split.
  - eapply inv_step; [exact Hinv| |done..]. destruct Hcore. split; simpl; try done.
    intros f0 Hf0. apply co_fin. rewrite Hf. by right.
  - split; [done|]. apply (co_fin _ _ _ _ _ _ _ Hcore). rewrite Hf. by left.
Qed.

Lemma set_prefix_caching_inv log s b :
  inv log s → wp (sch_set_prefix_caching b) s (λ _ s', inv log s') (λ _ _, False).
Proof.
  intros Hinv. pose proof (inv_core _ _ Hinv) as Hcore. apply wp_kv_ok.
  eapply wp_wand; [apply (wp_leads quiet), set_prefix_caching_spec;
    [apply set_prefix_caching_quiet|apply Hcore]| |naive_solver].
  cbn beta. intros _ k ((Hwf & Hc & Hs & Hr & _) & (Hix & _)).
  assert (core log (with_kv k s)) as Hcore'.
  { apply core_kv; [done|done|rewrite Hc; apply Hcore| |by rewrite Hs|].
    - intros Ht. eapply published_sub; [exact Hix|]. by apply Hcore.
    - intros r a q Ha. rewrite Hs. by apply Hcore. }
  unfold inv in *. simpl. destruct (in_flight s) as [b0|].
  - destruct Hinv as [[_ Hnd Hrows Hidle] Hbo]. split; [|by destruct Hbo]. unfold opened. simpl. rewrite Hr.
    split; [done|done|..]; simpl; rewrite Hs; done.
  - destruct Hinv as [_ Hnd Hrows Hidle]. unfold opened. simpl. rewrite Hr. split; [done|done|..]; simpl; rewrite Hs; done.
Qed.

Lemma set_speculative_spec log s sc :
  inv log s → (∀ x, sc = Some x → draft_tokens x < usize_max) →
  wp (set_speculative_decoding sc) s
    (λ _ s', inv log s' ∧ s' = with_speculative sc s)
    (λ _ s', s' = s ∧ ∃ x, sc = Some x ∧ (draft_tokens x = 0 ∨ ngram x = 0)).
Proof.
  intros Hinv Hd. unfold set_speculative_decoding. destruct sc as [x|].
  - wp_step; wp_step.
    + split; [done|]. exists x. split; [done|]. apply orb_true_iff in Heqb as [?%N.eqb_eq|?%N.eqb_eq]; auto.
    + split; [|done]. apply orb_false_iff in Heqb as [Hz%N.eqb_neq _].
      eapply inv_step; [exact Hinv| |done..]. pose proof (inv_core _ _ Hinv) as []. split; simpl; try done.
      intros sc [= <-]. split; [lia|by apply Hd].
  - wp_step. split; [|done]. eapply inv_step; [exact Hinv| |done..].
    pose proof (inv_core _ _ Hinv) as []. split; simpl; done.
Qed.

Lemma set_batch_token_limit_spec log s limit :
  inv log s → limit ≤ usize_max →
  wp (set_batch_token_limit limit) s
    (λ _ s', inv log s' ∧ max_batch_tokens (sc_config s') = limit ∧ minimum_batch_token_limit s ≤ limit)
    (λ _ s', s' = s ∧ (is_Some (in_flight s) ∨ limit < minimum_batch_token_limit s)).
Proof.
  intros Hinv Hl. unfold set_batch_token_limit. wp_step. wp_step.
  case_bool_decide as Hf; [wp_step; auto|]. wp_step; [apply N.ltb_lt in Heqb; wp_step; auto|].
  apply N.ltb_ge in Heqb. wp_step. split; [|done].
  assert (1 ≤ minimum_batch_token_limit s) by (unfold minimum_batch_token_limit; destruct (prefill_chunk_tokens s); lia).
  eapply inv_step; [exact Hinv| |done|done|done|done|].
  - pose proof (inv_core _ _ Hinv) as []. split; simpl; try done. lia.
  - intros b Hb. rewrite Hb in Hf. exfalso. eauto.
Qed.

(** ** Completions that choose tokens *)

Section choose.
Context (log : gmap N submission).
Context (Hclosed : trusted → ∀ h, Ctx h → len h < max_sequence_length c → Ctx (h ++ [next_token h])).

(** The prediction of a row whose history is complete. *)
Lemma row_prediction s b ph row a :
  opened log s (batch_kind b) (rows b) ph → batch_kind b ≠ Verify → row ∈ rows b →
  active s !! request_id row = Some a → len (history a) ≤ context_length row →
  last (predicted s row) = Some (next_token (history a)).
Proof.
  intros Ho Hk Hin Ha Hfull. destruct (up_rows _ _ _ _ _ _ _ _ _ Ho row Hin) as (a' & q & Ha' & Hq & Hop).
  assert (a' = a) as -> by congruence. destruct (row_open_take _ _ _ _ _ _ _ Hk Hop) as [Hle Htk].
  destruct (rw_resv _ _ _ _ _ _ _ Hop) as (rv & _ & Hn0 & _). pose proof (rw_context _ _ _ _ _ _ _ Hop) as Hcl.
  pose proof (ro_committed _ _ _ _ _ _ _ _ _ (co_req _ _ _ _ _ _ _ (up_core _ _ _ _ _ _ _ _ _ Ho) _ _ _ Ha Hq)) as Hcom.
  rewrite <-(rw_start _ _ _ _ _ _ _ Hop) in Hcom.
  unfold predicted, row_context. rewrite Ha, last_lookup, length_predictions.
  rewrite lookup_predictions by (unfold len in Hn0; lia). do 2 f_equal.
  rewrite Nat.succ_pred_pos by (unfold len in Hn0; lia). rewrite (take_ge (token_ids row)) by done.
  rewrite (take_ge (history a) (N.to_nat (context_length row))) in Htk by (unfold len in *; lia). rewrite <-Htk at 2.
  symmetry. apply take_ge. unfold len in *. rewrite length_app, length_take. lia.
Qed.

(** What an honest device gives a greedy completion: the last prediction of each row. *)
Definition row_outputs (s : ContinuousBatchScheduler) (b : ScheduledBatch) : list Z :=
  (λ row, default 0%Z (last (predicted s row))) <$> rows b.

Lemma greedy_honest s b argmax ph :
  opened log s (batch_kind b) (rows b) ph → batch_kind b ≠ Verify → (trusted → argmax = row_outputs s b) →
  honest trusted Ctx log s b ((λ x, if samples_token s x.1 then x.2 else NO_TOKEN) <$> zip (rows b) argmax).
Proof using Hclosed.
  intros Ho Hk Harg row t a Hin Ha Hfull Ht. specialize (Harg Ht).
  apply list_elem_of_lookup in Hin as [i Hi]. rewrite lookup_zip_Some, list_lookup_fmap in Hi.
  destruct Hi as [Hrow Hx]. rewrite Harg in Hx. unfold row_outputs in Hx.
  rewrite (proj2 (lookup_zip_Some _ _ i row (default 0%Z (last (predicted s row))))) in Hx;
    [|split; [done|by rewrite list_lookup_fmap; simpl; rewrite Hrow]].
  simpl in Hx. unfold samples_token in Hx. rewrite Ha, (proj2 (N.leb_le _ _)) in Hx by done.
  assert (row ∈ rows b) as Hinr by by eapply list_elem_of_lookup_2.
  rewrite (row_prediction _ _ _ _ _ Ho Hk Hinr Ha Hfull) in Hx. simpl in Hx.
  assert (t = next_token (history a)) as -> by congruence. split; [done|].
  destruct (up_rows _ _ _ _ _ _ _ _ _ Ho row Hinr) as (a' & q & Ha' & Hq & _).
  assert (a' = a) as -> by congruence.
  pose proof (co_req _ _ _ _ _ _ _ (up_core _ _ _ _ _ _ _ _ _ Ho) _ _ _ Ha Hq) as Hreq.
  apply Hclosed; [done|by apply Hreq|]. rewrite (ro_history _ _ _ _ _ _ _ _ _ Hreq), len_app.
  pose proof (ro_len _ _ _ _ _ _ _ _ _ Hreq). pose proof (ro_room _ _ _ _ _ _ _ _ _ Hreq). lia.
Qed.

Lemma complete_greedy_batch_spec id argmax s :
  inv log s → clock (kv_cache s) ≤ u64_max →
  (∀ b, in_flight s = Some b → batch_id b = id →
     batch_kind b ≠ Verify ∧ executed c trusted mem s b ∧ (trusted → argmax = row_outputs s b)) →
  wp (complete_greedy_batch chain id argmax) s
    (λ _ s', ∃ b, in_flight s = Some b ∧ batch_id b = id ∧ inv log s' ∧ ended s s')
    (λ _ s', s' = s).
Proof using Hclosed.
  intros Hinv Hclk Hgood. unfold complete_greedy_batch. wp_step. wp_step. wp_step. unfold in_flight_batch.
  destruct (in_flight s) as [b|] eqn:Hb; [|done]. destruct (N.eqb_spec (batch_id b) id) as [Hid|]; [|done].
  eapply wp_lift_ok; [done|]. cbn beta. wp_step; [by wp_step|]. wp_step.
  unfold batch_requires_logits, in_flight_batch. rewrite Hb, (proj2 (N.eqb_eq _ _)) by done. simpl.
  eapply wp_lift_ok; [done|]. cbn beta. wp_step; [by wp_step|]. wp_step.
  eapply wp_wand; [apply (complete_batch_spec chain c trusted Ctx mem log id)| |naive_solver].
  - done.
  - done.
  - intros b' Hb' _. destruct (Hgood b eq_refl Hid) as (Hk & Hex & Harg).
    assert (b' = b) as -> by congruence. do 2 (split; [done|]).
    unfold inv in Hinv. rewrite Hb in Hinv. destruct Hinv as [Ho _]. by eapply greedy_honest.
  - cbn beta. intros _ s' (b' & Hb' & ?). wp_step. exists b'. rewrite Hb in Hb'. done.
Qed.
End choose.

(** Samplers come back after a selection. *)
Lemma put_sampler_inv log s r x a :
  inv log s → in_flight s = None → active s !! r = Some a → (∀ p g, log !! r ≠ Some (mkSubmission p g true)) →
  inv log (with_active (<[r := set_sampler (Some x) a]> (active s)) s).
Proof.
  unfold inv. intros Hinv Hfl Ha Hlog. simpl. rewrite Hfl in *. pose proof Hinv as [Hcore Hnd Hrows Hidle].
  destruct (proj1 (co_dom _ _ _ _ _ _ _ Hcore r)) as [q Hq]; [eauto|].
  split; [|done|by intros ? ?%elem_of_nil|].
  - eapply core_put; [done|done|done| |done|done].
    pose proof (co_req _ _ _ _ _ _ _ Hcore _ _ _ Ha Hq) as []. split; try done.
    destruct ro_log as ([] & Hl & _); [by apply Hlog in Hl|]. exists false. done.
  - intros r0 a0 q0. simpl. rewrite lookup_insert_Some. intros [[<- <-]|[_ Ha0]] Hq0 Hn; [|by eapply Hidle].
    exact (Hidle _ _ _ Ha Hq0 Hn).
Qed.

(** *** Selection *)

(** Sampling state that comes from the requests. *)
Definition state_of (s : ContinuousBatchScheduler) (st : gmap N (option TokenSampler)) : Prop :=
  ∀ r y, st !! r = Some y → ∃ a, active s !! r = Some a ∧ sampler a = y.
Definition from_samplers (s : ContinuousBatchScheduler) (l : list (N * TokenSampler)) : Prop :=
  ∀ r x, (r, x) ∈ l → ∃ a, active s !! r = Some a ∧ is_Some (sampler a).

Lemma sampling_state_of id s st : batch_sampling_state id s = Ok st → state_of s st.
Proof.
  unfold batch_sampling_state. destruct (in_flight_batch id s) as [b|e|]; [|done|done]. simpl.
  assert (∀ rs acc st, (∀ m, acc = Ok m → state_of s m) →
    foldl (λ acc row, let? m := acc in match active s !! request_id row with
      | Some a => Ok (<[request_id row := sampler a]> m) | None => Err SamplingMissing end) acc rs = Ok st →
    state_of s st) as H; [|apply H; by intros m [= <-] r y; rewrite lookup_empty].
  clear b st. induction rs as [|row rs IH]; intros acc st Hacc; [by apply Hacc|]. simpl. apply IH.
  intros m. destruct acc as [m0|e|]; [|done|done]. simpl. destruct (active s !! request_id row) as [a|] eqn:Ha; [|done].
  intros [= <-] r y. rewrite lookup_insert_Some. intros [[<- <-]|[_ Hy]]; [eauto|]. by eapply Hacc.
Qed.

Lemma select_row_from s id logits v acc x tokens samplers st :
  (∀ ts l m, acc = Ok (ts, l, m) → from_samplers s l ∧ state_of s m) →
  select_row s id logits v (select_token s) acc x = Ok (tokens, samplers, st) → from_samplers s samplers ∧ state_of s st.
Proof.
  intros Hacc. unfold select_row. destruct acc as [[[ts l] m]|e|]; [|done|done]. simpl.
  destruct (Hacc _ _ _ eq_refl) as [Hl Hm]. destruct x as [i row]. destruct (active s !! request_id row) as [a|] eqn:Ha; [|done].
  case_bool_decide; [|done]. simpl. destruct (samples_token s row); simpl; [|by intros [= <- <- <-]].
  destruct (m !! request_id row) as [next|] eqn:Hn; [|done]. destruct (Hm _ _ Hn) as (a' & Ha' & Hs).
  assert (a' = a) as -> by congruence.
  assert (state_of s (delete (request_id row) m)) as Hd by (intros r y [_ Hy]%lookup_delete_Some; eauto).
  destruct (select_token s (request_id row) _ next) as [[t out]|e|] eqn:Hsel; [|done|done]. simpl.
  intros [= <- <- <-]. split; [|done]. destruct out as [y|]; [|done].
  intros r z [Hin|[= -> ->]%list_elem_of_singleton]%elem_of_app; [by eapply Hl|]. exists a. split; [done|].
  destruct next as [x0|]; [by rewrite Hs|]. exfalso. unfold select_token in Hsel. by destruct (greedy_token _).
Qed.

Lemma selected_from id logits v s sel :
  select_batch_tokens id logits v s = Ok sel → sel_batch sel = id ∧ from_samplers s (sel_samplers sel).
Proof.
  unfold select_batch_tokens. destruct (batch_sampling_state id s) as [st|e|] eqn:Hst; [|done|done]. simpl.
  apply sampling_state_of in Hst. unfold select_batch_tokens_with.
  destruct (in_flight_batch id s) as [b|e|]; [|done|done]. simpl. destruct (_ || _); [done|].
  destruct (foldl _ _ _) as [[[ts l] m]|e|] eqn:Hf; [|done|done]. simpl. intros [= <-]. split; [done|]. simpl.
  assert (∀ xs acc ts l m, (∀ ts l m, acc = Ok (ts, l, m) → from_samplers s l ∧ state_of s m) →
    foldl (select_row s id logits v (select_token s)) acc xs = Ok (ts, l, m) → from_samplers s l ∧ state_of s m) as H.
  { clear. induction xs as [|x xs IH]; intros acc ts l m Hacc; [by apply Hacc|]. simpl. apply IH.
    intros ts' l' m'. by apply select_row_from. }
  eapply H; [|exact Hf]. intros ??? [= <- <- <-]. split; [by intros ?? ?%elem_of_nil|done].
Qed.

Lemma select_no_panic id logits v s : select_batch_tokens id logits v s ≠ Panic.
Proof.
  assert (∀ r vs n a, active s !! r = Some a → select_token s r vs n ≠ Panic) as Htok.
  { intros r vs [x|] a Ha; unfold select_token; [rewrite Ha; by destruct (sample_with_history _ _ _ _) as [[]|]|].
    unfold greedy_token. destruct (greedy_loop _ _ _) as [[i w]|]; simpl; [|done]. by destruct (_ <? i). }
  assert (∀ A B (f : res ContinuousBatchError A → B → res ContinuousBatchError A) xs acc,
    (∀ acc x, acc ≠ Panic → f acc x ≠ Panic) → acc ≠ Panic → foldl f acc xs ≠ Panic) as Hfold.
  { intros A B f xs. induction xs as [|x xs IH]; intros acc Hf Hacc; [done|]. simpl. apply IH; auto. }
  unfold select_batch_tokens, batch_sampling_state, select_batch_tokens_with, in_flight_batch.
  destruct (in_flight s) as [b|]; [|done]. destruct (batch_id b =? id); [|done]. simpl.
  match goal with |- context [foldl ?f ?a ?l] => pose proof (Hfold _ _ f l a) as H1; destruct (foldl f a l) as [st|e|] end;
    [|done|]; cycle 1.
  { intros _. apply H1; [|done|done]. intros [m|e|] row Hm; [|done|done]. simpl. by destruct (active s !! _). }
  simpl. destruct (_ || _); [done|].
  match goal with |- context [foldl ?f ?a ?l] => pose proof (Hfold _ _ f l a) as H2; destruct (foldl f a l) as [[[ts l'] m]|e|] end;
    [done|done|]. intros _. apply H2; [|done|done]. intros [[[ts l0] m]|e|] [i row] Hm; [|done|done]. unfold select_row. simpl.
  destruct (active s !! request_id row) as [a|] eqn:Ha; [|done]. case_bool_decide; [|done]. simpl.
  destruct (samples_token s row); [|done]. simpl. destruct (m !! request_id row) as [next|]; [|done].
  match goal with |- context [select_token s ?r ?vs ?n] => pose proof (Htok r vs n a Ha) as H3; by destruct (select_token s r vs n) end.
Qed.

Lemma complete_selected_batch_spec log sel s :
  inv log s → clock (kv_cache s) ≤ u64_max →
  (∀ b, in_flight s = Some b → batch_id b = sel_batch sel →
     batch_kind b ≠ Verify ∧ executed c trusted mem s b ∧ honest trusted Ctx log s b (sel_tokens sel)) →
  from_samplers s (sel_samplers sel) →
  wp (complete_selected_batch chain sel) s
    (λ out s', out = sel_tokens sel ∧ inv log s' ∧ in_flight s' = None) (λ _ s', s' = s).
Proof.
  intros Hinv Hclk Hgood Hsam. pose proof (inv_core _ _ Hinv) as Hcore.
  assert (∀ r x, (r, x) ∈ sel_samplers sel → ∀ p g, log !! r ≠ Some (mkSubmission p g true)) as Hlog.
  { intros r x Hin p g Hl. destruct (Hsam r x Hin) as (a & Ha & [y Hy]).
    destruct (proj1 (co_dom _ _ _ _ _ _ _ Hcore r)) as [q Hq]; [eauto|].
    destruct (ro_log _ _ _ _ _ _ _ _ _ (co_req _ _ _ _ _ _ _ Hcore _ _ _ Ha Hq)) as (b & Hl' & Hb & _).
    assert (b = true) as -> by congruence. rewrite Hb in Hy; done. }
  unfold complete_selected_batch. wp_step. eapply wp_wand; [by apply (complete_batch_spec chain c trusted Ctx mem log)| |naive_solver].
  cbn beta. intros _ s1 (b & _ & _ & Hinv1 & Hen). wp_step.
  eapply wp_mono; [apply (wp_for_each _ _ (λ xs s', xs ⊆ sel_samplers sel ∧ inv log s' ∧ in_flight s' = None))|].
  - split; [done|]. split; [done|]. by rewrite Hen.
  - intros [r x] xs s' (Hsub & Hinv' & Hfl). wp_step. wp_step. simpl.
    assert (xs ⊆ sel_samplers sel) as Hsub' by (intros y Hy; apply Hsub; by right).
    destruct (active s' !! r) as [a|] eqn:Ha; [|by wp_step]. unfold put_active. wp_step. split; [done|]. split; [|done].
    apply put_sampler_inv; [done|done|done|]. eapply Hlog. apply Hsub. by left.
  - cbn beta. intros _ s' (_ & ? & ?). wp_step. done.
Qed.

(** ** Look-ahead *)

Lemma opened_extend log s k kind rs ph row rv extra fresh q :
  opened log s kind rs ph → row ∈ rs → wf k → config k = c → block_index k ⊆ block_index (kv_cache s) →
  reservations (kv_cache s) !! reservation_id row = Some rv → rs_request_id rv = request_id row →
  seqs s !! request_id row = Some q →
  sequences k = <[request_id row := mkSequence (committed_tokens q) (pages q ++ fresh) (pending q)
    (registered_blocks q) (chain_hash q)]> (seqs s) →
  reservations k = <[reservation_id row := mkReservation (rs_request_id rv) (previous_page_count rv)
    (start_position rv) (token_count rv + extra)]> (reservations (kv_cache s)) →
  opened log (with_kv k s) kind rs ph.
Proof.
  intros [Hcore Hnd Hrows Hidle] Hin Hwf Hc Hix Hrv Hrid Hq Hs Hr. split; [|done|..].
  - apply core_kv; [done|done|done|..].
    + intros Ht. eapply published_sub; [exact Hix|]. by apply Hcore.
    + intros r. rewrite Hs, lookup_insert. case_decide; [subst; split; eauto|done].
    + intros r a q' Ha. rewrite Hs, lookup_insert_Some. intros [[<- <-]|[_ Hq']]; [|by eapply Hcore].
      pose proof (co_req _ _ _ _ _ _ _ Hcore _ _ _ Ha Hq) as Hreq.
      eapply req_ok_seq; [exact Hreq|done|done|apply Hreq|]. intros Ht. simpl.
      eapply holds_prefix; [by apply prefix_app_r|]. by apply Hreq.
  - intros row' Hin'. destruct (Hrows row' Hin') as (a & q' & Ha & Hq' & [? ? ? ? ? ? (rv' & Hrv' & Hn) ?]).
    assert (∃ rv0, reservations k !! reservation_id row' = Some rv0 ∧ 0 < len (token_ids row') ≤ token_count rv0) as Hresv.
    { rewrite Hr, lookup_insert. case_decide as Hd; [|eauto]. eexists. split; [done|].
      rewrite Hd in Hrv. assert (rv' = rv) as -> by congruence. simpl. lia. }
    cbn [with_kv active kv_cache]. rewrite Hs, lookup_insert. case_decide as Hd.
    + rewrite <-Hd in Hq'. assert (q' = q) as -> by congruence. eexists a, _. split; [done|]. split; [done|].
      split; try done. simpl. etrans; [done|]. by apply prefix_app_r.
    + eexists a, q'. split; [done|]. split; [done|]. by split.
  - intros r a q' Ha. simpl. rewrite Hs, lookup_insert_Some. intros [[<- <-]|[_ Hq']] Hn; [|by eapply Hidle].
    exact (Hidle _ _ _ Ha Hq Hn).
Qed.

Lemma lookahead_row_spec log s kind rs ph wanted acc row :
  opened log s kind rs ph → row ∈ rs →
  wp (lookahead_row wanted acc row) s
    (λ _ s', opened log s' kind rs ph ∧ s' = with_kv (kv_cache s') s) (λ _ s', s' = s).
Proof.
  intros Ho Hin. destruct (row_reservation _ _ _ _ _ _ _ _ _ _ _ Ho Hin) as (a & q & rv & Ha & Hq & Hop & Hrv & Hrid & Hst & Hn).
  pose proof (up_core _ _ _ _ _ _ _ _ _ Ho) as Hcore. pose proof (co_wf _ _ _ _ _ _ _ Hcore) as Hwf.
  pose proof (co_config _ _ _ _ _ _ _ Hcore) as Hc. pose proof (wf_max_len _ _ Hwf) as Hmax.
  destruct (wf_seqs _ _ Hwf _ _ Hq) as [_ Hl]. rewrite (rw_pending _ _ _ _ _ _ _ Hop) in Hl.
  destruct Hl as (rv' & Hrv' & _ & _ & _ & _ & Hml & _). assert (rv' = rv) as -> by congruence.
  pose proof (rw_context _ _ _ _ _ _ _ Hop) as Hcl. rewrite Hc in *.
  destruct acc as [budget reserved]. unfold lookahead_row, get_kv. wp_step. wp_step. wp_step.
  eapply wp_expect; [exact Ha|]. cbn beta. wp_step. wp_step. rewrite Hc. wp_step.
  eapply wp_lift_ok; [apply usub_ok; lia|]. cbn beta.
  set (extra := N.min _ (max_sequence_length c - context_length row)).
  assert (extra ≤ max_sequence_length c - context_length row) by (unfold extra; lia).
  wp_step. eapply wp_lift_ok; [apply uadd_ok; lia|]. cbn beta. wp_step. wp_step. wp_step; [|wp_step; split; [done|by destruct s]].
  wp_step. apply wp_kv. eapply wp_wand; [apply (wp_leads quiet), extend_append_spec;
    [apply extend_append_quiet|done]| |].
  - cbn beta. intros out k ((Hwf' & rv' & q' & fresh & Hrv'' & Hq' & _ & Hc' & Hs & Hr & _) & (Hix & _)).
    assert (rv' = rv) as -> by congruence. rewrite Hrid in *. assert (q' = q) as -> by congruence.
    wp_step. split; [|done]. eapply (opened_extend log s k kind rs ph row rv extra fresh q); try done; [congruence|].
    by rewrite Hr, Hrid.
  - cbn beta. intros e k (-> & _). by destruct s.
Qed.

Lemma reserve_lookahead_spec log s b wanted :
  inv log s → in_flight s = Some b →
  wp (reserve_lookahead b wanted) s
    (λ _ s', inv log s' ∧ s' = with_kv (kv_cache s') s) (λ _ s', inv log s' ∧ s' = with_kv (kv_cache s') s).
Proof.
  intros Hinv Hb. unfold reserve_lookahead. wp_step; [wp_step; split; [done|by destruct s]|]. wp_step. wp_step. wp_step.
  assert (∀ s', opened log s' (batch_kind b) (rows b) (λ _, InFlight (batch_id b)) ∧ s' = with_kv (kv_cache s') s →
    inv log s' ∧ s' = with_kv (kv_cache s') s) as Hfin.
  { intros s' [Ho Hs]. split; [|done]. assert (in_flight s' = Some b) as Hb' by by rewrite Hs.
    unfold inv in *. rewrite Hb' in *. rewrite Hb in Hinv. split; [done|]. destruct Hinv as [_ []].
    split; try done; by rewrite Hs. }
  eapply wp_wand; [apply (wp_fold_m _ _ _ _ (λ _ _ s', opened log s' (batch_kind b) (rows b) (λ _, InFlight (batch_id b)) ∧
    s' = with_kv (kv_cache s') s) (λ _ s', opened log s' (batch_kind b) (rows b) (λ _, InFlight (batch_id b)) ∧
    s' = with_kv (kv_cache s') s))| |].
  - unfold inv in Hinv. rewrite Hb in Hinv. split; [apply Hinv|by destruct s].
  - intros done row rest acc s' Hrows [Ho Hs]. eapply wp_wand; [eapply lookahead_row_spec; [exact Ho|]| |].
    + rewrite Hrows. apply elem_of_app. right. by left.
    + cbn beta. intros ? s2 [Ho2 Hs2]. split; [done|]. rewrite Hs2, Hs. done.
    + cbn beta. intros ? s2 ->. done.
  - cbn beta. intros out s' Hs'. wp_step. by apply Hfin.
  - cbn beta. intros e s' Hs'. by apply Hfin.
Qed.
End life.

(** ** Pages in use *)

Lemma msum_compare {A B} (f : A → N) (g : B → N) (m : gmap N A) (m' : gmap N B) :
  (∀ r a, m !! r = Some a → ∃ b, m' !! r = Some b ∧ f a ≤ g b) → msum f m ≤ msum g m'.
Proof.
  revert m'. induction m as [|r a m Hr IH] using map_ind; intros m' Hm; [rewrite msum_empty; lia|].
  destruct (Hm r a) as (b & Hb & Hle); [apply lookup_insert_eq|].
  rewrite msum_insert_new, (msum_delete g m' r b) by done.
  assert (msum f m ≤ msum g (delete r m')); [|lia]. apply IH. intros r0 a0 Ha0.
  assert (r ≠ r0) by congruence. destruct (Hm r0 a0) as (b0 & Hb0 & ?); [by rewrite lookup_insert_ne|].
  exists b0. by rewrite lookup_delete_ne.
Qed.

Lemma entries_length (m : gmap N SequenceState) :
  table_entries m = len (concat (pages <$> (map_to_list m).*2)).
Proof.
  induction m as [|r q m Hr IH] using map_ind; [by rewrite map_to_list_empty|].
  unfold table_entries in *. rewrite msum_insert_new, IH by done.
  transitivity (len (concat (pages <$> ((r, q) :: map_to_list m).*2))); [simpl; by rewrite len_app|].
  unfold len. f_equal. apply Permutation_length. by rewrite map_to_list_insert.
Qed.

(** A pool has at least the pages no table has. *)
Lemma available_entries k : wf k → num_pages (config k) ≤ available_pages k + table_entries (sequences k).
Proof.
  intros Hwf. pose proof (po_partition _ _ _ _ _ _ _ _ (wf_pages _ _ Hwf)) as Hpart.
  set (used := filter (λ p, 0 < held k [] p) (range (num_pages (config k)))) in *.
  assert (len used ≤ table_entries (sequences k)); [|unfold available_pages; lia].
  rewrite entries_length. assert (length used ≤ length (concat (pages <$> (map_to_list (sequences k)).*2)))%nat;
    [|unfold len; lia]. apply submseteq_length, NoDup_submseteq.
  - apply NoDup_filter, (NoDup_fmap_2 N.of_nat), NoDup_seq.
  - intros p [Hp _]%list_elem_of_filter. unfold held in Hp. rewrite occ_nil, N.add_0_r in Hp.
    apply msum_pos in Hp as (r & q & Hq & Hocc). apply list_elem_of_In, in_concat. exists (pages q).
    split; [|by apply list_elem_of_In, occ_pos]. apply list_elem_of_In, list_elem_of_fmap. exists q. split; [done|].
    apply list_elem_of_fmap. exists (r, q). split; [done|]. by apply elem_of_map_to_list.
Qed.

Section progress.
Context {P : Profile} {SM : Sampling} {CM : CausalModel} (chain : N → list Z → N).
Context (c : PagedKvCacheConfig) (trusted : Prop) (Ctx : list Z → Prop).
Context (mem : memory) (log : gmap N submission).

Abbreviation bs := (block_size c).
Abbreviation seqs s := (sequences (kv_cache s)).
Abbreviation idle := (idle chain c trusted Ctx mem log).
Abbreviation req_ok := (req_ok chain c trusted Ctx mem log).

(** A position of the history is within the budget of its request. *)
Lemma history_budget r a q n :
  0 < bs → req_ok r a q → n ≤ len (history a) → div_ceil n bs ≤ request_budget c a.
Proof.
  intros Hbs Hreq Hn. pose proof (ro_room _ _ _ _ _ _ _ _ _ Hreq).
  rewrite (ro_history _ _ _ _ _ _ _ _ _ Hreq), len_app in Hn.
  unfold request_budget, request_page_budget, saturating_sub. apply div_ceil_mono; lia.
Qed.

Lemma budget_appendable s r a q n :
  idle s → kv_admission (options s) = ReserveSequenceCapacity →
  active s !! r = Some a → seqs s !! r = Some q → 0 < n → committed_tokens q + n ≤ len (history a) →
  appendable (kv_cache s) r n.
Proof.
  intros Hi Hadm Ha Hq Hn Hle. pose proof (up_core _ _ _ _ _ _ _ _ _ Hi) as Hcore.
  pose proof (co_wf _ _ _ _ _ _ _ Hcore) as Hwf. pose proof (co_config _ _ _ _ _ _ _ Hcore) as Hc.
  pose proof (wf_bs _ _ Hwf) as Hbs. rewrite Hc in Hbs.
  destruct (idle_request _ _ _ _ _ _ _ _ _ Hi Ha) as (q' & Hq' & Hreq & [Hp _]). assert (q' = q) as -> by congruence.
  assert (∀ r a q, active s !! r = Some a → seqs s !! r = Some q → len (pages q) ≤ request_budget c a) as Hown.
  { intros r0 a0 q0 Ha0 Hq0. destruct (idle_request _ _ _ _ _ _ _ _ _ Hi Ha0) as (q1 & Hq1 & Hreq0 & [Hp0 _]).
    assert (q1 = q0) as -> by congruence. destruct (wf_seqs _ _ Hwf _ _ Hq0) as [_ Hl]. rewrite Hp0, Hc in Hl.
    rewrite Hl. eapply history_budget; [done|exact Hreq0|apply Hreq0]. }
  assert (table_entries (delete r (seqs s)) ≤ budgets c (delete r (active s))) as Hothers.
  { apply msum_compare. intros r0 q0 [Hne Hq0]%lookup_delete_Some.
    destruct (proj2 (co_dom _ _ _ _ _ _ _ Hcore r0)) as [a0 Ha0]; [eauto|].
    exists a0. split; [by rewrite lookup_delete_ne|]. by eapply Hown. }
  pose proof (co_budget _ _ _ _ _ _ _ Hcore Hadm) as Hbud. unfold budgets in Hbud, Hothers.
  rewrite (msum_delete _ _ _ _ Ha) in Hbud.
  pose proof (history_budget _ _ _ _ Hbs Hreq Hle) as Hneed.
  pose proof (available_entries _ Hwf) as Hav. rewrite Hc, (entries_delete _ _ _ Hq) in Hav.
  pose proof (wf_max_len _ _ Hwf) as Hmax. pose proof (ro_len _ _ _ _ _ _ _ _ _ Hreq) as Hlen.
  pose proof (ro_room _ _ _ _ _ _ _ _ _ Hreq) as Hroom.
  rewrite (ro_history _ _ _ _ _ _ _ _ _ Hreq), len_app in Hle.
  split; [done|]. exists q. split; [done|]. split; [done|]. rewrite Hc in *. split; [lia|]. split; [lia|]. lia.
Qed.

(** What is left when nothing can be scheduled. *)
Lemma stuck_deferred s :
  idle s → kv_admission (options s) = ReserveSequenceCapacity → stuck s →
  ∀ r a, active s !! r = Some a → phase a = NeedsPrefill ∧ r ∈ deferred_prefill s.
Proof.
  intros Hi Hadm [Hdec Hpre] r a Ha. pose proof (up_core _ _ _ _ _ _ _ _ _ Hi) as Hcore.
  destruct (idle_request _ _ _ _ _ _ _ _ _ Hi Ha) as (q & Hq & Hreq & [Hp Hid]).
  destruct (phase a) as [|t|id] eqn:Hph; [|exfalso|done].
  - split; [done|]. destruct (decide (r ∈ deferred_prefill s)) as [|Hnd]; [done|]. exfalso.
    assert (0 < chunk_length s a (committed_tokens q) ≤ len (history a) - committed_tokens q) as Hch.
    { destruct (co_limit _ _ _ _ _ _ _ Hcore) as [Hlim _]. pose proof (co_chunk _ _ _ _ _ _ _ Hcore).
      unfold chunk_length. destruct (prefill_chunk_tokens s) as [n|]; simpl; [|lia].
      assert (n ≠ 0) by congruence. lia. }
    eapply (Hpre r _). exists a, q. do 3 (split; [done|]). split; [done|]. split; [done|]. split; [lia|].
    eapply budget_appendable; [done..|lia|lia].
  - destruct Hid as [Hcm _]. eapply Hdec; [done..|]. eapply budget_appendable; [done..|lia|lia].
Qed.
End progress.
