(* ===== verification/SchedulerSession.v ===== *)
(** * Sessions of the scheduler with a device

    A session is any sequence of calls of the scheduler, interleaved with a device that runs
    the batches in flight.  What the callers and the device owe is stated per event
    ([allowed]); an untrusted device owes nothing but to exist.

    A small causal model, an injective chain hash and sessions that chunk prompts, reuse a
    cached prefix, verify drafts and finish show that the hypotheses can hold. *)

From S2P Require Export SchedulerLife.
Open Scope N_scope.

Section session.
Context {P : Profile} {SM : Sampling} {CM : CausalModel} (chain : N → list Z → N).
Context (c : PagedKvCacheConfig) (trusted : Prop) (Ctx : list Z → Prop).

Record world := mkWorld {
  w_sched : ContinuousBatchScheduler;
  w_mem : memory;
  w_log : gmap N submission
}.

Inductive event :=
| Submit (p : list Z) (g : GreedyGenerationConfig) (x : option TokenSampler)
| Schedule
| Complete (id : N) (ts : list Z)
| CompleteGreedy (id : N) (argmax : list Z)
| CompleteSampled (id : N) (logits : list F32) (vocabulary : N)
| CompleteVerify (id : N) (argmax : list Z)
| Fail (id : N)
| Cancel (r : N)
| Pop
| SetCaching (b : bool)
| SetSpeculative (sc : option SpeculativeConfig)
| SetLimit (n : N)
(** the fields the prefix and swap executors set *)
| Defer (d : gset N) (ceiling : option N)
| Lookahead (n : N).

Definition drop_result {A} (m : M ContinuousBatchScheduler ContinuousBatchError A) :
    M ContinuousBatchScheduler ContinuousBatchError unit := let! _ := m in ret tt.

(** The call an event stands for. *)
Definition act (e : event) : M ContinuousBatchScheduler ContinuousBatchError unit :=
  match e with
  | Submit p g x => drop_result (submit_with_sampler p g x)
  | Schedule => drop_result (schedule chain)
  | Complete id ts => complete_batch chain id ts
  | CompleteGreedy id argmax => drop_result (complete_greedy_batch chain id argmax)
  | CompleteSampled id logits v => drop_result (
      let! s := gets (λ s, s) in
      let! sel := lift (select_batch_tokens id logits v s) in
      complete_selected_batch chain sel)
  | CompleteVerify id argmax => drop_result (complete_verify_batch chain id argmax)
  | Fail id => fail_batch id
  | Cancel r => drop_result (sch_cancel r)
  | Pop => drop_result pop_finished
  | SetCaching b => sch_set_prefix_caching b
  | SetSpeculative sc => set_speculative_decoding sc
  | SetLimit n => set_batch_token_limit n
  | Defer d ceiling => modify (λ s, with_deferred_prefill d (with_admission_ceiling ceiling s))
  | Lookahead n =>
      let! b := gets in_flight in
      match b with Some b => drop_result (reserve_lookahead b n) | None => ret tt end
  end.

(** ** What callers and device owe *)

(** The device has run the batch [id], with results [Q]. *)
Definition ran (w : world) (id : N) (mem' : memory) (Q : ScheduledBatch → list (list Z) → Prop) : Prop :=
  (∀ b, in_flight (w_sched w) = Some b → batch_id b = id → trusted →
     ∃ outs, exec_batch (block_size c) (w_mem w) b = (mem', outs) ∧ Q b outs) ∧
  (not_in_flight (w_sched w) id → mem' = w_mem w).

(** Tokens for the rows that sample one: greedy rows get the device's prediction. *)
Definition tokens_from (w : world) (ts : list Z) (b : ScheduledBatch) (outs : list (list Z)) : Prop :=
  ∀ i row out t a, rows b !! i = Some row → outs !! i = Some out → ts !! i = Some t →
    active (w_sched w) !! request_id row = Some a → len (history a) ≤ context_length row →
    (sampler a = None → last out = Some t) ∧ Ctx (history a ++ [t]).
Definition no_drafts (w : world) (id : N) : Prop :=
  ∀ b, in_flight (w_sched w) = Some b → batch_id b = id → batch_kind b ≠ Verify.

Definition allowed (w : world) (e : event) (mem' : memory) : Prop :=
  room (w_sched w) ∧ next_batch (w_sched w) ≤ u64_max ∧ next_request (w_sched w) ≤ u64_max ∧
  match e with
  | Submit p _ _ => mem' = w_mem w ∧ (trusted → Ctx p)
  | Complete id ts => no_drafts w id ∧ ran w id mem' (tokens_from w ts)
  | CompleteGreedy id argmax => no_drafts w id ∧
      ran w id mem' (λ _ outs, argmax = (λ out, default 0%Z (last out)) <$> outs)
  | CompleteSampled id logits v => no_drafts w id ∧
      ran w id mem' (λ b outs, ∀ sel, select_batch_tokens id logits v (w_sched w) = Ok sel →
        tokens_from w (sel_tokens sel) b outs)
  | CompleteVerify id argmax => ran w id mem' (λ _ outs, argmax = concat outs)
  | Fail _ => trusted → only_tails c (w_sched w) (w_mem w) mem'
  | SetSpeculative sc => mem' = w_mem w ∧ ∀ x, sc = Some x → draft_tokens x < usize_max
  | SetLimit n => mem' = w_mem w ∧ n ≤ usize_max
  | _ => mem' = w_mem w
  end.

Definition logged (w : world) (e : event) (out : res ContinuousBatchError unit) : gmap N submission :=
  match e, out with
  | Submit p g x, Ok _ => <[next_request (w_sched w) := submission_of p g x]> (w_log w)
  | _, _ => w_log w
  end.

Inductive step (w : world) (e : event) (out : res ContinuousBatchError unit) : world → Prop :=
| step_intro s' mem' :
    allowed w e mem' → act e (w_sched w) = (out, s') → step w e out (mkWorld s' mem' (logged w e out)).

(** A scheduler starts from its constructors. *)
Inductive session : world → Prop :=
| session_new cc o s mem :
    max_sequence_length c ≤ usize_max → max_batch_tokens cc ≤ usize_max → with_options cc c o = Ok s → session (mkWorld s mem ∅)
| session_new_paged cc s mem :
    max_sequence_length c ≤ usize_max → max_batch_tokens cc ≤ usize_max → new_paged cc c = Ok s → session (mkWorld s mem ∅)
| session_step w e out w' : session w → step w e out w' → session w'.

(** ** The invariant *)

Definition sinv (w : world) : Prop := inv chain c trusted Ctx (w_mem w) (w_log w) (w_sched w).

Lemma options_inv cc o s mem :
  max_sequence_length c ≤ usize_max → max_batch_tokens cc ≤ usize_max → with_options cc c o = Ok s →
  inv chain c trusted Ctx mem ∅ s ∧ in_flight s = None ∧ max_batch_tokens (sc_config s) = max_batch_tokens cc.
Proof.
  intros Hms Hl. unfold with_options, validate_config, validate_options.
  destruct ((max_active_sequences cc =? 0) || (max_batch_tokens cc =? 0)) eqn:Hz; [done|]. simpl.
  apply orb_false_iff in Hz as [Hz1%N.eqb_neq Hz2%N.eqb_neq]. case_bool_decide; [done|]. simpl.
  destruct (new c) as [k|e|] eqn:Hk; [|done|done]. intros [= <-].
  pose proof (new_wf c k Hms Hk) as Hwf.
  assert (config k = c ∧ sequences k = ∅ ∧ block_index k = ∅) as (Hc & Hs & Hix).
  { unfold new in Hk. destruct (validate c); simplify_eq/=. done. } split; [|done]. unfold inv. simpl.
  split; [|apply NoDup_nil_2|by intros ? ?%elem_of_nil|intros r a q Ha; simpl in Ha; by rewrite lookup_empty in Ha].
  split; simpl; try done; try lia.
  - intros r. rewrite Hs, !lookup_empty. done.
  - by intros ? ?%elem_of_nil.
  - apply NoDup_nil_2.
  - intros r. rewrite lookup_empty. by intros [].
  - by intros ? ?%elem_of_nil.
  - intros _ k0 p. by rewrite Hix, lookup_empty.
  - intros _. unfold budgets. rewrite msum_empty. lia.
  - by intros _ ? ?%elem_of_nil.
Qed.

Section steps.
Context (Hchain : trusted → collision_free chain (block_size c) Ctx).
Context (Hclosed : trusted → ∀ h, Ctx h → len h < max_sequence_length c → Ctx (h ++ [next_token h])).

(** What a batch in flight computes, and that it only writes cells not committed yet. *)
Lemma flight_exec w b :
  sinv w → in_flight (w_sched w) = Some b → trusted →
  ∃ mem', exec_batch (block_size c) (w_mem w) b = (mem', predicted (w_sched w) <$> rows b) ∧
    only_tails c (w_sched w) (w_mem w) mem' ∧ executed c trusted mem' (w_sched w) b.
Proof.
  unfold sinv, inv. intros Hinv Hb Ht. rewrite Hb in Hinv. destruct Hinv as [Ho _].
  destruct (exec_batch_spec _ _ _ _ _ _ _ _ _ _ Ho Ht) as (mem' & Hrun & Htails & Hh).
  exists mem'. split; [done|]. split; [done|]. intros _ row q. apply Hh.
Qed.

Lemma ran_exec w id mem' Q :
  sinv w → ran w id mem' Q →
  inv chain c trusted Ctx mem' (w_log w) (w_sched w) ∧
  ∀ b, in_flight (w_sched w) = Some b → batch_id b = id →
    executed c trusted mem' (w_sched w) b ∧ (trusted → Q b (predicted (w_sched w) <$> rows b)).
Proof.
  intros Hinv [Hrun Hno]. split.
  - destruct (in_flight (w_sched w)) as [b|] eqn:Hb; [|rewrite Hno; [done|intros ? ?; congruence]].
    destruct (decide (batch_id b = id)) as [Hid|Hid]; [|rewrite Hno; [done|intros ? ?; congruence]].
    eapply inv_mem; [|exact Hinv]. intros Ht. destruct (flight_exec w b Hinv Hb Ht) as (m & Hm & Htl & _).
    destruct (Hrun b eq_refl Hid Ht) as (outs & Ho & _). rewrite Hm in Ho. by injection Ho as <- _.
  - intros b Hb Hid. split.
    + intros Ht. destruct (flight_exec w b Hinv Hb Ht) as (m & Hm & _ & Hex).
      destruct (Hrun b Hb Hid Ht) as (outs & Ho & _). rewrite Hm in Ho. injection Ho as <- _. by apply Hex.
    + intros Ht. destruct (flight_exec w b Hinv Hb Ht) as (m & Hm & _ & _).
      destruct (Hrun b Hb Hid Ht) as (outs & Ho & HQ). rewrite Hm in Ho. by injection Ho as _ <-.
Qed.

Lemma tokens_honest w mem' b ts :
  inv chain c trusted Ctx mem' (w_log w) (w_sched w) → in_flight (w_sched w) = Some b → batch_kind b ≠ Verify →
  (trusted → tokens_from w ts b (predicted (w_sched w) <$> rows b)) →
  honest trusted Ctx (w_log w) (w_sched w) b ts.
Proof.
  intros Hinv Hb Hk Hts row t a Hin Ha Hfull Ht. unfold inv in Hinv. rewrite Hb in Hinv. destruct Hinv as [Ho _].
  apply list_elem_of_lookup in Hin as [i [Hrow Hti]%lookup_zip_Some].
  assert (row ∈ rows b) as Hinr by by eapply list_elem_of_lookup_2.
  destruct (Hts Ht i row (predicted (w_sched w) row) t a) as [Hgr Hctx]; [done|by rewrite list_lookup_fmap, Hrow|done..|].
  split; [|done]. intros g Hg. destruct (up_rows _ _ _ _ _ _ _ _ _ Ho row Hinr) as (a' & q & Ha' & Hq & _).
  assert (a' = a) as -> by congruence.
  destruct (ro_log _ _ _ _ _ _ _ _ _ (co_req _ _ _ _ _ _ _ (up_core _ _ _ _ _ _ _ _ _ Ho) _ _ _ Ha Hq)) as (x & Hl & Hx & _).
  assert (x = true) as -> by congruence. specialize (Hgr (Hx eq_refl)).
  rewrite (row_prediction _ _ _ _ _ _ _ _ _ _ _ Ho Hk Hinr Ha Hfull) in Hgr. congruence.
Qed.

Lemma wp_drop_result {A} (m : M ContinuousBatchScheduler ContinuousBatchError A) s Q R :
  wp m s (λ _, Q) R → wp (drop_result m) s (λ _, Q) R.
Proof. intros H. unfold drop_result. apply wp_bind. eapply wp_mono; [exact H|]. intros. by apply wp_ret. Qed.

(** Every call keeps the invariant, does not panic, and changes nothing when it fails; the
    look-ahead may have reserved for some rows before it fails. *)
Lemma act_spec w e mem' :
  sinv w → allowed w e mem' →
  wp (act e) (w_sched w)
    (λ _ s', inv chain c trusted Ctx mem' (logged w e (Ok tt)) s')
    (λ _ s', inv chain c trusted Ctx mem' (w_log w) s' ∧ ((∀ n, e ≠ Lookahead n) → s' = w_sched w)).
Proof using Hchain Hclosed.
  intros Hinv (Hroom & Hnb & Hnr & Hall). assert (clock (kv_cache (w_sched w)) ≤ u64_max) as Hclk
    by (pose proof (rm_clock _ Hroom); lia).
  destruct e as [p g x| |id ts|id argmax|id logits v|id argmax|id|r| |b|sc|n|d ceiling|n]; cbn [act].
  - destruct Hall as [-> Hctx]. apply wp_drop_result. eapply wp_wand; [by apply submit_spec| |].
    + cbn beta. intros r s' (_ & -> & _ & Hi). exact Hi.
    + cbn beta. intros e s' (-> & _). done.
  - subst mem'. apply wp_drop_result. eapply wp_wand; [by eapply schedule_spec| |].
    + cbn beta. intros ob s' (Hfl & _ & Hpl). by destruct (planned_inv _ _ _ _ _ _ _ _ _ Hfl Hpl).
    + cbn beta. intros e s' (-> & _). done.
  - destruct Hall as [Hk Hran]. destruct (ran_exec _ _ _ _ Hinv Hran) as [Hinv' Hex].
    eapply wp_wand; [apply (complete_batch_spec _ _ _ _ _ _ _ _ _ Hinv' Hclk)| |].
    + intros b Hb Hid. destruct (Hex b Hb Hid) as [Hexe Hts]. specialize (Hk b Hb Hid). do 2 (split; [done|]).
      by eapply tokens_honest.
    + cbn beta. intros _ s' (b & _ & _ & Hi & _). done.
    + cbn beta. intros e s' (-> & _). done.
  - destruct Hall as [Hk Hran]. destruct (ran_exec _ _ _ _ Hinv Hran) as [Hinv' Hex]. apply wp_drop_result.
    eapply wp_wand; [apply (complete_greedy_batch_spec _ _ _ _ _ _ Hclosed _ _ _ Hinv' Hclk)| |].
    + intros b Hb Hid. destruct (Hex b Hb Hid) as [Hexe Hts]. specialize (Hk b Hb Hid). do 2 (split; [done|]).
      intros Ht. rewrite (Hts Ht). unfold row_outputs. by rewrite <-list_fmap_compose.
    + cbn beta. intros _ s' (b & _ & _ & Hi & _). done.
    + cbn beta. intros e s' ->. done.
  - destruct Hall as (Hk & Hran). destruct (ran_exec _ _ _ _ Hinv Hran) as [Hinv' Hex]. apply wp_drop_result.
    wp_step. wp_step. wp_step. pose proof (select_no_panic id logits v (w_sched w)) as Hnp.
    destruct (select_batch_tokens id logits v (w_sched w)) as [sel|e|] eqn:Hsel; [|by split|done].
    eapply wp_lift_ok; [reflexivity|]. cbn beta. destruct (selected_from _ _ _ _ _ Hsel) as [Hid0 Hsam].
    eapply wp_wand; [apply (complete_selected_batch_spec _ _ _ _ _ _ _ _ Hinv' Hclk)| |].
    + intros b Hb Hid. rewrite Hid0 in Hid. destruct (Hex b Hb Hid) as [Hexe Hts]. specialize (Hk b Hb Hid).
      do 2 (split; [done|]). eapply tokens_honest; [done..|]. intros Ht. by apply Hts.
    + done.
    + cbn beta. intros ? s' (_ & Hi & _). done.
    + cbn beta. intros e s' ->. done.
  - destruct (ran_exec _ _ _ _ Hinv Hall) as [Hinv' Hex]. apply wp_drop_result.
    eapply wp_wand; [apply (complete_verify_batch_spec _ _ _ _ _ _ Hclosed _ _ _ Hinv' Hclk (rm_draft _ Hroom))| |].
    + intros b Hb Hid. destruct (Hex b Hb Hid) as [Hexe Hts]. split; [done|]. exact Hts.
    + cbn beta. intros ? s' (b & _ & _ & _ & Hi & _). done.
    + cbn beta. intros e s' (-> & _). done.
  - assert (inv chain c trusted Ctx mem' (w_log w) (w_sched w)) as Hinv' by by eapply inv_mem.
    eapply wp_wand; [by apply (fail_batch_spec chain c trusted Ctx mem' (w_log w))| |].
    + cbn beta. intros _ s' (b & _ & _ & Hf). apply Hf.
    + cbn beta. intros e s' (-> & _). done.
  - subst mem'. apply wp_drop_result. eapply wp_wand; [by apply (sch_cancel_spec chain c trusted Ctx)| |].
    + cbn beta. intros out s' (Hi & _). exact Hi.
    + cbn beta. intros e s' (-> & _). done.
  - subst mem'. apply wp_drop_result. eapply wp_wand; [by apply (pop_finished_spec chain c trusted Ctx)| |done].
    cbn beta. intros out s' (Hi & _). exact Hi.
  - subst mem'. eapply wp_wand; [by apply (set_prefix_caching_inv chain c trusted Ctx)| |done]. done.
  - destruct Hall as [-> Hd]. eapply wp_wand; [by apply (set_speculative_spec chain c trusted Ctx)| |].
    + cbn beta. intros _ s' (Hi & _). exact Hi.
    + cbn beta. intros e s' (-> & _). done.
  - destruct Hall as [-> Hd]. eapply wp_wand; [by apply (set_batch_token_limit_spec chain c trusted Ctx)| |].
    + cbn beta. intros _ s' (Hi & _). exact Hi.
    + cbn beta. intros e s' (-> & _). done.
  - subst mem'. wp_step. eapply inv_step; [exact Hinv| |done..]. eapply core_same; [|by apply inv_core]. done.
  - subst mem'. wp_step. wp_step. destruct (in_flight (w_sched w)) as [b|] eqn:Hb; [|by wp_step].
    apply wp_drop_result. eapply wp_wand; [by apply (reserve_lookahead_spec chain c trusted Ctx)| |].
    + cbn beta. intros out s' (Hi & _). exact Hi.
    + cbn beta. intros e s' (Hi & _). split; [exact Hi|]. intros Hne. by destruct (Hne n).
Qed.

Lemma step_sinv w e out w' :
  sinv w → step w e out w' →
  sinv w' ∧ out ≠ Panic ∧ (∀ err, out = Err err → (∀ n, e ≠ Lookahead n) → w_sched w' = w_sched w).
Proof using Hchain Hclosed.
  intros Hinv [s' mem' Hall Hrun]. pose proof (act_spec w e mem' Hinv Hall) as Hwp. unfold wp in Hwp.
  rewrite Hrun in Hwp. unfold sinv. simpl. destruct out as [[]|err|]; [|destruct Hwp as [Hi Hs]|done].
  - done.
  - split; [by destruct e|]. split; [done|]. intros ? _. exact Hs.
Qed.

Lemma session_sinv w : session w → sinv w.
Proof using Hchain Hclosed.
  induction 1 as [cc o s mem Hm Hl Ho|cc s mem Hm Hl Ho|w e out w' _ IH Hst].
  - by destruct (options_inv cc o s mem Hm Hl Ho).
  - unfold new_paged, scheduler_new in Ho. destruct (with_options cc c default_options) as [s0|e|] eqn:Hw; simpl in Ho; [|done|done].
    destruct (options_inv _ _ _ mem Hm Hl Hw) as (Hi & Hfl & Hmb). injection Ho as <-.
    unfold sinv. simpl. eapply inv_step; [exact Hi| |done..].
    pose proof (inv_core _ _ _ _ _ _ _ Hi) as []. split; simpl; try done. rewrite <-Hmb. intros [= Hz]. lia.
  - by destruct (step_sinv _ _ _ _ IH Hst).
Qed.
End steps.
End session.

(** ** A concrete model *)

#[export] Instance mini_profile : Profile := {| overflow_checks := true; debug_assertions := true |}.
#[export] Instance mini_sampling : Sampling :=
  {| TokenSampler := unit; clear_workspace x := x; SamplingSettings := unit; new_with_options := Some;
     F32 := Z; is_nan _ := false; f32_gt x y := (y <? x)%Z; sample_with_history x _ _ _ := Some (1%Z, x) |}.
(** The next token alternates with the length of the context. *)
#[export] Instance mini_model : CausalModel :=
  {| Cell := Z; kv_entry cs t := (t + Z.of_nat (length cs))%Z;
     predict cs := (1 + Z.of_nat (length cs) mod 2)%Z |}.

(** ** A hash without collisions *)

Definition mini_chain (parent : N) (block : list Z) : N := CHAIN_ROOT + 1 + Npos (encode (parent, block)).

Lemma mini_chain_inj p b p' b' : mini_chain p b = mini_chain p' b' → p = p' ∧ b = b'.
Proof.
  unfold mini_chain. intros H. assert (encode (p, b) = encode (p', b')) as He%(inj encode) by lia. by simplify_eq.
Qed.

Lemma mini_collision_free bs Ctx : collision_free mini_chain bs Ctx.
Proof.
  intros t t' n. induction n as [|n IH]; intros [|n'] Ht Ht' Hn Hn' Heq.
  - done.
  - cbn [chain_prefix] in Heq. unfold mini_chain in Heq. lia.
  - cbn [chain_prefix] in Heq. unfold mini_chain in Heq. lia.
  - cbn [chain_prefix] in Heq. apply mini_chain_inj in Heq as [Hp Hb].
    specialize (IH n' Ht Ht' ltac:(lia) ltac:(lia) Hp).
    replace (N.of_nat (S n) * bs) with ((N.of_nat n + 1) * bs) by lia.
    replace (N.of_nat (S n') * bs) with ((N.of_nat n' + 1) * bs) by lia.
    by rewrite !block_tokens_split, IH, Hb.
Qed.

(** ** Playing a session *)

Definition roomb (s : ContinuousBatchScheduler) : bool :=
  let k := kv_cache s in
  let pend := pend_tokens (pending_requests s) in
  (table_entries (sequences k) + pend <=? u32_max) && (reused_tokens k + pend <=? u64_max) &&
  (next_admission s + len (pending_requests s) <=? u64_max) &&
  (clock k + pend + num_pages (config k) <=? u64_max) &&
  (preemptions s + table_entries (sequences k) + pend <=? u64_max) &&
  (next_reservation k + N.of_nat (size (active s)) + len (pending_requests s) <=? u64_max) &&
  (drafted_tokens s + flight_tokens s <=? u64_max) &&
  (next_batch s <=? u64_max) && (next_request s <=? u64_max).

Lemma roomb_room s : roomb s = true → room s ∧ next_batch s ≤ u64_max ∧ next_request s ≤ u64_max.
Proof.
  unfold roomb. rewrite !andb_true_iff, !N.leb_le. intros [[[[[[[[? ?] ?] ?] ?] ?] ?] ?] ?].
  split; [by split|done].
Qed.

(** Calls that ask nothing of the device. *)
Definition plain (e : event) : bool :=
  match e with
  | Submit _ _ _ | Schedule | Cancel _ | Pop | SetCaching _ | Defer _ _ | Lookahead _ => true
  | SetSpeculative (Some x) => draft_tokens x <? usize_max
  | SetLimit n => n <=? usize_max
  | _ => false
  end.
(** Run the batch in flight and complete it. *)
Definition served (bs : N) (w : world) (b : ScheduledBatch) : event :=
  let outs := (exec_batch bs (w_mem w) b).2 in
  if decide (batch_kind b = Verify) then CompleteVerify (batch_id b) (concat outs)
  else CompleteGreedy (batch_id b) ((λ out, default 0%Z (last out)) <$> outs).

Definition after (w : world) (e : event) (mem' : memory) : world :=
  let out := act mini_chain e (w_sched w) in mkWorld out.2 mem' (logged w e out.1).

(** [None] runs and completes what is in flight. *)
Fixpoint play (bs : N) (es : list (option event)) (w : world) : option world :=
  match es with
  | [] => Some w
  | x :: es =>
      if negb (roomb (w_sched w)) then None
      else match x with
           | Some e => if plain e then play bs es (after w e (w_mem w)) else None
           | None => match in_flight (w_sched w) with
                     | Some b => play bs es (after w (served bs w b) (exec_batch bs (w_mem w) b).1)
                     | None => None
                     end
           end
  end.

Section play.
Context (c : PagedKvCacheConfig) (trusted : Prop).
Abbreviation any := (λ _ : list Z, True).

Lemma after_step w e mem' :
  allowed c trusted any w e mem' → step mini_chain c trusted any w e (act mini_chain e (w_sched w)).1 (after w e mem').
Proof. intros H. unfold after. apply (step_intro _ _ _ _ w e); [done|apply surjective_pairing]. Qed.

Lemma plain_allowed w e : roomb (w_sched w) = true → plain e = true → allowed c trusted any w e (w_mem w).
Proof.
  intros (? & ? & ?)%roomb_room Hp. do 3 (split; [done|]). destruct e; simpl in *; try done.
  - destruct sc as [x|]; [|done]. apply N.ltb_lt in Hp. split; [done|]. by intros ? [= <-].
  - by apply N.leb_le in Hp.
Qed.
Lemma served_allowed w b :
  roomb (w_sched w) = true → in_flight (w_sched w) = Some b →
  allowed c trusted any w (served (block_size c) w b) (exec_batch (block_size c) (w_mem w) b).1.
Proof.
  intros (? & ? & ?)%roomb_room Hb. do 3 (split; [done|]).
  assert (∀ Q : list (list Z) → Prop, Q (exec_batch (block_size c) (w_mem w) b).2 →
    ran c trusted w (batch_id b) (exec_batch (block_size c) (w_mem w) b).1 (λ _, Q)) as Hran.
  { intros Q HQ. split.
    - intros b' Hb' _ _. assert (b' = b) as -> by congruence. eexists. split; [apply surjective_pairing|done].
    - intros Hno. by destruct (Hno b Hb). }
  unfold served. case_decide as Hk; simpl; [by apply Hran|]. split; [|by apply Hran].
  intros b' Hb' _. congruence.
Qed.

Lemma play_session es w w' :
  session mini_chain c trusted any w → play (block_size c) es w = Some w' → session mini_chain c trusted any w'.
Proof.
  revert w. induction es as [|x es IH]; intros w Hs; [by intros [= <-]|]. cbn [play].
  destruct (roomb (w_sched w)) eqn:Hr; [|done]. simpl. destruct x as [e|].
  - destruct (plain e) eqn:Hp; [|done]. apply IH. eapply session_step; [exact Hs|]. by apply after_step, plain_allowed.
  - destruct (in_flight (w_sched w)) as [b|] eqn:Hb; [|done]. apply IH. eapply session_step; [exact Hs|].
    by apply after_step, served_allowed.
Qed.
End play.

(** ** Sessions *)

Definition mini_cache : PagedKvCacheConfig := {| num_pages := 8; block_size := 2; max_sequence_length := 12 |}.
Definition mini_limits : ContinuousBatchConfig := {| max_active_sequences := 2; max_batch_tokens := 4 |}.
Definition mini_generation : GreedyGenerationConfig := {| max_new_tokens := 4; eos_token_ids := [7%Z] |}.
Definition mini_prompt : list Z := [1; 2; 1; 2; 1]%Z.

Definition start (r : res ContinuousBatchError ContinuousBatchScheduler) : world :=
  match r with
  | Ok s => mkWorld s (λ _, 0%Z) ∅
  | _ => mkWorld (mkScheduler mini_limits default_options (mkManager mini_cache ∅ [] [] ∅ ∅ 0 false 0 ∅ ∅ 1)
           [] ∅ ∅ [] None true 1 1 None None false 0 0 None false 0 0) (λ _, 0%Z) ∅
  end.
Definition paged_start : world := start (new_paged mini_limits mini_cache).
Definition reserving : ContinuousBatchOptions :=
  {| max_pending_requests := Some 3; kv_admission := ReserveSequenceCapacity |}.
Definition reserved_start : world := start (with_options mini_limits mini_cache reserving).

Definition turn : list (option event) := [Some Schedule; None].
Definition drafting : SpeculativeConfig := {| draft_tokens := 2; ngram := 2 |}.
(** Two requests with the same prompt: chunked prefill, the second one from the cached
    prefix, and drafts that are verified. *)
Definition mini_session : list (option event) :=
  [Some (SetCaching true); Some (SetSpeculative (Some drafting)); Some (Submit mini_prompt mini_generation None)]
  ++ turn ++ turn ++ turn ++ [Some (Submit mini_prompt mini_generation None)] ++ turn ++ turn.
Definition mini_world : world := default paged_start (play 2 mini_session paged_start).
(** The same with the batch of drafts in flight. *)
Definition flight_world : world := default paged_start (play 2 (take 13 mini_session) paged_start).
(** Capacity reserved, one request decoding. *)
Definition reserved_session : list (option event) := Some (Submit [1; 2; 1]%Z mini_generation None) :: turn.
Definition reserved_world : world := default reserved_start (play 2 reserved_session reserved_start).

Lemma play_default c trusted es w :
  session mini_chain c trusted (λ _, True) w → is_Some (play (block_size c) es w) →
  session mini_chain c trusted (λ _, True) (default w (play (block_size c) es w)).
Proof. intros Hs [w' Hw]. rewrite Hw. by eapply play_session. Qed.

Lemma mini_world_session trusted : session mini_chain mini_cache trusted (λ _, True) mini_world.
Proof.
  apply (play_default mini_cache).
  - apply (session_new_paged _ _ _ _ mini_limits); [by vm_compute..|reflexivity].
  - apply is_Some_alt. vm_compute. exact I.
Qed.
Lemma flight_world_session trusted : session mini_chain mini_cache trusted (λ _, True) flight_world.
Proof.
  apply (play_default mini_cache).
  - apply (session_new_paged _ _ _ _ mini_limits); [by vm_compute..|reflexivity].
  - apply is_Some_alt. vm_compute. exact I.
Qed.
Lemma reserved_world_session trusted : session mini_chain mini_cache trusted (λ _, True) reserved_world.
Proof.
  apply (play_default mini_cache).
  - apply (session_new _ _ _ _ mini_limits reserving); [by vm_compute..|reflexivity].
  - apply is_Some_alt. vm_compute. exact I.
Qed.
