(* ===== verification/SchedulerProps.v ===== *)
(** * Correctness of the batching scheduler

    Over all sessions of callers, scheduler and device.  Nothing is assumed of the device or
    of hashes where the parameter [trusted] of a session is [False]; with [True] the device
    runs the batches as the model says and chain hashes of the contexts met do not collide.
    The theorems come last; a concrete model and concrete sessions give the witnesses. *)

From S2P Require Export SchedulerSession.
Open Scope N_scope.

Section claims.
Context {P : Profile} {SM : Sampling} {CM : CausalModel} (chain : N → list Z → N) (c : PagedKvCacheConfig).

Abbreviation any := (λ _ : list Z, True).
Abbreviation seqs s := (sequences (kv_cache s)).

Lemma untrusted_sinv w : session chain c False any w → sinv chain c False any w.
Proof. by apply session_sinv. Qed.

(** The state of a request and of its sequence, by phase. *)
Definition request_state (s : ContinuousBatchScheduler) (r : N) (a : ActiveRequest) (q : SequenceState) : Prop :=
  match phase a with
  | NeedsPrefill => pending q = None ∧ committed_tokens q < len (history a)
  | AwaitingDecode t => pending q = None ∧ committed_tokens q + 1 = len (history a) ∧ last (history a) = Some t
  | InFlight id => ∃ b row, in_flight s = Some b ∧ batch_id b = id ∧ row ∈ rows b ∧ request_id row = r ∧
      pending q = Some (reservation_id row) ∧ start_pos row = committed_tokens q
  end.

Lemma inv_request_state trusted Ctx mem log s r a q :
  inv chain c trusted Ctx mem log s → active s !! r = Some a → seqs s !! r = Some q → request_state s r a q.
Proof.
  unfold inv, request_state. intros Hinv Ha Hq. destruct (in_flight s) as [b|] eqn:Hb.
  - destruct Hinv as [Ho _]. destruct (decide (r ∈ request_id <$> rows b)) as [(row & -> & Hin)%list_elem_of_fmap|Hr].
    + destruct (up_rows _ _ _ _ _ _ _ _ _ Ho row Hin) as (a' & q' & Ha' & Hq' & Hop).
      assert (a' = a) as -> by congruence. assert (q' = q) as -> by congruence.
      rewrite (rw_phase _ _ _ _ _ _ _ Hop). exists b, row. do 4 (split; [done|]). split; apply Hop.
    + destruct (up_idle _ _ _ _ _ _ _ _ _ Ho r a q Ha Hq Hr) as [Hp Hid]. by destruct (phase a).
  - destruct (up_idle _ _ _ _ _ _ _ _ _ Hinv r a q Ha Hq) as [Hp Hid]; [apply not_elem_of_nil|]. by destruct (phase a).
Qed.

(** A written cell belongs to one position of one request, not committed and not published. *)
Definition private_write (s : ContinuousBatchScheduler) (row : ScheduledSequence) (cell : N * N) : Prop :=
  unpublished (kv_cache s) cell.1 ∧
  ∀ r q pos, seqs s !! r = Some q → locate (block_size c) (pages q) pos = Some cell →
    r = request_id row ∧ committed_tokens q ≤ pos.

Lemma rows_write_privately trusted Ctx mem log s b row cell :
  inv chain c trusted Ctx mem log s → in_flight s = Some b → row ∈ rows b →
  row_writes (block_size c) row cell → private_write s row cell.
Proof.
  unfold inv. intros Hinv Hb Hin (pos & Hpos & Hl). rewrite Hb in Hinv. destruct Hinv as [Ho _].
  destruct (up_rows _ _ _ _ _ _ _ _ _ Ho row Hin) as (a & q & Ha & Hq & Hop).
  pose proof (up_core _ _ _ _ _ _ _ _ _ Ho) as Hcore. rewrite (rw_start _ _ _ _ _ _ _ Hop) in Hpos.
  destruct (tail_private c (kv_cache s) (request_id row) q pos cell) as [Hup Hone];
    [apply Hcore|apply Hcore|done|lia|eapply locate_prefix; [apply Hop|done]|].
  split; [done|]. intros r' q' pos' Hq' Hl'. destruct (Hone r' q' pos' Hq' Hl') as [-> ->].
  assert (q' = q) as -> by congruence. split; [done|lia].
Qed.

(** ** Undoing a batch *)

Lemma phased_back rs kind id (m m1 m2 : gmap N ActiveRequest) :
  phased rs (λ _, InFlight id) m m1 → phased rs (prior kind) m1 m2 →
  (∀ row, row ∈ rs → ∃ a, m !! request_id row = Some a ∧ phase a = prior kind row) → m2 = m.
Proof.
  intros [Hin1 Hout1] [Hin2 Hout2] Hprior. apply map_eq. intros r.
  destruct (decide (r ∈ request_id <$> rs)) as [(row & -> & Hin)%list_elem_of_fmap|Hr].
  - rewrite Hin2, Hin1 by done. destruct (Hprior row Hin) as (a & -> & Hp). simpl. f_equal.
    destruct a. simpl in *. by subst.
  - by rewrite Hout2, Hout1.
Qed.

Lemma idle_reset trusted Ctx mem log s :
  idle chain c trusted Ctx mem log s → reset (block_size c) <$> seqs s = seqs s.
Proof.
  intros Hi. pose proof (up_core _ _ _ _ _ _ _ _ _ Hi) as Hcore. transitivity (id <$> seqs s); [|apply map_fmap_id].
  apply map_fmap_ext. intros r q Hq. unfold id. destruct (proj2 (co_dom _ _ _ _ _ _ _ Hcore r)) as [a Ha]; [eauto|].
  destruct (up_idle _ _ _ _ _ _ _ _ _ Hi r a q Ha Hq) as [Hp _]; [apply not_elem_of_nil|].
  destruct (wf_seqs _ _ (co_wf _ _ _ _ _ _ _ Hcore) _ _ Hq) as [_ Hl].
  rewrite Hp, (co_config _ _ _ _ _ _ _ Hcore) in Hl. unfold reset.
  rewrite take_ge by (unfold len in Hl; lia). destruct q. simpl in *. by subst.
Qed.

(** ** The theorems *)



(** C1. With an honest device, a finished greedy generation is what decoding that prompt alone
    would give, whatever was batched with it and however it was chunked, preempted,
    resumed, served from cached prefixes or speculated. *)
Theorem scheduled_generation_greedy Ctx w f p g :
  collision_free chain (block_size c) Ctx →
  (∀ h, Ctx h → len h < max_sequence_length c → Ctx (h ++ [next_token h])) →
  session chain c True Ctx w → f ∈ finished (w_sched w) →
  w_log w !! fin_request f = Some (mkSubmission p g true) →
  fin_prompt f = p ∧ fin_generated f = greedy_decode (eos_set g) (N.to_nat (max_new_tokens g)) p.
Proof.
  intros Hcf Hcl Hs Hf Hl.
  pose proof (session_sinv chain c True Ctx (λ _, Hcf) (λ _, Hcl) w Hs) as Hinv.
  destruct (co_fin _ _ _ _ _ _ _ (inv_core _ _ _ _ _ _ _ Hinv) f Hf) as (g' & b & Hl' & _ & _ & _ & Hgr).
  rewrite Hl in Hl'. injection Hl' as Hp Hg Hb. subst p g' b. split; [done|]. by apply Hgr.
Qed.


(** C6. Scheduling a batch and failing it is the identity on requests and sequences, when no
    request waits for admission and preemption is off. *)
Theorem schedule_fail_roundtrip w b s1 :
  session chain c False any w → room (w_sched w) → next_batch (w_sched w) ≤ u64_max →
  pending_requests (w_sched w) = [] → recompute_preemption (w_sched w) = false →
  schedule chain (w_sched w) = (Ok (Some b), s1) →
  ∃ s2, fail_batch (batch_id b) s1 = (Ok tt, s2) ∧ active s2 = active (w_sched w) ∧
    seqs s2 = seqs (w_sched w) ∧ in_flight s2 = None.
Proof.
  intros Hs Hroom Hnb Hnil Hrec Hrun. pose proof (untrusted_sinv w Hs) as Hinv. unfold sinv in Hinv.
  set (s := w_sched w) in *.
  pose proof (schedule_spec chain c False any (w_mem w) (w_log w) ltac:(done) s Hinv Hroom Hnb) as Hwp.
  unfold wp in Hwp. rewrite Hrun in Hwp. destruct Hwp as (Hfl & _ & Hpl).
  destruct (planned_inv _ _ _ _ _ _ _ _ _ Hfl Hpl) as [Hinv1 Hfl1].
  pose proof (planned_clock _ _ _ _ _ _ _ _ _ Hpl) as Hclk.
  destruct Hpl as [(s0 & s0' & _ & _ & Hi0 & Hsame & Hcl & s2 & Hse & Hs1)].
  assert (s0 = s) as -> by auto. destruct (cd_none _ _ _ _ _ _ _ _ Hcl Hrec) as (x & t & Hs0').
  pose proof (fail_batch_spec chain c False any (w_mem w) (w_log w) (batch_id b) s1 Hinv1 Hclk) as Hf.
  unfold wp in Hf. destruct (fail_batch (batch_id b) s1) as [[[]|e|] s3] eqn:Hrun3; [|by destruct Hf as [_ Hn]; destruct (Hn b Hfl1)|done].
  destruct Hf as (b' & Hb' & _ & Hfa). assert (b' = b) as -> by congruence. exists s3. split; [done|].
  subst s0' s1. split; [|split].
  - eapply phased_back; [|apply Hfa|].
    + apply Hse.
    + apply Hse.
  - rewrite (fa_seqs _ _ _ _ _ _ _ _ _ Hfa). simpl. rewrite (se_reset _ _ _ _ _ _ _ _ _ Hse). simpl.
    by eapply idle_reset.
  - rewrite (fa_frame _ _ _ _ _ _ _ _ _ Hfa). done.
Qed.


(** C7. A submission is refused exactly when the prompt is empty, above the batch limit
    without chunking, too long with its generation, has a negative token, needs more pages
    than the pool, finds the queue full, or ids are used up; refused, it changes nothing. *)
Theorem submit_exact w p g x :
  session chain c False any w → next_request (w_sched w) ≤ u64_max →
  ((∃ r s', submit_with_sampler p g x (w_sched w) = (Ok r, s')) ↔ ¬ refused c (w_sched w) p g) ∧
  ∀ err s', submit_with_sampler p g x (w_sched w) = (Err err, s') → s' = w_sched w.
Proof.
  intros Hs Hn. pose proof (untrusted_sinv w Hs) as Hinv. unfold sinv in Hinv.
  pose proof (submit_spec chain c False any (w_mem w) (w_log w) (w_sched w) p g x Hinv ltac:(done) Hn) as Hwp.
  unfold wp in Hwp. destruct (submit_with_sampler p g x (w_sched w)) as [[r|e|] s'] eqn:Hrun; [| |done].
  - destruct Hwp as [Hok _]. split; [|done]. split; [done|eauto].
  - destruct Hwp as [-> Href]. split; [|by intros ?? [= _ <-]]. split; [by intros (? & ? & ?)|done].
Qed.
End claims.

(** ** Witnesses *)



Lemma scheduled_generation_greedy_witness :
  [2; 1; 2; 1]%Z = greedy_decode (eos_set mini_generation) 4 mini_prompt.
Proof.
  refine (proj2 (scheduled_generation_greedy mini_chain mini_cache (λ _, True) mini_world
    (mkFinished 1 mini_prompt [2; 1; 2; 1]%Z false) mini_prompt mini_generation
    (mini_collision_free _ _) (λ _ _ _, I) (mini_world_session True) _ _)).
  - vm_compute. left.
  - vm_compute. reflexivity.
Defined.


Lemma schedule_fail_roundtrip_witness :
  ∃ b s1 s2, schedule mini_chain (w_sched reserved_world) = (Ok (Some b), s1) ∧
    fail_batch (batch_id b) s1 = (Ok tt, s2) ∧ active s2 = active (w_sched reserved_world).
Proof.
  assert (roomb (w_sched reserved_world) = true) as Hroom by (vm_compute; reflexivity).
  assert (match schedule mini_chain (w_sched reserved_world) with (Ok (Some _), _) => true | _ => false end = true)
    as Hsome by (vm_compute; reflexivity).
  destruct (schedule mini_chain (w_sched reserved_world)) as [[[b|]|e|] s1] eqn:Hrun; try discriminate Hsome.
  destruct (schedule_fail_roundtrip mini_chain mini_cache reserved_world b s1 (reserved_world_session False))
    as (s2 & Hfail & Hact & _).
  - exact (proj1 (roomb_room _ Hroom)).
  - exact (proj1 (proj2 (roomb_room _ Hroom))).
  - vm_compute. reflexivity.
  - vm_compute. reflexivity.
  - exact Hrun.
  - exists b, s1, s2. split; [reflexivity|]. split; assumption.
Defined.


Lemma submit_exact_witness :
  (∃ r s', submit_with_sampler mini_prompt mini_generation None (w_sched mini_world) = (Ok r, s')) ↔
  ¬ refused mini_cache (w_sched mini_world) mini_prompt mini_generation.
Proof.
  refine (proj1 (submit_exact mini_chain mini_cache mini_world mini_prompt mini_generation None
    (mini_world_session False) _)). vm_compute. discriminate.
Defined.

(** ** What callers must not do *)

(** [set_speculative_decoding] accepts a draft length of [usize::MAX]; the row width then
    overflows and the next call of [schedule] panics, although nothing waits. *)
Lemma unbounded_drafts_panic :
  let huge := {| draft_tokens := usize_max; ngram := 1 |} in
  let set := act mini_chain (SetSpeculative (Some huge)) (w_sched paged_start) in
  set.1 = Ok tt ∧ (schedule mini_chain set.2).1 = Panic.
Proof. vm_compute. done. Qed.

(** [complete_batch] does not look at the kind of a batch: given a batch of drafts it commits
    drafts nobody verified, and the sequence is longer than the history of its request. *)
Lemma complete_batch_commits_drafts :
  ∃ s' a q, complete_batch mini_chain 5 [2%Z] (w_sched flight_world) = (Ok tt, s') ∧
    active s' !! 1 = Some a ∧ sequences (kv_cache s') !! 1 = Some q ∧ len (history a) < committed_tokens q.
Proof.
  assert (match complete_batch mini_chain 5 [2%Z] (w_sched flight_world) with
          | (Ok tt, s') => match active s' !! 1, sequences (kv_cache s') !! 1 with
                           | Some a, Some q => len (history a) <? committed_tokens q | _, _ => false end
          | _ => false end = true) as H by (vm_compute; reflexivity).
  destruct (complete_batch mini_chain 5 [2%Z] (w_sched flight_world)) as [[[]|e|] s']; [|done|done].
  destruct (active s' !! 1) as [a|] eqn:Ha; [|done]. destruct (sequences (kv_cache s') !! 1) as [q|] eqn:Hq; [|done].
  exists s', a, q. apply N.ltb_lt in H. done.
Qed.
