(* ===== verification/Fenced.v ===== *)
(** * The fenced scheduler

    [ruLLM/src/continuous_batch/fenced.rs]: the scheduler behind a gate that lets a batch be
    completed or rolled back only after the fence of its device work, and that quarantines
    itself when it cannot know whether the device still writes.  With it the errors and the
    recovery policy of [ruLLM/src/runtime/error.rs] and the validation of logits of
    [runtime/numerics.rs].

    A launch and a poll are calls of the adapter: what they answer is an argument of each
    call, a panic included.  The ghost state [g_running] of a session is the batch whose
    device work may still be writing. *)

From S2P Require Import LlmRuntime.
From S2P Require Export SchedulerProps.
Open Scope N_scope.

(** ** Errors and recovery *)

#[export] Instance runtime_kind_eq_dec : EqDecision RuntimeErrorKind.
Proof. solve_decision. Defined.

(** The text of a scheduler error. *)
Class ErrorText := { to_string : ContinuousBatchError → string }.
Definition map_error `{ErrorText} (e : ContinuousBatchError) : RuntimeError := mkRuntimeError InvalidInput (to_string e).

Inductive WorkState := NotSubmitted | Quiescent | UnknownWork.
#[export] Instance work_eq_dec : EqDecision WorkState.
Proof. solve_decision. Defined.

Inductive RecoveryAction :=
| FailRequest | RetryWithTokenLimit (limit : N) | RetryPortable | QuarantineDevice.
Record RecoveryPolicy := { max_retries : N; allow_portable : bool }.
Definition default_policy : RecoveryPolicy := {| max_retries := 2; allow_portable := true |}.

Definition fatal (k : RuntimeErrorKind) : bool :=
  match k with DeviceLost | Synchronization | WorkerPanicked | Internal => true | _ => false end.

Definition decide_recovery (p : RecoveryPolicy) (error : RuntimeErrorKind) (work : WorkState)
    (committed_cache_intact : bool) (attempts token_limit minimum_tokens : N) (already_portable : bool) :
    RecoveryAction :=
  if bool_decide (work = UnknownWork) || negb committed_cache_intact || fatal error then QuarantineDevice
  else if max_retries p <=? attempts then FailRequest
  else match error with
       | OutOfMemory =>
           if (0 <? minimum_tokens) && (minimum_tokens <? token_limit)
           then RetryWithTokenLimit (N.max (token_limit / 2) minimum_tokens)
           else FailRequest
       | Unsupported =>
           if allow_portable p && negb already_portable then RetryPortable else FailRequest
       | _ => FailRequest
       end.

Definition quarantine_error : RuntimeError :=
  mkRuntimeError DeviceLost "scheduler is quarantined; device work may still be in flight".

(** ** Validation of logits *)

Class FloatTests `{Sampling} := { is_pos_inf : F32 → bool; is_finite : F32 → bool }.

Fixpoint argmax_loop `{FloatTests} (i : N) (logits : list F32) (best : option (N * F32)) :
    res RuntimeError (option (N * F32)) :=
  match logits with
  | [] => Ok best
  | x :: logits =>
      if is_nan x || is_pos_inf x then Err (mkRuntimeError Numerical "logits contain NaN or positive infinity")
      else argmax_loop (i + 1) logits
             (if is_finite x && match best with None => true | Some (_, maximum) => f32_gt x maximum end
              then Some (i, x) else best)
  end.
Definition checked_argmax `{FloatTests} (logits : list F32) : res RuntimeError N :=
  let? best := argmax_loop 0 logits None in
  match best with Some (i, _) => Ok i | None => Err (mkRuntimeError Numerical "logits are empty or entirely masked") end.

(** [logits.chunks_exact(v)] *)
Definition chunks_exact {A} (v : N) (l : list A) : list (list A) :=
  (λ i, take (N.to_nat v) (drop (N.to_nat (i * v)) l)) <$> range (len l / v).

(** ** The gate *)

Inductive Poll (A : Type) := PollPending | PollReady (a : A).
Arguments PollPending {A}.
Arguments PollReady {A} a.

Record BatchLaunchFailure := mkLaunchFailure {
  lf_error : RuntimeError;
  lf_work : WorkState;
  lf_intact : bool
}.

Section gate.
Context {P : Profile} {SM : Sampling} {FT : FloatTests} {ET : ErrorText} (chain : N → list Z → N) {F : Type}.

(** What the launch of a batch answers. *)
Inductive LaunchOutcome := Launched (f : F) | LaunchFailed (failure : BatchLaunchFailure) | LaunchPanics.
(** [poll_complete]: [Ok] for pending and done, [Err] for [Ready(Err(..))], or a panic. *)
Abbreviation PollComplete := (F → res RuntimeError (Poll unit) * F).

Record FencedBatchScheduler := mkGate {
  scheduler : ContinuousBatchScheduler;
  fence : option (N * F * bool);
  quarantined : bool
}.
Definition with_scheduler v g := mkGate v (fence g) (quarantined g).
Definition with_fence v g := mkGate (scheduler g) v (quarantined g).
Definition with_quarantined v g := mkGate (scheduler g) (fence g) v.
Abbreviation Gate := (M FencedBatchScheduler RuntimeError).

Definition gate_new (s : ContinuousBatchScheduler) : res RuntimeError FencedBatchScheduler :=
  if has_in_flight_batch (sch_snapshot s) then Err (invalid "cannot wrap a scheduler with untracked in-flight work") else Ok (mkGate s None false).

Definition ensure_healthy : Gate unit :=
  let! q := gets quarantined in
  if q : bool then throw quarantine_error else ret tt.
(** A call of the scheduler; [map_error] converts its error. *)
Definition sched {A} (m : M ContinuousBatchScheduler ContinuousBatchError A) : Gate A := λ g,
  let '(r, s) := m (scheduler g) in
  (match r with Ok a => Ok a | Err e => Err (map_error e) | Panic => Panic end, with_scheduler s g).
Definition quarantine (b : bool) : Gate unit := modify (with_quarantined b).

Definition gate_submit (p : list Z) (gen : GreedyGenerationConfig) : Gate RequestId :=
  let! _ := ensure_healthy in sched (submit p gen).
Definition gate_submit_sampled (p : list Z) (gen : GreedyGenerationConfig) (settings : SamplingSettings) :
    Gate RequestId :=
  let! _ := ensure_healthy in sched (submit_sampled_with_options p gen settings).

Definition launch (submit : ScheduledBatch → LaunchOutcome) : Gate (option ScheduledBatch) :=
  let! _ := ensure_healthy in
  let! ob := sched (schedule chain) in
  match ob with
  | None => ret None
  | Some b =>
      let! _ := quarantine true in
      match submit b with
      | LaunchPanics => panic
      | Launched f =>
          let! _ := modify (with_fence (Some (batch_id b, f, false))) in
          let! _ := quarantine false in
          ret (Some b)
      | LaunchFailed failure =>
          let! _ :=
            when (negb (bool_decide (lf_work failure = UnknownWork)) && lf_intact failure
                  && negb (fatal (kind (lf_error failure))))
              (let! _ := sched (fail_batch (batch_id b)) in quarantine false) in
          throw (lf_error failure)
      end
  end.

Definition poll_fence (poll : PollComplete) (id : N) : Gate (Poll unit) :=
  let! _ := ensure_healthy in
  let! fe := gets fence in
  let! fe := ok_or fe (invalid "no tracked device batch") in
  let '(id', f, completed) := fe in
  if negb (id' =? id) then throw (invalid "stale or wrong batch fence ID")
  else if completed : bool then ret (PollReady tt)
  else
    let! _ := quarantine true in
    let '(r, f') := poll f in
    let! _ := modify (with_fence (Some (id', f', false))) in
    let! answer := lift r in
    match answer with
    | PollPending => let! _ := quarantine false in ret PollPending
    | PollReady _ =>
        let! _ := modify (with_fence (Some (id', f', true))) in
        let! _ := quarantine false in
        ret (PollReady tt)
    end.

Definition try_complete_logits (poll : PollComplete) (id : N) (logits : list F32) (vocabulary : N) :
    Gate (Poll (list Z)) :=
  let! ready := poll_fence poll id in
  match ready with
  | PollPending => ret PollPending
  | PollReady _ =>
      let! s := gets scheduler in
      let! b := expect (in_flight s) in
      let rows := batch_size b in
      if (vocabulary =? 0) || negb (bool_decide (checked_mul usize_max rows vocabulary = Some (len logits)))
      then throw (invalid "logit shape does not match the fenced batch")
      else
        let! _ := for_each (chunks_exact vocabulary logits) (λ row, let! _ := lift (checked_argmax row) in ret tt) in
        let! tokens := sched (
          let! s := gets (λ s, s) in
          let! sel := lift (select_batch_tokens id logits vocabulary s) in
          complete_selected_batch chain sel) in
        let! _ := modify (with_fence None) in
        ret (PollReady tokens)
  end.

Definition try_rollback (poll : PollComplete) (id : N) : Gate (Poll unit) :=
  let! ready := poll_fence poll id in
  match ready with
  | PollPending => ret PollPending
  | PollReady _ =>
      let! _ := sched (fail_batch id) in
      let! _ := modify (with_fence None) in
      ret (PollReady tt)
  end.

Definition gate_cancel (r : RequestId) : Gate (option CancelledGeneration) :=
  let! _ := ensure_healthy in sched (sch_cancel r).
Definition gate_set_batch_token_limit (limit : N) : Gate unit :=
  let! _ := ensure_healthy in sched (set_batch_token_limit limit).
Definition gate_pop_finished : Gate (option FinishedGeneration) := sched pop_finished.

(** The fence that [drop] destroys: one that has completed; others are forgotten. *)
Definition dropped_fence (g : FencedBatchScheduler) : option F :=
  match fence g with
  | Some (_, f, completed) => if completed : bool then Some f else None
  | None => None
  end.
End gate.

Arguments LaunchOutcome : clear implicits.
Arguments FencedBatchScheduler {SM} F.

(** ** Sessions

    The callers of the gate, its adapter and the device, in any order. *)

Section session.
Context {P : Profile} {SM : Sampling} {FT : FloatTests} {ET : ErrorText} {CM : CausalModel} (chain : N → list Z → N) {F : Type}.
Context (c : PagedKvCacheConfig).

Abbreviation PollComplete := (F → res RuntimeError (Poll unit) * F).
Abbreviation any := (λ _ : list Z, True).
Abbreviation seqs s := (sequences (kv_cache s)).
Abbreviation gate := (FencedBatchScheduler F).

Record gworld := mkGworld {
  g_gate : gate;
  g_log : gmap N submission;
  g_running : option ScheduledBatch
}.
Abbreviation g_sched w := (scheduler (g_gate w)).

Inductive gevent :=
| GSubmit (p : list Z) (gen : GreedyGenerationConfig) (settings : option SamplingSettings)
| GLaunch (submit : ScheduledBatch → LaunchOutcome F)
| GComplete (poll : PollComplete) (id : N) (logits : list F32) (vocabulary : N)
| GRollback (poll : PollComplete) (id : N)
| GCancel (r : N)
| GLimit (n : N)
| GPop.

Definition discard {S E A} (m : M S E A) : M S E unit := let! _ := m in ret tt.
Definition gact (e : gevent) : M gate RuntimeError unit :=
  match e with
  | GSubmit p gen None => discard (gate_submit p gen)
  | GSubmit p gen (Some st) => discard (gate_submit_sampled p gen st)
  | GLaunch submit => discard (launch chain submit)
  | GComplete poll id logits v => discard (try_complete_logits chain poll id logits v)
  | GRollback poll id => discard (try_rollback poll id)
  | GCancel r => discard (gate_cancel r)
  | GLimit n => gate_set_batch_token_limit n
  | GPop => discard gate_pop_finished
  end.

(** *** What the adapter owes *)

(** The batch that a launch hands to the adapter. *)
Definition handed (g : gate) : option ScheduledBatch :=
  if quarantined g then None
  else match schedule chain (scheduler g) with (Ok (Some b), _) => Some b | _ => None end.
(** A launch starts device work, unless it fails and says that none is running. *)
Definition running_after (w : gworld) (e : gevent) : option ScheduledBatch :=
  match e with
  | GLaunch submit =>
      match handed (g_gate w) with
      | Some b =>
          match submit b with
          | LaunchFailed failure => if decide (lf_work failure = UnknownWork) then Some b else g_running w
          | _ => Some b
          end
      | None => g_running w
      end
  | _ => g_running w
  end.
(** [Ready(Ok)] is only said of device work that is over. *)
Definition honest_poll (w : gworld) (poll : PollComplete) : Prop :=
  ∀ id f f', fence (g_gate w) = Some (id, f, false) → poll f = (Ok (PollReady tt), f') → g_running w = None.
(** Drafts are rolled back: the gate has no completion that verifies them. *)
Definition undrafted (w : gworld) (id : N) : Prop :=
  ∀ b, in_flight (g_sched w) = Some b → batch_id b = id → batch_kind b ≠ Verify.

Definition gallowed (w : gworld) (e : gevent) : Prop :=
  room (g_sched w) ∧ next_batch (g_sched w) ≤ u64_max ∧ next_request (g_sched w) ≤ u64_max ∧
  match e with
  | GComplete poll id _ _ => honest_poll w poll ∧ undrafted w id
  | GRollback poll _ => honest_poll w poll
  | GLimit n => n ≤ usize_max
  | _ => True
  end.

Definition glogged (w : gworld) (e : gevent) (out : res RuntimeError unit) : gmap N submission :=
  match e, out with
  | GSubmit p gen st, Ok _ =>
      <[next_request (g_sched w) := submission_of p gen (st ≫= new_with_options)]> (g_log w)
  | _, _ => g_log w
  end.

Inductive gstep (w : gworld) (e : gevent) (out : res RuntimeError unit) : gworld → Prop :=
| gstep_intro g' :
    gallowed w e → gact e (g_gate w) = (out, g') →
    gstep w e out (mkGworld g' (glogged w e out) (running_after w e)).

(** A gate wraps a scheduler from any session; device work may end at any time. *)
Inductive gsession : gworld → Prop :=
| gsession_new w g :
    session chain c False any w → gate_new (w_sched w) = Ok g → gsession (mkGworld g (w_log w) None)
| gsession_step w e out w' : gsession w → gstep w e out w' → gsession w'
| gsession_done w : gsession w → gsession (mkGworld (g_gate w) (g_log w) None).

(** ** The invariant *)

(** The contents of device memory do not matter here. *)
Definition blank : memory := λ _, kv_entry [] 0%Z.

Record ginv (w : gworld) : Prop := {
  gi_inv : inv chain c False any blank (g_log w) (g_sched w);
  gi_fence : ∀ id f done, fence (g_gate w) = Some (id, f, done) →
    ∃ b, in_flight (g_sched w) = Some b ∧ batch_id b = id ∧ (done = true → g_running w = None);
  gi_running : ∀ b, g_running w = Some b → in_flight (g_sched w) = Some b;
  gi_healthy : quarantined (g_gate w) = false → is_Some (in_flight (g_sched w)) → is_Some (fence (g_gate w))
}.

(** The adapter itself panics. *)
Definition adapter_panics (w : gworld) (e : gevent) : Prop :=
  match e with
  | GLaunch submit => ∃ b, handed (g_gate w) = Some b ∧ submit b = LaunchPanics
  | GComplete poll _ _ _ | GRollback poll _ =>
      ∃ id f f', fence (g_gate w) = Some (id, f, false) ∧ poll f = (Panic, f')
  | _ => False
  end.

(** What a step keeps, whatever its outcome. *)
Record kept (w : gworld) (e : gevent) (out : res RuntimeError unit) (g' : gate) : Prop := {
  kp_inv : ginv (mkGworld g' (glogged w e out) (running_after w e));
  kp_panic : out = Panic → adapter_panics w e ∧ quarantined g' = true;
  kp_err : ∀ err, out = Err err → (∀ submit, e ≠ GLaunch submit) → scheduler g' = g_sched w
}.

(** Outcomes of actions that a specification without panics covers. *)
Lemma wp_outcome {S E A} (m : M S E A) s Q R r s' :
  wp m s Q R → m s = (r, s') → match r with Ok a => Q a s' | Err e => R e s' | Panic => False end.
Proof. unfold wp. intros H Hm. rewrite Hm in H. by destruct r. Qed.

(** Calls that do not touch the batch in flight. *)
Definition keeps_flight {A} (m : M ContinuousBatchScheduler ContinuousBatchError A) : Prop :=
  ∀ s, in_flight (m s).2 = in_flight s.
Lemma keeps_bind {A B} (m : M ContinuousBatchScheduler ContinuousBatchError A) (k : A → _ B) :
  keeps_flight m → (∀ a, keeps_flight (k a)) → keeps_flight (bind m k).
Proof.
  intros Hm Hk s. unfold bind. specialize (Hm s). destruct (m s) as [[a|e|] s']; simpl in *; [|done|done].
  by rewrite Hk.
Qed.
Lemma keeps_lift {A} (r : res ContinuousBatchError A) : keeps_flight (lift r).
Proof. done. Qed.
Lemma keeps_kv {A} (m : M PagedKvCacheManager PagedKvError A) : keeps_flight (kv m).
Proof. intros s. unfold kv. by destruct (m (kv_cache s)). Qed.
Lemma keeps_ok_or {A} (o : option A) e : keeps_flight (ok_or o e).
Proof. by destruct o. Qed.
Lemma keeps_expect {A} (o : option A) : keeps_flight (expect o).
Proof. by destruct o. Qed.
Lemma keeps_modify f : (∀ s, in_flight (f s) = in_flight s) → keeps_flight (modify f).
Proof. intros Hf s. apply Hf. Qed.
End session.

Section proofs.
Context {P : Profile} {SM : Sampling} {FT : FloatTests} {ET : ErrorText} {CM : CausalModel} (chain : N → list Z → N) {F : Type}.
Context (c : PagedKvCacheConfig).

Abbreviation PollComplete := (F → res RuntimeError (Poll unit) * F).
Abbreviation any := (λ _ : list Z, True).
Abbreviation seqs s := (sequences (kv_cache s)).
Abbreviation gate := (FencedBatchScheduler F).
Abbreviation g_sched w := (scheduler (g_gate w)).
Abbreviation ginv := (ginv chain c (F := F)).
Abbreviation kept := (kept chain c (F := F)).

Ltac keeps := repeat first
  [ apply keeps_bind; [|intros ?] | apply keeps_lift | apply keeps_kv | apply keeps_ok_or | apply keeps_expect
  | progress cbn beta zeta | case_match | (intros ?; done) | (apply keeps_modify; done) ].

Lemma submit_keeps p gen x : keeps_flight (submit_with_sampler p gen x).
Proof. unfold submit_with_sampler, when. keeps. Qed.
Lemma submit_sampled_keeps p gen st : keeps_flight (submit_sampled_with_options p gen st).
Proof. apply keeps_bind; [apply keeps_ok_or|intros x; apply submit_keeps]. Qed.
Lemma cancel_keeps r : keeps_flight (sch_cancel r).
Proof. unfold sch_cancel, drop_active. keeps. Qed.
Lemma pop_keeps : keeps_flight pop_finished.
Proof. unfold pop_finished. keeps. Qed.
Lemma limit_keeps n : keeps_flight (set_batch_token_limit n).
Proof. unfold set_batch_token_limit. keeps. Qed.

(** *** The parts of a call *)

Lemma discard_run {S E A} (m : M S E A) s :
  discard m s = (match (m s).1 with Ok _ => Ok tt | Err e => Err e | Panic => Panic end, (m s).2).
Proof. unfold discard, bind. by destruct (m s) as [[]]. Qed.
Lemma run_bind {S E A B} (m : M S E A) (k : A → M S E B) s :
  bind m k s = match m s with (Ok a, s') => k a s' | (Err e, s') => (Err e, s') | (Panic, s') => (Panic, s') end.
Proof. done. Qed.
Lemma healthy_run {A} (m : M gate RuntimeError A) g :
  (let! _ := ensure_healthy in m) g
  = if quarantined g then (Err quarantine_error, g) else m g.
Proof. unfold ensure_healthy, bind, gets. by destruct (quarantined g). Qed.

(** A healthy gate passes the call on. *)
Lemma passed_kept {A} w e (m : M ContinuousBatchScheduler ContinuousBatchError A) :
  ginv w → keeps_flight m → running_after chain w e = g_running w → (∀ err, glogged w e (Err err) = g_log w) →
  wp m (g_sched w) (λ _ s', inv chain c False any blank (glogged w e (Ok tt)) s') (λ _ s', s' = g_sched w) →
  ∀ out g', discard (sched m) (g_gate w) = (out, g') → kept w e out g'.
Proof.
  intros [Hinv Hf Hr Hh] Hk Hrun Hlog Hwp out g'. rewrite discard_run. unfold sched. specialize (Hk (g_sched w)).
  unfold wp in Hwp.
  destruct (m (g_sched w)) as [[a|err|] s'] eqn:Hm; simpl in *; [| |done]; intros [= <- <-].
  - split; [|done|done]. split; simpl; [done| | |]; rewrite ?Hk, ?Hrun; done.
  - subst s'. split; [|done|done]. split; simpl; rewrite ?Hlog, ?Hrun; done.
Qed.
Lemma refused_kept w e out g' :
  ginv w → running_after chain w e = g_running w → (∀ err, glogged w e (Err err) = g_log w) →
  (Err quarantine_error, g_gate w) = (out, g') → kept w e out g'.
Proof.
  intros [Hinv Hf Hr Hh] Hrun Hlog [= <- <-]. split; [|done|done]. split; simpl; rewrite ?Hlog, ?Hrun; done.
Qed.

(** *** Launching *)

(** A launch that fails rolls the batch back unless the device may still be at work. *)
Definition recoverable (failure : BatchLaunchFailure) : bool :=
  negb (bool_decide (lf_work failure = UnknownWork)) && lf_intact failure && negb (fatal (kind (lf_error failure))).

Lemma launch_run submit w :
  ginv w → room (g_sched w) → next_batch (g_sched w) ≤ u64_max →
  match handed chain (g_gate w) with
  | None => ∃ r s', launch chain submit (g_gate w) = (r, with_scheduler s' (g_gate w)) ∧ r ≠ Panic ∧
      inv chain c False any blank (g_log w) s' ∧ in_flight s' = in_flight (g_sched w)
  | Some b => quarantined (g_gate w) = false ∧ in_flight (g_sched w) = None ∧
      ∃ s1, in_flight s1 = Some b ∧ inv chain c False any blank (g_log w) s1 ∧
      launch chain submit (g_gate w) =
        match submit b with
        | LaunchPanics => (Panic, mkGate s1 (fence (g_gate w)) true)
        | Launched f => (Ok (Some b), mkGate s1 (Some (batch_id b, f, false)) false)
        | LaunchFailed failure =>
            (Err (lf_error failure),
             if recoverable failure then mkGate (fail_batch (batch_id b) s1).2 (fence (g_gate w)) false
             else mkGate s1 (fence (g_gate w)) true)
        end ∧
      ∃ s2, fail_batch (batch_id b) s1 = (Ok tt, s2) ∧ failed chain c False any blank (g_log w) s1 s2 b
  end.
Proof.
  intros Hg Hroom Hnb. pose proof (gi_inv _ _ _ Hg) as Hinv. unfold handed, launch. rewrite healthy_run.
  destruct (g_gate w) as [s fe q] eqn:Hgw. simpl in *. destruct q.
  { eexists _, s. split; [done|]. done. }
  pose proof (schedule_spec chain c False any blank (g_log w) ltac:(done) s Hinv Hroom Hnb) as Hwp.
  unfold wp in Hwp. unfold bind, sched. simpl. destruct (schedule chain s) as [[[b|]|e|] s1] eqn:Hs; [| | |done].
  - destruct Hwp as (Hfl & _ & Hpl). destruct (planned_inv _ _ _ _ _ _ _ _ _ Hfl Hpl) as [Hinv1 Hfl1].
    pose proof (fail_batch_spec chain c False any blank (g_log w) (batch_id b) s1 Hinv1 (planned_clock _ _ _ _ _ _ _ _ _ Hpl)) as Hf.
    unfold wp in Hf. destruct (fail_batch (batch_id b) s1) as [[[]|e|] s2] eqn:Hrun; [|by destruct Hf as [_ Hn]; destruct (Hn b Hfl1)|done].
    destruct Hf as (b' & Hb' & _ & Hfa). assert (b' = b) as -> by congruence.
    split; [done|]. split; [done|]. exists s1. do 2 (split; [done|]). split; [|by exists s2]. simpl.
    destruct (submit b) as [f|failure|]; [done| |done]. unfold when. fold (recoverable failure).
    destruct (recoverable failure); [|done]. unfold bind. simpl. by rewrite Hrun.
  - destruct Hwp as (Hfl & _ & Hpl). destruct (planned_inv _ _ _ _ _ _ _ _ _ Hfl Hpl) as [Hinv1 Hfl1].
    eexists _, s1. split; [done|]. split; [done|]. split; [done|]. by rewrite Hfl1, Hfl.
  - destruct Hwp as [-> _]. eexists _, s. split; [done|]. done.
Qed.

Lemma launch_kept w submit out g' :
  ginv w → gallowed w (GLaunch submit) → gact chain (GLaunch submit) (g_gate w) = (out, g') →
  kept w (GLaunch submit) out g'.
Proof.
  intros Hg (Hroom & Hnb & _) Hrun. cbn [gact] in Hrun. rewrite discard_run in Hrun.
  pose proof (launch_run submit w Hg Hroom Hnb) as Hl. destruct Hg as [Hinv Hf Hr Hh].
  assert (∀ out : res RuntimeError unit, glogged w (GLaunch submit) out = g_log w) as Hlog by by intros [].
  split; [| |intros err _ Hno; by destruct (Hno submit)].
  - rewrite Hlog. cbn [running_after]. destruct (handed chain (g_gate w)) as [b|].
    + destruct Hl as (Hq & Hfl & s1 & Hfl1 & Hinv1 & Hout & s2 & Hs2 & Hfa).
      assert (fence (g_gate w) = None) as Hfe.
      { destruct (fence (g_gate w)) as [[[id f] d]|]; [|done]. destruct (Hf id f d eq_refl) as (? & ? & _). congruence. }
      assert (g_running w = None) as Hnr.
      { destruct (g_running w) as [b'|]; [|done]. specialize (Hr b' eq_refl). congruence. }
      rewrite Hout in Hrun. destruct (submit b) as [f|failure|]; simpl in Hrun; injection Hrun as <- <-.
      * split; simpl; [done| |naive_solver|eauto]. intros id f0 d [= <- <- <-]. exists b. done.
      * unfold recoverable. rewrite Hs2, Hfe. simpl. case_bool_decide as Hu; simpl.
        { rewrite decide_True by done. split; simpl; [done|done|naive_solver|done]. }
        rewrite decide_False, Hnr by done. destruct (lf_intact failure && negb (fatal (kind (lf_error failure)))).
        { split; simpl; [apply Hfa|done|done|]. intros _. rewrite (fa_frame _ _ _ _ _ _ _ _ _ Hfa). by intros []. }
        split; simpl; done.
      * rewrite Hfe. split; simpl; [done|done|naive_solver|done].
    + destruct Hl as (r & s' & Hout & Hnp & Hi & Hfl). rewrite Hout in Hrun. injection Hrun as _ <-.
      split; simpl; rewrite ?Hfl; done.
  - intros ->. cbn [adapter_panics]. destruct (handed chain (g_gate w)) as [b|].
    + destruct Hl as (_ & _ & s1 & _ & _ & Hout & _). rewrite Hout in Hrun.
      destruct (submit b) eqn:Hs; simpl in Hrun; [done|done|]. injection Hrun as <-. split; [by exists b|done].
    + destruct Hl as (r & s' & Hout & Hnp & _). rewrite Hout in Hrun. by destruct r.
Qed.

(** *** Polling *)

(** What polling the fence of [id] does. *)
Inductive polled (poll : PollComplete) (id : N) (g : gate) : res RuntimeError (Poll unit) → gate → Prop :=
| polled_refused e : polled poll id g (Err e) g
| polled_again f :
    quarantined g = false → fence g = Some (id, f, true) → polled poll id g (Ok (PollReady tt)) g
| polled_ready f f' :
    quarantined g = false → fence g = Some (id, f, false) → poll f = (Ok (PollReady tt), f') →
    polled poll id g (Ok (PollReady tt)) (mkGate (scheduler g) (Some (id, f', true)) false)
| polled_pending f f' :
    quarantined g = false → fence g = Some (id, f, false) → poll f = (Ok PollPending, f') →
    polled poll id g (Ok PollPending) (mkGate (scheduler g) (Some (id, f', false)) false)
| polled_error f f' e :
    quarantined g = false → fence g = Some (id, f, false) → poll f = (Err e, f') →
    polled poll id g (Err e) (mkGate (scheduler g) (Some (id, f', false)) true)
| polled_panic f f' :
    quarantined g = false → fence g = Some (id, f, false) → poll f = (Panic, f') →
    polled poll id g Panic (mkGate (scheduler g) (Some (id, f', false)) true).

Lemma poll_fence_run poll id g : polled poll id g (poll_fence poll id g).1 (poll_fence poll id g).2.
Proof.
  unfold poll_fence. rewrite healthy_run. destruct (quarantined g) eqn:Hq; [constructor|].
  unfold bind, gets. destruct (fence g) as [[[id' f] d]|] eqn:Hf; simpl; [|constructor].
  destruct (N.eqb_spec id' id) as [->|]; simpl; [|constructor]. destruct d; simpl; [by eapply polled_again|].
  destruct (poll f) as [[[|[]]|e|] f'] eqn:Hp; simpl;
    [exact (polled_pending _ _ g f f' Hq Hf Hp)|exact (polled_ready _ _ g f f' Hq Hf Hp)
    |exact (polled_error _ _ g f f' e Hq Hf Hp)|exact (polled_panic _ _ g f f' Hq Hf Hp)].
Qed.

Lemma polled_same poll id g r g' : polled poll id g r g' → scheduler g' = scheduler g.
Proof. by destruct 1. Qed.

(** Polling keeps the invariant, if the fence is honest. *)
Lemma polled_ginv w poll id r g' :
  ginv w → honest_poll w poll → polled poll id (g_gate w) r g' → ginv (mkGworld g' (g_log w) (g_running w)).
Proof.
  intros [Hinv Hf Hr Hh] Hhon Hp.
  assert (∀ f f' d' q, fence (g_gate w) = Some (id, f, false) → (d' = true → g_running w = None) →
    ginv (mkGworld (mkGate (g_sched w) (Some (id, f', d')) q) (g_log w) (g_running w))) as Hnew.
  { intros f f' d' q Hfe Hd. split; simpl; [done| |done|by eauto]. intros id0 f0 d [= <- <- <-].
    destruct (Hf _ _ _ Hfe) as (b & Hb & Hid & _). by exists b. }
  destruct Hp as [e|f Hq Hfe|f f' Hq Hfe Hpo|f f' Hq Hfe Hpo|f f' e Hq Hfe Hpo|f f' Hq Hfe Hpo];
    [by split|by split|eapply Hnew; [done|]..]; [|done..]. intros _. by eapply Hhon.
Qed.

(** A fence that has completed: healthy, of the batch in flight, with no device work left. *)
Lemma polled_done w poll id g' :
  ginv w → honest_poll w poll → polled poll id (g_gate w) (Ok (PollReady tt)) g' →
  quarantined g' = false ∧ g_running w = None ∧ (∃ f, fence g' = Some (id, f, true)) ∧
  ∃ b, in_flight (g_sched w) = Some b ∧ batch_id b = id.
Proof.
  intros [Hinv Hf Hr Hh] Hhon Hp. inversion Hp as [|f Hq Hfe|f f' Hq Hfe Hpo| | |]; subst; simpl.
  - destruct (Hf _ _ _ Hfe) as (b & Hb & Hid & Hrun). split; [done|]. split; [by apply Hrun|]. eauto.
  - destruct (Hf _ _ _ Hfe) as (b & Hb & Hid & _). split; [done|]. split; [by eapply Hhon|]. eauto.
Qed.

(** The end of a batch whose fence has completed. *)
Lemma ended_ginv log (q : bool) s' :
  inv chain c False any blank log s' → in_flight s' = None → ginv (mkGworld (mkGate s' None q) log None).
Proof. intros Hi Hn. split; simpl; [done|done|done|]. rewrite Hn. by intros _ []. Qed.

Lemma for_each_check {A} (f : A → res RuntimeError N) (l : list A) (g : gate) :
  (∀ x, f x ≠ Panic) →
  ∃ r, for_each l (λ x, let! _ := lift (f x) in ret tt) g = (r, g) ∧ r ≠ Panic.
Proof.
  intros Hf. induction l as [|x l IH]; [eexists; split; [reflexivity|done]|]. destruct IH as (r & IH & Hr).
  cbn [for_each]. rewrite run_bind. unfold lift at 1. rewrite run_bind. specialize (Hf x).
  destruct (f x) as [n|e|]; [|eexists; split; [reflexivity|done]|done]. exists r. done.
Qed.
Lemma checked_argmax_no_panic v : checked_argmax v ≠ Panic.
Proof.
  assert (∀ l i best, argmax_loop i l best ≠ Panic) as H.
  { induction l as [|x l IH]; intros i best; [done|]. cbn [argmax_loop]. destruct (is_nan x || is_pos_inf x); [done|apply IH]. }
  unfold checked_argmax. specialize (H v 0 None). destruct (argmax_loop 0 v None) as [[[]|]|e|]; done.
Qed.

Lemma select_complete_spec log s id logits v :
  inv chain c False any blank log s → clock (kv_cache s) ≤ u64_max →
  (∀ b, in_flight s = Some b → batch_id b = id → batch_kind b ≠ Verify) →
  wp (let! s := gets (λ s, s) in
      let! sel := lift (select_batch_tokens id logits v s) in
      complete_selected_batch chain sel) s
    (λ _ s', inv chain c False any blank log s' ∧ in_flight s' = None) (λ _ s', s' = s).
Proof.
  intros Hinv Hclk Hk. wp_step. wp_step. wp_step. pose proof (select_no_panic id logits v s) as Hnp.
  destruct (select_batch_tokens id logits v s) as [sel|e|] eqn:Hsel; [|by split|done].
  eapply wp_lift_ok; [reflexivity|]. cbn beta. destruct (selected_from _ _ _ _ _ Hsel) as [Hid Hsam].
  eapply wp_wand; [apply (complete_selected_batch_spec _ _ _ _ _ _ _ _ Hinv Hclk)| |].
  - intros b Hb Hb'. split; [apply (Hk b Hb); congruence|]. split; [intros []|]. by intros ?????? [].
  - done.
  - cbn beta. intros ? s' (_ & Hi & Hn). done.
  - done.
Qed.

Lemma complete_kept w poll id logits v out g' :
  ginv w → gallowed w (GComplete poll id logits v) → gact chain (GComplete poll id logits v) (g_gate w) = (out, g') →
  kept w (GComplete poll id logits v) out g'.
Proof.
  intros Hg (Hroom & _ & _ & Hhon & Hk) Hrun. cbn [gact] in Hrun. rewrite discard_run in Hrun.
  unfold try_complete_logits in Hrun. rewrite run_bind in Hrun. pose proof (poll_fence_run poll id (g_gate w)) as Hp.
  destruct (poll_fence poll id (g_gate w)) as [r g1]. cbn [fst snd] in Hp.
  pose proof (polled_ginv w poll id r g1 Hg Hhon Hp) as Hg1. pose proof (polled_same _ _ _ _ _ Hp) as Hs1.
  assert (∀ err, kept w (GComplete poll id logits v) (Err err) g1) as Hstay.
  { intros err. split; [done|done|]. intros _ _ _. exact Hs1. }
  destruct r as [[|[]]|e|].
  - injection Hrun as <- <-. by split.
  - destruct (polled_done w poll id g1 Hg Hhon Hp) as (Hq1 & Hnr & _ & b & Hb & Hid).
    rewrite run_bind in Hrun. cbn [gets] in Hrun. rewrite Hs1, Hb, run_bind in Hrun. cbn [expect ret] in Hrun.
    cbv zeta in Hrun. destruct (_ || _); [injection Hrun as <- <-; apply Hstay|]. rewrite run_bind in Hrun.
    destruct (for_each_check checked_argmax (chunks_exact v logits) g1) as (r & Hr & Hnp); [apply checked_argmax_no_panic|].
    rewrite Hr in Hrun. destruct r as [[]|e|]; [|injection Hrun as <- <-; apply Hstay|done].
    pose proof (select_complete_spec (g_log w) (g_sched w) id logits v (gi_inv _ _ _ Hg)
      ltac:(pose proof (rm_clock _ Hroom); lia) Hk) as Hwp.
    rewrite run_bind in Hrun. unfold sched in Hrun. rewrite Hs1 in Hrun. unfold wp in Hwp.
    destruct ((let! s := gets (λ s, s) in let! sel := lift (select_batch_tokens id logits v s) in
      complete_selected_batch chain sel) (g_sched w)) as [[ts|e|] s'] eqn:Hm; [| |done].
    + destruct Hwp as [Hi Hn]. injection Hrun as <- <-. split; [|done|done]. cbn [glogged running_after].
      rewrite Hnr. by apply ended_ginv.
    + subst s'. injection Hrun as <- <-. rewrite <-Hs1. destruct g1. apply Hstay.
  - injection Hrun as <- <-. apply Hstay.
  - injection Hrun as <- <-. split; [done| |done]. intros _.
    inversion Hp as [| | | | |f f' Hq Hfe Hpo]; subst. split; [by exists id, f, f'|done].
Qed.

Lemma rollback_kept w poll id out g' :
  ginv w → gallowed w (GRollback poll id) → gact chain (GRollback poll id) (g_gate w) = (out, g') →
  kept w (GRollback poll id) out g'.
Proof.
  intros Hg (Hroom & _ & _ & Hhon) Hrun. cbn [gact] in Hrun. rewrite discard_run in Hrun.
  unfold try_rollback in Hrun. rewrite run_bind in Hrun. pose proof (poll_fence_run poll id (g_gate w)) as Hp.
  destruct (poll_fence poll id (g_gate w)) as [r g1]. cbn [fst snd] in Hp.
  pose proof (polled_ginv w poll id r g1 Hg Hhon Hp) as Hg1. pose proof (polled_same _ _ _ _ _ Hp) as Hs1.
  destruct r as [[|[]]|e|].
  - injection Hrun as <- <-. by split.
  - destruct (polled_done w poll id g1 Hg Hhon Hp) as (Hq1 & Hnr & _ & b & Hb & Hid).
    pose proof (fail_batch_spec chain c False any blank (g_log w) id (g_sched w) (gi_inv _ _ _ Hg)
      ltac:(pose proof (rm_clock _ Hroom); lia)) as Hwp.
    rewrite run_bind in Hrun. unfold sched in Hrun. rewrite Hs1 in Hrun. unfold wp in Hwp.
    destruct (fail_batch id (g_sched w)) as [[[]|e|] s'] eqn:Hm; [|by destruct Hwp as [_ Hn]; destruct (Hn b Hb)|done].
    destruct Hwp as (b' & _ & _ & Hfa). injection Hrun as <- <-. split; [|done|done]. cbn [glogged running_after].
    rewrite Hnr. apply ended_ginv; [apply Hfa|]. by rewrite (fa_frame _ _ _ _ _ _ _ _ _ Hfa).
  - injection Hrun as <- <-. by split.
  - injection Hrun as <- <-. split; [done| |done]. intros _.
    inversion Hp as [| | | | |f f' Hq Hfe Hpo]; subst. split; [by exists id, f, f'|done].
Qed.

(** *** All calls *)

Lemma submit_kept w p gen st out g' :
  ginv w → gallowed w (GSubmit p gen st) → gact chain (GSubmit p gen st) (g_gate w) = (out, g') →
  kept w (GSubmit p gen st) out g'.
Proof.
  intros Hg (_ & _ & Hnr & _). pose proof (gi_inv _ _ _ Hg) as Hinv.
  assert (∀ x, wp (submit_with_sampler p gen x) (g_sched w)
    (λ _ s', inv chain c False any blank (<[next_request (g_sched w) := submission_of p gen x]> (g_log w)) s')
    (λ _ s', s' = g_sched w)) as Hsub.
  { intros x. eapply wp_wand; [by apply (submit_spec chain c False any blank)| |]; cbn beta.
    - intros r s' (_ & -> & _ & Hi). exact Hi.
    - by intros e s' [-> _]. }
  destruct st as [st|]; cbn [gact]; rewrite discard_run; unfold gate_submit, gate_submit_sampled; rewrite healthy_run;
    (destruct (quarantined (g_gate w)); [by apply refused_kept|]); rewrite <-discard_run;
    (apply passed_kept; [done|first [apply submit_sampled_keeps|apply submit_keeps]|done|done|]); [|apply Hsub].
  unfold submit_sampled_with_options. wp_step. cbn [glogged]. simpl.
  destruct (new_with_options st) as [x|]; unfold ok_or; wp_step; [apply Hsub|done].
Qed.

Lemma cancel_kept w r out g' :
  ginv w → gallowed w (GCancel r) → gact chain (GCancel r) (g_gate w) = (out, g') → kept w (GCancel r) out g'.
Proof.
  intros Hg (Hroom & _). cbn [gact]. rewrite discard_run. unfold gate_cancel. rewrite healthy_run.
  destruct (quarantined (g_gate w)); [by apply refused_kept|]. rewrite <-discard_run.
  apply passed_kept; [done|apply cancel_keeps|done|done|].
  eapply wp_wand; [apply (sch_cancel_spec chain c False any blank); [apply Hg|pose proof (rm_clock _ Hroom); lia]| |]; cbn beta.
  - by intros out' s' [Hi _].
  - by intros e s' [-> _].
Qed.

Lemma limit_kept w n out g' :
  ginv w → gallowed w (GLimit n) → gact chain (GLimit n) (g_gate w) = (out, g') → kept w (GLimit n) out g'.
Proof.
  intros Hg (_ & _ & _ & Hn). cbn [gact]. unfold gate_set_batch_token_limit. rewrite healthy_run.
  destruct (quarantined (g_gate w)); [by apply refused_kept|]. intros Hrun.
  eapply (passed_kept w (GLimit n) (set_batch_token_limit n)); [done|apply limit_keeps|done|done| |].
  - eapply wp_wand; [by apply (set_batch_token_limit_spec chain c False any blank); [apply Hg|]| |]; cbn beta.
    + by intros out' s' [Hi _].
    + by intros e s' [-> _].
  - rewrite discard_run, Hrun. simpl. by destruct out as [[]| |].
Qed.

Lemma pop_kept w out g' :
  ginv w → gact chain GPop (g_gate w) = (out, g') → kept w GPop out g'.
Proof.
  intros Hg. apply passed_kept; [done|apply pop_keeps|done|done|].
  eapply wp_wand; [apply (pop_finished_spec chain c False any blank), Hg| |done]. by intros out' s' [Hi _].
Qed.

Lemma gact_kept w e out g' :
  ginv w → gallowed w e → gact chain e (g_gate w) = (out, g') → kept w e out g'.
Proof.
  destruct e; [apply submit_kept|apply launch_kept|apply complete_kept|apply rollback_kept|apply cancel_kept
    |apply limit_kept|intros ? _; by apply pop_kept].
Qed.

Lemma gsession_ginv w : gsession chain c w → ginv w.
Proof.
  induction 1 as [w g Hs Hn|w e out w' _ IH [g' Hall Hrun]|w _ IH].
  - unfold gate_new in Hn. simpl in Hn. case_bool_decide as Hfl; [done|]. injection Hn as <-.
    assert (in_flight (w_sched w) = None) as Hno by by apply eq_None_not_Some.
    split; simpl; [|done|done|by rewrite Hno]. eapply inv_mem; [|by apply (session_sinv chain c False any)]. done.
  - by destruct (gact_kept w e out g' IH Hall Hrun).
  - destruct IH as [Hinv Hf Hr Hh]. split; simpl; [done| |done|done]. intros id f d Hfe.
    destruct (Hf id f d Hfe) as (b & ? & ? & _). by exists b.
Qed.

(** ** Pages under device work *)

(** The page can be handed out again. *)
Definition reusable (k : PagedKvCacheManager) (p : N) : Prop :=
  p ∈ free_pages k ∨ ∃ t, evictable k !! t = Some p.

Lemma table_page_kept k r q p : wf k → sequences k !! r = Some q → p ∈ pages q → ¬ reusable k p.
Proof.
  intros Hwf Hq Hp. pose proof (total_le p (sequences k) r q Hq). pose proof (proj2 (occ_pos p (pages q)) Hp).
  assert (0 < held k [] p) as Hheld by (unfold held; lia).
  intros [Hf|[t Ht]].
  - destruct (po_free _ _ _ _ _ _ _ _ (wf_pages _ _ Hwf) p Hf) as (_ & Hz & _). lia.
  - destruct (po_ev_held _ _ _ _ _ _ _ _ (wf_pages _ _ Hwf) t p Ht) as [Hz _]. lia.
Qed.

Lemma flight_pages_kept log s b row cell :
  inv chain c False any blank log s → in_flight s = Some b → row ∈ rows b →
  row_writes (block_size c) row cell →
  ∃ q, seqs s !! request_id row = Some q ∧ cell.1 ∈ pages q ∧ ¬ reusable (kv_cache s) cell.1.
Proof.
  unfold inv. intros Hinv Hb Hin (pos & _ & Hl). rewrite Hb in Hinv. destruct Hinv as [Ho _].
  destruct (up_rows _ _ _ _ _ _ _ _ _ Ho row Hin) as (a & q & _ & Hq & Hop). destruct cell as [p o].
  destruct (locate_page _ _ _ _ _ Hl) as [Hp _]. exists q.
  assert (p ∈ pages q) as Hpq.
  { eapply list_elem_of_lookup_2, prefix_lookup_Some; [exact Hp|apply Hop]. }
  do 2 (split; [done|]). eapply table_page_kept; [apply (up_core _ _ _ _ _ _ _ _ _ Ho)|done..].
Qed.

(** ** The theorems *)

(** C0. While device work of a batch may be running, whatever was called in between, failed or
    panicked: the batch is in flight, its fence is not destroyed with the gate, and the pages
    it writes are held by its requests, can not be handed out, and are read by nobody else. *)
Theorem fence_guards_pages (w : gworld (F := F)) b :
  gsession chain c w → g_running w = Some b →
  in_flight (g_sched w) = Some b ∧ dropped_fence (g_gate w) = None ∧
  ∀ row cell, row ∈ rows b → row_writes (block_size c) row cell →
    private_write c (g_sched w) row cell ∧
    ∃ q, seqs (g_sched w) !! request_id row = Some q ∧ cell.1 ∈ pages q ∧ ¬ reusable (kv_cache (g_sched w)) cell.1.
Proof.
  intros [Hinv Hf Hr _]%gsession_ginv Hrun. specialize (Hr b Hrun). split; [done|]. split.
  - unfold dropped_fence. destruct (fence (g_gate w)) as [[[id f] d]|] eqn:Hfe; [|done]. destruct d; [|done].
    destruct (Hf id f true eq_refl) as (_ & _ & _ & Hno). rewrite Hno in Hrun; done.
  - intros row cell Hin Hw. split; [by eapply rows_write_privately|by eapply flight_pages_kept].
Qed.

(** C0. A call of the gate panics only when the adapter does, and then quarantines the gate;
    a call that fails leaves the scheduler as it was, a launch apart; and a quarantined gate
    stays so, refusing every call but the collection of results with [DeviceLost]. *)
Theorem gate_calls_safe (w : gworld (F := F)) e out w' :
  gsession chain c w → gstep chain w e out w' →
  (out = Panic → adapter_panics chain w e ∧ quarantined (g_gate w') = true) ∧
  (∀ err, out = Err err → (∀ submit, e ≠ GLaunch submit) → g_sched w' = g_sched w) ∧
  (quarantined (g_gate w) = true → quarantined (g_gate w') = true ∧ in_flight (g_sched w') = in_flight (g_sched w) ∧
     (e ≠ GPop → out = Err quarantine_error ∧ g_gate w' = g_gate w)).
Proof.
  intros Hg%gsession_ginv [g' Hall Hrun]. destruct (gact_kept w e out g' Hg Hall Hrun) as [_ Hp He]. simpl.
  split; [done|]. split; [done|]. intros Hq.
  assert (e ≠ GPop → gact chain e (g_gate w) = (Err quarantine_error, g_gate w)) as Hrefuse.
  { intros Hne. destruct e as [p gen [st|]| | | | | |]; try done; cbn [gact];
      unfold gate_submit, gate_submit_sampled, launch, try_complete_logits, try_rollback, poll_fence, gate_cancel,
        gate_set_batch_token_limit, discard, ensure_healthy, bind, gets; by rewrite Hq. }
  assert (e = GPop ∨ e ≠ GPop) as [->|Hne] by (destruct e; auto).
  - cbn [gact] in Hrun. rewrite discard_run in Hrun. unfold gate_pop_finished, sched in Hrun.
    pose proof (pop_keeps (g_sched w)) as Hk. destruct (pop_finished (g_sched w)) as [r s'].
    injection Hrun as _ <-. split; [done|]. split; [exact Hk|done].
  - rewrite (Hrefuse Hne) in Hrun. injection Hrun as <- <-. auto.
Qed.

(** C0. A launch that fails returns the adapter's error, and quarantines the gate exactly when
    the recovery policy quarantines the device: then the batch stays in flight; otherwise it
    is rolled back and no request is in flight. *)
Theorem launch_failure_exact (w : gworld (F := F)) submit b failure policy attempts limit minimum portable :
  gsession chain c w → room (g_sched w) → next_batch (g_sched w) ≤ u64_max →
  handed chain (g_gate w) = Some b → submit b = LaunchFailed failure →
  let quarantine := decide_recovery policy (kind (lf_error failure)) (lf_work failure) (lf_intact failure)
    attempts limit minimum portable = QuarantineDevice in
  ∃ g', launch chain submit (g_gate w) = (Err (lf_error failure), g') ∧
    (quarantined g' = true ↔ quarantine) ∧
    (quarantine → in_flight (scheduler g') = Some b) ∧
    (¬ quarantine → in_flight (scheduler g') = None ∧
       ∀ r a id, active (scheduler g') !! r = Some a → phase a ≠ InFlight id).
Proof.
  intros Hg%gsession_ginv Hroom Hnb Hh Hs quarantine. pose proof (launch_run submit w Hg Hroom Hnb) as Hl.
  rewrite Hh, Hs in Hl. destruct Hl as (_ & _ & s1 & Hfl1 & Hinv1 & Hout & s2 & Hs2 & Hfa). eexists. split; [exact Hout|].
  assert (quarantine ↔ recoverable failure = false) as Hq.
  { unfold quarantine, decide_recovery, recoverable. case_bool_decide; simpl; [done|].
    destruct (lf_intact failure); simpl; [|done]. destruct (fatal (kind (lf_error failure))); simpl; [done|].
    split; [|done]. destruct (max_retries policy <=? attempts); [done|].
    destruct (kind (lf_error failure)); repeat case_match; done. }
  rewrite Hq, Hs2. destruct (recoverable failure); simpl; [|done]. split; [done|]. split; [done|]. intros _.
  assert (in_flight s2 = None) as Hnone by by rewrite (fa_frame _ _ _ _ _ _ _ _ _ Hfa). split; [done|].
  intros r a id Ha Hph. pose proof (fa_inv _ _ _ _ _ _ _ _ _ Hfa) as Hinv2.
  destruct (proj1 (co_dom _ _ _ _ _ _ _ (inv_core _ _ _ _ _ _ _ Hinv2) r)) as [q Hq']; [eauto|].
  pose proof (inv_request_state _ _ _ _ _ _ _ _ _ _ Hinv2 Ha Hq') as Hst. unfold request_state in Hst.
  rewrite Hph in Hst. destruct Hst as (b' & row & Hb' & _). congruence.
Qed.
End proofs.

(** ** Validated logits *)

(** [f32] as the validation uses it: a finite number is above minus infinity, which is above
    nothing that is not [NaN]. *)
Class FloatLaws `{FloatTests} : Prop := {
  finite_not_nan x : is_finite x = true → is_nan x = false;
  finite_above x y : is_finite x = true → is_finite y = false → is_nan y = false → is_pos_inf y = false →
    f32_gt x y = true ∧ f32_gt y x = false;
  masked_equal x y : is_finite x = false → is_nan x = false → is_pos_inf x = false →
    is_finite y = false → is_nan y = false → is_pos_inf y = false → f32_gt x y = false
}.

Section logits.
Context {SM : Sampling} {FT : FloatTests} {FL : FloatLaws}.

(** The two loops agree once a finite logit was seen; before, the greedy one may hold a mask. *)
Definition agree (best greedy : option (N * F32)) : Prop :=
  match best with
  | Some (_, x) => is_finite x = true ∧ greedy = best
  | None => ∀ i x, greedy = Some (i, x) → is_finite x = false ∧ is_nan x = false ∧ is_pos_inf x = false
  end.

Lemma loops_agree l i best greedy r :
  agree best greedy → argmax_loop i l best = Ok r → agree r (greedy_loop i l greedy).
Proof using FL.
  revert i best greedy. induction l as [|x l IH]; intros i best greedy Ha; cbn [argmax_loop greedy_loop].
  { by intros [= <-]. }
  destruct (is_nan x) eqn:Hn; [done|]. destruct (is_pos_inf x) eqn:Hp; [done|]. simpl. apply IH.
  destruct best as [[j m]|]; simpl in Ha; [destruct Ha as [Hm ->]|destruct greedy as [[j m]|]]; destruct (is_finite x) eqn:Hx; simpl.
  - by destruct (f32_gt x m).
  - by destruct (finite_above m x Hm Hx Hn Hp) as [_ ->].
  - destruct (Ha j m eq_refl) as (Hm & Hmn & Hmp). by destruct (finite_above x m Hx Hm Hmn Hmp) as [-> _].
  - destruct (Ha j m eq_refl) as (Hm & Hmn & Hmp). rewrite (masked_equal x m) by done. naive_solver.
  - done.
  - naive_solver.
Qed.

(** On a row the gate accepts, greedy selection takes the token the validation found. *)
Lemma checked_argmax_greedy v i : checked_argmax v = Ok i → i ≤ i32_max → greedy_token v = Ok (Z.of_N i).
Proof using FL.
  unfold checked_argmax, greedy_token. destruct (argmax_loop 0 v None) as [[[j x]|]|e|] eqn:Hl; simpl; try done.
  intros [= ->] Hi. destruct (loops_agree v 0 None None _ ltac:(done) Hl) as [_ ->].
  by destruct (N.ltb_spec i32_max i); [lia|].
Qed.
End logits.

(** ** Witnesses *)

#[export] Instance mini_floats : FloatTests := {| is_pos_inf _ := false; is_finite _ := true |}.

#[export] Instance mini_float_laws : FloatLaws.
Proof. by split. Qed.

#[export] Instance mini_text : ErrorText := {| to_string _ := "refused" |}.

Definition wrapped_world : gworld (F := unit) :=
  mkGworld (mkGate (w_sched reserved_world) None false) (w_log reserved_world) None.
Definition launching : gevent (F := unit) := GLaunch (λ _, Launched tt).
Definition gafter (w : gworld) (e : gevent (F := unit)) : gworld :=
  let out := gact mini_chain e (g_gate w) in mkGworld out.2 (glogged w e out.1) (running_after mini_chain w e).
Definition launched_world : gworld := gafter wrapped_world launching.

Lemma wrapped_world_session : gsession mini_chain mini_cache wrapped_world.
Proof.
  apply (gsession_new _ _ reserved_world); [apply reserved_world_session|]. unfold gate_new.
  by replace (has_in_flight_batch (sch_snapshot (w_sched reserved_world))) with false by (vm_compute; reflexivity).
Qed.
Lemma launching_step : gstep mini_chain wrapped_world launching (gact mini_chain launching (g_gate wrapped_world)).1 launched_world.
Proof.
  apply gstep_intro; [|apply surjective_pairing].
  assert (roomb (w_sched reserved_world) = true) as Hroom by (vm_compute; reflexivity).
  destruct (roomb_room _ Hroom) as (? & ? & ?). repeat split; done.
Qed.
Lemma launched_world_session : gsession mini_chain mini_cache launched_world.
Proof. eapply gsession_step; [apply wrapped_world_session|apply launching_step]. Qed.

Lemma fence_guards_pages_witness :
  ∃ b, g_running launched_world = Some b ∧ in_flight (scheduler (g_gate launched_world)) = Some b.
Proof.
  assert (match g_running launched_world with Some _ => true | None => false end = true) as Hsome by (vm_compute; reflexivity).
  destruct (g_running launched_world) as [b|] eqn:Hb; [|discriminate Hsome].
  exists b. split; [reflexivity|].
  exact (proj1 (fence_guards_pages mini_chain mini_cache launched_world b launched_world_session Hb)).
Defined.

Lemma gate_calls_safe_witness :
  (gact mini_chain launching (g_gate wrapped_world)).1 = Panic →
  adapter_panics mini_chain wrapped_world launching ∧ quarantined (g_gate launched_world) = true.
Proof.
  exact (proj1 (gate_calls_safe mini_chain mini_cache wrapped_world launching _ launched_world
    wrapped_world_session launching_step)).
Defined.

Definition out_of_memory : BatchLaunchFailure :=
  mkLaunchFailure (mkRuntimeError OutOfMemory "prelaunch allocation failed") NotSubmitted true.
Lemma launch_failure_exact_witness :
  ∃ g', launch mini_chain (λ _, LaunchFailed out_of_memory) (g_gate wrapped_world)
      = (Err (lf_error out_of_memory), g') ∧ in_flight (scheduler g') = None.
Proof.
  assert (match handed mini_chain (g_gate wrapped_world) with Some _ => true | None => false end = true) as Hsome
    by (vm_compute; reflexivity).
  destruct (handed mini_chain (g_gate wrapped_world)) as [b|] eqn:Hb; [|discriminate Hsome].
  assert (roomb (w_sched reserved_world) = true) as Hroom by (vm_compute; reflexivity).
  destruct (launch_failure_exact mini_chain mini_cache wrapped_world (λ _, LaunchFailed out_of_memory) b out_of_memory
    default_policy 0 8 1 false wrapped_world_session (proj1 (roomb_room _ Hroom)) (proj1 (proj2 (roomb_room _ Hroom)))
    Hb eq_refl) as (g' & Hrun & _ & _ & Hroll).
  exists g'. split; [exact Hrun|]. apply Hroll. discriminate.
Defined.

(** [new] also wraps a scheduler that drafts, but the gate has no completion that verifies:
    the batch of drafts is completed by its logits, and drafts nobody verified are committed. *)
Definition drafting_gate : FencedBatchScheduler unit :=
  mkGate (w_sched (default paged_start (play 2 (take 12 mini_session) paged_start))) None false.
Lemma gate_commits_drafts :
  let launched := launch mini_chain (λ _, Launched tt) drafting_gate in
  let completed := try_complete_logits mini_chain (λ f, (Ok (PollReady tt), f)) 5 [0; 0; 1]%Z 3 launched.2 in
  gate_new (scheduler drafting_gate) = Ok drafting_gate ∧ completed.1 = Ok (PollReady [2%Z]) ∧
  ∃ a q, active (scheduler completed.2) !! 1 = Some a ∧ sequences (kv_cache (scheduler completed.2)) !! 1 = Some q ∧
    len (history a) < committed_tokens q.
Proof. vm_compute. split; [done|]. split; [done|]. eauto. Qed.
